(* ===== verification/_CoqProject ===== *)
-Q . S2P
Prelude.v
Primitives.v
Difficulty.v
Types.v
BlockTime.v
Persistence.v
Codec.v
Seam.v
Status.v
Mempool.v
MempoolCorrect.v
ChainGraph.v
ChainHead.v
Coherence.v
Dag.v
Scheduler.v
Reader.v
BlockDecode.v
Engine.v
EngineCorrect.v
EngineSync.v
Bridge.v
BridgeCorrect.v
TreeSegment.v
TreeState.v
Indexes.v
IndexSet.v
Store.v
StoreCorrect.v
Address.v
HistoryCorrect.v
AddressCorrect.v
Repair.v
RepairCorrect.v
Head.v
View.v
HeadCorrect.v
ViewCorrect.v
LocalAddress.v
Composed.v
Queries.v
QueriesCorrect.v
BlockDeltas.v
Subtrees.v
TreeServe.v
TreeServeCorrect.v
SubtreeServe.v
RunLog.v
Lmdb.v
LmdbMerge.v
LmdbFinish.v
LmdbExample.v
