(* ===== verification/Prelude.v ===== *)
(** * Zaino: a verification development of the indexer's core

    Zaino is an indexer for the Zcash chain. A validator supplies blocks; a
    volatile tier (the chain head) keeps the last blocks as a graph that follows
    reorganisations; a mempool mirror follows the validator's unconfirmed
    transactions and is served when it agrees with that tip; a durable tier
    builds indexes batch by batch with a dependency-driven scheduler and stores
    them through a key-value port, from which the finalised store answers; a seam
    tells each tier how far the other got; a routing core composes the two tiers
    into one view of the chain and answers the wallets' and explorers' queries
    from it; block bytes are decoded to domain blocks without third-party code.
    This library models those parts as executable functions and proves the
    properties that make them correct. Paths below are relative to [src/packages].

    ** Files

    - [Prelude] (this file): results, machine-width integers, byte strings, hint
      databases, tactics.
    - [Primitives]: modules [Height], [Work], [Zatoshis], the arithmetic of
      [zaino-primitives/src/types/{height.rs,work,zatoshis}].
    - [Difficulty]: modules [U256] and [CompactDifficulty]
      ([types/compact_difficulty.rs], [compact_difficulty/u256.rs]): 256-bit limb
      arithmetic, long division, the meaning of [nBits].
    - [Types]: blocks, transactions and references ([types/block.rs],
      [transaction.rs], ..., [zaino-chain-head/src/block.rs]), and the class
      [HashIter]: the arbitrary but complete order in which a [HashMap] or
      [HashSet] is traversed.  Theorems quantify over it.
    - [Persistence] ([zaino-persistence/src/{backend,in_memory}.rs]): [Bytes], the
      order of raw keys, and [Kv], the key-value port as a record of operations,
      its promise as the class [BackendSpec], the in-memory and delaying backends.
    - [Codec] ([zaino-persistence-codec/src/{layout,lib,keys,watermark}.rs] and
      what [zaino-persistence-macros] derives): [Layout], fixed record layouts;
      [Codec], typed entries, format stamps, loading, the watermark.
    - [Seam] ([zaino-finality/src/seam.rs]): the reorg horizon and the durable
      watermark as one state; the tiers' moves are the relation [Seam.step], in
      which the durable tier may present any token ever issued.
    - [Status] ([zaino-status/src/status.rs]).
    - [ChainGraph] ([zaino-chain-head-service/src/snapshot.rs], [graph.rs]): the
      retained blocks, the canonical height index and the tip; moves and reads.
      Its contract is the record [graph_ok], relative to a [tree] that says which
      block a hash names.
    - [ChainHead] ([zaino-chain-head-service/src/service.rs]): the writer.  The
      validator is the record [Source] of questions over a state that may change
      at every question; the writer is a state and error monad over it, [None]
      being a panic or a loop out of fuel.
    - [Mempool] ([zaino-mempool/src], [zaino-mempool-service/src/{service,subscriber}]):
      the mempool writer, its snapshots, the change feed and the exclude filter.  The
      validator, the clock and the adjustable cost bound are the record [Outside] of
      questions; [MempoolCorrect] proves the writer, with its promise about the
      outside as the class [OutsideOk].
    - [Coherence] ([zaino-mempool/src/{tip,event}.rs],
      [zaino-mempool-service/src/coherence]): the view of the mempool that is only
      served at the tip it was read at, its streams, and the system of writer and
      view ([sys_step]).
    - [Dag] ([zaino-sync/src/dag.rs], [descriptor.rs]): validation of index
      descriptors and Kahn's layering.
    - [Scheduler] ([zaino-sync/src/scheduler.rs], [block_buffer.rs]): what may be
      extracted, merged and committed; [Scheduler.step] lets completions arrive
      in any order.
    - [Reader] ([zaino-block-decode/src/reader.rs]): the byte cursor as a parser
      monad, with two small logics: [parses] (an encoding is read as a value,
      whatever follows) and [bounded] (the cursor stays in range).
    - [BlockDecode] ([zaino-block-decode/src/{transaction,txid,header,project,
      lib}.rs]): the transaction walk for versions 1 to 6, transaction ids,
      headers, coinbase heights, projection.  SHA-256 and BLAKE2b come from other
      crates and are parameters.

    - [Engine] ([zaino-sync/src/{engine,pipeline,traits}.rs]): construction, block
      supply, extraction, merge, atomic commit, eviction, [sync_range] and
      [sync_channel], in a state and error monad; a pipeline is a record of
      operations over its own state.  [EngineCorrect] holds the invariants of one
      turn of the loop, [EngineSync] the theorems on whole synchronisations.
    - [Bridge] ([zaino-sync/src/bridge.rs]): the pipelines built from an index
      definition: block-local, cumulative, append-cumulative with its sequential
      and ordered-monoid strategies, cross-index.  [BridgeCorrect] proves them and
      discharges the interface ([pipe_ok]) the engine's theorems ask for.
    - [TreeSegment] and [TreeState] ([zaino-indexes/src/indexes/tree_state/{segment,
      sync,codec,pools}.rs]): the note-commitment tree index.  Segments of complete
      nodes form the monoid of the parallel build.  The crate
      [incrementalmerkletree] is the class [Imt] with its documented behaviour as
      [ImtLaws], shown satisfiable by the instance [Counter]; hash functions and
      leaf conversions are parameters.

    - [Indexes] ([zaino-indexes/src/indexes], [types/script.rs]): the contexts,
      extraction, schemas, record layouts and codecs of the eleven other indexes,
      each with the laws the bridges assume.  [IndexSet]
      ([zaino-indexes/src/{sets,capabilities.rs}], [zaino-service/src/capability.rs]):
      the shared context, its projection from a block and from a compact block,
      the index sets and the serviceability manifest.
    - [Store] ([zaino-store/src/{lib,spend,spend_resolve,transaction_location}.rs])
      and [Address] ([zaino-store/src/address.rs], [zaino-address/src/transparent.rs],
      the address-history scan and the read budget): the finalised store's reads over
      any backend.  [StoreCorrect], [HistoryCorrect] and [AddressCorrect] prove them
      against the chain that was indexed.
    - [Repair] ([zaino-store/src/{watermark_repair,index_coverage}.rs]) and
      [RepairCorrect]: what runs when a store is opened.
    - [BlockTime] ([zaino-consensus/src/block_time.rs]): median-time-past and the
      resumable search for the heights of a timestamp range.
    - [Head] ([zaino-chain-head-service/src/{serve,spend,address,
      transaction_location}.rs]): the ports of [zaino-service/src/reads.rs] as records
      of operations, and the head's window as a provider of them.  [HeadCorrect]
      states what a tier promises ([TierSpec], [SpendReadSpec]) and proves the head's
      promises.
    - [View] ([zaino-core/src/chain_view], [nullifiers.rs],
      [engine/{snapshot,block,block_hash,spend,address}.rs]): the composed view and the
      reads the engine answers locally.  [ViewCorrect] proves them against the tiers'
      promises and discharges those for the store, [LocalAddress] does so for address
      history ([AddressReadSpec], [ReceiveReadSpec]), and [Composed] puts the store and
      the head together.
    - [Queries] and [QueriesCorrect] ([zaino-service/src/queries.rs]): questions about
      several addresses under one budget, over the composed engine.
    - [BlockDeltas] ([zaino-core/src/prevout.rs],
      [engine/{transaction_view,block_deltas}.rs]): the outputs that inputs spend, and a
      block's value movements with its median time; the validator's answers are the
      record [Passthrough].
    - [Subtrees] ([zaino-indexes/src/indexes/subtrees.rs], [subtrees/{pool,codec}.rs]):
      the index of completed note-commitment subtrees, a cross index over
      [tree_state]; a pool is the record [SubtreePool] with its promise [PoolSpec].
    - [TreeServe] ([zaino-indexes/src/indexes/tree_state/serve.rs],
      [zaino-store/src/tree_state.rs], [zaino-chain-head-service/src/tree_state.rs],
      [zaino-core/src/engine/treestate.rs], [types/pool_activations.rs]): treestates and
      subtree roots as the store, the window and the engine serve them; the serialised
      tree is the class [LegacyTree], its documented round trip [LegacyLaws].
      [TreeServeCorrect] proves treestates, [SubtreeServe] subtree roots.
    - [RunLog] ([zaino-backend-lmdb/src/deferred/log.rs]): the segments of a run log,
      their checksum, and the cursor that streams one back.  [Lmdb]
      ([zaino-backend-lmdb/src/{lib,deferred}.rs], [deferred/{manifest,merge}.rs]): the
      LMDB backend, with bulk writes deferred to run logs and the merge that loads
      them.  The library LMDB is the class [LmdbLib], its documented behaviour
      [LmdbSpec]; the files take a list of outcomes, one per call.  [LmdbMerge] and
      [LmdbFinish] prove the merge; [LmdbExample] has an environment in memory that
      meets [LmdbSpec] and the runs on it.

    ** What the theorems show

    - Block graph and writer: every move keeps the contract; reads (fork points,
      tips, best chain, transaction locations, spenders) agree with what they
      are documented to mean; a reorg ends where it was asked to and loses
      nothing; the published tip has the most chain work although work is only
      kept relative to the window's anchor; an iteration terminates; trimming
      respects the reorg window and the durable tier; epochs name one tip each.
    - Seam: the watermark never passes the horizon and neither goes back.
    - Mempool: snapshots are well formed and within their cost bound whatever the
      validator answers; a poll mirrors the listing it read or keeps what it had; the
      change feed replays to the published set; a view valid for an epoch holds a set
      read at that epoch's tip; streams miss nothing while the view stays live.
    - Sync: the DAG builder is a decision procedure for well-formed descriptor
      sets with exact errors and phases; the scheduler never commits a batch
      before its dependencies, offers exactly the work that is safe, and commits
      batches consecutively; the buffer is a sliding window.
    - Engine: [sync_range] terminates, panics on no path, commits every block of
      every index in atomic batches in order, and the watermark it leaves in the
      store is the last height; a commit takes exactly the batches every index
      has persisted.
    - Storage: the in-memory backend refines a finite map; record layouts are
      exact bijections; what batches of typed entries store loads back, in key
      order, under a format stamp that guards against other formats.
    - Bridges: the order in which blocks are extracted does not matter; the
      parallel ordered-monoid strategy computes what the sequential one does; a
      restarted index resumes with the carry it had; entries of another format
      are never read.
    - Tree state: combining segments is a homomorphism from concatenation, a
      looked-up frontier is the appended frontier, and so the index stores the
      frontiers of the sequential build in each of the three pools.
    - Decoding: wire encodings of transactions and blocks decode to what they
      encode, encodings of counts and coinbase heights are unique, ids ignore
      authorising data, and no input is read out of bounds.
    - Arithmetic: difficulty, work and amounts at their machine widths.
    - Indexes and store: indexing a chain batch by batch makes the store serve
      exactly that chain: compact blocks by height and hash, headers, locations,
      spends, and the balance, deltas and transaction ids of addresses; the context
      of a block is the same from either projection.
    - Boot: the watermark repair trims a store to the run its headers hold and leaves
      a sound store alone; the coverage guard opens exactly the stores whose indexes
      are stamped.
    - Timestamp search: it ends within 800 header reads and brackets every block of
      the range, because median-time-past never goes back; [getblockhashes] is exact.
    - Composed view: over a store and a window of one chain, every block and header
      is served from the side that holds it, gaps are refused, misses are misses;
      balances are exact across the seam; deltas, transaction ids and spends are
      exact but for the flaws below.
    - Queries: the answers about several addresses are the union of the chain's
      facts, in chain order, each id once.
    - Block deltas: inputs resolve one by one as in the block or the validator;
      the median time is of the block's own ancestry, whether the local chain is
      ahead of it, behind it or on another branch.
    - Subtrees and treestates: the subtree index holds the roots of the chain's
      completed subtrees, numbered without gaps, wherever batches cut them; the
      treestates and pages of subtree roots composed from store and window are the
      chain's on both sides of the seam.
    - LMDB backend: a segment streams back as it was written however the reads fall;
      [finish_bulk] ends, fails only if LMDB does, and leaves each namespace merged,
      later segments winning, or pending with the same result to come.
    - Behaviour at odds with comments or intent is recorded by theorems: a partial
      batch that is never merged, a transaction a stream misses after a thaw, a gap
      after re-anchoring, indexes reported as part of a cycle they only read from
      (closed, in modules [Example]); an unspent output of the window that is denied
      ([local_spend_reads]), unspent outputs listed twice where the tiers overlap
      ([explorer_utxos_doubled]), spends in the window that are missed when the
      output was received just below the asked range ([explorer_deltas_exact]),
      subtree roots served over a gap that lack its commitments
      ([window_roots_over_gap]), and three ways a deferred write is lost: entries below
      the mark of an interrupted merge, a torn append that is not cut back, and a log
      removed before its merge is durable (closed, in [LmdbExample]).

    ** Fuel and bounds

    The writer's extension loop takes fuel; [max_depth] turns suffice
    ([tick_terminates]).  The reorg descent counts its own turns as the code does
    and needs no other fuel.  Walks up the parents in the graph take the number
    of retained blocks as fuel, enough because parents have lower heights; Kahn's
    loop takes the number of descriptors, enough because each layer is not empty
    ([build_decides] shows that an answer is always reached).  [sync_range] takes
    fuel; [sync_fuel], computed from the engine and the blocks, is enough
    ([sync_range_complete]).  The watermark repair searches down from the claimed
    height and trims one stored entry per turn, and takes that much fuel.  A poll of
    the timestamp search takes at most 70 turns, two binary searches over 31-bit
    heights, and its driver at most 800 reads, eleven per probe
    ([candidate_search_complete]); the walk of a median time takes eleven turns.  The
    merge of a run log takes the log's length in bytes as fuel, which exceeds its
    records ([finish_bulk_exact]), and a cursor fills its buffer in at most one read
    per byte left.  The
    commit loop takes one turn per recorded batch
    height, and [TreeSegment.lift] at most [DEPTH] levels, as in the code.  A panic
    of the engine or of a bridge is [None].  Work that rayon does in parallel is
    done in an order taken from a parameter ([ParOrder], [ParReduce]) the theorems
    quantify over.  Integers are [Z]
    with the width's checks written out; the scheduler's counters are [nat],
    being bounded by a [u32] count of blocks.

    ** Not modelled

    Sleeping, cancellation, wake-ups, logging and metrics of the writer; profiling
    and tracing of the engine; channel capacities and timers; the atomicity with
    which the two tiers' snapshots are captured (theorems take one chain for both).
    The byte formats of the Merkle library and the parsing of address strings, which
    are parameters, being third-party codecs; the passthrough adapter's error mapping
    and raw transaction reads.
    LMDB itself (a class), the separate read handle of its backend and the sizing of
    its environment.  Network and RPC adapters, generated code, procedural macros (what the
    persistence macro emits is modelled), process supervision, and the previous
    architecture's database and state service. *)

From stdpp Require Import base gmap sets list strings sorting list_numbers.
From Stdlib Require Import ZArith Lia.

Open Scope Z_scope.

(** ** Results

    Rust's [Result<T, E>]; [Option<T>] is Rocq's [option]. *)
Inductive result (T E : Type) : Type :=
| Ok (t : T)
| Err (e : E).
Arguments Ok {T E} t.
Arguments Err {T E} e.

Declare Scope rust_scope.
Delimit Scope rust_scope with rust.
Open Scope rust_scope.

(** The [?] operator on a [Result]. *)
Notation "'let?' x ':=' c 'in' k" :=
  (match c with Ok x => k | Err e__ => Err e__ end)
  (at level 10, x pattern, c at level 200, k at level 200) : rust_scope.

(** The [?] operator on an [Option]. *)
Notation "'let!' x ':=' c 'in' k" :=
  (match c with Some x => k | None => None end)
  (at level 10, x pattern, c at level 200, k at level 200) : rust_scope.

(** [Option::ok_or] and [Result::ok]. *)
Definition ok_or {T E} (o : option T) (e : E) : result T E :=
  match o with Some t => Ok t | None => Err e end.
Definition ok {T E} (r : result T E) : option T :=
  match r with Ok t => Some t | Err _ => None end.
(** [Result::map_err]. *)
Definition map_err {T E F} (f : E -> F) (r : result T E) : result T F :=
  match r with Ok t => Ok t | Err e => Err (f e) end.
(** Collecting an iterator of results. *)
Fixpoint map_result {A B E} (f : A -> result B E) (l : list A) : result (list B) E :=
  match l with
  | [] => Ok []
  | x :: l => let? y := f x in let? rest := map_result f l in Ok (y :: rest)
  end.
Definition is_ok {T E} (r : result T E) : bool :=
  match r with Ok _ => true | Err _ => false end.

(** ** Machine-width integers

    An unsigned [w]-bit Rust integer is a [Z] in [0, 2^w).  Every operation
    that can leave the range says what happens there, as the Rust operation
    does: [checked_*] answers [None], [saturating_*] clamps, [wrapping_*]
    reduces modulo [2^w]. *)
Definition uint (w z : Z) : Prop := 0 <= z < 2 ^ w.
Definition umax (w : Z) : Z := 2 ^ w - 1.

Definition checked_add (w a b : Z) : option Z :=
  if a + b <? 2 ^ w then Some (a + b) else None.
Definition checked_sub (a b : Z) : option Z :=
  if b <=? a then Some (a - b) else None.
Definition checked_mul (w a b : Z) : option Z :=
  if a * b <? 2 ^ w then Some (a * b) else None.
Definition saturating_sub (a b : Z) : Z := Z.max 0 (a - b).
Definition saturating_add (w a b : Z) : Z := Z.min (umax w) (a + b).
Definition wrapping (w z : Z) : Z := z mod 2 ^ w.
(** [uN::try_from] of a wider unsigned value. *)
Definition try_narrow (w z : Z) : option Z :=
  if z <? 2 ^ w then Some z else None.

Global Instance uint_dec w z : Decision (uint w z).
Proof. unfold uint; apply _. Defined.

(** ** Automation *)
Create HintDb zaino discriminated.
Create Rewrite HintDb zaino_len.

(** Case on every [match]/[if] scrutinee of the hypotheses and the goal and
    clean up the equations this leaves. *)
Ltac crush_match :=
  repeat (first [ progress simplify_eq/= | case_match ]).

(** Turn every boolean comparison on [Z] into its proposition. *)
Ltac zbool :=
  repeat match goal with
  | H : (_ <? _) = true |- _ => apply Z.ltb_lt in H
  | H : (_ <? _) = false |- _ => apply Z.ltb_ge in H
  | H : (_ <=? _) = true |- _ => apply Z.leb_le in H
  | H : (_ <=? _) = false |- _ => apply Z.leb_gt in H
  | H : (_ =? _) = true |- _ => apply Z.eqb_eq in H
  | H : (_ =? _) = false |- _ => apply Z.eqb_neq in H
  | H : (_ && _)%bool = true |- _ => apply andb_prop in H as [? ?]
  | H : negb _ = true |- _ => apply negb_true_iff in H
  | H : negb _ = false |- _ => apply negb_false_iff in H
  end.

(** Case on an innermost boolean test of the goal. *)
Ltac case_if :=
  match goal with
  | |- context [if ?b then _ else _] =>
      lazymatch type of b with
      | bool =>
          lazymatch b with
          | context [match _ with _ => _ end] => fail
          | _ => let E := fresh "E" in destruct b eqn:E
          end
      end
  end; zbool.

(** The same in a hypothesis, discarding the contradictory branches. *)
Ltac case_if_in H :=
  match type of H with
  | context [if ?b then _ else _] =>
      lazymatch type of b with
      | bool =>
          lazymatch b with
          | context [match _ with _ => _ end] => fail
          | _ => let E := fresh "E" in destruct b eqn:E
          end
      end
  end; simplify_eq/=; zbool.

(** ** Facts about the integer operations *)
Lemma checked_add_Some w a b c :
  checked_add w a b = Some c <-> c = a + b /\ a + b < 2 ^ w.
Proof. unfold checked_add. case_match; zbool; naive_solver lia. Qed.

Lemma checked_add_None w a b :
  checked_add w a b = None <-> 2 ^ w <= a + b.
Proof. unfold checked_add. case_match; zbool; naive_solver lia. Qed.

Lemma checked_sub_Some a b c :
  checked_sub a b = Some c <-> c = a - b /\ b <= a.
Proof. unfold checked_sub. case_match; zbool; naive_solver lia. Qed.

Lemma checked_sub_None a b : checked_sub a b = None <-> a < b.
Proof. unfold checked_sub. case_match; zbool; naive_solver lia. Qed.

Lemma checked_mul_Some w a b c :
  checked_mul w a b = Some c <-> c = a * b /\ a * b < 2 ^ w.
Proof. unfold checked_mul. case_match; zbool; naive_solver lia. Qed.

Lemma try_narrow_Some w z c : try_narrow w z = Some c <-> c = z /\ z < 2 ^ w.
Proof. unfold try_narrow. case_match; zbool; naive_solver lia. Qed.

Lemma ok_or_Ok {T E} (o : option T) (e : E) t :
  ok_or o e = Ok t <-> o = Some t.
Proof. destruct o; naive_solver. Qed.

Lemma uint_nonneg w z : uint w z -> 0 <= z.
Proof. unfold uint; lia. Qed.
Global Hint Resolve uint_nonneg : zaino.

(** ** Bytes

    A byte string is a list of [Z] in [0, 256); [to_le_bytes]/[from_le_bytes]
    and their big-endian counterparts are the Rust integer conversions at a
    width of [n] bytes. *)
Definition byte_ok (b : Z) : Prop := 0 <= b < 256.

Fixpoint to_le_bytes (n : nat) (z : Z) : list Z :=
  match n with
  | O => []
  | S n => z mod 256 :: to_le_bytes n (z / 256)
  end.
Fixpoint from_le_bytes (bs : list Z) : Z :=
  match bs with
  | [] => 0
  | b :: bs => b + 256 * from_le_bytes bs
  end.
Definition to_be_bytes (n : nat) (z : Z) : list Z := reverse (to_le_bytes n z).
Definition from_be_bytes (bs : list Z) : Z := from_le_bytes (reverse bs).

Lemma length_to_le_bytes n z : length (to_le_bytes n z) = n.
Proof. revert z. induction n; intros z; simpl; auto. Qed.

Lemma length_to_be_bytes n z : length (to_be_bytes n z) = n.
Proof. unfold to_be_bytes. by rewrite length_reverse, length_to_le_bytes. Qed.

Lemma to_le_bytes_ok n z : Forall byte_ok (to_le_bytes n z).
Proof.
  revert z. induction n; intros z; simpl; constructor; auto.
  unfold byte_ok. apply Z.mod_pos_bound. lia.
Qed.

Lemma to_be_bytes_ok n z : Forall byte_ok (to_be_bytes n z).
Proof. apply Forall_reverse, to_le_bytes_ok. Qed.

Lemma pow_bytes_S (n : nat) : 2 ^ (8 * Z.of_nat (S n)) = 256 * 2 ^ (8 * Z.of_nat n).
Proof.
  replace (8 * Z.of_nat (S n)) with (8 + 8 * Z.of_nat n) by lia.
  by rewrite Z.pow_add_r by lia.
Qed.

Lemma from_le_bytes_bound bs :
  Forall byte_ok bs -> uint (8 * Z.of_nat (length bs)) (from_le_bytes bs).
Proof.
  unfold uint, byte_ok. induction 1 as [|b bs Hb _ IH]; [simpl; lia|].
  cbn [length from_le_bytes]. rewrite pow_bytes_S. lia.
Qed.

Lemma from_be_bytes_bound bs :
  Forall byte_ok bs -> uint (8 * Z.of_nat (length bs)) (from_be_bytes bs).
Proof.
  intros H. unfold from_be_bytes. rewrite <- (length_reverse bs).
  by apply from_le_bytes_bound, Forall_reverse.
Qed.

(** Decoding what was encoded gives the number back, at its width. *)
Lemma from_to_le_bytes n z :
  uint (8 * Z.of_nat n) z -> from_le_bytes (to_le_bytes n z) = z.
Proof.
  revert z. induction n as [|n IH]; intros z [Hz Hlt].
  - simpl in *. lia.
  - rewrite pow_bytes_S in Hlt. cbn [to_le_bytes from_le_bytes].
    rewrite IH.
    + pose proof (Z.div_mod z 256). lia.
    + split; [apply Z.div_pos; lia|apply Z.div_lt_upper_bound; lia].
Qed.

Lemma from_to_be_bytes n z :
  uint (8 * Z.of_nat n) z -> from_be_bytes (to_be_bytes n z) = z.
Proof.
  intros. unfold from_be_bytes, to_be_bytes.
  rewrite reverse_involutive. by apply from_to_le_bytes.
Qed.

(** Encoding what was decoded gives the bytes back. *)
Lemma to_from_le_bytes bs :
  Forall byte_ok bs -> to_le_bytes (length bs) (from_le_bytes bs) = bs.
Proof.
  unfold byte_ok. induction 1 as [|b bs Hb _ IH]; [done|].
  cbn [length to_le_bytes from_le_bytes]. rewrite (Z.mul_comm 256).
  rewrite Z.mod_add, Z.mod_small, Z.div_add, Z.div_small, Z.add_0_l by lia.
  by rewrite IH.
Qed.

Lemma to_from_be_bytes bs :
  Forall byte_ok bs -> to_be_bytes (length bs) (from_be_bytes bs) = bs.
Proof.
  intros H. unfold to_be_bytes, from_be_bytes.
  rewrite <- (length_reverse bs), to_from_le_bytes by by apply Forall_reverse.
  apply reverse_involutive.
Qed.

Global Hint Rewrite length_to_le_bytes length_to_be_bytes : zaino_len.
Global Hint Resolve to_le_bytes_ok to_be_bytes_ok : zaino.

Lemma from_le_bytes_app l1 l2 :
  from_le_bytes (l1 ++ l2) = from_le_bytes l1 + 2 ^ (8 * Z.of_nat (length l1)) * from_le_bytes l2.
Proof.
  induction l1 as [|b l1 IH]; [simpl; lia|].
  cbn [app from_le_bytes length]. rewrite IH, pow_bytes_S. lia.
Qed.

Lemma from_be_bytes_app l1 l2 :
  from_be_bytes (l1 ++ l2) = 2 ^ (8 * Z.of_nat (length l2)) * from_be_bytes l1 + from_be_bytes l2.
Proof.
  unfold from_be_bytes. rewrite reverse_app, from_le_bytes_app, length_reverse. lia.
Qed.

(** ** Lists *)

(** An [omap] that never drops is a [map]. *)
Lemma lookup_omap_total {A B} (f : A -> option B) (l : list A) (i : nat) :
  (forall x, x ∈ l -> is_Some (f x)) -> omap f l !! i = (l !! i) ≫= f.
Proof.
  revert i. induction l as [|x l IH]; intros i Hf; [done|].
  destruct (Hf x ltac:(left)) as [y Hy]. cbn. rewrite Hy.
  destruct i as [|i]; [done|]. cbn. apply IH. intros x' Hx'. apply Hf. by right.
Qed.

Lemma StronglySorted_seqZ lo n : StronglySorted Z.le (seqZ lo n).
Proof.
  destruct (Z.le_gt_cases n 0) as [Hn|Hn]; [rewrite seqZ_nil by lia; constructor|].
  revert lo. replace n with (Z.of_nat (Z.to_nat n)) by lia. clear Hn.
  induction (Z.to_nat n) as [|k IH]; intros lo; [constructor|].
  rewrite seqZ_cons by lia. constructor.
  - replace (Z.pred (Z.of_nat (S k))) with (Z.of_nat k) by lia. apply IH.
  - apply Forall_forall. intros x Hx%elem_of_seqZ. lia.
Qed.

(** Sorting the members of an interval lists the interval. *)
Lemma merge_sort_interval (l : list Z) lo n :
  NoDup l -> (forall x, x ∈ l <-> lo <= x < lo + n) -> merge_sort Z.le l = seqZ lo n.
Proof.
  intros Hnd Hin. apply (StronglySorted_unique Z.le).
  - apply StronglySorted_merge_sort; apply _.
  - apply StronglySorted_seqZ.
  - rewrite merge_sort_Permutation. apply NoDup_Permutation; [done|apply NoDup_seqZ|].
    intros x. rewrite Hin, elem_of_seqZ. lia.
Qed.
