(* ===== verification/Primitives.v ===== *)
(** * Domain primitives ([packages/zaino-primitives/src/types])

    Block heights, proof-of-work totals and zatoshi quantities. *)

From S2P Require Import Prelude.
From stdpp Require Import base list sets.
From Stdlib Require Import ZArith Lia.
Open Scope Z_scope.

(** ** [height.rs] *)
Module Height.

(** The newtype [Height(u32)] is its number; [valid] is the invariant every
    constructor enforces. *)
Definition MAX_HEIGHT : Z := Z.shiftl 1 31 - 1.
Definition valid (h : Z) : Prop := 0 <= h <= MAX_HEIGHT.
Definition GENESIS : Z := 0.

(** [Height::checked_add] *)
Definition height_checked_add (self delta : Z) : option Z :=
  let! sum := checked_add 32 self delta in
  if MAX_HEIGHT <? sum then None else Some sum.
(** [Height::checked_sub] *)
Definition height_checked_sub (self delta : Z) : option Z := checked_sub self delta.
(** [Height::saturating_sub] *)
Definition height_saturating_sub (self delta : Z) : Z := saturating_sub self delta.
(** [Height::abs_diff] *)
Definition abs_diff (self other : Z) : Z := Z.abs (self - other).
(** [TryFrom<u32> for Height]; the error carries the rejected value. *)
Definition try_from (h : Z) : result Z Z :=
  if MAX_HEIGHT <? h then Err h else Ok h.

End Height.

(** ** [work/single_block_work.rs] and [work/absolute_chain_work.rs]

    A [NonZeroU128] is its value; [valid] is the type's invariant. *)
Module Work.

Definition valid (w : Z) : Prop := 0 < w < 2 ^ 128.

Inductive ZeroWork := mkZeroWork.
Inductive ChainWorkOverWidth := mkChainWorkOverWidth (high : Z).
Inductive WorkOverflow := mkWorkOverflow.
Inductive WorkUnderflow := mkWorkUnderflow.

(** [NonZeroU128::new] *)
Definition nonzero (v : Z) : option Z := if v =? 0 then None else Some v.

(** [SingleBlockWork::try_new] *)
Definition try_new (value : Z) : result Z ZeroWork := ok_or (nonzero value) mkZeroWork.

(** [split]: the high and low halves of 32 big-endian bytes. *)
Definition split (bytes : list Z) : Z * Z :=
  (from_be_bytes (take 16 bytes), from_be_bytes (drop 16 bytes)).

(** [AbsoluteChainWork::try_from_reported] *)
Definition try_from_reported (bytes : list Z) : result (option Z) ChainWorkOverWidth :=
  let '(high, low) := split bytes in
  if negb (high =? 0) then Err (mkChainWorkOverWidth high) else Ok (nonzero low).

(** [AbsoluteChainWork::to_be_bytes] *)
Definition work_to_be_bytes (self : Z) : list Z := replicate 16 0 ++ to_be_bytes 16 self.

(** [AbsoluteChainWork::genesis] *)
Definition genesis (work : Z) : Z := work.

(** [AbsoluteChainWork::accumulate] *)
Definition accumulate (self work : Z) : result Z WorkOverflow :=
  ok_or (checked_add 128 self work) mkWorkOverflow.

(** [AbsoluteChainWork::rollback] *)
Definition rollback (self work : Z) : result Z WorkUnderflow :=
  ok_or (let! d := checked_sub self work in nonzero d) mkWorkUnderflow.

(** Accumulating keeps the invariant and is undone exactly by rolling
    the same block's work back, and a rollback that succeeds is undone by
    accumulating; the two fail exactly at the ends of the 128-bit range. *)
Theorem accumulate_rollback t w :
  valid t -> valid w ->
  match accumulate t w with
  | Ok t' => valid t' /\ t < t' /\ rollback t' w = Ok t
  | Err _ => 2 ^ 128 <= t + w
  end /\
  match rollback t w with
  | Ok t' => valid t' /\ t' < t /\ accumulate t' w = Ok t
  | Err _ => t <= w
  end.
Proof.
  unfold valid, accumulate, rollback. intros Ht Hw. split.
  - unfold checked_add. case_if; simpl; [|lia].
    split_and!; [lia..|]. unfold checked_sub, nonzero.
    rewrite (proj2 (Z.leb_le _ _)) by lia. rewrite Z.add_simpl_r.
    by rewrite (proj2 (Z.eqb_neq t 0)) by lia.
  - unfold checked_sub, nonzero. case_if; simpl; [|lia].
    case_if; simpl; [lia|]. split_and!; [lia..|].
    unfold checked_add. rewrite Z.sub_add, (proj2 (Z.ltb_lt _ _)) by lia. done.
Qed.

Lemma accumulate_rollback_witness :
  match accumulate 10 5 with
  | Ok t' => valid t' /\ 10 < t' /\ rollback t' 5 = Ok 10
  | Err _ => 2 ^ 128 <= 10 + 5
  end.
Proof. apply (accumulate_rollback 10 5); split; vm_compute; reflexivity. Defined.

(** The 32-byte form of a chain work reads back as that work, and
    any 32 bytes are refused exactly when the number they spell does not fit
    128 bits, zero reading as no work at all. *)
Theorem try_from_reported_spec :
  (forall w, valid w -> try_from_reported (work_to_be_bytes w) = Ok (Some w)) /\
  (forall bytes, Forall byte_ok bytes -> length bytes = 32%nat ->
    let v := from_be_bytes bytes in
    match try_from_reported bytes with
    | Ok r => v < 2 ^ 128 /\ r = nonzero v
    | Err (mkChainWorkOverWidth h) => 2 ^ 128 <= v /\ h = v / 2 ^ 128
    end).
Proof.
  split.
  - intros w [Hw1 Hw2]. unfold try_from_reported, split, work_to_be_bytes.
    rewrite take_app_length', drop_app_length' by by rewrite length_replicate.
    rewrite from_to_be_bytes by (split; cbn; lia).
    unfold nonzero. change (from_be_bytes (replicate 16 0)) with 0. simpl.
    by rewrite (proj2 (Z.eqb_neq w 0)) by lia.
  - intros bytes Hb Hlen v. unfold try_from_reported, split.
    pose proof (from_be_bytes_bound _ (Forall_drop _ 16 _ Hb)) as Hl.
    rewrite length_drop, Hlen in Hl.
    assert (v = from_be_bytes (take 16 bytes) * 2 ^ 128 + from_be_bytes (drop 16 bytes)) as Hv.
    { subst v. rewrite <- (take_drop 16 bytes) at 1.
      rewrite from_be_bytes_app, length_drop, Hlen. cbn. lia. }
    pose proof (from_be_bytes_bound _ (Forall_take _ 16 _ Hb)) as Hh.
    set (h := from_be_bytes (take 16 bytes)) in *. set (l := from_be_bytes (drop 16 bytes)) in *.
    unfold uint in *. change (8 * Z.of_nat (32 - 16)) with 128 in Hl.
    destruct (h =? 0) eqn:H0; zbool; cbn [negb].
    + rewrite Hv, H0. split; [lia|f_equal; lia].
    + split; [nia|]. rewrite Hv, Z.div_add_l, Z.div_small; lia.
Qed.

Lemma try_from_reported_spec_witness :
  try_from_reported (work_to_be_bytes 0x1234567) = Ok (Some 0x1234567).
Proof. apply (proj1 try_from_reported_spec). split; vm_compute; reflexivity. Defined.

End Work.

(** ** [zatoshis/]: balances, movements and accumulated flows *)
Module Zatoshis.

Definition MAX_ZATOSHIS : Z := 21000000 * 100000000.
Definition valid (z : Z) : Prop := 0 <= z <= MAX_ZATOSHIS.
Definition ZERO : Z := 0.

Inductive ZatoshisOverflow := mkZatoshisOverflow (got : Z).
Inductive SignedZatoshisOverflow := mkSignedZatoshisOverflow (got : Z).

(** [Zatoshis::new] *)
Definition new (amount : Z) : result Z ZatoshisOverflow :=
  if MAX_ZATOSHIS <? amount then Err (mkZatoshisOverflow amount) else Ok amount.

(** [Zatoshis::checked_add] *)
Definition zat_checked_add (self other : Z) : option Z :=
  let! sum := checked_add 64 self other in
  if MAX_ZATOSHIS <? sum then None else Some sum.

(** [Iterator::try_fold] over an [Option]. *)
Fixpoint try_fold {A B} (f : A -> B -> option A) (acc : A) (l : list B) : option A :=
  match l with
  | [] => Some acc
  | b :: l => let! acc := f acc b in try_fold f acc l
  end.

(** [Zatoshis::sum_balances] *)
Definition sum_balances (values : list Z) : option Z := try_fold zat_checked_add ZERO values.

(** [SignedZatoshis::try_new]; an [i64]. *)
Definition signed_try_new (value : Z) : result Z SignedZatoshisOverflow :=
  if Z.abs value <=? MAX_ZATOSHIS then Ok value else Err (mkSignedZatoshisOverflow value).
Definition is_spend (self : Z) : bool := self <? 0.
Definition is_receive (self : Z) : bool := 0 <? self.

(** [ZatoshisFlowSum], a [u128]. *)
Definition flow_checked_add (self amount : Z) : option Z := checked_add 128 self amount.
Definition try_accumulate (values : list Z) : option Z := try_fold flow_checked_add 0 values.
Definition checked_join (self other : Z) : option Z := checked_add 128 self other.
Definition net (self spent : Z) : option Z :=
  let! magnitude := try_narrow 63 (Z.abs (self - spent)) in
  let difference := if spent <=? self then magnitude else - magnitude in
  ok (signed_try_new difference).

(** The total of a list. *)
Definition total (l : list Z) : Z := foldr Z.add 0 l.

Lemma total_nonneg l : Forall (fun z => 0 <= z) l -> 0 <= total l.
Proof. induction 1; simpl; [lia|]. lia. Qed.

(** A checked accumulation of non-negative amounts succeeds with the exact
    total when the total is within the limit, and refuses otherwise. *)
Lemma try_fold_total (f : Z -> Z -> option Z) lim l acc :
  (forall a b, 0 <= a <= lim -> 0 <= b -> b ∈ l ->
     f a b = if a + b <=? lim then Some (a + b) else None) ->
  Forall (fun z => 0 <= z) l -> 0 <= acc <= lim ->
  try_fold f acc l = if acc + total l <=? lim then Some (acc + total l) else None.
Proof.
  intros Hf Hl. revert acc. induction Hl as [|b l Hb Hl IH]; intros acc Hacc; simpl.
  - rewrite Z.add_0_r, (proj2 (Z.leb_le _ _)) by lia. done.
  - pose proof (total_nonneg l Hl). rewrite Hf by (set_solver || lia).
    destruct (acc + b <=? lim) eqn:Hle; zbool.
    + rewrite IH by (lia || (intros; apply Hf; set_solver)). by rewrite Z.add_assoc.
    + rewrite (proj2 (Z.leb_gt _ _)) by lia. done.
Qed.

(** A sum of balances is the exact total when it stays within the
    supply cap and is refused otherwise; a flow is the exact total of any
    list of amounts short enough for 128 bits, whatever the supply. *)
Lemma balances_and_flows values :
  Forall valid values ->
  sum_balances values =
    (if total values <=? MAX_ZATOSHIS then Some (total values) else None) /\
  (Z.of_nat (length values) < 2 ^ 76 -> try_accumulate values = Some (total values)).
Proof.
  intros Hv.
  assert (Hnn : Forall (fun z => 0 <= z) values).
  { eapply Forall_impl; [exact Hv|]. unfold valid; lia. }
  split.
  - unfold sum_balances. rewrite (try_fold_total _ MAX_ZATOSHIS).
    + by rewrite Z.add_0_l.
    + intros a b Ha Hb Hin. unfold zat_checked_add, checked_add.
      rewrite Forall_forall in Hv. pose proof (Hv b Hin) as Hvb.
      unfold valid, MAX_ZATOSHIS in *. change (2 ^ 64) with 18446744073709551616.
      rewrite (proj2 (Z.ltb_lt _ _)) by lia.
      destruct (21000000 * 100000000 <? a + b) eqn:E1;
        destruct (a + b <=? 21000000 * 100000000) eqn:E2; zbool; done || lia.
    + done.
    + unfold ZERO, MAX_ZATOSHIS. lia.
  - intros Hlen. unfold try_accumulate. rewrite (try_fold_total _ (2 ^ 128 - 1)).
    + rewrite Z.add_0_l, (proj2 (Z.leb_le _ _)); [done|].
      assert (total values <= Z.of_nat (length values) * MAX_ZATOSHIS) as Ht.
      { clear Hlen Hnn. induction Hv as [|z l Hz _ IH]; [simpl; lia|].
        cbn [total foldr length]. fold (total l). unfold valid in Hz. lia. }
      assert (MAX_ZATOSHIS < 2 ^ 51) by (unfold MAX_ZATOSHIS; lia).
      change (2 ^ 128) with (2 ^ 76 * 2 ^ 52). nia.
    + intros a b Ha Hb _. unfold flow_checked_add, checked_add.
      destruct (a + b <? 2 ^ 128) eqn:E1; destruct (a + b <=? 2 ^ 128 - 1) eqn:E2;
        zbool; done || lia.
    + done.
    + lia.
Qed.

(** The net of two flow sums is their signed difference exactly when
    its magnitude is within the supply, and the sign says receive or spend. *)
Theorem net_spec received spent :
  uint 128 received -> uint 128 spent ->
  net received spent =
    (if Z.abs (received - spent) <=? MAX_ZATOSHIS then Some (received - spent) else None) /\
  forall d, net received spent = Some d ->
    is_receive d = (spent <? received) /\ is_spend d = (received <? spent).
Proof.
  intros Hr Hs.
  assert (net received spent =
    (if Z.abs (received - spent) <=? MAX_ZATOSHIS then Some (received - spent) else None)) as Heq.
  { unfold net, try_narrow, signed_try_new. change (2 ^ 63) with 9223372036854775808.
    destruct (Z.abs (received - spent) <=? MAX_ZATOSHIS) eqn:Hm; zbool;
      unfold MAX_ZATOSHIS in *.
    - rewrite (proj2 (Z.ltb_lt _ _)) by lia.
      destruct (spent <=? received) eqn:Hd; zbool; case_if; simpl; first [lia | f_equal; lia].
    - case_if; [|done].
      destruct (spent <=? received) eqn:Hd; zbool; case_if; done || lia. }
  split; [done|]. intros d Hd. rewrite Hd in Heq. case_match; [|done]. simplify_eq.
  unfold is_receive, is_spend. split; apply eq_true_iff_eq; rewrite !Z.ltb_lt; lia.
Qed.

Lemma net_spec_witness : net 3 5 = Some (-2) /\ is_spend (-2) = true.
Proof.
  assert (uint 128 3 /\ uint 128 5) as [H3 H5] by (split; split; vm_compute; congruence).
  destruct (net_spec 3 5 H3 H5) as [H1 H2]. split; [exact H1|].
  exact (proj2 (H2 (-2) H1)).
Defined.

End Zatoshis.
