(* ===== verification/Difficulty.v ===== *)
(** * Compact difficulty
    ([packages/zaino-primitives/src/types/compact_difficulty.rs] and
    [compact_difficulty/u256.rs])

    The nBits -> target -> work pipeline: the two-limb 256-bit arithmetic, its
    agreement with unbounded integer arithmetic, and the acceptance set of the
    [CompactDifficulty] constructor stated against the protocol's [ToTarget]
    and definition of work. *)

From S2P Require Import Prelude.
From stdpp Require Import base list.
From Stdlib Require Import ZArith Lia Zpow_facts.
Open Scope Z_scope.

(** ** [u256.rs] *)
Module U256.

Record U256 := mkU256 { hi : Z; lo : Z }.

(** Both limbs are [u128]. *)
Definition wf (x : U256) : Prop := uint 128 (hi x) /\ uint 128 (lo x).
(** The number a pair of limbs stands for. *)
Definition val (x : U256) : Z := hi x * 2 ^ 128 + lo x.

Definition ZERO : U256 := mkU256 0 0.

(** Rust's [<<] on a [u128]: bits shifted past the width are dropped. *)
Definition shl128 (x n : Z) : Z := wrapping 128 (Z.shiftl x n).

Definition shl (self : U256) (n : Z) : U256 :=
  if n =? 0 then self
  else if (1 <=? n) && (n <=? 127) then
    mkU256 (Z.lor (shl128 (hi self) n) (Z.shiftr (lo self) (128 - n)))
           (shl128 (lo self) n)
  else if n =? 128 then mkU256 (lo self) 0
  else if (129 <=? n) && (n <=? 255) then mkU256 (shl128 (lo self) (n - 128)) 0
  else ZERO.

Definition target (mantissa exponent : Z) : U256 :=
  shl (mkU256 0 mantissa) (8 * exponent).

Definition is_zero (self : U256) : bool := (hi self =? 0) && (lo self =? 0).

(** [!x] on a [u128]. *)
Definition not128 (x : Z) : Z := umax 128 - x.

Definition complement (self : U256) : U256 :=
  mkU256 (not128 (hi self)) (not128 (lo self)).

Definition checked_add_one (self : U256) : option U256 :=
  let lo' := wrapping 128 (lo self + 1) in
  let carry := 2 ^ 128 <=? lo self + 1 in
  let! hi' := (if carry then checked_add 128 (hi self) 1 else Some (hi self)) in
  Some (mkU256 hi' lo').

Definition bit (self : U256) (i : Z) : bool :=
  if i <? 128 then Z.land (Z.shiftr (lo self) i) 1 =? 1
  else Z.land (Z.shiftr (hi self) (i - 128)) 1 =? 1.

Definition set_bit (self : U256) (i : Z) : U256 :=
  if i <? 128 then mkU256 (hi self) (Z.lor (lo self) (Z.shiftl 1 i))
  else mkU256 (Z.lor (hi self) (Z.shiftl 1 (i - 128))) (lo self).

Definition wrapping_sub (self rhs : U256) : U256 :=
  let lo' := wrapping 128 (lo self - lo rhs) in
  let borrow := if lo self <? lo rhs then 1 else 0 in
  mkU256 (wrapping 128 (wrapping 128 (hi self - hi rhs) - borrow)) lo'.

(** The derived [Ord] on [(hi, lo)]: lexicographic. *)
Definition geb (a b : U256) : bool :=
  (hi b <? hi a) || ((hi a =? hi b) && (lo b <=? lo a)).

(** One turn of the long-division loop, at bit [i]. *)
Definition div_step (self divisor : U256) (i : Z) (qr : U256 * U256) : U256 * U256 :=
  let '(quotient, remainder) := qr in
  let carry := negb (Z.shiftr (hi remainder) 127 =? 0) in
  let remainder := shl remainder 1 in
  let remainder :=
    if bit self i then mkU256 (hi remainder) (Z.lor (lo remainder) 1)
    else remainder in
  if carry || geb remainder divisor
  then (set_bit quotient i, wrapping_sub remainder divisor)
  else (quotient, remainder).

(** [for i in (0..n).rev()]. *)
Fixpoint div_loop (self divisor : U256) (n : nat) (qr : U256 * U256) : U256 * U256 :=
  match n with
  | O => qr
  | S i => div_loop self divisor i (div_step self divisor (Z.of_nat i) qr)
  end.

Definition div (self divisor : U256) : U256 :=
  fst (div_loop self divisor 256 (ZERO, ZERO)).

(** [U256::work]; a [NonZeroU128] is its value. *)
Definition work (self : U256) : option Z :=
  let! divisor := checked_add_one self in
  let quotient := div (complement self) divisor in
  if negb (hi quotient =? 0) then None
  else checked_add 128 1 (lo quotient).

(** *** Agreement with integer arithmetic *)

Lemma val_bounds x : wf x -> 0 <= val x < 2 ^ 256.
Proof.
  unfold wf, val, uint. change (2 ^ 256) with (2 ^ 128 * 2 ^ 128). nia.
Qed.

Lemma wrapping_uint w z : 0 <= w -> uint w (wrapping w z).
Proof. intros. unfold uint, wrapping. apply Z.mod_pos_bound, Z.pow_pos_nonneg; lia. Qed.

Lemma val_inj x y : wf x -> wf y -> val x = val y -> x = y.
Proof.
  destruct x as [a b], y as [c d]. unfold wf, val, uint; simpl.
  intros [? ?] [? ?] Heq. assert (a = c) by nia. subst. f_equal. lia.
Qed.

Lemma lor_disjoint a b n : 0 <= n -> 0 <= b < 2 ^ n -> Z.lor (a * 2 ^ n) b = a * 2 ^ n + b.
Proof.
  intros Hn Hb.
  assert (Z.land (a * 2 ^ n) b = 0) as Hz.
  { apply Z.bits_inj'; intros i Hi. rewrite Z.land_spec, Z.bits_0.
    destruct (Z.lt_ge_cases i n).
    - rewrite Z.mul_pow2_bits_low by lia. done.
    - rewrite <- (Z.mod_small b (2 ^ n)) by lia.
      rewrite Z.mod_pow2_bits_high by lia. apply andb_false_r. }
  rewrite <- Z.lxor_lor by done. symmetry. by apply Z.add_nocarry_lxor.
Qed.

(** Setting a clear bit of a multiple of [2^(i+1)] adds [2^i]. *)
Lemma lor_set_bit a i : 0 <= i -> a mod 2 ^ (i + 1) = 0 -> Z.lor a (Z.shiftl 1 i) = a + 2 ^ i.
Proof.
  intros Hi Ha. apply Z.div_exact in Ha; [|lia].
  rewrite Z.mul_comm in Ha. rewrite Ha, Z.shiftl_1_l.
  apply lor_disjoint; [lia|]. rewrite Z.pow_add_r by lia. lia.
Qed.

Lemma pow_split n : 0 <= n <= 128 -> 2 ^ 128 = 2 ^ (128 - n) * 2 ^ n.
Proof. intros. rewrite <- Z.pow_add_r by lia. f_equal; lia. Qed.

(** A shifted limb keeps the low [128 - n] bits of what it held. *)
Lemma shl128_mod x n : 0 <= n <= 128 -> shl128 x n = (x mod 2 ^ (128 - n)) * 2 ^ n.
Proof.
  intros Hn. unfold shl128, wrapping. rewrite Z.shiftl_mul_pow2 by lia.
  rewrite (pow_split n), Zmult_mod_distr_r by lia. done.
Qed.

Lemma shr_bound x n : 0 <= n <= 128 -> uint 128 x -> 0 <= x / 2 ^ (128 - n) < 2 ^ n.
Proof.
  intros Hn [? Hx]. split; [apply Z.div_pos; lia|].
  apply Z.div_lt_upper_bound; [lia|]. rewrite <- pow_split by lia. lia.
Qed.

(** The high limb after a shift of less than a limb. *)
Lemma shl_hi h l n :
  0 < n < 128 -> uint 128 l ->
  Z.lor (shl128 h n) (Z.shiftr l (128 - n)) =
  (h mod 2 ^ (128 - n)) * 2 ^ n + l / 2 ^ (128 - n).
Proof.
  intros Hn Hl. rewrite shl128_mod, Z.shiftr_div_pow2 by lia.
  apply lor_disjoint; [lia|]. apply shr_bound; [lia|done].
Qed.

Lemma shl_wf x n : 0 <= n -> wf x -> wf (shl x n).
Proof.
  intros Hn [Hh Hl]. unfold shl, wf.
  repeat case_match; zbool; cbn [hi lo]; split; try done;
    try (apply wrapping_uint; lia).
  rewrite shl_hi by (done || lia).
  pose proof (shr_bound (lo x) n ltac:(lia) Hl).
  pose proof (Z.mod_pos_bound (hi x) (2 ^ (128 - n)) ltac:(lia)).
  unfold uint. rewrite (pow_split n) by lia. nia.
Qed.

Lemma shl_val x n : 0 <= n -> wf x -> val (shl x n) = (val x * 2 ^ n) mod 2 ^ 256.
Proof.
  intros Hn Hwf. pose proof (shl_wf x n Hn Hwf) as Hwf'%val_bounds.
  pose proof (val_bounds x Hwf) as Hv. destruct Hwf as [Hh Hl].
  revert Hwf'. unfold shl. repeat case_match; zbool; intros Hwf'.
  - subst. rewrite Z.mul_1_r, Z.mod_small; done.
  - apply Z.mod_unique_pos with (hi x / 2 ^ (128 - n)); [done|].
    unfold val. cbn [hi lo]. rewrite shl_hi, shl128_mod by (done || lia).
    change (2 ^ 256) with (2 ^ 128 * 2 ^ 128). rewrite (pow_split n) by lia.
    pose proof (Z.div_mod (hi x) (2 ^ (128 - n)) ltac:(lia)).
    pose proof (Z.div_mod (lo x) (2 ^ (128 - n)) ltac:(lia)). nia.
  - subst. apply Z.mod_unique_pos with (hi x); [done|].
    unfold val. cbn [hi lo]. change (2 ^ 256) with (2 ^ 128 * 2 ^ 128). lia.
  - apply Z.mod_unique_pos with (hi x * 2 ^ (n - 128) + lo x / 2 ^ (128 - (n - 128))); [done|].
    unfold val. cbn [hi lo]. rewrite shl128_mod by lia.
    change (2 ^ 256) with (2 ^ 128 * 2 ^ 128).
    replace (2 ^ n) with (2 ^ 128 * 2 ^ (n - 128))
      by (rewrite <- Z.pow_add_r by lia; f_equal; lia).
    pose proof (Z.div_mod (lo x) (2 ^ (128 - (n - 128))) ltac:(lia)).
    rewrite (pow_split (n - 128)) at 1 4 by lia. nia.
  - symmetry. change (val ZERO) with 0.
    replace (2 ^ n) with (2 ^ (n - 256) * 2 ^ 256)
      by (rewrite <- Z.pow_add_r by lia; f_equal; lia).
    rewrite Z.mul_assoc. apply Z.mod_mul. lia.
Qed.

Lemma val_ZERO : val ZERO = 0.
Proof. done. Qed.

Lemma ZERO_wf : wf ZERO.
Proof. split; unfold uint; cbn; lia. Qed.

Lemma land_1_testbit x i : 0 <= i -> (Z.land (Z.shiftr x i) 1 =? 1) = Z.testbit x i.
Proof.
  intros Hi. rewrite (Z.land_ones _ 1), Z.shiftr_div_pow2 by lia.
  pose proof (Z.testbit_spec' x i Hi) as Hs. change (2 ^ 1) with 2.
  rewrite <- Hs. by destruct (Z.testbit x i).
Qed.

Lemma bit_val x i : 0 <= i < 256 -> wf x -> bit x i = Z.testbit (val x) i.
Proof.
  intros Hi [Hh Hl]. unfold bit, val. case_match; zbool; rewrite land_1_testbit by lia.
  - rewrite <- (Z.mod_pow2_bits_low (hi x * 2 ^ 128 + lo x) 128 i) by lia.
    rewrite Z.add_comm, Z.mod_add by lia.
    rewrite Z.mod_small by (unfold uint in Hl; lia). done.
  - replace i with ((i - 128) + 128) at 2 by lia.
    rewrite <- Z.div_pow2_bits by lia.
    rewrite Z.div_add_l by lia.
    rewrite Z.div_small by (unfold uint in Hl; lia). f_equal. lia.
Qed.

(** Rows of the division quotient: still multiples of the next power. *)
Lemma set_bit_spec x i :
  0 <= i < 256 -> wf x -> val x mod 2 ^ (i + 1) = 0 ->
  wf (set_bit x i) /\ val (set_bit x i) = val x + 2 ^ i.
Proof.
  intros Hi [Hh Hl] Hm. unfold set_bit.
  assert (Hb : forall z k, 0 <= k < 128 -> uint 128 z -> z mod 2 ^ (k + 1) = 0 ->
            uint 128 (z + 2 ^ k)).
  { intros z k Hk [Hz1 Hz2] Hzm. unfold uint.
    apply Z.div_exact in Hzm; [|lia].
    rewrite (pow_split (k + 1)) in * by lia.
    rewrite (Z.pow_add_r _ k 1) in * by lia. change (2 ^ 1) with 2 in *.
    assert (z / (2 ^ k * 2) < 2 ^ (128 - (k + 1))) by nia. nia. }
  case_match; zbool.
  - assert (lo x mod 2 ^ (i + 1) = 0) as Hlm.
    { unfold val in Hm. rewrite (pow_split (i + 1)) in Hm by lia.
      rewrite Z.mul_assoc, Z.add_comm, Z.mod_add in Hm by lia. done. }
    rewrite lor_set_bit by (done || lia). unfold wf, val; cbn [hi lo].
    split; [split; [done|]|lia]. apply Hb; done || lia.
  - assert (hi x mod 2 ^ (i - 128 + 1) = 0) as Hhm.
    { unfold val in Hm.
      replace (2 ^ (i + 1)) with (2 ^ 128 * 2 ^ (i - 128 + 1)) in Hm
        by (rewrite <- Z.pow_add_r by lia; f_equal; lia).
      rewrite Z.rem_mul_r in Hm by lia.
      rewrite Z.div_add_l, (Z.div_small (lo x)), Z.add_0_r in Hm
        by (unfold uint in Hl; lia).
      pose proof (Z.mod_pos_bound (hi x * 2 ^ 128 + lo x) (2 ^ 128) ltac:(lia)).
      pose proof (Z.mod_pos_bound (hi x) (2 ^ (i - 128 + 1)) ltac:(lia)). nia. }
    rewrite lor_set_bit by (done || lia). unfold wf, val; cbn [hi lo].
    split; [split; [|done]|].
    + apply Hb; done || lia.
    + replace (2 ^ i) with (2 ^ (i - 128) * 2 ^ 128)
        by (rewrite <- Z.pow_add_r by lia; f_equal; lia). lia.
Qed.

Lemma wrapping_sub_spec a b :
  wf a -> wf b ->
  wf (wrapping_sub a b) /\ val (wrapping_sub a b) = (val a - val b) mod 2 ^ 256.
Proof.
  intros Ha Hb. unfold wrapping_sub.
  assert (Hw : forall x y, wf (mkU256 (wrapping 128 x) (wrapping 128 y)))
    by (intros; split; apply wrapping_uint; lia).
  split; [apply Hw|].
  pose proof (val_bounds _ (Hw (wrapping 128 (hi a - hi b) -
    (if lo a <? lo b then 1 else 0)) (lo a - lo b))) as Hbd.
  destruct Ha as [Ha1 Ha2], Hb as [Hb1 Hb2]. unfold uint in *.
  unfold val, wrapping in *; cbn [hi lo] in *.
  rewrite Zminus_mod_idemp_l in *.
  set (c := if lo a <? lo b then 1 else 0) in *.
  pose proof (Z.div_mod (lo a - lo b) (2 ^ 128) ltac:(lia)) as E1.
  pose proof (Z.div_mod (hi a - hi b - c) (2 ^ 128) ltac:(lia)) as E2.
  assert ((lo a - lo b) / 2 ^ 128 = - c) as Hc.
  { subst c. case_match; zbool; symmetry.
    - apply Z.div_unique with (lo a - lo b + 2 ^ 128); lia.
    - apply Z.div_unique with (lo a - lo b); lia. }
  apply Z.mod_unique_pos with ((hi a - hi b - c) / 2 ^ 128); [done|].
  change (2 ^ 256) with (2 ^ 128 * 2 ^ 128). nia.
Qed.

Lemma geb_spec a b : wf a -> wf b -> geb a b = (val b <=? val a).
Proof.
  unfold wf, uint, val, geb. intros [? ?] [? ?].
  apply eq_true_iff_eq. rewrite orb_true_iff, andb_true_iff, !Z.ltb_lt, Z.eqb_eq, !Z.leb_le.
  nia.
Qed.

Lemma carry_spec r : wf r -> negb (Z.shiftr (hi r) 127 =? 0) = (2 ^ 255 <=? val r).
Proof.
  intros [Hh Hl]. rewrite Z.shiftr_div_pow2 by lia. unfold uint, val in *.
  apply eq_true_iff_eq. rewrite negb_true_iff, Z.eqb_neq, Z.leb_le.
  change (2 ^ 255) with (2 ^ 127 * 2 ^ 128). change (2 ^ 128) with (2 * 2 ^ 127) in *.
  pose proof (Z.div_mod (hi r) (2 ^ 127) ltac:(lia)).
  pose proof (Z.mod_pos_bound (hi r) (2 ^ 127) ltac:(lia)).
  pose proof (Z.div_pos (hi r) (2 ^ 127) ltac:(lia) ltac:(lia)). nia.
Qed.

(** The remainder doubled, with the next dividend bit shifted in, modulo
    [2^256]. *)
Lemma shift_in_spec r (b : bool) :
  wf r ->
  let r' := shl r 1 in
  let r'' := if b then mkU256 (hi r') (Z.lor (lo r') 1) else r' in
  wf r'' /\ val r'' = (2 * val r + Z.b2z b) mod 2 ^ 256.
Proof.
  intros Hr r' r''. pose proof (shl_wf r 1 ltac:(lia) Hr) as Hw.
  pose proof (shl_val r 1 ltac:(lia) Hr) as Hv. fold r' in Hw, Hv.
  pose proof (val_bounds r Hr) as Hb. change (2 ^ 1) with 2 in Hv.
  destruct b; subst r''; [|split; [done|rewrite Hv; f_equal; simpl; lia]].
  assert (val r' mod 2 = 0) as Heven.
  { rewrite Hv. change (2 ^ 256) with (2 * 2 ^ 255).
    rewrite (Z.mul_comm (val r) 2), Zmult_mod_distr_l, Z.mul_comm. by apply Z.mod_mul. }
  assert (lo r' mod 2 = 0) as Hlo.
  { unfold val in Heven. change (2 ^ 128) with (2 ^ 127 * 2) in Heven.
    rewrite Z.mul_assoc, Z.add_comm, Z.mod_add in Heven by lia. done. }
  pose proof (lor_set_bit (lo r') 0 ltac:(lia) Hlo) as Hlor.
  change (Z.shiftl 1 0) with 1 in Hlor. change (2 ^ 0) with 1 in Hlor.
  destruct Hw as [Hh Hl]. unfold uint in *.
  assert (lo r' + 1 < 2 ^ 128).
  { apply Z.div_exact in Hlo; [|lia]. change (2 ^ 128) with (2 * 2 ^ 127) in *. lia. }
  assert (Hval : val (mkU256 (hi r') (Z.lor (lo r') 1)) = val r' + 1)
    by (unfold val; cbn [hi lo]; lia).
  split.
  { unfold wf, uint; cbn [hi lo]. lia. }
  rewrite Hval, Hv. simpl (Z.b2z true).
  pose proof (val_bounds r' ltac:(split; done)) as Hb'.
  symmetry. rewrite <- (Z.add_mod_idemp_l (2 * val r)) by lia.
  replace (2 * val r) with (val r * 2) by lia. rewrite <- Hv.
  apply Z.mod_small. apply Z.div_exact in Heven; [|lia].
  change (2 ^ 256) with (2 * 2 ^ 255) in *. lia.
Qed.

(** With [n] bits left, the quotient so far divides the bits consumed. *)
Definition div_inv (N D : Z) (n : nat) (qr : U256 * U256) : Prop :=
  wf qr.1 /\ wf qr.2 /\ val qr.1 mod 2 ^ (Z.of_nat n) = 0 /\
  0 <= val qr.2 < D /\
  N / 2 ^ (Z.of_nat n) = (val qr.1 / 2 ^ (Z.of_nat n)) * D + val qr.2.

Lemma div_step_inv x d n qr :
  wf x -> wf d -> 0 < val d -> (S n <= 256)%nat ->
  div_inv (val x) (val d) (S n) qr ->
  div_inv (val x) (val d) n (div_step x d (Z.of_nat n) qr).
Proof.
  intros Hx Hd Hpos Hn. destruct qr as [q r].
  intros (Hq & Hr & Hqm & Hrb & Hdiv). cbn [fst snd] in *.
  set (i := Z.of_nat n) in *. assert (0 <= i < 256) by lia.
  replace (Z.of_nat (S n)) with (i + 1) in * by lia.
  pose proof (val_bounds x Hx). pose proof (val_bounds r Hr). pose proof (val_bounds d Hd).
  unfold div_step. fold i. rewrite carry_spec by done.
  destruct (shift_in_spec r (bit x i) Hr) as [Hw'' Hv''].
  set (r'' := if bit x i then _ else _) in *.
  rewrite geb_spec by done.
  assert (Hb : Z.b2z (bit x i) = (val x / 2 ^ i) mod 2).
  { rewrite bit_val by (done || lia). rewrite Z.testbit_spec' by lia. done. }
  set (b := Z.b2z (bit x i)) in *.
  assert (0 <= b < 2) by (subst b; destruct (bit x i); simpl; lia).
  assert (HN : val x / 2 ^ i = 2 * (val x / 2 ^ (i + 1)) + b).
  { rewrite Hb. rewrite (Z.pow_add_r 2 i 1) by lia. rewrite <- Z.div_div by lia.
    apply Z.div_mod. lia. }
  rewrite Hdiv in HN.
  assert (Hq2 : val q / 2 ^ i = 2 * (val q / 2 ^ (i + 1))).
  { apply Z.div_exact in Hqm; [|lia]. rewrite Hqm at 1.
    rewrite Z.pow_add_r by lia. symmetry. apply Z.div_unique with 0; lia. }
  assert (Hqm2 : val q mod 2 ^ i = 0).
  { apply Z.div_exact in Hqm; [|lia]. apply Z.div_exact; [lia|].
    rewrite Hq2. rewrite Hqm at 1. rewrite Z.pow_add_r by lia. lia. }
  assert (Hcond : ((2 ^ 255 <=? val r) || (val d <=? val r'')) = (val d <=? 2 * val r + b)).
  { apply eq_true_iff_eq. rewrite orb_true_iff, !Z.leb_le, Hv''.
    change (2 ^ 256) with (2 * 2 ^ 255) in *.
    destruct (Z.le_gt_cases (2 ^ 255) (val r)); [lia|].
    rewrite Z.mod_small by lia. lia. }
  rewrite Hcond. case_match; zbool.
  - destruct (set_bit_spec q i ltac:(lia) Hq Hqm) as [Hsw Hsv].
    destruct (wrapping_sub_spec r'' d Hw'' Hd) as [Hww Hwv].
    assert (Hwv' : val (wrapping_sub r'' d) = 2 * val r + b - val d).
    { rewrite Hwv, Hv'', Zminus_mod_idemp_l. apply Z.mod_small. lia. }
    unfold div_inv. cbn [fst snd]. fold i. rewrite Hwv', Hsv.
    replace (val q + 2 ^ i) with (val q + 1 * 2 ^ i) by lia.
    rewrite Z.mod_add, Z.div_add by lia. rewrite HN, Hq2.
    split_and!; first [done | lia].
  - assert (Hv3 : val r'' = 2 * val r + b).
    { rewrite Hv''. apply Z.mod_small. lia. }
    unfold div_inv. cbn [fst snd]. fold i. rewrite Hv3, HN, Hq2.
    split_and!; first [done | lia].
Qed.

Lemma div_loop_inv x d n qr :
  wf x -> wf d -> 0 < val d -> (n <= 256)%nat ->
  div_inv (val x) (val d) n qr -> div_inv (val x) (val d) 0 (div_loop x d n qr).
Proof.
  intros Hx Hd Hpos. revert qr. induction n as [|n IH]; intros qr Hn Hinv; [done|].
  simpl. apply IH; [lia|]. by apply div_step_inv.
Qed.

(** The restoring division is integer division. *)
Lemma div_spec x d : wf x -> wf d -> 0 < val d ->
  wf (div x d) /\ val (div x d) = val x / val d.
Proof.
  intros Hx Hd Hpos. pose proof (val_bounds x Hx).
  destruct (div_loop_inv x d 256 (ZERO, ZERO) Hx Hd Hpos ltac:(lia)) as (Hq & Hr & _ & Hrb & Hdiv).
  { unfold div_inv. cbn [fst snd]. rewrite val_ZERO.
    repeat split; try (unfold uint; cbn; lia).
    apply Z.div_small. lia. }
  unfold div. split; [done|].
  rewrite !Z.pow_0_r, !Z.div_1_r in Hdiv. apply Z.div_unique with (val (div_loop x d 256 (ZERO, ZERO)).2); lia.
Qed.

Lemma checked_add_one_spec x :
  wf x ->
  match checked_add_one x with
  | Some y => wf y /\ val y = val x + 1
  | None => val x = 2 ^ 256 - 1
  end.
Proof.
  intros [Hh Hl]. unfold checked_add_one, checked_add, wrapping, uint in *.
  destruct (2 ^ 128 <=? lo x + 1) eqn:Hc; zbool.
  - assert (lo x + 1 = 2 ^ 128) as Hlo by lia. rewrite Hlo, Z.mod_same by lia.
    destruct (hi x + 1 <? 2 ^ 128) eqn:Hh1; zbool;
      unfold wf, uint, val; cbn [hi lo]; [lia|].
    change (2 ^ 256) with (2 ^ 128 * 2 ^ 128). lia.
  - rewrite Z.mod_small by lia. unfold wf, uint, val; cbn [hi lo]. lia.
Qed.

Lemma complement_spec x : wf x -> wf (complement x) /\ val (complement x) = 2 ^ 256 - 1 - val x.
Proof.
  unfold wf, uint, complement, val, not128, umax; cbn [hi lo].
  change (2 ^ 256) with (2 ^ 128 * 2 ^ 128). lia.
Qed.

(** [work] is [floor(2^256 / (target + 1))] when that fits 128 bits. *)
Lemma work_spec x :
  wf x -> val x <> 2 ^ 256 - 1 ->
  work x = if 2 ^ 256 / (val x + 1) <? 2 ^ 128
           then Some (2 ^ 256 / (val x + 1)) else None.
Proof.
  intros Hx Hne. pose proof (val_bounds x Hx). unfold work.
  pose proof (checked_add_one_spec x Hx) as Hone.
  destruct (checked_add_one x) as [d|]; [|done]. destruct Hone as [Hd Hdv].
  destruct (complement_spec x Hx) as [Hcw Hcv].
  destruct (div_spec (complement x) d Hcw Hd ltac:(lia)) as [Hqw Hqv].
  set (q := div (complement x) d) in *.
  assert (2 ^ 256 / (val x + 1) = val q + 1) as ->.
  { rewrite Hqv, Hcv, Hdv.
    replace (2 ^ 256) with (2 ^ 256 - 1 - val x + 1 * (val x + 1)) at 1 by lia.
    by rewrite Z.div_add by lia. }
  destruct Hqw as [Hqh Hql]. unfold uint, val, checked_add in *.
  destruct (hi q =? 0) eqn:Hq0; zbool; cbn [negb].
  - rewrite Hq0, Z.mul_0_l, !Z.add_0_l, (Z.add_comm 1). done.
  - destruct (hi q * 2 ^ 128 + lo q + 1 <? 2 ^ 128) eqn:Hlt; zbool; [nia|done].
Qed.

End U256.

(** ** [compact_difficulty.rs] *)
Module CompactDifficulty.

Definition PRECISION : Z := 24.
Definition SIGN_BIT : Z := Z.shiftl 1 (PRECISION - 1).
Definition UNSIGNED_MANTISSA_MASK : Z := SIGN_BIT - 1.
Definition EXPONENT_OFFSET : Z := 3.

Record CompactDifficulty := mkCompactDifficulty { bits : Z; cd_work : Z }.

Inductive CompactDifficultyError :=
| NegativeTarget (bits : Z)
| ZeroTarget (bits : Z)
| OverflowTarget (bits : Z)
| WorkOverWidth (bits : Z).

(** [<<] on a [u32]. *)
Definition shl32 (x n : Z) : Z := wrapping 32 (Z.shiftl x n).

Definition expand (bits : Z) : result U256.U256 CompactDifficultyError :=
  if Z.land bits SIGN_BIT =? SIGN_BIT then Err (NegativeTarget bits)
  else
    let mantissa := Z.land bits UNSIGNED_MANTISSA_MASK in
    let raw_exponent := Z.shiftr bits PRECISION in
    let? (mantissa, exponent) :=
      if EXPONENT_OFFSET + 32 <=? raw_exponent then Err (OverflowTarget bits)
      else if raw_exponent =? EXPONENT_OFFSET + 31 then
        if 255 <? mantissa then Err (OverflowTarget bits)
        else Ok (shl32 mantissa 16, 29)
      else if raw_exponent =? EXPONENT_OFFSET + 30 then
        if 65535 <? mantissa then Err (OverflowTarget bits)
        else Ok (shl32 mantissa 8, 29)
      else if raw_exponent <? EXPONENT_OFFSET then
        Ok (Z.shiftr mantissa (8 * (EXPONENT_OFFSET - raw_exponent)), 0)
      else Ok (mantissa, raw_exponent - EXPONENT_OFFSET) in
    let target := U256.target mantissa exponent in
    if U256.is_zero target then Err (ZeroTarget bits) else Ok target.

Definition try_from_bits (bits : Z) : result CompactDifficulty CompactDifficultyError :=
  let? target := expand bits in
  let? work := ok_or (U256.work target) (WorkOverWidth bits) in
  Ok (mkCompactDifficulty bits work).

Definition try_from_be_bytes (bytes : list Z) : result CompactDifficulty CompactDifficultyError :=
  try_from_bits (from_be_bytes bytes).

(** *** The protocol's definitions (specification 7.7.4 and 7.7.5) *)
Definition spec_sign (bits : Z) : Z := (bits / 2 ^ 23) mod 2.
Definition spec_mantissa (bits : Z) : Z := bits mod 2 ^ 23.
Definition spec_exponent (bits : Z) : Z := bits / 2 ^ 24.
(** [floor(mantissa * 256^(exponent - 3))]. *)
Definition spec_target (bits : Z) : Z :=
  if 3 <=? spec_exponent bits
  then spec_mantissa bits * 256 ^ (spec_exponent bits - 3)
  else spec_mantissa bits / 256 ^ (3 - spec_exponent bits).
Definition spec_work (target : Z) : Z := 2 ^ 256 / (target + 1).

Lemma sign_spec bits :
  (Z.land bits SIGN_BIT =? SIGN_BIT) = (spec_sign bits =? 1).
Proof.
  unfold spec_sign. rewrite <- Z.testbit_spec' by lia.
  change SIGN_BIT with (2 ^ 23).
  assert (Z.land bits (2 ^ 23) = Z.b2z (Z.testbit bits 23) * 2 ^ 23) as ->.
  { apply Z.bits_inj'; intros i Hi. rewrite Z.land_spec.
    rewrite Z.mul_pow2_bits, Z.pow2_bits_eqb by lia.
    destruct (Z.eqb_spec 23 i) as [<-|Hne].
    - rewrite andb_true_r. by destruct (Z.testbit bits 23).
    - rewrite andb_false_r. destruct (Z.testbit bits 23); simpl.
      + symmetry. destruct (Z.lt_ge_cases i 23); [by apply Z.testbit_neg_r; lia|].
        apply Z.bits_above_log2; simpl; lia.
      + by rewrite Z.bits_0. }
  by destruct (Z.testbit bits 23).
Qed.

Lemma mantissa_spec bits : Z.land bits UNSIGNED_MANTISSA_MASK = spec_mantissa bits.
Proof. apply (Z.land_ones bits 23). lia. Qed.

Lemma exponent_spec bits : Z.shiftr bits PRECISION = spec_exponent bits.
Proof. apply Z.shiftr_div_pow2. done. Qed.

Lemma target_spec m e :
  0 <= e -> uint 128 m -> m * 256 ^ e < 2 ^ 256 ->
  U256.wf (U256.target m e) /\ U256.val (U256.target m e) = m * 256 ^ e.
Proof.
  intros He Hm Hlt. unfold U256.target.
  assert (Hw : U256.wf (U256.mkU256 0 m)) by (split; [unfold uint; simpl; lia|done]).
  split; [apply U256.shl_wf; done || lia|].
  rewrite U256.shl_val by (done || lia).
  change 256 with (2 ^ 8) in *. rewrite <- Z.pow_mul_r in * by lia.
  change (U256.val (U256.mkU256 0 m)) with m.
  apply Z.mod_small. unfold uint in Hm. split; [|done]. nia.
Qed.

Lemma is_zero_spec x : U256.wf x -> U256.is_zero x = (U256.val x =? 0).
Proof.
  unfold U256.wf, uint, U256.is_zero, U256.val. intros [? ?].
  apply eq_true_iff_eq. rewrite andb_true_iff, !Z.eqb_eq. nia.
Qed.
(** The target a valid [expand] produces, and the limit of its exponents. *)
Definition spec_overflow (bits : Z) : bool :=
  (35 <=? spec_exponent bits) || (2 ^ 256 <=? spec_target bits).

Lemma spec_mantissa_bound bits : 0 <= spec_mantissa bits < 2 ^ 23.
Proof. apply Z.mod_pos_bound. lia. Qed.

Lemma pow256_bound e : 0 <= e <= 29 -> 0 < 256 ^ e <= 2 ^ 232.
Proof.
  intros He. split; [apply Z.pow_pos_nonneg; lia|].
  change (2 ^ 232) with (256 ^ 29). apply Z.pow_le_mono_r; lia.
Qed.

Lemma finish_expand b m e T :
  0 <= e -> 0 <= m < 2 ^ 128 -> m * 256 ^ e = T -> T < 2 ^ 256 ->
  let t := U256.target m e in
  exists t', (if U256.is_zero t then Err (ZeroTarget b) else Ok t) =
             (if T =? 0 then Err (ZeroTarget b) else Ok t') /\
             U256.wf t' /\ U256.val t' = T.
Proof.
  intros He Hm HT Hlt t. destruct (target_spec m e He Hm ltac:(lia)) as [Hw Hv].
  exists t. subst t. rewrite is_zero_spec by done. rewrite Hv, HT. done.
Qed.

Lemma expand_spec bits :
  uint 32 bits ->
  if spec_sign bits =? 1 then expand bits = Err (NegativeTarget bits)
  else if spec_overflow bits then expand bits = Err (OverflowTarget bits)
  else exists t,
    expand bits = (if spec_target bits =? 0 then Err (ZeroTarget bits) else Ok t) /\
    U256.wf t /\ U256.val t = spec_target bits.
Proof.
  intros Hb. unfold expand. rewrite sign_spec, mantissa_spec, exponent_spec.
  case_match; [done|].
  unfold spec_overflow, spec_target, EXPONENT_OFFSET, shl32, wrapping.
  pose proof (spec_mantissa_bound bits) as Hm. set (m := spec_mantissa bits) in *.
  assert (0 <= spec_exponent bits < 256) as He.
  { unfold spec_exponent. unfold uint in Hb. split; [apply Z.div_pos; lia|].
    apply Z.div_lt_upper_bound; lia. }
  set (e := spec_exponent bits) in *.
  destruct (35 <=? e) eqn:H35; zbool.
  { rewrite orb_true_l. change (3 + 32) with 35. by rewrite (proj2 (Z.leb_le 35 e)). }
  rewrite orb_false_l. change (3 + 32) with 35. change (3 + 31) with 34. change (3 + 30) with 33.
  rewrite (proj2 (Z.leb_gt 35 e)) by lia.
  destruct (e =? 34) eqn:H34; zbool.
  { rewrite H34. cbn [Z.leb Z.compare Pos.compare Pos.compare_cont]. change (34 - 3) with 31.
    rewrite Z.shiftl_mul_pow2 by lia.
    destruct (255 <? m) eqn:Hm1; zbool.
    - rewrite (proj2 (Z.leb_le _ _)); [done|]. change (256 ^ 31) with (2 ^ 248). lia.
    - rewrite (proj2 (Z.leb_gt _ _)) by (change (256 ^ 31) with (2 ^ 248); lia).
      rewrite Z.mod_small by lia.
      apply finish_expand; [lia|lia| |change (256 ^ 31) with (2 ^ 248); lia].
      change (256 ^ 31) with (2 ^ 16 * 256 ^ 29). lia. }
  destruct (e =? 33) eqn:H33; zbool.
  { rewrite H33. cbn [Z.leb Z.compare Pos.compare Pos.compare_cont]. change (33 - 3) with 30.
    rewrite Z.shiftl_mul_pow2 by lia.
    destruct (65535 <? m) eqn:Hm1; zbool.
    - rewrite (proj2 (Z.leb_le _ _)); [done|]. change (256 ^ 30) with (2 ^ 240). lia.
    - rewrite (proj2 (Z.leb_gt _ _)) by (change (256 ^ 30) with (2 ^ 240); lia).
      rewrite Z.mod_small by lia.
      apply finish_expand; [lia|lia| |change (256 ^ 30) with (2 ^ 240); lia].
      change (256 ^ 30) with (2 ^ 8 * 256 ^ 29). lia. }
  destruct (e <? 3) eqn:H3; zbool.
  - rewrite (proj2 (Z.leb_gt 3 e)) by lia.
    assert (Hshift : Z.shiftr m (8 * (3 - e)) = m / 256 ^ (3 - e)).
    { rewrite Z.shiftr_div_pow2 by lia. rewrite Z.pow_mul_r by lia. done. }
    assert (0 < 256 ^ (3 - e)) by (apply Z.pow_pos_nonneg; lia).
    assert (0 <= m / 256 ^ (3 - e) <= m).
    { split; [apply Z.div_pos; lia|]. apply Z.div_le_upper_bound; nia. }
    rewrite Hshift, (proj2 (Z.leb_gt _ _)) by lia.
    apply finish_expand; lia.
  - rewrite (proj2 (Z.leb_le 3 e)) by lia.
    pose proof (pow256_bound (e - 3) ltac:(lia)).
    assert (m * 256 ^ (e - 3) < 2 ^ 256) by nia.
    rewrite (proj2 (Z.leb_gt _ _)) by lia.
    apply finish_expand; lia.
Qed.

(** No encoding expands to the all-ones target, the one value whose successor
    does not fit: a scaled mantissa is a multiple of 256, an unscaled one is
    small. *)
Lemma spec_target_not_ones bits : spec_target bits <> 2 ^ 256 - 1.
Proof.
  unfold spec_target. pose proof (spec_mantissa_bound bits) as Hm.
  set (m := spec_mantissa bits) in *. set (e := spec_exponent bits).
  case_match; zbool.
  - destruct (Z.eq_dec e 3) as [->|Hne]; [rewrite Z.sub_diag, Z.pow_0_r; lia|].
    replace (e - 3) with (1 + (e - 4)) by lia.
    rewrite Z.pow_add_r, Z.pow_1_r by lia. intros Heq.
    assert ((m * (256 * 256 ^ (e - 4))) mod 256 = 0) as Hz.
    { replace (m * (256 * 256 ^ (e - 4))) with (m * 256 ^ (e - 4) * 256) by lia.
      by apply Z.mod_mul. }
    rewrite Heq in Hz. by vm_compute in Hz.
  - assert (0 < 256 ^ (3 - e)) by (apply Z.pow_pos_nonneg; lia).
    assert (m / 256 ^ (3 - e) <= m) by (apply Z.div_le_upper_bound; nia). lia.
Qed.

(** The constructor, branch by branch. *)
Lemma try_from_bits_eq bits :
  uint 32 bits ->
  try_from_bits bits =
    if spec_sign bits =? 1 then Err (NegativeTarget bits)
    else if spec_overflow bits then Err (OverflowTarget bits)
    else if spec_target bits =? 0 then Err (ZeroTarget bits)
    else if spec_work (spec_target bits) <? 2 ^ 128
         then Ok (mkCompactDifficulty bits (spec_work (spec_target bits)))
         else Err (WorkOverWidth bits).
Proof.
  intros Hb. pose proof (expand_spec bits Hb) as He. unfold try_from_bits.
  case_match; [by rewrite He|]. case_match; [by rewrite He|].
  destruct He as (t & -> & Hw & Hv). destruct (spec_target bits =? 0); [done|].
  rewrite U256.work_spec; rewrite ?Hv; [|done|apply spec_target_not_ones].
  unfold spec_work, ok_or. by destruct (_ <? _).
Qed.

(** C31: for every [u32] the constructor accepts exactly the encodings
    of the protocol's acceptance set, names the broken rule otherwise, and
    stores [floor(2^256 / (target + 1))]. *)
Theorem try_from_bits_spec bits :
  uint 32 bits ->
  try_from_bits bits =
    if spec_sign bits =? 1 then Err (NegativeTarget bits)
    else if spec_overflow bits then Err (OverflowTarget bits)
    else if spec_target bits =? 0 then Err (ZeroTarget bits)
    else if spec_work (spec_target bits) <? 2 ^ 128
         then Ok (mkCompactDifficulty bits (spec_work (spec_target bits)))
         else Err (WorkOverWidth bits).
Proof. apply try_from_bits_eq. Qed.

(** The main-net minimum difficulty. *)
Lemma try_from_bits_spec_witness :
  uint 32 0x1f07ffff /\
  try_from_bits 0x1f07ffff = Ok (mkCompactDifficulty 0x1f07ffff 8192).
Proof.
  assert (uint 32 0x1f07ffff) as H by (split; vm_compute; congruence).
  split; [exact H|]. rewrite (try_from_bits_spec _ H). vm_compute. reflexivity.
Defined.

(** Of two accepted encodings the one with the smaller target
    carries at least as much work, and work is never zero and fits its width:
    comparing accumulated work orders branches by difficulty. *)
Theorem try_from_bits_work_antitone b1 b2 d1 d2 :
  uint 32 b1 -> uint 32 b2 ->
  try_from_bits b1 = Ok d1 -> try_from_bits b2 = Ok d2 ->
  spec_target b1 <= spec_target b2 ->
  0 < cd_work d2 <= cd_work d1 /\ cd_work d1 < 2 ^ 128.
Proof.
  intros Hb1 Hb2. rewrite !try_from_bits_eq by done.
  assert (Hover : forall b, spec_overflow b = false -> spec_target b < 2 ^ 256).
  { intros b Ho. unfold spec_overflow in Ho. apply orb_false_elim in Ho as [_ Ho]. by zbool. }
  assert (Hpos : forall b, 0 <= spec_target b).
  { intros b. unfold spec_target. pose proof (spec_mantissa_bound b).
    case_match; [|apply Z.div_pos; [lia|apply Z.pow_pos_nonneg; lia]].
    apply Z.mul_nonneg_nonneg; [lia|apply Z.pow_nonneg; lia]. }
  pose proof (Hpos b1). pose proof (Hpos b2).
  intros H1 H2 Hle. repeat case_match; simplify_eq. zbool. cbn [cd_work].
  pose proof (Hover b2 ltac:(done)). unfold spec_work in *.
  split; [split|done].
  - apply Z.div_str_pos. lia.
  - apply Z.div_le_compat_l; lia.
Qed.

Lemma try_from_bits_work_antitone_witness :
  exists d1 d2, try_from_bits 0x1e07ffff = Ok d1 /\ try_from_bits 0x1f07ffff = Ok d2 /\
  0 < cd_work d2 <= cd_work d1 /\ cd_work d1 < 2 ^ 128.
Proof.
  eexists _, _. split; [vm_compute; reflexivity|]. split; [vm_compute; reflexivity|].
  apply (try_from_bits_work_antitone 0x1e07ffff 0x1f07ffff);
    try (split; vm_compute; congruence); vm_compute; congruence.
Defined.

End CompactDifficulty.
