(* ===== verification/Types.v ===== *)
(** * Block data ([packages/zaino-primitives/src/types], [packages/zaino-chain-head/src/block.rs])

    The records the components exchange.  Hashes, identifiers and scripts are
    byte strings. *)

From S2P Require Import Prelude Difficulty.
From stdpp Require Import base gmap list.
From Stdlib Require Import ZArith.
Open Scope Z_scope.

Abbreviation BlockHash := (list Z) (only parsing).
Abbreviation TransactionId := (list Z) (only parsing).
Abbreviation Height := Z (only parsing).

(** [block_ref.rs] *)
Record BlockRef := mkBlockRef { br_hash : BlockHash; br_height : Height }.
Global Instance BlockRef_eq_dec : EqDecision BlockRef.
Proof. solve_decision. Defined.
Lemma BlockRef_ext (a b : BlockRef) :
  br_hash a = br_hash b -> br_height a = br_height b -> a = b.
Proof. destruct a, b; cbn; congruence. Qed.

(** [height_range.rs]: both ends inclusive. *)
Record HeightRange := mkHeightRange { range_start : Height; range_end : Height }.

(** [transaction.rs] *)
Record TransparentInput := mkTransparentInput { prev_txid : TransactionId; prev_index : Z }.
Record TransparentOutput := mkTransparentOutput { out_value : Z; out_script : list Z }.
Record TransparentData := mkTransparentData {
  inputs : list TransparentInput;
  outputs : list TransparentOutput }.
Record SaplingOutput := mkSaplingOutput {
  cmu : list Z; s_ephemeral_key : list Z; s_enc_ciphertext : list Z }.
Record SaplingData := mkSaplingData {
  spends : list (list Z);
  s_outputs : list SaplingOutput;
  s_value_balance : Z }.
Record OrchardAction := mkOrchardAction {
  nullifier : list Z; cmx : list Z; o_ephemeral_key : list Z; o_enc_ciphertext : list Z }.
Record OrchardData := mkOrchardData { actions : list OrchardAction; o_value_balance : Z }.
Record Transaction := mkTransaction {
  txid : TransactionId;
  transparent : TransparentData;
  sapling : SaplingData;
  orchard : OrchardData;
  ironwood : OrchardData }.

(** [equihash_solution.rs] *)
Inductive EquihashSolution := Standard (bytes : list Z) | Regtest (bytes : list Z).

(** [block.rs] *)
Record BlockHeader := mkBlockHeader {
  h_hash : BlockHash;
  h_version : Z;
  h_prev_hash : BlockHash;
  h_height : Height;
  h_time : Z;
  h_merkle_root : list Z;
  h_block_commitments : list Z;
  h_bits : CompactDifficulty.CompactDifficulty;
  h_nonce : list Z;
  h_solution : EquihashSolution }.
Record ChainMetadata := mkChainMetadata {
  sapling_tree_size : Z; orchard_tree_size : Z; ironwood_tree_size : Z }.
Record Block := mkBlock {
  header : BlockHeader;
  transactions : list Transaction;
  chain_metadata : ChainMetadata }.

(** [tree_roots.rs] *)
Record TreeRootInfo := mkTreeRootInfo { root : list Z; tree_size : Z }.
Record TreeRoots := mkTreeRoots {
  r_sapling : option TreeRootInfo;
  r_orchard : option TreeRootInfo;
  r_ironwood : option TreeRootInfo }.

(** [Outpoint], as the key of the spender maps. *)
Abbreviation Outpoint := (TransactionId * Z)%type (only parsing).

(** [ChainMetadata::from_tree_roots] *)
Definition from_tree_roots (roots : TreeRoots) : ChainMetadata :=
  let size o := match o with Some info => tree_size info | None => 0 end in
  mkChainMetadata (size (r_sapling roots)) (size (r_orchard roots)) (size (r_ironwood roots)).

(** [compact_block.rs] *)
Record PreIndexCompactTx := mkPreIndexCompactTx {
  pt_txid : TransactionId;
  transparent_inputs : list TransparentInput;
  transparent_outputs : list TransparentOutput;
  sapling_nullifiers : list (list Z);
  sapling_outputs : list SaplingOutput;
  orchard_actions : list OrchardAction;
  ironwood_actions : list OrchardAction }.
Record PreIndexCompactBlock := mkPreIndexCompactBlock {
  pb_hash : BlockHash;
  pb_prev_hash : BlockHash;
  pb_height : Z;
  pb_time : Z;
  pb_bits : CompactDifficulty.CompactDifficulty;
  pb_transactions : list PreIndexCompactTx }.
Record CompactBlock := mkCompactBlock {
  cb_hash : BlockHash;
  cb_prev_hash : BlockHash;
  cb_height : Z;
  cb_time : Z;
  cb_bits : CompactDifficulty.CompactDifficulty;
  cb_transactions : list PreIndexCompactTx;
  cb_chain_metadata : ChainMetadata }.
Definition pre_index_tx (tx : Transaction) : PreIndexCompactTx :=
  mkPreIndexCompactTx (txid tx) (inputs (transparent tx)) (outputs (transparent tx)) (spends (sapling tx))
    (s_outputs (sapling tx)) (actions (orchard tx)) (actions (ironwood tx)).
Definition pre_index_block (block : Block) : PreIndexCompactBlock :=
  mkPreIndexCompactBlock (h_hash (header block)) (h_prev_hash (header block)) (h_height (header block))
    (h_time (header block)) (h_bits (header block)) (pre_index_tx <$> transactions block).
(** [CompactBlock::from_pre_index] *)
Definition from_pre_index (pre : PreIndexCompactBlock) (chain_metadata : ChainMetadata) : CompactBlock :=
  mkCompactBlock (pb_hash pre) (pb_prev_hash pre) (pb_height pre) (pb_time pre) (pb_bits pre)
    (pb_transactions pre) chain_metadata.

(** [zaino-chain-head/src/block.rs]: a block as the chain head retains it. *)
Record ChainHeadBlock := mkChainHeadBlock {
  reference : BlockRef;
  parent_hash : BlockHash;
  chb_work : Z;
  chb_block : Block;
  tree_roots : TreeRoots }.
(** [ChainHeadBlock::hash] and [ChainHeadBlock::height] *)
Definition hash (b : ChainHeadBlock) : BlockHash := br_hash (reference b).
Definition height (b : ChainHeadBlock) : Height := br_height (reference b).

(** [ChainHeadWork::checked_add]: a [u128] accumulation. *)
Definition chain_head_work_checked_add (self block_work : Z) : option Z :=
  checked_add 128 self block_work.

(** ** Hash-map iteration

    [HashMap] iteration visits every entry once in an unspecified order.  The
    order is an interface: what uses it is proved for every order. *)
Class HashIter := {
  hiter : forall {K V : Type} `{Countable K}, gmap K V -> list (K * V);
  hiter_perm : forall {K V : Type} `{Countable K} (m : gmap K V),
    hiter m ≡ₚ map_to_list m }.

Definition keys `{HashIter} {K V} `{Countable K} (m : gmap K V) : list K := (hiter m).*1.
Definition values `{HashIter} {K V} `{Countable K} (m : gmap K V) : list V := (hiter m).*2.

(** One order, for evaluating on concrete inputs. *)
Definition canonical_iter : HashIter :=
  {| hiter := fun K V _ _ m => map_to_list m; hiter_perm := fun K V _ _ m => reflexivity _ |}.

(** ** Parallel work

    Work done concurrently completes in some order.  The order is an interface too:
    rayon's parallel iterators and [buffer_unordered] streams. *)
Class ParOrder := {
  par_order : forall {A : Type}, list A -> list A;
  par_order_perm : forall {A : Type} (l : list A), par_order l ≡ₚ l }.

Section HashIterFacts.
Context `{HashIter} {K V : Type} `{Countable K}.
Implicit Types m : gmap K V.

Lemma elem_of_hiter m k v : (k, v) ∈ hiter m <-> m !! k = Some v.
Proof. rewrite hiter_perm. apply elem_of_map_to_list. Qed.

Lemma elem_of_values m v : v ∈ values m <-> exists k, m !! k = Some v.
Proof.
  unfold values. rewrite list_elem_of_fmap. split.
  - intros ([k v'] & -> & Hin%elem_of_hiter). eauto.
  - intros [k Hk]. exists (k, v). split; [done|]. by apply elem_of_hiter.
Qed.

Lemma elem_of_keys m k : k ∈ keys m <-> is_Some (m !! k).
Proof.
  unfold keys. rewrite list_elem_of_fmap. split.
  - intros ([k' v'] & -> & Hin%elem_of_hiter). eauto.
  - intros [v Hk]. exists (k, v). split; [done|]. by apply elem_of_hiter.
Qed.

Lemma NoDup_keys m : NoDup (keys m).
Proof. unfold keys. rewrite hiter_perm. apply NoDup_fst_map_to_list. Qed.
End HashIterFacts.
