(* ===== verification/BlockTime.v ===== *)
(** * Block times ([packages/zaino-consensus/src/block_time.rs])

    Median-time-past, and the search for the heights whose blocks can carry a
    timestamp of a range.  The search never reads a header itself: it asks for
    one, is supplied, and goes on. *)

From S2P Require Import Prelude Primitives Types.
From stdpp Require Import base list sorting.
From Stdlib Require Import ZArith Lia.
Open Scope Z_scope.

Module BlockTime.

Definition MEDIAN_BLOCK_SPAN : nat := 11.

(** ** [MaxBlockTimeDrift] *)
Record MaxBlockTimeDrift := mkDrift { enforced_from : Height }.
Definition DRIFT_SECONDS : Z := 90 * 60.
Definition TESTNET_ACTIVATION : Z := 653606.
Definition MAINNET : MaxBlockTimeDrift := mkDrift Height.GENESIS.
Definition TESTNET : MaxBlockTimeDrift := mkDrift TESTNET_ACTIVATION.

Definition median_time_past (times : list Z) : option Z :=
  match times with
  | [] => None
  | _ =>
      let window_start := (length times - MEDIAN_BLOCK_SPAN)%nat in
      let window := merge_sort Z.le (drop window_start times) in
      window !! (length window / 2)%nat
  end.

(** ** Binary search over an interval of heights *)
Record BinarySearch := mkBinarySearch { lo : Z; hi : Z; mid : Z; best : option Z }.
Definition midpoint (lo hi : Z) : Z := saturating_add 32 lo (saturating_sub hi lo / 2).
Definition binary_search_new (lo hi : Z) : BinarySearch := mkBinarySearch lo hi (midpoint lo hi) None.
Definition finished (s : BinarySearch) : bool := hi s <? lo s.
Definition recompute_mid (s : BinarySearch) : BinarySearch :=
  if negb (finished s) then mkBinarySearch (lo s) (hi s) (midpoint (lo s) (hi s)) (best s) else s.
(** The interval below [mid], exhausted when [mid] is the lowest number. *)
Definition go_below (s : BinarySearch) (best : option Z) : BinarySearch :=
  let hi := saturating_sub (mid s) 1 in
  mkBinarySearch (if mid s =? 0 then saturating_add 32 hi 1 else lo s) hi (mid s) best.
Definition go_above (s : BinarySearch) (best : option Z) : BinarySearch :=
  mkBinarySearch (saturating_add 32 (mid s) 1) (hi s) (mid s) best.
Definition record_take_highest (s : BinarySearch) (holds : bool) : BinarySearch :=
  recompute_mid (if holds then go_above s (Some (mid s)) else go_below s (best s)).
Definition record_take_lowest (s : BinarySearch) (holds : bool) : BinarySearch :=
  recompute_mid (if holds then go_below s (Some (mid s)) else go_above s (best s)).

(** ** [CandidateSearch] *)
Record MissingHeader := mkMissingHeader { missing_height : Height }.
Inductive SearchStep :=
| Need (h : Height) | Done (bracket : option HeightRange) | Failed (missing : MissingHeader).
Inductive Phase :=
| GenesisOnly
| FindHigh (search : BinarySearch)
| FindLow (search : BinarySearch) (high_bound : Height)
| PhaseDone (bracket : option HeightRange)
| PhaseFailed (missing : MissingHeader).
Inductive MtpAttempt := NotYetSupplied (h : Height) | Hole (h : Height) | Ready (mtp : Z).

Abbreviation Cache := (list (Height * option Z)) (only parsing).
Record CandidateSearch := mkSearch {
  cs_tip : Height; cs_low : Z; cs_high : Z; cs_drift : MaxBlockTimeDrift; cs_cache : Cache; cs_phase : Phase }.

Definition new (tip : Height) (low high : Z) (drift : MaxBlockTimeDrift) : CandidateSearch :=
  mkSearch tip low high drift []
    (if high <=? low then PhaseDone None
     else if tip =? Height.GENESIS then GenesisOnly
     else FindHigh (binary_search_new 1 tip)).
Definition with_phase (s : CandidateSearch) (p : Phase) : CandidateSearch :=
  mkSearch (cs_tip s) (cs_low s) (cs_high s) (cs_drift s) (cs_cache s) p.

(** [slice::binary_search_by_key] on a vector sorted by its keys: the key's index,
    or where it would be inserted. *)
Fixpoint binary_search_by_key (h : Height) (cache : Cache) : result nat nat :=
  match cache with
  | [] => Err 0%nat
  | (k, _) :: cache =>
      if h <? k then Err 0%nat
      else if h =? k then Ok 0%nat
      else match binary_search_by_key h cache with
           | Ok idx => Ok (S idx)
           | Err idx => Err (S idx)
           end
  end.
Definition cache_supply (cache : Cache) (h : Height) (time : option Z) : Cache :=
  match binary_search_by_key h cache with
  | Ok idx => alter (fun e => (e.1, time)) idx cache
  | Err idx => take idx cache ++ (h, time) :: drop idx cache
  end.
Definition cache_lookup (cache : Cache) (h : Height) : option (option Z) :=
  let! idx := ok (binary_search_by_key h cache) in
  let! e := cache !! idx in Some e.2.
Definition supply (s : CandidateSearch) (h : Height) (time : option Z) : CandidateSearch :=
  mkSearch (cs_tip s) (cs_low s) (cs_high s) (cs_drift s) (cache_supply (cs_cache s) h time) (cs_phase s).
Definition cached (s : CandidateSearch) (h : Height) : option (option Z) := cache_lookup (cs_cache s) h.

Fixpoint mtp_loop (s : CandidateSearch) (preds : list Z) (times : list Z) (last_valid : option Height) : MtpAttempt :=
  match preds with
  | [] =>
      match median_time_past times with
      | Some mtp => Ready mtp
      | None => Hole (default Height.GENESIS last_valid)
      end
  | pred :: preds =>
      match Height.try_from pred with
      | Err _ => mtp_loop s preds times last_valid
      | Ok height =>
          match cached s height with
          | None => NotYetSupplied height
          | Some None => Hole height
          | Some (Some time) => mtp_loop s preds (times ++ [time]) (Some height)
          end
      end
  end.
(** The heights [first_pred ..= last_pred]. *)
Definition predecessors (target : Z) : list Z :=
  let first_pred := saturating_sub target (Z.of_nat MEDIAN_BLOCK_SPAN) in
  let last_pred := saturating_sub target 1 in
  seqZ first_pred (last_pred - first_pred + 1).
Definition mtp_of (s : CandidateSearch) (target : Z) : MtpAttempt := mtp_loop s (predecessors target) [] None.

Definition finalize (s : CandidateSearch) (low_bound high_bound : Height) : CandidateSearch :=
  with_phase s (PhaseDone (if low_bound <=? high_bound then Some (mkHeightRange low_bound high_bound) else None)).
Definition start_low_phase (s : CandidateSearch) (high_best : option Z) : CandidateSearch :=
  match high_best with
  | None => with_phase s (PhaseDone None)
  | Some high =>
      let high_bound := match Height.try_from high with Ok h => h | Err _ => cs_tip s end in
      if Height.GENESIS <? enforced_from (cs_drift s) then finalize s Height.GENESIS high_bound
      else with_phase s (FindLow (binary_search_new 1 high) high_bound)
  end.
Definition finish_low_phase (s : CandidateSearch) (low_best : option Z) (high_bound : Height) : CandidateSearch :=
  match low_best with
  | None => with_phase s (PhaseDone None)
  | Some low =>
      let low_bound :=
        if low <=? 1 then Height.GENESIS
        else match Height.try_from low with Ok h => h | Err _ => Height.GENESIS end in
      finalize s low_bound high_bound
  end.

(** One turn of [poll]'s loop: it returns, or goes on in another phase. *)
Definition poll_turn (s : CandidateSearch) : SearchStep + CandidateSearch :=
  match cs_phase s with
  | PhaseDone bracket => inl (Done bracket)
  | PhaseFailed missing => inl (Failed missing)
  | GenesisOnly =>
      match cached s Height.GENESIS with
      | None => inl (Need Height.GENESIS)
      | Some None => inr (with_phase s (PhaseFailed (mkMissingHeader Height.GENESIS)))
      | Some (Some time) =>
          let in_range := (cs_low s <=? time) && (time <? cs_high s) in
          inr (with_phase s (PhaseDone
                 (if in_range then Some (mkHeightRange Height.GENESIS Height.GENESIS) else None)))
      end
  | FindHigh search =>
      if finished search then inr (start_low_phase s (best search))
      else match mtp_of s (mid search) with
           | NotYetSupplied height => inl (Need height)
           | Hole height => inr (with_phase s (PhaseFailed (mkMissingHeader height)))
           | Ready mtp => inr (with_phase s (FindHigh (record_take_highest search (mtp <? cs_high s))))
           end
  | FindLow search high_bound =>
      if finished search then inr (finish_low_phase s (best search) high_bound)
      else match mtp_of s (mid search) with
           | NotYetSupplied height => inl (Need height)
           | Hole height => inr (with_phase s (PhaseFailed (mkMissingHeader height)))
           | Ready mtp =>
               let threshold := saturating_sub (cs_low s) DRIFT_SECONDS in
               inr (with_phase s (FindLow (record_take_lowest search (threshold <=? mtp)) high_bound))
           end
  end.
(** [None]: out of fuel. *)
Fixpoint poll_loop (fuel : nat) (s : CandidateSearch) : option (SearchStep * CandidateSearch) :=
  match fuel with
  | O => None
  | S fuel =>
      match poll_turn s with
      | inl step => Some (step, s)
      | inr s => poll_loop fuel s
      end
  end.
Definition POLL_FUEL : nat := 70.
Definition poll (s : CandidateSearch) : option (SearchStep * CandidateSearch) := poll_loop POLL_FUEL s.

(** ** Driving the search

    The loop of [block_hashes] in [zaino-core/src/engine/block_hash.rs]: every header the
    search asks for is read, and the search goes on. *)
Inductive SearchError (E : Type) := SearchMissing (h : Height) | SearchRead (e : E).
Arguments SearchMissing {E} h.
Arguments SearchRead {E} e.
Fixpoint drive {E} (fuel : nat) (time_at : Height -> result (option Z) E) (s : CandidateSearch)
    : option (result (option HeightRange) (SearchError E)) :=
  match fuel with
  | O => None
  | S fuel =>
      let! (step, s) := poll s in
      match step with
      | Need height =>
          match time_at height with
          | Err e => Some (Err (SearchRead e))
          | Ok time => drive fuel time_at (supply s height time)
          end
      | Done bracket => Some (Ok bracket)
      | Failed missing => Some (Err (SearchMissing (missing_height missing)))
      end
  end.
Definition DRIVE_FUEL : nat := 800.

(** ** Median-time-past never goes back *)
Definition below (x : Z) (l : list Z) : nat := length (filter (fun y => y < x) l).
Global Instance below_proper x : Proper ((≡ₚ) ==> eq) (below x).
Proof. intros l1 l2 Hp. unfold below. by rewrite Hp. Qed.
Lemma below_app x l1 l2 : below x (l1 ++ l2) = (below x l1 + below x l2)%nat.
Proof. unfold below. by rewrite filter_app, length_app. Qed.
Lemma below_cons x a l : below x (a :: l) = ((if decide (a < x)%Z then 1 else 0) + below x l)%nat.
Proof. unfold below. rewrite filter_cons. by case_decide. Qed.
Lemma below_none x l : Forall (fun y => x <= y) l -> below x l = 0%nat.
Proof.
  intros Hl. unfold below. induction Hl as [|a l Ha _ IH]; [done|]. rewrite filter_cons, decide_False by lia. done.
Qed.

(** The element of rank [k] of a sorted list is at least [x] exactly when at most [k]
    elements are below [x]. *)
Lemma sorted_rank l : StronglySorted Z.le l -> forall k m x, l !! k = Some m -> x <= m <-> (below x l <= k)%nat.
Proof.
  induction 1 as [|a l Hs IH Hall]; intros k m x Hk; [done|]. rewrite below_cons.
  destruct k as [|k]; cbn in Hk.
  - simplify_eq. case_decide; [lia|]. rewrite below_none; [lia|].
    eapply Forall_impl; [exact Hall|]. cbn. lia.
  - specialize (IH k m x Hk). rewrite Forall_forall in Hall. pose proof (Hall m (list_elem_of_lookup_2 _ _ _ Hk)).
    case_decide; [lia|]. split; [|lia]. intros Hx. enough (below x l = 0%nat) by lia. apply below_none.
    apply Forall_forall. intros y Hy. pose proof (Hall y Hy). lia.
Qed.

Definition window (times : list Z) : list Z := drop (length times - MEDIAN_BLOCK_SPAN) times.
Lemma length_window times : length (window times) = Nat.min 11 (length times).
Proof. unfold window, MEDIAN_BLOCK_SPAN. rewrite length_drop. lia. Qed.
Lemma median_rank times m x :
  median_time_past times = Some m -> x <= m <-> (below x (window times) <= length (window times) / 2)%nat.
Proof.
  unfold median_time_past. destruct times as [|t times]; [done|]. intros Hm. fold (window (t :: times)) in Hm.
  rewrite (sorted_rank _ (StronglySorted_merge_sort Z.le (window (t :: times))) _ _ x Hm).
  by rewrite !(merge_sort_Permutation Z.le).
Qed.
Lemma median_exists times : times <> [] -> exists m, median_time_past times = Some m /\ m ∈ window times.
Proof.
  intros Hne. unfold median_time_past. destruct times as [|t times]; [done|]. fold (window (t :: times)).
  destruct (lookup_lt_is_Some_2 (merge_sort Z.le (window (t :: times)))
              (length (merge_sort Z.le (window (t :: times))) / 2)) as [m Hm].
  { rewrite (Permutation_length (merge_sort_Permutation Z.le _)), length_window. apply Nat.div_lt; cbn; lia. }
  exists m. split; [done|]. rewrite <- (merge_sort_Permutation Z.le). by apply list_elem_of_lookup_2 in Hm.
Qed.
(** A block above the median keeps the median from falling. *)
Lemma median_step times t m m' :
  median_time_past times = Some m -> m <= t -> median_time_past (times ++ [t]) = Some m' -> m <= m'.
Proof.
  intros Hm Ht Hm'. apply (median_rank _ _ _ Hm'). pose proof (proj1 (median_rank _ _ m Hm) ltac:(lia)) as Hb.
  assert (length (window times) / 2 <= length (window (times ++ [t])) / 2)%nat as Hl.
  { apply Nat.Div0.div_le_mono. rewrite !length_window, length_app. cbn [length]. lia. }
  enough (below m (window (times ++ [t])) <= below m (window times))%nat by lia.
  assert (window (times ++ [t]) = drop (if decide (11 <= length times)%nat then 1 else 0) (window times) ++ [t]) as ->.
  { unfold window, MEDIAN_BLOCK_SPAN. rewrite length_app. cbn [length]. case_decide.
    - rewrite drop_drop, drop_app_le by lia. do 2 f_equal. lia.
    - rewrite drop_app_le by lia. rewrite drop_drop. do 2 f_equal. lia. }
  rewrite below_app, (below_none m [t]) by (repeat constructor; lia).
  case_decide; rewrite ?drop_0; [|lia]. destruct (window times); [done|]. rewrite skipn_cons, drop_0, below_cons. lia.
Qed.

(** ** The consensus rules *)
(** The median-time-past of a height of a chain of block times. *)
Definition mtp_at (times : list Z) (h : Z) : option Z := median_time_past (take (Z.to_nat h) times).

(** Every block but the first is later than its median-time-past, and where the drift
    rule is enforced not by more than the drift. *)
Record times_ok (drift : MaxBlockTimeDrift) (times : list Z) : Prop := {
  to_positive : Forall (uint 32) times;
  to_late : forall h t m, 0 < h -> times !! Z.to_nat h = Some t -> mtp_at times h = Some m -> m < t;
  to_early : forall h t m, 0 < h -> enforced_from drift <= h -> times !! Z.to_nat h = Some t ->
    mtp_at times h = Some m -> t <= m + DRIFT_SECONDS }.

Lemma mtp_first times : mtp_at times 1 = head times.
Proof. unfold mtp_at. by destruct times. Qed.

Section Chain.
Context (drift : MaxBlockTimeDrift) (times : list Z) (Hok : times_ok drift times).

Lemma mtp_total h : 0 < h -> times <> [] -> exists m, mtp_at times h = Some m /\ 0 <= m.
Proof.
  intros Hh Hne. destruct (median_exists (take (Z.to_nat h) times)) as (m & Hm & Hin).
  { destruct times; [done|]. destruct (Z.to_nat h) eqn:E; [lia|done]. }
  exists m. split; [done|]. pose proof (to_positive _ _ Hok) as Hp. rewrite Forall_forall in Hp.
  apply list_elem_of_lookup in Hin as [i Hi]. unfold window in Hi. rewrite lookup_drop in Hi.
  apply lookup_take_Some in Hi as [Hi _].
  specialize (Hp m (list_elem_of_lookup_2 _ _ _ Hi)). unfold uint in Hp. lia.
Qed.

(** Median-time-past is monotone in the height. *)
Lemma mtp_monotone h h' m m' :
  0 < h <= h' -> h' <= Z.of_nat (length times) -> mtp_at times h = Some m -> mtp_at times h' = Some m' -> m <= m'.
Proof.
  intros [Hh Hle] Hlen Hm. replace h' with (h + Z.of_nat (Z.to_nat (h' - h))) in * by lia.
  clear Hle. revert m'. induction (Z.to_nat (h' - h)) as [|k IH]; intros m' Hm'.
  - rewrite Z.add_0_r in Hm'. simplify_eq. lia.
  - destruct (mtp_total (h + Z.of_nat k)) as (mk & Hk & _); [lia|intros ->; cbn in Hlen; lia|].
    specialize (IH ltac:(lia) mk Hk). enough (mk <= m') by lia.
    destruct (lookup_lt_is_Some_2 times (Z.to_nat (h + Z.of_nat k))) as [t Ht]; [lia|].
    pose proof (to_late _ _ Hok (h + Z.of_nat k) t mk ltac:(lia) Ht Hk).
    unfold mtp_at in Hm', Hk. replace (Z.to_nat (h + Z.of_nat (S k))) with (S (Z.to_nat (h + Z.of_nat k))) in Hm' by lia.
    rewrite (take_S_r _ _ _ Ht) in Hm'. eapply median_step; [done| |done]. lia.
Qed.
End Chain.

(** ** The cache *)
Definition cache_sorted (c : Cache) : Prop := StronglySorted Z.lt c.*1.
Lemma cache_lookup_cons k t c h :
  cache_lookup ((k, t) :: c) h = if h <? k then None else if h =? k then Some t else cache_lookup c h.
Proof.
  unfold cache_lookup. cbn. destruct (h <? k); [done|]. destruct (h =? k); [done|].
  by destruct (binary_search_by_key h c).
Qed.
Lemma cache_supply_cons k t c h v :
  cache_supply ((k, t) :: c) h v =
  if h <? k then (h, v) :: (k, t) :: c else if h =? k then (k, v) :: c else (k, t) :: cache_supply c h v.
Proof.
  unfold cache_supply. cbn. destruct (h <? k); [done|]. destruct (h =? k); [done|].
  by destruct (binary_search_by_key h c).
Qed.
Lemma cache_supply_sorted c h v :
  cache_sorted c -> cache_sorted (cache_supply c h v) /\
  forall k, k < h -> Forall (Z.lt k) c.*1 -> Forall (Z.lt k) (cache_supply c h v).*1.
Proof.
  unfold cache_sorted. induction c as [|[k t] c IH]; intros Hs.
  { cbn. split; [by repeat constructor|]. intros k Hk _. by repeat constructor. }
  rewrite cache_supply_cons. cbn [fmap list_fmap fst] in *. apply StronglySorted_cons in Hs as [Hk Hs].
  destruct (IH Hs) as [IH1 IH2]. destruct (Z.ltb_spec h k) as [Hlt|Hge]; [|destruct (Z.eqb_spec h k) as [->|Hne]];
    cbn [fmap list_fmap fst].
  - split; [|intros k' Hk' Hf; by constructor]. constructor; [by constructor|].
    constructor; [done|]. eapply Forall_impl; [exact Hk|]. cbn. lia.
  - split; [by constructor|done].
  - split.
    + constructor; [done|]. apply IH2; [lia|done].
    + intros k' Hk' [Hkk Hf]%Forall_cons. constructor; [done|]. by apply IH2.
Qed.
Lemma cache_lookup_supply c h v h' :
  cache_sorted c -> cache_lookup (cache_supply c h v) h' = if decide (h' = h) then Some v else cache_lookup c h'.
Proof.
  unfold cache_sorted. induction c as [|[k t] c IH]; intros Hs.
  { cbn. unfold cache_lookup. cbn. repeat case_decide; subst; rewrite ?Z.ltb_irrefl, ?Z.eqb_refl; [done|].
    destruct (h' <? h); [done|]. by destruct (Z.eqb_spec h' h). }
  cbn [fmap list_fmap fst] in Hs. apply StronglySorted_cons in Hs as [Hk Hs]. specialize (IH Hs).
  rewrite cache_supply_cons, cache_lookup_cons.
  destruct (Z.ltb_spec h k) as [Hlt|Hge]; [|destruct (Z.eqb_spec h k) as [->|Hne]]; rewrite ?cache_lookup_cons.
  - destruct (Z.ltb_spec h' h); [rewrite decide_False by lia; by rewrite (proj2 (Z.ltb_lt _ _)) by lia|].
    destruct (Z.eqb_spec h' h); [by rewrite decide_True|]. by rewrite decide_False.
  - destruct (Z.ltb_spec h' k); [by rewrite decide_False by lia|].
    destruct (Z.eqb_spec h' k); [by rewrite decide_True|]. by rewrite decide_False.
  - destruct (Z.ltb_spec h' k); [by rewrite decide_False by lia|].
    destruct (Z.eqb_spec h' k); [by rewrite decide_False by lia|]. done.
Qed.

(** ** Binary search *)
Definition bits (n : Z) : nat := if n <=? 0 then 0%nat else Z.to_nat (Z.log2 n + 1).
Definition span (s : BinarySearch) : Z := hi s - lo s + 1.
Lemma bits_half n m : 0 < n -> m <= n / 2 -> (bits m < bits n)%nat.
Proof.
  intros Hn Hm. unfold bits. rewrite (proj2 (Z.leb_gt n 0)) by lia. pose proof (Z.log2_nonneg n).
  destruct (Z.leb_spec m 0); [lia|].
  assert (2 <= n) by (pose proof (Z.mul_div_le n 2); lia).
  assert (Z.log2 m < Z.log2 n); [|pose proof (Z.log2_nonneg m); lia].
  apply Z.log2_lt_pow2; [lia|]. pose proof (Z.log2_spec n ltac:(lia)) as [_ Hu].
  rewrite Z.pow_succ_r in Hu by lia. apply Z.le_lt_trans with (n / 2); [lia|].
  apply Z.div_lt_upper_bound; lia.
Qed.
Lemma bits_bound n : n < 2 ^ 31 -> (bits n <= 31)%nat.
Proof.
  intros Hn. unfold bits. destruct (Z.leb_spec n 0); [lia|].
  assert (Z.log2 n < 31) by (apply Z.log2_lt_pow2; lia). lia.
Qed.

Section Binary.
Context (a z : Z) (Ha : 1 <= a) (Hz : z < 2 ^ 31).

(** The part of the interval still open, and its middle. *)
Record open_in (s : BinarySearch) : Prop := {
  oi_lo : a <= lo s;
  oi_hi : hi s <= z;
  oi_gap : lo s <= hi s + 1;
  oi_mid : lo s <= hi s -> mid s = lo s + (hi s - lo s) / 2 }.
Lemma midpoint_exact l h : a <= l <= h -> h <= z -> midpoint l h = l + (h - l) / 2.
Proof.
  intros Hl Hh. unfold midpoint, saturating_add, saturating_sub, umax. rewrite Z.max_r by lia.
  rewrite Z.min_r; [done|]. assert ((h - l) / 2 <= h - l) by (apply Z.div_le_upper_bound; lia). lia.
Qed.
Lemma recompute_open s :
  a <= lo s -> hi s <= z -> lo s <= hi s + 1 ->
  open_in (recompute_mid s) /\ lo (recompute_mid s) = lo s /\ hi (recompute_mid s) = hi s /\ best (recompute_mid s) = best s.
Proof.
  intros H1 H2 H3. unfold recompute_mid, finished. destruct (Z.ltb_spec (hi s) (lo s)); cbn.
  - split; [|done]. split; [done..|lia].
  - split; [|done]. split; cbn; [done..|]. intros _. by apply midpoint_exact.
Qed.
Lemma new_open : a <= z + 1 -> open_in (binary_search_new a z).
Proof. intros H. split; cbn; [lia..|]. intros Hle. by apply midpoint_exact. Qed.

(** Looking at the middle halves what is open. *)
Lemma go_on s b (up : bool) :
  open_in s -> finished s = false ->
  let s' := recompute_mid (if up then go_above s b else go_below s b) in
  open_in s' /\ best s' = b /\ lo s <= mid s <= hi s /\
  (if up then lo s' = mid s + 1 /\ hi s' = hi s else lo s' = lo s /\ hi s' = mid s - 1) /\
  (bits (span s') < bits (span s))%nat.
Proof.
  intros [H1 H2 H3 H4] Hf s'. unfold finished in Hf. zbool. specialize (H4 Hf).
  assert (Hm : lo s <= mid s <= hi s) by (rewrite H4; Z.to_euclidean_division_equations; lia).
  assert (Hab : saturating_add 32 (mid s) 1 = mid s + 1) by (unfold saturating_add, umax; lia).
  assert (Hbe : saturating_sub (mid s) 1 = mid s - 1) by (unfold saturating_sub; lia).
  destruct (recompute_open (if up then go_above s b else go_below s b)) as (Ho & Hl & Hh & Hb).
  1-3: destruct up; cbn; rewrite ?Hab, ?Hbe, ?(proj2 (Z.eqb_neq (mid s) 0)) by lia; lia.
  fold s' in Ho, Hl, Hh, Hb.
  assert (Hs : if up then lo s' = mid s + 1 /\ hi s' = hi s else lo s' = lo s /\ hi s' = mid s - 1).
  { destruct up; cbn in Hl, Hh; rewrite ?Hab, ?Hbe, ?(proj2 (Z.eqb_neq (mid s) 0)) in * by lia; done. }
  split_and!; [done|by destruct up|lia..|done|].
  apply bits_half; unfold span in *; [lia|].
  destruct up; destruct Hs as [-> ->]; rewrite H4; Z.to_euclidean_division_equations; lia.
Qed.

(** The highest number of an initial segment. *)
Definition highest (P : Z -> bool) (b : option Z) : Prop :=
  match b with
  | Some h => a <= h <= z /\ P h = true /\ forall k, h < k <= z -> P k = false
  | None => forall k, a <= k <= z -> P k = false
  end.
Record highest_inv (P : Z -> bool) (s : BinarySearch) : Prop := {
  hi_open : open_in s;
  hi_below : forall k, a <= k < lo s -> P k = true;
  hi_above : forall k, hi s < k <= z -> P k = false;
  hi_best : best s = if lo s =? a then None else Some (lo s - 1) }.
Lemma highest_new P : a <= z + 1 -> highest_inv P (binary_search_new a z).
Proof. intros H. split; [by apply new_open|cbn; lia..|]. cbn. by rewrite Z.eqb_refl. Qed.
Lemma highest_step P s :
  (forall k k', a <= k <= k' -> k' <= z -> P k' = true -> P k = true) ->
  highest_inv P s -> finished s = false ->
  highest_inv P (record_take_highest s (P (mid s))) /\ (bits (span (record_take_highest s (P (mid s)))) < bits (span s))%nat.
Proof.
  intros Hmono [H1 H2 H3 H4] Hf. unfold record_take_highest. pose proof (oi_lo _ H1). pose proof (oi_hi _ H1).
  destruct (P (mid s)) eqn:HP.
  - destruct (go_on s (Some (mid s)) true H1 Hf) as (Ho & Hb & Hm & (Hl & Hh) & Hlt). split; [|done]. split; [done|..].
    + rewrite Hl. intros k Hk. apply (Hmono k (mid s)); [lia..|done].
    + rewrite Hh. done.
    + rewrite Hb, Hl, (proj2 (Z.eqb_neq _ _)) by lia. f_equal. lia.
  - destruct (go_on s (best s) false H1 Hf) as (Ho & Hb & Hm & (Hl & Hh) & Hlt). split; [|done]. split; [done|..].
    + rewrite Hl. done.
    + rewrite Hh. intros k Hk. destruct (P k) eqn:Hk'; [|done]. rewrite (Hmono (mid s) k) in HP by (lia || done). done.
    + by rewrite Hb, Hl.
Qed.
Lemma highest_done P s : highest_inv P s -> finished s = true -> highest P (best s).
Proof.
  intros [[H1 H1' H1'' _] H2 H3 H4] Hf. unfold finished in Hf. zbool. rewrite H4.
  destruct (Z.eqb_spec (lo s) a); cbn; [intros k Hk; apply H3; lia|].
  split_and!; [lia..|apply H2; lia|intros k Hk; apply H3; lia].
Qed.

(** The lowest number of a final segment. *)
Definition lowest (P : Z -> bool) (b : option Z) : Prop :=
  match b with
  | Some h => a <= h <= z /\ P h = true /\ forall k, a <= k < h -> P k = false
  | None => forall k, a <= k <= z -> P k = false
  end.
Record lowest_inv (P : Z -> bool) (s : BinarySearch) : Prop := {
  li_open : open_in s;
  li_below : forall k, a <= k < lo s -> P k = false;
  li_above : forall k, hi s < k <= z -> P k = true;
  li_best : best s = if hi s =? z then None else Some (hi s + 1) }.
Lemma lowest_new P : a <= z + 1 -> lowest_inv P (binary_search_new a z).
Proof. intros H. split; [by apply new_open|cbn; lia..|]. cbn. by rewrite Z.eqb_refl. Qed.
Lemma lowest_step P s :
  (forall k k', a <= k <= k' -> k' <= z -> P k = true -> P k' = true) ->
  lowest_inv P s -> finished s = false ->
  lowest_inv P (record_take_lowest s (P (mid s))) /\ (bits (span (record_take_lowest s (P (mid s)))) < bits (span s))%nat.
Proof.
  intros Hmono [H1 H2 H3 H4] Hf. unfold record_take_lowest. pose proof (oi_lo _ H1). pose proof (oi_hi _ H1).
  destruct (P (mid s)) eqn:HP.
  - destruct (go_on s (Some (mid s)) false H1 Hf) as (Ho & Hb & Hm & (Hl & Hh) & Hlt). split; [|done]. split; [done|..].
    + rewrite Hl. done.
    + rewrite Hh. intros k Hk. apply (Hmono (mid s) k); [lia..|done].
    + rewrite Hb, Hh, (proj2 (Z.eqb_neq _ _)) by lia. f_equal. lia.
  - destruct (go_on s (best s) true H1 Hf) as (Ho & Hb & Hm & (Hl & Hh) & Hlt). split; [|done]. split; [done|..].
    + rewrite Hl. intros k Hk. destruct (P k) eqn:Hk'; [|done]. rewrite (Hmono k (mid s)) in HP by (lia || done). done.
    + rewrite Hh. done.
    + by rewrite Hb, Hh.
Qed.
Lemma lowest_done P s : lowest_inv P s -> finished s = true -> lowest P (best s).
Proof.
  intros [[H1 H1' H1'' _] H2 H3 H4] Hf. unfold finished in Hf. zbool. rewrite H4.
  destruct (Z.eqb_spec (hi s) z); cbn; [intros k Hk; apply H2; lia|].
  split_and!; [lia..|apply H3; lia|intros k Hk; apply H2; lia].
Qed.
End Binary.

(** ** The search *)
Lemma window_window times : window (window times) = window times.
Proof.
  unfold window at 1. rewrite length_window. unfold MEDIAN_BLOCK_SPAN.
  replace (Nat.min 11 (length times) - 11)%nat with 0%nat by lia. done.
Qed.
Lemma median_window times : median_time_past (window times) = median_time_past times.
Proof.
  destruct times as [|t times]; [done|]. unfold median_time_past at 1.
  destruct (window (t :: times)) eqn:Hw.
  - assert (length (window (t :: times)) = 0%nat) as Hl by by rewrite Hw. rewrite length_window in Hl. cbn in Hl. lia.
  - rewrite <- Hw. fold (window (window (t :: times))). rewrite window_window. done.
Qed.
Lemma elem_of_predecessors target h :
  1 <= target -> h ∈ predecessors target <-> Z.max 0 (target - 11) <= h < target.
Proof.
  intros Ht. unfold predecessors, saturating_sub. rewrite elem_of_seqZ. change (Z.of_nat MEDIAN_BLOCK_SPAN) with 11. lia.
Qed.
(** The block times of the predecessors are the median's window. *)
Lemma predecessor_times times target ts :
  1 <= target <= Z.of_nat (length times) ->
  Forall2 (fun h t => times !! Z.to_nat h = Some t) (predecessors target) ts ->
  ts = window (take (Z.to_nat target) times).
Proof.
  intros Ht Hf. unfold predecessors, saturating_sub in Hf. change (Z.of_nat MEDIAN_BLOCK_SPAN) with 11 in Hf.
  pose proof (Forall2_length _ _ _ Hf) as Hl. rewrite length_seqZ in Hl.
  apply list_eq. intros i. unfold window, MEDIAN_BLOCK_SPAN. rewrite length_take, lookup_drop.
  destruct (decide (i < length ts)%nat) as [Hi|Hi].
  - rewrite lookup_take_lt by lia. destruct (lookup_lt_is_Some_2 ts i Hi) as [t Hti].
    destruct (Forall2_lookup_r _ _ _ _ _ Hf Hti) as (h & Hh & Hth).
    rewrite Hti, <- Hth. apply lookup_seqZ in Hh as [-> _]. f_equal. lia.
  - rewrite (lookup_ge_None_2 ts) by lia. symmetry. apply lookup_ge_None_2. rewrite length_take. lia.
Qed.

(** The turns a phase can still take. *)
Definition rank (p : Phase) : nat :=
  match p with
  | GenesisOnly => 1
  | FindHigh b => bits (span b) + 34
  | FindLow b _ => bits (span b) + 1
  | _ => 0
  end.
(** The headers a phase can ask for before it moves on. *)
Definition wanted (p : Phase) : list Height :=
  match p with
  | GenesisOnly => [0]
  | FindHigh b | FindLow b _ => predecessors (mid b)
  | _ => []
  end.

(** The headers still to be supplied in the phase. *)
Definition unsupplied (c : Cache) (l : list Height) : nat := length (filter (fun h => cache_lookup c h = None) l).
Lemma wanted_length p : (length (wanted p) <= 11)%nat.
Proof.
  destruct p; cbn [wanted length]; try lia; unfold predecessors; rewrite length_seqZ; unfold saturating_sub;
    change (Z.of_nat MEDIAN_BLOCK_SPAN) with 11; lia.
Qed.
Lemma unsupplied_bound c p : (unsupplied c (wanted p) <= 11)%nat.
Proof. pose proof (wanted_length p). unfold unsupplied. rewrite length_filter. lia. Qed.
Lemma unsupplied_supply c h v l :
  cache_sorted c -> h ∈ l -> cache_lookup c h = None -> (unsupplied (cache_supply c h v) l < unsupplied c l)%nat.
Proof.
  intros Hs Hin Hn. unfold unsupplied.
  assert (Hle : forall l, (length (filter (fun k => cache_lookup (cache_supply c h v) k = None) l) <=
                      length (filter (fun k => cache_lookup c k = None) l))%nat).
  { intros l'. induction l' as [|k l' IH]; [done|]. rewrite !filter_cons, cache_lookup_supply by done.
    destruct (decide (k = h)) as [->|].
    - rewrite (decide_False (P := Some v = None)) by done. case_decide; cbn; lia.
    - case_decide; cbn; lia. }
  induction l as [|k l IH]; [by apply elem_of_nil in Hin|]. rewrite !filter_cons, cache_lookup_supply by done.
  specialize (Hle l). destruct (decide (k = h)) as [->|Hne].
  - rewrite (decide_False (P := Some v = None)), decide_True by done. cbn. lia.
  - apply elem_of_cons in Hin as [->|Hin]; [done|]. specialize (IH Hin). case_decide; cbn; lia.
Qed.

Section Search.
Context {E : Type} (time_at : Height -> result (option Z) E) (times : list Z) (tip : Height).
Context (low high : Z) (drift : MaxBlockTimeDrift) (Hok : times_ok drift times).
Context (Hlow : 0 <= low) (Htip : Height.valid tip) (Hlen : Z.of_nat (length times) = tip + 1).
(** What the reads answer is the chain's, if they answer. *)
Context (Hreads : forall h t, 0 <= h <= tip -> time_at h = Ok (Some t) -> times !! Z.to_nat h = Some t).

Notation mtp h := (default 0 (mtp_at times h)).
Definition hole (h : Height) : Prop := 0 <= h <= tip /\ time_at h = Ok None.
Definition bracketed (bracket : option HeightRange) : Prop :=
  (forall h t, 0 <= h <= tip -> times !! Z.to_nat h = Some t -> low <= t < high ->
     exists r, bracket = Some r /\ range_start r <= h <= range_end r) /\
  (forall r, bracket = Some r -> 0 <= range_start r <= range_end r /\ range_end r <= tip).
Definition before_high (h : Z) : bool := mtp h <? high.
Definition threshold : Z := saturating_sub low DRIFT_SECONDS.
Definition past_low (h : Z) : bool := threshold <=? mtp h.

Lemma tip_small : 0 <= tip < 2 ^ 31.
Proof. clear - Htip. unfold Height.valid in Htip. change Height.MAX_HEIGHT with (2 ^ 31 - 1) in Htip. lia. Qed.
Lemma mtp_some h : 1 <= h -> mtp_at times h = Some (mtp h).
Proof. intros Hh. destruct (mtp_total drift times Hok h) as (m & -> & _); [lia|intros Hn; rewrite Hn in Hlen; cbn in Hlen; pose proof tip_small; lia|done]. Qed.
Lemma mtp_le h h' : 1 <= h <= h' -> h' <= tip -> mtp h <= mtp h'.
Proof.
  intros Hh Hh'. apply (mtp_monotone drift times Hok h h'); [lia|lia|by apply mtp_some; lia..].
Qed.
Lemma time_exists h : 0 <= h <= tip -> exists t, times !! Z.to_nat h = Some t.
Proof. intros Hh. apply lookup_lt_is_Some_2. lia. Qed.

(** What the two bounds mean together. *)
Lemma high_excludes h t hb :
  highest 1 tip before_high hb -> 1 <= h <= tip -> times !! Z.to_nat h = Some t -> t < high ->
  exists b, hb = Some b /\ h <= b.
Proof.
  intros Hb Hh Ht Hlt. pose proof (to_late _ _ Hok h t _ ltac:(lia) Ht (mtp_some h ltac:(lia))) as Hm.
  assert (before_high h = true) as Hbh by (apply Z.ltb_lt; lia).
  destruct hb as [b|]; cbn in Hb; [|rewrite Hb in Hbh by lia; done].
  exists b. split; [done|]. destruct (Z.le_gt_cases h b); [done|]. destruct Hb as (_ & _ & Hb).
  rewrite Hb in Hbh by lia. done.
Qed.
Lemma genesis_time t : times !! 0%nat = Some t -> mtp 1 = t.
Proof. clear - times. intros Ht. rewrite mtp_first, head_lookup. by rewrite Ht. Qed.

Definition phase_inv (p : Phase) : Prop :=
  match p with
  | GenesisOnly => tip = 0
  | FindHigh b => 1 <= tip /\ highest_inv 1 tip before_high b
  | FindLow b hb => highest 1 tip before_high (Some hb) /\ enforced_from drift <= 0 /\ lowest_inv 1 hb past_low b
  | PhaseDone br => bracketed br
  | PhaseFailed m => hole (missing_height m)
  end.
Record search_inv (s : CandidateSearch) : Prop := {
  sv_tip : cs_tip s = tip;
  sv_low : cs_low s = low;
  sv_high : cs_high s = high;
  sv_drift : cs_drift s = drift;
  sv_sorted : cache_sorted (cs_cache s);
  sv_cache : forall h a, cached s h = Some a -> 0 <= h <= tip -> time_at h = Ok a;
  sv_phase : phase_inv (cs_phase s) }.

Lemma mtp_loop_spec s target preds seen ts lv :
  search_inv s -> 1 <= target <= tip -> predecessors target = seen ++ preds ->
  Forall2 (fun h t => times !! Z.to_nat h = Some t) seen ts ->
  match mtp_loop s preds ts lv with
  | NotYetSupplied h => h ∈ predecessors target /\ cached s h = None
  | Hole h => hole h
  | Ready m => mtp target = m
  end.
Proof.
  intros Hs Ht. revert seen ts lv. induction preds as [|h preds IH]; intros seen ts lv Hp Hf; cbn [mtp_loop].
  - rewrite app_nil_r in Hp. rewrite <- Hp in Hf. apply predecessor_times in Hf as ->; [|lia].
    rewrite median_window. fold (mtp_at times target). by rewrite mtp_some by lia.
  - assert (Hin : h ∈ predecessors target) by (rewrite Hp; apply elem_of_app; right; left).
    pose proof (proj1 (elem_of_predecessors target h ltac:(lia)) Hin) as Hh. pose proof tip_small.
    unfold Height.try_from. change Height.MAX_HEIGHT with (2 ^ 31 - 1).
    rewrite (proj2 (Z.ltb_ge (2 ^ 31 - 1) h)) by lia. destruct (cached s h) as [[t|]|] eqn:Hc; [| |done].
    + apply (IH (seen ++ [h])); [by rewrite <- app_assoc|]. apply Forall2_app; [done|]. constructor; [|done].
      apply Hreads; [lia|]. apply (sv_cache s Hs); [done|lia].
    + split; [lia|]. apply (sv_cache s Hs); [done|lia].
Qed.
Lemma mtp_of_spec s target :
  search_inv s -> 1 <= target <= tip ->
  match mtp_of s target with
  | NotYetSupplied h => h ∈ predecessors target /\ cached s h = None
  | Hole h => hole h
  | Ready m => mtp target = m
  end.
Proof. intros Hs Ht. by apply (mtp_loop_spec s target _ []). Qed.

(** The bracket the two bounds leave. *)
Lemma with_phase_inv s p : search_inv s -> phase_inv p -> search_inv (with_phase s p).
Proof. intros [] Hp. by split. Qed.
Lemma nothing_bracketed : (forall h t, 0 <= h <= tip -> times !! Z.to_nat h = Some t -> low <= t < high -> False) -> bracketed None.
Proof. intros Hn. split; [|done]. intros h t Hh Ht Hr. by destruct (Hn h t Hh Ht Hr). Qed.
Lemma finalize_inv s lb hb :
  search_inv s -> 0 <= lb <= hb -> hb <= tip ->
  (forall h t, 0 <= h <= tip -> times !! Z.to_nat h = Some t -> low <= t < high -> lb <= h <= hb) ->
  search_inv (finalize s lb hb).
Proof.
  intros Hs Hb Ht Hc. apply with_phase_inv; [done|]. rewrite (proj2 (Z.leb_le _ _)) by lia. split.
  - intros h t Hh Hth Hr. eexists. split; [done|]. cbn. by apply (Hc h t).
  - intros r [= <-]. cbn. lia.
Qed.
Lemma start_low_inv s hb :
  search_inv s -> 1 <= tip -> highest 1 tip before_high hb -> search_inv (start_low_phase s hb).
Proof.
  intros Hs H1 Hb. pose proof tip_small as Hsm. destruct hb as [hb|]; cbn [start_low_phase].
  - pose proof Hb as (Hr & Hp & Habove). unfold Height.try_from. change Height.MAX_HEIGHT with (2 ^ 31 - 1).
    rewrite (proj2 (Z.ltb_ge (2 ^ 31 - 1) hb)) by lia. rewrite (sv_drift s Hs). change Height.GENESIS with 0.
    destruct (Z.ltb_spec 0 (enforced_from drift)).
    + apply finalize_inv; [done|lia..|]. intros h t Hh Ht Hrange. split; [lia|].
      destruct (Z.eq_dec h 0) as [->|]; [lia|].
      destruct (high_excludes h t (Some hb) Hb) as (b & [= <-] & Hle); [lia|done|lia|done].
    + apply with_phase_inv; [done|]. cbn. split_and!; [lia|lia|done|done|lia|]. apply lowest_new; lia.
  - apply with_phase_inv; [done|]. apply nothing_bracketed. intros h t Hh Ht Hr.
    destruct (Z.eq_dec h 0) as [->|].
    + cbn in Hb. specialize (Hb 1 ltac:(lia)). apply Z.ltb_ge in Hb. rewrite (genesis_time t Ht) in Hb. lia.
    + destruct (high_excludes h t None Hb) as (b & ? & _); [lia|done|lia|done].
Qed.
Lemma finish_low_inv s lb hb :
  search_inv s -> highest 1 tip before_high (Some hb) -> enforced_from drift <= 0 -> lowest 1 hb past_low lb ->
  search_inv (finish_low_phase s lb hb).
Proof.
  intros Hs Hb Hd Hl. pose proof tip_small as Hsm. pose proof Hb as (Hr & Hp & Habove).
  assert (Hin : forall h t, 1 <= h <= tip -> times !! Z.to_nat h = Some t -> low <= t < high -> h <= hb /\ past_low h = true).
  { intros h t Hh Ht Hrange. destruct (high_excludes h t (Some hb) Hb) as (b & [= <-] & Hle); [lia|done|lia|].
    split; [done|]. apply Z.leb_le. pose proof (to_early _ _ Hok h t _ ltac:(lia) ltac:(lia) Ht (mtp_some h ltac:(lia))).
    destruct (mtp_total drift times Hok h) as (m & Hm & Hpos); [lia|intros Hn; by rewrite Hn in Ht|].
    rewrite Hm. rewrite Hm in H. cbn in *. unfold threshold, saturating_sub. lia. }
  assert (Hgen : past_low 1 = false -> forall t, times !! 0%nat = Some t -> t < low).
  { intros Hf t Ht. apply Z.leb_gt in Hf. rewrite (genesis_time t Ht) in Hf. unfold threshold, saturating_sub, DRIFT_SECONDS in Hf.
    pose proof (to_positive _ _ Hok) as Hpos. rewrite Forall_forall in Hpos.
    pose proof (Hpos t (list_elem_of_lookup_2 _ _ _ Ht)) as [? _]. lia. }
  destruct lb as [lb|]; cbn [finish_low_phase].
  - destruct Hl as (Hlr & Hlp & Hbelow). change Height.GENESIS with 0. destruct (Z.leb_spec lb 1).
    + apply finalize_inv; [done|lia..|]. intros h t Hh Ht Hrange. destruct (Z.eq_dec h 0) as [->|]; [lia|].
      destruct (Hin h t); [lia|done..|]. lia.
    + unfold Height.try_from. change Height.MAX_HEIGHT with (2 ^ 31 - 1). rewrite (proj2 (Z.ltb_ge (2 ^ 31 - 1) lb)) by lia.
      apply finalize_inv; [done|lia..|]. intros h t Hh Ht Hrange. destruct (Z.eq_dec h 0) as [->|].
      * pose proof (Hgen (Hbelow 1 ltac:(lia)) t Ht). lia.
      * destruct (Hin h t) as [Hle Hpl]; [lia|done..|]. split; [|done].
        destruct (Z.le_gt_cases lb h); [done|]. rewrite Hbelow in Hpl by lia. done.
  - apply with_phase_inv; [done|]. cbn in Hl. apply nothing_bracketed. intros h t Hh Ht Hrange.
    destruct (Z.eq_dec h 0) as [->|]; [pose proof (Hgen (Hl 1 ltac:(lia)) t Ht); lia|].
    destruct (Hin h t) as [Hle Hpl]; [lia|done..|]. rewrite Hl in Hpl by lia. done.
Qed.

Definition step_ok (s : CandidateSearch) (step : SearchStep) : Prop :=
  match step with
  | Need h => h ∈ wanted (cs_phase s) /\ cached s h = None /\ 0 <= h <= tip
  | Done b => bracketed b
  | Failed m => hole (missing_height m)
  end.
Lemma mid_bounds a z b : open_in a z b -> finished b = false -> a <= mid b <= z.
Proof.
  intros [H1 H2 _ H4] Hf. unfold finished in Hf. zbool. rewrite H4 by done. Z.to_euclidean_division_equations. lia.
Qed.
Lemma predecessor_range target h : 1 <= target <= tip -> h ∈ predecessors target -> 0 <= h <= tip.
Proof. intros Ht Hh%elem_of_predecessors; lia. Qed.

Lemma poll_turn_ok s :
  search_inv s ->
  match poll_turn s with
  | inl step => step_ok s step
  | inr s' => search_inv s' /\ cs_cache s' = cs_cache s /\ (rank (cs_phase s') < rank (cs_phase s))%nat
  end.
Proof.
  intros Hs. pose proof (sv_phase s Hs) as Hp. pose proof tip_small as Hsm. unfold poll_turn, step_ok.
  destruct (cs_phase s) as [|b|b hb|br|m] eqn:Hph; cbn [rank wanted phase_inv] in *; [| | |done..].
  - destruct (cached s Height.GENESIS) as [[t|]|] eqn:Hc.
    + split; [|by cbn; auto with lia]. apply with_phase_inv; [done|]. cbn [phase_inv].
      assert (Hg : times !! 0%nat = Some t) by (apply (Hreads 0); [lia|apply (sv_cache s Hs); [done|lia]]).
      rewrite (sv_low s Hs), (sv_high s Hs).
      destruct (Z.leb_spec low t), (Z.ltb_spec t high); cbn [andb];
        try (apply nothing_bracketed; intros h t' Hh Ht' Hr; replace h with 0 in Ht' by lia; change (Z.to_nat 0) with 0%nat in Ht'; rewrite Hg in Ht'; injection Ht' as <-; lia).
      split; [|intros r [= <-]; cbn; change Height.GENESIS with 0; lia]. intros h t' Hh Ht' Hr. eexists. split; [done|].
      cbn. change Height.GENESIS with 0. lia.
    + split; [|by cbn; auto with lia]. apply with_phase_inv; [done|]. split; [cbn; change Height.GENESIS with 0; lia|].
      apply (sv_cache s Hs); [done|]. cbn; change Height.GENESIS with 0. lia.
    + split; [left|]. split; [done|]. change Height.GENESIS with 0. lia.
  - destruct Hp as [H1 Hp]. destruct (finished b) eqn:Hf.
    + split; [apply start_low_inv; [done..|by apply highest_done]|].
      pose proof (highest_done 1 tip before_high b Hp Hf) as Hb.
      destruct (best b) as [hb|]; cbn [start_low_phase]; [|by cbn; auto with lia].
      destruct (_ <? _); cbn; [by auto with lia|]. split; [done|]. destruct Hb as (Hr & _ & _).
      pose proof (bits_bound (span (binary_search_new 1 hb)) ltac:(unfold span; cbn [lo hi binary_search_new]; lia)). lia.
    + pose proof (mid_bounds 1 tip b (hi_open _ _ _ _ Hp) Hf) as Hm. pose proof (mtp_of_spec s (mid b) Hs Hm) as Hmtp.
      destruct (mtp_of s (mid b)) as [h|h|m].
      * destruct Hmtp as [Hin Hc]. split; [done|]. split; [done|]. by apply (predecessor_range (mid b)).
      * split; [by apply with_phase_inv|]. cbn. auto with lia.
      * assert (Hbh : (m <? cs_high s) = before_high (mid b)) by (rewrite (sv_high s Hs); unfold before_high; by rewrite Hmtp).
        rewrite Hbh. destruct (highest_step 1 tip ltac:(lia) ltac:(lia) before_high b) as [Hi Hlt]; [|done..|].
        { intros k k' Hk Hk' Ht%Z.ltb_lt. apply Z.ltb_lt. pose proof (mtp_le k k'). lia. }
        split; [by apply with_phase_inv|]. cbn. split; [done|]. lia.
  - destruct Hp as (Hb & Hd & Hp). pose proof Hb as (Hr & _). destruct (finished b) eqn:Hf.
    + split; [apply finish_low_inv; [done..|by apply lowest_done]|].
      destruct (best b); cbn; auto with lia.
    + pose proof (mid_bounds 1 hb b (li_open _ _ _ _ Hp) Hf) as Hm. pose proof (mtp_of_spec s (mid b) Hs ltac:(lia)) as Hmtp.
      destruct (mtp_of s (mid b)) as [h|h|m].
      * destruct Hmtp as [Hin Hc]. split; [done|]. split; [done|]. apply (predecessor_range (mid b)); [lia|done].
      * split; [by apply with_phase_inv|]. cbn. auto with lia.
      * assert (Hbh : (saturating_sub (cs_low s) DRIFT_SECONDS <=? m) = past_low (mid b))
          by (rewrite (sv_low s Hs); unfold past_low; by rewrite Hmtp).
        rewrite Hbh. destruct (lowest_step 1 hb ltac:(lia) ltac:(lia) past_low b) as [Hi Hlt]; [|done..|].
        { intros k k' Hk Hk' Ht%Z.leb_le. apply Z.leb_le. pose proof (mtp_le k k'). lia. }
        split; [by apply with_phase_inv|]. cbn. split; [done|]. lia.
Qed.

Lemma poll_loop_ok fuel s :
  search_inv s -> (rank (cs_phase s) < fuel)%nat ->
  exists step s', poll_loop fuel s = Some (step, s') /\ search_inv s' /\ step_ok s' step /\
    (s' = s \/ cs_cache s' = cs_cache s /\ rank (cs_phase s') < rank (cs_phase s))%nat.
Proof.
  revert s. induction fuel as [|fuel IH]; intros s Hs Hf; [lia|]. cbn [poll_loop].
  pose proof (poll_turn_ok s Hs) as Ht. destruct (poll_turn s) as [step|s1]; [by eauto 10|].
  destruct Ht as (Hs1 & Hc & Hr). destruct (IH s1 Hs1 ltac:(lia)) as (step & s' & Hl & Hs' & Hst & Hor).
  exists step, s'. split_and!; [done..|]. right. destruct Hor as [->|[Hc' Hr']]; [done|]. split; [congruence|lia].
Qed.
Lemma rank_bound s : search_inv s -> (rank (cs_phase s) <= 65)%nat.
Proof.
  intros Hs. pose proof (sv_phase s Hs) as Hp. pose proof tip_small. destruct (cs_phase s) as [|b|b hb|?|?]; cbn [rank phase_inv] in *; try lia.
  - destruct Hp as [_ [[] _ _ _]]. pose proof (bits_bound (span b)). unfold span in *. lia.
  - destruct Hp as ((? & _) & _ & [[] _ _ _]). pose proof (bits_bound (span b)). unfold span in *. lia.
Qed.

Lemma supply_inv s h a : search_inv s -> (0 <= h <= tip -> time_at h = Ok a) -> search_inv (supply s h a).
Proof.
  intros [] Ha. split; try done; cbn.
  - by apply cache_supply_sorted.
  - unfold cached. cbn. intros h' a'. rewrite cache_lookup_supply by done. case_decide; [|apply sv_cache0].
    subst. intros [= <-]. done.
Qed.

Definition search_result (r : result (option HeightRange) (SearchError E)) : Prop :=
  match r with
  | Ok bracket => bracketed bracket
  | Err (SearchMissing h) => hole h
  | Err (SearchRead e) => exists h, 0 <= h <= tip /\ time_at h = Err e
  end.
Lemma drive_ok fuel s :
  search_inv s -> (12 * rank (cs_phase s) + unsupplied (cs_cache s) (wanted (cs_phase s)) < fuel)%nat ->
  exists r, drive fuel time_at s = Some r /\ search_result r.
Proof.
  revert s. induction fuel as [|fuel IH]; intros s Hs Hf; [lia|]. cbn [drive]. pose proof (rank_bound s Hs).
  destruct (poll_loop_ok POLL_FUEL s Hs ltac:(unfold POLL_FUEL; lia)) as (step & s' & Hpoll & Hs' & Hst & Hor).
  unfold poll. rewrite Hpoll. destruct step as [h|br|m]; [|by eauto..].
  destruct Hst as (Hw & Hc & Hh). destruct (time_at h) as [a|e] eqn:Ha; [|eexists; split; [done|]; by exists h].
  apply IH; [by apply supply_inv|]. cbn.
  pose proof (unsupplied_supply (cs_cache s') h a _ (sv_sorted s' Hs') Hw Hc) as Hlt.
  pose proof (unsupplied_bound (cs_cache s') (cs_phase s')). destruct Hor as [->|[_ Hr]]; lia.
Qed.
Lemma new_inv : search_inv (new tip low high drift).
Proof.
  split; try done; cbn; [constructor|]. pose proof tip_small. destruct (Z.leb_spec high low).
  - apply nothing_bracketed. intros. lia.
  - change Height.GENESIS with 0. destruct (Z.eqb_spec tip 0); [done|]. split; [lia|]. apply highest_new; lia.
Qed.
End Search.

(** Driving a new search. *)
Lemma search_ends {E} (time_at : Height -> result (option Z) E) times tip low high drift :
  times_ok drift times -> 0 <= low -> Height.valid tip -> Z.of_nat (length times) = tip + 1 ->
  (forall h t, 0 <= h <= tip -> time_at h = Ok (Some t) -> times !! Z.to_nat h = Some t) ->
  exists r, drive DRIVE_FUEL time_at (new tip low high drift) = Some r /\
    search_result time_at times tip low high r.
Proof.
  intros Hok Hlow Htip Hlen Hreads.
  assert (Hinv : search_inv time_at times tip low high drift (new tip low high drift)) by (apply new_inv; done).
  eapply drive_ok; [done..|]. assert (rank (cs_phase (new tip low high drift)) <= 65)%nat by (eapply rank_bound; done).
  pose proof (unsupplied_bound (cs_cache (new tip low high drift)) (cs_phase (new tip low high drift))).
  unfold DRIVE_FUEL. lia.
Qed.

(** C9: the search for the heights of a timestamp range always ends, after at most 800
    header reads whatever the length of the chain, and is right: over a chain whose
    timestamps obey the consensus rules it answers a bracket of heights within the
    chain that contains every block whose timestamp is in the range; a header missing
    at or below the tip, or a failed read, is reported as such and never turned into a
    bracket. *)
Theorem candidate_search_complete {E} (time_at : Height -> result (option Z) E) times tip low high drift :
  times_ok drift times -> 0 <= low -> Height.valid tip -> Z.of_nat (length times) = tip + 1 ->
  (forall h t, 0 <= h <= tip -> time_at h = Ok (Some t) -> times !! Z.to_nat h = Some t) ->
  exists r, drive DRIVE_FUEL time_at (new tip low high drift) = Some r /\
    search_result time_at times tip low high r.
Proof. intros. by apply (search_ends time_at times tip low high drift). Qed.

Module Example.
Definition clock : list Z := [1000; 1001; 1002; 1003].
Lemma clock_ok : times_ok MAINNET clock.
Proof.
  split.
  - repeat constructor; discriminate.
  - intros h t m Hh. destruct (Z.to_nat h) as [|[|[|[|n]]]] eqn:E; [lia|..|done].
    all: assert (h = Z.of_nat (Z.to_nat h)) as -> by lia; rewrite E; intros [= <-]; vm_compute; by intros [= <-].
  - intros h t m Hh _. destruct (Z.to_nat h) as [|[|[|[|n]]]] eqn:E; [lia|..|done].
    all: assert (h = Z.of_nat (Z.to_nat h)) as -> by lia; rewrite E; intros [= <-]; vm_compute; by intros [= <-].
Qed.
Definition clock_at (h : Height) : result (option Z) unit := Ok (clock !! Z.to_nat h).
Lemma candidate_search_complete_witness :
  exists r, drive DRIVE_FUEL clock_at (new 3 1001 1003 MAINNET) = Some r /\ search_result clock_at clock 3 1001 1003 r.
Proof.
  apply (candidate_search_complete clock_at clock 3 1001 1003 MAINNET clock_ok); [lia|split; discriminate|reflexivity|].
  intros h t _. by intros [= E].
Defined.
End Example.
End BlockTime.
