(* ===== verification/Persistence.v ===== *)
(** * The key-value port and the in-memory backend
    ([packages/zaino-persistence/src/backend.rs], [in_memory.rs])

    A backend stores raw bytes under a namespace and a key: readers look up, scan
    and range-scan in bytewise order, a writer commits a list of operations
    atomically.  What a backend promises its clients is the class [BackendSpec]:
    it behaves as a finite map from (namespace, key) to value.  The in-memory
    backend is an instance. *)

From S2P Require Import Prelude Types.
From Stdlib Require Import ZArith Lia.
From stdpp Require Import base gmap list strings sets relations sorting.
Open Scope Z_scope.

(** ** Bytewise order *)
Module Bytes.

(** [Ord] on byte slices. *)
Fixpoint bytes_compare (a b : list Z) : comparison :=
  match a, b with
  | [], [] => Eq
  | [], _ => Lt
  | _, [] => Gt
  | x :: a, y :: b => match x ?= y with Eq => bytes_compare a b | c => c end
  end.
Definition bytes_le (a b : list Z) : Prop := bytes_compare a b <> Gt.
Definition bytes_ltb (a b : list Z) : bool :=
  match bytes_compare a b with Lt => true | _ => false end.

Global Instance bytes_le_dec : RelDecision bytes_le.
Proof. intros a b. unfold bytes_le. apply _. Defined.

Lemma bytes_compare_eq a b : bytes_compare a b = Eq <-> a = b.
Proof.
  revert b. induction a as [|x a IH]; intros [|y b]; cbn; try done.
  destruct (Z.compare_spec x y) as [->|?|?]; [rewrite IH| |]; split; try done;
    [intros ->; done|by intros [= ->]|intros [= -> ->]; lia|intros [= -> ->]; lia].
Qed.

Lemma bytes_compare_antisym a b : bytes_compare b a = CompOpp (bytes_compare a b).
Proof.
  revert b. induction a as [|x a IH]; intros [|y b]; cbn; try done.
  rewrite (Z.compare_antisym x y). destruct (x ?= y); cbn; [apply IH|done|done].
Qed.

Lemma bytes_compare_trans a b c :
  bytes_compare a b = Lt -> bytes_compare b c = Lt -> bytes_compare a c = Lt.
Proof.
  revert b c. induction a as [|x a IH]; intros [|y b] [|z c]; cbn; try done.
  destruct (Z.compare_spec x y) as [->|Hxy|Hxy], (Z.compare_spec y z) as [->|Hyz|Hyz]; try done.
  - apply IH.
  - by rewrite (proj2 (Z.compare_lt_iff x z) Hxy).
  - intros _ _. by rewrite (proj2 (Z.compare_lt_iff x z) (Z.lt_trans _ _ _ Hxy Hyz)).
Qed.

Lemma bytes_le_lt a b : bytes_le a b <-> a = b \/ bytes_compare a b = Lt.
Proof.
  unfold bytes_le. destruct (bytes_compare a b) eqn:Hc.
  - apply bytes_compare_eq in Hc. naive_solver.
  - naive_solver.
  - split; [done|]. intros [->|?]; [|done].
    by rewrite (proj2 (bytes_compare_eq b b) eq_refl) in Hc.
Qed.

Global Instance bytes_le_total : Total bytes_le.
Proof.
  intros a b. unfold bytes_le. rewrite (bytes_compare_antisym a b).
  destruct (bytes_compare a b); cbn; naive_solver.
Qed.
Global Instance bytes_le_refl : Reflexive bytes_le.
Proof. intros a. apply bytes_le_lt. by left. Qed.
Global Instance bytes_le_trans : Transitive bytes_le.
Proof.
  intros a b c [->|Hab]%bytes_le_lt [->|Hbc]%bytes_le_lt; apply bytes_le_lt; eauto.
  right. by eapply bytes_compare_trans.
Qed.
Global Instance bytes_le_antisymm : AntiSymm (=) bytes_le.
Proof.
  intros a b [->|Hab]%bytes_le_lt [Hba|Hba]%bytes_le_lt; try done.
  rewrite bytes_compare_antisym, Hba in Hab. done.
Qed.

Lemma bytes_compare_app l a b : bytes_compare (l ++ a) (l ++ b) = bytes_compare a b.
Proof. induction l as [|x l IH]; [done|]. cbn. by rewrite Z.compare_refl. Qed.

(** Big-endian integers of one width order as numbers. *)
Lemma bytes_compare_be n x y :
  0 <= x < 2 ^ (8 * Z.of_nat n) -> 0 <= y < 2 ^ (8 * Z.of_nat n) ->
  bytes_compare (to_be_bytes n x) (to_be_bytes n y) = (x ?= y).
Proof.
  assert (Hlast : forall a b x y, length a = length b ->
    bytes_compare (a ++ [x]) (b ++ [y]) = match bytes_compare a b with Eq => x ?= y | c => c end).
  { induction a as [|u a IH]; intros [|v b] x' y' Hl; cbn in *; try done.
    - by destruct (x' ?= y').
    - destruct (u ?= v); [apply IH; lia|done|done]. }
  revert x y. induction n as [|n IH]; intros x y Hx Hy.
  { cbn in *. assert (x = 0) as -> by lia. by assert (y = 0) as -> by lia. }
  rewrite pow_bytes_S in Hx, Hy. unfold to_be_bytes in *. cbn [to_le_bytes]. rewrite !reverse_cons, Hlast
    by by rewrite !length_reverse, !length_to_le_bytes.
  rewrite IH by (split; [apply Z.div_pos; lia|apply Z.div_lt_upper_bound; lia]).
  pose proof (Z.div_mod x 256) as Hdx. pose proof (Z.div_mod y 256) as Hdy.
  pose proof (Z.mod_pos_bound x 256). pose proof (Z.mod_pos_bound y 256).
  destruct (Z.compare_spec (x / 256) (y / 256)), (Z.compare_spec x y), (Z.compare_spec (x mod 256) (y mod 256));
    try done; lia.
Qed.
End Bytes.

(** ** The port *)
Module Kv.
Import Bytes.

Notation RawKey := (list Z) (only parsing).
Notation RawValue := (list Z) (only parsing).

Inductive WriteOp :=
| Put (namespace : string) (key : RawKey) (value : RawValue)
| Delete (namespace : string) (key : RawKey).

Inductive KeyOrder := WalkOrdered | Scattered | Meta.
Record NamespaceSpec := mkSpec { ns_namespace : string; key_order : KeyOrder }.
Definition meta (namespace : string) : NamespaceSpec := mkSpec namespace Meta.

Record BulkPolicy := mkPolicy { enabled : bool }.

Definition ReadError : Type := unit.

(** [ControlFlow] and a [RangeVisitor]: a callback with a state. *)
Inductive ControlFlow := Continue | Break.
Definition RangeVisitor (V : Type) : Type := V -> RawKey -> RawValue -> V * ControlFlow.

Record BackendReader := mkReader {
  r_get : string -> RawKey -> result (option RawValue) ReadError;
  r_scan : string -> result (list (RawKey * RawValue)) ReadError;
  r_scan_range : forall {V : Type}, string -> RawKey -> RawKey -> RangeVisitor V -> V ->
    result V ReadError;
  r_first_key : string -> result (option RawKey) ReadError;
  r_is_complete : string -> result bool ReadError }.

(** [Backend] over its state: opening a reader or a writer, an atomic commit, a
    flush, bulk mode. *)
Record Backend (BSt : Type) := mkBackend {
  b_reader : BSt -> result BackendReader unit;
  b_writer : BSt -> result unit unit;
  b_commit : BSt -> list WriteOp -> result BSt unit;
  b_flush : BSt -> result BSt unit;
  b_begin_bulk : BSt -> BulkPolicy -> result BSt unit;
  b_finish_bulk : BSt -> result BSt unit;
  b_bulk_pending : BSt -> result bool ReadError }.
Arguments mkBackend {BSt}.
Arguments b_reader {BSt}.
Arguments b_writer {BSt}.
Arguments b_commit {BSt}.
Arguments b_flush {BSt}.
Arguments b_begin_bulk {BSt}.
Arguments b_finish_bulk {BSt}.
Arguments b_bulk_pending {BSt}.

(** The trait's default methods: no deferral. *)
Definition default_is_complete (namespace : string) : result bool ReadError := Ok true.
Definition default_begin_bulk {BSt} (b : BSt) (policy : BulkPolicy) : result BSt unit := Ok b.
Definition default_finish_bulk {BSt} (b : BSt) : result BSt unit := Ok b.
Definition default_bulk_pending {BSt} (b : BSt) : result bool ReadError := Ok false.

(** ** [InMemoryBackend]

    Readers and writers share the map; a reader here is one of the state it was
    opened in, no client keeping one across a commit. *)
Notation Data := (gmap string (gmap RawKey RawValue)).

Section InMemory.
Context `{HashIter}.

Definition new : Data := ∅.

Definition entries (d : Data) (namespace : string) : gmap RawKey RawValue :=
  default ∅ (d !! namespace).
Definition get_value (d : Data) (namespace : string) (key : RawKey) : option RawValue :=
  let! m := d !! namespace in m !! key.

Definition entry_le (a b : RawKey * RawValue) : Prop := bytes_le a.1 b.1.
Global Instance entry_le_dec : RelDecision entry_le.
Proof. intros a b. unfold entry_le. apply _. Defined.

Definition mem_get (d : Data) (namespace : string) (key : RawKey) : result (option RawValue) ReadError :=
  Ok (let! m := d !! namespace in m !! key).
Definition mem_scan (d : Data) (namespace : string) : result (list (RawKey * RawValue)) ReadError :=
  let es := match d !! namespace with Some m => hiter m | None => [] end in
  Ok (merge_sort entry_le es).

Fixpoint visit_all {V} (visit : RangeVisitor V) (es : list (RawKey * RawValue)) (v : V) : V :=
  match es with
  | [] => v
  | (key, value) :: es =>
      match visit v key value with
      | (v, Break) => v
      | (v, Continue) => visit_all visit es v
      end
  end.
Definition in_range (start end_exclusive : RawKey) (e : RawKey * RawValue) : bool :=
  negb (bytes_ltb e.1 start) && bytes_ltb e.1 end_exclusive.
Definition mem_scan_range (d : Data) {V} (namespace : string) (start end_exclusive : RawKey)
    (visit : RangeVisitor V) (v : V) : result V ReadError :=
  match d !! namespace with
  | None => Ok v
  | Some m =>
      let selected := filter (fun e => in_range start end_exclusive e = true) (hiter m) in
      Ok (visit_all visit (merge_sort entry_le selected) v)
  end.

(** [Iterator::min] *)
Definition min_key (ks : list RawKey) : option RawKey :=
  match ks with
  | [] => None
  | k :: ks => Some (fold_left (fun m k => if bytes_ltb k m then k else m) ks k)
  end.
Definition mem_first_key (d : Data) (namespace : string) : result (option RawKey) ReadError :=
  Ok (let! m := d !! namespace in min_key (keys m)).

Definition mem_reader (d : Data) : BackendReader :=
  mkReader (mem_get d) (mem_scan d) (fun V => mem_scan_range d) (mem_first_key d) default_is_complete.

Definition mem_op (d : Data) (op : WriteOp) : Data :=
  match op with
  | Put ns key value => <[ns := <[key := value]> (default ∅ (d !! ns))]> d
  | Delete ns key =>
      match d !! ns with
      | Some m => <[ns := delete key m]> d
      | None => d
      end
  end.
Definition mem_commit (d : Data) (ops : list WriteOp) : result Data unit := Ok (fold_left mem_op ops d).

Definition in_memory : Backend Data :=
  mkBackend (fun d => Ok (mem_reader d)) (fun d => Ok tt) mem_commit (fun d => Ok d)
    default_begin_bulk default_finish_bulk default_bulk_pending.

(** [SlowBackend]: the inner backend, slower. *)
Definition slow {BSt} (inner : Backend BSt) : Backend BSt :=
  mkBackend (b_reader inner) (b_writer inner) (b_commit inner) (b_flush inner)
    (b_begin_bulk inner) (b_finish_bulk inner) default_bulk_pending.
End InMemory.

(** ** What a backend promises *)

(** The abstract state: a finite map. *)
Notation store := (gmap (string * RawKey) RawValue).

Definition store_op (st : store) (op : WriteOp) : store :=
  match op with
  | Put ns key value => <[(ns, key) := value]> st
  | Delete ns key => delete (ns, key) st
  end.
Definition store_ops (st : store) (ops : list WriteOp) : store := fold_left store_op ops st.

(** The entries of one namespace, in ascending key order. *)
Definition namespace_entries (st : store) (ns : string) (l : list (RawKey * RawValue)) : Prop :=
  StronglySorted (fun a b => bytes_compare a.1 b.1 = Lt) l /\
  forall k v, (k, v) ∈ l <-> st !! (ns, k) = Some v.

Record reader_ok (r : BackendReader) (st : store) : Prop := {
  ro_get ns k : r_get r ns k = Ok (st !! (ns, k));
  ro_scan ns : exists l, r_scan r ns = Ok l /\ namespace_entries st ns l;
  ro_range ns lo hi : exists l, namespace_entries st ns l /\
    forall V (visit : RangeVisitor V) v,
      r_scan_range r ns lo hi visit v =
      Ok (visit_all visit (filter (fun e => in_range lo hi e = true) l) v);
  ro_first ns : exists l, namespace_entries st ns l /\ r_first_key r ns = Ok (head l.*1) }.

(** A backend over the abstract state: reads see it, commits apply all their
    operations in order or fail, a flush changes nothing. *)
Class BackendSpec {BSt} (B : Backend BSt) (abs : BSt -> store) : Prop := {
  spec_reader b r : b_reader B b = Ok r -> reader_ok r (abs b);
  spec_commit b ops b' : b_commit B b ops = Ok b' -> abs b' = store_ops (abs b) ops;
  spec_flush b b' : b_flush B b = Ok b' -> abs b' = abs b }.

(** A sequence of commits. *)
Section Commits.
Context {BSt : Type} (B : Backend BSt).

Fixpoint commits (b : BSt) (l : list (list WriteOp)) : option BSt :=
  match l with
  | [] => Some b
  | ops :: l => match b_commit B b ops with Ok b => commits b l | Err _ => None end
  end.

Lemma commits_app b l1 l2 b1 :
  commits b l1 = Some b1 -> commits b (l1 ++ l2) = commits b1 l2.
Proof.
  revert b. induction l1 as [|ops l1 IH]; intros b; cbn; [by intros [= ->]|].
  destruct (b_commit B b ops); [apply IH|done].
Qed.

Lemma commits_abs abs `{!BackendSpec B abs} b l b' :
  commits b l = Some b' -> abs b' = fold_left store_ops l (abs b).
Proof.
  revert b. induction l as [|ops l IH]; intros b; cbn; [by intros [= ->]|].
  destruct (b_commit B b ops) as [b1|] eqn:Hb; [|done]. intros Hc.
  by rewrite (IH _ Hc), (spec_commit _ _ _ Hb).
Qed.
End Commits.

Lemma store_ops_app st l1 l2 : store_ops st (l1 ++ l2) = store_ops (store_ops st l1) l2.
Proof. apply fold_left_app. Qed.

(** *** The in-memory backend keeps the promise *)
Section InMemorySpec.
Context `{HashIter}.

Definition data_abs (d : Data) : store :=
  map_uncurry (M1 := gmap string) (M2 := gmap RawKey) (M12 := gmap (string * RawKey)) d.

Lemma data_abs_lookup d ns k : data_abs d !! (ns, k) = (let! m := d !! ns in m !! k).
Proof.
  unfold data_abs. rewrite lookup_map_uncurry. by destruct (d !! ns).
Qed.

Lemma mem_commits d log : commits in_memory d log = Some (fold_left mem_op (mjoin log) d).
Proof.
  revert d. induction log as [|ops log IH]; intros d; [done|]. cbn [commits in_memory b_commit mem_commit].
  rewrite IH. change (mjoin (ops :: log)) with (ops ++ mjoin log). by rewrite fold_left_app.
Qed.
Lemma mem_op_abs d op : data_abs (mem_op d op) = store_op (data_abs d) op.
Proof.
  apply map_eq. intros [ns k]. rewrite data_abs_lookup. destruct op as [n key value|n key]; cbn [mem_op store_op].
  - destruct (decide (n = ns)) as [<-|Hn].
    + rewrite lookup_insert_eq. destruct (decide (key = k)) as [<-|Hk]; [by rewrite !lookup_insert_eq|].
      rewrite !lookup_insert_ne, data_abs_lookup by congruence.
      destruct (d !! n); [done|apply lookup_empty].
    + by rewrite !lookup_insert_ne, data_abs_lookup by congruence.
  - destruct (decide (n = ns)) as [<-|Hn].
    + destruct (decide (key = k)) as [<-|Hk].
      * rewrite lookup_delete_eq. destruct (d !! n) eqn:Hd; [by rewrite lookup_insert_eq, lookup_delete_eq|].
        by rewrite Hd.
      * rewrite lookup_delete_ne, data_abs_lookup by congruence. destruct (d !! n) eqn:Hd;
          [by rewrite lookup_insert_eq, lookup_delete_ne|by rewrite Hd].
    + rewrite lookup_delete_ne, data_abs_lookup by congruence.
      destruct (d !! n); [by rewrite lookup_insert_ne|done].
Qed.

Global Instance entry_le_total : Total entry_le.
Proof. intros a b. apply bytes_le_total. Qed.
Global Instance entry_le_trans : Transitive entry_le.
Proof. intros a b c. apply bytes_le_trans. Qed.

(** Sorting distinct keys sorts them strictly. *)
Lemma sorted_strict (l : list (RawKey * RawValue)) :
  StronglySorted entry_le l -> NoDup l.*1 -> StronglySorted (fun a b => bytes_compare a.1 b.1 = Lt) l.
Proof.
  induction 1 as [|e l Hs IH Hf]; cbn; [by constructor|]. intros [Hn Hd]%NoDup_cons.
  constructor; [by apply IH|]. rewrite Forall_forall in Hf |- *. intros x Hx.
  destruct (proj1 (bytes_le_lt e.1 x.1) (Hf x Hx)) as [Heq|]; [|done].
  destruct Hn. rewrite Heq. by apply list_elem_of_fmap_2.
Qed.

Lemma sorted_entries d ns l :
  l ≡ₚ match d !! ns with Some m => hiter m | None => [] end ->
  StronglySorted entry_le l -> namespace_entries (data_abs d) ns l.
Proof.
  intros Hp Hs. split.
  - apply sorted_strict; [done|]. rewrite Hp. destruct (d !! ns); [apply NoDup_keys|constructor].
  - intros k v. rewrite Hp, data_abs_lookup. destruct (d !! ns); [apply elem_of_hiter|].
    by rewrite elem_of_nil.
Qed.

Lemma filter_sorted (P : RawKey * RawValue -> Prop) `{forall x, Decision (P x)} l :
  filter P (merge_sort entry_le l) ≡ₚ merge_sort entry_le (filter P l) /\
  StronglySorted entry_le (filter P (merge_sort entry_le l)).
Proof.
  split; [by rewrite !merge_sort_Permutation|].
  pose proof (StronglySorted_merge_sort entry_le l) as Hs.
  induction Hs as [|x l' Hs IH Hf]; [constructor|]. rewrite filter_cons. case_decide; [|done].
  constructor; [done|]. rewrite Forall_forall in Hf |- *. intros y [_ Hy]%list_elem_of_filter. by apply Hf.
Qed.

Lemma merge_sorted l1 l2 :
  l1 ≡ₚ l2 -> NoDup l1.*1 -> StronglySorted entry_le l1 -> StronglySorted entry_le l2 -> l1 = l2.
Proof.
  intros Hp Hnd Hs1 Hs2. apply (StronglySorted_unique_strong entry_le); try done.
  intros [k1 v1] [k2 v2] H1 H2 Hle Hge. assert (k1 = k2) as -> by by apply (anti_symm bytes_le).
  f_equal. apply list_elem_of_lookup in H1 as [i Hi]. rewrite <- Hp in H2. apply list_elem_of_lookup in H2 as [j Hj].
  assert (i = j) as ->; [|congruence]. eapply NoDup_lookup; [exact Hnd| |]; by rewrite list_lookup_fmap, ?Hi, ?Hj.
Qed.

(** The least of a non-empty list is the head of its sorted form. *)
Lemma min_key_least k ks :
  let m := fold_left (fun m k => if bytes_ltb k m then k else m) ks k in
  m ∈ k :: ks /\ forall x, x ∈ k :: ks -> bytes_le m x.
Proof.
  revert k. induction ks as [|y ks IH]; intros k; cbn zeta; cbn [fold_left].
  { split; [left|]. intros x [->|[]%elem_of_nil]%elem_of_cons. reflexivity. }
  set (m0 := if bytes_ltb y k then y else k).
  assert (Hm0 : (m0 = k \/ m0 = y) /\ bytes_le m0 k /\ bytes_le m0 y).
  { unfold m0, bytes_ltb. rewrite !bytes_le_lt. destruct (bytes_compare y k) eqn:Hc.
    - apply bytes_compare_eq in Hc as ->. auto.
    - auto.
    - rewrite (bytes_compare_antisym y k), Hc. auto. }
  destruct Hm0 as (Hm & Hk & Hy), (IH m0) as [Hin Hle]. cbn zeta in Hin, Hle.
  rewrite !elem_of_cons in *. split; [destruct Hin as [->|?]; naive_solver|].
  intros x Hx. rewrite !elem_of_cons in Hx. destruct Hx as [->|[->|Hx]].
  - transitivity m0; [apply Hle; left|done].
  - transitivity m0; [apply Hle; left|done].
  - apply Hle. by right.
Qed.

Lemma NoDup_fst_filter (P : RawKey * RawValue -> Prop) `{forall x, Decision (P x)} l :
  NoDup l.*1 -> NoDup (filter P l).*1.
Proof.
  induction l as [|e l IH]; [done|]. intros [Hn Hd]%NoDup_cons. rewrite filter_cons. case_decide; [|auto].
  cbn. apply NoDup_cons. split; [|auto]. intros (x & Hx & [_ Hin]%list_elem_of_filter)%list_elem_of_fmap.
  apply Hn. rewrite Hx. by apply list_elem_of_fmap_2.
Qed.

Lemma mem_reader_ok d : reader_ok (mem_reader d) (data_abs d).
Proof.
  assert (Hscan : forall ns, namespace_entries (data_abs d) ns
    (merge_sort entry_le (match d !! ns with Some m => hiter m | None => [] end))).
  { intros ns. apply sorted_entries; [apply merge_sort_Permutation|apply (StronglySorted_merge_sort entry_le _)]. }
  split.
  - intros ns k. cbn. unfold mem_get. by rewrite data_abs_lookup.
  - intros ns. eexists. split; [done|apply Hscan].
  - intros ns lo hi. eexists. split; [apply Hscan|]. intros V visit v. cbn. unfold mem_scan_range.
    destruct (d !! ns) as [m|]; [|done]. do 2 f_equal.
    destruct (filter_sorted (fun e => in_range lo hi e = true) (hiter m)) as [Hp Hs].
    apply merge_sorted; [by symmetry| |apply (StronglySorted_merge_sort entry_le _)|done].
    rewrite merge_sort_Permutation. apply NoDup_fst_filter, (NoDup_keys m).
  - intros ns. eexists. split; [apply Hscan|]. cbn. unfold mem_first_key.
    destruct (d !! ns) as [m|] eqn:Hd; [|done]. f_equal. specialize (Hscan ns). rewrite Hd in Hscan.
    set (l := merge_sort entry_le (hiter m)) in *. assert (Hp : l ≡ₚ hiter m) by apply merge_sort_Permutation.
    assert (Hk : l.*1 ≡ₚ keys m) by by rewrite Hp. destruct Hscan as [Hs _].
    destruct l as [|e l]; [by apply Permutation_nil_l in Hk; rewrite <- Hk|].
    destruct (keys m) as [|k ks]; [by apply Permutation_nil_r in Hk|]. cbn. f_equal.
    destruct (min_key_least k ks) as [Hin Hle]. apply (anti_symm bytes_le).
    + apply Hle. rewrite <- Hk. left.
    + rewrite <- Hk in Hin. apply elem_of_cons in Hin as [->|Hin]; [reflexivity|].
      apply StronglySorted_inv in Hs as [_ Hf]. apply list_elem_of_fmap in Hin as (e' & -> & He').
      rewrite Forall_forall in Hf. apply bytes_le_lt. right. by apply Hf.
Qed.

Global Instance in_memory_spec : BackendSpec in_memory data_abs.
Proof.
  split; cbn.
  - intros b r [= <-]. apply mem_reader_ok.
  - intros b ops b' [= <-]. unfold store_ops. revert b. induction ops as [|op ops IH]; intros b; [done|].
    cbn. by rewrite IH, mem_op_abs.
  - by intros b b' [= <-].
Qed.

(** The in-memory backend is the finite map it promises: it starts empty,
    never fails, and on every state and input its point reads, ordered scans,
    half-open range scans with early exit and first keys are those of the map its
    commits built, operation by operation, the last write of a key winning. *)
Theorem in_memory_refines :
  data_abs new = ∅ /\ BackendSpec in_memory data_abs /\
  forall d ops, exists r d', b_reader in_memory d = Ok r /\ b_writer in_memory d = Ok tt /\
    b_commit in_memory d ops = Ok d' /\ b_flush in_memory d = Ok d /\ reader_ok r (data_abs d) /\
    data_abs d' = store_ops (data_abs d) ops.
Proof.
  split; [done|]. split; [apply in_memory_spec|]. intros d ops. eexists _, _. split_and!; try done.
  - apply mem_reader_ok.
  - exact (spec_commit (BackendSpec := in_memory_spec) d ops _ eq_refl).
Qed.

Global Instance slow_spec {BSt} (B : Backend BSt) abs : BackendSpec B abs -> BackendSpec (slow B) abs.
Proof. by intros []. Qed.
End InMemorySpec.
End Kv.
