(* ===== verification/Codec.v ===== *)
(** * The domain persistence port
    ([packages/zaino-persistence-codec/src/{layout,keys,lib,watermark}.rs],
    [packages/zaino-persistence-macros/src/lib.rs])

    Records are laid out field by field from a few atoms; an index's codec names
    the records of its keys and values; a fingerprint of the format guards every
    read; the watermark is one more entry. *)

From S2P Require Import Prelude Primitives Types Persistence.
From stdpp Require Import base gmap list strings sets relations sorting.
From Stdlib Require Import Lia.
Open Scope Z_scope.

(** ** Layout atoms *)
Module Layout.

(** [DecodeError::Invalid], a constructor for each message. *)
Inductive DecodeError :=
| LengthOverflow
| UnexpectedEnd (need at_ have : Z)
| TrailingBytes (consumed total : Z)
| BadWidth (expected got : Z)
| Invalid.

Definition blen (l : list Z) : Z := Z.of_nat (length l).

(** [Cursor]: the bytes and a position. *)
Record Cursor := mkCursor { c_bytes : list Z; c_pos : Z }.
Definition cursor (bytes : list Z) : Cursor := mkCursor bytes 0.

Definition Dec (A : Type) : Type := Cursor -> result (A * Cursor) DecodeError.
Definition dret {A} (a : A) : Dec A := fun c => Ok (a, c).
Definition dbind {A B} (m : Dec A) (k : A -> Dec B) : Dec B := fun c =>
  let? (a, c) := m c in k a c.
Local Notation "'let*' x ':=' m 'in' k" := (dbind m (fun x => k))
  (at level 10, x pattern, m at level 200, k at level 200).

Definition cursor_take (n : Z) : Dec (list Z) := fun c =>
  match checked_add 64 (c_pos c) n with
  | None => Err LengthOverflow
  | Some end_ =>
      if blen (c_bytes c) <? end_ then Err (UnexpectedEnd n (c_pos c) (blen (c_bytes c)))
      else Ok (take (Z.to_nat n) (drop (Z.to_nat (c_pos c)) (c_bytes c)),
               mkCursor (c_bytes c) end_)
  end.
Definition array (n : Z) : Dec (list Z) := cursor_take n.
Definition bytes32 : Dec (list Z) := array 32.
Definition get_le (n : nat) : Dec Z := let* b := array (Z.of_nat n) in dret (from_le_bytes b).
Definition get_be (n : nat) : Dec Z := let* b := array (Z.of_nat n) in dret (from_be_bytes b).
Definition get_u32 : Dec Z := get_le 4.
Definition get_u64 : Dec Z := get_le 8.
Definition get_count : Dec Z := get_u32.
Definition get_len_prefixed : Dec (list Z) := let* n := get_count in cursor_take n.
Definition finish (c : Cursor) : result unit DecodeError :=
  if c_pos c =? blen (c_bytes c) then Ok tt
  else Err (TrailingBytes (c_pos c) (blen (c_bytes c))).

(** [Writer]: what each call appends; [None] is the panic on a length that does
    not fit a [u32]. *)
Definition put_u32 (value : Z) : list Z := to_le_bytes 4 value.
Definition put_u64 (value : Z) : list Z := to_le_bytes 8 value.
Definition put_count (count : Z) : option (list Z) := let! n := try_narrow 32 count in Some (put_u32 n).
Definition put_len_prefixed (bytes : list Z) : option (list Z) :=
  let! n := put_count (blen bytes) in Some (n ++ bytes).

(** [LayoutAtom]: the kinds of field, and a field's value. *)
Inductive Atom := AU8 | AU32 | AU64 | AArray (n : nat) | AVec | ABeU32 | ABeU64.
Inductive AtomVal := VInt (z : Z) | VBytes (l : list Z).

Definition atom_encode (a : Atom) (v : AtomVal) : option (list Z) :=
  match a, v with
  | AU8, VInt z => Some [z]
  | AU32, VInt z => Some (put_u32 z)
  | AU64, VInt z => Some (put_u64 z)
  | AArray _, VBytes l => Some l
  | AVec, VBytes l => put_len_prefixed l
  | ABeU32, VInt z => Some (to_be_bytes 4 z)
  | ABeU64, VInt z => Some (to_be_bytes 8 z)
  | _, _ => None
  end.
Definition atom_decode (a : Atom) : Dec AtomVal :=
  match a with
  | AU8 => let* b := array 1 in dret (VInt (default 0 (head b)))
  | AU32 => let* z := get_u32 in dret (VInt z)
  | AU64 => let* z := get_u64 in dret (VInt z)
  | AArray n => let* b := array (Z.of_nat n) in dret (VBytes b)
  | AVec => let* b := get_len_prefixed in dret (VBytes b)
  | ABeU32 => let* z := get_be 4 in dret (VInt z)
  | ABeU64 => let* z := get_be 8 in dret (VInt z)
  end.

(** [#[derive(PersistentRecord)]]: one atom per field, in declaration order. *)
Fixpoint fields_encode (fs : list Atom) (vs : list AtomVal) : option (list Z) :=
  match fs, vs with
  | [], [] => Some []
  | f :: fs, v :: vs =>
      let! b := atom_encode f v in
      let! bs := fields_encode fs vs in
      Some (b ++ bs)
  | _, _ => None
  end.
Fixpoint fields_decode (fs : list Atom) : Dec (list AtomVal) :=
  match fs with
  | [] => dret []
  | f :: fs =>
      let* v := atom_decode f in
      let* vs := fields_decode fs in
      dret (v :: vs)
  end.
Definition record_encode (fs : list Atom) (vs : list AtomVal) : option (list Z) := fields_encode fs vs.
Definition record_decode (fs : list Atom) (bytes : list Z) : result (list AtomVal) DecodeError :=
  let? (vs, c) := fields_decode fs (cursor bytes) in
  let? _ := finish c in
  Ok vs.

(** *** Round trips *)
Local Arguments to_le_bytes : simpl never.
Local Arguments from_le_bytes : simpl never.

Definition atom_ok (a : Atom) (v : AtomVal) : Prop :=
  match a, v with
  | AU8, VInt z => uint 8 z
  | AU32, VInt z | ABeU32, VInt z => uint 32 z
  | AU64, VInt z | ABeU64, VInt z => uint 64 z
  | AArray n, VBytes l => length l = n /\ Forall byte_ok l
  | AVec, VBytes l => uint 32 (blen l) /\ Forall byte_ok l
  | _, _ => False
  end.

(** The encoding [e] is read as [v], wherever it stands. *)
Definition reads {A} (m : Dec A) (e : list Z) (v : A) : Prop :=
  forall pre post, blen (pre ++ e ++ post) < 2 ^ 64 ->
    m (mkCursor (pre ++ e ++ post) (blen pre)) = Ok (v, mkCursor (pre ++ e ++ post) (blen (pre ++ e))).

(** Whatever is read as [v] is its encoding. *)
Definition inverts {A} (m : Dec A) (enc : A -> option (list Z)) (ok : A -> Prop) : Prop :=
  forall bs pre rest v c, bs = pre ++ rest -> Forall byte_ok bs ->
    m (mkCursor bs (blen pre)) = Ok (v, c) ->
    exists e post, enc v = Some e /\ ok v /\ rest = e ++ post /\ c = mkCursor bs (blen (pre ++ e)).

Lemma blen_app l1 l2 : blen (l1 ++ l2) = blen l1 + blen l2.
Proof. unfold blen. rewrite length_app. lia. Qed.
Lemma blen_nonneg l : 0 <= blen l.
Proof. unfold blen. lia. Qed.

Lemma reads_ret {A} (v : A) : reads (dret v) [] v.
Proof. intros pre post _. by rewrite app_nil_r. Qed.
Lemma reads_bind {A B} (m : Dec A) (k : A -> Dec B) e1 e2 a b :
  reads m e1 a -> reads (k a) e2 b -> reads (dbind m k) (e1 ++ e2) b.
Proof.
  intros H1 H2 pre post Hlen. unfold dbind. rewrite <- !app_assoc in *. rewrite (H1 pre (e2 ++ post)) by done.
  rewrite (app_assoc pre e1) in Hlen |- *. rewrite (H2 (pre ++ e1) post) by done. by rewrite <- !app_assoc.
Qed.
Lemma reads_map {A B} (m : Dec A) (f : A -> B) e a :
  reads m e a -> reads (dbind m (fun x => dret (f x))) e (f a).
Proof.
  intros Hm. rewrite <- (app_nil_r e). eapply reads_bind; [done|apply reads_ret].
Qed.

Lemma reads_take e n : blen e = n -> reads (cursor_take n) e e.
Proof.
  intros <- pre post Hlen. unfold cursor_take, checked_add. cbn [c_pos c_bytes].
  rewrite !blen_app in *. pose proof (blen_nonneg post).
  destruct (Z.ltb_spec (blen pre + blen e) (2 ^ 64)) as [_|?]; [|lia].
  destruct (Z.ltb_spec (blen pre + (blen e + blen post)) (blen pre + blen e)) as [?|_]; [lia|].
  unfold blen. rewrite !Nat2Z.id, drop_app_length. by rewrite take_app_length.
Qed.

Lemma inverts_take n :
  0 <= n -> inverts (cursor_take n) Some (fun b => blen b = n /\ Forall byte_ok b).
Proof.
  intros Hn bs pre rest v c -> Hok. unfold cursor_take, checked_add. cbn [c_pos c_bytes].
  destruct (_ <? 2 ^ 64); [|done]. rewrite blen_app.
  destruct (Z.ltb_spec (blen pre + blen rest) (blen pre + n)) as [?|Hle]; [done|].
  assert (drop (Z.to_nat (blen pre)) (pre ++ rest) = rest) as ->
    by (unfold blen; by rewrite Nat2Z.id, drop_app_length).
  intros [= <- <-]. apply Forall_app in Hok as [_ Hok].
  exists (take (Z.to_nat n) rest), (drop (Z.to_nat n) rest). rewrite take_drop.
  assert (blen (take (Z.to_nat n) rest) = n) as Hl by (unfold blen in *; rewrite length_take; lia).
  split_and!; try done; [by apply Forall_take|]. by rewrite blen_app, Hl.
Qed.

Lemma inverts_map {A B} (m : Dec A) (f : A -> B) enc enc' (ok : A -> Prop) (ok' : B -> Prop) :
  inverts m enc ok -> (forall a e, ok a -> enc a = Some e -> enc' (f a) = Some e /\ ok' (f a)) ->
  inverts (dbind m (fun x => dret (f x))) enc' ok'.
Proof.
  intros Hm Hf bs pre rest v c Hbs Hok. unfold dbind, dret.
  destruct (m _) as [[a c']|] eqn:Hr; [|done]. intros [= <- <-].
  destruct (Hm _ _ _ _ _ Hbs Hok Hr) as (e & post & He & Ha & Hrest & Hc).
  destruct (Hf a e Ha He). by exists e, post.
Qed.

Lemma blen_le n z : blen (to_le_bytes n z) = Z.of_nat n.
Proof. unfold blen. by rewrite length_to_le_bytes. Qed.
Lemma blen_be n z : blen (to_be_bytes n z) = Z.of_nat n.
Proof. unfold blen. by rewrite length_to_be_bytes. Qed.

Lemma reads_le n z :
  0 <= z < 2 ^ (8 * Z.of_nat n) ->
  reads (get_le n) (to_le_bytes n z) z.
Proof.
  intros Hz. rewrite <- (from_to_le_bytes n z Hz) at 2.
  apply (reads_map _ from_le_bytes). apply reads_take, blen_le.
Qed.
Lemma reads_be n z :
  0 <= z < 2 ^ (8 * Z.of_nat n) ->
  reads (get_be n) (to_be_bytes n z) z.
Proof.
  intros Hz. rewrite <- (from_to_be_bytes n z Hz) at 2.
  apply (reads_map _ from_be_bytes). apply reads_take, blen_be.
Qed.
Lemma inverts_le n :
  inverts (get_le n) (fun z => Some (to_le_bytes n z))
    (fun z => 0 <= z < 2 ^ (8 * Z.of_nat n)).
Proof.
  eapply inverts_map; [apply inverts_take; lia|]. intros b e [Hl Hb] [= <-]. cbn beta in *.
  assert (length b = n) as Hn by (unfold blen in Hl; lia). split.
  - f_equal. rewrite <- Hn. by apply to_from_le_bytes.
  - rewrite <- Hn. by apply from_le_bytes_bound.
Qed.
Lemma inverts_be n :
  inverts (get_be n) (fun z => Some (to_be_bytes n z))
    (fun z => 0 <= z < 2 ^ (8 * Z.of_nat n)).
Proof.
  eapply inverts_map; [apply inverts_take; lia|]. intros b e [Hl Hb] [= <-]. cbn beta in *.
  assert (length b = n) as Hn by (unfold blen in Hl; lia). split.
  - f_equal. rewrite <- Hn. by apply to_from_be_bytes.
  - rewrite <- Hn. by apply from_be_bytes_bound.
Qed.

(** Every atom. *)
Lemma atom_reads a v : atom_ok a v -> exists e, atom_encode a v = Some e /\ reads (atom_decode a) e v.
Proof.
  destruct a as [| | |n| | |], v as [z|l]; cbn [atom_ok atom_encode atom_decode]; try done; intros Hv.
  - exists [z]. split; [done|]. apply (reads_map _ (fun b => VInt (default 0 (head b))) [z] [z]).
    by apply reads_take.
  - eexists. split; [done|]. apply reads_map, (reads_le 4), Hv.
  - eexists. split; [done|]. apply reads_map, (reads_le 8), Hv.
  - eexists. split; [done|]. apply reads_map, reads_take. unfold blen. by destruct Hv as [-> _].
  - destruct Hv as [Hl _]. unfold put_len_prefixed, put_count, try_narrow.
    destruct (Z.ltb_spec (blen l) (2 ^ 32)) as [_|?]; [|unfold uint in Hl; lia].
    eexists. split; [done|]. apply reads_map. eapply reads_bind; [apply (reads_le 4), Hl|by apply reads_take].
  - eexists. split; [done|]. apply reads_map, (reads_be 4), Hv.
  - eexists. split; [done|]. apply reads_map, (reads_be 8), Hv.
Qed.

Lemma inverts_len_prefixed :
  inverts get_len_prefixed put_len_prefixed (fun l => uint 32 (blen l) /\ Forall byte_ok l).
Proof.
  intros bs pre rest v c Hbs Hok. unfold get_len_prefixed, dbind, get_count, get_u32.
  destruct (get_le 4 _) as [[n c']|] eqn:Hn; [|done]. intros Ht.
  destruct (inverts_le 4 _ _ _ _ _ Hbs Hok Hn) as (e & post & [= <-] & Hb & -> & ->).
  rewrite app_assoc in Hbs. assert (Hn0 : 0 <= n) by apply Hb.
  destruct (inverts_take n Hn0 _ _ _ _ _ Hbs Hok Ht) as (e & post' & [= <-] & [Hl Hv] & -> & ->).
  exists (put_u32 n ++ v), post'. unfold put_len_prefixed, put_count, try_narrow. rewrite Hl.
  destruct (Z.ltb_spec n (2 ^ 32)) as [_|?]; [|cbn in Hb; lia].
  split_and!; try done; by rewrite <- app_assoc.
Qed.

Lemma atom_inverts a : inverts (atom_decode a) (atom_encode a) (atom_ok a).
Proof.
  destruct a as [| | |n| | |]; cbn [atom_decode].
  - eapply inverts_map; [apply inverts_take; lia|]. intros b e [Hl Hb] [= <-].
    destruct b as [|z [|y b]]; unfold blen in Hl; cbn in Hl; try lia. split; [done|].
    by apply Forall_cons in Hb as [Hz _].
  - eapply inverts_map; [apply (inverts_le 4)|]. intros z e Hz [= <-]. by split.
  - eapply inverts_map; [apply (inverts_le 8)|]. intros z e Hz [= <-]. by split.
  - eapply inverts_map; [apply inverts_take; lia|]. intros b e [Hl Hb] [= <-]. split; [done|].
    split; [unfold blen in Hl; lia|done].
  - eapply inverts_map; [apply inverts_len_prefixed|]. intros l e Hl He. by split.
  - eapply inverts_map; [apply (inverts_be 4)|]. intros z e Hz [= <-]. by split.
  - eapply inverts_map; [apply (inverts_be 8)|]. intros z e Hz [= <-]. by split.
Qed.

Lemma fields_reads fs vs :
  Forall2 atom_ok fs vs -> exists e, fields_encode fs vs = Some e /\ reads (fields_decode fs) e vs.
Proof.
  induction 1 as [|f v fs vs Hv _ (es & IHe & IHr)]; cbn; [eexists; split; [done|apply reads_ret]|].
  destruct (atom_reads f v Hv) as (e & -> & Hr). rewrite IHe. eexists. split; [done|].
  eapply reads_bind; [exact Hr|]. by apply (reads_map _ (cons v)).
Qed.

Lemma fields_inverts fs : inverts (fields_decode fs) (fields_encode fs) (Forall2 atom_ok fs).
Proof.
  induction fs as [|f fs IH]; cbn [fields_decode].
  - intros bs pre rest v c -> _ [= <- <-]. exists [], rest. rewrite app_nil_r. by split_and!.
  - intros bs pre rest vs c Hbs Hok. unfold dbind.
    destruct (atom_decode f _) as [[v c1]|] eqn:Hv; [|done].
    destruct (fields_decode fs c1) as [[vs1 c2]|] eqn:Hvs; [|done]. intros [= <- <-].
    destruct (atom_inverts f _ _ _ _ _ Hbs Hok Hv) as (e & post & He & Hve & -> & ->).
    rewrite app_assoc in Hbs.
    destruct (IH _ _ _ _ _ Hbs Hok Hvs) as (es & post' & Hes & Hvse & -> & ->).
    exists (e ++ es), post'. cbn. rewrite He, Hes. rewrite <- !app_assoc. split_and!; try done. by constructor.
Qed.

(** A record layout is an exact bijection between well-typed field
    values and the byte strings it accepts: decoding succeeds with given values
    precisely on their encoding, so no value has two encodings, nothing trailing
    or short is accepted, and every well-typed record encodes (all its byte runs
    fit their 32-bit lengths). *)
Theorem record_layout_exact fs vs bytes :
  Forall byte_ok bytes -> blen bytes < 2 ^ 64 ->
  (record_decode fs bytes = Ok vs <-> record_encode fs vs = Some bytes /\ Forall2 atom_ok fs vs).
Proof.
  intros Hok Hlen. unfold record_decode, record_encode, cursor. split.
  - destruct (fields_decode fs _) as [[vs' c]|] eqn:Hd; [|done].
    destruct (fields_inverts fs bytes [] bytes vs' c eq_refl Hok Hd) as (e & post & He & Hv & -> & ->).
    unfold finish. cbn [c_pos c_bytes]. rewrite app_nil_l, blen_app.
    destruct (Z.eqb_spec (blen e) (blen e + blen post)) as [Heq|]; [|done]. intros [= <-].
    assert (post = []) as -> by (apply length_zero_iff_nil; unfold blen in Heq; lia).
    by rewrite app_nil_r.
  - intros [He Hv]. destruct (fields_reads fs vs Hv) as (e & He' & Hr). rewrite He in He'. injection He' as <-.
    specialize (Hr [] []). rewrite app_nil_r in Hr. cbn [app] in Hr. change (blen []) with 0 in Hr. rewrite Hr by done.
    unfold finish. cbn [c_pos c_bytes]. by rewrite Z.eqb_refl.
Qed.

(** An outpoint and a script. *)
Lemma record_layout_exact_witness :
  record_decode [AArray 2; ABeU32; AVec] [7; 8; 0; 0; 1; 2; 3; 0; 0; 0; 9; 9; 9] =
    Ok [VBytes [7; 8]; VInt 258; VBytes [9; 9; 9]].
Proof.
  apply record_layout_exact; [repeat constructor; discriminate|reflexivity|]. split; [reflexivity|].
  repeat constructor; discriminate.
Defined.
End Layout.

(** ** Typed entries *)
Module Codec.
Import Bytes Kv Layout.

(** [PersistentRecord]: the on-disk record between a domain type and its bytes. *)
Record PersistentRecord (D : Type) := mkRecord {
  Rec : Type;
  from_domain : D -> Rec;
  into_domain : Rec -> result D DecodeError;
  (** whether [encode] returns: a count or a length over [u32] is a panic *)
  rec_fits : Rec -> bool;
  rec_encode : Rec -> list Z;
  rec_decode : list Z -> result Rec DecodeError }.
Arguments from_domain {D}.
Arguments into_domain {D}.
Arguments rec_fits {D}.
Arguments rec_encode {D}.
Arguments rec_decode {D}.

(** [keys.rs] *)
Definition HeightKey : PersistentRecord Z :=
  mkRecord Z Z (fun h => h) Ok (fun _ => true) (fun h => to_be_bytes 8 h)
    (fun bytes =>
       let? (raw, c) := get_be 8 (cursor bytes) in
       let? _ := finish c in
       Ok raw).
Definition HashKey : PersistentRecord (list Z) :=
  mkRecord (list Z) (list Z) (fun h => h) Ok (fun _ => true) (fun h => h)
    (fun bytes => if blen bytes =? 32 then Ok bytes else Err (BadWidth 32 (blen bytes))).

(** [EntryCodec] *)
Record EntryCodec := mkCodec {
  Key : Type;
  Value : Type;
  PersistentKey : PersistentRecord Key;
  PersistentValue : PersistentRecord Value;
  KEY_ORDER : KeyOrder;
  fingerprint_samples : list (Key * Value) }.

Section Codec.
Context (C : EntryCodec).

Definition encode_key (key : Key C) : list Z :=
  rec_encode (PersistentKey C) (from_domain (PersistentKey C) key).
Definition encode_value (value : Value C) : list Z :=
  rec_encode (PersistentValue C) (from_domain (PersistentValue C) value).
Definition entry_fits (e : Key C * Value C) : bool :=
  rec_fits (PersistentKey C) (from_domain (PersistentKey C) e.1) &&
  rec_fits (PersistentValue C) (from_domain (PersistentValue C) e.2).
Definition decode_key (bytes : list Z) : result (Key C) DecodeError :=
  let? r := rec_decode (PersistentKey C) bytes in into_domain (PersistentKey C) r.
Definition decode_value (bytes : list Z) : result (Value C) DecodeError :=
  let? r := rec_decode (PersistentValue C) bytes in into_domain (PersistentValue C) r.

(** [fnv1a] *)
Definition fnv1a (bytes : list Z) : Z :=
  fold_left (fun hash byte => wrapping 64 (Z.lxor hash byte * 0x100000001b3)) bytes 0xcbf29ce484222325.

Definition frame (blob : list Z) : list Z := to_le_bytes 8 (blen blob) ++ blob.
(** [format_version] *)
Definition format_version : Z :=
  fnv1a (mjoin ((fun e => frame (encode_key e.1) ++ frame (encode_value e.2)) <$> fingerprint_samples C)).

Inductive Freshness := Fresh | Stale.
Definition VERSION_META : string := "_format_versions".

(** [Namespace::as_str().as_bytes()] *)
Definition string_bytes (s : string) : list Z :=
  (fun a => Z.of_N (Ascii.N_of_ascii a)) <$> String.list_ascii_of_string s.

Definition version_stamp (namespace : string) : WriteOp :=
  Put VERSION_META (string_bytes namespace) (to_le_bytes 8 format_version).
Definition put (namespace : string) (e : Key C * Value C) : WriteOp :=
  Put namespace (encode_key e.1) (encode_value e.2).

Definition recorded_version (reader : BackendReader) (namespace : string)
    : result (option Z) ReadError :=
  let? raw := r_get reader VERSION_META (string_bytes namespace) in
  Ok (let! bytes := raw in if blen bytes =? 8 then Some (from_le_bytes bytes) else None).
Definition freshness (reader : BackendReader) (namespace : string) : result Freshness ReadError :=
  let? recorded := recorded_version reader namespace in
  Ok (match recorded with
      | Some v => if v =? format_version then Fresh else Stale
      | None => Stale
      end).

Inductive LoadError := LoadBackend | LoadDecode (e : DecodeError).

Fixpoint decode_entries (raw : list (RawKey * RawValue)) : result (list (Key C * Value C)) LoadError :=
  match raw with
  | [] => Ok []
  | (k, v) :: raw =>
      let? k := map_err LoadDecode (decode_key k) in
      let? v := map_err LoadDecode (decode_value v) in
      let? es := decode_entries raw in
      Ok ((k, v) :: es)
  end.
Definition load (reader : BackendReader) (namespace : string)
    : result (list (Key C * Value C)) LoadError :=
  let? raw := map_err (fun _ => LoadBackend) (r_scan reader namespace) in
  decode_entries raw.
End Codec.

(** [watermark.rs] *)
Definition WATERMARK_NAMESPACE : string := "_watermark".
Definition WATERMARK_KEY : list Z := string_bytes "finalised_tip".
Definition stamp (height : Z) : WriteOp :=
  Put WATERMARK_NAMESPACE WATERMARK_KEY (to_le_bytes 4 height).
Definition read_watermark (reader : BackendReader) : result (option Z) ReadError :=
  let? found := r_get reader WATERMARK_NAMESPACE WATERMARK_KEY in
  Ok (let! bytes := found in
      if blen bytes =? 4 then ok (Height.try_from (from_le_bytes bytes)) else None).

(** [reserved_namespaces] *)
Definition reserved_namespaces : list string := [WATERMARK_NAMESPACE; VERSION_META].

(** ** Entries survive the store *)

(** What an index's author promises of its codec: its keys and values, where the
    chain produces them, are encoded and decode to what was encoded. *)
Class CodecLaws (C : EntryCodec) (wf : Key C -> Value C -> Prop) : Prop := {
  codec_key k v : wf k v -> decode_key C (encode_key C k) = Ok k;
  codec_value k v : wf k v -> decode_value C (encode_value C v) = Ok v;
  codec_fits k v : wf k v -> entry_fits C (k, v) = true }.

(** A record whose bytes decode to what was encoded. *)
Definition record_inverts {D} (R : PersistentRecord D) (d : D) : Prop :=
  (let? r := rec_decode R (rec_encode R (from_domain R d)) in into_domain R r) = Ok d.

Lemma height_key_inverts h : uint 64 h -> record_inverts HeightKey h.
Proof.
  intros Hh. unfold record_inverts. cbn [rec_decode rec_encode from_domain HeightKey into_domain].
  pose proof (reads_be 8 h Hh [] []) as Hr. rewrite app_nil_r in Hr. change (blen []) with 0 in Hr.
  cbn [app] in Hr. unfold cursor. rewrite Hr by (rewrite blen_be; done).
  unfold finish. cbn [c_pos c_bytes]. by rewrite Z.eqb_refl.
Qed.
Lemma hash_key_inverts h : length h = 32%nat -> record_inverts HashKey h.
Proof.
  intros Hh. unfold record_inverts. cbn [rec_decode rec_encode from_domain HashKey into_domain].
  unfold blen. by rewrite Hh.
Qed.

Lemma fnv1a_bound bytes : uint 64 (fnv1a bytes).
Proof.
  unfold fnv1a. rewrite <- fold_left_rev_right.
  destruct (rev bytes) as [|b l]; cbn [fold_right]; [done|]. apply Z.mod_pos_bound. done.
Qed.

Lemma string_bytes_inj s1 s2 : string_bytes s1 = string_bytes s2 -> s1 = s2.
Proof.
  unfold string_bytes. intros Heq. rewrite <- (String.string_of_list_ascii_of_string s1),
    <- (String.string_of_list_ascii_of_string s2). f_equal. revert Heq.
  generalize (String.list_ascii_of_string s1), (String.list_ascii_of_string s2).
  induction l as [|a l IH]; intros [|a' l']; cbn; try done. intros [= Ha Hl]. f_equal; [|by apply IH].
  rewrite <- (Ascii.ascii_N_embedding a), <- (Ascii.ascii_N_embedding a'). f_equal. lia.
Qed.

Section Table.
Context (C : EntryCodec) (wf : Key C -> Value C -> Prop) `{!CodecLaws C wf}.
Context (ns : string) (Hns : ns <> VERSION_META).

Definition all_wf (es : list (Key C * Value C)) : Prop := Forall (fun e => wf e.1 e.2) es.

(** The namespace holds exactly these entries. *)
Definition table (st : store) (es : list (Key C * Value C)) : Prop :=
  all_wf es /\ NoDup es.*1 /\
  forall kb vb, st !! (ns, kb) = Some vb <->
    exists e, e ∈ es /\ kb = encode_key C e.1 /\ vb = encode_value C e.2.
Definition versioned (st : store) : Prop :=
  st !! (VERSION_META, string_bytes ns) = Some (to_le_bytes 8 (format_version C)).

Lemma encode_key_inj k v k' v' : wf k v -> wf k' v' -> encode_key C k = encode_key C k' -> k = k'.
Proof.
  intros Hk%codec_key Hk'%codec_key Heq. rewrite Heq in Hk. congruence.
Qed.

Lemma table_empty st : (forall kb, st !! (ns, kb) = None) -> table st [].
Proof.
  intros Hn. split_and!; [constructor|constructor|]. intros kb vb. rewrite Hn. split; [done|].
  by intros (e & He%elem_of_nil & _).
Qed.

(** One more entry under a new key. *)
Lemma table_put st es e :
  table st es -> wf e.1 e.2 -> e.1 ∉ es.*1 -> table (store_op st (put C ns e)) (es ++ [e]).
Proof.
  intros (Hwf & Hnd & Hes) He Hne. split_and!.
  - apply Forall_app. split; [done|]. by constructor.
  - rewrite fmap_app. apply NoDup_app. split_and!; [done| |apply NoDup_singleton].
    intros k Hk ->%list_elem_of_singleton. done.
  - intros kb vb. cbn [store_op put]. destruct (decide (kb = encode_key C e.1)) as [->|Hkb].
    + rewrite lookup_insert_eq. split.
      * intros [= <-]. exists e. split; [|done]. apply elem_of_app. right. by apply list_elem_of_singleton.
      * intros (e' & [Hin| ->%list_elem_of_singleton]%elem_of_app & Hk & ->); [|done].
        destruct Hne. unfold all_wf in Hwf. rewrite Forall_forall in Hwf.
        rewrite (encode_key_inj _ _ _ _ He (Hwf e' Hin) Hk). by apply list_elem_of_fmap_2.
    + rewrite lookup_insert_ne by congruence. rewrite Hes. split.
      * intros (e' & Hin & ?). exists e'. split; [apply elem_of_app; by left|done].
      * intros (e' & [Hin| ->%list_elem_of_singleton]%elem_of_app & Hk & Hv); [by exists e'|done].
Qed.

Lemma table_puts st es new :
  table st es -> all_wf new -> NoDup (es ++ new).*1 ->
  table (store_ops st (put C ns <$> new)) (es ++ new).
Proof.
  revert st es. induction new as [|e new IH]; intros st es Ht Hwf Hnd; [by rewrite app_nil_r|].
  apply Forall_cons in Hwf as [He Hwf]. rewrite cons_middle, app_assoc in Hnd |- *.
  apply IH; [|done|done]. apply table_put; [done|done|].
  rewrite fmap_app, fmap_app in Hnd. apply NoDup_app in Hnd as [Hnd _]. apply NoDup_app in Hnd as (_ & Hd & _).
  intros Hin. apply (Hd _ Hin). left.
Qed.

(** Operations on other namespaces change nothing of it. *)
Definition op_namespace (op : WriteOp) : string :=
  match op with Put n _ _ => n | Delete n _ => n end.
Definition op_key (op : WriteOp) : RawKey := match op with Put _ k _ => k | Delete _ k => k end.

Lemma store_op_other st op n k : (op_namespace op, op_key op) <> (n, k) -> store_op st op !! (n, k) = st !! (n, k).
Proof.
  destruct op as [n' k' v|n' k']; cbn; intros Hne; [by apply lookup_insert_ne|by apply lookup_delete_ne].
Qed.
Lemma table_other st op es : op_namespace op <> ns -> table st es -> table (store_op st op) es.
Proof.
  intros Hop (Hwf & Hnd & Hes). split_and!; [done|done|]. intros kb vb.
  rewrite store_op_other by congruence. apply Hes.
Qed.
Lemma versioned_other st op :
  (op_namespace op, op_key op) <> (VERSION_META, string_bytes ns) -> versioned st -> versioned (store_op st op).
Proof. intros Hop Hv. unfold versioned. by rewrite store_op_other. Qed.
Lemma versioned_puts st es : versioned st -> versioned (store_ops st (put C ns <$> es)).
Proof.
  revert st. induction es as [|e es IH]; intros st Hv; [done|]. apply IH, versioned_other; [|done].
  cbn. congruence.
Qed.

(** What a bridge persists for a batch. *)
Definition persisted (es : list (Key C * Value C)) : list WriteOp := version_stamp C ns :: (put C ns <$> es).

Lemma table_persisted st es new :
  table st es -> all_wf new -> NoDup (es ++ new).*1 ->
  let st' := store_ops st (persisted new) in table st' (es ++ new) /\ versioned st'.
Proof.
  intros Ht Hwf Hnd. cbn zeta. cbn [persisted store_ops fold_left]. split.
  - apply table_puts; [|done|done]. by apply table_other; [cbn; congruence|].
  - apply versioned_puts. apply lookup_insert_eq.
Qed.

(** A reader sees the table it was told. *)
Context (r : BackendReader) (st : store) (Hr : reader_ok r st).

Lemma freshness_versioned : versioned st -> freshness C r ns = Ok Fresh.
Proof.
  intros Hv. unfold freshness, recorded_version. rewrite (ro_get _ _ Hr), Hv. cbn -[to_le_bytes from_le_bytes Z.eqb].
  rewrite blen_le, from_to_le_bytes by apply fnv1a_bound. change (Z.of_nat 8 =? 8) with true.
  cbn iota. by rewrite Z.eqb_refl.
Qed.

Lemma decode_entries_encoded es :
  all_wf es -> decode_entries C ((fun e => (encode_key C e.1, encode_value C e.2)) <$> es) = Ok es.
Proof.
  induction 1 as [|[k v] es Hwf _ IH]; [done|]. cbn. cbn in Hwf.
  rewrite (codec_key k v Hwf), (codec_value k v Hwf). cbn. by rewrite IH.
Qed.

Definition encoded (e : Key C * Value C) : RawKey * RawValue := (encode_key C e.1, encode_value C e.2).

(** The raw entries of the namespace are the table's, by ascending encoded key. *)
Lemma namespace_table es l :
  table st es -> namespace_entries st ns l ->
  exists es', l = encoded <$> es' /\ es' ≡ₚ es /\
    StronglySorted (fun e1 e2 => bytes_compare (encode_key C e1.1) (encode_key C e2.1) = Lt) es'.
Proof.
  intros (Hwf & Hnd & Hes) (Hs & Hin).
  assert (exists es', l = encoded <$> es' /\ Forall (.∈ es) es') as (es' & -> & Hsub).
  { assert (Hall : Forall (fun p => exists e, e ∈ es /\ p = encoded e) l).
    { apply Forall_forall. intros [kb vb] Hp. apply Hin, Hes in Hp as (e & He & -> & ->). by exists e. }
    clear -Hall. induction Hall as [|p l (e & He & ->) _ (es' & -> & IH)]; [by exists []|].
    exists (e :: es'). split; [done|by constructor]. }
  rewrite Forall_forall in Hsub.
  assert (Hsorted : StronglySorted (fun e1 e2 => bytes_compare (encode_key C e1.1) (encode_key C e2.1) = Lt) es').
  { clear -Hs. induction es' as [|e es' IH]; [constructor|]. apply StronglySorted_inv in Hs as [Hs Hf].
    constructor; [by apply IH|]. by apply Forall_fmap in Hf. }
  exists es'. split_and!; [done|..|done]. apply NoDup_Permutation; [|by apply (NoDup_fmap_1 fst)|].
  - clear -Hsorted. induction Hsorted as [|e l _ IH Hf]; constructor; [|done]. intros He.
    rewrite Forall_forall in Hf. specialize (Hf e He). by rewrite (proj2 (bytes_compare_eq _ _) eq_refl) in Hf.
  - intros e. split; [apply Hsub|]. intros He.
    assert (Hp : encoded e ∈ encoded <$> es') by (apply Hin, Hes; by exists e).
    apply list_elem_of_fmap in Hp as (e' & Heq & He'). enough (e = e') as -> by done.
    unfold all_wf in Hwf. rewrite Forall_forall in Hwf. injection Heq as Hk Hv.
    pose proof (codec_value _ _ (Hwf e He)) as Hd. rewrite Hv, (codec_value _ _ (Hwf e' (Hsub _ He'))) in Hd.
    destruct e as [k v], e' as [k' v']. cbn in *. injection Hd as ->. f_equal.
    exact (encode_key_inj _ _ _ _ (Hwf _ He) (Hwf _ (Hsub _ He')) Hk).
Qed.
(** [load] returns the table's entries, by ascending encoded key. *)
Lemma load_table es :
  table st es ->
  exists es', load C r ns = Ok es' /\ es' ≡ₚ es /\
    StronglySorted (fun e1 e2 => bytes_compare (encode_key C e1.1) (encode_key C e2.1) = Lt) es'.
Proof.
  intros Ht. destruct (ro_scan _ _ Hr ns) as (l & Hl & Hn).
  destruct (namespace_table es l Ht Hn) as (es' & -> & Hp & Hs). exists es'. split_and!; [|done..].
  unfold load. rewrite Hl. cbn. apply decode_entries_encoded. unfold all_wf. rewrite Hp. apply Ht.
Qed.

(** A point read finds an entry's value. *)
Lemma get_table es k v :
  table st es -> (k, v) ∈ es -> r_get r ns (encode_key C k) = Ok (Some (encode_value C v)).
Proof.
  intros (_ & _ & Hes) He. rewrite (ro_get _ _ Hr). f_equal. apply Hes. by exists (k, v).
Qed.
End Table.

(** *** The watermark *)
Definition stamped_at (st : store) (h : Z) : Prop :=
  st !! (WATERMARK_NAMESPACE, WATERMARK_KEY) = Some (to_le_bytes 4 h).
Lemma read_stamped r st h : reader_ok r st -> stamped_at st h -> 0 <= h <= Height.MAX_HEIGHT -> read_watermark r = Ok (Some h).
Proof.
  intros Hr Hs Hh. unfold read_watermark. rewrite (ro_get _ _ Hr), Hs.
  change Height.MAX_HEIGHT with 2147483647 in Hh.
  rewrite blen_le, from_to_le_bytes by (unfold uint; change (2 ^ (8 * Z.of_nat 4)) with 4294967296; lia).
  change (Z.of_nat 4 =? 4) with true. cbn iota. unfold Height.try_from.
  change Height.MAX_HEIGHT with 2147483647. by destruct (Z.ltb_spec 2147483647 h); [lia|].
Qed.
Lemma read_watermark_stamped r st ops h :
  reader_ok r (store_ops st (ops ++ [stamp h])) -> 0 <= h <= Height.MAX_HEIGHT ->
  read_watermark r = Ok (Some h).
Proof.
  intros Hr. apply (read_stamped _ _ _ Hr). unfold stamped_at. rewrite store_ops_app.
  cbn [store_ops fold_left store_op stamp]. apply lookup_insert_eq.
Qed.

(** *** Batches persisted among others *)
Definition foreign (ns : string) (op : WriteOp) : Prop :=
  op_namespace op <> ns /\ (op_namespace op, op_key op) <> (VERSION_META, string_bytes ns).

Section Batches.
Context (C : EntryCodec) (wf : Key C -> Value C -> Prop) `{!CodecLaws C wf}.
Context (ns : string) (Hns : ns <> VERSION_META).

Lemma foreign_ops st ops es :
  Forall (foreign ns) ops -> table C wf ns st es ->
  table C wf ns (store_ops st ops) es /\ (versioned C ns st -> versioned C ns (store_ops st ops)).
Proof.
  intros Hf. revert st. induction Hf as [|op ops [Ho Hk] _ IH]; intros st Ht; [done|].
  destruct (IH (store_op st op)) as [IHt IHv]; [by apply table_other|].
  split; [done|]. intros Hv. by apply IHv, versioned_other.
Qed.

(** The write set of a batch: the namespace's entries, other namespaces' around. *)
Definition batch_of (ops : list WriteOp) (es : list (Key C * Value C)) : Prop :=
  exists pre post, ops = pre ++ persisted C ns es ++ post /\ Forall (foreign ns) pre /\ Forall (foreign ns) post.

Lemma table_batch st es ops new :
  table C wf ns st es -> batch_of ops new -> all_wf C wf new -> NoDup (es ++ new).*1 ->
  table C wf ns (store_ops st ops) (es ++ new) /\ versioned C ns (store_ops st ops).
Proof.
  intros Ht (pre & post & -> & Hpre & Hpost) Hwf Hnd. rewrite !store_ops_app.
  destruct (foreign_ops st pre es Hpre Ht) as [Ht1 _].
  destruct (table_persisted C wf ns Hns _ es new Ht1 Hwf Hnd) as [Ht2 Hv2].
  destruct (foreign_ops _ post _ Hpost Ht2) as [Ht3 Hv3]. auto.
Qed.

Lemma table_batches st es log batches :
  table C wf ns st es -> Forall2 batch_of log batches -> all_wf C wf (mjoin batches) ->
  NoDup (es ++ mjoin batches).*1 ->
  table C wf ns (fold_left store_ops log st) (es ++ mjoin batches) /\
  (batches <> [] \/ versioned C ns st -> versioned C ns (fold_left store_ops log st)).
Proof.
  intros Ht Hb. revert st es Ht. induction Hb as [|ops new log batches Ho _ IH]; intros st es Ht Hwf Hnd.
  { cbn. rewrite app_nil_r. split; [done|]. by intros [|]. }
  change (mjoin (new :: batches)) with (new ++ mjoin batches) in *.
  apply Forall_app in Hwf as [Hwf Hwf']. rewrite app_assoc in Hnd |- *.
  destruct (table_batch st es ops new) as [Ht' Hv']; [done|done|done| |].
  { rewrite fmap_app in Hnd. by apply NoDup_app in Hnd as [? _]. }
  cbn. destruct (IH (store_ops st ops) (es ++ new)) as [IHt IHv]; [done|done|done|]. auto.
Qed.
End Batches.

(** C19: whatever a backend that keeps its promise is made of, batches
    persisted into an empty namespace load back: after a sequence of commits,
    each holding one batch's format stamp and entries among other namespaces'
    writes, a reader finds the format fresh and [load] returns exactly the
    entries of all batches, by ascending encoded key. *)
Theorem persisted_batches_load {BSt} (B : Backend BSt) abs `{!BackendSpec B abs}
    (C : EntryCodec) wf `{!CodecLaws C wf} ns b b' r log batches :
  ns <> VERSION_META -> (forall kb, abs b !! (ns, kb) = None) ->
  Forall2 (batch_of C ns) log batches -> batches <> [] ->
  all_wf C wf (mjoin batches) -> NoDup (mjoin batches).*1 ->
  commits B b log = Some b' -> b_reader B b' = Ok r ->
  freshness C r ns = Ok Fresh /\
  exists es, load C r ns = Ok es /\ es ≡ₚ mjoin batches /\
    StronglySorted (fun e1 e2 => bytes_compare (encode_key C e1.1) (encode_key C e2.1) = Lt) es.
Proof.
  intros Hns Hempty Hlog Hne Hwf Hnd Hc Hr%spec_reader. rewrite (commits_abs _ _ _ _ _ Hc) in Hr.
  destruct (table_batches C wf ns Hns (abs b) [] log batches) as [Ht Hv]; [by apply table_empty|done|done|done|].
  split; [eapply freshness_versioned; eauto|]. by eapply load_table.
Qed.

(** A record of one height. *)
Module Example.
Local Existing Instance canonical_iter.

Definition heights : EntryCodec := mkCodec Z Z HeightKey HeightKey WalkOrdered [(1, 2)].
Global Instance heights_laws : CodecLaws heights (fun k v => uint 64 k /\ uint 64 v).
Proof. split; intros k v [Hk Hv]; [by apply height_key_inverts..|done]. Qed.

Definition two_batches : list (list (Z * Z)) := [[(300, 5)]; [(7, 9); (8, 1)]].
Definition log : list (list WriteOp) :=
  (fun es => persisted heights "h" es ++ [stamp 3]) <$> two_batches.

Lemma persisted_batches_load_witness :
  let st := fold_left mem_op (mjoin log) new in
  freshness heights (mem_reader st) "h" = Ok Fresh /\
  exists es, load heights (mem_reader st) "h" = Ok es /\ es ≡ₚ mjoin two_batches.
Proof.
  cbn zeta.
  destruct (persisted_batches_load in_memory data_abs heights _ "h" new
    (fold_left mem_op (mjoin log) new) (mem_reader (fold_left mem_op (mjoin log) new)) log two_batches)
    as (Hf & es & Hl & Hp & _).
  - discriminate.
  - intros kb. reflexivity.
  - repeat constructor; exists [], [stamp 3]; (split; [reflexivity|]);
      (split; [constructor|]); repeat constructor; discriminate.
  - discriminate.
  - repeat constructor; discriminate.
  - apply (bool_decide_unpack _). vm_compute. exact I.
  - reflexivity.
  - reflexivity.
  - split; [exact Hf|]. exists es. split; [exact Hl|exact Hp].
Defined.
End Example.
End Codec.
