(* ===== verification/Seam.v ===== *)
(** * The finality seam ([packages/zaino-finality/src/seam.rs], [fault.rs])

    The ratchet between the volatile tier (which publishes the reorg horizon)
    and the durable tier (which publishes its watermark): its two publishing
    operations, the derived retention floor, and the invariants that hold in
    every reachable state whatever the interleaving of the two tiers. *)

From S2P Require Import Prelude Primitives Types.
From stdpp Require Import base list sets.
From Stdlib Require Import ZArith Lia Relations.
Open Scope Z_scope.

Module Seam.

Definition DEFAULT_RETENTION_MARGIN : Z := 10.

Record Released := mkReleased { rel_height : Height; rel_hash : BlockHash }.
Record Committed := mkCommitted { com_height : Height }.
Record Depths := mkDepths { reorg : Z; retention_margin : Z }.

Inductive SeamFault :=
| RegressedHorizon (to held : Height)
| RegressedWatermark (to held : Height)
| WatermarkPastHorizon (to horizon : Height).

(** [SeamState]: the depths and the last value of each watch channel. *)
Record SeamState := mkSeamState {
  depths : Depths;
  released : option Released;
  committed : option Committed }.

(** [Seam::new] *)
Definition new (reorg_depth margin : Z) : SeamState :=
  mkSeamState (mkDepths reorg_depth margin) None None.

(** [ReorgHorizon::reorg_depth] *)
Definition reorg_depth (st : SeamState) : Z := reorg (depths st).

(** [ReorgHorizon::advance]; on a fault the published value is untouched. *)
Definition horizon_advance (st : SeamState) (tip : Height) (hash_at_horizon : BlockHash)
    : result (Released * SeamState) SeamFault :=
  let to := Height.height_saturating_sub tip (reorg (depths st)) in
  let publish :=
    let r := mkReleased to hash_at_horizon in
    Ok (r, mkSeamState (depths st) (Some r) (committed st)) in
  match released st with
  | Some held =>
      if to <? rel_height held then Err (RegressedHorizon to (rel_height held))
      else publish
  | None => publish
  end.

(** [ReorgHorizon::durable] *)
Definition durable (st : SeamState) : option Committed := committed st.

(** [ReorgHorizon::retention_floor] *)
Definition retention_floor (st : SeamState) : option Height :=
  match durable st with
  | Some c => Some (Height.height_saturating_sub (com_height c) (retention_margin (depths st)))
  | None => None
  end.

(** [DurableWatermark::advance] *)
Definition watermark_advance (st : SeamState) (authorised_by : Released) (to : Height)
    : result (Committed * SeamState) SeamFault :=
  if rel_height authorised_by <? to then
    Err (WatermarkPastHorizon to (rel_height authorised_by))
  else
    let publish :=
      let c := mkCommitted to in
      Ok (c, mkSeamState (depths st) (released st) (Some c)) in
    match committed st with
    | Some held =>
        if to <? com_height held then Err (RegressedWatermark to (com_height held))
        else publish
    | None => publish
    end.

(** ** The two tiers running

    A system state is the seam plus the [Released] tokens the volatile half has
    issued: tokens are [Copy], so the durable half may present any of them,
    however old.  A faulting publish changes nothing and is not a step. *)
Record System := mkSystem { seam : SeamState; issued : list Released }.

Inductive step : System -> System -> Prop :=
| step_horizon sys tip h r st :
    Height.valid tip ->
    horizon_advance (seam sys) tip h = Ok (r, st) ->
    step sys (mkSystem st (r :: issued sys))
| step_watermark sys r to c st :
    r ∈ issued sys -> Height.valid to ->
    watermark_advance (seam sys) r to = Ok (c, st) ->
    step sys (mkSystem st (issued sys)).

Definition init (reorg_depth margin : Z) : System := mkSystem (new reorg_depth margin) [].

Definition steps : System -> System -> Prop := clos_refl_trans_1n System step.

(** The inequality chain: every issued token is at most the horizon, the
    watermark at most the horizon, both valid heights. *)
Definition inv (sys : System) : Prop :=
  (forall r, r ∈ issued sys -> exists h, released (seam sys) = Some h /\ rel_height r <= rel_height h) /\
  (forall c, committed (seam sys) = Some c ->
     Height.valid (com_height c) /\
     exists h, released (seam sys) = Some h /\ com_height c <= rel_height h).

Lemma step_inv s s' : step s s' -> inv s -> inv s'.
Proof.
  intros Hstep [Hi Hc]. destruct Hstep as [sys tip h r st Hv Ha|sys r to c st Hin Hv Ha].
  - unfold horizon_advance in Ha. set (to := Height.height_saturating_sub _ _) in Ha.
    assert (st = mkSeamState (depths (seam sys)) (Some (mkReleased to h)) (committed (seam sys))
            /\ r = mkReleased to h
            /\ forall held, released (seam sys) = Some held -> rel_height held <= to) as (-> & -> & Hm).
    { destruct (released (seam sys)) as [held|].
      - destruct (to <? rel_height held) eqn:E; simplify_eq. zbool. naive_solver.
      - naive_solver. }
    split; cbn.
    + intros r' [->|Hr']%elem_of_cons; [eexists; split; [done|simpl; lia]|].
      destruct (Hi r' Hr') as (h' & Hh' & Hle). eexists; split; [done|].
      simpl. specialize (Hm h' Hh'). lia.
    + intros c Hcc. destruct (Hc c Hcc) as (Hval & h' & Hh' & Hle). split; [done|].
      eexists; split; [done|]. simpl. specialize (Hm h' Hh'). lia.
  - unfold watermark_advance in Ha. case_if_in Ha.
    destruct (Hi r Hin) as (hh & Hh & Hle).
    assert (st = mkSeamState (depths (seam sys)) (released (seam sys)) (Some (mkCommitted to))) as ->.
    { destruct (committed (seam sys)) as [held|]; [|naive_solver].
      destruct (to <? com_height held); naive_solver. }
    split; cbn; [done|]. intros c' [= <-]. simpl. split; [done|].
    exists hh. split; [done|lia].
Qed.

Lemma steps_inv s s' : steps s s' -> inv s -> inv s'.
Proof. induction 1; eauto using step_inv. Qed.

Lemma init_inv d m : inv (init d m).
Proof. split; cbn; [intros r Hr; by apply elem_of_nil in Hr|done]. Qed.

(** One horizon or watermark publish never lowers either quantity. *)
Definition not_lower (s s' : System) : Prop :=
  (forall r, released (seam s) = Some r ->
     exists r', released (seam s') = Some r' /\ rel_height r <= rel_height r') /\
  (forall c, committed (seam s) = Some c ->
     exists c', committed (seam s') = Some c' /\ com_height c <= com_height c').

Lemma step_not_lower s s' : step s s' -> not_lower s s'.
Proof.
  destruct 1 as [sys tip h r st Hv Ha|sys r to c st Hin Hv Ha]; split; intros x Hx.
  - unfold horizon_advance in Ha. rewrite Hx in Ha. case_if_in Ha.
    eexists; split; [done|simpl; lia].
  - unfold horizon_advance in Ha.
    assert (committed st = committed (seam sys)) as Hst by (repeat case_match; simplify_eq/=; done).
    simpl. rewrite Hst. eexists; split; [done|lia].
  - unfold watermark_advance in Ha.
    assert (released st = released (seam sys)) as Hst by (repeat case_match; simplify_eq/=; done).
    simpl. rewrite Hst. eexists; split; [done|lia].
  - unfold watermark_advance in Ha. rewrite Hx in Ha. repeat case_match; simplify_eq/=. zbool.
    eexists; split; [done|simpl; lia].
Qed.

Lemma steps_not_lower s s' : steps s s' -> not_lower s s'.
Proof.
  induction 1 as [s|s s1 s2 Hs Hss IH]; [split; intros x Hx; eexists; split; done || lia|].
  apply step_not_lower in Hs as [A1 A2]. destruct IH as [B1 B2]. split.
  - intros r Hr. destruct (A1 r Hr) as (r1 & Hr1 & ?). destruct (B1 r1 Hr1) as (r2 & ? & ?).
    eexists; split; [done|lia].
  - intros c Hc. destruct (A2 c Hc) as (c1 & Hc1 & ?). destruct (B2 c1 Hc1) as (c2 & ? & ?).
    eexists; split; [done|lia].
Qed.

(** C15: whatever the two tiers do, and however stale the token the durable
    tier presents, the watermark never passes the reorg horizon, neither
    quantity ever goes down, and the retention floor never rises above the
    watermark. *)
Theorem seam_ratchet d m s s' :
  0 <= m -> steps (init d m) s -> steps s s' ->
  not_lower s s' /\
  forall c, committed (seam s') = Some c ->
    (exists h, released (seam s') = Some h /\ com_height c <= rel_height h) /\
    exists f, retention_floor (seam s') = Some f /\ 0 <= f <= com_height c.
Proof.
  intros Hm H1 H2. split; [by apply steps_not_lower|].
  assert (inv s') as [_ Hc] by eauto using steps_inv, init_inv.
  assert (depths (seam s') = mkDepths d m) as Hd.
  { assert (Hdep : forall a b, steps a b -> depths (seam b) = depths (seam a)).
    { induction 1 as [|a b e Hab _ IH]; [done|]. rewrite IH.
      destruct Hab as [? ? ? ? ? ? Ha|? ? ? ? ? ? ? Ha]; cbn;
        unfold horizon_advance, watermark_advance in Ha; repeat case_match; simplify_eq/=; done. }
    rewrite (Hdep _ _ H2), (Hdep _ _ H1). done. }
  intros c Hcc. destruct (Hc c Hcc) as (Hv & h & Hh & Hle). split; [by exists h|].
  unfold retention_floor, durable. rewrite Hcc, Hd. eexists; split; [done|].
  unfold Height.height_saturating_sub, saturating_sub, Height.valid in *. simpl. lia.
Qed.

(** A volatile publish at tip 1000, a durable publish at 850 under it. *)
Lemma seam_ratchet_witness :
  exists s, steps (init 100 10) s /\ committed (seam s) = Some (mkCommitted 850) /\
    exists f, retention_floor (seam s) = Some f /\ 0 <= f <= 850.
Proof.
  set (r := mkReleased 900 [1]).
  set (s1 := mkSystem (mkSeamState (mkDepths 100 10) (Some r) None) [r]).
  set (s2 := mkSystem (mkSeamState (mkDepths 100 10) (Some r) (Some (mkCommitted 850))) [r]).
  assert (steps (init 100 10) s2) as Hs.
  { eapply Relation_Operators.rt1n_trans with s1.
    { apply (step_horizon (init 100 10) 1000 [1] r); [split; vm_compute; congruence|].
      vm_compute. reflexivity. }
    eapply Relation_Operators.rt1n_trans with s2; [|apply Relation_Operators.rt1n_refl].
    apply (step_watermark s1 r 850 (mkCommitted 850)); [left|split; vm_compute; congruence|].
    vm_compute. reflexivity. }
  exists s2. split; [exact Hs|]. split; [reflexivity|].
  exact (proj2 (proj2 (seam_ratchet 100 10 s2 s2 ltac:(lia) Hs
    (Relation_Operators.rt1n_refl _ _ _)) (mkCommitted 850) eq_refl)).
Defined.

End Seam.
