(* ===== verification/Status.v ===== *)
(** * Service status ([packages/zaino-status/src/status.rs])

    The operational states a component reports and how they aggregate. *)

From S2P Require Import Prelude.
From stdpp Require Import base list.
Open Scope Z_scope.

Module Status.

Inductive StatusType :=
| Spawning | Syncing | Ready | Busy | Closing | Offline | RecoverableError | CriticalError.
Global Instance StatusType_eq_dec : EqDecision StatusType.
Proof. solve_decision. Defined.

(** The discriminants, and [From<usize>]: anything past the last is critical. *)
Definition to_usize (s : StatusType) : Z :=
  match s with
  | Spawning => 0 | Syncing => 1 | Ready => 2 | Busy => 3
  | Closing => 4 | Offline => 5 | RecoverableError => 6 | CriticalError => 7
  end.
Definition from_usize (value : Z) : StatusType :=
  if value =? 0 then Spawning else if value =? 1 then Syncing
  else if value =? 2 then Ready else if value =? 3 then Busy
  else if value =? 4 then Closing else if value =? 5 then Offline
  else if value =? 6 then RecoverableError else CriticalError.

Definition combine (self other : StatusType) : StatusType :=
  match self, other with
  | Closing, _ | _, Closing => Closing
  | Offline, _ | _, Offline | CriticalError, _ | _, CriticalError => CriticalError
  | RecoverableError, _ | _, RecoverableError => RecoverableError
  | Spawning, _ | _, Spawning => Spawning
  | Syncing, _ | _, Syncing => Syncing
  | _, _ => Ready
  end.

Definition is_live (self : StatusType) : bool :=
  match self with Offline | CriticalError => false | _ => true end.
Definition is_ready (self : StatusType) : bool :=
  match self with Ready | Busy => true | _ => false end.

(** How bad a state is for an aggregate; [Offline] weighs as critical. *)
Definition severity (s : StatusType) : Z :=
  match s with
  | Ready | Busy => 0 | Syncing => 1 | Spawning => 2
  | RecoverableError => 3 | Offline | CriticalError => 4 | Closing => 5
  end.

(** Combining states is order- and grouping-independent and keeps the
    worst one, so an aggregate is live exactly when its members are or the
    whole is closing, and ready exactly when all of them are; the atomic cell's
    encoding loses nothing. *)
Theorem combine_worst a b c :
  combine a b = combine b a /\
  combine (combine a b) c = combine a (combine b c) /\
  severity (combine a b) = Z.max (severity a) (severity b) /\
  is_live (combine a b) =
    (is_live a && is_live b || bool_decide (a = Closing) || bool_decide (b = Closing))%bool /\
  is_ready (combine a b) = (is_ready a && is_ready b)%bool /\
  from_usize (to_usize a) = a.
Proof. destruct a, b; repeat split; destruct c; reflexivity. Qed.

End Status.
