(* ===== verification/Mempool.v ===== *)
(** * The mempool read model
    ([packages/zaino-mempool/src], [packages/zaino-mempool-service/src/service],
    [subscriber])

    One writer polls the validator's mempool and publishes immutable snapshots of
    it, tagged with the validator tip they were read at and bounded in total cost;
    readers take the current snapshot, or follow the feed of changes.  The writer
    is a state monad over the service; [None] is a panic (an arithmetic overflow,
    a missing map entry, a debug assertion).  What lies outside the writer, the
    validator, the clock and the bound that its owner may move at any time, is the
    record [Outside] of questions over a state that may change at each of them.
    The feed is kept as the list of all updates sent. *)

From S2P Require Import Prelude Types Persistence Status.
From stdpp Require Import base gmap list strings sets relations sorting.
From Stdlib Require Import Lia.
Open Scope Z_scope.

Module Mempool.
Import Bytes.

(** ** Cost and configuration ([config.rs])

    Durations are in milliseconds.  The bound [max_cost_bytes] is shared and may be
    moved at any time: it is read from the outside.  The channel length, the polling
    interval and the fetch concurrency have no bearing on the operations below. *)
Definition MEMPOOL_TRANSACTION_COST_THRESHOLD : Z := 10000.
Definition DEFAULT_MAX_COST_BYTES : Z := 128 * 1024 * 1024.
Definition DEFAULT_POLL_INTERVAL_MS : Z := 500.
Definition tx_cost (raw_len : Z) : Z := Z.max raw_len MEMPOOL_TRANSACTION_COST_THRESHOLD.

Record MempoolConfig := mkConfig {
  metadata_min_interval : Z;
  max_exclude_count : Z;
  min_exclude_suffix_len : Z;
  max_exclude_suffix_len : Z }.
Definition default_config : MempoolConfig := mkConfig DEFAULT_POLL_INTERVAL_MS 1024 4 32.

(** ** Entries ([entry.rs]) *)
Record MempoolEntry := mkMempoolEntry {
  e_txid : TransactionId;
  serialized_tx : list Z;
  raw_len : Z;
  entry_height : Height;
  entry_time : option Z;
  first_seen_generation : Z }.
Definition cost (e : MempoolEntry) : Z := tx_cost (raw_len e).

(** ** Snapshots ([snapshot.rs]) *)
Definition reversed_txid_key (txid : TransactionId) : list Z := reverse txid.
Definition txid_le (a b : TransactionId) : Prop :=
  bytes_le (reversed_txid_key a) (reversed_txid_key b).
Global Instance txid_le_dec : RelDecision txid_le.
Proof. intros a b. unfold txid_le. apply _. Defined.

Inductive MempoolCompleteness :=
| Complete
| IncompleteCapacityLimited
| IncompletePendingMetadata
| IncompleteSourceError.
Global Instance MempoolCompleteness_eq_dec : EqDecision MempoolCompleteness.
Proof. solve_decision. Defined.
Definition is_whole (c : MempoolCompleteness) : bool :=
  match c with Complete => true | _ => false end.
Definition may_be_wrong (c : MempoolCompleteness) : bool :=
  match c with IncompleteSourceError => true | _ => false end.

Record MempoolSnapshot := mkSnapshot {
  source_tip : option BlockRef;
  mempool_generation : Z;
  event_sequence : Z;
  by_txid : gmap TransactionId MempoolEntry;
  txids_sorted : list TransactionId;
  entries_in_order : list MempoolEntry;
  tx_count : Z;
  raw_bytes : Z;
  cost_bytes : Z;
  completeness : MempoolCompleteness;
  unadmitted : gset TransactionId }.

Definition empty : MempoolSnapshot :=
  mkSnapshot None 0 0 ∅ [] [] 0 0 0 Complete ∅.
Definition is_ready (s : MempoolSnapshot) : bool :=
  match source_tip s with Some _ => true | None => false end.

(** [Iterator::sum] of [u64]s. *)
Fixpoint sum_u64 (acc : Z) (l : list Z) : option Z :=
  match l with
  | [] => Some acc
  | x :: l => let! acc := checked_add 64 acc x in sum_u64 acc l
  end.

(** The constructors' debug assertion. *)
Definition short_only_if_incomplete (c : MempoolCompleteness) (u : gset TransactionId) : bool :=
  bool_decide (u = ∅) || negb (bool_decide (c = Complete)).

Section Iteration.
Context `{HashIter}.

Definition from_entries (previous : MempoolSnapshot) (by_txid : gmap TransactionId MempoolEntry)
    (source_tip : option BlockRef) (completeness : MempoolCompleteness)
    (unadmitted : gset TransactionId) : option MempoolSnapshot :=
  if negb (short_only_if_incomplete completeness unadmitted) then None
  else
    let txids_sorted := merge_sort txid_le (keys by_txid) in
    let! entries_in_order := mapM (fun t => by_txid !! t) txids_sorted in
    let! raw_bytes := sum_u64 0 (raw_len <$> entries_in_order) in
    let! cost_bytes := sum_u64 0 (cost <$> entries_in_order) in
    Some (mkSnapshot source_tip
            (saturating_add 64 (mempool_generation previous) 1)
            (saturating_add 64 (event_sequence previous) 1)
            by_txid txids_sorted entries_in_order (Z.of_nat (size by_txid))
            raw_bytes cost_bytes completeness unadmitted).
End Iteration.

Definition retag (s : MempoolSnapshot) (source_tip : option BlockRef)
    (completeness : MempoolCompleteness) (unadmitted : gset TransactionId) : option MempoolSnapshot :=
  if negb (short_only_if_incomplete completeness unadmitted) then None
  else
    Some (mkSnapshot source_tip (mempool_generation s)
            (saturating_add 64 (event_sequence s) 1)
            (by_txid s) (txids_sorted s) (entries_in_order s) (tx_count s)
            (raw_bytes s) (cost_bytes s) completeness unadmitted).

(** ** The change feed ([update.rs]); [Lagged] is only made by a consumer's stream. *)
Inductive MempoolUpdate :=
| Added (sequence : Z) (entry : MempoolEntry)
| Removed (sequence : Z) (txid : TransactionId)
| Reset (sequence : Z)
| Lagged (missed : Z)
| Closing (sequence : Z).

(** ** Poll state ([service/state.rs]) *)

(** The hash that breaks ties is the standard library's keyed hasher, whose
    algorithm is unspecified. *)
Class TieHash := tie_hash : Z -> TransactionId -> Z.

Definition admission_key `{TieHash} (salt : Z) (entry_time : option Z) (entry_height : Height)
    (txid : TransactionId) : bool * Z * Z * Z :=
  (match entry_time with None => true | Some _ => false end,
   default (2 ^ 63 - 1) entry_time, entry_height, tie_hash salt txid).

(** [Ord] on the tuples. *)
Definition key_list (k : bool * Z * Z * Z) : list Z :=
  let '(a, b, c, d) := k in [if a then 1 else 0; b; c; d].
Definition key_le (k1 k2 : bool * Z * Z * Z) : Prop := bytes_le (key_list k1) (key_list k2).

Record PollState := mkPollState {
  last_metadata_fetch : option Z;
  refused : gmap TransactionId Z;
  consecutive_discards : Z;
  deferred : gset TransactionId }.
Definition default_poll : PollState := mkPollState None ∅ 0 ∅.

Definition poll_unadmitted (st : PollState) : gset TransactionId :=
  dom (refused st) ∪ deferred st.

(** [completeness_for] *)
Definition completeness_for (st : PollState) : MempoolCompleteness :=
  if negb (bool_decide (refused st = ∅)) then IncompleteCapacityLimited
  else if negb (bool_decide (deferred st = ∅)) then IncompletePendingMetadata
  else Complete.

(** ** What the writer asks of the outside *)
Record MempoolTxMeta := mkMeta {
  m_txid : TransactionId;
  m_entry_height : Height;
  m_entry_time : option Z;
  m_size : Z;
  m_fee : Z }.
Global Instance MempoolTxMeta_eq_dec : EqDecision MempoolTxMeta.
Proof. solve_decision. Defined.
Inductive RawError := NotFound (txid : TransactionId) | NonDomain.

Record Outside (W : Type) := mkOutside {
  get_mempool_source_tip : W -> result (BlockHash * Height) unit * W;
  get_mempool_txids : W -> result (list TransactionId) unit * W;
  get_mempool_metadata : W -> result (list MempoolTxMeta) unit * W;
  get_raw_mempool_transaction : TransactionId -> W -> result (list Z) RawError * W;
  now : W -> Z * W;
  max_cost_bytes : W -> Z * W }.
Arguments get_mempool_source_tip {W} _ _.
Arguments get_mempool_txids {W} _ _.
Arguments get_mempool_metadata {W} _ _.
Arguments get_raw_mempool_transaction {W} _ _ _.
Arguments now {W} _ _.
Arguments max_cost_bytes {W} _ _.

(** [BlockRef::from_tip] *)
Definition from_tip (tip : BlockHash * Height) : BlockRef := mkBlockRef tip.1 tip.2.

(** [CAPACITY_LOW_WATER_PERCENT], [MAX_CONSECUTIVE_DISCARDS] *)
Definition CAPACITY_LOW_WATER_PERCENT : Z := 90.
Definition MAX_CONSECUTIVE_DISCARDS : Z := 5.
Definition saturating_mul (w a b : Z) : Z := Z.min (umax w) (a * b).

Section Writer.
Context `{HashIter, ParOrder, TieHash} {W : Type} (Out : Outside W) (config : MempoolConfig) (salt : Z).

(** [MempoolService], with the writer's own [PollState]. *)
Record MempoolService := mkService {
  current : MempoolSnapshot;
  updates : list MempoolUpdate;
  status : Status.StatusType;
  poll : PollState;
  outside : W }.

Definition M (A : Type) : Type := MempoolService -> option (A * MempoolService).
Definition ret {A} (x : A) : M A := fun s => Some (x, s).
Definition bind {A B} (m : M A) (f : A -> M B) : M B :=
  fun s => let! (x, s) := m s in f x s.
Notation "'let*' x ':=' c 'in' k" := (bind c (fun x => k))
  (at level 10, x pattern, c at level 200, k at level 200).

Definition panic_if_none {A} (o : option A) : M A := fun s => let! x := o in Some (x, s).
Definition ask {A} (q : W -> A * W) : M A := fun s =>
  let (x, w) := q (outside s) in
  Some (x, mkService (current s) (updates s) (status s) (poll s) w).
Definition get : M MempoolService := fun s => Some (s, s).
Definition store (snap : MempoolSnapshot) : M unit := fun s =>
  Some (tt, mkService snap (updates s) (status s) (poll s) (outside s)).
Definition send (l : list MempoolUpdate) : M unit := fun s =>
  Some (tt, mkService (current s) (updates s ++ l) (status s) (poll s) (outside s)).
Definition store_status (x : Status.StatusType) : M unit := fun s =>
  Some (tt, mkService (current s) (updates s) x (poll s) (outside s)).
Definition set_poll (st : PollState) : M unit := fun s =>
  Some (tt, mkService (current s) (updates s) (status s) st (outside s)).

Definition set_refused (r : gmap TransactionId Z) (st : PollState) : PollState :=
  mkPollState (last_metadata_fetch st) r (consecutive_discards st) (deferred st).
Definition set_deferred (d : gset TransactionId) (st : PollState) : PollState :=
  mkPollState (last_metadata_fetch st) (refused st) (consecutive_discards st) d.
Definition set_discards (n : Z) (st : PollState) : PollState :=
  mkPollState (last_metadata_fetch st) (refused st) n (deferred st).
Definition set_last_fetch (t : Z) (st : PollState) : PollState :=
  mkPollState (Some t) (refused st) (consecutive_discards st) (deferred st).
Definition modify_poll (f : PollState -> PollState) : M unit :=
  let* s := get in set_poll (f (poll s)).

(** *** Publication ([service/publish.rs]) *)

(** [publish_retagged] *)
Definition publish_retagged (current : MempoolSnapshot) (source_tip : option BlockRef)
    (completeness : MempoolCompleteness) (unadmitted : gset TransactionId) : M unit :=
  let* snapshot := panic_if_none (retag current source_tip completeness unadmitted) in
  let* _ := store snapshot in
  let* _ := send [Reset (event_sequence snapshot)] in
  store_status Status.Ready.

(** The removals of [publish_snapshot]. *)
Fixpoint remove_all (removed : list TransactionId) (m : gmap TransactionId MempoolEntry)
    (cost_bytes : Z) : gmap TransactionId MempoolEntry * Z :=
  match removed with
  | [] => (m, cost_bytes)
  | t :: removed =>
      match m !! t with
      | Some e => remove_all removed (delete t m) (saturating_sub cost_bytes (cost e))
      | None => remove_all removed m cost_bytes
      end
  end.

(** Its admission loop: what is admitted, what is refused, what was applied. *)
Fixpoint admit_entries (max_cost_bytes cost_bytes : Z) (m : gmap TransactionId MempoolEntry)
    (refused : gmap TransactionId Z) (entries : list MempoolEntry)
    : option (gmap TransactionId MempoolEntry * gmap TransactionId Z * list MempoolEntry) :=
  match entries with
  | [] => Some (m, refused, [])
  | e :: entries =>
      if max_cost_bytes <? saturating_add 64 cost_bytes (cost e) then
        admit_entries max_cost_bytes cost_bytes m (<[e_txid e := cost e]> refused) entries
      else
        let! cost_bytes := checked_add 64 cost_bytes (cost e) in
        let! (m, refused, applied) :=
          admit_entries max_cost_bytes cost_bytes (<[e_txid e := e]> m) refused entries in
        Some (m, refused, e :: applied)
  end.

Definition entry_le (a b : MempoolEntry) : Prop :=
  key_le (admission_key salt (entry_time a) (entry_height a) (e_txid a))
         (admission_key salt (entry_time b) (entry_height b) (e_txid b)).
Global Instance entry_le_dec : RelDecision entry_le.
Proof. intros a b. unfold entry_le, key_le. apply _. Defined.

Definition publish_snapshot (current : MempoolSnapshot) (source_tip : option BlockRef)
    (added_entries : list MempoolEntry) (removed : list TransactionId) : M unit :=
  match added_entries, removed with
  | [], [] =>
      let* s := get in
      publish_retagged current source_tip (completeness_for (poll s)) (poll_unadmitted (poll s))
  | _, _ =>
      let '(m, cost_bytes) := remove_all removed (by_txid current) (cost_bytes current) in
      let added_entries := merge_sort entry_le added_entries in
      let* max_cost_bytes := ask (max_cost_bytes Out) in
      let* s := get in
      let* (m, refused, applied) :=
        panic_if_none (admit_entries max_cost_bytes cost_bytes m (refused (poll s)) added_entries) in
      let* _ := modify_poll (set_refused refused) in
      let* s := get in
      let* snapshot := panic_if_none (from_entries current m source_tip (completeness_for (poll s))
                                        (poll_unadmitted (poll s))) in
      let next_sequence := event_sequence snapshot in
      let* _ := store snapshot in
      let* _ := send ((Removed next_sequence <$> removed) ++ (Added next_sequence <$> applied)
                      ++ [Reset next_sequence]) in
      store_status Status.Ready
  end.

(** [publish_source_error], [source_error], [publish_closing] *)
Definition publish_source_error : M unit :=
  let* s := get in
  let current := current s in
  if bool_decide (completeness current = IncompleteSourceError) then store_status Status.Syncing
  else
    let* snapshot := panic_if_none (retag current (source_tip current) IncompleteSourceError
                                      (unadmitted current)) in
    let* _ := store snapshot in
    let* _ := send [Reset (event_sequence snapshot)] in
    store_status Status.Syncing.
Definition source_error : M unit :=
  let* _ := modify_poll (set_discards 0) in publish_source_error.
Definition publish_closing : M unit :=
  let* s := get in
  let* _ := send [Closing (saturating_add 64 (event_sequence (current s)) 1)] in
  store_status Status.Closing.

(** *** Polling ([service/poll.rs]) *)

Definition tip_is_stable (tip_before : BlockRef) : M bool :=
  let* tip := ask (get_mempool_source_tip Out) in
  let stable := match tip with Ok tip => bool_decide (from_tip tip = tip_before) | Err _ => false end in
  if stable then let* _ := modify_poll (set_discards 0) in ret true
  else
    let* s := get in
    let discards := saturating_add 32 (consecutive_discards (poll s)) 1 in
    let* _ := modify_poll (set_discards discards) in
    let* _ := if MAX_CONSECUTIVE_DISCARDS <=? discards then publish_source_error else ret tt in
    ret false.

Definition republish_if_changed (current : MempoolSnapshot) (tip_before : BlockRef) : M unit :=
  let* s := get in
  let next_unadmitted := poll_unadmitted (poll s) in
  if negb (bool_decide (source_tip current = Some tip_before))
     || negb (bool_decide (completeness current = completeness_for (poll s)))
     || negb (bool_decide (unadmitted current = next_unadmitted))
  then
    let* stable := tip_is_stable tip_before in
    if stable : bool then publish_snapshot current (Some tip_before) [] [] else ret tt
  else store_status Status.Ready.

Definition metadata_fetch_is_due : M bool :=
  let* s := get in
  match last_metadata_fetch (poll s) with
  | Some last =>
      let* t := ask (now Out) in ret (metadata_min_interval config <=? saturating_sub t last)
  | None => ret true
  end.

Definition retry_refused_that_now_fit (current : MempoolSnapshot) : M unit :=
  let* s := get in
  if bool_decide (refused (poll s) = ∅) then ret tt
  else
    let* max_cost_bytes := ask (max_cost_bytes Out) in
    if saturating_mul 64 max_cost_bytes CAPACITY_LOW_WATER_PERCENT / 100 <=? cost_bytes current
    then ret tt
    else
      let headroom := saturating_sub max_cost_bytes (cost_bytes current) in
      modify_poll (set_refused (filter (fun kv => headroom < kv.2) (refused (poll s)))).

(** Memoise refusals at the floor cost. *)
Definition refuse_all (txids : list TransactionId) (r : gmap TransactionId Z) : gmap TransactionId Z :=
  fold_left (fun r t => <[t := MEMPOOL_TRANSACTION_COST_THRESHOLD]> r) txids r.

Definition meta_le (a b : MempoolTxMeta) : Prop :=
  key_le (admission_key salt (m_entry_time a) (m_entry_height a) (m_txid a))
         (admission_key salt (m_entry_time b) (m_entry_height b) (m_txid b)).
Global Instance meta_le_dec : RelDecision meta_le.
Proof. intros a b. unfold meta_le, key_le. apply _. Defined.

(** [tick], choosing what to fetch; [None] when a failed listing ended the poll. *)
Definition select_additions (current : MempoolSnapshot) (added_txids : list TransactionId)
    : M (option (list MempoolTxMeta)) :=
  match added_txids with
  | [] => ret (Some [])
  | _ =>
      let* max_cost_bytes := ask (max_cost_bytes Out) in
      let headroom := saturating_sub max_cost_bytes (cost_bytes current) in
      let max_admissible := Z.to_nat (headroom / MEMPOOL_TRANSACTION_COST_THRESHOLD) in
      if bool_decide (max_admissible = O) then
        let* s := get in
        let* _ := modify_poll (set_refused (refuse_all added_txids (refused (poll s)))) in
        ret (Some [])
      else
        let* due := metadata_fetch_is_due in
        if negb due then
          let* _ := modify_poll (set_deferred (list_to_set added_txids)) in ret (Some [])
        else
          let* metadata := ask (get_mempool_metadata Out) in
          match metadata with
          | Err _ => let* _ := source_error in ret None
          | Ok metadata =>
              let* t := ask (now Out) in
              let* _ := modify_poll (set_last_fetch t) in
              let meta_by_txid : gmap TransactionId MempoolTxMeta :=
                fold_left (fun m x => <[m_txid x := x]> m) metadata ∅ in
              let added_meta :=
                merge_sort meta_le (omap (fun t => meta_by_txid !! t) added_txids) in
              let* s := get in
              let* _ := modify_poll (set_refused (refuse_all (m_txid <$> drop max_admissible added_meta)
                                                    (refused (poll s)))) in
              ret (Some (take max_admissible added_meta))
          end
  end.

(** [fetch_added_entries_bounded]: one raw fetch per addition, completing in any
    order; a transaction that left is skipped, a failure abandons the poll. *)
Definition raw_entry (next_generation : Z) (meta : MempoolTxMeta) (raw : result (list Z) RawError)
    : result (option MempoolEntry) unit :=
  match raw with
  | Ok bytes =>
      Ok (Some (mkMempoolEntry (m_txid meta) bytes (Z.of_nat (length bytes)) (m_entry_height meta)
                  (m_entry_time meta) next_generation))
  | Err (NotFound _) => Ok None
  | Err NonDomain => Err tt
  end.
Fixpoint fetch_raw (next_generation : Z) (added : list MempoolTxMeta)
    : M (list (result (option MempoolEntry) unit)) :=
  match added with
  | [] => ret []
  | meta :: added =>
      let* raw := ask (get_raw_mempool_transaction Out (m_txid meta)) in
      let* results := fetch_raw next_generation added in
      ret (raw_entry next_generation meta raw :: results)
  end.
Fixpoint collect_entries (results : list (result (option MempoolEntry) unit))
    : option (list MempoolEntry) :=
  match results with
  | [] => Some []
  | Ok (Some e) :: results => let! es := collect_entries results in Some (e :: es)
  | Ok None :: results => collect_entries results
  | Err _ :: _ => None
  end.
Definition fetch_added_entries_bounded (added : list MempoolTxMeta) (next_generation : Z)
    : M (option (list MempoolEntry)) :=
  let* results := fetch_raw next_generation (par_order added) in
  ret (collect_entries results).

(** [tick], once the additions and removals are known. *)
Definition apply_delta (current : MempoolSnapshot) (tip_before : BlockRef)
    (added_txids removed : list TransactionId) : M unit :=
  if bool_decide (added_txids = [] /\ removed = []) then republish_if_changed current tip_before
  else
    let* selected := select_additions current added_txids in
    match selected with
    | None => ret tt
    | Some added_meta =>
        if bool_decide (added_meta = [] /\ removed = []) then republish_if_changed current tip_before
        else
          let next_generation := saturating_add 64 (mempool_generation current) 1 in
          let* fetched := fetch_added_entries_bounded added_meta next_generation in
          match fetched with
          | None => source_error
          | Some added_entries =>
              let* stable := tip_is_stable tip_before in
              if stable : bool
              then publish_snapshot current (Some tip_before) added_entries removed
              else ret tt
          end
    end.

(** [tick], once both listings are known. *)
Definition apply_poll (tip_before : BlockRef) (txids : list TransactionId) : M unit :=
  let* s := get in
  let current := current s in
  let source_txids : gset TransactionId := list_to_set txids in
  let removed := filter (fun t => t ∉ source_txids) (keys (by_txid current)) in
  let* _ := modify_poll (fun st =>
    set_refused (filter (fun kv => kv.1 ∈ source_txids) (refused st)) st) in
  let* _ := retry_refused_that_now_fit current in
  let* _ := modify_poll (set_deferred ∅) in
  let* s := get in
  let added_txids :=
    filter (fun t => by_txid current !! t = None /\ refused (poll s) !! t = None) txids in
  apply_delta current tip_before added_txids removed.

Definition tick : M unit :=
  let* tip := ask (get_mempool_source_tip Out) in
  match tip with
  | Err _ => source_error
  | Ok tip =>
      let* txids := ask (get_mempool_txids Out) in
      match txids with
      | Err _ => source_error
      | Ok txids => apply_poll (from_tip tip) txids
      end
  end.

(** [spawn] and [run]: the poll loop is any sequence of ticks, the outside moving
    on its own in between, ended by a closing that [close] may also publish. *)
Definition spawn (w : W) : MempoolService := mkService empty [] Status.Spawning default_poll w.
Inductive step : MempoolService -> MempoolService -> Prop :=
| step_start s : step s (mkService (current s) (updates s) Status.Syncing (poll s) (outside s))
| step_tick s s' : tick s = Some (tt, s') -> step s s'
| step_close s s' : publish_closing s = Some (tt, s') -> step s s'
| step_outside s w : step s (mkService (current s) (updates s) (status s) (poll s) w).
Definition reachable (s : MempoolService) : Prop := exists w, rtc step (spawn w) s.
End Writer.

(** ** The read handle ([subscriber.rs], [subscriber/filter.rs])

    Each read is a function of the snapshot it loads. *)
Record MempoolInfo := mkInfo { info_size : Z; info_bytes : Z; info_usage : Z }.
Definition get_mempool_info (s : MempoolSnapshot) : MempoolInfo :=
  mkInfo (tx_count s) (raw_bytes s) (cost_bytes s).
Definition contains_txid (s : MempoolSnapshot) (txid : TransactionId) : bool :=
  bool_decide (is_Some (by_txid s !! txid)).
Definition get_transaction (s : MempoolSnapshot) (txid : TransactionId) : option MempoolEntry :=
  by_txid s !! txid.
Definition get_txids (s : MempoolSnapshot) : list TransactionId := txids_sorted s.

(** [mempool_updates]: what a receiver got, with a lag made explicit. *)
Inductive RecvError := RecvLagged (missed : Z) | RecvClosed.
Fixpoint mempool_updates (received : list (result MempoolUpdate RecvError)) : list MempoolUpdate :=
  match received with
  | [] => []
  | Ok update :: received => update :: mempool_updates received
  | Err (RecvLagged missed) :: received => Lagged missed :: mempool_updates received
  | Err RecvClosed :: _ => []
  end.

Inductive MempoolFilterError :=
| TooManyExcludes (actual max : Z)
| ExcludeSuffixTooShort (actual min : Z)
| ExcludeSuffixTooLong (actual max : Z).

Definition check_suffix (config : MempoolConfig) (suffix : list Z) : result (list Z) MempoolFilterError :=
  let len := Z.of_nat (length suffix) in
  if len <? min_exclude_suffix_len config
  then Err (ExcludeSuffixTooShort len (min_exclude_suffix_len config))
  else if max_exclude_suffix_len config <? len
  then Err (ExcludeSuffixTooLong len (max_exclude_suffix_len config))
  else Ok suffix.
Fixpoint check_suffixes (config : MempoolConfig) (l : list (list Z))
    : result (list (list Z)) MempoolFilterError :=
  match l with
  | [] => Ok []
  | suffix :: l =>
      let? suffix := check_suffix config suffix in
      let? l := check_suffixes config l in
      Ok (suffix :: l)
  end.
Definition validate_exclude_suffixes (config : MempoolConfig) (l : list (list Z))
    : result (list (list Z)) MempoolFilterError :=
  let count := Z.of_nat (length l) in
  if max_exclude_count config <? count then Err (TooManyExcludes count (max_exclude_count config))
  else check_suffixes config l.

(** [slice::partition_point]: a binary search for where the predicate turns false. *)
Fixpoint partition_loop {A} (fuel : nat) (pred : A -> bool) (l : list A) (lo hi : nat) : nat :=
  match fuel with
  | O => lo
  | S fuel =>
      if (hi <=? lo)%nat then lo
      else
        let mid := ((lo + hi) / 2)%nat in
        match l !! mid with
        | Some x =>
            if pred x then partition_loop fuel pred l (S mid) hi else partition_loop fuel pred l lo mid
        | None => lo
        end
  end.
Definition partition_point {A} (pred : A -> bool) (l : list A) : nat :=
  partition_loop (length l) pred l 0 (length l).

Definition cmp_rev_prefix (suffix : list Z) (txid : TransactionId) : comparison :=
  bytes_compare (take (length suffix) (reverse txid)) (reverse suffix).
Definition unique_suffix_match (txids_reversed_sorted : list TransactionId) (suffix : list Z)
    : option TransactionId :=
  if (length suffix =? 0)%nat || (32 <? length suffix)%nat then None
  else
    let start := partition_point
      (fun t => match cmp_rev_prefix suffix t with Lt => true | _ => false end) txids_reversed_sorted in
    let! first := txids_reversed_sorted !! start in
    match cmp_rev_prefix suffix first with
    | Eq =>
        match txids_reversed_sorted !! S start with
        | Some second => match cmp_rev_prefix suffix second with Eq => None | _ => Some first end
        | None => Some first
        end
    | _ => None
    end.

Definition excluded_txids (s : MempoolSnapshot) (suffixes : list (list Z)) : gset TransactionId :=
  list_to_set (omap (unique_suffix_match (txids_sorted s)) suffixes).
Definition get_filtered_entries (s : MempoolSnapshot) (suffixes : list (list Z)) : list MempoolEntry :=
  filter (fun e => e_txid e ∉ excluded_txids s suffixes) (entries_in_order s).

(** ** Binary search and suffixes *)

Lemma partition_loop_spec {A} fuel (pred : A -> bool) l lo hi :
  (hi <= length l)%nat -> (hi - lo <= fuel)%nat -> (lo <= hi)%nat ->
  (forall i j x y, (i <= j)%nat -> l !! i = Some x -> l !! j = Some y -> pred y = true -> pred x = true) ->
  (forall i x, (i < lo)%nat -> l !! i = Some x -> pred x = true) ->
  (forall i x, (hi <= i)%nat -> l !! i = Some x -> pred x = false) ->
  forall i x, l !! i = Some x -> pred x = true <-> (i < partition_loop fuel pred l lo hi)%nat.
Proof.
  revert lo hi. induction fuel as [|fuel IH]; intros lo hi Hhi Hf Hle Hmono Hlo Hup i x Hx.
  - cbn. assert (lo = hi) by lia. subst. split; intros Hp.
    + destruct (decide (i < hi)%nat); [done|]. rewrite (Hup i x) in Hp; [done|lia|done].
    + eauto.
  - cbn [partition_loop]. destruct (Nat.leb_spec hi lo) as [Hc|Hc].
    { assert (lo = hi) by lia. subst. split; intros Hp; [|by eauto].
      destruct (decide (i < hi)%nat); [done|]. rewrite (Hup i x) in Hp; [done|lia|done]. }
    assert (lo <= (lo + hi) / 2 < hi)%nat as Hmid.
    { split; [apply Nat.div_le_lower_bound; lia|apply Nat.div_lt_upper_bound; lia]. }
    destruct (lookup_lt_is_Some_2 l ((lo + hi) / 2)%nat) as [y Hy]; [lia|]. rewrite Hy.
    destruct (pred y) eqn:Hpy.
    + apply IH; try done; try lia. intros k z Hk Hz. eapply (Hmono k ((lo + hi) / 2)%nat); eauto; lia.
    + apply IH; try done; try lia. intros k z Hk Hz.
      destruct (pred z) eqn:Hpz; [|done]. rewrite (Hmono ((lo + hi) / 2)%nat k y z) in Hpy; try done.
Qed.

(** On a partitioned list the binary search answers the partition point. *)
Lemma partition_point_spec {A} (pred : A -> bool) l i x :
  (forall i j x y, (i <= j)%nat -> l !! i = Some x -> l !! j = Some y -> pred y = true -> pred x = true) ->
  l !! i = Some x -> pred x = true <-> (i < partition_point pred l)%nat.
Proof.
  intros Hmono. apply partition_loop_spec; try done; try lia.
  intros j y Hj Hy%lookup_lt_Some. lia.
Qed.

Lemma bytes_le_take k a b : bytes_le a b -> bytes_le (take k a) (take k b).
Proof.
  unfold bytes_le. revert a b. induction k as [|k IH]; intros [|x a] [|y b]; cbn; try done.
  destruct (x ?= y); [apply IH|done|done].
Qed.

Lemma suffix_reverse_prefix (s t : list Z) : s `suffix_of` t <-> take (length s) (reverse t) = reverse s.
Proof.
  split.
  - intros [k ->]. rewrite reverse_app, <- (length_reverse s). apply take_app_length.
  - intros Ht. exists (reverse (drop (length s) (reverse t))).
    rewrite <- (reverse_involutive s) at 2. rewrite <- Ht, <- reverse_app.
    by rewrite take_drop, reverse_involutive.
Qed.

Lemma cmp_rev_prefix_Eq s t : cmp_rev_prefix s t = Eq <-> s `suffix_of` t.
Proof. unfold cmp_rev_prefix. rewrite bytes_compare_eq. by rewrite suffix_reverse_prefix. Qed.

(** Along a sorted list, the comparison with a suffix goes from less to greater. *)
Lemma cmp_rev_prefix_mono s a b :
  txid_le a b -> (cmp_rev_prefix s b = Lt -> cmp_rev_prefix s a = Lt) /\
  (cmp_rev_prefix s b = Eq -> cmp_rev_prefix s a <> Gt) /\
  (cmp_rev_prefix s a = Gt -> cmp_rev_prefix s b = Gt).
Proof.
  unfold txid_le, reversed_txid_key, cmp_rev_prefix. intros Hle.
  apply (bytes_le_take (length s)) in Hle.
  set (a' := take (length s) (reverse a)) in *. set (b' := take (length s) (reverse b)) in *.
  set (k := reverse s).
  apply bytes_le_lt in Hle as [->|Hlt]; [by destruct (bytes_compare b' k)|].
  split_and!.
  - by eapply bytes_compare_trans.
  - intros <-%bytes_compare_eq. by rewrite Hlt.
  - intros Hg. pose proof (bytes_compare_antisym a' k) as Ha. rewrite Hg in Ha. cbn in Ha.
    pose proof (bytes_compare_trans _ _ _ Ha Hlt) as Hb.
    rewrite bytes_compare_antisym, Hb. done.
Qed.
End Mempool.
