(* ===== verification/MempoolCorrect.v ===== *)
(** * The mempool read model keeps its promises

    Snapshots are well formed whatever the validator answers; a poll either mirrors
    the listing it read, at a tip that did not move meanwhile, or keeps the set it
    had; the change feed replays to the published set; and the exclude filter's
    binary search finds exactly the uniquely named transactions. *)

From S2P Require Import Prelude Types Persistence Status Mempool.
From stdpp Require Import base gmap list strings sets relations sorting.
From Stdlib Require Import Lia.
Open Scope Z_scope.

Module MempoolCorrect.
Import Bytes.
Import Mempool.

(** ** Totals *)
Definition sumZ (l : list Z) : Z := foldr Z.add 0 l.
Definition total (f : MempoolEntry -> Z) (m : gmap TransactionId MempoolEntry) : Z :=
  sumZ (f <$> (map_to_list m).*2).

Lemma sumZ_perm l1 l2 : l1 ≡ₚ l2 -> sumZ l1 = sumZ l2.
Proof. unfold sumZ. induction 1; cbn in *; lia. Qed.

Lemma sumZ_nonneg l : Forall (Z.le 0) l -> 0 <= sumZ l.
Proof. unfold sumZ. induction 1; cbn in *; lia. Qed.

Lemma total_insert f m (t : TransactionId) e :
  m !! t = None -> total f (<[t := e]> m) = f e + total f m.
Proof.
  intros Hm. unfold total.
  rewrite (sumZ_perm _ (f <$> ((t, e) :: map_to_list m).*2)); [done|].
  do 2 f_equiv. by apply map_to_list_insert.
Qed.

Lemma total_delete f m (t : TransactionId) e :
  m !! t = Some e -> total f m = f e + total f (delete t m).
Proof.
  intros Hm. rewrite <- (total_insert f (delete t m) t e) by apply lookup_delete_eq.
  by rewrite insert_delete_id.
Qed.

Lemma map_total_nonneg f m : (forall e, 0 <= f e) -> 0 <= total f m.
Proof. intros Hf. apply sumZ_nonneg, Forall_fmap, Forall_true. intros e. apply Hf. Qed.

Lemma total_mono f g m : (forall e, f e <= g e) -> total f m <= total g m.
Proof.
  intros Hfg. unfold total, sumZ. induction (map_to_list m).*2 as [|e l IH]; cbn in *; [lia|].
  specialize (Hfg e). lia.
Qed.

(** Entries listed by key have the totals of the map. *)
Lemma total_entries f m (ts : list TransactionId) es :
  ts ≡ₚ (map_to_list m).*1 -> Forall2 (fun t e => m !! t = Some e) ts es ->
  sumZ (f <$> es) = total f m.
Proof.
  intros Hp Hf. unfold total. apply sumZ_perm. f_equiv.
  assert (Forall2 (fun t e => m !! t = Some e) (map_to_list m).*1 (map_to_list m).*2) as Hm.
  { apply Forall2_fmap, Forall_Forall2_diag, Forall_forall. intros [t e] He. by apply elem_of_map_to_list. }
  assert (es = omap (fun t => m !! t) ts) as ->.
  { clear Hp. induction Hf as [|t e ts es Ht _ IH]; [done|]. cbn. rewrite Ht. by f_equal. }
  assert ((map_to_list m).*2 = omap (fun t => m !! t) (map_to_list m).*1) as ->.
  { clear Hp Hf. induction Hm as [|t e ts' es' Ht _ IH]; [done|]. cbn. rewrite Ht. by f_equal. }
  by rewrite Hp.
Qed.

Lemma sum_u64_spec acc l :
  Forall (Z.le 0) l -> acc + sumZ l < 2 ^ 64 -> sum_u64 acc l = Some (acc + sumZ l).
Proof.
  intros Hl. revert acc. induction Hl as [|x l Hx Hl IH]; intros acc Hb; cbn [sum_u64 sumZ foldr] in *.
  { f_equal. unfold sumZ. cbn. lia. }
  pose proof (sumZ_nonneg l Hl) as Hn. change (foldr Z.add 0 l) with (sumZ l) in *.
  rewrite (proj2 (checked_add_Some 64 acc x (acc + x))) by lia. rewrite IH; [f_equal|]; lia.
Qed.

Lemma cost_nonneg e : 0 <= cost e.
Proof. unfold cost, tx_cost, MEMPOOL_TRANSACTION_COST_THRESHOLD. lia. Qed.
Lemma raw_le_cost e : raw_len e <= cost e.
Proof. unfold cost, tx_cost. lia. Qed.

(** ** The loops of a publication *)
Definition insert_all (m : gmap TransactionId MempoolEntry) (es : list MempoolEntry) : gmap TransactionId MempoolEntry :=
  fold_left (fun m e => <[e_txid e := e]> m) es m.
Definition delete_all (m : gmap TransactionId MempoolEntry) (ts : list TransactionId) : gmap TransactionId MempoolEntry :=
  fold_left (fun m t => delete t m) ts m.

Lemma lookup_delete_all m ts t e :
  delete_all m ts !! t = Some e <-> m !! t = Some e /\ t ∉ ts.
Proof.
  revert m. induction ts as [|x ts IH]; intros m; [set_solver|].
  change (delete_all m (x :: ts)) with (delete_all (delete x m) ts).
  rewrite IH, lookup_delete_Some. set_solver.
Qed.

Lemma lookup_insert_all m es t e :
  NoDup (e_txid <$> es) ->
  insert_all m es !! t = Some e <-> e ∈ es /\ e_txid e = t \/ m !! t = Some e /\ t ∉ e_txid <$> es.
Proof.
  revert m. induction es as [|x es IH]; intros m Hnd; [set_solver|].
  cbn [fmap list_fmap] in *. apply NoDup_cons in Hnd as [Hx Hnd].
  change (insert_all m (x :: es)) with (insert_all (<[e_txid x := x]> m) es). rewrite IH by done.
  rewrite lookup_insert_Some, !elem_of_cons. split.
  - intros [[He <-]|[[[<- <-]|[Ht He]] Hn]]; naive_solver.
  - intros [[[->|He] <-]|[He Hn]]; [right; naive_solver|by left|right; naive_solver].
Qed.

Lemma remove_all_spec removed m :
  remove_all removed m (total cost m) = (delete_all m removed, total cost (delete_all m removed)).
Proof.
  revert m. induction removed as [|t removed IH]; intros m; [done|].
  cbn [remove_all]. change (delete_all m (t :: removed)) with (delete_all (delete t m) removed).
  destruct (m !! t) as [e|] eqn:He.
  - rewrite <- IH. f_equal. rewrite (total_delete cost m t e He). unfold saturating_sub.
    pose proof (map_total_nonneg cost (delete t m) cost_nonneg). lia.
  - by rewrite (delete_id m t He).
Qed.

Lemma sublist_in {A} (l1 l2 : list A) x : l1 `sublist_of` l2 -> x ∈ l1 -> x ∈ l2.
Proof. induction 1; set_solver. Qed.

Lemma fmap_sublist_in {A B} (f : A -> B) (l1 l2 : list A) y :
  l1 `sublist_of` l2 -> y ∈ f <$> l1 -> y ∈ f <$> l2.
Proof. intros Hs (x & -> & Hx)%list_elem_of_fmap. by apply list_elem_of_fmap_2, (sublist_in _ _ _ Hs). Qed.

Lemma fmap_sublist_NoDup {A B} (f : A -> B) (l1 l2 : list A) :
  l1 `sublist_of` l2 -> NoDup (f <$> l2) -> NoDup (f <$> l1).
Proof.
  induction 1 as [|x l1 l2 Hs IH|x l1 l2 Hs IH]; cbn; [done| |]; intros [Hx Hn]%NoDup_cons; [|by apply IH].
  apply NoDup_cons. split; [|by apply IH]. contradict Hx. by apply (fmap_sublist_in f _ _ _ Hs).
Qed.

(** The admission loop: the admitted entries, in order, never exceed the bound, and
    every other entry is remembered as refused. *)
Lemma admit_spec bound entries m refused :
  0 <= bound < 2 ^ 64 - 1 -> NoDup (e_txid <$> entries) ->
  (forall e, e ∈ entries -> m !! e_txid e = None) ->
  exists refused' applied,
    admit_entries bound (total cost m) m refused entries = Some (insert_all m applied, refused', applied) /\
    applied `sublist_of` entries /\
    total cost (insert_all m applied) <= Z.max bound (total cost m) /\
    (forall t, is_Some (refused' !! t) <->
       is_Some (refused !! t) \/ t ∈ e_txid <$> entries /\ t ∉ e_txid <$> applied).
Proof.
  intros Hb. revert m refused. induction entries as [|e entries IH]; intros m refused Hnd Hm.
  { exists refused, []. split_and!; [done|done|cbn; lia|set_solver]. }
  cbn [fmap list_fmap] in Hnd. apply NoDup_cons in Hnd as [He Hnd].
  cbn [admit_entries]. unfold saturating_add, umax.
  pose proof (cost_nonneg e). pose proof (map_total_nonneg cost m cost_nonneg).
  destruct (Z.ltb_spec bound (Z.min (2 ^ 64 - 1) (total cost m + cost e))) as [Hc|Hc].
  - destruct (IH m (<[e_txid e := cost e]> refused) Hnd) as (r & applied & -> & Hsub & Ht & Hr).
    { intros e' He'. apply Hm. by right. }
    exists r, applied. split_and!; [done|by constructor|done|].
    intros t. rewrite Hr, lookup_insert_is_Some'. cbn [fmap list_fmap]. rewrite elem_of_cons.
    assert (e_txid e ∉ e_txid <$> applied) as Hn.
    { contradict He. by apply (fmap_sublist_in e_txid _ _ _ Hsub). }
    naive_solver.
  - rewrite (proj2 (checked_add_Some 64 (total cost m) (cost e) (total cost m + cost e))) by lia.
    assert (total cost m + cost e = total cost (<[e_txid e := e]> m)) as ->.
    { rewrite total_insert by (apply Hm; by left). lia. }
    destruct (IH (<[e_txid e := e]> m) refused Hnd) as (r & applied & -> & Hsub & Ht & Hr).
    { intros e' He'. rewrite lookup_insert_ne; [by apply Hm; right|].
      intros Heq. apply He. rewrite Heq. by apply list_elem_of_fmap_2. }
    exists r, (e :: applied). split_and!; [done|by constructor| |].
    + cbn [insert_all fold_left]. unfold insert_all in Ht. rewrite total_insert in Ht by (apply Hm; by left). lia.
    + intros t. rewrite Hr. cbn [fmap list_fmap]. set_solver.
Qed.

(** ** Well-formed snapshots *)
Definition keyed (m : gmap TransactionId MempoolEntry) : Prop :=
  forall t e, m !! t = Some e -> e_txid e = t /\ raw_len e = Z.of_nat (length (serialized_tx e)).

Record set_ok (s : MempoolSnapshot) : Prop := {
  ok_keyed : keyed (by_txid s);
  ok_txids : txids_sorted s ≡ₚ (map_to_list (by_txid s)).*1;
  ok_sorted : StronglySorted txid_le (txids_sorted s);
  ok_entries : Forall2 (fun t e => by_txid s !! t = Some e) (txids_sorted s) (entries_in_order s);
  ok_count : tx_count s = Z.of_nat (size (by_txid s));
  ok_raw : raw_bytes s = total raw_len (by_txid s);
  ok_cost : cost_bytes s = total cost (by_txid s) }.

Record snap_ok (s : MempoolSnapshot) : Prop := {
  ok_set : set_ok s;
  ok_whole : completeness s = Complete -> unadmitted s = ∅;
  ok_missing : forall t, t ∈ unadmitted s -> by_txid s !! t = None;
  ok_untagged : source_tip s = None -> by_txid s = ∅ /\ unadmitted s = ∅ }.

Global Instance txid_le_total : Total txid_le.
Proof. intros a b. apply bytes_le_total. Qed.
Global Instance txid_le_trans : Transitive txid_le.
Proof. intros a b c. unfold txid_le. apply (transitivity (R := bytes_le)). Qed.

Lemma short_only_spec c u : short_only_if_incomplete c u = true <-> (c = Complete -> u = ∅).
Proof.
  unfold short_only_if_incomplete. rewrite orb_true_iff, negb_true_iff, bool_decide_eq_true, bool_decide_eq_false.
  destruct (decide (u = ∅)); naive_solver.
Qed.

Lemma empty_ok : snap_ok empty.
Proof.
  split; try done. split; try done. constructor.
Qed.

Section Iteration.
Context `{HashIter}.

Lemma from_entries_spec prev m tip c u :
  keyed m -> total cost m < 2 ^ 64 -> (c = Complete -> u = ∅) ->
  exists s, from_entries prev m tip c u = Some s /\ set_ok s /\
    source_tip s = tip /\ by_txid s = m /\ completeness s = c /\ unadmitted s = u /\
    mempool_generation s = saturating_add 64 (mempool_generation prev) 1 /\
    event_sequence s = saturating_add 64 (event_sequence prev) 1.
Proof.
  intros Hk Ht Hc. unfold from_entries.
  rewrite (proj2 (short_only_spec c u) Hc). cbn [negb].
  set (ts := merge_sort txid_le (keys m)).
  assert (ts ≡ₚ (map_to_list m).*1) as Hp.
  { unfold ts, keys. by rewrite merge_sort_Permutation, hiter_perm. }
  assert (exists es, mapM (fun t => m !! t) ts = Some es) as [es Hes].
  { destruct (mapM (fun t => m !! t) ts) as [es|] eqn:Hn; [by eauto|].
    apply mapM_None_1, Exists_exists in Hn as (t & Hin & Hnone).
    rewrite Hp, list_elem_of_fmap in Hin. destruct Hin as ([t' e] & -> & Hin%elem_of_map_to_list).
    cbn in Hnone. congruence. }
  rewrite Hes. apply mapM_Some in Hes as Hf.
  pose proof (total_entries raw_len m ts es Hp Hf) as Hraw.
  pose proof (total_entries cost m ts es Hp Hf) as Hcost.
  assert (Forall (fun e => 0 <= raw_len e) es) as Hpos.
  { apply Forall_forall. intros e He. apply list_elem_of_lookup in He as [i Hi].
    destruct (Forall2_lookup_r _ _ _ _ _ Hf Hi) as (t & _ & Hte). apply Hk in Hte. lia. }
  pose proof (total_mono raw_len cost m raw_le_cost).
  rewrite (sum_u64_spec 0 (raw_len <$> es)); [|by apply Forall_fmap|lia].
  rewrite (sum_u64_spec 0 (cost <$> es)); [|apply Forall_fmap, Forall_true; intros; apply cost_nonneg|lia].
  eexists. split; [done|]. split; [|done].
  split; cbn; try done; try lia. apply StronglySorted_merge_sort; apply _.
Qed.
End Iteration.

Lemma retag_spec s tip c u :
  (c = Complete -> u = ∅) ->
  retag s tip c u = Some (mkSnapshot tip (mempool_generation s) (saturating_add 64 (event_sequence s) 1)
    (by_txid s) (txids_sorted s) (entries_in_order s) (tx_count s) (raw_bytes s) (cost_bytes s) c u).
Proof. intros Hc. unfold retag. by rewrite (proj2 (short_only_spec c u) Hc). Qed.

Lemma retag_set_ok s tip c u gen seq :
  set_ok s -> set_ok (mkSnapshot tip gen seq (by_txid s) (txids_sorted s) (entries_in_order s) (tx_count s)
    (raw_bytes s) (cost_bytes s) c u).
Proof. intros []. by split. Qed.

Lemma completeness_for_spec st : completeness_for st = Complete <-> poll_unadmitted st = ∅.
Proof.
  unfold completeness_for, poll_unadmitted. destruct (bool_decide_reflect (refused st = ∅)) as [->|Hr]; cbn.
  - rewrite dom_empty_L, (left_id_L ∅ (∪)). by destruct (bool_decide_reflect (deferred st = ∅)).
  - split; [done|]. intros Hu. contradict Hr. apply dom_empty_iff_L. set_solver.
Qed.

Lemma completeness_for_right st : may_be_wrong (completeness_for st) = false.
Proof. unfold completeness_for. by repeat case_match. Qed.

(** ** The exclude filter *)
Lemma sorted_lookup (l : list TransactionId) i j x y :
  StronglySorted txid_le l -> (i <= j)%nat -> l !! i = Some x -> l !! j = Some y -> txid_le x y.
Proof.
  intros Hs. revert i j. induction Hs as [|a l _ IH Ha]; intros [|i] [|j] Hij Hx Hy; cbn in *; try done; try lia.
  - simplify_eq. apply bytes_le_refl.
  - simplify_eq. rewrite Forall_forall in Ha. by apply Ha, (list_elem_of_lookup_2 _ j).
  - apply (IH i j); [lia|done|done].
Qed.

(** The binary search answers the one id with the suffix, if there is just one. *)
Lemma unique_suffix_match_spec l suffix t :
  StronglySorted txid_le l -> NoDup l ->
  unique_suffix_match l suffix = Some t <->
  (1 <= length suffix <= 32)%nat /\ t ∈ l /\ suffix `suffix_of` t /\
  forall t', t' ∈ l -> suffix `suffix_of` t' -> t' = t.
Proof.
  intros Hs Hnd. unfold unique_suffix_match.
  destruct (Nat.eqb_spec (length suffix) 0) as [|H0]; [cbn; split; [done|lia]|].
  destruct (Nat.ltb_spec 32 (length suffix)) as [|H32]; [cbn; split; [done|lia]|]. cbn [orb].
  set (pred := fun t => match cmp_rev_prefix suffix t with Lt => true | _ => false end).
  set (n := partition_point pred l).
  assert (forall i x, l !! i = Some x -> cmp_rev_prefix suffix x = Lt <-> (i < n)%nat) as Hn.
  { intros i x Hx. unfold n. rewrite <- (partition_point_spec pred l i x); [|..|done].
    - unfold pred. by destruct (cmp_rev_prefix suffix x).
    - intros i' j x' y Hij Hx' Hy Hp. unfold pred in *. destruct (cmp_rev_prefix suffix y) eqn:Hc; try done.
      by rewrite (proj1 (cmp_rev_prefix_mono suffix x' y (sorted_lookup l i' j x' y Hs Hij Hx' Hy)) Hc). }
  split.
  - intros Hm. destruct (l !! n) as [first|] eqn:Hfirst; [|done].
    destruct (cmp_rev_prefix suffix first) eqn:Hc; try done.
    assert (first = t /\ forall y, l !! S n = Some y -> cmp_rev_prefix suffix y = Gt) as [<- Hsnd].
    { destruct (l !! S n) as [second|] eqn:Hsec; [|by simplify_eq].
      pose proof (proj1 (Hn (S n) second Hsec)) as Hlt.
      destruct (cmp_rev_prefix suffix second) eqn:Hc2; simplify_eq; [|naive_solver].
      specialize (Hlt eq_refl). lia. }
    split; [lia|]. split; [by apply (list_elem_of_lookup_2 _ n)|]. split; [by apply cmp_rev_prefix_Eq|].
    intros t' [k Hk]%list_elem_of_lookup Ht'%cmp_rev_prefix_Eq.
    assert (n <= k)%nat. { destruct (decide (k < n)%nat) as [Hlt|]; [|lia]. apply (Hn k t' Hk) in Hlt. congruence. }
    destruct (decide (k = n)) as [->|]; [congruence|].
    destruct (lookup_lt_is_Some_2 l (S n)) as [y Hy]. { apply lookup_lt_Some in Hk. lia. }
    destruct (cmp_rev_prefix_mono suffix y t') as (_ & _ & Hgt); [by apply (sorted_lookup l (S n) k); [|lia|..]|].
    rewrite Hgt in Ht'; [done|]. by apply Hsnd.
  - intros (_ & [k Hk]%list_elem_of_lookup & Ht%cmp_rev_prefix_Eq & Huniq).
    assert (n <= k)%nat. { destruct (decide (k < n)%nat) as [Hlt|]; [|lia]. apply (Hn k t Hk) in Hlt. congruence. }
    destruct (lookup_lt_is_Some_2 l n) as [first Hfirst]. { apply lookup_lt_Some in Hk. lia. }
    assert (forall i x, l !! i = Some x -> cmp_rev_prefix suffix x = Eq -> i = k) as Hidx.
    { intros i x Hx Hc%cmp_rev_prefix_Eq. rewrite (Huniq x) in Hx; [|by apply (list_elem_of_lookup_2 _ i)|done].
      by eapply NoDup_lookup. }
    assert (n = k) as ->.
    { apply (Hidx n first Hfirst). pose proof (proj1 (Hn n first Hfirst)) as Hlt.
      destruct (cmp_rev_prefix_mono suffix first t) as (_ & Hge & _); [by apply (sorted_lookup l n k)|].
      destruct (cmp_rev_prefix suffix first); [done|specialize (Hlt eq_refl); lia|by destruct (Hge Ht)]. }
    rewrite Hk, Ht. destruct (l !! S k) as [second|] eqn:Hsec; [|done].
    destruct (cmp_rev_prefix suffix second) eqn:Hc; try done. apply (Hidx _ _ Hsec) in Hc. lia.
Qed.

Lemma filtered_spec s suffixes e :
  set_ok s ->
  e ∈ get_filtered_entries s suffixes <->
  by_txid s !! e_txid e = Some e /\
  forall suffix, suffix ∈ suffixes -> (1 <= length suffix <= 32)%nat -> suffix `suffix_of` e_txid e ->
    exists t, t <> e_txid e /\ is_Some (by_txid s !! t) /\ suffix `suffix_of` t.
Proof.
  intros [Hk Hts Hs He _ _ _].
  assert (forall t, t ∈ txids_sorted s <-> is_Some (by_txid s !! t)) as Hin.
  { intros t. rewrite Hts, list_elem_of_fmap. split.
    - intros ([t' e'] & -> & ?%elem_of_map_to_list). eauto.
    - intros [e' ?]. exists (t, e'). by rewrite elem_of_map_to_list. }
  assert (NoDup (txids_sorted s)) as Hnd by (rewrite Hts; apply NoDup_fst_map_to_list).
  assert (e ∈ entries_in_order s <-> by_txid s !! e_txid e = Some e) as Hmem.
  { split.
    - intros [i Hi]%list_elem_of_lookup. destruct (Forall2_lookup_r _ _ _ _ _ He Hi) as (t & _ & Ht).
      by destruct (Hk t e Ht) as [-> _].
    - intros Hb. pose proof (proj2 (Hin (e_txid e)) (mk_is_Some _ _ Hb)) as [i Hi]%list_elem_of_lookup.
      destruct (Forall2_lookup_l _ _ _ _ _ He Hi) as (e' & He' & Hb'). simplify_eq.
      by apply (list_elem_of_lookup_2 _ i). }
  unfold get_filtered_entries. rewrite list_elem_of_filter, <- Hmem.
  assert (e_txid e ∈ excluded_txids s suffixes <-> exists suffix, suffix ∈ suffixes /\
    unique_suffix_match (txids_sorted s) suffix = Some (e_txid e)) as Hex.
  { unfold excluded_txids. by rewrite elem_of_list_to_set, list_elem_of_omap. }
  enough (e ∈ entries_in_order s -> e_txid e ∉ excluded_txids s suffixes <->
    forall suffix, suffix ∈ suffixes -> (1 <= length suffix <= 32)%nat -> suffix `suffix_of` e_txid e ->
    exists t, t <> e_txid e /\ is_Some (by_txid s !! t) /\ suffix `suffix_of` t) by tauto.
  intros Hine. rewrite Hex. split.
  - intros Hno suffix Hsu Hlen Hsuf. destruct (decide (Exists (fun t => t <> e_txid e /\ suffix `suffix_of` t) (txids_sorted s)))
      as [(t & Ht & ? & ?)%Exists_exists|Hall]; [exists t; by rewrite <- Hin|].
    exfalso. apply Hno. exists suffix. split; [done|]. apply unique_suffix_match_spec; [done|done|].
    split; [done|]. split; [apply Hin; exists e; by apply Hmem|]. split; [done|]. intros t' Ht' Hsuf'.
    destruct (decide (t' = e_txid e)); [done|]. exfalso. apply Hall, Exists_exists. eauto.
  - intros Hall (suffix & Hsu & (Hlen & _ & Hsuf & Huniq)%unique_suffix_match_spec); [|done|done].
    destruct (Hall suffix Hsu Hlen Hsuf) as (t & Hne & Ht & Hst). by apply Hne, Huniq; [apply Hin|].
Qed.

(** ** The change feed *)

(** What a consumer of the feed does to its own copy of the set. *)
Definition replay_one (m : gmap TransactionId MempoolEntry) (u : MempoolUpdate) : gmap TransactionId MempoolEntry :=
  match u with
  | Added _ e => <[e_txid e := e]> m
  | Removed _ t => delete t m
  | _ => m
  end.
Definition replay (m : gmap TransactionId MempoolEntry) (l : list MempoolUpdate) : gmap TransactionId MempoolEntry :=
  fold_left replay_one l m.
Definition sequence_of (u : MempoolUpdate) : option Z :=
  match u with
  | Added n _ | Removed n _ | Reset n | Closing n => Some n
  | Lagged _ => None
  end.

Lemma replay_app m l1 l2 : replay m (l1 ++ l2) = replay (replay m l1) l2.
Proof. apply fold_left_app. Qed.
Lemma replay_removed n m ts : replay m (Removed n <$> ts) = delete_all m ts.
Proof. revert m. induction ts as [|t ts IH]; intros m; [done|]. apply IH. Qed.
Lemma replay_added n m es : replay m (Added n <$> es) = insert_all m es.
Proof. revert m. induction es as [|e es IH]; intros m; [done|]. apply IH. Qed.

Section Service.
Context `{HashIter, ParOrder, TieHash} {W : Type} (Out : Outside W) (config : MempoolConfig) (salt bound : Z).

(** What the outside promises: a listing names each transaction once, and the
    configured bound is below the ends of the 64-bit range. *)
Class OutsideOk : Prop := {
  listing_distinct : forall w txids w', get_mempool_txids Out w = (Ok txids, w') -> NoDup txids;
  bound_range : forall w b w', max_cost_bytes Out w = (b, w') -> 0 <= b <= bound;
  bound_fits : bound < 2 ^ 64 - 1 }.
Context `{!OutsideOk}.

Notation service := (@MempoolService W).
Implicit Types s : service.

(** Total correctness of an operation: it does not panic, and its result and the
    service after it satisfy [Q]. *)
Definition wp {A} (m : M A) (Q : A -> service -> Prop) (s : service) : Prop :=
  match m s with Some (x, s') => Q x s' | None => False end.

Lemma pool_mono {A} (m : M A) (Q Q' : A -> service -> Prop) s :
  wp m Q s -> (forall x s', Q x s' -> Q' x s') -> wp m Q' s.
Proof. unfold wp. destruct (m s) as [[x s']|]; naive_solver. Qed.
Lemma pool_bind {A B} (m : M A) (f : A -> M B) Q s : wp m (fun x => wp (f x) Q) s -> wp (bind m f) Q s.
Proof. unfold wp, bind. by destruct (m s) as [[x s']|]. Qed.
Lemma pool_ask {A} (q : W -> A * W) (Q : A -> service -> Prop) s :
  (forall x w, q (outside s) = (x, w) -> Q x (mkService (current s) (updates s) (status s) (poll s) w)) ->
  wp (ask q) Q s.
Proof. unfold wp, ask. destruct (q (outside s)). eauto. Qed.

(** The invariant: the published snapshot is well formed and within the bound, and
    what the writer remembers as not admitted is not in it. *)
Record inv (s : service) : Prop := {
  inv_snap : snap_ok (current s);
  inv_cost : cost_bytes (current s) <= bound;
  inv_short : forall t, t ∈ poll_unadmitted (poll s) -> by_txid (current s) !! t = None }.

Definition quiet s s' : Prop := current s' = current s /\ updates s' = updates s.

(** One publication at most, and the feed tells it. *)
Definition fed s s' : Prop :=
  exists l, updates s' = updates s ++ l /\ replay (by_txid (current s)) l = by_txid (current s') /\
    (l = [] -> current s' = current s) /\
    (l <> [] -> last l = Some (Reset (event_sequence (current s'))) /\
       event_sequence (current s') = saturating_add 64 (event_sequence (current s)) 1 /\
       Forall (fun u => sequence_of u = Some (event_sequence (current s'))) l).

Definition same_set (c c' : MempoolSnapshot) : Prop :=
  by_txid c' = by_txid c /\ source_tip c' = source_tip c /\
  mempool_generation c' = mempool_generation c /\ unadmitted c' = unadmitted c.

Definition degraded s s' : Prop :=
  completeness (current s') = IncompleteSourceError /\ same_set (current s) (current s') /\ fed s s'.

Lemma quiet_refl s : quiet s s.
Proof. done. Qed.
Lemma quiet_trans s1 s2 s3 : quiet s1 s2 -> quiet s2 s3 -> quiet s1 s3.
Proof. unfold quiet. intros [-> ->] [-> ->]. done. Qed.
Lemma quiet_fed s s' : quiet s s' -> fed s s'.
Proof. intros [Hc Hu]. exists []. rewrite Hc, Hu, app_nil_r. done. Qed.
Lemma fed_quiet s1 s2 s3 : quiet s1 s2 -> fed s2 s3 -> fed s1 s3.
Proof. unfold quiet, fed. intros [-> ->]. done. Qed.
Lemma degraded_quiet s1 s2 s3 : quiet s1 s2 -> degraded s2 s3 -> degraded s1 s3.
Proof.
  intros Hq (Hc & Hs & Hf). split; [done|]. split; [|by eapply fed_quiet].
  destruct Hq as [Hq _]. by rewrite <- Hq.
Qed.

Lemma quiet_inv s s' :
  inv s -> quiet s s' -> (forall t, t ∈ poll_unadmitted (poll s') -> by_txid (current s) !! t = None) -> inv s'.
Proof. intros [] [Hc _] Hp. by split; rewrite ?Hc. Qed.

Lemma publish_source_error_spec s :
  inv s -> wp publish_source_error (fun _ s' => degraded s s' /\ poll s' = poll s /\ inv s') s.
Proof.
  intros [Hs Hc Hp]. unfold publish_source_error, wp, bind, get. cbn.
  destruct (bool_decide_reflect (completeness (current s) = IncompleteSourceError)) as [He|He].
  { cbn. split; [|done]. split; [done|]. split; [done|]. by apply quiet_fed. }
  unfold panic_if_none. rewrite retag_spec by done. cbn.
  split; [|split; [done|]].
  - split; [done|]. split; [done|]. eexists [_]. split; [done|]. split; [done|].
    split; [done|]. intros _. split_and!; [done|done|by repeat constructor].
  - destruct Hs as [Hset Hw Hm Hu]. split; cbn; try done. split; cbn; try done.
    by apply retag_set_ok.
Qed.

Lemma source_error_spec s : inv s -> wp source_error (fun _ s' => degraded s s' /\ inv s') s.
Proof.
  intros Hi. unfold source_error. apply pool_bind. unfold wp at 1. cbn.
  eapply pool_mono; [apply publish_source_error_spec|].
  - by apply (quiet_inv s); [|split|apply Hi].
  - intros _ s' (Hd & _ & Hi'). split; [|done]. by eapply degraded_quiet.
Qed.

Definition same_memo (st st' : PollState) : Prop := refused st' = refused st /\ deferred st' = deferred st.
Definition tip_answered (tip : BlockRef) : Prop :=
  exists w answer w', get_mempool_source_tip Out w = (Ok answer, w') /\ from_tip answer = tip.

(** Why a poll may come to nothing: the tip was not answered as [tip] again, the
    metadata listing failed, or a transaction's bytes could not be read. *)
Definition disturbed (tip : BlockRef) : Prop :=
  (exists w r w', get_mempool_source_tip Out w = (r, w') /\ forall a, r = Ok a -> from_tip a <> tip) \/
  (exists w x w', get_mempool_metadata Out w = (Err x, w')) \/
  (exists t w w', get_raw_mempool_transaction Out t w = (Err NonDomain, w')).

Lemma tip_is_stable_spec tip s :
  inv s -> wp (tip_is_stable Out tip) (fun b s' =>
    inv s' /\ same_memo (poll s) (poll s') /\
    if b : bool then quiet s s' /\ tip_answered tip
    else disturbed tip /\ (quiet s s' \/ degraded s s')) s.
Proof.
  intros Hi. unfold tip_is_stable. apply pool_bind, pool_ask. intros answer w Hask.
  set (s1 := mkService _ _ _ _ w).
  assert (forall st, same_memo (poll s) st ->
    inv (mkService (current s) (updates s) (status s) st w)) as Hi1.
  { intros st [Hr Hd]. apply (quiet_inv s); [done|done|]. intros t. unfold poll_unadmitted. cbn.
    rewrite Hr, Hd. apply Hi. }
  destruct (match answer with Ok t => bool_decide (from_tip t = tip) | Err _ => false end) eqn:Hst.
  - unfold wp. cbn. split; [by apply Hi1|]. split; [done|]. split; [done|].
    destruct answer as [answer|]; [|done]. apply bool_decide_eq_true in Hst. exists (outside s), answer, w. done.
  - assert (disturbed tip) as Hdist.
    { left. exists (outside s), answer, w. split; [done|]. intros a ->. by apply bool_decide_eq_false in Hst. }
    apply pool_bind. unfold wp at 1. cbn. apply pool_bind. unfold wp at 1. cbn. case_if.
    + apply pool_bind. eapply pool_mono; [apply publish_source_error_spec, Hi1; done|].
      intros _ s' (Hd & Hp & Hi'). unfold wp. cbn. split; [done|]. split; [by rewrite Hp|].
      split; [done|]. right. by eapply degraded_quiet.
    + unfold wp. cbn. split; [by apply Hi1|]. split; [done|]. split; [done|]. by left.
Qed.

(** *** What a poll learnt from the validator *)

(** The transaction left the mempool while the poll was reading it. *)
Definition raced (t : TransactionId) : Prop :=
  (exists w ms w', get_mempool_metadata Out w = (Ok ms, w') /\ t ∉ m_txid <$> ms) \/
  (exists w x w', get_raw_mempool_transaction Out t w = (Err (NotFound x), w')).
Definition listed (meta : MempoolTxMeta) : Prop :=
  exists w ms w', get_mempool_metadata Out w = (Ok ms, w') /\ meta ∈ ms.
(** The entry holds the bytes and the metadata the validator answered for it. *)
Definition fetched (gen : Z) (e : MempoolEntry) : Prop :=
  (exists w w', get_raw_mempool_transaction Out (e_txid e) w = (Ok (serialized_tx e), w')) /\
  (exists meta, listed meta /\ m_txid meta = e_txid e /\ m_entry_height meta = entry_height e /\
     m_entry_time meta = entry_time e) /\
  raw_len e = Z.of_nat (length (serialized_tx e)) /\ first_seen_generation e = gen.

(** The published snapshot is the listing's, at a tip that held across the poll. *)
Record mirrors (tip : BlockRef) (txids : list TransactionId) s s' : Prop := {
  mi_tag : source_tip (current s') = Some tip;
  mi_right : may_be_wrong (completeness (current s')) = false;
  mi_sound : forall t, is_Some (by_txid (current s') !! t) \/ t ∈ unadmitted (current s') -> t ∈ txids;
  mi_complete : forall t, t ∈ txids ->
    is_Some (by_txid (current s') !! t) \/ t ∈ unadmitted (current s') \/ raced t;
  mi_kept : forall t e, by_txid (current s) !! t = Some e -> t ∈ txids -> by_txid (current s') !! t = Some e;
  mi_new : forall t e, by_txid (current s') !! t = Some e ->
    by_txid (current s) !! t = Some e \/
    by_txid (current s) !! t = None /\ fetched (mempool_generation (current s')) e;
  mi_stable : current s' = current s \/ tip_answered tip;
  mi_fed : fed s s' }.

Lemma mirrors_quiet tip txids s1 s2 s3 : quiet s1 s2 -> mirrors tip txids s2 s3 -> mirrors tip txids s1 s3.
Proof.
  intros Hq [? ? ? ? Hk Hn Hs Hf]. pose proof Hq as [Hc _]. rewrite Hc in Hk, Hn, Hs.
  split; try done. by eapply fed_quiet.
Qed.

(** What the writer knows before it publishes: which transactions it holds, is
    about to add, or remembers as not admitted, against the listing. *)
Record planned (txids : list TransactionId) (es : list MempoolEntry) (removed : list TransactionId) s : Prop := {
  pl_memo : forall t, t ∈ poll_unadmitted (poll s) -> t ∈ txids;
  pl_removed : forall t, t ∈ removed <-> is_Some (by_txid (current s) !! t) /\ t ∉ txids;
  pl_cover : forall t, t ∈ txids -> is_Some (by_txid (current s) !! t) \/ t ∈ e_txid <$> es \/
    t ∈ poll_unadmitted (poll s) \/ raced t;
  pl_distinct : NoDup (e_txid <$> es);
  pl_new : forall e, e ∈ es -> e_txid e ∈ txids /\ by_txid (current s) !! e_txid e = None /\
    e_txid e ∉ poll_unadmitted (poll s) /\
    fetched (saturating_add 64 (mempool_generation (current s)) 1) e }.

Lemma publish_retagged_spec txids tip s :
  inv s -> planned txids [] [] s -> tip_answered tip ->
  wp (publish_retagged (current s) (Some tip) (completeness_for (poll s)) (poll_unadmitted (poll s)))
    (fun _ s' => inv s' /\ mirrors tip txids s s') s.
Proof.
  intros [Hs Hc Hp] [Hm Hr Hcov _ _] Hta. unfold publish_retagged, wp, bind, panic_if_none.
  rewrite retag_spec by apply completeness_for_spec. cbn.
  assert (forall t, is_Some (by_txid (current s) !! t) -> t ∈ txids) as Hin.
  { intros t Ht. destruct (decide (t ∈ txids)) as [?|Hn]; [done|].
    by pose proof (proj2 (Hr t) (conj Ht Hn)) as ?%elem_of_nil. }
  split.
  - destruct Hs as [Hset _ _ _]. split; cbn; try done. split; cbn; try done.
    + by apply retag_set_ok.
    + apply completeness_for_spec.
  - split; cbn; try done.
    + apply completeness_for_right.
    + intros t [Ht|Ht]; [by apply Hin|by apply Hm].
    + intros t Ht. destruct (Hcov t Ht) as [?|[?%elem_of_nil|[?|?]]]; [by left|done|by right; left|by right; right].
    + intros t e. by left.
    + by right.
    + eexists [_]. split; [done|]. split; [done|]. split; [done|].
      intros _. split_and!; [done|done|by repeat constructor].
Qed.

Lemma delete_all_keep (txids removed : list TransactionId) m t e :
  (forall t, t ∈ removed <-> is_Some (m !! t) /\ t ∉ txids) ->
  delete_all m removed !! t = Some e <-> m !! t = Some e /\ t ∈ txids.
Proof.
  intros Hr. rewrite lookup_delete_all, Hr. split; intros [Hm Ht]; (split; [done|]).
  - destruct (decide (t ∈ txids)) as [?|Hn]; [done|]. exfalso. apply Ht. eauto.
  - by intros [_ Hn].
Qed.

Lemma total_delete_all m removed : total cost (delete_all m removed) <= total cost m.
Proof.
  revert m. induction removed as [|t removed IH]; intros m; [cbn; lia|].
  change (delete_all m (t :: removed)) with (delete_all (delete t m) removed).
  etrans; [apply IH|]. destruct (m !! t) as [e|] eqn:He.
  - rewrite (total_delete cost m t e He). pose proof (cost_nonneg e). lia.
  - by rewrite delete_id.
Qed.

(** What a publication of a delta leaves: the entries admitted among [es], in
    admission order, the others remembered, and the feed. *)
Record published (tip : BlockRef) (es : list MempoolEntry) (removed : list TransactionId)
    (applied : list MempoolEntry) s s' : Prop := {
  pb_set : set_ok (current s');
  pb_by : by_txid (current s') = insert_all (delete_all (by_txid (current s)) removed) applied;
  pb_tag : source_tip (current s') = Some tip;
  pb_completeness : completeness (current s') = completeness_for (poll s');
  pb_unadmitted : unadmitted (current s') = poll_unadmitted (poll s');
  pb_generation : mempool_generation (current s') = saturating_add 64 (mempool_generation (current s)) 1;
  pb_sequence : event_sequence (current s') = saturating_add 64 (event_sequence (current s)) 1;
  pb_cost : cost_bytes (current s') <= bound;
  pb_applied : (forall e, e ∈ applied -> e ∈ es) /\ NoDup (e_txid <$> applied);
  pb_memo : forall t, t ∈ poll_unadmitted (poll s') <->
    t ∈ poll_unadmitted (poll s) \/ t ∈ e_txid <$> es /\ t ∉ e_txid <$> applied;
  pb_updates : updates s' = updates s ++ (Removed (event_sequence (current s')) <$> removed) ++
    (Added (event_sequence (current s')) <$> applied) ++ [Reset (event_sequence (current s'))] }.

(** The body of [publish_snapshot] when there is a delta. *)
Lemma publish_snapshot_delta current tip es removed :
  ~ (es = [] /\ removed = []) ->
  publish_snapshot Out salt current tip es removed =
    let '(m, c) := remove_all removed (by_txid current) (cost_bytes current) in
    bind (ask (max_cost_bytes Out)) (fun b => bind get (fun s0 =>
      bind (panic_if_none (admit_entries b c m (refused (poll s0)) (merge_sort (entry_le salt) es)))
        (fun '(m, refused, applied) => bind (modify_poll (set_refused refused)) (fun _ => bind get (fun s0 =>
          bind (panic_if_none (from_entries current m tip (completeness_for (poll s0))
                                 (poll_unadmitted (poll s0)))) (fun snap =>
          bind (store snap) (fun _ => bind (send ((Removed (event_sequence snap) <$> removed) ++
            (Added (event_sequence snap) <$> applied) ++ [Reset (event_sequence snap)])) (fun _ =>
          store_status Status.Ready)))))))).
Proof. intros Hne. destruct es as [|e es], removed as [|r removed]; try done. naive_solver. Qed.

Lemma publish_delta_spec tip es removed s :
  inv s -> ~ (es = [] /\ removed = []) -> NoDup (e_txid <$> es) ->
  (forall e, e ∈ es -> by_txid (current s) !! e_txid e = None /\
     raw_len e = Z.of_nat (length (serialized_tx e))) ->
  wp (publish_snapshot Out salt (current s) (Some tip) es removed)
    (fun _ s' => exists applied, published tip es removed applied s s') s.
Proof.
  intros [[Hset _ _ _] Hc Hp] Hne Hd Hn. rewrite publish_snapshot_delta by done.
  rewrite (ok_cost _ Hset), remove_all_spec.
  set (m := delete_all (by_txid (current s)) removed).
  apply pool_bind, pool_ask. intros b w Hb. apply bound_range in Hb. pose proof bound_fits as Hfit.
  pose proof (merge_sort_Permutation (entry_le salt) es) as Hperm.
  set (sorted := merge_sort (entry_le salt) es) in *.
  destruct (admit_spec b sorted m (refused (poll s))) as (refused' & applied & Hadm & Hsub & Htot & Href).
  { lia. } { by rewrite Hperm. }
  { intros e He. rewrite Hperm in He. apply eq_None_not_Some. intros [e' [He' _]%lookup_delete_all].
    destruct (Hn e He). congruence. }
  apply pool_bind. unfold wp at 1, get at 1. cbn -[wp]. apply pool_bind. unfold wp at 1, panic_if_none at 1.
  rewrite Hadm. cbn -[wp]. apply pool_bind. unfold wp at 1, modify_poll, set_poll. cbn -[wp].
  apply pool_bind. unfold wp at 1, get at 1. cbn -[wp]. apply pool_bind. unfold wp at 1, panic_if_none at 1.
  set (st' := set_refused refused' (poll s)).
  assert (NoDup (e_txid <$> applied)) as Hnd by (apply (fmap_sublist_NoDup _ _ _ Hsub); by rewrite Hperm).
  assert (forall e, e ∈ applied -> e ∈ es) as Happ by (intros e He%(sublist_in _ _ _ Hsub); by rewrite Hperm in He).
  pose proof (total_delete_all (by_txid (current s)) removed) as Hdel. fold m in Hdel. pose proof (ok_cost _ Hset).
  destruct (from_entries_spec (current s) (insert_all m applied) (Some tip) (completeness_for st')
    (poll_unadmitted st')) as (snap & -> & Hsnap & Htag & Hby & Hcomp & Hun & Hgen & Hseq).
  { intros t e [[He <-]|[[He _]%lookup_delete_all _]]%lookup_insert_all; [|by apply (ok_keyed _ Hset)|done].
    split; [done|]. by apply Hn, Happ. }
  { lia. } { apply completeness_for_spec. }
  exists applied. split; cbn; try done.
  - rewrite (ok_cost _ Hsnap), Hby. lia.
  - intros t. unfold poll_unadmitted. cbn. rewrite !elem_of_union, !elem_of_dom, Href.
    setoid_rewrite Hperm. naive_solver.
Qed.

Lemma published_lookup txids tip es removed applied s s' t e :
  planned txids es removed s -> published tip es removed applied s s' ->
  by_txid (current s') !! t = Some e <->
  e ∈ applied /\ e_txid e = t \/ by_txid (current s) !! t = Some e /\ t ∈ txids.
Proof.
  intros [_ Hr _ _ Hn] Hpb. destruct (pb_applied _ _ _ _ _ _ Hpb) as [Happ Hnd].
  rewrite (pb_by _ _ _ _ _ _ Hpb), lookup_insert_all by done.
  rewrite (delete_all_keep txids) by done. split; [naive_solver|].
  intros [?|[He Ht]]; [by left|]. right. split; [done|].
  intros (e' & -> & He'%Happ)%list_elem_of_fmap. destruct (Hn e' He') as (_ & Hnone & _). congruence.
Qed.

Lemma published_feed tip es removed applied s s' : published tip es removed applied s s' -> fed s s'.
Proof.
  intros Hpb. eexists. split; [apply (pb_updates _ _ _ _ _ _ Hpb)|]. split.
  - rewrite !replay_app, replay_removed, replay_added. symmetry. apply Hpb.
  - split; [by intros [_ [_ ?]%app_nil]%app_nil|]. intros _. split; [|split; [apply Hpb|]].
    + by rewrite app_assoc, last_snoc.
    + rewrite !Forall_app, !Forall_fmap. split; [by apply Forall_true|]. split; [by apply Forall_true|].
      by repeat constructor.
Qed.

Lemma published_mirrors txids tip es removed applied s s' :
  inv s -> planned txids es removed s -> tip_answered tip -> published tip es removed applied s s' ->
  inv s' /\ mirrors tip txids s s'.
Proof.
  intros [_ _ Hp] Hpl Hta Hpb. pose proof Hpl as [Hm _ Hcov _ Hn].
  pose proof (fun t e => published_lookup txids tip es removed applied s s' t e Hpl Hpb) as Hlook.
  pose proof (published_feed _ _ _ _ _ _ Hpb) as Hfed.
  destruct Hpb as [Hset _ Htag Hcomp Hun Hgen _ Hcost [Happ _] Hmemo _].
  assert (forall t, t ∈ poll_unadmitted (poll s') -> by_txid (current s') !! t = None) as Hdisj.
  { intros t [Ht|[Ht Hna]]%Hmemo; apply eq_None_not_Some; intros [e [[He <-]|[He _]]%Hlook].
    - by destruct (Hn e (Happ e He)) as (_ & _ & ? & _).
    - rewrite (Hp t Ht) in He. done.
    - apply Hna. by apply list_elem_of_fmap_2.
    - apply list_elem_of_fmap in Ht as (e' & -> & He'). destruct (Hn e' He') as (_ & ? & _). congruence. }
  split.
  - split; [|done|done]. split; rewrite ?Hcomp, ?Hun, ?Htag; [done|apply completeness_for_spec|done|done].
  - split; rewrite ?Hun; [done|rewrite Hcomp; apply completeness_for_right| | | | |by right|done].
    + intros t [[e [[He <-]|[_ Ht]]%Hlook]|[Ht|[(e & -> & He)%list_elem_of_fmap _]]%Hmemo].
      * by destruct (Hn e (Happ e He)).
      * done.
      * by apply Hm.
      * by destruct (Hn e He).
    + intros t Ht. rewrite Hmemo. destruct (Hcov t Ht) as [[e He]|[Hin|[Hin|?]]]; [| |by right; left; left|by right; right].
      * left. exists e. apply Hlook. by right.
      * destruct (decide (t ∈ e_txid <$> applied)) as [(e & -> & He)%list_elem_of_fmap|Ha]; [|by right; left; right].
        left. exists e. apply Hlook. by left.
    + intros t e He Ht. apply Hlook. by right.
    + intros t e [[He <-]|[He _]]%Hlook; [right|by left]. rewrite Hgen. by destruct (Hn e (Happ e He)) as (_ & ? & _ & ?).
Qed.

Lemma publish_snapshot_spec txids tip es removed s :
  inv s -> planned txids es removed s -> tip_answered tip ->
  wp (publish_snapshot Out salt (current s) (Some tip) es removed)
    (fun _ s' => inv s' /\ mirrors tip txids s s') s.
Proof.
  intros Hi Hpl Hta. destruct (decide (es = [] /\ removed = [])) as [[-> ->]|Hne].
  { unfold publish_snapshot. apply pool_bind. by apply publish_retagged_spec. }
  eapply pool_mono; [apply publish_delta_spec; [done|done|apply Hpl|]|].
  - intros e He. destruct (pl_new _ _ _ _ Hpl e He) as (_ & ? & _ & _ & _ & ? & _). done.
  - intros _ s' [applied Hpb]. by eapply published_mirrors.
Qed.

(** *** Fetching *)
Definition raw_answer (gen : Z) (meta : MempoolTxMeta) (r : result (option MempoolEntry) unit) : Prop :=
  exists w raw w', get_raw_mempool_transaction Out (m_txid meta) w = (raw, w') /\ r = raw_entry gen meta raw.

Lemma fetch_raw_spec gen metas s :
  wp (fetch_raw Out gen metas) (fun rs s' => quiet s s' /\ poll s' = poll s /\
    Forall2 (raw_answer gen) metas rs) s.
Proof.
  revert s. induction metas as [|meta metas IH]; intros s; cbn [fetch_raw].
  { unfold wp. cbn. split; [apply quiet_refl|]. by split. }
  apply pool_bind, pool_ask. intros raw w Hraw. apply pool_bind. eapply pool_mono; [apply IH|].
  intros rs s' (Hq & Hp & Hf). unfold wp. cbn. split; [by eapply quiet_trans|]. split; [done|].
  constructor; [|done]. by exists (outside s), raw, w.
Qed.

Lemma collect_entries_spec gen metas rs es :
  Forall2 (raw_answer gen) metas rs -> Forall listed metas -> NoDup (m_txid <$> metas) ->
  collect_entries rs = Some es ->
  NoDup (e_txid <$> es) /\ (forall e, e ∈ es -> e_txid e ∈ m_txid <$> metas /\ fetched gen e) /\
  (forall t, t ∈ m_txid <$> metas -> t ∈ e_txid <$> es \/ raced t).
Proof.
  intros Hf. revert es.
  induction Hf as [|meta r metas rs (w & raw & w' & Hraw & ->) Hf IH]; intros es Hl Hnd; cbn -[elem_of].
  { intros [= <-]. split_and!; [constructor|set_solver|set_solver]. }
  apply Forall_cons in Hl as [Hm Hl]. cbn [fmap list_fmap] in Hnd. apply NoDup_cons in Hnd as [Ht Hnd].
  destruct raw as [bytes|[x|]]; cbn [raw_entry]; [|intros Hes|done].
  - destruct (collect_entries rs) as [es'|]; [|done]. intros [= <-].
    destruct (IH es' Hl Hnd eq_refl) as (Hd & He & Hc). cbn [fmap list_fmap e_txid]. split_and!.
    + apply NoDup_cons. split; [|done]. intros (e & Heq & Hin)%list_elem_of_fmap.
      apply Ht. rewrite Heq. by apply He.
    + intros e [->|Hin]%elem_of_cons; cbn; [|split; [right|]; by apply He].
      split; [left|]. split; [by eauto|]. split; [|done]. exists meta. done.
    + intros t [->|Hin]%elem_of_cons; [left; left|]. destruct (Hc t Hin); [left; by right|by right].
  - destruct (IH es Hl Hnd Hes) as (Hd & He & Hc). split_and!; [done| |].
    + intros e Hin. destruct (He e Hin). split; [by right|done].
    + intros t [->|Hin]%elem_of_cons; [|by apply Hc]. right. right. by exists w, x, w'.
Qed.

Lemma collect_entries_None gen metas rs tip :
  Forall2 (raw_answer gen) metas rs -> collect_entries rs = None -> disturbed tip.
Proof.
  intros Hf. induction Hf as [|meta r metas rs (w & raw & w' & Hraw & ->) Hf IH]; cbn; [done|].
  destruct raw as [bytes|[x|]]; cbn [raw_entry]; [|by apply IH|by right; right; eauto].
  destruct (collect_entries rs); [done|]. auto.
Qed.

Lemma fetch_added_spec gen metas tip s :
  Forall listed metas -> NoDup (m_txid <$> metas) ->
  wp (fetch_added_entries_bounded Out metas gen) (fun r s' => quiet s s' /\ poll s' = poll s /\
    (r = None -> disturbed tip) /\
    forall es, r = Some es ->
      NoDup (e_txid <$> es) /\ (forall e, e ∈ es -> e_txid e ∈ m_txid <$> metas /\ fetched gen e) /\
      (forall t, t ∈ m_txid <$> metas -> t ∈ e_txid <$> es \/ raced t)) s.
Proof.
  intros Hl Hnd. unfold fetch_added_entries_bounded. apply pool_bind.
  eapply pool_mono; [apply fetch_raw_spec|]. intros rs s' (Hq & Hp & Hf). unfold wp. cbn.
  split; [done|]. split; [done|]. split; [by eapply collect_entries_None|]. intros es Hes.
  pose proof (par_order_perm metas) as Hperm.
  eapply (collect_entries_spec gen) in Hes as (Hd & He & Hc); [|done|by rewrite Hperm|by rewrite Hperm].
  setoid_rewrite Hperm in He. setoid_rewrite Hperm in Hc. done.
Qed.

(** *** Choosing what to fetch *)
Lemma refuse_all_spec ts r t : is_Some (refuse_all ts r !! t) <-> is_Some (r !! t) \/ t ∈ ts.
Proof.
  unfold refuse_all. revert r. induction ts as [|x ts IH]; intros r; cbn; [set_solver|].
  rewrite IH, lookup_insert_is_Some', elem_of_cons. naive_solver.
Qed.

Lemma meta_map_spec (ms : list MempoolTxMeta) m t x :
  fold_left (fun (m : gmap TransactionId MempoolTxMeta) x => <[m_txid x := x]> m) ms m !! t = Some x ->
  x ∈ ms /\ m_txid x = t \/ m !! t = Some x.
Proof.
  revert m. induction ms as [|y ms IH]; intros m; cbn; [by right|].
  intros [[Hx <-]|Hx]%IH; [left; split; [by right|done]|].
  apply lookup_insert_Some in Hx as [[<- <-]|[_ Hx]]; [left; split; [left|done]|by right].
Qed.

Lemma meta_map_total (ms : list MempoolTxMeta) (m : gmap TransactionId MempoolTxMeta) t :
  is_Some (m !! t) \/ t ∈ m_txid <$> ms ->
  is_Some (fold_left (fun (m : gmap TransactionId MempoolTxMeta) x => <[m_txid x := x]> m) ms m !! t).
Proof.
  revert m. induction ms as [|y ms IH]; intros m; cbn; [set_solver|].
  intros Hor. apply IH. rewrite lookup_insert_is_Some'. revert Hor. rewrite elem_of_cons. naive_solver.
Qed.

Lemma omap_keys_sublist (mm : gmap TransactionId MempoolTxMeta) ts :
  (forall t x, mm !! t = Some x -> m_txid x = t) ->
  m_txid <$> omap (fun t => mm !! t) ts `sublist_of` ts.
Proof.
  intros Hmm. induction ts as [|t ts IH]; [constructor|]. cbn.
  destruct (mm !! t) as [x|] eqn:Hx; [|by constructor]. cbn. rewrite (Hmm t x Hx). by constructor.
Qed.

Record selected (added : list TransactionId) (st st' : PollState) (metas : list MempoolTxMeta) : Prop := {
  se_listed : Forall listed metas;
  se_distinct : NoDup (m_txid <$> metas);
  se_added : forall t, t ∈ m_txid <$> metas -> t ∈ added /\ t ∉ poll_unadmitted st';
  se_memo : forall t, t ∈ poll_unadmitted st' -> t ∈ poll_unadmitted st \/ t ∈ added;
  se_kept : forall t, t ∈ poll_unadmitted st -> t ∈ poll_unadmitted st';
  se_cover : forall t, t ∈ added -> t ∈ m_txid <$> metas \/ t ∈ poll_unadmitted st' \/ raced t }.

Lemma selected_none added st st' :
  (forall t, t ∈ poll_unadmitted st' <-> t ∈ poll_unadmitted st \/ t ∈ added) -> selected added st st' [].
Proof.
  intros Hst. split; [constructor|constructor|by intros t ?%elem_of_nil| | |]; intros t; rewrite ?Hst; naive_solver.
Qed.

(** From an answered metadata listing: the first additions in admission order are
    fetched, the others refused. *)
Lemma selected_listing added n ms st last :
  (exists w w', get_mempool_metadata Out w = (Ok ms, w')) -> NoDup added ->
  (forall t, t ∈ added -> t ∉ poll_unadmitted st) ->
  let mm := fold_left (fun (m : gmap TransactionId MempoolTxMeta) x => <[m_txid x := x]> m) ms ∅ in
  let sorted := merge_sort (meta_le salt) (omap (fun t => mm !! t) added) in
  selected added st
    (set_refused (refuse_all (m_txid <$> drop n sorted) (refused st)) (set_last_fetch last st)) (take n sorted).
Proof.
  intros (w & w' & Hask) Hnd Hfree mm sorted.
  assert (forall t x, mm !! t = Some x -> x ∈ ms /\ m_txid x = t) as Hmm.
  { intros t x [?|Hx]%meta_map_spec; [done|]. by rewrite lookup_empty in Hx. }
  pose proof (merge_sort_Permutation (meta_le salt) (omap (fun t => mm !! t) added)) as Hperm. fold sorted in Hperm.
  assert (m_txid <$> omap (fun t => mm !! t) added `sublist_of` added) as Hsub.
  { apply omap_keys_sublist. intros t x ?%Hmm. naive_solver. }
  assert (forall t, t ∈ m_txid <$> sorted -> t ∈ added) as Hin.
  { intros t. rewrite Hperm. by apply sublist_in. }
  assert (NoDup (m_txid <$> sorted)) as Hds.
  { rewrite Hperm. by eapply sublist_NoDup. }
  assert (m_txid <$> sorted = (m_txid <$> take n sorted) ++ (m_txid <$> drop n sorted)) as Happ.
  { by rewrite <- fmap_app, take_drop. }
  rewrite Happ in Hds, Hin. apply NoDup_app in Hds as (Hd1 & Hd2 & _).
  assert (forall t, t ∈ poll_unadmitted
    (set_refused (refuse_all (m_txid <$> drop n sorted) (refused st)) (set_last_fetch last st)) <->
    t ∈ poll_unadmitted st \/ t ∈ m_txid <$> drop n sorted) as Hun.
  { intros t. unfold poll_unadmitted. cbn. rewrite !elem_of_union, !elem_of_dom, refuse_all_spec. naive_solver. }
  split.
  - apply Forall_take, Forall_forall. intros x Hx. rewrite Hperm in Hx.
    apply list_elem_of_omap in Hx as (t & _ & Hx%Hmm). exists w, ms, w'. naive_solver.
  - done.
  - intros t Ht. split; [apply Hin, elem_of_app; by left|]. rewrite Hun. intros [Hb|Hb].
    + apply (Hfree t); [apply Hin, elem_of_app; by left|done].
    + by apply (Hd2 t).
  - intros t. rewrite Hun. intros [?|Ht]; [by left|right]. apply Hin, elem_of_app. by right.
  - intros t Ht. apply Hun. by left.
  - intros t Ht. destruct (decide (t ∈ m_txid <$> ms)) as [Hms|Hms].
    + destruct (meta_map_total ms ∅ t (or_intror Hms)) as [x Hx]. fold mm in Hx.
      assert (t ∈ m_txid <$> sorted) as Hts.
      { rewrite Hperm. apply list_elem_of_fmap. exists x. split; [by destruct (Hmm t x Hx)|].
        apply list_elem_of_omap. by exists t. }
      rewrite Happ, elem_of_app in Hts. destruct Hts as [?|?]; [by left|right; left]. apply Hun. by right.
    + right; right. left. by exists w, ms, w'.
Qed.

Lemma select_additions_spec added s :
  inv s -> NoDup added -> deferred (poll s) = ∅ ->
  (forall t, t ∈ added -> by_txid (current s) !! t = None /\ t ∉ poll_unadmitted (poll s)) ->
  wp (select_additions Out config salt (current s) added) (fun r s' => inv s' /\
    match r with
    | None => (exists w x w', get_mempool_metadata Out w = (Err x, w')) /\ degraded s s'
    | Some metas => quiet s s' /\ selected added (poll s) (poll s') metas
    end) s.
Proof.
  intros Hi Hnd Hdef Hnew.
  assert (forall st w stat, (forall t, t ∈ poll_unadmitted st -> t ∈ poll_unadmitted (poll s) \/ t ∈ added) ->
    inv (mkService (current s) (updates s) stat st w)) as Hinv.
  { intros st w stat Hst. apply (quiet_inv s); [done|done|]. intros t [Ht|Ht]%Hst; [by apply (inv_short _ Hi)|by apply Hnew]. }
  destruct (decide (added = [])) as [->|Hne].
  { unfold wp. cbn. split; [done|]. split; [apply quiet_refl|]. apply selected_none. set_solver. }
  unfold select_additions. destruct added as [|t0 ts] eqn:Ha; [done|]. rewrite <- Ha in *. clear Hne Ha.
  apply pool_bind, pool_ask. intros b w Hb. case_if; rewrite ?bool_decide_eq_true in *.
  { unfold wp. cbn.
    assert (forall t, t ∈ poll_unadmitted (set_refused (refuse_all added (refused (poll s))) (poll s)) <->
      t ∈ poll_unadmitted (poll s) \/ t ∈ added) as Hun.
    { intros t. unfold poll_unadmitted. cbn. rewrite !elem_of_union, !elem_of_dom, refuse_all_spec. naive_solver. }
    split; [apply Hinv; intros t; apply Hun|]. split; [done|]. by apply selected_none. }
  apply pool_bind. apply pool_mono with (Q := fun b s' => quiet s s' /\ poll s' = poll s).
  { unfold metadata_fetch_is_due. apply pool_bind. unfold wp at 1. cbn.
    destruct (last_metadata_fetch (poll s)); [|done]. apply pool_bind, pool_ask. done. }
  intros due [c1 u1 x1 p1 w1] [[Hc1 Hu1] Hp1]. cbn in Hc1, Hu1, Hp1. subst c1 u1 p1.
  destruct due; cbn [negb].
  2: { unfold wp. cbn.
    assert (forall t, t ∈ poll_unadmitted (set_deferred (list_to_set added) (poll s)) <->
      t ∈ poll_unadmitted (poll s) \/ t ∈ added) as Hun.
    { intros t. unfold poll_unadmitted. cbn. rewrite Hdef. set_solver. }
    split; [apply Hinv; intros t; apply Hun|]. split; [done|]. by apply selected_none. }
  apply pool_bind, pool_ask. intros [ms|x] w2 Hms; cbn in Hms |- *.
  - apply pool_bind, pool_ask. intros t w3 Ht. unfold wp. cbn.
    assert (exists w w', get_mempool_metadata Out w = (Ok ms, w')) as Hask by eauto.
    pose proof (selected_listing added (Z.to_nat (saturating_sub b (cost_bytes (current s)) `div`
      MEMPOOL_TRANSACTION_COST_THRESHOLD)) ms (poll s) t Hask Hnd (fun t Ht => proj2 (Hnew t Ht))) as Hsel.
    split; [apply Hinv, (se_memo _ _ _ _ Hsel)|]. split; [done|]. apply Hsel.
  - apply pool_bind. eapply pool_mono; [apply source_error_spec|].
    + apply Hinv. auto.
    + intros _ s' [Hd Hi']. unfold wp. cbn. split; [done|]. split; [by eauto|]. by eapply degraded_quiet.
Qed.

(** *** One poll *)
Definition outcome (tip : BlockRef) (txids : list TransactionId) s s' : Prop :=
  mirrors tip txids s s' \/ disturbed tip /\ (quiet s s' \/ degraded s s').

Lemma outcome_quiet tip txids s1 s2 s3 : quiet s1 s2 -> outcome tip txids s2 s3 -> outcome tip txids s1 s3.
Proof.
  intros Hq [Hm|[Hx [Hq'|Hd]]]; [left; by eapply mirrors_quiet| |]; right; (split; [done|]).
  - left. by eapply quiet_trans.
  - right. by eapply degraded_quiet.
Qed.

Lemma planned_memo txids es removed s s' :
  current s' = current s -> same_memo (poll s) (poll s') -> planned txids es removed s -> planned txids es removed s'.
Proof.
  intros Hc [Hr Hd] [? ? ? ? ?]. assert (poll_unadmitted (poll s') = poll_unadmitted (poll s)) as Hu.
  { unfold poll_unadmitted. by rewrite Hr, Hd. }
  split; rewrite ?Hc, ?Hu; done.
Qed.

(** Publishing once the tip is known not to have moved. *)
Lemma stable_publish_spec txids tip es removed s :
  inv s -> planned txids es removed s ->
  wp (bind (tip_is_stable Out tip) (fun stable =>
        if stable : bool then publish_snapshot Out salt (current s) (Some tip) es removed else ret tt))
    (fun _ s' => inv s' /\ outcome tip txids s s') s.
Proof.
  intros Hi Hpl. apply pool_bind. eapply pool_mono; [by apply tip_is_stable_spec|].
  intros [] s1 (Hi1 & Hmemo & Hb); cbn in Hb.
  - destruct Hb as [Hq Hta]. assert (current s = current s1) as -> by (symmetry; apply Hq).
    eapply pool_mono; [apply (publish_snapshot_spec txids tip es removed s1); [done| |done]|].
    + apply (planned_memo _ _ _ s); [apply Hq|done|done].
    + intros _ s' [Hi' Hm]. split; [done|]. left. by eapply mirrors_quiet.
  - unfold wp. cbn. split; [done|]. by right.
Qed.

Lemma republish_spec txids tip s :
  inv s -> planned txids [] [] s ->
  wp (republish_if_changed Out salt (current s) tip) (fun _ s' => inv s' /\ outcome tip txids s s') s.
Proof.
  intros Hi Hpl. unfold republish_if_changed. apply pool_bind. unfold wp at 1. cbn -[wp publish_snapshot].
  destruct (_ || _ || _) eqn:Hb; [by apply stable_publish_spec|].
  apply orb_false_iff in Hb as [[Ht%negb_false_iff%bool_decide_eq_true
    Hc%negb_false_iff%bool_decide_eq_true]%orb_false_iff Hu%negb_false_iff%bool_decide_eq_true].
  unfold wp. cbn. split; [by apply (quiet_inv s); [|split|apply Hi]|]. left.
  destruct Hpl as [Hm Hr Hcov _ _]. split; cbn; try done.
  - rewrite Hc. apply completeness_for_right.
  - intros t [Ht'|Ht']; [|rewrite Hu in Ht'; by apply Hm].
    destruct (decide (t ∈ txids)) as [?|Hn]; [done|]. by pose proof (proj2 (Hr t) (conj Ht' Hn)) as ?%elem_of_nil.
  - intros t Hin. rewrite Hu. destruct (Hcov t Hin) as [?|[?%elem_of_nil|[?|?]]]; [by left|done|by right; left|by right; right].
  - by left.
  - by left.
  - apply quiet_fed. done.
Qed.

Lemma retry_spec s :
  wp (retry_refused_that_now_fit Out (current s)) (fun _ s' => quiet s s' /\
    deferred (poll s') = deferred (poll s) /\ refused (poll s') ⊆ refused (poll s)) s.
Proof.
  unfold retry_refused_that_now_fit. apply pool_bind. unfold wp at 1. cbn -[wp]. case_if; [done|].
  apply pool_bind, pool_ask. intros b w _. case_if; [done|]. unfold wp. cbn.
  split; [done|]. split; [done|]. apply map_filter_subseteq.
Qed.

(** The poll has compared the listing with the set and its memo. *)
Record surveyed (txids added removed : list TransactionId) s : Prop := {
  sv_memo : forall t, t ∈ poll_unadmitted (poll s) -> t ∈ txids;
  sv_deferred : deferred (poll s) = ∅;
  sv_removed : forall t, t ∈ removed <-> is_Some (by_txid (current s) !! t) /\ t ∉ txids;
  sv_added : forall t, t ∈ added <-> t ∈ txids /\ by_txid (current s) !! t = None /\
    t ∉ poll_unadmitted (poll s);
  sv_distinct : NoDup added }.

Lemma surveyed_planned txids added removed s s' metas es :
  surveyed txids added removed s -> current s' = current s -> selected added (poll s) (poll s') metas ->
  NoDup (e_txid <$> es) ->
  (forall e, e ∈ es -> e_txid e ∈ m_txid <$> metas /\
     fetched (saturating_add 64 (mempool_generation (current s)) 1) e) ->
  (forall t, t ∈ m_txid <$> metas -> t ∈ e_txid <$> es \/ raced t) ->
  planned txids es removed s'.
Proof.
  intros [Hmemo Hdef Hrem Hadd Hnda] Hc [Hl Hd Ha Hme Hk Hco] Hdes Hes Hces. split; rewrite ?Hc; try done.
  - intros t [?|?%Hadd]%Hme; naive_solver.
  - intros t Ht. destruct (by_txid (current s) !! t) eqn:He; [by left; eauto|right].
    destruct (decide (t ∈ poll_unadmitted (poll s))) as [Hu|Hu]; [right; left; by apply Hk|].
    destruct (Hco t) as [Hm|[?|?]]; [by apply Hadd| |by right; left|by right; right].
    destruct (Hces t Hm); [by left|by right; right].
  - intros e He. destruct (Hes e He) as [Hm Hf]. destruct (Ha _ Hm) as [[? [? ?]]%Hadd ?]. done.
Qed.

Lemma apply_delta_spec txids tip added removed s :
  inv s -> surveyed txids added removed s ->
  wp (apply_delta Out config salt (current s) tip added removed)
    (fun _ s' => inv s' /\ outcome tip txids s s') s.
Proof.
  intros Hi Hsv. unfold apply_delta. case_bool_decide as Hem.
  { destruct Hem as [-> ->]. apply republish_spec; [done|].
    eapply (surveyed_planned _ [] [] s s []); try done; [|constructor|set_solver|set_solver].
    apply selected_none. set_solver. }
  apply pool_bind. eapply pool_mono.
  { apply select_additions_spec; [done|apply Hsv|apply Hsv|]. intros t [? [? ?]]%(sv_added _ _ _ _ Hsv). done. }
  intros [metas|] s1 [Hi1 Hsel]; [|destruct Hsel; unfold wp; cbn; split; [done|]; right; split; [by right; left|by right]].
  destruct Hsel as [Hq Hsel]. pose proof Hq as [Hc1 _].
  apply pool_mono with (Q := fun _ s' => inv s' /\ outcome tip txids s1 s');
    [|intros _ s' [? ?]; split; [done|by eapply outcome_quiet]].
  rewrite <- Hc1. case_bool_decide as Hem1.
  { destruct Hem1 as [-> ->]. apply republish_spec; [done|].
    eapply (surveyed_planned _ added [] s s1 []); try done; [constructor|set_solver|set_solver]. }
  apply pool_bind. eapply pool_mono.
  { apply (fetch_added_spec _ _ tip); [apply (se_listed _ _ _ _ Hsel)|apply (se_distinct _ _ _ _ Hsel)]. }
  intros r s2 (Hq2 & Hp2 & Hnone & Hes). pose proof Hq2 as [Hc2 _].
  assert (inv s2) as Hi2.
  { apply (quiet_inv s1); [done|done|]. rewrite Hp2. apply Hi1. }
  apply pool_mono with (Q := fun _ s' => inv s' /\ outcome tip txids s2 s');
    [|intros _ s' [? ?]; split; [done|by eapply outcome_quiet]].
  destruct r as [es|]; [|eapply pool_mono; [by apply source_error_spec|];
    intros _ s' [? ?]; split; [done|]; right; split; [by apply Hnone|by right]].
  destruct (Hes es eq_refl) as (Hd & He & Hc). rewrite <- Hc2. apply stable_publish_spec; [done|].
  apply (surveyed_planned txids added removed s s2 metas); [done|by rewrite Hc2|by rewrite Hp2|done| |done].
  by rewrite Hc1 in He.
Qed.

Lemma apply_poll_spec tip txids s :
  inv s -> NoDup txids -> wp (apply_poll Out config salt tip txids) (fun _ s' => inv s' /\ outcome tip txids s s') s.
Proof.
  intros Hi Hnd. unfold apply_poll. apply pool_bind. unfold wp at 1. cbn -[wp].
  apply pool_bind. unfold wp at 1. cbn -[wp].
  set (s0 := mkService (current s) _ _ _ _). change (current s) with (current s0) at 1.
  apply pool_bind. eapply pool_mono; [apply retry_spec|]. intros _ s1 (Hq1 & Hd1 & Hr1).
  apply pool_bind. unfold wp at 1. cbn -[wp]. apply pool_bind. unfold wp at 1. cbn -[wp].
  set (s2 := mkService (current s1) _ _ _ _).
  assert (quiet s s2) as Hq by (by apply (quiet_trans s s0); [|apply (quiet_trans s0 s1)]).
  assert (forall t, t ∈ poll_unadmitted (poll s2) -> t ∈ txids /\ t ∈ poll_unadmitted (poll s)) as Hmemo.
  { intros t. unfold poll_unadmitted. cbn. rewrite !elem_of_union, !elem_of_dom.
    intros [[c Hc]|?%elem_of_empty]; [|done].
    apply (lookup_weaken _ _ _ _ Hc) in Hr1. cbn in Hr1. apply map_lookup_filter_Some in Hr1 as [Hr1 Hin]. cbn in Hin.
    split; [set_solver|]. left. eauto. }
  assert (inv s2) as Hi2.
  { apply (quiet_inv s); [done|done|]. intros t [_ Ht]%Hmemo. by apply (inv_short _ Hi). }
  assert (current s = current s2) as -> by (symmetry; apply Hq).
  eapply pool_mono; [apply (apply_delta_spec txids); [done|]|].
  - split; [intros t; apply Hmemo|done| | |by apply NoDup_filter].
    + intros t. rewrite list_elem_of_filter, elem_of_keys, elem_of_list_to_set. naive_solver.
    + intros t. rewrite list_elem_of_filter. unfold poll_unadmitted. cbn.
      rewrite elem_of_union, elem_of_dom, (eq_None_not_Some (refused (poll s1) !! t)). set_solver.
  - intros _ s' [? ?]. split; [done|]. by eapply outcome_quiet.
Qed.

(** The answers a poll opens with. *)
Definition listing (w : W) (tip : BlockRef) (txids : list TransactionId) : Prop :=
  exists answer w1 w2, get_mempool_source_tip Out w = (Ok answer, w1) /\ from_tip answer = tip /\
    get_mempool_txids Out w1 = (Ok txids, w2).

Lemma tick_spec s :
  inv s -> wp (tick Out config salt) (fun _ s' => inv s' /\
    ((exists tip txids, listing (outside s) tip txids /\ outcome tip txids s s') \/
     (forall tip txids, ~ listing (outside s) tip txids) /\ degraded s s')) s.
Proof.
  intros Hi. assert (forall w, inv (mkService (current s) (updates s) (status s) (poll s) w)) as Hinv.
  { intros w. apply (quiet_inv s); [done|done|apply Hi]. }
  unfold tick. apply pool_bind, pool_ask. intros [answer|x] w1 Ht.
  2: { eapply pool_mono; [by apply source_error_spec|]. intros _ s' [Hd Hi']. split; [done|]. right.
       split; [|by eapply degraded_quiet]. intros tip txids (a & ? & ? & Ha & _). congruence. }
  apply pool_bind, pool_ask. cbn. intros [txids|x] w2 Hl.
  - eapply pool_mono; [apply apply_poll_spec; [done|by eapply listing_distinct]|].
    intros _ s' [Hi' Ho]. split; [done|]. left. exists (from_tip answer), txids.
    split; [by exists answer, w1, w2|]. eapply outcome_quiet; [|exact Ho]. done.
  - eapply pool_mono; [by apply source_error_spec|]. intros _ s' [Hd Hi']. split; [done|]. right.
    split; [|by eapply degraded_quiet]. intros tip txids (a & ? & ? & Ha & _ & Hb).
    rewrite Ht in Ha. simplify_eq. congruence.
Qed.

Lemma outcome_fed tip txids s s' : outcome tip txids s s' -> fed s s'.
Proof. intros [[]|[_ [?|(_ & _ & ?)]]]; [done|by apply quiet_fed|done]. Qed.

Lemma spawn_inv w : inv (spawn w).
Proof.
  split; cbn; [apply empty_ok| |done].
  destruct (max_cost_bytes Out w) as [b w'] eqn:Hb. apply bound_range in Hb. lia.
Qed.

Lemma pool_step_inv s s' : inv s -> step Out config salt s s' ->
  inv s' /\ exists l, updates s' = updates s ++ l /\ replay (by_txid (current s)) l = by_txid (current s').
Proof.
  intros Hi. destruct 1 as [s|s s' Ht|s s' Hc|s w].
  - split; [by apply (quiet_inv s); [|split|apply Hi]|]. exists []. by rewrite app_nil_r.
  - pose proof (tick_spec s Hi) as Hwp. unfold wp in Hwp. rewrite Ht in Hwp. destruct Hwp as [Hi' Ho].
    split; [done|]. assert (fed s s') as (l & Hu & Hr & _).
    { destruct Ho as [(tip & txids & _ & Ho)|(_ & _ & _ & Hf)]; [by eapply outcome_fed|done]. }
    eauto.
  - unfold publish_closing, bind, get, send, store_status in Hc. simplify_eq/=.
    split; [by destruct Hi; split|]. by eexists [_].
  - split; [by apply (quiet_inv s); [|split|apply Hi]|]. exists []. by rewrite app_nil_r.
Qed.

Lemma pool_steps_inv s s' : rtc (step Out config salt) s s' -> inv s ->
  inv s' /\ exists l, updates s' = updates s ++ l /\ replay (by_txid (current s)) l = by_txid (current s').
Proof.
  induction 1 as [s|s s1 s' Hone _ IH]; intros Hi.
  { split; [done|]. exists []. by rewrite app_nil_r. }
  destruct (pool_step_inv s s1 Hi Hone) as [Hi1 (l1 & Hu1 & Hr1)]. destruct (IH Hi1) as [Hi' (l2 & Hu2 & Hr2)].
  split; [done|]. exists (l1 ++ l2). split; [by rewrite Hu2, Hu1, app_assoc|].
  by rewrite replay_app, Hr1.
Qed.

Lemma reachable_inv s : reachable Out config salt s -> inv s.
Proof. intros [w Hs]. by apply (pool_steps_inv _ _ Hs), spawn_inv. Qed.



(** The change feed is lossless.  Between any two moments, applying the
    updates sent in between to the set of the first gives the set of the second. *)
Theorem feed_replays s s' :
  reachable Out config salt s -> rtc (step Out config salt) s s' ->
  exists l, updates s' = updates s ++ l /\ replay (by_txid (current s)) l = by_txid (current s').
Proof. intros Hi%reachable_inv Hs. by apply (pool_steps_inv _ _ Hs). Qed.

(** The exclude filter is exact.  A read with exclude suffixes returns the
    entries of the set except those some suffix of 1 to 32 bytes names uniquely: one
    that no transaction or several transactions end with hides none. *)
Theorem filtered_entries_exact s suffixes e :
  reachable Out config salt s ->
  e ∈ get_filtered_entries (current s) suffixes <->
  by_txid (current s) !! e_txid e = Some e /\
  forall suffix, suffix ∈ suffixes -> (1 <= length suffix <= 32)%nat -> suffix `suffix_of` e_txid e ->
    exists t, t <> e_txid e /\ is_Some (by_txid (current s) !! t) /\ suffix `suffix_of` t.
Proof. intros Hi%reachable_inv. apply filtered_spec, Hi. Qed.
End Service.

(** ** A concrete service *)
Module Example.

Definition in_order : ParOrder := {| par_order := fun A l => l; par_order_perm := fun A l => reflexivity _ |}.
Definition no_hash : TieHash := fun salt txid => 0.
Local Existing Instance canonical_iter.
Local Existing Instance in_order.
Local Existing Instance no_hash.

(** A validator that does not move: two transactions, room for one. *)
Definition calm : Outside unit :=
  mkOutside unit (fun w => (Ok ([1], 5), w)) (fun w => (Ok [[1; 2]; [3; 4]], w))
    (fun w => (Ok [mkMeta [1; 2] 5 (Some 100) 4 1; mkMeta [3; 4] 5 None 4 1], w))
    (fun t w => (Ok (t ++ t), w)) (fun w => (0, w)) (fun w => (15000, w)).

Global Instance calm_ok : OutsideOk calm 15000.
Proof.
  split; [intros w txids w' [= <- _]|intros w b w' [= <- _]; lia|lia].
  repeat constructor; set_solver.
Qed.

Definition polled : MempoolService :=
  match tick calm default_config 0 (spawn tt) with Some (_, s) => s | None => spawn tt end.
Lemma polled_tick : tick calm default_config 0 (spawn tt) = Some (tt, polled).
Proof. vm_compute. reflexivity. Qed.
Lemma spawned : reachable calm default_config 0 (spawn tt).
Proof. exists tt. apply rtc_refl. Qed.
Lemma polled_step : rtc (step calm default_config 0) (spawn tt) polled.
Proof. apply rtc_once, step_tick, polled_tick. Qed.
Lemma polled_reachable : reachable calm default_config 0 polled.
Proof. exists tt. apply polled_step. Qed.
Lemma polled_set :
  (e_txid <$> entries_in_order (current polled), bool_decide (unadmitted (current polled) = {[ [3; 4] ]}),
   completeness (current polled)) = ([[1; 2]], true, IncompleteCapacityLimited).
Proof. vm_compute. reflexivity. Qed.



Lemma feed_replays_witness :
  exists l, updates polled = updates (spawn tt) ++ l /\
    replay (by_txid (current (spawn tt))) l = by_txid (current polled).
Proof. apply (feed_replays calm default_config 0 15000 (spawn tt) polled spawned polled_step). Defined.

Lemma filtered_entries_exact_witness :
  get_filtered_entries (current polled) [[2]] = [] /\
  forall e, ~ (by_txid (current polled) !! e_txid e = Some e /\
    forall suffix, suffix ∈ [[2]] -> (1 <= length suffix <= 32)%nat -> suffix `suffix_of` e_txid e ->
      exists t, t <> e_txid e /\ is_Some (by_txid (current polled) !! t) /\ suffix `suffix_of` t).
Proof.
  assert (get_filtered_entries (current polled) [[2]] = []) as He by (vm_compute; reflexivity).
  split; [exact He|]. intros e Hx.
  apply (filtered_entries_exact calm default_config 0 15000 polled [[2]] e polled_reachable) in Hx.
  rewrite He in Hx. by apply elem_of_nil in Hx.
Defined.
End Example.
End MempoolCorrect.
