(* ===== verification/ChainGraph.v ===== *)
(** * The chain-head graph
    ([packages/zaino-chain-head-service/src/snapshot.rs], [graph.rs])

    The map-backed graph of retained blocks: the moves the writer applies
    ([extend], [rewind_to], [remove_finalised_blocks], [stamp_generation]) and
    the questions a published snapshot answers.  The contract of the
    [ChainGraph] trait is the invariant [graph_ok]; it is proved of every move,
    and the read operations are characterised under it. *)

From S2P Require Import Prelude Primitives Difficulty Types.
From stdpp Require Import base gmap list sorting sets.
From Stdlib Require Import ZArith Lia.
Open Scope Z_scope.

Module ChainGraph.

Record MapBackedSnapshot := mkSnapshot {
  tip : ChainHeadBlock;
  others : gmap BlockHash ChainHeadBlock;
  heights_to_hashes : gmap Height BlockHash;
  generation : Z }.

Inductive NotOnBestChain := mkNotOnBestChain.
Inductive NotChildOfTip := mkNotChildOfTip (tip block : BlockRef).

(** *** Reads used by the moves *)
Definition best_tip (g : MapBackedSnapshot) : BlockRef := reference (tip g).

Definition block_by_hash (g : MapBackedSnapshot) (h : BlockHash) : option ChainHeadBlock :=
  if decide (hash (tip g) = h) then Some (tip g) else others g !! h.

Definition best_block_by_height (g : MapBackedSnapshot) (n : Height) : option ChainHeadBlock :=
  let! h := heights_to_hashes g !! n in block_by_hash g h.

Definition is_on_best_chain (g : MapBackedSnapshot) (b : BlockRef) : bool :=
  bool_decide (heights_to_hashes g !! br_height b = Some (br_hash b)).

(** *** The moves *)
Definition replace_tip (g : MapBackedSnapshot) (b : ChainHeadBlock) : MapBackedSnapshot :=
  let others' := delete (hash b) (others g) in
  let old_tip := tip g in
  let others'' :=
    if decide (hash old_tip = hash b) then others' else <[hash old_tip := old_tip]> others' in
  mkSnapshot b others'' (heights_to_hashes g) (generation g).

Definition with_heights (g : MapBackedSnapshot) (m : gmap Height BlockHash) : MapBackedSnapshot :=
  mkSnapshot (tip g) (others g) m (generation g).

Definition from_initial_block (b : ChainHeadBlock) : MapBackedSnapshot :=
  mkSnapshot b ∅ {[height b := hash b]} 0.

Definition extend (g : MapBackedSnapshot) (b : ChainHeadBlock)
    : result MapBackedSnapshot NotChildOfTip :=
  let extends_tip :=
    bool_decide (parent_hash b = hash (tip g)) &&
    bool_decide (Height.height_checked_add (height (tip g)) 1 = Some (height b)) in
  if negb extends_tip then Err (mkNotChildOfTip (reference (tip g)) (reference b))
  else Ok (replace_tip (with_heights g (<[height b := hash b]> (heights_to_hashes g))) b).

Definition rewind_to (g : MapBackedSnapshot) (b : BlockRef)
    : result MapBackedSnapshot NotOnBestChain :=
  if bool_decide (b = reference (tip g)) then Ok g
  else if negb (is_on_best_chain g b) then Err mkNotOnBestChain
  else match others g !! br_hash b with
       | None => Err mkNotOnBestChain
       | Some new_tip =>
           Ok (replace_tip
                 (with_heights g (filter (fun kv => kv.1 <= br_height b) (heights_to_hashes g)))
                 new_tip)
       end.

Definition remove_finalised_blocks (g : MapBackedSnapshot) (floor : Height) : MapBackedSnapshot :=
  let tip_hash := hash (tip g) in
  mkSnapshot (tip g)
    (filter (fun kv => floor <= height kv.2) (others g))
    (filter (fun kv => floor <= kv.1 \/ kv.2 = tip_hash) (heights_to_hashes g))
    (generation g).

Definition stamp_generation (g previous : MapBackedSnapshot) (highest_published : Z)
    : MapBackedSnapshot :=
  mkSnapshot (tip g) (others g) (heights_to_hashes g)
    (if bool_decide (best_tip g = best_tip previous) then generation previous
     else saturating_add 64 highest_published 1).

Section Iteration.
Context `{HashIter}.

(** Every retained block, tip first. *)
Definition blocks (g : MapBackedSnapshot) : list ChainHeadBlock := tip g :: values (others g).

Definition heaviest_block (g : MapBackedSnapshot) : ChainHeadBlock :=
  fold_left (fun heaviest b => if chb_work heaviest <? chb_work b then b else heaviest)
    (values (others g)) (tip g).

Definition retained_block_count (g : MapBackedSnapshot) : nat := length (blocks g).
End Iteration.

(** *** Walks by parent hash

    Each loop follows [parent_hash] until it meets the best chain or leaves the
    window.  Heights fall along the walk ([fork_walk_fuel] below), so one more
    turn than the starting height is enough. *)
Fixpoint fork_walk (fuel : nat) (g : MapBackedSnapshot) (current : ChainHeadBlock)
    : option BlockRef :=
  match fuel with
  | O => None
  | S fuel =>
      if is_on_best_chain g (reference current) then Some (reference current)
      else let! parent := block_by_hash g (parent_hash current) in fork_walk fuel g parent
  end.

Definition find_fork_point (g : MapBackedSnapshot) (h : BlockHash) : option BlockRef :=
  let! current := block_by_hash g h in
  fork_walk (S (Z.to_nat (height current))) g current.

Fixpoint branch_walk (fuel : nat) (g : MapBackedSnapshot) (current : ChainHeadBlock)
    (branch_len : Z) : Z :=
  match fuel with
  | O => branch_len
  | S fuel =>
      if is_on_best_chain g (reference current) then branch_len
      else match block_by_hash g (parent_hash current) with
           | None => branch_len + 1
           | Some parent => branch_walk fuel g parent (branch_len + 1)
           end
  end.

Definition branch_len_to_best_chain (g : MapBackedSnapshot) (b : ChainHeadBlock) : Z :=
  branch_walk (S (Z.to_nat (height b))) g b 0.

(** *** The remaining reads *)

(** [ChainTipStatus]; the snapshot emits only the last two. *)
Inductive ChainTipStatus :=
| Invalid | HeadersOnly | ValidHeaders | Unknown | ValidFork | Active.
Record ChainTip := mkChainTip {
  ct_height : Height; ct_hash : BlockHash; ct_branch_len : Z; ct_status : ChainTipStatus }.

(** Hashes compare by their display (byte-reversed) order. *)
Definition display_order (h : BlockHash) : list Z := reverse h.
Fixpoint lex_leb (a b : list Z) : bool :=
  match a, b with
  | [], _ => true
  | _ :: _, [] => false
  | x :: a, y :: b => (x <? y) || ((x =? y) && lex_leb a b)
  end.

(** The comparator of [chain_tips], as [<=]: descending height, then ascending
    display order. *)
Definition chain_tip_le (left right : ChainTip) : Prop :=
  (ct_height right <? ct_height left)
  || ((ct_height left =? ct_height right)
      && lex_leb (display_order (ct_hash left)) (display_order (ct_hash right))) = true.
Global Instance chain_tip_le_dec : RelDecision chain_tip_le.
Proof. intros a b. unfold chain_tip_le. apply _. Defined.

Inductive ChainHeadError := InvalidRange (start end_ : Height).

Record ChainHeadTxPosition := mkTxPosition { pos_block : BlockRef; pos_tx_index : Z }.
Record ChainHeadTransactionLocations := mkLocations {
  best_chain_position : option ChainHeadTxPosition;
  non_best_chain : list ChainHeadTxPosition }.
Record SpenderLocation := mkSpender {
  sp_block : BlockRef; sp_txid : TransactionId; sp_tx_index : Z }.

(** [iter().enumerate().find(...)]: the first slot holding [t]. *)
Fixpoint find_slot (t : TransactionId) (txs : list Transaction) (slot : Z) : option Z :=
  match txs with
  | [] => None
  | tx :: txs => if decide (txid tx = t) then Some slot else find_slot t txs (slot + 1)
  end.

(** The spend entries of one transaction at [slot], in input order. *)
Definition tx_spenders (b : ChainHeadBlock) (slot : Z) (tx : Transaction)
    : list (Outpoint * SpenderLocation) :=
  map (fun i => ((prev_txid i, prev_index i), mkSpender (reference b) (txid tx) slot))
    (inputs (transparent tx)).
Fixpoint txs_spenders (b : ChainHeadBlock) (slot : Z) (txs : list Transaction)
    : list (Outpoint * SpenderLocation) :=
  match txs with
  | [] => []
  | tx :: txs => tx_spenders b slot tx ++ txs_spenders b (slot + 1) txs
  end.
Definition block_spenders (b : ChainHeadBlock) : list (Outpoint * SpenderLocation) :=
  txs_spenders b 0 (transactions (chb_block b)).

Section Reads.
Context `{HashIter}.

Definition chain_tip_of (g : MapBackedSnapshot) (b : ChainHeadBlock) : ChainTip :=
  let is_active_tip := bool_decide (hash b = br_hash (best_tip g)) in
  mkChainTip (height b) (hash b)
    (if is_active_tip then 0 else branch_len_to_best_chain g b)
    (if is_active_tip then Active else ValidFork).

Definition tip_hashes (g : MapBackedSnapshot) : gset BlockHash :=
  let parent_hashes : gset BlockHash := list_to_set (parent_hash <$> blocks g) in
  let hashes : gset BlockHash := list_to_set (hash <$> blocks g) in
  {[br_hash (best_tip g)]} ∪ filter (fun h => h ∉ parent_hashes) hashes.

Definition chain_tips (g : MapBackedSnapshot) : list ChainTip :=
  merge_sort chain_tip_le
    (chain_tip_of g <$> omap (block_by_hash g) (elements (tip_hashes g))).

Definition best_chain (g : MapBackedSnapshot) : list ChainHeadBlock :=
  omap (best_block_by_height g) (merge_sort Z.le (keys (heights_to_hashes g))).

Definition best_chain_blocks (g : MapBackedSnapshot) (start end_ : Height)
    : result (list ChainHeadBlock) ChainHeadError :=
  if end_ <? start then Err (InvalidRange start end_)
  else Ok (omap (fun n => let! n := ok (Height.try_from n) in best_block_by_height g n)
             (seqZ start (end_ - start + 1))).

Definition add_location (g : MapBackedSnapshot) (t : TransactionId)
    (locations : ChainHeadTransactionLocations) (b : ChainHeadBlock)
    : ChainHeadTransactionLocations :=
  match find_slot t (transactions (chb_block b)) 0 with
  | None => locations
  | Some slot =>
      let position := mkTxPosition (reference b) slot in
      if is_on_best_chain g (reference b)
      then mkLocations (Some position) (non_best_chain locations)
      else mkLocations (best_chain_position locations) (non_best_chain locations ++ [position])
  end.

Definition transaction_locations (g : MapBackedSnapshot) (t : TransactionId)
    : ChainHeadTransactionLocations :=
  fold_left (add_location g t) (blocks g) (mkLocations None []).

(** [HashMap::insert] in iteration order: the last insertion wins. *)
Definition spenders_map (g : MapBackedSnapshot) : gmap Outpoint SpenderLocation :=
  fold_left (fun m kv => <[kv.1 := kv.2]> m)
    (concat (block_spenders <$> omap (block_by_hash g) (values (heights_to_hashes g)))) ∅.

Definition outpoint_spenders (g : MapBackedSnapshot) (outpoints : list Outpoint)
    : list (option SpenderLocation) :=
  match outpoints with
  | [] => []
  | _ => map (fun o => spenders_map g !! o) outpoints
  end.
End Reads.

(** *** The contract

    [tree] is the validator's block tree: what a hash commits to.  A retained
    block is genuine when its height and parent are the ones its hash commits
    to; this is the only fact about hashes the graph relies on. *)
Record TreeEntry := mkTreeEntry {
  te_height : Height; te_parent : BlockHash; te_chainwork : Z }.

Definition tree_ok (tree : BlockHash -> option TreeEntry) : Prop :=
  forall h e, tree h = Some e ->
    Height.valid (te_height e) /\
    forall e', tree (te_parent e) = Some e' ->
      te_height e = te_height e' + 1 /\ te_chainwork e' < te_chainwork e.

Section Contract.
Context (tree : BlockHash -> option TreeEntry) (Htree : tree_ok tree).

Definition genuine (b : ChainHeadBlock) : Prop :=
  exists e, tree (hash b) = Some e /\ te_height e = height b /\ te_parent e = parent_hash b.

Record graph_ok (g : MapBackedSnapshot) : Prop := {
  (** the tip is not also in [others], which is keyed by hash *)
  ok_keyed : forall h b, others g !! h = Some b -> hash b = h /\ h <> hash (tip g);
  ok_genuine : forall h b, block_by_hash g h = Some b -> genuine b;
  (** every canonical block is retained *)
  ok_retained : forall n h, heights_to_hashes g !! n = Some h ->
    exists b, block_by_hash g h = Some b /\ height b = n;
  ok_tip : heights_to_hashes g !! height (tip g) = Some (hash (tip g));
  (** nothing above the tip is canonical *)
  ok_above : forall n h, heights_to_hashes g !! n = Some h -> n <= height (tip g);
  (** canonical heights run without gaps up to the tip *)
  ok_gapless : forall n h k, heights_to_hashes g !! n = Some h ->
    n <= k <= height (tip g) -> is_Some (heights_to_hashes g !! k);
  (** each canonical block's parent is the canonical block one height below *)
  ok_linked : forall n h b h', heights_to_hashes g !! n = Some h ->
    block_by_hash g h = Some b -> heights_to_hashes g !! (n - 1) = Some h' ->
    parent_hash b = h' }.

(** Work is measured from the window's anchor: one offset for all of it. *)
Definition work_from (c : Z) (g : MapBackedSnapshot) : Prop :=
  forall h b e, block_by_hash g h = Some b -> tree h = Some e -> chb_work b + c = te_chainwork e.

Lemma block_by_hash_replace_tip g b h :
  block_by_hash (replace_tip g b) h =
  if decide (hash b = h) then Some b else block_by_hash g h.
Proof.
  unfold block_by_hash, replace_tip; cbn [tip others].
  repeat case_decide; subst; try done; try congruence.
  - by rewrite lookup_delete_ne.
  - by rewrite lookup_insert_eq.
  - rewrite lookup_insert_ne by done. by rewrite lookup_delete_ne.
Qed.

Lemma block_by_hash_with_heights g m h : block_by_hash (with_heights g m) h = block_by_hash g h.
Proof. done. Qed.

Lemma block_by_hash_hash g h b : graph_ok g -> block_by_hash g h = Some b -> hash b = h.
Proof.
  intros Hok. unfold block_by_hash. case_decide; [naive_solver|].
  intros Hb. by apply (ok_keyed _ Hok) in Hb as [? _].
Qed.

Lemma block_by_hash_tip g : block_by_hash g (hash (tip g)) = Some (tip g).
Proof. unfold block_by_hash. by rewrite decide_True. Qed.

(** Two genuine blocks with one hash agree on height and parent. *)
Lemma genuine_agree b b' : genuine b -> genuine b' -> hash b = hash b' ->
  height b = height b' /\ parent_hash b = parent_hash b'.
Proof. intros (e & He & ? & ?) (e' & He' & ? & ?) Heq. naive_solver congruence. Qed.

Lemma genuine_parent_height b p : genuine b -> genuine p -> hash p = parent_hash b ->
  height b = height p + 1.
Proof.
  intros (e & He & Hh & Hp) (e' & He' & Hh' & _) Heq.
  destruct (Htree _ _ He) as [_ Hl]. rewrite Hp, <- Heq in Hl.
  destruct (Hl e' He'). lia.
Qed.

Lemma genuine_valid b : genuine b -> Height.valid (height b).
Proof. intros (e & He & <- & _). by destruct (Htree _ _ He). Qed.

Lemma extend_Ok g b g' :
  extend g b = Ok g' <->
  parent_hash b = hash (tip g) /\ height b = height (tip g) + 1 /\
  height b <= Height.MAX_HEIGHT /\
  g' = replace_tip (with_heights g (<[height b := hash b]> (heights_to_hashes g))) b.
Proof.
  unfold extend, Height.height_checked_add.
  assert (Height.MAX_HEIGHT = 2147483647) as Hmax by done.
  destruct (bool_decide_reflect (parent_hash b = hash (tip g))); cbn [andb negb]; [|naive_solver].
  destruct (checked_add 32 (height (tip g)) 1) as [s|] eqn:Hs.
  - apply checked_add_Some in Hs as [-> Hs].
    destruct (Height.MAX_HEIGHT <? height (tip g) + 1) eqn:Hm; zbool; cbn.
    + split; [done|]. intros (_ & ? & ? & _). lia.
    + destruct (bool_decide_reflect (Some (height (tip g) + 1) = Some (height b))) as [Heq|Hne];
        cbn [negb].
      * simplify_eq. split; [|naive_solver]. intros [= <-]. split_and!; (done || lia).
      * split; [done|]. intros (_ & Heq & _ & _). by rewrite Heq in Hne.
  - apply checked_add_None in Hs. cbn. split; [done|].
    intros (_ & ? & ? & _). change (2 ^ 32) with 4294967296 in Hs. lia.
Qed.

Lemma from_initial_block_ok b : genuine b -> graph_ok (from_initial_block b).
Proof.
  intros Hg. split; cbn [others heights_to_hashes tip from_initial_block].
  - intros h b'. by rewrite lookup_empty.
  - unfold block_by_hash; cbn. intros h b'. case_decide; [naive_solver|]. by rewrite lookup_empty.
  - intros n h [<- <-]%lookup_singleton_Some. exists b. split; [|done].
    apply (block_by_hash_tip (from_initial_block b)).
  - apply lookup_singleton_eq.
  - intros n h [<- <-]%lookup_singleton_Some. lia.
  - intros n h k [<- <-]%lookup_singleton_Some Hk. replace k with (height b) by lia.
    rewrite lookup_singleton_eq. eauto.
  - intros n h b' h' [<- <-]%lookup_singleton_Some _ [? ?]%lookup_singleton_Some. lia.
Qed.

Lemma extend_ok g b g' : graph_ok g -> genuine b -> extend g b = Ok g' -> graph_ok g'.
Proof.
  intros Hok Hg (Hp & Hh & Hmax & ->)%extend_Ok.
  assert (Hfresh : forall b', block_by_hash g (hash b) = Some b' -> height b' = height b).
  { intros b' Hb'. pose proof (block_by_hash_hash _ _ _ Hok Hb').
    by apply (genuine_agree b' b (ok_genuine _ Hok _ _ Hb') Hg). }
  assert (Hne : hash (tip g) <> hash b).
  { intros Heq. specialize (Hfresh (tip g)). rewrite <- Heq in Hfresh.
    specialize (Hfresh (block_by_hash_tip g)). lia. }
  assert (Hkeep : forall n h, heights_to_hashes g !! n = Some h -> h <> hash b).
  { intros n h Hn ->. destruct (ok_retained _ Hok _ _ Hn) as (b' & Hb' & Hn').
    apply Hfresh in Hb'. pose proof (ok_above _ Hok _ _ Hn). lia. }
  split; try setoid_rewrite block_by_hash_replace_tip;
    try setoid_rewrite block_by_hash_with_heights.
  - cbn. rewrite decide_False by done. intros h b' [[<- <-]|[Hh' Hb']]%lookup_insert_Some.
    + naive_solver.
    + apply lookup_delete_Some in Hb' as [? Hb'].
      split; [by apply (ok_keyed _ Hok) in Hb' as [? _]|done].
  - intros h b'. case_decide; [naive_solver|]. apply (ok_genuine _ Hok).
  - cbn. intros n h [[<- <-]|[Hn Hb]]%lookup_insert_Some.
    + exists b. by rewrite decide_True.
    + rewrite decide_False by (intros Heq; by eapply Hkeep). by apply (ok_retained _ Hok).
  - cbn. by rewrite lookup_insert_eq.
  - cbn. intros n h [[<- <-]|[Hn Hb]]%lookup_insert_Some; [lia|].
    apply (ok_above _ Hok) in Hb. lia.
  - cbn. intros n h k Hn Hk.
    destruct (decide (k = height b)) as [->|]; [rewrite lookup_insert_eq; eauto|].
    rewrite lookup_insert_ne by done.
    apply lookup_insert_Some in Hn as [[<- <-]|[Hn Hb]]; [lia|].
    apply (ok_gapless _ Hok n h); [done|lia].
  - cbn. intros n h b' h' Hn Hb' Hn'.
    apply lookup_insert_Some in Hn as [[<- <-]|[Hn Hb]].
    + rewrite decide_True in Hb' by done. simplify_eq.
      rewrite lookup_insert_ne in Hn' by lia.
      replace (height b' - 1) with (height (tip g)) in Hn' by lia.
      rewrite (ok_tip _ Hok) in Hn'. congruence.
    + rewrite decide_False in Hb' by (intros Heq; by eapply Hkeep).
      pose proof (ok_above _ Hok _ _ Hb). rewrite lookup_insert_ne in Hn' by lia.
      by apply (ok_linked _ Hok n h).
Qed.

Lemma rewind_to_Ok g b g' :
  rewind_to g b = Ok g' <->
  (b = reference (tip g) /\ g' = g) \/
  (b <> reference (tip g) /\ heights_to_hashes g !! br_height b = Some (br_hash b) /\
   exists t, others g !! br_hash b = Some t /\
     g' = replace_tip
       (with_heights g (filter (fun kv => kv.1 <= br_height b) (heights_to_hashes g))) t).
Proof.
  unfold rewind_to, is_on_best_chain.
  destruct (bool_decide_reflect (b = reference (tip g))); [naive_solver|].
  destruct (bool_decide_reflect (heights_to_hashes g !! br_height b = Some (br_hash b)));
    cbn [negb]; [|naive_solver].
  destruct (others g !! br_hash b) eqn:Ho; naive_solver.
Qed.

Lemma lookup_height_filter (m : gmap Height BlockHash) (k n : Height) h :
  filter (fun kv => kv.1 <= k) m !! n = Some h <-> m !! n = Some h /\ n <= k.
Proof. by rewrite map_lookup_filter_Some. Qed.

Lemma rewind_to_ok g b g' : graph_ok g -> rewind_to g b = Ok g' -> graph_ok g'.
Proof.
  intros Hok [[_ ->]|(Hb & Hon & t & Ht & ->)]%rewind_to_Ok; [done|].
  destruct (ok_keyed _ Hok _ _ Ht) as [Hth Hne].
  assert (Hbt : block_by_hash g (br_hash b) = Some t).
  { unfold block_by_hash. by rewrite decide_False by congruence. }
  assert (Hht : height t = br_height b).
  { destruct (ok_retained _ Hok _ _ Hon) as (b' & Hb' & ?). by simplify_eq. }
  assert (Hlook : forall h, block_by_hash (replace_tip (with_heights g
      (filter (fun kv => kv.1 <= br_height b) (heights_to_hashes g))) t) h = block_by_hash g h).
  { intros h. rewrite block_by_hash_replace_tip, block_by_hash_with_heights.
    case_decide; [|done]. subst h. by rewrite Hth. }
  split; try setoid_rewrite Hlook.
  - cbn. rewrite decide_False by congruence.
    intros h b' [[<- <-]|[Hh' Hb']]%lookup_insert_Some; [split; [done|congruence]|].
    apply lookup_delete_Some in Hb' as [? Hb'].
    split; [by apply (ok_keyed _ Hok) in Hb' as [? _]|congruence].
  - apply (ok_genuine _ Hok).
  - cbn. intros n h [Hn _]%lookup_height_filter. by apply (ok_retained _ Hok).
  - cbn. apply lookup_height_filter. rewrite Hht, Hth. split; [done|lia].
  - cbn. intros n h [Hn ?]%lookup_height_filter. lia.
  - cbn. intros n h k [Hn ?]%lookup_height_filter Hk.
    destruct (ok_gapless _ Hok n h k Hn) as [h' Hh'].
    { pose proof (ok_above _ Hok _ _ Hon). lia. }
    exists h'. apply lookup_height_filter. split; [done|lia].
  - cbn. intros n h b' h' [Hn ?]%lookup_height_filter Hb' [Hn' _]%lookup_height_filter.
    by apply (ok_linked _ Hok n h).
Qed.

Lemma block_by_hash_remove g floor h b :
  block_by_hash (remove_finalised_blocks g floor) h = Some b <->
  block_by_hash g h = Some b /\ (h = hash (tip g) \/ floor <= height b).
Proof.
  unfold block_by_hash, remove_finalised_blocks; cbn [tip others].
  case_decide; subst; [naive_solver|].
  rewrite map_lookup_filter_Some. cbn. naive_solver.
Qed.

Lemma lookup_heights_remove g floor n h :
  graph_ok g ->
  heights_to_hashes (remove_finalised_blocks g floor) !! n = Some h <->
  heights_to_hashes g !! n = Some h /\ (floor <= n \/ n = height (tip g)).
Proof.
  intros Hok. cbn. rewrite map_lookup_filter_Some; cbn. split.
  - intros [Hn [?| ->]]; [by auto|]. split; [done|]. right.
    destruct (ok_retained _ Hok _ _ Hn) as (b & Hb & <-).
    rewrite block_by_hash_tip in Hb. naive_solver.
  - intros [Hn [?| ->]]; [by auto|]. split; [done|]. right.
    rewrite (ok_tip _ Hok) in Hn. congruence.
Qed.

Lemma remove_finalised_blocks_ok g floor : graph_ok g -> graph_ok (remove_finalised_blocks g floor).
Proof.
  intros Hok. split; try setoid_rewrite block_by_hash_remove;
    try setoid_rewrite (lookup_heights_remove g floor _ _ Hok).
  - cbn. intros h b [Hb _]%map_lookup_filter_Some. by apply (ok_keyed _ Hok).
  - intros h b [Hb _]. by apply (ok_genuine _ Hok h).
  - intros n h [Hn Hor]. destruct (ok_retained _ Hok _ _ Hn) as (b & Hb & Hh).
    exists b. split; [|done]. split; [done|]. rewrite Hh. destruct Hor as [?| ->]; [by right|left].
    rewrite (ok_tip _ Hok) in Hn. congruence.
  - cbn [tip remove_finalised_blocks]. split; [apply (ok_tip _ Hok)|by right].
  - cbn [tip remove_finalised_blocks]. intros n h [Hn _]. by apply (ok_above _ Hok n h).
  - cbn [tip remove_finalised_blocks]. intros n h k [Hn Hor] Hk.
    destruct (ok_gapless _ Hok n h k Hn Hk) as [h' Hh'].
    exists h'. apply lookup_heights_remove; [done|]. split; [done|].
    pose proof (ok_above _ Hok _ _ Hn). lia.
  - intros n h b h' [Hn _] [Hb _] [Hn' _]. by apply (ok_linked _ Hok n h).
Qed.

Lemma stamp_generation_ok g prev k : graph_ok g -> graph_ok (stamp_generation g prev k).
Proof. intros [????? ??]. by split. Qed.

(** *** Accumulated work *)
Lemma work_from_initial b e :
  tree (hash b) = Some e ->
  work_from (te_chainwork e - chb_work b) (from_initial_block b).
Proof.
  intros He h b' e'. unfold block_by_hash; cbn. case_decide; [|by rewrite lookup_empty].
  intros [= <-] He'. subst h. rewrite He in He'. simplify_eq. lia.
Qed.

Lemma work_from_extend c g b g' :
  work_from c g -> extend g b = Ok g' ->
  (forall e, tree (hash b) = Some e -> chb_work b + c = te_chainwork e) ->
  work_from c g'.
Proof.
  intros Hw (_ & _ & _ & ->)%extend_Ok Hb h b' e'. rewrite block_by_hash_replace_tip.
  case_decide; [naive_solver|]. rewrite block_by_hash_with_heights. apply Hw.
Qed.

Lemma rewind_to_lookup g b g' h :
  graph_ok g -> rewind_to g b = Ok g' -> block_by_hash g' h = block_by_hash g h.
Proof.
  intros Hok [[_ ->]|(Hb & Hon & t & Ht & ->)]%rewind_to_Ok; [done|].
  rewrite block_by_hash_replace_tip, block_by_hash_with_heights.
  destruct (ok_keyed _ Hok _ _ Ht) as [Hth Hne].
  case_decide; [|done]. subst h. unfold block_by_hash. rewrite Hth.
  by rewrite decide_False by congruence.
Qed.

Lemma work_from_rewind c g b g' :
  graph_ok g -> work_from c g -> rewind_to g b = Ok g' -> work_from c g'.
Proof. intros Hok Hw Hr h b' e'. rewrite (rewind_to_lookup g b g'); [apply Hw|done..]. Qed.

Lemma work_from_remove c g floor : work_from c g -> work_from c (remove_finalised_blocks g floor).
Proof. intros Hw h b e [Hb _]%block_by_hash_remove He. by apply (Hw h). Qed.

(** *** The heaviest block *)
Lemma fold_heaviest_spec l b0 :
  let m := fold_left (fun heaviest b => if chb_work heaviest <? chb_work b then b else heaviest) l b0 in
  (m = b0 \/ m ∈ l) /\ (forall b, b ∈ b0 :: l -> chb_work b <= chb_work m) /\
  (chb_work m <= chb_work b0 -> m = b0).
Proof.
  revert b0. induction l as [|b l IH]; intros b0; cbn [fold_left].
  - split_and!; [by left| |done]. intros b [->|Hb%elem_of_nil]%elem_of_cons; done || lia.
  - set (b1 := if chb_work b0 <? chb_work b then b else b0). destruct (IH b1) as (H1 & H2 & H3).
    set (m := fold_left _ l b1) in *.
    assert (chb_work b0 <= chb_work b1 /\ chb_work b <= chb_work b1 /\
            (b1 = b \/ b1 = b0) /\ (chb_work b1 <= chb_work b0 -> b1 = b0)) as (Hb0 & Hb & Hor & Htie).
    { subst b1. case_if; naive_solver lia. }
    pose proof (H2 b1 (list_elem_of_here _ _)) as Hm.
    split_and!.
    + destruct H1 as [->|Hin]; [|right; by right].
      destruct Hor as [->| ->]; [right; left|by left].
    + intros x [->|[->|Hx]%elem_of_cons]%elem_of_cons; [lia..|]. apply H2. by right.
    + intros Hle. rewrite H3 by lia. apply Htie. lia.
Qed.

Context `{HashIter}.

Lemma elem_of_blocks g b : graph_ok g -> b ∈ blocks g <-> block_by_hash g (hash b) = Some b.
Proof.
  intros Hok. unfold blocks. rewrite elem_of_cons, elem_of_values. unfold block_by_hash. split.
  - intros [->|[k Hk]]; [by rewrite decide_True|].
    destruct (ok_keyed _ Hok _ _ Hk) as [Hh Hne]. rewrite decide_False; congruence.
  - case_decide; naive_solver.
Qed.

Lemma heaviest_block_spec g :
  graph_ok g ->
  let m := heaviest_block g in
  block_by_hash g (hash m) = Some m /\
  (forall h b, block_by_hash g h = Some b -> chb_work b <= chb_work m) /\
  (chb_work m <= chb_work (tip g) -> m = tip g).
Proof.
  intros Hok. destruct (fold_heaviest_spec (values (others g)) (tip g)) as (H1 & H2 & H3).
  fold (heaviest_block g) in *. cbn zeta. split_and!; [| |done].
  - apply elem_of_blocks; [done|]. unfold blocks. rewrite elem_of_cons. done.
  - intros h b Hb. apply H2. fold (blocks g). apply elem_of_blocks; [done|].
    by rewrite (block_by_hash_hash _ _ _ Hok Hb).
Qed.

(** *** Fork points *)

(** [b] is reached from [a] by parent hash through retained blocks, every block
    before it off the best chain. *)
Inductive off_chain_path (g : MapBackedSnapshot) : ChainHeadBlock -> ChainHeadBlock -> Prop :=
| path_here a : off_chain_path g a a
| path_up a p b :
    is_on_best_chain g (reference a) = false ->
    block_by_hash g (parent_hash a) = Some p ->
    off_chain_path g p b -> off_chain_path g a b.

Lemma fork_walk_sound g fuel a r :
  fork_walk fuel g a = Some r ->
  exists b, off_chain_path g a b /\ reference b = r /\ is_on_best_chain g r = true.
Proof.
  revert a. induction fuel as [|fuel IH]; intros a; [done|]. cbn.
  destruct (is_on_best_chain g (reference a)) eqn:Hon.
  - intros [= <-]. exists a. split_and!; [constructor|done..].
  - destruct (block_by_hash g (parent_hash a)) as [p|] eqn:Hp; [|done].
    intros (b & ? & ? & ?)%IH. exists b. split_and!; [by econstructor|done..].
Qed.

(** Heights fall along the walk, so the fuel given is never the reason for an
    answer. *)
Lemma fork_walk_complete g fuel a b :
  graph_ok g -> genuine a -> (Z.to_nat (height a) < fuel)%nat ->
  off_chain_path g a b -> is_on_best_chain g (reference b) = true ->
  fork_walk fuel g a = Some (reference b).
Proof.
  intros Hok Ha Hf Hpath Hon. revert fuel Ha Hf.
  induction Hpath as [a|a p b Hoff Hp _ IH]; intros fuel Ha Hf;
    (destruct fuel as [|fuel]; [lia|]); cbn.
  - by rewrite Hon.
  - rewrite Hoff, Hp. pose proof (ok_genuine _ Hok _ _ Hp) as Hgp.
    apply IH; [done..|]. pose proof (block_by_hash_hash _ _ _ Hok Hp).
    pose proof (genuine_parent_height a p Ha Hgp ltac:(done)).
    pose proof (genuine_valid p Hgp). unfold Height.valid in *. lia.
Qed.

Lemma find_fork_point_spec g h r :
  graph_ok g ->
  find_fork_point g h = Some r <->
  exists a b, block_by_hash g h = Some a /\ off_chain_path g a b /\
    reference b = r /\ is_on_best_chain g r = true.
Proof.
  intros Hok. unfold find_fork_point. split.
  - destruct (block_by_hash g h) as [a|]; [|done]. intros (b & ? & ? & ?)%fork_walk_sound. eauto 10.
  - intros (a & b & Ha & Hpath & <- & Hon). rewrite Ha.
    apply fork_walk_complete; [done|by apply (ok_genuine _ Hok h)|lia|done..].
Qed.

(** *** The best chain *)
Lemma canonical_interval g :
  graph_ok g ->
  exists lo, 0 <= lo <= height (tip g) /\
    forall n, is_Some (heights_to_hashes g !! n) <-> lo <= n < lo + (height (tip g) - lo + 1).
Proof.
  intros Hok. destruct (merge_sort Z.le (keys (heights_to_hashes g))) as [|lo l] eqn:Hl.
  { assert (height (tip g) ∈ merge_sort Z.le (keys (heights_to_hashes g))) as Hin.
    { rewrite merge_sort_Permutation, elem_of_keys, (ok_tip _ Hok). eauto. }
    rewrite Hl in Hin. by apply elem_of_nil in Hin. }
  assert (Hlo : is_Some (heights_to_hashes g !! lo)).
  { rewrite <- elem_of_keys, <- (merge_sort_Permutation Z.le), Hl. left. }
  assert (Hmin : forall n, is_Some (heights_to_hashes g !! n) -> lo <= n).
  { intros n. rewrite <- elem_of_keys, <- (merge_sort_Permutation Z.le), Hl.
    pose proof (StronglySorted_merge_sort Z.le (keys (heights_to_hashes g))) as Hs.
    rewrite Hl in Hs. apply StronglySorted_cons in Hs as [Hs _].
    rewrite Forall_forall in Hs. intros [->|?]%elem_of_cons; [lia|by apply Hs]. }
  destruct Hlo as [hlo Hlo]. exists lo. split.
  - destruct (ok_retained _ Hok _ _ Hlo) as (b & Hb & <-).
    pose proof (genuine_valid b (ok_genuine _ Hok _ _ Hb)) as Hv.
    pose proof (ok_above _ Hok _ _ Hlo). unfold Height.valid in Hv. lia.
  - intros n. split.
    + intros Hn. pose proof (Hmin n Hn). destruct Hn as [h Hn].
      pose proof (ok_above _ Hok _ _ Hn). lia.
    + intros Hn. apply (ok_gapless _ Hok lo hlo); [done|lia].
Qed.

Lemma best_chain_lookup g :
  graph_ok g ->
  exists lo, 0 <= lo <= height (tip g) /\
    (forall n, is_Some (heights_to_hashes g !! n) <-> lo <= n <= height (tip g)) /\
    length (best_chain g) = Z.to_nat (height (tip g) - lo + 1) /\
    forall i, Z.of_nat i < height (tip g) - lo + 1 ->
      exists b, best_chain g !! i = Some b /\ height b = lo + Z.of_nat i /\
        heights_to_hashes g !! height b = Some (hash b) /\ block_by_hash g (hash b) = Some b.
Proof.
  intros Hok. destruct (canonical_interval g Hok) as (lo & Hlo & Hint). exists lo.
  assert (Hks : merge_sort Z.le (keys (heights_to_hashes g)) = seqZ lo (height (tip g) - lo + 1)).
  { apply merge_sort_interval; [apply NoDup_keys|]. intros n. rewrite elem_of_keys. apply Hint. }
  assert (Hsome : forall n, n ∈ seqZ lo (height (tip g) - lo + 1) ->
            exists b, best_block_by_height g n = Some b /\ height b = n /\
              heights_to_hashes g !! n = Some (hash b) /\ block_by_hash g (hash b) = Some b).
  { intros n Hn%elem_of_seqZ. destruct (proj2 (Hint n) ltac:(lia)) as [h Hh].
    destruct (ok_retained _ Hok _ _ Hh) as (b & Hb & Hbn).
    pose proof (block_by_hash_hash _ _ _ Hok Hb) as <-.
    exists b. unfold best_block_by_height. rewrite Hh. done. }
  assert (Hlook : forall i, best_chain g !! i = seqZ lo (height (tip g) - lo + 1) !! i ≫= best_block_by_height g).
  { intros i. unfold best_chain. rewrite Hks. apply lookup_omap_total.
    intros n Hn. destruct (Hsome n Hn) as (b & -> & _). eauto. }
  split; [done|]. split; [|split].
  - intros n. rewrite Hint. lia.
  - apply Nat.le_antisymm.
    + apply Nat.le_ngt. intros Hlt. apply lookup_lt_is_Some_2 in Hlt as [b Hb].
      rewrite Hlook, lookup_seqZ_ge in Hb by lia. done.
    + apply Nat.le_ngt. intros Hlt. 
      assert (best_chain g !! length (best_chain g) = None) as Hn by by apply lookup_ge_None.
      rewrite Hlook, lookup_seqZ_lt in Hn by lia. cbn in Hn.
      destruct (Hsome (lo + Z.of_nat (length (best_chain g)))) as (b & Hb & _);
        [apply elem_of_seqZ; lia|congruence].
  - intros i Hi. destruct (Hsome (lo + Z.of_nat i)) as (b & Hb & Hbn & Hh & Hbb);
      [apply elem_of_seqZ; lia|].
    exists b. rewrite Hlook, lookup_seqZ_lt by lia. cbn. rewrite Hbn. done.
Qed.

(** *** Chain tips *)
Lemma branch_walk_spec g fuel a b k :
  graph_ok g -> genuine a -> (Z.to_nat (height a) < fuel)%nat ->
  off_chain_path g a b -> is_on_best_chain g (reference b) = true ->
  branch_walk fuel g a k = k + (height a - height b).
Proof.
  intros Hok Ha Hf Hpath Hon. revert fuel k Ha Hf.
  induction Hpath as [a|a p b Hoff Hp _ IH]; intros fuel k Ha Hf;
    (destruct fuel as [|fuel]; [lia|]); cbn.
  - rewrite Hon. lia.
  - rewrite Hoff, Hp. pose proof (ok_genuine _ Hok _ _ Hp) as Hgp.
    pose proof (block_by_hash_hash _ _ _ Hok Hp).
    pose proof (genuine_parent_height a p Ha Hgp ltac:(done)).
    pose proof (genuine_valid p Hgp). unfold Height.valid in *.
    rewrite IH by (done || lia). lia.
Qed.

Lemma lex_leb_total a b : lex_leb a b = true \/ lex_leb b a = true.
Proof.
  revert b. induction a as [|x a IH]; intros [|y b]; cbn; auto.
  destruct (Z.lt_trichotomy x y) as [?|[->|?]].
  - left. rewrite (proj2 (Z.ltb_lt x y)) by done. done.
  - rewrite Z.ltb_irrefl, Z.eqb_refl. apply IH.
  - right. rewrite (proj2 (Z.ltb_lt y x)) by done. done.
Qed.

Global Instance chain_tip_le_total : Total chain_tip_le.
Proof.
  intros a b. unfold chain_tip_le.
  destruct (Z.lt_trichotomy (ct_height a) (ct_height b)) as [?|[->|?]].
  - right. rewrite (proj2 (Z.ltb_lt _ _)) by done. done.
  - rewrite Z.ltb_irrefl, Z.eqb_refl. apply lex_leb_total.
  - left. rewrite (proj2 (Z.ltb_lt _ _)) by done. done.
Qed.

Lemma elem_of_tip_hashes g h :
  graph_ok g ->
  h ∈ tip_hashes g <->
  h = hash (tip g) \/
  (is_Some (block_by_hash g h) /\
   forall b', block_by_hash g (hash b') = Some b' -> parent_hash b' <> h).
Proof.
  intros Hok. unfold tip_hashes. rewrite elem_of_union, elem_of_singleton, elem_of_filter.
  rewrite !elem_of_list_to_set, !list_elem_of_fmap. setoid_rewrite elem_of_blocks; [|done..].
  split; (intros [?|[H1 H2]]; [by left|right]).
  - destruct H2 as (b & -> & Hb). split; [eauto|]. intros b' Hb' Heq. apply H1. eauto.
  - destruct H1 as [b Hb]. pose proof (block_by_hash_hash _ _ _ Hok Hb) as <-. split.
    + intros (b' & Heq & Hb'). by apply (H2 b').
    + exists b. done.
Qed.

Lemma elem_of_chain_tips g t :
  graph_ok g ->
  t ∈ chain_tips g <->
  exists b, block_by_hash g (hash b) = Some b /\ t = chain_tip_of g b /\
    (hash b = hash (tip g) \/
     forall b', block_by_hash g (hash b') = Some b' -> parent_hash b' <> hash b).
Proof.
  intros Hok. unfold chain_tips. rewrite merge_sort_Permutation, list_elem_of_fmap.
  setoid_rewrite list_elem_of_omap. setoid_rewrite elem_of_elements.
  setoid_rewrite (fun h => elem_of_tip_hashes g h Hok). split.
  - intros (b & -> & h & Hor & Hb). pose proof (block_by_hash_hash _ _ _ Hok Hb) as <-.
    exists b. naive_solver.
  - intros (b & Hb & -> & Hor). exists b. split; [done|]. exists (hash b). naive_solver.
Qed.

(** *** Transactions and spends *)
Lemma find_slot_Some t txs k slot :
  find_slot t txs k = Some slot <->
  exists i tx, slot = k + Z.of_nat i /\ txs !! i = Some tx /\ txid tx = t /\
    forall j tx', (j < i)%nat -> txs !! j = Some tx' -> txid tx' <> t.
Proof.
  revert k. induction txs as [|tx txs IH]; intros k; cbn.
  - split; [done|]. naive_solver.
  - case_decide as Ht.
    + split.
      * intros [= <-]. exists 0%nat, tx. split_and!; [lia|done..|lia].
      * intros (i & tx' & -> & Hi & Htx & Hlt). destruct i; [f_equal; lia|].
        by destruct (Hlt 0%nat tx ltac:(lia)).
    + rewrite IH. split.
      * intros (i & tx' & -> & Hi & Htx & Hlt). exists (S i), tx'.
        split_and!; [lia|done..|]. intros [|j] tx'' Hj; cbn; [naive_solver|].
        intros. apply (Hlt j); [lia|done].
      * intros (i & tx' & -> & Hi & Htx & Hlt). destruct i as [|i]; [naive_solver|].
        exists i, tx'. split_and!; [lia|done..|]. intros j tx'' Hj Hjt.
        apply (Hlt (S j)); [lia|done].
Qed.

(** The position of [t] in [b], when [b]'s canonical status is [canonical]. *)
Definition position_in g t (canonical : bool) (b : ChainHeadBlock) : option ChainHeadTxPosition :=
  if Bool.eqb (is_on_best_chain g (reference b)) canonical
  then let! slot := find_slot t (transactions (chb_block b)) 0 in
       Some (mkTxPosition (reference b) slot)
  else None.

(** The scan collects the non-canonical positions in order and keeps the last
    canonical one. *)
Lemma fold_add_location g t l acc :
  fold_left (add_location g t) l acc =
  mkLocations
    (match last (omap (position_in g t true) l) with
     | Some p => Some p | None => best_chain_position acc end)
    (non_best_chain acc ++ omap (position_in g t false) l).
Proof.
  revert acc. induction l as [|b l IH]; intros acc.
  - cbn. rewrite app_nil_r. by destruct acc.
  - cbn [fold_left]. rewrite IH. cbn [omap list_omap].
    unfold add_location, position_in.
    destruct (find_slot t (transactions (chb_block b)) 0) as [slot|];
      destruct (is_on_best_chain g (reference b)); cbn [Bool.eqb non_best_chain best_chain_position].
    + f_equal. rewrite last_cons. by destruct (last _).
    + f_equal. by rewrite <- app_assoc.
    + done.
    + done.
Qed.

Lemma position_in_Some g t c b p :
  position_in g t c b = Some p <->
  is_on_best_chain g (reference b) = c /\
  exists slot, find_slot t (transactions (chb_block b)) 0 = Some slot /\
    p = mkTxPosition (reference b) slot.
Proof.
  unfold position_in. destruct (Bool.eqb_spec (is_on_best_chain g (reference b)) c);
    [|naive_solver].
  destruct (find_slot t (transactions (chb_block b)) 0); naive_solver.
Qed.

Lemma elem_of_txs_spenders b k txs o sp :
  (o, sp) ∈ txs_spenders b k txs <->
  exists i tx inp, txs !! i = Some tx /\ inp ∈ inputs (transparent tx) /\
    o = (prev_txid inp, prev_index inp) /\
    sp = mkSpender (reference b) (txid tx) (k + Z.of_nat i).
Proof.
  revert k. induction txs as [|tx txs IH]; intros k; cbn.
  - rewrite elem_of_nil. naive_solver.
  - rewrite elem_of_app, IH. unfold tx_spenders. rewrite list_elem_of_fmap. split.
    + intros [(inp & Heq & Hin)|(i & tx' & inp & Hi & Hin & -> & ->)].
      * simplify_eq. exists 0%nat, tx, inp. split_and!; [done..|f_equal; lia].
      * exists (S i), tx', inp. split_and!; [done..|f_equal; lia].
    + intros (i & tx' & inp & Hi & Hin & -> & ->). destruct i as [|i]; cbn in Hi.
      * simplify_eq. left. exists inp. split; [|done]. do 2 f_equal. lia.
      * right. exists i, tx', inp. split_and!; [done..|f_equal; lia].
Qed.

Lemma fold_insert_lookup (l : list (Outpoint * SpenderLocation))
    (m : gmap Outpoint SpenderLocation) o :
  let r := fold_left (fun m kv => <[kv.1 := kv.2]> m) l m in
  (forall sp, r !! o = Some sp -> m !! o = Some sp \/ (o, sp) ∈ l) /\
  (r !! o = None -> m !! o = None /\ forall sp, (o, sp) ∉ l).
Proof.
  revert m. induction l as [|[o' sp'] l IH]; intros m; cbn [fold_left].
  - split; [by left|]. intros ?. split; [done|]. intros sp. apply not_elem_of_nil.
  - destruct (IH (<[o' := sp']> m)) as [H1 H2]. cbn [fst snd] in *. split.
    + intros sp [Hl|Hl]%H1; [|by right; right].
      apply lookup_insert_Some in Hl as [[-> ->]|[_ Hl]]; [by right; left|by left].
    + intros [[Hm Hne]%lookup_insert_None Hl]%H2. split; [done|].
      intros sp [?|?]%elem_of_cons; [naive_solver|by apply (Hl sp)].
Qed.

(** ** Properties *)

(** C17: every move keeps the graph contract: the graph holds its tip,
    every canonical block is retained, canonical heights run without gaps up to
    the tip and nothing above it is canonical, and each canonical block's
    parent is the canonical block one height below. *)
Theorem moves_keep_contract g :
  graph_ok g ->
  (forall b g', genuine b -> extend g b = Ok g' -> graph_ok g' /\ tip g' = b) /\
  (forall r g', rewind_to g r = Ok g' -> graph_ok g' /\ best_tip g' = r) /\
  (forall floor, graph_ok (remove_finalised_blocks g floor) /\
     tip (remove_finalised_blocks g floor) = tip g) /\
  (forall prev k, graph_ok (stamp_generation g prev k)) /\
  (forall b, genuine b -> graph_ok (from_initial_block b)).
Proof.
  intros Hok. split_and!.
  - intros b g' Hg He. split; [by eapply extend_ok|].
    by apply extend_Ok in He as (_ & _ & _ & ->).
  - intros r g' Hr. split; [by eapply rewind_to_ok|].
    apply rewind_to_Ok in Hr as [[-> ->]|(_ & Hon & t & Ht & ->)]; [done|]. cbn.
    destruct (ok_keyed _ Hok _ _ Ht) as [Hth Hne].
    destruct (ok_retained _ Hok _ _ Hon) as (b & Hb & Hh).
    unfold block_by_hash in Hb. rewrite decide_False in Hb by congruence.
    assert (b = t) as -> by congruence.
    by apply BlockRef_ext.
  - intros floor. split; [by apply remove_finalised_blocks_ok|done].
  - intros. by apply stamp_generation_ok.
  - intros. by apply from_initial_block_ok.
Qed.

(** A rewind to a canonical block is accepted, makes it the tip,
    leaves canonical exactly the canonical blocks at or below it, and keeps
    every block retained; anything that is not canonical is refused. *)
Theorem rewind_to_spec g r :
  graph_ok g ->
  match rewind_to g r with
  | Ok g' =>
      heights_to_hashes g !! br_height r = Some (br_hash r) /\
      (forall n h, heights_to_hashes g' !! n = Some h <->
         heights_to_hashes g !! n = Some h /\ n <= br_height r) /\
      (forall h, block_by_hash g' h = block_by_hash g h)
  | Err _ => heights_to_hashes g !! br_height r <> Some (br_hash r)
  end.
Proof.
  intros Hok. destruct (rewind_to g r) as [g'|[]] eqn:Hr.
  - split_and!; [| |intros h; by eapply rewind_to_lookup].
    + apply rewind_to_Ok in Hr as [[-> ->]|(_ & ? & _)]; [apply (ok_tip _ Hok)|done].
    + intros n h. apply rewind_to_Ok in Hr as [[-> ->]|(_ & _ & t & _ & ->)].
      * split; [|naive_solver]. intros Hn. split; [done|by apply (ok_above _ Hok n h)].
      * apply lookup_height_filter.
  - intros Hon. unfold rewind_to, is_on_best_chain in Hr.
    rewrite (bool_decide_eq_true_2 (heights_to_hashes g !! br_height r = _)) in Hr by done.
    destruct (bool_decide_reflect (r = reference (tip g))) as [|Hne]; [done|]. cbn in Hr.
    destruct (others g !! br_hash r) eqn:Ho; [done|].
    destruct (ok_retained _ Hok _ _ Hon) as (b & Hb & Hh). unfold block_by_hash in Hb.
    case_decide as Ht; [|congruence]. simplify_eq. apply Hne.
    by apply BlockRef_ext.
Qed.

(** The fork point of a retained block is the first canonical block
    met walking up its parents, found whatever the length of the branch; no
    answer means the walk leaves the window first. *)
Theorem find_fork_point_correct g h r :
  graph_ok g ->
  find_fork_point g h = Some r <->
  exists a b, block_by_hash g h = Some a /\ off_chain_path g a b /\
    reference b = r /\ is_on_best_chain g r = true.
Proof. apply find_fork_point_spec. Qed.

(** The best chain is the canonical blocks from the lowest canonical
    height to the tip, one per height in ascending order, each the parent of
    the next. *)
Theorem best_chain_correct g :
  graph_ok g ->
  exists lo, 0 <= lo <= height (tip g) /\
    height <$> best_chain g = seqZ lo (height (tip g) - lo + 1) /\
    last (best_chain g) = Some (tip g) /\
    (forall n, is_Some (heights_to_hashes g !! n) <-> lo <= n <= height (tip g)) /\
    forall i b b', best_chain g !! i = Some b -> best_chain g !! S i = Some b' ->
      parent_hash b' = hash b.
Proof.
  intros Hok. destruct (best_chain_lookup g Hok) as (lo & Hlo & Hint & Hlen & Hat).
  exists lo. split; [done|]. split_and!; [| |done|].
  - apply list_eq. intros i. rewrite list_lookup_fmap.
    destruct (Z.lt_ge_cases (Z.of_nat i) (height (tip g) - lo + 1)) as [Hi|Hi].
    + destruct (Hat i Hi) as (b & -> & Hb & _). rewrite lookup_seqZ_lt by done. cbn. by rewrite Hb.
    + rewrite lookup_seqZ_ge by lia. rewrite (proj2 (lookup_ge_None _ _)); [done|].
      rewrite Hlen. lia.
  - rewrite last_lookup, Hlen.
    destruct (Hat (Nat.pred (Z.to_nat (height (tip g) - lo + 1)))) as (b & -> & Hb & Hh & Hbb);
      [lia|]. f_equal.
    assert (height b = height (tip g)) as Hbt by lia. rewrite Hbt, (ok_tip _ Hok) in Hh.
    assert (hash b = hash (tip g)) as Hbh by congruence.
    rewrite Hbh, block_by_hash_tip in Hbb. congruence.
  - intros i b b' Hb Hb'. pose proof (lookup_lt_Some _ _ _ Hb') as Hlt. rewrite Hlen in Hlt.
    destruct (Hat i ltac:(lia)) as (b1 & Hb1 & Hn1 & Hh1 & Hr1).
    destruct (Hat (S i) ltac:(lia)) as (b2 & Hb2 & Hn2 & Hh2 & Hr2).
    assert (b = b1) as -> by congruence. assert (b' = b2) as -> by congruence.
    apply (ok_linked _ Hok (height b2) (hash b2)); [done..|].
    by replace (height b2 - 1) with (height b1) by lia.
Qed.

(** The reported chain tips are exactly the retained blocks that no
    retained block names as its parent, together with the canonical tip, which
    alone is active with branch length 0; they come highest first, and a fork
    that meets the best chain inside the window reports its distance to it. *)
Theorem chain_tips_correct g :
  graph_ok g ->
  Sorted chain_tip_le (chain_tips g) /\
  (forall t, t ∈ chain_tips g <->
     exists b, block_by_hash g (hash b) = Some b /\ t = chain_tip_of g b /\
       (hash b = hash (tip g) \/
        forall b', block_by_hash g (hash b') = Some b' -> parent_hash b' <> hash b)) /\
  forall b r, block_by_hash g (hash b) = Some b -> find_fork_point g (hash b) = Some r ->
    ct_branch_len (chain_tip_of g b) = height b - br_height r.
Proof.
  intros Hok. split_and!.
  - apply Sorted_merge_sort. apply _.
  - intros t. by apply elem_of_chain_tips.
  - intros b r Hb Hr. apply find_fork_point_spec in Hr as (a & b' & Ha & Hpath & <- & Hon); [|done].
    assert (a = b) as -> by congruence. rename b into a. clear Hb.
    unfold chain_tip_of; cbn [ct_branch_len].
    destruct (bool_decide_reflect (hash a = br_hash (best_tip g))) as [Heq|_].
    + assert (a = tip g) as ->.
      { rewrite Heq in Ha. unfold best_tip in Ha.
        change (br_hash (reference (tip g))) with (hash (tip g)) in Ha.
        rewrite block_by_hash_tip in Ha. congruence. }
      inversion Hpath as [|? p ? Hoff]; subst; [unfold height; lia|].
      unfold is_on_best_chain in Hoff. apply bool_decide_eq_false in Hoff.
      by destruct Hoff; apply (ok_tip _ Hok).
    + unfold branch_len_to_best_chain. change (br_height (reference b')) with (height b').
      rewrite (branch_walk_spec g _ a b'); [lia|done|by apply (ok_genuine _ Hok (hash a))|lia|done..].
Qed.

(** [p] is the first slot of [t] in a retained block whose canonical status is
    [c]. *)
Definition located g t (c : bool) (p : ChainHeadTxPosition) : Prop :=
  exists b, block_by_hash g (hash b) = Some b /\
    is_on_best_chain g (reference b) = c /\
    exists slot, find_slot t (transactions (chb_block b)) 0 = Some slot /\
      p = mkTxPosition (reference b) slot.

(** Whatever order the blocks are visited in, a transaction's canonical
    position names a canonical retained block and its first slot there, is
    absent exactly when no canonical block holds the transaction, and the other
    positions are exactly those on competing branches. *)
Theorem transaction_locations_correct g t :
  graph_ok g ->
  (forall p, best_chain_position (transaction_locations g t) = Some p -> located g t true p) /\
  (best_chain_position (transaction_locations g t) = None -> forall p, ~ located g t true p) /\
  (forall p, p ∈ non_best_chain (transaction_locations g t) <-> located g t false p).
Proof.
  intros Hok. set (found := located g t).
  assert (Hin : forall c p, p ∈ omap (position_in g t c) (blocks g) <-> found c p).
  { intros c p. rewrite list_elem_of_omap. unfold found, located.
    setoid_rewrite elem_of_blocks; [|done]. setoid_rewrite position_in_Some. naive_solver. }
  unfold transaction_locations. rewrite fold_add_location.
  cbn [best_chain_position non_best_chain]. split_and!.
  - intros p Hp. apply Hin. destruct (last _) eqn:Hl; [|done]. simplify_eq.
    by apply last_Some_elem_of.
  - intros Hn p Hp%Hin. destruct (last _) eqn:Hl; [done|].
    apply last_None in Hl. rewrite Hl in Hp. by apply elem_of_nil in Hp.
  - intros p. rewrite app_nil_l. apply Hin.
Qed.

(** [sp] is a transaction of a canonical retained block with an input naming
    [o]. *)
Definition canonical_spend g (o : Outpoint) (sp : SpenderLocation) : Prop :=
  exists b i tx inp, block_by_hash g (hash b) = Some b /\
    is_on_best_chain g (reference b) = true /\
    transactions (chb_block b) !! i = Some tx /\ inp ∈ inputs (transparent tx) /\
    o = (prev_txid inp, prev_index inp) /\
    sp = mkSpender (reference b) (txid tx) (Z.of_nat i).

(** One answer per asked outpoint; a spender is a transaction of a
    canonical block with an input naming the outpoint, and no answer means no
    canonical block spends it: spends on competing branches never count. *)
Theorem outpoint_spenders_correct g outpoints :
  graph_ok g ->
  Forall2 (fun o r =>
    match r with
    | Some sp => canonical_spend g o sp
    | None => forall sp, ~ canonical_spend g o sp
    end) outpoints (outpoint_spenders g outpoints).
Proof.
  intros Hok. set (spends := canonical_spend g).
  assert (Hin : forall o sp,
    (o, sp) ∈ concat (block_spenders <$> omap (block_by_hash g) (values (heights_to_hashes g)))
    <-> spends o sp).
  { intros o sp. rewrite list_elem_of_In, in_concat. setoid_rewrite <- list_elem_of_In.
    setoid_rewrite list_elem_of_fmap. setoid_rewrite list_elem_of_omap.
    setoid_rewrite elem_of_values. unfold spends, canonical_spend, is_on_best_chain. split.
    - intros (l & (b & -> & h & [n Hn] & Hb) & Hl). apply elem_of_txs_spenders in Hl
        as (i & tx & inp & Hi & Hinp & -> & ->).
      destruct (ok_retained _ Hok _ _ Hn) as (b' & Hb' & Hh). simplify_eq.
      pose proof (block_by_hash_hash _ _ _ Hok Hb) as <-.
      exists b, i, tx, inp. split_and!; try done. by apply bool_decide_eq_true.
    - intros (b & i & tx & inp & Hb & Hon & Hi & Hinp & -> & ->).
      apply bool_decide_eq_true in Hon. exists (block_spenders b). split; [|].
      + exists b. split; [done|]. exists (hash b). split; [by exists (height b)|done].
      + apply elem_of_txs_spenders. exists i, tx, inp. done. }
  assert (Hmap : forall o, match spenders_map g !! o with
    | Some sp => spends o sp | None => forall sp, ~ spends o sp end).
  { intros o. destruct (fold_insert_lookup
      (concat (block_spenders <$> omap (block_by_hash g) (values (heights_to_hashes g)))) ∅ o)
      as [H1 H2].
    fold (spenders_map g) in H1, H2. destruct (spenders_map g !! o) as [sp|].
    - destruct (H1 sp eq_refl) as [Hl|Hl]; [by rewrite lookup_empty in Hl|by apply Hin].
    - destruct (H2 eq_refl) as [_ Hl]. intros sp Hsp%Hin. by apply (Hl sp). }
  unfold outpoint_spenders. destruct outpoints as [|o os]; [constructor|].
  apply Forall2_fmap_r, Forall_Forall2_diag, Forall_true. intros o'. apply Hmap.
Qed.
End Contract.

(** ** A concrete window

    A chain of blocks [0] - [1] - [2] and a competitor [12] of [2]; the spec
    theorems instantiated on it. *)
Module Example.

Definition ex_bits : CompactDifficulty.CompactDifficulty :=
  CompactDifficulty.mkCompactDifficulty 0x2007ffff 32.
Definition no_shielded : OrchardData := mkOrchardData [] 0.
Definition ex_tx (t : Z) (ins : list TransparentInput) : Transaction :=
  mkTransaction [t] (mkTransparentData ins []) (mkSaplingData [] [] 0) no_shielded no_shielded.
Definition ex_header (h p n : Z) : BlockHeader :=
  mkBlockHeader [h] 4 [p] n 0 [] [] ex_bits [] (Regtest []).
Definition ex_block (h p n : Z) (txs : list Transaction) : ChainHeadBlock :=
  mkChainHeadBlock (mkBlockRef [h] n) [p] (32 * (n + 1))
    (mkBlock (ex_header h p n) txs (mkChainMetadata 0 0 0)) (mkTreeRoots None None None).

Definition b0 := ex_block 0 255 0 [ex_tx 50 []].
Definition b1 := ex_block 1 0 1 [ex_tx 51 [mkTransparentInput [50] 0]].
Definition b2 := ex_block 2 1 2 [ex_tx 52 []].
Definition b12 := ex_block 12 1 2 [ex_tx 62 []].

Definition ex_map : gmap BlockHash TreeEntry :=
  {[ [0] := mkTreeEntry 0 [255] 32; [1] := mkTreeEntry 1 [0] 64;
     [2] := mkTreeEntry 2 [1] 96; [12] := mkTreeEntry 2 [1] 96; [3] := mkTreeEntry 3 [2] 128;
     [13] := mkTreeEntry 3 [12] 128 ]}.
Definition ex_tree (h : BlockHash) : option TreeEntry := ex_map !! h.

Definition entry_okb (e : TreeEntry) : bool :=
  (0 <=? te_height e) && (te_height e <=? Height.MAX_HEIGHT) &&
  match ex_map !! te_parent e with
  | Some e' => (te_height e =? te_height e' + 1) && (te_chainwork e' <? te_chainwork e)
  | None => true
  end.

Lemma ex_tree_ok : tree_ok ex_tree.
Proof.
  assert (map_Forall (fun _ e => entry_okb e = true) ex_map) as Hall
    by (refine (bool_decide_unpack _ _); vm_compute; exact I).
  intros h e He. specialize (Hall h e He). unfold entry_okb in Hall.
  apply andb_prop in Hall as [Hv Hl]. zbool. split; [split; lia|].
  intros e' He'. unfold ex_tree in He'. rewrite He' in Hl. zbool. lia.
Qed.

Definition unwrap_graph {E} (r : result MapBackedSnapshot E) (d : MapBackedSnapshot) :=
  match r with Ok g => g | Err _ => d end.
Definition g0 := from_initial_block b0.
Definition g1 := Eval vm_compute in unwrap_graph (extend g0 b1) g0.
Definition g2 := Eval vm_compute in unwrap_graph (extend g1 b2) g1.
(** The competitor laid down after rewinding to [1]. *)
Definition g12 := Eval vm_compute in
  unwrap_graph (extend (unwrap_graph (rewind_to g2 (reference b1)) g2) b12) g2.

Lemma ex_genuine b e :
  ex_tree (hash b) = Some e -> te_height e = height b -> te_parent e = parent_hash b ->
  genuine ex_tree b.
Proof. intros. exists e. done. Qed.

Ltac ex_genuine := eapply ex_genuine; [vm_compute; reflexivity|reflexivity..].

Lemma g1_ok : graph_ok ex_tree g1.
Proof.
  eapply (extend_ok ex_tree g0 b1); [|ex_genuine|vm_compute; reflexivity].
  apply from_initial_block_ok. ex_genuine.
Qed.
Lemma g2_ok : graph_ok ex_tree g2.
Proof. eapply (extend_ok ex_tree g1 b2); [apply g1_ok|ex_genuine|vm_compute; reflexivity]. Qed.
Lemma g12_ok : graph_ok ex_tree g12.
Proof.
  eapply (extend_ok ex_tree (unwrap_graph (rewind_to g2 (reference b1)) g2) b12);
    [|ex_genuine|vm_compute; reflexivity].
  eapply (rewind_to_ok ex_tree g2 (reference b1)); [apply g2_ok|vm_compute; reflexivity].
Qed.

Lemma moves_keep_contract_witness :
  graph_ok ex_tree g2 /\ graph_ok ex_tree (remove_finalised_blocks g2 1).
Proof.
  split.
  - apply (proj1 (moves_keep_contract ex_tree g1 g1_ok) b2 g2);
      [ex_genuine|vm_compute; reflexivity].
  - apply (moves_keep_contract ex_tree g2 g2_ok).
Defined.

Lemma rewind_to_spec_witness :
  exists g', rewind_to g2 (reference b1) = Ok g' /\ block_by_hash g' [2] = Some b2.
Proof.
  pose proof (rewind_to_spec ex_tree g2 (reference b1) g2_ok) as Hs.
  destruct (rewind_to g2 (reference b1)) as [g'|] eqn:Hr.
  - exists g'. split; [reflexivity|]. rewrite (proj2 (proj2 Hs)). vm_compute. reflexivity.
  - exfalso. apply Hs. vm_compute. reflexivity.
Defined.

(** The fork point of the displaced block [2] is [1]. *)
Lemma find_fork_point_correct_witness : find_fork_point g12 [2] = Some (mkBlockRef [1] 1).
Proof.
  apply (find_fork_point_correct ex_tree ex_tree_ok g12 [2] (mkBlockRef [1] 1) g12_ok).
  exists b2, b1. split_and!; [vm_compute; reflexivity| |reflexivity|vm_compute; reflexivity].
  eapply path_up; [vm_compute; reflexivity|vm_compute; reflexivity|apply path_here].
Defined.

Local Existing Instance canonical_iter.

Lemma best_chain_correct_witness : last (best_chain g12) = Some b12.
Proof.
  destruct (best_chain_correct ex_tree ex_tree_ok g12 g12_ok) as (lo & _ & _ & Hl & _).
  exact Hl.
Defined.

Lemma chain_tips_correct_witness : mkChainTip 2 [2] 1 ValidFork ∈ chain_tips g12.
Proof.
  apply (proj1 (proj2 (chain_tips_correct ex_tree ex_tree_ok g12 g12_ok))).
  exists b2. split; [vm_compute; reflexivity|]. split; [vm_compute; reflexivity|]. right.
  intros b' Hb'. apply (elem_of_blocks ex_tree g12 b' g12_ok) in Hb'.
  assert (Forall (fun b => bool_decide (parent_hash b <> hash b2) = true) (blocks g12)) as Hall
    by (vm_compute; repeat constructor).
  rewrite Forall_forall in Hall. specialize (Hall b' Hb').
  by apply bool_decide_eq_true in Hall.
Defined.

Lemma transaction_locations_correct_witness :
  mkTxPosition (mkBlockRef [2] 2) 0 ∈ non_best_chain (transaction_locations g12 [52]).
Proof.
  apply (proj2 (proj2 (transaction_locations_correct ex_tree g12 [52] g12_ok))).
  exists b2. split_and!; [vm_compute; reflexivity..|]. exists 0. split; vm_compute; reflexivity.
Defined.

Lemma outpoint_spenders_correct_witness :
  canonical_spend g12 ([50], 0) (mkSpender (mkBlockRef [1] 1) [51] 0).
Proof.
  pose proof (outpoint_spenders_correct ex_tree g12 [([50], 0)] g12_ok) as Hf.
  assert (outpoint_spenders g12 [([50], 0)] = [Some (mkSpender (mkBlockRef [1] 1) [51] 0)]) as Hr
    by (vm_compute; reflexivity).
  rewrite Hr in Hf. by apply Forall2_cons_1 in Hf as [Hf _].
Defined.

End Example.

End ChainGraph.
