(* ===== verification/ChainHead.v ===== *)
(** * The chain-head writer
    ([packages/zaino-chain-head-service/src/service.rs], [error.rs])

    One iteration of the writer: read the validator's tip, extend or reorganise
    the graph against a source that may change between any two questions, trim,
    publish the reorg horizon, and publish the snapshot.  The source is a
    parameter; what it serves is genuine when it agrees with the validator's
    block tree. *)

From S2P Require Import Prelude Primitives Difficulty Types Seam ChainGraph Status.
From stdpp Require Import base gmap list strings sets.
From Stdlib Require Import ZArith Lia.
Open Scope string_scope.
Open Scope Z_scope.

Module ChainHead.
Import ChainGraph.

(** ** Source and errors *)
Inductive SourceError (D : Type) := Unavailable | NonDomain | Domain (d : D).
Arguments Unavailable {D}.
Arguments NonDomain {D}.
Arguments Domain {D} d.

Inductive GetBlockError := HeightNotFound (h : Height).
Inductive GetBlockByHashError := NotFound (h : BlockHash).

Inductive ChainHeadAdvanceError :=
| AdvUnavailable
| AdvTransport
| AdvRejected (query : string)
| InconsistentSource (what : string)
| ReorgFailure (what : string).

(** [ChainHeadAdvanceError::from_source] *)
Definition from_source {D} (query : string) (e : SourceError D) : ChainHeadAdvanceError :=
  match e with
  | Unavailable => AdvUnavailable
  | NonDomain => AdvTransport
  | Domain _ => AdvRejected query
  end.

(** The [ChainHeadBlockSource] ports.  A question may change the source's state
    (or time may pass), so two askings need not agree. *)
Record Source := mkSource {
  src_state : Type;
  get_chain_tip : src_state -> result (BlockHash * Height) (SourceError unit) * src_state;
  get_block : Height -> src_state -> result Block (SourceError GetBlockError) * src_state;
  get_block_by_hash :
    BlockHash -> src_state -> result Block (SourceError GetBlockByHashError) * src_state;
  get_commitment_tree_roots :
    BlockHash -> src_state -> result TreeRoots (SourceError unit) * src_state }.

(** ** The writer's effects

    A computation reads and writes the source's state and the seam, and answers
    a [Result]; [None] is a loop that ran out of the turns it was given. *)
Section Writer.
Context `{HashIter} (Src : Source) (max_depth : Z).

Record World := mkWorld { src : src_state Src; seam : Seam.SeamState }.

Definition M (A : Type) : Type := World -> option (result A ChainHeadAdvanceError * World).

Definition ret {A} (a : A) : M A := fun w => Some (Ok a, w).
Definition throw {A} (e : ChainHeadAdvanceError) : M A := fun w => Some (Err e, w).
Definition bind {A B} (m : M A) (k : A -> M B) : M B := fun w =>
  match m w with
  | None => None
  | Some (Err e, w) => Some (Err e, w)
  | Some (Ok a, w) => k a w
  end.
Local Notation "'let*' x ':=' m 'in' k" := (bind m (fun x => k))
  (at level 10, x pattern, m at level 200, k at level 200).

Definition lift {A} (r : result A ChainHeadAdvanceError) : M A := fun w => Some (r, w).
Definition ask {A E} (f : src_state Src -> result A E * src_state Src) : M (result A E) := fun w =>
  let '(r, s) := f (src w) in Some (Ok r, mkWorld s (seam w)).

(** [present_or_absent], with the domain error meaning absence. *)
Definition present_or_absent {T E} (read : result T (SourceError E)) (query : string)
    (is_absent : E -> bool) : result (option T) ChainHeadAdvanceError :=
  match read with
  | Ok b => Ok (Some b)
  | Err (Domain d) => if is_absent d then Ok None else Err (from_source query (Domain d))
  | Err e => Err (from_source query e)
  end.

Definition block_at_height (h : Height) : M (option Block) :=
  let* r := ask (get_block Src h) in
  lift (present_or_absent r "get_block" (fun d => match d with HeightNotFound _ => true end)).

Definition block_at_hash (h : BlockHash) : M (option Block) :=
  let* r := ask (get_block_by_hash Src h) in
  lift (present_or_absent r "get_block_by_hash" (fun d => match d with NotFound _ => true end)).

Definition chain_tip : M BlockRef :=
  let* r := ask (get_chain_tip Src) in
  match r with
  | Ok (h, n) => ret (mkBlockRef h n)
  | Err e => throw (from_source "get_chain_tip" e)
  end.

Definition tree_roots_of (h : BlockHash) : M TreeRoots :=
  let* r := ask (get_commitment_tree_roots Src h) in
  match r with
  | Ok t => ret t
  | Err e => throw (from_source "get_commitment_tree_roots" e)
  end.

(** [chain_head_block]: work accumulates onto the parent's, or starts at the
    anchor's own. *)
Definition chain_head_block (b : Block) (roots : TreeRoots) (parent_work : option Z)
    : result ChainHeadBlock ChainHeadAdvanceError :=
  let block_work := CompactDifficulty.cd_work (h_bits (header b)) in
  let? work :=
    match parent_work with
    | Some parent =>
        ok_or (chain_head_work_checked_add parent block_work)
          (ReorgFailure "accumulated work overflowed")
    | None => Ok block_work
    end in
  Ok (mkChainHeadBlock (mkBlockRef (h_hash (header b)) (h_height (header b)))
        (h_prev_hash (header b)) work b roots).

Definition block_to_chainblock (prev : ChainHeadBlock) (b : Block) : M ChainHeadBlock :=
  let* roots := tree_roots_of (h_hash (header b)) in
  lift (chain_head_block b roots (Some (chb_work prev))).

(** A block on a reorg's branch: already in the graph, or fetched. *)
Inductive BranchBlock := Retained (b : ChainHeadBlock) | Fetched (b : Block).

Definition branch_parent_hash (b : BranchBlock) : BlockHash :=
  match b with Retained b => parent_hash b | Fetched b => h_prev_hash (header b) end.
Definition to_chain_head_block (b : BranchBlock) (prev : ChainHeadBlock) : M ChainHeadBlock :=
  match b with Retained b => ret b | Fetched b => block_to_chainblock prev b end.

(** [height_below] and [next_height] *)
Definition height_below (h : Height) (delta : Z) : Height := Height.height_saturating_sub h delta.
Definition next_height (h : Height) : Height :=
  match Height.height_checked_add h 1 with Some n => n | None => h end.

Definition extend_or (g : MapBackedSnapshot) (b : ChainHeadBlock) (what : string)
    : M MapBackedSnapshot :=
  lift (map_err (fun _ => ReorgFailure what) (extend g b)).

(** *** [handle_reorg]

    The descent counts [descended = 0, 1, ..] and fails once it exceeds
    [max_depth]: [turns] is how many more checks it passes.  The branch is
    collected newest first and laid down in reverse. *)
Fixpoint descend (turns : nat) (g : MapBackedSnapshot) (ph : BlockHash)
    (branch : list BranchBlock) : M (ChainHeadBlock * list BranchBlock) :=
  match turns with
  | O => throw (ReorgFailure "reorg handling walked beyond the consensus reorg limit")
  | S turns =>
      match block_by_hash g ph with
      | Some prev =>
          if is_on_best_chain g (reference prev) then ret (prev, branch)
          else descend turns g (parent_hash prev) (Retained prev :: branch)
      | None =>
          let* found := block_at_hash ph in
          match found with
          | None => throw (InconsistentSource "validator is missing the parent of a block it served")
          | Some fetched => descend turns g (h_prev_hash (header fetched)) (Fetched fetched :: branch)
          end
      end
  end.

Fixpoint lay_down (g : MapBackedSnapshot) (prev : ChainHeadBlock) (branch : list BranchBlock)
    : M (MapBackedSnapshot * ChainHeadBlock) :=
  match branch with
  | [] => ret (g, prev)
  | pending :: branch =>
      let* b := to_chain_head_block pending prev in
      let* g := extend_or g b "laying down a reorg branch block" in
      lay_down g b branch
  end.

Definition handle_reorg (g : MapBackedSnapshot) (b : BranchBlock)
    : M (MapBackedSnapshot * ChainHeadBlock) :=
  let* (fork_point, branch) :=
    descend (S (Z.to_nat max_depth)) g (branch_parent_hash b) [] in
  let* g := lift (map_err (fun _ => ReorgFailure "rewinding to fork point")
                    (rewind_to g (reference fork_point))) in
  let* (g, prev) := lay_down g fork_point branch in
  let* chainblock := to_chain_head_block b prev in
  let* g := extend_or g chainblock "extending to the reorg tip" in
  ret (g, chainblock).

(** *** [check_for_nonhigher_reorgs]: [target] counts down from the tip. *)
Fixpoint nonhigher_loop (tip_height : Height) (g : MapBackedSnapshot) (target : nat)
    : M MapBackedSnapshot :=
  if saturating_add 32 (Z.of_nat target) max_depth <? tip_height then
    throw (ReorgFailure "reorg detection walked beyond the consensus reorg limit")
  else
    let* found := block_at_height (Z.of_nat target) in
    match found with
    | Some b =>
        if negb (bool_decide (h_hash (header b) = br_hash (best_tip g)))
        then let* (g, _) := handle_reorg g (Fetched b) in ret g
        else ret g
    | None =>
        match target with
        | O => ret g
        | S target => nonhigher_loop tip_height g target
        end
    end.

Definition check_for_nonhigher_reorgs (g : MapBackedSnapshot) : M MapBackedSnapshot :=
  nonhigher_loop (br_height (best_tip g)) g (Z.to_nat (br_height (best_tip g))).

(** *** [next_graph] *)
Definition resolve_anchor_block (anchor_height : Height) : M ChainHeadBlock :=
  let* found := block_at_height anchor_height in
  match found with
  | None => throw (InconsistentSource "anchor block unavailable from validator")
  | Some b =>
      let* roots := tree_roots_of (h_hash (header b)) in
      lift (chain_head_block b roots None)
  end.

Fixpoint extend_loop (fuel : nat) (chain_height : Height) (g : MapBackedSnapshot)
    : M MapBackedSnapshot :=
  if br_height (best_tip g) <? chain_height then
    match fuel with
    | O => fun _ => None
    | S fuel =>
        let* found := block_at_height (next_height (br_height (best_tip g))) in
        match found with
        | None => ret g
        | Some b =>
            if bool_decide (h_prev_hash (header b) = br_hash (best_tip g)) then
              let* chainblock := block_to_chainblock (tip g) b in
              let* g := extend_or g chainblock "extending to a block the validator served" in
              extend_loop fuel chain_height g
            else
              let* (g, _) := handle_reorg g (Fetched b) in
              extend_loop fuel chain_height g
        end
    end
  else ret g.

(** The trim floor: the lower of the reorg-safety and retention floors. *)
Definition trim_floor (g : MapBackedSnapshot) (st : Seam.SeamState) : Height :=
  let reorg_safety_floor := height_below (br_height (best_tip g)) max_depth in
  match Seam.retention_floor st with
  | Some retention_floor => Z.min reorg_safety_floor retention_floor
  | None => Height.GENESIS
  end.

(** Publishing the horizon; a seam fault is logged and dropped. *)
Definition publish_horizon (g : MapBackedSnapshot) (st : Seam.SeamState) : Seam.SeamState :=
  let tip := br_height (best_tip g) in
  let horizon_height := height_below tip (Seam.reorg_depth st) in
  match best_block_by_height g horizon_height with
  | Some b =>
      match Seam.horizon_advance st tip (hash b) with
      | Ok (_, st) => st
      | Err _ => st
      end
  | None => st
  end.

(** The most-work branch wins, the tip winning ties. *)
Definition select_heaviest (g : MapBackedSnapshot) : M MapBackedSnapshot :=
  let heaviest := heaviest_block g in
  if chb_work (tip g) <? chb_work heaviest
  then let* (g, _) := handle_reorg g (Retained heaviest) in ret g
  else ret g.

Definition next_graph (fuel : nat) (previous : MapBackedSnapshot) (chain_height : Height)
    : M MapBackedSnapshot :=
  let anchor_height := height_below chain_height max_depth in
  let* g :=
    if br_height (best_tip previous) <? anchor_height
    then let* b := resolve_anchor_block anchor_height in ret (from_initial_block b)
    else ret previous in
  let* g := extend_loop fuel chain_height g in
  let* g := check_for_nonhigher_reorgs g in
  fun w =>
    let g := remove_finalised_blocks g (trim_floor g (seam w)) in
    let w := mkWorld (src w) (publish_horizon g (seam w)) in
    select_heaviest g w.

(** ** The published cell *)
Record ChainStateEpoch := mkEpoch { ep_generation : Z; ep_best_tip : BlockRef }.

Inductive TickOutcome := Advanced | Failed.

Definition next_status (current : Status.StatusType) (outcome : TickOutcome) : Status.StatusType :=
  match current, outcome with
  | Status.Closing, _ => Status.Closing
  | _, Advanced => Status.Ready
  | _, Failed => Status.RecoverableError
  end.

Record Service := mkService {
  current : MapBackedSnapshot;
  updates : ChainStateEpoch;
  status : Status.StatusType;
  world : World }.

(** [epoch] of a snapshot. *)
Definition epoch (g : MapBackedSnapshot) : ChainStateEpoch :=
  mkEpoch (generation g) (best_tip g).

Definition publish_snapshot (s : Service) (previous next : MapBackedSnapshot) : Service :=
  let tip_changed := negb (bool_decide (best_tip next = best_tip previous)) in
  let next := stamp_generation next previous (ep_generation (updates s)) in
  mkService next
    (if tip_changed then mkEpoch (generation next) (best_tip next) else updates s)
    (status s) (world s).

Definition mark_fresh (s : Service) : Service :=
  mkService (current s) (updates s) (next_status (status s) Advanced) (world s).
Definition mark_failed (s : Service) : Service :=
  mkService (current s) (updates s) (next_status (status s) Failed) (world s).
Definition with_world (s : Service) (w : World) : Service :=
  mkService (current s) (updates s) (status s) w.

(** [tick], and the loop's handling of its outcome. *)
Definition tick (fuel : nat) (s : Service) : option (result unit ChainHeadAdvanceError * Service) :=
  match chain_tip (world s) with
  | None => None
  | Some (Err e, w) => Some (Err e, with_world s w)
  | Some (Ok t, w) =>
      let s := with_world s w in
      if bool_decide (t = best_tip (current s)) then Some (Ok tt, mark_fresh s)
      else
        match next_graph fuel (current s) (br_height t) (world s) with
        | None => None
        | Some (Err e, w) => Some (Err e, with_world s w)
        | Some (Ok next, w) =>
            let s := mark_fresh (with_world s w) in
            Some (Ok tt, publish_snapshot s (current s) next)
        end
  end.

Definition run_iteration (fuel : nat) (s : Service) : option Service :=
  match tick fuel s with
  | None => None
  | Some (Ok _, s) => Some s
  | Some (Err _, s) => Some (mark_failed s)
  end.

(** [anchor] / [anchored]: the service before its first iteration. *)
Definition anchored (w : World) : option (result Service ChainHeadAdvanceError) :=
  let m : M MapBackedSnapshot :=
    let* t := ask (get_chain_tip Src) in
    match t with
    | Err e => throw (from_source "get_chain_tip" e)
    | Ok (_, tip_height) =>
        let* r := ask (get_block Src (height_below tip_height max_depth)) in
        match r with
        | Err e => throw (from_source "get_block" e)
        | Ok b =>
            let* roots := tree_roots_of (h_hash (header b)) in
            let* c := lift (chain_head_block b roots None) in
            ret (from_initial_block c)
        end
    end in
  match m w with
  | None => None
  | Some (Err e, _) => Some (Err e)
  | Some (Ok g, w) =>
      Some (Ok (mkService g (mkEpoch 0 (best_tip g)) Status.Syncing w))
  end.
End Writer.

(** ** A logic for the writer's computations

    [wp m w Q]: if [m] run in [w] succeeds, its answer satisfies [Q]. *)
Section Logic.
Context {Src : Source}.
Local Abbreviation M := (M Src).
Local Abbreviation World := (World Src).

Definition wp {A} (m : M A) (w : World) (Q : A -> World -> Prop) : Prop :=
  match m w with
  | Some (Ok a, w') => Q a w'
  | _ => True
  end.

Lemma wp_ret {A} (a : A) w (Q : A -> World -> Prop) : Q a w -> wp (ret Src a) w Q.
Proof. done. Qed.
Lemma wp_throw {A} e w (Q : A -> World -> Prop) : wp (throw Src e) w Q.
Proof. done. Qed.
Lemma wp_bind {A B} (m : M A) (k : A -> M B) w Q :
  wp m w (fun a w' => wp (k a) w' Q) -> wp (bind Src m k) w Q.
Proof. unfold wp, bind. destruct (m w) as [[[a|e] w']|]; done. Qed.
Lemma wp_mono {A} (m : M A) w (Q Q' : A -> World -> Prop) :
  (forall a w', Q a w' -> Q' a w') -> wp m w Q -> wp m w Q'.
Proof. unfold wp. destruct (m w) as [[[a|e] w']|]; auto. Qed.
Lemma wp_lift {A} (r : result A ChainHeadAdvanceError) w (Q : A -> World -> Prop) :
  (forall a, r = Ok a -> Q a w) -> wp (lift Src r) w Q.
Proof. unfold wp, lift. destruct r; auto. Qed.
Lemma wp_ask {A E} (f : src_state Src -> result A E * src_state Src) w
    (Q : result A E -> World -> Prop) :
  (forall r s, f (src _ w) = (r, s) -> Q r (mkWorld Src s (seam _ w))) -> wp (ask Src f) w Q.
Proof. unfold wp, ask. destruct (f (src _ w)) as [r s]. auto. Qed.

Lemma wp_any {A} (m : M A) w (Q : A -> World -> Prop) :
  (forall a w', Q a w') -> wp m w Q.
Proof. unfold wp. destruct (m w) as [[[a|e] w']|]; auto. Qed.

(** [total m]: [m] always answers. *)
Definition total {A} (m : M A) : Prop := forall w, m w <> None.

Lemma total_ret {A} (a : A) : total (ret Src a).
Proof. done. Qed.
Lemma total_throw {A} e : total (throw Src e : M A).
Proof. done. Qed.
Lemma total_lift {A} (r : result A ChainHeadAdvanceError) : total (lift Src r).
Proof. done. Qed.
Lemma total_ask {A E} (f : src_state Src -> result A E * src_state Src) : total (ask Src f).
Proof. intros w. unfold ask. by destruct (f (src _ w)). Qed.
Lemma total_bind {A B} (m : M A) (k : A -> M B) :
  total m -> (forall a, total (k a)) -> total (bind Src m k).
Proof.
  intros Hm Hk w. unfold bind. specialize (Hm w).
  destruct (m w) as [[[a|e] w']|]; [apply Hk|done..].
Qed.

(** A sequence answers when its first half does and its second half does on
    every answer the first can give. *)
Lemma wp_answers {A B} (m : M A) (k : A -> M B) (Q : A -> World -> Prop) w :
  m w <> None -> wp m w Q -> (forall a w', Q a w' -> k a w' <> None) ->
  bind Src m k w <> None.
Proof. unfold wp, bind. destruct (m w) as [[[a|e] w']|]; auto. Qed.
End Logic.

Arguments wp {Src A} m w Q : simpl never.
Create HintDb writer discriminated.
Global Hint Resolve total_ret total_throw total_lift total_ask total_bind : writer.

Section Correctness.
Context `{HashIter} (Src : Source) (max_depth : Z).
Context (tree : BlockHash -> option TreeEntry) (Htree : tree_ok tree).

Local Abbreviation World := (World Src).

(** A served block agrees with the tree, down to the work it adds. *)
Definition genuine_served (b : Block) : Prop :=
  exists e, tree (h_hash (header b)) = Some e /\
    te_height e = h_height (header b) /\ te_parent e = h_prev_hash (header b) /\
    forall e', tree (te_parent e) = Some e' ->
      te_chainwork e = te_chainwork e' + CompactDifficulty.cd_work (h_bits (header b)).

Definition source_genuine : Prop :=
  (forall n s b s', get_block Src n s = (Ok b, s') -> genuine_served b) /\
  (forall h s b s', get_block_by_hash Src h s = (Ok b, s') -> genuine_served b).

Context (Hsrc : source_genuine).

(** [b]'s work is [c] short of its absolute chain work. *)
Definition work_at (c : Z) (b : ChainHeadBlock) : Prop :=
  forall e, tree (hash b) = Some e -> chb_work b + c = te_chainwork e.

Definition pending_ok (c : Z) (p : BranchBlock) : Prop :=
  match p with
  | Retained b => genuine tree b /\ work_at c b
  | Fetched b => genuine_served b
  end.

Lemma block_at_height_wp n w :
  wp (block_at_height Src n) w (fun o w' => seam _ w' = seam _ w /\
    forall b, o = Some b -> genuine_served b).
Proof.
  unfold block_at_height. apply wp_bind, wp_ask. intros r s' Hr. apply wp_lift.
  intros o Ho. split; [done|]. intros b ->. unfold present_or_absent in Ho.
  destruct r as [b'|[| |[]]]; simplify_eq. by eapply (proj1 Hsrc).
Qed.

Lemma block_at_hash_wp h w :
  wp (block_at_hash Src h) w (fun o w' => seam _ w' = seam _ w /\
    forall b, o = Some b -> genuine_served b).
Proof.
  unfold block_at_hash. apply wp_bind, wp_ask. intros r s' Hr. apply wp_lift.
  intros o Ho. split; [done|]. intros b ->. unfold present_or_absent in Ho.
  destruct r as [b'|[| |[]]]; simplify_eq. by eapply (proj2 Hsrc).
Qed.

Lemma tree_roots_wp h w : wp (tree_roots_of Src h) w (fun _ w' => seam _ w' = seam _ w).
Proof.
  unfold tree_roots_of. apply wp_bind, wp_ask. intros r s' Hr.
  destruct r; [apply wp_ret|apply wp_throw]. done.
Qed.

Lemma chain_head_block_Ok b roots pw c :
  chain_head_block b roots pw = Ok c ->
  hash c = h_hash (header b) /\ height c = h_height (header b) /\
  parent_hash c = h_prev_hash (header b) /\ tree_roots c = roots /\ chb_block c = b /\
  chb_work c = CompactDifficulty.cd_work (h_bits (header b)) +
    match pw with Some p => p | None => 0 end.
Proof.
  unfold chain_head_block. destruct pw as [p|].
  - destruct (chain_head_work_checked_add p _) as [v|] eqn:Hv; cbn; [|done].
    apply checked_add_Some in Hv as [-> _]. intros [= <-]. cbn. split_and!; (done || lia).
  - intros [= <-]. cbn. split_and!; (done || lia).
Qed.

Lemma served_genuine b c roots pw :
  genuine_served b -> chain_head_block b roots pw = Ok c -> genuine tree c.
Proof.
  intros (e & He & Hh & Hp & _) (Hch & Hcn & Hcp & _)%chain_head_block_Ok.
  exists e. rewrite Hch, Hcn, Hcp. done.
Qed.

(** Building the next block of a branch above [prev]. *)
Lemma to_chain_head_block_wp c p prev w :
  pending_ok c p -> work_at c prev -> genuine tree prev ->
  wp (to_chain_head_block Src p prev) w (fun b w' => seam _ w' = seam _ w /\
    genuine tree b /\ (parent_hash b = hash prev -> work_at c b) /\
    parent_hash b = branch_parent_hash p).
Proof.
  intros Hp Hw Hg. destruct p as [b|b]; cbn in Hp |- *.
  - apply wp_ret. naive_solver.
  - unfold block_to_chainblock. apply wp_bind.
    eapply wp_mono, tree_roots_wp. intros roots w' Hs. apply wp_lift. intros b' Hb'.
    split; [done|]. split; [by eapply served_genuine|].
    apply chain_head_block_Ok in Hb' as (Hh & _ & Hpar & _ & _ & Hwk). split; [|done].
    intros Hpp e He. destruct Hp as (e0 & He0 & _ & Hpe & Hlink).
    rewrite Hh, He0 in He. simplify_eq.
    destruct Hg as (ep & Hep & _ & _). rewrite Hpe, <- Hpar, Hpp in Hlink.
    specialize (Hlink ep Hep). specialize (Hw ep Hep). lia.
Qed.

Lemma descend_wp c turns g ph br w :
  graph_ok tree g -> work_from tree c g -> Forall (pending_ok c) br ->
  wp (descend Src turns g ph br) w (fun '(fp, br') w' => seam _ w' = seam _ w /\
    block_by_hash g (hash fp) = Some fp /\ is_on_best_chain g (reference fp) = true /\
    Forall (pending_ok c) br').
Proof.
  intros Hok Hw. revert ph br w. induction turns as [|turns IH]; intros ph br w Hbr; cbn;
    [apply wp_throw|].
  destruct (block_by_hash g ph) as [prev|] eqn:Hprev.
  - pose proof (block_by_hash_hash _ _ _ _ Hok Hprev) as Heq.
    destruct (is_on_best_chain g (reference prev)) eqn:Hon.
    + apply wp_ret. rewrite Heq. done.
    + apply IH. constructor; [|done]. split; [by apply (ok_genuine _ _ Hok ph)|].
      intros e He. apply (Hw ph); [done|]. congruence.
  - apply wp_bind. eapply wp_mono, block_at_hash_wp. intros o w' [Hs Ho].
    destruct o as [f|]; [|apply wp_throw].
    eapply wp_mono, IH.
    + intros [fp br'] w'' (Hs' & ?). split; [congruence|done].
    + constructor; [by apply Ho|done].
Qed.

(** What extending a branch keeps of the graph it started from. *)
Definition grown (g g' : MapBackedSnapshot) : Prop :=
  (forall h, is_Some (block_by_hash g h) -> is_Some (block_by_hash g' h)) /\
  (forall h b, block_by_hash g' h = Some b ->
     is_Some (block_by_hash g h) \/ heights_to_hashes g' !! height b = Some h).

Lemma extend_wp c g0 g b what w :
  graph_ok tree g -> work_from tree c g -> grown g0 g ->
  genuine tree b -> (parent_hash b = hash (tip g) -> work_at c b) ->
  wp (extend_or Src g b what) w (fun g' w' => w' = w /\
    graph_ok tree g' /\ work_from tree c g' /\ grown g0 g' /\ tip g' = b /\
    height b = height (tip g) + 1).
Proof.
  intros Hok Hw [Hg1 Hg2] Hb Hwb. unfold extend_or. apply wp_lift. intros g' Hg'.
  destruct (extend g b) as [g''|] eqn:He; [|done]. cbn in Hg'. injection Hg' as <-.
  pose proof (extend_ok tree g b g'' Hok Hb He) as Hok'.
  pose proof He as (Hp & Hh & _ & Hg'')%extend_Ok.
  split_and!; [done|done| |split|by subst|done].
  - eapply work_from_extend; [done..|]. by apply Hwb.
  - intros h Hs. subst g''. rewrite block_by_hash_replace_tip. case_decide; [eauto|]. by apply Hg1.
  - intros h b' Hb'. subst g''. rewrite block_by_hash_replace_tip in Hb'.
    cbn [heights_to_hashes replace_tip with_heights].
    case_decide as Hd; [simplify_eq; right; apply lookup_insert_eq|].
    destruct (Hg2 h b' Hb') as [?|Hc]; [by left|right].
    rewrite lookup_insert_ne; [done|]. pose proof (ok_above _ _ Hok _ _ Hc). lia.
Qed.

Lemma lay_down_wp c g0 g prev br w :
  graph_ok tree g -> work_from tree c g -> grown g0 g -> tip g = prev ->
  Forall (pending_ok c) br ->
  wp (lay_down Src g prev br) w (fun '(g', prev') w' => seam _ w' = seam _ w /\
    graph_ok tree g' /\ work_from tree c g' /\ grown g0 g' /\ tip g' = prev').
Proof.
  intros Hok Hw Hgr Ht Hbr. revert g prev w Hok Hw Hgr Ht.
  induction Hbr as [|p br Hp _ IH]; intros g prev w Hok Hw Hgr Ht; cbn; [by apply wp_ret|].
  assert (genuine tree prev /\ work_at c prev) as [Hgp Hwp].
  { subst prev. split; [apply (ok_genuine _ _ Hok (hash (tip g))), block_by_hash_tip|].
    intros e. apply Hw, block_by_hash_tip. }
  apply wp_bind. eapply wp_mono, (to_chain_head_block_wp c p prev); [|done..].
  intros b w1 (Hs1 & Hgb & Hwb & _). apply wp_bind.
  eapply wp_mono, (extend_wp c g0 g b); [|done..|by rewrite Ht].
  intros g' w2 (-> & Hok' & Hw' & Hgr' & Ht' & _).
  eapply wp_mono, IH; [|done..]. intros [g'' prev''] w3 (Hs3 & ?). split; [congruence|done].
Qed.

Definition branch_hash (p : BranchBlock) : BlockHash :=
  match p with Retained b => hash b | Fetched b => h_hash (header b) end.
Definition branch_height (p : BranchBlock) : Height :=
  match p with Retained b => height b | Fetched b => h_height (header b) end.

Lemma to_chain_head_block_ref p prev w :
  wp (to_chain_head_block Src p prev) w (fun b _ => hash b = branch_hash p /\
    height b = branch_height p /\ forall r, p = Retained r -> b = r).
Proof.
  destruct p as [b|b]; cbn; [apply wp_ret; naive_solver|].
  apply wp_bind. eapply wp_mono, tree_roots_wp. intros roots w' _. apply wp_lift.
  intros b' (? & ? & _)%chain_head_block_Ok. naive_solver.
Qed.

Lemma wp_and {A} (m : M Src A) w (Q Q' : A -> World -> Prop) :
  wp m w Q -> wp m w Q' -> wp m w (fun a w' => Q a w' /\ Q' a w').
Proof. unfold wp. destruct (m w) as [[[a|e] w']|]; auto. Qed.

Lemma rewind_tip g fp g' :
  graph_ok tree g -> block_by_hash g (hash fp) = Some fp ->
  rewind_to g (reference fp) = Ok g' -> tip g' = fp.
Proof.
  intros Hok Hfp Hr.
  assert (block_by_hash g' (hash fp) = Some fp) as Hfp1
    by by rewrite (rewind_to_lookup tree g (reference fp) g').
  apply rewind_to_Ok in Hr as [[Heq ->]|(Hne & _ & t & Ht & ->)].
  - assert (hash fp = hash (tip g)) as Hh by (unfold hash; congruence).
    rewrite Hh, block_by_hash_tip in Hfp1. congruence.
  - cbn. assert (hash t = hash fp) as Hh by by apply (ok_keyed _ _ Hok) in Ht as [? _].
    rewrite block_by_hash_replace_tip, decide_True in Hfp1 by done. congruence.
Qed.

(** A reorg that succeeds ends on the block it was asked to reach, keeps the
    contract and the work offset, loses no retained block, and adds only blocks
    that are canonical afterwards. *)
Lemma handle_reorg_wp c g p w :
  graph_ok tree g -> work_from tree c g -> pending_ok c p ->
  wp (handle_reorg Src max_depth g p) w (fun '(g', b) w' => seam _ w' = seam _ w /\
    graph_ok tree g' /\ work_from tree c g' /\ grown g g' /\ tip g' = b /\
    hash b = branch_hash p /\ height b = branch_height p /\
    forall r, p = Retained r -> b = r).
Proof.
  intros Hok Hw Hp. unfold handle_reorg. apply wp_bind.
  eapply wp_mono, (descend_wp c); [|done|done|constructor].
  intros [fp br] w1 (Hs1 & Hfp & Hon & Hbr). apply wp_bind, wp_lift.
  intros g1 Hg1. destruct (rewind_to g (reference fp)) as [g1'|] eqn:Hr; [|done].
  cbn in Hg1. injection Hg1 as <-.
  pose proof (rewind_to_ok tree g _ g1' Hok Hr) as Hok1.
  pose proof (work_from_rewind tree c g _ g1' Hok Hw Hr) as Hw1.
  assert (Hgr1 : grown g g1').
  { split; intros h; rewrite (rewind_to_lookup tree g (reference fp) g1') by done; eauto. }
  pose proof (rewind_tip g fp g1' Hok Hfp Hr) as Ht1.
  apply wp_bind. eapply wp_mono, (lay_down_wp c g g1' fp); [|done..].
  intros [g2 prev] w2 (Hs2 & Hok2 & Hw2 & Hgr2 & Ht2). apply wp_bind.
  assert (genuine tree prev /\ work_at c prev) as [Hgp Hwp].
  { subst prev. split; [apply (ok_genuine _ _ Hok2 (hash (tip g2))), block_by_hash_tip|].
    intros e. apply Hw2, block_by_hash_tip. }
  eapply wp_mono; [|apply wp_and;
    [apply (to_chain_head_block_wp c p prev); done|apply to_chain_head_block_ref]].
  intros b w3 [(Hs3 & Hgb & Hwb & _) (Hh & Hn & Hret)]. apply wp_bind.
  eapply wp_mono, (extend_wp c g g2 b); [|done..|by rewrite Ht2].
  intros g3 w4 (-> & Hok3 & Hw3 & Hgr3 & Ht3 & _). apply wp_ret.
  split_and!; try done. congruence.
Qed.

(** *** Reorgs the graph can serve alone

    [climbs a l b]: the blocks [l] lead from [a] up to [b], each the child of the
    one before. *)
Fixpoint climbs (a : ChainHeadBlock) (l : list ChainHeadBlock) (b : ChainHeadBlock) : Prop :=
  match l with
  | [] => a = b
  | c :: l => parent_hash c = hash a /\ height c = height a + 1 /\
      height c <= Height.MAX_HEIGHT /\ climbs c l b
  end.

Lemma climbs_snoc a l b c :
  climbs a l b -> parent_hash c = hash b -> height c = height b + 1 ->
  height c <= Height.MAX_HEIGHT -> climbs a (l ++ [c])%list c.
Proof.
  revert a. induction l as [|d l IH]; intros a; cbn; [by intros ->|].
  intros (? & ? & ? & Hl) ???. split_and!; [done..|]. by apply IH.
Qed.

Lemma genuine_child g a p :
  graph_ok tree g -> genuine tree a -> block_by_hash g (parent_hash a) = Some p ->
  hash p = parent_hash a /\ height a = height p + 1 /\ height a <= Height.MAX_HEIGHT /\
  genuine tree p.
Proof.
  intros Hok Ha Hp. pose proof (block_by_hash_hash _ _ _ _ Hok Hp) as Hh.
  pose proof (ok_genuine _ _ Hok _ _ Hp) as Hgp.
  pose proof (genuine_parent_height tree Htree a p Ha Hgp Hh).
  pose proof (genuine_valid tree Htree a Ha) as [_ ?]. done.
Qed.

Lemma path_height g a b :
  graph_ok tree g -> genuine tree a -> off_chain_path g a b -> height b <= height a.
Proof.
  intros Hok Ha Hpath. induction Hpath as [a|a p b _ Hp _ IH]; [lia|].
  destruct (genuine_child g a p Hok Ha Hp) as (_ & ? & _ & Hgp). specialize (IH Hgp). lia.
Qed.

Lemma path_end g a b :
  graph_ok tree g -> block_by_hash g (hash a) = Some a -> off_chain_path g a b ->
  block_by_hash g (hash b) = Some b.
Proof.
  intros Hok Ha Hpath. induction Hpath as [a|a p b _ Hp _ IH]; [done|].
  apply IH. by rewrite (block_by_hash_hash _ _ _ _ Hok Hp).
Qed.

(** The descent through retained blocks reaches the fork point exactly when it
    has a turn for every block on the way, and asks the source nothing. *)
Lemma descend_retained g turns a f br w :
  graph_ok tree g -> block_by_hash g (hash a) = Some a ->
  off_chain_path g a f -> is_on_best_chain g (reference f) = true ->
  if height a - height f <? Z.of_nat turns
  then exists l, descend Src turns g (hash a) br w = Some (Ok (f, ((Retained <$> l) ++ br)%list), w) /\
         climbs f l a /\ Forall (genuine tree) l
  else descend Src turns g (hash a) br w =
         Some (Err (ReorgFailure "reorg handling walked beyond the consensus reorg limit"), w).
Proof.
  intros Hok Ha Hpath Hon. revert turns br Ha.
  induction Hpath as [a|a p f Hoff Hp Hpath IH]; intros turns br Ha;
    (destruct turns as [|turns]; cbn [descend]).
  - destruct (_ <? _) eqn:Hlt; zbool; [lia|done].
  - rewrite Ha, Hon. destruct (_ <? _) eqn:Hlt; zbool; [|lia].
    exists []. by split_and!.
  - pose proof (path_height g a f Hok (ok_genuine _ _ Hok _ _ Ha) ltac:(by econstructor)).
    destruct (_ <? _) eqn:Hlt; zbool; [lia|done].
  - rewrite Ha, Hoff.
    pose proof (ok_genuine _ _ Hok _ _ Ha) as Hga.
    destruct (genuine_child g a p Hok Hga Hp) as (Hh & Hn & Hm & _).
    rewrite <- Hh in Hp. specialize (IH Hon turns (Retained a :: br) Hp). rewrite Hh in IH.
    destruct (height a - height f <? Z.of_nat (S turns)) eqn:Hlt; zbool.
    + destruct (height p - height f <? Z.of_nat turns) eqn:Hlt'; zbool; [|lia].
      destruct IH as (l & Hd & Hl & Hg). exists (l ++ [a])%list.
      rewrite Hd, fmap_app, <- app_assoc. split_and!; [done|by eapply climbs_snoc|].
      apply Forall_app. by split; [|constructor].
    + destruct (height p - height f <? Z.of_nat turns) eqn:Hlt'; zbool; [lia|done].
Qed.

Lemma extend_child g b :
  parent_hash b = hash (tip g) -> height b = height (tip g) + 1 ->
  height b <= Height.MAX_HEIGHT -> exists g', extend g b = Ok g' /\ tip g' = b.
Proof. intros Hp Hh Hm. eexists. split; [by apply extend_Ok|done]. Qed.

Lemma lay_down_retained g a l b w :
  graph_ok tree g -> tip g = a -> climbs a l b -> Forall (genuine tree) l ->
  exists g', lay_down Src g a (Retained <$> l) w = Some (Ok (g', b), w) /\ tip g' = b /\
    graph_ok tree g'.
Proof.
  revert g a. induction l as [|c l IH]; intros g a Hok Ht Hl Hg; cbn in Hl.
  - subst. by exists g.
  - destruct Hl as (Hp & Hh & Hm & Hl). apply Forall_cons in Hg as [Hgc Hg].
    destruct (extend_child g c) as (g' & He & Ht'); [by rewrite Ht..|done|].
    destruct (IH g' c) as (g'' & Hd & ?); [by eapply extend_ok|done..|].
    exists g''. split; [|done]. cbn [fmap list_fmap lay_down to_chain_head_block].
    unfold bind, ret, extend_or, lift. rewrite He. cbn. exact Hd.
Qed.

Lemma rewind_retained g f :
  block_by_hash g (hash f) = Some f -> is_on_best_chain g (reference f) = true ->
  exists g', rewind_to g (reference f) = Ok g'.
Proof.
  intros Hf Hon. unfold rewind_to. rewrite Hon. cbn [negb].
  case_bool_decide as Hd; [by eexists|]. fold (hash f).
  unfold block_by_hash in Hf. case_decide as Hh; [|rewrite Hf; by eexists].
  by simplify_eq.
Qed.

(** Once the descent has found the fork point, the rest of the reorg succeeds. *)
Lemma reorg_retained g f l p b w :
  graph_ok tree g -> block_by_hash g (hash f) = Some f ->
  is_on_best_chain g (reference f) = true -> climbs f l p -> Forall (genuine tree) l ->
  genuine tree b -> parent_hash b = hash p -> height b = height p + 1 ->
  exists g1 g2 g', rewind_to g (reference f) = Ok g1 /\
    lay_down Src g1 f (Retained <$> l) w = Some (Ok (g2, p), w) /\
    extend g2 b = Ok g' /\ tip g' = b /\ graph_ok tree g'.
Proof.
  intros Hok Hf Hon Hl Hg Hgb Hp Hh.
  destruct (rewind_retained g f Hf Hon) as [g1 H1].
  destruct (lay_down_retained g1 f l p w) as (g2 & H2 & Ht2 & Hok2);
    [by eapply rewind_to_ok|by eapply rewind_tip|done..|].
  pose proof (genuine_valid tree Htree b Hgb) as [_ Hm].
  destruct (extend_child g2 b) as (g' & H3 & Ht3); [by rewrite Ht2..|done|].
  exists g1, g2, g'. split_and!; [done..|]. by eapply extend_ok.
Qed.

Lemma extend_loop_wp c fuel n g w :
  graph_ok tree g -> work_from tree c g ->
  wp (extend_loop Src max_depth fuel n g) w (fun g' w' => seam _ w' = seam _ w /\
    graph_ok tree g' /\ work_from tree c g').
Proof.
  revert g w. induction fuel as [|fuel IH]; intros g w Hok Hw; cbn;
    (destruct (br_height (best_tip g) <? n); [|by apply wp_ret]); [done|].
  apply wp_bind. eapply wp_mono, block_at_height_wp. intros o w1 [Hs1 Ho].
  destruct o as [b|]; [|by apply wp_ret]. specialize (Ho b eq_refl).
  assert (Hcont : forall g1 w2, seam _ w2 = seam _ w -> graph_ok tree g1 -> work_from tree c g1 ->
    wp (extend_loop Src max_depth fuel n g1) w2 (fun g' w' => seam _ w' = seam _ w /\
      graph_ok tree g' /\ work_from tree c g')).
  { intros g1 w2 Hs Hok1 Hw1. eapply wp_mono, IH; [|done..].
    intros g' w' (? & ?). split; [congruence|done]. }
  case_bool_decide.
  - apply wp_bind. fold (to_chain_head_block Src (Fetched b) (tip g)).
    eapply wp_mono, (to_chain_head_block_wp c (Fetched b) (tip g)); [|done|..].
    + intros b' w2 (Hs2 & Hgb & Hwb & _). apply wp_bind.
      eapply wp_mono, (extend_wp c g g b'); [|done|done| |done|done].
      * intros g1 w3 (-> & ? & ? & _). apply Hcont; [congruence|done..].
      * split; eauto.
    + intros e. apply Hw, block_by_hash_tip.
    + apply (ok_genuine _ _ Hok (hash (tip g))), block_by_hash_tip.
  - apply wp_bind. eapply wp_mono, (handle_reorg_wp c g (Fetched b)); [|done..].
    intros [g1 b1] w2 (Hs2 & ? & ? & _). apply Hcont; [congruence|done..].
Qed.

Lemma nonhigher_loop_wp c t g k w :
  graph_ok tree g -> work_from tree c g ->
  wp (nonhigher_loop Src max_depth t g k) w (fun g' w' => seam _ w' = seam _ w /\
    graph_ok tree g' /\ work_from tree c g').
Proof.
  intros Hok Hw. revert w. induction k as [|k IH]; intros w; cbn [nonhigher_loop];
    (destruct (_ <? t); [apply wp_throw|]);
    apply wp_bind; (eapply wp_mono, block_at_height_wp); intros o w1 [Hs1 Ho].
  all: destruct o as [b|];
    [specialize (Ho b eq_refl); case_bool_decide; [by apply wp_ret|];
     apply wp_bind; eapply wp_mono, (handle_reorg_wp c g (Fetched b)); [|done..];
     intros [g1 b1] w2 (Hs2 & ? & ? & _); apply wp_ret; split; [congruence|done]|].
  - by apply wp_ret.
  - eapply wp_mono, IH. intros g' w' (? & ?). split; [congruence|done].
Qed.

(** Chain work grows along the best chain, so its tip carries the most. *)
Lemma canonical_work_le c g n h b :
  graph_ok tree g -> work_from tree c g ->
  heights_to_hashes g !! n = Some h -> block_by_hash g h = Some b ->
  chb_work b <= chb_work (tip g).
Proof.
  intros Hok Hw. remember (Z.to_nat (height (tip g) - n)) as k eqn:Hk.
  revert n h b Hk. induction k as [|k IH]; intros n h b Hk Hn Hb.
  - pose proof (ok_above _ _ Hok _ _ Hn). assert (n = height (tip g)) as -> by lia.
    rewrite (ok_tip _ _ Hok) in Hn. injection Hn as <-.
    rewrite block_by_hash_tip in Hb. injection Hb as <-. lia.
  - destruct (ok_gapless _ _ Hok n h (n + 1) Hn ltac:(lia)) as [h1 Hn1].
    destruct (ok_retained _ _ Hok _ _ Hn1) as (b1 & Hb1 & Hh1).
    specialize (IH (n + 1) h1 b1 ltac:(lia) Hn1 Hb1).
    assert (parent_hash b1 = h) as Hpar.
    { apply (ok_linked _ _ Hok (n + 1) h1); [done..|]. by replace (n + 1 - 1) with n by lia. }
    destruct (ok_genuine _ _ Hok _ _ Hb1) as (e1 & He1 & _ & Hp1).
    destruct (ok_genuine _ _ Hok _ _ Hb) as (e & He & _ & _).
    rewrite (block_by_hash_hash _ _ _ _ Hok Hb) in He.
    rewrite (block_by_hash_hash _ _ _ _ Hok Hb1) in He1.
    pose proof (Hw _ _ _ Hb He). pose proof (Hw _ _ _ Hb1 He1).
    destruct (Htree _ _ He1) as [_ Hl]. rewrite Hp1, Hpar in Hl. destruct (Hl e He). lia.
Qed.

(** No retained block outworks the tip. *)
Definition tip_heaviest (g : MapBackedSnapshot) : Prop :=
  forall h b, block_by_hash g h = Some b -> chb_work b <= chb_work (tip g).

Lemma select_heaviest_wp c g w :
  graph_ok tree g -> work_from tree c g ->
  wp (select_heaviest Src max_depth g) w (fun g' w' => seam _ w' = seam _ w /\
    graph_ok tree g' /\ work_from tree c g' /\ tip_heaviest g').
Proof.
  intros Hok Hw. unfold select_heaviest.
  destruct (heaviest_block_spec tree g Hok) as (Hm & Hmax & Htie).
  set (m := heaviest_block g) in *. destruct (_ <? _) eqn:Hlt; zbool.
  - assert (pending_ok c (Retained m)) as Hp.
    { split; [by apply (ok_genuine _ _ Hok (hash m))|]. intros e. by apply Hw. }
    apply wp_bind. eapply wp_mono, (handle_reorg_wp c g (Retained m)); [|done..].
    intros [g' b] w' (Hs & Hok' & Hw' & [_ Hgr] & Ht & _ & _ & Hret). apply wp_ret.
    split_and!; [done..|]. rewrite (Hret m eq_refl) in Ht.
    intros h b' Hb'. rewrite Ht. destruct (Hgr h b' Hb') as [[b0 Hb0]|Hc].
    + pose proof (Hmax h b0 Hb0) as Hle.
      destruct (ok_genuine _ _ Hok' _ _ Hb') as (e & He & _).
      rewrite (block_by_hash_hash _ _ _ _ Hok' Hb') in He.
      pose proof (Hw _ _ _ Hb0 He). pose proof (Hw' _ _ _ Hb' He). lia.
    + rewrite <- Ht. by apply (canonical_work_le c g' (height b') h b').
  - apply wp_ret. split_and!; [done..|]. intros h b Hb. pose proof (Hmax h b Hb). lia.
Qed.

Lemma next_graph_wp c fuel prev n w :
  graph_ok tree prev -> work_from tree c prev ->
  wp (next_graph Src max_depth fuel prev n) w (fun g w' =>
    graph_ok tree g /\ (exists c', work_from tree c' g) /\ tip_heaviest g).
Proof.
  intros Hok Hw. unfold next_graph. apply wp_bind.
  apply (wp_mono _ _ (fun g _ => graph_ok tree g /\ exists c', work_from tree c' g)).
  - intros g w1 [Hok1 [c1 Hw1]]. apply wp_bind.
    eapply wp_mono, (extend_loop_wp c1); [|done..]. intros g2 w2 (_ & Hok2 & Hw2).
    apply wp_bind. eapply wp_mono, (nonhigher_loop_wp c1); [|done..].
    intros g3 w3 (_ & Hok3 & Hw3).
    set (g4 := remove_finalised_blocks g3 (trim_floor max_depth g3 (seam _ w3))).
    change (wp (select_heaviest Src max_depth g4)
      (mkWorld Src (src _ w3) (publish_horizon g4 (seam _ w3)))
      (fun g _ => graph_ok tree g /\ (exists c', work_from tree c' g) /\ tip_heaviest g)).
    eapply wp_mono, (select_heaviest_wp c1).
    + intros g5 w5 (_ & ? & ? & ?). eauto.
    + by apply remove_finalised_blocks_ok.
    + by apply work_from_remove.
  - destruct (_ <? _); [|apply wp_ret; eauto].
    unfold resolve_anchor_block. apply wp_bind, wp_bind.
    eapply wp_mono, block_at_height_wp. intros o w1 [_ Ho].
    destruct o as [b|]; [|apply wp_throw]. specialize (Ho b eq_refl).
    apply wp_bind. eapply wp_mono, tree_roots_wp. intros roots w2 _.
    apply wp_lift. intros b' Hb'. apply wp_ret.
    assert (genuine tree b') as Hgb by by eapply served_genuine.
    split; [by apply from_initial_block_ok|].
    destruct Hgb as (e & He & _). eexists. by apply work_from_initial.
Qed.
End Correctness.

(** ** Termination

    Every turn of the extension loop raises the tip by one, whichever arm it
    takes, and the window starts at most [max_depth] below the target. *)
Section Termination.
Context `{HashIter} (Src : Source) (max_depth : Z).

(** The source serves, at a height, a block of that height. *)
Definition serves_heights : Prop :=
  forall n s b s', get_block Src n s = (Ok b, s') -> h_height (header b) = n.

Lemma block_at_height_total n : total (block_at_height Src n).
Proof. unfold block_at_height. auto with writer. Qed.
Lemma block_at_hash_total h : total (block_at_hash Src h).
Proof. unfold block_at_hash. auto with writer. Qed.
Lemma tree_roots_total h : total (tree_roots_of Src h).
Proof. unfold tree_roots_of. apply total_bind; [auto with writer|]. intros []; auto with writer. Qed.
Lemma to_chain_head_block_total p prev : total (to_chain_head_block Src p prev).
Proof.
  destruct p; cbn; [auto with writer|]. apply total_bind; [apply tree_roots_total|auto with writer].
Qed.

Lemma descend_total turns g ph br : total (descend Src turns g ph br).
Proof.
  revert ph br. induction turns as [|turns IH]; intros ph br; cbn; [auto with writer|].
  destruct (block_by_hash g ph) as [prev|].
  - destruct (is_on_best_chain _ _); [auto with writer|apply IH].
  - apply total_bind; [apply block_at_hash_total|]. intros [f|]; [apply IH|auto with writer].
Qed.

Lemma lay_down_total g prev br : total (lay_down Src g prev br).
Proof.
  revert g prev. induction br as [|p br IH]; intros g prev; cbn; [auto with writer|].
  apply total_bind; [apply to_chain_head_block_total|]. intros b.
  apply total_bind; [apply total_lift|]. intros g'. apply IH.
Qed.

Lemma handle_reorg_total g p : total (handle_reorg Src max_depth g p).
Proof.
  unfold handle_reorg. apply total_bind; [apply descend_total|]. intros [fp br].
  apply total_bind; [apply total_lift|]. intros g1.
  apply total_bind; [apply lay_down_total|]. intros [g2 prev].
  apply total_bind; [apply to_chain_head_block_total|]. intros b.
  apply total_bind; [apply total_lift|]. intros g3. apply total_ret.
Qed.

Lemma nonhigher_loop_total t g k : total (nonhigher_loop Src max_depth t g k).
Proof.
  induction k as [|k IH]; cbn [nonhigher_loop]; (destruct (_ <? t); [auto with writer|]);
    (apply total_bind; [apply block_at_height_total|]); intros [b|]; auto with writer;
    (destruct (negb _); [|auto with writer]);
    (apply total_bind; [apply handle_reorg_total|]); intros [g' b']; auto with writer.
Qed.

Lemma select_heaviest_total g : total (select_heaviest Src max_depth g).
Proof.
  unfold select_heaviest. destruct (_ <? _); [|auto with writer].
  apply total_bind; [apply handle_reorg_total|]. intros [g' b']. auto with writer.
Qed.

Lemma handle_reorg_tip_height g p w :
  wp (handle_reorg Src max_depth g p) w (fun '(g', _) _ => height (tip g') = branch_height p).
Proof.
  unfold handle_reorg. apply wp_bind, wp_any. intros [fp br] w1.
  apply wp_bind, wp_any. intros g1 w2. apply wp_bind, wp_any. intros [g2 prev] w3.
  apply wp_bind. eapply wp_mono, to_chain_head_block_ref. intros b w4 (_ & Hn & _).
  apply wp_bind, wp_lift. intros g3 Hg3. apply wp_ret.
  destruct (extend g2 b) as [g'|] eqn:He; [|done]. cbn in Hg3. injection Hg3 as <-.
  by apply extend_Ok in He as (_ & _ & _ & ->).
Qed.

Lemma next_height_succ n : 0 <= n < Height.MAX_HEIGHT -> next_height n = n + 1.
Proof.
  intros Hn. unfold next_height, Height.height_checked_add.
  assert (checked_add 32 n 1 = Some (n + 1)) as ->
    by (apply checked_add_Some; assert (Height.MAX_HEIGHT < 2 ^ 32) by done; lia).
  cbn. rewrite (proj2 (Z.ltb_ge _ _)) by lia. done.
Qed.

(** The loop needs one turn per height still missing. *)
Lemma extend_loop_answers fuel n g w :
  serves_heights -> Height.valid n -> 0 <= height (tip g) -> n <= height (tip g) + Z.of_nat fuel ->
  extend_loop Src max_depth fuel n g w <> None.
Proof.
  intros Hsrc Hn. revert g w. induction fuel as [|fuel IH]; intros g w H0 Hf; cbn [extend_loop];
    (destruct (br_height (best_tip g) <? n) eqn:Hlt; [|done]); zbool;
    change (br_height (best_tip g)) with (height (tip g)) in *; [lia|].
  rewrite (next_height_succ (height (tip g))) by (unfold Height.valid in *; lia).
  apply (wp_answers _ _ (fun o _ => forall b, o = Some b -> h_height (header b) = height (tip g) + 1)).
  { apply block_at_height_total. }
  { unfold block_at_height. apply wp_bind, wp_ask. intros r s' Hr. apply wp_lift.
    intros o Ho b ->. unfold present_or_absent in Ho.
    destruct r as [b'|[| |[]]]; simplify_eq. by eapply Hsrc. }
  intros [b|] w1 Hb; [|done]. specialize (Hb b eq_refl). case_bool_decide.
  - apply (wp_answers _ _ (fun b' _ => height b' = height (tip g) + 1)).
    { apply (to_chain_head_block_total (Fetched b)). }
    { rewrite <- Hb. eapply wp_mono, (to_chain_head_block_ref Src (Fetched b)).
      intros b' w' (_ & ? & _). done. }
    intros b' w2 Hb'. apply (wp_answers _ _ (fun g' _ => tip g' = b')).
    { apply total_lift. }
    { apply wp_lift. intros g' Hg'. destruct (extend g b') as [g''|] eqn:He; [|done].
      cbn in Hg'. injection Hg' as <-. by apply extend_Ok in He as (_ & _ & _ & ->). }
    intros g' w3 Ht. apply IH; rewrite Ht, Hb'; lia.
  - apply (wp_answers _ _ (fun '(g', _) _ => height (tip g') = height (tip g) + 1)).
    { apply handle_reorg_total. }
    { rewrite <- Hb. apply handle_reorg_tip_height. }
    intros [g' b'] w2 Ht. apply IH; rewrite Ht; lia.
Qed.

Lemma next_graph_answers fuel prev n w :
  serves_heights -> Height.valid n -> 0 <= height (tip prev) -> 0 <= max_depth -> (Z.to_nat max_depth <= fuel)%nat ->
  next_graph Src max_depth fuel prev n w <> None.
Proof.
  intros Hsrc Hn Hp Hd Hf. unfold next_graph.
  apply (wp_answers _ _ (fun g _ => 0 <= height (tip g) /\ n <= height (tip g) + max_depth)).
  { destruct (_ <? _); [|apply total_ret]. apply total_bind; [|intros; apply total_ret].
    apply total_bind; [apply block_at_height_total|]. intros [b|]; [|apply total_throw].
    apply total_bind; [apply tree_roots_total|]. intros; apply total_lift. }
  { destruct (_ <? _) eqn:Hlt; zbool.
    - unfold resolve_anchor_block. apply wp_bind, wp_bind. unfold block_at_height.
      apply wp_bind, wp_ask. intros r s' Hr. apply wp_lift. intros o Ho.
      destruct o as [b|]; [|apply wp_throw].
      unfold present_or_absent in Ho. destruct r as [b'|[| |[]]]; simplify_eq.
      apply Hsrc in Hr. apply wp_bind, wp_any. intros roots w2. apply wp_lift.
      intros c (_ & Hc & _)%chain_head_block_Ok. apply wp_ret. cbn. rewrite Hc, Hr.
      unfold height_below, Height.height_saturating_sub, saturating_sub. lia.
    - apply wp_ret. change (br_height (best_tip prev)) with (height (tip prev)) in Hlt.
      unfold height_below, Height.height_saturating_sub, saturating_sub in Hlt. lia. }
  intros g w1 [Hg0 Hg]. apply (wp_answers _ _ (fun _ _ => True)).
  { apply extend_loop_answers; [done..|lia]. }
  { by apply wp_any. }
  intros g2 w2 _. apply (wp_answers _ _ (fun _ _ => True)).
  { apply nonhigher_loop_total. }
  { by apply wp_any. }
  intros g3 w3 _. apply select_heaviest_total.
Qed.
End Termination.

(** ** Properties *)
Section Properties.
Context `{HashIter} (Src : Source) (max_depth : Z).
Context (tree : BlockHash -> option TreeEntry).

(** A reorg always answers, and one that succeeds ends with the block
    it was asked to reach as tip, keeps the graph contract and the work offset,
    loses no retained block, and adds only blocks that are canonical
    afterwards. *)
Theorem handle_reorg_correct c g p w :
  source_genuine Src tree -> graph_ok tree g -> work_from tree c g -> pending_ok tree c p ->
  exists r w', handle_reorg Src max_depth g p w = Some (r, w') /\
    forall g' b, r = Ok (g', b) ->
      graph_ok tree g' /\ work_from tree c g' /\ tip g' = b /\
      hash b = branch_hash p /\ height b = branch_height p /\
      (forall h, is_Some (block_by_hash g h) -> is_Some (block_by_hash g' h)) /\
      (forall h b', block_by_hash g' h = Some b' ->
         is_Some (block_by_hash g h) \/ heights_to_hashes g' !! height b' = Some h).
Proof.
  intros Hsrc Hok Hw Hp.
  pose proof (handle_reorg_wp Src max_depth tree Hsrc c g p w Hok Hw Hp) as Hwp.
  unfold wp in Hwp. pose proof (handle_reorg_total Src max_depth g p w) as Ht.
  destruct (handle_reorg Src max_depth g p w) as [[r w']|]; [|done].
  exists r, w'. split; [done|]. intros g' b ->.
  destruct Hwp as (_ & ? & ? & [] & ? & ? & ? & _). done.
Qed.

(** A reorg to a block whose branch is retained never asks the
    source: it succeeds, with that block as tip and the contract kept, exactly
    when the fork point is at most [max_depth + 1] below the block, and otherwise
    reports that the reorg limit was passed, leaving the graph to the caller. *)
Theorem reorg_to_retained g b r w :
  tree_ok tree -> graph_ok tree g ->
  block_by_hash g (hash b) = Some b ->
  find_fork_point g (parent_hash b) = Some r -> 0 <= max_depth ->
  if height b - br_height r <=? max_depth + 1
  then exists g', handle_reorg Src max_depth g (Retained b) w = Some (Ok (g', b), w) /\
         tip g' = b /\ graph_ok tree g'
  else handle_reorg Src max_depth g (Retained b) w =
         Some (Err (ReorgFailure "reorg handling walked beyond the consensus reorg limit"), w).
Proof.
  intros Htree Hok Hb (p & f & Hp & Hpath & <- & Hon)%(find_fork_point_spec tree Htree) Hd; [|done].
  pose proof (ok_genuine _ _ Hok _ _ Hb) as Hgb.
  destruct (genuine_child tree Htree g b p Hok Hgb Hp) as (Hh & Hn & Hm & _).
  rewrite <- Hh in Hp. fold (height f).
  pose proof (descend_retained Src tree Htree g (S (Z.to_nat max_depth)) p f [] w Hok Hp Hpath Hon)
    as Hdesc. rewrite Hh in Hdesc.
  destruct (height b - height f <=? max_depth + 1) eqn:Hle;
    destruct (height p - height f <? Z.of_nat (S (Z.to_nat max_depth))) eqn:Hlt; zbool; try lia.
  - destruct Hdesc as (l & Hdesc & Hl & Hg). rewrite app_nil_r in Hdesc.
    destruct (reorg_retained Src tree Htree g f l p b w) as (g1 & g2 & g' & H1 & H2 & H3 & ?);
      [done|by eapply path_end|done..|].
    exists g'. split; [|done]. unfold handle_reorg, bind. cbn [branch_parent_hash].
    rewrite Hdesc, H1. cbn. rewrite H2. unfold extend_or. by rewrite H3.
  - unfold handle_reorg, bind. cbn [branch_parent_hash]. by rewrite Hdesc.
Qed.

(** C12: the graph an iteration publishes satisfies the contract, its works
    are the validator's chain works less one constant, and no retained block
    has more chain work than its tip: comparing work relative to the window's
    anchor selects the same branch as comparing absolute chain work. *)
Theorem next_graph_correct c fuel previous n w g w' :
  tree_ok tree -> source_genuine Src tree ->
  graph_ok tree previous -> work_from tree c previous ->
  next_graph Src max_depth fuel previous n w = Some (Ok g, w') ->
  graph_ok tree g /\
  (exists c', work_from tree c' g) /\
  forall h e et, is_Some (block_by_hash g h) -> tree h = Some e ->
    tree (hash (tip g)) = Some et -> te_chainwork e <= te_chainwork et.
Proof.
  intros Htree Hsrc Hok Hw Hrun.
  pose proof (next_graph_wp Src max_depth tree Htree Hsrc c fuel previous n w Hok Hw) as Hwp.
  unfold wp in Hwp. rewrite Hrun in Hwp. destruct Hwp as (Hok' & [c' Hw'] & Hmax).
  split; [done|]. split; [eauto|]. intros h e et [b Hb] He Het.
  pose proof (Hmax h b Hb). pose proof (Hw' h b e Hb He).
  pose proof (Hw' _ _ et (block_by_hash_tip g) Het). lia.
Qed.

(** C32: against a source that serves, at a height, a block of that height,
    an iteration finishes within [max_depth] turns of the extension loop, however
    the source moves between the questions. *)
Theorem tick_terminates fuel s :
  serves_heights Src ->
  (forall st h n st', get_chain_tip Src st = (Ok (h, n), st') -> Height.valid n) ->
  0 <= max_depth -> (Z.to_nat max_depth <= fuel)%nat ->
  0 <= height (tip (current Src s)) ->
  tick Src max_depth fuel s <> None.
Proof.
  intros Hsrc Htip Hd Hf Hs. unfold tick.
  destruct (chain_tip Src (world Src s)) as [[[t|e] w]|] eqn:Ht; [|done|].
  - destruct (bool_decide _); [done|].
    destruct (next_graph _ _ _ _ _ _) as [[[g|e] w']|] eqn:Hn; [done..|].
    exfalso. revert Hn. apply next_graph_answers; [done| |done..].
    unfold chain_tip, bind, ask in Ht. destruct (get_chain_tip Src _) as [[[h n]|e] st'] eqn:Hg;
      cbn in Ht; [|done]. injection Ht as <- <-. by eapply Htip.
  - unfold chain_tip, bind, ask in Ht. destruct (get_chain_tip Src _) as [[[h n]|e] st'];
      cbn in Ht; done.
Qed.

(** Trimming at the floor an iteration computes drops a canonical
    height only when it is below the reorg window and below the durable
    watermark less the margin; with nothing committed it drops nothing.  What
    the horizon then publishes is the hash of the canonical block [reorg_depth]
    below the tip, never lower than what was published before. *)
Theorem trim_and_horizon_safe g st n :
  graph_ok tree g -> Height.valid n -> is_Some (heights_to_hashes g !! n) ->
  let g' := remove_finalised_blocks g (trim_floor max_depth g st) in
  (heights_to_hashes g' !! n = None ->
     n < height (tip g) - max_depth /\
     exists c, Seam.committed st = Some c /\
       n < Seam.com_height c - Seam.retention_margin (Seam.depths st)) /\
  forall r, Seam.released (publish_horizon g' st) = Some r ->
    (Seam.released st = Some r \/
     Seam.rel_height r = Height.height_saturating_sub (height (tip g)) (Seam.reorg_depth st) /\
     heights_to_hashes g' !! Seam.rel_height r = Some (Seam.rel_hash r)) /\
    forall held, Seam.released st = Some held -> Seam.rel_height held <= Seam.rel_height r.
Proof.
  intros Hok Hv [h Hn] g'. split.
  - intros Hnone. assert (n < trim_floor max_depth g st) as Hlt.
    { apply Z.lt_nge. intros Hge.
      assert (heights_to_hashes g' !! n = Some h) by (apply (lookup_heights_remove tree); auto).
      congruence. }
    unfold trim_floor, Seam.retention_floor, Seam.durable in Hlt.
    destruct (Seam.committed st) as [c|]; [|unfold Height.GENESIS, Height.valid in *; lia].
    unfold height_below, Height.height_saturating_sub, saturating_sub in Hlt.
    change (br_height (best_tip g)) with (height (tip g)) in Hlt. unfold Height.valid in Hv.
    split; [lia|]. exists c. split; [done|lia].
  - intros r Hr. unfold publish_horizon in Hr.
    change (br_height (best_tip g')) with (height (tip g)) in Hr.
    unfold best_block_by_height in Hr. fold (height_below (height (tip g)) (Seam.reorg_depth st)).
    set (k := height_below _ _) in *.
    destruct (heights_to_hashes g' !! k) as [hk|] eqn:Hk; cbn in Hr; [|naive_solver].
    destruct (block_by_hash g' hk) as [b|] eqn:Hb; [|naive_solver].
    assert (hash b = hk) as Hbk.
    { apply (block_by_hash_hash tree g'); [by apply remove_finalised_blocks_ok|done]. }
    unfold Seam.horizon_advance in Hr. fold (Seam.reorg_depth st) in Hr.
    fold (height_below (height (tip g)) (Seam.reorg_depth st)) in Hr. fold k in Hr.
    destruct (Seam.released st) as [held|] eqn:Hheld.
    + destruct (k <? Seam.rel_height held) eqn:Hlt; zbool.
      * rewrite Hheld in Hr. naive_solver.
      * cbn in Hr. injection Hr as <-. cbn. rewrite Hbk. split; [by right|]. intros ? [= <-]. done.
    + cbn in Hr. injection Hr as <-. cbn. rewrite Hbk. split; [by right|done].
Qed.

(** What the watch channel last carried is the epoch of the current snapshot. *)
Definition service_ok (s : Service Src) : Prop := epoch (current Src s) = updates Src s.

(** After any iteration the last published epoch is the current
    snapshot's; the generation never falls, and (short of saturation) it is the
    same exactly when the tip is the same, so one generation never names two
    tips.  A failed iteration leaves snapshot and epoch as they were, and
    [Closing] is never left. *)
Theorem run_iteration_epoch fuel s s' :
  service_ok s -> run_iteration Src max_depth fuel s = Some s' ->
  0 <= generation (current Src s) < umax 64 ->
  service_ok s' /\
  generation (current Src s) <= generation (current Src s') /\
  (generation (current Src s') = generation (current Src s) <->
     best_tip (current Src s') = best_tip (current Src s)) /\
  (status Src s = Status.Closing -> status Src s' = Status.Closing) /\
  (status Src s <> Status.Closing ->
     status Src s' = Status.Ready \/
     status Src s' = Status.RecoverableError /\ current Src s' = current Src s /\
       updates Src s' = updates Src s).
Proof.
  intros Hok Hrun Hgen. unfold run_iteration in Hrun.
  destruct (tick Src max_depth fuel s) as [[r s1]|] eqn:Htick; [|done].
  unfold tick in Htick.
  destruct (chain_tip Src (world Src s)) as [[[t|e] w]|]; [|simplify_eq; cbn|done].
  2: { split_and!; [done|lia|done|by intros ->|]. right. by destruct (status Src s). }
  destruct (bool_decide _).
  { simplify_eq; cbn. split_and!; [done|lia|done|by intros ->|]. left. by destruct (status Src s). }
  destruct (next_graph _ _ _ _ _ _) as [[[g|e] w']|]; [|simplify_eq; cbn|done].
  2: { split_and!; [done|lia|done|by intros ->|]. right. by destruct (status Src s). }
  simplify_eq. unfold publish_snapshot, service_ok; cbn.
  unfold service_ok, epoch in Hok. rewrite <- Hok. cbn.
  assert (saturating_add 64 (generation (current Src s)) 1 = generation (current Src s) + 1) as Hs.
  { unfold saturating_add, umax in *. lia. }
  unfold best_tip, epoch; cbn. unfold best_tip.
  destruct (bool_decide_reflect (reference (tip g) = reference (tip (current Src s)))) as [Heq|Hne];
    cbn; rewrite ?Hs, ?Heq.
  - split_and!; [done|lia|done|by intros ->|]. left. by destruct (status Src s).
  - split_and!; [done|lia| |by intros ->|left; by destruct (status Src s)].
    split; [lia|done].
Qed.
End Properties.

(** ** A validator that switched branches

    It serves the chain [0] - [1] - [12] - [13]; the window ends at [2]. *)
Module Example.
Import ChainGraph.Example.
Local Existing Instance canonical_iter.

Definition served (h p n : Z) : Block := chb_block (ex_block h p n []).
Definition branch_a : list Block := [served 0 255 0; served 1 0 1; served 2 1 2; served 3 2 3].
Definition branch_b : list Block := [served 0 255 0; served 1 0 1; served 12 1 2; served 13 12 3].

Definition ex_get_block (chain : list Block) (n : Height) : option Block :=
  List.find (fun b => h_height (header b) =? n) chain.
Definition ex_get_by_hash (h : BlockHash) : option Block :=
  List.find (fun b => bool_decide (h_hash (header b) = h)) (branch_a ++ branch_b).

Definition ex_source (chain : list Block) : Source :=
  mkSource unit
    (fun s => match last chain with
      | Some b => (Ok (h_hash (header b), h_height (header b)), s)
      | None => (Err Unavailable, s) end)
    (fun n s => (ok_or (ex_get_block chain n) (Domain (HeightNotFound n)), s))
    (fun h s => (ok_or (ex_get_by_hash h) (Domain (NotFound h)), s))
    (fun _ s => (Ok (mkTreeRoots None None None), s)).

Definition served_okb (b : Block) : bool :=
  match ex_map !! h_hash (header b) with
  | Some e =>
      (te_height e =? h_height (header b)) && bool_decide (te_parent e = h_prev_hash (header b)) &&
      match ex_map !! te_parent e with
      | Some e' => te_chainwork e =?
          te_chainwork e' + CompactDifficulty.cd_work (h_bits (header b))
      | None => true
      end
  | None => false
  end.

Lemma served_okb_genuine b : served_okb b = true -> genuine_served ex_tree b.
Proof.
  unfold served_okb, genuine_served, ex_tree. destruct (ex_map !! _) as [e|]; [|done].
  intros [[Hh Hp]%andb_prop Hw]%andb_prop. apply bool_decide_eq_true in Hp. zbool.
  exists e. split_and!; [done..|]. intros e' He'. rewrite He' in Hw. zbool. done.
Qed.

Lemma ex_source_genuine chain :
  forallb served_okb chain = true -> source_genuine (ex_source chain) ex_tree.
Proof.
  assert (Hfind : forall f l b, forallb served_okb l = true -> List.find f l = Some b ->
    genuine_served ex_tree b).
  { intros f l b Hl [Hin _]%List.find_some. rewrite forallb_forall in Hl.
    by apply served_okb_genuine, Hl. }
  intros Hc. split; cbn [get_block get_block_by_hash ex_source].
  - intros n s b s' [= Hb _]. destruct (ex_get_block chain n) eqn:Hf; cbn in Hb; simplify_eq.
    by eapply Hfind.
  - intros h s b s' Hb. destruct (ex_get_by_hash h) eqn:Hf; cbn [ok_or] in Hb; simplify_eq.
    eapply Hfind; [|exact Hf]. vm_compute. reflexivity.
Qed.

Lemma ex_source_serves chain : serves_heights (ex_source chain).
Proof.
  intros n s b s' [= Hb _]. destruct (ex_get_block chain n) eqn:Hf; cbn in Hb; simplify_eq.
  apply List.find_some in Hf as [_ Hf]. by zbool.
Qed.

Lemma g2_work : work_from ex_tree 0 g2.
Proof.
  assert (work_from ex_tree 0 g0) as H0.
  { apply (work_from_initial ex_tree b0 (mkTreeEntry 0 [255] 32)). vm_compute. reflexivity. }
  assert (work_from ex_tree 0 g1) as H1.
  { eapply (work_from_extend ex_tree 0 g0 b1); [done|vm_compute; reflexivity|].
    intros e He. vm_compute in He. by simplify_eq. }
  eapply (work_from_extend ex_tree 0 g1 b2); [done|vm_compute; reflexivity|].
  intros e He. vm_compute in He. by simplify_eq.
Qed.

Definition ex_seam : Seam.SeamState := Seam.new 2 1.
Definition ex_world : World (ex_source branch_b) := mkWorld (ex_source branch_b) tt ex_seam.
Definition ex_service : Service (ex_source branch_b) :=
  mkService (ex_source branch_b) g2 (epoch g2) Status.Syncing ex_world.

(** The reorg to [13] fetches [12] and lays both down above [1]. *)
Lemma handle_reorg_correct_witness :
  exists g' b, handle_reorg (ex_source branch_b) 5 g2 (Fetched (served 13 12 3)) ex_world
    = Some (Ok (g', b), ex_world) /\
  tip g' = b /\ hash b = [13] /\ is_Some (block_by_hash g' [2]).
Proof.
  destruct (handle_reorg_correct (ex_source branch_b) 5 ex_tree 0 g2
              (Fetched (served 13 12 3)) ex_world) as (r & w' & Hrun & Hr).
  - apply ex_source_genuine. vm_compute. reflexivity.
  - apply g2_ok.
  - apply g2_work.
  - apply served_okb_genuine. vm_compute. reflexivity.
  - destruct (handle_reorg (ex_source branch_b) 5 g2 (Fetched (served 13 12 3)) ex_world)
      as [[[[g' b]|e] w]|] eqn:Hx; [|vm_compute in Hx; discriminate Hx..].
    injection Hrun as <- <-. exists g', b.
    destruct (Hr g' b eq_refl) as (_ & _ & Ht & Hh & _ & Hkeep & _).
    split; [|split; [exact Ht|split; [exact Hh|apply Hkeep; vm_compute; eauto]]].
    vm_compute in Hx. injection Hx as _ _ <-. reflexivity.
Defined.

(** Back to the displaced block [2], whose parent is canonical: one step, even
    with [max_depth = 0]. *)
Lemma reorg_to_retained_witness :
  exists g', handle_reorg (ex_source branch_b) 0 g12 (Retained b2) ex_world
    = Some (Ok (g', b2), ex_world) /\ tip g' = b2 /\ graph_ok ex_tree g'.
Proof.
  apply (reorg_to_retained (ex_source branch_b) 0 ex_tree g12 b2 (reference b1) ex_world).
  - apply ex_tree_ok.
  - apply g12_ok.
  - vm_compute. reflexivity.
  - vm_compute. reflexivity.
  - lia.
Defined.

Lemma next_graph_correct_witness :
  exists g w', next_graph (ex_source branch_b) 5 5 g2 3 ex_world = Some (Ok g, w') /\
    graph_ok ex_tree g.
Proof.
  destruct (next_graph (ex_source branch_b) 5 5 g2 3 ex_world) as [[[g|e] w']|] eqn:Hx;
    [|vm_compute in Hx; discriminate Hx..].
  exists g, w'. split; [reflexivity|].
  apply (next_graph_correct (ex_source branch_b) 5 ex_tree 0 5 g2 3 ex_world g w').
  - apply ex_tree_ok.
  - apply ex_source_genuine. vm_compute. reflexivity.
  - apply g2_ok.
  - apply g2_work.
  - exact Hx.
Defined.

Lemma tick_terminates_witness : tick (ex_source branch_b) 5 5 ex_service <> None.
Proof.
  apply (tick_terminates (ex_source branch_b) 5 5 ex_service).
  - apply ex_source_serves.
  - intros st h n st' Hg. vm_compute in Hg. injection Hg as _ <- _.
    split; vm_compute; discriminate.
  - lia.
  - lia.
  - vm_compute. discriminate.
Defined.

Lemma trim_and_horizon_safe_witness :
  heights_to_hashes (remove_finalised_blocks g2 (trim_floor 5 g2 ex_seam)) !! 0 <> None.
Proof.
  intros Hn.
  destruct (proj1 (trim_and_horizon_safe 5 ex_tree g2 ex_seam 0 g2_ok ltac:(split; vm_compute; discriminate)
    ltac:(vm_compute; eauto)) Hn) as [Hlt _].
  vm_compute in Hlt. discriminate Hlt.
Defined.

Lemma run_iteration_epoch_witness :
  exists s', run_iteration (ex_source branch_b) 5 5 ex_service = Some s' /\
    best_tip (current _ s') = mkBlockRef [13] 3 /\ service_ok _ s' /\
    generation (current _ s') <> generation g2.
Proof.
  destruct (run_iteration (ex_source branch_b) 5 5 ex_service) as [s'|] eqn:Hx;
    [|vm_compute in Hx; discriminate Hx].
  exists s'. split; [reflexivity|].
  assert (best_tip (current _ s') = mkBlockRef [13] 3) as Ht
    by (vm_compute in Hx; injection Hx as <-; reflexivity).
  destruct (run_iteration_epoch (ex_source branch_b) 5 5 ex_service s' eq_refl Hx
              ltac:(vm_compute; split; [discriminate|reflexivity])) as (Hok & _ & Hiff & _).
  split; [exact Ht|]. split; [exact Hok|]. intros Heq. apply Hiff in Heq.
  rewrite Ht in Heq. discriminate Heq.
Defined.

End Example.
End ChainHead.
