(* ===== verification/Coherence.v ===== *)
(** * The tip-aware mempool view
    ([packages/zaino-mempool/src/{tip,event}.rs],
    [packages/zaino-mempool-service/src/coherence])

    The coherence service compares the tip a mempool snapshot was read at with the
    epoch the chain head last published.  When they name the same block it blesses
    the snapshot as valid for that epoch; otherwise it freezes at the last blessed
    one.  Its operations are functions of the core snapshot, the observer's answer
    and the clock; the events sent are kept as a list, and the service runs beside
    the mempool writer as one system ([sys_step]). *)

From S2P Require Import Prelude Types Persistence Status ChainHead Mempool MempoolCorrect.
From stdpp Require Import base gmap list strings sets relations sorting.
From Stdlib Require Import Lia.
Open Scope Z_scope.

Module Coherence.
Import Mempool.
Import MempoolCorrect.

Notation ChainStateEpoch := ChainHead.ChainStateEpoch.
Notation best_tip := ChainHead.ep_best_tip.
Global Instance epoch_eq_dec : EqDecision ChainStateEpoch.
Proof. solve_decision. Defined.

(** ** Tips and modes ([tip.rs]) *)
Record ObservedTips := mkTips {
  validator : option BlockRef;
  non_finalised : option ChainStateEpoch }.
Global Instance ObservedTips_eq_dec : EqDecision ObservedTips.
Proof. solve_decision. Defined.
Definition no_tips : ObservedTips := mkTips None None.

Definition agree (t : ObservedTips) : option ChainStateEpoch :=
  let! v := validator t in
  let! ns := non_finalised t in
  if bool_decide (br_hash v = br_hash (best_tip ns)) then Some ns else None.
Definition disagree (t : ObservedTips) : bool :=
  match validator t, non_finalised t, agree t with Some _, Some _, None => true | _, _, _ => false end.

Inductive TipChange := Unchanged | ValidatorChanged | NonFinalizedChanged | BothChanged.

Inductive FreezeReason :=
| NonFinalizedUnavailable
| ValidatorTipUnavailable
| ValidatorTipChanged
| NonFinalizedTipChanged
| BothTipsChanged
| TipsDiverged
| CoreIncomplete
| FreezeClosing.
Global Instance FreezeReason_eq_dec : EqDecision FreezeReason.
Proof. solve_decision. Defined.

Inductive MempoolMode :=
| NotReady
| Live (valid_for : ChainStateEpoch)
| Frozen (valid_for : option ChainStateEpoch) (reason : FreezeReason)
| ModeClosing.

Record CoherentSnapshot := mkCoherent {
  set : MempoolSnapshot;
  mode : MempoolMode;
  valid_for : option ChainStateEpoch;
  observed_tips : ObservedTips;
  sequence : Z }.
Definition empty_not_ready : CoherentSnapshot := mkCoherent Mempool.empty NotReady None no_tips 0.

Definition is_valid_for_snapshot (c : CoherentSnapshot) (epoch : ChainStateEpoch) : bool :=
  bool_decide (valid_for c = Some epoch).
Definition is_live_for (c : CoherentSnapshot) (epoch : ChainStateEpoch) : bool :=
  match mode c with Live e => bool_decide (e = epoch) | _ => false end
  && bool_decide (valid_for c = Some epoch).
(** [CoherentSnapshot::get] *)
Definition coherent_get (c : CoherentSnapshot) (txid : TransactionId) : option MempoolEntry :=
  by_txid (set c) !! txid.

(** ** Events ([event.rs]) *)
Inductive MempoolEvent :=
| EvAdded (sequence : Z) (valid_for : ChainStateEpoch) (entry : MempoolEntry)
| EvFrozen (sequence : Z) (reason : FreezeReason)
| EvLive (sequence : Z) (valid_for : ChainStateEpoch)
| EvClosing (sequence : Z).

(** ** The service ([coherence.rs]) *)
Record SynthesizedEpochState := mkSynth {
  last_validator_hash : option BlockHash;
  generation : Z }.

Record CoherenceService := mkCoherence {
  coherent : CoherentSnapshot;
  events : list MempoolEvent;
  status : Status.StatusType;
  frozen_since : option Z;
  synth_epoch : SynthesizedEpochState }.
(** [spawn_inner] *)
Definition spawn_coherence : CoherenceService :=
  mkCoherence empty_not_ready [] Status.Spawning None (mkSynth None 0).

(** *** Publication ([coherence/publish.rs]) *)
Definition is_frozen (m : MempoolMode) : bool := match m with Frozen _ _ => true | _ => false end.

Definition publish_live (s : CoherenceService) (prev : CoherentSnapshot) (core : MempoolSnapshot)
    (observed : ObservedTips) (epoch : ChainStateEpoch) : CoherenceService :=
  if is_live_for prev epoch
     && (mempool_generation (set prev) =? mempool_generation core)
     && bool_decide (observed_tips prev = observed)
  then mkCoherence (coherent s) (events s) Status.Ready None (synth_epoch s)
  else
    let steady_update := is_live_for prev epoch in
    let next_sequence := saturating_add 64 (sequence prev) 1 in
    let snapshot := mkCoherent core (Live epoch) (Some epoch) observed next_sequence in
    let added :=
      if steady_update then
        EvAdded next_sequence epoch <$>
          filter (fun e => by_txid (set prev) !! e_txid e = None) (entries_in_order core)
      else [] in
    mkCoherence snapshot (events s ++ added ++ [EvLive next_sequence epoch]) Status.Ready None
      (synth_epoch s).

Definition freeze (now : Z) (s : CoherenceService) (prev : CoherentSnapshot) (observed : ObservedTips)
    (reason : FreezeReason) : CoherenceService :=
  let frozen_since := if is_frozen (mode prev) then frozen_since s else Some now in
  if match mode prev with Frozen _ r => bool_decide (r = reason) | _ => false end
     && bool_decide (observed_tips prev = observed)
  then mkCoherence (coherent s) (events s) Status.Syncing frozen_since (synth_epoch s)
  else
    let next_sequence := saturating_add 64 (sequence prev) 1 in
    let snapshot := mkCoherent (set prev) (Frozen (valid_for prev) reason) (valid_for prev) observed
                      next_sequence in
    mkCoherence snapshot (events s ++ [EvFrozen next_sequence reason]) Status.Syncing frozen_since
      (synth_epoch s).

Definition publish_closing (s : CoherenceService) : CoherenceService :=
  let prev := coherent s in
  let next_sequence := saturating_add 64 (sequence prev) 1 in
  mkCoherence (mkCoherent (set prev) ModeClosing (valid_for prev) (observed_tips prev) next_sequence)
    (events s ++ [EvClosing next_sequence]) Status.Closing (frozen_since s) (synth_epoch s).

(** *** Reconciliation ([coherence/reconcile.rs])

    [nfs] is the observer's answer, or [None] without an observer. *)
Definition synthesized_epoch (st : SynthesizedEpochState) (validator_tip : BlockRef)
    : ChainStateEpoch * SynthesizedEpochState :=
  let st :=
    if bool_decide (last_validator_hash st = Some (br_hash validator_tip)) then st
    else mkSynth (Some (br_hash validator_tip)) (saturating_add 64 (generation st) 1) in
  (ChainHead.mkEpoch (generation st) validator_tip, st).

Definition observe_tips (nfs : option (option ChainStateEpoch)) (st : SynthesizedEpochState)
    (core : MempoolSnapshot) : ObservedTips * SynthesizedEpochState :=
  match nfs with
  | Some answer => (mkTips (source_tip core) answer, st)
  | None =>
      match source_tip core with
      | Some tip => let (epoch, st) := synthesized_epoch st tip in (mkTips (Some tip) (Some epoch), st)
      | None => (mkTips None None, st)
      end
  end.

Definition classify_tip_change (previous next : ObservedTips) : TipChange :=
  match negb (bool_decide (validator previous = validator next)),
        negb (bool_decide (non_finalised previous = non_finalised next)) with
  | false, false => Unchanged
  | true, false => ValidatorChanged
  | false, true => NonFinalizedChanged
  | true, true => BothChanged
  end.

Definition freeze_reason_from_tips (old_tips new_tips : ObservedTips) : FreezeReason :=
  match non_finalised new_tips, validator new_tips with
  | None, _ => NonFinalizedUnavailable
  | _, None => ValidatorTipUnavailable
  | _, _ =>
      if disagree new_tips then TipsDiverged
      else
        match classify_tip_change old_tips new_tips with
        | ValidatorChanged => ValidatorTipChanged
        | NonFinalizedChanged => NonFinalizedTipChanged
        | BothChanged => BothTipsChanged
        | Unchanged => TipsDiverged
        end
  end.

(** [reconcile], once the tips are observed, and the whole. *)
Definition reconcile_observed (core : MempoolSnapshot) (observed : ObservedTips) (now : Z)
    (s : CoherenceService) : CoherenceService :=
  let prev := coherent s in
  if negb (is_ready core) then freeze now s prev observed ValidatorTipUnavailable
  else if may_be_wrong (completeness core) then freeze now s prev observed CoreIncomplete
  else
    match agree observed with
    | Some epoch => publish_live s prev core observed epoch
    | None => freeze now s prev observed (freeze_reason_from_tips (observed_tips prev) observed)
    end.
Definition reconcile (core : MempoolSnapshot) (nfs : option (option ChainStateEpoch)) (now : Z)
    (s : CoherenceService) : CoherenceService :=
  let (observed, st) := observe_tips nfs (synth_epoch s) core in
  reconcile_observed core observed now
    (mkCoherence (coherent s) (events s) (status s) (frozen_since s) st).

(** *** Streams ([stream_transactions_until_tip_change])

    What a stream does with each event it receives after the entries of the
    snapshot it opened at. *)
Inductive StreamItem := Yield (entry : MempoolEntry) | StreamLagged (missed : Z).
Inductive StreamAction := Emit (item : StreamItem) | Continue | Break | EmitBreak (item : StreamItem).

Definition stream_event (start_sequence : Z) (stream_epoch : option ChainStateEpoch)
    (event : result MempoolEvent RecvError) : StreamAction :=
  match event with
  | Err (RecvLagged missed) => EmitBreak (StreamLagged missed)
  | Err RecvClosed => Break
  | Ok (EvAdded sequence valid_for entry) =>
      if sequence <=? start_sequence then Continue
      else
        match stream_epoch with
        | Some epoch => if bool_decide (valid_for = epoch) then Emit (Yield entry) else Break
        | None => Emit (Yield entry)
        end
  | Ok (EvLive _ valid_for) =>
      match stream_epoch with
      | Some epoch => if bool_decide (valid_for = epoch) then Continue else Break
      | None => Continue
      end
  | Ok (EvFrozen _ _) => match stream_epoch with None => Break | Some _ => Continue end
  | Ok (EvClosing _) => Break
  end.
(** The items of a stream, and whether it is still open. *)
Fixpoint stream_loop (start_sequence : Z) (stream_epoch : option ChainStateEpoch)
    (received : list (result MempoolEvent RecvError)) : list StreamItem * bool :=
  match received with
  | [] => ([], true)
  | event :: received =>
      match stream_event start_sequence stream_epoch event with
      | Emit item => let (items, o) := stream_loop start_sequence stream_epoch received in (item :: items, o)
      | Continue => stream_loop start_sequence stream_epoch received
      | Break => ([], false)
      | EmitBreak item => ([item], false)
      end
  end.
Definition stream_transactions_until_tip_change (snapshot : CoherentSnapshot)
    (expected_epoch : option ChainStateEpoch) (received : list (result MempoolEvent RecvError))
    : option (list StreamItem * bool) :=
  if match expected_epoch with
     | Some expected => negb (is_valid_for_snapshot snapshot expected)
     | None => false
     end
  then None
  else
    let stream_epoch := match expected_epoch with Some e => Some e | None => valid_for snapshot end in
    let (items, o) := stream_loop (sequence snapshot) stream_epoch received in
    Some ((Yield <$> entries_in_order (set snapshot)) ++ items, o).

(** ** The view is sound *)
Lemma agree_Some t e :
  agree t = Some e <-> exists v, validator t = Some v /\ non_finalised t = Some e /\ br_hash v = br_hash (best_tip e).
Proof.
  unfold agree. destruct (validator t) as [v|]; [|naive_solver]. destruct (non_finalised t) as [ns|]; [|naive_solver].
  case_bool_decide; naive_solver.
Qed.

Lemma observe_tips_validator nfs st core : validator (observe_tips nfs st core).1 = source_tip core.
Proof. unfold observe_tips. destruct nfs; [done|]. by destruct (source_tip core). Qed.

Lemma is_live_for_spec c e : is_live_for c e = true <-> mode c = Live e /\ valid_for c = Some e.
Proof.
  unfold is_live_for. rewrite andb_true_iff, bool_decide_eq_true. destruct (mode c); try naive_solver.
  rewrite bool_decide_eq_true. naive_solver.
Qed.

(** A set blessed for an epoch: one the core published, read at that epoch's tip and
    not known to be out of step with the validator. *)
Definition blessed (seen : MempoolSnapshot -> Prop) (e : ChainStateEpoch) (x : MempoolSnapshot) : Prop :=
  seen x /\ may_be_wrong (completeness x) = false /\
  exists tip, source_tip x = Some tip /\ br_hash tip = br_hash (best_tip e).

Record coherent_ok (seen : MempoolSnapshot -> Prop) (s : CoherenceService) : Prop := {
  co_blessed : forall e, valid_for (coherent s) = Some e -> blessed seen e (set (coherent s));
  co_never : valid_for (coherent s) = None -> set (coherent s) = Mempool.empty;
  co_live : forall e, mode (coherent s) = Live e -> valid_for (coherent s) = Some e /\ frozen_since s = None;
  co_frozen : forall v r, mode (coherent s) = Frozen v r -> v = valid_for (coherent s) /\ is_Some (frozen_since s) }.

Lemma spawn_coherence_ok seen : coherent_ok seen spawn_coherence.
Proof. by split. Qed.

Lemma freeze_ok seen now s observed reason :
  coherent_ok seen s -> coherent_ok seen (freeze now s (coherent s) observed reason).
Proof.
  intros [Hb Hn Hl Hf]. unfold freeze.
  assert (is_frozen (mode (coherent s)) = true -> is_Some (frozen_since s)) as Hclock.
  { destruct (mode (coherent s)) eqn:Hm; try done. intros _. by destruct (Hf _ _ eq_refl). }
  destruct (_ && _) eqn:Hd.
  - apply andb_true_iff in Hd as [Hd _]. destruct (mode (coherent s)) as [| |v r|] eqn:Hm; try done.
    by split; cbn; rewrite ?Hm.
  - split; cbn; try done. intros v r [= <- <-]. split; [done|].
    destruct (is_frozen (mode (coherent s))); [by apply Hclock|done].
Qed.

Lemma publish_live_ok seen s core observed epoch :
  coherent_ok seen s -> blessed seen epoch core ->
  coherent_ok seen (publish_live s (coherent s) core observed epoch).
Proof.
  intros [Hb Hn Hl Hf] Hcore. unfold publish_live. destruct (_ && _ && _) eqn:Hd.
  - apply andb_true_iff in Hd as [[[Hm Hv]%is_live_for_spec _]%andb_true_iff _].
    split; cbn; try done; rewrite Hm; [|done]. by intros e [= <-].
  - by split; cbn; try done; intros e [= <-].
Qed.

Lemma reconcile_ok seen core nfs now s :
  seen core -> coherent_ok seen s -> coherent_ok seen (reconcile core nfs now s).
Proof.
  intros Hseen Hok. unfold reconcile.
  pose proof (observe_tips_validator nfs (synth_epoch s) core) as Hv.
  destruct (observe_tips nfs (synth_epoch s) core) as [observed st]. cbn in Hv.
  set (s1 := mkCoherence _ _ _ _ st). assert (coherent_ok seen s1) as Hok1 by by destruct Hok; split.
  clearbody s1. unfold reconcile_observed.
  destruct (is_ready core); cbn [negb]; [|by apply freeze_ok].
  destruct (may_be_wrong (completeness core)) eqn:Hw; [by apply freeze_ok|].
  destruct (agree observed) as [e|] eqn:Ha; [|by apply freeze_ok].
  apply publish_live_ok; [done|]. apply agree_Some in Ha as (v & Hv' & _ & Hh).
  split; [done|]. split; [done|]. exists v. split; [congruence|done].
Qed.

Lemma publish_closing_ok seen s : coherent_ok seen s -> coherent_ok seen (publish_closing s).
Proof. intros []. by split. Qed.

(** *** The mempool writer and the coherence service together *)
Section System.
Context `{HashIter, ParOrder, TieHash} {W : Type} (Out : Outside W) (config : MempoolConfig) (salt bound : Z).
Context `{!OutsideOk Out bound}.

Record Sys := mkSys { pool : @MempoolService W; view : CoherenceService }.
(** [run]: on a tick, an epoch change or a batch boundary the view is reconciled
    with the core's current snapshot; nothing orders it with the writer's steps. *)
Inductive sys_step : Sys -> Sys -> Prop :=
| sys_pool p p' v : step Out config salt p p' -> sys_step (mkSys p v) (mkSys p' v)
| sys_reconcile p v nfs now : sys_step (mkSys p v) (mkSys p (reconcile (current p) nfs now v))
| sys_close p v : sys_step (mkSys p v) (mkSys p (publish_closing v)).
Definition sys_reachable (y : Sys) : Prop :=
  exists w, rtc sys_step (mkSys (spawn w) spawn_coherence) y.

(** A snapshot the core published at some time. *)
Definition was_published (x : MempoolSnapshot) : Prop :=
  exists p, reachable Out config salt p /\ current p = x.

Lemma sys_ok y :
  sys_reachable y -> reachable Out config salt (pool y) /\ coherent_ok was_published (view y).
Proof.
  intros [w Hs]. remember (mkSys (spawn w) spawn_coherence) as y0 eqn:Hy0.
  assert (reachable Out config salt (pool y0) /\ coherent_ok was_published (view y0)) as Hi.
  { subst y0. split; [by exists w; apply rtc_refl|apply spawn_coherence_ok]. }
  clear Hy0. induction Hs as [y|y y1 y2 Hone _ IH]; [done|]. apply IH. clear IH. destruct Hi as [Hp Hv].
  destruct Hone as [p p' v Hstep|p v nfs now|p v]; cbn in *.
  - split; [|done]. destruct Hp as [w' Hp]. exists w'. by eapply rtc_r.
  - split; [done|]. apply reconcile_ok; [by exists p|done].
  - split; [done|]. by apply publish_closing_ok.
Qed.

(** C16: a view is only ever valid for the epoch its transactions were read
    at.  However polls, reconciliations and epoch changes interleave, a view valid
    for an epoch wraps a well-formed set the core published, tagged with that
    epoch's tip and not possibly wrong; a live view is valid for its epoch and its
    freeze clock is stopped; a frozen one keeps the set and the epoch it last had,
    with the clock running; and a view that was never valid holds nothing. *)
Theorem coherent_view_sound y :
  sys_reachable y ->
  let s := view y in let c := coherent s in
  (forall e, valid_for c = Some e ->
     snap_ok (set c) /\ may_be_wrong (completeness (set c)) = false /\ was_published (set c) /\
     exists tip, source_tip (set c) = Some tip /\ br_hash tip = br_hash (best_tip e)) /\
  (forall e, mode c = Live e -> valid_for c = Some e /\ frozen_since s = None) /\
  (forall v r, mode c = Frozen v r -> v = valid_for c /\ is_Some (frozen_since s)) /\
  (valid_for c = None -> forall t, coherent_get c t = None).
Proof.
  intros [_ [Hb Hn Hl Hf]]%sys_ok. cbn. split_and!; [|done|done|].
  - intros e He. destruct (Hb e He) as ((p & Hp & <-) & Hw & tip & Ht). split_and!; [|done|by exists p|by eauto].
    apply (reachable_inv Out config salt bound), Hp.
  - intros Hv t. unfold coherent_get. by rewrite (Hn Hv).
Qed.
End System.

(** ** Reconciling again changes nothing *)
Lemma observe_tips_again nfs st core o st' :
  observe_tips nfs st core = (o, st') -> observe_tips nfs st' core = (o, st').
Proof.
  unfold observe_tips, synthesized_epoch. destruct nfs; [by intros [= <- <-]|].
  destruct (source_tip core) as [tip|]; [|by intros [= <- <-]].
  case_bool_decide as Hb; intros [= <- <-]; cbn.
  - by rewrite bool_decide_eq_true_2.
  - by rewrite bool_decide_eq_true_2.
Qed.

Lemma freeze_reason_again o o' t : agree t = None -> freeze_reason_from_tips o t = freeze_reason_from_tips o' t.
Proof.
  intros Ha. unfold freeze_reason_from_tips, disagree. rewrite Ha.
  destruct (non_finalised t); [|done]. by destruct (validator t).
Qed.

Lemma freeze_again now now' s observed reason :
  let s' := freeze now s (coherent s) observed reason in
  freeze now' s' (coherent s') observed reason = s'.
Proof.
  unfold freeze at 1. cbn. destruct (_ && _) eqn:Hd; unfold freeze at 1; cbn.
  - rewrite Hd. apply andb_true_iff in Hd as [Hd _]. by destruct (mode (coherent s)).
  - by rewrite !bool_decide_eq_true_2.
Qed.

Lemma publish_live_again s core observed epoch :
  let s' := publish_live s (coherent s) core observed epoch in
  publish_live s' (coherent s') core observed epoch = s'.
Proof.
  unfold publish_live at 1. cbn. destruct (_ && _ && _) eqn:Hd; unfold publish_live at 1; cbn.
  - by rewrite Hd.
  - unfold is_live_for. cbn. rewrite !bool_decide_eq_true_2, Z.eqb_refl by done. reflexivity.
Qed.

Lemma reconcile_observed_again core o now now' s :
  let s' := reconcile_observed core o now s in
  reconcile_observed core o now' s' = s' /\ synth_epoch s' = synth_epoch s.
Proof.
  assert (forall reason, synth_epoch (freeze now s (coherent s) o reason) = synth_epoch s) as Hsf.
  { intros reason. unfold freeze. by destruct (_ && _). }
  unfold reconcile_observed. destruct (negb (is_ready core)); [by rewrite freeze_again|].
  destruct (may_be_wrong (completeness core)); [by rewrite freeze_again|].
  destruct (agree o) as [e|] eqn:Ha; cbn.
  - rewrite publish_live_again. split; [done|]. unfold publish_live. by destruct (_ && _ && _).
  - erewrite (freeze_reason_again (observed_tips (coherent (freeze _ _ _ _ _)))), freeze_again by done. done.
Qed.

(** Reconciling again with the same core snapshot and the same epoch,
    at any later time, changes nothing and sends no event, so wake-ups may be
    spurious; with or without an observer of the non-finalised state. *)
Theorem reconcile_idempotent core nfs now now' s :
  reconcile core nfs now' (reconcile core nfs now s) = reconcile core nfs now s.
Proof.
  unfold reconcile at 2 3. destruct (observe_tips nfs (synth_epoch s) core) as [o st] eqn:Ho.
  destruct (reconcile_observed_again core o now now' (mkCoherence (coherent s) (events s) (status s) (frozen_since s) st))
    as [Hs Hst]. cbn in Hs, Hst. set (s' := reconcile_observed core o now _) in *.
  unfold reconcile. rewrite Hst, (observe_tips_again _ _ _ _ _ Ho). rewrite <- Hst. destruct s'. exact Hs.
Qed.

(** ** Streams *)

(** The view stays live for an epoch across any number of reconciliations. *)
Inductive steady (e : ChainStateEpoch) (s : CoherenceService) : CoherenceService -> Prop :=
| steady_start : is_live_for (coherent s) e = true -> set_ok (set (coherent s)) -> steady e s s
| steady_step s1 core nfs now :
    steady e s s1 -> set_ok core -> is_live_for (coherent (reconcile core nfs now s1)) e = true ->
    steady e s (reconcile core nfs now s1).

(** A reconciliation that stays live tells the stream what the set gained. *)
Lemma reconcile_live e core nfs now s :
  is_live_for (coherent s) e = true -> is_live_for (coherent (reconcile core nfs now s)) e = true ->
  let s' := reconcile core nfs now s in
  (coherent s' = coherent s /\ events s' = events s) \/
  (set (coherent s') = core /\ sequence (coherent s') = saturating_add 64 (sequence (coherent s)) 1 /\
   events s' = events s ++
     (EvAdded (sequence (coherent s')) e <$>
        filter (fun x => by_txid (set (coherent s)) !! e_txid x = None) (entries_in_order core)) ++
     [EvLive (sequence (coherent s')) e]).
Proof.
  cbn. unfold reconcile. destruct (observe_tips nfs (synth_epoch s) core) as [o st].
  remember (mkCoherence (coherent s) (events s) (status s) (frozen_since s) st) as s1 eqn:Hs1.
  assert (coherent s = coherent s1) as -> by by rewrite Hs1. assert (events s = events s1) as -> by by rewrite Hs1.
  clear Hs1 s. intros Hl.
  assert (forall reason, is_live_for (coherent (freeze now s1 (coherent s1) o reason)) e = false) as Hf.
  { intros reason. apply is_live_for_spec in Hl as [Hm _]. unfold freeze. rewrite Hm. cbn. done. }
  unfold reconcile_observed. destruct (negb (is_ready core)); [by rewrite Hf|].
  destruct (may_be_wrong (completeness core)); [by rewrite Hf|].
  destruct (agree o) as [e'|]; [|by rewrite Hf].
  unfold publish_live. destruct (_ && _ && _) eqn:Hd; cbn; [by left|].
  intros [[= ->] _]%is_live_for_spec. right. rewrite Hl. done.
Qed.

Lemma stream_loop_app n e l1 l2 items1 items2 :
  stream_loop n e l1 = (items1, true) -> stream_loop n e l2 = (items2, true) ->
  stream_loop n e (l1 ++ l2) = (items1 ++ items2, true).
Proof.
  revert items1. induction l1 as [|ev l1 IH]; intros items1 H1 H2; cbn in *; [by simplify_eq|].
  destruct (stream_event n e ev) as [item| | |]; [|by apply IH|done|done].
  destruct (stream_loop n e l1) as [items o] eqn:Hl. simplify_eq. by rewrite (IH items).
Qed.

Lemma stream_loop_update n seq e es :
  n < seq ->
  stream_loop n (Some e) (Ok <$> (EvAdded seq e <$> es) ++ [EvLive seq e]) = (Yield <$> es, true).
Proof.
  intros Hn. induction es as [|x es IH]; cbn; [by rewrite bool_decide_eq_true_2|].
  destruct (Z.leb_spec seq n); [lia|]. rewrite bool_decide_eq_true_2 by done. cbn in IH. by rewrite IH.
Qed.

Lemma steady_stream e s s' :
  steady e s s' -> sequence (coherent s') < umax 64 ->
  is_live_for (coherent s') e = true /\ set_ok (set (coherent s')) /\
  sequence (coherent s) <= sequence (coherent s') /\
  exists l items, events s' = events s ++ l /\
    stream_loop (sequence (coherent s)) (Some e) (Ok <$> l) = (Yield <$> items, true) /\
    forall t, is_Some (by_txid (set (coherent s')) !! t) ->
      t ∈ e_txid <$> entries_in_order (set (coherent s)) ++ items.
Proof.
  assert (forall x, set_ok x -> forall t, is_Some (by_txid x !! t) <-> t ∈ e_txid <$> entries_in_order x) as Hin.
  { intros x [Hk Hts _ He _ _ _] t.
    assert (e_txid <$> entries_in_order x = txids_sorted x) as ->.
    { clear Hts. induction He as [|t' y ts ys Hy _ IH]; cbn; [done|]. destruct (Hk _ _ Hy) as [-> _]. by f_equal. }
    rewrite Hts, list_elem_of_fmap. split.
    - intros [y Hy]. exists (t, y). by rewrite elem_of_map_to_list.
    - intros ([t' y] & -> & Hy%elem_of_map_to_list). eauto. }
  induction 1 as [Hl Hok|s1 core nfs now Hst IH Hcore Hl]; intros Hseq.
  { split_and!; [done|done|lia|]. exists [], []. rewrite !app_nil_r. split_and!; [done|done|].
    intros t Ht. by apply Hin. }
  assert (is_live_for (coherent s1) e = true) as Hl1 by (by destruct Hst).
  destruct (reconcile_live e core nfs now s1 Hl1 Hl) as [[Hc He]|(Hset & Hs & He)].
  { rewrite Hc in *. destruct (IH Hseq) as (_ & Hok1 & Hle & l & items & Hev & Hstr & Hall).
    split_and!; [done|done|done|]. exists l, items. by rewrite He. }
  set (s2 := reconcile core nfs now s1) in *. clearbody s2.
  assert (sequence (coherent s1) < umax 64 /\ sequence (coherent s2) = sequence (coherent s1) + 1) as [Hlt Hs'].
  { unfold saturating_add, umax in *. lia. }
  destruct (IH Hlt) as (_ & Hok1 & Hle & l & items & Hev & Hstr & Hall).
  set (fresh := filter (fun x => by_txid (set (coherent s1)) !! e_txid x = None) (entries_in_order core)) in *.
  split_and!; [done|by rewrite Hset|lia|].
  exists (l ++ (EvAdded (sequence (coherent s2)) e <$> fresh) ++ [EvLive (sequence (coherent s2)) e]), (items ++ fresh).
  split; [by rewrite He, Hev, <- app_assoc|]. split.
  - rewrite !fmap_app. apply stream_loop_app; [done|]. rewrite <- fmap_app. apply stream_loop_update. lia.
  - intros t Ht. rewrite Hset in Ht. destruct (by_txid (set (coherent s1)) !! t) as [x|] eqn:Hx.
    + rewrite app_assoc, fmap_app, elem_of_app. left. apply Hall. eauto.
    + apply Hin in Ht as (y & -> & Hy)%list_elem_of_fmap; [|done]. apply list_elem_of_fmap_2, elem_of_app. right.
      apply elem_of_app. right. by apply list_elem_of_filter.
Qed.

(** C28: a stream opened at an epoch misses nothing while the view stays live
    for that epoch.  Having received the events sent since it opened, in order, it
    is still open and has yielded every transaction of the current set. *)
Theorem stream_complete_while_live e s s' :
  steady e s s' -> sequence (coherent s') < umax 64 ->
  exists l items, events s' = events s ++ l /\
    stream_transactions_until_tip_change (coherent s) (Some e) (Ok <$> l) = Some (Yield <$> items, true) /\
    forall t, is_Some (by_txid (set (coherent s')) !! t) -> t ∈ e_txid <$> items.
Proof.
  intros Hst Hseq. assert (is_valid_for_snapshot (coherent s) e = true) as Hv.
  { apply bool_decide_eq_true. clear Hseq. induction Hst as [Hl _|]; [|done]. by apply is_live_for_spec in Hl as [_ ?]. }
  destruct (steady_stream e s s' Hst Hseq) as (_ & _ & _ & l & items & Hev & Hstr & Hall).
  exists l, (entries_in_order (set (coherent s)) ++ items). split; [done|]. split; [|done].
  unfold stream_transactions_until_tip_change. rewrite Hv. cbn [negb]. by rewrite Hstr, fmap_app.
Qed.

(** ** A concrete system *)
Module Example.
Local Existing Instance canonical_iter.
Local Existing Instance MempoolCorrect.Example.in_order.
Local Existing Instance MempoolCorrect.Example.no_hash.

(** A validator at one tip whose mempool gains a transaction; one listing fails. *)
Definition moving : Outside nat :=
  mkOutside nat (fun w => (Ok ([7], 5), w))
    (fun w => (match w with 0%nat => Ok [[1]] | 1%nat => Err tt | _ => Ok [[1]; [2]] end, w))
    (fun w => (Ok [mkMeta [1] 5 (Some 100) 2 1; mkMeta [2] 5 (Some 101) 2 1], w))
    (fun t w => (Ok (t ++ t), w)) (fun w => (1000 * Z.of_nat w, w)) (fun w => (1000000, w)).
Global Instance moving_ok : OutsideOk moving 1000000.
Proof.
  split; [|intros w b w' [= <- _]; lia|lia].
  intros [|[|w]] txids w' [= <- _]; repeat constructor; set_solver.
Qed.

Definition at_world (w : nat) (p : @MempoolService nat) : @MempoolService nat :=
  mkService (current p) (updates p) (Mempool.status p) (poll p) w.
Definition poll_at (w : nat) (p : @MempoolService nat) : @MempoolService nat :=
  match tick moving default_config 0 (at_world w p) with Some (_, p') => p' | None => p end.
Definition epoch : ChainStateEpoch := ChainHead.mkEpoch 1 (mkBlockRef [7] 5).
Definition reconcile_at (p : @MempoolService nat) (now : Z) (v : CoherenceService) : CoherenceService :=
  reconcile (current p) (Some (Some epoch)) now v.

(** The first poll is served live; then a listing fails and the view freezes; then
    the listing is back, with one more transaction, and the view thaws. *)
Definition p1 : @MempoolService nat := poll_at 0 (spawn 0%nat).
Definition v1 : CoherenceService := reconcile_at p1 0 spawn_coherence.
Definition p2 : @MempoolService nat := poll_at 1 p1.
Definition v2 : CoherenceService := reconcile_at p2 1 v1.
Definition p3 : @MempoolService nat := poll_at 2 p2.
Definition v3 : CoherenceService := reconcile_at p3 2 v2.
(** The same without the failure. *)
Definition p3' : @MempoolService nat := poll_at 2 p1.
Definition v3' : CoherenceService := reconcile_at p3' 2 v1.

Lemma poll_steps w p v :
  is_ok (ok_or (tick moving default_config 0 (at_world w p)) tt) = true ->
  rtc (sys_step moving default_config 0) (mkSys p v) (mkSys (poll_at w p) v).
Proof.
  unfold poll_at. destruct (tick moving default_config 0 (at_world w p)) as [[[] p']|] eqn:Ht; [|done]. intros _.
  eapply rtc_l; [apply sys_pool, (step_outside moving default_config 0 p w)|]. apply rtc_once, sys_pool, step_tick, Ht.
Qed.
Lemma reconcile_step p v now :
  rtc (sys_step moving default_config 0) (mkSys p v) (mkSys p (reconcile_at p now v)).
Proof. apply rtc_once, sys_reconcile. Qed.

Lemma start_reachable : sys_reachable moving default_config 0 (mkSys p1 v1).
Proof.
  exists 0%nat. etrans; [apply (poll_steps 0); vm_compute; reflexivity|]. apply reconcile_step.
Qed.
Lemma thaw_steps : rtc (sys_step moving default_config 0) (mkSys p1 v1) (mkSys p3 v3).
Proof.
  etrans; [apply (poll_steps 1); vm_compute; reflexivity|].
  etrans; [apply (reconcile_step p2 v1 1)|].
  etrans; [apply (poll_steps 2); vm_compute; reflexivity|]. apply (reconcile_step p3 v2 2).
Qed.
Lemma later_reachable : sys_reachable moving default_config 0 (mkSys p3' v3').
Proof.
  destruct start_reachable as [w Hs]. exists w. etrans; [apply Hs|].
  etrans; [apply (poll_steps 2); vm_compute; reflexivity|]. apply (reconcile_step p3' v1 2).
Qed.

Lemma p1_ok : set_ok (current p1).
Proof.
  destruct (sys_ok moving default_config 0 _ start_reachable) as [Hp _].
  apply (reachable_inv moving default_config 0 1000000), inv_snap in Hp. apply Hp.
Qed.
Lemma p3'_ok : set_ok (current p3').
Proof.
  destruct (sys_ok moving default_config 0 _ later_reachable) as [Hp _].
  apply (reachable_inv moving default_config 0 1000000), inv_snap in Hp. apply Hp.
Qed.
Lemma v1_set : set (coherent v1) = current p1.
Proof. vm_compute. reflexivity. Qed.
Lemma v1_live : is_live_for (coherent v1) epoch = true.
Proof. vm_compute. reflexivity. Qed.
Lemma v3'_steady : steady epoch v1 v3'.
Proof.
  apply steady_step; [apply steady_start; [apply v1_live|rewrite v1_set; apply p1_ok]|apply p3'_ok|].
  vm_compute. reflexivity.
Qed.

Lemma coherent_view_sound_witness :
  sys_reachable moving default_config 0 (mkSys p1 v1) /\
  exists tip, source_tip (set (coherent v1)) = Some tip /\ br_hash tip = [7].
Proof.
  split; [apply start_reachable|].
  destruct (coherent_view_sound moving default_config 0 1000000 (mkSys p1 v1) start_reachable) as [Hv _].
  destruct (Hv epoch) as (_ & _ & _ & Ht); [|exact Ht]. vm_compute. reflexivity.
Defined.

Lemma stream_complete_while_live_witness :
  exists l items, events v3' = events v1 ++ l /\
    stream_transactions_until_tip_change (coherent v1) (Some epoch) (Ok <$> l) = Some (Yield <$> items, true) /\
    forall t, is_Some (by_txid (set (coherent v3')) !! t) -> t ∈ e_txid <$> items.
Proof. apply (stream_complete_while_live epoch v1 v3' v3'_steady). vm_compute. reflexivity. Defined.

(** C36: a stream can miss a transaction.  The view is live for an epoch, freezes
    because one listing failed, and is live again for the same epoch with one more
    transaction; a stream opened before, having received every event, is still open
    and has not yielded it. *)
Example thaw_drops_additions :
  sys_reachable moving default_config 0 (mkSys p1 v1) /\
  rtc (sys_step moving default_config 0) (mkSys p1 v1) (mkSys p3 v3) /\
  is_live_for (coherent v1) epoch = true /\ is_live_for (coherent v3) epoch = true /\
  is_Some (coherent_get (coherent v3) [2]) /\
  exists l items, events v3 = events v1 ++ l /\
    stream_transactions_until_tip_change (coherent v1) (Some epoch) (Ok <$> l) = Some (Yield <$> items, true) /\
    [2] ∉ e_txid <$> items.
Proof.
  split; [apply start_reachable|]. split; [apply thaw_steps|]. split; [apply v1_live|].
  split; [vm_compute; reflexivity|]. split; [vm_compute; eauto|].
  exists (drop (length (events v1)) (events v3)), (entries_in_order (current p1)).
  split; [vm_compute; reflexivity|]. split; [vm_compute; reflexivity|].
  intros Hin. assert (bool_decide ([2] ∈ e_txid <$> entries_in_order (current p1)) = true) as Hb by by apply bool_decide_eq_true.
  vm_compute in Hb. done.
Qed.
End Example.
End Coherence.
