(* ===== verification/Dag.v ===== *)
(** * The dependency DAG of the sync engine
    ([packages/zaino-sync/src/dag.rs], [descriptor.rs])

    Descriptors of indexes, the validation of their names and dependencies,
    Kahn's layered topological sort, and the queries on the result.  [None] is
    a panic ([expect], map indexing, a [usize] underflow) or a loop out of fuel;
    it is proved not to arise. *)

From S2P Require Import Prelude Types Persistence.
From stdpp Require Import base gmap list strings sets relations.
From Stdlib Require Import Lia.
Open Scope nat_scope.

Module Dag.

Abbreviation IndexId := string.

Inductive CarryType := Sequential | OrderedMonoid.
Inductive InputScope := BlockLocal | SelfCumulative (carry : CarryType) | CrossIndex.
Inductive CompositionType := Append | Monoidal | Fold.
Inductive SourceAccess := NoAccess | NonLocal.

Record Descriptor := mkDescriptor {
  name : IndexId;
  scope : InputScope;
  composition : CompositionType;
  dependencies : list IndexId;
  source_access : SourceAccess;
  key_order : Kv.KeyOrder }.

Inductive FiringRule := Pipelined | Barrier.
Record DagEdge := mkDagEdge { from : IndexId; to : IndexId; firing : FiringRule }.
Record DagNode := mkDagNode { descriptor : Descriptor; phase : nat }.
Record DependencyDag := mkDag {
  nodes : gmap IndexId DagNode;
  edges : list DagEdge;
  phase_count : nat }.

Inductive DagError :=
| UnknownDependency (from to : IndexId)
| CycleDetected (participants : list IndexId)
| DuplicateName (n : IndexId).

(** [validate_unique_names]: the set so far, and the first repeated name. *)
Fixpoint validate_unique_names_loop (names : gset IndexId) (ds : list Descriptor)
    : result (gset IndexId) DagError :=
  match ds with
  | [] => Ok names
  | d :: ds =>
      if bool_decide (name d ∈ names) then Err (DuplicateName (name d))
      else validate_unique_names_loop ({[name d]} ∪ names) ds
  end.
Definition validate_unique_names (ds : list Descriptor) : result (gset IndexId) DagError :=
  validate_unique_names_loop ∅ ds.

(** [collect_edges] *)
Fixpoint dep_edges (registered : gset IndexId) (n : IndexId) (deps : list IndexId)
    : result (list (IndexId * IndexId)) DagError :=
  match deps with
  | [] => Ok []
  | dep :: deps =>
      if bool_decide (dep ∈ registered) then
        let? rest := dep_edges registered n deps in Ok ((dep, n) :: rest)
      else Err (UnknownDependency n dep)
  end.
Fixpoint collect_edges (ds : list Descriptor) (registered : gset IndexId)
    : result (list (IndexId * IndexId)) DagError :=
  match ds with
  | [] => Ok []
  | d :: ds =>
      let? es := dep_edges registered (name d) (dependencies d) in
      let? rest := collect_edges ds registered in
      Ok (es ++ rest)
  end.

(** ** Kahn's algorithm *)

(** [in_degree] and [dependents] after the edge scan. *)
Definition count_edge (m : gmap IndexId nat) (e : IndexId * IndexId) : gmap IndexId nat :=
  <[e.2 := S (default 0 (m !! e.2))]> m.
Definition initial_degrees (ds : list Descriptor) : gmap IndexId nat :=
  list_to_map ((fun d => (name d, 0)) <$> ds).
Definition in_degrees (ds : list Descriptor) (es : list (IndexId * IndexId)) : gmap IndexId nat :=
  fold_left count_edge es (initial_degrees ds).
Definition add_dependent (m : gmap IndexId (list IndexId)) (e : IndexId * IndexId)
    : gmap IndexId (list IndexId) :=
  <[e.1 := default [] (m !! e.1) ++ [e.2]]> m.
Definition dependents_of (es : list (IndexId * IndexId)) : gmap IndexId (list IndexId) :=
  fold_left add_dependent es ∅.

Record KahnState := mkKahn {
  in_degree : gmap IndexId nat;
  queue : list IndexId;
  phase_map : gmap IndexId nat;
  visited : nat }.

(** One downstream edge: its degree falls, and a node reaching zero is queued. *)
Definition release_one (st : KahnState) (dep : IndexId) : option KahnState :=
  match in_degree st !! dep with
  | Some (S deg) =>
      Some (mkKahn (<[dep := deg]> (in_degree st))
              (if deg =? 0 then queue st ++ [dep] else queue st)
              (phase_map st) (visited st))
  | _ => None
  end.
Fixpoint release_all (st : KahnState) (downstream : list IndexId) : option KahnState :=
  match downstream with
  | [] => Some st
  | dep :: downstream => let! st := release_one st dep in release_all st downstream
  end.
Definition visit (dependents : gmap IndexId (list IndexId)) (phase : nat) (st : KahnState)
    (id : IndexId) : option KahnState :=
  release_all
    (mkKahn (in_degree st) (queue st) (<[id := phase]> (phase_map st)) (S (visited st)))
    (default [] (dependents !! id)).
Fixpoint visit_layer (dependents : gmap IndexId (list IndexId)) (phase : nat) (st : KahnState)
    (layer : list IndexId) : option KahnState :=
  match layer with
  | [] => Some st
  | id :: layer => let! st := visit dependents phase st id in visit_layer dependents phase st layer
  end.
Fixpoint layers (fuel : nat) (dependents : gmap IndexId (list IndexId)) (phase_idx : nat)
    (st : KahnState) : option KahnState :=
  match queue st with
  | [] => Some st
  | layer =>
      match fuel with
      | O => None
      | S fuel =>
          let! st := visit_layer dependents phase_idx
                       (mkKahn (in_degree st) [] (phase_map st) (visited st)) layer in
          layers fuel dependents (S phase_idx) st
      end
  end.

Section Iteration.
Context `{HashIter}.

(** [toposort_phases]; the queue starts in the map's iteration order. *)
Definition toposort_phases (ds : list Descriptor) (es : list (IndexId * IndexId))
    : option (result (gmap IndexId nat) DagError) :=
  let degrees := in_degrees ds es in
  let queue := (filter (fun kv => kv.2 = 0) (hiter degrees)).*1 in
  let! st := layers (length ds) (dependents_of es) 0 (mkKahn degrees queue ∅ 0) in
  if negb (visited st =? length ds)
  then Some (Err (CycleDetected (filter (fun kv => 0 < kv.2) (hiter (in_degree st))).*1))
  else Some (Ok (phase_map st)).

(** [derive_firing_rule] *)
Definition derive_firing_rule (upstream downstream : Descriptor) : FiringRule :=
  match source_access upstream with NonLocal => Barrier | NoAccess => Pipelined end.

Fixpoint make_edges (desc_map : gmap IndexId Descriptor) (es : list (IndexId * IndexId))
    : option (list DagEdge) :=
  match es with
  | [] => Some []
  | (f, t) :: es =>
      let! fd := desc_map !! f in
      let! td := desc_map !! t in
      let! rest := make_edges desc_map es in
      Some (mkDagEdge f t (derive_firing_rule fd td) :: rest)
  end.
Fixpoint make_nodes (phases : gmap IndexId nat) (ds : list Descriptor)
    : option (gmap IndexId DagNode) :=
  match ds with
  | [] => Some ∅
  | d :: ds =>
      let! p := phases !! name d in
      let! rest := make_nodes phases ds in
      Some (<[name d := mkDagNode d p]> rest)
  end.

Definition max_phase_count (phases : gmap IndexId nat) : nat :=
  fold_left (fun m p => m `max` S p) (values phases) 0.

(** [DependencyDag::build] *)
Definition build (ds : list Descriptor) : option (result DependencyDag DagError) :=
  match validate_unique_names ds with
  | Err e => Some (Err e)
  | Ok names =>
      match collect_edges ds names with
      | Err e => Some (Err e)
      | Ok raw_edges =>
          let! r := toposort_phases ds raw_edges in
          match r with
          | Err e => Some (Err e)
          | Ok phases =>
              let desc_map := list_to_map (reverse ((fun d => (name d, d)) <$> ds)) in
              let! es := make_edges desc_map raw_edges in
              let! ns := make_nodes phases ds in
              Some (Ok (mkDag ns es (max_phase_count phases)))
          end
      end
  end.

(** [DependencyDag::phases]: nodes grouped by phase; [None] is an index out of
    the groups. *)
Definition push_node (groups : list (list DagNode)) (n : DagNode) : option (list (list DagNode)) :=
  let! g := groups !! phase n in Some (<[phase n := g ++ [n]]> groups).
Fixpoint push_nodes (groups : list (list DagNode)) (ns : list DagNode)
    : option (list (list DagNode)) :=
  match ns with
  | [] => Some groups
  | n :: ns => let! groups := push_node groups n in push_nodes groups ns
  end.
Definition phases (d : DependencyDag) : option (list (list DagNode)) :=
  push_nodes (replicate (phase_count d) []) (values (nodes d)).
End Iteration.

Definition firing_rule (d : DependencyDag) (f t : IndexId) : option FiringRule :=
  let! e := List.find (fun e => bool_decide (from e = f) && bool_decide (to e = t)) (edges d) in
  Some (firing e).

Record CellSchedulingProps := mkCell {
  parallel_extract : bool;
  parallel_merge : bool;
  sequential_merge : bool;
  requires_phase_gate : bool;
  requires_self_feedback : bool }.

(** [DependencyDag::cell_properties] *)
Definition cell_properties (s : InputScope) (c : CompositionType) : CellSchedulingProps :=
  mkCell (match s with BlockLocal => true | _ => false end)
         (match c with Monoidal => true | _ => false end)
         (match c with Fold => true | _ => false end)
         (match s with CrossIndex => true | _ => false end)
         (match s with SelfCumulative _ => true | _ => false end).

(** ** Specification

    [edge es f t]: [t] depends on [f].  [pending es done x] counts the
    dependencies of [x] not yet done, with repetitions. *)
Definition edge (es : list (IndexId * IndexId)) (f t : IndexId) : Prop := (f, t) ∈ es.
Definition pending (es : list (IndexId * IndexId)) (done : gmap IndexId nat) (x : IndexId) : nat :=
  length (filter (fun e => e.2 = x /\ done !! e.1 = None) es).

(** How often [x] occurs. *)
Definition occurs (x : IndexId) (l : list IndexId) : nat := length (filter (eq x) l).

Arguments occurs : simpl never.

Lemma occurs_cons x y l : occurs x (y :: l) = (if decide (x = y) then 1 else 0) + occurs x l.
Proof. unfold occurs. rewrite filter_cons. by case_decide. Qed.

Lemma dependents_of_lookup es x :
  default [] (dependents_of es !! x) = (filter (fun e => e.1 = x) es).*2.
Proof.
  unfold dependents_of.
  assert (forall m, default [] (fold_left add_dependent es m !! x) =
            default [] (m !! x) ++ (filter (fun e => e.1 = x) es).*2) as Hgen.
  { induction es as [|[f t] es IH]; intros m; cbn [fold_left].
    - by rewrite filter_nil, app_nil_r.
    - rewrite IH, filter_cons. unfold add_dependent; cbn [fst snd].
      destruct (decide (f = x)) as [->|Hne].
      + rewrite lookup_insert_eq. cbn. by rewrite <- app_assoc.
      + by rewrite lookup_insert_ne. }
  rewrite Hgen, lookup_empty. done.
Qed.

Lemma initial_degrees_lookup ds x :
  initial_degrees ds !! x = if decide (x ∈ name <$> ds) then Some 0 else None.
Proof.
  unfold initial_degrees. induction ds as [|d ds IH]; cbn.
  - rewrite lookup_empty. case_decide as Hx; [by apply elem_of_nil in Hx|done].
  - destruct (decide (name d = x)) as [<-|Hne].
    + rewrite lookup_insert_eq, decide_True by left. done.
    + rewrite lookup_insert_ne by done. cbn in IH. rewrite IH. apply decide_ext.
      rewrite elem_of_cons. naive_solver.
Qed.

Lemma in_degrees_lookup ds es x :
  (forall f t, edge es f t -> t ∈ name <$> ds) ->
  in_degrees ds es !! x = if decide (x ∈ name <$> ds) then Some (pending es ∅ x) else None.
Proof.
  intros Hes. unfold in_degrees, pending.
  assert (forall m, (forall f t, (f, t) ∈ es -> is_Some (m !! t)) ->
    fold_left count_edge es m !! x =
      (fun k => k + length (filter (fun e => e.2 = x /\ (∅ : gmap IndexId nat) !! e.1 = None) es))
        <$> m !! x) as Hgen.
  { clear Hes. induction es as [|[f t] es IH]; intros m Hm; cbn [fold_left].
    - rewrite filter_nil. cbn. destruct (m !! x); cbn; [|done]. f_equal. lia.
    - destruct (Hm f t) as [k Hk]; [by left|]. rewrite IH.
      + rewrite filter_cons. unfold count_edge; cbn [fst snd]. rewrite Hk; cbn [default].
        destruct (decide (t = x)) as [<-|Hne].
        * rewrite lookup_insert_eq, Hk, decide_True by (by rewrite lookup_empty). cbn. f_equal. lia.
        * rewrite lookup_insert_ne, decide_False by naive_solver. done.
      + intros f' t' Hin. unfold count_edge; cbn [fst snd].
        destruct (decide (t = t')) as [<-|Hne]; [rewrite lookup_insert_eq; eauto|].
        rewrite lookup_insert_ne by done. apply (Hm f'). by right. }
  rewrite Hgen, initial_degrees_lookup; [by case_decide|].
  intros f t Hin. rewrite initial_degrees_lookup, decide_True by by eapply Hes. eauto.
Qed.

(** Marking [x] done lowers the pending count of each node by the number of
    its edges from [x]. *)
Lemma pending_insert es done x k y :
  done !! x = None ->
  pending es done y = pending es (<[x := k]> done) y
                      + occurs y ((filter (fun e => e.1 = x) es).*2).
Proof.
  intros Hx. unfold pending, occurs. induction es as [|[f t] es IH]; [done|].
  rewrite !filter_cons; cbn [fst snd]. destruct (decide (f = x)) as [->|Hne].
  - rewrite Hx, lookup_insert_eq.
    rewrite (decide_False (P := t = y /\ Some k = None)) by naive_solver.
    rewrite fmap_cons, filter_cons. cbn [snd].
    destruct (decide (t = y /\ None = None)), (decide (y = t)); try naive_solver; cbn [length]; lia.
  - rewrite lookup_insert_ne by done. destruct (decide (t = y /\ done !! f = None)); cbn; lia.
Qed.

Lemma pending_zero es done x :
  pending es done x = 0 <-> forall f, edge es f x -> is_Some (done !! f).
Proof.
  unfold pending, edge. split.
  - intros Hz%nil_length_inv f Hin. destruct (done !! f) eqn:Hf; [eauto|].
    assert ((f, x) ∈ filter (fun e => e.2 = x /\ done !! e.1 = None) es) as Hm
      by by apply list_elem_of_filter.
    rewrite Hz in Hm. by apply elem_of_nil in Hm.
  - intros Hall. destruct (filter _ es) as [|[f t] l] eqn:Hfl; [done|].
    assert ((f, t) ∈ filter (fun e => e.2 = x /\ done !! e.1 = None) es) as Hm
      by (rewrite Hfl; left).
    apply list_elem_of_filter in Hm as [[Ht Hf] Hin]. cbn in *. subst t.
    destruct (Hall f Hin) as [? ?]. congruence.
Qed.

(** *** Releasing the dependents of one node *)
Lemma release_all_spec ds st :
  (forall x, x ∈ ds -> is_Some (in_degree st !! x)) ->
  (forall x k, in_degree st !! x = Some k -> occurs x ds <= k) ->
  exists st', release_all st ds = Some st' /\
    phase_map st' = phase_map st /\ visited st' = visited st /\
    (forall x, in_degree st' !! x = (fun k => k - occurs x ds) <$> in_degree st !! x) /\
    exists q, queue st' = queue st ++ q /\ NoDup q /\
      forall x, x ∈ q <-> x ∈ ds /\ in_degree st !! x = Some (occurs x ds).
Proof.
  revert st. induction ds as [|d ds IH]; intros st Hin Hle; cbn [release_all].
  - exists st. split_and!; [done..| |].
    + intros x. destruct (in_degree st !! x) as [k|]; cbn; [|done]. f_equal. unfold occurs. cbn. lia.
    + exists []. rewrite app_nil_r. split_and!; [done|constructor|]. intros x. split.
      * intros Hx. by apply elem_of_nil in Hx.
      * intros [Hx _]. by apply elem_of_nil in Hx.
  - destruct (Hin d) as [k Hk]; [by left|]. pose proof (Hle d k Hk) as Hd.
    rewrite occurs_cons, decide_True in Hd by done. destruct k as [|k]; [lia|].
    unfold release_one. rewrite Hk. cbn.
    set (st1 := mkKahn _ _ _ _).
    destruct (IH st1) as (st' & Hr & Hp & Hv & Hdeg & q & Hq & Hnd & Hqin).
    + intros x Hx. cbn. destruct (decide (d = x)) as [<-|]; [rewrite lookup_insert_eq; eauto|].
      rewrite lookup_insert_ne by done. apply Hin. by right.
    + intros x k' Hk'. cbn in Hk'. apply lookup_insert_Some in Hk' as [[<- <-]|[Hne Hk']]; [lia|].
      specialize (Hle x k' Hk'). rewrite occurs_cons in Hle. lia.
    + exists st'. split_and!; [done..| |].
      * intros x. rewrite Hdeg. cbn [in_degree st1]. rewrite occurs_cons.
        destruct (decide (d = x)) as [<-|Hne].
        -- rewrite lookup_insert_eq, Hk, decide_True by done. cbn. f_equal; lia.
        -- by rewrite lookup_insert_ne, decide_False by done.
      * rewrite Hq. cbn [queue st1]. destruct (Nat.eqb_spec k 0) as [->|Hk0].
        -- assert (occurs d ds = 0) as Hz by lia.
           assert (d ∉ q) as Hdq.
           { intros [Hd' _]%Hqin. unfold occurs in Hz. apply nil_length_inv in Hz.
             assert (d ∈ filter (eq d) ds) as Hm by by apply list_elem_of_filter.
             rewrite Hz in Hm. by apply elem_of_nil in Hm. }
           exists (d :: q). rewrite <- app_assoc. split_and!; [done|by constructor|].
           intros x. rewrite !elem_of_cons, Hqin, occurs_cons. cbn [in_degree st1].
           destruct (decide (x = d)) as [->|Hne].
           ++ rewrite Hk, Hz. naive_solver.
           ++ rewrite lookup_insert_ne by done. naive_solver.
        -- exists q. split_and!; [done..|]. intros x. rewrite elem_of_cons, Hqin, occurs_cons.
           cbn [in_degree st1]. destruct (decide (x = d)) as [->|Hne].
           ++ rewrite lookup_insert_eq, Hk. split.
              ** intros [? [= ->]]. split; [by right|done].
              ** intros [_ [= Heq]]. split; [|congruence].
                 destruct (decide (d ∈ ds)) as [|Hni]; [done|]. exfalso. apply Hk0. rewrite Heq.
                 unfold occurs. destruct (filter (eq d) ds) as [|y l] eqn:Hf; [done|].
                 assert (y ∈ filter (eq d) ds) as Hm by (rewrite Hf; left).
                 apply list_elem_of_filter in Hm as [<- Hm]. done.
           ++ rewrite lookup_insert_ne by done. naive_solver.
Qed.

Lemma occurs_pos x l : x ∈ l <-> 0 < occurs x l.
Proof.
  unfold occurs. split.
  - intros Hx. destruct (filter (eq x) l) eqn:Hf; cbn; [|lia].
    assert (x ∈ filter (eq x) l) as Hm by by apply list_elem_of_filter.
    rewrite Hf in Hm. by apply elem_of_nil in Hm.
  - intros Hl. destruct (filter (eq x) l) as [|y l'] eqn:Hf; cbn in Hl; [lia|].
    assert (y ∈ filter (eq x) l) as Hm by (rewrite Hf; left).
    by apply list_elem_of_filter in Hm as [<- Hm].
Qed.

(** Walking back [n] dependencies inside a set with no way out of it. *)
Lemma walk_back (E : relation IndexId) (R : IndexId -> Prop) n x :
  (forall y, R y -> exists f, E f y /\ R f) -> R x ->
  exists l, length l = n /\ Forall R l /\
    forall i y, (x :: l) !! i = Some y -> forall j z, i < j -> (x :: l) !! j = Some z ->
      tc E z y.
Proof.
  intros Hback. revert x. induction n as [|n IH]; intros x Hx.
  - exists []. split_and!; [done|constructor|]. intros i y Hi j z Hij Hj.
    destruct j; [lia|]. done.
  - destruct (Hback x Hx) as (f & Hf & HRf). destruct (IH f HRf) as (l & Hl & Hall & Hchain).
    exists (f :: l). split_and!; [cbn; lia|by constructor|].
    intros i y Hi j z Hij Hj. destruct j as [|j]; [lia|]. cbn in Hj.
    destruct i as [|i]; cbn in Hi.
    + injection Hi as <-. destruct j as [|j].
      * cbn in Hj. injection Hj as <-. by apply tc_once.
      * eapply tc_r; [|exact Hf]. eapply (Hchain 0 f); [done| |exact Hj]. lia.
    + eapply Hchain; [exact Hi| |exact Hj]. lia.
Qed.

Lemma no_exit_cycle (E : relation IndexId) (names : list IndexId) (R : IndexId -> Prop) x :
  (forall y, R y -> y ∈ names) -> (forall y, R y -> exists f, E f y /\ R f) -> R x ->
  exists y, R y /\ tc E y y.
Proof.
  intros Hsub Hback Hx. destruct (walk_back E R (length names) x Hback Hx) as (l & Hl & Hall & Hch).
  assert (~ NoDup (x :: l)) as Hdup.
  { intros Hnd. apply (NoDup_submseteq _ names) in Hnd.
    - apply submseteq_length in Hnd. cbn in Hnd. lia.
    - intros y [->|Hy]%elem_of_cons; [by apply Hsub|]. apply Hsub.
      rewrite Forall_forall in Hall. by apply Hall. }
  assert (exists i j y, i < j /\ (x :: l) !! i = Some y /\ (x :: l) !! j = Some y)
    as (i & j & y & Hij & Hi & Hj).
  { clear -Hdup. induction (x :: l) as [|a l' IH]; [destruct Hdup; constructor|].
    destruct (decide (a ∈ l')) as [[j Hj]%list_elem_of_lookup|Hni].
    - exists 0, (S j), a. split_and!; [lia|done..].
    - destruct IH as (i & j & y & ? & ? & ?); [intros ?; apply Hdup; by constructor|].
      exists (S i), (S j), y. split_and!; [lia|done..]. }
  exists y. split; [|exact (Hch i y Hi j y Hij Hj)].
  apply list_elem_of_lookup_2 in Hi. apply elem_of_cons in Hi as [->|Hi]; [done|].
  rewrite Forall_forall in Hall. by apply Hall.
Qed.

(** ** The invariant of the layered sort *)
Section Kahn.
Context (ds : list Descriptor) (es : list (IndexId * IndexId)).
Let names := name <$> ds.
Context (Hnames : NoDup names).
Context (Hes : forall f t, edge es f t -> f ∈ names /\ t ∈ names).

(** A node's phase is one more than its latest dependency's, or zero. *)
Definition depth_ok (pm : gmap IndexId nat) (x : IndexId) (p : nat) : Prop :=
  (forall f, edge es f x -> exists q, pm !! f = Some q /\ q < p) /\
  (p = 0 \/ exists f, edge es f x /\ pm !! f = Some (p - 1)).

Lemma depth_ok_insert pm x p y k :
  pm !! y = None -> depth_ok pm x p -> depth_ok (<[y := k]> pm) x p.
Proof.
  intros Hy [H1 H2]. split.
  - intros f Hf. destruct (H1 f Hf) as (q & Hq & ?). exists q.
    rewrite lookup_insert_ne by congruence. done.
  - destruct H2 as [?|(f & Hf & Hq)]; [by left|right]. exists f.
    rewrite lookup_insert_ne by congruence. done.
Qed.

(** While layer [k] is being visited: [layer] is what is left of it. *)
Record kahn_inv (k : nat) (layer : list IndexId) (st : KahnState) : Prop := {
  inv_degree : forall x, in_degree st !! x =
    if decide (x ∈ names) then Some (pending es (phase_map st) x) else None;
  inv_ready : forall x, x ∈ layer ++ queue st <->
    x ∈ names /\ phase_map st !! x = None /\ pending es (phase_map st) x = 0;
  inv_nodup : NoDup (layer ++ queue st);
  inv_visited : visited st = size (phase_map st);
  inv_named : forall x p, phase_map st !! x = Some p -> x ∈ names /\ p <= k;
  inv_depth : forall x p, phase_map st !! x = Some p -> depth_ok (phase_map st) x p;
  inv_layer : forall x, x ∈ layer -> depth_ok (phase_map st) x k;
  inv_queue : forall x, x ∈ queue st -> exists f, edge es f x /\ phase_map st !! f = Some k }.

Lemma visit_inv k id layer st :
  kahn_inv k (id :: layer) st ->
  exists st', visit (dependents_of es) k st id = Some st' /\ kahn_inv k layer st' /\
    visited st' = S (visited st).
Proof.
  intros [Hdeg Hready Hnd Hvis Hnamed Hdepth Hlayer Hqueue].
  pose proof (proj1 (Hready id) ltac:(rewrite <- app_comm_cons; left)) as (Hid & Hpm & Hpend).
  unfold visit. rewrite dependents_of_lookup. set (down := (filter _ es).*2).
  set (pm' := <[id := k]> (phase_map st)).
  assert (Hdown : forall x, x ∈ down <-> edge es id x).
  { intros x. unfold down. rewrite list_elem_of_fmap. setoid_rewrite list_elem_of_filter. split.
    - intros ([f t] & -> & Heq & Hin). cbn in Heq. by subst f.
    - intros Hin. by exists (id, x). }
  assert (Hpin : forall x, pending es (phase_map st) x = pending es pm' x + occurs x down)
    by (intros; by apply pending_insert).
  destruct (release_all_spec down
    (mkKahn (in_degree st) (queue st) pm' (S (visited st))))
    as (st' & Hr & Hpm' & Hvis' & Hdeg' & q & Hq & Hqnd & Hqin).
  { intros x Hx. cbn. apply Hdown, Hes in Hx as [_ Hx]. rewrite Hdeg, decide_True by done. eauto. }
  { intros x n Hn. cbn in Hn. rewrite Hdeg in Hn. case_decide; simplify_eq. rewrite Hpin. lia. }
  cbn [phase_map visited in_degree queue] in *.
  rewrite <- app_comm_cons in Hnd. apply NoDup_cons in Hnd as [Hidl Hnd].
  assert (Hqin' : forall x, x ∈ q <-> edge es id x /\ pending es pm' x = 0).
  { intros x. rewrite Hqin, Hdown, Hdeg. split.
    - intros [He Hx]. split; [done|]. rewrite decide_True in Hx by by apply Hes in He as [_ ?].
      injection Hx as Hx. rewrite Hpin in Hx. lia.
    - intros [He Hx]. split; [done|]. rewrite decide_True by by apply Hes in He as [_ ?].
      f_equal. rewrite Hpin. lia. }
  assert (Hnone : forall x, edge es id x -> pm' !! x = None).
  { intros x He. unfold pm'. rewrite lookup_insert_ne.
    - destruct (phase_map st !! x) as [p|] eqn:Hx; [|done].
      destruct (Hdepth x p Hx) as [H1 _]. destruct (H1 id He) as (? & ? & _). congruence.
    - intros <-. apply pending_zero with (f := id) in Hpend as [? ?]; [congruence|done]. }
  exists st'. split; [exact Hr|]. split; [|by rewrite Hvis'].
  split; rewrite ?Hpm', ?Hq.
  - intros x. rewrite Hdeg', Hdeg. case_decide; cbn; [|done]. f_equal. rewrite Hpin. lia.
  - intros x. rewrite app_assoc, elem_of_app, Hqin'. split.
    + intros [Hx|[He Hz]].
      * assert (x <> id) by (intros ->; done).
        destruct (proj1 (Hready x)) as (? & ? & Hz); [by right|].
        rewrite Hpin in Hz. split_and!; [done|unfold pm'; by rewrite lookup_insert_ne|lia].
      * split_and!; [by apply Hes in He as [_ ?]|by apply Hnone|done].
    + intros (Hn & Hx & Hz). destruct (decide (x ∈ down)) as [He%Hdown|Hni]; [by right|].
      left. assert (x <> id) by (intros ->; unfold pm' in Hx; by rewrite lookup_insert_eq in Hx).
      unfold pm' in Hx. rewrite lookup_insert_ne in Hx by done.
      assert (occurs x down = 0) by (rewrite occurs_pos in Hni; lia).
      assert (x ∈ (id :: layer) ++ queue st) as [?|?]%elem_of_cons; [|done..].
      apply Hready. split_and!; [done..|]. rewrite Hpin. lia.
  - rewrite app_assoc. apply NoDup_app. split_and!; [done| |done].
    intros x Hx [He _]%Hqin'. destruct (proj1 (Hready x)) as (_ & _ & Hz); [by right|].
    apply pending_zero with (f := id) in Hz as [? ?]; [congruence|done].
  - rewrite Hvis', Hvis. unfold pm'. by rewrite map_size_insert_None.
  - intros x p [[<- <-]|[_ Hx]]%lookup_insert_Some; [split; [done|lia]|by apply Hnamed].
  - intros x p [[<- <-]|[_ Hx]]%lookup_insert_Some; apply depth_ok_insert; auto.
    apply Hlayer. left.
  - intros x Hx. apply depth_ok_insert; [done|]. apply Hlayer. by right.
  - intros x [Hx|[He _]%Hqin']%elem_of_app.
    + destruct (Hqueue x Hx) as (f & ? & ?). exists f. unfold pm'.
      rewrite lookup_insert_ne by congruence. done.
    + exists id. unfold pm'. rewrite lookup_insert_eq. done.
Qed.

Lemma visit_layer_inv k layer st :
  kahn_inv k layer st ->
  exists st', visit_layer (dependents_of es) k st layer = Some st' /\ kahn_inv k [] st' /\
    visited st' = visited st + length layer.
Proof.
  revert st. induction layer as [|id layer IH]; intros st Hi; cbn [visit_layer length].
  - exists st. split_and!; [done..|lia].
  - destruct (visit_inv k id layer st Hi) as (st1 & -> & Hi1 & Hv1). cbn.
    destruct (IH st1 Hi1) as (st2 & -> & Hi2 & Hv2). exists st2. split_and!; [done..|lia].
Qed.

(** The queue left by layer [k] is layer [k + 1]. *)
Lemma next_layer_inv k st :
  kahn_inv k [] st ->
  kahn_inv (S k) (queue st) (mkKahn (in_degree st) [] (phase_map st) (visited st)).
Proof.
  intros [Hdeg Hready Hnd Hvis Hnamed Hdepth _ Hqueue].
  split; cbn [in_degree queue phase_map visited]; try done.
  - intros x. rewrite app_nil_r. apply Hready.
  - by rewrite app_nil_r.
  - intros x p Hx. destruct (Hnamed x p Hx). split; [done|lia].
  - intros x Hx. destruct (proj1 (Hready x) Hx) as (_ & _ & Hz).
    destruct (Hqueue x Hx) as (f & Hf & Hk). split.
    + intros f' Hf'. destruct (proj1 (pending_zero _ _ _) Hz f' Hf') as [q Hq]. exists q.
      split; [done|]. apply Hnamed in Hq as [_ ?]. lia.
    + right. exists f. split; [done|]. by replace (S k - 1) with k by lia.
  - intros x Hx. by apply elem_of_nil in Hx.
Qed.

Lemma phase_map_size k layer st :
  kahn_inv k layer st -> size (phase_map st) + length (layer ++ queue st) <= length ds.
Proof.
  intros [_ Hready Hnd _ Hnamed _ _ _].
  assert (NoDup ((map_to_list (phase_map st)).*1 ++ (layer ++ queue st))) as Hall.
  { apply NoDup_app. split_and!; [apply NoDup_fst_map_to_list| |done].
    intros x ([y p] & -> & Hin%elem_of_map_to_list)%list_elem_of_fmap (_ & Hn & _)%Hready.
    cbn in Hn. congruence. }
  apply (NoDup_submseteq _ names) in Hall as Hsub.
  - apply submseteq_length in Hsub. rewrite length_app, length_fmap, length_map_to_list in Hsub.
    unfold names in Hsub. rewrite length_fmap in Hsub. lia.
  - intros x [Hx|(Hx & _)%Hready]%elem_of_app; [|done].
    apply list_elem_of_fmap in Hx as ([y p] & -> & Hin%elem_of_map_to_list). by eapply Hnamed.
Qed.

(** Every layer visits at least one node, so the loop ends within [length ds]
    layers with nothing ready. *)
Lemma layers_inv fuel k st :
  kahn_inv k (queue st) (mkKahn (in_degree st) [] (phase_map st) (visited st)) ->
  length ds <= fuel + visited st ->
  exists k' st', layers fuel (dependents_of es) k st = Some st' /\ kahn_inv k' [] st' /\
    queue st' = [].
Proof.
  revert k st. induction fuel as [|fuel IH]; intros k st Hi Hf; cbn [layers].
  - destruct (queue st) as [|x q] eqn:Hq.
    + exists k, st. split_and!; [done| |done]. destruct st; cbn in *; by subst.
    + exfalso. pose proof (phase_map_size _ _ _ Hi) as Hs. pose proof (inv_visited _ _ _ Hi).
      cbn in *. lia.
  - destruct (queue st) as [|x q] eqn:Hq.
    + exists k, st. split_and!; [done| |done]. destruct st; cbn in *; by subst.
    + destruct (visit_layer_inv k (x :: q) _ Hi) as (st1 & Hv & Hi1 & Hn).
      cbn [visited] in Hn. rewrite Hv. cbn [length] in Hn.
      apply IH; [by apply next_layer_inv|lia].
Qed.

(** What remains when nothing is ready cannot be ordered: each remaining node
    has a remaining dependency. *)
Lemma remaining_has_dep k st x :
  kahn_inv k [] st -> queue st = [] -> x ∈ names -> phase_map st !! x = None ->
  exists f, edge es f x /\ f ∈ names /\ phase_map st !! f = None.
Proof.
  intros Hi Hq Hx Hn.
  assert (pending es (phase_map st) x <> 0) as Hz.
  { intros Hz. assert (x ∈ [] ++ queue st) as Hr by by apply (inv_ready _ _ _ Hi).
    rewrite Hq in Hr. by apply elem_of_nil in Hr. }
  unfold pending in Hz. destruct (filter _ es) as [|[f t] l] eqn:Hfl; [done|].
  assert ((f, t) ∈ filter (fun e => e.2 = x /\ phase_map st !! e.1 = None) es) as Hm
    by (rewrite Hfl; left).
  apply list_elem_of_filter in Hm as [[Ht Hf] Hin]. cbn in *. subst t.
  exists f. split_and!; [done|apply (Hes f x Hin)|done].
Qed.

(** The state the loop starts from. *)
Definition kahn_start `{HashIter} : KahnState :=
  mkKahn (in_degrees ds es) (filter (fun kv => kv.2 = 0) (hiter (in_degrees ds es))).*1 ∅ 0.

Lemma in_degrees_names x :
  in_degrees ds es !! x = if decide (x ∈ names) then Some (pending es ∅ x) else None.
Proof. apply in_degrees_lookup. intros f t He. by apply Hes in He as [_ ?]. Qed.

Lemma kahn_start_inv `{HashIter} :
  kahn_inv 0 (queue kahn_start)
    (mkKahn (in_degree kahn_start) [] (phase_map kahn_start) (visited kahn_start)).
Proof.
  split; cbn [in_degree queue phase_map visited kahn_start].
  - intros x. apply in_degrees_names.
  - intros x. rewrite app_nil_r, list_elem_of_fmap. setoid_rewrite list_elem_of_filter.
    split.
    + intros ([y n] & -> & Hz & Hin%elem_of_hiter). cbn in *. subst n.
      rewrite in_degrees_names in Hin.
      case_decide; simplify_eq. rewrite lookup_empty. done.
    + intros (Hx & _ & Hz). exists (x, 0). split_and!; [done..|]. apply elem_of_hiter.
      rewrite in_degrees_names.
      rewrite decide_True, Hz by done. done.
  - rewrite app_nil_r. apply (sublist_NoDup _ (hiter (in_degrees ds es)).*1).
    { rewrite hiter_perm. apply NoDup_fst_map_to_list. }
    apply fmap_sublist, sublist_filter.
  - by rewrite map_size_empty.
  - intros x p Hx. by rewrite lookup_empty in Hx.
  - intros x p Hx. by rewrite lookup_empty in Hx.
  - intros x ([y n] & -> & [Hz Hin%elem_of_hiter]%list_elem_of_filter)%list_elem_of_fmap.
    cbn in *. subst n. rewrite in_degrees_names in Hin.
    case_decide; simplify_eq. split; [|by left]. intros f Hf.
    destruct (proj1 (pending_zero _ _ _) Hin f Hf) as [? Hc]. by rewrite lookup_empty in Hc.
  - intros x Hx. by apply elem_of_nil in Hx.
Qed.

(** The reported participants are the nodes left without a phase. *)
Lemma participants_spec `{HashIter} k st x :
  kahn_inv k [] st -> queue st = [] ->
  x ∈ (filter (fun kv => 0 < kv.2) (hiter (in_degree st))).*1 <->
  x ∈ names /\ phase_map st !! x = None.
Proof.
  intros Hi Hq. rewrite list_elem_of_fmap. setoid_rewrite list_elem_of_filter. split.
  - intros ([y n] & -> & Hn & Hin%elem_of_hiter). cbn in *.
    rewrite (inv_degree _ _ _ Hi) in Hin. case_decide; simplify_eq. split; [done|].
    destruct (phase_map st !! y) as [p|] eqn:Hy; [|done]. exfalso.
    destruct (inv_depth _ _ _ Hi y p Hy) as [Hd _].
    assert (pending es (phase_map st) y = 0); [|lia]. apply pending_zero.
    intros f Hf. destruct (Hd f Hf) as (q & ? & _). eauto.
  - intros [Hx Hn]. exists (x, pending es (phase_map st) x). split_and!; [done| |].
    + cbn. destruct (pending es (phase_map st) x) eqn:Hz; [|lia]. exfalso.
      assert (x ∈ [] ++ queue st) as Hr by by apply (inv_ready _ _ _ Hi).
      rewrite Hq in Hr. by apply elem_of_nil in Hr.
    + apply elem_of_hiter. by rewrite (inv_degree _ _ _ Hi), decide_True.
Qed.

(** With as many phases as descriptors, every descriptor has one. *)
Lemma all_assigned k st x :
  kahn_inv k [] st -> size (phase_map st) = length ds -> x ∈ names ->
  is_Some (phase_map st !! x).
Proof.
  intros Hi Hsz Hx. destruct (phase_map st !! x) eqn:Hp; [eauto|]. exfalso.
  assert (NoDup (x :: (map_to_list (phase_map st)).*1)) as Hnd.
  { constructor; [|apply NoDup_fst_map_to_list].
    intros ([y p] & -> & Hin%elem_of_map_to_list)%list_elem_of_fmap. cbn in *. congruence. }
  apply (NoDup_submseteq _ names) in Hnd.
  - apply submseteq_length in Hnd. cbn in Hnd. unfold names in Hnd.
    rewrite !length_fmap, length_map_to_list in Hnd. lia.
  - intros y [->|([z p] & -> & Hin%elem_of_map_to_list)%list_elem_of_fmap]%elem_of_cons; [done|].
    by eapply (inv_named _ _ _ Hi).
Qed.

Lemma some_unassigned k st :
  kahn_inv k [] st -> size (phase_map st) <> length ds ->
  exists x, x ∈ names /\ phase_map st !! x = None.
Proof.
  intros Hi Hne. pose proof (phase_map_size _ _ _ Hi) as Hsize.
  destruct (decide (Forall (fun x => is_Some (phase_map st !! x)) names)) as [Hall|Hex].
  - exfalso. pose proof Hnames as Hsub. rewrite Forall_forall in Hall.
    apply (NoDup_submseteq _ (map_to_list (phase_map st)).*1) in Hsub.
    + apply submseteq_length in Hsub. unfold names in Hsub.
      rewrite !length_fmap, length_map_to_list in Hsub. lia.
    + intros x [p Hp]%Hall. apply list_elem_of_fmap. exists (x, p).
      by rewrite elem_of_map_to_list.
  - apply not_Forall_Exists in Hex; [|apply _]. apply Exists_exists in Hex as (x & Hx & Hn).
    exists x. split; [done|]. by apply eq_None_not_Some.
Qed.

(** The whole sort: it answers; it accepts exactly the acyclic graphs, with
    every node one phase above its latest dependency; and every node it reports
    has a reported dependency. *)
Lemma toposort_phases_spec `{HashIter} :
  exists r, toposort_phases ds es = Some r /\
    match r with
    | Ok pm =>
        (forall x, x ∈ names <-> is_Some (pm !! x)) /\
        (forall x p, pm !! x = Some p -> depth_ok pm x p)
    | Err (CycleDetected ps) =>
        (exists x, x ∈ ps) /\ (forall x, x ∈ ps -> x ∈ names /\ exists f, edge es f x /\ f ∈ ps) /\
        exists pm, (forall x, x ∈ names -> x ∈ ps \/ is_Some (pm !! x)) /\
          (forall x, x ∈ ps -> pm !! x = None) /\
          (forall x p, pm !! x = Some p -> depth_ok pm x p)
    | Err _ => False
    end.
Proof.
  unfold toposort_phases. fold kahn_start.
  destruct (layers_inv (length ds) 0 kahn_start kahn_start_inv ltac:(cbn; lia))
    as (k & st & -> & Hi & Hq). cbn.
  pose proof (inv_visited _ _ _ Hi) as Hvis.
  destruct (Nat.eqb_spec (visited st) (length ds)) as [Heq|Hne]; cbn; eexists; (split; [done|]).
  - split; [|apply (inv_depth _ _ _ Hi)]. intros x. split.
    + intros Hx. eapply all_assigned; [done|congruence|done].
    + intros [p Hp]. by eapply (inv_named _ _ _ Hi).
  - set (ps := (filter _ _).*1).
    assert (forall x, x ∈ ps <-> x ∈ names /\ phase_map st !! x = None) as Hps
      by (intros x; exact (participants_spec k st x Hi Hq)).
    split_and!.
    + destruct (some_unassigned k st Hi ltac:(congruence)) as [x Hx]. exists x. by apply Hps.
    + intros x [Hx Hn]%Hps. split; [done|].
      destruct (remaining_has_dep k st x Hi Hq Hx Hn) as (f & ? & ? & ?).
      exists f. split; [done|]. by apply Hps.
    + exists (phase_map st). split_and!; [|by intros x [_ ?]%Hps|apply (inv_depth _ _ _ Hi)].
      intros x Hx. rewrite Hps. destruct (phase_map st !! x); [right|left]; eauto.
Qed.
End Kahn.
(** ** Building the DAG *)

(** [t]'s descriptor lists [f] among its dependencies. *)
Definition depends (ds : list Descriptor) (f t : IndexId) : Prop :=
  exists d, d ∈ ds /\ name d = t /\ f ∈ dependencies d.

Lemma validate_unique_names_spec ds :
  match validate_unique_names ds with
  | Ok names => NoDup (name <$> ds) /\ forall x, x ∈ names <-> x ∈ name <$> ds
  | Err e => exists n, e = DuplicateName n /\ 1 < occurs n (name <$> ds)
  end.
Proof.
  unfold validate_unique_names.
  assert (forall seen, match validate_unique_names_loop seen ds with
    | Ok names => NoDup (name <$> ds) /\ (forall x, x ∈ name <$> ds -> x ∉ seen) /\
        forall x, x ∈ names <-> x ∈ seen \/ x ∈ name <$> ds
    | Err e => exists n, e = DuplicateName n /\
        (n ∈ seen /\ 0 < occurs n (name <$> ds) \/ 1 < occurs n (name <$> ds))
    end) as Hgen.
  { induction ds as [|d ds IH]; intros seen; cbn [validate_unique_names_loop].
    - split_and!; [constructor|intros x Hx; by apply elem_of_nil in Hx|].
      intros x. split; [by left|]. intros [?|Hx]; [done|by apply elem_of_nil in Hx].
    - rewrite fmap_cons. case_bool_decide as Hin.
      + exists (name d). split; [done|]. left. rewrite occurs_cons, decide_True by done. split; [done|lia].
      + specialize (IH ({[name d]} ∪ seen)). destruct (validate_unique_names_loop _ ds) as [names|e].
        * destruct IH as (Hnd & Hdis & Hin').
          split_and!; [constructor; [|done]| |]; [set_solver..|].
          intros x. rewrite Hin'. set_solver.
        * destruct IH as (n & -> & Hor). exists n. split; [done|]. rewrite occurs_cons.
          destruct Hor as [[Hn Hpos]|?]; [|right; lia].
          destruct (decide (n = name d)) as [->|]; [right; lia|left; split; [set_solver|lia]]. }
  specialize (Hgen ∅). destruct (validate_unique_names_loop ∅ ds) as [names|e]; [set_solver|].
  destruct Hgen as (n & -> & [[? _]|?]); [set_solver|eauto].
Qed.

Lemma dep_edges_spec reg n deps :
  match dep_edges reg n deps with
  | Ok es => (forall f, f ∈ deps -> f ∈ reg) /\ forall f t, (f, t) ∈ es <-> t = n /\ f ∈ deps
  | Err e => exists f, e = UnknownDependency n f /\ f ∈ deps /\ f ∉ reg
  end.
Proof.
  induction deps as [|d deps IH]; cbn [dep_edges]; [set_solver|].
  case_bool_decide; [|set_solver]. destruct (dep_edges reg n deps) as [es|e]; cbn; set_solver.
Qed.

Lemma collect_edges_spec ds reg :
  match collect_edges ds reg with
  | Ok es => (forall f t, edge es f t <-> depends ds f t) /\
      forall f t, depends ds f t -> f ∈ reg
  | Err e => exists n f, e = UnknownDependency n f /\ depends ds f n /\ f ∉ reg
  end.
Proof.
  unfold edge, depends. induction ds as [|d ds IH]; cbn [collect_edges]; [set_solver|].
  pose proof (dep_edges_spec reg (name d) (dependencies d)) as Hd.
  destruct (dep_edges reg (name d) (dependencies d)) as [es|e]; cbn; [|set_solver].
  destruct (collect_edges ds reg) as [rest|e]; cbn; [|set_solver].
  destruct Hd as [Hd1 Hd2], IH as [IH1 IH2]. split.
  - intros f t. rewrite elem_of_app, Hd2, IH1. set_solver.
  - set_solver.
Qed.

Lemma make_nodes_spec pm ds :
  NoDup (name <$> ds) -> (forall d, d ∈ ds -> is_Some (pm !! name d)) ->
  exists ns, make_nodes pm ds = Some ns /\
    forall x n, ns !! x = Some n <->
      name (descriptor n) = x /\ descriptor n ∈ ds /\ pm !! x = Some (phase n).
Proof.
  induction ds as [|d ds IH]; intros Hnd Hall; cbn [make_nodes].
  - exists ∅. split; [done|]. intros x n. rewrite lookup_empty. set_solver.
  - rewrite fmap_cons in Hnd. apply NoDup_cons in Hnd as [Hni Hnd].
    destruct (Hall d ltac:(left)) as [p Hp]. rewrite Hp.
    destruct IH as (ns & -> & Hns); [done|set_solver|]. eexists. split; [done|].
    intros x n. rewrite lookup_insert_Some, Hns, elem_of_cons. split.
    + intros [[<- <-]|(Hne & ? & ? & ?)]; cbn; auto.
    + intros (<- & [Hd|Hin] & Hpn).
      * left. subst d. rewrite Hp in Hpn. destruct n; cbn in *. naive_solver.
      * right. split_and!; [|done..]. intros Heq. apply Hni. rewrite Heq.
        by apply list_elem_of_fmap_2.
Qed.

Lemma make_edges_spec dm es :
  (forall f t, (f, t) ∈ es -> is_Some (dm !! f) /\ is_Some (dm !! t)) ->
  exists l, make_edges dm es = Some l /\
    Forall2 (fun e e' => from e' = e.1 /\ to e' = e.2 /\
      exists u, dm !! e.1 = Some u /\ (firing e' = Barrier <-> source_access u = NonLocal)) es l.
Proof.
  induction es as [|[f t] es IH]; intros Hall; cbn [make_edges].
  - eexists. split; [done|constructor].
  - destruct (Hall f t ltac:(left)) as [[u Hu] [v Hv]]. rewrite Hu, Hv.
    destruct IH as (l & -> & Hl); [set_solver|]. eexists. split; [done|]. constructor; [|done].
    cbn. split_and!; [done..|]. exists u. split; [done|]. unfold derive_firing_rule.
    destruct (source_access u); naive_solver.
Qed.

Lemma desc_map_lookup ds x :
  NoDup (name <$> ds) ->
  forall d, (list_to_map (reverse ((fun d => (name d, d)) <$> ds)) : gmap IndexId Descriptor) !! x = Some d
    <-> d ∈ ds /\ name d = x.
Proof.
  intros Hnd d. rewrite <- elem_of_list_to_map.
  - rewrite elem_of_reverse, list_elem_of_fmap. naive_solver.
  - rewrite <- fmap_reverse, <- list_fmap_compose. cbn. by rewrite fmap_reverse, reverse_Permutation.
Qed.

Lemma max_phase_count_spec `{HashIter} pm :
  (forall x p, pm !! x = Some p -> p < max_phase_count pm) /\
  (max_phase_count pm = 0 \/ exists x, pm !! x = Some (max_phase_count pm - 1)).
Proof.
  unfold max_phase_count.
  assert (forall l a, let m := fold_left (fun m p => m `max` S p) l a in
    a <= m /\ (forall p, p ∈ l -> p < m) /\ (m = a \/ exists p, p ∈ l /\ m = S p)) as Hgen.
  { induction l as [|p l IH]; intros a; cbn.
    { split_and!; [lia| |by left]. intros p Hp. by apply elem_of_nil in Hp. }
    destruct (IH (a `max` S p)) as (H1 & H2 & H3). split_and!; [lia| |].
    - intros q [->|Hq]%elem_of_cons; [lia|by apply H2].
    - destruct H3 as [H3|(q & Hq & H3)]; [|right; exists q; split; [by right|done]].
      destruct (decide (S p <= a)); [left; lia|right; exists p; split; [by left|lia]]. }
  destruct (Hgen (values pm) 0) as (_ & H2 & H3). split.
  - intros x p Hp. apply H2, elem_of_values. eauto.
  - destruct H3 as [?|(p & Hp & H3)]; [by left|right]. rewrite H3.
    apply elem_of_values in Hp as [x Hx]. exists x. by replace (S p - 1) with p by lia.
Qed.

Section Built.
Context `{HashIter}.

(** What [build] returns, on every path. *)
Lemma build_spec ds :
  exists r, build ds = Some r /\
    match r with
    | Ok dag =>
        NoDup (name <$> ds) /\ (forall f t, depends ds f t -> f ∈ name <$> ds) /\
        exists pm : gmap IndexId nat, (forall x, x ∈ name <$> ds <-> is_Some (pm !! x)) /\
          (forall x p, pm !! x = Some p ->
             (forall f, depends ds f x -> exists q, pm !! f = Some q /\ q < p) /\
             (p = 0 \/ exists f, depends ds f x /\ pm !! f = Some (p - 1))) /\
          (forall x n, nodes dag !! x = Some n <->
             name (descriptor n) = x /\ descriptor n ∈ ds /\ pm !! x = Some (phase n)) /\
          phase_count dag = max_phase_count pm /\
          (forall f t, (exists e, e ∈ edges dag /\ from e = f /\ to e = t) <-> depends ds f t) /\
          (forall e, e ∈ edges dag -> forall u, u ∈ ds -> name u = from e ->
             (firing e = Barrier <-> source_access u = NonLocal))
    | Err (DuplicateName n) => 1 < occurs n (name <$> ds)
    | Err (UnknownDependency n f) =>
        NoDup (name <$> ds) /\ depends ds f n /\ f ∉ name <$> ds
    | Err (CycleDetected ps) =>
        NoDup (name <$> ds) /\ (forall f t, depends ds f t -> f ∈ name <$> ds) /\
        (exists x, x ∈ ps) /\
        (forall x, x ∈ ps -> x ∈ name <$> ds /\ exists f, depends ds f x /\ f ∈ ps) /\
        exists pm : gmap IndexId nat, (forall x, x ∈ name <$> ds -> x ∈ ps \/ is_Some (pm !! x)) /\
          (forall x, x ∈ ps -> pm !! x = None) /\
          (forall f x p, pm !! x = Some p -> depends ds f x ->
             exists q, pm !! f = Some q /\ q < p)
    end.
Proof.
  unfold build. pose proof (validate_unique_names_spec ds) as Hv.
  destruct (validate_unique_names ds) as [reg|e].
  2: { destruct Hv as (n & -> & Hn). eexists. by split. }
  destruct Hv as [Hnd Hreg]. pose proof (collect_edges_spec ds reg) as Hc.
  destruct (collect_edges ds reg) as [es|e].
  2: { destruct Hc as (n & f & -> & Hd & Hf). eexists. split; [done|]. cbn. by rewrite <- Hreg. }
  destruct Hc as [Hes Hknown].
  assert (forall f t, edge es f t -> f ∈ name <$> ds /\ t ∈ name <$> ds) as Hnamed.
  { intros f t Hd%Hes. split; [by eapply Hreg, Hknown|]. destruct Hd as (d & Hd & <- & _).
    by apply list_elem_of_fmap_2. }
  destruct (toposort_phases_spec ds es Hnd Hnamed) as (r & -> & Hr). cbn.
  destruct r as [pm|[| |]]; [|done| |done].
  - destruct Hr as [Hpm Hdepth].
    destruct (make_edges_spec (list_to_map (reverse ((fun d => (name d, d)) <$> ds))) es)
      as (l & -> & Hl).
    { intros f t [(d & -> & Hd)%list_elem_of_fmap (d' & -> & Hd')%list_elem_of_fmap]%Hnamed.
      split; [exists d|exists d']; by apply desc_map_lookup. }
    destruct (make_nodes_spec pm ds Hnd) as (ns & -> & Hns).
    { intros d Hd. by apply Hpm, list_elem_of_fmap_2. }
    cbn. eexists. split; [done|]. split; [done|]. split; [by intros f t [? _]%Hes%Hnamed|].
    exists pm. cbn. split_and!; [done| |done|done| |].
    + intros x p Hx. unfold depth_ok in Hdepth. setoid_rewrite Hes in Hdepth. by apply Hdepth.
    + intros f t. rewrite <- Hes. split.
      * intros (e & He & <- & <-). apply list_elem_of_lookup in He as [i Hi].
        destruct (Forall2_lookup_r _ _ _ _ _ Hl Hi) as ([f t] & Hft & -> & -> & _).
        by apply list_elem_of_lookup_2 in Hft.
      * intros Hft. apply list_elem_of_lookup in Hft as [i Hi].
        destruct (Forall2_lookup_l _ _ _ _ _ Hl Hi) as (e & He & ? & ? & _).
        exists e. by apply list_elem_of_lookup_2 in He.
    + intros e He u Hu Hn. apply list_elem_of_lookup in He as [i Hi].
      destruct (Forall2_lookup_r _ _ _ _ _ Hl Hi) as ([f t] & Hft & Hf & _ & u' & Hu' & Hiff).
      cbn in *. assert (u = u') as ->; [|done].
      assert ((list_to_map (reverse ((fun d => (name d, d)) <$> ds)) : gmap IndexId Descriptor) !! f
        = Some u) by (apply desc_map_lookup; [done|]; by rewrite <- Hf). congruence.
  - eexists. split; [done|]. destruct Hr as (Hne & Hps & pm & H1 & H2 & H3).
    split_and!; [done|by intros f t [? _]%Hes%Hnamed|done| |].
    + intros x Hx. destruct (Hps x Hx) as (? & f & Hf%Hes & ?). eauto.
    + exists pm. split_and!; [done..|]. intros f x p Hx Hf%Hes. by eapply H3.
Qed.

Lemma occurs_NoDup x l : NoDup l -> occurs x l <= 1.
Proof.
  induction 1 as [|y l Hy _ IH]; [unfold occurs; cbn; lia|]. rewrite occurs_cons.
  case_decide; [|lia]. subst y. rewrite occurs_pos in Hy. lia.
Qed.

(** A phase assignment that rises along dependencies excludes cycles. *)
Lemma ranked_acyclic ds (pm : gmap IndexId nat) :
  (forall f x p, pm !! x = Some p -> depends ds f x -> exists q, pm !! f = Some q /\ q < p) ->
  forall x, is_Some (pm !! x) -> ~ tc (depends ds) x x.
Proof.
  intros Hrank x [p Hp] Hc.
  assert (forall f y, tc (depends ds) f y -> forall p, pm !! y = Some p ->
    exists q, pm !! f = Some q /\ q < p) as Hgen.
  { clear -Hrank. induction 1 as [f y Hf|f z y Hf _ IH]; intros p Hp; [by eapply Hrank|].
    destruct (IH p Hp) as (q & Hq & ?). destruct (Hrank f z q Hq Hf) as (q' & ? & ?).
    exists q'. split; [done|lia]. }
  destruct (Hgen x x Hc p Hp) as (q & Hq & Hlt). simplify_eq. lia.
Qed.

Lemma depends_named ds f t : depends ds f t -> t ∈ name <$> ds.
Proof. intros (d & Hd & <- & _). by apply list_elem_of_fmap_2. Qed.

Lemma cycle_named ds x : tc (depends ds) x x -> x ∈ name <$> ds.
Proof.
  intros Hc. assert (forall y z, tc (depends ds) y z -> z ∈ name <$> ds) as Hgen; [|by eapply Hgen].
  induction 1; [by eapply depends_named|done].
Qed.

(** ** Properties *)

(** A DAG that builds has one node per descriptor, every node sits
    one phase above its latest dependency (so every dependency is in a strictly
    earlier phase and a node without dependencies is in phase 0), and every node's
    phase is below [phase_count]. *)
Theorem build_phases ds dag :
  build ds = Some (Ok dag) ->
  (forall d, d ∈ ds -> exists n, nodes dag !! name d = Some n /\ descriptor n = d) /\
  (forall x n, nodes dag !! x = Some n ->
     name (descriptor n) = x /\ descriptor n ∈ ds /\ phase n < phase_count dag) /\
  (forall x n, nodes dag !! x = Some n ->
     (forall f, f ∈ dependencies (descriptor n) ->
        exists m, nodes dag !! f = Some m /\ phase m < phase n) /\
     (phase n = 0 \/ exists f m, f ∈ dependencies (descriptor n) /\ nodes dag !! f = Some m /\
        phase n = S (phase m))).
Proof.
  intros Hb. destruct (build_spec ds) as (r & Hr & Hs). rewrite Hb in Hr. injection Hr as <-.
  destruct Hs as (Hnd & Hknown & pm & Hpm & Hdepth & Hns & Hcount & _ & _).
  assert (Hnode : forall f p, pm !! f = Some p -> exists m, nodes dag !! f = Some m /\ phase m = p).
  { intros f p Hf. assert (f ∈ name <$> ds) as (d & -> & Hd)%list_elem_of_fmap by (apply Hpm; eauto).
    exists (mkDagNode d p). by rewrite Hns. }
  assert (Hdep : forall n f, descriptor n ∈ ds -> depends ds f (name (descriptor n)) <->
    f ∈ dependencies (descriptor n)).
  { intros n f Hin. split; [|intros; by exists (descriptor n)].
    intros (d & Hd & Heq & Hf). assert (d = descriptor n) as ->; [|done].
    assert (Hl : (list_to_map (reverse ((fun d => (name d, d)) <$> ds)) : gmap IndexId Descriptor)
      !! name d = Some d) by by apply desc_map_lookup.
    assert (Hl' : (list_to_map (reverse ((fun d => (name d, d)) <$> ds)) : gmap IndexId Descriptor)
      !! name d = Some (descriptor n)) by by apply desc_map_lookup.
    congruence. }
  split_and!.
  - intros d Hd. destruct (proj1 (Hpm (name d))) as [p Hp]; [by apply list_elem_of_fmap_2|].
    exists (mkDagNode d p). by rewrite Hns.
  - intros x n Hn. apply Hns in Hn as (? & ? & Hp). split_and!; [done..|].
    rewrite Hcount. by eapply max_phase_count_spec.
  - intros x n Hn. apply Hns in Hn as (<- & Hin & Hp).
    destruct (Hdepth _ _ Hp) as [H1 H2]. setoid_rewrite (Hdep n _ Hin) in H1.
    setoid_rewrite (Hdep n _ Hin) in H2. split.
    + intros f Hf. destruct (H1 f Hf) as (q & Hq & Hlt). destruct (Hnode f q Hq) as (m & ? & ?).
      exists m. split; [done|lia].
    + destruct H2 as [?|(f & Hf & Hq)]; [by left|].
      destruct (decide (phase n = 0)) as [|Hz]; [by left|right].
      destruct (Hnode f _ Hq) as (m & ? & ?). exists f, m. split_and!; [done..|lia].
Qed.

(** [build] always answers, and its answer is exact: it succeeds
    precisely when names are unique, dependencies are registered and no index
    depends on itself through others; a reported duplicate is one, a reported
    unknown dependency is declared and unregistered, and a reported cycle
    contains one. *)
Theorem build_decides ds :
  exists r, build ds = Some r /\
    ((exists dag, r = Ok dag) <->
       NoDup (name <$> ds) /\ (forall f t, depends ds f t -> f ∈ name <$> ds) /\
       forall x, ~ tc (depends ds) x x) /\
    match r with
    | Ok _ => True
    | Err (DuplicateName n) => 1 < occurs n (name <$> ds)
    | Err (UnknownDependency n f) => depends ds f n /\ f ∉ name <$> ds
    | Err (CycleDetected ps) =>
        (exists x, x ∈ ps /\ tc (depends ds) x x) /\
        (forall x, tc (depends ds) x x -> x ∈ ps)
    end.
Proof.
  destruct (build_spec ds) as (r & Hr & Hs). exists r. split; [done|].
  destruct r as [dag|[n f|ps|n]].
  - destruct Hs as (Hnd & Hknown & pm & Hpm & Hdepth & _). split; [|done].
    split; [|eauto]. intros _. split_and!; [done..|]. intros x Hc.
    apply (ranked_acyclic ds pm) with (x := x); [|by apply Hpm, cycle_named|done].
    intros f y p Hy Hf. destruct (Hdepth y p Hy) as [H1 _]. by apply H1.
  - destruct Hs as (Hnd & Hd & Hf). split; [|done]. split; [by intros [? ?]|].
    intros (_ & Hk & _). by destruct Hf; eapply Hk.
  - destruct Hs as (Hnd & Hknown & [x Hx] & Hback & pm & Hall & Hnone & Hrank).
    destruct (no_exit_cycle (depends ds) (name <$> ds) (fun y => y ∈ ps) x) as [y [Hy Hc]];
      [by intros z [? _]%Hback|by intros z [_ ?]%Hback|done|].
    split; [|split; [eauto|]].
    + split; [by intros [? ?]|]. intros (_ & _ & Hno). by destruct (Hno y).
    + intros z Hz. destruct (Hall z) as [?|Hs]; [by apply cycle_named|done|].
      by destruct (ranked_acyclic ds pm Hrank z).
  - split; [|done]. split; [by intros [? ?]|]. intros (Hnd & _).
    pose proof (occurs_NoDup n _ Hnd). cbn in Hs. lia.
Qed.

Lemma push_nodes_spec gs ns :
  (forall n, n ∈ ns -> phase n < length gs) ->
  exists gs', push_nodes gs ns = Some gs' /\
    forall k, gs' !! k = (fun g => g ++ filter (fun n => phase n = k) ns) <$> gs !! k.
Proof.
  revert gs. induction ns as [|n ns IH]; intros gs Hlt; cbn [push_nodes].
  - exists gs. split; [done|]. intros k. destruct (gs !! k); cbn; [|done]. by rewrite app_nil_r.
  - destruct (lookup_lt_is_Some_2 gs (phase n)) as [g Hg]; [apply Hlt; left|].
    unfold push_node. rewrite Hg. cbv beta iota.
    destruct (IH (<[phase n := g ++ [n]]> gs)) as (gs' & -> & Hgs').
    { intros m Hm. rewrite length_insert. apply Hlt. by right. }
    exists gs'. split; [done|]. intros k. rewrite Hgs'.
    destruct (decide (phase n = k)) as [<-|Hne].
    + rewrite list_lookup_insert_eq, Hg by by eapply lookup_lt_Some. cbn [fmap option_fmap option_map].
      by rewrite filter_cons_True, <- app_assoc.
    + rewrite list_lookup_insert_ne by done. destruct (gs !! k); [|done].
      cbn [fmap option_fmap option_map]. by rewrite filter_cons_False.
Qed.

Lemma push_nodes_perm gs ns gs' :
  push_nodes gs ns = Some gs' -> concat gs' ≡ₚ concat gs ++ ns.
Proof.
  revert gs. induction ns as [|n ns IH]; intros gs; cbn [push_nodes].
  - intros [= <-]. by rewrite app_nil_r.
  - unfold push_node. destruct (gs !! phase n) as [g|] eqn:Hg; [|done]. cbv beta iota.
    intros Hp%IH. rewrite Hp.
    rewrite (insert_take_drop gs (phase n) (g ++ [n])) by by eapply lookup_lt_Some.
    rewrite <- (take_drop_middle gs (phase n) g Hg) at 3.
    rewrite !concat_app. cbn [concat]. solve_Permutation.
Qed.

Lemma phases_spec ds dag :
  build ds = Some (Ok dag) ->
  exists gs, phases dag = Some gs /\ length gs = phase_count dag /\
    forall k g n, gs !! k = Some g ->
      (n ∈ g <-> phase n = k /\ nodes dag !! name (descriptor n) = Some n).
Proof.
  intros Hb. destruct (build_spec ds) as (r & Hr & Hs). rewrite Hb in Hr. injection Hr as <-.
  destruct Hs as (_ & _ & pm & _ & _ & Hns & Hcount & _ & _).
  assert (Hval : forall n, n ∈ values (nodes dag) <-> nodes dag !! name (descriptor n) = Some n).
  { intros n. rewrite elem_of_values. split; [|eauto].
    intros [x Hx]. by apply Hns in Hx as Hx'; destruct Hx' as (-> & _). }
  unfold phases.
  destruct (push_nodes_spec (replicate (phase_count dag) []) (values (nodes dag))) as (gs & Hgs & Hk).
  { intros n Hn%Hval. rewrite length_replicate, Hcount. apply Hns in Hn as (_ & _ & Hp).
    by eapply max_phase_count_spec. }
  exists gs. split; [done|]. split.
  + apply Nat.le_antisymm; apply Nat.nlt_ge; intros Hlt.
    * apply lookup_lt_is_Some_2 in Hlt as [g Hg]. rewrite Hk in Hg.
      rewrite (proj2 (lookup_ge_None _ _)) in Hg; [done|by rewrite length_replicate].
    * assert (gs !! length gs = None) as Hg by by apply lookup_ge_None.
      rewrite Hk, lookup_replicate_2 in Hg by done. done.
  + intros k g n Hg. rewrite Hk in Hg. destruct (replicate _ _ !! k) as [g0|] eqn:Hr; [|done].
    apply lookup_replicate in Hr as [-> _]. cbn in Hg. injection Hg as <-.
    by rewrite list_elem_of_filter, Hval.
Qed.

(** On a built DAG, [phases] never indexes out of range and groups
    exactly the nodes of each phase, in [phase_count] groups; [firing_rule]
    answers exactly on the declared dependencies, with [Barrier] exactly when
    the upstream index reads non-local source data. *)
Theorem built_queries ds dag :
  build ds = Some (Ok dag) ->
  (exists gs, phases dag = Some gs /\ length gs = phase_count dag /\
     forall k g n, gs !! k = Some g ->
       (n ∈ g <-> phase n = k /\ nodes dag !! name (descriptor n) = Some n)) /\
  (forall f t, is_Some (firing_rule dag f t) <-> depends ds f t) /\
  (forall f t r u, firing_rule dag f t = Some r -> u ∈ ds -> name u = f ->
     (r = Barrier <-> source_access u = NonLocal)).
Proof.
  intros Hb. destruct (build_spec ds) as (r & Hr & Hs). rewrite Hb in Hr. injection Hr as <-.
  destruct Hs as (_ & _ & pm & _ & _ & _ & _ & Hedges & Hfire).
  assert (Hfind : forall f t e,
    List.find (fun e => bool_decide (from e = f) && bool_decide (to e = t)) (edges dag) = Some e ->
    e ∈ edges dag /\ from e = f /\ to e = t).
  { intros f t e [Hin Hm]%List.find_some. apply andb_prop in Hm as [H1 H2].
    apply bool_decide_eq_true in H1, H2. by rewrite list_elem_of_In. }
  split_and!.
  - by apply (phases_spec ds).
  - intros f t. unfold firing_rule. rewrite <- Hedges. split.
    + intros [r Hf]. destruct (List.find _ _) as [e|] eqn:He; [|done]. exists e. by apply Hfind.
    + intros (e & He & <- & <-). destruct (List.find _ _) eqn:Hn; cbn; [eauto|].
      apply list_elem_of_In in He. apply (List.find_none _ _ Hn) in He.
      by rewrite !bool_decide_eq_true_2 in He.
  - intros f t r u Hf Hu Hn. unfold firing_rule in Hf.
    destruct (List.find _ _) as [e|] eqn:He; [|done]. apply Hfind in He as (He & Hef & _).
    cbn in Hf. injection Hf as <-. by apply (Hfire e He u Hu); rewrite Hef.
Qed.
End Built.

(** ** A small index set *)
Module Example.
Local Existing Instance canonical_iter.
Local Open Scope string_scope.

Definition index (n : IndexId) (deps : list IndexId) (a : SourceAccess) : Descriptor :=
  mkDescriptor n BlockLocal Append deps a Kv.WalkOrdered.
Definition diamond : list Descriptor :=
  [index "d" ["b"; "c"] NoAccess; index "b" ["a"] NoAccess; index "a" [] NonLocal;
   index "c" ["a"; "b"] NoAccess].
(** [a] and [b] depend on each other; [c] only reads [a]. *)
Definition knotted : list Descriptor :=
  [index "a" ["b"] NoAccess; index "b" ["a"] NoAccess; index "c" ["a"] NoAccess].

Definition diamond_dag : DependencyDag :=
  match build diamond with Some (Ok d) => d | _ => mkDag ∅ [] 0 end.

Lemma diamond_builds : build diamond = Some (Ok diamond_dag).
Proof. vm_compute. reflexivity. Qed.

Lemma build_phases_witness : exists n, nodes diamond_dag !! "d" = Some n /\ phase n = 3.
Proof.
  destruct (proj1 (build_phases diamond diamond_dag diamond_builds) (index "d" ["b"; "c"] NoAccess)
    ltac:(left)) as (n & Hn & _).
  exists n. split; [exact Hn|]. vm_compute in Hn. injection Hn as <-. reflexivity.
Defined.

Lemma built_queries_witness :
  firing_rule diamond_dag "a" "b" = Some Barrier /\ is_Some (firing_rule diamond_dag "b" "d").
Proof.
  destruct (built_queries diamond diamond_dag diamond_builds) as (_ & Hsome & Hr).
  split; [vm_compute; reflexivity|]. apply Hsome.
  exists (index "d" ["b"; "c"] NoAccess). split_and!; [left|reflexivity|left].
Defined.

(** The participants reported with a cycle are every index left
    unordered, so an index that only reads from the cycle, and is on no cycle
    itself, is reported as one of its participants. *)
Theorem participants_beyond_cycle :
  exists ps, build knotted = Some (Err (CycleDetected ps)) /\ "c" ∈ ps /\
    ~ exists t, depends knotted "c" t.
Proof.
  eexists. split; [vm_compute; reflexivity|]. split; [repeat constructor|].
  intros (t & d & Hd & _ & Hc). unfold knotted in Hd. rewrite !elem_of_cons, elem_of_nil in Hd.
  destruct Hd as [->|[->|[->|[]]]]; by apply list_elem_of_singleton in Hc.
Qed.
End Example.
End Dag.
