(* ===== verification/Scheduler.v ===== *)
(** * The sync engine's scheduler and block buffer
    ([packages/zaino-sync/src/scheduler.rs], [block_buffer.rs])

    The scheduler decides what may run: which blocks each index may extract,
    which batches are ready to merge, and what commits unlock.  [None] is a
    panic (a map indexed at a missing key); the invariant excludes it.  Counts
    are [nat]: they are bounded by the number of blocks, a [u32]. *)

From S2P Require Import Prelude Types Dag.
From stdpp Require Import base gmap list strings sets relations.
From Stdlib Require Import Lia.
Open Scope nat_scope.

(** ** [BlockBuffer] *)
Module BlockBuffer.
Section Buffer.
Context {Ctx : Type}.

Record BlockBuffer := mkBuffer {
  blocks : gmap nat Ctx;
  batch_size : nat;
  floor : nat }.

Definition new (batch_size : nat) : BlockBuffer := mkBuffer ∅ batch_size 0.
Definition push (b : BlockBuffer) (offset : nat) (ctx : Ctx) : BlockBuffer :=
  mkBuffer (<[offset := ctx]> (blocks b)) (batch_size b) (floor b).
Definition get (b : BlockBuffer) (offset : nat) : option Ctx := blocks b !! offset.
Definition len (b : BlockBuffer) : nat := size (blocks b).
Definition is_empty (b : BlockBuffer) : bool := bool_decide (blocks b = ∅).
Definition total_pushed (b : BlockBuffer) : nat := floor b + len b.

(** [BTreeMap::split_off] keeps the keys from the cutoff on. *)
Definition evict_through_batch (b : BlockBuffer) (through_batch : nat) : BlockBuffer :=
  let cutoff := (through_batch + 1) * batch_size b in
  mkBuffer (filter (fun kv => cutoff <= kv.1) (blocks b)) (batch_size b) cutoff.

(** The buffer holds exactly the offsets from its floor to the next push. *)
Definition contiguous (b : BlockBuffer) : Prop :=
  forall k, is_Some (blocks b !! k) <-> floor b <= k < total_pushed b.

Lemma size_interval (m : gmap nat Ctx) lo hi :
  (forall k, is_Some (m !! k) <-> lo <= k < hi) -> size m = hi - lo.
Proof.
  intros Hk. rewrite <- size_dom. assert (dom m = list_to_set (seq lo (hi - lo))) as ->.
  { apply set_eq. intros k. rewrite elem_of_dom, elem_of_list_to_set, elem_of_seq, Hk. lia. }
  rewrite size_list_to_set; [apply length_seq|apply NoDup_seq].
Qed.

Lemma push_contiguous b ctx :
  contiguous b ->
  contiguous (push b (total_pushed b) ctx) /\
  total_pushed (push b (total_pushed b) ctx) = S (total_pushed b).
Proof.
  intros Hc. assert (blocks b !! total_pushed b = None) as Hn.
  { apply eq_None_not_Some. rewrite (Hc (total_pushed b)). lia. }
  assert (total_pushed (push b (total_pushed b) ctx) = S (total_pushed b)) as Ht.
  { unfold total_pushed at 1, len, push. cbn [blocks floor]. rewrite map_size_insert_None by done.
    unfold total_pushed, len. lia. }
  split; [|done]. intros k. rewrite Ht. cbn [push blocks floor].
  rewrite lookup_insert_is_Some, (Hc k). unfold total_pushed in *. 
  destruct (decide (floor b + len b = k)) as [<-|]; lia.
Qed.

(** Evicting keeps the count of pushed blocks when the batch was full, and
    rounds it up to the batch boundary otherwise. *)
Lemma evict_contiguous b n :
  contiguous b -> floor b <= (n + 1) * batch_size b ->
  contiguous (evict_through_batch b n) /\
  total_pushed (evict_through_batch b n) = Nat.max (total_pushed b) ((n + 1) * batch_size b) /\
  forall k, get (evict_through_batch b n) k =
    if decide ((n + 1) * batch_size b <= k) then get b k else None.
Proof.
  intros Hc Hf. set (cut := (n + 1) * batch_size b).
  assert (Hl : forall k, is_Some (blocks (evict_through_batch b n) !! k) <->
            cut <= k < total_pushed b).
  { intros k. cbn [evict_through_batch blocks]. fold cut. split.
    - intros [c Hk]. apply map_lookup_filter_Some in Hk as [Hk Hge]. cbn in Hge.
      assert (is_Some (blocks b !! k)) as Hs by eauto. apply Hc in Hs. lia.
    - intros Hk. destruct (proj2 (Hc k)) as [c Hc']; [fold cut in Hf; lia|].
      exists c. apply map_lookup_filter_Some. split; [done|cbn; lia]. }
  pose proof (size_interval _ _ _ Hl) as Hsz.
  assert (total_pushed (evict_through_batch b n) = Nat.max (total_pushed b) cut) as Ht.
  { unfold total_pushed at 1, len. rewrite Hsz. cbn [evict_through_batch floor]. fold cut. lia. }
  split_and!; [|done|].
  - intros k. rewrite Ht, Hl. cbn [evict_through_batch floor]. fold cut. lia.
  - intros k. unfold get. cbn [evict_through_batch blocks]. fold cut.
    rewrite map_lookup_filter. case_decide as Hd; destruct (blocks b !! k) eqn:Hk; cbn; try done.
    + by rewrite option_guard_True.
    + by rewrite option_guard_False.
Qed.

(** The buffer is always a window of consecutive offsets, from its
    floor to the next push.  A push at [total_pushed] adds exactly that offset;
    evicting through a batch drops exactly the offsets of that batch and earlier
    and never lowers the count of pushed blocks, rounding it up to the batch
    boundary when the batch was partial. *)
Theorem buffer_window b :
  contiguous b ->
  (forall ctx, contiguous (push b (total_pushed b) ctx) /\
     total_pushed (push b (total_pushed b) ctx) = S (total_pushed b) /\
     forall k, get (push b (total_pushed b) ctx) k =
       if decide (k = total_pushed b) then Some ctx else get b k) /\
  (forall n, floor b <= (n + 1) * batch_size b ->
     contiguous (evict_through_batch b n) /\
     total_pushed (evict_through_batch b n) = Nat.max (total_pushed b) ((n + 1) * batch_size b) /\
     forall k, get (evict_through_batch b n) k =
       if decide ((n + 1) * batch_size b <= k) then get b k else None).
Proof.
  intros Hc. split; [|intros; by apply evict_contiguous].
  intros ctx. destruct (push_contiguous b ctx Hc). split_and!; [done..|].
  intros k. unfold get, push; cbn [blocks]. case_decide as Hk.
  - subst k. by rewrite lookup_insert_eq.
  - by rewrite lookup_insert_ne.
Qed.
End Buffer.
Arguments BlockBuffer : clear implicits.

(** Batches of two, three blocks pushed, the first batch evicted. *)
Lemma buffer_window_witness :
  let b := push (push (push (new 2) 0 0) 1 1) 2 2 in
  contiguous b /\ get (evict_through_batch b 0) 1 = None /\
  total_pushed (evict_through_batch b 1) = 4.
Proof.
  intros b.
  assert (contiguous (new 2 : BlockBuffer nat)) as H0.
  { intros k. unfold new, total_pushed, len. cbn. rewrite lookup_empty, map_size_empty. split.
    - intros [? Hx]. discriminate Hx.
    - lia. }
  destruct (proj1 (buffer_window _ H0) 0) as (H1 & _ & _).
  destruct (proj1 (buffer_window _ H1) 1) as (H2 & _ & _).
  destruct (proj1 (buffer_window _ H2) 2) as (H3 & _ & _).
  destruct (proj2 (buffer_window b H3) 0 ltac:(cbn; lia)) as (_ & _ & Hg).
  destruct (proj2 (buffer_window b H3) 1 ltac:(cbn; lia)) as (_ & Ht & _).
  split; [exact H3|]. split; [rewrite Hg; reflexivity|rewrite Ht; reflexivity].
Defined.
End BlockBuffer.

(** ** [Scheduler] *)
Module Scheduler.
Import Dag.

(** A [BatchHandle]; which lifecycle stage it is for is in the operation that
    takes it. *)
Record BatchHandle := mkHandle { bh_index : IndexId; bh_batch : nat }.

Record ExtractJob := mkJob {
  job_index : IndexId;
  job_batch : nat;
  block_offset : nat;
  global_offset : nat }.

Inductive Task :=
| Extract (j : ExtractJob)
| CompleteBatch (index : IndexId) (batch : nat).

Record Scheduler := mkScheduler {
  dag : DependencyDag;
  batch_size : nat;
  blocks_available : nat;
  total_blocks : option nat;
  all_indexes : list IndexId;
  deps : gmap IndexId (list (IndexId * FiringRule));
  extracted_in_batch : gmap IndexId nat;
  current_batch : gmap IndexId nat;
  committed_through : gmap IndexId (option nat);
  pending_merge : gset IndexId;
  pending_commit : gset IndexId }.

(** Field updates. *)
Definition set_progress (s : Scheduler) (ex cur : gmap IndexId nat)
    (com : gmap IndexId (option nat)) (pm pc : gset IndexId) : Scheduler :=
  mkScheduler (dag s) (batch_size s) (blocks_available s) (total_blocks s) (all_indexes s) (deps s)
    ex cur com pm pc.

Definition push_dep (m : gmap IndexId (list (IndexId * FiringRule))) (e : DagEdge)
    : gmap IndexId (list (IndexId * FiringRule)) :=
  <[to e := default [] (m !! to e) ++ [(from e, firing e)]]> m.

(** A map with the same value at every listed key. *)
Definition const_map {V} (ids : list IndexId) (v : V) : gmap IndexId V :=
  fold_left (fun m id => <[id := v]> m) ids ∅.

Section Iteration.
Context `{HashIter}.

Definition iter_set (s : gset IndexId) : list IndexId := keys (gset_to_gmap tt s).

(** [Scheduler::new] *)
Definition new (d : DependencyDag) (batch_size : nat) : option Scheduler :=
  let! groups := phases d in
  let all := (fun n => name (descriptor n)) <$> concat groups in
  Some (mkScheduler d batch_size 0 None all
    (fold_left push_dep (edges d) (const_map all []))
    (const_map all 0) (const_map all 0) (const_map all None) ∅ ∅).

(** [Scheduler::effective_batch_size] *)
Definition effective_batch_size (s : Scheduler) (batch : nat) : nat :=
  match total_blocks s with
  | Some total =>
      let start := batch * batch_size s in
      let remaining := total - start in
      Nat.min remaining (batch_size s)
  | None => batch_size s
  end.

(** [Scheduler::firing_rules_satisfied] *)
Fixpoint rules_satisfied (s : Scheduler) (batch : nat) (ds : list (IndexId * FiringRule))
    : option bool :=
  match ds with
  | [] => Some true
  | (dep_id, Pipelined) :: ds =>
      let! c := committed_through s !! dep_id in
      match c with
      | Some committed => if batch <=? committed then rules_satisfied s batch ds else Some false
      | None => Some false
      end
  | (_, Barrier) :: _ => Some false
  end.
Definition firing_rules_satisfied (s : Scheduler) (index : IndexId) (batch : nat) : option bool :=
  let! ds := deps s !! index in rules_satisfied s batch ds.

(** Whether an index's blocks may be extracted independently. *)
Definition is_parallel (s : Scheduler) (id : IndexId) : bool :=
  match nodes (dag s) !! id with
  | Some n =>
      match scope (descriptor n) with
      | BlockLocal | CrossIndex | SelfCumulative OrderedMonoid => true
      | SelfCumulative Sequential => false
      end
  | None => false
  end.

(** The jobs from [offset], at most [count] of them, stopping at the first
    block not yet available. *)
Fixpoint emit (s : Scheduler) (id : IndexId) (batch offset count : nat) : list ExtractJob :=
  match count with
  | O => []
  | S count =>
      let global := batch * batch_size s + offset in
      if blocks_available s <=? global then []
      else mkJob id batch offset global :: emit s id batch (S offset) count
  end.

(** [Scheduler::ready_extractions], one index. *)
Definition index_extractions (s : Scheduler) (id : IndexId) : option (list ExtractJob) :=
  if bool_decide (id ∈ pending_merge s) || bool_decide (id ∈ pending_commit s) then Some []
  else
    let! batch := current_batch s !! id in
    let effective := effective_batch_size s batch in
    let! extracted := extracted_in_batch s !! id in
    if effective <=? extracted then Some []
    else
      let! fired := firing_rules_satisfied s id batch in
      if negb fired then Some []
      else
        let limit := if is_parallel s id then effective else extracted + 1 in
        Some (emit s id batch extracted (limit - extracted)).
Fixpoint extractions_of (s : Scheduler) (ids : list IndexId) : option (list ExtractJob) :=
  match ids with
  | [] => Some []
  | id :: ids =>
      let! jobs := index_extractions s id in
      let! rest := extractions_of s ids in
      Some (jobs ++ rest)
  end.
Definition ready_extractions (s : Scheduler) : option (list ExtractJob) :=
  extractions_of s (all_indexes s).

(** [Scheduler::extraction_done] *)
Definition extraction_done (s : Scheduler) (index : IndexId)
    : option (option BatchHandle * Scheduler) :=
  let! batch := current_batch s !! index in
  let effective := effective_batch_size s batch in
  let! count := extracted_in_batch s !! index in
  let count := count + 1 in
  let ex := <[index := count]> (extracted_in_batch s) in
  if effective <=? count
  then Some (Some (mkHandle index batch),
             set_progress s ex (current_batch s) (committed_through s)
               ({[index]} ∪ pending_merge s) (pending_commit s))
  else Some (None,
             set_progress s ex (current_batch s) (committed_through s)
               (pending_merge s) (pending_commit s)).

(** [Scheduler::ready_for_merge] *)
Fixpoint handles_of (s : Scheduler) (ids : list IndexId) : option (list BatchHandle) :=
  match ids with
  | [] => Some []
  | id :: ids =>
      let! batch := current_batch s !! id in
      let! rest := handles_of s ids in
      Some (mkHandle id batch :: rest)
  end.
Definition ready_for_merge (s : Scheduler) : option (list BatchHandle) :=
  handles_of s (iter_set (pending_merge s)).

(** [Scheduler::merge_done] *)
Definition merge_done (s : Scheduler) (h : BatchHandle) : BatchHandle * Scheduler :=
  (h, set_progress s (extracted_in_batch s) (current_batch s) (committed_through s)
        (pending_merge s ∖ {[bh_index h]}) ({[bh_index h]} ∪ pending_commit s)).

(** [Scheduler::batch_committed] *)
Definition batch_committed (s : Scheduler) (h : BatchHandle) : Scheduler :=
  let index := bh_index h in
  let batch := bh_batch h in
  set_progress s
    (<[index := 0]> (extracted_in_batch s))
    (<[index := batch + 1]> (current_batch s))
    (<[index := Some batch]> (committed_through s))
    (pending_merge s) (pending_commit s ∖ {[index]}).

(** [Scheduler::ready_work] *)
Definition ready_work (s : Scheduler) : option (list Task) :=
  let! jobs := ready_extractions s in
  let! handles := ready_for_merge s in
  Some ((Extract <$> jobs) ++ ((fun h => CompleteBatch (bh_index h) (bh_batch h)) <$> handles)).

Definition set_blocks_available (s : Scheduler) (count : nat) : Scheduler :=
  mkScheduler (dag s) (batch_size s) count (total_blocks s) (all_indexes s) (deps s)
    (extracted_in_batch s) (current_batch s) (committed_through s) (pending_merge s)
    (pending_commit s).
Definition provisioner_done (s : Scheduler) (total : nat) : Scheduler :=
  mkScheduler (dag s) (batch_size s) total (Some total) (all_indexes s) (deps s)
    (extracted_in_batch s) (current_batch s) (committed_through s) (pending_merge s)
    (pending_commit s).

(** [Scheduler::all_committed_through], [has_pending_work] *)
Fixpoint all_through (s : Scheduler) (batch : nat) (ids : list IndexId) : option bool :=
  match ids with
  | [] => Some true
  | id :: ids =>
      let! c := committed_through s !! id in
      match c with
      | Some b => if batch <=? b then all_through s batch ids else Some false
      | None => Some false
      end
  end.
Definition all_committed_through (s : Scheduler) (batch : nat) : option bool :=
  all_through s batch (all_indexes s).
Definition has_pending_work (s : Scheduler) (total_batches : nat) : option bool :=
  if total_batches =? 0 then Some false
  else let! b := all_committed_through s (total_batches - 1) in Some (negb b).
End Iteration.

(** ** The engine driving the scheduler

    Blocks are supplied, jobs the scheduler emitted are reported done, batches
    it declared ready are merged, and merged batches are committed, in any
    order the handles allow. *)
Section Driving.
Context `{HashIter}.

Inductive step : Scheduler -> Scheduler -> Prop :=
| step_supply s n : blocks_available s <= n -> step s (set_blocks_available s n)
| step_provisioned s n : blocks_available s <= n -> step s (provisioner_done s n)
| step_extracted s jobs j h s' :
    ready_extractions s = Some jobs -> j ∈ jobs ->
    extraction_done s (job_index j) = Some (h, s') -> step s s'
| step_merged s hs h :
    ready_for_merge s = Some hs -> h ∈ hs -> step s (merge_done s h).2
| step_committed s h :
    bh_index h ∈ pending_commit s -> current_batch s !! bh_index h = Some (bh_batch h) ->
    step s (batch_committed s h).

Definition reachable (s0 s : Scheduler) : Prop := rtc step s0 s.

(** The last committed batch of an index now at batch [b]. *)
Definition committed_before (b : nat) : option nat :=
  match b with O => None | S b => Some b end.

Definition busy (s : Scheduler) (id : IndexId) : Prop :=
  (exists k, extracted_in_batch s !! id = Some (S k)) \/
  id ∈ pending_merge s \/ id ∈ pending_commit s.

Record sched_ok (s : Scheduler) : Prop := {
  ok_batch : forall id, id ∈ all_indexes s -> exists b,
    current_batch s !! id = Some b /\ committed_through s !! id = Some (committed_before b);
  ok_extracted : forall id, id ∈ all_indexes s -> is_Some (extracted_in_batch s !! id);
  ok_deps : forall id, id ∈ all_indexes s -> exists ds,
    deps s !! id = Some ds /\ forall d r, (d, r) ∈ ds -> d ∈ all_indexes s;
  ok_pending : forall id, id ∈ pending_merge s \/ id ∈ pending_commit s -> id ∈ all_indexes s;
  ok_disjoint : forall id, id ∈ pending_merge s -> id ∉ pending_commit s;
  ok_order : forall id ds d r b, deps s !! id = Some ds -> (d, r) ∈ ds -> id ∈ all_indexes s ->
    current_batch s !! id = Some b ->
    match r with
    | Pipelined => exists b', current_batch s !! d = Some b' /\ b <= b' /\ (busy s id -> b < b')
    | Barrier => b = 0 /\ ~ busy s id
    end }.

Lemma elem_of_iter_set (x : IndexId) (X : gset IndexId) : x ∈ iter_set X <-> x ∈ X.
Proof.
  unfold iter_set. rewrite elem_of_keys. rewrite lookup_gset_to_gmap.
  split; [|intros; rewrite option_guard_True; eauto].
  intros [v Hv]. by case_guard.
Qed.

Lemma rules_satisfied_spec s batch ds :
  (forall d r, (d, r) ∈ ds -> exists b, current_batch s !! d = Some b /\
     committed_through s !! d = Some (committed_before b)) ->
  exists fired, rules_satisfied s batch ds = Some fired /\
    (fired = true <-> forall d r, (d, r) ∈ ds ->
       r = Pipelined /\ exists b, current_batch s !! d = Some b /\ batch < b).
Proof.
  induction ds as [|[d r] ds IH]; intros Hds; cbn [rules_satisfied].
  - exists true. split; [done|]. split; [|done]. intros _ d r Hin. by apply elem_of_nil in Hin.
  - destruct r.
    + destruct (Hds d Pipelined ltac:(left)) as (b & Hb & Hc). rewrite Hc. cbn.
      destruct b as [|b]; cbn.
      { exists false. split; [done|]. split; [done|]. intros Hall.
        destruct (Hall d Pipelined ltac:(left)) as (_ & b & Hb' & ?). simplify_eq. lia. }
      destruct (Nat.leb_spec batch b) as [Hle|Hlt].
      * destruct IH as (fired & -> & Hf); [intros d' r' Hin; apply (Hds d' r'); by right|].
        exists fired. split; [done|]. rewrite Hf. split.
        -- intros Hall d' r' [[= -> ->]|Hin]%elem_of_cons; [|by apply Hall].
           split; [done|]. exists (S b). split; [done|lia].
        -- intros Hall d' r' Hin. apply Hall. by right.
      * exists false. split; [done|]. split; [done|]. intros Hall.
        destruct (Hall d Pipelined ltac:(left)) as (_ & b' & Hb' & ?). simplify_eq. lia.
    + exists false. split; [done|]. split; [done|]. intros Hall.
      by destruct (Hall d Barrier ltac:(left)).
Qed.

Lemma elem_of_emit s id batch offset count j :
  j ∈ emit s id batch offset count <->
  exists k, k < count /\ j = mkJob id batch (offset + k) (batch * batch_size s + (offset + k)) /\
    global_offset j < blocks_available s.
Proof.
  revert offset. induction count as [|count IH]; intros offset; cbn [emit].
  - rewrite elem_of_nil. split; [done|]. intros (k & ? & _). lia.
  - destruct (Nat.leb_spec (blocks_available s) (batch * batch_size s + offset)) as [Hge|Hlt].
    + rewrite elem_of_nil. split; [done|]. intros (k & _ & -> & Hk). cbn in Hk. lia.
    + rewrite elem_of_cons, IH. split.
      * intros [->|(k & Hk & -> & Hl)].
        -- exists 0. rewrite Nat.add_0_r. split_and!; [lia|done|done].
        -- exists (S k). replace (offset + S k) with (S offset + k) by lia. split_and!; [lia|done..].
      * intros (k & Hk & -> & Hl). destruct k as [|k]; [left; by rewrite Nat.add_0_r|right].
        exists k. replace (S offset + k) with (offset + S k) by lia. split_and!; [lia|done..].
Qed.

(** What one index is offered. *)
Definition may_extract (s : Scheduler) (j : ExtractJob) : Prop :=
  exists b k ds,
    current_batch s !! job_index j = Some b /\ job_batch j = b /\
    extracted_in_batch s !! job_index j = Some k /\
    k <= block_offset j < effective_batch_size s b /\
    (is_parallel s (job_index j) = false -> block_offset j = k) /\
    global_offset j = b * batch_size s + block_offset j /\
    global_offset j < blocks_available s /\
    job_index j ∉ pending_merge s /\ job_index j ∉ pending_commit s /\
    deps s !! job_index j = Some ds /\
    forall d r, (d, r) ∈ ds -> r = Pipelined /\ exists b', current_batch s !! d = Some b' /\ b < b'.

Lemma index_extractions_spec s id :
  sched_ok s -> id ∈ all_indexes s ->
  exists jobs, index_extractions s id = Some jobs /\
    forall j, j ∈ jobs <-> job_index j = id /\ may_extract s j.
Proof.
  intros Hok Hid. unfold index_extractions.
  destruct (ok_batch _ Hok id Hid) as (b & Hb & Hc).
  destruct (ok_extracted _ Hok id Hid) as [k Hk].
  destruct (ok_deps _ Hok id Hid) as (ds & Hds & Hall).
  destruct (bool_decide_reflect (id ∈ pending_merge s)) as [Hm|Hm]; cbn.
  { exists []. split; [done|]. intros j. rewrite elem_of_nil. unfold may_extract. naive_solver. }
  destruct (bool_decide_reflect (id ∈ pending_commit s)) as [Hp|Hp]; cbn.
  { exists []. split; [done|]. intros j. rewrite elem_of_nil. unfold may_extract. naive_solver. }
  rewrite Hb, Hk. cbn. destruct (Nat.leb_spec (effective_batch_size s b) k) as [Hge|Hlt].
  { exists []. split; [done|]. intros j. rewrite elem_of_nil. split; [done|].
    intros [<- (b' & k' & ds' & ? & ? & ? & ? & _)]. simplify_eq. lia. }
  unfold firing_rules_satisfied. rewrite Hds. cbn.
  destruct (rules_satisfied_spec s b ds) as (fired & -> & Hf).
  { intros d r Hin. apply (ok_batch _ Hok). by eapply Hall. }
  cbn. destruct fired; cbn.
  - eexists. split; [done|]. intros j. rewrite elem_of_emit. split.
    + intros (i & Hi & -> & Hg). cbn in Hg. split; [done|]. exists b, k, ds. cbn.
      split_and!; try done; [lia|destruct (is_parallel s id); lia|
        intros Hpar; rewrite Hpar in Hi; lia|by apply Hf].
    + intros [<- (b' & k' & ds' & Hb' & Hjb & Hk' & Hrange & Hpar & Hg & Hav & _)]. simplify_eq.
      exists (block_offset j - k). split_and!.
      * destruct (is_parallel s (job_index j)); [lia|]. specialize (Hpar eq_refl). lia.
      * destruct j; cbn in *. subst. f_equal; lia.
      * done.
  - exists []. split; [done|]. intros j. rewrite elem_of_nil. split; [done|].
    intros [<- (b' & k' & ds' & ? & ? & ? & ? & _ & _ & _ & _ & _ & ? & Hd)]. simplify_eq.
    assert (false = true) by by apply Hf. done.
Qed.

Lemma ready_extractions_spec s :
  sched_ok s ->
  exists jobs, ready_extractions s = Some jobs /\
    forall j, j ∈ jobs <-> job_index j ∈ all_indexes s /\ may_extract s j.
Proof.
  intros Hok. unfold ready_extractions.
  assert (forall ids, (forall x, x ∈ ids -> x ∈ all_indexes s) ->
    exists jobs, extractions_of s ids = Some jobs /\
      forall j, j ∈ jobs <-> job_index j ∈ ids /\ may_extract s j) as Hgen; [|by apply Hgen].
  induction ids as [|id ids IH]; intros Hsub; cbn [extractions_of].
  - exists []. split; [done|]. intros j. rewrite !elem_of_nil. naive_solver.
  - destruct (index_extractions_spec s id Hok) as (jobs & -> & Hj); [apply Hsub; left|]. cbn.
    destruct IH as (rest & -> & Hr); [intros; apply Hsub; by right|]. cbn.
    eexists. split; [done|]. intros j. rewrite elem_of_app, elem_of_cons, Hj, Hr. naive_solver.
Qed.

Lemma ready_for_merge_spec s :
  sched_ok s ->
  exists hs, ready_for_merge s = Some hs /\
    forall h, h ∈ hs <-> bh_index h ∈ pending_merge s /\
      current_batch s !! bh_index h = Some (bh_batch h).
Proof.
  intros Hok. unfold ready_for_merge.
  assert (forall ids, (forall x, x ∈ ids -> x ∈ pending_merge s) ->
    exists hs, handles_of s ids = Some hs /\
      forall h, h ∈ hs <-> bh_index h ∈ ids /\ current_batch s !! bh_index h = Some (bh_batch h))
    as Hgen.
  { induction ids as [|id ids IH]; intros Hsub; cbn [handles_of].
    - exists []. split; [done|]. intros h. rewrite !elem_of_nil. naive_solver.
    - destruct (ok_batch _ Hok id) as (b & Hb & _).
      { apply (ok_pending _ Hok). left. apply Hsub. left. }
      rewrite Hb. cbn. destruct IH as (hs & -> & Hhs); [intros; apply Hsub; by right|]. cbn.
      eexists. split; [done|]. intros [i n]. rewrite !elem_of_cons, Hhs. cbn. naive_solver. }
  destruct (Hgen (iter_set (pending_merge s))) as (hs & -> & Hhs).
  { intros x. by rewrite elem_of_iter_set. }
  exists hs. split; [done|]. intros h. by rewrite Hhs, elem_of_iter_set.
Qed.

Lemma extraction_done_spec s id :
  sched_ok s -> id ∈ all_indexes s ->
  exists b k, current_batch s !! id = Some b /\ extracted_in_batch s !! id = Some k /\
    extraction_done s id = Some
      (if effective_batch_size s b <=? k + 1 then Some (mkHandle id b) else None,
       set_progress s (<[id := k + 1]> (extracted_in_batch s)) (current_batch s)
         (committed_through s)
         (if effective_batch_size s b <=? k + 1 then {[id]} ∪ pending_merge s else pending_merge s)
         (pending_commit s)).
Proof.
  intros Hok Hid. destruct (ok_batch _ Hok id Hid) as (b & Hb & _).
  destruct (ok_extracted _ Hok id Hid) as [k Hk]. exists b, k. split_and!; [done..|].
  unfold extraction_done. rewrite Hb, Hk. cbn. by destruct (_ <=? _).
Qed.

Lemma extract_preserves s j h s' :
  sched_ok s -> job_index j ∈ all_indexes s -> may_extract s j ->
  extraction_done s (job_index j) = Some (h, s') -> sched_ok s'.
Proof.
  intros Hok Hid (b0 & k0 & ds0 & Hb0 & _ & Hk0 & _ & _ & _ & _ & Hnm & Hnc & Hds0 & Hready) Hdone.
  destruct (extraction_done_spec s (job_index j) Hok Hid) as (b & k & Hb & Hk & Hd).
  rewrite Hd in Hdone. injection Hdone as _ <-. clear Hd. set (id := job_index j) in *.
  destruct Hok as [Hbatch Hext Hdeps Hpend Hdisj Hord].
  split; cbn [all_indexes current_batch committed_through extracted_in_batch deps pending_merge
    pending_commit set_progress]; try done.
  - intros x Hx. rewrite lookup_insert_is_Some. destruct (decide (id = x)); [by left|right; auto].
  - intros x [Hx|Hx]; [|by apply Hpend; right].
    destruct (_ <=? _) in Hx; [|by apply Hpend; left].
    apply elem_of_union in Hx as [->%elem_of_singleton|Hx]; [done|by apply Hpend; left].
  - intros x Hx. destruct (_ <=? _) in Hx; [|by apply Hdisj].
    apply elem_of_union in Hx as [->%elem_of_singleton|Hx]; [done|by apply Hdisj].
  - intros x ds d r b' Hds Hin Hx Hb'. destruct (decide (x = id)) as [->|Hne].
    + simplify_eq. destruct (Hready d r Hin) as (-> & b2 & Hb2 & Hlt). exists b2.
      split_and!; [done|lia|done].
    + specialize (Hord x ds d r b' Hds Hin Hx Hb').
      assert (Hbusy : busy (set_progress s (<[id:=k + 1]> (extracted_in_batch s)) (current_batch s)
        (committed_through s) (if effective_batch_size s b <=? k + 1
          then {[id]} ∪ pending_merge s else pending_merge s) (pending_commit s)) x -> busy s x).
      { unfold busy. cbn. rewrite lookup_insert_ne by done.
        destruct (_ <=? _); [rewrite elem_of_union, elem_of_singleton|]; naive_solver. }
      destruct r; [|naive_solver]. destruct Hord as (b2 & ? & ? & ?). eauto 6.
Qed.

Lemma merge_preserves s h :
  sched_ok s -> bh_index h ∈ pending_merge s -> sched_ok (merge_done s h).2.
Proof.
  intros [Hbatch Hext Hdeps Hpend Hdisj Hord] Hm.
  split; cbn [all_indexes current_batch committed_through extracted_in_batch deps pending_merge
    pending_commit set_progress merge_done snd]; try done.
  - intros x. rewrite elem_of_difference, elem_of_union, elem_of_singleton.
    intros [[? _]|[->|?]]; auto.
  - set_solver.
  - intros x ds d r b Hds Hin Hx Hb. specialize (Hord x ds d r b Hds Hin Hx Hb).
    assert (Hbusy : busy (merge_done s h).2 x -> busy s x).
    { unfold busy. cbn. rewrite elem_of_difference, elem_of_union, elem_of_singleton.
      intros [?|[[? _]|[->|?]]]; auto. }
    destruct r; [|naive_solver]. destruct Hord as (b2 & ? & ? & ?). eauto 6.
Qed.

Lemma commit_preserves s h :
  sched_ok s -> bh_index h ∈ pending_commit s ->
  current_batch s !! bh_index h = Some (bh_batch h) -> sched_ok (batch_committed s h).
Proof.
  intros [Hbatch Hext Hdeps Hpend Hdisj Hord] Hc Hb. set (id := bh_index h) in *.
  assert (Hid : id ∈ all_indexes s) by (apply Hpend; by right).
  split; cbn [all_indexes current_batch committed_through extracted_in_batch deps pending_merge
    pending_commit set_progress batch_committed]; fold id; try done.
  - intros x Hx. destruct (decide (id = x)) as [<-|Hne].
    + exists (bh_batch h + 1). rewrite !lookup_insert_eq. split; [done|].
      by rewrite Nat.add_1_r.
    + rewrite !lookup_insert_ne by done. by apply Hbatch.
  - intros x Hx. rewrite lookup_insert_is_Some. destruct (decide (id = x)); [by left|right; auto].
  - intros x [?|[? _]%elem_of_difference]; auto.
  - intros x Hx. rewrite elem_of_difference. intros [Hx' _]. by apply (Hdisj x).
  - intros x ds d r b Hds Hin Hx Hbx. destruct (decide (id = x)) as [<-|Hne].
    + rewrite lookup_insert_eq in Hbx. injection Hbx as <-.
      specialize (Hord id ds d r _ Hds Hin Hx Hb).
      assert (Hbusy : busy s id) by (right; by right).
      destruct r; [|by destruct Hord]. destruct Hord as (b2 & Hb2 & _ & Hlt%(fun f => f Hbusy)).
      assert (d <> id) by (intros ->; rewrite Hb in Hb2; simplify_eq; lia).
      exists b2. rewrite lookup_insert_ne by done. split_and!; [done|lia|].
      unfold busy. cbn. fold id. rewrite lookup_insert_eq.
      intros [[k ?]|[Hm|Hp]]; [done|by destruct (Hdisj id)|set_solver].
    + rewrite lookup_insert_ne in Hbx by done. specialize (Hord x ds d r b Hds Hin Hx Hbx).
      assert (Hbusy : busy (batch_committed s h) x -> busy s x).
      { unfold busy. cbn. fold id. rewrite lookup_insert_ne by done. set_solver. }
      destruct r; [|naive_solver]. destruct Hord as (b2 & Hb2 & Hle & Hlt).
      destruct (decide (id = d)) as [<-|Hd].
      * rewrite Hb in Hb2. injection Hb2 as <-. exists (bh_batch h + 1). rewrite lookup_insert_eq.
        split_and!; [done|lia|]. intros Hbu%Hbusy. specialize (Hlt Hbu). lia.
      * exists b2. rewrite lookup_insert_ne by done. auto.
Qed.

Lemma step_preserves s s' : step s s' -> sched_ok s -> sched_ok s'.
Proof.
  intros Hstep Hok. destruct Hstep as [s n _|s n _|s jobs j h s' Hr Hj Hd|s hs h Hr Hh|s h Hc Hb].
  - destruct Hok. by split.
  - destruct Hok. by split.
  - destruct (ready_extractions_spec s Hok) as (jobs' & Hr' & Hspec). simplify_eq.
    apply Hspec in Hj as [Hid Hmay]. by eapply extract_preserves.
  - destruct (ready_for_merge_spec s Hok) as (hs' & Hr' & Hspec). simplify_eq.
    apply Hspec in Hh as [Hm _]. by apply merge_preserves.
  - by apply commit_preserves.
Qed.

Lemma reachable_ok s0 s : sched_ok s0 -> reachable s0 s -> sched_ok s.
Proof. intros Hok Hr. induction Hr; eauto using step_preserves. Qed.

Lemma const_map_lookup {V} ids (v : V) x :
  const_map ids v !! x = if decide (x ∈ ids) then Some v else None.
Proof.
  unfold const_map.
  assert (forall m : gmap IndexId V, fold_left (fun m id => <[id := v]> m) ids m !! x =
    if decide (x ∈ ids) then Some v else m !! x) as Hgen.
  { induction ids as [|id ids IH]; intros m; cbn [fold_left].
    - rewrite decide_False; [done|apply not_elem_of_nil].
    - rewrite IH. destruct (decide (x ∈ ids)) as [Hin|Hni].
      + by rewrite decide_True by by right.
      + destruct (decide (id = x)) as [<-|Hne].
        * by rewrite lookup_insert_eq, decide_True by left.
        * rewrite lookup_insert_ne, decide_False by set_solver. done. }
  rewrite Hgen, lookup_empty. done.
Qed.

Lemma push_deps_lookup es m x :
  fold_left push_dep es m !! x =
  let l := (fun e => (from e, firing e)) <$> filter (fun e => to e = x) es in
  match m !! x with
  | Some l0 => Some (l0 ++ l)
  | None => if decide (l = []) then None else Some l
  end.
Proof.
  revert m. induction es as [|e es IH]; intros m; cbn [fold_left].
  - rewrite filter_nil. cbn. destruct (m !! x); [by rewrite app_nil_r|done].
  - rewrite IH, filter_cons. unfold push_dep. cbv zeta. destruct (decide (to e = x)) as [<-|Hne].
    + rewrite lookup_insert_eq. destruct (m !! to e); cbn; [by rewrite <- app_assoc|done].
    + by rewrite lookup_insert_ne.
Qed.

(** The scheduler's index list and dependency table over a built DAG. *)
Lemma all_indexes_spec ds d gs :
  build ds = Some (Ok d) -> phases d = Some gs ->
  forall x, x ∈ (fun n => name (descriptor n)) <$> concat gs <-> x ∈ name <$> ds.
Proof.
  intros Hb Hgs. destruct (phases_spec ds d Hb) as (gs' & Hgs' & Hlen & Hmem). simplify_eq.
  destruct (build_spec ds) as (r & Hr & Hs). rewrite Hb in Hr. injection Hr as <-.
  destruct Hs as (_ & _ & pm & Hpm & _ & Hns & Hcount & _).
  intros x. rewrite list_elem_of_fmap. split.
  - intros (nd & -> & Hin). rewrite list_elem_of_In, in_concat in Hin.
    destruct Hin as (g & [k Hk]%list_elem_of_In%list_elem_of_lookup & Hg%list_elem_of_In).
    apply (Hmem k g nd Hk) in Hg as [_ Hn]. apply Hns in Hn as (_ & Hin & _).
    by apply list_elem_of_fmap_2.
  - intros Hx. destruct (proj1 (Hpm x) Hx) as [p Hp].
    apply list_elem_of_fmap in Hx as (u & -> & Hu).
    assert (nodes d !! name u = Some (mkDagNode u p)) as Hn by by apply Hns.
    destruct (lookup_lt_is_Some_2 gs p) as [g Hg].
    { rewrite Hlen, Hcount. by eapply max_phase_count_spec. }
    exists (mkDagNode u p). split; [done|]. rewrite list_elem_of_In, in_concat. exists g.
    rewrite <- !list_elem_of_In. split; [by eapply list_elem_of_lookup_2|].
    by apply (Hmem p g (mkDagNode u p) Hg).
Qed.

Lemma all_indexes_NoDup ds d gs :
  build ds = Some (Ok d) -> phases d = Some gs ->
  NoDup ((fun n => name (descriptor n)) <$> concat gs).
Proof.
  intros Hb Hgs. destruct (build_spec ds) as (r & Hr & Hs). rewrite Hb in Hr. injection Hr as <-.
  destruct Hs as (_ & _ & pm & _ & _ & Hns & _).
  unfold phases in Hgs. apply push_nodes_perm in Hgs.
  assert (forall k, concat (replicate k []) = ([] : list DagNode)) as Hnil
    by (intros k; induction k; done).
  rewrite Hgs, Hnil, app_nil_l.
  assert ((fun n => name (descriptor n)) <$> values (nodes d) = keys (nodes d)) as ->;
    [|apply NoDup_keys].
  unfold values, keys. rewrite <- list_fmap_compose. apply list_fmap_ext.
  intros i [x n] Hx%list_elem_of_lookup_2%elem_of_hiter. by apply Hns in Hx as [? _].
Qed.

Definition dep_table (d : DependencyDag) (all : list IndexId)
    : gmap IndexId (list (IndexId * FiringRule)) :=
  fold_left push_dep (edges d) (const_map all []).

Lemma dep_table_spec d all t :
  (t ∈ all -> is_Some (dep_table d all !! t)) /\
  forall l, dep_table d all !! t = Some l -> forall f r, (f, r) ∈ l <->
    exists e, e ∈ edges d /\ from e = f /\ to e = t /\ firing e = r.
Proof.
  unfold dep_table. rewrite push_deps_lookup, const_map_lookup. cbv zeta. split.
  - intros Ht. rewrite decide_True by done. eauto.
  - intros l Hl f r.
    assert (l = (fun e => (from e, firing e)) <$> filter (fun e => to e = t) (edges d)) as ->.
    { case_decide; [by simplify_eq|]. by case_decide; simplify_eq. }
    rewrite list_elem_of_fmap. setoid_rewrite list_elem_of_filter. naive_solver.
Qed.

(** A new scheduler over a DAG that was built: it exists, its indexes are the
    registered ones, and its dependency table is the declared dependencies. *)
Lemma new_spec ds d n :
  build ds = Some (Ok d) ->
  exists s, new d n = Some s /\ sched_ok s /\
    (forall x, x ∈ all_indexes s <-> x ∈ name <$> ds) /\
    (forall t f, depends ds f t <-> exists l r, deps s !! t = Some l /\ (f, r) ∈ l) /\
    (forall u t l r, u ∈ ds -> deps s !! t = Some l -> (name u, r) ∈ l ->
       (r = Barrier <-> source_access u = NonLocal)).
Proof.
  intros Hb. destruct (phases_spec ds d Hb) as (gs & Hgs & _).
  pose proof (all_indexes_spec ds d gs Hb Hgs) as Hall.
  destruct (build_spec ds) as (r & Hr & Hs). rewrite Hb in Hr. injection Hr as <-.
  destruct Hs as (_ & Hknown & pm & _ & _ & _ & _ & Hedges & Hfire).
  unfold new. rewrite Hgs. cbn. set (all := (fun n => name (descriptor n)) <$> concat gs) in *.
  fold (dep_table d all). pose proof (dep_table_spec d all) as Htab.
  eexists. split; [done|]. split_and!; [|done|..]; cbn [deps].
  - split; cbn [all_indexes current_batch committed_through extracted_in_batch deps pending_merge
      pending_commit]; [| | |set_solver..|].
    + intros x Hx. exists 0. by rewrite !const_map_lookup, !decide_True by done.
    + intros x Hx. rewrite const_map_lookup, decide_True by done. eauto.
    + intros x Hx. destruct (proj1 (Htab x) Hx) as [l Hl]. exists l. split; [done|].
      intros f r (e & He & <- & <- & _)%(proj2 (Htab x) l Hl).
      apply Hall, (Hknown _ (to e)), Hedges. eauto.
    + intros x l f r b Hl Hfr Hx Hbx. rewrite const_map_lookup, decide_True in Hbx by done.
      injection Hbx as <-. apply (proj2 (Htab x) l Hl) in Hfr as (e & He & <- & <- & <-).
      match goal with |- context [busy ?s _] => assert (Hidle : ~ busy s (to e)) end.
      { unfold busy. cbn. rewrite const_map_lookup, decide_True by done. set_solver. }
      destruct (firing e); [|done]. exists 0. rewrite const_map_lookup, decide_True; [done|].
      apply Hall, (Hknown _ (to e)), Hedges. eauto.
  - intros t f. rewrite <- Hedges. split.
    + intros (e & He & <- & <-).
      destruct (proj1 (Htab (to e))) as [l Hl]; [apply Hall, (depends_named ds (from e)), Hedges; eauto|].
      exists l, (firing e). split; [done|]. apply (proj2 (Htab _) l Hl). eauto.
    + intros (l & r & Hl & (e & He & <- & <- & _)%(proj2 (Htab t) l Hl)). eauto.
  - intros u t l r Hu Hl (e & He & Hf & _ & <-)%(proj2 (Htab t) l Hl). by apply Hfire.
Qed.

Lemma extraction_done_frame s id h s' :
  extraction_done s id = Some (h, s') ->
  all_indexes s' = all_indexes s /\ deps s' = deps s /\ committed_through s' = committed_through s.
Proof.
  unfold extraction_done. destruct (current_batch s !! id); cbn; [|done].
  destruct (extracted_in_batch s !! id); cbn; [|done]. by destruct (_ <=? _); intros [= _ <-].
Qed.

Lemma reachable_frame s0 s :
  reachable s0 s -> all_indexes s = all_indexes s0 /\ deps s = deps s0.
Proof.
  induction 1 as [|a b c Hs _ [IH1 IH2]]; [done|]. rewrite IH1, IH2.
  destruct Hs as [| |? ? ? ? ? _ _ Hd| |]; try done. by apply extraction_done_frame in Hd as (? & ? & _).
Qed.

(** ** Properties *)

(** C20: whatever order work is done in, an index never commits a batch
    before every index it depends on has committed it; and an index depending on
    one with non-local source access (a [Barrier] edge) never commits at all. *)
Theorem commits_respect_dependencies ds d n s0 s u t :
  build ds = Some (Ok d) -> new d n = Some s0 -> reachable s0 s ->
  u ∈ ds -> depends ds (name u) t ->
  match source_access u with
  | NoAccess => forall b, committed_through s !! t = Some (Some b) ->
      exists b', committed_through s !! name u = Some (Some b') /\ b <= b'
  | NonLocal => committed_through s !! t = Some None
  end.
Proof.
  intros Hb Hnew Hreach Hu Hdep.
  destruct (new_spec ds d n Hb) as (s0' & Hnew' & Hok0 & Hall & Hdeps & Hfire). simplify_eq.
  pose proof (reachable_ok _ _ Hok0 Hreach) as Hok.
  destruct (reachable_frame _ _ Hreach) as [Hsa Hsd].
  assert (Ht : t ∈ all_indexes s) by (rewrite Hsa; by eapply Hall, depends_named).
  destruct (proj1 (Hdeps t (name u)) Hdep) as (l & r & Hl & Hin).
  pose proof (Hfire u t l r Hu Hl Hin) as Hr.
  destruct (ok_batch _ Hok t Ht) as (b & Hbt & Hct).
  pose proof (ok_order _ Hok t l (name u) r b ltac:(by rewrite Hsd) Hin Ht Hbt) as Hord.
  destruct (source_access u).
  - destruct r; [|by destruct Hr as [Hr _]; specialize (Hr eq_refl)].
    destruct Hord as (b' & Hb' & Hle & _).
    destruct (ok_deps _ Hok t Ht) as (l' & Hl' & Hreg). rewrite Hsd in Hl'. simplify_eq.
    destruct (ok_batch _ Hok (name u) (Hreg _ _ Hin)) as (b2 & Hb2 & Hc2).
    assert (b2 = b') as -> by congruence.
    rewrite Hct, Hc2. intros c Hc. destruct b as [|b]; [done|]. cbn in Hc. simplify_eq.
    destruct b' as [|b']; [lia|]. exists b'. split; [done|lia].
  - rewrite (proj2 Hr eq_refl) in Hord. destruct Hord as [-> _]. done.
Qed.

(** In every reachable state the ready work exists (no panic) and
    is exactly: the extractions of blocks already supplied, inside the index's
    current batch, not yet extracted, one at a time for a sequential carry, with
    no merge or commit outstanding and every dependency committed through that
    batch; and the completion of each fully extracted batch. *)
Theorem ready_work_exact ds d n s0 s :
  build ds = Some (Ok d) -> new d n = Some s0 -> reachable s0 s ->
  exists tasks, ready_work s = Some tasks /\
    (forall j, Extract j ∈ tasks <-> job_index j ∈ all_indexes s /\ may_extract s j) /\
    (forall i b, CompleteBatch i b ∈ tasks <->
       i ∈ pending_merge s /\ current_batch s !! i = Some b).
Proof.
  intros Hb Hnew Hreach.
  destruct (new_spec ds d n Hb) as (s0' & Hnew' & Hok0 & _). simplify_eq.
  pose proof (reachable_ok _ _ Hok0 Hreach) as Hok.
  destruct (ready_extractions_spec s Hok) as (jobs & Hj & Hjobs).
  destruct (ready_for_merge_spec s Hok) as (hs & Hh & Hhs).
  unfold ready_work. rewrite Hj, Hh. cbn. eexists. split; [done|].
  setoid_rewrite elem_of_app. setoid_rewrite list_elem_of_fmap. split.
  - intros j. rewrite <- Hjobs. split.
    + intros [(j' & [= ->] & Hin)|(? & ? & _)]; done.
    + intros Hin. left. by exists j.
  - intros i b. split.
    + intros [(? & ? & _)|(h & [= -> ->] & Hin)]; [done|]. by apply Hhs.
    + intros Hib. right. exists (mkHandle i b). by rewrite Hhs.
Qed.

(** Every index commits its batches 0, 1, 2, .. in order, each once:
    in a reachable state one step either leaves an index's last committed batch
    alone or moves it to the next, and moves it only for an index whose batch was
    merged and awaits its commit. *)
Theorem commits_consecutive ds d n s0 s s' id c :
  build ds = Some (Ok d) -> new d n = Some s0 -> reachable s0 s -> step s s' ->
  committed_through s !! id = Some c ->
  committed_through s' !! id = Some c \/
  (committed_through s' !! id = Some (Some (match c with Some b => S b | None => 0 end)) /\
   id ∈ pending_commit s).
Proof.
  intros Hb Hnew Hreach Hstep Hc.
  destruct (new_spec ds d n Hb) as (s0' & Hnew' & Hok0 & _). simplify_eq.
  pose proof (reachable_ok _ _ Hok0 Hreach) as Hok. clear Hreach Hok0 Hnew.
  destruct Hstep as [s m _|s m _|s jobs j h s' _ _ Hd|s hs h _ _|s h Hp Hcur]; [by left..| |by left|].
  - left. by apply extraction_done_frame in Hd as (_ & _ & ->).
  - cbn. destruct (decide (bh_index h = id)) as [<-|Hne]; [|left; by rewrite lookup_insert_ne].
    right. rewrite lookup_insert_eq. split; [|done].
    destruct (ok_batch _ Hok (bh_index h)) as (b & Hb' & Hc'); [by apply (ok_pending _ Hok); right|].
    simplify_eq. by destruct (bh_batch h).
Qed.
End Driving.

(** ** A single index with batches of ten *)
Module Example.
Local Existing Instance canonical_iter.
Import Dag.Example.
Local Open Scope string_scope.

Definition pair_dag : list Descriptor := [index "b" ["a"] NoAccess; index "a" [] NoAccess].
Definition built (ds : list Descriptor) : DependencyDag :=
  match build ds with Some (Ok d) => d | _ => mkDag ∅ [] 0 end.
Definition started (ds : list Descriptor) (n : nat) : Scheduler :=
  match new (built ds) n with Some s => s | None => mkScheduler (built ds) n 0 None [] ∅ ∅ ∅ ∅ ∅ ∅ end.

Definition after_done (s : Scheduler) (id : IndexId) : Scheduler :=
  match extraction_done s id with Some (_, s) => s | None => s end.

(** One block available of batches of one: [a] has extracted, merged and
    committed it. *)
Definition s1 := set_blocks_available (started pair_dag 1) 1.
Definition s2 := after_done s1 "a".
Definition s3 := (merge_done s2 (mkHandle "a" 0)).2.
Definition s4 := batch_committed s3 (mkHandle "a" 0).

Lemma pair_built : build pair_dag = Some (Ok (built pair_dag)).
Proof. vm_compute. reflexivity. Qed.
Lemma pair_started : new (built pair_dag) 1 = Some (started pair_dag 1).
Proof. vm_compute. reflexivity. Qed.

Lemma s3_reachable : reachable (started pair_dag 1) s3.
Proof.
  eapply rtc_l; [apply (step_supply _ 1); vm_compute; lia|].
  eapply rtc_l; [|apply rtc_once].
  - eapply (step_extracted s1 _ (mkJob "a" 0 0 0)); [vm_compute; reflexivity| |vm_compute; reflexivity].
    repeat constructor.
  - eapply (step_merged s2 _ (mkHandle "a" 0)); [vm_compute; reflexivity|repeat constructor].
Qed.
Lemma s4_step : step s3 s4.
Proof. apply step_committed; vm_compute; reflexivity. Qed.
Lemma s4_reachable : reachable (started pair_dag 1) s4.
Proof. eapply rtc_r; [apply s3_reachable|apply s4_step]. Qed.

(** Then [b] does the same. *)
Definition s5 := after_done s4 "b".
Definition s6 := (merge_done s5 (mkHandle "b" 0)).2.
Definition s7 := batch_committed s6 (mkHandle "b" 0).

Lemma s7_reachable : reachable (started pair_dag 1) s7.
Proof.
  eapply rtc_r; [eapply rtc_r; [eapply rtc_r; [apply s4_reachable|]|]|].
  - eapply (step_extracted s4 _ (mkJob "b" 0 0 0)); [vm_compute; reflexivity| |vm_compute; reflexivity].
    repeat constructor.
  - eapply (step_merged s5 _ (mkHandle "b" 0)); [vm_compute; reflexivity|repeat constructor].
  - apply step_committed; vm_compute; reflexivity.
Qed.

Lemma commits_respect_dependencies_witness :
  committed_through s7 !! "b" = Some (Some 0) /\
  exists b', committed_through s7 !! "a" = Some (Some b') /\ 0 <= b'.
Proof.
  split; [vm_compute; reflexivity|].
  apply (commits_respect_dependencies pair_dag (built pair_dag) 1 (started pair_dag 1) s7
    (index "a" [] NoAccess) "b" pair_built pair_started s7_reachable).
  - right. left.
  - exists (index "b" ["a"] NoAccess). split_and!; [left|reflexivity|left].
  - vm_compute. reflexivity.
Defined.

(** Once [a] has committed its batch, [b] may extract it. *)
Lemma ready_work_exact_witness :
  exists tasks, ready_work s4 = Some tasks /\ Extract (mkJob "b" 0 0 0) ∈ tasks.
Proof.
  destruct (ready_work_exact pair_dag (built pair_dag) 1 (started pair_dag 1) s4 pair_built
    pair_started s4_reachable) as (tasks & Ht & _).
  exists tasks. split; [exact Ht|]. vm_compute in Ht. injection Ht as <-. repeat constructor.
Defined.

Lemma commits_consecutive_witness : committed_through s4 !! "a" = Some (Some 0).
Proof.
  destruct (commits_consecutive pair_dag (built pair_dag) 1 (started pair_dag 1) s3 s4 "a" None
    pair_built pair_started s3_reachable s4_step) as [Hbad|[Hc _]].
  - vm_compute. reflexivity.
  - vm_compute in Hbad. discriminate Hbad.
  - exact Hc.
Defined.

(** Three blocks of a batch of ten, extracted before the provisioner signals
    that there will be no more. *)
Definition single : list Descriptor := [index "a" [] NoAccess].
Definition t1 := set_blocks_available (started single 10) 3.
Definition t2 := after_done (after_done (after_done t1 "a") "a") "a".
Definition t3 := provisioner_done t2 3.

(** A final partial batch whose blocks were all extracted before the
    provisioner signalled completion is never declared ready: the completion
    signal lowers the batch's effective size, but only [extraction_done] moves an
    index to merging.  Nothing is offered any more and the blocks stay
    uncommitted. *)
Lemma early_partial_batch_stalls :
  reachable (started single 10) t3 /\
  total_blocks t3 = Some 3 /\ blocks_available t3 = 3 /\
  extracted_in_batch t3 !! "a" = Some (effective_batch_size t3 0) /\
  ready_work t3 = Some [] /\
  committed_through t3 !! "a" = Some None /\ has_pending_work t3 1 = Some true.
Proof.
  split; [|split_and!; vm_compute; reflexivity].
  eapply rtc_l; [apply (step_supply _ 3); vm_compute; lia|].
  do 3 (eapply rtc_l; [eapply (step_extracted _ _ (mkJob "a" 0 _ _));
    [vm_compute; reflexivity|left|vm_compute; reflexivity]|]).
  apply rtc_once. apply step_provisioned. vm_compute. lia.
Qed.
End Example.
End Scheduler.
