(* ===== verification/Reader.v ===== *)
(** * The consensus-byte reader
    ([packages/zaino-block-decode/src/reader.rs], [error.rs])

    A cursor over a byte slice, its reads as a parser monad, the canonical
    compact-size prefix with its writer ([txid.rs]), and the logic the format
    proofs use: [parses p enc v] says [p] reads exactly [enc] and answers [v]
    wherever [enc] stands in the input. *)

From S2P Require Import Prelude Primitives Difficulty Types.
From stdpp Require Import base list strings.
From Stdlib Require Import ZArith Lia.
Open Scope Z_scope.

Module Reader.

Inductive BlockError := BlockNoTransactions.

Inductive DecodeError :=
| Truncated (needed available : Z)
| NonCanonicalCompactSize
| CompactSizeTooLarge (v : Z)
| Trailing (n : Z)
| UnknownTransactionVersion (header : Z) (group : option Z)
| NoTransactions
| NoCoinbase
| CoinbaseHeight (why : string)
| NegativeHeaderVersion (v : Z)
| Solution (len : Z)
| HeightError (h : Z)
| Difficulty (e : CompactDifficulty.CompactDifficultyError)
| OutputValue (e : Zatoshis.ZatoshisOverflow)
| ValueBalance (e : Zatoshis.SignedZatoshisOverflow)
| BlockErr (e : BlockError).

Definition MAX_COMPACT_SIZE : Z := 0x02000000.

Definition len (l : list Z) : Z := Z.of_nat (length l).

Record Reader := mkReader { bytes : list Z; position : Z }.

(** [Reader::new], [remaining], [since] *)
Definition new (raw : list Z) : Reader := mkReader raw 0.
Definition remaining (r : Reader) : Z := len (bytes r) - position r.
Definition slice (l : list Z) (start end_ : Z) : list Z :=
  take (Z.to_nat (end_ - start)) (drop (Z.to_nat start) l).
Definition since (r : Reader) (start : Z) : list Z := slice (bytes r) start (position r).

(** ** Reads *)
Definition P (A : Type) : Type := Reader -> result (A * Reader) DecodeError.
Definition pret {A} (a : A) : P A := fun r => Ok (a, r).
Definition pfail {A} (e : DecodeError) : P A := fun _ => Err e.
Definition pbind {A B} (p : P A) (k : A -> P B) : P B := fun r =>
  match p r with Ok (a, r) => k a r | Err e => Err e end.
Definition plift {A} (x : result A DecodeError) : P A := fun r =>
  match x with Ok a => Ok (a, r) | Err e => Err e end.
Definition pread {A} (f : Reader -> A) : P A := fun r => Ok (f r, r).

Declare Scope parse_scope.
Notation "'let*' x ':=' m 'in' k" := (pbind m (fun x => k))
  (at level 10, x pattern, m at level 200, k at level 200) : parse_scope.
Open Scope parse_scope.

(** [Reader::take]: the next [n] bytes, or a failure that moves nothing. *)
Definition take_bytes (n : Z) : P (list Z) := fun r =>
  match checked_add 64 (position r) n with
  | None => Err (Truncated n (remaining r))
  | Some end_ =>
      if end_ <=? len (bytes r)
      then Ok (slice (bytes r) (position r) end_, mkReader (bytes r) end_)
      else Err (Truncated n (remaining r))
  end.
Definition skip (n : Z) : P unit := let* _ := take_bytes n in pret tt.
Definition array (n : Z) : P (list Z) := take_bytes n.

(** Two's complement at [w] bits. *)
Definition as_signed (w z : Z) : Z := if z <? 2 ^ (w - 1) then z else z - 2 ^ w.

Definition u8 : P Z := let* bs := array 1 in pret (from_le_bytes bs).
Definition u32_le : P Z := let* bs := array 4 in pret (from_le_bytes bs).
Definition i32_le : P Z := let* bs := array 4 in pret (as_signed 32 (from_le_bytes bs)).
Definition i64_le : P Z := let* bs := array 8 in pret (as_signed 64 (from_le_bytes bs)).

(** [canonical]: a longer form must hold what the shorter ones cannot. *)
Definition canonical (value minimum : Z) : result Z DecodeError :=
  if value <? minimum then Err NonCanonicalCompactSize else Ok value.

(** [Reader::compact_size]: the value the flag byte announces, then the
    protocol maximum; [usize] is 64 bits wide. *)
Definition compact_value (flag : Z) : P Z :=
  if flag <=? 252 then pret flag
  else if flag =? 253 then let* bs := array 2 in plift (canonical (from_le_bytes bs) 253)
  else if flag =? 254 then let* bs := array 4 in plift (canonical (from_le_bytes bs) 0x10000)
  else let* bs := array 8 in plift (canonical (from_le_bytes bs) 0x100000000).
Definition compact_check (value : Z) : P Z :=
  if MAX_COMPACT_SIZE <? value then pfail (CompactSizeTooLarge value)
  else plift (ok_or (try_narrow 64 value) (CompactSizeTooLarge value)).
Definition compact_size : P Z :=
  let* flag := u8 in
  let* value := compact_value flag in
  compact_check value.

Definition var_bytes : P (list Z) := let* n := compact_size in take_bytes n.

Fixpoint repeat_read {A} (count : nat) (read : P A) : P (list A) :=
  match count with
  | O => pret []
  | S count =>
      let* x := read in
      let* rest := repeat_read count read in
      pret (x :: rest)
  end.

(** [Reader::vector]: the count is checked against the bytes left before
    anything is allocated for it. *)
Definition vector {A} (min_item : Z) (read : P A) : P (list A) :=
  let* count := compact_size in
  let* needed := plift (ok_or (checked_mul 64 count min_item) (CompactSizeTooLarge (umax 64))) in
  let* available := pread remaining in
  if available <? needed then pfail (Truncated needed available)
  else repeat_read (Z.to_nat count) read.

(** A read followed by the bytes it consumed ([position] before, [since] after). *)
Definition spanned {A B} (p : P A) (f : A -> list Z -> B) : P B :=
  let* start := pread position in
  let* a := p in
  let* bs := pread (fun r => since r start) in
  pret (f a bs).

(** [write_compact_size] ([txid.rs]): the prefix as the encoding writes it. *)
Definition write_compact_size (n : Z) : list Z :=
  if n <? 253 then [n]
  else if n <=? umax 16 then 253 :: to_le_bytes 2 n
  else if n <=? umax 32 then 254 :: to_le_bytes 4 n
  else 255 :: to_le_bytes 8 n.

(** ** Reading what was written *)
Definition parses {A} (p : P A) (enc : list Z) (v : A) : Prop :=
  forall pre rest, len (pre ++ enc ++ rest) < 2 ^ 64 ->
    p (mkReader (pre ++ enc ++ rest) (len pre)) =
    Ok (v, mkReader (pre ++ enc ++ rest) (len pre + len enc)).

Lemma len_app l1 l2 : len (l1 ++ l2) = len l1 + len l2.
Proof. unfold len. rewrite length_app. lia. Qed.
Lemma len_nonneg l : 0 <= len l.
Proof. unfold len. lia. Qed.
Lemma len_cons x l : len (x :: l) = 1 + len l.
Proof. unfold len. cbn [length]. lia. Qed.

Lemma slice_app pre enc rest : slice (pre ++ enc ++ rest) (len pre) (len pre + len enc) = enc.
Proof.
  unfold slice, len. rewrite Nat2Z.id, drop_app_length.
  replace (Z.to_nat (Z.of_nat (length pre) + Z.of_nat (length enc) - Z.of_nat (length pre)))
    with (length enc) by lia.
  apply take_app_length.
Qed.

Lemma parses_ret {A} (a : A) : parses (pret a) [] a.
Proof. intros pre rest _. unfold pret. do 3 f_equal. unfold len. cbn. lia. Qed.

Lemma parses_bind {A B} (p : P A) (k : A -> P B) e1 e2 a b :
  parses p e1 a -> parses (k a) e2 b -> parses (pbind p k) (e1 ++ e2) b.
Proof.
  intros Hp Hk pre rest Hlen. unfold pbind. rewrite <- app_assoc in *.
  rewrite (Hp pre (e2 ++ rest) Hlen). specialize (Hk (pre ++ e1) rest).
  rewrite <- app_assoc, !len_app in *. rewrite Hk by lia. do 2 f_equal. f_equal. lia.
Qed.

(** A bind whose continuation reads nothing more. *)
Lemma parses_map {A B} (p : P A) (f : A -> B) e a :
  parses p e a -> parses (let* x := p in pret (f x)) e (f a).
Proof.
  intros Hp. rewrite <- (app_nil_r e). eapply parses_bind; [done|apply parses_ret].
Qed.

Lemma parses_take e n : len e = n -> parses (take_bytes n) e e.
Proof.
  intros <- pre rest Hlen. unfold take_bytes. cbn [position bytes].
  pose proof (len_nonneg rest). rewrite !len_app in Hlen.
  rewrite (proj2 (checked_add_Some 64 (len pre) (len e) (len pre + len e))) by lia.
  rewrite (proj2 (Z.leb_le _ _)) by (rewrite !len_app; lia). by rewrite slice_app.
Qed.

Lemma parses_skip e n : len e = n -> parses (skip n) e tt.
Proof. intros He. by apply (parses_map _ (fun _ => tt) e e), parses_take. Qed.

Lemma parses_spanned {A B} (p : P A) (f : A -> list Z -> B) e a :
  parses p e a -> parses (spanned p f) e (f a e).
Proof.
  intros Hp pre rest Hlen. unfold spanned, pbind, pread. cbn [position]. rewrite (Hp pre rest Hlen).
  unfold since. cbn [bytes position]. by rewrite slice_app.
Qed.

Lemma len_le n z : len (to_le_bytes n z) = Z.of_nat n.
Proof. unfold len. by rewrite length_to_le_bytes. Qed.

Lemma parses_u8 b : byte_ok b -> parses u8 [b] b.
Proof.
  intros Hb. replace b with (from_le_bytes [b]) at 2 by (cbn; lia).
  apply (parses_map _ from_le_bytes). by apply parses_take.
Qed.
Lemma parses_u32 z : uint 32 z -> parses u32_le (to_le_bytes 4 z) z.
Proof.
  intros Hz. rewrite <- (from_to_le_bytes 4 z Hz) at 2.
  by apply (parses_map _ from_le_bytes), parses_take.
Qed.

Lemma as_signed_wrapping w z : 0 < w -> - 2 ^ (w - 1) <= z < 2 ^ (w - 1) ->
  as_signed w (z mod 2 ^ w) = z.
Proof.
  intros Hw Hz. assert (2 ^ w = 2 * 2 ^ (w - 1)) as Hp
    by (rewrite <- Z.pow_succ_r by lia; f_equal; lia).
  unfold as_signed. destruct (Z.lt_ge_cases z 0) as [Hneg|Hpos].
  - rewrite <- (Z.mod_add z 1), Z.mod_small by lia.
    rewrite (proj2 (Z.ltb_ge _ _)) by lia. lia.
  - rewrite Z.mod_small by lia. by rewrite (proj2 (Z.ltb_lt _ _)) by lia.
Qed.

Lemma parses_i32 z : - 2 ^ 31 <= z < 2 ^ 31 -> parses i32_le (to_le_bytes 4 (z mod 2 ^ 32)) z.
Proof.
  intros Hz. rewrite <- (as_signed_wrapping 32 z) at 2 by (done || lia).
  rewrite <- (from_to_le_bytes 4 (z mod 2 ^ 32)) at 2 by (apply Z.mod_pos_bound; lia).
  by apply (parses_map _ (fun bs => as_signed 32 (from_le_bytes bs))), parses_take.
Qed.
Lemma parses_i64 z : - 2 ^ 63 <= z < 2 ^ 63 -> parses i64_le (to_le_bytes 8 (z mod 2 ^ 64)) z.
Proof.
  intros Hz. rewrite <- (as_signed_wrapping 64 z) at 2 by (done || lia).
  rewrite <- (from_to_le_bytes 8 (z mod 2 ^ 64)) at 2 by (apply Z.mod_pos_bound; lia).
  by apply (parses_map _ (fun bs => as_signed 64 (from_le_bytes bs))), parses_take.
Qed.

Lemma parses_lift {A} (x : result A DecodeError) a : x = Ok a -> parses (plift x) [] a.
Proof. intros ->. apply parses_ret. Qed.

Lemma parses_cons {A B} (p : P A) (k : A -> P B) x e a b :
  parses p [x] a -> parses (k a) e b -> parses (pbind p k) (x :: e) b.
Proof. apply (parses_bind p k [x] e). Qed.

Lemma parses_le n (k : Z -> P Z) z v :
  uint (8 * Z.of_nat n) z -> parses (k z) [] v ->
  parses (let* bs := array (Z.of_nat n) in k (from_le_bytes bs)) (to_le_bytes n z) v.
Proof.
  intros Hz Hk. rewrite <- (app_nil_r (to_le_bytes n z)).
  apply (parses_bind _ _ _ _ (to_le_bytes n z)); [apply parses_take, len_le|].
  by rewrite from_to_le_bytes.
Qed.

(** The reader accepts what the writer produces, up to the protocol maximum. *)
Lemma parses_compact_size n :
  0 <= n <= MAX_COMPACT_SIZE -> parses compact_size (write_compact_size n) n.
Proof.
  intros Hn. unfold MAX_COMPACT_SIZE in Hn. unfold compact_size.
  assert (Hend : forall m, 0 <= m <= MAX_COMPACT_SIZE -> parses (compact_check m) [] m).
  { intros m Hm. unfold compact_check, MAX_COMPACT_SIZE in *. rewrite (proj2 (Z.ltb_ge _ _)) by lia.
    apply parses_lift. unfold try_narrow. by rewrite (proj2 (Z.ltb_lt _ _)) by lia. }
  unfold write_compact_size, umax.
  assert (Hcan : forall z m, m <= z -> canonical z m = Ok z).
  { intros z m Hz. unfold canonical. by rewrite (proj2 (Z.ltb_ge _ _)) by lia. }
  destruct (n <? 253) eqn:E1; zbool; [|destruct (n <=? 2 ^ 16 - 1) eqn:E2; zbool;
    [|rewrite (proj2 (Z.leb_le n (2 ^ 32 - 1))) by lia]].
  - eapply parses_cons; [apply parses_u8; unfold byte_ok; lia|].
    unfold compact_value. rewrite (proj2 (Z.leb_le _ _)) by lia. change [] with ([] ++ [] : list Z).
    eapply parses_bind; [apply parses_ret|apply Hend; unfold MAX_COMPACT_SIZE; lia].
  - eapply parses_cons; [apply parses_u8; unfold byte_ok; lia|]. unfold compact_value; cbn [Z.leb Z.eqb].
    rewrite <- (app_nil_r (to_le_bytes 2 n)). eapply parses_bind; [|apply Hend; unfold MAX_COMPACT_SIZE; lia].
    apply (parses_le 2 (fun z => plift (canonical z 253))); [unfold uint; lia|]. by apply parses_lift, Hcan.
  - eapply parses_cons; [apply parses_u8; unfold byte_ok; lia|]. unfold compact_value; cbn [Z.leb Z.eqb].
    rewrite <- (app_nil_r (to_le_bytes 4 n)). eapply parses_bind; [|apply Hend; unfold MAX_COMPACT_SIZE; lia].
    apply (parses_le 4 (fun z => plift (canonical z 0x10000))); [unfold uint; lia|]. apply parses_lift, Hcan; lia.
Qed.

Lemma parses_var_bytes l :
  len l <= MAX_COMPACT_SIZE -> parses var_bytes (write_compact_size (len l) ++ l) l.
Proof.
  intros Hl. pose proof (len_nonneg l).
  eapply parses_bind; [by apply parses_compact_size|by apply parses_take].
Qed.

Lemma parses_repeat {A} (read : P A) encs vs :
  Forall2 (parses read) encs vs -> parses (repeat_read (length vs) read) (concat encs) vs.
Proof.
  induction 1 as [|e v encs vs Hv _ IH]; [apply parses_ret|]. cbn [length repeat_read concat].
  eapply parses_bind; [done|]. by apply (parses_map _ (fun rest => v :: rest)).
Qed.

Lemma len_concat_ge m encs :
  Forall (fun e => m <= len e) encs -> Z.of_nat (length encs) * m <= len (concat encs).
Proof.
  induction 1 as [|e encs He _ IH]; [unfold len; cbn; lia|].
  cbn [concat length]. rewrite len_app. lia.
Qed.

Lemma parses_vector {A} min_item (read : P A) encs vs :
  Forall2 (parses read) encs vs -> Forall (fun e => min_item <= len e) encs ->
  Z.of_nat (length vs) <= MAX_COMPACT_SIZE -> 0 <= min_item < 2 ^ 32 ->
  parses (vector min_item read) (write_compact_size (Z.of_nat (length vs)) ++ concat encs) vs.
Proof.
  intros Hall Hmin Hn Hmi pre rest Hlen. unfold vector, pbind.
  pose proof (Forall2_length _ _ _ Hall) as Hl.
  set (n := Z.of_nat (length vs)) in *. set (cs := write_compact_size n) in *.
  rewrite <- app_assoc in *.
  pose proof (parses_compact_size n ltac:(lia) pre (concat encs ++ rest)) as Hcs. fold cs in Hcs.
  rewrite (Hcs Hlen).
  unfold plift. unfold checked_mul. unfold MAX_COMPACT_SIZE in Hn.
  rewrite (proj2 (Z.ltb_lt (n * min_item) _)) by nia. cbn [ok_or]. unfold pread.
  pose proof (len_concat_ge _ _ Hmin) as Hc. rewrite Hl in Hc. fold n in Hc.
  pose proof (len_nonneg rest). pose proof (len_nonneg cs).
  rewrite (proj2 (Z.ltb_ge _ _)).
  - pose proof (parses_repeat read encs vs Hall (pre ++ cs) rest) as Hp.
    rewrite <- !app_assoc, !len_app in *. fold cs. unfold n. rewrite Nat2Z.id, Hp by lia.
    do 2 f_equal. f_equal. lia.
  - unfold remaining. cbn [bytes position]. rewrite !len_app. fold cs. lia.
Qed.

(** ** Staying inside the input *)
Definition in_range (r : Reader) : Prop := 0 <= position r <= len (bytes r).

Definition bounded {A} (p : P A) : Prop := forall r v r',
  in_range r -> Forall byte_ok (bytes r) -> p r = Ok (v, r') -> bytes r' = bytes r /\ in_range r' /\ position r <= position r'.

Lemma bounded_ret {A} (a : A) : bounded (pret a).
Proof. intros r v r' Hr _ [= _ <-]. split_and!; [done..|lia]. Qed.
Lemma bounded_fail {A} e : bounded (pfail e : P A).
Proof. done. Qed.
Lemma bounded_lift {A} (x : result A DecodeError) : bounded (plift x).
Proof. intros r v r' Hr _. unfold plift. destruct x; [|done]. intros [= _ <-]. split_and!; [done..|lia]. Qed.
Lemma bounded_read {A} (f : Reader -> A) : bounded (pread f).
Proof. intros r v r' Hr _ [= _ <-]. split_and!; [done..|lia]. Qed.
Lemma bounded_bind {A B} (p : P A) (k : A -> P B) :
  bounded p -> (forall a, bounded (k a)) -> bounded (pbind p k).
Proof.
  intros Hp Hk r v r' Hr Hby. unfold pbind. destruct (p r) as [[a r1]|] eqn:Ha; [|done].
  intros Hb. destruct (Hp r a r1 Hr Hby Ha) as (E1 & H1 & ?).
  destruct (Hk a r1 v r' H1 ltac:(by rewrite E1) Hb) as (E2 & H2 & ?). split_and!; [congruence|done|lia].
Qed.

Lemma take_bytes_Ok n r v r' :
  take_bytes n r = Ok (v, r') ->
  v = slice (bytes r) (position r) (position r + n) /\
  r' = mkReader (bytes r) (position r + n) /\ position r + n <= len (bytes r).
Proof.
  unfold take_bytes. destruct (checked_add 64 (position r) n) as [e|] eqn:He; [|done].
  apply checked_add_Some in He as [-> _]. destruct (_ <=? _) eqn:Hl; [|done]. zbool.
  intros [= <- <-]. done.
Qed.

Lemma bounded_take n : 0 <= n -> bounded (take_bytes n).
Proof.
  intros Hn r v r' Hr _ (_ & -> & Hle)%take_bytes_Ok. unfold in_range in *. cbn.
  split_and!; [done|lia..].
Qed.

Create HintDb parse discriminated.
#[export] Hint Resolve bounded_ret bounded_fail bounded_lift bounded_read : parse.
#[export] Hint Extern 1 (bounded (take_bytes _)) => apply bounded_take; lia : parse.
#[export] Hint Extern 1 (bounded (array _)) => apply bounded_take; lia : parse.
#[export] Hint Extern 2 (bounded (pbind _ _)) => apply bounded_bind; [|intros] : parse.

Lemma bounded_skip n : 0 <= n -> bounded (skip n).
Proof. intros. unfold skip. auto with parse. Qed.
Lemma bounded_u8 : bounded u8.
Proof. unfold u8. auto with parse. Qed.
Lemma bounded_u32 : bounded u32_le.
Proof. unfold u32_le. auto with parse. Qed.
Lemma bounded_i64 : bounded i64_le.
Proof. unfold i64_le. auto with parse. Qed.
Lemma bounded_i32 : bounded i32_le.
Proof. unfold i32_le. auto with parse. Qed.
#[export] Hint Extern 1 (bounded (skip _)) => apply bounded_skip; lia : parse.
#[export] Hint Resolve bounded_u8 bounded_u32 bounded_i64 bounded_i32 : parse.

Lemma slice_split l a b c :
  0 <= a <= b -> b <= c -> slice l a b ++ slice l b c = slice l a c.
Proof.
  intros Hab Hbc. unfold slice.
  replace (Z.to_nat (c - a)) with (Z.to_nat (b - a) + Z.to_nat (c - b))%nat by lia.
  rewrite <- take_take_drop, drop_drop. do 3 f_equal. lia.
Qed.

Lemma len_slice l a b : 0 <= a <= b -> b <= len l -> len (slice l a b) = b - a.
Proof. intros. unfold slice, len in *. rewrite length_take, length_drop. lia. Qed.

Lemma slice_bytes l a b : Forall byte_ok l -> Forall byte_ok (slice l a b).
Proof. intros. by apply Forall_take, Forall_drop. Qed.

(** What a little-endian read of [n] bytes consumed. *)
Lemma array_Ok n r bs r' :
  in_range r -> Forall byte_ok (bytes r) -> array (Z.of_nat n) r = Ok (bs, r') ->
  bytes r' = bytes r /\ position r' = position r + Z.of_nat n /\ in_range r' /\
  slice (bytes r) (position r) (position r') = to_le_bytes n (from_le_bytes bs) /\
  uint (8 * Z.of_nat n) (from_le_bytes bs).
Proof.
  intros Hr Hb (-> & -> & Hle)%take_bytes_Ok. unfold in_range in *. cbn [bytes position].
  set (bs := slice _ _ _). assert (len bs = Z.of_nat n) as Hlen.
  { unfold bs. rewrite len_slice by lia. lia. }
  assert (Forall byte_ok bs) as Hbs by by apply slice_bytes.
  assert (length bs = n) as Hn by (unfold len in Hlen; lia).
  split_and!; [done..|lia|done| |].
  - rewrite <- Hn at 1. by rewrite to_from_le_bytes.
  - rewrite <- Hn at 1. by apply from_le_bytes_bound.
Qed.

(** A long form: the flag, then the value on [n] bytes. *)
Lemma compact_tail_Ok n (minimum : Z) r v r' :
  in_range r -> Forall byte_ok (bytes r) ->
  (let* bs := array (Z.of_nat n) in plift (canonical (from_le_bytes bs) minimum)) r = Ok (v, r') ->
  bytes r' = bytes r /\ position r <= position r' /\ minimum <= v /\ uint (8 * Z.of_nat n) v /\
  slice (bytes r) (position r) (position r') = to_le_bytes n v.
Proof.
  intros Hr Hb. unfold pbind. destruct (array (Z.of_nat n) r) as [[bs r1]|] eqn:Ha; [|done].
  destruct (array_Ok n r bs r1 Hr Hb Ha) as (Eb & Ep & _ & Hs & Hu).
  unfold plift, canonical. destruct (_ <? _) eqn:Hc; [done|]. zbool. intros [= <- <-].
  split_and!; [done|lia|done..].
Qed.

Lemma compact_size_Ok r n r' :
  in_range r -> Forall byte_ok (bytes r) -> compact_size r = Ok (n, r') ->
  bytes r' = bytes r /\ 0 <= n <= MAX_COMPACT_SIZE /\
  slice (bytes r) (position r) (position r') = write_compact_size n.
Proof.
  intros Hr Hb. unfold compact_size, pbind at 1. destruct (u8 r) as [[flag r1]|] eqn:Hu; [|done].
  assert (bytes r1 = bytes r /\ position r1 = position r + 1 /\ in_range r1 /\ byte_ok flag /\
    slice (bytes r) (position r) (position r1) = [flag]) as (E1 & Ep1 & Hr1 & Hf & Hs1).
  { unfold u8, pbind in Hu. destruct (array 1 r) as [[bs r2]|] eqn:Ha; [|done].
    injection Hu as <- <-. destruct (array_Ok 1 r bs r2 Hr Hb Ha) as (? & ? & ? & Hs & Hu).
    unfold uint, byte_ok in *. split_and!; [done|done|done|lia|lia|]. rewrite Hs. cbn.
    rewrite Z.mod_small by lia. done. }
  unfold pbind at 1. destruct (compact_value flag r1) as [[v r2]|] eqn:Hv; [|done].
  assert (Htail : 0 <= v -> compact_check v r2 = Ok (n, r') ->
    n = v /\ r' = r2 /\ 0 <= n <= MAX_COMPACT_SIZE).
  { intros Hv0. unfold compact_check. destruct (_ <? _) eqn:Hm; [done|]. zbool.
    unfold plift, try_narrow.
    destruct (_ <? _); cbn; [|done]. intros [= <- <-]. split_and!; (done || lia). }
  assert (Hjoin : forall t, bytes r2 = bytes r1 -> position r1 <= position r2 ->
    slice (bytes r1) (position r1) (position r2) = t ->
    slice (bytes r) (position r) (position r2) = flag :: t).
  { intros t _ Hp <-. rewrite <- (slice_split _ (position r) (position r1)) by (unfold in_range in Hr; lia).
    by rewrite Hs1, E1. }
  unfold byte_ok in Hf. unfold compact_value in Hv.
  destruct (flag <=? 252) eqn:F1; zbool.
  - injection Hv as <- <-. intros (-> & -> & ?)%Htail; [|lia].
    split_and!; [done|lia|lia|]. rewrite Hs1. unfold write_compact_size.
    by rewrite (proj2 (Z.ltb_lt _ _)) by lia.
  - destruct (flag =? 253) eqn:F2; [|destruct (flag =? 254) eqn:F3]; zbool.
    + apply (compact_tail_Ok 2 253) in Hv as (E2 & ? & ? & ? & Hs2); [|done|by rewrite E1].
      intros (-> & -> & ?)%Htail; [|lia]. split_and!; [congruence|lia|lia|].
      rewrite (Hjoin _ E2 ltac:(lia) Hs2). unfold write_compact_size, uint, umax in *.
      rewrite (proj2 (Z.ltb_ge _ _)), (proj2 (Z.leb_le _ _)) by lia. by subst flag.
    + apply (compact_tail_Ok 4 0x10000) in Hv as (E2 & ? & ? & ? & Hs2); [|done|by rewrite E1].
      intros (-> & -> & ?)%Htail; [|lia]. split_and!; [congruence|lia|lia|].
      rewrite (Hjoin _ E2 ltac:(lia) Hs2). unfold write_compact_size, uint, umax in *.
      rewrite (proj2 (Z.ltb_ge _ _)) by lia. rewrite (proj2 (Z.leb_gt v (2 ^ 16 - 1))) by lia.
      rewrite (proj2 (Z.leb_le _ _)) by lia. by subst flag.
    + apply (compact_tail_Ok 8 0x100000000) in Hv as (E2 & ? & ? & ? & Hs2); [|done|by rewrite E1].
      intros (-> & -> & ?)%Htail; [|lia]. unfold MAX_COMPACT_SIZE in *. lia.
Qed.

Lemma bounded_compact_size : bounded compact_size.
Proof.
  unfold compact_size, compact_check. apply bounded_bind; [auto with parse|]. intros flag.
  apply bounded_bind; [|intros v; destruct (_ <? _); auto with parse].
  unfold compact_value. destruct (_ <=? _); [auto with parse|].
  destruct (_ =? 253); [|destruct (_ =? 254)]; auto with parse.
Qed.
#[export] Hint Resolve bounded_compact_size : parse.

Lemma bounded_var_bytes : bounded var_bytes.
Proof.
  intros r v r' Hr Hb. unfold var_bytes, pbind. destruct (compact_size r) as [[n r1]|] eqn:Hc; [|done].
  destruct (bounded_compact_size r n r1 Hr Hb Hc) as (E1 & Hr1 & ?).
  apply compact_size_Ok in Hc as (_ & [Hn _] & _); [|done..]. intros Ht.
  destruct (bounded_take n Hn r1 v r' Hr1 ltac:(by rewrite E1) Ht) as (E2 & ? & ?).
  split_and!; [congruence|done|lia].
Qed.
#[export] Hint Resolve bounded_var_bytes : parse.

Lemma bounded_repeat {A} n (read : P A) : bounded read -> bounded (repeat_read n read).
Proof. intros Hread. induction n as [|n IH]; cbn [repeat_read]; auto with parse. Qed.
Lemma bounded_vector {A} m (read : P A) : bounded read -> bounded (vector m read).
Proof.
  intros Hread. unfold vector. apply bounded_bind; [auto with parse|]. intros n.
  apply bounded_bind; [auto with parse|]. intros needed. apply bounded_bind; [auto with parse|].
  intros a. destruct (_ <? _); [auto with parse|by apply bounded_repeat].
Qed.
#[export] Hint Resolve bounded_vector : parse.

Lemma bounded_spanned {A B} (p : P A) (f : A -> list Z -> B) : bounded p -> bounded (spanned p f).
Proof. intros Hp. unfold spanned. auto with parse. Qed.
#[export] Hint Resolve bounded_spanned : parse.

(** The reader and the writer of compact sizes are exact inverses:
    what is written for a count up to the protocol maximum is read back as that
    count, and whatever the reader accepts is the canonical encoding of the
    count it answers, so no count has two accepted encodings. *)
Theorem compact_size_exact :
  (forall n, 0 <= n <= MAX_COMPACT_SIZE -> parses compact_size (write_compact_size n) n) /\
  (forall r n r', in_range r -> Forall byte_ok (bytes r) -> compact_size r = Ok (n, r') ->
     0 <= n <= MAX_COMPACT_SIZE /\
     slice (bytes r) (position r) (position r') = write_compact_size n).
Proof.
  split; [apply parses_compact_size|].
  intros r n r' Hr Hb Hc. by apply compact_size_Ok in Hc as (_ & ? & ?).
Qed.

Lemma compact_size_exact_witness :
  compact_size (mkReader [253; 253; 0; 7] 0) = Ok (253, mkReader [253; 253; 0; 7] 3) /\
  slice [253; 253; 0; 7] 0 3 = write_compact_size 253.
Proof.
  split.
  - apply (proj1 compact_size_exact 253 ltac:(split; vm_compute; discriminate) [] [7]).
    vm_compute. reflexivity.
  - apply (proj2 compact_size_exact (mkReader [253; 253; 0; 7] 0) 253
      (mkReader [253; 253; 0; 7] 3)).
    + split; vm_compute; discriminate.
    + repeat constructor; vm_compute; discriminate.
    + vm_compute. reflexivity.
Defined.

End Reader.
