(* ===== verification/BlockDecode.v ===== *)
(** * The block decoder
    ([packages/zaino-block-decode/src]: [transaction.rs], [txid.rs],
    [header.rs], [project.rs], [lib.rs])

    The walk over one transaction's consensus encoding for every version, the
    transaction id, the header and its coinbase height, the projection to the
    domain block, and the two entry points.  SHA-256 and BLAKE2b are parameters:
    nothing proved here depends on what they compute. *)

From S2P Require Import Prelude Primitives Difficulty Types Reader.
From stdpp Require Import base list strings.
From Stdlib Require Import ZArith Lia Ascii.
Open Scope Z_scope.

Module BlockDecode.
Import Reader.
Open Scope parse_scope.

(** ** [transaction.rs] *)
Definition OVERWINTER_FLAG : Z := Z.shiftl 1 31.
Definition V3_VERSION_GROUP_ID : Z := 0x03C48270.
Definition V4_VERSION_GROUP_ID : Z := 0x892F2085.
Definition V5_VERSION_GROUP_ID : Z := 0x26A7270A.
Definition V6_VERSION_GROUP_ID : Z := 0xD884B698.

Definition GROTH_PROOF : Z := 192.
Definition PHGR_PROOF : Z := 296.
Definition SIGNATURE : Z := 64.
Definition JOINSPLIT_WITHOUT_PROOF : Z := 8 + 8 + 32 + 64 + 64 + 32 + 32 + 64 + 2 * 601.
Definition ENC_CIPHERTEXT : Z := 580.
Definition OUT_CIPHERTEXT : Z := 80.
Definition MIN_INPUT : Z := 32 + 4 + 1 + 4.
Definition MIN_OUTPUT : Z := 8 + 1.
Definition SAPLING_SPEND_V4 : Z := 32 + 32 + 32 + 32 + GROTH_PROOF + SIGNATURE.
Definition SAPLING_OUTPUT_V4 : Z := 32 + 32 + 32 + ENC_CIPHERTEXT + OUT_CIPHERTEXT + GROTH_PROOF.
Definition SAPLING_SPEND_V5 : Z := 32 + 32 + 32.
Definition SAPLING_OUTPUT_V5 : Z := 32 + 32 + 32 + ENC_CIPHERTEXT + OUT_CIPHERTEXT.
Definition ORCHARD_ACTION : Z := 32 * 5 + ENC_CIPHERTEXT + OUT_CIPHERTEXT.

Inductive Version := Sprout (v : Z) | V3 | V4 | V5 | V6.
Global Instance Version_eq_dec : EqDecision Version.
Proof. solve_decision. Defined.

Definition has_sprout (v : Version) : bool :=
  match v with
  | Sprout v => 2 <=? v
  | V3 | V4 => true
  | V5 | V6 => false
  end.
Definition header_word (v : Version) : Z :=
  match v with
  | Sprout v => v
  | V3 => Z.lor OVERWINTER_FLAG 3
  | V4 => Z.lor OVERWINTER_FLAG 4
  | V5 => Z.lor OVERWINTER_FLAG 5
  | V6 => Z.lor OVERWINTER_FLAG 6
  end.
Definition version_group_id (v : Version) : Z :=
  match v with
  | Sprout _ => 0
  | V3 => V3_VERSION_GROUP_ID
  | V4 => V4_VERSION_GROUP_ID
  | V5 => V5_VERSION_GROUP_ID
  | V6 => V6_VERSION_GROUP_ID
  end.

Record RawInput := mkRawInput {
  prevout_hash : list Z; prevout_index : Z; script_sig : list Z; sequence : Z }.
Record RawOutput := mkRawOutput { ro_value : list Z; ro_script : list Z }.
Record RawSaplingSpend := mkRawSpend { sp_cv : list Z; sp_nullifier : list Z; sp_rk : list Z }.
Record RawSaplingOutput := mkRawSaplingOutput {
  so_cv : list Z; so_cmu : list Z; so_ephemeral_key : list Z;
  so_enc_ciphertext : list Z; so_out_ciphertext : list Z }.
Record RawSapling := mkRawSapling {
  sap_spends : list RawSaplingSpend;
  sap_outputs : list RawSaplingOutput;
  sap_value_balance : Z;
  sap_anchor : option (list Z) }.
Record RawAction := mkRawAction {
  a_cv : list Z; a_nullifier : list Z; a_rk : list Z; a_cmx : list Z; a_ephemeral_key : list Z;
  a_enc_ciphertext : list Z; a_out_ciphertext : list Z }.
Record RawOrchardBundle := mkRawBundle {
  b_actions : list RawAction; b_flags : Z; b_value_balance : Z; b_anchor : list Z }.
Record RawTransaction := mkRawTransaction {
  version : Version;
  consensus_branch_id : Z;
  lock_time : Z;
  expiry_height : Z;
  raw_inputs : list RawInput;
  raw_outputs : list RawOutput;
  raw_sapling : RawSapling;
  raw_orchard : option RawOrchardBundle;
  raw_ironwood : option RawOrchardBundle;
  raw_bytes : list Z }.

Definition with_bytes (t : RawTransaction) (bs : list Z) : RawTransaction :=
  mkRawTransaction (version t) (consensus_branch_id t) (lock_time t) (expiry_height t)
    (raw_inputs t) (raw_outputs t) (raw_sapling t) (raw_orchard t) (raw_ironwood t) bs.

Definition is_nil {A} (l : list A) : bool := match l with [] => true | _ => false end.

Definition is_coinbase (i : RawInput) : bool :=
  bool_decide (prevout_hash i = replicate 32 0) && (prevout_index i =? umax 32).
Definition sapling_is_empty (s : RawSapling) : bool :=
  is_nil (sap_spends s) && is_nil (sap_outputs s).
Definition sapling_default : RawSapling := mkRawSapling [] [] 0 None.

Definition read_input : P RawInput :=
  let* hash := array 32 in
  let* index := u32_le in
  let* script := var_bytes in
  let* seq := u32_le in
  pret (mkRawInput hash index script seq).

Definition read_output : P RawOutput :=
  let* value := array 8 in
  let* script := var_bytes in
  pret (mkRawOutput value script).

Definition read_spend_v4 : P RawSaplingSpend :=
  let* cv := array 32 in
  let* _ := skip 32 in
  let* nullifier := array 32 in
  let* rk := array 32 in
  let* _ := skip (GROTH_PROOF + SIGNATURE) in
  pret (mkRawSpend cv nullifier rk).

Definition read_sapling_output_fields : P RawSaplingOutput :=
  let* cv := array 32 in
  let* cmu := array 32 in
  let* epk := array 32 in
  let* enc := take_bytes ENC_CIPHERTEXT in
  let* out := take_bytes OUT_CIPHERTEXT in
  pret (mkRawSaplingOutput cv cmu epk enc out).

Definition read_output_v4 : P RawSaplingOutput :=
  let* output := read_sapling_output_fields in
  let* _ := skip GROTH_PROOF in
  pret output.

Definition read_sapling_v4 : P RawSapling :=
  let* value_balance := i64_le in
  let* spends := vector SAPLING_SPEND_V4 read_spend_v4 in
  let* outputs := vector SAPLING_OUTPUT_V4 read_output_v4 in
  pret (mkRawSapling spends outputs value_balance None).

Definition read_spend_v5 : P RawSaplingSpend :=
  let* cv := array 32 in
  let* nullifier := array 32 in
  let* rk := array 32 in
  pret (mkRawSpend cv nullifier rk).

Definition count {A} (l : list A) : Z := Z.of_nat (length l).

Definition read_sapling_v5 : P RawSapling :=
  let* spends := vector SAPLING_SPEND_V5 read_spend_v5 in
  let* outputs := vector SAPLING_OUTPUT_V5 read_sapling_output_fields in
  let any := negb (is_nil spends && is_nil outputs) in
  let* value_balance := if any then i64_le else pret 0 in
  let* anchor :=
    if is_nil spends then pret None else let* a := array 32 in pret (Some a) in
  let* _ := skip (count spends * (GROTH_PROOF + SIGNATURE)) in
  let* _ := skip (count outputs * GROTH_PROOF) in
  let* _ := if any then skip SIGNATURE else pret tt in
  pret (mkRawSapling spends outputs value_balance anchor).

Definition read_action : P RawAction :=
  let* cv := array 32 in
  let* nullifier := array 32 in
  let* rk := array 32 in
  let* cmx := array 32 in
  let* epk := array 32 in
  let* enc := take_bytes ENC_CIPHERTEXT in
  let* out := take_bytes OUT_CIPHERTEXT in
  pret (mkRawAction cv nullifier rk cmx epk enc out).

Definition read_orchard_bundle : P (option RawOrchardBundle) :=
  let* actions := vector ORCHARD_ACTION read_action in
  if is_nil actions then pret None
  else
    let* flags := u8 in
    let* value_balance := i64_le in
    let* anchor := array 32 in
    let* _ := var_bytes in
    let* _ := skip (count actions * SIGNATURE) in
    let* _ := skip SIGNATURE in
    pret (Some (mkRawBundle actions flags value_balance anchor)).

Definition skip_joinsplits (groth : bool) : P unit :=
  let* n := compact_size in
  let proof := if groth then GROTH_PROOF else PHGR_PROOF in
  let* size := plift (ok_or (checked_mul 64 n (JOINSPLIT_WITHOUT_PROOF + proof))
                        (CompactSizeTooLarge (umax 64))) in
  let* _ := skip size in
  if 0 <? n then skip (32 + SIGNATURE) else pret tt.

Definition read_v4_format (version : Version) : P RawTransaction :=
  let* inputs := vector MIN_INPUT read_input in
  let* outputs := vector MIN_OUTPUT read_output in
  let* lock_time := u32_le in
  let* expiry_height := match version with Sprout _ => pret 0 | _ => u32_le end in
  let* sapling := match version with V4 => read_sapling_v4 | _ => pret sapling_default end in
  let* _ := if has_sprout version then skip_joinsplits (bool_decide (version = V4)) else pret tt in
  let* _ := if bool_decide (version = V4) && negb (sapling_is_empty sapling)
            then skip SIGNATURE else pret tt in
  pret (mkRawTransaction version 0 lock_time expiry_height inputs outputs sapling None None []).

Definition read_v5_format (version : Version) (with_ironwood : bool) : P RawTransaction :=
  let* branch := u32_le in
  let* lock_time := u32_le in
  let* expiry_height := u32_le in
  let* inputs := vector MIN_INPUT read_input in
  let* outputs := vector MIN_OUTPUT read_output in
  let* sapling := read_sapling_v5 in
  let* orchard := read_orchard_bundle in
  let* ironwood := if with_ironwood then read_orchard_bundle else pret None in
  pret (mkRawTransaction version branch lock_time expiry_height inputs outputs sapling
          orchard ironwood []).

(** The version word, and the group id that follows an overwintered one. *)
Definition read_version : P Version :=
  let* header := u32_le in
  if negb (Z.land header OVERWINTER_FLAG =? 0) then
    let* group := u32_le in
    let v := Z.land header (umax 32 - OVERWINTER_FLAG) in
    if (v =? 3) && (group =? V3_VERSION_GROUP_ID) then pret V3
    else if (v =? 4) && (group =? V4_VERSION_GROUP_ID) then pret V4
    else if (v =? 5) && (group =? V5_VERSION_GROUP_ID) then pret V5
    else if (v =? 6) && (group =? V6_VERSION_GROUP_ID) then pret V6
    else pfail (UnknownTransactionVersion header (Some group))
  else if (header =? 1) || (header =? 2) then pret (Sprout header)
  else pfail (UnknownTransactionVersion header None).

Definition read_body (version : Version) : P RawTransaction :=
  match version with
  | Sprout _ | V3 | V4 => read_v4_format version
  | V5 => read_v5_format version false
  | V6 => read_v5_format version true
  end.

Definition read_transaction : P RawTransaction :=
  spanned (let* version := read_version in read_body version) with_bytes.

(** ** [txid.rs] *)
Section Hashes.
Context (sha256 : list Z -> list Z) (blake2b_256 : list Z -> list Z -> list Z).

Fixpoint ascii_bytes (s : string) : list Z :=
  match s with
  | EmptyString => []
  | String c s => Z.of_nat (nat_of_ascii c) :: ascii_bytes s
  end.

Definition sha256d (bs : list Z) : list Z := sha256 (sha256 bs).

(** A streaming BLAKE2b state: the personalisation and what was fed so far. *)
Record State := mkState { personal : list Z; fed : list Z }.
Definition hasher (p : list Z) : State := mkState p [].
Definition update (st : State) (bs : list Z) : State := mkState (personal st) (fed st ++ bs).
Definition finish (st : State) : list Z := blake2b_256 (personal st) (fed st).
Definition updates (st : State) (parts : list (list Z)) : State := fold_left update parts st.

Definition TX_PERSONALISATION_PREFIX : list Z := ascii_bytes "ZcashTxHash_".
Definition HEADERS : list Z := ascii_bytes "ZTxIdHeadersHash".
Definition TRANSPARENT : list Z := ascii_bytes "ZTxIdTranspaHash".
Definition PREVOUTS : list Z := ascii_bytes "ZTxIdPrevoutHash".
Definition SEQUENCE : list Z := ascii_bytes "ZTxIdSequencHash".
Definition OUTPUTS : list Z := ascii_bytes "ZTxIdOutputsHash".
Definition SAPLING : list Z := ascii_bytes "ZTxIdSaplingHash".
Definition SAPLING_SPENDS : list Z := ascii_bytes "ZTxIdSSpendsHash".
Definition SAPLING_SPENDS_COMPACT : list Z := ascii_bytes "ZTxIdSSpendCHash".
Definition SAPLING_SPENDS_NONCOMPACT_V5 : list Z := ascii_bytes "ZTxIdSSpendNHash".
Definition SAPLING_SPENDS_NONCOMPACT_V6 : list Z := ascii_bytes "ZTxIdSSpendNH_v6".
Definition SAPLING_OUTPUTS : list Z := ascii_bytes "ZTxIdSOutputHash".
Definition SAPLING_OUTPUTS_COMPACT : list Z := ascii_bytes "ZTxIdSOutC__Hash".
Definition SAPLING_OUTPUTS_MEMOS : list Z := ascii_bytes "ZTxIdSOutM__Hash".
Definition SAPLING_OUTPUTS_NONCOMPACT : list Z := ascii_bytes "ZTxIdSOutN__Hash".

Record BundlePersonalisation := mkBundlePersonalisation {
  bundle : list Z;
  actions_compact : list Z;
  actions_memos : list Z;
  actions_noncompact : list Z;
  anchor_in_id : bool }.
Definition ORCHARD_V5 : BundlePersonalisation :=
  mkBundlePersonalisation (ascii_bytes "ZTxIdOrchardHash") (ascii_bytes "ZTxIdOrcActCHash")
    (ascii_bytes "ZTxIdOrcActMHash") (ascii_bytes "ZTxIdOrcActNHash") true.
Definition ORCHARD_V6 : BundlePersonalisation :=
  mkBundlePersonalisation (ascii_bytes "ZTxIdOrchardH_v6") (ascii_bytes "ZTxIdOrcActCHash")
    (ascii_bytes "ZTxIdOrcActMHash") (ascii_bytes "ZTxIdOrcActNHash") false.
Definition IRONWOOD_V6 : BundlePersonalisation :=
  mkBundlePersonalisation (ascii_bytes "ZTxIdIronwd_H_v6") (ascii_bytes "ZTxIdIrnActCH_v6")
    (ascii_bytes "ZTxIdIrnActMH_v6") (ascii_bytes "ZTxIdIrnActNH_v6") false.

Definition COMPACT_CIPHERTEXT : nat := 52.
Definition MEMO_END : nat := 564.

Definition header_digest (tx : RawTransaction) : list Z :=
  finish (updates (hasher HEADERS)
    [to_le_bytes 4 (header_word (version tx));
     to_le_bytes 4 (version_group_id (version tx));
     to_le_bytes 4 (consensus_branch_id tx);
     to_le_bytes 4 (lock_time tx);
     to_le_bytes 4 (expiry_height tx)]).

Definition transparent_digest (tx : RawTransaction) : list Z :=
  let h := hasher TRANSPARENT in
  finish
    (if negb (is_nil (raw_inputs tx) && is_nil (raw_outputs tx)) then
       let prevouts := fold_left (fun st i =>
         updates st [prevout_hash i; to_le_bytes 4 (prevout_index i)])
         (raw_inputs tx) (hasher PREVOUTS) in
       let sequences := fold_left (fun st i => updates st [to_le_bytes 4 (sequence i)])
         (raw_inputs tx) (hasher SEQUENCE) in
       let outputs := fold_left (fun st o =>
         updates st [ro_value o; write_compact_size (len (ro_script o)); ro_script o])
         (raw_outputs tx) (hasher OUTPUTS) in
       updates h [finish prevouts; finish sequences; finish outputs]
     else h).

Definition sapling_spends_digest (s : RawSapling) (v : Version) : list Z :=
  let h := hasher SAPLING_SPENDS in
  finish
    (if negb (is_nil (sap_spends s)) then
       let '(noncompact_personal, anchor) :=
         match v with
         | V6 => (SAPLING_SPENDS_NONCOMPACT_V6, None)
         | _ => (SAPLING_SPENDS_NONCOMPACT_V5, sap_anchor s)
         end in
       let compact := fold_left (fun st sp => updates st [sp_nullifier sp])
         (sap_spends s) (hasher SAPLING_SPENDS_COMPACT) in
       let noncompact := fold_left (fun st sp =>
         updates st ([sp_cv sp] ++ match anchor with Some a => [a] | None => [] end ++ [sp_rk sp]))
         (sap_spends s) (hasher noncompact_personal) in
       updates h [finish compact; finish noncompact]
     else h).

Definition sapling_outputs_digest (s : RawSapling) : list Z :=
  let h := hasher SAPLING_OUTPUTS in
  finish
    (if negb (is_nil (sap_outputs s)) then
       let compact := fold_left (fun st o =>
         updates st [so_cmu o; so_ephemeral_key o; take COMPACT_CIPHERTEXT (so_enc_ciphertext o)])
         (sap_outputs s) (hasher SAPLING_OUTPUTS_COMPACT) in
       let memos := fold_left (fun st o =>
         updates st [drop COMPACT_CIPHERTEXT (take MEMO_END (so_enc_ciphertext o))])
         (sap_outputs s) (hasher SAPLING_OUTPUTS_MEMOS) in
       let noncompact := fold_left (fun st o =>
         updates st [so_cv o; drop MEMO_END (so_enc_ciphertext o); so_out_ciphertext o])
         (sap_outputs s) (hasher SAPLING_OUTPUTS_NONCOMPACT) in
       updates h [finish compact; finish memos; finish noncompact]
     else h).

Definition sapling_digest (s : RawSapling) (v : Version) : list Z :=
  let h := hasher SAPLING in
  finish
    (if negb (sapling_is_empty s)
     then updates h [sapling_spends_digest s v; sapling_outputs_digest s;
                     to_le_bytes 8 (sap_value_balance s)]
     else h).

Definition orchard_digest (b : option RawOrchardBundle) (p : BundlePersonalisation) : list Z :=
  let h := hasher (bundle p) in
  match b with
  | None => finish h
  | Some b =>
      let compact := fold_left (fun st a =>
        updates st [a_nullifier a; a_cmx a; a_ephemeral_key a;
                    take COMPACT_CIPHERTEXT (a_enc_ciphertext a)])
        (b_actions b) (hasher (actions_compact p)) in
      let memos := fold_left (fun st a =>
        updates st [drop COMPACT_CIPHERTEXT (take MEMO_END (a_enc_ciphertext a))])
        (b_actions b) (hasher (actions_memos p)) in
      let noncompact := fold_left (fun st a =>
        updates st [a_cv a; a_rk a; drop MEMO_END (a_enc_ciphertext a); a_out_ciphertext a])
        (b_actions b) (hasher (actions_noncompact p)) in
      finish (updates h ([finish compact; finish memos; finish noncompact; [b_flags b];
        to_le_bytes 8 (b_value_balance b)] ++ if anchor_in_id p then [b_anchor b] else []))
  end.

Definition zip244 (tx : RawTransaction) (o : BundlePersonalisation)
    (ironwood : option BundlePersonalisation) : list Z :=
  let personal := TX_PERSONALISATION_PREFIX ++ to_le_bytes 4 (consensus_branch_id tx) in
  finish (updates (hasher personal)
    ([header_digest tx; transparent_digest tx; sapling_digest (raw_sapling tx) (version tx);
      orchard_digest (raw_orchard tx) o] ++
     match ironwood with Some i => [orchard_digest (raw_ironwood tx) i] | None => [] end)).

Definition transaction_id (tx : RawTransaction) : list Z :=
  match version tx with
  | Sprout _ | V3 | V4 => sha256d (raw_bytes tx)
  | V5 => zip244 tx ORCHARD_V5 None
  | V6 => zip244 tx ORCHARD_V6 (Some IRONWOOD_V6)
  end.

(** ** [header.rs] *)
Definition STANDARD_SOLUTION : Z := 1344.
Definition REGTEST_SOLUTION : Z := 36.

Record RawHeader := mkRawHeader {
  rh_version : Z; rh_prev_hash : list Z; rh_merkle_root : list Z; rh_commitments : list Z;
  rh_time : Z; rh_bits : Z; rh_nonce : list Z; rh_solution : list Z; rh_bytes : list Z }.

Definition read_header_fields : P RawHeader :=
  let* version := i32_le in
  let* prev_hash := array 32 in
  let* merkle_root := array 32 in
  let* commitments := array 32 in
  let* time := u32_le in
  let* bits := u32_le in
  let* nonce := array 32 in
  let* solution := var_bytes in
  pret (mkRawHeader version prev_hash merkle_root commitments time bits nonce solution []).
Definition header_with_bytes (h : RawHeader) (bs : list Z) : RawHeader :=
  mkRawHeader (rh_version h) (rh_prev_hash h) (rh_merkle_root h) (rh_commitments h) (rh_time h)
    (rh_bits h) (rh_nonce h) (rh_solution h) bs.
Definition read_header : P RawHeader := spanned read_header_fields header_with_bytes.

Definition project_header (raw : RawHeader) (height : Height) : result BlockHeader DecodeError :=
  let? solution :=
    if len (rh_solution raw) =? STANDARD_SOLUTION then Ok (Standard (rh_solution raw))
    else if len (rh_solution raw) =? REGTEST_SOLUTION then Ok (Regtest (rh_solution raw))
    else Err (Solution (len (rh_solution raw))) in
  let? version :=
    if rh_version raw <? 0 then Err (NegativeHeaderVersion (rh_version raw))
    else Ok (rh_version raw) in
  let? bits := map_err Difficulty (CompactDifficulty.try_from_bits (rh_bits raw)) in
  Ok (mkBlockHeader (sha256d (rh_bytes raw)) version (rh_prev_hash raw) height (rh_time raw)
        (rh_merkle_root raw) (rh_commitments raw) bits (rh_nonce raw) solution).

(** [canonical_push]: the minimal little-endian magnitude behind a length byte. *)
Fixpoint trim_zeros (rev_digits : list Z) : list Z :=
  match rev_digits with
  | 0 :: l => trim_zeros l
  | l => l
  end.
Definition canonical_push (height : Z) : list Z :=
  if (1 <=? height) && (height <=? 16) then [0x50 + height]
  else
    let digits := reverse (trim_zeros (reverse (to_le_bytes 8 height))) in
    let digits :=
      match last digits with
      | Some top => if negb (Z.land top 0x80 =? 0) then digits ++ [0] else digits
      | None => digits
      end in
    len digits :: digits.

Definition coinbase_height (prev_hash script_sig : list Z) : result Height DecodeError :=
  if bool_decide (prev_hash = replicate 32 0) then Ok Height.GENESIS
  else
    let? (height, push_len) :=
      match script_sig with
      | [] => Err (CoinbaseHeight "empty coinbase script")
      | op :: rest =>
          if (0x51 <=? op) && (op <=? 0x60) then Ok (op - 0x50, 1)
          else if (1 <=? op) && (op <=? 5) then
            if op <=? len rest
            then let digits := take (Z.to_nat op) rest in
                 Ok (from_le_bytes (digits ++ replicate (8 - length digits) 0), 1 + len digits)
            else Err (CoinbaseHeight "height push truncated")
          else Err (CoinbaseHeight "script does not open with a height push")
      end in
    if negb (bool_decide (take (Z.to_nat push_len) script_sig = canonical_push height))
    then Err (CoinbaseHeight "height push is not canonical")
    else
      let? h := ok_or (try_narrow 32 height) (CoinbaseHeight "height exceeds the 32-bit range") in
      map_err HeightError (Height.try_from h).

(** ** [project.rs] *)
Definition compact_head (enc : list Z) : list Z := take COMPACT_CIPHERTEXT enc.

Definition project_output (o : RawOutput) : result TransparentOutput DecodeError :=
  let? v := map_err OutputValue (Zatoshis.new (from_le_bytes (ro_value o))) in
  Ok (mkTransparentOutput v (ro_script o)).
Definition project_transparent (tx : RawTransaction) : result TransparentData DecodeError :=
  let inputs := (fun i => mkTransparentInput (prevout_hash i) (prevout_index i)) <$>
                filter (fun i => is_coinbase i = false) (raw_inputs tx) in
  let? outputs := map_result project_output (raw_outputs tx) in
  Ok (mkTransparentData inputs outputs).
Definition project_sapling (s : RawSapling) : result SaplingData DecodeError :=
  let? vb := map_err ValueBalance (Zatoshis.signed_try_new (sap_value_balance s)) in
  Ok (mkSaplingData (sp_nullifier <$> sap_spends s)
    ((fun o => mkSaplingOutput (so_cmu o) (so_ephemeral_key o) (compact_head (so_enc_ciphertext o)))
       <$> sap_outputs s) vb).
Definition orchard_shaped (b : option RawOrchardBundle) : result OrchardData DecodeError :=
  match b with
  | None => Ok (mkOrchardData [] 0)
  | Some b =>
      let? vb := map_err ValueBalance (Zatoshis.signed_try_new (b_value_balance b)) in
      Ok (mkOrchardData
        ((fun a => mkOrchardAction (a_nullifier a) (a_cmx a) (a_ephemeral_key a)
                     (compact_head (a_enc_ciphertext a))) <$> b_actions b) vb)
  end.
Definition project_transaction (tx : RawTransaction) : result Transaction DecodeError :=
  let? t := project_transparent tx in
  let? s := project_sapling (raw_sapling tx) in
  let? o := orchard_shaped (raw_orchard tx) in
  let? i := orchard_shaped (raw_ironwood tx) in
  Ok (mkTransaction (transaction_id tx) t s o i).

(** ** [lib.rs] *)
Definition MIN_TRANSACTION_SIZE : Z := 4 + 1 + 1 + 4.

Definition reject_trailing : P unit := fun r =>
  if remaining r =? 0 then Ok (tt, r) else Err (Trailing (remaining r)).

(** [Block::try_new] *)
Definition block_try_new (h : BlockHeader) (txs : list Transaction) (md : ChainMetadata)
    : result Block BlockError :=
  match txs with [] => Err BlockNoTransactions | _ => Ok (mkBlock h txs md) end.

Definition decode_transaction (raw : list Z) : result Transaction DecodeError :=
  let? (tx, r) := read_transaction (Reader.new raw) in
  let? (_, _) := reject_trailing r in
  project_transaction tx.

Definition decode_block (raw : list Z) (md : ChainMetadata) : result Block DecodeError :=
  let? (header, r) := read_header (Reader.new raw) in
  let? (txs, r) := vector MIN_TRANSACTION_SIZE read_transaction r in
  let? (_, _) := reject_trailing r in
  let? coinbase := ok_or (head txs) NoTransactions in
  let? coinbase_input :=
    match raw_inputs coinbase with
    | [only] => if is_coinbase only then Ok only else Err NoCoinbase
    | _ => Err NoCoinbase
    end in
  let? height := coinbase_height (rh_prev_hash header) (script_sig coinbase_input) in
  let? header := project_header header height in
  let? txs := map_result project_transaction txs in
  map_err BlockErr (block_try_new header txs md).
End Hashes.

(** ** The wire format

    The consensus encoding of each format, with the parts the walk steps over
    (proofs, signatures, JoinSplits) as the byte strings they are. *)
Definition enc_vec {A} (enc : A -> list Z) (l : list A) : list Z :=
  write_compact_size (count l) ++ concat (enc <$> l).

Definition enc_input (i : RawInput) : list Z :=
  prevout_hash i ++ to_le_bytes 4 (prevout_index i) ++
  (write_compact_size (len (script_sig i)) ++ script_sig i) ++ to_le_bytes 4 (sequence i).
Definition enc_output (o : RawOutput) : list Z :=
  ro_value o ++ write_compact_size (len (ro_script o)) ++ ro_script o.
Definition enc_i64 (z : Z) : list Z := to_le_bytes 8 (z mod 2 ^ 64).

Record WireSpendV4 := mkWireSpendV4 {
  ws_spend : RawSaplingSpend; ws_anchor : list Z; ws_auth : list Z }.
Definition enc_spend_v4 (s : WireSpendV4) : list Z :=
  sp_cv (ws_spend s) ++ ws_anchor s ++ sp_nullifier (ws_spend s) ++ sp_rk (ws_spend s) ++ ws_auth s.
Definition enc_sapling_output (o : RawSaplingOutput) : list Z :=
  so_cv o ++ so_cmu o ++ so_ephemeral_key o ++ so_enc_ciphertext o ++ so_out_ciphertext o.
Definition enc_output_v4 (o : RawSaplingOutput * list Z) : list Z := enc_sapling_output o.1 ++ o.2.
Definition enc_spend_v5 (s : RawSaplingSpend) : list Z := sp_cv s ++ sp_nullifier s ++ sp_rk s.
Definition enc_action (a : RawAction) : list Z :=
  a_cv a ++ a_nullifier a ++ a_rk a ++ a_cmx a ++ a_ephemeral_key a ++
  a_enc_ciphertext a ++ a_out_ciphertext a.

Record WireBundle := mkWireBundle {
  wb_bundle : RawOrchardBundle; wb_proof : list Z; wb_auth : list Z; wb_binding : list Z }.
Definition enc_bundle (b : option WireBundle) : list Z :=
  match b with
  | None => write_compact_size 0
  | Some w =>
      enc_vec enc_action (b_actions (wb_bundle w)) ++ [b_flags (wb_bundle w)] ++
      enc_i64 (b_value_balance (wb_bundle w)) ++ b_anchor (wb_bundle w) ++
      (write_compact_size (len (wb_proof w)) ++ wb_proof w) ++ wb_auth w ++ wb_binding w
  end.

(** Everything of a transaction that only authorises it, beside the fields. *)
Record WireV4 := mkWireV4 {
  w4_inputs : list RawInput;
  w4_outputs : list RawOutput;
  w4_lock_time : Z;
  w4_expiry : Z;
  w4_value_balance : Z;
  w4_spends : list WireSpendV4;
  w4_sap_outputs : list (RawSaplingOutput * list Z);
  w4_joinsplits : list (list Z);
  w4_js_auth : list Z;
  w4_binding : list Z }.
Record WireV5 := mkWireV5 {
  w5_branch : Z;
  w5_lock_time : Z;
  w5_expiry : Z;
  w5_inputs : list RawInput;
  w5_outputs : list RawOutput;
  w5_spends : list RawSaplingSpend;
  w5_sap_outputs : list RawSaplingOutput;
  w5_value_balance : Z;
  w5_anchor : list Z;
  w5_spend_auth : list Z;
  w5_output_proofs : list Z;
  w5_binding : list Z;
  w5_orchard : option WireBundle;
  w5_ironwood : option WireBundle }.

Definition v4_sapling (w : WireV4) : RawSapling :=
  mkRawSapling (ws_spend <$> w4_spends w) (w4_sap_outputs w).*1 (w4_value_balance w) None.
Definition enc_v4 (v : Version) (w : WireV4) : list Z :=
  enc_vec enc_input (w4_inputs w) ++ enc_vec enc_output (w4_outputs w) ++
  to_le_bytes 4 (w4_lock_time w) ++
  match v with Sprout _ => [] | _ => to_le_bytes 4 (w4_expiry w) end ++
  match v with
  | V4 => enc_i64 (w4_value_balance w) ++ enc_vec enc_spend_v4 (w4_spends w) ++
          enc_vec enc_output_v4 (w4_sap_outputs w)
  | _ => []
  end ++
  (if has_sprout v then
     write_compact_size (count (w4_joinsplits w)) ++ concat (w4_joinsplits w) ++
     (if 0 <? count (w4_joinsplits w) then w4_js_auth w else [])
   else []) ++
  (if bool_decide (v = V4) && negb (sapling_is_empty (v4_sapling w)) then w4_binding w else []).
Definition raw_v4 (v : Version) (w : WireV4) : RawTransaction :=
  mkRawTransaction v 0 (w4_lock_time w)
    (match v with Sprout _ => 0 | _ => w4_expiry w end) (w4_inputs w) (w4_outputs w)
    (match v with V4 => v4_sapling w | _ => sapling_default end) None None [].

Definition v5_any (w : WireV5) : bool := negb (is_nil (w5_spends w) && is_nil (w5_sap_outputs w)).
Definition v5_sapling (w : WireV5) : RawSapling :=
  mkRawSapling (w5_spends w) (w5_sap_outputs w) (if v5_any w then w5_value_balance w else 0)
    (if is_nil (w5_spends w) then None else Some (w5_anchor w)).
Definition enc_sapling_v5 (w : WireV5) : list Z :=
  enc_vec enc_spend_v5 (w5_spends w) ++ enc_vec enc_sapling_output (w5_sap_outputs w) ++
  (if v5_any w then enc_i64 (w5_value_balance w) else []) ++
  (if is_nil (w5_spends w) then [] else w5_anchor w) ++
  w5_spend_auth w ++ w5_output_proofs w ++ (if v5_any w then w5_binding w else []).
Definition enc_v5 (ironwood : bool) (w : WireV5) : list Z :=
  to_le_bytes 4 (w5_branch w) ++ to_le_bytes 4 (w5_lock_time w) ++ to_le_bytes 4 (w5_expiry w) ++
  enc_vec enc_input (w5_inputs w) ++ enc_vec enc_output (w5_outputs w) ++
  enc_sapling_v5 w ++ enc_bundle (w5_orchard w) ++
  (if ironwood then enc_bundle (w5_ironwood w) else []).
Definition raw_v5 (v : Version) (ironwood : bool) (w : WireV5) : RawTransaction :=
  mkRawTransaction v (w5_branch w) (w5_lock_time w) (w5_expiry w) (w5_inputs w) (w5_outputs w)
    (v5_sapling w) (wb_bundle <$> w5_orchard w)
    (if ironwood then wb_bundle <$> w5_ironwood w else None) [].

Inductive Wire :=
| WireOld (v : Version) (w : WireV4)
| WireFive (w : WireV5)
| WireSix (w : WireV5).
Definition wire_version (w : Wire) : Version :=
  match w with WireOld v _ => v | WireFive _ => V5 | WireSix _ => V6 end.
Definition enc_version (v : Version) : list Z :=
  to_le_bytes 4 (header_word v) ++
  match v with Sprout _ => [] | _ => to_le_bytes 4 (version_group_id v) end.
Definition enc_wire (w : Wire) : list Z :=
  enc_version (wire_version w) ++
  match w with
  | WireOld v w => enc_v4 v w
  | WireFive w => enc_v5 false w
  | WireSix w => enc_v5 true w
  end.
Definition raw_of (w : Wire) : RawTransaction :=
  with_bytes
    match w with
    | WireOld v w => raw_v4 v w
    | WireFive w => raw_v5 V5 false w
    | WireSix w => raw_v5 V6 true w
    end (enc_wire w).

(** *** What a well-formed encoding satisfies: field widths and ranges. *)
Definition i64 (z : Z) : Prop := - 2 ^ 63 <= z < 2 ^ 63.
Definition small {A} (l : list A) : Prop := count l <= MAX_COMPACT_SIZE.
Definition input_ok (i : RawInput) : Prop :=
  len (prevout_hash i) = 32 /\ uint 32 (prevout_index i) /\ small (script_sig i) /\
  uint 32 (sequence i).
Definition output_ok (o : RawOutput) : Prop := len (ro_value o) = 8 /\ small (ro_script o).
Definition spend_ok (s : RawSaplingSpend) : Prop :=
  len (sp_cv s) = 32 /\ len (sp_nullifier s) = 32 /\ len (sp_rk s) = 32.
Definition spend_v4_ok (s : WireSpendV4) : Prop :=
  spend_ok (ws_spend s) /\ len (ws_anchor s) = 32 /\ len (ws_auth s) = GROTH_PROOF + SIGNATURE.
Definition sap_output_ok (o : RawSaplingOutput) : Prop :=
  len (so_cv o) = 32 /\ len (so_cmu o) = 32 /\ len (so_ephemeral_key o) = 32 /\
  len (so_enc_ciphertext o) = ENC_CIPHERTEXT /\ len (so_out_ciphertext o) = OUT_CIPHERTEXT.
Definition action_ok (a : RawAction) : Prop :=
  len (a_cv a) = 32 /\ len (a_nullifier a) = 32 /\ len (a_rk a) = 32 /\ len (a_cmx a) = 32 /\
  len (a_ephemeral_key a) = 32 /\ len (a_enc_ciphertext a) = ENC_CIPHERTEXT /\
  len (a_out_ciphertext a) = OUT_CIPHERTEXT.
Definition bundle_ok (w : WireBundle) : Prop :=
  b_actions (wb_bundle w) <> [] /\ small (b_actions (wb_bundle w)) /\
  Forall action_ok (b_actions (wb_bundle w)) /\ byte_ok (b_flags (wb_bundle w)) /\
  i64 (b_value_balance (wb_bundle w)) /\ len (b_anchor (wb_bundle w)) = 32 /\
  small (wb_proof w) /\ len (wb_auth w) = count (b_actions (wb_bundle w)) * SIGNATURE /\
  len (wb_binding w) = SIGNATURE.
Definition v4_ok (v : Version) (w : WireV4) : Prop :=
  match v with Sprout n => n = 1 \/ n = 2 | V3 | V4 => True | _ => False end /\
  small (w4_inputs w) /\ Forall input_ok (w4_inputs w) /\
  small (w4_outputs w) /\ Forall output_ok (w4_outputs w) /\
  uint 32 (w4_lock_time w) /\ uint 32 (w4_expiry w) /\ i64 (w4_value_balance w) /\
  small (w4_spends w) /\ Forall spend_v4_ok (w4_spends w) /\
  small (w4_sap_outputs w) /\
  Forall (fun o => sap_output_ok o.1 /\ len o.2 = GROTH_PROOF) (w4_sap_outputs w) /\
  small (w4_joinsplits w) /\
  Forall (fun j => len j = JOINSPLIT_WITHOUT_PROOF +
    if bool_decide (v = V4) then GROTH_PROOF else PHGR_PROOF) (w4_joinsplits w) /\
  len (w4_js_auth w) = 32 + SIGNATURE /\ len (w4_binding w) = SIGNATURE.
Definition v5_ok (w : WireV5) : Prop :=
  uint 32 (w5_branch w) /\ uint 32 (w5_lock_time w) /\ uint 32 (w5_expiry w) /\
  small (w5_inputs w) /\ Forall input_ok (w5_inputs w) /\
  small (w5_outputs w) /\ Forall output_ok (w5_outputs w) /\
  small (w5_spends w) /\ Forall spend_ok (w5_spends w) /\
  small (w5_sap_outputs w) /\ Forall sap_output_ok (w5_sap_outputs w) /\
  i64 (w5_value_balance w) /\ len (w5_anchor w) = 32 /\
  len (w5_spend_auth w) = count (w5_spends w) * (GROTH_PROOF + SIGNATURE) /\
  len (w5_output_proofs w) = count (w5_sap_outputs w) * GROTH_PROOF /\
  len (w5_binding w) = SIGNATURE /\
  (forall b, w5_orchard w = Some b -> bundle_ok b) /\
  (forall b, w5_ironwood w = Some b -> bundle_ok b).
Definition wire_ok (w : Wire) : Prop :=
  match w with WireOld v w => v4_ok v w | WireFive w | WireSix w => v5_ok w end.


(** ** Reading the wire format *)
Local Arguments to_le_bytes : simpl never.
Local Arguments write_compact_size : simpl never.
Local Arguments len : simpl never.
Ltac pseq := eapply parses_bind.
Ltac field := first [ by apply parses_take | by apply parses_skip | by apply parses_u32
                    | by apply parses_var_bytes | by apply parses_i64 ].

Lemma parses_vec {A B} m (read : P B) (enc : A -> list Z) (f : A -> B) l :
  Forall (fun x => parses read (enc x) (f x) /\ m <= len (enc x)) l ->
  small l -> 0 <= m < 2 ^ 32 -> parses (vector m read) (enc_vec enc l) (f <$> l).
Proof.
  intros Hall Hs Hm. unfold enc_vec, small, count in *.
  rewrite <- (length_fmap f l) in *. apply parses_vector; [| |done|done].
  - clear Hs. induction Hall as [|x l [Hx _] _ IH]; cbn; constructor; auto.
  - clear Hs. induction Hall as [|x l [_ Hx] _ IH]; cbn; constructor; auto.
Qed.

Lemma len_compact n : 1 <= len (write_compact_size n).
Proof.
  unfold write_compact_size. repeat destruct (_ <? _); repeat destruct (_ <=? _);
    rewrite len_cons; pose proof (len_nonneg (to_le_bytes 2 n)); pose proof (len_nonneg (to_le_bytes 4 n));
    pose proof (len_nonneg (to_le_bytes 8 n)); try lia; unfold len; cbn; lia.
Qed.

Lemma parses_input i : input_ok i -> parses read_input (enc_input i) i.
Proof.
  intros (Hh & Hi & Hs & Hq). destruct i as [h n sc sq]; cbn in *. unfold read_input, enc_input; cbn.
  pseq; [field|]. pseq; [field|]. pseq; [field|].
  apply (parses_map _ (fun q => mkRawInput h n sc q)). field.
Qed.
Lemma len_input i : input_ok i -> MIN_INPUT <= len (enc_input i).
Proof.
  intros (Hh & _). unfold enc_input, MIN_INPUT. rewrite !len_app, !len_le, Hh.
  pose proof (len_compact (len (script_sig i))). pose proof (len_nonneg (script_sig i)). lia.
Qed.

Lemma parses_output o : output_ok o -> parses read_output (enc_output o) o.
Proof.
  intros (Hv & Hs). destruct o as [v sc]; cbn in *. unfold read_output, enc_output; cbn.
  pseq; [field|]. apply (parses_map _ (fun q => mkRawOutput v q)). field.
Qed.
Lemma len_output o : output_ok o -> MIN_OUTPUT <= len (enc_output o).
Proof.
  intros (Hv & _). unfold enc_output, MIN_OUTPUT. rewrite !len_app, Hv.
  pose proof (len_compact (len (ro_script o))). pose proof (len_nonneg (ro_script o)). lia.
Qed.

Lemma parses_spend_v4 s : spend_v4_ok s -> parses read_spend_v4 (enc_spend_v4 s) (ws_spend s).
Proof.
  intros ((H1 & H2 & H3) & H4 & H5). destruct s as [[cv nf rk] an au]; cbn in *.
  unfold read_spend_v4, enc_spend_v4; cbn. pseq; [field|]. pseq; [field|]. pseq; [field|].
  pseq; [field|]. apply (parses_map _ (fun _ => mkRawSpend cv nf rk) _ tt). field.
Qed.
Lemma len_spend_v4 s : spend_v4_ok s -> SAPLING_SPEND_V4 <= len (enc_spend_v4 s).
Proof.
  intros ((H1 & H2 & H3) & H4 & H5). unfold enc_spend_v4. rewrite !len_app, H1, H2, H3, H4, H5.
  unfold SAPLING_SPEND_V4. lia.
Qed.

Lemma parses_sap_output o :
  sap_output_ok o -> parses read_sapling_output_fields (enc_sapling_output o) o.
Proof.
  intros (H1 & H2 & H3 & H4 & H5). destruct o as [cv cm ek en ou]; cbn in *.
  unfold read_sapling_output_fields, enc_sapling_output; cbn.
  pseq; [field|]. pseq; [field|]. pseq; [field|]. pseq; [field|].
  apply (parses_map _ (fun q => mkRawSaplingOutput cv cm ek en q)). field.
Qed.
Lemma len_sap_output o : sap_output_ok o -> SAPLING_OUTPUT_V5 <= len (enc_sapling_output o).
Proof.
  intros (H1 & H2 & H3 & H4 & H5). unfold enc_sapling_output.
  rewrite !len_app, H1, H2, H3, H4, H5. unfold SAPLING_OUTPUT_V5. lia.
Qed.

Lemma parses_output_v4 o :
  sap_output_ok o.1 -> len o.2 = GROTH_PROOF -> parses read_output_v4 (enc_output_v4 o) o.1.
Proof.
  intros Ho Hp. destruct o as [o pf]; cbn in *. pseq; [by apply parses_sap_output|].
  apply (parses_map _ (fun _ => o) _ tt). field.
Qed.

Lemma parses_spend_v5 s : spend_ok s -> parses read_spend_v5 (enc_spend_v5 s) s.
Proof.
  intros (H1 & H2 & H3). destruct s as [cv nf rk]; cbn in *. unfold read_spend_v5, enc_spend_v5; cbn.
  pseq; [field|]. pseq; [field|]. apply (parses_map _ (fun q => mkRawSpend cv nf q)). field.
Qed.

Lemma parses_action a : action_ok a -> parses read_action (enc_action a) a.
Proof.
  intros (H1 & H2 & H3 & H4 & H5 & H6 & H7). destruct a as [cv nf rk cm ek en ou]; cbn in *.
  unfold read_action, enc_action; cbn. do 6 (pseq; [field|]).
  apply (parses_map _ (fun q => mkRawAction cv nf rk cm ek en q)). field.
Qed.
Lemma len_action a : action_ok a -> ORCHARD_ACTION <= len (enc_action a).
Proof.
  intros (H1 & H2 & H3 & H4 & H5 & H6 & H7). unfold enc_action.
  rewrite !len_app, H1, H2, H3, H4, H5, H6, H7. unfold ORCHARD_ACTION. lia.
Qed.

Lemma parses_inputs l :
  small l -> Forall input_ok l -> parses (vector MIN_INPUT read_input) (enc_vec enc_input l) l.
Proof.
  intros Hs Hall. rewrite <- (list_fmap_id l) at 2. apply parses_vec; [|done|unfold MIN_INPUT; lia].
  eapply Forall_impl; [done|]. intros i Hi. split; [by apply parses_input|by apply len_input].
Qed.
Lemma parses_outputs l :
  small l -> Forall output_ok l -> parses (vector MIN_OUTPUT read_output) (enc_vec enc_output l) l.
Proof.
  intros Hs Hall. rewrite <- (list_fmap_id l) at 2. apply parses_vec; [|done|unfold MIN_OUTPUT; lia].
  eapply Forall_impl; [done|]. intros i Hi. split; [by apply parses_output|by apply len_output].
Qed.

Lemma parses_sapling_v4 w :
  i64 (w4_value_balance w) -> small (w4_spends w) -> Forall spend_v4_ok (w4_spends w) ->
  small (w4_sap_outputs w) ->
  Forall (fun o => sap_output_ok o.1 /\ len o.2 = GROTH_PROOF) (w4_sap_outputs w) ->
  parses read_sapling_v4
    (enc_i64 (w4_value_balance w) ++ enc_vec enc_spend_v4 (w4_spends w) ++
     enc_vec enc_output_v4 (w4_sap_outputs w)) (v4_sapling w).
Proof.
  intros Hb Hs1 Hsp Hs2 Hso. unfold read_sapling_v4, enc_i64. pseq; [field|]. pseq.
  - apply (parses_vec _ _ enc_spend_v4 ws_spend); [|done|split; [done|vm_compute; reflexivity]].
    eapply Forall_impl; [done|]. intros x Hx. split; [by apply parses_spend_v4|by apply len_spend_v4].
  - apply (parses_map _ (fun q => mkRawSapling _ q _ None)).
    apply (parses_vec _ _ enc_output_v4 fst); [|done|split; [done|vm_compute; reflexivity]].
    eapply Forall_impl; [done|]. intros x [Hx Hp]. split; [by apply parses_output_v4|].
    unfold enc_output_v4. rewrite len_app, Hp. pose proof (len_sap_output _ Hx).
    unfold SAPLING_OUTPUT_V4, SAPLING_OUTPUT_V5 in *. lia.
Qed.

Lemma parses_if {A} (b : bool) (p : P A) e v (v0 : A) :
  (b = true -> parses p e v) -> (b = false -> v = v0) ->
  parses (if b then p else pret v0) (if b then e else []) v.
Proof. destruct b; intros H1 H2; [by apply H1|]. rewrite H2 by done. apply parses_ret. Qed.

Lemma parses_sapling_v5 w : v5_ok w -> parses read_sapling_v5 (enc_sapling_v5 w) (v5_sapling w).
Proof.
  intros (_ & _ & _ & _ & _ & _ & _ & Hs1 & Hsp & Hs2 & Hso & Hb & Ha & Hau & Hpr & Hbi & _).
  unfold read_sapling_v5, enc_sapling_v5. pseq.
  { apply (parses_vec _ _ enc_spend_v5 id); [|done|split; [done|vm_compute; reflexivity]].
    eapply Forall_impl; [done|]. intros x Hx. split; [by apply parses_spend_v5|].
    destruct Hx as (? & ? & ?). unfold enc_spend_v5, SAPLING_SPEND_V5. rewrite !len_app. lia. }
  pseq.
  { apply (parses_vec _ _ enc_sapling_output id); [|done|split; [done|vm_compute; reflexivity]].
    eapply Forall_impl; [done|]. intros x Hx. split; [by apply parses_sap_output|by apply len_sap_output]. }
  rewrite !list_fmap_id. fold (v5_any w). cbv zeta. unfold v5_sapling. pseq.
  { apply (parses_if _ _ _ (if v5_any w then w5_value_balance w else 0)).
    - intros ->. by apply parses_i64.
    - by intros ->. }
  pseq.
  { instantiate (1 := if is_nil (w5_spends w) then None else Some (w5_anchor w)).
    destruct (is_nil (w5_spends w)); [apply parses_ret|].
    apply (parses_map _ Some). field. }
  pseq; [field|]. pseq; [field|].
  apply (parses_map _ (fun _ => mkRawSapling _ _ _ _) _ tt).
  apply (parses_if _ _ _ tt tt); [intros _; field|done].
Qed.

Lemma parses_bundle b :
  (forall w, b = Some w -> bundle_ok w) -> parses read_orchard_bundle (enc_bundle b) (wb_bundle <$> b).
Proof.
  intros Hok. unfold read_orchard_bundle. destruct b as [w|]; cbn [enc_bundle fmap option_fmap option_map].
  - destruct (Hok w eq_refl) as (Hne & Hs & Hall & Hf & Hb & Ha & Hp & Hau & Hbi).
    pseq.
    { apply (parses_vec _ _ enc_action id); [|done|split; [done|vm_compute; reflexivity]].
      eapply Forall_impl; [done|]. intros x Hx. split; [by apply parses_action|by apply len_action]. }
    rewrite list_fmap_id. destruct w as [[acts fl vb an] pf au bi]; cbn in *.
    destruct acts as [|a acts]; [done|]. cbn [is_nil].
    eapply parses_cons; [by apply parses_u8|]. pseq; [by apply parses_i64|]. pseq; [field|]. pseq; [field|].
    pseq; [field|]. apply (parses_map _ (fun _ => Some _) _ tt). field.
  - rewrite <- (app_nil_r (write_compact_size 0)). pseq.
    { apply (parses_vector ORCHARD_ACTION read_action [] []); [constructor..|done|].
      split; [done|vm_compute; reflexivity]. }
    apply parses_ret.
Qed.


Lemma len_concat_const m (ls : list (list Z)) :
  Forall (fun l => len l = m) ls -> len (concat ls) = count ls * m.
Proof.
  unfold count. induction 1 as [|l ls Hl _ IH]; [done|]. cbn [concat length].
  rewrite len_app, Hl, IH. lia.
Qed.

Lemma parses_joinsplits (groth : bool) (js : list (list Z)) auth :
  small js ->
  Forall (fun j => len j = JOINSPLIT_WITHOUT_PROOF + if groth then GROTH_PROOF else PHGR_PROOF) js ->
  len auth = 32 + SIGNATURE ->
  parses (skip_joinsplits groth)
    (write_compact_size (count js) ++ concat js ++ (if 0 <? count js then auth else [])) tt.
Proof.
  intros Hs Hall Ha. unfold skip_joinsplits.
  pseq; [apply parses_compact_size; unfold small, count in *; lia|]. cbv zeta.
  set (m := JOINSPLIT_WITHOUT_PROOF + _) in *.
  assert (0 <= m < 2 ^ 32) as Hm by (unfold m; destruct groth; split; vm_compute; congruence).
  assert (checked_mul 64 (count js) m = Some (count js * m)) as ->.
  { unfold checked_mul, small, MAX_COMPACT_SIZE in *. rewrite (proj2 (Z.ltb_lt _ _)); [done|].
    assert (0 <= count js) by (unfold count; lia). nia. }
  change (concat js ++ _) with ([] ++ (concat js ++ if 0 <? count js then auth else [])).
  pseq; [by apply parses_lift|]. pseq; [by apply parses_skip, len_concat_const|].
  destruct (0 <? count js); [by apply parses_skip|apply parses_ret].
Qed.

Lemma parses_v4 v w : v4_ok v w -> parses (read_v4_format v) (enc_v4 v w) (raw_v4 v w).
Proof.
  intros (Hv & Hs1 & Hi & Hs2 & Ho & Hl & He & Hb & Hs3 & Hsp & Hs4 & Hso & Hs5 & Hjs & Hja & Hbi).
  unfold read_v4_format, enc_v4. pseq; [by apply parses_inputs|]. pseq; [by apply parses_outputs|].
  pseq; [field|]. pseq.
  { instantiate (1 := match v with Sprout _ => 0 | _ => w4_expiry w end).
    destruct v; [apply parses_ret|field..]. }
  pseq.
  { instantiate (1 := match v with V4 => v4_sapling w | _ => sapling_default end).
    destruct v; try apply parses_ret. by apply parses_sapling_v4. }
  pseq.
  { apply (parses_if _ _ _ tt tt); [intros _; by apply parses_joinsplits|done]. }
  apply (parses_map _ (fun _ => raw_v4 v w) _ tt).
  destruct (bool_decide_reflect (v = V4)) as [->|]; cbn [andb]; [|apply parses_ret].
  apply (parses_if _ _ _ tt tt); [intros _; field|done].
Qed.

Lemma parses_v5 v ironwood w :
  v5_ok w -> parses (read_v5_format v ironwood) (enc_v5 ironwood w) (raw_v5 v ironwood w).
Proof.
  intros Hok. pose proof Hok as (Hbr & Hl & He & Hs1 & Hi & Hs2 & Ho & _).
  pose proof Hok as (_ & _ & _ & _ & _ & _ & _ & _ & _ & _ & _ & _ & _ & _ & _ & _ & Hor & Hir).
  unfold read_v5_format, enc_v5. do 3 (pseq; [field|]).
  pseq; [by apply parses_inputs|]. pseq; [by apply parses_outputs|].
  pseq; [by apply parses_sapling_v5|]. pseq; [by apply parses_bundle|].
  apply (parses_map _ (fun i => mkRawTransaction _ _ _ _ _ _ _ _ i [])).
  destruct ironwood; [by apply parses_bundle|apply parses_ret].
Qed.

Lemma parses_version v :
  match v with Sprout n => n = 1 \/ n = 2 | _ => True end ->
  parses read_version (enc_version v) v.
Proof.
  intros Hv. unfold read_version, enc_version. pseq.
  { apply parses_u32. destruct v as [n| | | |]; [destruct Hv as [-> | ->]|..]; split; vm_compute; congruence. }
  destruct v as [n| | | |]; [destruct Hv as [-> | ->]; apply parses_ret|..];
    rewrite <- (app_nil_r (to_le_bytes 4 (version_group_id _)));
    (eapply (parses_bind u32_le); [apply parses_u32; split; vm_compute; congruence|]).
  - exact (parses_ret V3).
  - exact (parses_ret V4).
  - exact (parses_ret V5).
  - exact (parses_ret V6).
Qed.

(** The whole transaction, bytes included. *)
Lemma parses_transaction w : wire_ok w -> parses read_transaction (enc_wire w) (raw_of w).
Proof.
  intros Hok.
  assert (Hbody : parses (let* v := read_version in read_body v) (enc_wire w)
    (match w with WireOld v w => raw_v4 v w | WireFive w => raw_v5 V5 false w
      | WireSix w => raw_v5 V6 true w end)).
  { unfold enc_wire. pseq.
    - apply parses_version. destruct w as [[]| |]; cbn in *; try done. by destruct Hok.
    - destruct w as [v w|w|w]; cbn [wire_version read_body].
      + destruct v; try (by apply parses_v4); by destruct Hok.
      + by apply parses_v5.
      + by apply parses_v5. }
  by apply (parses_spanned _ with_bytes).
Qed.

(** ** The header and its height *)
Definition enc_header (h : RawHeader) : list Z :=
  to_le_bytes 4 (rh_version h mod 2 ^ 32) ++ rh_prev_hash h ++ rh_merkle_root h ++
  rh_commitments h ++ to_le_bytes 4 (rh_time h) ++ to_le_bytes 4 (rh_bits h) ++ rh_nonce h ++
  write_compact_size (len (rh_solution h)) ++ rh_solution h.
Definition header_ok (h : RawHeader) : Prop :=
  - 2 ^ 31 <= rh_version h < 2 ^ 31 /\ len (rh_prev_hash h) = 32 /\ len (rh_merkle_root h) = 32 /\
  len (rh_commitments h) = 32 /\ uint 32 (rh_time h) /\ uint 32 (rh_bits h) /\
  len (rh_nonce h) = 32 /\ small (rh_solution h) /\ rh_bytes h = enc_header h.

Lemma parses_header h : header_ok h -> parses read_header (enc_header h) h.
Proof.
  intros (Hv & Hp & Hm & Hc & Ht & Hb & Hn & Hs & Hby).
  assert (Hh : h = header_with_bytes (header_with_bytes h []) (enc_header h))
    by (rewrite <- Hby; by destruct h).
  rewrite Hh at 2. apply parses_spanned. unfold read_header_fields, enc_header.
  pseq; [by apply parses_i32|]. do 6 (pseq; [field|]).
  apply (parses_map _ (fun q => mkRawHeader _ _ _ _ _ _ _ q [])). field.
Qed.

Lemma from_le_bytes_zeros l k : from_le_bytes (l ++ replicate k 0) = from_le_bytes l.
Proof.
  rewrite from_le_bytes_app. assert (from_le_bytes (replicate k 0) = 0) as ->; [|lia].
  induction k as [|k IH]; [done|]. cbn [replicate from_le_bytes]. lia.
Qed.

Lemma trim_zeros_spec l : exists k, l = replicate k 0 ++ trim_zeros l.
Proof.
  induction l as [|x l [k IH]]; [by exists 0%nat|]. destruct x; [|by exists 0%nat..].
  exists (S k). cbn [trim_zeros replicate app]. by f_equal.
Qed.

Lemma trim_zeros_length l : (length (trim_zeros l) <= length l)%nat.
Proof. destruct (trim_zeros_spec l) as [k Hk]. rewrite Hk at 2. rewrite length_app. lia. Qed.

(** The digits of a canonical push: minimal, at most five for a height. *)
Lemma push_digits n :
  17 <= n <= Height.MAX_HEIGHT ->
  exists digits, canonical_push n = len digits :: digits /\ 1 <= len digits <= 5 /\
    from_le_bytes digits = n.
Proof.
  intros Hn. change Height.MAX_HEIGHT with (2 ^ 31 - 1) in Hn. unfold canonical_push.
  rewrite (proj2 (andb_false_iff _ _)) by (right; apply Z.leb_gt; lia).
  set (d := reverse (trim_zeros (reverse (to_le_bytes 8 n)))).
  assert (Hsplit : exists k, to_le_bytes 8 n = d ++ replicate k 0).
  { destruct (trim_zeros_spec (reverse (to_le_bytes 8 n))) as [k Hk]. exists k.
    apply (f_equal reverse) in Hk. by rewrite reverse_involutive, reverse_app, reverse_replicate in Hk. }
  destruct Hsplit as [k Hk].
  assert (Hval : from_le_bytes d = n).
  { rewrite <- (from_le_bytes_zeros d k), <- Hk. apply from_to_le_bytes.
    assert (2 ^ 31 < 2 ^ (8 * Z.of_nat 8)) by done. unfold uint. lia. }
  assert (Hlo : 1 <= len d) by (unfold len; destruct d; cbn in *; lia).
  assert (Hhi : len d <= 4).
  { unfold d. destruct (trim_zeros_spec (reverse (to_le_bytes 8 n))) as [k' Hk'].
    assert (Hz : reverse (to_le_bytes 8 n) = replicate 4 0 ++ reverse (to_le_bytes 4 n)).
    { unfold to_le_bytes. cbn -[Z.div Z.modulo]. rewrite !Z.div_div by lia.
      rewrite !(Z.div_small n) by lia. done. }
    rewrite Hz. unfold len. rewrite length_reverse. cbn [replicate app trim_zeros].
    transitivity (Z.of_nat (length (reverse (to_le_bytes 4 n)))).
    - apply inj_le. apply trim_zeros_length.
    - rewrite length_reverse, length_to_le_bytes. lia. }
  destruct (last d) as [top|]; [destruct (negb _)|].
  - exists (d ++ [0]). split; [done|]. rewrite len_app. unfold len at 2 4. cbn [length].
    split; [lia|]. change [0] with (replicate 1 0). by rewrite from_le_bytes_zeros.
  - exists d. split_and!; [done|lia..].
  - exists d. split_and!; [done|lia..].
Qed.

(** The committed height is read back from its canonical push. *)
Lemma coinbase_height_push prev n extra :
  prev <> replicate 32 0 -> 1 <= n <= Height.MAX_HEIGHT ->
  coinbase_height prev (canonical_push n ++ extra) = Ok n.
Proof.
  intros Hprev Hn. unfold coinbase_height. rewrite bool_decide_eq_false_2 by done.
  assert (Hfin : (let? h := ok_or (try_narrow 32 n) (CoinbaseHeight "height exceeds the 32-bit range") in
    map_err HeightError (Height.try_from h)) = Ok n).
  { unfold try_narrow. change Height.MAX_HEIGHT with (2 ^ 31 - 1) in Hn.
    rewrite (proj2 (Z.ltb_lt _ _)) by lia. cbn [ok_or]. unfold Height.try_from.
    change Height.MAX_HEIGHT with (2 ^ 31 - 1). by rewrite (proj2 (Z.ltb_ge _ _)) by lia. }
  destruct (Z.le_gt_cases n 16) as [Hs|Hl].
  - assert (canonical_push n = [0x50 + n]) as Hp.
    { unfold canonical_push. rewrite (proj2 (andb_true_iff _ _)); [done|]. split; apply Z.leb_le; lia. }
    rewrite Hp. cbn [app]. rewrite (proj2 (andb_true_iff _ _)) by (split; apply Z.leb_le; lia).
    replace (0x50 + n - 0x50) with n by lia. rewrite Hp.
    rewrite bool_decide_eq_true_2 by done. exact Hfin.
  - destruct (push_digits n ltac:(lia)) as (d & Hp & Hd & Hv). rewrite Hp. cbn [app].
    rewrite (proj2 (andb_false_iff _ _)) by (left; apply Z.leb_gt; lia).
    rewrite (proj2 (andb_true_iff _ _)) by (split; apply Z.leb_le; lia).
    pose proof (len_nonneg extra).
    rewrite (proj2 (Z.leb_le _ _)) by (rewrite len_app; lia).
    assert (Hnat : Z.to_nat (len d) = length d) by (unfold len; lia).
    cbv zeta. rewrite Hnat, take_app_length, from_le_bytes_zeros, Hv.
    replace (Z.to_nat (1 + len d)) with (S (length d)) by (unfold len; lia).
    cbn [take firstn]. rewrite take_app_length, Hp, bool_decide_eq_true_2 by done. exact Hfin.
Qed.

Lemma coinbase_height_Ok prev script n :
  coinbase_height prev script = Ok n ->
  (prev = replicate 32 0 /\ n = 0) \/
  (prev <> replicate 32 0 /\ n <= Height.MAX_HEIGHT /\ exists extra, script = canonical_push n ++ extra).
Proof.
  unfold coinbase_height. destruct (bool_decide_reflect (prev = replicate 32 0)) as [->|Hne].
  { intros [= <-]. by left. }
  set (m := match script with [] => _ | _ => _ end). destruct m as [[h k]|]; [|done].
  destruct (bool_decide_reflect (take (Z.to_nat k) script = canonical_push h)) as [Hp|]; cbn [negb];
    [|done].
  unfold try_narrow. destruct (h <? 2 ^ 32); cbn [ok_or]; [|done]. unfold Height.try_from.
  destruct (_ <? h) eqn:Hm; cbn [map_err]; [done|]. zbool. intros [= <-]. right.
  split_and!; [done..|]. exists (drop (Z.to_nat k) script). by rewrite <- Hp, take_drop.
Qed.

Lemma len_wire w : wire_ok w -> MIN_TRANSACTION_SIZE <= len (enc_wire w).
Proof.
  assert (Hv : forall v, 4 <= len (enc_version v)).
  { intros v. unfold enc_version. rewrite len_app, len_le.
    pose proof (len_nonneg (match v with Sprout _ => [] | _ => to_le_bytes 4 (version_group_id v) end)). lia. }
  assert (Hvec : forall A (enc : A -> list Z) l, 1 <= len (enc_vec enc l)).
  { intros A enc l. unfold enc_vec. rewrite len_app. pose proof (len_compact (count l)).
    pose proof (len_nonneg (concat (enc <$> l))). lia. }
  intros _. unfold enc_wire, MIN_TRANSACTION_SIZE. rewrite len_app. pose proof (Hv (wire_version w)).
  destruct w as [v w|w|w]; [unfold enc_v4; do 3 rewrite len_app; rewrite len_le
    |unfold enc_v5; rewrite !len_app, !len_le..].
  - pose proof (Hvec _ enc_input (w4_inputs w)). pose proof (Hvec _ enc_output (w4_outputs w)).
    match goal with |- context [Z.of_nat 4 + len ?l] => pose proof (len_nonneg l) end. lia.
  - pose proof (Hvec _ enc_input (w5_inputs w)). pose proof (Hvec _ enc_output (w5_outputs w)).
    pose proof (len_nonneg (enc_sapling_v5 w)). pose proof (len_nonneg (enc_bundle (w5_orchard w))).
    pose proof (len_nonneg []). lia.
  - pose proof (Hvec _ enc_input (w5_inputs w)). pose proof (Hvec _ enc_output (w5_outputs w)).
    pose proof (len_nonneg (enc_sapling_v5 w)). pose proof (len_nonneg (enc_bundle (w5_orchard w))).
    pose proof (len_nonneg (enc_bundle (w5_ironwood w))). lia.
Qed.

Lemma parses_transactions ws :
  small ws -> Forall wire_ok ws ->
  parses (vector MIN_TRANSACTION_SIZE read_transaction) (enc_vec enc_wire ws) (raw_of <$> ws).
Proof.
  intros Hs Hall. apply parses_vec; [|done|split; [done|vm_compute; reflexivity]].
  eapply Forall_impl; [done|]. intros w Hw. split; [by apply parses_transaction|by apply len_wire].
Qed.

(** ** Bounds *)
Lemma bounded_input : bounded read_input.
Proof. unfold read_input. auto 10 with parse. Qed.
Lemma bounded_output : bounded read_output.
Proof. unfold read_output. auto 10 with parse. Qed.
Lemma bounded_spend_v4 : bounded read_spend_v4.
Proof. unfold read_spend_v4, GROTH_PROOF, SIGNATURE. auto 20 with parse. Qed.
Lemma bounded_sap_output : bounded read_sapling_output_fields.
Proof. unfold read_sapling_output_fields, ENC_CIPHERTEXT, OUT_CIPHERTEXT. auto 20 with parse. Qed.
Lemma bounded_output_v4 : bounded read_output_v4.
Proof. unfold read_output_v4, GROTH_PROOF. pose proof bounded_sap_output. auto 10 with parse. Qed.
Lemma bounded_spend_v5 : bounded read_spend_v5.
Proof. unfold read_spend_v5. auto 10 with parse. Qed.
Lemma bounded_action : bounded read_action.
Proof. unfold read_action, ENC_CIPHERTEXT, OUT_CIPHERTEXT. auto 20 with parse. Qed.
#[export] Hint Resolve bounded_input bounded_output bounded_spend_v4 bounded_sap_output
  bounded_output_v4 bounded_spend_v5 bounded_action : parse.

Lemma bounded_if {A} (b : bool) (p q : P A) : bounded p -> bounded q -> bounded (if b then p else q).
Proof. by destruct b. Qed.
#[export] Hint Resolve bounded_if : parse.

Lemma bounded_sapling_v5 : bounded read_sapling_v5.
Proof.
  unfold read_sapling_v5, GROTH_PROOF, SIGNATURE. do 2 (apply bounded_bind; [auto with parse|intros]).
  cbv zeta. unfold count. auto 20 with parse.
Qed.
Lemma bounded_bundle : bounded read_orchard_bundle.
Proof.
  unfold read_orchard_bundle, SIGNATURE. apply bounded_bind; [auto with parse|]. intros l.
  unfold count. auto 20 with parse.
Qed.
Lemma bounded_bind_lift {A B} (x : result A DecodeError) (k : A -> P B) :
  (forall a, x = Ok a -> bounded (k a)) -> bounded (pbind (plift x) k).
Proof. intros Hk. destruct x as [a|]; [by apply Hk|done]. Qed.

Lemma bounded_joinsplits groth : bounded (skip_joinsplits groth).
Proof.
  intros r v r' Hr Hb. unfold skip_joinsplits, pbind at 1.
  destruct (compact_size r) as [[n r1]|] eqn:Hc; [|done].
  destruct (bounded_compact_size r n r1 Hr Hb Hc) as (E1 & Hr1 & ?).
  apply compact_size_Ok in Hc as (_ & [Hn _] & _); [|done..]. cbv zeta.
  set (m := JOINSPLIT_WITHOUT_PROOF + _).
  assert (0 <= m) by (unfold m; destruct groth; vm_compute; congruence).
  match goal with |- ?k r1 = _ -> _ => assert (Hk : bounded k) end.
  { apply bounded_bind_lift. intros size Hsz. unfold checked_mul in Hsz.
    destruct (_ <? _); cbn in Hsz; simplify_eq.
    apply bounded_bind; [apply bounded_skip; lia|]. unfold SIGNATURE. auto with parse. }
  intros Ht. destruct (Hk r1 v r' Hr1 ltac:(by rewrite E1) Ht) as (E2 & ? & ?).
  split_and!; [congruence|done|lia].
Qed.
#[export] Hint Resolve bounded_sapling_v5 bounded_bundle bounded_joinsplits : parse.

Lemma bounded_sapling_v4 : bounded read_sapling_v4.
Proof. unfold read_sapling_v4. auto 10 with parse. Qed.
#[export] Hint Resolve bounded_sapling_v4 : parse.

Lemma bounded_body v : bounded (read_body v).
Proof.
  assert (forall v, bounded (read_v4_format v)) as H4.
  { intros v'. unfold read_v4_format, SIGNATURE. do 3 (apply bounded_bind; [auto with parse|intros]).
    apply bounded_bind; [destruct v'; auto with parse|intros].
    apply bounded_bind; [destruct v'; auto with parse|intros]. auto 10 with parse. }
  assert (forall v i, bounded (read_v5_format v i)) as H5.
  { intros v' i. unfold read_v5_format. do 8 (apply bounded_bind; [auto with parse|intros]). auto with parse. }
  destruct v; cbn; auto.
Qed.
Lemma bounded_version : bounded read_version.
Proof. unfold read_version. apply bounded_bind; [auto with parse|intros]. auto 20 with parse. Qed.
#[export] Hint Resolve bounded_body bounded_version : parse.

Section Decoding.
Context (sha256 : list Z -> list Z) (blake2b_256 : list Z -> list Z -> list Z).

Lemma read_whole {A} (p : P A) e v extra :
  parses p e v -> len (e ++ extra) < 2 ^ 64 ->
  p (Reader.new (e ++ extra)) = Ok (v, mkReader (e ++ extra) (len e)).
Proof. intros Hp Hlen. exact (Hp [] extra Hlen). Qed.

(** Decoding one encoded transaction projects its raw view. *)
Lemma decode_transaction_wire w :
  wire_ok w -> len (enc_wire w) < 2 ^ 64 ->
  decode_transaction sha256 blake2b_256 (enc_wire w) = project_transaction sha256 blake2b_256 (raw_of w).
Proof.
  intros Hok Hlen. unfold decode_transaction. rewrite <- (app_nil_r (enc_wire w)).
  rewrite (read_whole _ _ _ _ (parses_transaction w Hok)) by by rewrite app_nil_r.
  unfold reject_trailing, remaining. cbn [bytes position]. by rewrite app_nil_r, Z.sub_diag.
Qed.

(** Every well-formed transaction encoding, of any version from 1 to 6,
    decodes to the projection of exactly the fields it encodes, the bytes the id
    hashes being the whole encoding; and with anything after it, it is refused
    with the number of trailing bytes. *)
Theorem decode_transaction_roundtrip w extra :
  wire_ok w -> len (enc_wire w ++ extra) < 2 ^ 64 ->
  decode_transaction sha256 blake2b_256 (enc_wire w ++ extra) =
  match extra with
  | [] => project_transaction sha256 blake2b_256 (raw_of w)
  | _ => Err (Trailing (len extra))
  end.
Proof.
  intros Hok Hlen. unfold decode_transaction.
  rewrite (read_whole _ _ _ _ (parses_transaction w Hok) Hlen).
  unfold reject_trailing, remaining. cbn [bytes position].
  rewrite len_app. replace (len (enc_wire w) + len extra - len (enc_wire w)) with (len extra) by lia.
  destruct extra as [|x extra]; [done|]. rewrite len_cons. pose proof (len_nonneg extra).
  by rewrite (proj2 (Z.eqb_neq _ _)) by lia.
Qed.


(** The coinbase height is exact: for a block past genesis a script is
    accepted only when it opens with the canonical push of the height answered,
    and every height from 1 to the protocol maximum is accepted from its
    canonical push; genesis alone needs none. *)
Theorem coinbase_height_exact prev :
  (forall script n, coinbase_height prev script = Ok n ->
     (prev = replicate 32 0 /\ n = 0) \/
     (prev <> replicate 32 0 /\ n <= Height.MAX_HEIGHT /\
      exists extra, script = canonical_push n ++ extra)) /\
  (prev <> replicate 32 0 -> forall n extra, 1 <= n <= Height.MAX_HEIGHT ->
     coinbase_height prev (canonical_push n ++ extra) = Ok n).
Proof.
  split; [intros; by apply coinbase_height_Ok|]. intros Hp n extra Hn. by apply coinbase_height_push.
Qed.

(** A transaction less what only authorises it: input scripts and the
    encoding. *)
Definition strip_input (i : RawInput) : RawInput :=
  mkRawInput (prevout_hash i) (prevout_index i) [] (sequence i).
Definition effects (t : RawTransaction) : RawTransaction :=
  mkRawTransaction (version t) (consensus_branch_id t) (lock_time t) (expiry_height t)
    (strip_input <$> raw_inputs t) (raw_outputs t) (raw_sapling t) (raw_orchard t)
    (raw_ironwood t) [].

Lemma fold_left_fmap {A B C} (f : C -> B -> C) (g : A -> B) l acc :
  fold_left f (g <$> l) acc = fold_left (fun a x => f a (g x)) l acc.
Proof. revert acc. induction l as [|x l IH]; intros acc; [done|]. apply IH. Qed.

Lemma zip244_effects t o i :
  zip244 blake2b_256 (effects t) o i = zip244 blake2b_256 t o i.
Proof.
  assert (transparent_digest blake2b_256 (effects t) = transparent_digest blake2b_256 t) as Ht.
  { unfold transparent_digest, effects. cbn [raw_inputs raw_outputs].
    rewrite !fold_left_fmap. by destruct (raw_inputs t). }
  unfold zip244. by rewrite Ht.
Qed.

(** Two version 5 or 6 encodings that differ only in what authorises
    the transaction (input scripts, proofs, signatures) decode to the same
    transaction id. *)
Theorem txid_ignores_authorisation w w' t t' :
  wire_ok w -> wire_ok w' -> len (enc_wire w) < 2 ^ 64 -> len (enc_wire w') < 2 ^ 64 ->
  wire_version w = V5 \/ wire_version w = V6 ->
  effects (raw_of w) = effects (raw_of w') ->
  decode_transaction sha256 blake2b_256 (enc_wire w) = Ok t ->
  decode_transaction sha256 blake2b_256 (enc_wire w') = Ok t' ->
  txid t = txid t'.
Proof.
  intros Hw Hw' Hl Hl' Hv Heff.
  rewrite (decode_transaction_wire w Hw Hl), (decode_transaction_wire w' Hw' Hl').
  assert (Hid : forall r u, project_transaction sha256 blake2b_256 r = Ok u ->
    txid u = transaction_id sha256 blake2b_256 r).
  { intros r u. unfold project_transaction. destruct (project_transparent r); [|done].
    destruct (project_sapling _); [|done]. destruct (orchard_shaped _); [|done].
    destruct (orchard_shaped (raw_ironwood r)); [|done]. by intros [= <-]. }
  intros ->%Hid ->%Hid.
  assert (Hver : forall x, version (raw_of x) = wire_version x) by by intros [].
  assert (Hsame : wire_version w' = wire_version w).
  { rewrite <- !Hver. apply (f_equal version) in Heff. by cbn in Heff. }
  unfold transaction_id. rewrite !Hver, Hsame.
  destruct Hv as [-> | ->]; by rewrite <- (zip244_effects (raw_of w)), Heff, zip244_effects.
Qed.

(** Reading a transaction from any bytes stays inside them: on success
    the cursor lies inside the input and the bytes kept for the id are exactly
    the ones consumed. *)
Theorem read_transaction_in_bounds raw tx r :
  Forall byte_ok raw -> read_transaction (Reader.new raw) = Ok (tx, r) ->
  bytes r = raw /\ 0 <= position r <= len raw /\ raw_bytes tx = take (Z.to_nat (position r)) raw.
Proof.
  intros Hb Hr.
  assert (Hin : in_range (Reader.new raw)) by (split; [done|apply len_nonneg]).
  assert (Hbd : bounded read_transaction) by (unfold read_transaction; auto with parse).
  destruct (Hbd _ _ _ Hin Hb Hr) as (Eb & Hrange & _). cbn in Eb.
  split_and!; [done|by destruct Hrange|by rewrite <- Eb; destruct Hrange|].
  unfold read_transaction, spanned, pbind, pread in Hr.
  destruct (read_version _) as [[v r1]|]; [|done]. destruct (read_body v r1) as [[t r2]|]; [|done].
  unfold pret in Hr. injection Hr as <- <-. cbn [raw_bytes with_bytes]. unfold since, slice.
  cbn [position Reader.new]. rewrite Eb, Z.sub_0_r. done.
Qed.
End Decoding.

(** ** Concrete encodings *)
Module Example.
Definition ex_sha256 (bs : list Z) : list Z := take 4 bs.
Definition ex_blake2b (p bs : list Z) : list Z := p ++ bs.

(** A version 5 transaction with one transparent input, by its script. *)
Definition ex_v5 (script : list Z) : WireV5 :=
  mkWireV5 7 0 0 [mkRawInput (replicate 32 9) 0 script 0] [mkRawOutput (to_le_bytes 8 5) [0x51]]
    [] [] 0 (replicate 32 0) [] [] (replicate 64 0) None None.
Definition ex_coinbase_input : RawInput :=
  mkRawInput (replicate 32 0) (umax 32) (canonical_push 500 ++ [1; 2]) 0.
Definition ex_coinbase : Wire :=
  WireOld (Sprout 1) (mkWireV4 [ex_coinbase_input] [] 0 0 0 [] [] [] (replicate 96 0) (replicate 64 0)).
Definition ex_header_raw : RawHeader :=
  mkRawHeader 4 (replicate 32 1) (replicate 32 2) (replicate 32 3) 6 0x2007ffff (replicate 32 4)
    (replicate 36 5) [].
Definition ex_header : RawHeader := header_with_bytes ex_header_raw (enc_header ex_header_raw).

Ltac compute_side := vm_compute; first [reflexivity | discriminate | congruence].

Lemma ex_v5_ok script : len script <= 100 -> v5_ok (ex_v5 script).
Proof.
  intros Hs. assert (Hsm : forall A (l : list A), Z.of_nat (length l) <= 100 -> small l).
  { intros A l Hl. unfold small, count, MAX_COMPACT_SIZE. lia. }
  assert (Hu : forall z, 0 <= z <= 100 -> uint 32 z) by (intros; unfold uint; lia).
  unfold v5_ok, ex_v5; cbn [w5_branch w5_lock_time w5_expiry w5_inputs w5_outputs w5_spends
    w5_sap_outputs w5_value_balance w5_anchor w5_spend_auth w5_output_proofs w5_binding w5_orchard
    w5_ironwood].
  split_and!; try (apply Hu; lia); try (apply Hsm; cbn; lia); try reflexivity; try done;
    try apply Forall_nil_2; try apply Forall_singleton.
  - split_and!; [reflexivity|apply Hu; cbn; lia|by apply Hsm|apply Hu; cbn; lia].
  - split; [reflexivity|apply Hsm; cbn; lia].
Qed.

Lemma ex_coinbase_ok : wire_ok ex_coinbase.
Proof.
  assert (Hsm : forall A (l : list A), Z.of_nat (length l) <= 100 -> small l).
  { intros A l Hl. unfold small, count, MAX_COMPACT_SIZE. lia. }
  unfold wire_ok, ex_coinbase, v4_ok; cbn [w4_inputs w4_outputs w4_lock_time w4_expiry
    w4_value_balance w4_spends w4_sap_outputs w4_joinsplits w4_js_auth w4_binding].
  split_and!; [by left|..]; try (apply Hsm; cbn; lia); try reflexivity; try done;
    try apply Forall_nil_2; try (split; compute_side). apply Forall_singleton.
  split_and!; [reflexivity|split; compute_side|apply Hsm; vm_compute; discriminate|split; compute_side].
Qed.

Lemma decode_transaction_roundtrip_witness :
  decode_transaction ex_sha256 ex_blake2b (enc_wire (WireFive (ex_v5 [1; 2])) ++ []) =
  project_transaction ex_sha256 ex_blake2b (raw_of (WireFive (ex_v5 [1; 2]))).
Proof.
  apply (decode_transaction_roundtrip ex_sha256 ex_blake2b (WireFive (ex_v5 [1; 2])) []).
  - apply ex_v5_ok. compute_side.
  - compute_side.
Defined.


(** Two encodings with different input scripts. *)
Lemma txid_ignores_authorisation_witness :
  exists t t',
    decode_transaction ex_sha256 ex_blake2b (enc_wire (WireFive (ex_v5 [1; 2]))) = Ok t /\
    decode_transaction ex_sha256 ex_blake2b (enc_wire (WireFive (ex_v5 []))) = Ok t' /\
    txid t = txid t'.
Proof.
  destruct (decode_transaction ex_sha256 ex_blake2b (enc_wire (WireFive (ex_v5 [1; 2])))) as [t|] eqn:H1;
    [|vm_compute in H1; discriminate H1].
  destruct (decode_transaction ex_sha256 ex_blake2b (enc_wire (WireFive (ex_v5 [])))) as [t'|] eqn:H2;
    [|vm_compute in H2; discriminate H2].
  exists t, t'. split; [reflexivity|]. split; [reflexivity|].
  apply (txid_ignores_authorisation ex_sha256 ex_blake2b (WireFive (ex_v5 [1; 2])) (WireFive (ex_v5 [])) t t').
  - apply ex_v5_ok. vm_compute. discriminate.
  - apply ex_v5_ok. vm_compute. discriminate.
  - vm_compute. reflexivity.
  - vm_compute. reflexivity.
  - left. reflexivity.
  - reflexivity.
  - exact H1.
  - exact H2.
Defined.

Lemma read_transaction_in_bounds_witness :
  exists tx r, read_transaction (Reader.new (enc_wire (WireFive (ex_v5 [])))) = Ok (tx, r) /\
    raw_bytes tx = take (Z.to_nat (position r)) (enc_wire (WireFive (ex_v5 []))).
Proof.
  destruct (read_transaction (Reader.new (enc_wire (WireFive (ex_v5 []))))) as [[tx r]|] eqn:Hr;
    [|vm_compute in Hr; discriminate Hr].
  exists tx, r. split; [reflexivity|].
  apply (read_transaction_in_bounds (enc_wire (WireFive (ex_v5 []))) tx r).
  - vm_compute. repeat constructor; discriminate.
  - exact Hr.
Defined.
End Example.
End BlockDecode.
