(* ===== verification/Engine.v ===== *)
(** * The sync engine's drive loop
    ([packages/zaino-sync/src/engine.rs], [traits.rs], [pipeline.rs])

    The engine pushes blocks into the buffer, runs what the scheduler declares
    ready, stashes each batch's writes and commits a batch atomically, with the
    watermark, once every index has persisted it.  Pipelines and the backend are
    trait objects: records of operations over a state.  [None] is a panic (an
    [expect]) or a loop out of fuel. *)

From S2P Require Import Prelude Primitives Types Persistence Codec Seam Dag Scheduler.
From stdpp Require Import base gmap list strings sets relations sorting.
From Stdlib Require Import Lia.
Open Scope nat_scope.

Module Engine.
Import Kv.
Import Codec.
Import Dag.
Import Scheduler.

(** ** Reading through the uncommitted writes *)

(** [PendingOverlay]: [Some None] is a tombstone. *)
Definition PendingOverlay : Type := gmap (string * RawKey) (option RawValue).

Definition overlay_op (o : PendingOverlay) (op : WriteOp) : PendingOverlay :=
  match op with
  | Put ns k v => <[(ns, k) := Some v]> o
  | Delete ns k => <[(ns, k) := None]> o
  end.
Definition overlay_apply (o : PendingOverlay) (ops : list WriteOp) : PendingOverlay :=
  fold_left overlay_op ops o.

Record DepsReader := mkDepsReader {
  dr_reader : BackendReader;
  dr_overlay : PendingOverlay;
  dr_allowed : list IndexId }.

Inductive DepsReadError :=
| Undeclared (dependency : IndexId)
| DepsRead
| DepsDecode (e : Layout.DecodeError).

(** [DepsReader::get::<D>]: the dependency's name and its codec. *)
Definition deps_get (D : EntryCodec) (d : DepsReader) (name : IndexId) (key : Key D)
    : result (option (Value D)) DepsReadError :=
  if negb (bool_decide (name ∈ dr_allowed d)) then Err (Undeclared name)
  else
    let key_bytes := encode_key D key in
    let? raw :=
      match dr_overlay d !! (name, key_bytes) with
      | Some slot => Ok slot
      | None => map_err (fun _ => DepsRead) (r_get (dr_reader d) name key_bytes)
      end in
    match raw with
    | None => Ok None
    | Some bytes =>
        let? v := map_err DepsDecode (decode_value D bytes) in
        Ok (Some v)
    end.

(** ** The interfaces the engine drives *)
Inductive PipelineError :=
| ExtractError | MergeError | PipelineReadError
| PipelineLoad (e : Codec.LoadError)
| PipelineDecode (e : Layout.DecodeError)
| IncompatibleFormat (index : IndexId)
| MissingMergedState (index : IndexId)
| ScopeRouting (index : IndexId).

Inductive SyncError :=
| DagFault (e : DagError)
| PipelineFault (e : PipelineError)
| BackendOpen | BackendRead | BackendCommit | BackendFlush
| SeamRefused (f : Seam.SeamFault).

Section Engine.
Context {Ctx PSt BSt : Type}.

(** [IndexPipeline]: a bridge's methods over its buffers; a method may panic. *)
Record IndexPipeline := mkPipeline {
  p_descriptor : Descriptor;
  extract_one : nat -> Ctx -> PSt -> option (result PSt PipelineError);
  extract_one_cross : nat -> Ctx -> DepsReader -> PSt -> option (result PSt PipelineError);
  merge : PSt -> option (result PSt PipelineError);
  persist : PSt -> option (result (list WriteOp * PSt) PipelineError);
  load_state : BackendReader -> option Z -> PSt -> option (result PSt PipelineError) }.

Record EngineConfig := mkConfig { cfg_batch_size : nat; start_height : Z }.

Record SyncEngine := mkEngine {
  scheduler : Scheduler;
  pipelines : gmap IndexId (IndexPipeline * PSt);
  backend : BSt;
  buffer : @BlockBuffer.BlockBuffer Ctx;
  next_height : Z;
  batch_last_height : gmap nat Z;
  pending_ops : gmap nat (list WriteOp);
  evicted_through : option nat;
  watermark : option Seam.SeamState;
  authorisation : option Seam.Released }.

Context (B : Backend BSt) `{HashIter} `{ParOrder}.

Definition M (A : Type) : Type := SyncEngine -> option (result A SyncError * SyncEngine).

Definition ret {A} (a : A) : M A := fun e => Some (Ok a, e).
Definition bind {A C} (m : M A) (k : A -> M C) : M C := fun e =>
  match m e with
  | None => None
  | Some (Err x, e) => Some (Err x, e)
  | Some (Ok a, e) => k a e
  end.
Local Notation "'let*' x ':=' m 'in' k" := (bind m (fun x => k))
  (at level 10, x pattern, m at level 200, k at level 200).
Definition get : M SyncEngine := fun e => Some (Ok e, e).
Definition lift {A} (r : result A SyncError) : M A := fun e => Some (r, e).
Definition expect {A} (o : option A) : M A := fun e => let! a := o in Some (Ok a, e).
Definition modify (f : SyncEngine -> SyncEngine) : M unit := fun e => Some (Ok tt, f e).

(** Field updates. *)
Definition set_scheduler (s : Scheduler) (e : SyncEngine) : SyncEngine :=
  mkEngine s (pipelines e) (backend e) (buffer e) (next_height e) (batch_last_height e)
    (pending_ops e) (evicted_through e) (watermark e) (authorisation e).
Definition set_pipelines (p : gmap IndexId (IndexPipeline * PSt)) (e : SyncEngine) : SyncEngine :=
  mkEngine (scheduler e) p (backend e) (buffer e) (next_height e) (batch_last_height e)
    (pending_ops e) (evicted_through e) (watermark e) (authorisation e).
Definition set_backend (b : BSt) (e : SyncEngine) : SyncEngine :=
  mkEngine (scheduler e) (pipelines e) b (buffer e) (next_height e) (batch_last_height e)
    (pending_ops e) (evicted_through e) (watermark e) (authorisation e).
Definition set_pending (p : gmap nat (list WriteOp)) (e : SyncEngine) : SyncEngine :=
  mkEngine (scheduler e) (pipelines e) (backend e) (buffer e) (next_height e) (batch_last_height e)
    p (evicted_through e) (watermark e) (authorisation e).
Definition set_last_height (m : gmap nat Z) (e : SyncEngine) : SyncEngine :=
  mkEngine (scheduler e) (pipelines e) (backend e) (buffer e) (next_height e) m
    (pending_ops e) (evicted_through e) (watermark e) (authorisation e).
Definition set_watermark (w : option Seam.SeamState) (e : SyncEngine) : SyncEngine :=
  mkEngine (scheduler e) (pipelines e) (backend e) (buffer e) (next_height e) (batch_last_height e)
    (pending_ops e) (evicted_through e) w (authorisation e).
Definition set_authorisation (a : option Seam.Released) (e : SyncEngine) : SyncEngine :=
  mkEngine (scheduler e) (pipelines e) (backend e) (buffer e) (next_height e) (batch_last_height e)
    (pending_ops e) (evicted_through e) (watermark e) a.

(** ** Construction *)
Fixpoint load_all (reader : BackendReader) (resume : option Z)
    (ps : list (IndexId * (IndexPipeline * PSt))) (m : gmap IndexId (IndexPipeline * PSt))
    : option (result (gmap IndexId (IndexPipeline * PSt)) PipelineError) :=
  match ps with
  | [] => Some (Ok m)
  | (id, (p, st)) :: ps =>
      let! loaded := load_state p reader resume st in
      match loaded with
      | Err x => Some (Err x)
      | Ok st => load_all reader resume ps (<[id := (p, st)]> m)
      end
  end.

(** [SyncEngine::from_pipelines] *)
Definition from_pipelines (set : list (IndexPipeline * PSt)) (b : BSt) (config : EngineConfig)
    : option (result SyncEngine SyncError) :=
  let! built := build ((fun p => p_descriptor p.1) <$> set) in
  match built with
  | Err x => Some (Err (DagFault x))
  | Ok d =>
      let ps := list_to_map (reverse ((fun p => (name (p_descriptor p.1), p)) <$> set)) in
      match b_reader B b with
      | Err _ => Some (Err BackendOpen)
      | Ok reader =>
          match read_watermark reader with
          | Err _ => Some (Err BackendRead)
          | Ok resume_from =>
              let! loaded := load_all reader resume_from (hiter ps) ps in
              match loaded with
              | Err x => Some (Err (PipelineFault x))
              | Ok ps =>
                  let! s := new d (cfg_batch_size config) in
                  Some (Ok (mkEngine s ps b (BlockBuffer.new (cfg_batch_size config))
                    (start_height config) ∅ ∅ None None None))
              end
          end
      end
  end.

(** [SyncEngine::committed_height] *)
Definition committed_height (b : BSt) : result (option Z) SyncError :=
  let? reader := map_err (fun _ => BackendOpen) (b_reader B b) in
  map_err (fun _ => BackendRead) (read_watermark reader).

(** ** Supply *)

(** [SyncEngine::push_block] *)
Definition push_block (ctx : Ctx) (e : SyncEngine) : SyncEngine :=
  let offset := BlockBuffer.total_pushed (buffer e) in
  let batch := offset / batch_size (scheduler e) in
  let buf := BlockBuffer.push (buffer e) offset ctx in
  mkEngine (set_blocks_available (scheduler e) (BlockBuffer.total_pushed buf)) (pipelines e)
    (backend e) buf (next_height e + 1)%Z (<[batch := next_height e]> (batch_last_height e))
    (pending_ops e) (evicted_through e) (watermark e) (authorisation e).

Definition finish_supply (e : SyncEngine) : SyncEngine :=
  set_scheduler (provisioner_done (scheduler e) (BlockBuffer.total_pushed (buffer e))) e.

(** ** Extraction *)

Definition is_cross (e : SyncEngine) (index : IndexId) : bool :=
  match pipelines e !! index with
  | Some (p, _) => match scope (p_descriptor p) with CrossIndex => true | _ => false end
  | None => false
  end.

(** The work list of [run_local_extractions]: every lookup happens before any
    extraction runs. *)
Fixpoint local_work (e : SyncEngine) (jobs : list ExtractJob)
    : option (list (IndexId * nat * Ctx)) :=
  match jobs with
  | [] => Some []
  | j :: jobs =>
      let! ctx := BlockBuffer.get (buffer e) (global_offset j) in
      let! p := pipelines e !! job_index j in
      let! rest := local_work e jobs in
      Some ((job_index j, global_offset j, ctx) :: rest)
  end.

Definition run_one (extract : IndexPipeline -> PSt -> option (result PSt PipelineError))
    (index : IndexId) : M unit := fun e =>
  let! (p, st) := pipelines e !! index in
  let! extracted := extract p st in
  match extracted with
  | Err x => Some (Err (PipelineFault x), e)
  | Ok st => Some (Ok tt, set_pipelines (<[index := (p, st)]> (pipelines e)) e)
  end.

(** An error stops the loop; what the other threads still ran is not modelled
    (nothing is stated of the state after an error). *)
Fixpoint run_local (work : list (IndexId * nat * Ctx)) : M unit :=
  match work with
  | [] => ret tt
  | (index, offset, ctx) :: work =>
      let* _ := run_one (fun p => extract_one p offset ctx) index in
      run_local work
  end.
Definition run_local_extractions (jobs : list ExtractJob) : M unit :=
  let* e := get in
  let* work := expect (local_work e jobs) in
  run_local (par_order work).

(** [build_pending_overlay]: ascending batch order. *)
Definition build_pending_overlay (e : SyncEngine) : PendingOverlay :=
  fold_left (fun o b => overlay_apply o (default [] (pending_ops e !! b)))
    (merge_sort Nat.le (keys (pending_ops e))) ∅.

Fixpoint run_cross (overlay : PendingOverlay) (reader : BackendReader) (jobs : list ExtractJob)
    : M unit :=
  match jobs with
  | [] => ret tt
  | j :: jobs =>
      let* e := get in
      let* ctx := expect (BlockBuffer.get (buffer e) (global_offset j)) in
      let* _ := run_one (fun p => extract_one_cross p (global_offset j) ctx
                  (mkDepsReader reader overlay (dependencies (p_descriptor p)))) (job_index j) in
      run_cross overlay reader jobs
  end.
Definition run_cross_extractions (jobs : list ExtractJob) : M unit :=
  match jobs with
  | [] => ret tt
  | _ =>
      let* e := get in
      let* reader := lift (map_err (fun _ => BackendOpen) (b_reader B (backend e))) in
      run_cross (build_pending_overlay e) reader jobs
  end.

Definition run_extractions_parallel (jobs : list ExtractJob) : M unit :=
  let* e := get in
  let* _ := run_local_extractions (filter (fun j => is_cross e (job_index j) = false) jobs) in
  run_cross_extractions (filter (fun j => is_cross e (job_index j) = true) jobs).

(** ** Commit *)

(** [SyncEngine::try_evict] *)
Definition try_evict (batch : nat) (e : SyncEngine) : SyncEngine :=
  mkEngine (scheduler e) (pipelines e) (backend e)
    (BlockBuffer.evict_through_batch (buffer e) batch) (next_height e) (batch_last_height e)
    (pending_ops e) (Some batch) (watermark e) (authorisation e).

Definition next_candidate (e : SyncEngine) : nat :=
  match evicted_through e with None => 0 | Some b => b + 1 end.

(** The seam is told last, when the batch and its stamp are durable. *)
Definition publish_watermark (height : Z) : M unit := fun e =>
  match watermark e, authorisation e with
  | Some seam, Some authorised_by =>
      match Seam.watermark_advance seam authorised_by height with
      | Ok (_, seam) => Some (Ok tt, set_watermark (Some seam) e)
      | Err f => Some (Err (SeamRefused f), e)
      end
  | _, _ => Some (Ok tt, e)
  end.

Definition commit_batch (candidate : nat) (ops : list WriteOp) (committed_height : Z) : M unit :=
  let* height := expect (let! h := try_narrow 32 committed_height in ok (Height.try_from h)) in
  let* e := get in
  let* _ := lift (map_err (fun _ => BackendOpen) (b_writer B (backend e))) in
  let* b := lift (map_err (fun _ => BackendCommit)
              (b_commit B (backend e) (ops ++ [stamp height]))) in
  let* _ := modify (set_backend b) in
  let* _ := publish_watermark height in
  modify (try_evict candidate).

(** [SyncEngine::try_commit]; every turn takes an entry of [batch_last_height]. *)
Fixpoint try_commit_loop (fuel : nat) : M unit := fun e =>
  let candidate := next_candidate e in
  let! all := all_committed_through (scheduler e) candidate in
  if negb all then Some (Ok tt, e)
  else
    let ops := default [] (pending_ops e !! candidate) in
    let e := set_pending (delete candidate (pending_ops e)) e in
    match batch_last_height e !! candidate with
    | None => Some (Ok tt, e)
    | Some committed_height =>
        match fuel with
        | O => None
        | S fuel =>
            let e := set_last_height (delete candidate (batch_last_height e)) e in
            (let* _ := commit_batch candidate ops committed_height in
             try_commit_loop fuel) e
        end
    end.
Definition try_commit : M unit := fun e => try_commit_loop (size (batch_last_height e)) e.

(** ** Merge *)

(** Each handle has its own pipeline, so the order rayon merges in does not
    matter; the results are in the handles' order. *)
Definition merge_persist (p : IndexPipeline) (st : PSt)
    : option (result (list WriteOp * PSt) PipelineError) :=
  let! merged := merge p st in
  match merged with
  | Err x => Some (Err x)
  | Ok st => persist p st
  end.
Fixpoint merge_all (handles : list BatchHandle) : M (list (BatchHandle * list WriteOp)) :=
  match handles with
  | [] => ret []
  | h :: handles => fun e =>
      let! (p, st) := pipelines e !! bh_index h in
      let! persisted := merge_persist p st in
      match persisted with
      | Err x => Some (Err (PipelineFault x), e)
      | Ok (ops, st) =>
          (let* rest := merge_all handles in ret ((h, ops) :: rest))
            (set_pipelines (<[bh_index h := (p, st)]> (pipelines e)) e)
      end
  end.

Fixpoint find_handle (index : IndexId) (hs : list BatchHandle) : option BatchHandle :=
  match hs with
  | [] => None
  | h :: hs => if bool_decide (bh_index h = index) then Some h else find_handle index hs
  end.

Fixpoint stash_all (results : list (BatchHandle * list WriteOp)) : M unit :=
  match results with
  | [] => ret tt
  | (h, ops) :: results => fun e =>
      let e := set_pending
        (<[bh_batch h := default [] (pending_ops e !! bh_batch h) ++ ops]> (pending_ops e)) e in
      let! pending := ready_for_merge (scheduler e) in
      let! handle := find_handle (bh_index h) pending in
      let (merged, s) := merge_done (scheduler e) handle in
      stash_all results (set_scheduler (batch_committed s merged) e)
  end.

(** [SyncEngine::merge_persist_parallel] *)
Definition merge_persist_parallel (handles : list BatchHandle) : M unit :=
  let* results := merge_all handles in
  let* _ := stash_all results in
  try_commit.

Definition merge_if_any (handles : list BatchHandle) : M unit :=
  match handles with [] => ret tt | _ => merge_persist_parallel handles end.

(** ** Dispatch *)

(** [SyncEngine::flush_batch_completions] *)
Fixpoint split_tasks (s : Scheduler) (tasks : list Task) : option (list ExtractJob * list BatchHandle) :=
  match tasks with
  | [] => Some ([], [])
  | Extract j :: tasks => let! (js, hs) := split_tasks s tasks in Some (j :: js, hs)
  | CompleteBatch index _ :: tasks =>
      let! pending := ready_for_merge s in
      let! (js, hs) := split_tasks s tasks in
      Some (js, match find_handle index pending with Some h => h :: hs | None => hs end)
  end.
Definition flush_batch_completions (tasks : list Task) : M (list ExtractJob) :=
  let* e := get in
  let* (jobs, handles) := expect (split_tasks (scheduler e) tasks) in
  let* _ := merge_if_any handles in
  ret jobs.

(** [SyncEngine::report_extractions] *)
Fixpoint report_loop (s : Scheduler) (jobs : list ExtractJob)
    : option (list BatchHandle * Scheduler) :=
  match jobs with
  | [] => Some ([], s)
  | j :: jobs =>
      let! (h, s) := extraction_done s (job_index j) in
      let! (hs, s) := report_loop s jobs in
      Some (match h with Some h => h :: hs | None => hs end, s)
  end.
Definition report_extractions (jobs : list ExtractJob) : M unit :=
  let* e := get in
  let* (handles, s) := expect (report_loop (scheduler e) jobs) in
  let* _ := modify (set_scheduler s) in
  merge_if_any handles.

(** [SyncEngine::dispatch_tasks] *)
Definition dispatch_tasks (tasks : list Task) : M unit :=
  let* jobs := flush_batch_completions tasks in
  let* _ := run_extractions_parallel jobs in
  report_extractions jobs.

(** ** The drive loops *)

(** One supply turn of [sync_streaming]: up to [n] blocks; [true] when the source
    is exhausted. *)
Fixpoint pull (n : nat) (source : list Ctx) (e : SyncEngine) : SyncEngine * list Ctx * bool :=
  match n with
  | O => (e, source, false)
  | S n =>
      match source with
      | ctx :: source => pull n source (push_block ctx e)
      | [] => (finish_supply e, [], true)
      end
  end.
Definition supply (source : list Ctx) (e : SyncEngine) : SyncEngine * list Ctx * bool :=
  let '(e, source, done) := pull (batch_size (scheduler e)) source e in
  (if done then e
   else set_scheduler
          (set_blocks_available (scheduler e) (BlockBuffer.total_pushed (buffer e))) e,
   source, done).

Definition flush : M unit := fun e =>
  match b_flush B (backend e) with
  | Ok b => Some (Ok tt, set_backend b e)
  | Err _ => Some (Err BackendFlush, e)
  end.

(** [SyncEngine::sync_streaming] *)
Fixpoint streaming_loop (fuel : nat) (source : list Ctx) (provisioner_done : bool) : M unit := fun e =>
  match fuel with
  | O => None
  | S fuel =>
      let '(e, source, done) :=
        if provisioner_done then (e, source, true) else supply source e in
      let! tasks := ready_work (scheduler e) in
      match tasks with
      | [] => if done then flush e else streaming_loop fuel source done e
      | _ => (let* _ := dispatch_tasks tasks in streaming_loop fuel source done) e
      end
  end.
Definition sync_streaming (fuel : nat) (source : list Ctx) : M unit :=
  streaming_loop fuel source false.

(** The condition [assert_post_sync_invariants] asserts, and the assertion: a
    [debug_assert!] is checked only in a debug build. *)
Definition post_sync_invariants (e : SyncEngine) : bool :=
  BlockBuffer.is_empty (buffer e) && bool_decide (pending_ops e = ∅) &&
  let total := BlockBuffer.total_pushed (buffer e) in
  if 0 <? total
  then bool_decide (evicted_through e = Some ((total - 1) / batch_size (scheduler e)))
  else true.

Definition assert_post_sync_invariants (debug : bool) : M unit := fun e =>
  if debug && negb (post_sync_invariants e) then None else Some (Ok tt, e).

(** [SyncEngine::sync_range] *)
Definition sync_range (debug : bool) (fuel : nat) (blocks : list Ctx) : M unit :=
  let* _ := sync_streaming fuel blocks in
  assert_post_sync_invariants debug.

(** A channel as its receiver sees it: the blocks in order, [None] where a
    non-blocking receive would find it empty; at the end it is closed. *)
Definition Receiver : Type := list (option Ctx).

(** [SyncEngine::drain_channel] *)
Fixpoint drain_channel (rx : Receiver) (e : SyncEngine) : SyncEngine * Receiver * bool :=
  match rx with
  | [] => (finish_supply e, [], true)
  | None :: rx => (e, rx, false)
  | Some ctx :: rx => drain_channel rx (push_block ctx e)
  end.
(** [SyncEngine::await_block] *)
Fixpoint await_block (rx : Receiver) (e : SyncEngine) : SyncEngine * Receiver * bool :=
  match rx with
  | [] => (finish_supply e, [], true)
  | None :: rx => await_block rx e
  | Some ctx :: rx => (push_block ctx e, rx, false)
  end.

(** [SyncEngine::sync_channel] *)
Fixpoint channel_loop (fuel : nat) (rx : Receiver) (provisioner_done : bool) : M unit := fun e =>
  match fuel with
  | O => None
  | S fuel =>
      let '(e, rx, done) :=
        if provisioner_done then (e, rx, true) else drain_channel rx e in
      let! tasks := ready_work (scheduler e) in
      match tasks with
      | [] =>
          if done then flush e
          else let '(e, rx, done) := await_block rx e in channel_loop fuel rx done e
      | _ => (let* _ := dispatch_tasks tasks in channel_loop fuel rx done) e
      end
  end.
Definition sync_channel (debug : bool) (fuel : nat) (rx : Receiver) : M unit :=
  let* _ := channel_loop fuel rx false in
  assert_post_sync_invariants debug.
End Engine.

End Engine.
