(* ===== verification/EngineCorrect.v ===== *)
(** * The sync engine does what it drives
    ([packages/zaino-sync/src/engine.rs])

    Invariants of the drive loop, the atomic commits, and the completeness of a
    synchronised range. *)

From S2P Require Import Prelude Primitives Types Persistence Codec Seam Dag Scheduler Engine.
From stdpp Require Import base gmap list strings sets relations sorting.
From Stdlib Require Import Lia.
Open Scope nat_scope.

Module EngineCorrect.
Import Kv.
Import Codec.
Import Dag.
Import Scheduler.
Import Engine.

(** ** The scheduler under the engine *)
Section SchedulerFacts.
Context `{HashIter}.

(** How many of the jobs are an index's. *)
Definition cnt (id : IndexId) (jobs : list ExtractJob) : nat :=
  length (filter (fun j => job_index j = id) jobs).

Lemma cnt_cons id j jobs :
  cnt id (j :: jobs) = (if decide (job_index j = id) then 1 else 0) + cnt id jobs.
Proof. unfold cnt. rewrite filter_cons. by case_decide. Qed.

(** The next [n] blocks of the index's batch may be extracted. *)
Definition can_extract (s : Scheduler) (id : IndexId) (n : nat) : Prop :=
  exists c x ds,
    current_batch s !! id = Some c /\ extracted_in_batch s !! id = Some x /\
    x + n <= effective_batch_size s c /\ c * batch_size s + (x + n) <= blocks_available s /\
    id ∉ pending_merge s /\ id ∉ pending_commit s /\ deps s !! id = Some ds /\
    forall d r, (d, r) ∈ ds -> r = Pipelined /\ exists b, current_batch s !! d = Some b /\ c < b.

Lemma can_may s id n : can_extract s id (S n) -> exists j, job_index j = id /\ may_extract s j.
Proof.
  intros (c & x & ds & Hc & Hx & He & Ha & ? & ? & ? & ?).
  exists (mkJob id c x (c * batch_size s + x)). split; [done|].
  exists c, x, ds. cbn. split_and!; (done || lia).
Qed.

Lemma report_loop_spec s jobs :
  sched_ok s -> (forall j, j ∈ jobs -> job_index j ∈ all_indexes s) ->
  (forall id, cnt id jobs = 0 \/ can_extract s id (cnt id jobs)) ->
  exists hs ex,
    let s' := set_progress s ex (current_batch s) (committed_through s)
      (list_to_set (bh_index <$> hs) ∪ pending_merge s) (pending_commit s) in
    report_loop s jobs = Some (hs, s') /\ sched_ok s' /\
    (forall id x, extracted_in_batch s !! id = Some x -> ex !! id = Some (x + cnt id jobs)) /\
    NoDup (bh_index <$> hs) /\
    forall h, h ∈ hs <->
      0 < cnt (bh_index h) jobs /\ current_batch s !! bh_index h = Some (bh_batch h) /\
      exists x, extracted_in_batch s !! bh_index h = Some x /\
        x + cnt (bh_index h) jobs = effective_batch_size s (bh_batch h).
Proof.
  revert s. induction jobs as [|j jobs IH]; intros s Hok Hin Hcan.
  { exists [], (extracted_in_batch s). cbn zeta. split_and!.
    - cbn. do 2 f_equal. destruct s. unfold set_progress. cbn. f_equal. set_solver.
    - destruct s. unfold set_progress. cbn. rewrite (left_id_L ∅ (∪)). exact Hok.
    - intros id x ->. by rewrite Nat.add_0_r.
    - constructor.
    - intros h. rewrite elem_of_nil. unfold cnt. cbn. split; [done|]. intros [? _]. lia. }
  set (id := job_index j) in *. assert (Hid : id ∈ all_indexes s) by (apply Hin; left).
  destruct (Hcan id) as [Hz|Hc]; [rewrite cnt_cons, decide_True in Hz by done; lia|].
  rewrite cnt_cons, decide_True in Hc by done. change (1 + cnt id jobs) with (S (cnt id jobs)) in Hc.
  destruct (can_may s id _ Hc) as (j' & Hj' & Hmay).
  destruct (extraction_done_spec s id Hok Hid) as (b & k & Hb & Hk & Hdone).
  destruct Hc as (c & x & ds & Hc & Hx & He & Ha & Hm & Hp & Hds & Hdeps).
  assert (b = c) as -> by congruence. assert (k = x) as -> by congruence.
  set (s1 := set_progress s _ _ _ _ _) in Hdone.
  assert (Hdone' : sched_ok s1).
  { eapply (extract_preserves s j' _ s1 Hok); [by rewrite Hj'|done|by rewrite Hj']. }
  assert (Heff : forall b', effective_batch_size s1 b' = effective_batch_size s b') by done.
  destruct (IH s1 Hdone') as (hs & ex & Hrun & Hok' & Hex & Hnd & Hhs).
  { intros i Hi. apply Hin. by right. }
  { intros id'. destruct (decide (id' = id)) as [->|Hne].
    - destruct (cnt id jobs) as [|n] eqn:Hn; [by left|right].
      exists c, (x + 1), ds. cbn [s1 set_progress current_batch extracted_in_batch pending_merge
        pending_commit deps blocks_available batch_size]. rewrite lookup_insert_eq.
      destruct (Nat.leb_spec (effective_batch_size s c) (x + 1)); [lia|].
      split_and!; try done; rewrite ?Heff; lia.
    - specialize (Hcan id'). rewrite cnt_cons, decide_False in Hcan by (fold id; congruence).
      destruct Hcan as [Hz|(c' & x' & ds' & ? & ? & ? & ? & ? & ? & ? & ?)]; [by left|right].
      exists c', x', ds'. cbn [s1 set_progress current_batch extracted_in_batch pending_merge
        pending_commit deps blocks_available batch_size]. rewrite lookup_insert_ne by done.
      split_and!; try done. destruct (_ <=? _); set_solver. }
  cbn zeta in Hrun, Hok'.
  exists (if effective_batch_size s c <=? x + 1 then mkHandle id c :: hs else hs), ex.
  cbn zeta. cbn [report_loop]. fold id. rewrite Hdone, Hrun.
  assert (Hcid : cnt id (j :: jobs) = S (cnt id jobs)) by by rewrite cnt_cons, decide_True.
  assert (Hset : set_progress s1 ex (current_batch s1) (committed_through s1)
      (list_to_set (bh_index <$> hs) ∪ pending_merge s1) (pending_commit s1) =
    set_progress s ex (current_batch s) (committed_through s)
      (list_to_set (bh_index <$> (if effective_batch_size s c <=? x + 1 then mkHandle id c :: hs else hs))
        ∪ pending_merge s) (pending_commit s)).
  { unfold set_progress. cbn [s1 set_progress]. f_equal. cbn. destruct (_ <=? _); set_solver. }
  rewrite <- Hset.
  assert (Hhs_id : forall h, h ∈ hs -> bh_index h = id -> x + 1 < effective_batch_size s c).
  { intros h Hh Hi. apply Hhs in Hh as (Hpos & _). rewrite Hi in Hpos. lia. }
  split_and!; [by destruct (_ <=? _)|done|..].
  - intros id' x' Hx'. destruct (decide (id = id')) as [<-|Hne].
    + assert (x' = x) as -> by congruence. rewrite (Hex id (x + 1)) by (cbn; by rewrite lookup_insert_eq).
      rewrite Hcid. f_equal. lia.
    + rewrite cnt_cons, decide_False by done. apply Hex. cbn. by rewrite lookup_insert_ne.
  - destruct (Nat.leb_spec (effective_batch_size s c) (x + 1)) as [Hle|Hlt]; [|done].
    constructor; [|done]. intros (h & Hi & Hh)%list_elem_of_fmap. cbn in Hi.
    specialize (Hhs_id h Hh (eq_sym Hi)). lia.
  - intros h. destruct (decide (bh_index h = id)) as [Hi|Hne].
    + rewrite !Hi, Hcid. destruct (Nat.leb_spec (effective_batch_size s c) (x + 1)) as [Hle|Hlt].
      * rewrite elem_of_cons. split.
        -- intros [->|Hh]; [|specialize (Hhs_id h Hh Hi); lia]. cbn. split_and!; [lia|done|].
           exists x. split; [done|lia].
        -- intros (_ & Hcb & _). left. destruct h as [hi hb]. cbn in *. congruence.
      * rewrite Hhs, Hi. cbn [s1 set_progress current_batch extracted_in_batch].
        setoid_rewrite lookup_insert_eq. setoid_rewrite Heff. split.
        -- intros (? & ? & x' & [= <-] & ?). split_and!; [lia|done|]. exists x. split; [done|lia].
        -- intros (? & Hcb & x' & Hx' & ?). assert (x' = x) as -> by congruence.
           assert (bh_batch h = c) as Hbc by congruence. rewrite Hbc in *.
           split_and!; [lia|done|]. exists (x + 1). split; [done|lia].
    + assert (h ∈ (if effective_batch_size s c <=? x + 1 then mkHandle id c :: hs else hs) <-> h ∈ hs)
        as ->.
      { destruct (_ <=? _); [|done]. rewrite elem_of_cons. split; [|by right].
        intros [->|?]; [done|done]. }
      rewrite Hhs, cnt_cons, decide_False by done. cbn [s1 set_progress current_batch extracted_in_batch].
      by rewrite lookup_insert_ne.
Qed.

Lemma emit_length s id b off n :
  length (emit s id b off n) = Nat.min n (blocks_available s - (b * batch_size s + off)).
Proof.
  revert off. induction n as [|n IH]; intros off; cbn [emit]; [done|].
  destruct (Nat.leb_spec (blocks_available s) (b * batch_size s + off)); [cbn [length]; lia|].
  cbn [length]. rewrite IH. lia.
Qed.

Lemma emit_index s id b off n : Forall (fun j => job_index j = id) (emit s id b off n).
Proof.
  revert off. induction n as [|n IH]; intros off; cbn [emit]; [done|].
  destruct (_ <=? _); [done|]. by constructor.
Qed.

(** The jobs offered for an index are a run of blocks it may extract. *)
Lemma index_extractions_can s id jobs :
  sched_ok s -> id ∈ all_indexes s -> index_extractions s id = Some jobs ->
  Forall (fun j => job_index j = id) jobs /\ (jobs = [] \/ can_extract s id (length jobs)).
Proof.
  intros Hok Hid. unfold index_extractions.
  destruct (ok_batch _ Hok id Hid) as (c & Hc & _).
  destruct (ok_extracted _ Hok id Hid) as [x Hx].
  destruct (ok_deps _ Hok id Hid) as (ds & Hds & Hall).
  destruct (bool_decide_reflect (id ∈ pending_merge s)) as [|Hm]; cbn;
    [intros [= <-]; by split; [|left]|].
  destruct (bool_decide_reflect (id ∈ pending_commit s)) as [|Hp]; cbn;
    [intros [= <-]; by split; [|left]|].
  rewrite Hc, Hx. cbn. destruct (Nat.leb_spec (effective_batch_size s c) x) as [Hge|Hlt];
    [intros [= <-]; by split; [|left]|].
  unfold firing_rules_satisfied. rewrite Hds. cbn.
  destruct (rules_satisfied_spec s c ds) as (fired & -> & Hf).
  { intros d r Hin. apply (ok_batch _ Hok). by eapply Hall. }
  cbn. destruct fired; cbn; [|intros [= <-]; by split; [|left]].
  intros [= <-]. split; [apply emit_index|].
  match goal with |- ?l = [] \/ _ => destruct l eqn:Hl; [by left|right] end.
  rewrite <- Hl, emit_length. assert (Hpos : 0 < length (e :: l)) by (cbn; lia).
  rewrite <- Hl, emit_length in Hpos.
  exists c, x, ds. split_and!; try done; [destruct (is_parallel s id); lia|lia|by apply Hf].
Qed.

Lemma cnt_app id l l' : cnt id (l ++ l') = cnt id l + cnt id l'.
Proof. unfold cnt. by rewrite filter_app, length_app. Qed.

Lemma cnt_of id jobs i :
  Forall (fun j => job_index j = i) jobs -> cnt id jobs = if decide (i = id) then length jobs else 0.
Proof.
  induction 1 as [|j jobs Hj _ IH]; [by case_decide|].
  rewrite cnt_cons, IH, Hj. by case_decide.
Qed.

Lemma ready_can s jobs id :
  sched_ok s -> NoDup (all_indexes s) -> ready_extractions s = Some jobs ->
  cnt id jobs = 0 \/ can_extract s id (cnt id jobs).
Proof.
  intros Hok Hnd Hjobs.
  assert (forall ids jobs, NoDup ids -> (forall i, i ∈ ids -> i ∈ all_indexes s) ->
    extractions_of s ids = Some jobs ->
    (cnt id jobs = 0 \/ can_extract s id (cnt id jobs)) /\ (id ∉ ids -> cnt id jobs = 0)) as Hgen;
    [|by eapply Hgen].
  clear Hjobs Hnd jobs. induction ids as [|i ids IH]; intros jobs Hnd Hsub; cbn [extractions_of].
  { intros [= <-]. by split; [left|]. }
  apply NoDup_cons in Hnd as [Hi Hnd].
  destruct (index_extractions s i) as [js|] eqn:Hjs; [|done]. cbn.
  destruct (extractions_of s ids) as [rest|] eqn:Hrest; [|done]. cbn. intros [= <-].
  destruct (IH rest Hnd) as [Hr Hr0]; [intros; apply Hsub; by right|done|].
  destruct (index_extractions_can s i js Hok) as [Hall Hcan]; [apply Hsub; left|done|].
  rewrite cnt_app, (cnt_of id js i Hall). case_decide as Hd.
  - subst i. rewrite Hr0, Nat.add_0_r by done. split; [|set_solver].
    destruct Hcan as [->|?]; [by left|by right].
  - split; [exact Hr|]. set_solver.
Qed.
End SchedulerFacts.

(** ** Running without panicking

    [runs F m e Q]: from [e] the program neither panics nor runs out of fuel, an
    error is possible only if [F], and a success satisfies [Q].  [F] is whatever
    makes a pipeline, the backend or the seam refuse; with [False] nothing fails. *)
Section Runs.
Context {Ctx PSt BSt : Type}.
Local Abbreviation SyncEngine := (@SyncEngine Ctx PSt BSt).
Local Abbreviation M := (@M Ctx PSt BSt).
Context (F : Prop).
Implicit Types e : SyncEngine.

Definition runs {A} (m : M A) (e : SyncEngine) (Q : A -> SyncEngine -> Prop) : Prop :=
  match m e with
  | None => False
  | Some (Err _, _) => F
  | Some (Ok a, e') => Q a e'
  end.

Lemma runs_ret {A} (a : A) e (Q : A -> SyncEngine -> Prop) : Q a e -> runs (ret a) e Q.
Proof. done. Qed.
Lemma runs_get e (Q : SyncEngine -> SyncEngine -> Prop) : Q e e -> runs get e Q.
Proof. done. Qed.
Lemma runs_modify f e (Q : unit -> SyncEngine -> Prop) : Q tt (f e) -> runs (modify f) e Q.
Proof. done. Qed.
Lemma runs_bind {A C} (m : M A) (k : A -> M C) e Q :
  runs m e (fun a e' => runs (k a) e' Q) -> runs (bind m k) e Q.
Proof. unfold runs, bind. by destruct (m e) as [[[a|x] e']|]. Qed.
Lemma runs_mono {A} (m : M A) e (Q Q' : A -> SyncEngine -> Prop) :
  (forall a e', Q a e' -> Q' a e') -> runs m e Q -> runs m e Q'.
Proof. unfold runs. destruct (m e) as [[[a|x] e']|]; auto. Qed.
Lemma runs_expect {A} (o : option A) a e (Q : A -> SyncEngine -> Prop) :
  o = Some a -> Q a e -> runs (expect o) e Q.
Proof. intros -> HQ. done. Qed.
Lemma runs_lift {A} (r : result A SyncError) e (Q : A -> SyncEngine -> Prop) :
  (forall x, r = Err x -> F) -> (forall a, r = Ok a -> Q a e) -> runs (lift r) e Q.
Proof. unfold runs, lift. destruct r; eauto. Qed.

(** *** What may fail *)

(** An outcome without a panic, and an error only if [F]. *)
Definition outcome {A} (o : option (result A PipelineError)) (Q : A -> Prop) : Prop :=
  match o with Some (Ok a) => Q a | Some (Err _) => F | None => False end.

Definition cross (p : @IndexPipeline Ctx PSt) : bool :=
  match scope (p_descriptor p) with CrossIndex => true | _ => false end.

(** What the engine asks of a pipeline: an invariant of its buffers that loading,
    extraction (through the method its scope declares) and merging with persisting
    keep. *)
Record pipe_inv (p : @IndexPipeline Ctx PSt) (I : PSt -> Prop) : Prop := {
  pi_load r h st : I st ->
    match load_state p r h st with Some (Ok st') => I st' | Some (Err _) => True | None => False end;
  pi_local o c st : cross p = false -> I st -> outcome (extract_one p o c st) I;
  pi_cross o c d st : cross p = true -> I st -> outcome (extract_one_cross p o c d st) I;
  pi_merge st : I st -> outcome (merge_persist p st) (fun r => I r.2) }.
Definition pipe_ok (q : @IndexPipeline Ctx PSt * PSt) : Prop := exists I, pipe_inv q.1 I /\ I q.2.

Definition pipes_ok (m : gmap IndexId (@IndexPipeline Ctx PSt * PSt)) (ids : list IndexId) : Prop :=
  forall i, i ∈ ids -> exists q, m !! i = Some q /\ pipe_ok q.

(** The same pipelines, their buffers still in order. *)
Definition pipes_like (m m' : gmap IndexId (@IndexPipeline Ctx PSt * PSt)) : Prop :=
  forall i, fst <$> m' !! i = fst <$> m !! i /\
    forall q q', m !! i = Some q -> m' !! i = Some q' -> pipe_ok q -> pipe_ok q'.

Lemma pipes_like_refl m : pipes_like m m.
Proof. intros i. split; [done|]. congruence. Qed.
Lemma pipes_like_trans m1 m2 m3 : pipes_like m1 m2 -> pipes_like m2 m3 -> pipes_like m1 m3.
Proof.
  intros H1 H2 i. destruct (H1 i) as [Hf1 Hp1], (H2 i) as [Hf2 Hp2]. split; [congruence|].
  intros q q' Hq Hq' Hok. destruct (m2 !! i) as [q2|] eqn:Hm2; [|by rewrite Hq in Hf1].
  eapply Hp2; [done..|]. by eapply Hp1.
Qed.
Lemma pipes_like_insert m i p st st' :
  m !! i = Some (p, st) -> (pipe_ok (p, st) -> pipe_ok (p, st')) -> pipes_like m (<[i := (p, st')]> m).
Proof.
  intros Hi Hok k. destruct (decide (i = k)) as [<-|].
  - rewrite lookup_insert_eq, Hi. split; [done|]. by intros q q' [= <-] [= <-].
  - rewrite lookup_insert_ne by done. apply pipes_like_refl.
Qed.
Lemma pipes_like_ok m m' ids : pipes_like m m' -> pipes_ok m ids -> pipes_ok m' ids.
Proof.
  intros Hl Hok i Hi. destruct (Hok i Hi) as (q & Hm & Hp), (Hl i) as [Hf Hq].
  rewrite Hm in Hf. destruct (m' !! i) as [q'|] eqn:Hm'; [|done]. exists q'. split; [done|]. by eapply Hq.
Qed.
Lemma pipes_like_cross e ps i : pipes_like (pipelines e) ps -> is_cross (set_pipelines ps e) i = is_cross e i.
Proof.
  intros Hl. destruct (Hl i) as [Hf _]. unfold is_cross. cbn.
  destruct (ps !! i) as [[p st]|], (pipelines e !! i) as [[p' st']|]; cbn in Hf; by simplify_eq.
Qed.

(** *** Extraction *)
Lemma run_one_runs f i e ids :
  pipes_ok (pipelines e) ids -> i ∈ ids ->
  (forall p st I, pipelines e !! i = Some (p, st) -> pipe_inv p I -> I st -> outcome (f p st) I) ->
  runs (run_one f i) e (fun _ e' => exists ps, e' = set_pipelines ps e /\ pipes_like (pipelines e) ps).
Proof.
  intros Hok Hi Hf. destruct (Hok i Hi) as ([p st] & Hp & I & HI & Hst).
  unfold runs, run_one. rewrite Hp. specialize (Hf p st I Hp HI Hst).
  destruct (f p st) as [[st'|x]|]; [|done..]. eexists. split; [done|].
  apply pipes_like_insert with (st := st); [done|]. intros _. by exists I.
Qed.

Lemma run_local_runs work e ids :
  pipes_ok (pipelines e) ids -> Forall (fun w => w.1.1 ∈ ids /\ is_cross e w.1.1 = false) work ->
  runs (run_local work) e (fun _ e' => exists ps, e' = set_pipelines ps e /\ pipes_like (pipelines e) ps).
Proof.
  revert e. induction work as [|[[i o] c] work IH]; intros e Hok Hw.
  - apply runs_ret. exists (pipelines e). split; [by destruct e|apply pipes_like_refl].
  - apply Forall_cons in Hw as [[Hi Hx] Hw]. cbn in Hi, Hx. cbn [run_local]. apply runs_bind.
    eapply runs_mono, run_one_runs; [|done|done|].
    2: { intros p st I Hp HI Hst. apply (pi_local _ _ HI); [|done]. unfold is_cross in Hx. by rewrite Hp in Hx. }
    intros _ e' (ps & -> & Hl). eapply runs_mono, IH; [|by eapply pipes_like_ok|].
    2: { eapply Forall_impl; [exact Hw|]. intros w [? ?]. by rewrite pipes_like_cross. }
    intros _ e'' (ps' & -> & Hl'). exists ps'. split; [done|]. by eapply pipes_like_trans.
Qed.

Lemma local_work_Some e jobs ids :
  pipes_ok (pipelines e) ids ->
  Forall (fun j => job_index j ∈ ids /\ is_Some (BlockBuffer.get (buffer e) (global_offset j))) jobs ->
  exists work, local_work e jobs = Some work /\ (fun w => w.1.1) <$> work = job_index <$> jobs.
Proof.
  intros Hok Hj. induction Hj as [|j jobs [Hi [c Hc]] _ (work & IH & Hw)]; [by eexists|].
  cbn. rewrite Hc. destruct (Hok _ Hi) as (q & -> & _). rewrite IH.
  eexists. split; [done|]. cbn. by rewrite Hw.
Qed.

Lemma run_cross_runs o r jobs e ids :
  pipes_ok (pipelines e) ids ->
  Forall (fun j => job_index j ∈ ids /\ is_Some (BlockBuffer.get (buffer e) (global_offset j))) jobs ->
  Forall (fun j => is_cross e (job_index j) = true) jobs ->
  runs (run_cross o r jobs) e
    (fun _ e' => exists ps, e' = set_pipelines ps e /\ pipes_like (pipelines e) ps).
Proof.
  revert e. induction jobs as [|j jobs IH]; intros e Hok Hj Hx.
  - apply runs_ret. exists (pipelines e). split; [by destruct e|apply pipes_like_refl].
  - apply Forall_cons in Hj as [[Hi [c Hc]] Hj]. apply Forall_cons in Hx as [Hx Hxs]. cbn [run_cross].
    apply runs_bind, runs_get, runs_bind. eapply runs_expect; [done|]. apply runs_bind.
    eapply runs_mono, run_one_runs; [|done|done|].
    2: { intros p st I Hp HI Hst. apply (pi_cross _ _ HI); [|done]. unfold is_cross in Hx. by rewrite Hp in Hx. }
    intros _ e' (ps & -> & Hl). eapply runs_mono, IH; [|by eapply pipes_like_ok|done|].
    2: { eapply Forall_impl; [exact Hxs|]. intros j' ?. by rewrite pipes_like_cross. }
    intros _ e'' (ps' & -> & Hl'). exists ps'. split; [done|]. by eapply pipes_like_trans.
Qed.

(** *** Merging *)
Lemma merge_all_runs handles e ids :
  pipes_ok (pipelines e) ids -> Forall (fun h => bh_index h ∈ ids) handles ->
  runs (merge_all handles) e (fun results e' => results.*1 = handles /\
    exists ps, e' = set_pipelines ps e /\ pipes_like (pipelines e) ps).
Proof.
  intros Hok Hh. revert e Hok. induction Hh as [|h handles Hi _ IH]; intros e Hok.
  - apply runs_ret. split; [done|]. exists (pipelines e). split; [by destruct e|apply pipes_like_refl].
  - cbn [merge_all]. destruct (Hok _ Hi) as ([p st] & Hp & I & HI & Hst).
    cbn in HI, Hst.
    unfold runs. rewrite Hp. pose proof (pi_merge _ _ HI st Hst) as Hm.
    destruct (merge_persist p st) as [[[ops st2]|x]|]; [|exact Hm..]. cbn in Hm.
    assert (Hl : pipes_like (pipelines e) (<[bh_index h := (p, st2)]> (pipelines e))).
    { apply pipes_like_insert with (st := st); [done|]. intros _. by exists I. }
    fold (runs (bind (merge_all handles) (fun rest => ret ((h, ops) :: rest)))
      (set_pipelines (<[bh_index h := (p, st2)]> (pipelines e)) e)
      (fun results e' => results.*1 = h :: handles /\
        exists ps, e' = set_pipelines ps e /\ pipes_like (pipelines e) ps)).
    apply runs_bind. eapply runs_mono, IH; [|by eapply pipes_like_ok].
    intros rest e' (<- & ps & -> & Hl'). apply runs_ret. split; [done|].
    exists ps. split; [done|]. by eapply pipes_like_trans.
Qed.
End Runs.

(** *** Committing in the scheduler *)
Section Stash.
Context `{HashIter}.

(** What no completion changes. *)
Definition same_setup (s s' : Scheduler) : Prop :=
  dag s' = dag s /\ batch_size s' = batch_size s /\ blocks_available s' = blocks_available s /\
  total_blocks s' = total_blocks s /\ all_indexes s' = all_indexes s /\ deps s' = deps s.

Lemma same_setup_trans s1 s2 s3 : same_setup s1 s2 -> same_setup s2 s3 -> same_setup s1 s3.
Proof.
  intros (? & ? & ? & ? & ? & ?) (? & ? & ? & ? & ? & ?). unfold same_setup. split_and!; congruence.
Qed.

Lemma find_handle_spec i hs h :
  h ∈ hs -> bh_index h = i -> (forall h', h' ∈ hs -> bh_index h' = i -> h' = h) ->
  find_handle i hs = Some h.
Proof.
  induction hs as [|h0 hs IH]; intros Hin Hi Hu; [by apply elem_of_nil in Hin|]. cbn.
  case_bool_decide as Hd; [f_equal; apply Hu; [left|done]|].
  apply elem_of_cons in Hin as [->|Hin]; [done|]. apply IH; [done..|].
  intros h' Hh'. apply Hu. by right.
Qed.

Lemma find_pending s h :
  sched_ok s -> bh_index h ∈ pending_merge s -> current_batch s !! bh_index h = Some (bh_batch h) ->
  exists hs, ready_for_merge s = Some hs /\ find_handle (bh_index h) hs = Some h.
Proof.
  intros Hok Hm Hc. destruct (ready_for_merge_spec s Hok) as (hs & -> & Hhs).
  exists hs. split; [done|]. apply find_handle_spec; [by apply Hhs|done|].
  intros [i' b'] [_ Hc']%Hhs Hi. cbn in *. subst i'. destruct h. cbn in *. congruence.
Qed.

(** Merging and committing one index's batch. *)
Definition commit_one (s : Scheduler) (h : BatchHandle) : Scheduler :=
  batch_committed (merge_done s h).2 h.

Lemma commit_one_spec s h :
  sched_ok s -> pending_commit s = ∅ ->
  bh_index h ∈ pending_merge s -> current_batch s !! bh_index h = Some (bh_batch h) ->
  let s' := commit_one s h in
  sched_ok s' /\ same_setup s s' /\ pending_commit s' = ∅ /\
  pending_merge s' = pending_merge s ∖ {[bh_index h]} /\
  forall i, current_batch s' !! i =
      (if decide (i = bh_index h) then Some (bh_batch h + 1) else current_batch s !! i) /\
    extracted_in_batch s' !! i =
      (if decide (i = bh_index h) then Some 0 else extracted_in_batch s !! i).
Proof.
  intros Hok Hp Hm Hc. cbn zeta. split_and!; try done.
  - apply commit_preserves; [by apply merge_preserves|cbn; set_solver|done].
  - cbn. set_solver.
  - intros i. cbn. split; case_decide as Hd; subst;
      rewrite ?lookup_insert_eq, ?lookup_insert_ne by done; done.
Qed.
End Stash.

Section Stashing.
Context {Ctx PSt BSt : Type} `{HashIter}.
Implicit Types e : @SyncEngine Ctx PSt BSt.

(** Stashing the results commits each of their batches in the scheduler. *)
Lemma stash_all_spec results e :
  let hs := results.*1 in let s := scheduler e in
  sched_ok s -> pending_commit s = ∅ -> NoDup (bh_index <$> hs) ->
  (forall h, h ∈ hs -> bh_index h ∈ pending_merge s /\
     current_batch s !! bh_index h = Some (bh_batch h)) ->
  exists s' po, stash_all results e = Some (Ok tt, set_pending po (set_scheduler s' e)) /\
    sched_ok s' /\ same_setup s s' /\ pending_commit s' = ∅ /\
    pending_merge s' = pending_merge s ∖ list_to_set (bh_index <$> hs) /\
    (forall h, h ∈ hs -> current_batch s' !! bh_index h = Some (bh_batch h + 1) /\
       extracted_in_batch s' !! bh_index h = Some 0) /\
    (forall i, i ∉ bh_index <$> hs -> current_batch s' !! i = current_batch s !! i /\
       extracted_in_batch s' !! i = extracted_in_batch s !! i) /\
    forall k, is_Some (po !! k) <-> is_Some (pending_ops e !! k) \/ k ∈ bh_batch <$> hs.
Proof.
  cbn zeta. revert e. induction results as [|[h ops] results IH]; intros e Hok Hp Hnd Hin.
  { exists (scheduler e), (pending_ops e). split_and!; try done.
    - by destruct e.
    - set_solver.
    - intros h Hh. by apply elem_of_nil in Hh.
    - intros k. cbn. rewrite elem_of_nil. naive_solver. }
  cbn [fmap list_fmap fst] in Hnd, Hin. apply NoDup_cons in Hnd as [Hni Hnd].
  destruct (Hin h ltac:(left)) as [Hm Hc].
  destruct (find_pending (scheduler e) h Hok Hm Hc) as (pend & Hpend & Hfind).
  destruct (commit_one_spec (scheduler e) h Hok Hp Hm Hc) as (Hok1 & Hsame1 & Hp1 & Hm1 & Hv1).
  set (s1 := commit_one (scheduler e) h) in *.
  set (po1 := <[bh_batch h := default [] (pending_ops e !! bh_batch h) ++ ops]> (pending_ops e)).
  destruct (IH (set_scheduler s1 (set_pending po1 e)) Hok1 Hp1 Hnd)
    as (s' & po & Hrun & Hok' & Hsame & Hp' & Hm' & Hh & Ho & Hpo).
  { intros h' Hh'. cbn [set_scheduler scheduler]. assert (bh_index h' <> bh_index h) as Hne.
    { intros Heq. apply Hni. rewrite <- Heq. by apply list_elem_of_fmap_2. }
    destruct (Hin h' ltac:(by right)). destruct (Hv1 (bh_index h')) as [-> _].
    rewrite Hm1, decide_False by done. split; [set_solver|done]. }
  exists s', po. cbn [stash_all fmap list_fmap fst].
  change (scheduler (set_pending _ e)) with (scheduler e). rewrite Hpend, Hfind.
  split_and!; try done.
  - rewrite Hm'. cbn [set_scheduler scheduler]. rewrite Hm1. cbn. set_solver.
  - intros h' [->|Hh']%elem_of_cons; [|by apply Hh].
    destruct (Ho (bh_index h) Hni) as [-> ->]. cbn [set_scheduler scheduler]. destruct (Hv1 (bh_index h)) as [-> ->].
    by rewrite !decide_True.
  - intros i Hi. destruct (Ho i ltac:(set_solver)) as [-> ->]. cbn [set_scheduler scheduler].
    destruct (Hv1 i) as [-> ->]. by rewrite !decide_False by set_solver.
  - intros k. rewrite Hpo. cbn [set_scheduler set_pending pending_ops]. rewrite elem_of_cons. unfold po1.
    rewrite lookup_insert_is_Some'. assert (bh_batch h = k <-> k = bh_batch h) by (split; congruence).
    tauto.
Qed.
End Stashing.

(** ** The engine's invariant *)
Section Invariant.
Context {Ctx PSt BSt : Type} (F : Prop).
Implicit Types e : @SyncEngine Ctx PSt BSt.

Definition pushed e : nat := BlockBuffer.total_pushed (buffer e).
Definition batch e : nat := batch_size (scheduler e).

(** Buffered blocks have consecutive heights ending below [next_height]. *)
Definition last_height e (k : nat) : Z :=
  (next_height e - 1 - Z.of_nat (pushed e - Nat.min ((k + 1) * batch e) (pushed e)))%Z.

Record core_ok e : Prop := {
  co_sched : sched_ok (scheduler e);
  co_merge : pending_merge (scheduler e) = ∅;
  co_commit : pending_commit (scheduler e) = ∅;
  co_nodup : NoDup (all_indexes (scheduler e));
  co_some : all_indexes (scheduler e) <> [];
  co_pipes : pipes_ok F (pipelines e) (all_indexes (scheduler e));
  co_batch : 0 < batch e;
  co_buffer_batch : BlockBuffer.batch_size (buffer e) = batch e;
  co_contiguous : BlockBuffer.contiguous (buffer e);
  co_floor : BlockBuffer.floor (buffer e) = next_candidate e * batch e;
  (** every pushed block is available; eviction may round the count up *)
  co_pushed : pushed e = Nat.max (blocks_available (scheduler e)) (next_candidate e * batch e);
  (** evicted batches are committed by every index *)
  co_evicted : forall i c, i ∈ all_indexes (scheduler e) ->
    current_batch (scheduler e) !! i = Some c -> next_candidate e <= c;
  (** a committed batch had blocks *)
  co_started : forall i k, i ∈ all_indexes (scheduler e) ->
    current_batch (scheduler e) !! i = Some (S k) -> k * batch e < pushed e;
  co_extracted : forall i c x, i ∈ all_indexes (scheduler e) ->
    current_batch (scheduler e) !! i = Some c -> extracted_in_batch (scheduler e) !! i = Some x ->
    x < batch e /\ (x = 0 \/ c * batch e + x <= blocks_available (scheduler e));
  co_heights : forall k, batch_last_height e !! k =
    if decide (next_candidate e <= k /\ k * batch e < pushed e) then Some (last_height e k) else None;
  co_limit : (Z.of_nat (pushed e - next_candidate e * batch e) <= next_height e
              <= Height.MAX_HEIGHT + 1)%Z;
  co_pending : forall k, is_Some (pending_ops e !! k) -> next_candidate e <= k /\
    exists i c, i ∈ all_indexes (scheduler e) /\ current_batch (scheduler e) !! i = Some c /\ k < c;
  co_seam : watermark e = None \/ authorisation e = None \/ F;
  (** the published watermark is below every block still buffered *)
  co_watermark : forall sm c, watermark e = Some sm -> Seam.committed sm = Some c ->
    (Seam.com_height c < next_height e - Z.of_nat (pushed e - next_candidate e * batch e))%Z }.

(** Between dispatches some index has not committed the next batch. *)
Definition eng_ok e : Prop :=
  core_ok e /\ exists i, i ∈ all_indexes (scheduler e) /\
    current_batch (scheduler e) !! i = Some (next_candidate e).

Lemma all_through_spec (s : Scheduler) k ids :
  sched_ok s -> (forall i, i ∈ ids -> i ∈ all_indexes s) ->
  exists b, all_through s k ids = Some b /\
    (b = true -> forall i c, i ∈ ids -> current_batch s !! i = Some c -> k < c) /\
    (b = false -> exists i c, i ∈ ids /\ current_batch s !! i = Some c /\ c <= k).
Proof.
  intros Hok Hsub. induction ids as [|i ids IH]; cbn [all_through].
  { exists true. split_and!; [done| |done]. intros _ i c Hi. by apply elem_of_nil in Hi. }
  destruct (ok_batch _ Hok i) as (c & Hc & ->); [apply Hsub; left|]. cbn.
  destruct c as [|c]; cbn.
  { exists false. split_and!; [done|done|]. intros _. exists i, 0. split_and!; [left|done|lia]. }
  destruct (Nat.leb_spec k c) as [Hle|Hgt].
  - destruct IH as (b & -> & Ht & Hf); [intros; apply Hsub; by right|].
    exists b. split_and!; [done|..].
    + intros Hb j cj [->|Hj]%elem_of_cons Hcj; [simplify_eq; lia|by eapply Ht].
    + intros Hb. destruct (Hf Hb) as (j & cj & ? & ? & ?). exists j, cj. split_and!; [by right|done..].
  - exists false. split_and!; [done|done|]. intros _. exists i, (S c). split_and!; [left|done|lia].
Qed.

(** A batch every index has committed had blocks. *)
Lemma candidate_pushed e k :
  core_ok e ->
  (forall i c, i ∈ all_indexes (scheduler e) -> current_batch (scheduler e) !! i = Some c -> k < c) ->
  k * batch e < pushed e.
Proof.
  intros Hok Hall. destruct (all_indexes (scheduler e)) as [|i l] eqn:Hl; [by destruct (co_some _ Hok)|].
  assert (Hi : i ∈ all_indexes (scheduler e)) by (rewrite Hl; left).
  destruct (ok_batch _ (co_sched _ Hok) i Hi) as ([|c] & Hc & _).
  { specialize (Hall i 0 ltac:(left) Hc). lia. }
  specialize (Hall i (S c) ltac:(left) Hc). pose proof (co_started _ Hok i c Hi Hc). nia.
Qed.

(** Evicting a batch every index has committed. *)
Lemma evict_core e b w :
  let nc := next_candidate e in
  core_ok e -> nc * batch e < pushed e ->
  (forall i c, i ∈ all_indexes (scheduler e) -> current_batch (scheduler e) !! i = Some c -> nc < c) ->
  (w = watermark e \/ F /\ forall sm c, w = Some sm -> Seam.committed sm = Some c ->
     Seam.com_height c = last_height e nc) ->
  let e' := try_evict nc (set_watermark w (set_backend b
    (set_last_height (delete nc (batch_last_height e)) (set_pending (delete nc (pending_ops e)) e)))) in
  core_ok e' /\ next_candidate e' = nc + 1 /\
  pushed e' = Nat.max (pushed e) ((nc + 1) * batch e).
Proof.
  cbn zeta. intros Hok Hlt Hall Hw. set (nc := next_candidate e) in *. set (e' := try_evict _ _).
  pose proof (co_buffer_batch _ Hok) as Hbb. pose proof (co_floor _ Hok) as Hfl. fold nc in Hfl.
  destruct (BlockBuffer.evict_contiguous (buffer e) nc (co_contiguous _ Hok)) as (Hcont & Hpush & _).
  { rewrite Hbb, Hfl. nia. }
  rewrite Hbb in Hpush. change (pushed e' = Nat.max (pushed e) ((nc + 1) * batch e)) in Hpush.
  assert (Hnc : next_candidate e' = nc + 1) by done.
  assert (Hb : batch e' = batch e) by done.
  pose proof (co_batch _ Hok) as Hpos. pose proof (co_pushed _ Hok) as HT.
  pose proof (co_limit _ Hok) as Hlim. fold nc in HT, Hlim.
  assert (Hlast : last_height e nc =
    (next_height e - 1 - Z.of_nat (pushed e' - (nc + 1) * batch e))%Z).
  { unfold last_height. rewrite Hpush. f_equal. f_equal. lia. }
  split_and!; [|done|done]. destruct Hok.
  split; try done; rewrite ?Hnc, ?Hb.
  - cbn. rewrite Hbb. done.
  - rewrite Hpush, HT. cbn. lia.
  - intros i c Hi Hc. specialize (Hall i c Hi Hc). lia.
  - intros i k Hi Hc. specialize (co_started0 i k Hi Hc). lia.
  - intros k. cbn [e' try_evict batch_last_height set_watermark set_backend set_last_height].
    destruct (decide (k = nc)) as [->|Hne].
    { rewrite lookup_delete_eq, decide_False; [done|lia]. }
    rewrite lookup_delete_ne, co_heights0 by done. fold nc.
    destruct (decide (nc + 1 <= k /\ k * batch e < pushed e')) as [[Hk1 Hk2]|Hno].
    + assert (pushed e' = pushed e) as Heq by (rewrite Hpush in *; nia).
      rewrite decide_True by (split; [lia|rewrite <- Heq; done]).
      unfold last_height. rewrite Heq, Hb. done.
    + rewrite decide_False; [done|]. intros [Hk1 Hk2]. apply Hno. split; [lia|]. rewrite Hpush. lia.
  - change (next_height e') with (next_height e). split; [|lia]. rewrite Hpush. nia.
  - intros k Hk. cbn [e' try_evict pending_ops set_watermark set_backend set_last_height set_pending] in Hk.
    apply lookup_delete_is_Some in Hk as [Hne Hk]. destruct (co_pending0 k Hk) as [Hle Hex].
    split; [fold nc in Hle; lia|]. exact Hex.
  - cbn. destruct Hw as [->|[HF _]]; [|by right; right]. exact co_seam0.
  - intros sm c Hsm Hc. change (watermark e') with w in Hsm.
    change (next_height e') with (next_height e).
    destruct Hw as [->|[_ Hw]].
    + specialize (co_watermark0 sm c Hsm Hc). fold nc in co_watermark0. rewrite Hpush. nia.
    + rewrite (Hw sm c Hsm Hc), Hlast. lia.
Qed.
End Invariant.

(** ** Atomic commits *)
Section Commit.
Context {Ctx PSt BSt : Type} (B : Backend BSt) (F : Prop).
Implicit Types e : @SyncEngine Ctx PSt BSt.

Definition backend_ok : Prop :=
  (forall b x, b_reader B b = Err x -> F) /\ (forall b x, b_writer B b = Err x -> F) /\
  (forall b ops x, b_commit B b ops = Err x -> F) /\ (forall b x, b_flush B b = Err x -> F).
Context (HB : backend_ok).

(** What a batch writes: the indexes' operations, then the watermark. *)
Definition batch_ops e (k : nat) : list WriteOp :=
  default [] (pending_ops e !! k) ++ [stamp (default 0%Z (batch_last_height e !! k))].

Lemma commit_batch_runs e ops :
  let nc := next_candidate e in
  let h := last_height e nc in
  core_ok F e -> nc * batch e < pushed e ->
  (forall i c, i ∈ all_indexes (scheduler e) -> current_batch (scheduler e) !! i = Some c -> nc < c) ->
  runs F (commit_batch B nc ops h)
    (set_last_height (delete nc (batch_last_height e)) (set_pending (delete nc (pending_ops e)) e))
    (fun _ e' => exists b w, b_commit B (backend e) (ops ++ [stamp h]) = Ok b /\
       e' = try_evict nc (set_watermark w (set_backend b (set_last_height
         (delete nc (batch_last_height e)) (set_pending (delete nc (pending_ops e)) e)))) /\
       core_ok F e' /\ next_candidate e' = nc + 1 /\
       pushed e' = Nat.max (pushed e) ((nc + 1) * batch e)).
Proof.
  cbn zeta. intros Hok Hlt Hall. set (nc := next_candidate e) in *. unfold commit_batch.
  pose proof (co_limit _ _ Hok) as Hlim. fold nc in Hlim.
  assert (Hrange : (0 <= last_height e nc <= Height.MAX_HEIGHT)%Z).
  { pose proof (co_batch _ _ Hok). unfold last_height.
    replace ((nc + 1) * batch e) with (nc * batch e + batch e) by lia. lia. }
  apply runs_bind. eapply (runs_expect _ _ (last_height e nc)).
  { unfold try_narrow, Height.try_from. change Height.MAX_HEIGHT with 2147483647%Z in *.
    change (2 ^ 32)%Z with 4294967296%Z.
    destruct (Z.ltb_spec (last_height e nc) 4294967296); [|lia].
    destruct (Z.ltb_spec 2147483647 (last_height e nc)); [lia|done]. }
  destruct HB as (_ & Hw & Hc & _).
  apply runs_bind, runs_get, runs_bind, runs_lift; cbn [backend set_last_height set_pending].
  { intros x Hx. destruct (b_writer B (backend e)) as [|y] eqn:Hy; [done|]. by eapply Hw. }
  intros _ _. apply runs_bind, runs_lift.
  { intros x Hx. destruct (b_commit B _ _) as [|y] eqn:Hy; [done|]. by eapply Hc. }
  intros b Hb. destruct (b_commit B _ _) as [b'|y] eqn:Hy; [|done]. cbn in Hb. injection Hb as <-.
  apply runs_bind, runs_modify, runs_bind. unfold runs at 1, publish_watermark.
  cbn [watermark authorisation set_backend set_last_height set_pending].
  assert (Hdone : forall w, (w = watermark e \/ F /\ forall sm c, w = Some sm ->
      Seam.committed sm = Some c -> Seam.com_height c = last_height e nc) ->
    runs F (modify (try_evict nc)) (set_watermark w (set_backend b' (set_last_height
         (delete nc (batch_last_height e)) (set_pending (delete nc (pending_ops e)) e))))
      (fun _ e' => exists b w, Ok b' = (Ok b : result BSt unit) /\
       e' = try_evict nc (set_watermark w (set_backend b (set_last_height
         (delete nc (batch_last_height e)) (set_pending (delete nc (pending_ops e)) e)))) /\
       core_ok F e' /\ next_candidate e' = nc + 1 /\
       pushed e' = Nat.max (pushed e) ((nc + 1) * batch e))).
  { intros w Hwm. apply runs_modify. exists b', w. split; [done|]. split; [done|].
    by apply (evict_core F e b' w). }
  pose proof (Hdone (watermark e) (or_introl eq_refl)) as Hsame.
  destruct (watermark e) as [sm|] eqn:Hsm in |- *; [|exact Hsame].
  destruct (authorisation e) as [a|] eqn:Ha in |- *; [|exact Hsame].
  destruct (Seam.watermark_advance sm a (last_height e nc)) as [[cm sm']|f] eqn:Hadv.
  - apply (Hdone (Some sm')). right. split.
    { destruct (co_seam _ _ Hok) as [?|[?|?]]; congruence. }
    intros sm0 c [= <-] Hcm. unfold Seam.watermark_advance in Hadv.
    destruct (_ <? _)%Z; [done|].
    destruct (Seam.committed sm) as [held|]; [destruct (_ <? _)%Z; [done|]|];
      injection Hadv as _ <-; cbn in Hcm; by injection Hcm as <-.
  - destruct (co_seam _ _ Hok) as [?|[?|?]]; congruence.
Qed.

(** What committing leaves alone, and what it wrote. *)
Definition committed_to e e' : Prop :=
  scheduler e' = scheduler e /\ pipelines e' = pipelines e /\ next_height e' = next_height e /\
  authorisation e' = authorisation e /\
  next_candidate e <= next_candidate e' /\
  pushed e' = Nat.max (pushed e) (next_candidate e' * batch e) /\
  commits B (backend e) (batch_ops e <$> seq (next_candidate e) (next_candidate e' - next_candidate e))
    = Some (backend e') /\
  forall k, next_candidate e' <= k -> pending_ops e' !! k = pending_ops e !! k.

Lemma committed_to_refl e : core_ok F e -> committed_to e e.
Proof.
  intros Hok. pose proof (co_pushed _ _ Hok). split_and!; try done; [lia|].
  by rewrite Nat.sub_diag.
Qed.

(** One more batch, then the rest. *)
Lemma committed_to_step e b w e1 e' :
  let nc := next_candidate e in
  e1 = try_evict nc (set_watermark w (set_backend b (set_last_height
         (delete nc (batch_last_height e)) (set_pending (delete nc (pending_ops e)) e)))) ->
  pushed e1 = Nat.max (pushed e) ((nc + 1) * batch e) ->
  b_commit B (backend e) (batch_ops e nc) = Ok b ->
  committed_to e1 e' -> committed_to e e'.
Proof.
  cbn zeta. set (nc := next_candidate e). intros He1 Hpush Hb (Hs & Hp & Hn & Ha & Hnc & Hpush' & Hlog & Hpend).
  assert (next_candidate e1 = nc + 1) as Hnc1 by by subst.
  assert (batch e1 = batch e) as Hbatch by by subst.
  assert (backend e1 = b) as Hbk by by subst.
  rewrite Hnc1, ?Hbatch in *. rewrite Hbk in Hlog.
  split_and!; [by rewrite Hs, He1|by rewrite Hp, He1|by rewrite Hn, He1|by rewrite Ha, He1|lia|nia| |].
  2: { intros k Hk. rewrite (Hpend k Hk), He1. apply lookup_delete_ne. lia. }
  fold nc. replace (next_candidate e' - nc) with (S (next_candidate e' - (nc + 1))) by lia.
  cbn [seq fmap list_fmap commits]. rewrite Hb, <- Hlog. replace (S nc) with (nc + 1) by lia. f_equal.
  apply list_fmap_ext. intros i k Hk%list_elem_of_lookup_2. apply elem_of_seq in Hk.
  unfold batch_ops. rewrite He1.
  cbn [try_evict pending_ops batch_last_height set_watermark set_backend set_last_height set_pending].
  rewrite !lookup_delete_ne by lia. done.
Qed.

Lemma try_commit_loop_runs fuel e :
  core_ok F e -> size (batch_last_height e) <= fuel ->
  runs F (try_commit_loop B fuel) e (fun _ e' => eng_ok F e' /\ committed_to e e').
Proof.
  revert e. induction fuel as [|fuel IH]; intros e Hok Hsize;
    unfold runs; cbn [try_commit_loop]; cbv zeta; set (nc := next_candidate e);
    (destruct (all_through_spec (scheduler e) nc (all_indexes (scheduler e)) (co_sched _ _ Hok))
      as (b & Hb & Ht & Hf); [done|]);
    unfold all_committed_through; rewrite Hb; destruct b; cbn [negb].
  2, 4: destruct (Hf eq_refl) as (i & c & Hi & Hc & Hle); pose proof (co_evicted _ _ Hok i c Hi Hc);
    (split; [|by apply committed_to_refl]); split; [done|]; exists i; split; [done|];
    rewrite Hc; f_equal; subst nc; lia.
  all: specialize (Ht eq_refl); assert (Hlt : nc * batch e < pushed e) by by apply (candidate_pushed F).
  all: cbn [batch_last_height set_pending]; rewrite (co_heights _ _ Hok nc), decide_True by done.
  - exfalso. assert (batch_last_height e = ∅) as Hemp by (apply map_size_empty_inv; lia).
    pose proof (co_heights _ _ Hok nc) as Hh. rewrite Hemp, lookup_empty, decide_True in Hh by done.
    done.
  - change (runs F (bind (commit_batch B nc (default [] (pending_ops e !! nc)) (last_height e nc))
      (fun _ => try_commit_loop B fuel))
      (set_last_height (delete nc (batch_last_height e)) (set_pending (delete nc (pending_ops e)) e))
      (fun _ e' => eng_ok F e' /\ committed_to e e')).
    apply runs_bind. eapply runs_mono, commit_batch_runs; [|done..].
    intros _ e1 (b & w & Hcommit & He1 & Hok1 & Hnc1 & Hpush1).
    eapply runs_mono, IH; [|done|].
    + intros _ e' [? ?]. split; [done|]. eapply committed_to_step; [done..| |done].
      unfold batch_ops. fold nc. by rewrite (co_heights _ _ Hok nc), decide_True.
    + subst e1. cbn [try_evict batch_last_height set_watermark set_backend set_last_height].
      pose proof (co_heights _ _ Hok nc) as Hh. rewrite decide_True in Hh by done.
      rewrite map_size_delete_Some; [cbn; lia|]. exists (last_height e nc). exact Hh.
Qed.

Lemma try_commit_runs e :
  core_ok F e -> runs F (try_commit B) e (fun _ e' => eng_ok F e' /\ committed_to e e').
Proof. intros Hok. by apply try_commit_loop_runs. Qed.

(** *** The log of commits: one per batch, each ending with its watermark *)
Definition stamped (hgt : nat -> Z) e e' : Prop :=
  next_candidate e <= next_candidate e' /\
  exists log, commits B (backend e) log = Some (backend e') /\
    Forall2 (fun k ops => exists writes, ops = writes ++ [stamp (hgt k)])
      (seq (next_candidate e) (next_candidate e' - next_candidate e)) log.

Lemma stamped_same hgt e e' :
  next_candidate e' = next_candidate e -> backend e' = backend e -> stamped hgt e e'.
Proof.
  intros Hn Hb. split; [lia|]. exists []. rewrite Hn, Hb, Nat.sub_diag. split; [done|constructor].
Qed.

Lemma stamped_trans hgt e1 e2 e3 : stamped hgt e1 e2 -> stamped hgt e2 e3 -> stamped hgt e1 e3.
Proof.
  intros (Hn & l & Hl & Hf) (Hn' & l' & Hl' & Hf'). split; [lia|]. exists (l ++ l').
  split; [by rewrite (commits_app B _ _ _ _ Hl)|].
  replace (next_candidate e3 - next_candidate e1)
    with ((next_candidate e2 - next_candidate e1) + (next_candidate e3 - next_candidate e2)) by lia.
  rewrite seq_app. apply Forall2_app; [done|].
  replace (next_candidate e1 + (next_candidate e2 - next_candidate e1)) with (next_candidate e2) by lia.
  done.
Qed.

Lemma stamped_ext hgt hgt' e e' :
  (forall k, next_candidate e <= k < next_candidate e' -> hgt k = hgt' k) ->
  stamped hgt e e' -> stamped hgt' e e'.
Proof.
  intros Heq (Hn & l & Hl & Hf). split; [done|]. exists l. split; [done|].
  apply Forall2_same_length_lookup in Hf as [Hlen Hf].
  apply Forall2_same_length_lookup. split; [done|]. intros i k ops Hk Ho.
  destruct (Hf i k ops Hk Ho) as [w ->]. exists w. rewrite Heq; [done|].
  apply lookup_seq in Hk. lia.
Qed.

Lemma committed_stamped e e' :
  core_ok F e -> eng_ok F e' -> committed_to e e' -> stamped (last_height e) e e'.
Proof.
  intros Hok [Hok' _] (Hs & _ & _ & _ & Hnc & _ & Hlog & _). split; [done|]. eexists. split; [exact Hlog|].
  apply Forall2_fmap_r, Forall_Forall2_diag, Forall_forall. intros k Hk. apply elem_of_seq in Hk.
  cbn. exists (default [] (pending_ops e !! k)). unfold batch_ops. rewrite (co_heights _ _ Hok k), decide_True; [done|]. split; [lia|].
  apply (candidate_pushed F); [done|]. intros i c Hi Hc. rewrite <- Hs in Hi, Hc.
  pose proof (co_evicted _ _ Hok' i c Hi Hc). lia.
Qed.
End Commit.

(** ** One dispatch *)
Section Dispatch.
Context {Ctx PSt BSt : Type} (B : Backend BSt) `{HashIter} `{ParOrder} (F : Prop).
Context (HB : backend_ok B F).
Implicit Types e : @SyncEngine Ctx PSt BSt.

Lemma effective_le (s : Scheduler) c : effective_batch_size s c <= batch_size s.
Proof. unfold effective_batch_size. destruct (total_blocks s); lia. Qed.

(** Whether the [n] extractions complete the batch [c] of an index at [x]. *)
Definition completes (s : Scheduler) (c x n : nat) : Prop :=
  0 < n /\ x + n = effective_batch_size s c.
Global Instance completes_dec s c x n : Decision (completes s c x n).
Proof. unfold completes. apply _. Defined.

(** Each index extracted its jobs, and moved on if that completed its batch. *)
Definition advanced (s s' : Scheduler) (jobs : list ExtractJob) : Prop :=
  forall i c x, i ∈ all_indexes s ->
    current_batch s !! i = Some c -> extracted_in_batch s !! i = Some x ->
    let done := completes s c x (cnt i jobs) in
    current_batch s' !! i = Some (if decide done then c + 1 else c) /\
    extracted_in_batch s' !! i = Some (if decide done then 0 else x + cnt i jobs).

Lemma progress_of e i :
  core_ok F e -> i ∈ all_indexes (scheduler e) ->
  exists c x, current_batch (scheduler e) !! i = Some c /\ extracted_in_batch (scheduler e) !! i = Some x.
Proof.
  intros Hok Hi. destruct (ok_batch _ (co_sched _ _ Hok) i Hi) as (c & Hc & _).
  destruct (ok_extracted _ (co_sched _ _ Hok) i Hi) as [x Hx]. eauto.
Qed.

Lemma core_advance e s' ps po jobs :
  let s := scheduler e in
  core_ok F e -> sched_ok s' -> same_setup s s' ->
  pending_merge s' = ∅ -> pending_commit s' = ∅ ->
  (forall i, cnt i jobs = 0 \/ can_extract s i (cnt i jobs)) ->
  advanced s s' jobs -> pipes_like F (pipelines e) ps ->
  (forall k, is_Some (po !! k) -> is_Some (pending_ops e !! k) \/
     exists i x, i ∈ all_indexes s /\ current_batch s !! i = Some k /\
       extracted_in_batch s !! i = Some x /\ completes s k x (cnt i jobs)) ->
  core_ok F (set_pending po (set_scheduler s' (set_pipelines ps e))).
Proof.
  cbn zeta. intros Hok Hok' (_ & Hbs & Hav & _ & Hall & _) Hm Hc Hcan Hadv Hps Hpo.
  set (e' := set_pending _ _). assert (Hb : batch e' = batch e) by done.
  assert (Hcount : forall i c x, i ∈ all_indexes (scheduler e) ->
    current_batch (scheduler e) !! i = Some c -> extracted_in_batch (scheduler e) !! i = Some x ->
    cnt i jobs = 0 \/ (x + cnt i jobs <= effective_batch_size (scheduler e) c /\
      c * batch e + (x + cnt i jobs) <= blocks_available (scheduler e))).
  { intros i c x _ Hci Hxi. destruct (Hcan i) as [?|(c' & x' & ds & Hc' & Hx' & ? & ? & _)]; [by left|].
    right. assert (c' = c) as -> by congruence. by assert (x' = x) as -> by congruence. }
  pose proof (effective_le (scheduler e)) as Heff. pose proof (progress_of e) as Hprog.
  pose proof Hok as Hok0. destruct Hok.
  split; try done; change (scheduler e') with s'; change (next_candidate e') with (next_candidate e);
    change (pushed e') with (pushed e); rewrite ?Hb, ?Hall, ?Hav; try done.
  - cbn. by eapply pipes_like_ok.
  - intros i c' Hi Hc'. destruct (Hprog i Hok0 Hi) as (c & x & Hci & Hxi).
    destruct (Hadv i c x Hi Hci Hxi) as [Hc1 _]. rewrite Hc1 in Hc'. injection Hc' as <-.
    specialize (co_evicted0 i c Hi Hci). case_decide; lia.
  - intros i k Hi Hk. destruct (Hprog i Hok0 Hi) as (c & x & Hci & Hxi).
    destruct (Hadv i c x Hi Hci Hxi) as [Hc1 _]. rewrite Hc1 in Hk. injection Hk as Hk.
    case_decide as Hd; [|subst; by apply (co_started0 i k)].
    assert (c = k) as -> by lia. destruct Hd as [Hpos _].
    destruct (Hcount i k x Hi Hci Hxi) as [?|[_ ?]]; [lia|]. lia.
  - intros i c' x' Hi Hc' Hx'. destruct (Hprog i Hok0 Hi) as (c & x & Hci & Hxi).
    destruct (Hadv i c x Hi Hci Hxi) as [Hc1 Hx1]. rewrite Hc1 in Hc'. rewrite Hx1 in Hx'.
    injection Hc' as <-. injection Hx' as <-. destruct (co_extracted0 i c x Hi Hci Hxi) as [Hx0 Hx2].
    specialize (Heff c). change (batch_size (scheduler e)) with (batch e) in Heff.
    case_decide as Hd; [split; [done|by left]|].
    destruct (Hcount i c x Hi Hci Hxi) as [->|[? ?]]; [rewrite Nat.add_0_r; done|].
    destruct (decide (cnt i jobs = 0)) as [->|]; [rewrite Nat.add_0_r; done|].
    split; [|by right]. unfold completes in Hd. lia.
  - intros k. assert (last_height e' k = last_height e k) as -> by (unfold last_height; by rewrite Hb).
    apply co_heights0.
  - intros k Hk. destruct (Hpo k Hk) as [Hk'|(i & x & Hi & Hci & Hxi & Hd)].
    + destruct (co_pending0 k Hk') as (? & i & c & Hi & Hci & ?). split; [done|].
      destruct (Hprog i Hok0 Hi) as (c0 & x & Hc0 & Hxi). assert (c0 = c) as -> by congruence.
      destruct (Hadv i c x Hi Hci Hxi) as [Hc1 _]. eexists i, _. split_and!; [done..|]. case_decide; lia.
    + split; [by apply (co_evicted0 i)|]. destruct (Hadv i k x Hi Hci Hxi) as [Hc1 _].
      rewrite decide_True in Hc1 by done. exists i, (k + 1). split_and!; [done..|lia].
Qed.
(** *** The ready tasks *)
Lemma ready_jobs (s : Scheduler) :
  sched_ok s -> pending_merge s = ∅ ->
  exists jobs, ready_work s = Some (Extract <$> jobs) /\ ready_extractions s = Some jobs /\
    forall j, j ∈ jobs <-> job_index j ∈ all_indexes s /\ may_extract s j.
Proof.
  intros Hok Hm. destruct (ready_extractions_spec s Hok) as (jobs & Hj & Hjobs).
  destruct (ready_for_merge_spec s Hok) as (hs & Hh & Hhs). exists jobs. split_and!; [|done|done].
  unfold ready_work. rewrite Hj, Hh. destruct hs as [|h hs]; [cbn; by rewrite app_nil_r|].
  destruct (proj1 (Hhs h) ltac:(left)) as [Hin _]. rewrite Hm in Hin. by apply not_elem_of_empty in Hin.
Qed.

Lemma split_extract (s : Scheduler) jobs : split_tasks s (Extract <$> jobs) = Some (jobs, []).
Proof. induction jobs as [|j jobs IH]; [done|]. cbn. by rewrite IH. Qed.

(** *** Extraction: every ready job finds its block and its pipeline *)
Lemma job_block e j :
  core_ok F e -> job_index j ∈ all_indexes (scheduler e) -> may_extract (scheduler e) j ->
  is_Some (BlockBuffer.get (buffer e) (global_offset j)).
Proof.
  intros Hok Hi (b & k & ds & Hb & _ & _ & _ & _ & Hg & Hav & _).
  apply (co_contiguous _ _ Hok). rewrite (co_floor _ _ Hok).
  pose proof (co_evicted _ _ Hok _ _ Hi Hb). pose proof (co_pushed _ _ Hok) as Hp.
  unfold pushed in Hp. rewrite Hp, Hg in *. unfold batch. split; [nia|lia].
Qed.

Lemma Forall_filtered {A} (P Q : A -> Prop) `{forall x, Decision (Q x)} (l : list A) :
  Forall P l -> Forall P (filter Q l).
Proof. rewrite !Forall_forall. intros Hl x [_ Hx]%list_elem_of_filter. by apply Hl. Qed.

Lemma local_routed e jobs (work : list (IndexId * nat * Ctx)) (ids : list IndexId) :
  (fun w => w.1.1) <$> work = job_index <$> filter (fun j => is_cross e (job_index j) = false) jobs ->
  Forall (fun j => job_index j ∈ ids /\ is_Some (BlockBuffer.get (buffer e) (global_offset j))) jobs ->
  Forall (fun w => w.1.1 ∈ ids /\ is_cross e w.1.1 = false) work.
Proof.
  intros Hw Hj. enough (Forall (fun i => i ∈ ids /\ is_cross e i = false) ((fun w => w.1.1) <$> work)) as Hall
    by by apply Forall_fmap in Hall.
  rewrite Hw. apply Forall_fmap, Forall_forall.
  intros j [Hx Hin]%list_elem_of_filter. rewrite Forall_forall in Hj. split; [by apply Hj|done].
Qed.

Lemma run_extractions_runs e jobs :
  core_ok F e -> (forall j, j ∈ jobs -> job_index j ∈ all_indexes (scheduler e) /\ may_extract (scheduler e) j) ->
  runs F (run_extractions_parallel B jobs) e
    (fun _ e' => exists ps, e' = set_pipelines ps e /\ pipes_like F (pipelines e) ps).
Proof.
  intros Hok Hjobs. unfold run_extractions_parallel. apply runs_bind, runs_get, runs_bind.
  set (ids := all_indexes (scheduler e)).
  assert (Hall : Forall (fun j => job_index j ∈ ids /\
    is_Some (BlockBuffer.get (buffer e) (global_offset j))) jobs).
  { apply Forall_forall. intros j [? ?]%Hjobs. split; [done|by apply job_block]. }
  pose proof (co_pipes _ _ Hok) as Hp.
  unfold run_local_extractions. apply runs_bind, runs_get, runs_bind.
  destruct (local_work_Some F e (filter (fun j => is_cross e (job_index j) = false) jobs) ids Hp)
    as (work & Hw & Hwi); [by apply Forall_filtered|].
  eapply runs_expect; [exact Hw|].
  eapply runs_mono, run_local_runs; [|exact Hp|rewrite par_order_perm; by eapply local_routed].
  intros _ e1 (ps & -> & Hl).
  set (crossed := filter (fun j => is_cross e (job_index j) = true) jobs).
  assert (Hc : Forall (fun j => job_index j ∈ ids /\
    is_Some (BlockBuffer.get (buffer e) (global_offset j))) crossed) by by apply Forall_filtered.
  assert (Hx : Forall (fun j => is_cross (set_pipelines ps e) (job_index j) = true) crossed).
  { apply Forall_forall. intros j [Hj _]%list_elem_of_filter. by rewrite (pipes_like_cross F). }
  destruct crossed as [|j crossed]; [apply runs_ret; by exists ps|].
  cbn [run_cross_extractions]. apply runs_bind, runs_get, runs_bind, runs_lift.
  { destruct HB as (Hr & _). intros x Hre. destruct (b_reader B _) eqn:Hy; [done|]. by eapply Hr. }
  intros r _. eapply runs_mono, run_cross_runs; [|by eapply pipes_like_ok|exact Hc|exact Hx].
  intros _ e2 (ps' & -> & Hl'). exists ps'. split; [done|]. by eapply pipes_like_trans.
Qed.
(** *** Reporting *)

(** What one dispatch of [jobs] did. *)
Definition dispatched e (jobs : list ExtractJob) e' : Prop :=
  eng_ok F e' /\ same_setup (scheduler e) (scheduler e') /\
  advanced (scheduler e) (scheduler e') jobs /\
  next_height e' = next_height e /\ authorisation e' = authorisation e /\
  stamped B (last_height e) e e' /\
  pushed e' = Nat.max (pushed e) (next_candidate e' * batch e).

(** Which handles reporting returns. *)
Definition reported (s : Scheduler) (jobs : list ExtractJob) (hs : list BatchHandle) : Prop :=
  forall h, h ∈ hs <-> exists x, current_batch s !! bh_index h = Some (bh_batch h) /\
    extracted_in_batch s !! bh_index h = Some x /\ completes s (bh_batch h) x (cnt (bh_index h) jobs).

(** The scheduler once the extractions are counted and the completed batches
    committed. *)
Lemma reported_advanced (s s' : Scheduler) jobs hs (ex : gmap IndexId nat) :
  reported s jobs hs ->
  (forall i x, extracted_in_batch s !! i = Some x -> ex !! i = Some (x + cnt i jobs)) ->
  (forall h, h ∈ hs -> current_batch s' !! bh_index h = Some (bh_batch h + 1) /\
     extracted_in_batch s' !! bh_index h = Some 0) ->
  (forall i, i ∉ bh_index <$> hs -> current_batch s' !! i = current_batch s !! i /\
     extracted_in_batch s' !! i = ex !! i) ->
  advanced s s' jobs.
Proof.
  intros Hrep Hex Hin Hout i c x Hi Hc Hx. cbn zeta. case_decide as Hd.
  - apply (Hin (mkHandle i c)). apply Hrep. by exists x.
  - destruct (Hout i) as [-> ->]; [|by rewrite Hc, (Hex i x)].
    intros (h & -> & Hh)%list_elem_of_fmap. apply Hrep in Hh as (x' & Hc' & Hx' & Hd').
    assert (x' = x) as -> by congruence. assert (bh_batch h = c) as Hb by congruence.
    by rewrite Hb in Hd'.
Qed.

(** Counting alone, when no batch completes. *)
Lemma dispatched_partial e s1 jobs :
  eng_ok F e -> core_ok F (set_scheduler s1 e) -> same_setup (scheduler e) s1 ->
  current_batch s1 = current_batch (scheduler e) -> advanced (scheduler e) s1 jobs ->
  dispatched e jobs (set_scheduler s1 e).
Proof.
  intros [Hok (i & Hi & Hc)] Hok1 Hsame Hcb Hadv.
  split; [split; [done|]; exists i|]. 2: split; [done|]; split; [done|]; split; [done|]; split; [done|];
    split; [by apply stamped_same|].
  - destruct Hsame as (_ & _ & _ & _ & Hall & _). cbn. by rewrite Hall, Hcb.
  - pose proof (co_pushed _ _ Hok). cbn. change (next_candidate (set_scheduler s1 e)) with (next_candidate e).
    change (pushed (set_scheduler s1 e)) with (pushed e). lia.
Qed.

(** Then committing what the backend may take. *)
Lemma dispatched_commit e s' ps po jobs :
  let e1 := set_pending po (set_scheduler s' (set_pipelines ps e)) in
  core_ok F e1 -> same_setup (scheduler e) s' -> advanced (scheduler e) s' jobs ->
  runs F (try_commit B) e1 (fun _ e' => dispatched e jobs e').
Proof.
  cbn zeta. set (e1 := set_pending _ _). intros Hok Hsame Hadv.
  eapply runs_mono, (try_commit_runs B F HB e1 Hok).
  intros _ e' [Heng Hcom]. pose proof (committed_stamped B F e1 e' Hok Heng Hcom) as Hst.
  destruct Hcom as (Hs & _ & Hn & Ha & Hnc & Hp & _).
  assert (Hb : batch e1 = batch e) by by destruct Hsame as (_ & ? & _).
  split; [done|]. split; [by rewrite Hs|]. split; [by rewrite Hs|]. split; [done|]. split; [done|].
  split; [|by rewrite Hp, Hb].
  eapply (stamped_ext B _ _ e e'); [|exact Hst]. intros k _. unfold last_height. by rewrite Hb.
Qed.

Lemma report_extractions_runs e jobs :
  eng_ok F e -> (forall j, j ∈ jobs -> job_index j ∈ all_indexes (scheduler e)) ->
  (forall i, cnt i jobs = 0 \/ can_extract (scheduler e) i (cnt i jobs)) ->
  runs F (report_extractions B jobs) e (fun _ e' => dispatched e jobs e').
Proof.
  intros Heng Hin Hcan. pose proof (proj1 Heng) as Hok. set (s := scheduler e) in *.
  destruct (report_loop_spec s jobs (co_sched _ _ Hok) Hin Hcan)
    as (hs & ex & Hrun & Hok1 & Hex & Hnd & Hhs). cbn zeta in Hrun, Hok1.
  set (s1 := set_progress s _ _ _ _ _) in *.
  assert (Hrep : reported s jobs hs).
  { intros h. rewrite Hhs. unfold completes. naive_solver. }
  assert (Hm1 : pending_merge s1 = list_to_set (bh_index <$> hs)).
  { cbn [s1 set_progress pending_merge]. unfold s. rewrite (co_merge _ _ Hok). apply (right_id_L ∅ (∪)). }
  unfold report_extractions. apply runs_bind, runs_get, runs_bind.
  eapply runs_expect; [exact Hrun|]. apply runs_bind, runs_modify.
  destruct hs as [|h0 hs0]; cbn [merge_if_any]; [|set (hs := h0 :: hs0) in *].
  - apply runs_ret. assert (advanced s s1 jobs) as Hadv.
    { eapply reported_advanced; [done|exact Hex| |done]. intros h Hh. by apply elem_of_nil in Hh. }
    apply dispatched_partial; [done| |done..].
    apply (core_advance e s1 (pipelines e) (pending_ops e) jobs); try done.
    + apply (co_commit _ _ Hok).
    + apply pipes_like_refl.
    + intros k Hk. by left.
  - unfold merge_persist_parallel. apply runs_bind.
    eapply runs_mono, (merge_all_runs F hs _ (all_indexes s)); [|apply (co_pipes _ _ Hok)|].
    2: { apply Forall_forall. intros h Hh. apply (ok_pending _ Hok1). left. rewrite Hm1.
         apply elem_of_list_to_set. by apply list_elem_of_fmap_2. }
    intros results e2 (Hres & ps & -> & Hl). apply runs_bind.
    destruct (stash_all_spec results (set_pipelines ps (set_scheduler s1 e)))
      as (s' & po & Hstash & Hok' & Hsame & Hpc & Hpm & Hh & Ho & Hpo);
      [done|apply (co_commit _ _ Hok)|by rewrite Hres|..].
    { rewrite Hres. intros h Hh. split; [|by apply Hhs in Hh as (_ & ? & _)].
      change (bh_index h ∈ pending_merge s1). rewrite Hm1.
      apply elem_of_list_to_set. by apply list_elem_of_fmap_2. }
    rewrite Hres in *. unfold runs at 1. rewrite Hstash.
    assert (advanced s s' jobs) as Hadv by by eapply reported_advanced.
    apply (dispatched_commit e s' ps po jobs); [|done|done].
    apply (core_advance e s' ps po jobs); try done.
    + rewrite Hpm. change (pending_merge s1 ∖ list_to_set (bh_index <$> hs) = ∅). rewrite Hm1. set_solver.
    + intros k [?|(h & -> & Hin')%list_elem_of_fmap]%Hpo; [by left|right].
      apply Hhs in Hin' as (Hpos & Hc & x & Hx & He). exists (bh_index h), x.
      split_and!; [|done|done|by split].
      apply (ok_pending _ Hok1). left. rewrite Hm1. apply elem_of_list_to_set, list_elem_of_fmap_2.
      apply Hhs. eauto 10.
Qed.

(** One dispatch of the ready work. *)
Lemma dispatch_runs e :
  eng_ok F e -> exists jobs,
    ready_work (scheduler e) = Some (Extract <$> jobs) /\
    (forall j, j ∈ jobs <-> job_index j ∈ all_indexes (scheduler e) /\ may_extract (scheduler e) j) /\
    (forall i, cnt i jobs = 0 \/ can_extract (scheduler e) i (cnt i jobs)) /\
    runs F (dispatch_tasks B (Extract <$> jobs)) e (fun _ e' => dispatched e jobs e').
Proof.
  intros Heng. pose proof (proj1 Heng) as Hok.
  destruct (ready_jobs (scheduler e) (co_sched _ _ Hok) (co_merge _ _ Hok)) as (jobs & Hr & Hx & Hjobs).
  assert (Hcan : forall i, cnt i jobs = 0 \/ can_extract (scheduler e) i (cnt i jobs)).
  { intros i. by apply ready_can; [apply (co_sched _ _ Hok)|apply (co_nodup _ _ Hok)|]. }
  exists jobs. split_and!; [done..|]. unfold dispatch_tasks. apply runs_bind.
  unfold flush_batch_completions. apply runs_bind, runs_get, runs_bind.
  eapply runs_expect; [apply split_extract|]. apply runs_bind, runs_ret, runs_ret, runs_bind.
  eapply runs_mono, run_extractions_runs; [|done|apply Hjobs].
  intros _ e1 (ps & -> & Hl).
  assert (Heng1 : eng_ok F (set_pipelines ps e)).
  { split; [|apply Heng]. destruct Hok. split; try done. by eapply pipes_like_ok. }
  eapply runs_mono, report_extractions_runs; [|done|apply Hjobs|done].
  intros u e' Hd. exact Hd.
Qed.
End Dispatch.

End EngineCorrect.
