(* ===== verification/EngineSync.v ===== *)
(** * A synchronised range is complete
    ([packages/zaino-sync/src/engine.rs])

    Supplying blocks, the streaming loop's invariants and termination, and the
    state a synchronised range leaves. *)

From S2P Require Import Prelude Primitives Types Persistence Codec Seam Dag Scheduler Engine EngineCorrect.
From stdpp Require Import base gmap list strings sets relations sorting.
From Stdlib Require Import Lia.
Open Scope nat_scope.

Module EngineSync.
Import Kv.
Import Codec.
Import Dag.
Import Scheduler.
Import Engine.
Import EngineCorrect.

(** ** Supply *)
Section Supply.
Context {Ctx PSt BSt : Type} (F : Prop).
Implicit Types e : @SyncEngine Ctx PSt BSt.

Definition with_available (s : Scheduler) (n : nat) (total : option nat) : Scheduler :=
  mkScheduler (dag s) (batch_size s) n total (all_indexes s) (deps s)
    (extracted_in_batch s) (current_batch s) (committed_through s) (pending_merge s)
    (pending_commit s).

Lemma sched_ok_supply (s : Scheduler) n t : sched_ok s -> sched_ok (with_available s n t).
Proof. intros Hok. by destruct Hok. Qed.

(** The last height of every batch once one more block is pushed. *)
Lemma push_heights nh (p b nc k : nat) :
  0 < b -> nc * b <= p ->
  (if decide (p / b = k) then Some nh
   else if decide (nc <= k /\ k * b < p)
        then Some (nh - 1 - Z.of_nat (p - Nat.min ((k + 1) * b) p))%Z else None) =
  (if decide (nc <= k /\ k * b < S p)
   then Some (nh + 1 - 1 - Z.of_nat (S p - Nat.min ((k + 1) * b) (S p)))%Z else None).
Proof.
  intros Hb Hp. pose proof (Nat.div_mod_eq p b) as Hd. pose proof (Nat.mod_upper_bound p b) as Hm.
  case_decide as Hk.
  - subst k. rewrite decide_True by nia. f_equal. rewrite Nat.min_r by nia. lia.
  - case_decide as Hin.
    + rewrite decide_True by lia. f_equal. destruct Hin.
      assert (k < p / b) by nia.
      rewrite !Nat.min_l by nia. nia.
    + rewrite decide_False; [done|]. intros [? ?]. assert (k * b = p) by lia.
      apply Hk. nia.
Qed.

Lemma push_core e ctx :
  core_ok F e -> (next_height e <= Height.MAX_HEIGHT)%Z ->
  let e' := push_block ctx e in
  core_ok F e' /\ pushed e' = S (pushed e) /\ blocks_available (scheduler e') = S (pushed e).
Proof.
  intros Hok Hlim. cbn zeta. set (e' := push_block ctx e).
  destruct (BlockBuffer.push_contiguous (buffer e) ctx (co_contiguous _ _ Hok)) as [Hcont Hpush].
  change (pushed e' = S (pushed e)) in Hpush.
  assert (Hav : blocks_available (scheduler e') = pushed e') by done.
  split_and!; [|done|by rewrite Hav].
  assert (Hnc : next_candidate e' = next_candidate e) by done.
  assert (Hb : batch e' = batch e) by done.
  pose proof (co_pushed _ _ Hok) as Hp. destruct Hok.
  split; try done; rewrite ?Hnc, ?Hb, ?Hpush, ?Hav, ?Hpush.
  - by apply (sched_ok_supply (scheduler e) _ (total_blocks (scheduler e))).
  - lia.
  - intros i k Hi Hc. specialize (co_started0 i k Hi Hc). lia.
  - intros i c x Hi Hc Hx. destruct (co_extracted0 i c x Hi Hc Hx) as [? [?|?]]; (split; [done|lia]).
  - intros k. unfold last_height. rewrite Hb, Hpush.
    change (next_height e') with (next_height e + 1)%Z. rewrite <- push_heights by lia.
    cbn [e' push_block batch_last_height]. fold (pushed e) (batch e).
    case_decide as Hd; [by rewrite Hd, lookup_insert_eq|].
    rewrite lookup_insert_ne by done. apply co_heights0.
  - change (next_height e') with (next_height e + 1)%Z. lia.
  - intros sm c Hsm Hc. specialize (co_watermark0 sm c Hsm Hc).
    change (next_height e') with (next_height e + 1)%Z. lia.
Qed.

(** Making every pushed block available. *)
Lemma available_core e t :
  core_ok F e -> core_ok F (set_scheduler (with_available (scheduler e) (pushed e) t) e).
Proof.
  intros Hok. pose proof (co_pushed _ _ Hok) as Hp. destruct Hok. set (e' := set_scheduler _ e).
  assert (Hav : blocks_available (scheduler e') = pushed e) by done.
  assert (Hb : batch e' = batch e) by done.
  assert (Hn : next_candidate e' = next_candidate e) by done.
  assert (Hp' : pushed e' = pushed e) by done.
  split; try done; rewrite ?Hav, ?Hb, ?Hn, ?Hp'.
  - by apply sched_ok_supply.
  - lia.
  - intros i c x Hi Hc Hx. destruct (co_extracted0 i c x Hi Hc Hx) as [? [?|?]]; (split; [done|lia]).
Qed.

(** [e'] is [e] with [m] more blocks. *)
Definition supplied e e' (m : nat) : Prop :=
  core_ok F e' /\ pushed e' = pushed e + m /\
  (next_height e' = next_height e + Z.of_nat m)%Z /\
  next_candidate e' = next_candidate e /\ backend e' = backend e /\
  exists n t, scheduler e' = with_available (scheduler e) n t.

Lemma supplied_push e ctx e' m :
  supplied (push_block ctx e) e' m -> pushed (push_block ctx e) = S (pushed e) -> supplied e e' (S m).
Proof.
  intros (Hok & Hp & Hh & Hn & Hb & n & t & Hs) He. split_and!; [done|lia| |done|done|].
  - rewrite Hh. cbn. lia.
  - exists n, t. by rewrite Hs.
Qed.

Lemma pull_spec n source e :
  core_ok F e -> (next_height e + Z.of_nat (length source) <= Height.MAX_HEIGHT + 1)%Z ->
  exists e', pull n source e = (e', drop n source, bool_decide (length source < n)) /\
    supplied e e' (Nat.min n (length source)) /\
    total_blocks (scheduler e') =
      (if bool_decide (length source < n) then Some (pushed e') else total_blocks (scheduler e)) /\
    (length source < n -> blocks_available (scheduler e') = pushed e').
Proof.
  revert source e. induction n as [|n IH]; intros source e Hok Hlim; cbn [pull].
  { exists e. rewrite bool_decide_false by lia. split_and!; [done| |done|lia].
    split_and!; try done; [lia|].
    exists (blocks_available (scheduler e)), (total_blocks (scheduler e)).
    by destruct (scheduler e). }
  destruct source as [|ctx source].
  { exists (finish_supply e). rewrite bool_decide_true by (cbn; lia). split_and!; try done.
    split_and!; try done; [by apply (available_core e (Some (pushed e)))| |].
    1: change (next_height e = next_height e + 0)%Z; lia.
    by exists (pushed e), (Some (pushed e)). }
  cbn [length] in Hlim. destruct (push_core e ctx Hok) as (Hok1 & Hp1 & Ha1); [lia|].
  destruct (IH source (push_block ctx e) Hok1) as (e' & Hrun & Hsup & Ht & Ha); [cbn; lia|].
  exists e'. rewrite Hrun. cbn [drop length].
  assert (bool_decide (S (length source) < S n) = bool_decide (length source < n)) as ->
    by (apply bool_decide_ext; lia).
  split_and!; [done| |by rewrite Ht|intros; apply Ha; lia].
  replace (Nat.min (S n) (S (length source))) with (S (Nat.min n (length source))) by lia.
  by eapply supplied_push.
Qed.

(** One supply turn: a whole batch, or the rest of the source and its end. *)
Lemma supply_spec source e :
  core_ok F e -> (next_height e + Z.of_nat (length source) <= Height.MAX_HEIGHT + 1)%Z ->
  let done := bool_decide (length source < batch e) in
  exists e', supply source e = (e', drop (batch e) source, done) /\
    supplied e e' (Nat.min (batch e) (length source)) /\
    blocks_available (scheduler e') = pushed e' /\
    total_blocks (scheduler e') = (if done then Some (pushed e') else total_blocks (scheduler e)).
Proof.
  intros Hok Hlim. cbn zeta. unfold supply.
  destruct (pull_spec (batch e) source e Hok Hlim) as (e' & Hrun & Hsup & Ht & Ha).
  fold (batch e). rewrite Hrun. case_bool_decide as Hd.
  - exists e'. split_and!; [done|done|by apply Ha|done].
  - eexists. split; [done|]. split_and!; [|done|by rewrite <- Ht].
    destruct Hsup as (Hok' & ? & ? & ? & ? & n & t & Hs). split_and!; try done.
    + by apply (available_core e' (total_blocks (scheduler e'))).
    + exists (pushed e'), (total_blocks (scheduler e')). cbn [set_scheduler scheduler]. by rewrite Hs.
Qed.
End Supply.

(** ** Progress *)
Section Progress.
Context {Ctx PSt BSt : Type} (B : Backend BSt) `{HashIter} `{ParOrder} (F : Prop).
Implicit Types e : @SyncEngine Ctx PSt BSt.

(** How far an index is. *)
Definition position (s : Scheduler) (i : IndexId) : nat :=
  default 0 (current_batch s !! i) * batch_size s + default 0 (extracted_in_batch s !! i).

(** What is left up to [n]. *)
Definition work (n : nat) (s : Scheduler) : nat :=
  sum_list_with (fun i => n - position s i) (all_indexes s).

Lemma sum_le {A} (f g : A -> nat) l :
  (forall x, x ∈ l -> f x <= g x) -> sum_list_with f l <= sum_list_with g l.
Proof.
  induction l as [|x l IH]; intros Hfg; cbn; [lia|].
  pose proof (Hfg x ltac:(left)). specialize (IH (fun y Hy => Hfg y (list_elem_of_further _ _ _ Hy))). lia.
Qed.
Lemma sum_lt {A} (f g : A -> nat) l x :
  (forall x, x ∈ l -> f x <= g x) -> x ∈ l -> f x < g x -> sum_list_with f l < sum_list_with g l.
Proof.
  induction l as [|y l IH]; intros Hfg Hx Hlt; [by apply elem_of_nil in Hx|]. cbn.
  pose proof (Hfg y ltac:(left)). pose proof (sum_le f g l (fun z Hz => Hfg z (list_elem_of_further _ _ _ Hz))).
  apply elem_of_cons in Hx as [->|Hx]; [lia|].
  specialize (IH (fun z Hz => Hfg z (list_elem_of_further _ _ _ Hz)) Hx Hlt). lia.
Qed.

Lemma advanced_position e e' jobs i :
  core_ok F e -> same_setup (scheduler e) (scheduler e') -> advanced (scheduler e) (scheduler e') jobs ->
  i ∈ all_indexes (scheduler e) ->
  position (scheduler e) i + cnt i jobs <= position (scheduler e') i.
Proof.
  intros Hok (_ & Hbs & _) Hadv Hi. destruct (progress_of F e i Hok Hi) as (c & x & Hc & Hx).
  destruct (Hadv i c x Hi Hc Hx) as [Hc' Hx']. unfold position. rewrite Hc, Hx, Hc', Hx', Hbs. cbn.
  case_decide as Hd; [|lia]. destruct Hd as [_ Hd].
  pose proof (effective_le (scheduler e) c). lia.
Qed.

Lemma work_dispatched n e e' jobs :
  core_ok F e -> dispatched B F e jobs e' -> work n (scheduler e') <= work n (scheduler e).
Proof.
  intros Hok (_ & Hsame & Hadv & _). unfold work.
  assert (all_indexes (scheduler e') = all_indexes (scheduler e)) as -> by apply Hsame.
  apply sum_le. intros i Hi. pose proof (advanced_position e e' jobs i Hok Hsame Hadv Hi). lia.
Qed.

Lemma work_decreases n e e' jobs j :
  core_ok F e -> dispatched B F e jobs e' -> j ∈ jobs -> job_index j ∈ all_indexes (scheduler e) ->
  position (scheduler e') (job_index j) <= n -> work n (scheduler e') < work n (scheduler e).
Proof.
  intros Hok (_ & Hsame & Hadv & _) Hj Hi Hn. unfold work.
  assert (all_indexes (scheduler e') = all_indexes (scheduler e)) as -> by apply Hsame.
  assert (0 < cnt (job_index j) jobs) as Hpos.
  { unfold cnt. assert (j ∈ filter (fun j' => job_index j' = job_index j) jobs) as Hin
      by by apply list_elem_of_filter.
    destruct (filter _ jobs); [by apply elem_of_nil in Hin|cbn; lia]. }
  eapply (sum_lt _ _ _ (job_index j)); [|done|].
  - intros i Hi'. pose proof (advanced_position e e' jobs i Hok Hsame Hadv Hi'). lia.
  - pose proof (advanced_position e e' jobs _ Hok Hsame Hadv Hi). lia.
Qed.

(** *** The two phases of a stream *)

(** What holds of every index. *)
Definition every (P : nat -> nat -> Prop) (s : Scheduler) : Prop :=
  forall i c x, i ∈ all_indexes s -> current_batch s !! i = Some c ->
    extracted_in_batch s !! i = Some x -> P c x.

(** While blocks come, whole batches are pushed. *)
Definition supplying e : Prop :=
  (exists q, pushed e = q * batch e) /\
  every (fun c x => (x = 0 \/ (c + 1) * batch e <= pushed e) /\ c * batch e + x <= pushed e) (scheduler e) /\
  match total_blocks (scheduler e) with None => True | Some t => t <= next_candidate e * batch e end.

(** Once the source has ended, a partial batch is smaller. *)
Definition finishing e : Prop :=
  let s := scheduler e in
  total_blocks s = Some (blocks_available s) /\
  every (fun c x => (x = 0 \/ x < effective_batch_size s c) /\
    c * batch e + x < blocks_available s + batch e) s.

Lemma supplying_effective e c :
  supplying e -> next_candidate e <= c ->
  effective_batch_size (scheduler e) c = batch e \/ effective_batch_size (scheduler e) c = 0.
Proof.
  intros (_ & _ & Ht) Hc. unfold effective_batch_size. destruct (total_blocks (scheduler e)) as [t|];
    [|by left]. right. unfold batch in *. nia.
Qed.

(** What a dispatch does to what holds of every index. *)
Lemma every_advanced (P Q : nat -> nat -> Prop) e e' jobs :
  let s := scheduler e in
  core_ok F e -> dispatched B F e jobs e' ->
  (forall i, cnt i jobs = 0 \/ can_extract s i (cnt i jobs)) -> every P s ->
  (forall c x n, next_candidate e <= c -> P c x ->
     n = 0 \/ (x + n <= effective_batch_size s c /\ c * batch e + (x + n) <= blocks_available s) ->
     (completes s c x n -> Q (c + 1) 0) /\ (~ completes s c x n -> Q c (x + n))) ->
  every Q (scheduler e').
Proof.
  cbn zeta. intros Hok (_ & (_ & _ & _ & _ & Hall & _) & Hadv & _) Hcan HP HQ i c' x' Hi Hc' Hx'.
  rewrite Hall in Hi. destruct (progress_of F e i Hok Hi) as (c & x & Hc & Hx).
  destruct (Hadv i c x Hi Hc Hx) as [H1 H2]. rewrite H1 in Hc'. rewrite H2 in Hx'. simplify_eq.
  destruct (HQ c x (cnt i jobs)) as [Hyes Hno].
  - by apply (co_evicted _ _ Hok i).
  - by apply (HP i).
  - destruct (Hcan i) as [?|(c1 & x1 & ds & Hc1 & Hx1 & ? & ? & _)]; [by left|right].
    assert (c1 = c) as -> by congruence. by assert (x1 = x) as -> by congruence.
  - case_decide; auto.
Qed.

(** Some index is at the next batch to commit. *)
Lemma every_candidate e (P : nat -> nat -> Prop) :
  eng_ok F e -> every P (scheduler e) -> exists x, P (next_candidate e) x.
Proof.
  intros [Hok (i & Hi & Hc)] HP. destruct (ok_extracted _ (co_sched _ _ Hok) i Hi) as [x Hx].
  exists x. by apply (HP i).
Qed.

Lemma supplying_dispatch e e' jobs :
  eng_ok F e -> supplying e -> blocks_available (scheduler e) = pushed e ->
  (forall i, cnt i jobs = 0 \/ can_extract (scheduler e) i (cnt i jobs)) ->
  dispatched B F e jobs e' ->
  supplying e' /\ pushed e' = pushed e /\
  forall k, next_candidate e <= k < next_candidate e' ->
    last_height e k = (next_height e - Z.of_nat (pushed e) + Z.of_nat ((k + 1) * batch e) - 1)%Z /\
    (k + 1) * batch e <= pushed e.
Proof.
  intros Heng Hsup Hav Hcan Hd. pose proof (proj1 Heng) as Hok. pose proof (co_batch _ _ Hok) as Hpos.
  pose proof (supplying_effective e) as Heff. pose proof Hsup as ([q Hq] & Hev & Ht).
  assert (Hev' : every (fun c x => (x = 0 \/ (c + 1) * batch e <= pushed e) /\ c * batch e + x <= pushed e)
    (scheduler e')).
  { eapply every_advanced; [done..|]. cbn beta. intros c x n Hc [Hx Hp] Hn.
    specialize (Heff c Hsup Hc). unfold completes. rewrite Hav in Hn.
    destruct Hn as [->|[Hn Hn']]; split; intros Hcomp; try lia.
    assert (n = 0 \/ 0 < n) as [->|Hn0] by lia; [rewrite Nat.add_0_r; done|].
    split; [right|lia]. assert (c < q) by nia. nia. }
  destruct Hd as (Heng' & Hsame & _ & _ & _ & (Hnc & _) & Hp).
  assert (Hb : batch e' = batch e) by apply Hsame.
  destruct (every_candidate e' _ Heng' Hev') as [x [_ Hx]].
  assert (Hp' : pushed e' = pushed e) by lia.
  split_and!; [|done|].
  - split_and!; [exists q; by rewrite Hp', Hb|by rewrite Hb, Hp'|].
    assert (total_blocks (scheduler e') = total_blocks (scheduler e)) as -> by apply Hsame.
    destruct (total_blocks (scheduler e)); [|done]. rewrite Hb. nia.
  - intros k Hk. assert ((k + 1) * batch e <= pushed e) by nia. split; [|done].
    unfold last_height. rewrite Nat.min_l by done. lia.
Qed.

Lemma finishing_dispatch e e' jobs :
  eng_ok F e -> finishing e ->
  (forall i, cnt i jobs = 0 \/ can_extract (scheduler e) i (cnt i jobs)) ->
  dispatched B F e jobs e' ->
  finishing e' /\
  forall k, next_candidate e <= k < next_candidate e' ->
    last_height e k = (Z.min (next_height e - Z.of_nat (blocks_available (scheduler e))
      + Z.of_nat ((k + 1) * batch e)) (next_height e) - 1)%Z.
Proof.
  intros Heng [Ht Hev] Hcan Hd. pose proof (proj1 Heng) as Hok. pose proof (co_batch _ _ Hok) as Hpos.
  set (av := blocks_available (scheduler e)) in *.
  assert (Hev' : every (fun c x => (x = 0 \/ x < effective_batch_size (scheduler e) c) /\
    c * batch e + x < av + batch e) (scheduler e')).
  { eapply every_advanced; [done..|]. cbn beta. intros c x n Hc [Hx Hp] Hn. unfold completes. fold av in Hn.
    destruct Hn as [->|[Hn Hn']]; split; intros Hcomp; try lia. }
  assert (Hnc : next_candidate e * batch e <= av \/ next_candidate e' = next_candidate e).
  { destruct (decide (next_candidate e * batch e <= av)) as [|Hgt]; [by left|right].
    destruct Heng as [_ (i & Hi & Hc)]. destruct (ok_extracted _ (co_sched _ _ Hok) i Hi) as [x Hx].
    destruct Hd as (Heng' & Hsame & Hadv & _ & _ & (Hle & _) & _).
    destruct (Hadv i _ x Hi Hc Hx) as [Hc' _]. rewrite decide_False in Hc'.
    - assert (all_indexes (scheduler e') = all_indexes (scheduler e)) as Hall by apply Hsame.
      rewrite <- Hall in Hi. pose proof (co_evicted _ _ (proj1 Heng') i _ Hi Hc'). lia.
    - intros [Hn _]. destruct (Hcan i) as [?|(c1 & x1 & ds & Hc1 & _ & _ & Hle' & _)]; [lia|].
      assert (c1 = next_candidate e) as -> by congruence. fold (batch e) av in Hle'. lia. }
  pose proof (co_pushed _ _ Hok) as Hpu. fold av in Hpu.
  destruct Hd as (Heng' & Hsame & _).
  assert (Hb : batch e' = batch e) by apply Hsame.
  assert (Ht' : total_blocks (scheduler e') = total_blocks (scheduler e)) by apply Hsame.
  assert (Hav : blocks_available (scheduler e') = av) by apply Hsame.
  assert (Heff : forall c, effective_batch_size (scheduler e') c = effective_batch_size (scheduler e) c).
  { intros c. unfold effective_batch_size. fold (batch e) (batch e'). by rewrite Ht', Hb. }
  split.
  - split; [by rewrite Ht', Hav|]. rewrite Hb, Hav. intros i c x Hi Hc Hx. rewrite Heff. by apply (Hev' i).
  - intros k Hk. destruct Hnc as [Hle|?]; [|lia]. unfold last_height. replace (pushed e) with av by lia. lia.
Qed.
End Progress.

(** ** The streaming loop *)
Section Stream.
Context {Ctx PSt BSt : Type} (B : Backend BSt) `{HashIter} `{ParOrder} (F : Prop).
Context (HB : backend_ok B F).
Implicit Types e : @SyncEngine Ctx PSt BSt.

(** No edge is a barrier and dependencies are ranked. *)
Definition ranked (s : Scheduler) : Prop :=
  exists rank : IndexId -> nat, forall i ds d r, i ∈ all_indexes s ->
    deps s !! i = Some ds -> (d, r) ∈ ds -> r = Pipelined /\ rank d < rank i.

(** What a stream never changes. *)
Definition setup (s : Scheduler) := (dag s, batch_size s, all_indexes s, deps s).

Lemma ranked_setup s s' : setup s' = setup s -> ranked s -> ranked s'.
Proof. intros [= _ _ Ha Hd] [rank Hr]. exists rank. by rewrite Ha, Hd. Qed.

(** A stream to [top] that began with offset zero at [base], with [len] blocks
    still to come and every index's position below [n]. *)
Definition phase_ok (done : bool) (len n : nat) (base top : Z) e : Prop :=
  if done
  then finishing e /\ next_height e = top /\
       (next_height e - Z.of_nat (blocks_available (scheduler e)) = base)%Z /\
       blocks_available (scheduler e) + batch e <= n
  else supplying e /\ (next_height e + Z.of_nat len = top)%Z /\
       (next_height e - Z.of_nat (pushed e) = base)%Z /\ pushed e + len + batch e <= n.
Definition ready_ok (done : bool) (len n : nat) (base top : Z) e : Prop :=
  phase_ok done len n base top e /\ (done = false -> blocks_available (scheduler e) = pushed e).

(** The watermark a batch is committed with. *)
Definition batch_height (base top : Z) (b k : nat) : Z :=
  (Z.min (base + Z.of_nat ((k + 1) * b)) top - 1)%Z.

Lemma supply_phase source n base top e :
  eng_ok F e -> phase_ok false (length source) n base top e -> (top <= Height.MAX_HEIGHT + 1)%Z ->
  exists e' source' done, supply source e = (e', source', done) /\
    eng_ok F e' /\ ready_ok done (length source') n base top e' /\
    setup (scheduler e') = setup (scheduler e) /\ stamped B (batch_height base top (batch e)) e e' /\
    work n (scheduler e') = work n (scheduler e) /\ (done = true \/ length source' < length source).
Proof.
  intros [Hok Hstart] (Hsup & Htop & Hbase & Hn) Hlim. pose proof (co_batch _ _ Hok) as Hpos.
  destruct (supply_spec F source e Hok) as (e' & Hrun & Hs & Hav & Ht); [lia|].
  destruct Hs as (Hok' & Hp & Hh & Hnc & Hbk & a & t & Hsch).
  exists e', (drop (batch e) source), (bool_decide (length source < batch e)). split; [done|].
  assert (Hb : batch e' = batch e) by (unfold batch; by rewrite Hsch).
  assert (Hev : forall P, every P (scheduler e) -> every P (scheduler e')) by by rewrite Hsch.
  split; [split; [done|by rewrite Hnc, Hsch]|].
  split; [|split_and!; [by rewrite Hsch|by apply stamped_same|by rewrite Hsch|]].
  2: { rewrite bool_decide_eq_true, length_drop. lia. }
  destruct Hsup as ([q Hq] & Hall & Htot). unfold ready_ok, phase_ok. rewrite length_drop, Hav, Hb.
  case_bool_decide as Hd; [split; [|done]|split; [|done]; split_and!].
  - split_and!; [|lia|lia|lia]. split; [by rewrite Hav|]. intros i c x Hi Hc Hx. rewrite Hav, Hb.
    destruct (Hev _ Hall i c x Hi Hc Hx) as [Hx0 Hcx]. split; [|lia]. destruct Hx0 as [?|Hx0]; [by left|right].
    destruct (co_extracted _ _ Hok' i c x Hi Hc Hx) as [Hlt _].
    unfold effective_batch_size. rewrite Ht. fold (batch e'). rewrite Hb in *. lia.
  - rewrite <- Hb in Hq. split_and!; [exists (q + 1); rewrite Hb in *; lia| |].
    + rewrite Hb. intros i c x Hi Hc Hx. destruct (Hev _ Hall i c x Hi Hc Hx). lia.
    + rewrite Ht, Hnc, Hb. exact Htot.
  - lia.
  - lia.
  - lia.
Qed.

Lemma dispatch_phase done len n base top e e' jobs :
  eng_ok F e -> ready_ok done len n base top e ->
  (forall i, cnt i jobs = 0 \/ can_extract (scheduler e) i (cnt i jobs)) ->
  dispatched B F e jobs e' ->
  eng_ok F e' /\ ready_ok done len n base top e' /\ setup (scheduler e') = setup (scheduler e) /\
  stamped B (batch_height base top (batch e)) e e' /\
  every (fun c x => c * batch e + x <= n) (scheduler e').
Proof.
  intros Heng [Hph Hav] Hcan Hd. pose proof Hd as (Heng' & Hsame & _ & Hh & _ & Hst & _).
  pose proof Hsame as (H1 & H2 & H3 & H4 & H5 & H6).
  split; [done|]. assert (Hb : batch e' = batch e) by done.
  unfold ready_ok, phase_ok in *. destruct done.
  - destruct Hph as (Hf & Htop & Hbase & Hn).
    destruct (finishing_dispatch B F e e' jobs Heng Hf Hcan Hd) as [Hf' Hlast].
    rewrite Hh, H3, Hb. split_and!; try done; [unfold setup; congruence| |].
    + eapply stamped_ext; [|exact Hst]. intros k Hk. rewrite (Hlast k Hk). unfold batch_height.
      by rewrite Hbase, Htop.
    + intros i c x Hi Hc Hx. destruct (proj2 Hf' i c x Hi Hc Hx) as [_ Hle]. rewrite H3, Hb in Hle. lia.
  - destruct Hph as (Hs & Htop & Hbase & Hn). specialize (Hav eq_refl).
    destruct (supplying_dispatch B F e e' jobs Heng Hs Hav Hcan Hd) as (Hs' & Hp & Hlast).
    rewrite Hh, H3, Hb, Hp. split_and!; try done; [unfold setup; congruence| |].
    + eapply stamped_ext; [|exact Hst]. intros k Hk. destruct (Hlast k Hk) as [-> Hle]. unfold batch_height.
      lia.
    + intros i c x Hi Hc Hx. destruct Hs' as (_ & Hs' & _). destruct (Hs' i c x Hi Hc Hx) as [_ Hle].
      rewrite Hp, Hb in Hle. lia.
Qed.

(** What the loop leaves: nothing more to do, and the backend flushed. *)
Definition stream_end (n : nat) (base top : Z) e e' : Prop :=
  exists e1 b, e' = set_backend b e1 /\ b_flush B (backend e1) = Ok b /\
    eng_ok F e1 /\ phase_ok true 0 n base top e1 /\ ready_work (scheduler e1) = Some [] /\
    setup (scheduler e1) = setup (scheduler e) /\ stamped B (batch_height base top (batch e)) e e1.

Lemma stream_end_step n base top e e1 e' :
  setup (scheduler e1) = setup (scheduler e) -> stamped B (batch_height base top (batch e)) e e1 ->
  stream_end n base top e1 e' -> stream_end n base top e e'.
Proof.
  intros Hset Hst (e2 & b & ? & ? & ? & ? & ? & Hset2 & Hst2). exists e2, b.
  split; [done|]. split; [done|]. split; [done|]. split; [done|]. split; [done|].
  split; [congruence|]. eapply stamped_trans; [done|].
  assert (batch e1 = batch e) as Hb by (unfold batch; injection Hset; congruence). by rewrite <- Hb.
Qed.

(** The whole loop, from a state whose phase is known. *)
Lemma streaming_runs n base top fuel source done e :
  (top <= Height.MAX_HEIGHT + 1)%Z -> eng_ok F e -> phase_ok done (length source) n base top e ->
  (if done then 0 else 1 + length source) + work n (scheduler e) < fuel ->
  runs F (streaming_loop B fuel source done) e (fun _ e' => stream_end n base top e e').
Proof.
  intros Hlim. revert source done e. induction fuel as [|fuel IH]; intros source done e Heng Hph Hfuel; [lia|].
  assert (exists e1 source1 done1,
    (if done then (e, source, true) else supply source e) = (e1, source1, done1) /\
    eng_ok F e1 /\ ready_ok done1 (length source1) n base top e1 /\
    setup (scheduler e1) = setup (scheduler e) /\ stamped B (batch_height base top (batch e)) e e1 /\
    (if done1 then 0 else 1 + length source1) + work n (scheduler e1) <= fuel /\
    (done1 = false -> (if done1 then 0 else 1 + length source1) + work n (scheduler e1) < fuel))
    as (e1 & source1 & done1 & Hsup & Heng1 & Hr1 & Hset1 & Hst1 & Hf1 & Hf1').
  { destruct done.
    - exists e, source, true. split_and!; try done; [by apply stamped_same|lia].
    - destruct (supply_phase source n base top e Heng Hph Hlim)
        as (e1 & s1 & d1 & ? & ? & ? & ? & ? & Hw & Hd). exists e1, s1, d1.
      split_and!; try done; rewrite Hw; destruct d1; try lia; destruct Hd; (done || lia). }
  unfold runs. cbn [streaming_loop]. rewrite Hsup.
  destruct (dispatch_runs B F HB e1 Heng1) as (jobs & Hready & Hjobs & Hcan & Hrun). rewrite Hready.
  destruct jobs as [|j jobs]; cbn [fmap list_fmap].
  - destruct done1.
    + unfold flush. destruct HB as (_ & _ & _ & Hfl). destruct (b_flush B (backend e1)) as [b|x] eqn:Hb; [|by eapply Hfl].
      exists e1, b. split_and!; try done. by destruct Hr1 as [? _].
    + eapply runs_mono, IH; [|done|by destruct Hr1|by apply Hf1'].
      intros u e'. by apply stream_end_step.
  - apply runs_bind. eapply runs_mono, Hrun. intros u e2 Hd.
    destruct (dispatch_phase _ _ _ _ _ _ _ _ Heng1 Hr1 Hcan Hd) as (Heng2 & Hr2 & Hset2 & Hst2 & Hpos).
    assert (Hj : job_index j ∈ all_indexes (scheduler e1)) by (apply Hjobs; left).
    assert (work n (scheduler e2) < work n (scheduler e1)).
    { eapply (work_decreases B F); [apply Heng1|exact Hd|left|done|].
      destruct Hd as (_ & (_ & Hbs & _ & _ & Hall & _) & _).
      assert (Hi2 : job_index j ∈ all_indexes (scheduler e2)) by by rewrite Hall.
      destruct (progress_of F e2 _ (proj1 Heng2) Hi2) as (c & x & Hc & Hx).
      unfold position. rewrite Hc, Hx, Hbs. by apply (Hpos (job_index j)). }
    eapply runs_mono, IH; [|done|by destruct Hr2|destruct done1; lia].
    intros u' e' He'. eapply stream_end_step; [done..|]. by eapply stream_end_step.
Qed.

(** ** Completeness *)

(** Nothing is buffered, pending or half done. *)
Record idle e : Prop := {
  id_ok : eng_ok F e;
  id_ranked : ranked (scheduler e);
  id_every : every (fun c x => c = next_candidate e /\ x = 0) (scheduler e);
  id_pushed : pushed e = next_candidate e * batch e;
  id_pending : pending_ops e = ∅;
  id_total : match total_blocks (scheduler e) with
             | None => True | Some t => t <= next_candidate e * batch e end }.

Lemma idle_supplying e : idle e -> supplying e.
Proof.
  intros [_ _ Hev Hp _ Ht]. split_and!; [by eexists| |done].
  intros i c x Hi Hc Hx. destruct (Hev i c x Hi Hc Hx) as [-> ->]. rewrite Hp. split; [by left|lia].
Qed.

(** When the source has ended and nothing is ready, every index has every block:
    by induction on the rank, an index that lacked one would be offered it. *)
Lemma nothing_ready e :
  eng_ok F e -> finishing e -> ranked (scheduler e) -> ready_work (scheduler e) = Some [] ->
  every (fun c _ => blocks_available (scheduler e) <= c * batch e) (scheduler e).
Proof.
  intros [Hok _] [Ht Hev] [rank Hrank] Hnone i.
  induction (well_founded_ltof _ rank i) as [i _ IH]. unfold ltof in IH. intros c x Hi Hc Hx.
  destruct (decide (blocks_available (scheduler e) <= c * batch e)) as [|Hlt]; [done|exfalso].
  destruct (ready_jobs (scheduler e) (co_sched _ _ Hok) (co_merge _ _ Hok)) as (jobs & Hr & _ & Hjobs).
  rewrite Hnone in Hr. injection Hr as Hr. symmetry in Hr. apply fmap_nil_inv in Hr as ->.
  destruct (ok_deps _ (co_sched _ _ Hok) i Hi) as (ds & Hds & Hdin).
  destruct (Hev i c x Hi Hc Hx) as [Hx0 _].
  assert (effective_batch_size (scheduler e) c =
    Nat.min (blocks_available (scheduler e) - c * batch e) (batch e)) as Heff
    by (unfold effective_batch_size; by rewrite Ht).
  pose proof (co_batch _ _ Hok) as Hpos. rewrite Heff in Hx0.
  cut (mkJob i c x (c * batch e + x) ∈ []); [by intros ?%elem_of_nil|].
  apply Hjobs. split; [done|]. exists c, x, ds. cbn. rewrite Heff.
  rewrite (co_merge _ _ Hok), (co_commit _ _ Hok).
  split_and!; try done; [lia|lia|]. intros d r Hd.
  destruct (Hrank i ds d r Hi Hds Hd) as [-> Hlt']. split; [done|]. specialize (Hdin _ _ Hd).
  destruct (progress_of F e d Hok Hdin) as (cd & xd & Hcd & Hxd).
  exists cd. split; [done|]. pose proof (IH d Hlt' cd xd Hdin Hcd Hxd). nia.
Qed.

Lemma finished_idle e :
  eng_ok F e -> finishing e -> ranked (scheduler e) -> ready_work (scheduler e) = Some [] -> idle e.
Proof.
  intros Heng Hfin Hrank Hnone. pose proof (proj1 Heng) as Hok. pose proof (co_batch _ _ Hok) as Hpos.
  pose proof (nothing_ready e Heng Hfin Hrank Hnone) as Hall. destruct Hfin as [Ht Hev].
  destruct (every_candidate F e _ Heng Hall) as [_ Hnc].
  assert (Hp : pushed e = next_candidate e * batch e) by (pose proof (co_pushed _ _ Hok); lia).
  assert (Hidle : every (fun c x => c = next_candidate e /\ x = 0) (scheduler e)).
  { intros i c x Hi Hc Hx. split.
    - pose proof (co_evicted _ _ Hok i c Hi Hc). destruct c as [|k]; [lia|].
      pose proof (co_started _ _ Hok i k Hi Hc). nia.
    - destruct (Hev i c x Hi Hc Hx) as [[?|Hx0] _]; [done|].
      assert (blocks_available (scheduler e) <= c * batch e) by by apply (Hall i c x).
      unfold effective_batch_size in Hx0. rewrite Ht in Hx0. fold (batch e) in Hx0. lia. }
  split; try done.
  - apply map_empty. intros k. apply eq_None_not_Some. intros Hk.
    destruct (co_pending _ _ Hok k Hk) as (Hle & i & c & Hi & Hc & Hlt).
    destruct (progress_of F e i Hok Hi) as (c' & x & Hc' & Hx). assert (c' = c) as -> by congruence.
    destruct (Hidle i c x Hi Hc Hx). lia.
  - rewrite Ht. lia.
Qed.

Lemma idle_invariants e : idle e -> post_sync_invariants e = true.
Proof.
  intros [[Hok _] _ _ Hp Hpend _]. unfold post_sync_invariants. pose proof (co_batch _ _ Hok) as Hpos.
  assert (BlockBuffer.blocks (buffer e) = ∅) as Hemp.
  { apply map_empty. intros k. apply eq_None_not_Some. rewrite (co_contiguous _ _ Hok k).
    rewrite (co_floor _ _ Hok). unfold pushed in Hp. lia. }
  unfold BlockBuffer.is_empty. rewrite Hemp, Hpend, !bool_decide_true by done. cbn [andb].
  fold (pushed e) (batch e). destruct (Nat.ltb_spec 0 (pushed e)) as [Hlt|]; [|done].
  apply bool_decide_true. unfold next_candidate in Hp. destruct (evicted_through e) as [k|]; [|lia].
  f_equal. rewrite Hp. apply (Nat.div_unique _ _ _ (batch e - 1)); nia.
Qed.

(** ** A new engine *)
Lemma load_all_like reader resume ps (m : gmap IndexId (@IndexPipeline Ctx PSt * PSt)) :
  Forall (fun x => pipe_ok F x.2 /\ fst <$> m !! x.1 = Some x.2.1) ps ->
  exists r, load_all reader resume ps m = Some r /\
    match r with Ok m' => pipes_like F m m' | Err _ => True end.
Proof.
  revert m. induction ps as [|[i [p st]] ps IH]; intros m Hf; [eexists; split; [done|apply pipes_like_refl]|].
  apply Forall_cons in Hf as [[(I & HI & Hst) Hi] Hf]. cbn in Hi, HI, Hst. cbn [load_all].
  destruct (m !! i) as [[p' st0]|] eqn:Hm; [|done]. cbn in Hi. injection Hi as ->.
  pose proof (pi_load _ _ _ HI reader resume st Hst) as Hld.
  destruct (load_state p reader resume st) as [[st'|x]|]; [|by eexists|done].
  assert (Hlike : pipes_like F m (<[i := (p, st')]> m)).
  { apply pipes_like_insert with (st := st0); [done|]. intros _. by exists I. }
  destruct (IH (<[i := (p, st')]> m)) as (r & Hr & Hm').
  { eapply Forall_impl; [exact Hf|]. intros x [Hx Hl]. by rewrite (proj1 (Hlike x.1)). }
  exists r. split; [done|]. destruct r; [|done]. by eapply pipes_like_trans.
Qed.

Lemma registered_pipe (set : list (@IndexPipeline Ctx PSt * PSt)) i q :
  (list_to_map (reverse ((fun p => (name (p_descriptor p.1), p)) <$> set))
    : gmap IndexId (@IndexPipeline Ctx PSt * PSt)) !! i = Some q -> q ∈ set.
Proof.
  intros Hq. apply elem_of_list_to_map_2, elem_of_reverse, list_elem_of_fmap in Hq as (q' & Hq & Hin).
  by simplify_eq.
Qed.
Lemma registered_pipes (set : list (@IndexPipeline Ctx PSt * PSt)) :
  Forall (pipe_ok F) set ->
  pipes_ok F (list_to_map (reverse ((fun p => (name (p_descriptor p.1), p)) <$> set)))
    ((fun p => name (p_descriptor p.1)) <$> set).
Proof.
  intros Hall i Hi. set (l := reverse _).
  assert (is_Some ((list_to_map l : gmap IndexId (@IndexPipeline Ctx PSt * PSt)) !! i)) as [q Hq].
  { apply elem_of_dom. rewrite dom_list_to_map_L, elem_of_list_to_set. unfold l.
    apply list_elem_of_fmap in Hi as (q & -> & Hq). apply list_elem_of_fmap.
    exists (name (p_descriptor q.1), q). split; [done|]. apply elem_of_reverse.
    by apply (list_elem_of_fmap_2 (fun p => (name (p_descriptor p.1), p))). }
  exists q. split; [done|]. rewrite Forall_forall in Hall. by eapply Hall, registered_pipe.
Qed.

Lemma ranked_new ds d n s :
  build ds = Some (Ok d) -> new d n = Some s -> Forall (fun u => source_access u = NoAccess) ds -> ranked s.
Proof.
  intros Hb Hn Hacc. destruct (new_spec ds d n Hb) as (s' & Hn' & _ & Hall & Hdeps & Hfire).
  assert (s' = s) as -> by congruence.
  destruct (build_spec ds) as (r & Hr & Hs). rewrite Hb in Hr. injection Hr as <-.
  destruct Hs as (_ & Hreg & pm & Hpm & Hdepth & _). exists (fun i => default 0 (pm !! i)).
  intros i l f r Hi Hl Hin. assert (Hdep : depends ds f i) by (apply Hdeps; eauto).
  pose proof (Hreg f i Hdep) as Hf. pose proof Hf as (u & -> & Hu)%list_elem_of_fmap. split.
  - destruct r; [done|]. pose proof (proj1 (Hfire u i l Barrier Hu Hl Hin) eq_refl) as Hnl.
    rewrite Forall_forall in Hacc. rewrite (Hacc u Hu) in Hnl. done.
  - apply Hall, Hpm in Hi as [p Hp]. destruct (proj1 (Hdepth i p Hp) _ Hdep) as (q & Hq & Hlt).
    rewrite Hp, Hq. cbn. lia.
Qed.

(** What the scheduler's counters are at first. *)
Lemma new_counters d n s :
  new d n = Some s ->
  batch_size s = n /\ blocks_available s = 0 /\ total_blocks s = None /\
  pending_merge s = ∅ /\ pending_commit s = ∅ /\
  forall i, i ∈ all_indexes s -> current_batch s !! i = Some 0 /\ extracted_in_batch s !! i = Some 0.
Proof.
  unfold new. destruct (phases d) as [gs|]; [|done]. cbn. intros [= <-]. cbn. split_and!; try done.
  intros i Hi. by rewrite const_map_lookup, decide_True by done.
Qed.

Lemma fresh_idle s ps b n start :
  sched_ok s -> batch_size s = n -> blocks_available s = 0 -> total_blocks s = None ->
  pending_merge s = ∅ -> pending_commit s = ∅ ->
  (forall i, i ∈ all_indexes s -> current_batch s !! i = Some 0 /\ extracted_in_batch s !! i = Some 0) ->
  NoDup (all_indexes s) -> all_indexes s <> [] -> ranked s -> pipes_ok F ps (all_indexes s) ->
  0 < n -> (0 <= start <= Height.MAX_HEIGHT + 1)%Z ->
  idle (mkEngine s ps b (BlockBuffer.new n) start ∅ ∅ None None None).
Proof.
  intros Hok Hbs Hav Ht Hm Hc Hz Hnd Hne Hr Hp Hn Hst. set (e := mkEngine _ _ _ _ _ _ _ _ _ _).
  assert (Hpu : pushed e = 0) by done. assert (Hnc : next_candidate e = 0) by done.
  assert (Hb : batch e = n) by done.
  assert (Hev : forall i c x, i ∈ all_indexes s -> current_batch s !! i = Some c ->
    extracted_in_batch s !! i = Some x -> c = 0 /\ x = 0).
  { intros i c x Hi Hc' Hx'. destruct (Hz i Hi). split; congruence. }
  split; try done; [split|..].
  - split; try done; rewrite ?Hpu, ?Hnc, ?Hb.
    + done.
    + intros k. fold (pushed e). rewrite Hpu. split; [intros [? ?]; done|lia].
    + change (scheduler e) with s. lia.
    + intros i c _ _. lia.
    + intros i k Hi Hck. destruct (Hz i Hi). cbn in Hck. congruence.
    + intros i c x Hi Hc' Hx'. destruct (Hev i c x Hi Hc' Hx') as [-> ->]. split; [lia|by left].
    + intros k [? Hk]. done.
    + by left.
  - destruct (all_indexes s) as [|i l] eqn:Hl; [done|]. exists i. cbn. rewrite Hl.
    split; [left|]. apply Hz. left.
  - cbn. by rewrite Ht.
Qed.

Lemma from_pipelines_spec set b config :
  Forall (fun p => pipe_ok F p /\ source_access (p_descriptor p.1) = NoAccess) set ->
  set <> [] -> 0 < cfg_batch_size config -> (0 <= start_height config <= Height.MAX_HEIGHT + 1)%Z ->
  exists r, from_pipelines B set b config = Some r /\
    match r with
    | Ok e => idle e /\ next_height e = start_height config /\ batch e = cfg_batch_size config /\
        next_candidate e = 0 /\ backend e = b /\
        forall x, x ∈ all_indexes (scheduler e) <-> x ∈ (fun p => name (p_descriptor p.1)) <$> set
    | Err (DagFault x) => build ((fun p => p_descriptor p.1) <$> set) = Some (Err x)
    | Err _ => True
    end.
Proof.
  intros Hset Hne Hbatch Hstart. set (ds := (fun p => p_descriptor p.1) <$> set).
  assert (Hnames : name <$> ds = (fun p => name (p_descriptor p.1)) <$> set)
    by (unfold ds; by rewrite <- list_fmap_compose).
  unfold from_pipelines. fold ds. destruct (build_spec ds) as (rd & Hbuild & _). rewrite Hbuild.
  destruct rd as [d|x]; [|by eexists]. cbn beta iota zeta.
  destruct (b_reader B b) as [reader|]; [|by eexists].
  destruct (read_watermark reader) as [resume|]; [|by eexists].
  set (ps := list_to_map _).
  assert (Hreg : Forall (pipe_ok F) set) by (eapply Forall_impl; [exact Hset|]; by intros p [? _]).
  destruct (load_all_like reader resume (hiter ps) ps) as (r & -> & Hload).
  { apply Forall_forall. intros [i q] Hin%elem_of_hiter. cbn. rewrite Hin. split; [|done].
    rewrite Forall_forall in Hreg. by eapply Hreg, registered_pipe. }
  destruct r as [ps'|]; [|by eexists]. cbn beta iota zeta.
  destruct (new_spec ds d (cfg_batch_size config) Hbuild) as (s & Hnew & Hok & Hall & _).
  rewrite Hnew. cbn beta iota zeta. eexists. split; [done|]. cbn beta iota.
  destruct (new_counters d _ s Hnew) as (H1 & H2 & H3 & H4 & H5 & H6).
  assert (Hidx : forall x, x ∈ all_indexes s <-> x ∈ (fun p => name (p_descriptor p.1)) <$> set)
    by (intros x; by rewrite Hall, Hnames).
  split_and!; try done. apply fresh_idle; try done.
  - unfold new in Hnew. destruct (phases d) as [gs|] eqn:Hgs; [|done]. injection Hnew as <-.
    by eapply all_indexes_NoDup.
  - destruct set as [|p set]; [done|]. intros Hnil. rewrite Hnil in Hidx.
    by assert (name (p_descriptor p.1) ∈ []) as ?%elem_of_nil by (apply Hidx; left).
  - eapply ranked_new; [done..|]. apply Forall_fmap. eapply Forall_impl; [exact Hset|]. by intros p [_ ?].
  - eapply pipes_like_ok; [exact Hload|]. intros i Hi%Hidx. by apply registered_pipes.
Qed.

(** ** Properties *)

(** Building an engine always answers.  A refusal of the index set is
    the DAG's own error; an engine built over a non-empty set without non-local
    source access, with a positive batch size and a valid start height, is idle:
    nothing buffered or pending, every index before its first batch, dependencies
    ranked, so that it can be driven. *)
Theorem from_pipelines_idle set b config :
  Forall (fun p => pipe_ok F p /\ source_access (p_descriptor p.1) = NoAccess) set ->
  set <> [] -> 0 < cfg_batch_size config -> (0 <= start_height config <= Height.MAX_HEIGHT + 1)%Z ->
  exists r, from_pipelines B set b config = Some r /\
    match r with
    | Ok e => idle e /\ next_height e = start_height config /\ batch e = cfg_batch_size config /\
        next_candidate e = 0 /\ backend e = b /\
        forall x, x ∈ all_indexes (scheduler e) <-> x ∈ (fun p => name (p_descriptor p.1)) <$> set
    | Err (DagFault x) => build ((fun p => p_descriptor p.1) <$> set) = Some (Err x)
    | Err _ => True
    end.
Proof. apply from_pipelines_spec. Qed.

(** Turns that are enough: one per block and per extraction. *)
Definition sync_fuel e (blocks : list Ctx) : nat :=
  2 + length blocks + length (all_indexes (scheduler e)) * (pushed e + length blocks + batch e).

Lemma work_bound n (s : Scheduler) : work n s <= length (all_indexes s) * n.
Proof. unfold work. induction (all_indexes s) as [|i l IH]; cbn; lia. Qed.

Lemma idle_flushed e b : idle e -> idle (set_backend b e).
Proof.
  intros [[Hok Hst] Hr Hev Hp Hpend Ht]. split; try done. split; [|done]. by destruct Hok.
Qed.

Lemma sync_range_spec debug e blocks fuel :
  idle e -> (next_height e + Z.of_nat (length blocks) <= Height.MAX_HEIGHT + 1)%Z ->
  sync_fuel e blocks <= fuel ->
  runs F (sync_range B debug fuel blocks) e (fun _ e' =>
    idle e' /\ post_sync_invariants e' = true /\
    next_height e' = (next_height e + Z.of_nat (length blocks))%Z /\
    setup (scheduler e') = setup (scheduler e) /\
    length blocks <= (next_candidate e' - next_candidate e) * batch e < length blocks + batch e /\
    exists log b, commits B (backend e) log = Some b /\ b_flush B b = Ok (backend e') /\
      length log = next_candidate e' - next_candidate e /\
      forall j ops, log !! j = Some ops -> exists writes, ops = writes ++
        [stamp (Z.min (next_height e + Z.of_nat ((j + 1) * batch e)) (next_height e') - 1)]).
Proof.
  intros Hidle Hlim Hfuel. set (n := pushed e + length blocks + batch e).
  set (base := (next_height e - Z.of_nat (pushed e))%Z).
  set (top := (next_height e + Z.of_nat (length blocks))%Z).
  unfold sync_range. apply runs_bind. eapply runs_mono, (streaming_runs n base top); [|done|apply Hidle| |].
  2: { split_and!; [by apply idle_supplying|done|done|done]. }
  2: { pose proof (work_bound n (scheduler e)). unfold sync_fuel in Hfuel. fold n in Hfuel. lia. }
  intros _ e' (e1 & b & -> & Hb & Heng & (Hfin & Htop & Hbase & _) & Hnone & Hset & Hnc & log & Hlog & Hst).
  assert (Hidle1 : idle e1).
  { apply finished_idle; try done. eapply ranked_setup; [done|apply Hidle]. }
  apply Forall2_same_length_lookup in Hst as [Hlen Hst]. rewrite length_seq in Hlen.
  assert (Hbt : batch e1 = batch e) by (unfold batch; injection Hset; congruence).
  pose proof (id_pushed _ Hidle) as Hp. pose proof (id_pushed _ Hidle1) as Hp1. rewrite Hbt in Hp1.
  pose proof (co_pushed _ _ (proj1 Heng)) as Hpa.
  destruct (every_candidate F e1 _ Heng (proj2 Hfin)) as [x [_ Hx]]. rewrite Hbt in Hx.
  assert (Hpost : post_sync_invariants (set_backend b e1) = true) by by apply idle_invariants, idle_flushed.
  unfold runs, assert_post_sync_invariants. rewrite Hpost, andb_false_r.
  split; [by apply idle_flushed|]. split; [done|]. split; [done|]. split; [done|].
  assert (blocks_available (scheduler e1) = pushed e + length blocks) as Hav by (subst base top; lia).
  split; [change (next_candidate (set_backend b e1)) with (next_candidate e1); nia|].
  exists log, (backend e1). split; [done|]. split; [done|]. split; [done|].
  intros j ops Hj. destruct (Hst j (next_candidate e + j) ops) as [w ->]; [|done|].
  { apply lookup_seq. split; [done|]. apply lookup_lt_Some in Hj. lia. }
  exists w. unfold batch_height. change (next_height (set_backend b e1)) with (next_height e1).
  rewrite Htop. do 5 f_equal. subst base. nia.
Qed.



(** [try_commit] commits exactly the batches every index has persisted:
    it neither panics nor loops, stops at the first batch some index lacks, and
    sends the backend, for each batch in order, one atomic commit of that batch's
    stashed writes followed by its last height as watermark.  Writes of later
    batches stay stashed, committed blocks leave the buffer, and a published
    watermark is below every block still buffered. *)
Theorem try_commit_exact e :
  core_ok F e ->
  runs F (try_commit B) e (fun _ e' =>
    let nc := next_candidate e in let nc' := next_candidate e' in
    scheduler e' = scheduler e /\ nc <= nc' /\
    (forall i c, i ∈ all_indexes (scheduler e) -> current_batch (scheduler e) !! i = Some c -> nc' <= c) /\
    (exists i, i ∈ all_indexes (scheduler e) /\ current_batch (scheduler e) !! i = Some nc') /\
    commits B (backend e) ((fun k => default [] (pending_ops e !! k) ++ [stamp (last_height e k)])
      <$> seq nc (nc' - nc)) = Some (backend e') /\
    (forall k, pending_ops e' !! k = if decide (k < nc') then None else pending_ops e !! k) /\
    BlockBuffer.floor (buffer e') = nc' * batch e /\
    forall sm c, watermark e' = Some sm -> Seam.committed sm = Some c ->
      (Seam.com_height c < next_height e' - Z.of_nat (pushed e' - nc' * batch e))%Z).
Proof.
  intros Hok. eapply runs_mono, (try_commit_runs B F HB e Hok).
  intros _ e' [[Hok' (i & Hi & Hc)] (Hs & _ & _ & _ & Hnc & _ & Hlog & Hpend)]. cbn zeta.
  assert (Hb : batch e' = batch e) by (unfold batch; by rewrite Hs). rewrite Hs in Hi, Hc.
  assert (Hev : forall i c, i ∈ all_indexes (scheduler e) ->
    current_batch (scheduler e) !! i = Some c -> next_candidate e' <= c).
  { rewrite <- Hs. apply (co_evicted _ _ Hok'). }
  split_and!; try done; [by exists i| | | |].
  - rewrite <- Hlog. f_equal. apply list_fmap_ext. intros j k Hk%list_elem_of_lookup_2.
    apply elem_of_seq in Hk. unfold batch_ops. rewrite (co_heights _ _ Hok k), decide_True; [done|].
    split; [lia|]. apply (candidate_pushed F); [done|]. intros i' c' Hi' Hc'. specialize (Hev i' c' Hi' Hc'). lia.
  - intros k. case_decide as Hk; [|apply Hpend; lia]. apply eq_None_not_Some. intros Hk'.
    destruct (co_pending _ _ Hok' k Hk'). lia.
  - rewrite <- Hb. apply (co_floor _ _ Hok').
  - rewrite <- Hb. apply (co_watermark _ _ Hok').
Qed.
End Stream.

(** ** Two indexes, batches of two, blocks from height 100 *)
Module Example.
Local Existing Instance canonical_iter.
Local Instance list_order : ParOrder :=
  {| par_order := fun A l => l; par_order_perm := fun A l => reflexivity _ |}.
Import Dag.Example.

(** A pipeline that persists the offsets it was given. *)
Definition recorder (d : Descriptor) : @IndexPipeline nat (list nat) :=
  mkPipeline d
    (fun offset _ st => Some (Ok (st ++ [offset]))) (fun offset _ _ st => Some (Ok (st ++ [offset])))
    (fun st => Some (Ok st))
    (fun st => Some (Ok ([Put (name d) (Z.of_nat <$> st) []], [])))
    (fun _ _ st => Some (Ok st)).

(** A backend that keeps the list of its commits. *)
Definition log_backend : Backend (list (list WriteOp)) :=
  mkBackend
    (fun _ => Ok (mkReader (fun _ _ => Ok None) (fun _ => Ok []) (fun _ _ _ _ _ v => Ok v)
                    (fun _ => Ok None) default_is_complete))
    (fun _ => Ok tt) (fun log ops => Ok (log ++ [ops])) (fun log => Ok log)
    default_begin_bulk default_finish_bulk default_bulk_pending.

Definition pair_set : list (@IndexPipeline nat (list nat) * list nat) :=
  [(recorder (index "b"%string ["a"%string] NoAccess), []);
   (recorder (index "a"%string [] NoAccess), [])].
Definition config : EngineConfig := mkConfig 2 100%Z.

Definition blank : @SyncEngine nat (list nat) (list (list WriteOp)) :=
  mkEngine (mkScheduler (mkDag ∅ [] 0) 1 0 None [] ∅ ∅ ∅ ∅ ∅ ∅) ∅ [] (BlockBuffer.new 1) 0%Z ∅ ∅
    None None None.
Definition fresh : @SyncEngine nat (list nat) (list (list WriteOp)) :=
  match from_pipelines log_backend pair_set [] config with Some (Ok e) => e | _ => blank end.
Definition synced (o : option (result unit SyncError * @SyncEngine nat (list nat) (list (list WriteOp))))
    : @SyncEngine nat (list nat) (list (list WriteOp)) :=
  match o with Some (Ok _, e) => e | _ => blank end.

Lemma fresh_built : from_pipelines log_backend pair_set [] config = Some (Ok fresh).
Proof. vm_compute. reflexivity. Qed.

Lemma backend_never_fails : backend_ok log_backend False.
Proof. by split_and!. Qed.
Lemma pair_ok : Forall (fun p => pipe_ok False p /\ source_access (p_descriptor p.1) = NoAccess) pair_set.
Proof. repeat constructor; by exists (fun _ => True). Qed.

Lemma from_pipelines_idle_witness :
  idle False fresh /\ next_height fresh = 100%Z /\ batch fresh = 2.
Proof.
  destruct (from_pipelines_idle log_backend False pair_set [] config pair_ok) as (r & Hr & Hm);
    [discriminate|cbn; lia|split; vm_compute; discriminate|].
  rewrite fresh_built in Hr. injection Hr as <-. destruct Hm as (Hidle & Hn & Hb & _).
  split; [exact Hidle|]. split; [exact Hn|exact Hb].
Defined.

Lemma fresh_is_idle : idle False fresh.
Proof.
  destruct (from_pipelines_spec log_backend False pair_set [] config pair_ok) as (r & Hr & Hm);
    [discriminate|cbn; lia|split; vm_compute; discriminate|].
  rewrite fresh_built in Hr. injection Hr as <-. by destruct Hm.
Qed.

(** Five blocks: two full batches and a partial one. *)
Definition five : list nat := [10; 11; 12; 13; 14].
Lemma fresh_facts : next_height fresh = 100%Z /\ batch fresh = 2 /\ sync_fuel fresh five <= 100.
Proof. split_and!; [vm_compute; reflexivity..|]. apply Nat.leb_le. vm_compute. reflexivity. Qed.

Lemma five_limit : (next_height fresh + Z.of_nat (length five) <= Height.MAX_HEIGHT + 1)%Z.
Proof. rewrite (proj1 fresh_facts). vm_compute. discriminate. Qed.

(** What never fails returns. *)
Lemma runs_synced (m : @M nat (list nat) (list (list WriteOp)) unit) e Q :
  runs False m e Q -> Q tt (synced (m e)).
Proof. unfold runs, synced. by destruct (m e) as [[[[]|x] e']|]. Qed.


(** The same set over the in-memory backend. *)
Definition mem_blank : @SyncEngine nat (list nat) Data :=
  mkEngine (mkScheduler (mkDag ∅ [] 0) 1 0 None [] ∅ ∅ ∅ ∅ ∅ ∅) ∅ Kv.new (BlockBuffer.new 1) 0%Z ∅ ∅
    None None None.
Definition mem_fresh : @SyncEngine nat (list nat) Data :=
  match from_pipelines in_memory pair_set Kv.new config with Some (Ok e) => e | _ => mem_blank end.
Lemma mem_built : from_pipelines in_memory pair_set Kv.new config = Some (Ok mem_fresh).
Proof. vm_compute. reflexivity. Qed.
Lemma mem_idle : idle False mem_fresh.
Proof.
  destruct (from_pipelines_spec in_memory False pair_set Kv.new config pair_ok) as (r & Hr & Hm);
    [discriminate|cbn; lia|split; vm_compute; discriminate|].
  rewrite mem_built in Hr. injection Hr as <-. by destruct Hm.
Qed.
Lemma mem_facts : next_height mem_fresh = 100%Z /\ sync_fuel mem_fresh five <= 100.
Proof. split; [vm_compute; reflexivity|]. apply Nat.leb_le. vm_compute. reflexivity. Qed.
Lemma mem_never_fails : backend_ok in_memory False.
Proof. by split_and!. Qed.
Lemma mem_limit :
  (0 <= next_height mem_fresh)%Z /\ (next_height mem_fresh + Z.of_nat (length five) <= Height.MAX_HEIGHT + 1)%Z.
Proof. rewrite (proj1 mem_facts). split; vm_compute; discriminate. Qed.

Lemma runs_ok {BSt A} (m : @M nat (list nat) BSt A) e Q :
  runs False m e Q -> exists a e', m e = Some (Ok a, e') /\ Q a e'.
Proof. unfold runs. destruct (m e) as [[[a|x] e']|]; [|done|done]. by exists a, e'. Qed.


(** Batches of one: every index has extracted, merged and stashed the block at
    height 100. *)
Definition stashed_ops : list WriteOp := [Put "a" [] []; Put "b" [] []].
Definition one_stashed (s : Scheduler) ps : @SyncEngine nat (list nat) (list (list WriteOp)) :=
  mkEngine s ps [] (BlockBuffer.push (BlockBuffer.new 1) 0 10) 101%Z {[0 := 100%Z]}
    {[0 := stashed_ops]} None None None.

Lemma one_stashed_core s ps :
  sched_ok s -> NoDup (all_indexes s) -> all_indexes s <> [] -> pipes_ok False ps (all_indexes s) ->
  batch_size s = 1 -> blocks_available s = 1 -> pending_merge s = ∅ -> pending_commit s = ∅ ->
  (forall i, i ∈ all_indexes s -> current_batch s !! i = Some 1 /\ extracted_in_batch s !! i = Some 0) ->
  core_ok False (one_stashed s ps).
Proof.
  intros Hs Hnd Hne Hps Hbs Hav Hm Hc Hcur. set (e := one_stashed s ps).
  assert (Hpu : pushed e = 1) by done. assert (Hnc : next_candidate e = 0) by done.
  assert (Hb : batch e = 1) by done.
  assert (He : scheduler e = s) by done.
  split; rewrite ?Hpu, ?Hnc, ?Hb, ?He; try done.
  - lia.
  - refine (proj1 (BlockBuffer.push_contiguous (BlockBuffer.new 1) 10 _)).
    intros k. change (BlockBuffer.total_pushed _) with 0. split; [intros [? ?]; done|lia].
  - by rewrite Hav.
  - intros i c _ _. lia.
  - intros i k Hi Hk. destruct (Hcur i Hi). assert (k = 0) as -> by congruence. lia.
  - intros i c x Hi Hci Hxi. destruct (Hcur i Hi). assert (x = 0) as -> by congruence. lia.
  - intros k. change (batch_last_height e) with ({[0 := 100%Z]} : gmap nat Z).
    destruct k as [|k].
    { rewrite lookup_singleton_eq, decide_True by lia. f_equal. unfold last_height. by rewrite Hpu, Hb. }
    rewrite decide_False by lia. by apply lookup_singleton_ne.
  - change (pending_ops e) with ({[0 := stashed_ops]} : gmap nat (list WriteOp)).
    intros k [l Hk]. apply lookup_singleton_Some in Hk as [<- _]. split; [lia|].
    destruct (all_indexes s) as [|i l'] eqn:Hl; [done|]. exists i, 1.
    split_and!; [left|apply Hcur; left|lia].
  - by left.
Qed.

Import Scheduler.Example.
Definition stashed : @SyncEngine nat (list nat) (list (list WriteOp)) := one_stashed s7 (pipelines fresh).

Lemma s7_facts :
  all_indexes s7 = ["a"; "b"]%string /\ all_indexes (scheduler fresh) = ["a"; "b"]%string /\
  batch_size s7 = 1 /\ blocks_available s7 = 1 /\ pending_merge s7 = ∅ /\ pending_commit s7 = ∅ /\
  (current_batch s7 !! "a"%string = Some 1 /\ extracted_in_batch s7 !! "a"%string = Some 0) /\
  current_batch s7 !! "b"%string = Some 1 /\ extracted_in_batch s7 !! "b"%string = Some 0.
Proof. split_and!; vm_compute; reflexivity. Qed.

Lemma ab_NoDup : NoDup ["a"; "b"]%string.
Proof. apply (bool_decide_unpack _). vm_compute. exact I. Qed.

Lemma stashed_core : core_ok False stashed.
Proof.
  destruct s7_facts as (Hall & Hfresh & Hbs & Hav & Hm & Hc & Ha & Hb).
  destruct (new_spec pair_dag (built pair_dag) 1 pair_built) as (s & Hs & Hok & _).
  rewrite pair_started in Hs. injection Hs as Hs. rewrite <- Hs in Hok.
  apply one_stashed_core; try assumption.
  - eapply reachable_ok; [exact Hok|apply s7_reachable].
  - rewrite Hall. exact ab_NoDup.
  - rewrite Hall. discriminate.
  - rewrite Hall, <- Hfresh. apply (co_pipes _ _ (proj1 (id_ok _ _ fresh_is_idle))).
  - rewrite Hall. intros i [->|[->|[]%elem_of_nil]%elem_of_cons]%elem_of_cons; assumption.
Qed.

(** The batch is committed with its watermark, 100, and nothing stays stashed. *)
Lemma try_commit_exact_witness :
  let e' := synced (try_commit log_backend stashed) in
  exists n, next_candidate e' = n /\ (exists i, i ∈ all_indexes s7 /\ current_batch s7 !! i = Some n) /\
    BlockBuffer.floor (buffer e') = n * batch stashed.
Proof.
  pose proof (runs_synced _ _ _ (try_commit_exact log_backend False backend_never_fails stashed stashed_core))
    as (_ & _ & _ & Hex & _ & _ & Hfl & _).
  eexists. split; [reflexivity|]. exact (conj Hex Hfl).
Defined.

(** Two blocks arrive, then a third, then the channel closes. *)
Definition arrivals : @Receiver nat := [Some 10; Some 11; None; Some 12; None].

End Example.
End EngineSync.
