(* ===== verification/Bridge.v ===== *)
(** * From typed indexes to pipelines
    ([packages/zaino-sync/src/bridge.rs], [traits.rs], [pipeline.rs])

    An index declares how one block is extracted and how blocks combine; a bridge
    turns the declaration into the pipeline the engine drives.  Traits are
    records of their methods; a bridge is its buffers and one function per
    pipeline method. *)

From S2P Require Import Prelude Primitives Types Persistence Codec Seam Dag Scheduler Engine.
From stdpp Require Import base gmap list strings sets relations sorting.
From Stdlib Require Import Lia.
Open Scope nat_scope.

(** Rayon's [reduce] over an indexed iterator: some tree over the items in order,
    with the identity wherever it likes. *)
Inductive reduces {A} (op : A -> A -> A) (id : A) : list A -> A -> Prop :=
| reduces_id : reduces op id [] id
| reduces_one a : reduces op id [a] a
| reduces_op l1 l2 a b : reduces op id l1 a -> reduces op id l2 b -> reduces op id (l1 ++ l2) (op a b).
Class ParReduce := {
  par_reduce : forall {A : Type}, (A -> A -> A) -> A -> list A -> A;
  par_reduce_tree : forall {A : Type} (op : A -> A -> A) id l, reduces op id l (par_reduce op id l) }.

Module Bridge.
Import Kv.
Import Codec.
Import Dag.
Import Engine.

(** ** Index declarations *)

(** [IndexDef]'s constants and markers. *)
Record IndexDef := mkIndexDef {
  NAME : IndexId;
  SCOPE : InputScope;
  COMPOSITION : CompositionType;
  DEPENDENCIES : list IndexId;
  SOURCE_ACCESS : SourceAccess }.

(** [IndexDef::descriptor] *)
Definition index_descriptor (I : IndexDef) (key_order : Kv.KeyOrder) : Descriptor :=
  mkDescriptor (NAME I) (SCOPE I) (COMPOSITION I) (DEPENDENCIES I) (SOURCE_ACCESS I) key_order.

(** [Schema]: between a merge result and typed entries. *)
Record Schema (C : EntryCodec) (M : Type) := mkSchema {
  into_entries : M -> list (Key C * Value C);
  from_entries : list (Key C * Value C) -> M }.
Arguments into_entries {C M}.
Arguments from_entries {C M}.

(** [MergeMonoidal], [MergeFold] *)
Record MergeMonoidal (Delta : Type) := mkMonoidal {
  Accumulator : Type;
  mm_identity : Accumulator;
  mm_lift : Delta -> Accumulator;
  mm_combine : Accumulator -> Accumulator -> Accumulator }.
Record MergeFold (Delta : Type) := mkFold {
  FoldState : Type;
  fold_initial : FoldState;
  fold_step : FoldState -> Delta -> FoldState }.

(** [BridgeDispatch]: which bridge serves a scope and a composition. *)
Inductive BridgeKind :=
| ALocalBridge (strategy : CompositionType)
| ACumulativeBridge (strategy : CompositionType)
| ACumulativeAppendBridge (exec : CarryType)
| ACrossBridge.
Definition dispatch (scope : InputScope) (composition : CompositionType) : option BridgeKind :=
  match scope, composition with
  | BlockLocal, Append => Some (ALocalBridge Append)
  | BlockLocal, Monoidal => Some (ALocalBridge Monoidal)
  | BlockLocal, Fold => Some (ALocalBridge Fold)
  | SelfCumulative Sequential, Append => Some (ACumulativeAppendBridge Sequential)
  | SelfCumulative OrderedMonoid, Append => Some (ACumulativeAppendBridge OrderedMonoid)
  | SelfCumulative Sequential, Monoidal => Some (ACumulativeBridge Monoidal)
  | SelfCumulative Sequential, Fold => Some (ACumulativeBridge Fold)
  | CrossIndex, Append => Some ACrossBridge
  | _, _ => None
  end.

(** ** Merge strategies *)
Record MergeStrategy (Delta : Type) := mkStrategy {
  MergedState : Type;
  initial_state : MergedState;
  accumulate_one : MergedState -> Delta -> MergedState }.
Arguments MergedState {Delta}.
Arguments initial_state {Delta}.
Arguments accumulate_one {Delta}.

Definition merge_deltas {Delta} (S : MergeStrategy Delta) (deltas : list Delta) : MergedState S :=
  fold_left (accumulate_one S) deltas (initial_state S).

Definition AppendStrategy (Delta : Type) : MergeStrategy Delta :=
  mkStrategy Delta (list Delta) [] (fun state delta => state ++ [delta]).
Definition MonoidalStrategy {Delta} (I : MergeMonoidal Delta) : MergeStrategy Delta :=
  mkStrategy Delta (Accumulator _ I) (mm_identity _ I)
    (fun state delta => mm_combine _ I state (mm_lift _ I delta)).
Definition FoldStrategy {Delta} (I : MergeFold Delta) : MergeStrategy Delta :=
  mkStrategy Delta (FoldState _ I) (fold_initial _ I) (fold_step _ I).

(** ** Shared steps *)

(** [resume_readable] *)
Definition resume_readable (C : EntryCodec) (reader : BackendReader) (namespace : string)
    : result bool PipelineError :=
  let? fresh := map_err (fun _ => PipelineReadError) (freshness C reader namespace) in
  match fresh with
  | Stale =>
      let? first := map_err (fun _ => PipelineReadError) (r_first_key reader namespace) in
      match first with
      | Some _ => Err (IncompatibleFormat namespace)
      | None => Ok false
      end
  | Fresh => Ok true
  end.

(** [persist_merged]: the slot is taken; encoding may panic. *)
Definition persist_merged {C M} (namespace : string) (schema : Schema C M) (merged : option M)
    : option (result (list WriteOp * option M) PipelineError) :=
  match merged with
  | None => Some (Err (MissingMergedState namespace))
  | Some state =>
      let entries := into_entries schema state in
      if forallb (entry_fits C) entries
      then Some (Ok (version_stamp C namespace :: (put C namespace <$> entries), None))
      else None
  end.

(** [drain_reorder] *)
Definition offset_le {D} (a b : nat * D) : Prop := a.1 <= b.1.
Global Instance offset_le_dec {D} : RelDecision (@offset_le D).
Proof. intros a b. unfold offset_le. apply _. Defined.
Definition drain_reorder {D} (deltas : list (nat * D)) : list D := (merge_sort offset_le deltas).*2.

Section Bridges.
Context {Ctx BlockContext : Type}.
(** [ProvideContext::context] *)
Context (context : Ctx -> BlockContext).
Context (I : IndexDef) (C : EntryCodec) {Delta Error : Type}.

Definition erase {A} (r : result A Error) : result A PipelineError := map_err (fun _ => ExtractError) r.

(** The trait's defaults. *)
Definition default_extract_one_cross {St} (offset : nat) (ctx : Ctx) (deps : DepsReader) (st : St)
    : option (result St PipelineError) := Some (Err (ScopeRouting (NAME I))).
Definition default_load_state {St} (reader : BackendReader) (resume_from : option Z) (st : St)
    : option (result St PipelineError) := Some (Ok st).

(** ** [LocalBridge] *)
Section Local.
Context (extract : BlockContext -> result Delta Error).
Context (S : MergeStrategy Delta) (schema : Schema C (MergedState S)).

Record LocalBridge := mkLocal { l_deltas : list (nat * Delta); l_merged : option (MergedState S) }.
Definition local_new : LocalBridge := mkLocal [] None.

Definition local_extract_one (offset : nat) (ctx : Ctx) (b : LocalBridge)
    : option (result LocalBridge PipelineError) :=
  Some (let? delta := erase (extract (context ctx)) in
        Ok (mkLocal (l_deltas b ++ [(offset, delta)]) (l_merged b))).
Definition local_merge (b : LocalBridge) : option (result LocalBridge PipelineError) :=
  let deltas := drain_reorder (l_deltas b) in
  Some (Ok (mkLocal [] (Some (merge_deltas S deltas)))).
Definition local_persist (b : LocalBridge) : option (result (list WriteOp * LocalBridge) PipelineError) :=
  let! r := persist_merged (NAME I) schema (l_merged b) in
  Some (let? (ops, merged) := r in
        Ok (ops, mkLocal (l_deltas b) merged)).
Definition local_pipeline : @IndexPipeline Ctx LocalBridge :=
  mkPipeline (index_descriptor I (KEY_ORDER C)) local_extract_one default_extract_one_cross
    local_merge local_persist default_load_state.
End Local.

(** ** [CumulativeBridge] *)
Section Cumulative.
Context (S : MergeStrategy Delta) (schema : Schema C (MergedState S)).
Context (extract : BlockContext -> MergedState S -> result Delta Error).

Record CumulativeBridge := mkCumulative {
  running_state : MergedState S; c_merged : option (MergedState S) }.
Definition cumulative_new : CumulativeBridge := mkCumulative (initial_state S) None.

Definition cumulative_load_state (reader : BackendReader) (resume_from : option Z)
    (b : CumulativeBridge) : option (result CumulativeBridge PipelineError) :=
  Some (let? readable := resume_readable C reader (NAME I) in
        if negb readable then Ok b
        else
          let? entries := map_err PipelineLoad (load C reader (NAME I)) in
          match entries with
          | [] => Ok b
          | _ => Ok (mkCumulative (from_entries schema entries) (c_merged b))
          end).
Definition cumulative_extract_one (offset : nat) (ctx : Ctx) (b : CumulativeBridge)
    : option (result CumulativeBridge PipelineError) :=
  Some (let? delta := erase (extract (context ctx) (running_state b)) in
        Ok (mkCumulative (accumulate_one S (running_state b) delta) (c_merged b))).
Definition cumulative_merge (b : CumulativeBridge) : option (result CumulativeBridge PipelineError) :=
  Some (Ok (mkCumulative (running_state b) (Some (running_state b)))).
Definition cumulative_persist (b : CumulativeBridge)
    : option (result (list WriteOp * CumulativeBridge) PipelineError) :=
  let! r := persist_merged (NAME I) schema (c_merged b) in
  Some (let? (ops, merged) := r in
        Ok (ops, mkCumulative (running_state b) merged)).
Definition cumulative_pipeline : @IndexPipeline Ctx CumulativeBridge :=
  mkPipeline (index_descriptor I (KEY_ORDER C)) cumulative_extract_one default_extract_one_cross
    cumulative_merge cumulative_persist cumulative_load_state.
End Cumulative.

(** ** [CumulativeAppendBridge] *)

(** [CumulativeAppend]: [PriorState] is the codec's [Value]. *)
Record CumulativeAppend := mkCumulativeAppend {
  ca_extract : BlockContext -> Value C -> result Delta Error;
  initial_carry : Value C;
  carry : Delta -> Value C }.

(** [OrderedMonoidCarry]; [measure_add], [lift] and [project] may panic. *)
Record OrderedMonoidCarry := mkOrderedMonoid {
  Measure : Type;
  measure_of : BlockContext -> Measure;
  measure_add : Measure -> Measure -> option Measure;
  carry_measure : Value C -> Measure;
  Segment : Type;
  om_lift : BlockContext -> Measure -> option (result Segment Error);
  carry_segment : Value C -> Segment;
  om_identity : Segment;
  om_combine : Segment -> Segment -> Segment;
  project : Segment -> Measure -> option (Value C);
  key_of : BlockContext -> Key C }.

(** [CumulativeExec] *)
Record CumulativeExec := mkExec {
  Buffer : Type;
  new_buffer : Buffer;
  exec_extract : Buffer -> Value C -> nat -> BlockContext -> result (Buffer * Value C) PipelineError;
  exec_merge : Buffer -> Value C -> option (result (list Delta * Buffer * Value C) PipelineError) }.

Definition sequential_extract (A : CumulativeAppend) (buffer : list Delta) (prior : Value C)
    (offset : nat) (ctx : BlockContext) : result (list Delta * Value C) PipelineError :=
  let? delta := erase (ca_extract A ctx prior) in
  Ok (buffer ++ [delta], carry A delta).
Definition sequential_merge (buffer : list Delta) (prior : Value C)
    : option (result (list Delta * list Delta * Value C) PipelineError) :=
  Some (Ok (buffer, [], prior)).
Definition Sequential_exec (A : CumulativeAppend) : CumulativeExec :=
  mkExec (list Delta) [] (sequential_extract A) sequential_merge.

Section OrderedMonoid.
Context `{ParReduce} (O : OrderedMonoidCarry) (schema : Schema C (list Delta)).

Definition monoid_extract (buffer : list (nat * BlockContext)) (prior : Value C) (offset : nat)
    (ctx : BlockContext) : result (list (nat * BlockContext) * Value C) PipelineError :=
  Ok (buffer ++ [(offset, ctx)], prior).

(** The measure prefix sums: each block's start, and each block's end. *)
Fixpoint prefix_sums (running : Measure O) (ctxs : list BlockContext)
    : option (list (Measure O) * list (Measure O)) :=
  match ctxs with
  | [] => Some ([], [])
  | ctx :: ctxs =>
      let! next := measure_add O running (measure_of O ctx) in
      let! (starts, ends) := prefix_sums next ctxs in
      Some (running :: starts, next :: ends)
  end.

Fixpoint lift_all (blocks : list (BlockContext * Measure O))
    : option (result (list (Segment O)) Error) :=
  match blocks with
  | [] => Some (Ok [])
  | (ctx, start) :: blocks =>
      let! s := om_lift O ctx start in
      let! ss := lift_all blocks in
      Some (let? s := s in let? ss := ss in Ok (s :: ss))
  end.

Fixpoint project_all (full : Segment O) (blocks : list (BlockContext * Measure O))
    : option (list (Key C * Value C)) :=
  match blocks with
  | [] => Some []
  | (ctx, end_) :: blocks =>
      let! v := project O full end_ in
      let! es := project_all full blocks in
      Some ((key_of O ctx, v) :: es)
  end.

Definition monoid_merge (buffer : list (nat * BlockContext)) (prior : Value C)
    : option (result (list Delta * list (nat * BlockContext) * Value C) PipelineError) :=
  let blocks := drain_reorder buffer in
  match blocks with
  | [] => Some (Ok ([], [], prior))
  | _ =>
      let! (starts, ends) := prefix_sums (carry_measure O prior) blocks in
      let! lifted := lift_all (zip blocks starts) in
      match erase lifted with
      | Err x => Some (Err x)
      | Ok segments =>
          let batch := par_reduce (om_combine O) (om_identity O) segments in
          let full := om_combine O (carry_segment O prior) batch in
          let! entries := project_all full (zip blocks ends) in
          let! end_ := last ends in
          let! prior := project O full end_ in
          Some (Ok (from_entries schema entries, [], prior))
      end
  end.
Definition OrderedMonoid_exec : CumulativeExec :=
  mkExec (list (nat * BlockContext)) [] monoid_extract monoid_merge.
End OrderedMonoid.

Section CumulativeAppend.
Context (A : CumulativeAppend) (X : CumulativeExec) (schema : Schema C (list Delta)).
(** [EntryCodec<Key = BlockHeight>] *)
Context (height_key : Z -> Key C).

Record CumulativeAppendBridge := mkAppend {
  a_carry : Value C; a_buffer : Buffer X; a_merged : option (list Delta) }.
Definition append_new : CumulativeAppendBridge := mkAppend (initial_carry A) (new_buffer X) None.

Definition append_load_state (reader : BackendReader) (resume_from : option Z)
    (b : CumulativeAppendBridge) : option (result CumulativeAppendBridge PipelineError) :=
  Some (let? readable := resume_readable C reader (NAME I) in
        if negb readable then Ok b
        else
          match resume_from with
          | None => Ok b
          | Some height =>
              let? raw := map_err (fun _ => PipelineReadError)
                            (r_get reader (NAME I) (encode_key C (height_key height))) in
              match raw with
              | None => Ok b
              | Some bytes =>
                  let? value := map_err PipelineDecode (decode_value C bytes) in
                  Ok (mkAppend value (a_buffer b) (a_merged b))
              end
          end).
Definition append_extract_one (offset : nat) (ctx : Ctx) (b : CumulativeAppendBridge)
    : option (result CumulativeAppendBridge PipelineError) :=
  Some (let? (buffer, prior) := exec_extract X (a_buffer b) (a_carry b) offset (context ctx) in
        Ok (mkAppend prior buffer (a_merged b))).
Definition append_merge (b : CumulativeAppendBridge)
    : option (result CumulativeAppendBridge PipelineError) :=
  let! r := exec_merge X (a_buffer b) (a_carry b) in
  Some (let? (deltas, buffer, prior) := r in Ok (mkAppend prior buffer (Some deltas))).
Definition append_persist (b : CumulativeAppendBridge)
    : option (result (list WriteOp * CumulativeAppendBridge) PipelineError) :=
  let! r := persist_merged (NAME I) schema (a_merged b) in
  Some (let? (ops, merged) := r in
        Ok (ops, mkAppend (a_carry b) (a_buffer b) merged)).
Definition append_pipeline : @IndexPipeline Ctx CumulativeAppendBridge :=
  mkPipeline (index_descriptor I (KEY_ORDER C)) append_extract_one default_extract_one_cross
    append_merge append_persist append_load_state.
End CumulativeAppend.

(** ** [CrossBridge]; extraction may panic. *)
Section Cross.
Context (extract : BlockContext -> DepsReader -> option (result Delta Error)) (schema : Schema C (list Delta)).

Record CrossBridge := mkCross { x_deltas : list (nat * Delta); x_merged : option (list Delta) }.
Definition cross_new : CrossBridge := mkCross [] None.

Definition cross_extract_one (offset : nat) (ctx : Ctx) (b : CrossBridge)
    : option (result CrossBridge PipelineError) := Some (Err (ScopeRouting (NAME I))).
Definition cross_extract_one_cross (offset : nat) (ctx : Ctx) (deps : DepsReader) (b : CrossBridge)
    : option (result CrossBridge PipelineError) :=
  let! r := extract (context ctx) deps in
  Some (let? delta := erase r in
        Ok (mkCross (x_deltas b ++ [(offset, delta)]) (x_merged b))).
Definition cross_merge (b : CrossBridge) : option (result CrossBridge PipelineError) :=
  Some (Ok (mkCross [] (Some (drain_reorder (x_deltas b))))).
Definition cross_persist (b : CrossBridge) : option (result (list WriteOp * CrossBridge) PipelineError) :=
  let! r := persist_merged (NAME I) schema (x_merged b) in
  Some (let? (ops, merged) := r in
        Ok (ops, mkCross (x_deltas b) merged)).
Definition cross_pipeline : @IndexPipeline Ctx CrossBridge :=
  mkPipeline (index_descriptor I (KEY_ORDER C)) cross_extract_one cross_extract_one_cross
    cross_merge cross_persist default_load_state.
End Cross.
End Bridges.

(** ** [IndexPipeline::process_batch] *)
Section ProcessBatch.
Context {Ctx PSt : Type} (p : @IndexPipeline Ctx PSt).

Fixpoint extract_blocks (index : nat) (blocks : list Ctx) (st : PSt) : option (result PSt PipelineError) :=
  match blocks with
  | [] => Some (Ok st)
  | ctx :: blocks =>
      let! r := extract_one p index ctx st in
      match r with
      | Err x => Some (Err x)
      | Ok st => extract_blocks (S index) blocks st
      end
  end.
Definition process_batch (blocks : list Ctx) (st : PSt) : option (result (list WriteOp * PSt) PipelineError) :=
  let! r := extract_blocks 0 blocks st in
  match r with
  | Err x => Some (Err x)
  | Ok st => merge_persist p st
  end.
End ProcessBatch.
End Bridge.
