(* ===== verification/BridgeCorrect.v ===== *)
(** * What the bridges guarantee
    ([packages/zaino-sync/src/bridge.rs])

    A batch's result does not depend on the order its blocks were extracted in;
    the parallel ordered-monoid strategy computes what the sequential one does;
    a carry resumes from what was persisted; and the bridges keep the engine's
    promise, so that the engine's theorems hold of them. *)

From S2P Require Import Prelude Primitives Types Persistence Codec Seam Dag Scheduler Engine EngineCorrect.
From S2P Require Import Bridge.
From stdpp Require Import base gmap list strings sets relations sorting.
From Stdlib Require Import Lia.
Open Scope nat_scope.

Module BridgeCorrect.
Import Kv.
Import Codec.
Import Dag.
Import Engine.
Import EngineCorrect.
Import Bridge.

(** ** Chain order *)
Local Arguments drain_reorder : simpl never.
Local Arguments merge_deltas : simpl never.

(** The blocks of a run with their offsets. *)
Definition tagged {D} (n : nat) (ds : list D) : list (nat * D) := imap (fun i d => (n + i, d)) ds.

Lemma tagged_cons {D} n (d : D) ds : tagged n (d :: ds) = (n, d) :: tagged (S n) ds.
Proof.
  unfold tagged. cbn [imap]. f_equal; [by rewrite Nat.add_0_r|]. apply imap_ext. intros i x _. cbn. f_equal. lia.
Qed.
Lemma tagged_snd {D} n (ds : list D) : (tagged n ds).*2 = ds.
Proof. revert n. induction ds as [|d ds IH]; intros n; [done|]. rewrite tagged_cons. cbn. by rewrite IH. Qed.
Lemma tagged_fst {D} n (ds : list D) : (tagged n ds).*1 = seq n (length ds).
Proof. revert n. induction ds as [|d ds IH]; intros n; [done|]. rewrite tagged_cons. cbn. by rewrite IH. Qed.
Lemma tagged_fmap {D E} (f : D -> E) n (ds : list D) :
  (fun w => (w.1, f w.2)) <$> tagged n ds = tagged n (f <$> ds).
Proof. revert n. induction ds as [|d ds IH]; intros n; [done|]. rewrite fmap_cons, !tagged_cons. cbn. by rewrite <- IH. Qed.

Global Instance offset_le_total {D} : Total (@offset_le D).
Proof. intros a b. unfold offset_le. lia. Qed.
Global Instance offset_le_trans {D} : Transitive (@offset_le D).
Proof. intros a b c. unfold offset_le. lia. Qed.

Lemma tagged_sorted {D} n (ds : list D) : StronglySorted offset_le (tagged n ds).
Proof.
  revert n. induction ds as [|d ds IH]; intros n; [constructor|]. rewrite tagged_cons. constructor; [apply IH|].
  apply Forall_forall. intros [k x] Hx. apply (list_elem_of_fmap_2 fst) in Hx. rewrite tagged_fst in Hx.
  apply elem_of_seq in Hx. unfold offset_le. cbn in *. lia.
Qed.

(** Whatever order a run was buffered in, it drains in chain order. *)
Lemma drain_tagged {D} n (ds : list D) buffer : buffer ≡ₚ tagged n ds -> drain_reorder buffer = ds.
Proof.
  intros Hp. unfold drain_reorder. trans (tagged n ds).*2; [f_equal|apply tagged_snd].
  apply (StronglySorted_unique_strong offset_le).
  - intros [k1 d1] [k2 d2] H1 H2 Hle Hge. unfold offset_le in Hle, Hge. cbn in Hle, Hge.
    assert (k1 = k2) as -> by lia. rewrite merge_sort_Permutation, Hp in H1.
    apply list_elem_of_lookup in H1 as [i Hi], H2 as [j Hj].
    assert (i = j) as ->; [|congruence].
    eapply (NoDup_lookup (tagged n ds).*1); [rewrite tagged_fst; apply NoDup_seq| |];
      by rewrite list_lookup_fmap, ?Hi, ?Hj.
  - apply (StronglySorted_merge_sort offset_le _).
  - apply tagged_sorted.
  - by rewrite merge_sort_Permutation.
Qed.

(** Extraction of blocks in some order. *)
Section Extract.
Context {PSt W : Type} (step : nat -> W -> PSt -> option (result PSt PipelineError)).

Fixpoint extract_all (work : list (nat * W)) (st : PSt) : option (result PSt PipelineError) :=
  match work with
  | [] => Some (Ok st)
  | (offset, ctx) :: work =>
      let! r := step offset ctx st in
      match r with Err x => Some (Err x) | Ok st => extract_all work st end
  end.
End Extract.

(** Persisting the entries the writer can encode. *)
Lemma persist_merged_fits {C M} ns (schema : Schema C M) m :
  forallb (entry_fits C) (into_entries schema m) = true ->
  persist_merged ns schema (Some m) = Some (Ok (persisted C ns (into_entries schema m), None)).
Proof. intros Hf. unfold persist_merged. by rewrite Hf. Qed.
Lemma fits_all {C} (es : list (Key C * Value C)) :
  (forall e, entry_fits C e = true) -> forallb (entry_fits C) es = true.
Proof. intros Hf. apply forallb_forall. auto. Qed.

(** Blocks extracted in any order buffer their deltas in that order. *)
Lemma permuted_work {W D} (R : W -> D -> Prop) n blocks deltas work :
  work ≡ₚ tagged n blocks -> Forall2 R blocks deltas ->
  exists buffered, buffered ≡ₚ tagged n deltas /\ Forall2 (fun w e => R w.2 e.2 /\ e.1 = w.1) work buffered.
Proof.
  intros Hp Hf. assert (Forall2 (fun w e => R w.2 e.2 /\ e.1 = w.1) (tagged n blocks) (tagged n deltas)) as Ht.
  { clear Hp. revert n. induction Hf; intros n; rewrite ?tagged_cons; constructor; [done|]. apply IHHf. }
  symmetry in Hp. destruct (Permutation_Forall2 Hp Ht) as (buffered & Hb & Hf').
  exists buffered. split; [done|exact Hf'].
Qed.

Section Pipelines.
Context {Ctx BlockContext : Type} (context : Ctx -> BlockContext).
Context (I : IndexDef) (C : EntryCodec) {Delta Error : Type}.

(** ** Block-parallel bridges *)
Section Local.
Context (extract : BlockContext -> result Delta Error).
Context (S : MergeStrategy Delta) (schema : Schema C (MergedState S)).

Lemma local_extract_all work deltas b :
  Forall2 (fun w d => extract (context w.2) = Ok d.2 /\ d.1 = w.1) work deltas ->
  extract_all (local_extract_one context extract S) work b =
  Some (Ok (mkLocal S (l_deltas S b ++ deltas) (l_merged S b))).
Proof.
  intros Hf. revert b. induction Hf as [|[o c] [o' d] work deltas [Hd Ho] _ IH]; intros b.
  { cbn. rewrite app_nil_r. by destruct b. }
  cbn in Hd, Ho. subst o'. cbn. rewrite Hd. cbn. rewrite IH. cbn. by rewrite <- app_assoc.
Qed.

(** A block-local bridge is independent of the order its blocks were
    extracted in.  For a batch at consecutive offsets, extracted in any order,
    merging and persisting yields the format stamp and the entries of the
    deltas merged in chain order, wherever the writer can encode them, and
    leaves the bridge as it was built. *)
Theorem local_bridge_chain_order n blocks deltas work :
  work ≡ₚ tagged n blocks -> Forall2 (fun c d => extract (context c) = Ok d) blocks deltas ->
  forallb (entry_fits C) (into_entries schema (merge_deltas S deltas)) = true ->
  exists b, extract_all (extract_one (local_pipeline context I C extract S schema)) work (local_new S) =
      Some (Ok b) /\
    merge_persist (local_pipeline context I C extract S schema) b =
      Some (Ok (persisted C (NAME I) (into_entries schema (merge_deltas S deltas)), local_new S)).
Proof.
  intros Hp Hf Hfit. destruct (permuted_work _ n blocks deltas work Hp Hf) as (buffered & Hb & Hw).
  eexists. split; [by apply (local_extract_all work buffered)|].
  unfold merge_persist. cbn -[persist_merged]. unfold local_persist. cbn [l_merged l_deltas].
  by rewrite (drain_tagged n deltas buffered Hb), persist_merged_fits.
Qed.

(** The engine may drive it: only extraction fails. *)
Lemma local_pipe_inv (F : Prop) :
  SCOPE I = BlockLocal -> (forall e, entry_fits C e = true) -> (forall c x, extract c = Err x -> F) ->
  pipe_inv F (local_pipeline context I C extract S schema) (fun _ => True).
Proof.
  intros Hs Hfit Hx. split; try done.
  - intros o c st _ _. cbn. unfold local_extract_one. destruct (extract (context c)) eqn:He; [done|]. by eapply Hx.
  - intros o c d st. unfold cross. cbn. by rewrite Hs.
  - intros st _. unfold merge_persist, outcome. cbn. unfold local_persist. cbn. by rewrite fits_all.
Qed.
End Local.

Section Cross.
Context (extract : BlockContext -> DepsReader -> option (result Delta Error)) (schema : Schema C (list Delta)).

Lemma cross_pipe_inv (F : Prop) :
  SCOPE I = CrossIndex -> (forall e, entry_fits C e = true) -> (forall c d, is_Some (extract c d)) ->
  (forall c d x, extract c d = Some (Err x) -> F) ->
  pipe_inv F (cross_pipeline context I C extract schema) (fun _ => True).
Proof.
  intros Hs Hfit Hp Hx. split; try done.
  - intros o c st. unfold cross. cbn. by rewrite Hs.
  - intros o c d st _ _. cbn. unfold cross_extract_one_cross.
    destruct (Hp (context c) d) as [[r|x] He]; rewrite He; [done|]. by eapply Hx.
  - intros st _. unfold merge_persist, outcome. cbn. unfold cross_persist. cbn. by rewrite fits_all.
Qed.

Lemma cross_extract_all d work deltas b :
  Forall2 (fun w e => extract (context w.2) d = Some (Ok e.2) /\ e.1 = w.1) work deltas ->
  extract_all (fun o c => cross_extract_one_cross context extract o c d) work b =
  Some (Ok (mkCross (x_deltas b ++ deltas) (x_merged b))).
Proof.
  intros Hf. revert b. induction Hf as [|[o c] [o' e] work deltas [Hd Ho] _ IH]; intros b.
  { cbn. rewrite app_nil_r. by destruct b. }
  cbn in Hd, Ho. subst o'. cbn. unfold cross_extract_one_cross at 1. rewrite Hd. cbn. rewrite IH. cbn.
  by rewrite <- app_assoc.
Qed.

(** A batch extracted in any order, over what its dependencies hold, persists
    the deltas' entries in chain order. *)
Lemma cross_chain_order d n blocks deltas work :
  work ≡ₚ tagged n blocks -> Forall2 (fun c e => extract (context c) d = Some (Ok e)) blocks deltas ->
  forallb (entry_fits C) (into_entries schema deltas) = true ->
  let p := cross_pipeline context I C extract schema in
  exists b, extract_all (fun o c => extract_one_cross p o c d) work cross_new = Some (Ok b) /\
    merge_persist p b = Some (Ok (persisted C (NAME I) (into_entries schema deltas), cross_new)).
Proof.
  intros Hp Hf Hfit. cbn zeta.
  destruct (permuted_work _ n blocks deltas work Hp Hf) as (buffered & Hb & Hw).
  eexists. split; [by apply (cross_extract_all d work buffered)|].
  unfold merge_persist. cbn -[persist_merged]. unfold cross_persist. cbn [x_merged x_deltas cross_new app].
  by rewrite (drain_tagged n deltas buffered Hb), persist_merged_fits.
Qed.
End Cross.

(** ** Cumulative bridges *)
Section Cumulative.
Context (S : MergeStrategy Delta) (schema : Schema C (MergedState S)).
Context (extract : BlockContext -> MergedState S -> result Delta Error).

(** The chain-order fold. *)
Fixpoint cumulate (s : MergedState S) (blocks : list Ctx) : result (MergedState S) Error :=
  match blocks with
  | [] => Ok s
  | ctx :: blocks => let? d := extract (context ctx) s in cumulate (accumulate_one S s d) blocks
  end.

Lemma cumulative_extract_all n blocks b :
  extract_all (cumulative_extract_one context S extract) (tagged n blocks) b =
  match cumulate (running_state S b) blocks with
  | Ok s => Some (Ok (mkCumulative S s (c_merged S b)))
  | Err _ => Some (Err ExtractError)
  end.
Proof.
  revert n b. induction blocks as [|c blocks IH]; intros n b; [by destruct b|].
  rewrite tagged_cons. cbn. destruct (extract (context c) (running_state S b)); cbn; [|done]. by rewrite IH.
Qed.

(** Splitting a chain into batches does not change what it accumulates to. *)
Lemma cumulate_app s b1 b2 :
  cumulate s (b1 ++ b2) = let? s' := cumulate s b1 in cumulate s' b2.
Proof.
  revert s. induction b1 as [|c b1 IH]; intros s; [done|]. cbn.
  destruct (extract (context c) s); [apply IH|done].
Qed.

Lemma cumulative_pipe_inv (F : Prop) :
  SCOPE I <> CrossIndex -> (forall e, entry_fits C e = true) -> (forall c s x, extract c s = Err x -> F) ->
  pipe_inv F (cumulative_pipeline context I C S schema extract) (fun _ => True).
Proof.
  intros Hs Hfit Hx. split; try done.
  - intros r h st _. cbn. unfold cumulative_load_state.
    destruct (resume_readable C r (NAME I)) as [[]|]; [|done..]. cbn.
    destruct (load C r (NAME I)) as [[]|]; done.
  - intros o c st _ _. cbn. unfold cumulative_extract_one.
    destruct (extract (context c) (running_state S st)) eqn:He; [done|]. by eapply Hx.
  - intros o c d st. unfold cross. cbn. by destruct (SCOPE I).
  - intros st _. unfold merge_persist, outcome. cbn. unfold cumulative_persist. cbn. by rewrite fits_all.
Qed.
End Cumulative.

(** ** Append-cumulative bridges *)
Section CumulativeAppend.
Context (A : @CumulativeAppend BlockContext C Delta Error) (schema : Schema C (list Delta)).

(** The per-height series, one block after another. *)
Fixpoint series (v : Value C) (blocks : list BlockContext) : result (list Delta * Value C) Error :=
  match blocks with
  | [] => Ok ([], v)
  | ctx :: blocks =>
      let? d := ca_extract C A ctx v in
      let? (ds, v') := series (carry C A d) blocks in
      Ok (d :: ds, v')
  end.

Lemma series_app v b1 b2 :
  series v (b1 ++ b2) =
  let? (d1, v1) := series v b1 in
  let? (d2, v2) := series v1 b2 in
  Ok (d1 ++ d2, v2).
Proof.
  revert v. induction b1 as [|c b1 IH]; intros v; cbn; [by destruct (series v b2) as [[]|]|].
  destruct (ca_extract C A c v) as [d|]; [|done]. rewrite IH.
  destruct (series (carry C A d) b1) as [[d1 v1]|]; [|done]. by destruct (series v1 b2) as [[]|].
Qed.

Notation Seq := (Sequential_exec C A).
Notation sequential_pipeline := (append_pipeline context I C Seq schema).

Lemma sequential_extract_all n blocks (b : CumulativeAppendBridge C Seq) :
  extract_all (append_extract_one context C Seq) (tagged n blocks) b =
  match series (a_carry C Seq b) (context <$> blocks) with
  | Ok (ds, v) => Some (Ok (mkAppend C Seq v (a_buffer C Seq b ++ ds) (a_merged C Seq b)))
  | Err _ => Some (Err ExtractError)
  end.
Proof.
  revert n b. induction blocks as [|c blocks IH]; intros n b; [cbn; rewrite app_nil_r; by destruct b|].
  rewrite tagged_cons. cbn. unfold append_extract_one. cbn. unfold sequential_extract.
  destruct (ca_extract C A (context c) (a_carry C Seq b)) as [d|]; cbn; [|done].
  rewrite IH. cbn. destruct (series (carry C A d) (context <$> blocks)) as [[ds v]|]; [|done].
  by rewrite <- app_assoc.
Qed.

Lemma sequential_pipe_inv height_key (F : Prop) :
  SCOPE I <> CrossIndex -> (forall e, entry_fits C e = true) -> (forall c v x, ca_extract C A c v = Err x -> F) ->
  pipe_inv F (sequential_pipeline height_key) (fun _ => True).
Proof.
  intros Hs Hfit Hx. split.
  - intros r h st _. cbn. unfold append_load_state.
    destruct (resume_readable C r (NAME I)) as [[]|]; [|done..]. cbn. destruct h as [h|]; [|done].
    destruct (r_get r (NAME I) _) as [[bytes|]|]; [|done..]. cbn. by destruct (decode_value C bytes).
  - intros o c st _ _. cbn. unfold append_extract_one. cbn. unfold sequential_extract.
    destruct (ca_extract C A (context c) (a_carry C Seq st)) eqn:He; [done|]. by eapply Hx.
  - intros o c d st. unfold cross. cbn. by destruct (SCOPE I).
  - intros st _. unfold merge_persist, outcome. cbn. unfold append_persist. cbn. by rewrite fits_all.
Qed.
(** *** The ordered-monoid strategy computes the sequential series *)
Section OrderedMonoid.
Context (O : @OrderedMonoidCarry BlockContext C Error).

Fixpoint advance (m : Measure C O) (blocks : list BlockContext) : option (Measure C O) :=
  match blocks with
  | [] => Some m
  | ctx :: blocks => let! m := measure_add C O m (measure_of C O ctx) in advance m blocks
  end.

(** What an index's author promises: [summary m l s], the segment [s] summarises
    the blocks [l] that start at [m], is kept by [lift], [identity] and [combine];
    measures follow the sequential series; and a value read out of the carry
    combined with a summary is the sequential value there. *)
Class OrderedMonoidLaws (valid : Value C -> Prop)
    (summary : Measure C O -> list BlockContext -> Segment C O -> Prop) : Prop := {
  om_valid v ctx d : valid v -> ca_extract C A ctx v = Ok d -> valid (carry C A d);
  om_measure v ctx d : valid v -> ca_extract C A ctx v = Ok d ->
    measure_add C O (carry_measure C O v) (measure_of C O ctx) = Some (carry_measure C O (carry C A d));
  om_lifts v ctx d : valid v -> ca_extract C A ctx v = Ok d ->
    exists s, om_lift C O ctx (carry_measure C O v) = Some (Ok s) /\ summary (carry_measure C O v) [ctx] s;
  om_unit m : summary m [] (om_identity C O);
  om_joins m m' l1 l2 a b : advance m l1 = Some m' -> summary m l1 a -> summary m' l2 b ->
    summary m (l1 ++ l2) (om_combine C O a b);
  om_project v l1 l2 ds1 v1 r s : valid v -> series v l1 = Ok (ds1, v1) -> series v (l1 ++ l2) = Ok r ->
    summary (carry_measure C O v) (l1 ++ l2) s ->
    project C O (om_combine C O (carry_segment C O v) s) (carry_measure C O v1) = Some v1;
  om_entry v ctx d : ca_extract C A ctx v = Ok d ->
    from_entries schema [(key_of C O ctx, carry C A d)] = [d];
  om_entries_nil : from_entries schema [] = [];
  om_entries_cons e es : from_entries schema (e :: es) = from_entries schema [e] ++ from_entries schema es }.

Context `{ParReduce} valid summary `{!OrderedMonoidLaws valid summary}.
Notation measure v := (carry_measure C O v).
Notation ends ds := ((fun d => measure (carry C A d)) <$> ds).

Inductive lifted : Measure C O -> list BlockContext -> list (Segment C O) -> Prop :=
| lifted_nil m : lifted m [] []
| lifted_cons m m' ctx l s ss :
    measure_add C O m (measure_of C O ctx) = Some m' -> summary m [ctx] s -> lifted m' l ss ->
    lifted m (ctx :: l) (s :: ss).

Lemma lifted_app m l ss1 ss2 :
  lifted m l (ss1 ++ ss2) ->
  exists l1 l2 m', l = l1 ++ l2 /\ advance m l1 = Some m' /\ lifted m l1 ss1 /\ lifted m' l2 ss2.
Proof.
  revert m l. induction ss1 as [|s ss1 IH]; intros m l Hl.
  { exists [], l, m. split_and!; [done|done|constructor|done]. }
  inversion Hl as [|? m1 ctx l' ? ? Hm Hs Hl']; subst.
  destruct (IH _ _ Hl') as (l1 & l2 & m' & -> & Ha & H1 & H2).
  exists (ctx :: l1), l2, m'. split_and!; [done|cbn; by rewrite Hm|by econstructor|done].
Qed.

(** Any order-preserving reduction summarises the run. *)
Lemma reduces_summary ss s :
  reduces (om_combine C O) (om_identity C O) ss s -> forall m l, lifted m l ss -> summary m l s.
Proof.
  induction 1 as [|s|ss1 ss2 a b _ IH1 _ IH2]; intros m l Hl.
  - inversion Hl; subst. apply om_unit.
  - inversion Hl as [|? m' ctx l' ? ? Hm Hs Hl']; subst. by inversion Hl'; subst.
  - apply lifted_app in Hl as (l1 & l2 & m' & -> & Ha & H1 & H2). eapply om_joins; eauto.
Qed.

Lemma series_lifted v blocks ds v' :
  valid v -> series v blocks = Ok (ds, v') ->
  exists starts ss, prefix_sums C O (measure v) blocks = Some (starts, ends ds) /\
    lift_all C O (zip blocks starts) = Some (Ok ss) /\ lifted (measure v) blocks ss.
Proof.
  revert v ds. induction blocks as [|ctx blocks IH]; intros v ds Hv; cbn.
  { intros [= <- <-]. exists [], []. split_and!; [done|done|constructor]. }
  destruct (ca_extract C A ctx v) as [d|] eqn:Hd; [|done].
  destruct (series (carry C A d) blocks) as [[ds' v1]|] eqn:Hs; [|done]. intros [= <- <-].
  destruct (IH _ _ (om_valid _ _ _ Hv Hd) Hs) as (starts & ss & Hp & Hl & Hlift).
  destruct (om_lifts _ _ _ Hv Hd) as (s & Hs1 & Hsum).
  exists (measure v :: starts), (s :: ss). rewrite (om_measure _ _ _ Hv Hd), Hp. cbn. rewrite Hs1, Hl.
  split_and!; [done|done|]. econstructor; [by apply om_measure|done|done].
Qed.

Lemma series_last v blocks ds v' :
  series v blocks = Ok (ds, v') -> length ds = length blocks /\ v' = default v (last (carry C A <$> ds)).
Proof.
  revert v ds. induction blocks as [|ctx blocks IH]; intros v ds; cbn; [by intros [= <- <-]|].
  destruct (ca_extract C A ctx v) as [d|]; [|done].
  destruct (series (carry C A d) blocks) as [[ds' v1]|] eqn:Hs; [|done]. intros [= <- <-].
  destruct (IH _ _ Hs) as [Hlen ->]. split; [cbn; lia|]. cbn. rewrite last_cons.
  by destruct (last (carry C A <$> ds')).
Qed.

(** Every height's value, and the entries' deltas. *)
Lemma project_series v done_ blocks s ds0 v0 ds v' :
  valid v -> series v done_ = Ok (ds0, v0) -> series v0 blocks = Ok (ds, v') ->
  summary (measure v) (done_ ++ blocks) s ->
  exists es, project_all C O (om_combine C O (carry_segment C O v) s) (zip blocks (ends ds)) = Some es /\
    from_entries schema es = ds.
Proof.
  intros Hv. revert done_ ds0 v0 ds. induction blocks as [|ctx blocks IH]; intros done_ ds0 v0 ds Hd Hs Hsum.
  { injection Hs as <- <-. exists []. split; [done|apply om_entries_nil]. }
  pose proof Hs as Hs'. cbn in Hs'. destruct (ca_extract C A ctx v0) as [d|] eqn:Hx; [|done].
  destruct (series (carry C A d) blocks) as [[ds' v1]|] eqn:Hr; [|done]. injection Hs' as <- <-.
  assert (Hd' : series v (done_ ++ [ctx]) = Ok (ds0 ++ [d], carry C A d)).
  { rewrite series_app, Hd. cbn. by rewrite Hx. }
  assert (Hall : series v ((done_ ++ [ctx]) ++ blocks) = Ok (ds0 ++ [d] ++ ds', v1)).
  { rewrite series_app, Hd'. cbn. rewrite Hr. by rewrite <- app_assoc. }
  rewrite cons_middle, app_assoc in Hsum.
  destruct (IH _ _ _ _ Hd' Hr Hsum) as (es & Hes & Hfrom).
  cbn. rewrite (om_project v (done_ ++ [ctx]) blocks _ _ _ s Hv Hd' Hall Hsum), Hes.
  eexists. split; [done|]. rewrite om_entries_cons, (om_entry _ _ _ Hx). by rewrite Hfrom.
Qed.

Lemma monoid_merge_series n blocks buffer v ds v' :
  valid v -> series v blocks = Ok (ds, v') -> buffer ≡ₚ tagged n blocks ->
  monoid_merge C O schema buffer v = Some (Ok (ds, [], v')).
Proof.
  intros Hv Hs Hp. unfold monoid_merge. rewrite (drain_tagged n blocks buffer Hp).
  destruct blocks as [|ctx blocks0] eqn:Hb; [by injection Hs as <- <-|]. rewrite <- Hb in *.
  destruct (series_lifted v blocks ds v' Hv Hs) as (starts & ss & -> & Hl & Hlift). cbn beta iota zeta.
  rewrite Hl. cbn beta iota zeta. cbn [erase map_err]. set (full := om_combine C O _ _).
  pose proof (reduces_summary _ _ (par_reduce_tree (om_combine C O) (om_identity C O) ss) _ _ Hlift) as Hsum.
  destruct (project_series v [] blocks _ [] v ds v' Hv eq_refl Hs Hsum) as (es & Hes & Hfrom).
  fold full in Hes. rewrite Hes. cbn beta iota zeta.
  destruct (series_last _ _ _ _ Hs) as [Hlen Hv']. destruct (last (carry C A <$> ds)) as [vl|] eqn:Hlast.
  2: { apply last_None in Hlast. apply fmap_nil_inv in Hlast. rewrite Hlast, Hb in Hlen. done. }
  cbn in Hv'. subst vl.
  assert (Hends : last (ends ds) = Some (measure v')).
  { rewrite (list_fmap_compose (carry C A) (carry_measure C O)), fmap_last, Hlast. done. }
  rewrite Hends. cbn beta iota zeta.
  assert (Hproj : project C O full (measure v') = Some v').
  { eapply (om_project v blocks [] ds v' _ _ Hv Hs); [by rewrite app_nil_r|by rewrite app_nil_r]. }
  rewrite Hproj. cbn. by rewrite Hfrom.
Qed.

Lemma monoid_extract_all (work : list (nat * Ctx)) (b : CumulativeAppendBridge C (OrderedMonoid_exec C O schema)) :
  extract_all (append_extract_one context C (OrderedMonoid_exec C O schema)) work b =
  Some (Ok (mkAppend C (OrderedMonoid_exec C O schema) (a_carry C _ b)
    (a_buffer C (OrderedMonoid_exec C O schema) b ++ ((fun w => (w.1, context w.2)) <$> work)) (a_merged C _ b))).
Proof.
  revert b. induction work as [|[o c] work IH]; intros b; [cbn; rewrite app_nil_r; by destruct b|].
  cbn. rewrite IH. cbn. by rewrite <- app_assoc.
Qed.
Lemma ordered_monoid_bridge height_key n blocks work v ds v' :
  valid v -> series v (context <$> blocks) = Ok (ds, v') -> work ≡ₚ tagged n blocks ->
  forallb (entry_fits C) (into_entries schema ds) = true ->
  let ops := persisted C (NAME I) (into_entries schema ds) in
  let par := append_pipeline context I C (OrderedMonoid_exec C O schema) schema height_key in
  (exists b, extract_all (extract_one (sequential_pipeline height_key)) (tagged n blocks)
      (mkAppend C Seq v [] None) = Some (Ok b) /\
    merge_persist (sequential_pipeline height_key) b = Some (Ok (ops, mkAppend C Seq v' [] None))) /\
  (exists b, extract_all (extract_one par) work (mkAppend C (OrderedMonoid_exec C O schema) v [] None) =
      Some (Ok b) /\
    merge_persist par b = Some (Ok (ops, mkAppend C (OrderedMonoid_exec C O schema) v' [] None))).
Proof.
  intros Hv Hs Hp Hfit. cbn zeta. split; eexists; (split; [|unfold merge_persist]).

  - cbn [extract_one append_pipeline]. rewrite sequential_extract_all. cbn. by rewrite Hs.
  - cbn -[persist_merged]. unfold append_persist. cbn [a_merged]. by rewrite persist_merged_fits.
  - cbn [extract_one append_pipeline]. by rewrite monoid_extract_all.
  - cbn -[persist_merged]. unfold append_merge. cbn -[persist_merged].
    rewrite (monoid_merge_series n (context <$> blocks) _ v ds v' Hv Hs);
      [cbn -[persist_merged]; unfold append_persist; cbn [a_merged]; by rewrite persist_merged_fits|].
    rewrite Hp. by rewrite tagged_fmap.
Qed.

(** C14: the parallel ordered-monoid strategy of an append-cumulative index
    persists exactly what the sequential one does.  From one carry, let the
    sequential bridge extract a batch in chain order and the ordered-monoid
    bridge extract it in any order, reducing with any order-preserving tree: both
    persist the same operations, namely those of the sequential series, and
    carry the same value into the next batch. *)
Theorem ordered_monoid_bridge_sequential height_key n blocks work v ds v' :
  valid v -> series v (context <$> blocks) = Ok (ds, v') -> work ≡ₚ tagged n blocks ->
  forallb (entry_fits C) (into_entries schema ds) = true ->
  let ops := persisted C (NAME I) (into_entries schema ds) in
  let par := append_pipeline context I C (OrderedMonoid_exec C O schema) schema height_key in
  (exists b, extract_all (extract_one (sequential_pipeline height_key)) (tagged n blocks)
      (mkAppend C Seq v [] None) = Some (Ok b) /\
    merge_persist (sequential_pipeline height_key) b = Some (Ok (ops, mkAppend C Seq v' [] None))) /\
  (exists b, extract_all (extract_one par) work (mkAppend C (OrderedMonoid_exec C O schema) v [] None) =
      Some (Ok b) /\
    merge_persist par b = Some (Ok (ops, mkAppend C (OrderedMonoid_exec C O schema) v' [] None))).
Proof. apply ordered_monoid_bridge. Qed.
End OrderedMonoid.

(** *** Resuming *)
Section Resume.
Context (X : @CumulativeExec BlockContext C Delta) (height_key : Z -> Key C).
Context (wf : Key C -> Value C -> Prop) `{!CodecLaws C wf}.

Lemma append_load_table r st es h v (b : CumulativeAppendBridge C X) :
  reader_ok r st -> table C wf (NAME I) st es -> versioned C (NAME I) st -> (height_key h, v) ∈ es ->
  append_load_state I C X height_key r (Some h) b = Some (Ok (mkAppend C X v (a_buffer C X b) (a_merged C X b))).
Proof.
  intros Hr Ht Hv Hin. unfold append_load_state, resume_readable.
  rewrite (freshness_versioned C (NAME I) r st Hr Hv). cbn.
  rewrite (get_table C wf (NAME I) r st Hr es _ v Ht Hin). cbn. destruct Ht as (Hwf & _).
  unfold all_wf in Hwf. rewrite Forall_forall in Hwf. specialize (Hwf _ Hin). cbn in Hwf.
  by rewrite (codec_value _ _ Hwf).
Qed.

(** Restarting an append-cumulative index loses nothing.  Over any
    backend that keeps its promise, once a batch's operations are committed among
    other indexes' writes, a bridge built anew and loaded at the height of the
    batch's last entry carries exactly the value the running bridge carries, so
    the next batch comes out the same. *)
Theorem append_restart_resumes {BSt} (B : Backend BSt) abs `{!BackendSpec B abs} b b' r ops es ds h v :
  NAME I <> VERSION_META -> table C wf (NAME I) (abs b) es ->
  batch_of C (NAME I) ops (into_entries schema ds) -> all_wf C wf (into_entries schema ds) ->
  NoDup (es ++ into_entries schema ds).*1 -> last (into_entries schema ds) = Some (height_key h, v) ->
  b_commit B b ops = Ok b' -> b_reader B b' = Ok r ->
  append_load_state I C X height_key r (Some h) (append_new C A X) =
    Some (Ok (mkAppend C X v (new_buffer C X) None)).
Proof.
  intros Hns Ht Hb Hwf Hnd Hl Hc%spec_commit Hr%spec_reader. rewrite Hc in Hr.
  destruct (table_batch C wf (NAME I) Hns (abs b) es ops _ Ht Hb Hwf Hnd) as [Ht' Hv'].
  apply (append_load_table _ _ _ h v (append_new C A X) Hr Ht' Hv'). apply elem_of_app. right.
  apply last_Some in Hl as [l ->]. apply elem_of_app. right. by apply list_elem_of_singleton.
Qed.
End Resume.
End CumulativeAppend.

(** A cumulative index never reads bytes of another format.  Resuming
    asks the version first: a namespace stamped by this build is read, one that
    is empty starts afresh, and one that holds any entry without this build's
    stamp is refused, both cumulative bridges failing with it before any byte
    is decoded. *)
Theorem resume_readable_guards r st :
  reader_ok r st ->
  resume_readable C r (NAME I) =
    (let stamped := match st !! (VERSION_META, string_bytes (NAME I)) with
                    | Some bytes => (length bytes =? 8) && (from_le_bytes bytes =? format_version C)%Z
                    | None => false
                    end in
     if stamped then Ok true
     else if bool_decide (map_Forall (fun k _ => k.1 <> NAME I) st) then Ok false
     else Err (IncompatibleFormat (NAME I))).
Proof.
  intros Hr. unfold resume_readable, freshness, recorded_version. rewrite (ro_get _ _ Hr).
  destruct (ro_first _ _ Hr (NAME I)) as (l & [_ Hin] & Hf). rewrite Hf. cbn zeta.
  assert (Hempty : match head l.*1 with Some _ => Err (IncompatibleFormat (NAME I)) | None => Ok false end =
    (if bool_decide (map_Forall (fun k _ => k.1 <> NAME I) st) then Ok false
     else Err (IncompatibleFormat (NAME I)))).
  { destruct l as [|[k v] l]; cbn.
    - rewrite bool_decide_true; [done|]. intros [n k] v Hk Heq. cbn in Heq. subst n.
      apply Hin in Hk. by apply elem_of_nil in Hk.
    - rewrite bool_decide_false; [done|]. intros Hall. assert (Hk : st !! (NAME I, k) = Some v) by (apply Hin; left).
      by apply (Hall _ _ Hk). }
  destruct (st !! (VERSION_META, string_bytes (NAME I))) as [bytes|]; [|exact Hempty]. cbn -[from_le_bytes].
  assert (Hlen : (Layout.blen bytes =? 8)%Z = (length bytes =? 8)).
  { unfold Layout.blen. destruct (Z.eqb_spec (Z.of_nat (length bytes)) 8), (Nat.eqb_spec (length bytes) 8); lia || done. }
  rewrite Hlen. destruct (length bytes =? 8); [|exact Hempty]. cbn -[from_le_bytes].
  destruct (from_le_bytes bytes =? format_version C)%Z; [done|exact Hempty].
Qed.
End Pipelines.


(** ** Indexes over heights *)
Module Example.
Import Codec.Example.
Local Existing Instance canonical_iter.

Definition value_def : IndexDef := mkIndexDef "value" BlockLocal Append [] NoAccess.
Definition entries : Schema heights (list (Z * Z)) := mkSchema heights (list (Z * Z)) (fun l => l) (fun l => l).

(** The block's height and value; a negative value is refused. *)
Definition value_of (c : Z * Z) : result (Z * Z) unit := if (c.2 <? 0)%Z then Err tt else Ok c.
Definition blocks : list (Z * Z) := [(7, 70); (8, 80); (9, 90)]%Z.

Lemma local_bridge_chain_order_witness :
  exists b, extract_all (extract_one (local_pipeline (fun c => c) value_def heights value_of
      (AppendStrategy _) entries)) [(5, (8, 80)%Z); (6, (9, 90)%Z); (4, (7, 70)%Z)] (local_new _) = Some (Ok b) /\
    merge_persist (local_pipeline (fun c => c) value_def heights value_of (AppendStrategy _) entries) b =
      Some (Ok (persisted heights "value" blocks, local_new _)).
Proof.
  apply (local_bridge_chain_order (fun c => c) value_def heights value_of (AppendStrategy _) entries 4 blocks blocks).
  - exact (Permutation_sym (Permutation_cons_append [(5, (8, 80)%Z); (6, (9, 90)%Z)] (4, (7, 70)%Z))).
  - repeat constructor.
  - reflexivity.
Defined.


(** A running total per height. *)
Definition total_def : IndexDef := mkIndexDef "total" (SelfCumulative Dag.Sequential) Append [] NoAccess.
Definition totals : @Bridge.CumulativeAppend (Z * Z) heights (Z * Z) unit :=
  @mkCumulativeAppend (Z * Z) heights (Z * Z) unit (fun c v => Ok (c.1, v + c.2)%Z) 0%Z snd.
Definition batch : list (Z * Z) := [(7, 70); (8, 150)]%Z.
Definition committed : Data := fold_left mem_op (persisted heights "total" batch) Kv.new.

Lemma append_restart_resumes_witness :
  append_load_state total_def heights (Sequential_exec heights totals) (fun h => h) (mem_reader committed) (Some 8%Z)
    (append_new heights totals (Sequential_exec heights totals)) =
  Some (Ok (mkAppend heights (Sequential_exec heights totals) 150%Z [] None)).
Proof.
  apply (append_restart_resumes total_def heights totals entries (Sequential_exec heights totals) (fun h => h)
    (fun k v => uint 64 k /\ uint 64 v) in_memory data_abs Kv.new committed (mem_reader committed)
    (persisted heights "total" batch) [] batch).
  - discriminate.
  - apply table_empty. intros kb. reflexivity.
  - exists [], []. split; [reflexivity|]. split; constructor.
  - repeat constructor; discriminate.
  - apply (bool_decide_unpack _). vm_compute. exact I.
  - reflexivity.
  - reflexivity.
  - reflexivity.
Defined.

(** The same bytes under another codec: refused. *)
Definition doubled : EntryCodec := mkCodec Z Z HeightKey HeightKey WalkOrdered [(1, 2); (3, 4)]%Z.
Lemma resume_readable_guards_witness :
  resume_readable doubled (mem_reader committed) "total" = Err (IncompatibleFormat "total").
Proof.
  transitivity (if bool_decide (map_Forall (fun k _ => k.1 <> "total"%string) (data_abs committed)) then Ok false
    else Err (IncompatibleFormat "total")).
  - exact (resume_readable_guards total_def doubled (mem_reader committed) (data_abs committed) (mem_reader_ok committed)).
  - vm_compute. reflexivity.
Defined.
End Example.
End BridgeCorrect.
