(* ===== verification/TreeSegment.v ===== *)
(** * The commitment-tree segment algebra
    ([packages/zaino-indexes/src/indexes/tree_state/segment.rs])

    A segment summarises a run of leaves of an append-only Merkle tree by every
    complete node in its range; segments combine along their seam, and a height's
    frontier is looked up in the combination.  The Merkle hash is a parameter,
    and so is the [incrementalmerkletree] crate, whose documented behaviour is the
    class [ImtLaws].  Positions and sizes are [u64]s: a tree holds at most 2^32
    leaves, so no sum or shift below leaves 64 bits. *)

From S2P Require Import Prelude Types.
From stdpp Require Import base gmap list sets relations sorting.
From Stdlib Require Import ZArith Lia.
Open Scope Z_scope.

Definition DEPTH : nat := 32.

(** The set bits of a position, ascending. *)
Definition set_bits (p : Z) : list nat :=
  filter (fun l => Z.testbit p (Z.of_nat l) = true) (seq 0 64).

(** ** The [incrementalmerkletree] crate *)
Class Imt (H : Type) := {
  NonEmptyFrontier : Type;
  position : NonEmptyFrontier -> Z;
  leaf : NonEmptyFrontier -> H;
  ommers : NonEmptyFrontier -> list H;
  from_parts : Z -> H -> list H -> option NonEmptyFrontier;
  (** the [Source::Past] addresses of [position.witness_addrs(position.root_level())] *)
  past_addrs : Z -> list (nat * Z);
  Frontier : Type;
  frontier_empty : Frontier;
  frontier_value : Frontier -> option NonEmptyFrontier;
  frontier_append : Frontier -> H -> option Frontier;
  tree_size : Frontier -> Z;
  frontier_try_from : NonEmptyFrontier -> option Frontier }.

Module TreeSegment.
Section TreeSegment.
Context {H : Type} (hash : nat -> H -> H -> H).

(** ** [TreeSegment] *)
Record TreeSegment := mkSegment { start : Z; len : Z; nodes : gmap (nat * Z) H }.

Definition empty : TreeSegment := mkSegment 0 0 ∅.
Definition is_empty (s : TreeSegment) : bool := len s =? 0.
Definition end_ (s : TreeSegment) : Z := start s + len s.
Definition node_count (s : TreeSegment) : nat := size (nodes s).
Definition node_at (s : TreeSegment) (level : nat) (index : Z) : option H := nodes s !! (level, index).

(** [1u64 << level], [u64::div_ceil] *)
Definition span (level : nat) : Z := 2 ^ Z.of_nat level.
Definition div_ceil (a b : Z) : Z := (a + b - 1) / b.

(** [TreeSegment::lift]; [None] is an [expect] on a missing child. *)
Fixpoint insert_leaves (index : Z) (leaves : list H) (m : gmap (nat * Z) H) : gmap (nat * Z) H :=
  match leaves with
  | [] => m
  | leaf :: leaves => insert_leaves (index + 1) leaves (<[(0%nat, index) := leaf]> m)
  end.
Fixpoint build_level (level : nat) (m : gmap (nat * Z) H) (j : Z) (count : nat)
    : option (list (nat * Z * H)) :=
  match count with
  | O => Some []
  | S count =>
      let! lchild := m !! (level, 2 * j) in
      let! rchild := m !! (level, 2 * j + 1) in
      let! rest := build_level level m (j + 1) count in
      Some ((S level, j, hash level lchild rchild) :: rest)
  end.
Fixpoint insert_built (built : list (nat * Z * H)) (m : gmap (nat * Z) H) : gmap (nat * Z) H :=
  match built with
  | [] => m
  | (key, node) :: built => insert_built built (<[key := node]> m)
  end.
(** [while level < DEPTH]; [fuel] is what is left of [DEPTH]. *)
Fixpoint lift_levels (fuel level : nat) (start end_ : Z) (m : gmap (nat * Z) H)
    : option (gmap (nat * Z) H) :=
  match fuel with
  | O => Some m
  | S fuel =>
      let parent_level := S level in
      let first := div_ceil start (span parent_level) in
      let last := end_ / span parent_level in
      if last <=? first then Some m
      else
        let! built := build_level level m first (Z.to_nat (last - first)) in
        lift_levels fuel parent_level start end_ (insert_built built m)
  end.
Definition lift (leaves : list H) (start : Z) : option TreeSegment :=
  let n := Z.of_nat (length leaves) in
  if n =? 0 then Some (mkSegment start 0 ∅)
  else
    let! m := lift_levels DEPTH 0 start (start + n) (insert_leaves start leaves ∅) in
    Some (mkSegment start n m).

(** [TreeSegment::combine]: the straddling nodes, by ascending level. *)
Fixpoint seam_loop (levels : list nat) (start seam end_ : Z) (m : gmap (nat * Z) H)
    : gmap (nat * Z) H :=
  match levels with
  | [] => m
  | child_level :: levels =>
      let parent_level := S child_level in
      let sp := span parent_level in
      if seam mod sp =? 0 then seam_loop levels start seam end_ m
      else
        let index := seam / sp in
        if end_ <? (index + 1) * sp then m
        else if index * sp <? start then seam_loop levels start seam end_ m
        else
          match m !! (parent_level, index) with
          | Some _ => seam_loop levels start seam end_ m
          | None =>
              match m !! (child_level, 2 * index), m !! (child_level, 2 * index + 1) with
              | Some lchild, Some rchild =>
                  seam_loop levels start seam end_
                    (<[(parent_level, index) := hash child_level lchild rchild]> m)
              | _, _ => seam_loop levels start seam end_ m
              end
          end
  end.
Definition combine (a b : TreeSegment) : TreeSegment :=
  if is_empty a then b
  else if is_empty b then a
  else
    let n := len a + len b in
    let joined :=
      if (node_count b <=? node_count a)%nat then nodes b ∪ nodes a else nodes a ∪ nodes b in
    mkSegment (start a) n (seam_loop (seq 0 DEPTH) (start a) (end_ a) (start a + n) joined).

Section Frontiers.
Context `{!Imt H}.

(** [frontier_to_peaks] *)
Fixpoint peaks_loop (zipped : list (nat * H)) (acc : nat * H) : list (nat * H) :=
  match zipped with
  | [] => [acc]
  | (ommer_level, ommer) :: zipped =>
      if (ommer_level =? acc.1)%nat then peaks_loop zipped (S acc.1, hash acc.1 ommer acc.2)
      else acc :: peaks_loop zipped (ommer_level, ommer)
  end.
Definition frontier_to_peaks (f : NonEmptyFrontier) : list (nat * H) :=
  peaks_loop (zip (set_bits (position f)) (ommers f)) (0%nat, leaf f).

(** [TreeSegment::carry_segment] *)
Definition level_ge (a b : nat * H) : Prop := (b.1 <= a.1)%nat.
Global Instance level_ge_dec : RelDecision level_ge.
Proof. intros a b. unfold level_ge. apply _. Defined.

Fixpoint place_peaks (peaks : list (nat * H)) (tiled : Z) (m : gmap (nat * Z) H) : gmap (nat * Z) H :=
  match peaks with
  | [] => m
  | (level, node) :: peaks =>
      place_peaks peaks (tiled + span level) (<[(level, Z.shiftr tiled (Z.of_nat level)) := node]> m)
  end.
Fixpoint place_ommers (addrs : list (nat * Z)) (ommers : list H) (m : gmap (nat * Z) H) : gmap (nat * Z) H :=
  match addrs, ommers with
  | address :: addrs, ommer :: ommers => place_ommers addrs ommers (<[address := ommer]> m)
  | _, _ => m
  end.
Definition carry_segment (f : Frontier) : TreeSegment :=
  match frontier_value f with
  | None => empty
  | Some nonempty =>
      let size := position nonempty + 1 in
      let m := place_peaks (merge_sort level_ge (frontier_to_peaks nonempty)) 0 ∅ in
      let m := <[(0%nat, position nonempty) := leaf nonempty]> m in
      mkSegment 0 size (place_ommers (past_addrs (position nonempty)) (ommers nonempty) m)
  end.

(** [TreeSegment::frontier_at] *)
Fixpoint collect_ommers (s : TreeSegment) (addrs : list (nat * Z)) : option (list H) :=
  match addrs with
  | [] => Some []
  | (level, index) :: addrs =>
      let! node := node_at s level index in
      let! rest := collect_ommers s addrs in
      Some (node :: rest)
  end.
Definition frontier_at (s : TreeSegment) (size : Z) : option NonEmptyFrontier :=
  if size =? 0 then None
  else
    let position := size - 1 in
    let! leaf := node_at s 0 position in
    let! ommers := collect_ommers s (past_addrs position) in
    from_parts position leaf ommers.

(** [sync.rs]: [pool_frontier]; [None] is its [expect]s. *)
Definition pool_frontier (s : TreeSegment) (size : Z) : option Frontier :=
  if size =? 0 then Some frontier_empty
  else
    let! nonempty := frontier_at s size in
    frontier_try_from nonempty.
End Frontiers.

(** ** Complete nodes *)

(** The leaves of a run, by position. *)
Definition leaf_at (leaves : list H) (start i : Z) : option H :=
  if start <=? i then leaves !! Z.to_nat (i - start) else None.

(** The root of the perfect subtree at [(l, i)], where all its leaves exist. *)
Fixpoint tnode (f : Z -> option H) (l : nat) (i : Z) : option H :=
  match l with
  | O => f i
  | S l =>
      let! a := tnode f l (2 * i) in
      let! b := tnode f l (2 * i + 1) in
      Some (hash l a b)
  end.

Lemma span_pos l : 0 < span l.
Proof. unfold span. lia. Qed.
Lemma span_S l : span (S l) = 2 * span l.
Proof. unfold span. rewrite Nat2Z.inj_succ, Z.pow_succ_r by lia. done. Qed.
Lemma span_0 : span 0 = 1.
Proof. done. Qed.
Lemma span_add a b : span (a + b) = span a * span b.
Proof. unfold span. rewrite Nat2Z.inj_add, Z.pow_add_r by lia. done. Qed.
Lemma testbit_span p l : Z.testbit p (Z.of_nat l) = Z.odd (p / span l).
Proof. unfold span. by rewrite Z.testbit_odd, Z.shiftr_div_pow2 by lia. Qed.
Lemma shiftr_span t l : Z.shiftr t (Z.of_nat l) = t / span l.
Proof. unfold span. apply Z.shiftr_div_pow2. lia. Qed.
Local Opaque span.

Lemma tnode_S f l i x :
  tnode f (S l) i = Some x <->
  exists a b, tnode f l (2 * i) = Some a /\ tnode f l (2 * i + 1) = Some b /\ x = hash l a b.
Proof.
  cbn. destruct (tnode f l (2 * i)) as [a|]; [|naive_solver].
  destruct (tnode f l (2 * i + 1)) as [b|]; naive_solver.
Qed.

Lemma tnode_mono (f g : Z -> option H) l i x :
  (forall i x, f i = Some x -> g i = Some x) -> tnode f l i = Some x -> tnode g l i = Some x.
Proof.
  intros Hfg. revert i x. induction l as [|l IH]; intros i x; [apply Hfg|].
  rewrite !tnode_S. intros (a & b & Ha & Hb & ->). exists a, b. auto.
Qed.

Lemma leaf_at_Some L s i : is_Some (leaf_at L s i) <-> s <= i < s + Z.of_nat (length L).
Proof.
  unfold leaf_at. destruct (Z.leb_spec s i); [|split; [by intros []|lia]].
  rewrite lookup_lt_is_Some. lia.
Qed.

(** A node is complete when its range is. *)
Lemma tnode_complete L s l i :
  is_Some (tnode (leaf_at L s) l i) <-> s <= i * span l /\ (i + 1) * span l <= s + Z.of_nat (length L).
Proof.
  revert i. induction l as [|l IH]; intros i.
  { cbn. rewrite span_0, leaf_at_Some. lia. }
  rewrite span_S. pose proof (span_pos l). transitivity
    (is_Some (tnode (leaf_at L s) l (2 * i)) /\ is_Some (tnode (leaf_at L s) l (2 * i + 1))).
  - cbn. destruct (tnode _ l (2 * i)), (tnode _ l (2 * i + 1)); cbn; split;
      try (intros [_ [? ?]]; done); try (intros [[? ?] _]; done); try (intros [? ?]; done); eauto.
  - rewrite !IH. nia.
Qed.

(** A map of nodes that agree with the tree. *)
Definition sound (f : Z -> option H) (m : gmap (nat * Z) H) : Prop :=
  forall l i x, m !! (l, i) = Some x -> tnode f l i = Some x.
(** Exactly the complete nodes of a run, up to a level. *)
Definition exact (L : list H) (s : Z) (n : nat) (m : gmap (nat * Z) H) : Prop :=
  forall l i, m !! (l, i) = if decide (l <= n)%nat then tnode (leaf_at L s) l i else None.

Lemma exact_unique L s n m1 m2 : exact L s n m1 -> exact L s n m2 -> m1 = m2.
Proof. intros H1 H2. apply map_eq. intros [l i]. by rewrite H1, H2. Qed.

(** *** Lifting *)
Lemma insert_leaves_lookup L s m l i :
  insert_leaves s L m !! (l, i) =
  match (if decide (l = 0%nat) then leaf_at L s i else None) with Some x => Some x | None => m !! (l, i) end.
Proof.
  revert s m. induction L as [|x L IH]; intros s m; cbn.
  { unfold leaf_at. case_decide; [|done]. by destruct (s <=? i). }
  rewrite IH. case_decide as Hl.
  2: { rewrite lookup_insert_ne by congruence. done. }
  subst l. unfold leaf_at. destruct (Z.leb_spec (s + 1) i).
  - destruct (Z.leb_spec s i); [|lia].
    replace (Z.to_nat (i - s)) with (S (Z.to_nat (i - (s + 1)))) by lia. cbn.
    destruct (L !! _); [done|]. apply lookup_insert_ne. intros [=]. lia.
  - destruct (Z.leb_spec s i).
    + assert (i = s) as -> by lia. rewrite Z.sub_diag. cbn. apply lookup_insert_eq.
    + apply lookup_insert_ne. intros [=]. lia.
Qed.

Lemma build_level_spec f level m j count :
  (forall i, m !! (level, i) = tnode f level i) ->
  (forall i, j <= i < j + Z.of_nat count -> is_Some (tnode f (S level) i)) ->
  exists built, build_level level m j count = Some built /\
    forall acc l i, insert_built built acc !! (l, i) =
      if decide (l = S level /\ j <= i < j + Z.of_nat count) then tnode f (S level) i else acc !! (l, i).
Proof.
  intros Hm. revert j. induction count as [|count IH]; intros j Hj.
  { exists []. split; [done|]. intros acc l i. rewrite decide_False by lia. done. }
  destruct (IH (j + 1)) as (built & Hb & Hl); [intros i ?; apply Hj; lia|].
  destruct (Hj j) as [x Hx]; [lia|]. pose proof Hx as (a & b & Ha & Hbb & ->)%tnode_S.
  cbn [build_level]. rewrite !Hm, Ha, Hbb, Hb. eexists. split; [done|]. intros acc l i. cbn [insert_built]. rewrite Hl.
  case_decide as H1; [by rewrite decide_True by lia|].
  destruct (decide (l = S level /\ i = j)) as [[-> ->]|Hn].
  - rewrite lookup_insert_eq, decide_True by lia. by rewrite Hx.
  - rewrite lookup_insert_ne by (intros [=]; apply Hn; done). rewrite decide_False; [done|]. naive_solver lia.
Qed.

Lemma div_ceil_spec a b i : 0 < b -> (div_ceil a b <= i <-> a <= i * b).
Proof.
  intros Hb. unfold div_ceil. split; intros Hle.
  - pose proof (Z.div_mod (a + b - 1) b). pose proof (Z.mod_pos_bound (a + b - 1) b Hb). nia.
  - apply Z.lt_succ_r. apply Z.div_lt_upper_bound; nia.
Qed.
Lemma div_floor_spec a b i : 0 < b -> (i < a / b <-> (i + 1) * b <= a).
Proof.
  intros Hb. split; intros Hle.
  - pose proof (Z.mul_div_le a b Hb). nia.
  - assert (i + 1 <= a / b); [|lia]. apply Z.div_le_lower_bound; lia.
Qed.

(** No complete node above a level without one. *)
Lemma tnode_none_above f l : (forall i, tnode f l i = None) -> forall d i, tnode f (d + l) i = None.
Proof.
  intros Hn d. induction d as [|d IH]; intros i; [apply Hn|]. cbn. by rewrite IH.
Qed.

Lemma lift_levels_spec fuel level L s m :
  exact L s level m ->
  exists m', lift_levels fuel level s (s + Z.of_nat (length L)) m = Some m' /\ exact L s (level + fuel) m'.
Proof.
  revert level m. induction fuel as [|fuel IH]; intros level m Hm.
  { exists m. by rewrite Nat.add_0_r. }
  cbn [lift_levels]. set (e := s + Z.of_nat (length L)). pose proof (span_pos (S level)) as Hsp.
  set (first := div_ceil s (span (S level))). set (last := e / span (S level)).
  assert (Hrange : forall i, is_Some (tnode (leaf_at L s) (S level) i) <-> first <= i < last).
  { intros i. rewrite tnode_complete. unfold first, last. rewrite div_ceil_spec, div_floor_spec by done. done. }
  destruct (Z.leb_spec last first) as [Hle|Hlt].
  - exists m. split; [done|]. intros l i. rewrite Hm. case_decide as H1; [by rewrite decide_True by lia|].
    case_decide as H2; [|done]. symmetry. replace l with ((l - S level) + S level)%nat by lia.
    apply tnode_none_above. intros j. apply eq_None_not_Some. rewrite Hrange. lia.
  - destruct (build_level_spec (leaf_at L s) level m first (Z.to_nat (last - first))) as (built & -> & Hl).
    { intros i. rewrite Hm, decide_True by lia. done. }
    { intros i Hi. apply Hrange. lia. }
    destruct (IH (S level) (insert_built built m)) as (m' & Hm' & Hex).
    { intros l i. rewrite Hl, Hm. destruct (decide (l = S level)) as [->|Hne].
      - rewrite (decide_True (P := (S level <= S level)%nat)) by lia.
        rewrite (decide_False (P := (S level <= level)%nat)) by lia.
        case_decide as Hd; [done|]. symmetry. apply eq_None_not_Some. rewrite Hrange.
        intros ?. apply Hd. split; [done|]. lia.
      - rewrite decide_False by naive_solver. repeat case_decide; try done; lia. }
    exists m'. split; [done|]. by replace (level + S fuel)%nat with (S level + fuel)%nat by lia.
Qed.

(** Lifting never panics and holds exactly the complete nodes of its run. *)
Lemma lift_spec L s :
  exists m, lift L s = Some (mkSegment s (Z.of_nat (length L)) m) /\ exact L s DEPTH m.
Proof.
  unfold lift. destruct (Z.eqb_spec (Z.of_nat (length L)) 0) as [Hz|Hnz].
  - assert (L = []) as -> by (apply length_zero_iff_nil; lia). exists ∅. split; [done|].
    intros l i. rewrite lookup_empty. case_decide; [|done]. symmetry. apply eq_None_not_Some.
    rewrite tnode_complete. cbn. pose proof (span_pos l). nia.
  - destruct (lift_levels_spec DEPTH 0 L s (insert_leaves s L ∅)) as (m & Hm & Hex).
    { intros l i. rewrite insert_leaves_lookup, lookup_empty. destruct l as [|l].
      - rewrite !decide_True by lia. cbn. by destruct (leaf_at L s i).
      - rewrite !decide_False by lia. done. }
    rewrite Hm. exists m. split; [done|exact Hex].
Qed.
(** *** The seam *)
Section Seam.
Context (f : Z -> option H) (s seam e : Z).

Definition straddles (l : nat) (i : Z) : Prop := i * span l < seam < (i + 1) * span l.
Definition eligible (l : nat) (i : Z) : Prop := s <= i * span l /\ (i + 1) * span l <= e.

Lemma straddles_index l i : straddles l i <-> i = seam / span l /\ seam mod span l <> 0.
Proof.
  unfold straddles. pose proof (span_pos l) as Hp. pose proof (Z.div_mod seam (span l)).
  pose proof (Z.mod_pos_bound seam (span l) Hp). split.
  - intros [Hlo Hhi]. assert (i = seam / span l) as -> by (apply (Z.div_unique_pos _ _ _ (seam - i * span l)); lia).
    split; [done|]. nia.
  - intros [-> Hm]. nia.
Qed.
Lemma straddles_0 i : ~ straddles 0 i.
Proof. unfold straddles. rewrite span_0. lia. Qed.

(** Above an incomplete straddling node there is no complete one. *)
Lemma straddles_above l d i :
  e < (seam / span l + 1) * span l -> straddles (l + d) i -> ~ eligible (l + d) i.
Proof.
  intros He Hs [_ Hend]. destruct Hs as [_ Hs]. rewrite span_add in Hs, Hend.
  pose proof (span_pos l) as Hp. assert (seam / span l < (i + 1) * span d); [|nia].
  apply Z.div_lt_upper_bound; lia.
Qed.

(** The other child of every complete straddling node is there. *)
Definition children (n : nat) (m : gmap (nat * Z) H) : Prop :=
  forall l i c, (l < n)%nat -> straddles (S l) i -> eligible (S l) i -> c = 2 * i \/ c = 2 * i + 1 ->
    ~ straddles l c -> is_Some (m !! (l, c)).
Definition seamed (n : nat) (m : gmap (nat * Z) H) : Prop :=
  forall l i, (l <= n)%nat -> straddles l i -> eligible l i -> is_Some (m !! (l, i)).

Lemma children_mono n m m' : m ⊆ m' -> children n m -> children n m'.
Proof.
  intros Hsub Hc l i c Hl Hs He Hci Hn. destruct (Hc l i c Hl Hs He Hci Hn) as [x Hx].
  exists x. by eapply lookup_weaken.
Qed.

Lemma straddling_children n k m i :
  (k < n)%nat -> children n m -> seamed k m -> straddles (S k) i -> eligible (S k) i ->
  is_Some (m !! (k, 2 * i)) /\ is_Some (m !! (k, 2 * i + 1)).
Proof.
  intros Hk Hc Hd Hs He. pose proof (span_S k) as Hsp. pose proof (span_pos k).
  assert (forall c, c = 2 * i \/ c = 2 * i + 1 -> is_Some (m !! (k, c))) as Hall; [|auto].
  intros c Hci. destruct (decide (c * span k < seam)) as [H1|H1], (decide (seam < (c + 1) * span k)) as [H2|H2].
  - apply Hd; [lia|done|]. unfold eligible in *. rewrite Hsp in He. destruct Hci as [-> | ->]; nia.
  - eapply (Hc k i c); [done..|]. intros []; lia.
  - eapply (Hc k i c); [done..|]. intros []; lia.
  - eapply (Hc k i c); [done..|]. intros []; lia.
Qed.

Lemma seam_loop_spec n k m :
  sound f m -> seamed k m -> children (k + n) m ->
  let m' := seam_loop (seq k n) s seam e m in
  sound f m' /\ m ⊆ m' /\ seamed (k + n) m' /\
  forall l i, is_Some (m' !! (l, i)) -> is_Some (m !! (l, i)) \/ (l <= k + n)%nat.
Proof.
  cbn zeta. revert k m. induction n as [|n IH]; intros k m Hs Hd Hc.
  { rewrite Nat.add_0_r. cbn. split_and!; auto. }
  assert (Hnext : forall m1, sound f m1 -> m ⊆ m1 -> seamed (S k) m1 ->
    (forall l i, is_Some (m1 !! (l, i)) -> is_Some (m !! (l, i)) \/ (l <= k + S n)%nat) ->
    let m' := seam_loop (seq (S k) n) s seam e m1 in
    sound f m' /\ m ⊆ m' /\ seamed (k + S n) m' /\
    forall l i, is_Some (m' !! (l, i)) -> is_Some (m !! (l, i)) \/ (l <= k + S n)%nat).
  { intros m1 Hs1 Hsub Hd1 Hk1. destruct (IH (S k) m1) as (H1 & H2 & H3 & H4); [done|done| |].
    { eapply children_mono; [done|]. by replace (S k + n)%nat with (k + S n)%nat by lia. }
    split_and!; [done|by transitivity m1|by replace (k + S n)%nat with (S k + n)%nat by lia|].
    intros l i Hl. destruct (H4 l i Hl) as [Hi|Hi]; [by apply Hk1|lia]. }
  assert (Hext : forall m1, m ⊆ m1 ->
    (forall i, straddles (S k) i -> eligible (S k) i -> is_Some (m1 !! (S k, i))) -> seamed (S k) m1).
  { intros m1 Hsub Hi l i Hl Hst Hel. destruct (decide (l = S k)) as [->|]; [auto|].
    destruct (Hd l i) as [x Hx]; [lia|done|done|]. exists x. by eapply lookup_weaken. }
  cbn [seq seam_loop]. destruct (Z.eqb_spec (seam mod span (S k)) 0) as [Hal|Hal].
  { apply Hnext; [done|done| |by left]. apply Hext; [done|]. intros i [_ ?]%straddles_index. done. }
  set (idx := seam / span (S k)). destruct (Z.ltb_spec e ((idx + 1) * span (S k))) as [Hbr|Hfit].
  { split_and!; [done|done| |by left]. intros l i Hl Hst Hel. destruct (decide (l <= k)%nat); [by apply Hd|].
    exfalso. replace l with (S k + (l - S k))%nat in Hst, Hel by lia. by eapply straddles_above. }
  assert (Hidx : forall i, straddles (S k) i -> i = idx) by (intros i [-> _]%straddles_index; done).
  assert (Hst : straddles (S k) idx) by by apply straddles_index.
  destruct (Z.ltb_spec (idx * span (S k)) s) as [Hlo|Hlo].
  { apply Hnext; [done|done| |by left]. apply Hext; [done|]. intros i ->%Hidx [? _]. lia. }
  assert (Hel : eligible (S k) idx) by done.
  destruct (m !! (S k, idx)) as [y|] eqn:Hy.
  { apply Hnext; [done|done| |by left]. apply Hext; [done|]. intros i ->%Hidx _. by rewrite Hy. }
  destruct (straddling_children (k + S n) k m idx ltac:(lia) Hc Hd Hst Hel) as [[a Ha] [b Hb]].
  rewrite Ha, Hb. assert (Hsub : m ⊆ <[(S k, idx) := hash k a b]> m) by by apply insert_subseteq.
  apply Hnext; [|done| |].
  - intros l i x. destruct (decide ((l, i) = (S k, idx))) as [[= -> ->]|Hne].
    + rewrite lookup_insert_eq. intros [= <-]. apply tnode_S. exists a, b. auto.
    + rewrite lookup_insert_ne by done. apply Hs.
  - apply Hext; [done|]. intros i ->%Hidx _. by rewrite lookup_insert_eq.
  - intros l i. destruct (decide ((l, i) = (S k, idx))) as [[= -> ->]|Hne]; [right; lia|].
    rewrite lookup_insert_ne by done. by left.
Qed.
End Seam.
(** *** Combining *)
Lemma sound_union f m1 m2 : sound f m1 -> sound f m2 -> sound f (m1 ∪ m2).
Proof. intros Hs1 Hs2 l i x [?|[_ ?]]%lookup_union_Some_raw; auto. Qed.
Lemma union_present (m1 m2 : gmap (nat * Z) H) k :
  is_Some ((m1 ∪ m2) !! k) <-> is_Some (m1 !! k) \/ is_Some (m2 !! k).
Proof. rewrite lookup_union, union_is_Some. done. Qed.

(** The nodes of a combination: what either side had, and the seam. *)
Lemma combine_spec f a b :
  len a <> 0 -> len b <> 0 -> sound f (nodes a) -> sound f (nodes b) ->
  let s := start a in let seam := end_ a in let e := seam + len b in
  (forall l i c, (l < DEPTH)%nat -> straddles seam (S l) i -> eligible s e (S l) i ->
     c = 2 * i \/ c = 2 * i + 1 -> ~ straddles seam l c ->
     is_Some (nodes a !! (l, c)) \/ is_Some (nodes b !! (l, c))) ->
  exists m, combine a b = mkSegment s (len a + len b) m /\ sound f m /\
    seamed s seam e DEPTH m /\
    (forall l i, is_Some (nodes a !! (l, i)) \/ is_Some (nodes b !! (l, i)) -> is_Some (m !! (l, i))) /\
    forall l i, is_Some (m !! (l, i)) ->
      is_Some (nodes a !! (l, i)) \/ is_Some (nodes b !! (l, i)) \/ (l <= DEPTH)%nat.
Proof.
  intros Ha Hb Hsa Hsb. cbn zeta. intros Hc. unfold combine, is_empty.
  rewrite (proj2 (Z.eqb_neq _ _) Ha), (proj2 (Z.eqb_neq _ _) Hb).
  replace (start a + (len a + len b)) with (end_ a + len b) by (unfold end_; lia).
  set (joined := if (node_count b <=? node_count a)%nat then nodes b ∪ nodes a else nodes a ∪ nodes b).
  assert (Hj : sound f joined /\ forall k, is_Some (joined !! k) <-> is_Some (nodes a !! k) \/ is_Some (nodes b !! k)).
  { unfold joined. destruct (_ <=? _)%nat; (split; [by apply sound_union|]); intros k; rewrite union_present; tauto. }
  destruct Hj as [Hsj Hpj].
  destruct (seam_loop_spec f (start a) (end_ a) (end_ a + len b) DEPTH 0 joined) as (H1 & H2 & H3 & H4).
  { done. }
  { intros l i Hl Hst. assert (l = 0%nat) as -> by lia. by apply straddles_0 in Hst. }
  { intros l i c Hl Hst He Hci Hn. apply Hpj. by eapply Hc. }
  eexists. split; [done|]. split_and!; [done|done| |].
  - intros l i [x Hx]%Hpj. exists x. by eapply lookup_weaken.
  - intros l i [Hi%Hpj|Hl]%H4; [|by right; right]. destruct Hi; auto.
Qed.

Lemma leaf_at_app xs ys s i :
  leaf_at (xs ++ ys) s i =
  match leaf_at xs s i with Some x => Some x | None => leaf_at ys (s + Z.of_nat (length xs)) i end.
Proof.
  unfold leaf_at. destruct (Z.leb_spec s i) as [Hs|Hs].
  - rewrite lookup_app. destruct (xs !! Z.to_nat (i - s)) eqn:Hx; [done|].
    apply lookup_ge_None in Hx. destruct (Z.leb_spec (s + Z.of_nat (length xs)) i); [|lia]. f_equal. lia.
  - destruct (Z.leb_spec (s + Z.of_nat (length xs)) i); [lia|done].
Qed.
Lemma leaf_at_app_l xs ys s i x : leaf_at xs s i = Some x -> leaf_at (xs ++ ys) s i = Some x.
Proof. intros Hx. by rewrite leaf_at_app, Hx. Qed.
Lemma leaf_at_app_r xs ys s i x :
  leaf_at ys (s + Z.of_nat (length xs)) i = Some x -> leaf_at (xs ++ ys) s i = Some x.
Proof.
  intros Hx. rewrite leaf_at_app. destruct (leaf_at xs s i) eqn:Hl; [|done].
  assert (is_Some (leaf_at xs s i)) as H1%leaf_at_Some by by rewrite Hl.
  assert (is_Some (leaf_at ys (s + Z.of_nat (length xs)) i)) as H2%leaf_at_Some by by rewrite Hx. lia.
Qed.

Lemma exact_sound L s n m f :
  exact L s n m -> (forall i x, leaf_at L s i = Some x -> f i = Some x) -> sound f m.
Proof.
  intros Hm Hf l i x. rewrite Hm. case_decide; [|done]. by apply tnode_mono.
Qed.
Lemma exact_present L s n m l i :
  exact L s n m -> (l <= n)%nat -> s <= i * span l -> (i + 1) * span l <= s + Z.of_nat (length L) ->
  is_Some (m !! (l, i)).
Proof. intros Hm Hl H1 H2. rewrite Hm, decide_True by done. by apply tnode_complete. Qed.

(** A sound map with every complete node of the joined run is the exact one. *)
Lemma joined_exact xs ys s ma mb m :
  let seam := s + Z.of_nat (length xs) in
  let e := seam + Z.of_nat (length ys) in
  exact xs s DEPTH ma -> exact ys seam DEPTH mb ->
  sound (leaf_at (xs ++ ys) s) m -> seamed s seam e DEPTH m ->
  (forall l i, is_Some (ma !! (l, i)) \/ is_Some (mb !! (l, i)) -> is_Some (m !! (l, i))) ->
  (forall l i, is_Some (m !! (l, i)) ->
     is_Some (ma !! (l, i)) \/ is_Some (mb !! (l, i)) \/ (l <= DEPTH)%nat) ->
  exact (xs ++ ys) s DEPTH m.
Proof.
  cbn zeta. intros Ha Hb Hs Hseam Hin Hout l i. destruct (m !! (l, i)) as [x|] eqn:Hx.
  - rewrite decide_True; [by symmetry; apply Hs|].
    destruct (Hout l i) as [[y Hk]|[[y Hk]|Hk]]; [by rewrite Hx| | |done].
    + rewrite Ha in Hk. by case_decide.
    + rewrite Hb in Hk. by case_decide.
  - case_decide as Hl; [|done]. symmetry. apply eq_None_not_Some. intros [H1 H2]%tnode_complete.
    rewrite length_app, Nat2Z.inj_add in H2. assert (is_Some (m !! (l, i))) as [? ?]; [|congruence].
    destruct (decide ((i + 1) * span l <= s + Z.of_nat (length xs))) as [Hle|Hgt].
    { apply Hin. left. by eapply (exact_present _ _ _ _ _ _ Ha). }
    destruct (decide (s + Z.of_nat (length xs) <= i * span l)) as [Hle|Hlt].
    { apply Hin. right. eapply (exact_present _ _ _ _ _ _ Hb); lia. }
    apply Hseam; [done|split; lia|split; lia].
Qed.

Lemma combine_lift xs ys s :
  exists a b, lift xs s = Some a /\ lift ys (s + Z.of_nat (length xs)) = Some b /\
    lift (xs ++ ys) s = Some (combine a b).
Proof.
  destruct (lift_spec xs s) as (ma & -> & Ha), (lift_spec ys (s + Z.of_nat (length xs))) as (mb & -> & Hb).
  destruct (lift_spec (xs ++ ys) s) as (m & -> & Hm). do 2 eexists. split_and!; [done|done|]. f_equal.
  destruct (decide (Z.of_nat (length xs) = 0)) as [Hz|Hx].
  { assert (xs = []) as -> by (apply length_zero_iff_nil; lia). cbn [app length Z.of_nat] in *.
    rewrite Z.add_0_r in *. by rewrite (exact_unique _ _ _ _ _ Hm Hb). }
  destruct (decide (Z.of_nat (length ys) = 0)) as [Hz|Hy].
  { assert (ys = []) as -> by (apply length_zero_iff_nil; lia). rewrite app_nil_r in *. unfold combine, is_empty.
    cbn [len]. rewrite (proj2 (Z.eqb_neq _ _) Hx). by rewrite (exact_unique _ _ _ _ _ Hm Ha). }
  set (a := mkSegment s (Z.of_nat (length xs)) ma). set (b := mkSegment _ (Z.of_nat (length ys)) mb).
  destruct (combine_spec (leaf_at (xs ++ ys) s) a b) as (m' & -> & Hs & Hseam & Hin & Hout); [done|done|..].
  { eapply exact_sound; [exact Ha|]. intros i x. apply leaf_at_app_l. }
  { eapply exact_sound; [exact Hb|]. intros i x. apply leaf_at_app_r. }
  { intros l i c Hl Hst [He1 He2] Hci Hn. unfold end_, straddles in *. cbn [start len a b nodes] in *.
    rewrite span_S in *. pose proof (span_pos l).
    destruct (decide ((c + 1) * span l <= s + Z.of_nat (length xs))) as [Hle|Hgt].
    - left. eapply (exact_present _ _ _ _ _ _ Ha); [lia|nia|done].
    - right. eapply (exact_present _ _ _ _ _ _ Hb); [lia|nia|nia]. }
  cbn [start len a b nodes]. rewrite length_app, Nat2Z.inj_add. f_equal.
  eapply exact_unique; [exact Hm|]. by eapply joined_exact.
Qed.

(** [combine] is the homomorphism the parallel build relies on.
    Lifting adjacent runs apart and combining them yields, node for node, the
    segment of the joined run lifted at once, whatever the lengths and the
    alignment of the seam, so the grouping of three runs does not matter; and no
    [expect] of [lift] fires. *)
Theorem combine_lift_homomorphism xs ys zs s :
  exists a b c, lift xs s = Some a /\ lift ys (s + Z.of_nat (length xs)) = Some b /\
    lift zs (s + Z.of_nat (length xs) + Z.of_nat (length ys)) = Some c /\
    lift (xs ++ ys) s = Some (combine a b) /\
    lift (xs ++ ys ++ zs) s = Some (combine a (combine b c)) /\
    combine (combine a b) c = combine a (combine b c).
Proof.
  destruct (combine_lift xs ys s) as (a & b & Ha & Hb & Hab).
  destruct (combine_lift ys zs (s + Z.of_nat (length xs))) as (b' & c & Hb' & Hc & Hbc).
  destruct (combine_lift xs (ys ++ zs) s) as (a' & bc & Ha' & Hbc' & Habc).
  destruct (combine_lift (xs ++ ys) zs s) as (ab & c' & Hab' & Hc' & Habc').
  rewrite length_app, Nat2Z.inj_add, Z.add_assoc in Hc'. rewrite <- app_assoc in Habc'.
  exists a, b, c. simplify_eq. split_and!; congruence.
Qed.

(** ** Frontiers *)
Section Frontier.
Context `{!Imt H}.

Definition bits (p : Z) (k n : nat) : list nat :=
  filter (fun l => Z.testbit p (Z.of_nat l) = true) (seq k n).
(** The peaks of [c] leaves, and the ommers of position [c]. *)
Definition peak (c : Z) (l : nat) : Z := c / span l - 1.
Definition peaks_of (f : Z -> option H) (c : Z) (ls : list nat) (vs : list H) : Prop :=
  Forall2 (fun l v => tnode f l (peak c l) = Some v) ls vs.

(** The frontier of these leaves: the last one, and the roots of the complete
    subtrees to the left of its path. *)
Definition frontier_of (n : NonEmptyFrontier) (ls : list H) : Prop :=
  let p := Z.of_nat (length ls) - 1 in
  ls <> [] /\ position n = p /\ leaf_at ls 0 p = Some (leaf n) /\
  peaks_of (leaf_at ls 0) p (set_bits p) (ommers n).
Definition represents (f : Frontier) (ls : list H) : Prop :=
  match frontier_value f with None => ls = [] | Some n => frontier_of n ls end.

(** What is relied on of [incrementalmerkletree]: a frontier is its parts; a
    position's past witness addresses are the left siblings on its path; appending
    a leaf yields the frontier of one more leaf, until 2^32. *)
Class ImtLaws : Prop := {
  imt_past_addrs p : 0 <= p < 2 ^ 32 -> past_addrs p = (fun l => (l, peak p l)) <$> set_bits p;
  imt_from_parts p x os : length os = length (set_bits p) ->
    exists n, from_parts p x os = Some n /\ position n = p /\ leaf n = x /\ ommers n = os;
  imt_ext n1 n2 : position n1 = position n2 -> leaf n1 = leaf n2 -> ommers n1 = ommers n2 -> n1 = n2;
  imt_empty : frontier_value frontier_empty = None;
  imt_value_inj f1 f2 : frontier_value f1 = frontier_value f2 -> f1 = f2;
  imt_size f : tree_size f = match frontier_value f with None => 0 | Some n => position n + 1 end;
  imt_try_from n : position n < 2 ^ 32 ->
    exists f, frontier_try_from n = Some f /\ frontier_value f = Some n;
  imt_append f ls x : represents f ls -> Z.of_nat (length ls) < 2 ^ 32 ->
    exists f', frontier_append f x = Some f' /\ represents f' (ls ++ [x]);
  imt_append_full f ls x : represents f ls -> Z.of_nat (length ls) = 2 ^ 32 -> frontier_append f x = None }.

(** *** Bits *)
Lemma elem_of_bits p k n l : l ∈ bits p k n <-> (k <= l < k + n)%nat /\ Z.odd (p / span l) = true.
Proof. unfold bits. rewrite list_elem_of_filter, elem_of_seq, testbit_span. tauto. Qed.

Lemma seq_sorted k n : StronglySorted lt (seq k n).
Proof.
  revert k. induction n as [|n IH]; intros k; constructor; [apply IH|].
  apply Forall_forall. intros x Hx%elem_of_seq. lia.
Qed.
Lemma bits_sorted p k n : StronglySorted lt (bits p k n).
Proof.
  unfold bits. generalize (seq_sorted k n). induction (seq k n) as [|x l IH]; intros Hs; [constructor|].
  apply StronglySorted_inv in Hs as [Hs Hf]. rewrite filter_cons. case_decide; [|by apply IH].
  constructor; [by apply IH|]. rewrite Forall_forall in Hf |- *. intros y [_ Hy]%list_elem_of_filter. by apply Hf.
Qed.

Lemma bits_ext p q k n :
  (forall l, l ∈ seq k n -> p / span l = q / span l) -> bits p k n = bits q k n.
Proof.
  unfold bits. induction (seq k n) as [|x l IH]; intros Heq; [done|]. rewrite !filter_cons, !testbit_span.
  rewrite (Heq x) by left. rewrite IH; [done|]. intros y Hy. apply Heq. by right.
Qed.

Lemma Forall2_impl_elem {A B} (P Q : A -> B -> Prop) l k :
  Forall2 P l k -> (forall x y, x ∈ l -> P x y -> Q x y) -> Forall2 Q l k.
Proof.
  intros Hf Himp. induction Hf as [|x y l k Hxy _ IH]; constructor; [by apply Himp; [left|]|].
  apply IH. intros x' y' Hx'. apply Himp. by right.
Qed.

(** *** Peaks from a frontier *)
Lemma peaks_done zipped acc :
  Forall (fun z => (acc.1 < z.1)%nat) zipped -> StronglySorted lt zipped.*1 ->
  peaks_loop zipped acc = acc :: zipped.
Proof.
  revert acc. induction zipped as [|[l o] zipped IH]; intros acc Hf Hs; [done|].
  apply Forall_cons in Hf as [Hl _]. cbn in Hl, Hs. apply StronglySorted_inv in Hs as [Hs Hall].
  cbn. destruct (Nat.eqb_spec l acc.1); [lia|]. f_equal. apply IH; [|done].
  apply Forall_forall. intros z Hz. apply (proj1 (Forall_forall _ _) Hall). by apply (list_elem_of_fmap_2 fst).
Qed.

(** Above an even position, the bits of [i] and of [i + 1] are the same. *)
Lemma bits_above k i l :
  Z.odd i = false -> (k < l)%nat ->
  ((i + 1) * span k - 1) / span l = ((i + 1) * span k) / span l.
Proof.
  intros Hodd Hl. replace l with (k + S (l - S k))%nat by lia. set (d := (l - S k)%nat).
  rewrite span_add, span_S. pose proof (span_pos k) as Hk. pose proof (span_pos d) as Hd.
  rewrite <- !Z.div_div by lia. rewrite Z.div_mul by lia.
  replace (((i + 1) * span k - 1) / span k) with i
    by (apply (Z.div_unique_pos _ _ _ (span k - 1)); lia).
  rewrite <- Z.negb_even in Hodd. apply negb_false_iff in Hodd.
  apply Z.even_spec in Hodd as [j ->]. replace (2 * j / 2) with j by (apply Z.div_unique_pos with 0; lia).
  replace ((2 * j + 1) / 2) with j; [done|]. apply Z.div_unique_pos with 1; lia.
Qed.

Lemma peaks_carry f c n k i x os :
  (k + n = 64)%nat -> 0 <= i -> (i + 1) * span k = c -> c < span 64 -> tnode f k i = Some x ->
  peaks_of f (c - 1) (bits (c - 1) k n) os ->
  exists vs, peaks_loop (zip (bits (c - 1) k n) os) (k, x) = zip (bits c k n) vs /\
    peaks_of f c (bits c k n) vs.
Proof.
  revert k i x os. induction n as [|n IH]; intros k i x os Hk Hi Hc Hlt Hx Hos.
  { assert (k = 64%nat) as -> by lia. pose proof (span_pos 64). nia. }
  pose proof (span_pos k) as Hp.
  assert (Hpi : (c - 1) / span k = i) by (symmetry; apply (Z.div_unique_pos _ _ _ (span k - 1)); lia).
  assert (Hci : c / span k = i + 1) by (rewrite <- Hc; apply Z.div_mul; lia).
  unfold bits in *. cbn [seq] in *. rewrite !filter_cons in *. rewrite !testbit_span in *.
  rewrite Hpi in *. rewrite Hci in *. rewrite Z.odd_add in *. cbn [Z.odd] in *.
  destruct (Z.odd i) eqn:Hodd; cbn [xorb] in *.
  - rewrite (decide_True (P := true = true)) in * by done. rewrite (decide_False (P := false = true)) by done.
    apply Forall2_cons_inv_l in Hos as (o & os' & Ho & Hos' & ->). unfold peak in Ho. rewrite Hpi in Ho.
    cbn [zip_with peaks_loop fst snd]. rewrite Nat.eqb_refl. apply Z.odd_spec in Hodd as [j ->].
    apply (IH (S k) j); [lia|lia|rewrite span_S; lia|done| |done].
    apply tnode_S. exists o, x. split_and!; [|done|done]. by replace (2 * j) with (2 * j + 1 - 1) by lia.
  - rewrite (decide_False (P := false = true)) in * by done. rewrite (decide_True (P := true = true)) by done.
    assert (Hsame : forall l, l ∈ seq (S k) n -> (c - 1) / span l = c / span l).
    { intros l Hl%elem_of_seq. rewrite <- Hc. apply bits_above; [done|lia]. }
    assert (Hbits : bits (c - 1) (S k) n = bits c (S k) n) by by apply bits_ext.
    fold (bits (c - 1) (S k) n) in *. fold (bits c (S k) n). rewrite Hbits in *. exists (x :: os). split.
    + cbn [zip_with]. apply peaks_done.
      * apply Forall_forall. intros [l o] Hz. apply elem_of_zip_l in Hz. apply elem_of_bits in Hz. cbn. lia.
      * rewrite fst_zip; [apply bits_sorted|]. apply Forall2_length in Hos. lia.
    + constructor; [unfold peak; rewrite Hci; by replace (i + 1 - 1) with i by lia|].
      eapply Forall2_impl_elem; [exact Hos|]. intros l v Hl. unfold peak. rewrite Hsame; [done|].
      apply elem_of_bits in Hl. apply elem_of_seq. lia.
Qed.
(** *** Placing them *)
Local Instance level_ge_total : Total level_ge.
Proof. intros a b. unfold level_ge. lia. Qed.
Local Instance level_ge_trans : Transitive level_ge.
Proof. intros a b c. unfold level_ge. lia. Qed.
Lemma level_sorted (zipped : list (nat * H)) :
  StronglySorted lt zipped.*1 -> merge_sort level_ge zipped = reverse zipped.
Proof.
  intros Hs. assert (Hrev : StronglySorted level_ge (reverse zipped)).
  { induction zipped as [|z zipped IH]; [constructor|]. cbn in Hs. apply StronglySorted_inv in Hs as [Hs Hf].
    rewrite reverse_cons. apply StronglySorted_app_2; [|by apply IH|by repeat constructor].
    intros x y Hx ->%list_elem_of_singleton. rewrite elem_of_reverse in Hx. unfold level_ge.
    pose proof (proj1 (Forall_forall _ _) Hf x.1 (list_elem_of_fmap_2 fst _ _ Hx)). lia. }
  assert (Hnd : NoDup zipped.*1).
  { clear Hrev. induction Hs as [|x l _ IH Hf]; constructor; [|done]. intros Hx.
    pose proof (proj1 (Forall_forall _ _) Hf x Hx). lia. }
  apply (StronglySorted_unique_strong level_ge); [|apply (StronglySorted_merge_sort level_ge _)|done|].
  - intros [l1 v1] [l2 v2] H1 H2 Hle Hge. unfold level_ge in Hle, Hge. cbn in Hle, Hge.
    assert (l1 = l2) as -> by lia. rewrite merge_sort_Permutation in H1. rewrite elem_of_reverse in H2.
    apply list_elem_of_lookup in H1 as [i Hi], H2 as [j Hj]. assert (i = j) as ->; [|congruence].
    eapply NoDup_lookup; [exact Hnd| |]; by rewrite list_lookup_fmap, ?Hi, ?Hj.
  - by rewrite merge_sort_Permutation, reverse_Permutation.
Qed.

Definition grows (f : Z -> option H) (m m' : gmap (nat * Z) H) (added : list (nat * Z)) : Prop :=
  (sound f m -> sound f m') /\ (forall k, is_Some (m !! k) -> is_Some (m' !! k)) /\
  forall k, k ∈ added -> is_Some (m' !! k).

Lemma grows_refl f m : grows f m m [].
Proof. split_and!; auto. by intros k ?%elem_of_nil. Qed.
Lemma grows_insert f m m' l i x added :
  tnode f l i = Some x -> grows f (<[(l, i) := x]> m) m' added -> grows f m m' ((l, i) :: added).
Proof.
  intros Hx (Hs & Hm & Ha). split_and!.
  - intros Hsm. apply Hs. intros l' i' y. destruct (decide ((l', i') = (l, i))) as [[= -> ->]|Hne].
    + rewrite lookup_insert_eq. by intros [= <-].
    + rewrite lookup_insert_ne by done. apply Hsm.
  - intros k Hk. apply Hm. destruct (decide (k = (l, i))) as [->|]; [by rewrite lookup_insert_eq|].
    by rewrite lookup_insert_ne.
  - intros k [->|Hk]%elem_of_cons; [|by apply Ha]. apply Hm. by rewrite lookup_insert_eq.
Qed.

Lemma place_peaks_spec f c n vs m :
  peaks_of f c (bits c 0 n) vs ->
  grows f m (place_peaks (reverse (zip (bits c 0 n) vs)) (c / span n * span n) m)
    (reverse ((fun l => (l, peak c l)) <$> bits c 0 n)).
Proof.
  revert vs m. induction n as [|n IH]; intros vs m Hvs; [apply grows_refl|].
  pose proof (span_pos n) as Hp. pose proof (span_S n) as HS.
  assert (Hdiv : c / span (S n) = c / span n / 2) by (rewrite HS, Z.mul_comm; symmetry; apply Z.div_div; lia).
  unfold bits in *. rewrite seq_S, filter_app in *. cbn [Nat.add] in *.
  destruct (decide (Z.testbit c (Z.of_nat n) = true)) as [Hb|Hb].
  - assert (Hn : filter (fun l => Z.testbit c (Z.of_nat l) = true) [n] = [n])
      by by rewrite filter_cons, decide_True by done.
    rewrite Hn in *.
    apply Forall2_app_inv_l in Hvs as (vs' & vl & Hvs & Hv & ->).
    apply Forall2_cons_inv_l in Hv as (v & vl' & Hv & Hvl & ->). apply Forall2_nil_inv_l in Hvl as ->.
    rewrite zip_with_app by by apply Forall2_length in Hvs.
    rewrite fmap_app, !reverse_app. cbn [zip_with fmap list_fmap]. rewrite !reverse_singleton. cbn [app place_peaks].
    rewrite testbit_span in Hb. apply Z.odd_spec in Hb as [j Hj].
    assert (c / span (S n) = j) as Hd by (rewrite Hdiv, Hj; symmetry; apply Z.div_unique_pos with 1; lia).
    assert (Hkey : Z.shiftr (c / span (S n) * span (S n)) (Z.of_nat n) = peak c n).
    { rewrite shiftr_span, Hd, HS. unfold peak. rewrite Hj. rewrite Z.mul_assoc, Z.div_mul by lia. lia. }
    assert (Hnew : c / span (S n) * span (S n) + span n = c / span n * span n) by (rewrite Hd, HS, Hj; lia).
    rewrite Hkey, Hnew. eapply grows_insert; [exact Hv|]. by apply IH.
  - assert (Hn : filter (fun l => Z.testbit c (Z.of_nat l) = true) [n] = [])
      by by rewrite filter_cons, decide_False by done.
    rewrite Hn, app_nil_r in *.
    assert (Hsame : c / span (S n) * span (S n) = c / span n * span n); [|rewrite Hsame; by apply IH].
    rewrite testbit_span in Hb. apply not_true_is_false in Hb. rewrite <- Z.negb_even in Hb.
    apply negb_false_iff, Z.even_spec in Hb as [j Hj]. rewrite Hdiv, HS, Hj.
    replace (2 * j / 2) with j by (apply Z.div_unique_pos with 0; lia). lia.
Qed.

Lemma place_ommers_spec f (addrs : list (nat * Z)) os m :
  Forall2 (fun a o => tnode f a.1 a.2 = Some o) addrs os -> grows f m (place_ommers addrs os m) addrs.
Proof.
  intros Hf. revert m. induction Hf as [|[l i] o addrs os Ho _ IH]; intros m; [apply grows_refl|].
  eapply grows_insert; [exact Ho|apply IH].
Qed.

(** *** The carry *)
Lemma set_bits_bits p : set_bits p = bits p 0 64.
Proof. done. Qed.

Context `{!ImtLaws}.

(** A carried frontier as a segment: sound, with the peaks of its size, and with
    its own tip leaf and ommers. *)
Lemma carry_segment_spec fr ls :
  let c := Z.of_nat (length ls) in
  represents fr ls -> ls <> [] -> c <= 2 ^ 32 ->
  exists m, carry_segment fr = mkSegment 0 c m /\ sound (leaf_at ls 0) m /\
    (forall l, l ∈ set_bits c -> is_Some (m !! (l, peak c l))) /\
    is_Some (m !! (0%nat, c - 1)) /\ forall l, l ∈ set_bits (c - 1) -> is_Some (m !! (l, peak (c - 1) l)).
Proof.
  cbn zeta. intros Hr Hne Hlim. unfold represents in Hr. unfold carry_segment.
  destruct (frontier_value fr) as [n|]; [|done]. destruct Hr as (_ & Hp & Hleaf & Hos).
  set (c := Z.of_nat (length ls)) in *. assert (Hc : 0 < c) by (subst c; destruct ls; [done|cbn; lia]).
  rewrite Hp. replace (c - 1 + 1) with c by lia.
  unfold frontier_to_peaks. rewrite Hp, !set_bits_bits in *.
  destruct (peaks_carry (leaf_at ls 0) c 64 0 (c - 1) (leaf n) (ommers n)) as (vs & Hpeaks & Hvs);
    [done|lia|rewrite span_0; lia|change (span 64) with (2 ^ 64); lia|done|done|].
  rewrite Hpeaks, level_sorted.
  2: { rewrite fst_zip; [apply bits_sorted|]. apply Forall2_length in Hvs. lia. }
  pose proof (place_peaks_spec (leaf_at ls 0) c 64 vs ∅ Hvs) as (Hs1 & _ & Hp1).
  replace (c / span 64 * span 64) with 0 in Hs1, Hp1
    by (rewrite Z.div_small; [done|split; [lia|change (span 64) with (2 ^ 64); lia]]).
  set (m1 := place_peaks _ 0 ∅) in *. set (m2 := <[(0%nat, c - 1) := leaf n]> m1).
  assert (G2 : grows (leaf_at ls 0) m1 m2 [(0%nat, c - 1)]) by (eapply grows_insert; [exact Hleaf|apply grows_refl]).
  rewrite imt_past_addrs, set_bits_bits by lia.
  pose proof (place_ommers_spec (leaf_at ls 0) ((fun l => (l, peak (c - 1) l)) <$> bits (c - 1) 0 64) (ommers n) m2)
    as G3. destruct G3 as (Hs3 & Hm3 & Hp3); [by apply Forall2_fmap_l|]. destruct G2 as (Hs2 & Hm2 & Hp2).
  eexists. split; [done|]. split_and!.
  - apply Hs3, Hs2, Hs1. by intros l i x.
  - intros l Hl. apply Hm3, Hm2, Hp1, elem_of_reverse. by apply (list_elem_of_fmap_2 (fun l => (l, peak c l))).
  - apply Hm3, Hp2. by apply list_elem_of_singleton.
  - intros l Hl. apply Hp3. by apply (list_elem_of_fmap_2 (fun l => (l, peak (c - 1) l))).
Qed.
(** *** Looking a frontier up *)
Lemma peak_range p l : 0 <= p -> l ∈ set_bits p -> (l < 64)%nat /\ 0 <= peak p l /\ (peak p l + 1) * span l <= p /\
  p < (peak p l + 2) * span l.
Proof.
  intros Hp Hl. rewrite set_bits_bits in Hl. apply elem_of_bits in Hl as [Hl Hodd]. unfold peak.
  pose proof (span_pos l) as Hs. pose proof (Z.div_mod p (span l)). pose proof (Z.mod_pos_bound p (span l) Hs).
  assert (p / span l <> 0) by (intros Hz; by rewrite Hz in Hodd).
  assert (0 <= p / span l) by (apply Z.div_pos; lia). split_and!; [lia|lia|nia|nia].
Qed.
Lemma set_bits_depth p l : 0 <= p < 2 ^ 32 -> l ∈ set_bits p -> (l < DEPTH)%nat.
Proof.
  intros Hp Hl. destruct (peak_range p l) as (_ & Hlo & Hhi & _); [lia|done|]. unfold DEPTH.
  destruct (decide (l < 32)%nat) as [|Hge]; [done|].
  assert (Hsp : span l = 2 ^ 32 * span (l - 32)).
  { change (2 ^ 32) with (span 32). rewrite <- span_add. f_equal. lia. }
  pose proof (span_pos (l - 32)). nia.
Qed.

(** A node of a longer run is the same in a prefix that holds its range. *)
Lemma tnode_prefix ls n l i x :
  tnode (leaf_at ls 0) l i = Some x -> 0 <= i * span l -> (i + 1) * span l <= Z.of_nat (length (take n ls)) ->
  tnode (leaf_at (take n ls) 0) l i = Some x.
Proof.
  intros Hx Hlo Hn. destruct (proj2 (tnode_complete (take n ls) 0 l i)) as [y Hy]; [lia|].
  pose proof (tnode_mono _ (leaf_at (take n ls ++ drop n ls) 0) _ _ _ (fun i x => leaf_at_app_l (take n ls) (drop n ls) 0 i x) Hy) as Hy'.
  rewrite take_drop in Hy'. congruence.
Qed.

Lemma collect_ommers_spec f (s : TreeSegment) ls p :
  sound f (nodes s) -> (forall l, l ∈ ls -> is_Some (nodes s !! (l, peak p l))) ->
  exists os, collect_ommers s ((fun l => (l, peak p l)) <$> ls) = Some os /\ peaks_of f p ls os.
Proof.
  intros Hs. induction ls as [|l ls IH]; intros Hp; [by exists []; split; [|constructor]|].
  destruct (Hp l) as [x Hx]; [left|]. destruct IH as (os & Hos & Hf); [intros ? ?; apply Hp; by right|].
  cbn. unfold node_at. rewrite Hx, Hos. eexists. split; [done|]. constructor; [by apply Hs|done].
Qed.

Lemma frontier_at_spec s ls size :
  0 < size <= Z.of_nat (length ls) -> Z.of_nat (length ls) <= 2 ^ 32 -> sound (leaf_at ls 0) (nodes s) ->
  is_Some (nodes s !! (0%nat, size - 1)) ->
  (forall l, l ∈ set_bits (size - 1) -> is_Some (nodes s !! (l, peak (size - 1) l))) ->
  exists n, frontier_at s size = Some n /\ frontier_of n (take (Z.to_nat size) ls).
Proof.
  intros Hsz Hlim Hs [x Hx] Hp. unfold frontier_at. rewrite (proj2 (Z.eqb_neq size 0)) by lia.
  unfold node_at at 1. rewrite Hx, imt_past_addrs by lia.
  destruct (collect_ommers_spec (leaf_at ls 0) s (set_bits (size - 1)) (size - 1) Hs Hp) as (os & -> & Hos).
  cbn beta iota. destruct (imt_from_parts (size - 1) x os) as (n & -> & Hpos & Hleaf & Hom).
  { by apply Forall2_length in Hos. }
  assert (Hlen : Z.of_nat (length (take (Z.to_nat size) ls)) = size) by (rewrite length_take; lia).
  exists n. split; [done|]. unfold frontier_of. rewrite Hlen. split_and!; [|done|..].
  - intros Hnil. rewrite Hnil in Hlen. cbn in Hlen. lia.
  - rewrite Hleaf. apply (tnode_prefix ls (Z.to_nat size) 0); [by apply Hs|rewrite span_0; lia|rewrite span_0; lia].
  - rewrite Hom. eapply Forall2_impl_elem; [exact Hos|]. intros l o Hl Ho.
    destruct (peak_range (size - 1) l) as (_ & Hlo & Hhi & _); [lia|done|]. pose proof (span_pos l).
    apply tnode_prefix; [done|nia|lia].
Qed.

(** The frontier of given leaves is unique. *)
Lemma frontier_of_unique n1 n2 ls : frontier_of n1 ls -> frontier_of n2 ls -> n1 = n2.
Proof.
  intros (_ & Hp1 & Hl1 & Ho1) (_ & Hp2 & Hl2 & Ho2). apply imt_ext; [congruence|congruence|].
  clear -Ho1 Ho2. unfold peaks_of in *. revert Ho2. generalize (ommers n2) as os2.
  induction Ho1 as [|l o ls' os Ho _ IH]; intros os2 Hr2; inversion Hr2; subst; [done|]. f_equal; [congruence|auto].
Qed.
Lemma represents_unique f1 f2 ls : represents f1 ls -> represents f2 ls -> f1 = f2.
Proof.
  unfold represents. intros Hhi Hr2. apply imt_value_inj.
  destruct (frontier_value f1) as [n1|] eqn:E1, (frontier_value f2) as [n2|] eqn:E2; [|..|done].
  - f_equal. by eapply frontier_of_unique.
  - subst ls. by destruct Hhi.
  - subst ls. by destruct Hr2.
Qed.

(** *** The carry combined with a batch holds what every later frontier needs *)

(** Both ends of a straddled node's children. *)
Lemma carry_children c e l i k :
  straddles c (S l) i -> eligible 0 e (S l) i -> k = 2 * i \/ k = 2 * i + 1 -> ~ straddles c l k ->
  (c <= k * span l /\ (k + 1) * span l <= e) \/ (Z.odd (c / span l) = true /\ k = peak c l).
Proof.
  intros Hst [_ He] Hk Hn. unfold straddles in *. rewrite span_S in *. pose proof (span_pos l) as Hp.
  destruct (decide (c <= k * span l)) as [Hle|Hgt]; [left; split; [done|]; destruct Hk; subst; nia|right].
  assert (Hend : (k + 1) * span l <= c) by lia. destruct Hk as [-> | ->]; [|nia].
  assert (Hdiv : c / span l = 2 * i + 1).
  { symmetry. apply (Z.div_unique_pos _ _ _ (c - (2 * i + 1) * span l)); nia. }
  unfold peak. rewrite Hdiv. split; [by rewrite Z.add_comm, Z.odd_add_mul_2|lia].
Qed.

(** A left sibling on the path of a position past [c] is a peak of [c], straddles
    [c] or starts after it. *)
Lemma ommer_cases c p l :
  0 <= c <= p -> l ∈ set_bits p ->
  (Z.odd (c / span l) = true /\ peak p l = peak c l) \/ straddles c l (peak p l) \/ c <= peak p l * span l.
Proof.
  intros Hc Hl. destruct (peak_range p l) as (_ & Hlo & Hhi & Hup); [lia|done|]. pose proof (span_pos l) as Hp.
  destruct (decide (c <= peak p l * span l)) as [|Hgt]; [by right; right|].
  destruct (decide (c < (peak p l + 1) * span l)) as [|Hge]; [right; left; split; lia|left].
  assert (Hdiv : c / span l = peak p l + 1).
  { symmetry. apply (Z.div_unique_pos _ _ _ (c - (peak p l + 1) * span l)); lia. }
  rewrite set_bits_bits in Hl. apply elem_of_bits in Hl as [_ Hodd]. unfold peak in *. rewrite Hdiv.
  by replace (p / span l - 1 + 1) with (p / span l) in * by lia.
Qed.

Lemma set_bits_intro c l : (l < 64)%nat -> Z.odd (c / span l) = true -> l ∈ set_bits c.
Proof. intros Hl Ho. rewrite set_bits_bits. apply elem_of_bits. split; [lia|done]. Qed.

(** What every frontier from the carry's size on reads. *)
Definition readable (ls : list H) (s : TreeSegment) (size : Z) : Prop :=
  sound (leaf_at ls 0) (nodes s) /\ is_Some (nodes s !! (0%nat, size - 1)) /\
  forall l, l ∈ set_bits (size - 1) -> is_Some (nodes s !! (l, peak (size - 1) l)).

Lemma exact_readable xs m size n :
  exact xs 0 DEPTH m -> 0 < size <= Z.of_nat (length xs) -> Z.of_nat (length xs) <= 2 ^ 32 ->
  readable xs (mkSegment 0 n m) size.
Proof.
  intros Hm Hsz Hlim. split_and!; cbn [nodes].
  - by eapply exact_sound.
  - eapply exact_present; [done|lia|rewrite span_0; lia|rewrite span_0; lia].
  - intros l Hl. destruct (peak_range (size - 1) l) as (_ & Hlo & Hhi & _); [lia|done|]. pose proof (span_pos l).
    assert (l < DEPTH)%nat by (eapply set_bits_depth; [|done]; lia).
    eapply exact_present; [done|lia|nia|lia].
Qed.

Lemma combined_readable ls xs ma mb size :
  let c := Z.of_nat (length ls) in
  let a := mkSegment 0 c ma in
  let b := mkSegment c (Z.of_nat (length xs)) mb in
  ls <> [] -> xs <> [] -> sound (leaf_at ls 0) ma -> (forall l, l ∈ set_bits c -> is_Some (ma !! (l, peak c l))) ->
  is_Some (ma !! (0%nat, c - 1)) -> (forall l, l ∈ set_bits (c - 1) -> is_Some (ma !! (l, peak (c - 1) l))) ->
  exact xs c DEPTH mb -> c + Z.of_nat (length xs) <= 2 ^ 32 -> c <= size <= c + Z.of_nat (length xs) ->
  readable (ls ++ xs) (combine a b) size.
Proof.
  cbn zeta. intros Hne Hxs Hsa Hpk Htip Hom Hb Hlim Hsz. set (c := Z.of_nat (length ls)) in *.
  assert (Hc : 0 < c) by (subst c; destruct ls; [done|cbn; lia]).
  assert (Hx : 0 < Z.of_nat (length xs)) by (destruct xs; [done|cbn; lia]).
  destruct (combine_spec (leaf_at (ls ++ xs) 0) (mkSegment 0 c ma) (mkSegment c (Z.of_nat (length xs)) mb))
    as (m & -> & Hs & Hseam & Hin & _); cbn [len start nodes] in *; [lia|lia|..].
  { intros l i x Hx'. eapply tnode_mono; [|by apply Hsa]. intros j y. apply leaf_at_app_l. }
  { eapply exact_sound; [exact Hb|]. intros i x. apply (leaf_at_app_r ls xs 0). }
  { intros l i k Hl Hst He Hk Hn. unfold end_ in *. cbn [start len] in *.
    destruct (carry_children _ _ _ _ _ Hst He Hk Hn) as [[Hlo Hhi]|[Hodd ->]].
    - right. eapply exact_present; [exact Hb|lia|lia|lia].
    - left. apply Hpk, set_bits_intro; [unfold DEPTH in Hl; lia|done]. }
  unfold end_ in *. cbn [start len] in *. replace (0 + c) with c in * by lia.
  split; [done|]. cbn [nodes]. destruct (decide (size = c)) as [->|Hgt]; [split; [auto|]; intros l Hl; auto|].
  split.
  - apply Hin. right. eapply exact_present; [exact Hb|lia|rewrite span_0; lia|rewrite span_0; lia].
  - intros l Hl. destruct (peak_range (size - 1) l) as (Hl64 & Hlo & Hhi & _); [lia|done|]. pose proof (span_pos l).
    assert (l < DEPTH)%nat by (eapply set_bits_depth; [|done]; lia).
    destruct (ommer_cases c (size - 1) l) as [[Hodd ->]|[Hst|Hst]]; [lia|done|..].
    + apply Hin. left. by apply Hpk, set_bits_intro.
    + apply Hseam; [lia|done|]. split; [nia|lia].
    + apply Hin. right. eapply exact_present; [exact Hb|lia|lia|lia].
Qed.

Lemma full_readable fr ls xs size :
  let c := Z.of_nat (length ls) in
  represents fr ls -> c + Z.of_nat (length xs) <= 2 ^ 32 -> 0 < size -> c <= size <= c + Z.of_nat (length xs) ->
  exists batch, lift xs c = Some batch /\ readable (ls ++ xs) (combine (carry_segment fr) batch) size.
Proof.
  cbn zeta. intros Hr Hlim Hpos Hsz. destruct (lift_spec xs (Z.of_nat (length ls))) as (mb & -> & Hb).
  eexists. split; [done|]. destruct (decide (ls = [])) as [->|Hne].
  { assert (frontier_value fr = None) as Hv.
    { unfold represents in Hr. destruct (frontier_value fr); [by destruct Hr|done]. }
    unfold carry_segment. rewrite Hv. cbn [length Z.of_nat] in *.
    change (readable xs (mkSegment 0 (Z.of_nat (length xs)) mb) size). apply exact_readable; [done|lia|lia]. }
  destruct (carry_segment_spec fr ls Hr Hne) as (ma & -> & Hsa & Hpk & Htip & Hom); [lia|].
  destruct (decide (xs = [])) as [->|Hxs]; [|by apply combined_readable].
  cbn [length Z.of_nat] in *. assert (size = Z.of_nat (length ls)) as -> by lia. rewrite app_nil_r.
  unfold combine, is_empty. cbn [len]. rewrite (proj2 (Z.eqb_neq _ _)) by lia. done.
Qed.

(** Appending leaves one after another. *)
Fixpoint append_all (fr : Frontier) (xs : list H) : option Frontier :=
  match xs with
  | [] => Some fr
  | x :: xs => let! fr := frontier_append fr x in append_all fr xs
  end.
Lemma append_all_represents fr ls xs :
  represents fr ls -> Z.of_nat (length ls) + Z.of_nat (length xs) <= 2 ^ 32 ->
  exists fr', append_all fr xs = Some fr' /\ represents fr' (ls ++ xs).
Proof.
  revert fr ls. induction xs as [|x xs IH]; intros fr ls Hr Hlim.
  { exists fr. by rewrite app_nil_r. }
  destruct (imt_append fr ls x Hr) as (fr1 & H1 & Hr1); [cbn in Hlim; lia|]. cbn. rewrite H1.
  destruct (IH fr1 (ls ++ [x]) Hr1) as (fr' & H2 & Hr2); [rewrite length_app; cbn in *; lia|].
  exists fr'. split; [done|]. by rewrite <- app_assoc in Hr2.
Qed.

Lemma pool_frontier_represents s ls size :
  0 < size <= Z.of_nat (length ls) -> Z.of_nat (length ls) <= 2 ^ 32 -> readable ls s size ->
  exists fr, pool_frontier s size = Some fr /\ represents fr (take (Z.to_nat size) ls).
Proof.
  intros Hsz Hlim (Hs & Hleaf & Hom). unfold pool_frontier. rewrite (proj2 (Z.eqb_neq size 0)) by lia.
  destruct (frontier_at_spec s ls size) as (n & -> & Hn); [done..|].
  destruct (imt_try_from n) as (fr & -> & Hv).
  { destruct Hn as (_ & -> & _). rewrite length_take. lia. }
  exists fr. split; [done|]. unfold represents. by rewrite Hv.
Qed.

Lemma represents_size fr ls : represents fr ls -> tree_size fr = Z.of_nat (length ls).
Proof.
  unfold represents. rewrite imt_size. destruct (frontier_value fr) as [n|]; [|by intros ->].
  intros (Hne & -> & _). lia.
Qed.

Lemma pool_frontier_spec fr ls xs size :
  represents fr ls -> Z.of_nat (length ls) + Z.of_nat (length xs) <= 2 ^ 32 ->
  Z.of_nat (length ls) <= size <= Z.of_nat (length ls) + Z.of_nat (length xs) ->
  exists batch fr', lift xs (tree_size fr) = Some batch /\
    append_all fr (take (Z.to_nat (size - tree_size fr)) xs) = Some fr' /\
    pool_frontier (combine (carry_segment fr) batch) size = Some fr'.
Proof.
  intros Hr Hlim Hsz. rewrite (represents_size fr ls Hr).
  set (n := Z.to_nat (size - Z.of_nat (length ls))).
  destruct (append_all_represents fr ls (take n xs) Hr) as (fr' & Happ & Hr').
  { rewrite length_take. lia. }
  destruct (decide (size = 0)) as [->|Hne].
  { assert (ls = []) as -> by (apply length_zero_iff_nil; lia). destruct (lift_spec xs 0) as (m & Hl & _).
    eexists _, fr'. split_and!; [exact Hl|done|]. cbn. f_equal. subst n. rewrite Z.sub_diag in Hr'. cbn in Hr'.
    eapply represents_unique; [|exact Hr']. unfold represents. by rewrite imt_empty. }
  destruct (full_readable fr ls xs size Hr Hlim ltac:(lia) Hsz) as (batch & Hl & Hread).
  destruct (pool_frontier_represents (combine (carry_segment fr) batch) (ls ++ xs) size) as (fr2 & Hf2 & Hr2);
    [rewrite length_app; lia|rewrite length_app; lia|exact Hread|].
  exists batch, fr'. split_and!; [done|done|]. rewrite Hf2. f_equal. eapply represents_unique; [exact Hr2|].
  rewrite take_app_ge by lia. by replace (Z.to_nat size - length ls)%nat with n by (subst n; lia).
Qed.

(** The frontier looked up is the frontier appended.  Carry a
    frontier over from earlier blocks, lift a batch of leaves at its end and
    combine: for every size from the carry's to the batch's end, the look-up finds
    all its nodes and yields exactly the frontier that appending the batch's
    leaves one by one up to that size yields. *)
Theorem pool_frontier_sequential fr ls xs size :
  represents fr ls -> Z.of_nat (length ls) + Z.of_nat (length xs) <= 2 ^ 32 ->
  Z.of_nat (length ls) <= size <= Z.of_nat (length ls) + Z.of_nat (length xs) ->
  exists batch fr', lift xs (tree_size fr) = Some batch /\
    append_all fr (take (Z.to_nat (size - tree_size fr)) xs) = Some fr' /\
    pool_frontier (combine (carry_segment fr) batch) size = Some fr'.
Proof. apply pool_frontier_spec. Qed.
End Frontier.
End TreeSegment.

(** ** A binary counter keeps the promise *)
Module Counter.
Section Counter.
Context {H : Type} (hash : nat -> H -> H -> H).

Record Spine := mkSpine { s_position : Z; s_leaf : H; s_ommers : list H }.
Definition spine_from_parts (p : Z) (x : H) (os : list H) : option Spine :=
  if (length os =? length (set_bits p))%nat then Some (mkSpine p x os) else None.
Definition spine_append (f : option Spine) (x : H) : option (option Spine) :=
  match f with
  | None => Some (Some (mkSpine 0 x []))
  | Some n =>
      if 2 ^ 32 <=? s_position n + 1 then None
      else Some (Some (mkSpine (s_position n + 1) x
             (peaks_loop hash (zip (set_bits (s_position n)) (s_ommers n)) (0%nat, s_leaf n)).*2))
  end.
Definition counter : Imt H :=
  {| NonEmptyFrontier := Spine; position := s_position; leaf := s_leaf; ommers := s_ommers;
     from_parts := spine_from_parts;
     past_addrs p := (fun l => (l, peak p l)) <$> set_bits p;
     Frontier := option Spine; frontier_empty := None; frontier_value f := f;
     frontier_append := spine_append;
     tree_size f := match f with None => 0 | Some n => s_position n + 1 end;
     frontier_try_from n := if 2 ^ 32 <=? s_position n then None else Some (Some n) |}.
Local Existing Instance counter.

Lemma append_represents (f : option Spine) ls x :
  represents hash f ls -> Z.of_nat (length ls) < 2 ^ 32 ->
  exists f', spine_append f x = Some f' /\ represents hash f' (ls ++ [x]).
Proof.
  unfold represents. cbn [frontier_value counter]. destruct f as [n|]; cbn [spine_append].
  2: { intros -> _. eexists. split; [done|]. split_and!; [done|done|done|]. constructor. }
  intros (Hne & Hp & Hl & Ho) Hlim. cbn [position leaf ommers counter] in *.
  set (c := Z.of_nat (length ls)) in *. assert (Hc : 0 < c) by (subst c; destruct ls; [done|cbn; lia]).
  rewrite Hp. replace (c - 1 + 1) with c by lia. destruct (Z.leb_spec (2 ^ 32) c); [lia|].
  destruct (peaks_carry hash (leaf_at ls 0) c 64 0 (c - 1) (s_leaf n) (s_ommers n)) as (vs & Hpeaks & Hvs);
    [done|lia|rewrite span_0; lia|change (span 64) with (2 ^ 64); lia|done|done|].
  eexists. split; [done|]. unfold frontier_of. cbn [position leaf ommers counter s_position s_leaf s_ommers].
  rewrite !set_bits_bits. rewrite Hpeaks, snd_zip by by apply Forall2_length in Hvs as ->.
  assert (Hlen : Z.of_nat (length (ls ++ [x])) - 1 = c) by (rewrite length_app; cbn; lia).
  rewrite Hlen. split_and!; [by destruct ls|done|..].
  - rewrite leaf_at_app. destruct (leaf_at ls 0 c) eqn:Hx.
    + assert (is_Some (leaf_at ls 0 c)) as ?%leaf_at_Some by by rewrite Hx. lia.
    + fold c. unfold leaf_at. by rewrite Z.leb_refl, Z.sub_diag.
  - eapply Forall2_impl; [exact Hvs|]. intros l v. apply tnode_mono. intros j y. apply leaf_at_app_l.
Qed.

Lemma counter_laws : ImtLaws hash.
Proof.
  split; cbn [past_addrs from_parts frontier_value frontier_empty tree_size frontier_try_from frontier_append
              position leaf ommers counter].
  - done.
  - intros p x os Hos. unfold spine_from_parts. rewrite Hos, Nat.eqb_refl. by eexists.
  - intros [] []; cbn. congruence.
  - done.
  - done.
  - by intros [].
  - intros n Hn. destruct (Z.leb_spec (2 ^ 32) (s_position n)); [lia|]. by eexists.
  - apply append_represents.
  - intros [n|] ls x Hr Hlen; unfold spine_append.
    + destruct Hr as (_ & Hp & _). cbn [position counter] in Hp.
      destruct (Z.leb_spec (2 ^ 32) (s_position n + 1)); [done|lia].
    + change (ls = []) in Hr. subst ls. change (Z.of_nat (length [])) with 0 in Hlen. lia.
Qed.
End Counter.
End Counter.

(** ** Trees of leaves, hashed to themselves *)
Module Example.
Inductive Tree := Leaf (n : Z) | Node (level : nat) (a b : Tree).
Local Existing Instance Counter.counter.

Lemma tree_laws : @ImtLaws Tree Node (Counter.counter Node).
Proof. apply Counter.counter_laws. Qed.

Definition five : list Tree := [Leaf 1; Leaf 2; Leaf 3; Leaf 4; Leaf 5].
Definition batch : list Tree := [Leaf 6; Leaf 7; Leaf 8; Leaf 9].
Definition carried : option (@Counter.Spine Tree) :=
  default None (@append_all Tree (Counter.counter Node) None five).

Lemma carried_represents : @represents Tree Node (Counter.counter Node) carried five.
Proof. vm_compute. repeat constructor; discriminate. Qed.

(** Five leaves carried, a batch of four: the frontier of eight. *)
Lemma pool_frontier_sequential_witness :
  exists s fr, lift Node batch 5 = Some s /\
    @append_all Tree (Counter.counter Node) carried (take 3 batch) = Some fr /\
    @pool_frontier Tree (Counter.counter Node) (combine Node (@carry_segment Tree Node (Counter.counter Node) carried) s) 8 =
      Some fr.
Proof.
  exact (@pool_frontier_sequential Tree Node (Counter.counter Node) tree_laws carried five batch 8
    carried_represents ltac:(discriminate) ltac:(split; discriminate)).
Defined.
End Example.
End TreeSegment.
