(* ===== verification/TreeState.v ===== *)
(** * The [tree_state] index
    ([packages/zaino-indexes/src/indexes/tree_state/{sync,codec,pools}.rs])

    At every height, the note-commitment frontier of each shielded pool.  The
    index is the ordered monoid of the segment algebra, three pools side by side;
    it is shown to keep the laws of [OrderedMonoidCarry], so the parallel bridge
    stores what appending commitments one by one would.  The pools' node types,
    Merkle hashes, canonical decodings and frontier serialisation belong to other
    crates and are parameters. *)

From S2P Require Import Prelude Primitives Types Persistence Codec Dag Engine Bridge BridgeCorrect TreeSegment.
From stdpp Require Import base gmap list strings sets relations sorting.
From Stdlib Require Import ZArith Lia.
Open Scope Z_scope.

Module TreeState.
Import Kv.
Import Layout.
Import Codec.
Import Bridge.
Import BridgeCorrect.
Import TreeSegment.

Inductive Pool := Sapling | Orchard | Ironwood.
Inductive TreeStateError := NonCanonicalCommitment (pool : Pool) | PoolFull (pool : Pool).

(** [TreeStateCtx]; a note commitment is its 32 bytes. *)
Record TreeStateCtx := mkCtx {
  ctx_height : Z;
  ctx_hash : list Z;
  sapling_cmus : list (list Z);
  orchard_cmxs : list (list Z);
  ironwood_cmxs : list (list Z) }.

Record TreeMeasure := mkMeasure { m_sapling : Z; m_orchard : Z; m_ironwood : Z }.

(** ** One pool *)
Section Pool.
Context {H : Type} (hash : nat -> H -> H -> H) `{!Imt H} (convert : list Z -> option H).

Fixpoint leaves_of (pool : Pool) (commitments : list (list Z)) : result (list H) TreeStateError :=
  match commitments with
  | [] => Ok []
  | c :: commitments =>
      let? l := ok_or (convert c) (NonCanonicalCommitment pool) in
      let? ls := leaves_of pool commitments in
      Ok (l :: ls)
  end.

Fixpoint append_pool (pool : Pool) (prior : Frontier) (leaves : list H) : result Frontier TreeStateError :=
  match leaves with
  | [] => Ok prior
  | leaf :: leaves =>
      match frontier_append prior leaf with
      | None => Err (PoolFull pool)
      | Some frontier => append_pool pool frontier leaves
      end
  end.

(** [write_pool], [read_pool]; the frontier's bytes are [zcash_primitives]'s. *)
Context (write_nonempty_frontier_v1 : NonEmptyFrontier -> list Z).
Context (read_nonempty_frontier_v1 : list Z -> option (NonEmptyFrontier * list Z)).

Definition write_pool (frontier : Frontier) : list Z :=
  to_be_bytes 8 (tree_size frontier) ++
  match frontier_value frontier with
  | Some nonempty => write_nonempty_frontier_v1 nonempty
  | None => []
  end.
Definition read_be_u64 (rest : list Z) : result (Z * list Z) DecodeError :=
  if blen rest <? 8 then Err Invalid else Ok (from_be_bytes (take 8 rest), drop 8 rest).
Definition read_pool (rest : list Z) : result (Frontier * list Z) DecodeError :=
  let? (size, rest) := read_be_u64 rest in
  if size =? 0 then Ok (frontier_empty, rest)
  else
    let? (nonempty, rest) := ok_or (read_nonempty_frontier_v1 rest) Invalid in
    if negb (position nonempty + 1 =? size) then Err Invalid
    else
      let? frontier := ok_or (frontier_try_from nonempty) Invalid in
      Ok (frontier, rest).
End Pool.

(** ** The laws, pool by pool *)
Section PoolLaws.
Context {H : Type} (hash : nat -> H -> H -> H) `{!Imt H} `{!ImtLaws hash}.
Context (convert : list Z -> option H) (pool : Pool).
Notation leaves := (leaves_of convert pool).

Lemma leaves_of_app cs1 cs2 :
  leaves (cs1 ++ cs2) = let? xs1 := leaves cs1 in let? xs2 := leaves cs2 in Ok (xs1 ++ xs2).
Proof.
  induction cs1 as [|c cs1 IH]; cbn; [by destruct (leaves cs2)|].
  destruct (convert c); cbn; [|done]. rewrite IH. destruct (leaves cs1); [|done]. by destruct (leaves cs2).
Qed.
Lemma leaves_of_length cs xs : leaves cs = Ok xs -> length xs = length cs.
Proof.
  revert xs. induction cs as [|c cs IH]; cbn; [by intros xs [= <-]|]. intros xs.
  destruct (convert c); cbn; [|done]. destruct (leaves cs); [|done]. intros [= <-]. cbn. by rewrite IH.
Qed.

Lemma append_pool_app (fr : Frontier) xs ys :
  append_pool pool fr (xs ++ ys) = let? fr1 := append_pool pool fr xs in append_pool pool fr1 ys.
Proof.
  revert fr. induction xs as [|x xs IH]; intros fr; [done|]. cbn. destruct (frontier_append fr x); [apply IH|done].
Qed.

Definition pool_valid (fr : Frontier) : Prop :=
  exists ls, represents hash fr ls /\ Z.of_nat (length ls) <= 2 ^ 32.

Lemma append_pool_ok fr ls xs fr' :
  represents hash fr ls -> Z.of_nat (length ls) <= 2 ^ 32 -> append_pool pool fr xs = Ok fr' ->
  append_all fr xs = Some fr' /\ represents hash fr' (ls ++ xs) /\
  Z.of_nat (length ls) + Z.of_nat (length xs) <= 2 ^ 32.
Proof.
  revert fr ls. induction xs as [|x xs IH]; intros fr ls Hr Hl; cbn [append_pool append_all].
  { intros [= <-]. rewrite app_nil_r. split_and!; [done|done|cbn [length]; lia]. }
  destruct (frontier_append fr x) as [fr1|] eqn:Hx; [|done]. intros Ha.
  destruct (decide (Z.of_nat (length ls) = 2 ^ 32)) as [Hfull|Hroom].
  { by rewrite (imt_append_full hash fr ls x Hr Hfull) in Hx. }
  destruct (imt_append hash fr ls x Hr) as (f & Hf & Hr1); [lia|]. rewrite Hx in Hf. injection Hf as <-.
  destruct (IH fr1 (ls ++ [x]) Hr1) as (Hp1 & Hp2 & Hp3); [rewrite length_app; cbn [length]; lia|done|].
  rewrite <- app_assoc in Hp2. split_and!; [done|done|]. rewrite length_app in Hp3. cbn [length] in *. lia.
Qed.

Lemma append_pool_valid fr xs fr' :
  pool_valid fr -> append_pool pool fr xs = Ok fr' ->
  pool_valid fr' /\ tree_size fr' = tree_size fr + Z.of_nat (length xs) /\ 0 <= tree_size fr /\ tree_size fr' <= 2 ^ 32.
Proof.
  intros (ls & Hr & Hl) Ha. destruct (append_pool_ok fr ls xs fr' Hr Hl Ha) as (_ & Hr' & Hlim).
  assert (length (ls ++ xs) = (length ls + length xs)%nat) as Hlen by apply length_app.
  rewrite (represents_size hash fr ls Hr), (represents_size hash fr' _ Hr'), Hlen.
  split_and!; [|lia|lia|lia]. exists (ls ++ xs). split; [done|]. lia.
Qed.

(** A segment of the leaves of these commitments, from a start. *)
Definition pool_summary (m : Z) (cs : list (list Z)) (s : @TreeSegment H) : Prop :=
  exists xs, leaves cs = Ok xs /\ (lift hash xs m = Some s \/ xs = [] /\ len s = 0).

Lemma pool_summary_lift m cs xs : leaves cs = Ok xs -> exists s, lift hash xs m = Some s /\ pool_summary m cs s.
Proof.
  intros Hx. destruct (lift_spec hash xs m) as (nodes & Hl & _). eexists. split; [exact Hl|].
  exists xs. split; [done|by left].
Qed.
Lemma pool_summary_unit m : pool_summary m [] empty.
Proof. exists []. split; [done|]. by right. Qed.

Lemma combine_empty_l (a b : @TreeSegment H) : len a = 0 -> combine hash a b = b.
Proof. intros Ha. unfold combine, is_empty. by rewrite Ha. Qed.
Lemma combine_empty_r (a b : @TreeSegment H) : len a <> 0 -> len b = 0 -> combine hash a b = a.
Proof. intros Ha Hb. unfold combine, is_empty. by rewrite (proj2 (Z.eqb_neq _ _) Ha), Hb. Qed.
Lemma lift_len xs m (s : @TreeSegment H) : lift hash xs m = Some s -> len s = Z.of_nat (length xs).
Proof. intros Hl. destruct (lift_spec hash xs m) as (? & Hl' & _). rewrite Hl in Hl'. by injection Hl' as ->. Qed.

Lemma pool_summary_join m m' cs1 cs2 a b :
  m' = m + Z.of_nat (length cs1) -> pool_summary m cs1 a -> pool_summary m' cs2 b ->
  pool_summary m (cs1 ++ cs2) (combine hash a b).
Proof.
  intros -> (xs & Hx & Ha) (ys & Hy & Hb). exists (xs ++ ys).
  split; [by rewrite leaves_of_app, Hx, Hy|]. pose proof (leaves_of_length _ _ Hx) as Hlen. rewrite <- Hlen in Hb.
  destruct Ha as [Ha|[-> Ha]].
  - destruct Hb as [Hb|[-> Hb]].
    + left. destruct (combine_lift hash xs ys m) as (a' & b' & Ha' & Hb' & ->). congruence.
    + rewrite app_nil_r. destruct (decide (len a = 0)) as [Hz|Hnz].
      * right. pose proof (lift_len _ _ _ Ha). split; [apply length_zero_iff_nil; lia|]. by rewrite combine_empty_l.
      * left. by rewrite combine_empty_r.
  - rewrite combine_empty_l by done. cbn [app length] in *. by rewrite Z.add_0_r in Hb.
Qed.

Lemma pool_project fr cs1 cs2 xs1 xs2 fr1 fr2 s :
  pool_valid fr -> leaves cs1 = Ok xs1 -> leaves cs2 = Ok xs2 ->
  append_pool pool fr xs1 = Ok fr1 -> append_pool pool fr1 xs2 = Ok fr2 ->
  pool_summary (tree_size fr) (cs1 ++ cs2) s ->
  pool_frontier (combine hash (carry_segment hash fr) s) (tree_size fr1) = Some fr1.
Proof.
  intros (ls & Hr & Hl) Hx1 Hx2 Ha1 Ha2 (xs & Hx & Hs).
  rewrite leaves_of_app, Hx1, Hx2 in Hx. injection Hx as <-.
  destruct (append_pool_ok fr ls xs1 fr1 Hr Hl Ha1) as (Happ & Hr1 & Hl1).
  destruct (append_pool_ok fr1 (ls ++ xs1) xs2 fr2 Hr1) as (_ & _ & Hl2); [rewrite length_app; lia|done|].
  assert (length (ls ++ xs1) = (length ls + length xs1)%nat) as Hlen1 by apply length_app.
  assert (length (xs1 ++ xs2) = (length xs1 + length xs2)%nat) as Hlen2 by apply length_app.
  pose proof (represents_size hash fr ls Hr) as Hsz. pose proof (represents_size hash fr1 _ Hr1) as Hsz1.
  destruct (pool_frontier_spec hash fr ls (xs1 ++ xs2) (tree_size fr1) Hr) as (batch & fr' & Hb & Ha & Hp); [lia|lia|].
  rewrite Hsz1, Hlen1, Hsz in Ha. replace (Z.to_nat (_ - _)) with (length xs1) in Ha by lia.
  rewrite take_app_length in Ha. rewrite Happ in Ha. injection Ha as <-. destruct Hs as [Hs|[Hnil Hs]].
  { congruence. }
  pose proof (lift_len _ _ _ Hb) as Hbl. rewrite Hnil in Hbl. change (Z.of_nat (length [])) with 0 in Hbl.
  destruct (decide (len (carry_segment hash fr) = 0)) as [Hz|Hnz].
  - apply app_nil in Hnil as [-> ->]. injection Ha1 as <-. rewrite combine_empty_l in Hp |- * by done.
    assert (tree_size fr = 0) as Hz0; [|by rewrite Hz0 in Hp |- *].
    rewrite Hsz. destruct (decide (ls = [])) as [->|Hne]; [done|].
    destruct (carry_segment_spec hash fr ls Hr Hne Hl) as (m & Hc & _). rewrite Hc in Hz. exact Hz.
  - rewrite combine_empty_r in Hp |- * by done. done.
Qed.
End PoolLaws.

(** ** The index *)
Section Index.
Context {HS HO : Type} (hash_s : nat -> HS -> HS -> HS) (hash_o : nat -> HO -> HO -> HO).
Context `{IS : !Imt HS} `{IO : !Imt HO}.
Context (sapling_leaf : list Z -> option HS) (pallas_leaf : list Z -> option HO).

(** [pools.rs] *)
Definition orchard_leaf (cmx : list Z) : option HO := pallas_leaf cmx.
Definition ironwood_leaf (cmx : list Z) : option HO := pallas_leaf cmx.

Record TreeStateValue := mkValue {
  v_sapling : @Frontier HS IS; v_orchard : @Frontier HO IO; v_ironwood : @Frontier HO IO }.
Record TreeStateEntry := mkEntry { e_height : Z; e_value : TreeStateValue }.
Record TreeStateSegment := mkTreeSegment {
  s_sapling : @TreeSegment HS; s_orchard : @TreeSegment HO; s_ironwood : @TreeSegment HO }.

(** *** On disk *)
Context (write_s : @NonEmptyFrontier HS IS -> list Z) (write_o : @NonEmptyFrontier HO IO -> list Z).
Context (read_s : list Z -> option (@NonEmptyFrontier HS IS * list Z)).
Context (read_o : list Z -> option (@NonEmptyFrontier HO IO * list Z)).
(** [fingerprint_samples]: its leaves come from the pools' decodings. *)
Context (samples : list (Z * TreeStateValue)).

Definition value_encode (v : TreeStateValue) : list Z :=
  write_pool write_s (v_sapling v) ++ write_pool write_o (v_orchard v) ++ write_pool write_o (v_ironwood v).
Definition value_decode (bytes : list Z) : result TreeStateValue DecodeError :=
  let? (sapling, rest) := read_pool read_s bytes in
  let? (orchard, rest) := read_pool read_o rest in
  let? (ironwood, rest) := read_pool read_o rest in
  match rest with
  | [] => Ok (mkValue sapling orchard ironwood)
  | _ => Err Invalid
  end.
Definition PersistentTreeStateValue : PersistentRecord TreeStateValue :=
  mkRecord TreeStateValue TreeStateValue (fun v => v) Ok (fun _ => true) value_encode value_decode.
Definition TreeStateIndex : EntryCodec :=
  mkCodec Z TreeStateValue HeightKey PersistentTreeStateValue WalkOrdered samples.

(** *** [sync.rs] *)
Definition tree_state_def : IndexDef :=
  mkIndexDef "tree_state" (Dag.SelfCumulative Dag.OrderedMonoid) Dag.Append [] Dag.NoAccess.

Definition extract (ctx : TreeStateCtx) (prior : TreeStateValue) : result TreeStateEntry TreeStateError :=
  let? ls := leaves_of sapling_leaf Sapling (sapling_cmus ctx) in
  let? sapling := append_pool Sapling (v_sapling prior) ls in
  let? lo := leaves_of orchard_leaf Orchard (orchard_cmxs ctx) in
  let? orchard := append_pool Orchard (v_orchard prior) lo in
  let? li := leaves_of ironwood_leaf Ironwood (ironwood_cmxs ctx) in
  let? ironwood := append_pool Ironwood (v_ironwood prior) li in
  Ok (mkEntry (ctx_height ctx) (mkValue sapling orchard ironwood)).

Definition tree_initial_carry : TreeStateValue := mkValue frontier_empty frontier_empty frontier_empty.
Definition tree_append : @CumulativeAppend TreeStateCtx TreeStateIndex TreeStateEntry TreeStateError :=
  @mkCumulativeAppend TreeStateCtx TreeStateIndex TreeStateEntry TreeStateError
    extract tree_initial_carry e_value.

Definition count (l : list (list Z)) : Z := Z.of_nat (length l).
Definition tree_measure_of (ctx : TreeStateCtx) : TreeMeasure :=
  mkMeasure (count (sapling_cmus ctx)) (count (orchard_cmxs ctx)) (count (ironwood_cmxs ctx)).
Definition tree_measure_add (a b : TreeMeasure) : option TreeMeasure :=
  let! s := checked_add 64 (m_sapling a) (m_sapling b) in
  let! o := checked_add 64 (m_orchard a) (m_orchard b) in
  let! i := checked_add 64 (m_ironwood a) (m_ironwood b) in
  Some (mkMeasure s o i).
Definition tree_carry_measure (carry : TreeStateValue) : TreeMeasure :=
  mkMeasure (tree_size (v_sapling carry)) (tree_size (v_orchard carry)) (tree_size (v_ironwood carry)).
Definition tree_lift (ctx : TreeStateCtx) (start : TreeMeasure)
    : option (result TreeStateSegment TreeStateError) :=
  match (let? ls := leaves_of sapling_leaf Sapling (sapling_cmus ctx) in
         let? lo := leaves_of orchard_leaf Orchard (orchard_cmxs ctx) in
         let? li := leaves_of ironwood_leaf Ironwood (ironwood_cmxs ctx) in
         Ok (ls, lo, li)) with
  | Err x => Some (Err x)
  | Ok (ls, lo, li) =>
      let! s := lift hash_s ls (m_sapling start) in
      let! o := lift hash_o lo (m_orchard start) in
      let! i := lift hash_o li (m_ironwood start) in
      Some (Ok (mkTreeSegment s o i))
  end.
Definition tree_carry_segment (carry : TreeStateValue) : TreeStateSegment :=
  mkTreeSegment (carry_segment hash_s (v_sapling carry)) (carry_segment hash_o (v_orchard carry))
    (carry_segment hash_o (v_ironwood carry)).
Definition tree_identity : TreeStateSegment := mkTreeSegment empty empty empty.
Definition tree_combine (a b : TreeStateSegment) : TreeStateSegment :=
  mkTreeSegment (combine hash_s (s_sapling a) (s_sapling b)) (combine hash_o (s_orchard a) (s_orchard b))
    (combine hash_o (s_ironwood a) (s_ironwood b)).
Definition tree_project (full : TreeStateSegment) (at_ : TreeMeasure) : option TreeStateValue :=
  let! s := pool_frontier (s_sapling full) (m_sapling at_) in
  let! o := pool_frontier (s_orchard full) (m_orchard at_) in
  let! i := pool_frontier (s_ironwood full) (m_ironwood at_) in
  Some (mkValue s o i).

Definition tree_monoid : @OrderedMonoidCarry TreeStateCtx TreeStateIndex TreeStateError :=
  @mkOrderedMonoid TreeStateCtx TreeStateIndex TreeStateError TreeMeasure tree_measure_of tree_measure_add
    tree_carry_measure TreeStateSegment tree_lift tree_carry_segment tree_identity tree_combine tree_project
    ctx_height.

Definition tree_schema : Schema TreeStateIndex (list TreeStateEntry) :=
  mkSchema TreeStateIndex (list TreeStateEntry) (fmap (fun e => (e_height e, e_value e)))
    (fmap (fun kv => mkEntry kv.1 kv.2)).
(** ** The index keeps the ordered-monoid laws *)
Context `{!ImtLaws hash_s} `{!ImtLaws hash_o}.

Definition tree_valid (v : TreeStateValue) : Prop :=
  pool_valid hash_s (v_sapling v) /\ pool_valid hash_o (v_orchard v) /\ pool_valid hash_o (v_ironwood v).

(** The commitments of a run of blocks. *)
Definition sapling_run (l : list TreeStateCtx) : list (list Z) := mjoin (sapling_cmus <$> l).
Definition orchard_run (l : list TreeStateCtx) : list (list Z) := mjoin (orchard_cmxs <$> l).
Definition ironwood_run (l : list TreeStateCtx) : list (list Z) := mjoin (ironwood_cmxs <$> l).

Definition tree_summary (m : TreeMeasure) (l : list TreeStateCtx) (s : TreeStateSegment) : Prop :=
  pool_summary hash_s sapling_leaf Sapling (m_sapling m) (sapling_run l) (s_sapling s) /\
  pool_summary hash_o orchard_leaf Orchard (m_orchard m) (orchard_run l) (s_orchard s) /\
  pool_summary hash_o ironwood_leaf Ironwood (m_ironwood m) (ironwood_run l) (s_ironwood s).

Lemma run_app {A} (f : TreeStateCtx -> list A) l1 l2 : mjoin (f <$> (l1 ++ l2)) = mjoin (f <$> l1) ++ mjoin (f <$> l2).
Proof. rewrite fmap_app. apply join_app. Qed.
Lemma run_one {A} (f : TreeStateCtx -> list A) c : mjoin (f <$> [c]) = f c.
Proof. cbn. apply app_nil_r. Qed.

(** What one extraction did to each pool. *)
Definition pool_step {H} `{!Imt H} (convert : list Z -> option H) (pool : Pool) (cs : list (list Z))
    (fr fr' : Frontier) : Prop :=
  exists xs, leaves_of convert pool cs = Ok xs /\ append_pool pool fr xs = Ok fr'.
Definition tree_step (l : list TreeStateCtx) (v v' : TreeStateValue) : Prop :=
  pool_step sapling_leaf Sapling (sapling_run l) (v_sapling v) (v_sapling v') /\
  pool_step orchard_leaf Orchard (orchard_run l) (v_orchard v) (v_orchard v') /\
  pool_step ironwood_leaf Ironwood (ironwood_run l) (v_ironwood v) (v_ironwood v').

Lemma pool_step_app {H} `{!Imt H} (convert : list Z -> option H) pool cs1 cs2 fr fr1 fr2 :
  pool_step convert pool cs1 fr fr1 -> pool_step convert pool cs2 fr1 fr2 ->
  pool_step convert pool (cs1 ++ cs2) fr fr2.
Proof.
  intros (xs1 & Hx1 & Ha1) (xs2 & Hx2 & Ha2). exists (xs1 ++ xs2).
  by rewrite leaves_of_app, append_pool_app, Hx1, Hx2, Ha1.
Qed.
Lemma pool_step_valid {H} (hash : nat -> H -> H -> H) `{!Imt H} `{!ImtLaws hash} (convert : list Z -> option H) pool cs fr fr' :
  pool_valid hash fr -> pool_step convert pool cs fr fr' ->
  pool_valid hash fr' /\ checked_add 64 (tree_size fr) (count cs) = Some (tree_size fr').
Proof.
  intros Hv (xs & Hx & Ha). destruct (append_pool_valid hash pool fr xs fr' Hv Ha) as (Hv' & Hsz & H0 & Hlim).
  split; [done|]. unfold checked_add, count. rewrite <- (leaves_of_length _ _ _ _ Hx), <- Hsz.
  destruct (Z.ltb_spec (tree_size fr') (2 ^ 64)); [done|lia].
Qed.

Lemma extract_step ctx v d : extract ctx v = Ok d -> tree_step [ctx] v (e_value d) /\ e_height d = ctx_height ctx.
Proof.
  unfold extract. destruct (leaves_of sapling_leaf Sapling (sapling_cmus ctx)) as [ls|] eqn:H1; [|done].
  destruct (append_pool Sapling (v_sapling v) ls) as [fs|] eqn:H2; [|done].
  destruct (leaves_of orchard_leaf Orchard (orchard_cmxs ctx)) as [lo|] eqn:H3; [|done].
  destruct (append_pool Orchard (v_orchard v) lo) as [fo|] eqn:H4; [|done].
  destruct (leaves_of ironwood_leaf Ironwood (ironwood_cmxs ctx)) as [li|] eqn:H5; [|done].
  destruct (append_pool Ironwood (v_ironwood v) li) as [fi|] eqn:H6; [|done]. intros [= <-].
  unfold tree_step, sapling_run, orchard_run, ironwood_run. rewrite !run_one. split; [|done].
  split_and!; eexists; by split.
Qed.

Lemma tree_step_app l1 l2 v v1 v2 : tree_step l1 v v1 -> tree_step l2 v1 v2 -> tree_step (l1 ++ l2) v v2.
Proof.
  unfold tree_step, sapling_run, orchard_run, ironwood_run. rewrite !run_app.
  intros (? & ? & ?) (? & ? & ?). split_and!; by eapply pool_step_app.
Qed.
Lemma tree_step_nil v : tree_step [] v v.
Proof. split_and!; by exists []. Qed.

Lemma series_step v l ds v' : series TreeStateIndex tree_append v l = Ok (ds, v') -> tree_step l v v'.
Proof.
  revert v ds. induction l as [|ctx l IH]; intros v ds; cbn [series]; [intros [= <- <-]; apply tree_step_nil|].
  destruct (ca_extract TreeStateIndex tree_append ctx v) as [d|] eqn:Hd; [|done].
  destruct (series _ _ (carry TreeStateIndex tree_append d) l) as [[ds' v1]|] eqn:Hs; [|done]. intros [= <- <-].
  apply (tree_step_app [ctx] l v (e_value d)); [by apply extract_step|]. by eapply IH.
Qed.

Lemma tree_step_valid l v v' :
  tree_valid v -> tree_step l v v' -> tree_valid v'.
Proof.
  intros (Hs & Ho & Hi) (Hs' & Ho' & Hi'). split_and!;
    [exact (proj1 (pool_step_valid hash_s _ _ _ _ _ Hs Hs'))|exact (proj1 (pool_step_valid hash_o _ _ _ _ _ Ho Ho'))|
     exact (proj1 (pool_step_valid hash_o _ _ _ _ _ Hi Hi'))].
Qed.

Lemma advance_counts m l m' :
  advance TreeStateIndex tree_monoid m l = Some m' ->
  m_sapling m' = m_sapling m + count (sapling_run l) /\ m_orchard m' = m_orchard m + count (orchard_run l) /\
  m_ironwood m' = m_ironwood m + count (ironwood_run l).
Proof.
  revert m. induction l as [|ctx l IH]; intros m; cbn [advance]; [intros [= <-]; unfold count; cbn; lia|].
  cbn [measure_add tree_monoid measure_of]. destruct (tree_measure_add m _) as [m1|] eqn:Hm; [|done]. intros Ha.
  destruct (IH m1 Ha) as (H1 & H2 & H3). revert Hm. unfold tree_measure_add, checked_add.
  do 3 (destruct (_ <? _); [|done]). intros [= <-].
  cbn [m_sapling m_orchard m_ironwood tree_measure_of] in *. change (ctx :: l) with ([ctx] ++ l).
  unfold count, sapling_run, orchard_run, ironwood_run in *. rewrite !run_app, !run_one, !length_app. lia.
Qed.

Global Instance tree_state_laws :
  OrderedMonoidLaws TreeStateIndex tree_append tree_schema tree_monoid tree_valid tree_summary.
Proof.
  split; cbn [ca_extract carry tree_append carry_measure measure_add measure_of om_lift om_identity om_combine
              carry_segment project key_of tree_monoid Segment Measure].
  - intros v ctx d Hv [Hst _]%extract_step. by eapply tree_step_valid.
  - intros v ctx d (Hs & Ho & Hi) [(Hss & Hso & Hsi) _]%extract_step.
    unfold sapling_run, orchard_run, ironwood_run in *. rewrite !run_one in *.
    unfold tree_measure_add, tree_measure_of, tree_carry_measure. cbn [m_sapling m_orchard m_ironwood].
    rewrite (proj2 (pool_step_valid hash_s _ _ _ _ _ Hs Hss)), (proj2 (pool_step_valid hash_o _ _ _ _ _ Ho Hso)).
    by rewrite (proj2 (pool_step_valid hash_o _ _ _ _ _ Hi Hsi)).
  - intros v ctx d _ [((ls & Hls & _) & (lo & Hlo & _) & (li & Hli & _)) _]%extract_step.
    unfold sapling_run, orchard_run, ironwood_run, tree_summary in *. rewrite !run_one in *.
    unfold tree_lift. rewrite Hls, Hlo, Hli. unfold sapling_run, orchard_run, ironwood_run. rewrite !run_one.
    destruct (pool_summary_lift hash_s _ _ (m_sapling (tree_carry_measure v)) _ _ Hls) as (s & -> & Hs).
    destruct (pool_summary_lift hash_o _ _ (m_orchard (tree_carry_measure v)) _ _ Hlo) as (o & -> & Ho).
    destruct (pool_summary_lift hash_o _ _ (m_ironwood (tree_carry_measure v)) _ _ Hli) as (i & -> & Hi).
    eexists. split; [done|]. by split_and!.
  - intros m. split_and!; apply pool_summary_unit.
  - intros m m' l1 l2 a b (H1 & H2 & H3)%advance_counts (Ha1 & Ha2 & Ha3) (Hb1 & Hb2 & Hb3).
    unfold tree_summary, sapling_run, orchard_run, ironwood_run. rewrite !run_app.
    split_and!; by eapply pool_summary_join.
  - intros v l1 l2 ds1 v1 [ds2 v2] s (Hs & Ho & Hi) Hser Hser2 (S1 & S2 & S3).
    rewrite (series_app TreeStateIndex tree_append), Hser in Hser2.
    destruct (series TreeStateIndex tree_append v1 l2) as [[ds3 v3]|] eqn:Hser3; [|done].
    apply series_step in Hser as ((xs & X1 & X2) & (xo & O1 & O2) & (xi & I1 & I2)).
    apply series_step in Hser3 as ((ys & Y1 & Y2) & (yo & P1 & P2) & (yi & J1 & J2)).
    unfold sapling_run, orchard_run, ironwood_run in S1, S2, S3. rewrite !run_app in S1, S2, S3.
    unfold tree_project. cbn [Bridge.carry_segment tree_monoid tree_combine tree_carry_segment s_sapling s_orchard s_ironwood tree_carry_measure
                              m_sapling m_orchard m_ironwood] in *.
    rewrite (pool_project hash_s _ _ _ _ _ _ _ _ _ _ Hs X1 Y1 X2 Y2 S1).
    rewrite (pool_project hash_o _ _ _ _ _ _ _ _ _ _ Ho O1 P1 O2 P2 S2).
    rewrite (pool_project hash_o _ _ _ _ _ _ _ _ _ _ Hi I1 J1 I2 J2 S3). by destruct v1.
  - intros v ctx d [_ Hh]%extract_step. destruct d. cbn in *. by subst.
  - done.
  - done.
Qed.
(** C3: [tree_state] stores the true frontiers.  From a carried state whose
    pools are frontiers of at most 2^32 leaves, whenever appending every block's
    commitments one by one succeeds, the pipeline that lifts the blocks apart,
    in any order and with any reduction tree, and looks the frontiers up,
    persists at every height exactly the appended frontiers, without a panic, and
    carries the last of them. *)
Theorem tree_state_sequential `{ParReduce} n blocks work v ds v' :
  tree_valid v -> series TreeStateIndex tree_append v blocks = Ok (ds, v') -> work ≡ₚ tagged n blocks ->
  let X := OrderedMonoid_exec TreeStateIndex tree_monoid tree_schema in
  let p := append_pipeline (fun c => c) tree_state_def TreeStateIndex X tree_schema (fun h => h) in
  exists b, extract_all (Engine.extract_one p) work (mkAppend TreeStateIndex X v [] None) = Some (Ok b) /\
    Engine.merge_persist p b =
      Some (Ok (persisted TreeStateIndex "tree_state" ((fun e => (e_height e, e_value e)) <$> ds),
                mkAppend TreeStateIndex X v' [] None)).
Proof.
  intros Hv Hs Hp. cbn zeta.
  destruct (ordered_monoid_bridge (fun c => c) tree_state_def TreeStateIndex tree_append tree_schema tree_monoid
    tree_valid tree_summary (fun h => h) n blocks work v ds v' Hv) as (_ & b & Hb & Hm);
    [by rewrite list_fmap_id|done|by apply fits_all|]. by exists b.
Qed.

(** ** The index's records read back *)
Section Serialised.
Context {H : Type} (hash : nat -> H -> H -> H) `{!Imt H} `{!ImtLaws hash}.
Context (write : NonEmptyFrontier -> list Z) (read : list Z -> option (NonEmptyFrontier * list Z)).

(** [read_nonempty_frontier_v1] reads what [write_nonempty_frontier_v1] wrote. *)
Definition reads_back : Prop := forall n rest, read (write n ++ rest) = Some (n, rest).

Lemma read_write_pool fr rest :
  reads_back -> pool_valid hash fr -> read_pool read (write_pool write fr ++ rest) = Ok (fr, rest).
Proof.
  intros Hrw (ls & Hr & Hl). pose proof (represents_size hash fr ls Hr) as Hsz.
  unfold read_pool, write_pool, read_be_u64. rewrite <- app_assoc.
  assert (Hlen : length (to_be_bytes 8 (tree_size fr)) = 8%nat) by apply length_to_be_bytes.
  rewrite blen_app, blen_be. change (Z.of_nat 8) with 8.
  destruct (Z.ltb_spec (8 + blen (match frontier_value fr with Some n => write n | None => [] end ++ rest)) 8) as [Hlt|_].
  { pose proof (blen_nonneg (match frontier_value fr with Some n => write n | None => [] end ++ rest)). lia. }
  rewrite take_app_length', drop_app_length' by done.
  rewrite from_to_be_bytes by (unfold uint; change (2 ^ (8 * Z.of_nat 8)) with (2 ^ 64); lia).
  pose proof (imt_size hash fr) as Hsize. unfold represents in Hr. destruct (frontier_value fr) as [n|] eqn:Hv.
  - destruct Hr as (Hne & Hpos & _). destruct (Z.eqb_spec (tree_size fr) 0) as [Hz|Hnz].
    { rewrite Hz in Hsz. symmetry in Hsz. destruct Hne. apply length_zero_iff_nil. lia. }
    rewrite Hrw. cbn [ok_or]. rewrite <- Hsize, Z.eqb_refl. cbn [negb].
    destruct (imt_try_from hash n) as (fr' & Hf & Hv'); [lia|]. rewrite Hf. cbn [ok_or].
    by rewrite (imt_value_inj hash fr' fr) by congruence.
  - subst ls. rewrite Hsz. cbn. f_equal. f_equal. apply (imt_value_inj hash). by rewrite (imt_empty hash).
Qed.
End Serialised.

Lemma value_decode_encode v :
  reads_back write_s read_s -> reads_back write_o read_o -> tree_valid v ->
  value_decode (value_encode v) = Ok v.
Proof.
  intros Rs Ro (Hs & Ho & Hi). unfold value_decode, value_encode.
  rewrite (read_write_pool hash_s) by done. rewrite (read_write_pool hash_o) by done.
  rewrite <- (app_nil_r (write_pool write_o (v_ironwood v))), (read_write_pool hash_o) by done. by destruct v.
Qed.

(** A height's tree state reads back as it was written: for pools
    that are frontiers of at most 2^32 leaves, empty pools included, decoding
    the record's encoding returns it, so [tree_state] resumes from what it
    persisted. *)
Theorem tree_state_codec_laws :
  reads_back write_s read_s -> reads_back write_o read_o ->
  CodecLaws TreeStateIndex (fun h v => uint 64 h /\ tree_valid v).
Proof.
  intros Rs Ro. split; intros h v [Hh Hv].
  - by apply height_key_inverts.
  - unfold decode_value, encode_value.
    cbn [PersistentValue TreeStateIndex PersistentTreeStateValue rec_decode rec_encode from_domain into_domain].
    by rewrite value_decode_encode.
  - done.
Qed.
End Index.

(** ** Trees of leaves, hashed to themselves *)
Module Example.
Import TreeSegment.Example.
Local Instance spines : Imt Tree := Counter.counter Node.
Local Existing Instance tree_laws.
Local Instance right_reduce : ParReduce.
Proof.
  refine {| par_reduce A op id l := foldr op id l |}. intros A op id l. induction l as [|a l IH]; [constructor|].
  apply (reduces_op op id [a] l); [constructor|exact IH].
Defined.

Definition to_leaf (c : list Z) : option Tree := match c with [n] => Some (Leaf n) | _ => None end.
(** Any framing of a spine that reads back. *)
Definition no_bytes (n : NonEmptyFrontier) : list Z := [].
Definition no_read (l : list Z) : option (NonEmptyFrontier * list Z) := None.

Notation Index := (TreeStateIndex no_bytes no_bytes no_read no_read []).
Notation monoid := (tree_monoid Node Node to_leaf to_leaf no_bytes no_bytes no_read no_read []).
Notation append := (tree_append to_leaf to_leaf no_bytes no_bytes no_read no_read []).
Notation schema := (tree_schema no_bytes no_bytes no_read no_read []).

Definition b1 : TreeStateCtx := mkCtx 10 [] [[1]; [2]; [3]] [[7]] [].
Definition b2 : TreeStateCtx := mkCtx 11 [] [] [[8]; [9]] [].
Definition b3 : TreeStateCtx := mkCtx 12 [] [[4]; [5]] [] [[6]].
Definition start_value : TreeStateValue := tree_initial_carry.

Lemma start_valid : tree_valid Node Node start_value.
Proof. split_and!; exists []; (split; [reflexivity|discriminate]). Qed.

Definition built : list TreeStateEntry * TreeStateValue :=
  match series Index append start_value [b1; b2; b3] with Ok r => r | Err _ => ([], start_value) end.
Lemma built_ok : match series Index append start_value [b1; b2; b3] with Ok _ => true | Err _ => false end = true.
Proof. vm_compute. reflexivity. Qed.
Lemma built_series : series Index append start_value [b1; b2; b3] = Ok (built.1, built.2).
Proof.
  unfold built. pose proof built_ok as Hok. destruct (series Index append start_value [b1; b2; b3]) as [[]|];
    [reflexivity|discriminate].
Qed.

(** Three blocks, extracted last to first. *)
Lemma tree_state_sequential_witness :
  exists b, extract_all (Engine.extract_one (append_pipeline (fun c => c) tree_state_def Index
        (OrderedMonoid_exec Index monoid schema) schema (fun h => h))) [(2, b3); (1, b2); (0, b1)]%nat
      (mkAppend Index (OrderedMonoid_exec Index monoid schema) start_value [] None) = Some (Ok b).
Proof.
  destruct (tree_state_sequential Node Node to_leaf to_leaf no_bytes no_bytes no_read no_read [] 0
    [b1; b2; b3] [(2, b3); (1, b2); (0, b1)]%nat start_value built.1 built.2 start_valid built_series)
    as (b & Hb & _); [|exists b; exact Hb].
  exact (Permutation_rev [(2, b3); (1, b2); (0, b1)]%nat).
Defined.

(** The sequential bridge and the parallel one persist the same. *)
Lemma ordered_monoid_bridge_sequential_witness :
  exists ops s1 s2,
    (exists b, Engine.merge_persist (append_pipeline (fun c => c) tree_state_def Index
        (Sequential_exec Index append) schema (fun h => h)) b = Some (Ok (ops, s1))) /\
    exists b, Engine.merge_persist (append_pipeline (fun c => c) tree_state_def Index
        (OrderedMonoid_exec Index monoid schema) schema (fun h => h)) b = Some (Ok (ops, s2)).
Proof.
  destruct (ordered_monoid_bridge_sequential (fun c => c) tree_state_def Index append schema monoid
    (tree_valid Node Node) (tree_summary Node Node to_leaf to_leaf) (fun h => h) 0 [b1; b2; b3]
    [(2, b3); (1, b2); (0, b1)]%nat start_value built.1 built.2 start_valid built_series) as ((b & _ & Hb) & b' & _ & Hb').
  - exact (Permutation_rev [(2, b3); (1, b2); (0, b1)]%nat).
  - apply fits_all. reflexivity.
  - do 3 eexists. split; [exists b; exact Hb|exists b'; exact Hb'].
Defined.

(** Leaves that are numbers, hashed by a sum; a spine written as its parts. *)
Definition sum (level : nat) (a b : Z) : Z := Z.of_nat level + a + 2 * b.
Local Instance number_spines : Imt Z := Counter.counter sum.
Local Instance number_laws : ImtLaws sum.
Proof. apply Counter.counter_laws. Qed.
Definition write (n : @NonEmptyFrontier Z number_spines) : list Z :=
  Counter.s_position n :: Counter.s_leaf n :: Z.of_nat (length (Counter.s_ommers n)) :: Counter.s_ommers n.
Definition read (l : list Z) : option (@NonEmptyFrontier Z number_spines * list Z) :=
  match l with
  | p :: x :: n :: l => Some (Counter.mkSpine p x (take (Z.to_nat n) l), drop (Z.to_nat n) l)
  | _ => None
  end.
Lemma reads : @reads_back Z number_spines write read.
Proof.
  intros [p x os] rest. cbn. by rewrite Nat2Z.id, take_app_length, drop_app_length.
Qed.
Definition three : TreeStateValue :=
  mkValue (default None (append_all None [5; 6; 7])) None (default None (append_all None [9])).
Lemma three_valid : tree_valid sum sum three.
Proof.
  split_and!; [exists [5; 6; 7]|exists []|exists [9]]; (split; [|discriminate]); vm_compute;
    repeat constructor; discriminate.
Qed.

Lemma ten : uint 64 10.
Proof. split; [discriminate|reflexivity]. Qed.

Lemma tree_state_codec_laws_witness :
  decode_value (TreeStateIndex write write read read []) (encode_value (TreeStateIndex write write read read []) three)
    = Ok three.
Proof.
  exact (@codec_value _ _ (tree_state_codec_laws sum sum write write read read [] reads reads) 10 three
    (conj ten three_valid)).
Defined.
End Example.
End TreeState.
