(* ===== verification/Indexes.v ===== *)
(** * Index definitions ([packages/zaino-indexes/src/indexes/*.rs])

    Each index names its context, the entry one block contributes, how entries
    become key-value pairs and the records they are laid out as.  The tree-state
    index has files of its own. *)

From S2P Require Import Prelude Primitives Difficulty Types Persistence Codec Dag Engine Bridge BridgeCorrect.
From stdpp Require Import base gmap list strings sets relations sorting.
From Stdlib Require Import Lia.
Open Scope Z_scope.

Module Indexes.
Import Kv Layout Codec Bridge.
Local Notation "'let*' x ':=' m 'in' k" := (dbind m (fun x => k))
  (at level 10, x pattern, m at level 200, k at level 200).

(** ** Records *)

(** Loops of writes and of reads under a count. *)
Fixpoint put_each {A} (enc : A -> option (list Z)) (l : list A) : option (list Z) :=
  match l with
  | [] => Some []
  | a :: l => let! e := enc a in let! es := put_each enc l in Some (e ++ es)
  end.
Definition put_counted {A} (enc : A -> option (list Z)) (l : list A) : option (list Z) :=
  let! n := put_count (Z.of_nat (length l)) in
  let! es := put_each enc l in
  Some (n ++ es).
Fixpoint get_times {A} (n : nat) (dec : Dec A) : Dec (list A) :=
  match n with
  | O => dret []
  | S n => let* a := dec in let* l := get_times n dec in dret (a :: l)
  end.
Definition get_counted {A} (dec : Dec A) : Dec (list A) :=
  let* n := get_count in get_times (Z.to_nat n) dec.

(** A record of a hand-written layout: the whole input is one value. *)
Definition framed {D R} (from : D -> R) (into : R -> result D DecodeError)
    (enc : R -> option (list Z)) (dec : Dec R) : PersistentRecord D :=
  mkRecord D R from into
    (fun r => match enc r with Some _ => true | None => false end)
    (fun r => default [] (enc r))
    (fun bytes => let? (r, c) := dec (cursor bytes) in let? _ := finish c in Ok r).
(** [#[derive(PersistentRecord)]] on a struct of these fields. *)
Definition derived {D} (fields : list Atom) (from : D -> list AtomVal)
    (into : list AtomVal -> result D DecodeError) : PersistentRecord D :=
  framed from into (record_encode fields) (fields_decode fields).

Local Arguments to_le_bytes : simpl never.
Local Arguments to_be_bytes : simpl never.

(** *** Round trips of layouts *)

(** The value is encoded and its encoding read back. *)
Definition codes {A} (enc : A -> option (list Z)) (dec : Dec A) (a : A) : Prop :=
  exists e, enc a = Some e /\ reads dec e a.
(** The bytes are a slice in memory. *)
Definition sized {A} (enc : A -> option (list Z)) (a : A) : Prop :=
  forall e, enc a = Some e -> blen e < 2 ^ 64.

Lemma codes_each {A} (enc : A -> option (list Z)) dec l :
  Forall (codes enc dec) l -> exists e, put_each enc l = Some e /\ reads (get_times (length l) dec) e l.
Proof.
  induction 1 as [|a l (e & He & Hr) _ (es & Hes & Hrs)]; cbn; [eexists; split; [done|apply reads_ret]|].
  rewrite He, Hes. eexists. split; [done|]. eapply reads_bind; [exact Hr|]. by apply (reads_map _ (cons a)).
Qed.
Lemma codes_counted {A} (enc : A -> option (list Z)) dec l :
  Z.of_nat (length l) < 2 ^ 32 -> Forall (codes enc dec) l -> codes (put_counted enc) (get_counted dec) l.
Proof.
  intros Hn Hl. destruct (codes_each enc dec l Hl) as (es & Hes & Hrs).
  unfold codes, put_counted, put_count, try_narrow. rewrite (proj2 (Z.ltb_lt _ _) Hn), Hes.
  eexists. split; [done|]. unfold get_counted, get_count, put_u32, get_u32.
  eapply reads_bind; [apply (reads_le 4); change (2 ^ _) with (2 ^ 32); lia|]. by rewrite Nat2Z.id.
Qed.

Lemma framed_inverts {D R} (from : D -> R) into enc dec (d : D) :
  codes enc dec (from d) -> sized enc (from d) -> into (from d) = Ok d ->
  record_inverts (framed from into enc dec) d /\
  rec_fits (framed from into enc dec) (from_domain (framed from into enc dec) d) = true.
Proof.
  intros (e & He & Hr) Hs Hi. unfold record_inverts. cbn [framed rec_decode rec_encode rec_fits from_domain into_domain].
  rewrite He. cbn [from_option id]. specialize (Hr [] []). rewrite app_nil_r in Hr. cbn [app] in Hr.
  change (blen []) with 0 in Hr. unfold cursor. rewrite Hr by by apply Hs.
  unfold finish. cbn [c_pos c_bytes]. by rewrite Z.eqb_refl.
Qed.

(** Fields of fixed or 32-bit length stay in memory. *)
Definition atom_bound (a : Atom) : Z := match a with AArray n => Z.of_nat n | _ => 2 ^ 33 end.
Lemma atom_encode_len a v e : atom_ok a v -> atom_encode a v = Some e -> blen e <= atom_bound a.
Proof.
  destruct a as [| | |n| | |], v as [z|l]; cbn [atom_ok atom_encode atom_bound]; try done; intros Hv; try by intros [= <-].
  - intros [= <-]. destruct Hv as [Hv _]. unfold blen. lia.
  - destruct Hv as [[_ Hv] _]. unfold put_len_prefixed, put_count, try_narrow, put_u32.
    destruct (blen l <? 2 ^ 32); [|done]. intros He. apply (inj Some) in He. subst e. rewrite blen_app, blen_le. lia.
Qed.
Definition fields_bound (fs : list Atom) : Z :=
  foldr (fun a n => atom_bound a + n) 0 fs.
Lemma fields_sized fs vs : Forall2 atom_ok fs vs -> fields_bound fs < 2 ^ 64 -> sized (record_encode fs) vs.
Proof.
  intros Hf Hb e He. enough (blen e <= fields_bound fs) by lia. clear Hb. unfold record_encode in He.
  revert e He. induction Hf as [|a v fs vs Ha _ IH]; intros e; cbn [fields_encode]; [by intros [= <-]|].
  destruct (atom_encode a v) as [e1|] eqn:He1; [|done].
  destruct (fields_encode fs vs) as [e2|] eqn:He2; [|done]. intros [= <-].
  rewrite blen_app. specialize (IH _ eq_refl). pose proof (atom_encode_len a v e1 Ha He1).
  change (fields_bound (a :: fs)) with (atom_bound a + fields_bound fs). lia.
Qed.
Lemma derived_inverts {D} fs (from : D -> list AtomVal) into (d : D) :
  Forall2 atom_ok fs (from d) -> fields_bound fs < 2 ^ 64 -> into (from d) = Ok d ->
  record_inverts (derived fs from into) d /\
  rec_fits (derived fs from into) (from_domain (derived fs from into) d) = true.
Proof.
  intros Hf Hb Hi. apply framed_inverts; [|by apply fields_sized|done].
  destruct (fields_reads fs (from d) Hf) as (e & He & Hr). by exists e.
Qed.

(** A 32-byte array, and a [CompactCiphertext]. *)
Definition bytes_of (n : nat) (l : list Z) : Prop := length l = n /\ Forall byte_ok l.
Definition hash32 : list Z -> Prop := bytes_of 32.
Definition CIPHERTEXT_LENGTH : nat := 52.
(** [CompactCiphertext::try_new] *)
Definition ciphertext_try_new (bytes : list Z) : result (list Z) DecodeError :=
  if (length bytes =? CIPHERTEXT_LENGTH)%nat then Ok bytes else Err Invalid.

Definition put_raw (bytes : list Z) : option (list Z) := Some bytes.
Lemma codes_bytes32 h : length h = 32%nat -> codes put_raw bytes32 h.
Proof. intros Hh. exists h. split; [done|]. apply reads_take. unfold blen. by rewrite Hh. Qed.
Lemma codes_len_prefixed l : blen l < 2 ^ 32 -> codes put_len_prefixed get_len_prefixed l.
Proof.
  intros Hl. unfold codes, put_len_prefixed, put_count, try_narrow. rewrite (proj2 (Z.ltb_lt _ _) Hl).
  eexists. split; [done|]. eapply reads_bind; [|by apply reads_take].
  apply (reads_le 4). change (2 ^ _) with (2 ^ 32). split; [apply blen_nonneg|done].
Qed.

(** ** Declarations

    The block-local indexes differ in these three only. *)
Definition local_def (name : string) : IndexDef := mkIndexDef name Dag.BlockLocal Dag.Append [] Dag.NoAccess.

Definition Infallible : Type := Empty_set.

(** *** [hash_to_height.rs] *)
Record HashToHeightCtx := mkHashToHeightCtx { hh_hash : BlockHash; hh_height : Z }.
Record HashToHeightEntry := mkHashToHeightEntry { hhe_hash : BlockHash; hhe_height : Z }.
Definition hash_to_height_ID : string := "hash_to_height".
Definition hash_to_height_extract (ctx : HashToHeightCtx) : result HashToHeightEntry Infallible :=
  Ok (mkHashToHeightEntry (hh_hash ctx) (hh_height ctx)).
Definition HashToHeightIndex : EntryCodec :=
  mkCodec BlockHash Z HashKey HeightKey Scattered [(replicate 32 1, 2)].
Definition hash_to_height_schema : Schema HashToHeightIndex (list HashToHeightEntry) :=
  mkSchema HashToHeightIndex (list HashToHeightEntry)
    (fmap (fun e => (hhe_hash e, hhe_height e)))
    (fmap (fun kv => mkHashToHeightEntry kv.1 kv.2)).

(** *** [txid_location.rs] *)
Record TxidLocationCtx := mkTxidLocationCtx { locations : list (TransactionId * Z * Z) }.
Record TxLocation := mkTxLocation { loc_height : Z; tx_index : Z }.
Record TxidLocationEntry := mkTxidLocationEntry { le_txid : TransactionId; le_location : TxLocation }.
Definition txid_location_ID : string := "txid_location".
Definition txid_location_extract (ctx : TxidLocationCtx) : result (list TxidLocationEntry) Infallible :=
  Ok ((fun '(txid, height, idx) => mkTxidLocationEntry txid (mkTxLocation height idx)) <$> locations ctx).
Definition PersistentTxLocation : PersistentRecord TxLocation :=
  derived [AU64; AU32]
    (fun l => [VInt (loc_height l); VInt (tx_index l)])
    (fun vs => match vs with
               | [VInt height; VInt tx_index] => Ok (mkTxLocation height tx_index)
               | _ => Err Invalid
               end).
Definition TxidLocationIndex : EntryCodec :=
  mkCodec TransactionId TxLocation HashKey PersistentTxLocation Scattered
    [(replicate 32 1, mkTxLocation 2 3)].
Definition txid_location_schema : Schema TxidLocationIndex (list (list TxidLocationEntry)) :=
  mkSchema TxidLocationIndex (list (list TxidLocationEntry))
    (fun batches => (fun e => (le_txid e, le_location e)) <$> mjoin batches)
    (fun entries => [(fun kv => mkTxidLocationEntry kv.1 kv.2) <$> entries]).

(** *** [txids.rs] *)
Record TxidsCtx := mkTxidsCtx { tc_height : Z; tc_txids : list TransactionId }.
Record TxidsEntry := mkTxidsEntry { te_height : Z; te_txids : list TransactionId }.
Definition txids_ID : string := "txids".
Definition txids_extract (ctx : TxidsCtx) : result TxidsEntry Infallible :=
  Ok (mkTxidsEntry (tc_height ctx) (tc_txids ctx)).
Fixpoint chunks_exact (n : nat) (fuel : nat) (bytes : list Z) : list (list Z) :=
  match fuel with
  | O => []
  | S fuel => if (length bytes <? n)%nat then [] else take n bytes :: chunks_exact n fuel (drop n bytes)
  end.
Definition txids_encode (r : list (list Z)) : list Z := mjoin r.
Definition txids_decode (bytes : list Z) : result (list (list Z)) DecodeError :=
  if negb (blen bytes mod 32 =? 0) then Err Invalid
  else Ok (chunks_exact 32 (length bytes) bytes).
Definition PersistentTxidsValue : PersistentRecord (list TransactionId) :=
  mkRecord (list TransactionId) (list (list Z)) (fun v => v) Ok (fun _ => true) txids_encode txids_decode.
Definition TxidsIndex : EntryCodec :=
  mkCodec Z (list TransactionId) HeightKey PersistentTxidsValue WalkOrdered
    [(1, [replicate 32 1; replicate 32 2])].
Definition txids_schema : Schema TxidsIndex (list TxidsEntry) :=
  mkSchema TxidsIndex (list TxidsEntry)
    (fmap (fun e => (te_height e, te_txids e)))
    (fmap (fun kv => mkTxidsEntry kv.1 kv.2)).

(** *** [transparent_spends.rs] *)
Record SpendCtx := mkSpendCtx { sc_spends : list (TransactionId * Z * TransactionId) }.
Record SpendEntry := mkSpendEntry {
  se_prev_txid : TransactionId; se_prev_index : Z; spending_txid : TransactionId }.
Record OutpointKey := mkOutpointKey { ok_prev_txid : TransactionId; ok_prev_index : Z }.
Global Instance OutpointKey_eq_dec : EqDecision OutpointKey.
Proof. solve_decision. Defined.
Definition transparent_spends_ID : string := "transparent_spends".
Definition transparent_spends_extract (ctx : SpendCtx) : result (list SpendEntry) Infallible :=
  Ok ((fun '(prev_txid, prev_index, spending) => mkSpendEntry prev_txid prev_index spending) <$> sc_spends ctx).
Definition PersistentOutpointKey : PersistentRecord OutpointKey :=
  derived [AArray 32; AU32]
    (fun k => [VBytes (ok_prev_txid k); VInt (ok_prev_index k)])
    (fun vs => match vs with
               | [VBytes prev_txid; VInt prev_index] => Ok (mkOutpointKey prev_txid prev_index)
               | _ => Err Invalid
               end).
Definition TransparentSpendsIndex : EntryCodec :=
  mkCodec OutpointKey TransactionId PersistentOutpointKey HashKey Scattered
    [(mkOutpointKey (replicate 32 1) 2, replicate 32 3)].
Definition transparent_spends_schema : Schema TransparentSpendsIndex (list (list SpendEntry)) :=
  mkSchema TransparentSpendsIndex (list (list SpendEntry))
    (fun batches => (fun e => (mkOutpointKey (se_prev_txid e) (se_prev_index e), spending_txid e)) <$> mjoin batches)
    (fun entries => [(fun kv => mkSpendEntry (ok_prev_txid kv.1) (ok_prev_index kv.1) kv.2) <$> entries]).

(** *** [headers.rs] *)
Record HeaderCtx := mkHeaderCtx {
  hc_height : Z; hc_hash : BlockHash; hc_prev_hash : BlockHash; hc_time : Z;
  hc_bits : CompactDifficulty.CompactDifficulty }.
Record HeaderValue := mkHeaderValue {
  hv_hash : BlockHash; hv_prev_hash : BlockHash; hv_time : Z; hv_bits : CompactDifficulty.CompactDifficulty }.
Record HeaderEntry := mkHeaderEntry { he_height : Z; he_value : HeaderValue }.
Definition headers_ID : string := "headers".
Definition headers_extract (ctx : HeaderCtx) : result HeaderEntry Infallible :=
  Ok (mkHeaderEntry (hc_height ctx)
        (mkHeaderValue (hc_hash ctx) (hc_prev_hash ctx) (hc_time ctx) (hc_bits ctx))).
Definition PersistentHeaderValue : PersistentRecord HeaderValue :=
  derived [AArray 32; AArray 32; AU32; AU32]
    (fun v => [VBytes (hv_hash v); VBytes (hv_prev_hash v); VInt (hv_time v);
               VInt (CompactDifficulty.bits (hv_bits v))])
    (fun vs => match vs with
               | [VBytes hash; VBytes prev_hash; VInt time; VInt bits] =>
                   let? bits := map_err (fun _ => Invalid) (CompactDifficulty.try_from_bits bits) in
                   Ok (mkHeaderValue hash prev_hash time bits)
               | _ => Err Invalid
               end).
(** [try_from_bits(0x2007_ffff).expect("valid nBits")] *)
Definition sample_bits : CompactDifficulty.CompactDifficulty :=
  match CompactDifficulty.try_from_bits 0x2007ffff with
  | Ok d => d
  | Err _ => CompactDifficulty.mkCompactDifficulty 0 0
  end.
Definition HeadersIndex : EntryCodec :=
  mkCodec Z HeaderValue HeightKey PersistentHeaderValue WalkOrdered
    [(1, mkHeaderValue (replicate 32 1) (replicate 32 2) 3 sample_bits)].
Definition headers_schema : Schema HeadersIndex (list HeaderEntry) :=
  mkSchema HeadersIndex (list HeaderEntry)
    (fmap (fun e => (he_height e, he_value e)))
    (fmap (fun kv => mkHeaderEntry kv.1 kv.2)).

(** *** [chain_metadata.rs] *)

(** [tree_size.rs]: a [u32]. *)
Record TreeSizeOutOfRange := mkTreeSizeOutOfRange { size_got : Z }.
Definition tree_size_try_from (count : Z) : result Z TreeSizeOutOfRange :=
  ok_or (try_narrow 32 count) (mkTreeSizeOutOfRange count).
Definition tree_size_checked_add (self count : Z) : result Z TreeSizeOutOfRange :=
  let? total := ok_or (checked_add 64 self count) (mkTreeSizeOutOfRange count) in
  tree_size_try_from total.
(** [ChainMetadata::ZERO] *)
Definition METADATA_ZERO : ChainMetadata := mkChainMetadata 0 0 0.

Record ChainMetadataCtx := mkChainMetadataCtx {
  cm_height : Z; sapling_added : Z; orchard_added : Z; ironwood_added : Z }.
Record ChainMetadataEntry := mkChainMetadataEntry { cme_height : Z; cme_value : ChainMetadata }.
Definition chain_metadata_ID : string := "chain_metadata".
Definition chain_metadata_def : IndexDef :=
  mkIndexDef chain_metadata_ID (Dag.SelfCumulative Dag.Sequential) Dag.Append [] Dag.NoAccess.
Definition chain_metadata_extract (ctx : ChainMetadataCtx) (prior : ChainMetadata)
    : result ChainMetadataEntry TreeSizeOutOfRange :=
  let? s := tree_size_checked_add (sapling_tree_size prior) (sapling_added ctx) in
  let? o := tree_size_checked_add (orchard_tree_size prior) (orchard_added ctx) in
  let? i := tree_size_checked_add (ironwood_tree_size prior) (ironwood_added ctx) in
  Ok (mkChainMetadataEntry (cm_height ctx) (mkChainMetadata s o i)).
Definition PersistentChainMetadata : PersistentRecord ChainMetadata :=
  derived [AU32; AU32; AU32]
    (fun m => [VInt (sapling_tree_size m); VInt (orchard_tree_size m); VInt (ironwood_tree_size m)])
    (fun vs => match vs with
               | [VInt s; VInt o; VInt i] => Ok (mkChainMetadata s o i)
               | _ => Err Invalid
               end).
Definition ChainMetadataIndex : EntryCodec :=
  mkCodec Z ChainMetadata HeightKey PersistentChainMetadata WalkOrdered [(1, mkChainMetadata 2 3 4)].
Definition chain_metadata_append
    : @CumulativeAppend ChainMetadataCtx ChainMetadataIndex ChainMetadataEntry TreeSizeOutOfRange :=
  @mkCumulativeAppend ChainMetadataCtx ChainMetadataIndex ChainMetadataEntry TreeSizeOutOfRange
    chain_metadata_extract METADATA_ZERO cme_value.
Definition chain_metadata_schema : Schema ChainMetadataIndex (list ChainMetadataEntry) :=
  mkSchema ChainMetadataIndex (list ChainMetadataEntry)
    (fmap (fun e => (cme_height e, cme_value e)))
    (fmap (fun kv => mkChainMetadataEntry kv.1 kv.2)).

(** *** [transparent_data.rs] *)
Record TransparentTxCompact := mkTransparentTxCompact {
  tt_inputs : list (TransactionId * Z); tt_outputs : list (Z * list Z) }.
Record TransparentDataCtx := mkTransparentDataCtx { td_height : Z; td_txs : list TransparentTxCompact }.
Record TransparentDataEntry := mkTransparentDataEntry { tde_height : Z; tde_value : list TransparentTxCompact }.
Definition transparent_data_ID : string := "transparent_data".
Definition transparent_data_extract (ctx : TransparentDataCtx) : result TransparentDataEntry Infallible :=
  Ok (mkTransparentDataEntry (td_height ctx) (td_txs ctx)).

Record PersistentTransparentInput := mkPTInput { pti_prev_txid : list Z; pti_prev_index : Z }.
Record PersistentTransparentOutput := mkPTOutput { pto_value : Z; pto_script : list Z }.
Record PersistentTransparentTx := mkPTTx {
  ptt_inputs : list PersistentTransparentInput; ptt_outputs : list PersistentTransparentOutput }.
Definition transparent_from_domain (domain : list TransparentTxCompact) : list PersistentTransparentTx :=
  (fun tx => mkPTTx ((fun '(txid, idx) => mkPTInput txid idx) <$> tt_inputs tx)
                    ((fun '(value, script) => mkPTOutput value script) <$> tt_outputs tx)) <$> domain.
Definition transparent_into_output (output : PersistentTransparentOutput) : result (Z * list Z) DecodeError :=
  let? value := map_err (fun _ => Invalid) (Zatoshis.new (pto_value output)) in
  Ok (value, pto_script output).
Definition transparent_into_domain (txs : list PersistentTransparentTx)
    : result (list TransparentTxCompact) DecodeError :=
  map_result (fun tx =>
    let inputs := (fun input => (pti_prev_txid input, pti_prev_index input)) <$> ptt_inputs tx in
    let? outputs := map_result transparent_into_output (ptt_outputs tx) in
    Ok (mkTransparentTxCompact inputs outputs)) txs.

Definition put_transparent_input (input : PersistentTransparentInput) : option (list Z) :=
  Some (pti_prev_txid input ++ put_u32 (pti_prev_index input)).
Definition put_transparent_output (output : PersistentTransparentOutput) : option (list Z) :=
  let! script := put_len_prefixed (pto_script output) in
  Some (put_u64 (pto_value output) ++ script).
Definition put_transparent_tx (tx : PersistentTransparentTx) : option (list Z) :=
  let! inputs := put_counted put_transparent_input (ptt_inputs tx) in
  let! outputs := put_counted put_transparent_output (ptt_outputs tx) in
  Some (inputs ++ outputs).
Definition transparent_encode (txs : list PersistentTransparentTx) : option (list Z) :=
  put_counted put_transparent_tx txs.
Definition get_transparent_input : Dec PersistentTransparentInput :=
  let* prev_txid := bytes32 in
  let* prev_index := get_u32 in
  dret (mkPTInput prev_txid prev_index).
Definition get_transparent_output : Dec PersistentTransparentOutput :=
  let* value := get_u64 in
  let* script := get_len_prefixed in
  dret (mkPTOutput value script).
Definition get_transparent_tx : Dec PersistentTransparentTx :=
  let* inputs := get_counted get_transparent_input in
  let* outputs := get_counted get_transparent_output in
  dret (mkPTTx inputs outputs).
Definition transparent_decode : Dec (list PersistentTransparentTx) := get_counted get_transparent_tx.

Definition PersistentTransparentValue : PersistentRecord (list TransparentTxCompact) :=
  framed transparent_from_domain transparent_into_domain transparent_encode transparent_decode.
Definition TransparentDataIndex : EntryCodec :=
  mkCodec Z (list TransparentTxCompact) HeightKey PersistentTransparentValue WalkOrdered
    [(1, [mkTransparentTxCompact [(replicate 32 2, 3)] [(4, [5; 6; 7])]])].
Definition transparent_data_schema : Schema TransparentDataIndex (list TransparentDataEntry) :=
  mkSchema TransparentDataIndex (list TransparentDataEntry)
    (fmap (fun e => (tde_height e, tde_value e)))
    (fmap (fun kv => mkTransparentDataEntry kv.1 kv.2)).

(** *** [sapling.rs] *)
Record SaplingTxCompact := mkSaplingTxCompact {
  st_nullifiers : list (list Z); st_outputs : list (list Z * list Z * list Z) }.
Record SaplingCtx := mkSaplingCtx { sx_height : Z; sx_txs : list SaplingTxCompact }.
Record SaplingEntry := mkSaplingEntry { sxe_height : Z; sxe_value : list SaplingTxCompact }.
Definition sapling_ID : string := "sapling".
Definition sapling_extract (ctx : SaplingCtx) : result SaplingEntry Infallible :=
  Ok (mkSaplingEntry (sx_height ctx) (sx_txs ctx)).

Record PersistentSaplingOutput := mkPSOutput { pso_cmu : list Z; pso_epk : list Z; pso_enc : list Z }.
Record PersistentSaplingTx := mkPSTx {
  pst_nullifiers : list (list Z); pst_outputs : list PersistentSaplingOutput }.
Definition sapling_from_domain (domain : list SaplingTxCompact) : list PersistentSaplingTx :=
  (fun tx => mkPSTx (st_nullifiers tx) ((fun '(cmu, epk, enc) => mkPSOutput cmu epk enc) <$> st_outputs tx)) <$> domain.
Definition sapling_into_output (output : PersistentSaplingOutput) : result (list Z * list Z * list Z) DecodeError :=
  let? enc := ciphertext_try_new (pso_enc output) in
  Ok (pso_cmu output, pso_epk output, enc).
Definition sapling_into_domain (txs : list PersistentSaplingTx) : result (list SaplingTxCompact) DecodeError :=
  map_result (fun tx =>
    let? outputs := map_result sapling_into_output (pst_outputs tx) in
    Ok (mkSaplingTxCompact (pst_nullifiers tx) outputs)) txs.

Definition put_sapling_output (output : PersistentSaplingOutput) : option (list Z) :=
  let! enc := put_len_prefixed (pso_enc output) in
  Some (pso_cmu output ++ pso_epk output ++ enc).
Definition put_sapling_tx (tx : PersistentSaplingTx) : option (list Z) :=
  let! nullifiers := put_counted put_raw (pst_nullifiers tx) in
  let! outputs := put_counted put_sapling_output (pst_outputs tx) in
  Some (nullifiers ++ outputs).
Definition sapling_encode (txs : list PersistentSaplingTx) : option (list Z) := put_counted put_sapling_tx txs.
Definition get_sapling_output : Dec PersistentSaplingOutput :=
  let* cmu := bytes32 in
  let* epk := bytes32 in
  let* enc := get_len_prefixed in
  dret (mkPSOutput cmu epk enc).
Definition get_sapling_tx : Dec PersistentSaplingTx :=
  let* nullifiers := get_counted bytes32 in
  let* outputs := get_counted get_sapling_output in
  dret (mkPSTx nullifiers outputs).
Definition sapling_decode : Dec (list PersistentSaplingTx) := get_counted get_sapling_tx.

Definition PersistentSaplingValue : PersistentRecord (list SaplingTxCompact) :=
  framed sapling_from_domain sapling_into_domain sapling_encode sapling_decode.
Definition SaplingIndex : EntryCodec :=
  mkCodec Z (list SaplingTxCompact) HeightKey PersistentSaplingValue WalkOrdered
    [(1, [mkSaplingTxCompact [replicate 32 2] [(replicate 32 3, replicate 32 4, replicate CIPHERTEXT_LENGTH 5)]])].
Definition sapling_schema : Schema SaplingIndex (list SaplingEntry) :=
  mkSchema SaplingIndex (list SaplingEntry)
    (fmap (fun e => (sxe_height e, sxe_value e)))
    (fmap (fun kv => mkSaplingEntry kv.1 kv.2)).

(** *** [orchard.rs] *)
Notation ActionCompact := (list Z * list Z * list Z * list Z)%type (only parsing).
Record OrchardTxCompact := mkOrchardTxCompact { ot_actions : list ActionCompact }.
Record OrchardCtx := mkOrchardCtx { ox_height : Z; ox_txs : list OrchardTxCompact }.
Record OrchardEntry := mkOrchardEntry { oxe_height : Z; oxe_value : list OrchardTxCompact }.
Definition orchard_ID : string := "orchard".
Definition orchard_extract (ctx : OrchardCtx) : result OrchardEntry Infallible :=
  Ok (mkOrchardEntry (ox_height ctx) (ox_txs ctx)).

Record PersistentOrchardAction := mkPOAction {
  poa_nullifier : list Z; poa_cmx : list Z; poa_epk : list Z; poa_enc : list Z }.
Record PersistentOrchardTx := mkPOTx { pot_actions : list PersistentOrchardAction }.
Definition orchard_from_domain (domain : list OrchardTxCompact) : list PersistentOrchardTx :=
  (fun tx => mkPOTx ((fun '(nf, cmx, epk, enc) => mkPOAction nf cmx epk enc) <$> ot_actions tx)) <$> domain.
Definition orchard_into_action (action : PersistentOrchardAction) : result ActionCompact DecodeError :=
  let? enc := ciphertext_try_new (poa_enc action) in
  Ok (poa_nullifier action, poa_cmx action, poa_epk action, enc).
Definition orchard_into_domain (txs : list PersistentOrchardTx) : result (list OrchardTxCompact) DecodeError :=
  map_result (fun tx =>
    let? actions := map_result orchard_into_action (pot_actions tx) in
    Ok (mkOrchardTxCompact actions)) txs.

Definition put_orchard_action (action : PersistentOrchardAction) : option (list Z) :=
  let! enc := put_len_prefixed (poa_enc action) in
  Some (poa_nullifier action ++ poa_cmx action ++ poa_epk action ++ enc).
Definition put_orchard_tx (tx : PersistentOrchardTx) : option (list Z) :=
  put_counted put_orchard_action (pot_actions tx).
Definition orchard_encode (txs : list PersistentOrchardTx) : option (list Z) := put_counted put_orchard_tx txs.
Definition get_orchard_action : Dec PersistentOrchardAction :=
  let* nullifier := bytes32 in
  let* cmx := bytes32 in
  let* epk := bytes32 in
  let* enc := get_len_prefixed in
  dret (mkPOAction nullifier cmx epk enc).
Definition get_orchard_tx : Dec PersistentOrchardTx :=
  let* actions := get_counted get_orchard_action in dret (mkPOTx actions).
Definition orchard_decode : Dec (list PersistentOrchardTx) := get_counted get_orchard_tx.

Definition PersistentOrchardValue : PersistentRecord (list OrchardTxCompact) :=
  framed orchard_from_domain orchard_into_domain orchard_encode orchard_decode.
Definition action_samples : list (Z * list OrchardTxCompact) :=
  [(1, [mkOrchardTxCompact
          [(replicate 32 2, replicate 32 3, replicate 32 4, replicate CIPHERTEXT_LENGTH 5)]])].
Definition OrchardIndex : EntryCodec :=
  mkCodec Z (list OrchardTxCompact) HeightKey PersistentOrchardValue WalkOrdered action_samples.
Definition orchard_schema : Schema OrchardIndex (list OrchardEntry) :=
  mkSchema OrchardIndex (list OrchardEntry)
    (fmap (fun e => (oxe_height e, oxe_value e)))
    (fmap (fun kv => mkOrchardEntry kv.1 kv.2)).

(** *** [ironwood.rs]: its own index, of orchard's shapes and framing. *)
Record IronwoodCtx := mkIronwoodCtx { ix_height : Z; ix_txs : list OrchardTxCompact }.
Record IronwoodEntry := mkIronwoodEntry { ixe_height : Z; ixe_value : list OrchardTxCompact }.
Definition ironwood_ID : string := "ironwood".
Definition ironwood_extract (ctx : IronwoodCtx) : result IronwoodEntry Infallible :=
  Ok (mkIronwoodEntry (ix_height ctx) (ix_txs ctx)).
Record PersistentIronwoodAction := mkPIAction {
  pia_nullifier : list Z; pia_cmx : list Z; pia_epk : list Z; pia_enc : list Z }.
Record PersistentIronwoodTx := mkPITx { pit_actions : list PersistentIronwoodAction }.
Definition ironwood_from_domain (domain : list OrchardTxCompact) : list PersistentIronwoodTx :=
  (fun tx => mkPITx ((fun '(nf, cmx, epk, enc) => mkPIAction nf cmx epk enc) <$> ot_actions tx)) <$> domain.
Definition ironwood_into_action (action : PersistentIronwoodAction) : result ActionCompact DecodeError :=
  let? enc := ciphertext_try_new (pia_enc action) in
  Ok (pia_nullifier action, pia_cmx action, pia_epk action, enc).
Definition ironwood_into_domain (txs : list PersistentIronwoodTx) : result (list OrchardTxCompact) DecodeError :=
  map_result (fun tx =>
    let? actions := map_result ironwood_into_action (pit_actions tx) in
    Ok (mkOrchardTxCompact actions)) txs.
Definition put_ironwood_action (action : PersistentIronwoodAction) : option (list Z) :=
  let! enc := put_len_prefixed (pia_enc action) in
  Some (pia_nullifier action ++ pia_cmx action ++ pia_epk action ++ enc).
Definition ironwood_encode (txs : list PersistentIronwoodTx) : option (list Z) :=
  put_counted (fun tx => put_counted put_ironwood_action (pit_actions tx)) txs.
Definition get_ironwood_action : Dec PersistentIronwoodAction :=
  let* nullifier := bytes32 in
  let* cmx := bytes32 in
  let* epk := bytes32 in
  let* enc := get_len_prefixed in
  dret (mkPIAction nullifier cmx epk enc).
Definition ironwood_decode : Dec (list PersistentIronwoodTx) :=
  get_counted (let* actions := get_counted get_ironwood_action in dret (mkPITx actions)).
Definition PersistentIronwoodValue : PersistentRecord (list OrchardTxCompact) :=
  framed ironwood_from_domain ironwood_into_domain ironwood_encode ironwood_decode.
Definition IronwoodIndex : EntryCodec :=
  mkCodec Z (list OrchardTxCompact) HeightKey PersistentIronwoodValue WalkOrdered action_samples.
Definition ironwood_schema : Schema IronwoodIndex (list IronwoodEntry) :=
  mkSchema IronwoodIndex (list IronwoodEntry)
    (fmap (fun e => (ixe_height e, ixe_value e)))
    (fmap (fun kv => mkIronwoodEntry kv.1 kv.2)).

(** *** [address_history.rs] *)

(** [script.rs] *)
Inductive ScriptType := P2PKH | P2SH | NonStandard.
Global Instance ScriptType_eq_dec : EqDecision ScriptType.
Proof. solve_decision. Defined.
Definition starts_with (p l : list Z) : bool := bool_decide (take (length p) l = p).
Definition ends_with (s l : list Z) : bool :=
  (length s <=? length l)%nat && bool_decide (drop (length l - length s) l = s).
Definition classify_script (script : list Z) : list Z * ScriptType :=
  if (length script =? 25)%nat && starts_with [0x76; 0xa9; 0x14] script && ends_with [0x88; 0xac] script
  then (take 20 (drop 3 script), P2PKH)
  else if (length script =? 23)%nat && starts_with [0xa9; 0x14] script && ends_with [0x87] script
  then (take 20 (drop 2 script), P2SH)
  else match script with
       | tag :: hash =>
           if (length script =? 21)%nat
           then (hash, if tag =? 0 then P2PKH else if tag =? 1 then P2SH else NonStandard)
           else (take 20 (script ++ replicate 20 0), NonStandard)
       | [] => (replicate 20 0, NonStandard)
       end.

Record AddressCtx := mkAddressCtx { ac_height : Z; ac_txs : list (TransactionId * list (Z * Z * list Z)) }.
Record AddrId := mkAddrId { script_type : ScriptType; addr_hash : list Z }.
Record AddressReceive := mkAddressReceive {
  rc_addr : AddrId; rc_height : Z; rc_txid : TransactionId; rc_output_index : Z; rc_value : Z }.
Record AddrKey := mkAddrKey {
  ak_addr : AddrId; ak_height : Z; ak_txid : TransactionId; ak_output_index : Z }.
Global Instance AddrId_eq_dec : EqDecision AddrId.
Proof. solve_decision. Defined.
Global Instance AddrKey_eq_dec : EqDecision AddrKey.
Proof. solve_decision. Defined.
Definition address_history_ID : string := "address_history".
Definition script_type_byte (t : ScriptType) : Z := match t with P2PKH => 0 | P2SH => 1 | NonStandard => 2 end.
Definition script_type_from_byte (b : Z) : result ScriptType DecodeError :=
  match b with 0 => Ok P2PKH | 1 => Ok P2SH | 2 => Ok NonStandard | _ => Err Invalid end.
Definition address_history_extract (ctx : AddressCtx) : result (list AddressReceive) Infallible :=
  Ok (mjoin ((fun '(txid, outputs) =>
    (fun '(output_index, value, script) =>
       let (hash, script_type) := classify_script script in
       mkAddressReceive (mkAddrId script_type hash) (ac_height ctx) txid output_index value) <$> outputs)
    <$> ac_txs ctx)).
Definition PersistentAddrKey : PersistentRecord AddrKey :=
  derived [AU8; AArray 20; ABeU64; AArray 32; ABeU32]
    (fun k => [VInt (script_type_byte (script_type (ak_addr k))); VBytes (addr_hash (ak_addr k));
               VInt (ak_height k); VBytes (ak_txid k); VInt (ak_output_index k)])
    (fun vs => match vs with
               | [VInt t; VBytes hash; VInt height; VBytes txid; VInt output_index] =>
                   let? script_type := script_type_from_byte t in
                   Ok (mkAddrKey (mkAddrId script_type hash) height txid output_index)
               | _ => Err Invalid
               end).
Definition PersistentReceiveValue : PersistentRecord Z :=
  derived [AU64] (fun v => [VInt v])
    (fun vs => match vs with
               | [VInt v] => map_err (fun _ => Invalid) (Zatoshis.new v)
               | _ => Err Invalid
               end).
Definition address_sample (t : ScriptType) (seed : Z) : AddrKey * Z :=
  (mkAddrKey (mkAddrId t (replicate 20 seed)) seed (replicate 32 seed) seed, seed + 1).
Definition AddressHistoryIndex : EntryCodec :=
  mkCodec AddrKey Z PersistentAddrKey PersistentReceiveValue Scattered
    [address_sample P2PKH 1; address_sample P2SH 2; address_sample NonStandard 3].
Definition address_history_schema : Schema AddressHistoryIndex (list (list AddressReceive)) :=
  mkSchema AddressHistoryIndex (list (list AddressReceive))
    (fun batches =>
       (fun r => (mkAddrKey (rc_addr r) (rc_height r) (rc_txid r) (rc_output_index r), rc_value r)) <$> mjoin batches)
    (fun entries =>
       [(fun kv => mkAddressReceive (ak_addr kv.1) (ak_height kv.1) (ak_txid kv.1) (ak_output_index kv.1) kv.2)
          <$> entries]).
(** ** Every index's entries read back *)

(** A record that is encoded and read back. *)
Definition stores {D} (R : PersistentRecord D) (d : D) : Prop :=
  record_inverts R d /\ rec_fits R (from_domain R d) = true.
Lemma codec_laws C wf :
  (forall k v, wf k v -> stores (PersistentKey C) k /\ stores (PersistentValue C) v) -> CodecLaws C wf.
Proof.
  intros Hs. split; intros k v [[Hk Fk] [Hv Fv]]%Hs; [exact Hk|exact Hv|].
  unfold entry_fits. cbn [fst snd]. by rewrite Fk, Fv.
Qed.
Lemma stores_height h : uint 64 h -> stores HeightKey h.
Proof. intros Hh. split; [by apply height_key_inverts|done]. Qed.
Lemma stores_hash h : hash32 h -> stores HashKey h.
Proof. intros [Hh _]. split; [by apply hash_key_inverts|done]. Qed.
Lemma map_result_inverts {A B E} (f : A -> result B E) (g : B -> A) l :
  Forall (fun b => f (g b) = Ok b) l -> map_result f (g <$> l) = Ok l.
Proof. induction 1 as [|b l Hb _ IH]; [done|]. cbn. by rewrite Hb, IH. Qed.
Lemma zatoshis_new_valid v : Zatoshis.valid v -> Zatoshis.new v = Ok v.
Proof.
  intros Hv. unfold Zatoshis.new. destruct (Z.ltb_spec Zatoshis.MAX_ZATOSHIS v) as [?|_]; [|done].
  unfold Zatoshis.valid in Hv. lia.
Qed.
Lemma zatoshis_uint v : Zatoshis.valid v -> uint 64 v.
Proof. intros [H0 H1]. split; [done|]. by eapply Z.le_lt_trans; [exact H1|]. Qed.

(** Field by field, from the hypotheses. *)
Ltac fields_ok := repeat (apply Forall2_cons_2; [cbn; try assumption|]); try apply Forall2_nil_2.

Definition hash_to_height_wf (k : BlockHash) (v : Z) : Prop := hash32 k /\ uint 64 v.
Global Instance hash_to_height_laws : CodecLaws HashToHeightIndex hash_to_height_wf.
Proof. apply codec_laws. intros k v [Hk Hv]. split; [by apply stores_hash|by apply stores_height]. Qed.

Definition txid_location_wf (k : TransactionId) (v : TxLocation) : Prop :=
  hash32 k /\ uint 64 (loc_height v) /\ uint 32 (tx_index v).
Global Instance txid_location_laws : CodecLaws TxidLocationIndex txid_location_wf.
Proof.
  apply codec_laws. intros k [h i] (Hk & Hh & Hi). split; [by apply stores_hash|].
  apply derived_inverts; [fields_ok|done|done].
Qed.

Definition txids_wf (k : Z) (v : list TransactionId) : Prop := uint 64 k /\ Forall hash32 v.
Lemma chunks_exact_join fuel v :
  Forall (fun t => length t = 32%nat) v -> (length v <= fuel)%nat -> chunks_exact 32 fuel (mjoin v) = v.
Proof.
  intros Hv. revert fuel. induction Hv as [|t v Ht _ IH]; intros fuel Hf.
  { destruct fuel; done. }
  destruct fuel as [|fuel]; [cbn in Hf; lia|]. change (mjoin (t :: v)) with (t ++ mjoin v).
  cbn [chunks_exact]. destruct (Nat.ltb_spec (length (t ++ mjoin v)) 32) as [Hlt|_].
  { rewrite length_app in Hlt. lia. }
  rewrite <- Ht, take_app_length, drop_app_length, Ht. f_equal. apply IH. cbn in Hf. lia.
Qed.
Lemma length_join32 (v : list (list Z)) :
  Forall (fun t => length t = 32%nat) v -> length (mjoin v) = (32 * length v)%nat.
Proof.
  induction 1 as [|t v Ht _ IH]; [done|]. change (mjoin (t :: v)) with (t ++ mjoin v).
  rewrite length_app, IH, Ht. cbn [length]. lia.
Qed.
Global Instance txids_laws : CodecLaws TxidsIndex txids_wf.
Proof.
  apply codec_laws. intros k v [Hk Hv]. split; [by apply stores_height|]. split; [|done].
  assert (Forall (fun t => length t = 32%nat) v) as Hl by (eapply Forall_impl; [exact Hv|]; by intros t [? _]).
  unfold record_inverts. cbn [PersistentValue TxidsIndex PersistentTxidsValue rec_decode rec_encode from_domain into_domain].
  unfold txids_decode, txids_encode, blen. rewrite (length_join32 v Hl).
  replace (Z.of_nat (32 * length v)) with (Z.of_nat (length v) * 32) by lia.
  rewrite Z.mod_mul by done. cbn [negb Z.eqb]. by rewrite chunks_exact_join by (done || lia).
Qed.

Definition transparent_spends_wf (k : OutpointKey) (v : TransactionId) : Prop :=
  hash32 (ok_prev_txid k) /\ uint 32 (ok_prev_index k) /\ hash32 v.
Global Instance transparent_spends_laws : CodecLaws TransparentSpendsIndex transparent_spends_wf.
Proof.
  apply codec_laws. intros [t i] v (Ht & Hi & Hv). split; [|by apply stores_hash].
  apply derived_inverts; [fields_ok|done|done].
Qed.

Definition headers_wf (k : Z) (v : HeaderValue) : Prop :=
  uint 64 k /\ hash32 (hv_hash v) /\ hash32 (hv_prev_hash v) /\ uint 32 (hv_time v) /\
  uint 32 (CompactDifficulty.bits (hv_bits v)) /\
  CompactDifficulty.try_from_bits (CompactDifficulty.bits (hv_bits v)) = Ok (hv_bits v).
Global Instance headers_laws : CodecLaws HeadersIndex headers_wf.
Proof.
  apply codec_laws. intros k [h p t b] (Hk & Hh & Hp & Ht & Hb & Hd). split; [by apply stores_height|].
  apply derived_inverts; [fields_ok|done|].
  cbn [hv_bits hv_hash hv_prev_hash hv_time] in *. by rewrite Hd.
Qed.

Definition metadata_ok (m : ChainMetadata) : Prop :=
  uint 32 (sapling_tree_size m) /\ uint 32 (orchard_tree_size m) /\ uint 32 (ironwood_tree_size m).
Definition chain_metadata_wf (k : Z) (v : ChainMetadata) : Prop := uint 64 k /\ metadata_ok v.
Global Instance chain_metadata_laws : CodecLaws ChainMetadataIndex chain_metadata_wf.
Proof.
  apply codec_laws. intros k [s o i] (Hk & Hs & Ho & Hi). split; [by apply stores_height|].
  apply derived_inverts; [fields_ok|done|done].
Qed.

Definition address_history_wf (k : AddrKey) (v : Z) : Prop :=
  bytes_of 20 (addr_hash (ak_addr k)) /\ uint 64 (ak_height k) /\ hash32 (ak_txid k) /\
  uint 32 (ak_output_index k) /\ Zatoshis.valid v.
Global Instance address_history_laws : CodecLaws AddressHistoryIndex address_history_wf.
Proof.
  apply codec_laws. intros [[t a] h x i] v (Ha & Hh & Hx & Hi & Hv). split; apply derived_inverts; try done.
  - fields_ok. by destruct t.
  - by destruct t.
  - fields_ok. by apply zatoshis_uint.
  - cbn. by rewrite zatoshis_new_valid.
Qed.
(** *** The count-prefixed pools *)
Definition counted {A} (P : A -> Prop) (l : list A) : Prop := Z.of_nat (length l) < 2 ^ 32 /\ Forall P l.

Lemma codes_counted_map {A B} (f : A -> B) enc dec (P : A -> Prop) l :
  counted P l -> (forall a, P a -> codes enc dec (f a)) -> codes (put_counted enc) (get_counted dec) (f <$> l).
Proof.
  intros [Hn Hl] Hf. apply codes_counted; [by rewrite length_fmap|]. apply Forall_fmap.
  eapply Forall_impl; [exact Hl|exact Hf].
Qed.
Lemma into_map {A B} (f : A -> result B DecodeError) (g : B -> A) (P : B -> Prop) l :
  counted P l -> (forall b, P b -> f (g b) = Ok b) -> map_result f (g <$> l) = Ok l.
Proof. intros [_ Hl] Hf. apply map_result_inverts. eapply Forall_impl; [exact Hl|exact Hf]. Qed.

Lemma reads_bytes32 h : hash32 h -> reads bytes32 h h.
Proof. intros [Hh _]. apply reads_take. unfold blen. by rewrite Hh. Qed.
Definition input_wf (input : TransactionId * Z) : Prop := hash32 input.1 /\ uint 32 input.2.
Definition output_wf (output : Z * list Z) : Prop := Zatoshis.valid output.1 /\ blen output.2 < 2 ^ 32.
Definition transparent_tx_wf (tx : TransparentTxCompact) : Prop :=
  counted input_wf (tt_inputs tx) /\ counted output_wf (tt_outputs tx).
Definition transparent_data_wf (k : Z) (v : list TransparentTxCompact) : Prop :=
  uint 64 k /\ counted transparent_tx_wf v /\ sized transparent_encode (transparent_from_domain v).

Lemma codes_transparent_tx tx :
  transparent_tx_wf tx ->
  codes put_transparent_tx get_transparent_tx
    (mkPTTx ((fun '(txid, idx) => mkPTInput txid idx) <$> tt_inputs tx)
            ((fun '(value, script) => mkPTOutput value script) <$> tt_outputs tx)).
Proof.
  intros [Hi Ho].
  destruct (codes_counted_map (fun '(txid, idx) => mkPTInput txid idx) put_transparent_input get_transparent_input
    _ _ Hi) as (ei & Hei & Hri).
  { intros [t i] [Ht Hx]. exists (t ++ put_u32 i). split; [done|]. cbn in Ht, Hx.
    eapply reads_bind; [by apply reads_bytes32|].
    apply (reads_map _ (fun x => mkPTInput t x)), (reads_le 4), Hx. }
  destruct (codes_counted_map (fun '(value, script) => mkPTOutput value script) put_transparent_output
    get_transparent_output _ _ Ho) as (eo & Heo & Hro).
  { intros [v s] [Hv Hs]. cbn in Hv, Hs. destruct (codes_len_prefixed s Hs) as (es & Hes & Hrs).
    unfold codes, put_transparent_output. cbn [pto_script pto_value]. rewrite Hes. eexists. split; [done|].
    eapply reads_bind; [apply (reads_le 8), zatoshis_uint, Hv|]. by apply (reads_map _ (fun x => mkPTOutput v x)). }
  unfold codes, put_transparent_tx. cbn [ptt_inputs ptt_outputs]. rewrite Hei, Heo. eexists. split; [done|].
  eapply reads_bind; [exact Hri|]. by apply (reads_map _ (mkPTTx _)).
Qed.
Global Instance transparent_data_laws : CodecLaws TransparentDataIndex transparent_data_wf.
Proof.
  apply codec_laws. intros k v (Hk & Hv & Hs). split; [by apply stores_height|]. apply framed_inverts; [|done|].
  - eapply codes_counted_map; [exact Hv|apply codes_transparent_tx].
  - eapply into_map; [exact Hv|]. intros tx [Hi Ho]. cbn [ptt_inputs ptt_outputs].
    rewrite (into_map _ _ output_wf); [|done|].
    + rewrite <- list_fmap_compose. unfold compose. destruct tx as [ins outs]. cbn [tt_inputs tt_outputs] in *. do 2 f_equal.
      rewrite <- (list_fmap_id ins) at 2. apply list_fmap_ext. by intros ? [t i] _.
    + intros [x sc] [Hx _]. unfold transparent_into_output. cbn in Hx |- *. by rewrite zatoshis_new_valid.
Qed.

Definition ciphertext_ok (enc : list Z) : Prop := length enc = CIPHERTEXT_LENGTH.
Lemma ciphertext_try_new_ok enc : ciphertext_ok enc -> ciphertext_try_new enc = Ok enc.
Proof. intros He. unfold ciphertext_try_new. by rewrite He. Qed.
Lemma codes_ciphertext enc : ciphertext_ok enc -> codes put_len_prefixed get_len_prefixed enc.
Proof. intros He. apply codes_len_prefixed. unfold blen. by rewrite He. Qed.

Definition sapling_output_wf (o : list Z * list Z * list Z) : Prop :=
  hash32 o.1.1 /\ hash32 o.1.2 /\ ciphertext_ok o.2.
Definition sapling_tx_wf (tx : SaplingTxCompact) : Prop :=
  counted hash32 (st_nullifiers tx) /\ counted sapling_output_wf (st_outputs tx).
Definition sapling_wf (k : Z) (v : list SaplingTxCompact) : Prop :=
  uint 64 k /\ counted sapling_tx_wf v /\ sized sapling_encode (sapling_from_domain v).

Lemma codes_sapling_tx tx :
  sapling_tx_wf tx ->
  codes put_sapling_tx get_sapling_tx
    (mkPSTx (st_nullifiers tx) ((fun '(cmu, epk, enc) => mkPSOutput cmu epk enc) <$> st_outputs tx)).
Proof.
  intros [[Hn Hns] Ho].
  destruct (codes_counted put_raw bytes32 (st_nullifiers tx) Hn) as (en & Hen & Hrn).
  { eapply Forall_impl; [exact Hns|]. intros h [Hh _]. by apply codes_bytes32. }
  destruct (codes_counted_map (fun '(cmu, epk, enc) => mkPSOutput cmu epk enc) put_sapling_output get_sapling_output
    _ _ Ho) as (eo & Heo & Hro).
  { intros [[c e] x] (Hc & He & Hx). cbn in Hc, He, Hx. destruct (codes_ciphertext x Hx) as (ex & Hex & Hrx).
    unfold codes, put_sapling_output. cbn [pso_enc pso_cmu pso_epk]. rewrite Hex. eexists. split; [done|].
    eapply reads_bind; [by apply reads_bytes32|]. eapply reads_bind; [by apply reads_bytes32|].
    by apply (reads_map _ (mkPSOutput c e)). }
  unfold codes, put_sapling_tx. cbn [pst_nullifiers pst_outputs]. rewrite Hen, Heo. eexists. split; [done|].
  eapply reads_bind; [exact Hrn|]. by apply (reads_map _ (mkPSTx _)).
Qed.
Global Instance sapling_laws : CodecLaws SaplingIndex sapling_wf.
Proof.
  apply codec_laws. intros k v (Hk & Hv & Hs). split; [by apply stores_height|]. apply framed_inverts; [|done|].
  - eapply codes_counted_map; [exact Hv|apply codes_sapling_tx].
  - eapply into_map; [exact Hv|]. intros [ns os] [_ Ho]. cbn [pst_nullifiers pst_outputs st_outputs st_nullifiers] in *.
    rewrite (into_map _ _ sapling_output_wf); [done|done|].
    intros [[c e] x] (_ & _ & Hx). unfold sapling_into_output. cbn in Hx |- *. by rewrite ciphertext_try_new_ok.
Qed.

Definition action_wf (a : ActionCompact) : Prop :=
  hash32 a.1.1.1 /\ hash32 a.1.1.2 /\ hash32 a.1.2 /\ ciphertext_ok a.2.
Definition orchard_tx_wf (tx : OrchardTxCompact) : Prop := counted action_wf (ot_actions tx).
Definition orchard_wf (k : Z) (v : list OrchardTxCompact) : Prop :=
  uint 64 k /\ counted orchard_tx_wf v /\ sized orchard_encode (orchard_from_domain v).
Definition ironwood_wf (k : Z) (v : list OrchardTxCompact) : Prop :=
  uint 64 k /\ counted orchard_tx_wf v /\ sized ironwood_encode (ironwood_from_domain v).

Global Instance orchard_laws : CodecLaws OrchardIndex orchard_wf.
Proof.
  apply codec_laws. intros k v (Hk & Hv & Hs). split; [by apply stores_height|]. apply framed_inverts; [|done|].
  - eapply codes_counted_map; [exact Hv|]. intros tx Ha. cbn beta.
    destruct (codes_counted_map (fun '(nf, cmx, epk, enc) => mkPOAction nf cmx epk enc) put_orchard_action
      get_orchard_action _ _ Ha) as (e & He & Hr).
    { intros [[[n c] p] x] (Hn & Hc & Hp & Hx). cbn in Hn, Hc, Hp, Hx.
      destruct (codes_ciphertext x Hx) as (ex & Hex & Hrx). unfold codes, put_orchard_action.
      cbn [poa_enc poa_nullifier poa_cmx poa_epk]. rewrite Hex. eexists. split; [done|].
      do 3 (eapply reads_bind; [by apply reads_bytes32|]). by apply (reads_map _ (mkPOAction n c p)). }
    exists e. split; [done|]. by apply (reads_map _ mkPOTx).
  - eapply into_map; [exact Hv|]. intros [acts] Ha. cbn [pot_actions ot_actions] in *.
    rewrite (into_map _ _ action_wf); [done|exact Ha|].
    intros [[[n c] p] x] (_ & _ & _ & Hx). unfold orchard_into_action. cbn in Hx |- *. by rewrite ciphertext_try_new_ok.
Qed.
Global Instance ironwood_laws : CodecLaws IronwoodIndex ironwood_wf.
Proof.
  apply codec_laws. intros k v (Hk & Hv & Hs). split; [by apply stores_height|]. apply framed_inverts; [|done|].
  - eapply codes_counted_map; [exact Hv|]. intros tx Ha. cbn beta.
    destruct (codes_counted_map (fun '(nf, cmx, epk, enc) => mkPIAction nf cmx epk enc) put_ironwood_action
      get_ironwood_action _ _ Ha) as (e & He & Hr).
    { intros [[[n c] p] x] (Hn & Hc & Hp & Hx). cbn in Hn, Hc, Hp, Hx.
      destruct (codes_ciphertext x Hx) as (ex & Hex & Hrx). unfold codes, put_ironwood_action.
      cbn [pia_enc pia_nullifier pia_cmx pia_epk]. rewrite Hex. eexists. split; [done|].
      do 3 (eapply reads_bind; [by apply reads_bytes32|]). by apply (reads_map _ (mkPIAction n c p)). }
    exists e. split; [done|]. by apply (reads_map _ mkPITx).
  - eapply into_map; [exact Hv|]. intros [acts] Ha. cbn [pit_actions ot_actions] in *.
    rewrite (into_map _ _ action_wf); [done|exact Ha|].
    intros [[[n c] p] x] (_ & _ & _ & Hx). unfold ironwood_into_action. cbn in Hx |- *. by rewrite ciphertext_try_new_ok.
Qed.
End Indexes.
