(* ===== verification/IndexSet.v ===== *)
(** * Index sets and what they serve
    ([packages/zaino-indexes/src/{sets,capabilities,index_set}], [packages/zaino-service/src/capability.rs])

    One context per block feeds every index of a set; a capability is served
    where all its indexes are built. *)

From S2P Require Import Prelude Primitives Types Persistence Codec Engine Bridge Indexes TreeSegment TreeState.
From stdpp Require Import base gmap list strings.
From Stdlib Require Import Lia.
Open Scope Z_scope.

Module IndexSet.
Import Kv Codec Indexes.

(** ** [sets/current_zaino.rs] *)
Record CurrentZainoContext := mkZainoContext {
  z_height : Z;
  z_hash : BlockHash;
  z_prev_hash : BlockHash;
  z_time : Z;
  z_bits : Difficulty.CompactDifficulty.CompactDifficulty;
  z_txids : list TransactionId;
  z_spends : list (TransactionId * Z * TransactionId);
  z_txid_locations : list (TransactionId * Z * Z);
  z_transparent_txs : list TransparentTxCompact;
  z_sapling_txs : list SaplingTxCompact;
  z_orchard_txs : list OrchardTxCompact;
  z_ironwood_txs : list OrchardTxCompact }.

Definition transparent_tx (ins : list TransparentInput) (outs : list TransparentOutput) : TransparentTxCompact :=
  mkTransparentTxCompact ((fun inp => (prev_txid inp, prev_index inp)) <$> ins)
    ((fun out => (out_value out, out_script out)) <$> outs).
Definition sapling_tx (nullifiers : list (list Z)) (outs : list SaplingOutput) : SaplingTxCompact :=
  mkSaplingTxCompact nullifiers ((fun o => (cmu o, s_ephemeral_key o, s_enc_ciphertext o)) <$> outs).
Definition orchard_tx (acts : list OrchardAction) : OrchardTxCompact :=
  mkOrchardTxCompact ((fun a => (nullifier a, cmx a, o_ephemeral_key a, o_enc_ciphertext a)) <$> acts).
Definition tx_spends (ins : list TransparentInput) (id : TransactionId) : list (TransactionId * Z * TransactionId) :=
  (fun inp => (prev_txid inp, prev_index inp, id)) <$> ins.

(** [u32::try_from(index).expect(..)] for every index. *)
Fixpoint locate (height : Z) (index : nat) (txs : list Transaction) : option (list (TransactionId * Z * Z)) :=
  match txs with
  | [] => Some []
  | tx :: txs =>
      let! i := try_narrow 32 (Z.of_nat index) in
      let! rest := locate height (S index) txs in
      Some ((txid tx, height, i) :: rest)
  end.

Definition context_from_block (block : Block) : option CurrentZainoContext :=
  let height := h_height (header block) in
  let txs := transactions block in
  let txids := txid <$> txs in
  let block_spends := mjoin ((fun tx => tx_spends (inputs (transparent tx)) (txid tx)) <$> txs) in
  let! txid_locations := locate height 0 txs in
  let transparent_txs := (fun tx => transparent_tx (inputs (transparent tx)) (outputs (transparent tx))) <$> txs in
  let sapling_txs := (fun tx => sapling_tx (spends (sapling tx)) (s_outputs (sapling tx))) <$> txs in
  let orchard_txs := (fun tx => orchard_tx (actions (orchard tx))) <$> txs in
  let ironwood_txs := (fun tx => orchard_tx (actions (ironwood tx))) <$> txs in
  Some (mkZainoContext height (h_hash (header block)) (h_prev_hash (header block)) (h_time (header block))
          (h_bits (header block)) txids block_spends txid_locations transparent_txs sapling_txs orchard_txs ironwood_txs).

(** [tx_index as u32] *)
Definition pre_index_step (height : Z) (c : CurrentZainoContext) (itx : nat * PreIndexCompactTx) : CurrentZainoContext :=
  let (index, tx) := itx in
  mkZainoContext (z_height c) (z_hash c) (z_prev_hash c) (z_time c) (z_bits c)
    (z_txids c ++ [pt_txid tx])
    (z_spends c ++ tx_spends (transparent_inputs tx) (pt_txid tx))
    (z_txid_locations c ++ [(pt_txid tx, height, wrapping 32 (Z.of_nat index))])
    (z_transparent_txs c ++ [transparent_tx (transparent_inputs tx) (transparent_outputs tx)])
    (z_sapling_txs c ++ [sapling_tx (sapling_nullifiers tx) (sapling_outputs tx)])
    (z_orchard_txs c ++ [orchard_tx (orchard_actions tx)])
    (z_ironwood_txs c ++ [orchard_tx (ironwood_actions tx)]).
Definition context_from_pre_index_compact_block (cb : PreIndexCompactBlock) : CurrentZainoContext :=
  let height := pb_height cb in
  fold_left (pre_index_step height) (imap (fun i tx => (i, tx)) (pb_transactions cb))
    (mkZainoContext height (pb_hash cb) (pb_prev_hash cb) (pb_time cb) (pb_bits cb) [] [] [] [] [] [] []).

(** *** [ProvideContext] projections *)
Definition header_context (c : CurrentZainoContext) : HeaderCtx :=
  mkHeaderCtx (z_height c) (z_hash c) (z_prev_hash c) (z_time c) (z_bits c).
Definition txids_context (c : CurrentZainoContext) : TxidsCtx := mkTxidsCtx (z_height c) (z_txids c).
Definition hash_to_height_context (c : CurrentZainoContext) : HashToHeightCtx :=
  mkHashToHeightCtx (z_hash c) (z_height c).
Definition spend_context (c : CurrentZainoContext) : SpendCtx := mkSpendCtx (z_spends c).
Definition txid_location_context (c : CurrentZainoContext) : TxidLocationCtx := mkTxidLocationCtx (z_txid_locations c).
Definition transparent_data_context (c : CurrentZainoContext) : TransparentDataCtx :=
  mkTransparentDataCtx (z_height c) (z_transparent_txs c).
Definition address_context (c : CurrentZainoContext) : AddressCtx :=
  mkAddressCtx (z_height c)
    (zip_with (fun txid tx =>
       (txid, omap (fun '(index, (value, script)) =>
                      let! index := try_narrow 32 (Z.of_nat index) in Some (index, value, script))
                (imap pair (tt_outputs tx))))
       (z_txids c) (z_transparent_txs c)).
Definition sapling_context (c : CurrentZainoContext) : SaplingCtx := mkSaplingCtx (z_height c) (z_sapling_txs c).
Definition orchard_context (c : CurrentZainoContext) : OrchardCtx := mkOrchardCtx (z_height c) (z_orchard_txs c).
Definition ironwood_context (c : CurrentZainoContext) : IronwoodCtx := mkIronwoodCtx (z_height c) (z_ironwood_txs c).
Definition tree_state_context (c : CurrentZainoContext) : TreeState.TreeStateCtx :=
  TreeState.mkCtx (z_height c) (z_hash c)
    (mjoin ((fun tx => (fun '(cmu, _, _) => cmu) <$> st_outputs tx) <$> z_sapling_txs c))
    (mjoin ((fun tx => (fun '(_, cmx, _, _) => cmx) <$> ot_actions tx) <$> z_orchard_txs c))
    (mjoin ((fun tx => (fun '(_, cmx, _, _) => cmx) <$> ot_actions tx) <$> z_ironwood_txs c)).
(** [tree_state_ctx] *)
Definition tree_state_ctx (block : Block) : option TreeState.TreeStateCtx :=
  let! c := context_from_block block in Some (tree_state_context c).
(** The sums count elements of vectors in memory, fewer than 2^64. *)
Definition sum_lengths {A B} (f : A -> list B) (l : list A) : Z :=
  foldr (fun a n => Z.of_nat (length (f a)) + n) 0 l.
Definition chain_metadata_context (c : CurrentZainoContext) : ChainMetadataCtx :=
  mkChainMetadataCtx (z_height c) (sum_lengths st_outputs (z_sapling_txs c))
    (sum_lengths ot_actions (z_orchard_txs c)) (sum_lengths ot_actions (z_ironwood_txs c)).

(** ** The sets' indexes *)
Definition compact_blocks_indexes : list string :=
  [headers_ID; txids_ID; hash_to_height_ID; transparent_data_ID; sapling_ID; orchard_ID; ironwood_ID;
   chain_metadata_ID].
Definition transparent_history_indexes : list string :=
  compact_blocks_indexes ++ [address_history_ID; transparent_spends_ID; txid_location_ID].
(** [subtrees.rs]: the per-pool names. *)
Definition subtree_indexes : list string := ["subtrees_sapling"; "subtrees_orchard"; "subtrees_ironwood"]%string.
Definition tree_state_ID : string := "tree_state".
Definition light_wallet_local_indexes : list string :=
  transparent_history_indexes ++ tree_state_ID :: subtree_indexes.
Definition node_rpc_local_indexes : list string :=
  transparent_history_indexes ++ tree_state_ID :: subtree_indexes.
Definition current_zaino_indexes : list string :=
  [headers_ID; txids_ID; hash_to_height_ID; transparent_spends_ID; txid_location_ID; transparent_data_ID;
   sapling_ID; orchard_ID; ironwood_ID; chain_metadata_ID].

(** ** Capabilities *)
Inductive Capability :=
| Blocks | TransactionLocation | RawTransaction | Treestate | AddressHistory | SpendStatus | SubtreeRoots
| MempoolCap | Broadcast | ReportedUpgrades | NodeStatus.
Global Instance Capability_eq_dec : EqDecision Capability.
Proof. solve_decision. Defined.
Inductive Answerable := Absent | NotYet | ToHeight (h : Z) | Live.
Definition all_capabilities : list Capability :=
  [Blocks; TransactionLocation; RawTransaction; Treestate; AddressHistory; SpendStatus; SubtreeRoots;
   MempoolCap; Broadcast; ReportedUpgrades; NodeStatus].
Definition ServiceabilityManifest : Type := list (Capability * Answerable).
Definition manifest_derive (answer : Capability -> Answerable) : ServiceabilityManifest :=
  (fun c => (c, answer c)) <$> all_capabilities.
Definition manifest_uniform (answer : Answerable) : ServiceabilityManifest := manifest_derive (fun _ => answer).
Fixpoint manifest_get (m : ServiceabilityManifest) (capability : Capability) : Answerable :=
  match m with
  | [] => Absent
  | (c, answer) :: m => if decide (c = capability) then answer else manifest_get m capability
  end.

(** [capabilities/local.rs], [capability_indexes] *)
Definition capability_indexes (capability : Capability) : list string :=
  match capability with
  | Blocks => [headers_ID; txids_ID; hash_to_height_ID; transparent_data_ID; sapling_ID; orchard_ID; ironwood_ID;
               chain_metadata_ID]
  | TransactionLocation => [txid_location_ID]
  | AddressHistory => [address_history_ID; transparent_spends_ID; txid_location_ID; transparent_data_ID]
  | SpendStatus => [transparent_spends_ID; txid_location_ID; transparent_data_ID]
  | Treestate => [tree_state_ID; headers_ID]
  | SubtreeRoots => subtree_indexes
  | RawTransaction | MempoolCap | Broadcast | NodeStatus | ReportedUpgrades => []
  end.
Definition index_built (reader : BackendReader) (index : string) : bool :=
  match recorded_version reader index with
  | Ok (Some _) => true
  | _ => false
  end.
Definition serviceability (reader : BackendReader) (watermark : option Z) : ServiceabilityManifest :=
  manifest_derive (fun capability =>
    let required := capability_indexes capability in
    let built := negb (bool_decide (required = [])) && forallb (index_built reader) required in
    match built, watermark with
    | true, Some watermark => ToHeight watermark
    | true, None => NotYet
    | false, _ => Absent
    end).
(** ** The two ways to a context agree *)
Definition located (height : Z) (n : nat) (txs : list Transaction) : list (TransactionId * Z * Z) :=
  imap (fun i tx => (txid tx, height, Z.of_nat (n + i))) txs.
Lemma located_cons h n tx txs : located h n (tx :: txs) = (txid tx, h, Z.of_nat n) :: located h (S n) txs.
Proof.
  unfold located. cbn [imap]. rewrite Nat.add_0_r. f_equal. apply imap_ext. intros i x _. cbn.
  by rewrite Nat.add_succ_r.
Qed.

Lemma locate_spec h n txs :
  locate h n txs =
  if bool_decide (txs = []) || (Z.of_nat (n + length txs) <=? 2 ^ 32) then Some (located h n txs) else None.
Proof.
  revert n. induction txs as [|tx txs IH]; intros n; [done|]. rewrite located_cons. cbn [locate length].
  unfold try_narrow. rewrite IH. cbn [orb bool_decide].
  rewrite (bool_decide_false (tx :: txs = [])) by done. cbn [orb].
  replace (n + S (length txs))%nat with (S n + length txs)%nat by lia.
  destruct (Z.ltb_spec (Z.of_nat n) (2 ^ 32)), (Z.leb_spec (Z.of_nat (S n + length txs)) (2 ^ 32));
    rewrite ?orb_true_r, ?orb_false_r; try done; try lia.
  destruct txs; [cbn [length] in *; lia|]. by rewrite bool_decide_false.
Qed.

Lemma pre_index_fold h n txs c :
  fold_left (pre_index_step h) (imap (fun i tx => (n + i, tx)%nat) txs) c =
  mkZainoContext (z_height c) (z_hash c) (z_prev_hash c) (z_time c) (z_bits c)
    (z_txids c ++ (pt_txid <$> txs))
    (z_spends c ++ mjoin ((fun tx => tx_spends (transparent_inputs tx) (pt_txid tx)) <$> txs))
    (z_txid_locations c ++ imap (fun i tx => (pt_txid tx, h, wrapping 32 (Z.of_nat (n + i)))) txs)
    (z_transparent_txs c ++ ((fun tx => transparent_tx (transparent_inputs tx) (transparent_outputs tx)) <$> txs))
    (z_sapling_txs c ++ ((fun tx => sapling_tx (sapling_nullifiers tx) (sapling_outputs tx)) <$> txs))
    (z_orchard_txs c ++ ((fun tx => orchard_tx (orchard_actions tx)) <$> txs))
    (z_ironwood_txs c ++ ((fun tx => orchard_tx (ironwood_actions tx)) <$> txs)).
Proof.
  revert n c. induction txs as [|tx txs IH]; intros n c; [cbn; rewrite !app_nil_r; by destruct c|].
  assert (forall A (f : nat -> PreIndexCompactTx -> A),
    imap (fun i => f (n + S i)%nat) txs = imap (fun i => f (S n + i)%nat) txs) as Hshift.
  { intros A f. apply imap_ext. intros i x _. by rewrite Nat.add_succ_r. }
  cbn [imap fold_left fmap list_fmap]. unfold compose.
  rewrite (Hshift _ (fun i tx => (i, tx))), (Hshift _ (fun i tx => (pt_txid tx, h, wrapping 32 (Z.of_nat i)))), IH.
  cbn. rewrite Nat.add_0_r, <- !app_assoc. done.
Qed.

(** A block and its compact form index alike.  The context of a block's
    compact form, which skips proofs and signatures, is the block's own in every
    component, so every index extracts the same from either; the block's context
    is refused only past 2^32 transactions, where the compact one would wrap a
    transaction's position. *)
Theorem contexts_agree block :
  context_from_block block =
  if Z.of_nat (length (transactions block)) <=? 2 ^ 32
  then Some (context_from_pre_index_compact_block (pre_index_block block)) else None.
Proof.
  unfold context_from_block, context_from_pre_index_compact_block. rewrite locate_spec.
  rewrite (pre_index_fold _ 0). cbn [pre_index_block pb_height pb_hash pb_prev_hash pb_time pb_bits pb_transactions
    z_height z_hash z_prev_hash z_time z_bits z_txids z_spends z_txid_locations z_transparent_txs z_sapling_txs
    z_orchard_txs z_ironwood_txs app Nat.add].
  destruct (Z.leb_spec (Z.of_nat (length (transactions block))) (2 ^ 32)) as [Hle|Hgt].
  - rewrite orb_true_r, <- !list_fmap_compose. unfold compose. cbn. do 2 f_equal.
    unfold located. rewrite imap_fmap. unfold compose. apply imap_ext. intros i tx Hi%lookup_lt_Some. cbn.
    do 2 f_equal. symmetry. apply Z.mod_small. lia.
  - rewrite orb_false_r, bool_decide_false; [done|]. intros Hnil. rewrite Hnil in Hgt. cbn in Hgt. lia.
Qed.
End IndexSet.
