(* ===== verification/Store.v ===== *)
(** * The finalised store as a provider ([packages/zaino-store/src/*.rs])

    Reads composed from the indexes on every call.  A snapshot pins the
    watermark; the backend it reads is live. *)

From S2P Require Import Prelude Primitives Types Persistence Codec Bridge Indexes IndexSet.
From stdpp Require Import base gmap list strings sorting.
From Stdlib Require Import Lia.
Open Scope Z_scope.

Module Store.
Import Kv Layout Codec Indexes IndexSet.

(** [BlockReadError], [TxReadError], [SpendReadError], [ReadError]: one shape, the
    messages left out. *)
Inductive StoreError := NotServiceable (c : Capability) | Transient | Fatal.

Inductive BlockSelector := AtHeight (h : Z) | AtHash (hash : BlockHash).
Record ServiceableRange := mkServiceableRange { sr_watermark : option Z; sr_tip : Z }.
Record HeaderSummary := mkHeaderSummary { hs_hash : BlockHash; hs_time : Z }.

(** ** Index reads *)

(** [read_keyed], [read_index_value] *)
Definition read_keyed (C : EntryCodec) (reader : BackendReader) (namespace : string) (key : Key C)
    : result (option (Value C)) StoreError :=
  let? fresh := map_err (fun _ => Transient) (freshness C reader namespace) in
  match fresh with
  | Stale => Ok None
  | Fresh =>
      let? raw := map_err (fun _ => Transient) (r_get reader namespace (encode_key C key)) in
      match raw with
      | Some bytes => let? v := map_err (fun _ => Transient) (decode_value C bytes) in Ok (Some v)
      | None => Ok None
      end
  end.

(** [Height::try_from(u32::try_from(..)?)] *)
Definition indexed_height (height : Z) : option Z :=
  let! h := try_narrow 32 height in ok (Height.try_from h).

Definition resolve_hash (reader : BackendReader) (hash : BlockHash) : result (option Z) StoreError :=
  let? fresh := map_err (fun _ => Transient) (freshness HashToHeightIndex reader hash_to_height_ID) in
  match fresh with
  | Stale => Ok None
  | Fresh =>
      let? raw := map_err (fun _ => Transient)
                    (r_get reader hash_to_height_ID (encode_key HashToHeightIndex hash)) in
      match raw with
      | Some bytes =>
          let? block_height := map_err (fun _ => Transient) (decode_value HashToHeightIndex bytes) in
          let? h := ok_or (indexed_height block_height) Transient in
          Ok (Some h)
      | None => Ok None
      end
  end.

Fixpoint serviceability_gate (reader : BackendReader) (namespaces : list string) (capability : Capability)
    : result (option Capability) ReadError :=
  match namespaces with
  | [] => Ok None
  | namespace :: namespaces =>
      let? complete := r_is_complete reader namespace in
      if negb complete then Ok (Some capability) else serviceability_gate reader namespaces capability
  end.
(** The gate's answer as each read folds it in. *)
Definition gated (reader : BackendReader) (namespaces : list string) (capability : Capability)
    : result unit StoreError :=
  let? g := map_err (fun _ => Transient) (serviceability_gate reader namespaces capability) in
  match g with
  | Some capability => Err (NotServiceable capability)
  | None => Ok tt
  end.

(** ** Blocks *)

(** [read_present], [require]; the height-keyed indexes. *)
Definition require (C : EntryCodec) (reader : BackendReader) (namespace : string) (key : Key C)
    : result (Value C) StoreError :=
  let? v := read_keyed C reader namespace key in
  ok_or v Fatal.

Definition compact_tx (txid : TransactionId) (transparent : TransparentTxCompact) (sapling : SaplingTxCompact)
    (orchard ironwood : OrchardTxCompact) : PreIndexCompactTx :=
  let action '(nullifier, cmx, ephemeral_key, enc_ciphertext) :=
    mkOrchardAction nullifier cmx ephemeral_key enc_ciphertext in
  mkPreIndexCompactTx txid
    ((fun '(prev_txid, prev_index) => mkTransparentInput prev_txid prev_index) <$> tt_inputs transparent)
    ((fun '(value, script) => mkTransparentOutput value script) <$> tt_outputs transparent)
    (st_nullifiers sapling)
    ((fun '(cmu, ephemeral_key, enc) => mkSaplingOutput cmu ephemeral_key enc) <$> st_outputs sapling)
    (action <$> ot_actions orchard)
    (action <$> ot_actions ironwood).

(** The nested [zip]s. *)
Fixpoint zip_txs (txids : list TransactionId) (transparent : list TransparentTxCompact)
    (sapling : list SaplingTxCompact) (orchard ironwood : list OrchardTxCompact) : list PreIndexCompactTx :=
  match txids, transparent, sapling, orchard, ironwood with
  | id :: txids, t :: transparent, s :: sapling, o :: orchard, i :: ironwood =>
      compact_tx id t s o i :: zip_txs txids transparent sapling orchard ironwood
  | _, _, _, _, _ => []
  end.

Definition read_compact_block (reader : BackendReader) (height : Z) : result (option CompactBlock) StoreError :=
  let? header := read_keyed HeadersIndex reader headers_ID height in
  match header with
  | None => Ok None
  | Some header =>
      let? chain_metadata := require ChainMetadataIndex reader chain_metadata_ID height in
      let? txids := require TxidsIndex reader txids_ID height in
      let? transparent := require TransparentDataIndex reader transparent_data_ID height in
      let? sapling := require SaplingIndex reader sapling_ID height in
      let? orchard := require OrchardIndex reader orchard_ID height in
      let? ironwood := require IronwoodIndex reader ironwood_ID height in
      if negb (forallb (fun len => len =? length txids)%nat
                 [length transparent; length sapling; length orchard; length ironwood])
      then Err Fatal
      else Ok (Some (mkCompactBlock (hv_hash header) (hv_prev_hash header) height (hv_time header)
                       (hv_bits header) (zip_txs txids transparent sapling orchard ironwood) chain_metadata))
  end.

Section Reader.
Context {BSt : Type} (B : Backend BSt).

Definition open (b : BSt) : result BackendReader StoreError := map_err (fun _ => Fatal) (b_reader B b).

(** [StoreReader]'s [Serviceable] *)
Definition reader_serviceability (b : BSt) : ServiceabilityManifest :=
  match b_reader B b with
  | Err _ => manifest_uniform NotYet
  | Ok reader =>
      let watermark := match read_watermark reader with Ok w => w | Err _ => None end in
      serviceability reader watermark
  end.

(** [StoreSnapshot]; the activation schedule is the treestate read's. *)
Record StoreSnapshot := mkSnapshot { watermark : option Z; pinned_tip : option BlockRef }.

Definition snapshot (b : BSt) : result StoreSnapshot StoreError :=
  let? reader := map_err (fun _ => Transient) (b_reader B b) in
  let? watermark := map_err (fun _ => Transient) (read_watermark reader) in
  let? pinned_tip :=
    match watermark with
    | Some height =>
        let? header := read_keyed HeadersIndex reader headers_ID height in
        Ok (let! header := header in Some (mkBlockRef (hv_hash header) height))
    | None => Ok None
    end in
  Ok (mkSnapshot watermark pinned_tip).
Definition coverage (s : StoreSnapshot) : option HeightRange :=
  let! end_ := watermark s in Some (mkHeightRange Height.GENESIS end_).
Definition serviceable_range (s : StoreSnapshot) : option ServiceableRange :=
  let! w := watermark s in Some (mkServiceableRange (Some w) w).

(** Reads through a snapshot, the backend in the state of the call. *)
Definition compact_block (b : BSt) (at_ : BlockSelector) : result (option CompactBlock) StoreError :=
  let? reader := open b in
  let? height :=
    match at_ with
    | AtHeight height => Ok (Some height)
    | AtHash hash =>
        let? _ := gated reader [hash_to_height_ID] Blocks in
        resolve_hash reader hash
    end in
  match height with
  | Some height => read_compact_block reader height
  | None => Ok None
  end.
Definition stream_compact (b : BSt) (range : HeightRange) : list (result CompactBlock StoreError) :=
  match b_reader B b with
  | Ok reader =>
      omap (fun height =>
              let! height := ok (Height.try_from height) in
              match read_compact_block reader height with
              | Ok (Some block) => Some (Ok block)
              | Ok None => None
              | Err x => Some (Err x)
              end)
        (seqZ (range_start range) (range_end range - range_start range + 1))
  | Err _ => [Err Fatal]
  end.
Definition header_at (b : BSt) (h : Z) : result (option HeaderSummary) StoreError :=
  let? reader := open b in
  let? header := read_keyed HeadersIndex reader headers_ID h in
  Ok (let! header := header in Some (mkHeaderSummary (hv_hash header) (hv_time header))).

(** ** [transaction_location.rs] *)
Inductive TransactionLocationAnswer := BestChain (h : Z) | NonBestChain | InMempool.
Definition transaction_location (s : StoreSnapshot) (b : BSt) (id : TransactionId)
    : result (option TransactionLocationAnswer) StoreError :=
  let? reader := open b in
  let? _ := gated reader [txid_location_ID] TransactionLocation in
  let? location := read_keyed TxidLocationIndex reader txid_location_ID id in
  match location with
  | None => Ok None
  | Some location =>
      let? height := ok_or (indexed_height (loc_height location)) Fatal in
      match watermark s with
      | Some w => if height <=? w then Ok (Some (BestChain height)) else Ok None
      | None => Ok None
      end
  end.
End Reader.

(** ** Spends *)

(** [read_spender] of [transparent_spends.rs] *)
Definition read_spender (reader : BackendReader) (outpoint : OutpointKey)
    : result (option TransactionId) StoreError :=
  let? raw := map_err (fun _ => Transient)
                (r_get reader transparent_spends_ID (encode_key TransparentSpendsIndex outpoint)) in
  match raw with
  | Some bytes =>
      let? by_ := map_err (fun _ => Transient) (decode_value TransparentSpendsIndex bytes) in Ok (Some by_)
  | None => Ok None
  end.

Record ResolvedSpend := mkResolved { rs_by : TransactionId; rs_height : Z; rs_block_index : Z; rs_input_index : Z }.

(** [Iterator::position] *)
Fixpoint position {A} (p : A -> bool) (l : list A) : option nat :=
  match l with
  | [] => None
  | a :: l => if p a then Some 0%nat else let! i := position p l in Some (S i)
  end.
Definition spends_outpoint (outpoint : OutpointKey) (input : TransactionId * Z) : bool :=
  bool_decide (input.1 = ok_prev_txid outpoint) && (input.2 =? ok_prev_index outpoint).

Definition input_index (reader : BackendReader) (location : TxLocation) (height : Z) (outpoint : OutpointKey)
    : result Z StoreError :=
  let? block := require TransparentDataIndex reader transparent_data_ID height in
  let? tx := ok_or (block !! Z.to_nat (tx_index location)) Fatal in
  let? pos := ok_or (position (spends_outpoint outpoint) (tt_inputs tx)) Fatal in
  ok_or (try_narrow 32 (Z.of_nat pos)) Fatal.
Definition resolve_spend (reader : BackendReader) (outpoint : OutpointKey)
    : result (option ResolvedSpend) StoreError :=
  let? by_ := read_spender reader outpoint in
  match by_ with
  | None => Ok None
  | Some by_ =>
      let? location := require TxidLocationIndex reader txid_location_ID by_ in
      let? height := ok_or (indexed_height (loc_height location)) Fatal in
      let? index := input_index reader location height outpoint in
      Ok (Some (mkResolved by_ height (tx_index location) index))
  end.

(** [output_exists] of [spend.rs] *)
Definition output_exists (reader : BackendReader) (outpoint : Outpoint) : result bool StoreError :=
  let? location := read_keyed TxidLocationIndex reader txid_location_ID outpoint.1 in
  match location with
  | None => Ok false
  | Some location =>
      let? height := ok_or (indexed_height (loc_height location)) Fatal in
      let? block := require TransparentDataIndex reader transparent_data_ID height in
      let? tx := ok_or (block !! Z.to_nat (tx_index location)) Fatal in
      Ok (outpoint.2 <? Z.of_nat (length (tt_outputs tx)))
  end.

Inductive SpendAnswer := Unspent | Spent (by_ : TransactionId) | SpentSpenderUnknown | NoSuchOutput.
Record TransparentSpend := mkTransparentSpend {
  ts_outpoint : Outpoint; ts_by : TransactionId; ts_input_index : Z; ts_height : Z; ts_block_index : Z }.

Section Spend.
Context {BSt : Type} (B : Backend BSt).

Definition spend_status_gate (reader : BackendReader) : result unit StoreError :=
  gated reader [transparent_spends_ID; txid_location_ID] SpendStatus.
Definition spend_status (b : BSt) (outpoint : Outpoint) : result SpendAnswer StoreError :=
  let? reader := open B b in
  let? _ := spend_status_gate reader in
  let? by_ := read_spender reader (mkOutpointKey outpoint.1 outpoint.2) in
  match by_ with
  | Some by_ => Ok (Spent by_)
  | None =>
      let? exists_ := output_exists reader outpoint in
      Ok (if exists_ then Unspent else NoSuchOutput)
  end.
Definition spend_info (b : BSt) (outpoint : Outpoint) : result (option TransparentSpend) StoreError :=
  let? reader := open B b in
  let? _ := spend_status_gate reader in
  let? resolved := resolve_spend reader (mkOutpointKey outpoint.1 outpoint.2) in
  Ok (let! r := resolved in
      Some (mkTransparentSpend outpoint (rs_by r) (rs_input_index r) (rs_height r) (rs_block_index r))).
End Spend.
End Store.
