(* ===== verification/StoreCorrect.v ===== *)
(** * What the finalised store serves

    Between the blocks of a chain, what the indexes hold of them and what a read
    composes: a store that holds the indexes of a chain serves that chain. *)

From S2P Require Import Prelude Primitives Types Persistence Codec Engine Bridge BridgeCorrect Indexes IndexSet Store.
From stdpp Require Import base gmap list strings sorting.
From Stdlib Require Import Lia.
Open Scope Z_scope.

Module StoreCorrect.
Import Kv Layout Codec Bridge BridgeCorrect Indexes IndexSet Store.

(** ** What the indexes hold of a chain *)

(** An infallible extraction. *)
Definition extracted {A D} (f : A -> result D Infallible) (a : A) : D :=
  match f a with Ok d => d | Err e => match e with end end.

(** The namespace holds these entries under this build's stamp. *)
Definition holds C wf ns st es : Prop := table C wf ns st es /\ versioned C ns st.

Definition entries_of {A D} (extract : A -> result D Infallible) (context : CurrentZainoContext -> A)
    {C} (schema : Schema C (list D)) (cs : list CurrentZainoContext) : list (Key C * Value C) :=
  into_entries schema ((fun c => extracted extract (context c)) <$> cs).

Definition header_entries := entries_of headers_extract header_context headers_schema.
Definition txids_entries := entries_of txids_extract txids_context txids_schema.
Definition hash_to_height_entries := entries_of hash_to_height_extract hash_to_height_context hash_to_height_schema.
Definition transparent_entries := entries_of transparent_data_extract transparent_data_context transparent_data_schema.
Definition sapling_entries := entries_of sapling_extract sapling_context sapling_schema.
Definition orchard_entries := entries_of orchard_extract orchard_context orchard_schema.
Definition ironwood_entries := entries_of ironwood_extract ironwood_context ironwood_schema.
Definition txid_location_entries := entries_of txid_location_extract txid_location_context txid_location_schema.
Definition spend_entries := entries_of transparent_spends_extract spend_context transparent_spends_schema.
Definition address_entries := entries_of address_history_extract address_context address_history_schema.
Definition metadata_series (cs : list CurrentZainoContext) :=
  series ChainMetadataIndex chain_metadata_append METADATA_ZERO (chain_metadata_context <$> cs).

(** The indexes of [compact_blocks.rs]. *)
Record compact_indexed (st : store) (cs : list CurrentZainoContext) : Prop := {
  ci_headers : holds HeadersIndex headers_wf headers_ID st (header_entries cs);
  ci_txids : holds TxidsIndex txids_wf txids_ID st (txids_entries cs);
  ci_hashes : holds HashToHeightIndex hash_to_height_wf hash_to_height_ID st (hash_to_height_entries cs);
  ci_transparent : holds TransparentDataIndex transparent_data_wf transparent_data_ID st (transparent_entries cs);
  ci_sapling : holds SaplingIndex sapling_wf sapling_ID st (sapling_entries cs);
  ci_orchard : holds OrchardIndex orchard_wf orchard_ID st (orchard_entries cs);
  ci_ironwood : holds IronwoodIndex ironwood_wf ironwood_ID st (ironwood_entries cs);
  ci_metadata : exists ds m, metadata_series cs = Ok (ds, m) /\
    holds ChainMetadataIndex chain_metadata_wf chain_metadata_ID st (into_entries chain_metadata_schema ds) }.

(** A chain from genesis, and its contexts. *)
Definition chain_contexts (chain : list Block) (cs : list CurrentZainoContext) : Prop :=
  Forall2 (fun b c => context_from_block b = Some c) chain cs /\
  forall i b, chain !! i = Some b -> h_height (header b) = Z.of_nat i.

(** The tree sizes after a chain: every commitment of every transaction. *)
Definition commitments {X} (f : Transaction -> list X) (chain : list Block) : Z :=
  Z.of_nat (length (mjoin (f <$> mjoin (transactions <$> chain)))).
Definition tree_sizes (chain : list Block) : ChainMetadata :=
  mkChainMetadata (commitments (fun tx => s_outputs (sapling tx)) chain)
    (commitments (fun tx => actions (orchard tx)) chain) (commitments (fun tx => actions (ironwood tx)) chain).

(** What the store serves at a height. *)
Definition served (chain : list Block) (i : nat) : option CompactBlock :=
  let! b := chain !! i in
  Some (from_pre_index (pre_index_block b) (tree_sizes (take (S i) chain))).

(** ** Reading a held entry *)
Section Held.
Context (C : EntryCodec) (wf : Key C -> Value C -> Prop) `{!CodecLaws C wf} (ns : string).
Context (r : BackendReader) (st : store) (Hr : reader_ok r st) (es : list (Key C * Value C)).
Hypothesis Hes : holds C wf ns st es.

Lemma held_wf k v : (k, v) ∈ es -> wf k v.
Proof.
  destruct Hes as [(Hwf & _) _]. unfold all_wf in Hwf. rewrite Forall_forall in Hwf. apply (Hwf (k, v)).
Qed.
Lemma held_get k v : (k, v) ∈ es -> r_get r ns (encode_key C k) = Ok (Some (encode_value C v)).
Proof. intros Hin. by eapply get_table; [exact Hr|apply Hes|]. Qed.
Lemma held_get_none k :
  decode_key C (encode_key C k) = Ok k -> k ∉ es.*1 -> r_get r ns (encode_key C k) = Ok None.
Proof.
  intros Hk Hne. rewrite (ro_get _ _ Hr). f_equal. destruct Hes as [(_ & _ & Hst) _].
  destruct (st !! (ns, encode_key C k)) as [vb|] eqn:Hl; [|done].
  apply Hst in Hl as ([k' v'] & Hin & Heq & _). cbn in Heq. destruct Hne.
  rewrite Heq, (codec_key _ _ (held_wf _ _ Hin)) in Hk. injection Hk as <-.
  by apply (list_elem_of_fmap_2 fst _ (k', v')).
Qed.
Lemma held_fresh : freshness C r ns = Ok Fresh.
Proof. eapply freshness_versioned; [exact Hr|apply Hes]. Qed.
Lemma held_decode k v : (k, v) ∈ es -> decode_value C (encode_value C v) = Ok v.
Proof. intros Hin. eapply codec_value, held_wf, Hin. Qed.

Lemma read_held k v : (k, v) ∈ es -> read_keyed C r ns k = Ok (Some v).
Proof.
  intros Hin. unfold read_keyed. rewrite held_fresh. cbn [map_err].
  rewrite (held_get k v Hin). cbn [map_err]. by rewrite (held_decode k v Hin).
Qed.
Lemma require_held k v : (k, v) ∈ es -> require C r ns k = Ok v.
Proof. intros Hin. unfold require. by rewrite (read_held k v Hin). Qed.
Lemma read_missing k :
  decode_key C (encode_key C k) = Ok k -> k ∉ es.*1 -> read_keyed C r ns k = Ok None.
Proof.
  intros Hk Hne. unfold read_keyed. rewrite held_fresh. cbn [map_err]. by rewrite (held_get_none k Hk Hne).
Qed.
End Held.
(** ** A chain's entries *)
Lemma entries_map {A D} (extract : A -> result D Infallible) context {C} (schema : Schema C (list D))
    (f : D -> Key C * Value C) cs :
  (forall ds, into_entries schema ds = f <$> ds) ->
  entries_of extract context schema cs = (fun c => f (extracted extract (context c))) <$> cs.
Proof. intros Hf. unfold entries_of. by rewrite Hf, <- list_fmap_compose. Qed.
(** Each block's own entry. *)
Lemma entry_of_block {K V} (key : CurrentZainoContext -> K) (val : CurrentZainoContext -> V) (cs : list CurrentZainoContext) i c :
  cs !! i = Some c -> (key c, val c) ∈ (fun c => (key c, val c)) <$> cs.
Proof. intros Hi. apply list_elem_of_fmap. exists c. split; [done|]. by apply list_elem_of_lookup_2 in Hi. Qed.

Lemma context_tx block c :
  context_from_block block = Some c ->
  z_height c = h_height (header block) /\ z_hash c = h_hash (header block) /\
  z_prev_hash c = h_prev_hash (header block) /\ z_time c = h_time (header block) /\
  z_bits c = h_bits (header block) /\ z_txids c = txid <$> transactions block /\
  z_spends c = mjoin ((fun tx => tx_spends (inputs (transparent tx)) (txid tx)) <$> transactions block) /\
  z_txid_locations c = located (h_height (header block)) 0 (transactions block) /\
  z_transparent_txs c =
    ((fun tx => transparent_tx (inputs (transparent tx)) (outputs (transparent tx))) <$> transactions block) /\
  z_sapling_txs c = ((fun tx => sapling_tx (spends (sapling tx)) (s_outputs (sapling tx))) <$> transactions block) /\
  z_orchard_txs c = ((fun tx => orchard_tx (actions (orchard tx))) <$> transactions block) /\
  z_ironwood_txs c = ((fun tx => orchard_tx (actions (ironwood tx))) <$> transactions block).
Proof.
  unfold context_from_block. rewrite locate_spec.
  destruct (bool_decide _ || _); [|done]. intros [= <-]. done.
Qed.

(** The per-transaction projections lose nothing of a compact transaction. *)
Lemma fmap_roundtrip {A B} (f : A -> B) (g : B -> A) (l : list A) : (forall a, g (f a) = a) -> g <$> (f <$> l) = l.
Proof.
  intros Hg. rewrite <- list_fmap_compose. rewrite <- (list_fmap_id l) at 2. apply list_fmap_ext. intros i a _. apply Hg.
Qed.
Lemma compact_tx_projected tx :
  compact_tx (txid tx) (transparent_tx (inputs (transparent tx)) (outputs (transparent tx)))
    (sapling_tx (spends (sapling tx)) (s_outputs (sapling tx))) (orchard_tx (actions (orchard tx)))
    (orchard_tx (actions (ironwood tx))) = pre_index_tx tx.
Proof.
  unfold compact_tx, pre_index_tx. cbn [tt_inputs tt_outputs transparent_tx st_nullifiers st_outputs sapling_tx
    ot_actions orchard_tx].
  rewrite !fmap_roundtrip; [done|by intros []..].
Qed.
Lemma zip_txs_projected txs :
  zip_txs (txid <$> txs)
    ((fun tx => transparent_tx (inputs (transparent tx)) (outputs (transparent tx))) <$> txs)
    ((fun tx => sapling_tx (spends (sapling tx)) (s_outputs (sapling tx))) <$> txs)
    ((fun tx => orchard_tx (actions (orchard tx))) <$> txs)
    ((fun tx => orchard_tx (actions (ironwood tx))) <$> txs) = pre_index_tx <$> txs.
Proof. induction txs as [|tx txs IH]; [done|]. cbn [fmap list_fmap zip_txs]. by rewrite compact_tx_projected, IH. Qed.

(** ** Tree sizes *)
Lemma checked_add_size v n s : tree_size_checked_add v n = Ok s -> s = v + n /\ s < 2 ^ 32.
Proof.
  unfold tree_size_checked_add, tree_size_try_from. destruct (checked_add 64 v n) as [t|] eqn:Ht; [|done].
  cbn. apply checked_add_Some in Ht as [-> _]. destruct (try_narrow 32 _) eqn:Hn; [|done]. intros [= <-].
  by apply try_narrow_Some in Hn as [-> ?].
Qed.
Definition plus_sizes (m n : ChainMetadata) : ChainMetadata :=
  mkChainMetadata (sapling_tree_size m + sapling_tree_size n) (orchard_tree_size m + orchard_tree_size n)
    (ironwood_tree_size m + ironwood_tree_size n).
Lemma sum_lengths_join {A B B' D} (f : A -> D) (g : D -> list B) (h : A -> list B') (l : list A) :
  (forall a, length (g (f a)) = length (h a)) ->
  sum_lengths g (f <$> l) = Z.of_nat (length (mjoin (h <$> l))).
Proof.
  intros Hl. induction l as [|a l IH]; [done|]. cbn [fmap list_fmap sum_lengths foldr].
  change (mjoin (h a :: (h <$> l))) with (h a ++ mjoin (h <$> l)). rewrite length_app, Nat2Z.inj_add, <- IH, Hl. done.
Qed.
Lemma commitments_cons {X} (f : Transaction -> list X) b chain :
  commitments f (b :: chain) = Z.of_nat (length (mjoin (f <$> transactions b))) + commitments f chain.
Proof.
  unfold commitments. change (mjoin (transactions <$> b :: chain)) with (transactions b ++ mjoin (transactions <$> chain)).
  by rewrite fmap_app, join_app, length_app, Nat2Z.inj_add.
Qed.

Lemma metadata_step block c v d :
  context_from_block block = Some c -> chain_metadata_extract (chain_metadata_context c) v = Ok d ->
  d = mkChainMetadataEntry (h_height (header block)) (plus_sizes v (tree_sizes [block])).
Proof.
  intros Hc. destruct (context_tx block c Hc) as (Hh & _ & _ & _ & _ & _ & _ & _ & _ & Hs & Ho & Hi).
  unfold chain_metadata_extract, chain_metadata_context. cbn [sapling_added orchard_added ironwood_added cm_height].
  destruct (tree_size_checked_add (sapling_tree_size v) _) as [s|] eqn:H1; [|done].
  destruct (tree_size_checked_add (orchard_tree_size v) _) as [o|] eqn:H2; [|done].
  destruct (tree_size_checked_add (ironwood_tree_size v) _) as [i|] eqn:H3; [|done]. intros [= <-].
  apply checked_add_size in H1 as [-> _], H2 as [-> _], H3 as [-> _]. rewrite Hs, Ho, Hi, Hh.
  rewrite (sum_lengths_join _ _ (fun tx => s_outputs (sapling tx))) by (intros; apply length_fmap).
  rewrite (sum_lengths_join _ _ (fun tx => actions (orchard tx))) by (intros; apply length_fmap).
  rewrite (sum_lengths_join _ _ (fun tx => actions (ironwood tx))) by (intros; apply length_fmap).
  unfold plus_sizes, tree_sizes. cbn [sapling_tree_size orchard_tree_size ironwood_tree_size].
  rewrite !commitments_cons. unfold commitments at 1 2 3. cbn [fmap list_fmap mjoin list_join length].
  by rewrite !Z.add_0_r.
Qed.

Lemma metadata_series_sizes chain cs v ds v' :
  Forall2 (fun b c => context_from_block b = Some c) chain cs ->
  series ChainMetadataIndex chain_metadata_append v (chain_metadata_context <$> cs) = Ok (ds, v') ->
  ds = imap (fun i b => mkChainMetadataEntry (h_height (header b)) (plus_sizes v (tree_sizes (take (S i) chain)))) chain.
Proof.
  intros Hf. revert v ds v'. induction Hf as [|b c chain cs Hc _ IH]; intros v ds v'; cbn [fmap list_fmap series].
  { by intros [= <- <-]. }
  cbn [ca_extract chain_metadata_append].
  destruct (chain_metadata_extract (chain_metadata_context c) v) as [d|] eqn:Hd; [|done].
  destruct (series _ _ _ _) as [[ds1 v1]|] eqn:Hs; [|done]. intros [= <- <-].
  apply (metadata_step b c v d Hc) in Hd as ->. cbn [carry chain_metadata_append cme_value] in Hs.
  apply IH in Hs as ->. cbn [imap]. f_equal.
  apply imap_ext. intros i x _. unfold compose. cbn [take]. f_equal. unfold plus_sizes, tree_sizes.
  cbn [sapling_tree_size orchard_tree_size ironwood_tree_size]. rewrite !(commitments_cons _ b).
  change (commitments _ []) with 0. f_equal; lia.
Qed.
(** ** A block read composes the block *)
Lemma entries_by_height {A D} (extract : A -> result D Infallible) context {C} (schema : Schema C (list D))
    (key : D -> Key C) (val : D -> Value C) cs i c :
  (forall ds, into_entries schema ds = (fun d => (key d, val d)) <$> ds) -> cs !! i = Some c ->
  (key (extracted extract (context c)), val (extracted extract (context c))) ∈ entries_of extract context schema cs.
Proof.
  intros Hs Hi. rewrite (entries_map _ _ _ _ _ Hs).
  apply (entry_of_block (fun c => key (extracted extract (context c))) (fun c => val (extracted extract (context c)))
    cs i c Hi).
Qed.

Section Chain.
Context (chain : list Block) (cs : list CurrentZainoContext) (Hcs : chain_contexts chain cs).

Lemma context_at i b : chain !! i = Some b -> exists c, cs !! i = Some c /\ context_from_block b = Some c /\ z_height c = Z.of_nat i.
Proof.
  intros Hb. destruct Hcs as [Hf Hh]. destruct (Forall2_lookup_l _ _ _ _ _ Hf Hb) as (c & Hc & Hbc).
  exists c. split_and!; [done|done|]. destruct (context_tx b c Hbc) as (-> & _). by apply Hh.
Qed.
Lemma block_of i c : cs !! i = Some c -> exists b, chain !! i = Some b /\ context_from_block b = Some c.
Proof. intros Hc. destruct Hcs as [Hf _]. by apply (Forall2_lookup_r _ _ _ _ _ Hf). Qed.

Lemma header_entries_heights h : h ∈ (header_entries cs).*1 -> exists i, h = Z.of_nat i /\ (i < length chain)%nat.
Proof.
  unfold header_entries. rewrite (entries_map _ _ headers_schema (fun e => (he_height e, he_value e))) by done.
  rewrite <- list_fmap_compose. intros (c & -> & Hc)%list_elem_of_fmap.
  apply list_elem_of_lookup in Hc as [i Hi]. destruct (block_of i c Hi) as (b & Hb & Hbc).
  destruct (context_at i b Hb) as (c' & Hc' & _ & Hh). assert (c' = c) as -> by congruence.
  exists i. split; [done|]. by apply lookup_lt_Some in Hb.
Qed.

Context (r : BackendReader) (st : store) (Hr : reader_ok r st) (Hst : compact_indexed st cs).

Lemma metadata_at i b :
  chain !! i = Some b ->
  require ChainMetadataIndex r chain_metadata_ID (Z.of_nat i) = Ok (tree_sizes (take (S i) chain)).
Proof.
  intros Hb. destruct (ci_metadata _ _ Hst) as (ds & m & Hs & Hd). destruct Hcs as [Hf Hh].
  apply (require_held _ _ _ _ _ Hr _ Hd). rewrite (metadata_series_sizes chain cs METADATA_ZERO ds m Hf Hs).
  cbn [into_entries chain_metadata_schema]. apply list_elem_of_fmap.
  exists (mkChainMetadataEntry (Z.of_nat i) (tree_sizes (take (S i) chain))). split; [done|].
  apply list_elem_of_lookup. exists i. rewrite list_lookup_imap, Hb. cbn. by rewrite (Hh i b Hb).
Qed.

Lemma read_compact_block_at i b :
  chain !! i = Some b -> read_compact_block r (Z.of_nat i) = Ok (served chain i).
Proof.
  intros Hb. destruct (context_at i b Hb) as (c & Hc & Hbc & Hh).
  destruct (context_tx b c Hbc) as (Hh' & E1 & E2 & E3 & E4 & E5 & _ & _ & E6 & E7 & E8 & E9).
  unfold read_compact_block. rewrite (metadata_at i b Hb). rewrite <- Hh.
  rewrite (read_held _ _ _ r st Hr _ (ci_headers _ _ Hst) (z_height c)
    (mkHeaderValue (z_hash c) (z_prev_hash c) (z_time c) (z_bits c)))
    by by apply (entries_by_height headers_extract header_context headers_schema he_height he_value cs i c).
  rewrite (require_held _ _ _ r st Hr _ (ci_txids _ _ Hst) (z_height c) (z_txids c))
    by by apply (entries_by_height txids_extract txids_context txids_schema te_height te_txids cs i c).
  rewrite (require_held _ _ _ r st Hr _ (ci_transparent _ _ Hst) (z_height c) (z_transparent_txs c))
    by by apply (entries_by_height transparent_data_extract transparent_data_context transparent_data_schema
         tde_height tde_value cs i c).
  rewrite (require_held _ _ _ r st Hr _ (ci_sapling _ _ Hst) (z_height c) (z_sapling_txs c))
    by by apply (entries_by_height sapling_extract sapling_context sapling_schema sxe_height sxe_value cs i c).
  rewrite (require_held _ _ _ r st Hr _ (ci_orchard _ _ Hst) (z_height c) (z_orchard_txs c))
    by by apply (entries_by_height orchard_extract orchard_context orchard_schema oxe_height oxe_value cs i c).
  rewrite (require_held _ _ _ r st Hr _ (ci_ironwood _ _ Hst) (z_height c) (z_ironwood_txs c))
    by by apply (entries_by_height ironwood_extract ironwood_context ironwood_schema ixe_height ixe_value cs i c).
  cbn [hv_hash hv_prev_hash hv_time hv_bits]. rewrite E5, E6, E7, E8, E9, !length_fmap. cbn [forallb].
  rewrite Nat.eqb_refl. cbn [andb negb]. unfold served. rewrite Hb, zip_txs_projected, E1, E2, E3, E4, Hh'. done.
Qed.

Lemma read_compact_block_served h :
  uint 64 h -> read_compact_block r h = Ok (served chain (Z.to_nat h)).
Proof.
  intros Hu. destruct (chain !! Z.to_nat h) as [b|] eqn:Hb.
  - rewrite <- (read_compact_block_at (Z.to_nat h) b Hb). rewrite Z2Nat.id by apply Hu. done.
  - unfold served. rewrite Hb. unfold read_compact_block.
    rewrite (read_missing _ _ _ r st Hr _ (ci_headers _ _ Hst)); [done|by apply height_key_inverts|].
    intros (i & -> & Hi)%header_entries_heights. rewrite Nat2Z.id in Hb. apply lookup_ge_None in Hb. lia.
Qed.

(** The hash index resolves a chain's block. *)
Lemma resolve_hash_chain i b :
  chain !! i = Some b -> Z.of_nat (length chain) <= 2 ^ 31 ->
  resolve_hash r (h_hash (header b)) = Ok (Some (Z.of_nat i)).
Proof.
  intros Hb Hlen. destruct (context_at i b Hb) as (c & Hc & Hbc & Hh).
  destruct (context_tx b c Hbc) as (_ & E1 & _). rewrite <- E1.
  assert (Hin : (z_hash c, z_height c) ∈ hash_to_height_entries cs)
    by by apply (entries_by_height hash_to_height_extract hash_to_height_context hash_to_height_schema
         hhe_hash hhe_height cs i c).
  unfold resolve_hash. rewrite (held_fresh _ _ _ r st Hr _ (ci_hashes _ _ Hst)). cbn [map_err].
  rewrite (held_get _ _ _ r st Hr _ (ci_hashes _ _ Hst) _ _ Hin). cbn [map_err].
  rewrite (held_decode _ _ _ st _ (ci_hashes _ _ Hst) _ _ Hin). cbn [map_err]. rewrite Hh.
  apply lookup_lt_Some in Hb. unfold indexed_height, try_narrow, Height.try_from.
  change Height.MAX_HEIGHT with (2 ^ 31 - 1).
  destruct (Z.ltb_spec (Z.of_nat i) (2 ^ 32)); [|lia]. by destruct (Z.ltb_spec (2 ^ 31 - 1) (Z.of_nat i)); [lia|].
Qed.
Lemma resolve_hash_unknown hash :
  hash32 hash -> (forall i b, chain !! i = Some b -> h_hash (header b) <> hash) -> resolve_hash r hash = Ok None.
Proof.
  intros Hh Hne. unfold resolve_hash. rewrite (held_fresh _ _ _ r st Hr _ (ci_hashes _ _ Hst)). cbn [map_err].
  rewrite (held_get_none _ _ _ r st Hr _ (ci_hashes _ _ Hst)); [done|by apply hash_key_inverts, Hh|].
  unfold hash_to_height_entries. rewrite (entries_map _ _ hash_to_height_schema (fun e => (hhe_hash e, hhe_height e))) by done.
  rewrite <- list_fmap_compose. intros (c & -> & Hc)%list_elem_of_fmap.
  apply list_elem_of_lookup in Hc as [i Hi]. destruct (block_of i c Hi) as (b & Hb & Hbc).
  destruct (context_tx b c Hbc) as (_ & E1 & _). by apply (Hne i b Hb).
Qed.
End Chain.
(** The finalised store serves the chain it indexed.  Over a backend
    that keeps its promise and holds the compact-block indexes of a chain from
    genesis, every height-addressed read returns exactly the chain's block there
    in compact form, with the number of note commitments up to it as its tree
    sizes, and nothing above the chain; once the hash index is complete, every
    hash-addressed read returns the block of that hash or nothing; and a range
    is streamed block by block, in order. *)
Theorem compact_block_served {BSt} (B : Backend BSt) abs `{!BackendSpec B abs} b r chain cs :
  b_reader B b = Ok r -> chain_contexts chain cs -> compact_indexed (abs b) cs ->
  Z.of_nat (length chain) <= 2 ^ 31 ->
  (forall h, Height.valid h -> compact_block B b (AtHeight h) = Ok (served chain (Z.to_nat h))) /\
  (r_is_complete r hash_to_height_ID = Ok true ->
   (forall i bl, chain !! i = Some bl -> compact_block B b (AtHash (h_hash (header bl))) = Ok (served chain i)) /\
   (forall hash, hash32 hash -> (forall i bl, chain !! i = Some bl -> h_hash (header bl) <> hash) ->
      compact_block B b (AtHash hash) = Ok None)) /\
  (forall lo hi, Height.valid lo -> Height.valid hi ->
     stream_compact B b (mkHeightRange lo hi) =
     Ok <$> omap (fun h => served chain (Z.to_nat h)) (seqZ lo (hi - lo + 1))).
Proof.
  intros Hb Hcs Hst Hlen. pose proof (spec_reader _ _ Hb) as Hr. unfold compact_block, stream_compact, open.
  rewrite Hb. cbn [map_err].
  assert (forall h, Height.valid h -> uint 64 h) as Hu
    by (unfold Height.valid, uint; change Height.MAX_HEIGHT with 2147483647; lia).
  split_and!.
  - intros h Hh. eapply read_compact_block_served; eauto.
  - intros Hcomp. unfold gated. cbn [serviceability_gate]. rewrite Hcomp. cbn [negb map_err]. split.
    + intros i bl Hbl. rewrite (resolve_hash_chain chain cs Hcs r (abs b) Hr Hst i bl Hbl Hlen). cbn.
      by eapply read_compact_block_at.
    + intros hash Hh Hne. by rewrite (resolve_hash_unknown chain cs Hcs r (abs b) Hr Hst hash Hh Hne).
  - intros lo hi Hlo Hhi. cbn [range_start range_end].
    assert (Forall Height.valid (seqZ lo (hi - lo + 1))) as Hall.
    { apply Forall_forall. intros h Hin%elem_of_seqZ. unfold Height.valid in *. lia. }
    induction Hall as [|h l Hh _ IH]; [done|]. cbn [omap list_omap]. rewrite IH.
    unfold Height.try_from. destruct (Z.ltb_spec Height.MAX_HEIGHT h) as [Hgt|_]; [unfold Height.valid in Hh; lia|].
    cbn [ok]. rewrite (read_compact_block_served chain cs Hcs r (abs b) Hr Hst h (Hu h Hh)).
    by destruct (served chain (Z.to_nat h)).
Qed.
(** ** Indexing a chain *)

(** One batch through one pipeline: extracted in this order, merged, persisted. *)
Definition pipeline_run {PSt} (p : @Engine.IndexPipeline CurrentZainoContext PSt)
    (work : list (nat * CurrentZainoContext)) (st : PSt) (ops : list WriteOp) (st' : PSt) : Prop :=
  exists b, extract_all (Engine.extract_one p) work st = Some (Ok b) /\
    Engine.merge_persist p b = Some (Ok (ops, st')).

(** A block-local index of the set. *)
Definition local_index {A D} (context : CurrentZainoContext -> A) (name : string) (C : EntryCodec)
    (extract : A -> result D Infallible) (schema : Schema C (list D)) :=
  local_pipeline context (local_def name) C extract (AppendStrategy D) schema.
Definition metadata_pipeline :=
  append_pipeline chain_metadata_context chain_metadata_def ChainMetadataIndex
    (Sequential_exec ChainMetadataIndex chain_metadata_append) chain_metadata_schema (fun h => h).
Definition metadata_carrying (m : ChainMetadata) :=
  mkAppend ChainMetadataIndex (Sequential_exec ChainMetadataIndex chain_metadata_append) m [] None.

Lemma merge_append {D} (ds : list D) : merge_deltas (AppendStrategy D) ds = ds.
Proof.
  unfold merge_deltas. cbn [initial_state AppendStrategy]. change ds with ([] ++ ds) at 2. generalize (@nil D).
  induction ds as [|d ds IH]; intros acc; [by rewrite app_nil_r|]. cbn [fold_left]. rewrite IH. cbn.
  by rewrite <- app_assoc.
Qed.

Lemma local_run_ops {A D} context name C (extract : A -> result D Infallible) schema n cs work ops st' :
  work ≡ₚ tagged n cs ->
  pipeline_run (local_index context name C extract schema) work (local_new _) ops st' ->
  ops = persisted C name (entries_of extract context schema cs).
Proof.
  intros Hw (b & Hb & Hm).
  assert (Hf : Forall2 (fun c d => extract (context c) = Ok d) cs ((fun c => extracted extract (context c)) <$> cs)).
  { apply Forall2_fmap_r, Forall_Forall2_diag, Forall_forall. intros c _. unfold compose, extracted.
    by destruct (extract (context c)) as [|[]]. }
  destruct (permuted_work _ n cs _ work Hw Hf) as (buffered & Hbuf & Hwork).
  cbn [Engine.extract_one local_pipeline local_index] in Hb. rewrite (local_extract_all _ _ _ work buffered _ Hwork) in Hb.
  injection Hb as <-. unfold Engine.merge_persist in Hm. cbn -[persist_merged drain_reorder merge_deltas] in Hm.
  unfold local_persist in Hm. cbn [l_merged l_deltas] in Hm. rewrite (drain_tagged n _ _ Hbuf), merge_append in Hm.
  unfold persist_merged in Hm. destruct (forallb _ _); [|done]. by injection Hm as <- _.
Qed.

Lemma metadata_run_ops n cs m ops st' :
  pipeline_run metadata_pipeline (tagged n cs) (metadata_carrying m) ops st' ->
  exists ds m', series ChainMetadataIndex chain_metadata_append m (chain_metadata_context <$> cs) = Ok (ds, m') /\
    ops = persisted ChainMetadataIndex chain_metadata_ID (into_entries chain_metadata_schema ds) /\
    st' = metadata_carrying m'.
Proof.
  intros (b & Hb & Hm). cbn [Engine.extract_one append_pipeline metadata_pipeline] in Hb.
  rewrite sequential_extract_all in Hb. cbn [a_carry metadata_carrying] in Hb.
  destruct (series _ _ _ _) as [[ds m']|]; [|done]. injection Hb as <-. exists ds, m'.
  unfold Engine.merge_persist in Hm. cbn -[persist_merged] in Hm. unfold append_persist in Hm.
  cbn [a_merged] in Hm. unfold persist_merged in Hm. destruct (forallb _ _); [|done]. by injection Hm as <- <-.
Qed.

(** *** Write sets

    A commit concatenates what the indexes persisted, each under its own name,
    in any order, and stamps the watermark. *)
Definition owned (p : string * list WriteOp) : Prop :=
  p.1 ∉ reserved_namespaces /\ exists C es, p.2 = persisted C p.1 es.
Definition commit_of (named : list (string * list WriteOp)) (ops : list WriteOp) : Prop :=
  NoDup named.*1 /\ Forall owned named /\ exists h, ops = mjoin named.*2 ++ [stamp h].

Lemma foreign_persisted ns C ns' es :
  ns <> ns' -> ns <> VERSION_META -> ns' <> VERSION_META -> Forall (foreign ns) (persisted C ns' es).
Proof.
  intros Hne Hv Hv'. constructor.
  - split; [done|]. intros [= Heq%string_bytes_inj]. done.
  - apply Forall_fmap, Forall_forall. intros e _. split; [done|]. by intros [= ? _].
Qed.
Lemma foreign_owned ns named :
  ns ∉ reserved_namespaces -> Forall owned named -> ns ∉ named.*1 -> Forall (foreign ns) (mjoin named.*2).
Proof.
  intros Hns Ho Hnot. induction Ho as [|[n ops] named (Hn & C & es & Heq) _ IH]; [constructor|].
  cbn in Heq. subst ops. cbn [fmap list_fmap fst snd] in *.
  change (mjoin (?a :: ?l)) with (a ++ mjoin l). apply Forall_app. unfold reserved_namespaces in *. cbn [fst] in Hn.
  split; [|apply IH; set_solver]. apply foreign_persisted; set_solver.
Qed.
Lemma commit_batch_of C ns es named ops :
  commit_of named ops -> (ns, persisted C ns es) ∈ named -> batch_of C ns ops es.
Proof.
  intros (Hnd & Ho & h & ->) Hin. apply list_elem_of_split in Hin as (l1 & l2 & ->).
  assert (Hns : ns ∉ reserved_namespaces).
  { rewrite Forall_forall in Ho. apply (Ho (ns, persisted C ns es)). apply elem_of_app. right. left. }
  rewrite fmap_app in Hnd. cbn [fmap list_fmap fst] in Hnd. apply NoDup_app in Hnd as (_ & Hd & Hnd2).
  apply NoDup_cons in Hnd2 as [Hl2 _]. apply Forall_app in Ho as [Ho1 Ho2]. apply Forall_cons in Ho2 as [_ Ho2].
  exists (mjoin l1.*2), (mjoin l2.*2 ++ [stamp h]). split.
  - rewrite fmap_app, join_app. cbn [fmap list_fmap snd]. change (mjoin (?a :: ?l)) with (a ++ mjoin l).
    by rewrite <- !app_assoc.
  - split; [apply foreign_owned; [done|done|]|apply Forall_app; split; [by apply foreign_owned|]].
    + intros H1. apply (Hd _ H1). left.
    + constructor; [|constructor]. unfold reserved_namespaces in Hns. split; cbn; [set_solver|]. by intros [= ? _].
Qed.
(** The index ran on the batch, its blocks extracted in some order, and its write
    set is one of the commit's. *)
Definition ran {A D} context name C (extract : A -> result D Infallible) schema n cs
    (named : list (string * list WriteOp)) : Prop :=
  exists work ops st', work ≡ₚ tagged n cs /\
    pipeline_run (local_index context name C extract schema) work (local_new _) ops st' /\ (name, ops) ∈ named.
Lemma ran_batch {A D} context name C (extract : A -> result D Infallible) schema n cs named ops :
  commit_of named ops -> ran context name C extract schema n cs named ->
  batch_of C name ops (entries_of extract context schema cs).
Proof.
  intros Hc (work & ops' & st' & Hw & Hrun & Hin).
  rewrite (local_run_ops _ _ _ _ _ _ _ _ _ _ Hw Hrun) in Hin. by eapply commit_batch_of.
Qed.

(** One batch of the compact-block set: from the metadata's carry to the next. *)
Record compact_batch (m : ChainMetadata) (cs : list CurrentZainoContext) (ops : list WriteOp) (m' : ChainMetadata)
    : Prop := mkCompactBatch {
  bt_n : nat;
  bt_named : list (string * list WriteOp);
  bt_commit : commit_of bt_named ops;
  bt_headers : ran header_context headers_ID HeadersIndex headers_extract headers_schema bt_n cs bt_named;
  bt_txids : ran txids_context txids_ID TxidsIndex txids_extract txids_schema bt_n cs bt_named;
  bt_hashes : ran hash_to_height_context hash_to_height_ID HashToHeightIndex hash_to_height_extract
                hash_to_height_schema bt_n cs bt_named;
  bt_transparent : ran transparent_data_context transparent_data_ID TransparentDataIndex transparent_data_extract
                     transparent_data_schema bt_n cs bt_named;
  bt_sapling : ran sapling_context sapling_ID SaplingIndex sapling_extract sapling_schema bt_n cs bt_named;
  bt_orchard : ran orchard_context orchard_ID OrchardIndex orchard_extract orchard_schema bt_n cs bt_named;
  bt_ironwood : ran ironwood_context ironwood_ID IronwoodIndex ironwood_extract ironwood_schema bt_n cs bt_named;
  bt_metadata : exists ops_m,
    pipeline_run metadata_pipeline (tagged bt_n cs) (metadata_carrying m) ops_m (metadata_carrying m') /\
    (chain_metadata_ID, ops_m) ∈ bt_named }.

Inductive indexing : ChainMetadata -> list (list CurrentZainoContext) -> list (list WriteOp) -> ChainMetadata -> Prop :=
| indexing_nil m : indexing m [] [] m
| indexing_cons m m1 m2 cs css ops log :
    compact_batch m cs ops m1 -> indexing m1 css log m2 -> indexing m (cs :: css) (ops :: log) m2.

Lemma indexing_batches {K V} (batch : list CurrentZainoContext -> list (K * V)) (P : list WriteOp -> list (K * V) -> Prop)
    m css log m' :
  (forall m cs ops m', compact_batch m cs ops m' -> P ops (batch cs)) ->
  indexing m css log m' -> Forall2 P log (batch <$> css).
Proof. intros HP. induction 1; cbn; constructor; eauto. Qed.

Lemma indexing_metadata m css log m' :
  indexing m css log m' ->
  exists dss, series ChainMetadataIndex chain_metadata_append m (chain_metadata_context <$> mjoin css) =
      Ok (mjoin dss, m') /\
    Forall2 (batch_of ChainMetadataIndex chain_metadata_ID) log (into_entries chain_metadata_schema <$> dss) /\
    length dss = length css.
Proof.
  induction 1 as [m|m m1 m2 cs css ops log Hb _ (dss & Hs & Hf & Hl)]; [by exists []|].
  destruct Hb as [n named Hc _ _ _ _ _ _ _ (opsm & Hrun & Hin)].
  destruct (metadata_run_ops n cs m opsm _ Hrun) as (ds & m1' & Hds & -> & Heq). injection Heq as <-.
  exists (ds :: dss). change (mjoin (cs :: css)) with (cs ++ mjoin css).
  rewrite fmap_app, series_app, Hds, Hs. split_and!; [done| |by cbn; rewrite Hl].
  cbn [fmap list_fmap]. constructor; [|done]. by eapply commit_batch_of.
Qed.

(** *** Contexts within the types' ranges *)
Record context_ok (c : CurrentZainoContext) : Prop := {
  co_height : uint 64 (z_height c);
  co_hash : hash32 (z_hash c);
  co_prev : hash32 (z_prev_hash c);
  co_time : uint 32 (z_time c);
  co_bits : uint 32 (Difficulty.CompactDifficulty.bits (z_bits c));
  co_difficulty : Difficulty.CompactDifficulty.try_from_bits (Difficulty.CompactDifficulty.bits (z_bits c)) = Ok (z_bits c);
  co_txids : Forall hash32 (z_txids c);
  co_transparent : transparent_data_wf (z_height c) (z_transparent_txs c);
  co_sapling : sapling_wf (z_height c) (z_sapling_txs c);
  co_orchard : orchard_wf (z_height c) (z_orchard_txs c);
  co_ironwood : ironwood_wf (z_height c) (z_ironwood_txs c) }.

Lemma entries_wf {A D} (extract : A -> result D Infallible) context {C} (schema : Schema C (list D))
    (key : D -> Key C) (val : D -> Value C) (wf : Key C -> Value C -> Prop) cs :
  (forall ds, into_entries schema ds = (fun d => (key d, val d)) <$> ds) ->
  (forall c, context_ok c -> wf (key (extracted extract (context c))) (val (extracted extract (context c)))) ->
  Forall context_ok cs -> all_wf C wf (entries_of extract context schema cs).
Proof.
  intros Hs Hwf Hok. rewrite (entries_map _ _ _ _ _ Hs). apply Forall_fmap. eapply Forall_impl; [exact Hok|].
  intros c Hc. apply (Hwf c Hc).
Qed.
Lemma entries_join {A D} (extract : A -> result D Infallible) context {C} (schema : Schema C (list D)) f css :
  (forall ds, into_entries schema ds = f <$> ds) ->
  mjoin (entries_of extract context schema <$> css) = entries_of extract context schema (mjoin css).
Proof.
  intros Hs. induction css as [|cs css IH]; [by rewrite (entries_map _ _ _ _ _ Hs)|].
  cbn [fmap list_fmap]. change (mjoin (?a :: ?l)) with (a ++ mjoin l). rewrite IH, !(entries_map _ _ _ _ _ Hs).
  change (mjoin (cs :: css)) with (cs ++ mjoin css). by rewrite fmap_app.
Qed.

(** An index's batches, from an empty namespace. *)
Lemma batches_hold C wf `{!CodecLaws C wf} ns st log batches :
  ns <> VERSION_META -> (forall kb, st !! (ns, kb) = None) -> Forall2 (batch_of C ns) log batches -> batches <> [] ->
  all_wf C wf (mjoin batches) -> NoDup (mjoin batches).*1 -> holds C wf ns (fold_left store_ops log st) (mjoin batches).
Proof.
  intros Hns He Hb Hne Hwf Hnd.
  destruct (table_batches C wf ns Hns st [] log batches) as [Ht Hv]; [by apply table_empty|done|done|done|].
  split; [done|]. apply Hv. by left.
Qed.
Lemma local_batches_hold {A D} context name C wf `{!CodecLaws C wf} (extract : A -> result D Infallible) schema
    (key : D -> Key C) (val : D -> Value C) st log css :
  (forall ds, into_entries schema ds = (fun d => (key d, val d)) <$> ds) ->
  name <> VERSION_META -> (forall kb, st !! (name, kb) = None) -> css <> [] ->
  Forall2 (batch_of C name) log (entries_of extract context schema <$> css) ->
  (forall c, context_ok c -> wf (key (extracted extract (context c))) (val (extracted extract (context c)))) ->
  Forall context_ok (mjoin css) -> NoDup ((fun c => key (extracted extract (context c))) <$> mjoin css) ->
  holds C wf name (fold_left store_ops log st) (entries_of extract context schema (mjoin css)).
Proof.
  intros Hs Hns He Hne Hb Hwf Hok Hnd. rewrite <- (entries_join _ _ _ _ _ Hs).
  apply batches_hold; [done|done|done|done|by destruct css|..]; rewrite (entries_join _ _ _ _ _ Hs).
  - by eapply entries_wf.
  - rewrite (entries_map _ _ _ _ _ Hs), <- list_fmap_compose. done.
Qed.
(** Heights along a chain are distinct. *)
Lemma heights_nodup chain cs : chain_contexts chain cs -> NoDup (z_height <$> cs).
Proof.
  intros Hcs. apply NoDup_alt. intros i j h Hi Hj. rewrite list_lookup_fmap in Hi, Hj.
  apply fmap_Some in Hi as (ci & Hi & ->), Hj as (cj & Hj & Heq).
  destruct (block_of chain cs Hcs i ci Hi) as (bi & Hbi & _), (block_of chain cs Hcs j cj Hj) as (bj & Hbj & _).
  destruct (context_at chain cs Hcs i bi Hbi) as (? & ? & _ & Hzi), (context_at chain cs Hcs j bj Hbj) as (? & ? & _ & Hzj).
  assert (z_height ci = Z.of_nat i) by congruence. assert (z_height cj = Z.of_nat j) by congruence. lia.
Qed.

Lemma metadata_wf_series cs m ds m' :
  metadata_ok m -> Forall context_ok cs ->
  series ChainMetadataIndex chain_metadata_append m (chain_metadata_context <$> cs) = Ok (ds, m') ->
  all_wf ChainMetadataIndex chain_metadata_wf (into_entries chain_metadata_schema ds) /\
  (into_entries chain_metadata_schema ds).*1 = z_height <$> cs.
Proof.
  intros Hm Hok. revert m ds m' Hm. induction Hok as [|c cs Hc _ IH]; intros m ds m' Hm; cbn [fmap list_fmap series].
  { intros [= <- <-]. split; [constructor|done]. }
  cbn [ca_extract chain_metadata_append].
  destruct (chain_metadata_extract (chain_metadata_context c) m) as [d|] eqn:Hd; [|done].
  destruct (series _ _ _ _) as [[ds1 m1]|] eqn:Hs; [|done]. intros [= <- <-].
  assert (Hd' : cme_height d = z_height c /\ metadata_ok (cme_value d)).
  { assert (forall A B (f : A -> list B) l, 0 <= sum_lengths f l) as Hpos
      by (intros A B f l; induction l; cbn [sum_lengths foldr]; [done|unfold sum_lengths in *; lia]).
    destruct Hm as ([Hs0 _] & [Ho0 _] & [Hi0 _]). unfold chain_metadata_extract in Hd.
    destruct (tree_size_checked_add (sapling_tree_size m) _) as [s|] eqn:H1; [|done].
    destruct (tree_size_checked_add (orchard_tree_size m) _) as [o|] eqn:H2; [|done].
    destruct (tree_size_checked_add (ironwood_tree_size m) _) as [i|] eqn:H3; [|done]. injection Hd as <-.
    apply checked_add_size in H1 as [-> ?], H2 as [-> ?], H3 as [-> ?]. split; [done|].
    unfold metadata_ok, uint. cbn [cme_value sapling_tree_size orchard_tree_size ironwood_tree_size].
    cbn [chain_metadata_context sapling_added orchard_added ironwood_added] in *.
    pose proof (Hpos _ _ st_outputs (z_sapling_txs c)). pose proof (Hpos _ _ ot_actions (z_orchard_txs c)).
    pose proof (Hpos _ _ ot_actions (z_ironwood_txs c)). lia. }
  destruct Hd' as [Hh Hok']. destruct (IH (cme_value d) ds1 m1 Hok' Hs) as [IH1 IH2].
  cbn [into_entries chain_metadata_schema fmap list_fmap] in *. split.
  - constructor; [|done]. split; cbn; [rewrite Hh; by apply co_height|done].
  - cbn [fst]. rewrite Hh. f_equal. exact IH2.
Qed.

(** One index of the set, from its batches. *)
Ltac hold_index He Hi lem :=
  apply lem; try done;
  [ intros kb; apply He; unfold compact_blocks_indexes; set_solver
  | eapply indexing_batches; [|exact Hi]; intros ???? []; by eapply ran_batch
  | intros c []; first [done|by split_and!] ].

Lemma indexing_holds css log m st chain :
  (forall ns kb, ns ∈ compact_blocks_indexes -> st !! (ns, kb) = None) ->
  chain_contexts chain (mjoin css) -> Forall context_ok (mjoin css) -> NoDup (z_hash <$> mjoin css) ->
  css <> [] -> indexing METADATA_ZERO css log m ->
  compact_indexed (fold_left store_ops log st) (mjoin css).
Proof.
  intros He Hcs Hok Hnd Hne Hi. pose proof (heights_nodup chain _ Hcs) as Hh.
  split.
  - hold_index He Hi (local_batches_hold header_context headers_ID HeadersIndex headers_wf headers_extract
      headers_schema he_height he_value).
  - hold_index He Hi (local_batches_hold txids_context txids_ID TxidsIndex txids_wf txids_extract txids_schema
      te_height te_txids).
  - hold_index He Hi (local_batches_hold hash_to_height_context hash_to_height_ID HashToHeightIndex hash_to_height_wf
      hash_to_height_extract hash_to_height_schema hhe_hash hhe_height).
  - hold_index He Hi (local_batches_hold transparent_data_context transparent_data_ID TransparentDataIndex
      transparent_data_wf transparent_data_extract transparent_data_schema tde_height tde_value).
  - hold_index He Hi (local_batches_hold sapling_context sapling_ID SaplingIndex sapling_wf sapling_extract
      sapling_schema sxe_height sxe_value).
  - hold_index He Hi (local_batches_hold orchard_context orchard_ID OrchardIndex orchard_wf orchard_extract
      orchard_schema oxe_height oxe_value).
  - hold_index He Hi (local_batches_hold ironwood_context ironwood_ID IronwoodIndex ironwood_wf ironwood_extract
      ironwood_schema ixe_height ixe_value).
  - destruct (indexing_metadata _ _ _ _ Hi) as (dss & Hs & Hf & Hl). exists (mjoin dss), m. split; [done|].
    assert (Hj : into_entries chain_metadata_schema (mjoin dss) = mjoin (into_entries chain_metadata_schema <$> dss)).
    { clear. induction dss as [|ds dss IH]; [done|]. cbn [into_entries chain_metadata_schema] in *.
      cbn [fmap list_fmap]. change (mjoin (?a :: ?l)) with (a ++ mjoin l). by rewrite <- IH, <- fmap_app. }
    destruct (metadata_wf_series (mjoin css) METADATA_ZERO (mjoin dss) m) as [Hw Hk]; [done|done|done|].
    rewrite Hj in Hw, Hk |- *. apply batches_hold; [apply _|done| |done| |done|by rewrite Hk].
    + intros kb. apply He. unfold compact_blocks_indexes. set_solver.
    + destruct css, dss; done.
Qed.
(** C4: indexing a chain makes the store serve it.  Starting from empty
    namespaces, let the compact-block set index a chain batch by batch, every
    block-local index extracting a batch's blocks in whatever order and the tree
    sizes carried from batch to batch, each commit holding the indexes' write
    sets in any order, among other indexes' and the watermark's.  Then over any
    backend that keeps its promise the committed store serves, at every height,
    exactly the chain's compact block or nothing above it. *)
Theorem indexed_chain_served {BSt} (B : Backend BSt) abs `{!BackendSpec B abs} b b' r css log m chain :
  (forall ns kb, ns ∈ compact_blocks_indexes -> abs b !! (ns, kb) = None) ->
  chain_contexts chain (mjoin css) -> Forall context_ok (mjoin css) -> NoDup (z_hash <$> mjoin css) ->
  css <> [] -> indexing METADATA_ZERO css log m ->
  commits B b log = Some b' -> b_reader B b' = Ok r ->
  forall h, Height.valid h -> compact_block B b' (AtHeight h) = Ok (served chain (Z.to_nat h)).
Proof.
  intros He Hcs Hok Hnd Hne Hi Hc Hb h Hh. pose proof (spec_reader _ _ Hb) as Hr.
  pose proof (indexing_holds css log m (abs b) chain He Hcs Hok Hnd Hne Hi) as Hst.
  rewrite <- (commits_abs _ _ _ _ _ Hc) in Hst. unfold compact_block, open. rewrite Hb. cbn [map_err].
  eapply read_compact_block_served; [exact Hcs|exact Hr|exact Hst|].
  unfold Height.valid, uint in *. change Height.MAX_HEIGHT with 2147483647 in Hh. lia.
Qed.

(** *** A batch can always be indexed *)
Lemma run_local_wf {A D} context name C wf `{!CodecLaws C wf} (extract : A -> result D Infallible) schema n cs named :
  all_wf C wf (entries_of extract context schema cs) ->
  (name, persisted C name (entries_of extract context schema cs)) ∈ named ->
  ran context name C extract schema n cs named.
Proof.
  intros Hall Hin.
  destruct (local_bridge_chain_order context (local_def name) C extract (AppendStrategy D) schema n cs
    ((fun c => extracted extract (context c)) <$> cs) (tagged n cs)) as (b & Hb & Hm).
  - done.
  - apply Forall2_fmap_r, Forall_Forall2_diag, Forall_forall. intros c _. unfold compose, extracted.
    by destruct (extract (context c)) as [|[]].
  - rewrite merge_append. apply forallb_forall. intros [k v] Hkv%list_elem_of_In.
    unfold all_wf in Hall. rewrite Forall_forall in Hall. apply codec_fits, (Hall _ Hkv).
  - rewrite merge_append in Hm. exists (tagged n cs). do 2 eexists. split; [done|]. split; [by exists b|done].
Qed.
Lemma run_local {A D} context name C wf `{!CodecLaws C wf} (extract : A -> result D Infallible) schema
    (key : D -> Key C) (val : D -> Value C) n cs named :
  (forall ds, into_entries schema ds = (fun d => (key d, val d)) <$> ds) ->
  (forall c, context_ok c -> wf (key (extracted extract (context c))) (val (extracted extract (context c)))) ->
  Forall context_ok cs -> (name, persisted C name (entries_of extract context schema cs)) ∈ named ->
  ran context name C extract schema n cs named.
Proof. intros Hs Hwf Hok Hin. apply (run_local_wf context name C wf); [by eapply entries_wf|done]. Qed.

Definition compact_named (cs : list CurrentZainoContext) (ds : list ChainMetadataEntry) : list (string * list WriteOp) :=
  [(headers_ID, persisted HeadersIndex headers_ID (header_entries cs));
   (txids_ID, persisted TxidsIndex txids_ID (txids_entries cs));
   (hash_to_height_ID, persisted HashToHeightIndex hash_to_height_ID (hash_to_height_entries cs));
   (transparent_data_ID, persisted TransparentDataIndex transparent_data_ID (transparent_entries cs));
   (sapling_ID, persisted SaplingIndex sapling_ID (sapling_entries cs));
   (orchard_ID, persisted OrchardIndex orchard_ID (orchard_entries cs));
   (ironwood_ID, persisted IronwoodIndex ironwood_ID (ironwood_entries cs));
   (chain_metadata_ID, persisted ChainMetadataIndex chain_metadata_ID (into_entries chain_metadata_schema ds))].
Definition compact_ops (h : Z) (cs : list CurrentZainoContext) (ds : list ChainMetadataEntry) : list WriteOp :=
  mjoin (compact_named cs ds).*2 ++ [stamp h].

Lemma compact_named_commit h cs ds : commit_of (compact_named cs ds) (compact_ops h cs ds).
Proof.
  split_and!; [apply (bool_decide_unpack _); reflexivity| |by exists h].
  repeat constructor; cbn [fst snd];
    try (unfold reserved_namespaces; apply (bool_decide_unpack _); reflexivity); eauto.
Qed.

Ltac run_index lem := eapply lem; [done|intros c []; first [done|by split_and!]|done|unfold compact_named; set_solver].

Lemma compact_batch_exists h m cs ds m' :
  Forall context_ok cs ->
  series ChainMetadataIndex chain_metadata_append m (chain_metadata_context <$> cs) = Ok (ds, m') ->
  compact_batch m cs (compact_ops h cs ds) m'.
Proof.
  intros Hok Hs. refine (mkCompactBatch _ _ _ _ 0 (compact_named cs ds) _ _ _ _ _ _ _ _ _).
  - apply compact_named_commit.
  - run_index (run_local header_context headers_ID HeadersIndex headers_wf headers_extract headers_schema he_height he_value).
  - run_index (run_local txids_context txids_ID TxidsIndex txids_wf txids_extract txids_schema te_height te_txids).
  - run_index (run_local hash_to_height_context hash_to_height_ID HashToHeightIndex hash_to_height_wf
      hash_to_height_extract hash_to_height_schema hhe_hash hhe_height).
  - run_index (run_local transparent_data_context transparent_data_ID TransparentDataIndex transparent_data_wf
      transparent_data_extract transparent_data_schema tde_height tde_value).
  - run_index (run_local sapling_context sapling_ID SaplingIndex sapling_wf sapling_extract sapling_schema
      sxe_height sxe_value).
  - run_index (run_local orchard_context orchard_ID OrchardIndex orchard_wf orchard_extract orchard_schema
      oxe_height oxe_value).
  - run_index (run_local ironwood_context ironwood_ID IronwoodIndex ironwood_wf ironwood_extract ironwood_schema
      ixe_height ixe_value).
  - exists (persisted ChainMetadataIndex chain_metadata_ID (into_entries chain_metadata_schema ds)).
    split; [|unfold compact_named; set_solver]. eexists. split.
    + cbn [Engine.extract_one append_pipeline metadata_pipeline]. rewrite sequential_extract_all.
      cbn [a_carry metadata_carrying]. by rewrite Hs.
    + unfold Engine.merge_persist. cbn -[persist_merged]. unfold append_persist. cbn [a_merged].
      rewrite persist_merged_fits; [done|by apply fits_all].
Qed.
(** ** Two blocks *)
Module Example.
Local Existing Instance canonical_iter.

Definition h32 (z : Z) : list Z := replicate 32 z.
Definition p2pkh : list Z := [0x76; 0xa9; 0x14] ++ replicate 20 5 ++ [0x88; 0xac].
Definition tx0 : Transaction :=
  mkTransaction (h32 20) (mkTransparentData [] [mkTransparentOutput 7 p2pkh; mkTransparentOutput 9 p2pkh])
    (mkSaplingData [h32 5] [mkSaplingOutput (h32 6) (h32 7) (replicate CIPHERTEXT_LENGTH 8)] 0)
    (mkOrchardData [] 0) (mkOrchardData [] 0).
Definition tx1 : Transaction :=
  mkTransaction (h32 21) (mkTransparentData [mkTransparentInput (h32 20) 1] [mkTransparentOutput 4 [9]])
    (mkSaplingData [] [] 0)
    (mkOrchardData [mkOrchardAction (h32 1) (h32 2) (h32 3) (replicate CIPHERTEXT_LENGTH 4)] 0) (mkOrchardData [] 0).
Definition block (h : Z) (prev hash : list Z) (txs : list Transaction) : Block :=
  mkBlock (mkBlockHeader hash 4 prev h (1000 + h) (h32 0) (h32 0) sample_bits (h32 0) (Regtest [])) txs METADATA_ZERO.
Definition b0 : Block := block 0 (h32 0) (h32 10) [tx0].
Definition b1 : Block := block 1 (h32 10) (h32 11) [tx1].
Definition context (b : Block) : CurrentZainoContext := context_from_pre_index_compact_block (pre_index_block b).
Definition css : list (list CurrentZainoContext) := [[context b0]; [context b1]].

Lemma h32_ok z : byte_ok z -> hash32 (h32 z).
Proof. intros Hz. split; [apply length_replicate|by apply Forall_replicate]. Qed.
Lemma contexts : chain_contexts [b0; b1] (mjoin css).
Proof.
  split; [repeat constructor|]. intros [|[|i]] b; [intros [= <-]; reflexivity..|discriminate].
Qed.
Lemma sample_bits_ok :
  Difficulty.CompactDifficulty.try_from_bits (Difficulty.CompactDifficulty.bits sample_bits) = Ok sample_bits.
Proof. vm_compute. reflexivity. Qed.
Lemma sample_bits_u32 : uint 32 (Difficulty.CompactDifficulty.bits sample_bits).
Proof. split; vm_compute; [discriminate|reflexivity]. Qed.
Ltac small := split; [discriminate|reflexivity].
Ltac sized_ok := intros e He; vm_compute in He; injection He as <-; reflexivity.
Ltac wf_ok :=
  repeat match goal with
  | |- hash32 _ => apply h32_ok; small
  | |- uint _ _ => small
  | |- Zatoshis.valid _ => split; discriminate
  | |- Z.lt _ _ => reflexivity
  | |- ciphertext_ok _ => reflexivity
  | |- sized _ _ => sized_ok
  | |- counted _ _ => split; [reflexivity|]
  | |- transparent_tx_wf _ => split
  | |- sapling_tx_wf _ => split
  | |- orchard_tx_wf _ => unfold orchard_tx_wf
  | |- input_wf _ => split
  | |- output_wf _ => split
  | |- sapling_output_wf _ => split
  | |- action_wf _ => split
  | |- Forall _ _ => constructor
  | |- _ /\ _ => split
  end.
Ltac context_wf :=
  split; [wf_ok..|exact sample_bits_u32|exact sample_bits_ok|wf_ok|unfold transparent_data_wf|unfold sapling_wf
    |unfold orchard_wf|unfold ironwood_wf]; wf_ok.
Lemma ok0 : context_ok (context b0).
Proof. context_wf. Qed.
Lemma ok1 : context_ok (context b1).
Proof. context_wf. Qed.
Lemma oks : Forall context_ok (mjoin css).
Proof. constructor; [exact ok0|]. constructor; [exact ok1|constructor]. Qed.

Definition sizes1 : ChainMetadata := mkChainMetadata 1 0 0.
Definition sizes2 : ChainMetadata := mkChainMetadata 1 1 0.
Definition log : list (list WriteOp) :=
  [compact_ops 0 [context b0] [mkChainMetadataEntry 0 sizes1];
   compact_ops 1 [context b1] [mkChainMetadataEntry 1 sizes2]].
Lemma indexed_log : indexing METADATA_ZERO css log sizes2.
Proof.
  pose proof ok0. pose proof ok1.
  eapply indexing_cons; [apply compact_batch_exists; [by constructor|reflexivity]|].
  eapply indexing_cons; [apply compact_batch_exists; [by constructor|reflexivity]|]. constructor.
Qed.
Lemma hashes : NoDup (z_hash <$> mjoin css).
Proof. apply (bool_decide_unpack _). vm_compute. exact I. Qed.
Definition committed : Data := fold_left mem_op (mjoin log) Kv.new.

Lemma indexed_chain_served_witness :
  compact_block in_memory committed (AtHeight 1) = Ok (Some (from_pre_index (pre_index_block b1) sizes2)).
Proof.
  exact (indexed_chain_served in_memory data_abs Kv.new committed (mem_reader committed) css log sizes2 [b0; b1]
    (fun ns kb _ => eq_refl) contexts oks hashes ltac:(discriminate) indexed_log
    (mem_commits Kv.new log) eq_refl 1 ltac:(split; discriminate)).
Defined.

Lemma compact_block_served_witness :
  compact_block in_memory committed (AtHash (h32 10)) = Ok (Some (from_pre_index (pre_index_block b0) sizes1)).
Proof.
  destruct (compact_block_served in_memory data_abs committed (mem_reader committed) [b0; b1] (mjoin css))
    as (_ & Hhash & _).
  - reflexivity.
  - exact contexts.
  - rewrite (commits_abs in_memory data_abs Kv.new log committed (mem_commits Kv.new log)).
    exact (indexing_holds css log sizes2 (data_abs Kv.new) [b0; b1] (fun ns kb _ => eq_refl) contexts oks
       hashes ltac:(discriminate) indexed_log).
  - discriminate.
  - exact (proj1 (Hhash eq_refl) 0%nat b0 eq_refl).
Defined.
End Example.
End StoreCorrect.
