(* ===== verification/Address.v ===== *)
(** * Transparent addresses and their history
    ([packages/zaino-address/src/transparent.rs], [packages/zaino-store/src/address.rs],
    [packages/zaino-indexes/src/indexes/address_history.rs], [packages/zaino-service/src/reads.rs]) *)

From S2P Require Import Prelude Primitives Types Persistence Codec Indexes IndexSet Store.
From stdpp Require Import base gmap list strings sorting.
From Stdlib Require Import Lia.
Open Scope Z_scope.

Module Address.
Import Bytes Kv Layout Codec Indexes IndexSet Store.

(** ** [ReadBudget] *)
Record ReadBudget := mkBudget { limit : Z; remaining : Z }.
Definition MAX_ADDRESS_ENTRIES : Z := 5000000.
Definition with_limit (limit : Z) : ReadBudget := mkBudget limit limit.
Definition for_request : ReadBudget := with_limit MAX_ADDRESS_ENTRIES.
Definition charge_one (b : ReadBudget) : option ReadBudget :=
  let! remaining := checked_sub (remaining b) 1 in Some (mkBudget (limit b) remaining).

(** ** Reading receives *)
Inductive ReceivesReadError := ReceivesBackend | ReceivesDecode (e : DecodeError) | ReceivesTooLarge (limit : Z)
  | HeightOutOfRange (height : Z).

Definition addr_prefix (addr : AddrId) : list Z := script_type_byte (script_type addr) :: addr_hash addr.
Definition lower_bound (addr : AddrId) (start : Z) : list Z := addr_prefix addr ++ to_be_bytes 8 start.
Definition upper_bound (addr : AddrId) (end_ : Z) : result (list Z) ReceivesReadError :=
  let? next := ok_or (checked_add 64 end_ 1) (HeightOutOfRange end_) in
  Ok (addr_prefix addr ++ to_be_bytes 8 next).
Definition decode_receive (raw_key raw_value : list Z) : result AddressReceive ReceivesReadError :=
  let? key := map_err ReceivesDecode (decode_key AddressHistoryIndex raw_key) in
  let? value := map_err ReceivesDecode (decode_value AddressHistoryIndex raw_value) in
  Ok (mkAddressReceive (ak_addr key) (ak_height key) (ak_txid key) (ak_output_index key) value).

(** What the scan's callback captures; the charges of a scan the backend failed are
    not kept, its request failing with it. *)
Record ScanState := mkScan {
  sc_out : list AddressReceive; sc_error : option ReceivesReadError; sc_over : bool; sc_budget : ReadBudget }.
Definition visit_receive : RangeVisitor ScanState := fun s raw_key raw_value =>
  match charge_one (sc_budget s) with
  | None => (mkScan (sc_out s) (sc_error s) true (sc_budget s), Break)
  | Some budget =>
      match decode_receive raw_key raw_value with
      | Ok receive => (mkScan (sc_out s ++ [receive]) (sc_error s) (sc_over s) budget, Continue)
      | Err error => (mkScan (sc_out s) (Some error) (sc_over s) budget, Break)
      end
  end.
Definition receive_le (a b : AddressReceive) : Prop :=
  rc_height a < rc_height b \/ rc_height a = rc_height b /\ rc_output_index a <= rc_output_index b.
Global Instance receive_le_dec : RelDecision receive_le.
Proof. intros a b. unfold receive_le. apply _. Defined.

Definition read_receives (reader : BackendReader) (addr : AddrId) (start end_ : Z) (budget : ReadBudget)
    : result (list AddressReceive) ReceivesReadError * ReadBudget :=
  let lower := lower_bound addr start in
  match upper_bound addr end_ with
  | Err x => (Err x, budget)
  | Ok upper =>
      match r_scan_range reader address_history_ID lower upper visit_receive (mkScan [] None false budget) with
      | Err _ => (Err ReceivesBackend, budget)
      | Ok s =>
          (match sc_error s with
           | Some error => Err error
           | None =>
               if sc_over s then Err (ReceivesTooLarge (limit (sc_budget s)))
               else Ok (merge_sort receive_le (sc_out s))
           end, sc_budget s)
      end
  end.

(** ** Addresses *)
Section Addresses.
(** A transparent address is a string; what [zcash_address] parses it into. *)
Inductive ParsedAddress := ParsedP2pkh (data : list Z) | ParsedP2sh (data : list Z) | ParsedOther.
Context {TransparentAddress : Type} (parse : TransparentAddress -> option ParsedAddress).

Definition transparent_address_key (address : TransparentAddress) : option (ScriptType * list Z) :=
  let! parsed := parse address in
  match parsed with
  | ParsedP2pkh data => Some (P2PKH, data)
  | ParsedP2sh data => Some (P2SH, data)
  | ParsedOther => None
  end.
Definition script_pays (script : list Z) (address : TransparentAddress) : bool :=
  match transparent_address_key address with
  | None => false
  | Some (script_type, hash) => bool_decide (classify_script script = (hash, script_type))
  end.
Definition script_of_key (script_type : ScriptType) (hash : list Z) : option (list Z) :=
  match script_type with
  | P2PKH => Some ([0x76; 0xa9; 0x14] ++ hash ++ [0x88; 0xac])
  | P2SH => Some ([0xa9; 0x14] ++ hash ++ [0x87])
  | NonStandard => None
  end.
Definition script_paying (address : TransparentAddress) : option (list Z) :=
  let! (script_type, hash) := transparent_address_key address in
  script_of_key script_type hash.

(** ** [store/address.rs] *)
Inductive AddressReadError :=
| AddressNotServiceable (c : Capability) | AddressUnsupported
| AddressTooLarge (address : TransparentAddress) (limit : Z) | AddressTransient | AddressFatal.

Record SpendSite := mkSpendSite { site_by : TransactionId; site_height : Z; site_block_index : Z; site_input_index : Z }.
Record Entry := mkEntry {
  en_height : Z; en_txid : TransactionId; en_output_index : Z; en_value : Z; en_spent : option SpendSite }.
Record AddressBalance := mkAddressBalance { bal_balance : Z; bal_received : Z }.
Record Utxo := mkUtxo {
  utxo_address : TransparentAddress; utxo_txid : TransactionId; utxo_output_index : Z; utxo_script : list Z;
  utxo_satoshis : Z; utxo_height : Z }.
Record AddressDelta := mkAddressDelta {
  ad_satoshis : Z; ad_txid : TransactionId; ad_index : Z; ad_height : Z; ad_address : TransparentAddress;
  ad_block_index : option Z }.

Definition receives_read_error (addr : TransparentAddress) (error : ReceivesReadError) : AddressReadError :=
  match error with
  | ReceivesTooLarge limit => AddressTooLarge addr limit
  | ReceivesBackend => AddressTransient
  | ReceivesDecode _ => AddressFatal
  | HeightOutOfRange _ => AddressFatal
  end.
Definition address_read_error (error : StoreError) : AddressReadError :=
  match error with
  | NotServiceable c => AddressNotServiceable c
  | Transient => AddressTransient
  | Fatal => AddressFatal
  end.

(** [i64::try_from(..)], [checked_mul], [SignedZatoshis::try_new] *)
Definition delta (value sign : Z) : result Z AddressReadError :=
  ok_or (let! magnitude := try_narrow 63 value in
         let product := magnitude * sign in
         if (- 2 ^ 63 <=? product) && (product <? 2 ^ 63) then ok (Zatoshis.signed_try_new product) else None)
    AddressFatal.
Definition positive_delta (value : Z) : result Z AddressReadError := delta value 1.
Definition negative_delta (value : Z) : result Z AddressReadError := delta value (-1).

Definition covers (range : HeightRange) (height : Z) : bool :=
  (range_start range <=? height) && (height <=? range_end range).
Definition whole_history_start : Z := 0.
Definition whole_history_end : Z := umax 32.

Section Reads.
Context {BSt : Type} (B : Backend BSt) (b : BSt).

Definition address_reader : result BackendReader AddressReadError := map_err (fun _ => AddressFatal) (b_reader B b).
Definition spend_site (reader : BackendReader) (outpoint : OutpointKey)
    : result (option SpendSite) AddressReadError :=
  let? resolved := map_err address_read_error (resolve_spend reader outpoint) in
  Ok (let! r := resolved in Some (mkSpendSite (rs_by r) (rs_height r) (rs_block_index r) (rs_input_index r))).
Definition location (reader : BackendReader) (txid : TransactionId)
    : result (option TxLocation) AddressReadError :=
  map_err (fun _ => AddressTransient) (read_keyed TxidLocationIndex reader txid_location_ID txid).
Definition block_index (txid : TransactionId) : result (option Z) AddressReadError :=
  let? reader := address_reader in
  let? location := location reader txid in
  Ok (let! l := location in Some (tx_index l)).

Definition to_entry (reader : BackendReader) (receive : AddressReceive) : result Entry AddressReadError :=
  let? height := ok_or (indexed_height (rc_height receive)) AddressFatal in
  let? spent := spend_site reader (mkOutpointKey (rc_txid receive) (rc_output_index receive)) in
  Ok (mkEntry height (rc_txid receive) (rc_output_index receive) (rc_value receive) spent).
Definition entries (addr : TransparentAddress) (start end_ : Z) (budget : ReadBudget)
    : result (list Entry) AddressReadError * ReadBudget :=
  match transparent_address_key addr with
  | None => (Ok [], budget)
  | Some (script_type, hash) =>
      match (let? reader := address_reader in
             let? _ := map_err address_read_error
                         (gated reader [address_history_ID; transparent_spends_ID; txid_location_ID] AddressHistory) in
             Ok reader) with
      | Err x => (Err x, budget)
      | Ok reader =>
          let (receives, budget) := read_receives reader (mkAddrId script_type hash) start end_ budget in
          (let? receives := map_err (receives_read_error addr) receives in
           map_result (to_entry reader) receives, budget)
      end
  end.

Definition is_unspent (e : Entry) : bool := match en_spent e with None => true | Some _ => false end.

Definition balance (addr : TransparentAddress) (range : HeightRange) (budget : ReadBudget)
    : result AddressBalance AddressReadError * ReadBudget :=
  let (es, budget) := entries addr (range_start range) (range_end range) budget in
  (let? es := es in
   let arrived := List.filter (fun e => covers range (en_height e)) es in
   let? received := ok_or (Zatoshis.try_accumulate (en_value <$> arrived)) AddressFatal in
   let? held := ok_or (Zatoshis.sum_balances (en_value <$> List.filter is_unspent arrived)) AddressFatal in
   Ok (mkAddressBalance held received), budget).

Definition script_for (addr : TransparentAddress) : result (list Z) AddressReadError :=
  ok_or (script_paying addr) AddressFatal.
Definition unspent_outpoints (addr : TransparentAddress) (budget : ReadBudget)
    : result (list Utxo) AddressReadError * ReadBudget :=
  let (es, budget) := entries addr whole_history_start whole_history_end budget in
  (let? es := es in
   match List.filter is_unspent es with
   | [] => Ok []
   | unspent =>
       let? script := script_for addr in
       Ok ((fun e => mkUtxo addr (en_txid e) (en_output_index e) script (en_value e) (en_height e)) <$> unspent)
   end, budget).

(** The deltas one entry contributes, its receive before its spend. *)
Definition receive_deltas (addr : TransparentAddress) (range : HeightRange) (e : Entry)
    : result (list AddressDelta) AddressReadError :=
  if covers range (en_height e) then
    let? amount := positive_delta (en_value e) in
    let? index := block_index (en_txid e) in
    Ok [mkAddressDelta amount (en_txid e) (en_output_index e) (en_height e) addr index]
  else Ok [].
Definition spend_deltas (addr : TransparentAddress) (range : HeightRange) (e : Entry)
    : result (list AddressDelta) AddressReadError :=
  match en_spent e with
  | Some site =>
      if covers range (site_height site) then
        let? amount := negative_delta (en_value e) in
        Ok [mkAddressDelta amount (site_by site) (site_input_index site) (site_height site) addr
              (Some (site_block_index site))]
      else Ok []
  | None => Ok []
  end.
Definition entry_deltas (addr : TransparentAddress) (range : HeightRange) (e : Entry)
    : result (list AddressDelta) AddressReadError :=
  let? receive := receive_deltas addr range e in
  let? spend := spend_deltas addr range e in
  Ok (receive ++ spend).

(** [Ord] on options and tuples. *)
Definition option_compare (a b : option Z) : comparison :=
  match a, b with
  | None, None => Eq
  | None, Some _ => Lt
  | Some _, None => Gt
  | Some a, Some b => a ?= b
  end.
Definition then_compare (c d : comparison) : comparison := match c with Eq => d | c => c end.
Definition delta_le (a b : AddressDelta) : Prop :=
  then_compare (ad_height a ?= ad_height b)
    (then_compare (option_compare (ad_block_index a) (ad_block_index b)) (ad_index a ?= ad_index b)) <> Gt.
Global Instance delta_le_dec : RelDecision delta_le.
Proof. intros a d. unfold delta_le. apply _. Defined.
Definition deltas (addr : TransparentAddress) (range : HeightRange) (budget : ReadBudget)
    : result (list AddressDelta) AddressReadError * ReadBudget :=
  let (es, budget) := entries addr whole_history_start (range_end range) budget in
  (let? es := es in
   let? ds := map_result (entry_deltas addr range) es in
   Ok (merge_sort delta_le (mjoin ds)), budget).

(** [tx_ids]: located transactions, by height, position and display order. *)
Notation Located := (Z * option Z * TransactionId)%type (only parsing).
Definition entry_txids (range : HeightRange) (e : Entry) : result (list Located) AddressReadError :=
  let? receive :=
    if covers range (en_height e) then
      let? index := block_index (en_txid e) in Ok [(en_height e, index, en_txid e)]
    else Ok [] in
  let spend :=
    match en_spent e with
    | Some site =>
        if covers range (site_height site) then [(site_height site, Some (site_block_index site), site_by site)] else []
    | None => []
    end in
  Ok (receive ++ spend).
Definition located_le (a b : Located) : Prop :=
  then_compare (a.1.1 ?= b.1.1)
    (then_compare (option_compare a.1.2 b.1.2) (bytes_compare (reverse a.2) (reverse b.2))) <> Gt.
Global Instance located_le_dec : RelDecision located_le.
Proof. intros a d. unfold located_le. apply _. Defined.
(** [Vec::dedup] *)
Fixpoint dedup {A} `{EqDecision A} (l : list A) : list A :=
  match l with
  | [] => []
  | a :: l =>
      match dedup l with
      | a' :: l' => if decide (a = a') then a' :: l' else a :: a' :: l'
      | [] => [a]
      end
  end.
Definition tx_ids (addr : TransparentAddress) (range : HeightRange) (budget : ReadBudget)
    : result (list (option Z * option Z * TransactionId)) AddressReadError * ReadBudget :=
  let (es, budget) := entries addr whole_history_start (range_end range) budget in
  (let? es := es in
   let? txids := map_result (entry_txids range) es in
   Ok ((fun '(height, position, txid) => (Some height, position, txid))
         <$> dedup (merge_sort located_le (mjoin txids))), budget).
End Reads.
End Addresses.
End Address.
