(* ===== verification/HistoryCorrect.v ===== *)
(** * Spends and address history served from a chain

    What [spend_status], [spend_info] and the address reads answer over a store
    that holds the transparent indexes of a chain. *)

From S2P Require Import Prelude Primitives Types Persistence Codec Bridge Indexes IndexSet Store StoreCorrect Address.
From stdpp Require Import base gmap list strings sorting.
From Stdlib Require Import Lia.
Open Scope Z_scope.

Module HistoryCorrect.
Import Bytes Kv Layout Codec Bridge Indexes IndexSet Store StoreCorrect Address.

(** ** Transactions of a chain *)
Definition tx_at (chain : list Block) (h i : nat) (tx : Transaction) : Prop :=
  exists b, chain !! h = Some b /\ transactions b !! i = Some tx.
(** The transaction at [h], [i] consumes the outpoint with its input [j]. *)
Definition spent_at (chain : list Block) (o : Outpoint) (h i j : nat) (tx : Transaction) : Prop :=
  tx_at chain h i tx /\ exists inp, inputs (transparent tx) !! j = Some inp /\ (prev_txid inp, prev_index inp) = o.
Definition created (chain : list Block) (o : Outpoint) : Prop :=
  exists h i tx, tx_at chain h i tx /\ txid tx = o.1 /\ o.2 < Z.of_nat (length (outputs (transparent tx))).

Definition spentb (chain : list Block) (o : Outpoint) : bool :=
  existsb (fun b => existsb (fun tx =>
    existsb (fun inp => bool_decide ((prev_txid inp, prev_index inp) = o)) (inputs (transparent tx)))
    (transactions b)) chain.
Lemma existsb_lookup {A} (f : A -> bool) l : existsb f l = true <-> exists i a, l !! i = Some a /\ f a = true.
Proof.
  rewrite existsb_exists. split.
  - intros (a & [i Hi]%list_elem_of_In%list_elem_of_lookup & Ha). eauto.
  - intros (i & a & Hi & Ha). exists a. split; [|done]. by apply list_elem_of_In, list_elem_of_lookup_2 with i.
Qed.
Lemma spentb_spec chain o : spentb chain o = true <-> exists h i j tx, spent_at chain o h i j tx.
Proof.
  unfold spentb. rewrite existsb_lookup. split.
  - intros (h & b & Hb & (i & tx & Hi & (j & inp & Hj & Ho%bool_decide_eq_true)%existsb_lookup)%existsb_lookup).
    exists h, i, j, tx. by split; [exists b|exists inp].
  - intros (h & i & j & tx & (b & Hb & Hi) & inp & Hj & Ho). exists h, b. split; [done|].
    apply existsb_lookup. exists i, tx. split; [done|]. apply existsb_lookup. exists j, inp.
    split; [done|by apply bool_decide_eq_true].
Qed.

(** The indexes of [SpendStatus] and [AddressHistory]. *)
Record spends_indexed (st : store) (cs : list CurrentZainoContext) : Prop := {
  si_locations : holds TxidLocationIndex txid_location_wf txid_location_ID st (txid_location_entries cs);
  si_spends : holds TransparentSpendsIndex transparent_spends_wf transparent_spends_ID st (spend_entries cs);
  si_transparent : holds TransparentDataIndex transparent_data_wf transparent_data_ID st (transparent_entries cs) }.

Lemma elem_of_join_fmap {A B} (f : A -> list B) (l : list A) x : x ∈ mjoin (f <$> l) <-> exists a, a ∈ l /\ x ∈ f a.
Proof.
  rewrite list_elem_of_join. split.
  - intros (y & Hx & (a & -> & Ha)%list_elem_of_fmap). eauto.
  - intros (a & Ha & Hx). exists (f a). split; [done|]. by apply list_elem_of_fmap_2.
Qed.

Lemma fmap_mjoin {A B} (f : A -> B) (ls : list (list A)) : f <$> mjoin ls = mjoin (fmap f <$> ls).
Proof.
  induction ls as [|l ls IH]; [done|]. change (f <$> (l ++ mjoin ls) = (f <$> l) ++ mjoin (fmap f <$> ls)).
  by rewrite fmap_app, IH.
Qed.
Lemma NoDup_join_part {A} (ls : list (list A)) a l : NoDup (mjoin ls) -> ls !! a = Some l -> NoDup l.
Proof.
  revert a. induction ls as [|l0 ls IH]; intros a Hnd Ha; [done|].
  apply (NoDup_app l0 (mjoin ls)) in Hnd as (H0 & _ & Hls). destruct a; [by injection Ha as ->|by eapply IH].
Qed.
(** A position of a joined list of distinct elements. *)
Lemma NoDup_join_lookup {A} (ls : list (list A)) : NoDup (mjoin ls) -> forall a a' l l' b b' x,
  ls !! a = Some l -> l !! b = Some x -> ls !! a' = Some l' -> l' !! b' = Some x -> a = a' /\ b = b'.
Proof.
  intros Hnd. induction ls as [|l0 ls IH]; intros a a' l l' b b' x Ha Hb Ha' Hb'; [done|].
  apply (NoDup_app l0 (mjoin ls)) in Hnd as (H0 & Hdis & Hls).
  assert (Hin : forall a l b, ls !! a = Some l -> l !! b = Some x -> x ∈ mjoin ls).
  { intros a1 l1 b1 E1 E2. apply list_elem_of_join. exists l1. by split; eapply list_elem_of_lookup_2. }
  destruct a as [|a], a' as [|a']; cbn in *; simplify_eq.
  - split; [done|]. by apply (NoDup_lookup l b b' x).
  - destruct (Hdis x); [by eapply list_elem_of_lookup_2|by eapply Hin].
  - destruct (Hdis x); [by eapply list_elem_of_lookup_2|by eapply Hin].
  - destruct (IH Hls a a' l l' b b' x) as [-> ->]; done.
Qed.

Section Chain.
Context (chain : list Block) (cs : list CurrentZainoContext) (Hcs : chain_contexts chain cs).

(** A context of the list, as a block of the chain. *)
Lemma elem_of_contexts c :
  c ∈ cs <-> exists h b, chain !! h = Some b /\ context_from_block b = Some c /\ h_height (header b) = Z.of_nat h.
Proof.
  split.
  - intros [h Hh]%list_elem_of_lookup. destruct (block_of chain cs Hcs h c Hh) as (b & Hb & Hbc).
    exists h, b. split_and!; [done|done|]. by apply (proj2 Hcs).
  - intros (h & b & Hb & Hbc & _). destruct (context_at chain cs Hcs h b Hb) as (c' & Hc' & Hbc' & _).
    assert (c' = c) as -> by congruence. by apply list_elem_of_lookup_2 in Hc'.
Qed.

Lemma location_entry id loc :
  (id, loc) ∈ txid_location_entries cs <->
  exists h i tx, tx_at chain h i tx /\ txid tx = id /\ loc = mkTxLocation (Z.of_nat h) (Z.of_nat i).
Proof.
  unfold txid_location_entries, entries_of. cbn [into_entries txid_location_schema]. split.
  - intros (e & Heq & He)%list_elem_of_fmap. apply elem_of_join_fmap in He as (c & Hc & He).
    apply elem_of_contexts in Hc as (h & b & Hb & Hbc & Hh).
    destruct (context_tx b c Hbc) as (_ & _ & _ & _ & _ & _ & _ & Hl & _). cbn in He. rewrite Hl in He.
    apply list_elem_of_fmap in He as ([[t z] i] & -> & Hi). apply elem_of_lookup_imap in Hi as (k & tx & [= -> -> ->] & Hk).
    cbn in Heq. injection Heq as -> ->. exists h, k, tx. rewrite Hh. by split_and!; [exists b|..].
  - intros (h & i & tx & (b & Hb & Hi) & <- & ->). destruct (context_at chain cs Hcs h b Hb) as (c & Hc & Hbc & Hh).
    destruct (context_tx b c Hbc) as (Hh' & _ & _ & _ & _ & _ & _ & Hl & _).
    apply list_elem_of_fmap. exists (mkTxidLocationEntry (txid tx) (mkTxLocation (Z.of_nat h) (Z.of_nat i))).
    split; [done|]. apply elem_of_join_fmap. exists c. split; [by apply list_elem_of_lookup_2 in Hc|].
    cbn. rewrite Hl. apply list_elem_of_fmap. exists (txid tx, Z.of_nat h, Z.of_nat i). split; [done|].
    apply elem_of_lookup_imap. exists i, tx. rewrite <- Hh', Hh. done.
Qed.

Lemma spend_entry o by_ :
  (mkOutpointKey o.1 o.2, by_) ∈ spend_entries cs <-> exists h i j tx, spent_at chain o h i j tx /\ txid tx = by_.
Proof.
  unfold spend_entries, entries_of. cbn [into_entries transparent_spends_schema]. destruct o as [t x]. cbn [fst snd]. split.
  - intros (e & Heq & He)%list_elem_of_fmap. apply elem_of_join_fmap in He as (c & Hc & He).
    apply elem_of_contexts in Hc as (h & b & Hb & Hbc & _).
    destruct (context_tx b c Hbc) as (_ & _ & _ & _ & _ & _ & Hs & _). cbn in He. rewrite Hs in He.
    apply list_elem_of_fmap in He as ([[t' x'] s] & -> & Hin). apply elem_of_join_fmap in Hin as (tx & Htx & Hin).
    apply list_elem_of_fmap in Hin as (inp & [= -> -> ->] & Hinp). cbn in Heq. injection Heq as -> -> ->.
    apply list_elem_of_lookup in Htx as [i Hi], Hinp as [j Hj].
    exists h, i, j, tx. split; [|done]. split; [by exists b|]. by exists inp.
  - intros (h & i & j & tx & [(b & Hb & Hi) (inp & Hj & [= <- <-])] & <-).
    destruct (context_at chain cs Hcs h b Hb) as (c & Hc & Hbc & _).
    destruct (context_tx b c Hbc) as (_ & _ & _ & _ & _ & _ & Hs & _).
    apply list_elem_of_fmap. exists (mkSpendEntry (prev_txid inp) (prev_index inp) (txid tx)). split; [done|].
    apply elem_of_join_fmap. exists c. split; [by apply list_elem_of_lookup_2 in Hc|].
    cbn. rewrite Hs. apply list_elem_of_fmap. exists (prev_txid inp, prev_index inp, txid tx). split; [done|].
    apply elem_of_join_fmap. exists tx. split; [by apply list_elem_of_lookup_2 in Hi|].
    apply list_elem_of_fmap. exists inp. split; [done|]. by apply list_elem_of_lookup_2 in Hj.
Qed.
(** ** Spends *)
Lemma holds_unique C wf ns st es k v v' : holds C wf ns st es -> (k, v) ∈ es -> (k, v') ∈ es -> v = v'.
Proof.
  intros [(_ & Hnd & _) _] [i Hi]%list_elem_of_lookup [j Hj]%list_elem_of_lookup.
  assert (i = j) as ->; [|congruence].
  eapply NoDup_lookup; [exact Hnd|rewrite list_lookup_fmap, Hi; done|by rewrite list_lookup_fmap, Hj].
Qed.

Context (r : BackendReader) (st : store) (Hr : reader_ok r st) (Hst : spends_indexed st cs).
Context (Hlen : Z.of_nat (length chain) <= 2 ^ 31).

Lemma tx_unique h i tx h' i' tx' : tx_at chain h i tx -> tx_at chain h' i' tx' -> txid tx = txid tx' -> h = h' /\ i = i' /\ tx = tx'.
Proof.
  intros Ht Ht' Heq.
  assert (mkTxLocation (Z.of_nat h) (Z.of_nat i) = mkTxLocation (Z.of_nat h') (Z.of_nat i')) as [= Hh Hi].
  { apply (holds_unique TxidLocationIndex txid_location_wf txid_location_ID st (txid_location_entries cs) (txid tx));
      [apply (si_locations _ _ Hst)|apply location_entry; eauto 10..]. }
  assert (h = h') as -> by lia. assert (i = i') as -> by lia. split_and!; [done|done|].
  destruct Ht as (b & Hb & Hi1), Ht' as (b' & Hb' & Hi2). congruence.
Qed.
Definition spent_keys (b : Block) : list OutpointKey :=
  mjoin ((fun tx => (fun inp => mkOutpointKey (prev_txid inp) (prev_index inp)) <$> inputs (transparent tx)) <$> transactions b).
Lemma spend_keys_chain : (spend_entries cs).*1 = mjoin (spent_keys <$> chain).
Proof.
  unfold spend_entries, entries_of. cbn [into_entries transparent_spends_schema]. rewrite <- list_fmap_compose, fmap_mjoin.
  f_equal. destruct Hcs as [Hf _]. clear -Hf. induction Hf as [|b c chain cs Hbc _ IH]; [done|].
  cbn [fmap list_fmap]. f_equal; [|exact IH]. destruct (context_tx b c Hbc) as (_ & _ & _ & _ & _ & _ & Hs & _).
  cbn. rewrite Hs, <- list_fmap_compose, fmap_mjoin, <- list_fmap_compose. unfold spent_keys. f_equal.
  apply list_fmap_ext. intros i tx _. unfold compose, tx_spends. rewrite <- list_fmap_compose. by apply list_fmap_ext.
Qed.
(** Every outpoint is consumed at most once. *)
Lemma spent_unique o h i j tx h' i' j' tx' :
  spent_at chain o h i j tx -> spent_at chain o h' i' j' tx' -> h = h' /\ i = i' /\ j = j' /\ tx = tx'.
Proof.
  intros [(b & Hb & Hi) (inp & Hj & Ho)] [(b' & Hb' & Hi') (inp' & Hj' & Ho')].
  assert (Hnd : NoDup (mjoin (spent_keys <$> chain))) by (rewrite <- spend_keys_chain; apply (si_spends _ _ Hst)).
  assert (Hsplit : forall h b, chain !! h = Some b -> (spent_keys <$> chain) !! h = Some (spent_keys b))
    by (intros ?? E; by rewrite list_lookup_fmap, E).
  assert (Hin : forall b i j tx inp, transactions b !! i = Some tx -> inputs (transparent tx) !! j = Some inp ->
    mkOutpointKey (prev_txid inp) (prev_index inp) ∈ spent_keys b).
  { intros b0 i0 j0 tx0 inp0 E1 E2. apply elem_of_join_fmap. exists tx0. split; [by eapply list_elem_of_lookup_2|].
    apply list_elem_of_fmap. exists inp0. by split; [|eapply list_elem_of_lookup_2]. }
  assert (Hkey : mkOutpointKey (prev_txid inp) (prev_index inp) = mkOutpointKey (prev_txid inp') (prev_index inp')) by congruence.
  destruct (proj1 (list_elem_of_lookup _ _) (Hin _ _ _ _ _ Hi Hj)) as [p Hp].
  destruct (proj1 (list_elem_of_lookup _ _) (Hin _ _ _ _ _ Hi' Hj')) as [p' Hp']. rewrite <- Hkey in Hp'.
  destruct (NoDup_join_lookup _ Hnd _ _ _ _ _ _ _ (Hsplit _ _ Hb) Hp (Hsplit _ _ Hb') Hp') as [-> _].
  assert (b' = b) as -> by congruence. split; [done|].
  assert (Hnd' : NoDup (spent_keys b)) by (eapply NoDup_join_part; [exact Hnd|apply (Hsplit _ _ Hb)]).
  destruct (NoDup_join_lookup _ Hnd' i i'
    ((fun inp => mkOutpointKey (prev_txid inp) (prev_index inp)) <$> inputs (transparent tx))
    ((fun inp => mkOutpointKey (prev_txid inp) (prev_index inp)) <$> inputs (transparent tx')) j j'
    (mkOutpointKey (prev_txid inp) (prev_index inp))) as [-> ->];
    [rewrite list_lookup_fmap, ?Hi, ?Hi', ?Hj, ?Hj'; cbn; congruence..|]. split_and!; [done|done|congruence].
Qed.
Lemma tx_height h i tx : tx_at chain h i tx -> indexed_height (Z.of_nat h) = Some (Z.of_nat h).
Proof.
  intros (b & Hb%lookup_lt_Some & _). unfold indexed_height, try_narrow, Height.try_from.
  change Height.MAX_HEIGHT with (2 ^ 31 - 1).
  destruct (Z.ltb_spec (Z.of_nat h) (2 ^ 32)); [|lia]. by destruct (Z.ltb_spec (2 ^ 31 - 1) (Z.of_nat h)); [lia|].
Qed.
Lemma location_held h i tx :
  tx_at chain h i tx ->
  read_keyed TxidLocationIndex r txid_location_ID (txid tx) = Ok (Some (mkTxLocation (Z.of_nat h) (Z.of_nat i))).
Proof.
  intros Ht. apply (read_held _ _ _ r st Hr _ (si_locations _ _ Hst)). apply location_entry. by exists h, i, tx.
Qed.
Lemma location_missing id :
  hash32 id -> (forall h i tx, tx_at chain h i tx -> txid tx <> id) ->
  read_keyed TxidLocationIndex r txid_location_ID id = Ok None.
Proof.
  intros Hid Hne. apply (read_missing _ _ _ r st Hr _ (si_locations _ _ Hst)); [by apply hash_key_inverts, Hid|].
  intros ([k loc] & -> & Hin)%list_elem_of_fmap. apply location_entry in Hin as (h & i & tx & Ht & Heq & _).
  by apply (Hne h i tx Ht).
Qed.
Definition transparent_of (tx : Transaction) : TransparentTxCompact :=
  transparent_tx (inputs (transparent tx)) (outputs (transparent tx)).
Lemma transparent_held h b :
  chain !! h = Some b ->
  require TransparentDataIndex r transparent_data_ID (Z.of_nat h) = Ok (transparent_of <$> transactions b).
Proof.
  intros Hb. destruct (context_at chain cs Hcs h b Hb) as (c & Hc & Hbc & Hh).
  destruct (context_tx b c Hbc) as (_ & _ & _ & _ & _ & _ & _ & _ & Ht & _).
  apply (require_held _ _ _ r st Hr _ (si_transparent _ _ Hst)). rewrite <- Hh. unfold transparent_of. rewrite <- Ht.
  by apply (entries_by_height transparent_data_extract transparent_data_context transparent_data_schema
    tde_height tde_value cs h c).
Qed.
Lemma transparent_tx_held h i tx b :
  chain !! h = Some b -> transactions b !! i = Some tx ->
  (transparent_of <$> transactions b) !! Z.to_nat (Z.of_nat i) = Some (transparent_of tx).
Proof. intros _ Hi. by rewrite Nat2Z.id, list_lookup_fmap, Hi. Qed.

Lemma output_exists_spec o :
  hash32 o.1 -> exists a, output_exists r o = Ok a /\ (a = true <-> created chain o).
Proof.
  intros Ho. unfold output_exists.
  destruct (decide (Exists (fun b => Exists (fun tx => txid tx = o.1) (transactions b)) chain)) as [He|He].
  - apply Exists_exists in He as (b & Hb & He). apply Exists_exists in He as (tx & Htx & Heq).
    apply list_elem_of_lookup in Hb as [h Hb], Htx as [i Hi]. assert (Ht : tx_at chain h i tx) by by exists b.
    pose proof (location_held h i tx Ht) as Hl. rewrite Heq in Hl. rewrite Hl. cbn [loc_height tx_index].
    rewrite (tx_height h i tx Ht). cbn [ok_or]. rewrite (transparent_held h b Hb).
    change (Value TransparentDataIndex) with (list TransparentTxCompact).
    rewrite (transparent_tx_held h i tx b Hb Hi). cbn [ok_or]. eexists. split; [done|].
    cbn [tt_outputs transparent_of transparent_tx]. rewrite length_fmap, Z.ltb_lt. split; [by exists h, i, tx|].
    intros (h' & i' & tx' & Ht' & Heq' & Hlt). by destruct (tx_unique h i tx h' i' tx' Ht Ht') as (_ & _ & ->); [congruence|].
  - rewrite location_missing; [eexists; split; [done|]| |].
    + split; [done|]. intros (h & i & tx & (b & Hb & Hi) & Heq & _). destruct He. apply Exists_exists.
      exists b. split; [by apply list_elem_of_lookup_2 in Hb|]. apply Exists_exists. exists tx.
      split; [by apply list_elem_of_lookup_2 in Hi|done].
    + done.
    + intros h i tx (b & Hb & Hi) Heq. destruct He. apply Exists_exists.
      exists b. split; [by apply list_elem_of_lookup_2 in Hb|]. apply Exists_exists. exists tx.
      split; [by apply list_elem_of_lookup_2 in Hi|done].
Qed.

Lemma outpoint_key_ok o : hash32 o.1 -> uint 32 o.2 ->
  decode_key TransparentSpendsIndex (encode_key TransparentSpendsIndex (mkOutpointKey o.1 o.2)) = Ok (mkOutpointKey o.1 o.2).
Proof.
  intros Ho Hi. apply (codec_key (C := TransparentSpendsIndex) (wf := transparent_spends_wf) _ o.1). by split_and!.
Qed.
Lemma spender_held o h i j tx : spent_at chain o h i j tx -> read_spender r (mkOutpointKey o.1 o.2) = Ok (Some (txid tx)).
Proof.
  intros Hs. assert (Hin : (mkOutpointKey o.1 o.2, txid tx) ∈ spend_entries cs) by (apply spend_entry; eauto 10).
  unfold read_spender. rewrite (held_get _ _ _ r st Hr _ (si_spends _ _ Hst) _ _ Hin). cbn [map_err].
  by rewrite (held_decode _ _ _ st _ (si_spends _ _ Hst) _ _ Hin).
Qed.
Lemma spender_missing o :
  hash32 o.1 -> uint 32 o.2 -> (forall h i j tx, ~ spent_at chain o h i j tx) ->
  read_spender r (mkOutpointKey o.1 o.2) = Ok None.
Proof.
  intros Ho Hi Hne. unfold read_spender.
  rewrite (held_get_none _ _ _ r st Hr _ (si_spends _ _ Hst)); [done|by apply outpoint_key_ok|].
  intros ([k by_] & Heq & Hin)%list_elem_of_fmap. cbn in Heq. subst k.
  apply spend_entry in Hin as (h & i & j & tx & Hs & _). by apply (Hne h i j tx).
Qed.

(** The first input that names the outpoint. *)
Lemma position_found {A} (p : A -> bool) l x :
  x ∈ l -> p x = true -> exists j y, position p l = Some j /\ l !! j = Some y /\ p y = true.
Proof.
  intros Hx Hp. induction l as [|a l IH]; [by apply elem_of_nil in Hx|]. cbn.
  destruct (p a) eqn:Ha; [by exists 0%nat, a|]. apply elem_of_cons in Hx as [->|Hx]; [congruence|].
  destruct (IH Hx) as (j & y & -> & Hj & Hy). by exists (S j), y.
Qed.
Lemma transparent_tx_ok h i tx : tx_at chain h i tx -> transparent_tx_wf (transparent_of tx).
Proof.
  intros (b & Hb & Hi). destruct (context_at chain cs Hcs h b Hb) as (c & Hc & Hbc & Hh).
  destruct (context_tx b c Hbc) as (_ & _ & _ & _ & _ & _ & _ & _ & Ht & _).
  assert (Hin : (z_height c, transparent_of <$> transactions b) ∈ transparent_entries cs).
  { unfold transparent_of. rewrite <- Ht. apply (entries_by_height transparent_data_extract transparent_data_context
      transparent_data_schema tde_height tde_value cs h c); done. }
  destruct (held_wf _ _ _ st _ (si_transparent _ _ Hst) _ _ Hin) as (_ & [_ Hall] & _).
  rewrite Forall_fmap, Forall_forall in Hall. apply Hall. by eapply list_elem_of_lookup_2.
Qed.
Lemma resolve_spend_at o h i j tx :
  spent_at chain o h i j tx ->
  exists j', spent_at chain o h i j' tx /\
    resolve_spend r (mkOutpointKey o.1 o.2) = Ok (Some (mkResolved (txid tx) (Z.of_nat h) (Z.of_nat i) (Z.of_nat j'))).
Proof.
  intros Hs. unfold resolve_spend. rewrite (spender_held o h i j tx Hs). destruct Hs as [Ht (inp & Hj & Ho)].
  pose proof (location_held h i tx Ht) as Hl. unfold require at 1. rewrite Hl. cbn [ok_or loc_height tx_index].
  rewrite (tx_height h i tx Ht). cbn [ok_or]. unfold input_index. destruct Ht as (b & Hb & Hi).
  rewrite (transparent_held h b Hb). change (Value TransparentDataIndex) with (list TransparentTxCompact).
  cbn [tx_index]. rewrite (transparent_tx_held h i tx b Hb Hi). cbn [ok_or].
  destruct (position_found (spends_outpoint (mkOutpointKey o.1 o.2)) (tt_inputs (transparent_of tx)) o)
    as (j' & y & -> & Hy & Hp).
  { cbn [transparent_of transparent_tx tt_inputs]. apply list_elem_of_fmap. exists inp.
    split; [done|]. by eapply list_elem_of_lookup_2. }
  { unfold spends_outpoint. cbn. by rewrite bool_decide_eq_true_2, Z.eqb_refl. }
  cbn [ok_or]. exists j'. split.
  - split; [by exists b|]. cbn [transparent_of transparent_tx tt_inputs] in Hy. rewrite list_lookup_fmap in Hy.
    destruct (inputs (transparent tx) !! j') as [inp'|]; [|done]. injection Hy as <-. exists inp'. split; [done|].
    unfold spends_outpoint in Hp. cbn in Hp. apply andb_prop in Hp as [H1%bool_decide_eq_true H2%Z.eqb_eq].
    destruct o. cbn in *. congruence.
  - destruct (transparent_tx_ok h i tx) as [[Hn _] _]; [by exists b|]. apply lookup_lt_Some in Hy.
    unfold try_narrow. destruct (Z.ltb_spec (Z.of_nat j') (2 ^ 32)); [done|lia].
Qed.
Lemma resolve_spend_none o :
  hash32 o.1 -> uint 32 o.2 -> (forall h i j tx, ~ spent_at chain o h i j tx) ->
  resolve_spend r (mkOutpointKey o.1 o.2) = Ok None.
Proof. intros Ho Hi Hne. unfold resolve_spend. by rewrite spender_missing. Qed.
Lemma spent_dec o : (exists h i j tx, spent_at chain o h i j tx) \/ (forall h i j tx, ~ spent_at chain o h i j tx).
Proof.
  destruct (spentb chain o) eqn:Hs; [left; by apply spentb_spec|right].
  intros h i j tx Ht. rewrite (proj2 (spentb_spec chain o)) in Hs by eauto. done.
Qed.
End Chain.

(** What a chain says of an outpoint: spent at a place, unspent, or never created. *)
Inductive outpoint_state (chain : list Block) (o : Outpoint) : SpendAnswer -> option TransparentSpend -> Prop :=
| state_spent h i j tx :
    spent_at chain o h i j tx ->
    outpoint_state chain o (Spent (txid tx))
      (Some (mkTransparentSpend o (txid tx) (Z.of_nat j) (Z.of_nat h) (Z.of_nat i)))
| state_unspent :
    (forall h i j tx, ~ spent_at chain o h i j tx) -> created chain o -> outpoint_state chain o Unspent None
| state_unknown :
    (forall h i j tx, ~ spent_at chain o h i j tx) -> ~ created chain o -> outpoint_state chain o NoSuchOutput None.

(** The spend reads over a store that holds the indexes of a chain. *)
Lemma spend_reads_held {BSt} (B : Backend BSt) abs `{!BackendSpec B abs} b r chain cs o :
  b_reader B b = Ok r -> chain_contexts chain cs -> spends_indexed (abs b) cs ->
  Z.of_nat (length chain) <= 2 ^ 31 -> hash32 o.1 -> uint 32 o.2 ->
  r_is_complete r transparent_spends_ID = Ok true -> r_is_complete r txid_location_ID = Ok true ->
  exists a i, spend_status B b o = Ok a /\ spend_info B b o = Ok i /\ outpoint_state chain o a i.
Proof.
  intros Hb Hcs Hst Hlen Ho Hi Hc1 Hc2. pose proof (spec_reader _ _ Hb) as Hr.
  unfold spend_status, spend_info, open. rewrite Hb. cbn [map_err].
  unfold spend_status_gate, gated. cbn [serviceability_gate]. rewrite Hc1. cbn [negb]. rewrite Hc2. cbn [negb map_err].
  destruct (spent_dec chain o) as [(h & i & j & tx & Hs)|Hne].
  - rewrite (spender_held chain cs Hcs r _ Hr Hst o h i j tx Hs).
    destruct (resolve_spend_at chain cs Hcs r _ Hr Hst Hlen o h i j tx Hs) as (j' & Hs' & ->).
    eexists _, _. split_and!; [done..|]. by constructor.
  - rewrite (spender_missing chain cs Hcs r _ Hr Hst o Ho Hi Hne).
    rewrite (resolve_spend_none chain cs Hcs r _ Hr Hst o Ho Hi Hne).
    destruct (output_exists_spec chain cs Hcs r _ Hr Hst Hlen o Ho) as ([] & -> & Ha);
      eexists _, _; (split_and!; [done..|]); constructor; try done; [by apply Ha|by intros ?%Ha].
Qed.

(** Over a store that holds the location, spend and transparent indexes of a
    chain, and once the two scattered ones are complete, the spend reads of every
    outpoint answer, and what the chain says: the transaction that consumed it with
    its height, its position in the block and its input; that it was created and not
    consumed; or that no transaction created it. *)
Theorem spend_status_exact {BSt} (B : Backend BSt) abs `{!BackendSpec B abs} b r chain cs o :
  b_reader B b = Ok r -> chain_contexts chain cs -> spends_indexed (abs b) cs ->
  Z.of_nat (length chain) <= 2 ^ 31 -> hash32 o.1 -> uint 32 o.2 ->
  r_is_complete r transparent_spends_ID = Ok true -> r_is_complete r txid_location_ID = Ok true ->
  exists a i, spend_status B b o = Ok a /\ spend_info B b o = Ok i /\ outpoint_state chain o a i.
Proof. intros. by eapply spend_reads_held. Qed.
End HistoryCorrect.
