(* ===== verification/AddressCorrect.v ===== *)
(** * Address history served from a chain

    The range scan of [read_receives] finds exactly the outputs that pay an
    address; balances and deltas over them are the chain's. *)

From S2P Require Import Prelude Primitives Types Persistence Codec Bridge Indexes IndexSet Store StoreCorrect Address HistoryCorrect.
From stdpp Require Import base gmap list strings sorting.
From Stdlib Require Import Lia.
Open Scope Z_scope.

Module AddressCorrect.
Import Bytes Kv Layout Codec Bridge Indexes IndexSet Store StoreCorrect Address HistoryCorrect.

(** ** The scanned range *)
Lemma bytes_compare_prefix l1 l2 a b :
  length l1 = length l2 ->
  bytes_compare (l1 ++ a) (l2 ++ b) = match bytes_compare l1 l2 with Eq => bytes_compare a b | c => c end.
Proof.
  revert l2. induction l1 as [|x l1 IH]; intros [|y l2] Hl; cbn in *; try done.
  destruct (x ?= y); [apply IH; lia|done|done].
Qed.

Lemma addr_key_bytes k :
  encode_key AddressHistoryIndex k =
  addr_prefix (ak_addr k) ++ to_be_bytes 8 (ak_height k) ++ ak_txid k ++ to_be_bytes 4 (ak_output_index k).
Proof.
  cbn -[to_be_bytes]. unfold record_encode. cbn -[to_be_bytes]. by rewrite app_nil_r.
Qed.

Lemma script_type_byte_inj t t' : script_type_byte t = script_type_byte t' -> t = t'.
Proof. by destruct t, t'. Qed.
Lemma addr_prefix_inj a a' : addr_prefix a = addr_prefix a' -> a = a'.
Proof. destruct a, a'. unfold addr_prefix. cbn. by intros [= ->%script_type_byte_inj ->]. Qed.

(** The half-open byte range selects the address's keys of the closed height range. *)
Lemma in_range_receive addr k v start end_ raw :
  length (addr_hash addr) = 20%nat -> address_history_wf k v -> uint 64 start -> uint 64 (end_ + 1) ->
  in_range (lower_bound addr start) (addr_prefix addr ++ to_be_bytes 8 (end_ + 1)) (encode_key AddressHistoryIndex k, raw) =
  bool_decide (ak_addr k = addr /\ start <= ak_height k <= end_).
Proof.
  intros Ha ([Hk _] & Hh & _) Hs He. unfold in_range, lower_bound, bytes_ltb. cbn [fst].
  rewrite addr_key_bytes.
  rewrite !(bytes_compare_prefix (addr_prefix (ak_addr k)) (addr_prefix addr)) by (cbn; lia).
  destruct (bytes_compare (addr_prefix (ak_addr k)) (addr_prefix addr)) eqn:Hc.
  - apply bytes_compare_eq, addr_prefix_inj in Hc.
    assert (Hbe : forall x, uint 64 x -> bytes_compare (to_be_bytes 8 (ak_height k)) (to_be_bytes 8 x) = (ak_height k ?= x))
      by (intros x Hx; by apply bytes_compare_be).
    rewrite <- (app_nil_r (to_be_bytes 8 start)), <- (app_nil_r (to_be_bytes 8 (end_ + 1))).
    rewrite !bytes_compare_prefix by (unfold to_be_bytes; by rewrite !length_reverse, !length_to_le_bytes). rewrite !Hbe by done.
    assert (forall l, bytes_compare l [] <> Lt) as Hnil by by intros [].
    match goal with |- context [bytes_compare ?l []] => pose proof (Hnil l) as Hn; destruct (bytes_compare l []); [|done|] end;
      destruct (Z.compare_spec (ak_height k) start), (Z.compare_spec (ak_height k) (end_ + 1)); cbn; symmetry;
      rewrite ?bool_decide_eq_true, ?bool_decide_eq_false; (split; [done|lia]) || (intros [_ ?]; lia).
  - symmetry. apply bool_decide_eq_false. intros [Heq _]. rewrite Heq, (proj2 (bytes_compare_eq _ _) eq_refl) in Hc. done.
  - symmetry. apply bool_decide_eq_false. intros [Heq _]. rewrite Heq, (proj2 (bytes_compare_eq _ _) eq_refl) in Hc. done.
Qed.

(** ** The scan *)
Definition entry_of (rc : AddressReceive) : AddrKey * Z :=
  (mkAddrKey (rc_addr rc) (rc_height rc) (rc_txid rc) (rc_output_index rc), rc_value rc).
Definition receive_of (e : AddrKey * Z) : AddressReceive :=
  mkAddressReceive (ak_addr e.1) (ak_height e.1) (ak_txid e.1) (ak_output_index e.1) e.2.
Lemma receive_entry rc : receive_of (entry_of rc) = rc.
Proof. by destruct rc. Qed.

Notation raw := (encoded AddressHistoryIndex).
Lemma decode_receive_encoded k v :
  address_history_wf k v -> decode_receive (raw (k, v)).1 (raw (k, v)).2 = Ok (receive_of (k, v)).
Proof.
  intros Hwf. unfold decode_receive, encoded. cbn [fst snd].
  rewrite (codec_key (C := AddressHistoryIndex) k v Hwf), (codec_value (C := AddressHistoryIndex) k v Hwf). done.
Qed.

(** Within the budget every entry is collected and charged; past it the scan stops. *)
Lemma visit_receives es : forall out b,
  all_wf AddressHistoryIndex address_history_wf es -> 0 <= remaining b ->
  exists got, visit_all visit_receive (raw <$> es) (mkScan out None false b) =
    if Z.of_nat (length es) <=? remaining b
    then mkScan (out ++ (receive_of <$> es)) None false (mkBudget (limit b) (remaining b - Z.of_nat (length es)))
    else mkScan got None true (mkBudget (limit b) 0).
Proof.
  induction es as [|[k v] es IH]; intros out b Hwf Hb.
  { exists []. cbn [length fmap list_fmap visit_all]. rewrite app_nil_r, Z.sub_0_r, (proj2 (Z.leb_le _ _)) by done.
    by destruct b. }
  apply Forall_cons in Hwf as [Hk Hwf]. rewrite fmap_cons. cbn [visit_all]. unfold encoded at 1.
  unfold visit_receive at 1. unfold charge_one, checked_sub. cbn [sc_budget].
  destruct (Z.leb_spec 1 (remaining b)) as [H1|H1]; cbn [sc_out sc_error sc_over].
  - pose proof (decode_receive_encoded k v Hk) as Hd. unfold encoded in Hd. cbn [fst snd] in Hd |- *. rewrite Hd.
    destruct (IH (out ++ [receive_of (k, v)]) (mkBudget (limit b) (remaining b - 1)) Hwf) as [got Hv]; [cbn; lia|].
    exists got. etransitivity; [exact Hv|]. cbn [remaining limit length]. rewrite Nat2Z.inj_succ, <- app_assoc.
    destruct (Z.leb_spec (Z.of_nat (length es)) (remaining b - 1)), (Z.leb_spec (Z.succ (Z.of_nat (length es))) (remaining b));
      try lia; [|done]. do 2 f_equal. lia.
  - exists out. cbn [length]. destruct (Z.leb_spec (Z.of_nat (S (length es))) (remaining b)); [lia|].
    f_equal. destruct b as [n m]. cbn in *. f_equal. lia.
Qed.

Global Instance receive_le_total : Total receive_le.
Proof. intros a b. unfold receive_le. lia. Qed.
Global Instance receive_le_trans : Transitive receive_le.
Proof. intros a b c. unfold receive_le. lia. Qed.

Definition pays (addr : AddrId) (start end_ : Z) (rc : AddressReceive) : Prop :=
  rc_addr rc = addr /\ start <= rc_height rc <= end_.
Global Instance pays_dec addr start end_ rc : Decision (pays addr start end_ rc).
Proof. unfold pays. apply _. Defined.

Lemma read_receives_held r st rcs addr start end_ b :
  reader_ok r st -> holds AddressHistoryIndex address_history_wf address_history_ID st (entry_of <$> rcs) ->
  length (addr_hash addr) = 20%nat -> uint 64 start -> uint 64 (end_ + 1) -> 0 <= remaining b ->
  exists l, l ≡ₚ filter (pays addr start end_) rcs /\ StronglySorted receive_le l /\
    read_receives r addr start end_ b =
    if Z.of_nat (length l) <=? remaining b
    then (Ok l, mkBudget (limit b) (remaining b - Z.of_nat (length l)))
    else (Err (ReceivesTooLarge (limit b)), mkBudget (limit b) 0).
Proof.
  intros Hr [Ht _] Ha Hs He Hb.
  destruct (ro_range _ _ Hr address_history_ID (lower_bound addr start) (addr_prefix addr ++ to_be_bytes 8 (end_ + 1)))
    as (raws & Hn & Hscan).
  destruct (namespace_table AddressHistoryIndex address_history_wf _ st _ raws Ht Hn) as (es & -> & Hp & _).
  set (sel := filter (fun e => pays addr start end_ (receive_of e)) es).
  assert (Hwf : all_wf AddressHistoryIndex address_history_wf es) by (unfold all_wf; rewrite Hp; apply Ht).
  assert (Hsel : filter (fun e => in_range (lower_bound addr start) (addr_prefix addr ++ to_be_bytes 8 (end_ + 1)) e = true)
                   (raw <$> es) = raw <$> sel).
  { unfold sel. clear -Hwf Ha Hs He. induction Hwf as [|[k v] es Hk _ IH]; [done|].
    pose proof (in_range_receive addr k v start end_ (encode_value AddressHistoryIndex v) Ha Hk Hs He) as Hir.
    rewrite fmap_cons, !filter_cons, IH. unfold encoded at 1.
    assert (Hiff : in_range (lower_bound addr start) (addr_prefix addr ++ to_be_bytes 8 (end_ + 1)) (raw (k, v)) = true <->
      pays addr start end_ (receive_of (k, v))) by (unfold encoded; cbn [fst snd]; rewrite Hir; apply bool_decide_eq_true).
    destruct (decide (pays addr start end_ (receive_of (k, v)))) as [Hd|Hd].
    - rewrite decide_True by by apply Hiff. done.
    - rewrite decide_False by by rewrite Hiff. done. }
  assert (Hfil : receive_of <$> sel ≡ₚ filter (pays addr start end_) rcs).
  { unfold sel. rewrite Hp. clear. induction rcs as [|rc rcs IH]; [done|].
    rewrite fmap_cons, !filter_cons, receive_entry. case_decide; [|done]. by rewrite fmap_cons, receive_entry, IH. }
  exists (merge_sort receive_le (receive_of <$> sel)). split_and!.
  - by rewrite merge_sort_Permutation.
  - apply (StronglySorted_merge_sort receive_le _).
  - unfold read_receives, upper_bound, checked_add. rewrite (proj2 (Z.ltb_lt _ _)) by apply He. cbn [ok_or].
    rewrite Hscan, Hsel. assert (Hwf' : all_wf AddressHistoryIndex address_history_wf sel).
    { apply Forall_forall. intros e [_ Hin]%list_elem_of_filter. unfold all_wf in Hwf.
      rewrite Forall_forall in Hwf. by apply Hwf. }
    destruct (visit_receives sel [] b Hwf' Hb) as [got ->].
    assert (Hl : length (merge_sort receive_le (receive_of <$> sel)) = length sel)
      by by rewrite (Permutation_length (merge_sort_Permutation receive_le _)), length_fmap.
    rewrite Hl. cbn [app]. by destruct (Z.of_nat (length sel) <=? remaining b).
Qed.

(** ** What a chain pays an address *)
Definition addr_of (script : list Z) : AddrId := let (hash, t) := classify_script script in mkAddrId t hash.
Definition tx_receives (height : Z) (tx : Transaction) : list AddressReceive :=
  imap (fun i out => mkAddressReceive (addr_of (out_script out)) height (txid tx) (Z.of_nat i) (out_value out))
    (outputs (transparent tx)).
Definition block_receives (b : Block) : list AddressReceive :=
  mjoin (tx_receives (h_height (header b)) <$> transactions b).
Definition chain_receives (chain : list Block) : list AddressReceive := mjoin (block_receives <$> chain).

(** The indexes of [AddressHistory]. *)
Record address_indexed (st : store) (cs : list CurrentZainoContext) : Prop := {
  ai_spends : spends_indexed st cs;
  ai_receives : holds AddressHistoryIndex address_history_wf address_history_ID st (address_entries cs) }.

Lemma zip_with_fmap_same {A B C D} (f : B -> C -> D) (g : A -> B) (h : A -> C) (l : list A) :
  zip_with f (g <$> l) (h <$> l) = (fun a => f (g a) (h a)) <$> l.
Proof. induction l as [|a l IH]; [done|]. cbn. by rewrite IH. Qed.
(** Every index of a list of 32-bit length narrows. *)
Lemma omap_narrow {A B C} (l : list A) (f : A -> B * C) :
  Z.of_nat (length l) < 2 ^ 32 ->
  omap (fun '(i, (v, s)) => let! i := try_narrow 32 (Z.of_nat i) in Some (i, v, s)) (imap pair (f <$> l)) =
  imap (fun i a => (Z.of_nat i, (f a).1, (f a).2)) l.
Proof.
  intros Hl. change (imap pair (f <$> l)) with (imap (fun i => pair (0 + i)%nat) (f <$> l)).
  change (imap (fun i a => (Z.of_nat i, (f a).1, (f a).2)) l)
    with (imap (fun i a => (Z.of_nat (0 + i), (f a).1, (f a).2)) l).
  assert (Hn : Z.of_nat (0 + length l) < 2 ^ 32) by done. clear Hl. revert Hn. generalize 0%nat.
  induction l as [|a l IH]; intros n Hn; [done|]. rewrite fmap_cons. cbn [imap omap list_omap].
  destruct (f a) as [v s]. unfold try_narrow at 1. rewrite Nat.add_0_r. cbn [length] in Hn.
  destruct (Z.ltb_spec (Z.of_nat n) (2 ^ 32)); [|lia]. f_equal.
  rewrite (imap_ext _ (fun i => pair (S n + i)%nat)),
    (imap_ext (_ ∘ S) (fun i a => (Z.of_nat (S n + i), (f a).1, (f a).2))); [apply IH; lia|..];
    intros; cbn; repeat f_equal; lia.
Qed.

Lemma context_receives b c :
  context_from_block b = Some c ->
  Forall (fun tx => Z.of_nat (length (outputs (transparent tx))) < 2 ^ 32) (transactions b) ->
  extracted address_history_extract (address_context c) = block_receives b.
Proof.
  intros Hbc Hn. destruct (context_tx b c Hbc) as (Hh & _ & _ & _ & _ & Ht & _ & _ & Htt & _).
  unfold extracted, address_history_extract, address_context. cbn [ac_txs ac_height].
  rewrite Ht, Htt, zip_with_fmap_same, <- list_fmap_compose. unfold block_receives. f_equal.
  apply list_fmap_ext. intros i tx Hi. unfold compose. cbn [transparent_tx tt_outputs].
  rewrite Forall_forall in Hn. specialize (Hn tx (list_elem_of_lookup_2 _ _ _ Hi)).
  rewrite omap_narrow by done. unfold tx_receives. rewrite fmap_imap, Hh. apply imap_ext. intros k o _. unfold compose, addr_of. cbn.
  by destruct (classify_script (out_script o)).
Qed.
Lemma address_entries_chain chain cs r st :
  chain_contexts chain cs -> reader_ok r st -> spends_indexed st cs ->
  address_entries cs = entry_of <$> chain_receives chain.
Proof.
  intros Hcs Hr Hst. unfold address_entries, entries_of. cbn [into_entries address_history_schema].
  unfold chain_receives. f_equal. f_equal.
  assert (Hn : Forall (fun b => Forall (fun tx => Z.of_nat (length (outputs (transparent tx))) < 2 ^ 32) (transactions b)) chain).
  { apply Forall_forall. intros b [h Hb]%list_elem_of_lookup. apply Forall_forall. intros tx [i Hi]%list_elem_of_lookup.
    destruct (transparent_tx_ok chain cs Hcs st Hst h i tx) as [_ [Ho _]]; [by exists b|].
    cbn [transparent_of transparent_tx tt_outputs] in Ho. by rewrite length_fmap in Ho. }
  destruct Hcs as [Hf _]. clear -Hf Hn. induction Hf as [|b c chain cs Hbc Hf IH]; [done|].
  apply Forall_cons in Hn as [Hb Hn]. cbn [fmap list_fmap]. f_equal; [|by apply IH].
  by apply context_receives.
Qed.

(** ** Entries *)
Definition outpoint_of (rc : AddressReceive) : Outpoint := (rc_txid rc, rc_output_index rc).
Inductive site_for (chain : list Block) (o : Outpoint) : option SpendSite -> Prop :=
| site_none : (forall h i j tx, ~ spent_at chain o h i j tx) -> site_for chain o None
| site_at h i j tx : spent_at chain o h i j tx ->
    site_for chain o (Some (mkSpendSite (txid tx) (Z.of_nat h) (Z.of_nat i) (Z.of_nat j))).
Definition entry_for (chain : list Block) (rc : AddressReceive) (e : Entry) : Prop :=
  en_height e = rc_height rc /\ en_txid e = rc_txid rc /\ en_output_index e = rc_output_index rc /\
  en_value e = rc_value rc /\ site_for chain (outpoint_of rc) (en_spent e).

Lemma map_result_total {A B E} (f : A -> result B E) (P : A -> B -> Prop) (l : list A) :
  (forall a, a ∈ l -> exists b, f a = Ok b /\ P a b) -> exists bs, map_result f l = Ok bs /\ Forall2 P l bs.
Proof.
  induction l as [|a l IH]; intros Hf; [by exists []|]. cbn.
  destruct (Hf a) as (b & -> & Hb); [left|]. destruct IH as (bs & -> & Hbs); [intros; apply Hf; by right|].
  exists (b :: bs). split; [done|by constructor].
Qed.

Lemma map_result_related {A B C E} (f : B -> result C E) (I : A -> Prop) (R : A -> B -> Prop) (P : A -> C -> Prop) l bs :
  Forall2 R l bs -> Forall I l -> (forall a b, I a -> R a b -> exists c, f b = Ok c /\ P a c) ->
  exists cs, map_result f bs = Ok cs /\ Forall2 P l cs.
Proof.
  intros Hf Hi H. induction Hf as [|a b l bs Hab _ IH]; [by exists []|]. apply Forall_cons in Hi as [Ha Hi].
  destruct (IH Hi) as (cs & Hcs & HF), (H a b Ha Hab) as (c & Hc & HP). exists (c :: cs). cbn. rewrite Hc, Hcs.
  split; [done|by constructor].
Qed.

Lemma elem_of_chain_receives (chain : list Block) rc :
  (forall i b, chain !! i = Some b -> h_height (header b) = Z.of_nat i) ->
  rc ∈ chain_receives chain <->
  exists h i k tx out, tx_at chain h i tx /\ outputs (transparent tx) !! k = Some out /\
    rc = mkAddressReceive (addr_of (out_script out)) (Z.of_nat h) (txid tx) (Z.of_nat k) (out_value out).
Proof.
  intros Hh. unfold chain_receives. rewrite elem_of_join_fmap. split.
  - intros (b & [h Hb]%list_elem_of_lookup & Hin). apply elem_of_join_fmap in Hin as (tx & [i Hi]%list_elem_of_lookup & Hin).
    apply elem_of_lookup_imap in Hin as (k & out & -> & Hk). exists h, i, k, tx, out.
    rewrite (Hh h b Hb). by split_and!; [exists b|..].
  - intros (h & i & k & tx & out & (b & Hb & Hi) & Hk & ->). exists b. split; [by eapply list_elem_of_lookup_2|].
    apply elem_of_join_fmap. exists tx. split; [by eapply list_elem_of_lookup_2|].
    apply elem_of_lookup_imap. exists k, out. by rewrite (Hh h b Hb).
Qed.

Section Chain.
Context (chain : list Block) (cs : list CurrentZainoContext) (Hcs : chain_contexts chain cs).
Context (Hlen : Z.of_nat (length chain) <= 2 ^ 31).

Lemma elem_of_receives rc :
  rc ∈ chain_receives chain <->
  exists h i k tx out, tx_at chain h i tx /\ outputs (transparent tx) !! k = Some out /\
    rc = mkAddressReceive (addr_of (out_script out)) (Z.of_nat h) (txid tx) (Z.of_nat k) (out_value out).
Proof. apply elem_of_chain_receives, Hcs. Qed.

Section Store.
Context {BSt : Type} (B : Backend BSt) (abs : BSt -> store) `{!BackendSpec B abs} (b : BSt) (r : BackendReader).
Context (Hb : b_reader B b = Ok r) (Hst : address_indexed (abs b) cs).
Context (Hc1 : r_is_complete r address_history_ID = Ok true) (Hc2 : r_is_complete r transparent_spends_ID = Ok true).
Context (Hc3 : r_is_complete r txid_location_ID = Ok true).
Let Hr : reader_ok r (abs b) := spec_reader _ _ Hb.
Context {TA : Type} (parse : TA -> option ParsedAddress).

Lemma receives_held :
  holds AddressHistoryIndex address_history_wf address_history_ID (abs b) (entry_of <$> chain_receives chain).
Proof. rewrite <- (address_entries_chain chain cs r (abs b) Hcs Hr (ai_spends _ _ Hst)). apply Hst. Qed.
Lemma receive_wf rc : rc ∈ chain_receives chain -> address_history_wf (entry_of rc).1 (rc_value rc).
Proof.
  intros Hin. eapply (held_wf AddressHistoryIndex); [apply receives_held|].
  by apply (list_elem_of_fmap_2 entry_of _ rc).
Qed.

Lemma to_entry_for rc : rc ∈ chain_receives chain -> exists e, to_entry (TransparentAddress := TA) r rc = Ok e /\ entry_for chain rc e.
Proof.
  intros Hin. destruct (receive_wf rc Hin) as (_ & _ & Ht & Hi & _). cbn in Ht, Hi.
  apply elem_of_receives in Hin as (h & i & k & tx & out & Htx & Hk & ->). unfold to_entry. cbn [rc_height rc_txid rc_output_index rc_value].
  rewrite (tx_height chain Hlen h i tx Htx). cbn [ok_or]. unfold spend_site.
  set (o := (txid tx, Z.of_nat k) : Outpoint). change (mkOutpointKey (txid tx) (Z.of_nat k)) with (mkOutpointKey o.1 o.2).
  destruct (spent_dec chain o) as [(h' & i' & j' & tx' & Hs)|Hne].
  - destruct (resolve_spend_at chain cs Hcs r (abs b) Hr (ai_spends _ _ Hst) Hlen o h' i' j' tx' Hs) as (j & Hs' & ->).
    eexists. split; [done|]. split_and!; try done. by constructor.
  - rewrite (resolve_spend_none chain cs Hcs r (abs b) Hr (ai_spends _ _ Hst) o Ht Hi Hne).
    eexists. split; [done|]. split_and!; try done. by constructor.
Qed.

(** The entries of a range: one per output that pays the address, or the budget's refusal. *)
Lemma entries_held addr t hash start end_ bud :
  transparent_address_key parse addr = Some (t, hash) -> length hash = 20%nat ->
  uint 64 start -> uint 64 (end_ + 1) -> 0 <= remaining bud ->
  exists l es, l ≡ₚ filter (pays (mkAddrId t hash) start end_) (chain_receives chain) /\
    Forall2 (entry_for chain) l es /\
    entries parse B b addr start end_ bud =
    if Z.of_nat (length l) <=? remaining bud
    then (Ok es, mkBudget (limit bud) (remaining bud - Z.of_nat (length l)))
    else (Err (AddressTooLarge addr (limit bud)), mkBudget (limit bud) 0).
Proof.
  intros Hk Hh Hs He Hn.
  destruct (read_receives_held r (abs b) (chain_receives chain) (mkAddrId t hash) start end_ bud Hr receives_held Hh Hs He Hn)
    as (l & Hp & _ & Hread).
  destruct (map_result_total (to_entry (TransparentAddress := TA) r) (entry_for chain) l) as (es & Hes & Hf).
  { intros rc Hin. apply to_entry_for. rewrite Hp in Hin. by apply list_elem_of_filter in Hin as [_ ?]. }
  exists l, es. split_and!; [done|done|]. unfold entries, address_reader. rewrite Hk, Hb. cbn [map_err].
  unfold gated. cbn [serviceability_gate]. rewrite Hc1, Hc2, Hc3. cbn [negb map_err]. rewrite Hread.
  destruct (Z.of_nat (length l) <=? remaining bud); cbn [map_err]; [by rewrite Hes|done].
Qed.
End Store.
End Chain.

(** ** Balances *)
Notation total := Zatoshis.total.
Global Instance total_proper : Proper ((≡ₚ) ==> eq) total.
Proof. intros l1 l2 Hp. unfold total. induction Hp; cbn; lia. Qed.

Lemma total_app l1 l2 : total (l1 ++ l2) = total l1 + total l2.
Proof. unfold total. induction l1; cbn; lia. Qed.

Definition paid (chain : list Block) (addr : AddrId) (lo hi : Z) : list AddressReceive :=
  filter (pays addr lo hi) (chain_receives chain).
Definition kept (chain : list Block) (l : list AddressReceive) : list AddressReceive :=
  filter (fun rc => spentb chain (outpoint_of rc) = false) l.

Lemma entry_unspent chain rc e : entry_for chain rc e -> is_unspent e = negb (spentb chain (outpoint_of rc)).
Proof.
  intros (_ & _ & _ & _ & Hs). unfold is_unspent. destruct Hs as [Hne|h i j tx Hs].
  - destruct (spentb chain (outpoint_of rc)) eqn:Hb; [|done].
    apply spentb_spec in Hb as (h & i & j & tx & Hs). by destruct (Hne h i j tx).
  - by rewrite (proj2 (spentb_spec chain _)) by eauto.
Qed.
Lemma entry_values chain l es : Forall2 (entry_for chain) l es -> en_value <$> es = rc_value <$> l.
Proof. induction 1 as [|rc e l es (_ & _ & _ & Hv & _) _ IH]; [done|]. cbn. by rewrite Hv, IH. Qed.
Lemma entry_kept chain l es :
  Forall2 (entry_for chain) l es -> en_value <$> List.filter is_unspent es = rc_value <$> kept chain l.
Proof.
  unfold kept. induction 1 as [|rc e l es He _ IH]; [done|]. rewrite filter_cons. cbn [List.filter].
  rewrite (entry_unspent chain rc e He). destruct (spentb chain (outpoint_of rc)); cbn [negb].
  - by rewrite decide_False.
  - rewrite decide_True by done. cbn. rewrite IH. f_equal. apply He.
Qed.
Lemma entries_covered chain range l es :
  Forall2 (entry_for chain) l es -> Forall (fun rc => range_start range <= rc_height rc <= range_end range) l ->
  List.filter (fun e => covers range (en_height e)) es = es.
Proof.
  induction 1 as [|rc e l es (Hh & _) _ IH]; intros Hc; [done|]. apply Forall_cons in Hc as [Hc Hl].
  cbn [List.filter]. unfold covers at 1. rewrite Hh, !(proj2 (Z.leb_le _ _)) by lia. cbn. by rewrite IH.
Qed.

Lemma height_bounds h : Height.valid h -> uint 64 h /\ uint 64 (h + 1).
Proof. unfold Height.valid, uint. change Height.MAX_HEIGHT with 2147483647. lia. Qed.

(** The balance read over a store that holds the indexes of a chain. *)
Lemma balance_held {BSt TA} (B : Backend BSt) abs `{!BackendSpec B abs} b r (parse : TA -> option ParsedAddress)
    chain cs addr t hash lo hi bud :
  b_reader B b = Ok r -> chain_contexts chain cs -> Z.of_nat (length chain) <= 2 ^ 31 ->
  address_indexed (abs b) cs -> r_is_complete r address_history_ID = Ok true ->
  r_is_complete r transparent_spends_ID = Ok true -> r_is_complete r txid_location_ID = Ok true ->
  transparent_address_key parse addr = Some (t, hash) -> length hash = 20%nat ->
  Height.valid lo -> Height.valid hi -> uint 64 (remaining bud) ->
  let received := paid chain (mkAddrId t hash) lo hi in
  let held := total (rc_value <$> kept chain received) in
  let n := Z.of_nat (length received) in
  balance parse B b addr (mkHeightRange lo hi) bud =
  if n <=? remaining bud
  then (if held <=? Zatoshis.MAX_ZATOSHIS then Ok (mkAddressBalance held (total (rc_value <$> received))) else Err AddressFatal,
        mkBudget (limit bud) (remaining bud - n))
  else (Err (AddressTooLarge addr (limit bud)), mkBudget (limit bud) 0).
Proof.
  intros Hb Hcs Hlen Hst Hc1 Hc2 Hc3 Hk Hh Hlo Hhi Hn received held n.
  destruct (entries_held chain cs Hcs Hlen B abs b r Hb Hst Hc1 Hc2 Hc3 parse addr t hash lo hi bud Hk Hh) as (l & es & Hp & Hf & He);
    [apply height_bounds, Hlo|apply height_bounds, Hhi|apply Hn|].
  unfold balance. cbn [range_start range_end]. rewrite He.
  assert (Hl : length l = length received) by by rewrite Hp. rewrite Hl. fold n.
  destruct (Z.leb_spec n (remaining bud)) as [Hle|_]; [|done]. f_equal. cbn iota.
  assert (Hin : forall rc, rc ∈ l -> pays (mkAddrId t hash) lo hi rc /\ rc ∈ chain_receives chain).
  { intros rc Hrc. rewrite Hp in Hrc. by apply list_elem_of_filter in Hrc. }
  rewrite (entries_covered chain _ l es Hf) by (apply Forall_forall; intros rc Hrc; apply (Hin rc Hrc)).
  rewrite (entry_values chain l es Hf), (entry_kept chain l es Hf).
  assert (Hv : Forall Zatoshis.valid (rc_value <$> l)).
  { apply Forall_fmap, Forall_forall. intros rc Hrc. by apply (receive_wf chain cs Hcs B abs b r Hb Hst), Hin. }
  assert (Hk' : Forall Zatoshis.valid (rc_value <$> kept chain l)).
  { rewrite Forall_fmap, Forall_forall in Hv |- *. intros rc [_ Hrc]%list_elem_of_filter. by apply Hv. }
  rewrite (proj2 (Zatoshis.balances_and_flows _ Hv)) by (rewrite length_fmap, Hl; unfold uint in Hn; subst n; lia).
  rewrite (proj1 (Zatoshis.balances_and_flows _ Hk')). cbn [ok_or].
  assert (Ht : total (rc_value <$> l) = total (rc_value <$> received)) by (by rewrite Hp).
  assert (Hh' : total (rc_value <$> kept chain l) = held) by (unfold held, kept; by rewrite Hp).
  rewrite Ht, Hh'. by destruct (held <=? Zatoshis.MAX_ZATOSHIS).
Qed.

(** The balance of an address over a height range is the chain's.  Over a store
    that holds the address, spend and location indexes of a chain, all complete, it
    is the total of the outputs of the range that pay the address, with as held the
    total of those that no transaction of the chain consumes; every such output is
    charged to the request, which is refused by its limit when there are more than
    it has left, and a held total above the supply cap is a fatal inconsistency. *)
Theorem address_balance_exact {BSt TA} (B : Backend BSt) abs `{!BackendSpec B abs} b r (parse : TA -> option ParsedAddress)
    chain cs addr t hash lo hi bud :
  b_reader B b = Ok r -> chain_contexts chain cs -> Z.of_nat (length chain) <= 2 ^ 31 ->
  address_indexed (abs b) cs -> r_is_complete r address_history_ID = Ok true ->
  r_is_complete r transparent_spends_ID = Ok true -> r_is_complete r txid_location_ID = Ok true ->
  transparent_address_key parse addr = Some (t, hash) -> length hash = 20%nat ->
  Height.valid lo -> Height.valid hi -> uint 64 (remaining bud) ->
  let received := paid chain (mkAddrId t hash) lo hi in
  let held := total (rc_value <$> kept chain received) in
  let n := Z.of_nat (length received) in
  balance parse B b addr (mkHeightRange lo hi) bud =
  if n <=? remaining bud
  then (if held <=? Zatoshis.MAX_ZATOSHIS then Ok (mkAddressBalance held (total (rc_value <$> received))) else Err AddressFatal,
        mkBudget (limit bud) (remaining bud - n))
  else (Err (AddressTooLarge addr (limit bud)), mkBudget (limit bud) 0).
Proof. intros. by eapply balance_held. Qed.

(** ** Scripts *)
Lemma enclosed (p s l : list Z) n :
  length l = (length p + n + length s)%nat -> starts_with p l = true -> ends_with s l = true ->
  l = p ++ take n (drop (length p) l) ++ s.
Proof.
  unfold starts_with, ends_with. intros Hl Hp%bool_decide_eq_true [_ Hs%bool_decide_eq_true]%andb_prop.
  replace (length l - length s)%nat with (length p + n)%nat in Hs by lia.
  rewrite <- (take_drop (length p) l) at 1. rewrite Hp. f_equal.
  rewrite <- (take_drop n (drop (length p) l)) at 1. by rewrite drop_drop, Hs.
Qed.
Lemma classify_standard t hash script :
  t <> NonStandard -> length hash = 20%nat ->
  classify_script script = (hash, t) <-> script_of_key t hash = Some script \/ script = script_type_byte t :: hash.
Proof.
  intros Ht Hh. split.
  - unfold classify_script.
    destruct ((length script =? 25)%nat && _ && _) eqn:E1;
      [|destruct ((length script =? 23)%nat && _ && _) eqn:E2].
    + intros [= <- <-]. apply andb_prop in E1 as [[Hl%Nat.eqb_eq Hp]%andb_prop Hs]. left.
      cbn [script_of_key]. f_equal. symmetry. by apply (enclosed [0x76; 0xa9; 0x14] [0x88; 0xac] script 20).
    + intros [= <- <-]. apply andb_prop in E2 as [[Hl%Nat.eqb_eq Hp]%andb_prop Hs]. left.
      cbn [script_of_key]. f_equal. symmetry. by apply (enclosed [0xa9; 0x14] [0x87] script 20).
    + destruct script as [|tag l]; [by intros [= _ <-]|]. destruct (_ =? 21)%nat; [|by intros [= _ <-]].
      destruct (Z.eqb_spec tag 0) as [->|]; [intros [= <- <-]; by right|].
      destruct (Z.eqb_spec tag 1) as [->|]; [intros [= <- <-]; by right|by intros [= _ <-]].
  - do 20 (destruct hash as [|? hash]; [done|]). destruct hash; [|done].
    intros [Hs| ->]; destruct t; try done. all: injection Hs as <-; reflexivity.
Qed.

(** The scripts the reads count for an address.  For an address of a 20-byte hash
    they are the canonical pay-to-hash script of the address, which is the one
    [script_paying] reconstructs, and one script more: the 21 bytes of the address's
    type tag and its hash. *)
Theorem script_pays_scripts {TA} (parse : TA -> option ParsedAddress) addr t hash script :
  transparent_address_key parse addr = Some (t, hash) -> length hash = 20%nat ->
  script_pays parse script addr = true <->
  script_paying parse addr = Some script \/ script = script_type_byte t :: hash.
Proof.
  intros Hk Hh. unfold script_pays, script_paying. rewrite Hk, bool_decide_eq_true.
  apply classify_standard; [|done]. unfold transparent_address_key in Hk.
  by destruct (parse addr) as [[]|]; try injection Hk as <-.
Qed.

(** ** Deltas *)
Lemma delta_valid {TA} v : Zatoshis.valid v -> positive_delta (TransparentAddress := TA) v = Ok v /\
  negative_delta (TransparentAddress := TA) v = Ok (- v).
Proof.
  intros Hv. unfold positive_delta, negative_delta, delta, try_narrow, Zatoshis.signed_try_new.
  unfold Zatoshis.valid in Hv. change Zatoshis.MAX_ZATOSHIS with 2100000000000000 in *.
  rewrite (proj2 (Z.ltb_lt v (2 ^ 63))) by lia. rewrite !(proj2 (Z.leb_le (- 2 ^ 63) _)), !(proj2 (Z.ltb_lt _ (2 ^ 63))) by lia.
  cbn [andb]. rewrite !(proj2 (Z.leb_le _ 2100000000000000)) by lia. cbn [ok ok_or]. split; f_equal; lia.
Qed.

(** Consumed at a height of the range. *)
Definition spent_within (chain : list Block) (lo hi : Z) (o : Outpoint) : bool :=
  spentb (drop (Z.to_nat lo) (take (S (Z.to_nat hi)) chain)) o.
Lemma spent_within_spec chain lo hi o :
  0 <= lo -> 0 <= hi -> spent_within chain lo hi o = true <->
  exists h i j tx, spent_at chain o h i j tx /\ lo <= Z.of_nat h <= hi.
Proof.
  intros Hlo Hhi. unfold spent_within. rewrite spentb_spec. unfold spent_at, tx_at. split.
  - intros (h & i & j & tx & (b & Hb & Hi) & Hj). rewrite lookup_drop in Hb.
    apply lookup_take_Some in Hb as [Hb Hlt]. exists (Z.to_nat lo + h)%nat, i, j, tx. split; [by split; [exists b|]|]. lia.
  - intros (h & i & j & tx & [(b & Hb & Hi) Hj] & Hh). exists (h - Z.to_nat lo)%nat, i, j, tx. split; [|done]. exists b.
    split; [|done]. rewrite lookup_drop. apply lookup_take_Some. replace (Z.to_nat lo + (h - Z.to_nat lo))%nat with h by lia.
    split; [done|lia].
Qed.

Lemma covers_range lo hi h : covers (mkHeightRange lo hi) h = bool_decide (lo <= h <= hi).
Proof.
  unfold covers. cbn. symmetry. destruct (Z.leb_spec lo h), (Z.leb_spec h hi); cbn;
    rewrite ?bool_decide_eq_true, ?bool_decide_eq_false; lia.
Qed.
Section Deltas.
Context {TA : Type} (chain : list Block) (addr : TA) (lo hi : Z).

(** The receive of an output, and its spend. *)
Definition receive_delta (rc : AddressReceive) (d : AddressDelta) : Prop :=
  lo <= rc_height rc <= hi /\ exists h i tx, tx_at chain h i tx /\ txid tx = rc_txid rc /\
    d = mkAddressDelta (rc_value rc) (rc_txid rc) (rc_output_index rc) (rc_height rc) addr (Some (Z.of_nat i)).
Definition spend_delta (rc : AddressReceive) (d : AddressDelta) : Prop :=
  exists h i j tx, spent_at chain (outpoint_of rc) h i j tx /\ lo <= Z.of_nat h <= hi /\
    d = mkAddressDelta (- rc_value rc) (txid tx) (Z.of_nat j) (Z.of_nat h) addr (Some (Z.of_nat i)).
Definition deltas_for (rc : AddressReceive) (ds : list AddressDelta) : Prop :=
  (forall d, d ∈ ds <-> receive_delta rc d \/ spend_delta rc d) /\
  total (ad_satoshis <$> ds) =
    (if decide (lo <= rc_height rc <= hi) then rc_value rc else 0) -
    (if spent_within chain lo hi (outpoint_of rc) then rc_value rc else 0).

Context (cs : list CurrentZainoContext) (Hcs : chain_contexts chain cs) (Hlen : Z.of_nat (length chain) <= 2 ^ 31).
Context {BSt : Type} (B : Backend BSt) (abs : BSt -> store) `{!BackendSpec B abs} (b : BSt) (r : BackendReader).
Context (Hb : b_reader B b = Ok r) (Hst : address_indexed (abs b) cs) (Hlo : 0 <= lo) (Hhi : 0 <= hi).

Lemma block_index_at h i tx : tx_at chain h i tx -> block_index (TransparentAddress := TA) B b (txid tx) = Ok (Some (Z.of_nat i)).
Proof.
  intros Ht. unfold block_index, address_reader, location. rewrite Hb. cbn [map_err].
  by rewrite (location_held chain cs Hcs r (abs b) (spec_reader _ _ Hb) (ai_spends _ _ Hst) h i tx Ht).
Qed.

Lemma receive_deltas_for rc e :
  rc ∈ chain_receives chain -> entry_for chain rc e ->
  exists ds, receive_deltas B b addr (mkHeightRange lo hi) e = Ok ds /\ (forall d, d ∈ ds <-> receive_delta rc d) /\
    total (ad_satoshis <$> ds) = (if decide (lo <= rc_height rc <= hi) then rc_value rc else 0).
Proof.
  intros Hin (Eh & Et & Ei & Ev & _). pose proof (receive_wf chain cs Hcs B abs b r Hb Hst rc Hin) as (_ & _ & _ & _ & Hv).
  unfold receive_deltas. rewrite covers_range, Eh, Et, Ei, Ev. destruct (decide (lo <= rc_height rc <= hi)) as [Hc|Hc].
  - rewrite (bool_decide_eq_true_2 _ Hc), (proj1 (delta_valid (TA := TA) (rc_value rc) Hv)).
    apply (elem_of_receives chain cs Hcs) in Hin as (h & i & k & tx & out & Htx & _ & ->).
    cbn [rc_txid rc_height rc_output_index rc_value] in *.
    rewrite (block_index_at h i tx Htx). eexists. split; [done|]. split; [|cbn; lia]. intros d.
    rewrite list_elem_of_singleton. split.
    + intros ->. split; [done|]. by exists h, i, tx.
    + intros (_ & h' & i' & tx' & Ht' & Heq & ->).
      by destruct (tx_unique chain cs Hcs (abs b) (ai_spends _ _ Hst) h' i' tx' h i tx Ht' Htx Heq) as (-> & -> & ->).
  - rewrite (bool_decide_eq_false_2 _ Hc). exists []. split_and!; [done| |done]. intros d. rewrite elem_of_nil.
    split; [done|]. by intros [? _].
Qed.
Lemma spend_deltas_for rc e :
  rc ∈ chain_receives chain -> entry_for chain rc e ->
  exists ds, spend_deltas addr (mkHeightRange lo hi) e = Ok ds /\ (forall d, d ∈ ds <-> spend_delta rc d) /\
    total (ad_satoshis <$> ds) = - (if spent_within chain lo hi (outpoint_of rc) then rc_value rc else 0).
Proof.
  intros Hin (_ & _ & _ & Ev & Hs). pose proof (receive_wf chain cs Hcs B abs b r Hb Hst rc Hin) as (_ & _ & _ & _ & Hv).
  unfold spend_deltas. pose proof (spent_within_spec chain lo hi (outpoint_of rc) Hlo Hhi) as Hw.
  destruct Hs as [Hne|h i j tx Hs].
  - exists []. split_and!; [done| |].
    + intros d. rewrite elem_of_nil. split; [done|]. intros (h & i & j & tx & Hs & _). by destruct (Hne h i j tx).
    + destruct (spent_within chain lo hi (outpoint_of rc)); [|done]. destruct (proj1 Hw eq_refl) as (h & i & j & tx & Hs & _).
      by destruct (Hne h i j tx).
  - cbn [site_height site_by site_input_index site_block_index]. rewrite covers_range, Ev.
    assert (Hu : forall h' i' j' tx', spent_at chain (outpoint_of rc) h' i' j' tx' -> h' = h /\ i' = i /\ j' = j /\ tx' = tx)
      by (intros; by eapply (spent_unique chain cs Hcs (abs b) (ai_spends _ _ Hst))).
    destruct (decide (lo <= Z.of_nat h <= hi)) as [Hc|Hc].
    + rewrite (bool_decide_eq_true_2 _ Hc), (proj2 (delta_valid (TA := TA) (rc_value rc) Hv)), (proj2 Hw) by eauto 10.
      eexists. split; [done|]. split; [|cbn; lia].
      intros d. rewrite list_elem_of_singleton. split; [intros ->; by exists h, i, j, tx|].
      intros (h' & i' & j' & tx' & Hs' & _ & ->). by destruct (Hu h' i' j' tx' Hs') as (-> & -> & -> & ->).
    + rewrite (bool_decide_eq_false_2 _ Hc). exists []. split_and!; [done| |].
      * intros d. rewrite elem_of_nil. split; [done|]. intros (h' & i' & j' & tx' & Hs' & Hc' & _).
        by destruct (Hu h' i' j' tx' Hs') as (-> & _).
      * destruct (spent_within chain lo hi (outpoint_of rc)); [|done].
        destruct (proj1 Hw eq_refl) as (h' & i' & j' & tx' & Hs' & Hc'). by destruct (Hu h' i' j' tx' Hs') as (-> & _).
Qed.
Lemma entry_deltas_for rc e :
  rc ∈ chain_receives chain -> entry_for chain rc e ->
  exists ds, entry_deltas B b addr (mkHeightRange lo hi) e = Ok ds /\ deltas_for rc ds.
Proof.
  intros Hin He. destruct (receive_deltas_for rc e Hin He) as (ds1 & Hd1 & Hm1 & Ht1).
  destruct (spend_deltas_for rc e Hin He) as (ds2 & Hd2 & Hm2 & Ht2).
  unfold entry_deltas. rewrite Hd1, Hd2. eexists. split; [done|]. split.
  - intros d. rewrite elem_of_app, Hm1, Hm2. done.
  - rewrite fmap_app, total_app. lia.
Qed.
End Deltas.

(** The order of deltas. *)
Lemma then_compare_not_gt x y c : then_compare (x ?= y) c <> Gt <-> x < y \/ x = y /\ c <> Gt.
Proof. destruct (Z.compare_spec x y); cbn; intuition (done || lia). Qed.
Lemma option_compare_not_gt p q c :
  then_compare (option_compare p q) c <> Gt <->
  match p, q with
  | None, None => c <> Gt | None, Some _ => True | Some _, None => False
  | Some x, Some y => x < y \/ x = y /\ c <> Gt
  end.
Proof. destruct p, q; cbn [option_compare]; [apply then_compare_not_gt|cbn; naive_solver..]. Qed.
Lemma delta_le_spec {TA} (a d : AddressDelta (TransparentAddress := TA)) :
  delta_le a d <->
  ad_height a < ad_height d \/ ad_height a = ad_height d /\
  match ad_block_index a, ad_block_index d with
  | None, None => ad_index a <= ad_index d | None, Some _ => True | Some _, None => False
  | Some x, Some y => x < y \/ x = y /\ ad_index a <= ad_index d
  end.
Proof.
  unfold delta_le. rewrite then_compare_not_gt, option_compare_not_gt.
  destruct (ad_block_index a), (ad_block_index d); rewrite ?Z.compare_le_iff; done.
Qed.
Global Instance delta_le_total {TA} : Total (@delta_le TA).
Proof.
  intros a d. rewrite !delta_le_spec. destruct (ad_block_index a), (ad_block_index d); lia.
Qed.
Global Instance delta_le_trans {TA} : Transitive (@delta_le TA).
Proof.
  intros a d e. rewrite !delta_le_spec. destruct (ad_block_index a), (ad_block_index d), (ad_block_index e); lia.
Qed.

Lemma join_deltas {TA} chain (addr : TA) lo hi l dss :
  Forall2 (deltas_for chain addr lo hi) l dss ->
  (forall d, d ∈ mjoin dss <-> exists rc, rc ∈ l /\ (receive_delta chain addr lo hi rc d \/ spend_delta chain addr lo hi rc d)) /\
  total (ad_satoshis <$> mjoin dss) =
    total (rc_value <$> filter (fun rc => lo <= rc_height rc <= hi) l) -
    total (rc_value <$> filter (fun rc => spent_within chain lo hi (outpoint_of rc) = true) l).
Proof.
  induction 1 as [|rc ds l dss [Hm Ht] _ [IHm IHt]].
  { split; [|done]. intros d. split; [by intros ?%elem_of_nil|by intros (? & []%elem_of_nil & _)]. }
  change (mjoin (ds :: dss)) with (ds ++ mjoin dss). split.
  - intros d. rewrite elem_of_app, Hm, IHm. setoid_rewrite elem_of_cons. naive_solver.
  - rewrite fmap_app, total_app, Ht, IHt, !filter_cons.
    destruct (decide (lo <= rc_height rc <= hi)), (spent_within chain lo hi (outpoint_of rc));
      rewrite ?(decide_True (P := true = true)), ?(decide_False (P := false = true)) by done; cbn; unfold total; lia.
Qed.

(** The deltas read over a store that holds the indexes of a chain. *)
Lemma deltas_held {BSt TA} (B : Backend BSt) abs `{!BackendSpec B abs} b r (parse : TA -> option ParsedAddress)
    chain cs addr t hash lo hi bud :
  b_reader B b = Ok r -> chain_contexts chain cs -> Z.of_nat (length chain) <= 2 ^ 31 ->
  address_indexed (abs b) cs -> r_is_complete r address_history_ID = Ok true ->
  r_is_complete r transparent_spends_ID = Ok true -> r_is_complete r txid_location_ID = Ok true ->
  transparent_address_key parse addr = Some (t, hash) -> length hash = 20%nat ->
  Height.valid lo -> Height.valid hi -> Z.of_nat (length (paid chain (mkAddrId t hash) 0 hi)) <= remaining bud ->
  let history := paid chain (mkAddrId t hash) 0 hi in
  exists ds,
    deltas parse B b addr (mkHeightRange lo hi) bud =
      (Ok ds, mkBudget (limit bud) (remaining bud - Z.of_nat (length history))) /\
    StronglySorted delta_le ds /\
    (forall d, d ∈ ds <-> exists rc, rc ∈ history /\ (receive_delta chain addr lo hi rc d \/ spend_delta chain addr lo hi rc d)) /\
    total (ad_satoshis <$> ds) =
      total (rc_value <$> paid chain (mkAddrId t hash) lo hi) -
      total (rc_value <$> filter (fun rc => spent_within chain lo hi (outpoint_of rc) = true) history).
Proof.
  intros Hb Hcs Hlen Hst Hc1 Hc2 Hc3 Hk Hh Hlo Hhi Hn history.
  destruct (entries_held chain cs Hcs Hlen B abs b r Hb Hst Hc1 Hc2 Hc3 parse addr t hash 0 hi bud Hk Hh) as (l & es & Hp & Hf & He);
    [done|apply height_bounds, Hhi|lia|].
  assert (Hl : length l = length history) by by rewrite Hp. rewrite Hl, (proj2 (Z.leb_le _ _)) in He by exact Hn.
  destruct (map_result_related (entry_deltas B b addr (mkHeightRange lo hi)) (.∈ chain_receives chain) (entry_for chain)
    (deltas_for chain addr lo hi) l es Hf) as (dss & Hdss & HF).
  { apply Forall_forall. intros rc Hrc. rewrite Hp in Hrc. by apply list_elem_of_filter in Hrc as [_ ?]. }
  { intros rc e. apply (entry_deltas_for chain addr lo hi cs Hcs B abs b r Hb Hst (proj1 Hlo) (proj1 Hhi)). }
  destruct (join_deltas chain addr lo hi l dss HF) as [Hm Ht].
  exists (merge_sort delta_le (mjoin dss)). split_and!.
  - unfold deltas. change (range_end (mkHeightRange lo hi)) with hi. change whole_history_start with 0. rewrite He. by rewrite Hdss.
  - apply (StronglySorted_merge_sort delta_le _).
  - intros d. rewrite merge_sort_Permutation, Hm. by setoid_rewrite Hp.
  - rewrite merge_sort_Permutation, Ht, Hp. do 3 f_equal. unfold history, paid. rewrite list_filter_filter.
    apply list_filter_iff. intros rc. unfold pays, Height.valid in *. naive_solver lia.
Qed.

(** The deltas of an address over a height range are the chain's, in chain order:
    one receive for each output of the range that pays the address, at its
    transaction's place, and one spend for each output up to the end of the range
    that a transaction of the range consumes, at that input's place; they sum to
    what the range paid the address less what it spent. *)
Theorem address_deltas_exact {BSt TA} (B : Backend BSt) abs `{!BackendSpec B abs} b r (parse : TA -> option ParsedAddress)
    chain cs addr t hash lo hi bud :
  b_reader B b = Ok r -> chain_contexts chain cs -> Z.of_nat (length chain) <= 2 ^ 31 ->
  address_indexed (abs b) cs -> r_is_complete r address_history_ID = Ok true ->
  r_is_complete r transparent_spends_ID = Ok true -> r_is_complete r txid_location_ID = Ok true ->
  transparent_address_key parse addr = Some (t, hash) -> length hash = 20%nat ->
  Height.valid lo -> Height.valid hi -> Z.of_nat (length (paid chain (mkAddrId t hash) 0 hi)) <= remaining bud ->
  let history := paid chain (mkAddrId t hash) 0 hi in
  exists ds,
    deltas parse B b addr (mkHeightRange lo hi) bud =
      (Ok ds, mkBudget (limit bud) (remaining bud - Z.of_nat (length history))) /\
    StronglySorted delta_le ds /\
    (forall d, d ∈ ds <-> exists rc, rc ∈ history /\ (receive_delta chain addr lo hi rc d \/ spend_delta chain addr lo hi rc d)) /\
    total (ad_satoshis <$> ds) =
      total (rc_value <$> paid chain (mkAddrId t hash) lo hi) -
      total (rc_value <$> filter (fun rc => spent_within chain lo hi (outpoint_of rc) = true) history).
Proof. intros. by eapply deltas_held. Qed.

(** ** Transaction ids *)
Notation Located := (Z * option Z * TransactionId)%type (only parsing).
Lemma located_le_spec (a d : Located) :
  located_le a d <->
  a.1.1 < d.1.1 \/ a.1.1 = d.1.1 /\
  match a.1.2, d.1.2 with
  | None, None => bytes_le (reverse a.2) (reverse d.2) | None, Some _ => True | Some _, None => False
  | Some x, Some y => x < y \/ x = y /\ bytes_le (reverse a.2) (reverse d.2)
  end.
Proof. unfold located_le. rewrite then_compare_not_gt, option_compare_not_gt. done. Qed.
Global Instance located_le_total : Total located_le.
Proof.
  intros a d. rewrite !located_le_spec. pose proof (bytes_le_total (reverse a.2) (reverse d.2)).
  destruct (Z.lt_trichotomy a.1.1 d.1.1) as [?|[?|?]]; [tauto| |tauto].
  destruct a.1.2 as [x|], d.1.2 as [y|]; [|intuition lia..]. destruct (Z.lt_trichotomy x y); intuition lia.
Qed.
Global Instance located_le_trans : Transitive located_le.
Proof.
  intros a d e. rewrite !located_le_spec.
  pose proof (transitivity (R := bytes_le) (x := reverse a.2) (y := reverse d.2) (z := reverse e.2)).
  destruct a.1.2, d.1.2, e.1.2; intuition lia.
Qed.
Global Instance located_le_antisymm : AntiSymm (=) located_le.
Proof.
  intros [[h p] x] [[h' p'] x']. rewrite !located_le_spec. cbn.
  pose proof (anti_symm bytes_le (reverse x) (reverse x')) as Ha.
  destruct p, p'; intros; assert (reverse x = reverse x') as Heq%(inj reverse) by (apply Ha; intuition lia);
    repeat f_equal; (lia || done).
Qed.

(** Deduplicating neighbours of a sorted list deduplicates it. *)
Lemma elem_of_dedup {A} `{EqDecision A} (l : list A) x : x ∈ dedup l <-> x ∈ l.
Proof.
  induction l as [|a l IH]; [done|]. cbn [dedup]. rewrite elem_of_cons, <- IH.
  destruct (dedup l) as [|a' l'] eqn:Hd; [by rewrite list_elem_of_singleton, elem_of_nil; naive_solver|].
  case_decide as Heq; [subst|]; rewrite !elem_of_cons; naive_solver.
Qed.
Lemma dedup_NoDup {A} `{EqDecision A} (R : relation A) `{!AntiSymm (=) R} (l : list A) :
  StronglySorted R l -> NoDup (dedup l) /\ StronglySorted R (dedup l).
Proof.
  induction 1 as [|a l Hs [Hnd Hs'] Hf]; [split; constructor|]. cbn [dedup].
  destruct (dedup l) as [|a' l'] eqn:Hd; [split; [apply NoDup_singleton|by constructor]|].
  case_decide as Heq; [done|]. assert (Hall : Forall (R a) (a' :: l')).
  { rewrite Forall_forall in Hf |- *. intros x Hx. apply Hf. rewrite <- elem_of_dedup. by rewrite Hd. }
  split; [|by constructor]. apply NoDup_cons. split; [|done]. intros Hin. apply Heq.
  apply (anti_symm R); [by apply Forall_cons in Hall as [? _]|].
  apply elem_of_cons in Hin as [->|Hin]; [by apply Forall_cons in Hall as [? _]|].
  apply StronglySorted_inv in Hs' as [_ Hf']. rewrite Forall_forall in Hf'. by apply Hf'.
Qed.

Section TxIds.
Context {TA : Type} (chain : list Block) (lo hi : Z).
Context (cs : list CurrentZainoContext) (Hcs : chain_contexts chain cs).
Context {BSt : Type} (B : Backend BSt) (abs : BSt -> store) `{!BackendSpec B abs} (b : BSt) (r : BackendReader).
Context (Hb : b_reader B b = Ok r) (Hst : address_indexed (abs b) cs).

(** The transaction that made the output, or the one that consumed it, at its place. *)
Definition touches (rc : AddressReceive) (x : Located) : Prop :=
  exists h i tx, tx_at chain h i tx /\ lo <= Z.of_nat h <= hi /\ x = (Z.of_nat h, Some (Z.of_nat i), txid tx) /\
    (txid tx = rc_txid rc \/ exists j, spent_at chain (outpoint_of rc) h i j tx).
Lemma entry_txids_for rc e :
  rc ∈ chain_receives chain -> entry_for chain rc e ->
  exists xs, entry_txids (TransparentAddress := TA) B b (mkHeightRange lo hi) e = Ok xs /\ forall x, x ∈ xs <-> touches rc x.
Proof.
  intros Hin (Eh & Et & _ & _ & Hs). unfold entry_txids. rewrite Eh, Et.
  apply (elem_of_receives chain cs Hcs) in Hin as (h & i & k & tx & out & Htx & _ & ->). cbn [rc_height rc_txid].
  rewrite covers_range, (block_index_at chain cs Hcs B abs b r Hb Hst h i tx Htx).
  set (spend := match en_spent e with Some _ => _ | None => [] end).
  assert (Hspend : forall x, x ∈ spend <-> exists h' i' j' tx', spent_at chain (txid tx, Z.of_nat k) h' i' j' tx' /\
    lo <= Z.of_nat h' <= hi /\ x = (Z.of_nat h', Some (Z.of_nat i'), txid tx')).
  { intros x. subst spend. destruct Hs as [Hne|h' i' j' tx' Hs]; [rewrite elem_of_nil; naive_solver|].
    cbn [site_height site_by site_block_index]. rewrite covers_range.
    assert (Hu : forall h1 i1 j1 tx1, spent_at chain (txid tx, Z.of_nat k) h1 i1 j1 tx1 -> h1 = h' /\ i1 = i' /\ j1 = j' /\ tx1 = tx')
      by (intros; by eapply (spent_unique chain cs Hcs (abs b) (ai_spends _ _ Hst))).
    destruct (bool_decide_reflect (lo <= Z.of_nat h' <= hi)).
    - rewrite list_elem_of_singleton. split; [intros ->; eauto 10|].
      intros (h1 & i1 & j1 & tx1 & H1 & _ & ->). by destruct (Hu _ _ _ _ H1) as (-> & -> & -> & ->).
    - rewrite elem_of_nil. split; [done|]. intros (h1 & i1 & j1 & tx1 & H1 & Hc & _).
      by destruct (Hu _ _ _ _ H1) as (-> & _).
  }
  assert (Htouch : forall x, touches (mkAddressReceive (addr_of (out_script out)) (Z.of_nat h) (txid tx) (Z.of_nat k) (out_value out)) x <->
    (lo <= Z.of_nat h <= hi /\ x = (Z.of_nat h, Some (Z.of_nat i), txid tx)) \/ x ∈ spend).
  { intros x. rewrite Hspend. unfold touches, outpoint_of. cbn [rc_txid rc_output_index]. split.
    - intros (h1 & i1 & tx1 & H1 & Hc & -> & [Heq|[j Hj]]); [left|right; eauto 10].
      by destruct (tx_unique chain cs Hcs (abs b) (ai_spends _ _ Hst) h1 i1 tx1 h i tx H1 Htx Heq) as (-> & -> & ->).
    - intros [[Hc ->]|(h1 & i1 & j1 & tx1 & H1 & Hc & ->)]; [exists h, i, tx; do 3 (split; [done|]); by left|].
      exists h1, i1, tx1. split; [apply H1|]. do 2 (split; [done|]). right. eauto. }
  destruct (bool_decide_reflect (lo <= Z.of_nat h <= hi)); eexists; (split; [done|]); intros x; rewrite Htouch.
  - rewrite elem_of_app, list_elem_of_singleton. naive_solver.
  - cbn. naive_solver.
Qed.
End TxIds.

(** The transaction-id read over a store that holds the indexes of a chain. *)
Lemma tx_ids_held {BSt TA} (B : Backend BSt) abs `{!BackendSpec B abs} b r (parse : TA -> option ParsedAddress)
    chain cs addr t hash lo hi bud :
  b_reader B b = Ok r -> chain_contexts chain cs -> Z.of_nat (length chain) <= 2 ^ 31 ->
  address_indexed (abs b) cs -> r_is_complete r address_history_ID = Ok true ->
  r_is_complete r transparent_spends_ID = Ok true -> r_is_complete r txid_location_ID = Ok true ->
  transparent_address_key parse addr = Some (t, hash) -> length hash = 20%nat ->
  Height.valid lo -> Height.valid hi -> Z.of_nat (length (paid chain (mkAddrId t hash) 0 hi)) <= remaining bud ->
  let history := paid chain (mkAddrId t hash) 0 hi in
  exists xs : list Located,
    tx_ids parse B b addr (mkHeightRange lo hi) bud =
      (Ok ((fun x => (Some x.1.1, x.1.2, x.2)) <$> xs), mkBudget (limit bud) (remaining bud - Z.of_nat (length history))) /\
    NoDup xs /\ StronglySorted located_le xs /\
    forall x, x ∈ xs <-> exists rc, rc ∈ history /\ touches chain lo hi rc x.
Proof.
  intros Hb Hcs Hlen Hst Hc1 Hc2 Hc3 Hk Hh Hlo Hhi Hn history.
  destruct (entries_held chain cs Hcs Hlen B abs b r Hb Hst Hc1 Hc2 Hc3 parse addr t hash 0 hi bud Hk Hh) as (l & es & Hp & Hf & He);
    [done|apply height_bounds, Hhi|lia|].
  assert (Hl : length l = length history) by by rewrite Hp. rewrite Hl, (proj2 (Z.leb_le _ _)) in He by exact Hn.
  destruct (map_result_related (entry_txids (TransparentAddress := TA) B b (mkHeightRange lo hi))
    (.∈ chain_receives chain) (entry_for chain) (fun rc xs => forall x, x ∈ xs <-> touches chain lo hi rc x) l es Hf)
    as (xss & Hx & HF).
  { apply Forall_forall. intros rc Hrc. rewrite Hp in Hrc. by apply list_elem_of_filter in Hrc as [_ ?]. }
  { intros rc e. apply (entry_txids_for chain lo hi cs Hcs B abs b r Hb Hst). }
  pose proof (StronglySorted_merge_sort located_le (mjoin xss)) as Hs.
  destruct (dedup_NoDup located_le _ Hs) as [Hnd Hsd].
  exists (dedup (merge_sort located_le (mjoin xss))). split_and!; [|done|done|].
  - unfold tx_ids. change (range_end (mkHeightRange lo hi)) with hi. change whole_history_start with 0. rewrite He, Hx.
    do 2 f_equal. apply list_fmap_ext. by intros i [[??]?].
  - intros x. rewrite elem_of_dedup, merge_sort_Permutation, list_elem_of_join. unfold history, paid. setoid_rewrite <- Hp. clear -HF. split.
    + intros (xs & Hx & [i Hi]%list_elem_of_lookup). destruct (Forall2_lookup_r _ _ _ _ _ HF Hi) as (rc & Hrc & Hm).
      exists rc. split; [by eapply list_elem_of_lookup_2|by apply Hm].
    + intros (rc & [i Hi]%list_elem_of_lookup & Ht). destruct (Forall2_lookup_l _ _ _ _ _ HF Hi) as (xs & Hxs & Hm).
      exists xs. split; [by apply Hm|by eapply list_elem_of_lookup_2].
Qed.

(** The transaction ids of an address over a height range are the transactions of
    the range that pay the address or consume an output, made by its end, that pays
    it: each of them once, with its height and its position in the block, and no
    other, in chain order. *)
Theorem address_tx_ids_exact {BSt TA} (B : Backend BSt) abs `{!BackendSpec B abs} b r (parse : TA -> option ParsedAddress)
    chain cs addr t hash lo hi bud :
  b_reader B b = Ok r -> chain_contexts chain cs -> Z.of_nat (length chain) <= 2 ^ 31 ->
  address_indexed (abs b) cs -> r_is_complete r address_history_ID = Ok true ->
  r_is_complete r transparent_spends_ID = Ok true -> r_is_complete r txid_location_ID = Ok true ->
  transparent_address_key parse addr = Some (t, hash) -> length hash = 20%nat ->
  Height.valid lo -> Height.valid hi -> Z.of_nat (length (paid chain (mkAddrId t hash) 0 hi)) <= remaining bud ->
  let history := paid chain (mkAddrId t hash) 0 hi in
  exists xs : list Located,
    tx_ids parse B b addr (mkHeightRange lo hi) bud =
      (Ok ((fun x => (Some x.1.1, x.1.2, x.2)) <$> xs), mkBudget (limit bud) (remaining bud - Z.of_nat (length history))) /\
    NoDup xs /\ StronglySorted located_le xs /\
    forall x, x ∈ xs <-> exists rc, rc ∈ history /\ touches chain lo hi rc x.
Proof. intros. by eapply tx_ids_held. Qed.

(** ** Indexing the history *)

(** A commit that holds what the history indexes persisted for a batch. *)
Definition history_batch (ops : list WriteOp) (cs : list CurrentZainoContext) : Prop :=
  exists n named, commit_of named ops /\
    ran txid_location_context txid_location_ID TxidLocationIndex txid_location_extract txid_location_schema n cs named /\
    ran spend_context transparent_spends_ID TransparentSpendsIndex transparent_spends_extract transparent_spends_schema n cs named /\
    ran transparent_data_context transparent_data_ID TransparentDataIndex transparent_data_extract transparent_data_schema n cs named /\
    ran address_context address_history_ID AddressHistoryIndex address_history_extract address_history_schema n cs named.

Lemma history_index_holds {A D} context name C wf `{!CodecLaws C wf} (extract : A -> result D Infallible) schema st log css :
  (forall ds ds', into_entries schema (ds ++ ds') = into_entries schema ds ++ into_entries schema ds') ->
  into_entries schema [] = [] -> name <> VERSION_META -> (forall kb, st !! (name, kb) = None) -> css <> [] ->
  Forall2 (fun ops cs => batch_of C name ops (entries_of extract context schema cs)) log css ->
  all_wf C wf (entries_of extract context schema (mjoin css)) -> NoDup (entries_of extract context schema (mjoin css)).*1 ->
  holds C wf name (fold_left store_ops log st) (entries_of extract context schema (mjoin css)).
Proof.
  intros Happ Hnil Hns He Hne Hb Hwf Hnd.
  assert (Hj : entries_of extract context schema (mjoin css) = mjoin (entries_of extract context schema <$> css)).
  { clear -Happ Hnil. unfold entries_of. induction css as [|cs css IH]; [done|]. cbn [fmap list_fmap].
    change (mjoin (?a :: ?l)) with (a ++ mjoin l). by rewrite fmap_app, Happ, <- IH. }
  rewrite Hj in *. apply batches_hold; [apply _|done|done|by apply Forall2_fmap_r|by destruct css|done|done].
Qed.

Lemma history_indexed st log css :
  (forall ns kb, ns ∈ [txid_location_ID; transparent_spends_ID; transparent_data_ID; address_history_ID] -> st !! (ns, kb) = None) ->
  css <> [] -> Forall2 history_batch log css ->
  let cs := mjoin css in
  all_wf TxidLocationIndex txid_location_wf (txid_location_entries cs) -> NoDup (txid_location_entries cs).*1 ->
  all_wf TransparentSpendsIndex transparent_spends_wf (spend_entries cs) -> NoDup (spend_entries cs).*1 ->
  all_wf TransparentDataIndex transparent_data_wf (transparent_entries cs) -> NoDup (transparent_entries cs).*1 ->
  all_wf AddressHistoryIndex address_history_wf (address_entries cs) -> NoDup (address_entries cs).*1 ->
  address_indexed (fold_left store_ops log st) cs.
Proof.
  intros He Hne Hb cs **.
  assert (Hr : forall (P : list WriteOp -> list CurrentZainoContext -> Prop),
    (forall ops cs, history_batch ops cs -> P ops cs) -> Forall2 P log css) by (intros P HP; by eapply Forall2_impl).
  split; [split|].
  all: apply history_index_holds; try done;
    [apply _|intros ??; cbn; rewrite ?join_app; apply fmap_app|intros kb; apply He; set_solver|
     apply Hr; intros ops cs' (n & named & Hc & R1 & R2 & R3 & R4); by eapply ran_batch].
Qed.

(** ** Two blocks: two outputs to an address, one of them spent *)
Module Example.
Import StoreCorrect.Example.
Local Existing Instance canonical_iter.

Definition cs : list CurrentZainoContext := [context b0; context b1].
Definition named : list (string * list WriteOp) :=
  [(txid_location_ID, persisted TxidLocationIndex txid_location_ID (txid_location_entries cs));
   (transparent_spends_ID, persisted TransparentSpendsIndex transparent_spends_ID (spend_entries cs));
   (transparent_data_ID, persisted TransparentDataIndex transparent_data_ID (transparent_entries cs));
   (address_history_ID, persisted AddressHistoryIndex address_history_ID (address_entries cs))].
Definition ops : list WriteOp := mjoin named.*2 ++ [stamp 1].
Definition history : Data := fold_left mem_op ops Kv.new.

Lemma named_commit : commit_of named ops.
Proof.
  split_and!; [apply (bool_decide_unpack _); reflexivity| |by exists 1].
  repeat constructor; cbn [fst snd];
    try (unfold reserved_namespaces; apply (bool_decide_unpack _); reflexivity); eauto.
Qed.
Definition payee : AddrId := mkAddrId P2PKH (replicate 20 5).
Lemma locations_wf : all_wf TxidLocationIndex txid_location_wf (txid_location_entries cs).
Proof.
  change (txid_location_entries cs) with [(h32 20, mkTxLocation 0 0); (h32 21, mkTxLocation 1 0)].
  unfold all_wf, txid_location_wf. wf_ok.
Qed.
Lemma spends_wf : all_wf TransparentSpendsIndex transparent_spends_wf (spend_entries cs).
Proof.
  change (spend_entries cs) with [(mkOutpointKey (h32 20) 1, h32 21)].
  unfold all_wf, transparent_spends_wf. wf_ok.
Qed.
Lemma receives_wf : all_wf AddressHistoryIndex address_history_wf (address_entries cs).
Proof.
  change (address_entries cs) with
    [(mkAddrKey payee 0 (h32 20) 0, 7); (mkAddrKey payee 0 (h32 20) 1, 9);
     (mkAddrKey (mkAddrId NonStandard (9 :: replicate 19 0)) 1 (h32 21) 0, 4)].
  unfold all_wf, address_history_wf, bytes_of. cbn [fst snd]. wf_ok; try reflexivity; small.
Qed.
Lemma data_wf : all_wf TransparentDataIndex transparent_data_wf (transparent_entries cs).
Proof.
  change (transparent_entries cs) with [(0, z_transparent_txs (context b0)); (1, z_transparent_txs (context b1))].
  constructor; [apply (co_transparent _ ok0)|]. constructor; [apply (co_transparent _ ok1)|constructor].
Qed.
Lemma batch : Forall2 history_batch [ops] [cs].
Proof.
  constructor; [|constructor]. exists 0%nat, named. split; [exact named_commit|]. unfold named.
  split_and!; [eapply run_local_wf with (wf := txid_location_wf)|eapply run_local_wf with (wf := transparent_spends_wf)
    |eapply run_local_wf with (wf := transparent_data_wf)|eapply run_local_wf with (wf := address_history_wf)];
    try apply _; try set_solver.
  - exact locations_wf.
  - exact spends_wf.
  - exact data_wf.
  - exact receives_wf.
Qed.
Lemma indexed : address_indexed (data_abs history) cs.
Proof.
  assert (Hc : commits in_memory Kv.new [ops] = Some history) by reflexivity.
  rewrite (commits_abs in_memory data_abs Kv.new [ops] history Hc).
  apply (history_indexed (data_abs Kv.new) [ops] [cs]); [done|done|exact batch|..].
  - exact locations_wf.
  - apply (bool_decide_unpack _). reflexivity.
  - exact spends_wf.
  - apply (bool_decide_unpack _). reflexivity.
  - exact data_wf.
  - apply (bool_decide_unpack _). reflexivity.
  - exact receives_wf.
  - apply (bool_decide_unpack _). reflexivity.
Qed.

(** Addresses as what they parse to. *)
Definition parsed (a : ParsedAddress) : option ParsedAddress := Some a.
Definition alice : ParsedAddress := ParsedP2pkh (replicate 20 5).
Definition chain : list Block := [b0; b1].
Lemma chain_cs : chain_contexts chain cs.
Proof. exact contexts. Qed.

Lemma spend_status_exact_witness :
  spend_status in_memory history (h32 20, 1) = Ok (Spent (h32 21)) /\
  exists a i, spend_status in_memory history (h32 20, 1) = Ok a /\ spend_info in_memory history (h32 20, 1) = Ok i /\
    outpoint_state chain (h32 20, 1) a i.
Proof.
  split; [vm_compute; reflexivity|].
  exact (spend_status_exact in_memory data_abs history (mem_reader history) chain cs (h32 20, 1) eq_refl chain_cs
    (ai_spends _ _ indexed) ltac:(discriminate) (h32_ok 20 ltac:(small)) ltac:(small) eq_refl eq_refl).
Defined.
Lemma address_balance_exact_witness :
  balance parsed in_memory history alice (mkHeightRange 0 1) for_request =
  (Ok (mkAddressBalance 7 16), mkBudget 5000000 4999998).
Proof.
  exact (address_balance_exact in_memory data_abs history (mem_reader history) parsed chain cs alice P2PKH (replicate 20 5) 0 1
    for_request eq_refl chain_cs ltac:(discriminate) indexed eq_refl eq_refl eq_refl eq_refl eq_refl
    ltac:(split; discriminate) ltac:(split; discriminate) ltac:(small)).
Defined.
Lemma address_deltas_exact_witness :
  exists ds, deltas parsed in_memory history alice (mkHeightRange 1 1) for_request = (Ok ds, mkBudget 5000000 4999998) /\
    StronglySorted delta_le ds /\
    (forall d, d ∈ ds <-> exists rc, rc ∈ paid chain payee 0 1 /\ (receive_delta chain alice 1 1 rc d \/ spend_delta chain alice 1 1 rc d)) /\
    total (ad_satoshis <$> ds) = - 9.
Proof.
  exact (address_deltas_exact in_memory data_abs history (mem_reader history) parsed chain cs alice P2PKH (replicate 20 5) 1 1
    for_request eq_refl chain_cs ltac:(discriminate) indexed eq_refl eq_refl eq_refl eq_refl eq_refl
    ltac:(split; discriminate) ltac:(split; discriminate) ltac:(discriminate)).
Defined.
Lemma address_tx_ids_exact_witness :
  exists xs : list Located, tx_ids parsed in_memory history alice (mkHeightRange 0 1) for_request =
      (Ok ((fun x => (Some x.1.1, x.1.2, x.2)) <$> xs), mkBudget 5000000 4999998) /\
    NoDup xs /\ StronglySorted located_le xs /\
    forall x, x ∈ xs <-> exists rc, rc ∈ paid chain payee 0 1 /\ touches chain 0 1 rc x.
Proof.
  exact (address_tx_ids_exact in_memory data_abs history (mem_reader history) parsed chain cs alice P2PKH (replicate 20 5) 0 1
    for_request eq_refl chain_cs ltac:(discriminate) indexed eq_refl eq_refl eq_refl eq_refl eq_refl
    ltac:(split; discriminate) ltac:(split; discriminate) ltac:(discriminate)).
Defined.
Lemma script_pays_scripts_witness :
  script_paying parsed alice = Some p2pkh /\ script_pays parsed (0 :: replicate 20 5) alice = true.
Proof.
  split; [reflexivity|].
  apply (proj2 (script_pays_scripts parsed alice P2PKH (replicate 20 5) (0 :: replicate 20 5) eq_refl eq_refl)).
  right. reflexivity.
Defined.
End Example.
End AddressCorrect.
