(* ===== verification/Repair.v ===== *)
(** * Checking a store before it is served
    ([packages/zaino-store/src/watermark_repair.rs], [index_coverage.rs])

    On every boot the watermark is checked against the headers the store holds
    and lowered, with the height-keyed indexes, when it claims more; then every
    declared index must bear a format stamp if the store has synced anything. *)

From S2P Require Import Prelude Primitives Types Persistence Codec Bridge Indexes IndexSet Store StoreCorrect.
From stdpp Require Import base gmap list strings sorting.
From Stdlib Require Import Lia.
Open Scope Z_scope.

Module Repair.
Import Bytes Kv Layout Codec Indexes IndexSet Store StoreCorrect.

(** [namespace_specs] of the compact-block set. *)
Definition spec_of (name : string) (C : EntryCodec) : NamespaceSpec := mkSpec name (KEY_ORDER C).
Definition compact_blocks_specs : list NamespaceSpec :=
  [spec_of headers_ID HeadersIndex; spec_of txids_ID TxidsIndex; spec_of hash_to_height_ID HashToHeightIndex;
   spec_of transparent_data_ID TransparentDataIndex; spec_of sapling_ID SaplingIndex; spec_of orchard_ID OrchardIndex;
   spec_of ironwood_ID IronwoodIndex; spec_of chain_metadata_ID ChainMetadataIndex].

(** ** [watermark_repair.rs] *)
Definition MAX_SEARCH : Z := Z.shiftl 1 20.
Definition WINDOW : Z := Z.shiftl 1 14.
Definition TRIM_CHUNK : nat := 10000.

Record WatermarkRepair := mkRepair { claimed : Z; corrected : Z; trimmed : list (string * Z) }.
Inductive WatermarkRepairError :=
| RepairOpen | RepairRead | RepairProbe | RepairCommit | TrimScan (namespace : string)
| TrimCommit (namespace : string) | RepairFlush | NoHeaderBelow (claimed searched : Z).

Definition header_held (reader : BackendReader) (height : Z) : result bool WatermarkRepairError :=
  let? header := map_err (fun _ => RepairProbe) (read_keyed HeadersIndex reader headers_ID height) in
  Ok (match header with Some _ => true | None => false end).

(** The highest header at or below the claim.  The height falls at every turn. *)
Fixpoint find_top (fuel : nat) (reader : BackendReader) (claimed top searched : Z)
    : option (result (Z * Z) WatermarkRepairError) :=
  match fuel with
  | O => None
  | S fuel =>
      match header_held reader top with
      | Err x => Some (Err x)
      | Ok true => Some (Ok (top, searched))
      | Ok false =>
          let searched := searched + 1 in
          match (if searched <=? MAX_SEARCH then Height.height_checked_sub top 1 else None) with
          | None => Some (Err (NoHeaderBelow claimed searched))
          | Some below => find_top fuel reader claimed below searched
          end
      end
  end.
(** The heights below the lowest hole of the window. *)
Fixpoint find_corrected (n : nat) (reader : BackendReader) (claimed searched probe corrected : Z)
    : result Z WatermarkRepairError :=
  match n with
  | O => Ok corrected
  | S n =>
      match Height.height_checked_sub probe 1 with
      | None => Ok corrected
      | Some below =>
          let? held := header_held reader below in
          let? corrected :=
            if held then Ok corrected
            else ok_or (Height.height_checked_sub below 1) (NoHeaderBelow claimed searched) in
          find_corrected n reader claimed searched below corrected
      end
  end.

Section Repairs.
Context {BSt : Type} (B : Backend BSt).
(** [M::pipelines().namespace_specs()] *)
Context (specs : list NamespaceSpec).

Definition collect_key : RangeVisitor (list (list Z)) := fun keys key _ =>
  let keys := keys ++ [key] in
  (keys, if (TRIM_CHUNK <=? length keys)%nat then Break else Continue).

(** One turn per deleted chunk; [None] is out of fuel. *)
Fixpoint trim_namespace_above (fuel : nat) (b : BSt) (namespace : string) (lower upper : list Z) (removed : Z)
    : option (result Z WatermarkRepairError * BSt) :=
  match fuel with
  | O => None
  | S fuel =>
      match b_reader B b with
      | Err _ => Some (Err RepairOpen, b)
      | Ok reader =>
          match r_scan_range reader namespace lower upper collect_key [] with
          | Err _ => Some (Err (TrimScan namespace), b)
          | Ok [] => Some (Ok removed, b)
          | Ok keys =>
              match b_writer B b with
              | Err _ => Some (Err RepairOpen, b)
              | Ok _ =>
                  match b_commit B b (Delete namespace <$> keys) with
                  | Err _ => Some (Err (TrimCommit namespace), b)
                  | Ok b => trim_namespace_above fuel b namespace lower upper (removed + Z.of_nat (length keys))
                  end
              end
          end
      end
  end.
Fixpoint trim_specs (fuel : nat) (lower upper : list Z) (specs : list NamespaceSpec) (b : BSt) (trimmed : list (string * Z))
    : option (result (list (string * Z)) WatermarkRepairError * BSt) :=
  match specs with
  | [] => Some (Ok trimmed, b)
  | spec :: specs =>
      match key_order spec with
      | WalkOrdered =>
          match trim_namespace_above fuel b (ns_namespace spec) lower upper 0 with
          | None => None
          | Some (Err x, b) => Some (Err x, b)
          | Some (Ok removed, b) =>
              trim_specs fuel lower upper specs b
                (if 0 <? removed then trimmed ++ [(ns_namespace spec, removed)] else trimmed)
          end
      | _ => trim_specs fuel lower upper specs b trimmed
      end
  end.
Definition trim_walk_ordered_above (fuel : nat) (b : BSt) (corrected : Z)
    : option (result (list (string * Z)) WatermarkRepairError * BSt) :=
  let first_stale := corrected + 1 in
  trim_specs fuel (to_be_bytes 8 first_stale) (replicate 8 0xff) specs b [].

Definition repair_watermark (fuel : nat) (b : BSt) : option (result (option WatermarkRepair) WatermarkRepairError * BSt) :=
  match b_reader B b with
  | Err _ => Some (Err RepairOpen, b)
  | Ok reader =>
      match read_watermark reader with
      | Err _ => Some (Err RepairRead, b)
      | Ok None => Some (Ok None, b)
      | Ok (Some claimed) =>
          match find_top (S (Z.to_nat claimed)) reader claimed claimed 0 with
          | None => None
          | Some (Err x) => Some (Err x, b)
          | Some (Ok (top, searched)) =>
              match find_corrected (Z.to_nat WINDOW) reader claimed searched top top with
              | Err x => Some (Err x, b)
              | Ok corrected =>
                  if corrected =? claimed then Some (Ok None, b)
                  else
                    match trim_walk_ordered_above fuel b corrected with
                    | None => None
                    | Some (Err x, b) => Some (Err x, b)
                    | Some (Ok trimmed, b) =>
                        match (match trimmed with [] => Ok b | _ => b_flush B b end) with
                        | Err _ => Some (Err RepairFlush, b)
                        | Ok b =>
                            match b_writer B b with
                            | Err _ => Some (Err RepairOpen, b)
                            | Ok _ =>
                                match b_commit B b [stamp corrected] with
                                | Err _ => Some (Err RepairCommit, b)
                                | Ok b => Some (Ok (Some (mkRepair claimed corrected trimmed)), b)
                                end
                            end
                        end
                    end
              end
          end
      end
  end.

(** ** [index_coverage.rs] *)
Inductive IndexCoverageError :=
| CoverageOpen | CoverageRead | CoverageProbe (index : string) | Incomplete (watermark : Z) (unstamped : list string).
Fixpoint unstamped_indexes (reader : BackendReader) (indexes : list string) : result (list string) IndexCoverageError :=
  match indexes with
  | [] => Ok []
  | index :: indexes =>
      let? complete := map_err (fun _ => CoverageProbe index) (r_is_complete reader index) in
      if negb complete then unstamped_indexes reader indexes
      else
        let? recorded := map_err (fun _ => CoverageProbe index) (recorded_version reader index) in
        let? rest := unstamped_indexes reader indexes in
        Ok (match recorded with None => index :: rest | Some _ => rest end)
  end.
Definition check_index_coverage (b : BSt) (indexes : list string) : result unit IndexCoverageError :=
  let? reader := map_err (fun _ => CoverageOpen) (b_reader B b) in
  let? watermark := map_err (fun _ => CoverageRead) (read_watermark reader) in
  match watermark with
  | None => Ok tt
  | Some watermark =>
      let? unstamped := unstamped_indexes reader indexes in
      match unstamped with
      | [] => Ok tt
      | _ => Err (Incomplete watermark unstamped)
      end
  end.
End Repairs.
End Repair.
