(* ===== verification/RepairCorrect.v ===== *)
(** * The boot checks: what a repaired store holds, and when one is refused *)

From S2P Require Import Prelude Primitives Types Persistence Codec Bridge BridgeCorrect Indexes IndexSet Store StoreCorrect Repair.
From stdpp Require Import base gmap list strings sorting.
From Stdlib Require Import Lia.
Open Scope Z_scope.

Module RepairCorrect.
Import Bytes Kv Layout Codec Bridge BridgeCorrect Indexes IndexSet Store StoreCorrect Repair.

(** A backend none of whose operations fails. *)
Record never_fails {BSt} (B : Backend BSt) : Prop := {
  nf_reader b : exists r, b_reader B b = Ok r;
  nf_writer b : exists u, b_writer B b = Ok u;
  nf_commit b ops : exists b', b_commit B b ops = Ok b';
  nf_flush b : exists b', b_flush B b = Ok b' }.

(** ** Trimming a namespace *)

(** The entries of a half-open range, in key order. *)
Definition scanned (st : store) (ns : string) (lo hi : list Z) (es : list (list Z * list Z)) : Prop :=
  StronglySorted (fun a b => bytes_compare a.1 b.1 = Lt) es /\
  forall k v, (k, v) ∈ es <-> st !! (ns, k) = Some v /\ in_range lo hi (k, v) = true.

Lemma sorted_filter {A} (R : relation A) (P : A -> Prop) `{forall x, Decision (P x)} l :
  StronglySorted R l -> StronglySorted R (filter P l).
Proof.
  induction 1 as [|x l Hs IH Hf]; [constructor|]. rewrite filter_cons. case_decide; [|done].
  constructor; [done|]. rewrite Forall_forall in Hf |- *. intros y [_ Hy]%list_elem_of_filter. by apply Hf.
Qed.
Lemma namespace_scanned st ns lo hi l :
  namespace_entries st ns l -> scanned st ns lo hi (filter (fun e => in_range lo hi e = true) l).
Proof.
  intros [Hs Hin]. split; [by apply sorted_filter|]. intros k v. rewrite list_elem_of_filter, Hin. tauto.
Qed.
Lemma sorted_keys_nodup (es : list (list Z * list Z)) :
  StronglySorted (fun a b => bytes_compare a.1 b.1 = Lt) es -> NoDup es.*1.
Proof.
  induction 1 as [|e es Hs IH Hf]; [constructor|]. apply NoDup_cons. split; [|done].
  intros (x & Hx & Hin)%list_elem_of_fmap. rewrite Forall_forall in Hf. specialize (Hf x Hin).
  by rewrite Hx, (proj2 (bytes_compare_eq _ _) eq_refl) in Hf.
Qed.
Lemma scanned_unique st ns lo hi es es' : scanned st ns lo hi es -> scanned st ns lo hi es' -> es = es'.
Proof.
  intros [Hs Hin] [Hs' Hin'].
  assert (forall l, StronglySorted (fun a b : list Z * list Z => bytes_compare a.1 b.1 = Lt) l -> StronglySorted entry_le l) as Hle.
  { intros l Hl. induction Hl as [|x l ? IH Hf]; constructor; [done|]. eapply Forall_impl; [exact Hf|].
    intros y Hy. apply bytes_le_lt. by right. }
  apply merge_sorted; [|by apply sorted_keys_nodup|by apply Hle|by apply Hle].
  apply NoDup_Permutation; [by apply (NoDup_fmap_1 fst), sorted_keys_nodup..|]. intros [k v]. by rewrite Hin, Hin'.
Qed.

Lemma collect_keys es acc :
  (length acc < TRIM_CHUNK)%nat -> visit_all collect_key es acc = acc ++ (take (TRIM_CHUNK - length acc) es).*1.
Proof.
  revert acc. induction es as [|[k v] es IH]; intros acc Hacc; cbn [visit_all].
  { by rewrite take_nil, app_nil_r. }
  unfold collect_key at 1. rewrite length_app. cbn [length].
  destruct (Nat.leb_spec TRIM_CHUNK (length acc + 1)).
  - replace (TRIM_CHUNK - length acc)%nat with 1%nat by lia. done.
  - rewrite IH by (rewrite length_app; cbn [length]; lia). rewrite length_app, <- app_assoc. cbn [length].
    replace (TRIM_CHUNK - length acc)%nat with (S (TRIM_CHUNK - (length acc + 1))) by lia. done.
Qed.

Lemma store_deletes st ns keys n k :
  store_ops st (Delete ns <$> keys) !! (n, k) = if decide (n = ns /\ k ∈ keys) then None else st !! (n, k).
Proof.
  revert st. induction keys as [|x keys IH]; intros st; cbn [fmap list_fmap store_ops fold_left].
  { rewrite decide_False; [done|]. by intros [_ ?%elem_of_nil]. }
  unfold store_ops in IH. rewrite IH. cbn [store_op].
  destruct (decide (n = ns /\ k ∈ keys)) as [[-> Hk]|Hk].
  - rewrite decide_True; [done|]. split; [done|by right].
  - destruct (decide (n = ns /\ k ∈ x :: keys)) as [[-> Hx]|Hx].
    + apply elem_of_cons in Hx as [->|?]; [apply lookup_delete_eq|naive_solver].
    + apply lookup_delete_ne. intros [= <- <-]. apply Hx. split; [done|left].
Qed.

(** Deleting the first entries of a range leaves the others. *)
Lemma scanned_drop st ns lo hi es n :
  scanned st ns lo hi es -> scanned (store_ops st (Delete ns <$> (take n es).*1)) ns lo hi (drop n es).
Proof.
  intros [Hs Hin]. pose proof (sorted_keys_nodup es Hs) as Hnd. rewrite <- (take_drop n es) in Hs, Hnd.
  rewrite fmap_app in Hnd. apply NoDup_app in Hnd as (_ & Hdis & _). split.
  - clear -Hs. induction (take n es) as [|x l IH]; [done|]. apply IH. by apply StronglySorted_inv in Hs as [? _].
  - intros k v. rewrite store_deletes. split.
    + intros Hd. destruct (proj1 (Hin k v)) as [Hst Hr]; [rewrite <- (take_drop n es); apply elem_of_app; by right|].
      split; [|done]. rewrite decide_False; [done|]. intros [_ Hk]. apply (Hdis k Hk).
      by apply (list_elem_of_fmap_2 fst _ (k, v)).
    + intros [Hst Hr]. case_decide as Hd; [done|]. assert (He : (k, v) ∈ es) by by apply Hin.
      rewrite <- (take_drop n es) in He. apply elem_of_app in He as [He|]; [|done]. destruct Hd. split; [done|].
      by apply (list_elem_of_fmap_2 fst _ (k, v)).
Qed.

(** How many entries a namespace has in a range. *)
Definition range_entries (st : store) (ns : string) (lo hi : list Z) : store :=
  filter (fun e => e.1.1 = ns /\ in_range lo hi (e.1.2, e.2) = true) st.
Lemma scanned_size st ns lo hi es : scanned st ns lo hi es -> length es = size (range_entries st ns lo hi).
Proof.
  intros [Hs Hin]. pose proof (sorted_keys_nodup es Hs) as Hnd.
  assert (Heq : range_entries st ns lo hi = list_to_map ((fun e => ((ns, e.1), e.2)) <$> es)).
  { assert (Hnd' : NoDup ((fun e => ((ns, e.1), e.2)) <$> es).*1).
    { rewrite <- list_fmap_compose. rewrite (list_fmap_ext _ (pair ns ∘ fst)) by done.
      rewrite list_fmap_compose. apply NoDup_fmap_2; [|done]. by intros ?? [= ->]. }
    apply map_eq. intros [n k]. apply option_eq. intros v. unfold range_entries.
    rewrite map_lookup_filter_Some, <- elem_of_list_to_map by done. cbn [fst snd]. rewrite list_elem_of_fmap. split.
    - intros (Hst & -> & Hr). exists (k, v). split; [done|]. by apply Hin.
    - intros ([k' v'] & [= -> -> ->] & He). apply Hin in He as [Hst Hr]. done. }
  rewrite Heq, map_size_list_to_map; [by rewrite length_fmap|].
  rewrite <- list_fmap_compose. rewrite (list_fmap_ext _ (pair ns ∘ fst)) by done.
  rewrite list_fmap_compose. apply NoDup_fmap_2; [|done]. by intros ?? [= ->].
Qed.
Definition trimmed_counts (st : store) (lo hi : list Z) (walk : list string) : list (string * Z) :=
  omap (fun ns => let n := Z.of_nat (size (range_entries st ns lo hi)) in if 0 <? n then Some (ns, n) else None) walk.
Definition walk_namespaces (specs : list NamespaceSpec) : list string :=
  omap (fun spec => match key_order spec with WalkOrdered => Some (ns_namespace spec) | _ => None end) specs.

Section Trim.
Context {BSt : Type} (B : Backend BSt) (abs : BSt -> store) `{!BackendSpec B abs} (Hnf : never_fails B).

Lemma trim_namespace_ok fuel ns lo hi : forall b es removed,
  scanned (abs b) ns lo hi es -> (length es < fuel)%nat ->
  exists b', trim_namespace_above B fuel b ns lo hi removed = Some (Ok (removed + Z.of_nat (length es)), b') /\
    abs b' = store_ops (abs b) (Delete ns <$> es.*1).
Proof.
  induction fuel as [|fuel IH]; intros b es removed Hes Hf; [lia|]. cbn [trim_namespace_above].
  destruct (nf_reader B Hnf b) as [r Hb]. rewrite Hb. pose proof (spec_reader _ _ Hb) as Hr.
  destruct (ro_range _ _ Hr ns lo hi) as (l & Hn & ->).
  rewrite (scanned_unique _ _ _ _ _ _ (namespace_scanned _ _ lo hi _ Hn) Hes).
  assert (0 < TRIM_CHUNK)%nat as Hc by (apply Nat.ltb_lt; reflexivity).
  rewrite collect_keys by done. rewrite Nat.sub_0_r. cbn [app].
  destruct es as [|e es]; [rewrite take_nil; exists b; cbn; by rewrite Z.add_0_r|].
  set (keys := (take TRIM_CHUNK (e :: es)).*1).
  assert (exists k ks, keys = k :: ks) as (k & ks & Hk) by (unfold keys; destruct TRIM_CHUNK; [lia|]; eauto).
  rewrite Hk. destruct (nf_writer B Hnf b) as [? ->], (nf_commit B Hnf b (Delete ns <$> k :: ks)) as [b1 Hb1]. rewrite Hb1.
  pose proof (spec_commit _ _ _ Hb1) as Ha. rewrite <- Hk in Ha |- *.
  pose proof (scanned_drop (abs b) ns lo hi (e :: es) TRIM_CHUNK Hes) as Hd. fold keys in Hd. rewrite <- Ha in Hd.
  destruct (IH b1 (drop TRIM_CHUNK (e :: es)) (removed + Z.of_nat (length keys)) Hd) as (b' & Hrun & Ha').
  { rewrite length_drop. cbn [length] in *. lia. }
  exists b'. split.
  - rewrite Hrun. do 3 f_equal. unfold keys. rewrite length_fmap, length_take, length_drop. lia.
  - rewrite Ha', Ha, <- store_ops_app, <- fmap_app. unfold keys. by rewrite <- fmap_app, take_drop.
Qed.

Lemma scanned_exists b ns lo hi : exists es, scanned (abs b) ns lo hi es.
Proof.
  destruct (nf_reader B Hnf b) as [r Hb]. destruct (ro_range _ _ (spec_reader _ _ Hb) ns lo hi) as (l & Hn & _).
  eexists. by apply namespace_scanned.
Qed.
Lemma trim_specs_ok fuel lo hi specs : forall b acc,
  NoDup (walk_namespaces specs) -> (size (abs b) < fuel)%nat ->
  exists b', trim_specs B fuel lo hi specs b acc = Some (Ok (acc ++ trimmed_counts (abs b) lo hi (walk_namespaces specs)), b') /\
    forall n k, abs b' !! (n, k) =
      if decide (n ∈ walk_namespaces specs /\ in_range lo hi (k, []) = true) then None else abs b !! (n, k).
Proof.
  induction specs as [|spec specs IH]; intros b acc Hnd Hf; cbn [trim_specs].
  { exists b. cbn. rewrite app_nil_r. split; [done|]. intros n k. rewrite decide_False; [done|]. by intros [?%elem_of_nil _]. }
  unfold walk_namespaces in *. cbn [omap list_omap] in *. destruct (key_order spec) eqn:Ho; [|by apply IH..].
  fold (walk_namespaces specs) in *. apply NoDup_cons in Hnd as [Hnot Hnd]. set (ns := ns_namespace spec) in *.
  destruct (scanned_exists b ns lo hi) as [es Hes].
  pose proof (scanned_size _ _ _ _ _ Hes) as Hsz.
  assert (Hle : (size (range_entries (abs b) ns lo hi) <= size (abs b))%nat)
    by (apply map_subseteq_size, map_filter_subseteq).
  destruct (trim_namespace_ok fuel ns lo hi b es 0 Hes) as (b1 & -> & Ha1); [lia|].
  assert (Hlook : forall n k, abs b1 !! (n, k) = if decide (n = ns /\ in_range lo hi (k, []) = true) then None else abs b !! (n, k)).
  { intros n k. rewrite Ha1, store_deletes. destruct Hes as [_ Hin].
    destruct (decide (n = ns /\ k ∈ es.*1)) as [[-> Hk]|Hk].
    - apply list_elem_of_fmap in Hk as ([k' v] & -> & [_ Hr]%Hin). by rewrite decide_True.
    - case_decide as Hd; [|done]. destruct Hd as [-> Hr]. destruct (abs b !! (ns, k)) as [v|] eqn:Hv; [|done].
      destruct Hk. split; [done|]. apply (list_elem_of_fmap_2 fst _ (k, v)). by apply Hin. }
  assert (Hsub : abs b1 ⊆ abs b).
  { apply map_subseteq_spec. intros [n k] v. rewrite Hlook. by case_decide. }
  destruct (IH b1 (if 0 <? 0 + Z.of_nat (length es) then acc ++ [(ns, 0 + Z.of_nat (length es))] else acc) Hnd) as (b' & -> & Hb').
  { apply map_subseteq_size in Hsub. lia. }
  exists b'. split.
  - do 3 f_equal. unfold trimmed_counts. cbn [omap list_omap]. rewrite <- Hsz, Z.add_0_l.
    assert (Heq : forall m, m ∈ walk_namespaces specs -> range_entries (abs b1) m lo hi = range_entries (abs b) m lo hi).
    { intros m Hm. apply map_eq. intros [n k]. apply option_eq. intros v. unfold range_entries.
      rewrite !map_lookup_filter_Some, Hlook. cbn [fst snd]. case_decide; [|done].
      split; [by intros [? _]|]. intros (_ & -> & _). naive_solver. }
    assert (Hom : forall l, (forall m, m ∈ l -> range_entries (abs b1) m lo hi = range_entries (abs b) m lo hi) ->
      trimmed_counts (abs b1) lo hi l = trimmed_counts (abs b) lo hi l).
    { clear. induction l as [|m l IH]; intros Hl; [done|]. unfold trimmed_counts in *. cbn [omap list_omap].
      rewrite Hl by left. rewrite IH by (intros; apply Hl; by right). done. }
    fold (trimmed_counts (abs b1) lo hi (walk_namespaces specs)). rewrite (Hom _ Heq).
    fold (trimmed_counts (abs b) lo hi (walk_namespaces specs)).
    destruct (0 <? Z.of_nat (length es)); [by rewrite <- app_assoc|done].
  - intros n k. rewrite Hb', Hlook. repeat case_decide; try done; set_solver.
Qed.
End Trim.

(** ** The height the stamp may name *)

(** Below [top], as far as the window reaches, the heights up to [c] are all held and
    the one above it, if [c] is below [top], is not. *)
Inductive unbroken (held : Z -> Prop) (top n : Z) : Z -> Prop :=
| unbroken_top : (forall h, 0 <= h -> top - n <= h < top -> held h) -> unbroken held top n top
| unbroken_hole g :
    ~ held g -> 0 < g -> top - n <= g < top -> (forall h, 0 <= h -> top - n <= h < g -> held h) ->
    unbroken held top n (g - 1).

Section Headers.
Context (r : BackendReader) (st : store) (Hr : reader_ok r st) (es : list (Z * HeaderValue)).
Context (Hes : holds HeadersIndex headers_wf headers_ID st es).
Definition held_height (h : Z) : Prop := h ∈ es.*1.

Lemma header_held_spec h : uint 64 h -> header_held r h = Ok (bool_decide (held_height h)).
Proof.
  intros Hh. unfold header_held, held_height. destruct (decide (h ∈ es.*1)) as [Hin|Hin].
  - rewrite bool_decide_eq_true_2 by done. apply list_elem_of_fmap in Hin as ([h' v] & -> & Hin).
    cbn [fst]. by rewrite (read_held _ _ _ r st Hr _ Hes _ _ Hin).
  - rewrite bool_decide_eq_false_2 by done.
    rewrite (read_missing _ _ _ r st Hr _ Hes); [done| |done]. by apply height_key_inverts.
Qed.

Lemma find_top_found claimed t : held_height t -> 0 <= t -> forall fuel top searched,
  t <= top < 2 ^ 64 -> (forall h, t < h <= top -> ~ held_height h) -> searched + (top - t) <= MAX_SEARCH ->
  (Z.to_nat (top - t) < fuel)%nat -> find_top fuel r claimed top searched = Some (Ok (t, searched + (top - t))).
Proof.
  intros Ht Ht0. induction fuel as [|fuel IH]; intros top searched Htop Hno Hs Hf; [lia|]. cbn [find_top].
  rewrite header_held_spec by (unfold uint; lia). destruct (decide (t = top)) as [<-|Hne].
  - rewrite bool_decide_eq_true_2 by done. do 3 f_equal. lia.
  - rewrite bool_decide_eq_false_2 by (apply Hno; lia). rewrite (proj2 (Z.leb_le _ _)) by lia.
    unfold Height.height_checked_sub, checked_sub. rewrite (proj2 (Z.leb_le 1 top)) by lia.
    rewrite IH by (lia || (intros; apply Hno; lia)). do 3 f_equal. lia.
Qed.
Lemma find_top_missing claimed : forall fuel top searched,
  0 <= top < 2 ^ 64 -> 0 <= searched <= MAX_SEARCH ->
  (forall h, 0 <= h -> top - (MAX_SEARCH - searched) <= h <= top -> ~ held_height h) ->
  (Z.to_nat top < fuel)%nat -> exists s, find_top fuel r claimed top searched = Some (Err (NoHeaderBelow claimed s)).
Proof.
  induction fuel as [|fuel IH]; intros top searched Htop Hs Hno Hf; [lia|]. cbn [find_top].
  rewrite header_held_spec by (unfold uint; lia). rewrite bool_decide_eq_false_2 by (apply Hno; lia).
  destruct (Z.leb_spec (searched + 1) MAX_SEARCH); [|by eexists].
  unfold Height.height_checked_sub, checked_sub. destruct (Z.leb_spec 1 top); [|by eexists].
  apply IH; [lia|lia| |lia]. intros h Hh Hb. apply Hno; lia.
Qed.

Lemma find_corrected_all claimed searched : forall n probe c,
  0 <= probe < 2 ^ 64 -> (forall h, 0 <= h -> probe - Z.of_nat n <= h < probe -> held_height h) ->
  find_corrected n r claimed searched probe c = Ok c.
Proof.
  induction n as [|n IH]; intros probe c Hp Hall; [done|]. cbn [find_corrected].
  unfold Height.height_checked_sub, checked_sub. destruct (Z.leb_spec 1 probe); [|done].
  rewrite header_held_spec by (unfold uint; lia). rewrite bool_decide_eq_true_2 by (apply Hall; lia).
  apply IH; [lia|]. intros h Hh Hb. apply Hall; lia.
Qed.
Lemma find_corrected_hole claimed searched g : ~ held_height g -> 0 <= g -> forall n probe c,
  g < probe < 2 ^ 64 -> probe - Z.of_nat n <= g -> (forall h, 0 <= h -> probe - Z.of_nat n <= h < g -> held_height h) ->
  find_corrected n r claimed searched probe c =
  if 0 <? g then Ok (g - 1) else Err (NoHeaderBelow claimed searched).
Proof.
  intros Hg Hg0. induction n as [|n IH]; intros probe c Hp Hn Hall; [lia|]. cbn [find_corrected].
  unfold Height.height_checked_sub, checked_sub at 1. rewrite (proj2 (Z.leb_le 1 probe)) by lia.
  rewrite header_held_spec by (unfold uint; lia). destruct (decide (g = probe - 1)) as [->|Hne].
  - rewrite bool_decide_eq_false_2 by done. unfold checked_sub.
    destruct (Z.ltb_spec 0 (probe - 1)), (Z.leb_spec 1 (probe - 1)); try lia; [|done]. cbn [ok_or].
    apply find_corrected_all; [lia|]. intros h Hh Hb. apply Hall; lia.
  - assert (Hall' : forall h, 0 <= h -> probe - 1 - Z.of_nat n <= h < g -> held_height h) by (intros; apply Hall; lia).
    destruct (bool_decide (held_height (probe - 1))); [apply IH; [lia|lia|done]|].
    unfold checked_sub. rewrite (proj2 (Z.leb_le 1 (probe - 1))) by lia. cbn [ok_or]. apply IH; [lia|lia|done].
Qed.
Lemma find_corrected_unbroken claimed searched top c :
  0 <= top < 2 ^ 64 -> unbroken held_height top WINDOW c ->
  find_corrected (Z.to_nat WINDOW) r claimed searched top top = Ok c.
Proof.
  assert (Hw : Z.of_nat (Z.to_nat WINDOW) = WINDOW) by (apply Z2Nat.id; done).
  intros Ht [Hall|g Hg Hg0 Hb Hall].
  - apply find_corrected_all; [done|]. by rewrite Hw.
  - rewrite (find_corrected_hole claimed searched g) by (rewrite ?Hw; (done || lia)).
    by rewrite (proj2 (Z.ltb_lt 0 g)).
Qed.
End Headers.

(** The byte range that is trimmed, as heights. *)
Definition ABOVE : list Z := replicate 8 0xff.
Lemma stale_height c h :
  0 <= c < 2 ^ 64 - 1 -> 0 <= h < 2 ^ 64 - 1 ->
  in_range (to_be_bytes 8 (c + 1)) ABOVE (to_be_bytes 8 h, []) = (c <? h).
Proof.
  intros Hc Hh. change ABOVE with (to_be_bytes 8 (2 ^ 64 - 1)). unfold in_range, bytes_ltb. cbn [fst].
  rewrite !bytes_compare_be by (change (2 ^ (8 * Z.of_nat 8)) with (2 ^ 64); lia).
  rewrite (proj2 (Z.compare_lt_iff h (2 ^ 64 - 1))) by lia.
  destruct (Z.compare_spec h (c + 1)), (Z.ltb_spec c h); try done; lia.
Qed.

Lemma valid_bound w : Height.valid w -> 0 <= w < 2 ^ 31.
Proof. unfold Height.valid. change Height.MAX_HEIGHT with (2 ^ 31 - 1). lia. Qed.

Section Exact.
Context {BSt : Type} (B : Backend BSt) (abs : BSt -> store) `{!BackendSpec B abs} (Hnf : never_fails B).
Context (specs : list NamespaceSpec) (Hnd : NoDup (walk_namespaces specs)).
Context (b : BSt) (w : Z) (Hs : stamped_at (abs b) w) (Hw : Height.valid w).
Context (es : list (Z * HeaderValue)) (Hes : holds HeadersIndex headers_wf headers_ID (abs b) es).
Context (fuel : nat) (Hf : (size (abs b) < fuel)%nat).

(** What the repair leaves, key by key. *)
Lemma repair_lowers t c :
  held_height es t -> 0 <= t <= w -> w - t <= MAX_SEARCH -> (forall h, t < h <= w -> ~ held_height es h) ->
  unbroken (held_height es) t WINDOW c ->
  if decide (c = w) then repair_watermark B specs fuel b = Some (Ok None, b)
  else exists b',
    repair_watermark B specs fuel b =
      Some (Ok (Some (mkRepair w c (trimmed_counts (abs b) (to_be_bytes 8 (c + 1)) ABOVE (walk_namespaces specs)))), b') /\
    stamped_at (abs b') c /\
    forall n k, n <> WATERMARK_NAMESPACE -> abs b' !! (n, k) =
      if decide (n ∈ walk_namespaces specs /\ in_range (to_be_bytes 8 (c + 1)) ABOVE (k, []) = true)
      then None else abs b !! (n, k).
Proof.
  intros Ht Htw Hsearch Hno Hc. pose proof (valid_bound w Hw).
  destruct (nf_reader B Hnf b) as [r Hb]. pose proof (spec_reader _ _ Hb) as Hr.
  unfold repair_watermark. rewrite Hb, (read_stamped r _ w Hr Hs Hw).
  rewrite (find_top_found r (abs b) Hr es Hes w t Ht (proj1 Htw)) by (done || lia).
  rewrite (find_corrected_unbroken r (abs b) Hr es Hes) with (c := c) by (done || lia).
  destruct (decide (c = w)) as [->|Hne]; [by rewrite Z.eqb_refl|]. rewrite (proj2 (Z.eqb_neq _ _) Hne).
  unfold trim_walk_ordered_above.
  destruct (trim_specs_ok B abs Hnf fuel (to_be_bytes 8 (c + 1)) ABOVE specs b [] Hnd Hf) as (b1 & Htrim & Hlook).
  unfold ABOVE in Htrim at 1. rewrite Htrim. cbn [app].
  assert (exists b2, (match trimmed_counts (abs b) (to_be_bytes 8 (c + 1)) ABOVE (walk_namespaces specs) with
    | [] => Ok b1 | _ => b_flush B b1 end) = Ok b2 /\ abs b2 = abs b1) as (b2 & -> & Hb2).
  { destruct (trimmed_counts _ _ _ _); [by exists b1|]. destruct (nf_flush B Hnf b1) as [b2 Hfl]. exists b2.
    split; [done|]. by eapply spec_flush. }
  destruct (nf_writer B Hnf b2) as [? ->], (nf_commit B Hnf b2 [stamp c]) as [b3 Hb3]. rewrite Hb3.
  exists b3. apply spec_commit in Hb3. cbn [store_ops fold_left store_op stamp] in Hb3. rewrite Hb2 in Hb3.
  split; [done|]. split; [unfold stamped_at; rewrite Hb3; apply lookup_insert_eq|].
  intros n k Hn. rewrite Hb3, lookup_insert_ne by congruence. apply Hlook.
Qed.
Lemma repair_finds_none :
  (forall h, 0 <= h -> w - MAX_SEARCH <= h <= w -> ~ held_height es h) ->
  exists s, repair_watermark B specs fuel b = Some (Err (NoHeaderBelow w s), b).
Proof.
  intros Hno. pose proof (valid_bound w Hw). destruct (nf_reader B Hnf b) as [r Hb]. pose proof (spec_reader _ _ Hb) as Hr.
  unfold repair_watermark. rewrite Hb, (read_stamped r _ w Hr Hs Hw).
  destruct (find_top_missing r (abs b) Hr es Hes w (S (Z.to_nat w)) w 0) as [s ->]; [lia|done| |lia|by exists s].
  intros h Hh Hb'. apply Hno; lia.
Qed.
Lemma repair_without_genesis t :
  held_height es t -> 0 < t <= w -> w - t <= MAX_SEARCH -> (forall h, t < h <= w -> ~ held_height es h) ->
  t <= WINDOW -> ~ held_height es 0 -> exists s, repair_watermark B specs fuel b = Some (Err (NoHeaderBelow w s), b).
Proof.
  intros Ht Htw Hsearch Hno Hwin H0. pose proof (valid_bound w Hw).
  destruct (nf_reader B Hnf b) as [r Hb]. pose proof (spec_reader _ _ Hb) as Hr.
  unfold repair_watermark. rewrite Hb, (read_stamped r _ w Hr Hs Hw).
  rewrite (find_top_found r (abs b) Hr es Hes w t Ht) by (done || lia).
  assert (Hw' : Z.of_nat (Z.to_nat WINDOW) = WINDOW) by (apply Z2Nat.id; done).
  rewrite (find_corrected_hole r (abs b) Hr es Hes w _ 0) by (rewrite ?Hw'; (done || lia)). by eexists.
Qed.
End Exact.

(** The watermark repair.  Let the stamp claim [w] over a headers index whose
    highest held height at or below [w] is [t], no further below than the search
    reaches, and let [c] be the top of the unbroken run under [t] within the window.
    If [c] is [w] nothing changes.  Otherwise the repair answers [c]; the stamp then
    reads [c]; in every height-keyed namespace exactly the entries above [c] are gone,
    counted per namespace; every other namespace is as it was.  If no header is
    within the search's reach, or the window reaches a missing genesis, it reports so
    and changes nothing.  Fuel for one turn per stored entry is enough. *)
Theorem repair_watermark_exact {BSt} (B : Backend BSt) abs `{!BackendSpec B abs} specs b w es fuel :
  never_fails B -> NoDup (walk_namespaces specs) -> WATERMARK_NAMESPACE ∉ walk_namespaces specs ->
  stamped_at (abs b) w -> Height.valid w -> holds HeadersIndex headers_wf headers_ID (abs b) es ->
  (size (abs b) < fuel)%nat ->
  let held := held_height es in
  (forall t c, held t -> 0 <= t <= w -> w - t <= MAX_SEARCH -> (forall h, t < h <= w -> ~ held h) ->
     unbroken held t WINDOW c ->
     if decide (c = w) then repair_watermark B specs fuel b = Some (Ok None, b)
     else exists b',
       repair_watermark B specs fuel b =
         Some (Ok (Some (mkRepair w c (trimmed_counts (abs b) (to_be_bytes 8 (c + 1)) ABOVE (walk_namespaces specs)))), b') /\
       stamped_at (abs b') c /\
       (forall ns h, ns ∈ walk_namespaces specs -> 0 <= h < 2 ^ 64 - 1 ->
          abs b' !! (ns, to_be_bytes 8 h) = if c <? h then None else abs b !! (ns, to_be_bytes 8 h)) /\
       (forall ns k, ns ∉ walk_namespaces specs -> ns <> WATERMARK_NAMESPACE -> abs b' !! (ns, k) = abs b !! (ns, k))) /\
  ((forall h, 0 <= h -> w - MAX_SEARCH <= h <= w -> ~ held h) ->
     exists s, repair_watermark B specs fuel b = Some (Err (NoHeaderBelow w s), b)) /\
  (forall t, held t -> 0 < t <= w -> w - t <= MAX_SEARCH -> (forall h, t < h <= w -> ~ held h) ->
     t <= WINDOW -> ~ held 0 -> exists s, repair_watermark B specs fuel b = Some (Err (NoHeaderBelow w s), b)).
Proof.
  intros Hnf Hnd Hwm Hs Hw Hes Hf held. split_and!.
  - intros t c Ht Htw Hsearch Hno Hc. pose proof (valid_bound w Hw). assert (Hct : 0 <= c <= t) by (destruct Hc; lia).
    pose proof (repair_lowers B abs Hnf specs Hnd b w Hs Hw es Hes fuel Hf t c Ht Htw Hsearch Hno Hc) as Hl.
    destruct (decide (c = w)) as [->|Hne]; [done|]. destruct Hl as (b' & Hrun & Hst & Hlook).
    exists b'. split_and!; [done|done|..].
    + intros ns h Hns Hh. rewrite Hlook, stale_height by (congruence || lia).
      destruct (c <? h); [by rewrite decide_True|]. rewrite decide_False; [done|]. by intros [_ ?].
    + intros ns k Hns Hne'. rewrite Hlook, decide_False by (done || by intros [? _]). done.
  - by apply (repair_finds_none B abs Hnf specs b w Hs Hw es Hes).
  - intros t. by apply (repair_without_genesis B abs Hnf specs b w Hs Hw es Hes).
Qed.

(** ** A store the indexer built *)
Definition same_but_watermark (st st' : store) : Prop :=
  forall n k, n <> WATERMARK_NAMESPACE -> st' !! (n, k) = st !! (n, k).
Lemma holds_same C wf ns st st' es :
  same_but_watermark st st' -> ns <> WATERMARK_NAMESPACE -> holds C wf ns st es -> holds C wf ns st' es.
Proof.
  intros Hsame Hns [(Hwf & Hnd & Hin) Hv]. split; [split_and!; [done|done|]|].
  - intros kb vb. by rewrite Hsame.
  - unfold versioned in *. by rewrite Hsame.
Qed.
Lemma compact_indexed_same st st' cs : same_but_watermark st st' -> compact_indexed st cs -> compact_indexed st' cs.
Proof.
  intros Hsame Hst.
  assert (H : forall C wf ns es, ns <> WATERMARK_NAMESPACE -> holds C wf ns st es -> holds C wf ns st' es)
    by (intros; by eapply holds_same).
  refine (Build_compact_indexed _ _ (H _ _ _ _ _ (ci_headers _ _ Hst)) (H _ _ _ _ _ (ci_txids _ _ Hst))
    (H _ _ _ _ _ (ci_hashes _ _ Hst)) (H _ _ _ _ _ (ci_transparent _ _ Hst)) (H _ _ _ _ _ (ci_sapling _ _ Hst))
    (H _ _ _ _ _ (ci_orchard _ _ Hst)) (H _ _ _ _ _ (ci_ironwood _ _ Hst)) _); try done.
  destruct (ci_metadata _ _ Hst) as (ds & m & Hs & Hh). exists ds, m. split; [done|]. by apply H.
Qed.

Lemma metadata_heights cs m ds m' :
  series ChainMetadataIndex chain_metadata_append m (chain_metadata_context <$> cs) = Ok (ds, m') ->
  cme_height <$> ds = z_height <$> cs.
Proof.
  revert m ds m'. induction cs as [|c cs IH]; intros m ds m'; cbn [fmap list_fmap series]; [by intros [= <- <-]|].
  cbn [ca_extract chain_metadata_append].
  destruct (chain_metadata_extract (chain_metadata_context c) m) as [d|] eqn:Hd; [|done].
  destruct (series _ _ _ _) as [[ds1 m1]|] eqn:Hs; [|done]. intros [= <- <-]. cbn [fmap list_fmap]. f_equal; [|by eapply IH].
  unfold chain_metadata_extract in Hd. repeat (case_match; try done). by injection Hd as <-.
Qed.

Section Built.
Context (st : store) (chain : list Block) (cs : list CurrentZainoContext).
Context (Hcs : chain_contexts chain cs) (Hst : compact_indexed st cs).
Let tip : Z := Z.of_nat (length chain) - 1.

Lemma headers_held h : held_height (header_entries cs) h <-> 0 <= h <= tip.
Proof.
  unfold held_height, tip. split.
  - intros (i & -> & Hi)%(header_entries_heights chain cs Hcs). lia.
  - intros Hh. destruct (lookup_lt_is_Some_2 chain (Z.to_nat h)) as [b Hb]; [lia|].
    destruct (context_at chain cs Hcs _ b Hb) as (c & Hc & _ & Hz). rewrite Z2Nat.id in Hz by lia.
    unfold header_entries. rewrite (entries_map _ _ headers_schema (fun e => (he_height e, he_value e))) by done.
    rewrite <- list_fmap_compose, <- Hz. apply (list_elem_of_fmap_2 (fun c => z_height c)).
    by eapply list_elem_of_lookup_2.
Qed.
(** No height-keyed index has an entry above the tip. *)
Lemma walk_entries ns k v :
  ns ∈ walk_namespaces compact_blocks_specs -> st !! (ns, k) = Some v -> exists h, 0 <= h <= tip /\ k = to_be_bytes 8 h.
Proof.
  assert (Hkey : forall C wf ns (es : list (Key C * Value C)) (height : Key C -> Z),
    holds C wf ns st es -> (forall k, encode_key C k = to_be_bytes 8 (height k)) ->
    (forall k, k ∈ es.*1 -> 0 <= height k <= tip) -> forall k v, st !! (ns, k) = Some v -> exists h, 0 <= h <= tip /\ k = to_be_bytes 8 h).
  { intros C wf ns' es height [(_ & _ & Hin) _] Henc Hb k' v' Hl. apply Hin in Hl as (e & He & -> & _).
    exists (height e.1). split; [|apply Henc]. apply Hb. by apply list_elem_of_fmap_2. }
  assert (Hz : forall c, c ∈ cs -> 0 <= z_height c <= tip).
  { intros c [i Hi]%list_elem_of_lookup. destruct (block_of chain cs Hcs i c Hi) as (b & Hb & Hbc).
    destruct (context_at chain cs Hcs i b Hb) as (c' & Hc' & _ & Hh). assert (c' = c) as -> by congruence.
    apply lookup_lt_Some in Hb. unfold tip. lia. }
  assert (Hlocal : forall A D (extract : A -> result D Infallible) context C (schema : Schema C (list D)) wf ns (key : D -> Key C) val
      (height : Key C -> Z),
    holds C wf ns st (entries_of extract context schema cs) ->
    (forall ds, into_entries schema ds = (fun d => (key d, val d)) <$> ds) ->
    (forall k, encode_key C k = to_be_bytes 8 (height k)) ->
    (forall c, height (key (extracted extract (context c))) = z_height c) ->
    forall k v, st !! (ns, k) = Some v -> exists h, 0 <= h <= tip /\ k = to_be_bytes 8 h).
  { intros A D extract context C schema wf ns' key val height Hh Hs Henc Hc. apply (Hkey C wf ns' _ height Hh Henc).
    intros k'. rewrite (entries_map _ _ _ _ _ Hs), <- list_fmap_compose. intros (c & -> & Hin)%list_elem_of_fmap.
    cbn. rewrite Hc. by apply Hz. }
  intros Hns.
  change (walk_namespaces compact_blocks_specs) with
    [headers_ID; txids_ID; transparent_data_ID; sapling_ID; orchard_ID; ironwood_ID; chain_metadata_ID] in Hns.
  rewrite !elem_of_cons, elem_of_nil in Hns. destruct Hns as [->|[->|[->|[->|[->|[->|[->|[]]]]]]]].
  - by apply (Hlocal _ _ _ _ HeadersIndex _ _ _ he_height he_value (fun k => k) (ci_headers _ _ Hst)).
  - by apply (Hlocal _ _ _ _ TxidsIndex _ _ _ te_height te_txids (fun k => k) (ci_txids _ _ Hst)).
  - by apply (Hlocal _ _ _ _ TransparentDataIndex _ _ _ tde_height tde_value (fun k => k) (ci_transparent _ _ Hst)).
  - by apply (Hlocal _ _ _ _ SaplingIndex _ _ _ sxe_height sxe_value (fun k => k) (ci_sapling _ _ Hst)).
  - by apply (Hlocal _ _ _ _ OrchardIndex _ _ _ oxe_height oxe_value (fun k => k) (ci_orchard _ _ Hst)).
  - by apply (Hlocal _ _ _ _ IronwoodIndex _ _ _ ixe_height ixe_value (fun k => k) (ci_ironwood _ _ Hst)).
  - destruct (ci_metadata _ _ Hst) as (ds & m & Hs & Hh). apply (Hkey ChainMetadataIndex _ _ _ (fun k => k) Hh); [done|].
    assert (Hk : (into_entries chain_metadata_schema ds).*1 = z_height <$> cs).
    { rewrite <- (metadata_heights _ _ _ _ Hs). cbn [into_entries chain_metadata_schema]. by rewrite <- list_fmap_compose. }
    intros k'. rewrite Hk. intros (c & -> & Hin)%list_elem_of_fmap. by apply Hz.
Qed.

(** The repair of a stamp at or above the tip. *)
Lemma stale_nothing ns k : ns ∈ walk_namespaces compact_blocks_specs -> Z.of_nat (length chain) <= 2 ^ 31 ->
  in_range (to_be_bytes 8 (tip + 1)) ABOVE (k, []) = true -> st !! (ns, k) = None.
Proof.
  intros Hns Hlen Hr. destruct (st !! (ns, k)) as [v|] eqn:Hv; [|done].
  destruct (walk_entries ns k v Hns Hv) as (h & Hh & ->). unfold tip in *.
  rewrite stale_height in Hr by lia. apply Z.ltb_lt in Hr. lia.
Qed.
End Built.

(** ** Coverage *)
Definition stamped_index (st : store) (ns : string) : bool :=
  match st !! (VERSION_META, string_bytes ns) with Some bytes => blen bytes =? 8 | None => false end.
(** A declared index the guard counts as never built. *)
Definition lacks_stamp (r : BackendReader) (st : store) (ns : string) : bool :=
  match r_is_complete r ns with Ok true => negb (stamped_index st ns) | _ => false end.
Lemma unstamped_exact r st indexes :
  reader_ok r st -> (forall i, i ∈ indexes -> exists c, r_is_complete r i = Ok c) ->
  unstamped_indexes r indexes = Ok (filter (fun i => lacks_stamp r st i = true) indexes).
Proof.
  intros Hr. induction indexes as [|i indexes IH]; intros Hc; [done|]. cbn [unstamped_indexes]. rewrite filter_cons.
  destruct (Hc i) as [c Hi]; [left|]. rewrite Hi. cbn [map_err]. rewrite IH by (intros; apply Hc; by right).
  assert (Hl : lacks_stamp r st i = if c then negb (stamped_index st i) else false) by (unfold lacks_stamp; by rewrite Hi).
  destruct (decide (lacks_stamp r st i = true)) as [Ht|Ht]; rewrite Hl in Ht; destruct c; try done; cbn [negb];
    unfold recorded_version, stamped_index in *; rewrite (ro_get _ _ Hr); cbn [map_err];
    destruct (st !! (VERSION_META, string_bytes i)) as [bytes|]; try destruct (blen bytes =? 8); done.
Qed.
Lemma versioned_stamped C ns st : versioned C ns st -> stamped_index st ns = true.
Proof. unfold versioned, stamped_index. intros ->. by rewrite blen_le. Qed.

(** The coverage guard.  A store opens exactly when it has no watermark or every
    declared index whose namespace is complete bears a format stamp; otherwise the
    refusal names the watermark and, in declaration order, exactly the unstamped ones. *)
Theorem check_index_coverage_exact {BSt} (B : Backend BSt) abs `{!BackendSpec B abs} b r indexes :
  b_reader B b = Ok r -> (forall i, i ∈ indexes -> exists c, r_is_complete r i = Ok c) ->
  let unstamped := filter (fun i => lacks_stamp r (abs b) i = true) indexes in
  (read_watermark r = Ok None -> check_index_coverage B b indexes = Ok tt) /\
  (forall w, read_watermark r = Ok (Some w) ->
     check_index_coverage B b indexes = match unstamped with [] => Ok tt | _ => Err (Incomplete w unstamped) end).
Proof.
  intros Hb Hc unstamped. pose proof (spec_reader _ _ Hb) as Hr. unfold check_index_coverage. rewrite Hb. cbn [map_err].
  split; [intros -> |intros w ->; cbn [map_err]; rewrite (unstamped_exact r (abs b) indexes Hr Hc)]; done.
Qed.

Lemma compact_stamped st cs i : compact_indexed st cs -> i ∈ compact_blocks_indexes -> stamped_index st i = true.
Proof.
  intros Hst Hi. unfold compact_blocks_indexes in Hi. rewrite !elem_of_cons, elem_of_nil in Hi.
  destruct (ci_metadata _ _ Hst) as (ds & m & _ & [_ Hm]).
  destruct Hi as [->|[->|[->|[->|[->|[->|[->|[->|[]]]]]]]]]; eapply versioned_stamped.
  - apply (ci_headers _ _ Hst).
  - apply (ci_txids _ _ Hst).
  - apply (ci_hashes _ _ Hst).
  - apply (ci_transparent _ _ Hst).
  - apply (ci_sapling _ _ Hst).
  - apply (ci_orchard _ _ Hst).
  - apply (ci_ironwood _ _ Hst).
  - exact Hm.
Qed.

(** C27: booting a store the indexer built.  Let a store hold the compact-block indexes
    of a chain and a stamp at the tip or, corrupted, up to the search's reach above it.
    The repair then answers, leaves the stamp at the tip and everything else as it
    was, and the store passes the coverage guard: it serves the chain, no height of
    which is reported that it does not hold. *)
Theorem indexed_store_boots {BSt} (B : Backend BSt) abs `{!BackendSpec B abs} b w chain cs fuel :
  never_fails B -> (forall b r i, b_reader B b = Ok r -> exists c, r_is_complete r i = Ok c) ->
  chain_contexts chain cs -> compact_indexed (abs b) cs -> chain <> [] ->
  stamped_at (abs b) w -> Height.valid w ->
  let tip := Z.of_nat (length chain) - 1 in
  tip <= w <= tip + MAX_SEARCH -> (size (abs b) < fuel)%nat ->
  exists repaired b',
    repair_watermark B compact_blocks_specs fuel b = Some (Ok repaired, b') /\
    stamped_at (abs b') tip /\ same_but_watermark (abs b) (abs b') /\
    check_index_coverage B b' compact_blocks_indexes = Ok tt /\
    forall h, Height.valid h -> compact_block B b' (AtHeight h) = Ok (served chain (Z.to_nat h)).
Proof.
  intros Hnf Hcomp Hcs Hst Hne Hs Hw tip Htip Hf. pose proof (valid_bound w Hw).
  assert (Hlen : (0 < length chain)%nat) by (destruct chain; [done|cbn; lia]).
  pose proof (headers_held chain cs Hcs) as Hheld. fold tip in Hheld.
  assert (exists repaired b', repair_watermark B compact_blocks_specs fuel b = Some (Ok repaired, b') /\
    stamped_at (abs b') tip /\ same_but_watermark (abs b) (abs b')) as (repaired & b' & Hrun & Hst' & Hsame).
  { pose proof (repair_lowers B abs Hnf compact_blocks_specs ltac:(apply (bool_decide_unpack _); reflexivity) b w Hs Hw
      (header_entries cs) (ci_headers _ _ Hst) fuel Hf tip tip) as Hl.
    assert (Hrun : unbroken (held_height (header_entries cs)) tip WINDOW tip)
      by (apply unbroken_top; intros h H0 Hb; apply Hheld; lia).
    specialize (Hl (proj2 (Hheld tip) ltac:(lia)) ltac:(lia) ltac:(lia) ltac:(intros h Hh ?%Hheld; lia) Hrun). clear Hrun.
    destruct (decide (tip = w)) as [Heq|_]; [exists None, b; rewrite Heq; by split_and!|].
    destruct Hl as (b' & Hrun & Hst' & Hlook). eexists _, b'. split_and!; [exact Hrun|done|].
    intros n k Hn. rewrite Hlook by done. case_decide as Hd; [|done]. destruct Hd as [Hns Hr].
    symmetry. eapply (stale_nothing (abs b) chain cs Hcs Hst); [done|lia|exact Hr]. }
  exists repaired, b'. split_and!; [done|done|done|..].
  - destruct (nf_reader B Hnf b') as [r Hb]. unfold check_index_coverage. rewrite Hb. cbn [map_err].
    pose proof (spec_reader _ _ Hb) as Hr. rewrite (read_stamped r _ tip Hr Hst') by
      (change Height.MAX_HEIGHT with (2 ^ 31 - 1); lia). cbn [map_err].
    rewrite (unstamped_exact r (abs b') _ Hr) by (intros; eauto).
    assert (Hc' : compact_indexed (abs b') cs) by by eapply compact_indexed_same.
    assert (Hnil : filter (fun i => lacks_stamp r (abs b') i = true) compact_blocks_indexes = []).
    { apply elem_of_nil_inv. intros i [Hi Hin]%list_elem_of_filter. unfold lacks_stamp in Hi.
      rewrite (compact_stamped _ _ _ Hc' Hin) in Hi. by destruct (r_is_complete r i) as [[]|]. }
    by rewrite Hnil.
  - intros h Hh. destruct (nf_reader B Hnf b') as [r Hb]. unfold compact_block, open. rewrite Hb. cbn [map_err].
    pose proof (valid_bound h Hh). eapply read_compact_block_served; [exact Hcs|exact (spec_reader _ _ Hb)| |unfold uint; lia].
    by eapply compact_indexed_same.
Qed.

(** ** Two blocks under a stamp at height 5 *)
Module Example.
Import StoreCorrect.Example.
Local Existing Instance canonical_iter.

Lemma in_memory_never_fails : never_fails in_memory.
Proof. split; cbn; unfold mem_commit; eauto. Qed.
Definition corrupt : Data := mem_op committed (stamp 5).
Lemma corrupt_same : same_but_watermark (data_abs committed) (data_abs corrupt).
Proof.
  intros n k Hn. unfold corrupt. rewrite mem_op_abs. cbn [stamp store_op]. apply lookup_insert_ne. congruence.
Qed.
Lemma corrupt_indexed : compact_indexed (data_abs corrupt) (mjoin css).
Proof.
  apply (compact_indexed_same _ _ _ corrupt_same).
  rewrite (commits_abs in_memory data_abs Kv.new log committed (mem_commits Kv.new log)).
  exact (indexing_holds css log sizes2 (data_abs Kv.new) [b0; b1] (fun ns kb _ => eq_refl) contexts oks
     hashes ltac:(discriminate) indexed_log).
Qed.
Lemma corrupt_stamp : stamped_at (data_abs corrupt) 5.
Proof. unfold stamped_at, corrupt. rewrite mem_op_abs. apply lookup_insert_eq. Qed.
Lemma corrupt_size : (size (data_abs corrupt) < 100)%nat.
Proof. apply Nat.ltb_lt. vm_compute. reflexivity. Qed.

Lemma indexed_store_boots_witness :
  exists repaired b', repair_watermark in_memory compact_blocks_specs 100 corrupt = Some (Ok repaired, b') /\
    stamped_at (data_abs b') 1 /\ same_but_watermark (data_abs corrupt) (data_abs b') /\
    check_index_coverage in_memory b' compact_blocks_indexes = Ok tt /\
    forall h, Height.valid h -> compact_block in_memory b' (AtHeight h) = Ok (served [b0; b1] (Z.to_nat h)).
Proof.
  apply (indexed_store_boots in_memory data_abs corrupt 5 [b0; b1] (mjoin css) 100 in_memory_never_fails).
  - intros b r i [= <-]. exists true. reflexivity.
  - exact contexts.
  - exact corrupt_indexed.
  - discriminate.
  - exact corrupt_stamp.
  - split; discriminate.
  - split; discriminate.
  - exact corrupt_size.
Defined.

Lemma corrupt_heights h : held_height (header_entries (mjoin css)) h <-> 0 <= h <= 1.
Proof. exact (headers_held [b0; b1] (mjoin css) contexts h). Qed.
Lemma repair_watermark_exact_witness :
  exists b', repair_watermark in_memory compact_blocks_specs 100 corrupt = Some (Ok (Some (mkRepair 5 1 [])), b') /\
    stamped_at (data_abs b') 1.
Proof.
  destruct (repair_watermark_exact in_memory data_abs compact_blocks_specs corrupt 5 (header_entries (mjoin css)) 100)
    as [Hfix _].
  - exact in_memory_never_fails.
  - apply (bool_decide_unpack _). reflexivity.
  - apply (bool_decide_unpack _). reflexivity.
  - exact corrupt_stamp.
  - split; discriminate.
  - exact (ci_headers _ _ corrupt_indexed).
  - exact corrupt_size.
  - assert (Hc : trimmed_counts (data_abs corrupt) (to_be_bytes 8 (1 + 1)) ABOVE (walk_namespaces compact_blocks_specs) = [])
      by (vm_compute; reflexivity).
    destruct (Hfix 1 1) as (b' & Hrun & Hst & _).
    + apply corrupt_heights. split; discriminate.
    + split; discriminate.
    + discriminate.
    + intros h Hh Hheld%corrupt_heights. lia.
    + apply unbroken_top. intros h H0 Hb. apply corrupt_heights. lia.
    + rewrite Hc in Hrun. exists b'. split; [exact Hrun|exact Hst].
Defined.
Lemma check_index_coverage_exact_witness :
  check_index_coverage in_memory committed [headers_ID; address_history_ID] = Err (Incomplete 1 [address_history_ID]).
Proof.
  destruct (check_index_coverage_exact in_memory data_abs committed (mem_reader committed) [headers_ID; address_history_ID])
    as [_ Hw].
  - reflexivity.
  - intros i _. exists true. reflexivity.
  - assert (Hl : filter (fun i => lacks_stamp (mem_reader committed) (data_abs committed) i = true)
      [headers_ID; address_history_ID] = [address_history_ID]) by (vm_compute; reflexivity).
    rewrite Hl in Hw. apply (Hw 1). vm_compute. reflexivity.
Defined.
End Example.
End RepairCorrect.
