(* ===== verification/Head.v ===== *)
(** * The chain head as a provider ([packages/zaino-chain-head-service/src/{serve,spend,address,
    transaction_location}.rs])

    The reads of a published window: compact blocks, headers, spends, receives and
    transaction locations, computed from its best chain on every call. *)

From S2P Require Import Prelude Primitives Types Persistence ChainGraph Codec Indexes IndexSet Store Address.
From stdpp Require Import base gmap list strings sorting.
From Stdlib Require Import Lia.
Open Scope Z_scope.

(** ** What a tier serves

    The ports of [packages/zaino-service/src/reads.rs] through which the composer names
    both sides of the seam, as records of operations of a pinned snapshot. *)
Module Ports.
Import Store Address.

Record ChainTier := mkTier {
  pinned_tip : option BlockRef;
  coverage : option HeightRange;
  compact_block : BlockSelector -> result (option CompactBlock) StoreError;
  header_at : Height -> result (option HeaderSummary) StoreError }.
Record SpendRead := mkSpendRead {
  spend_status : Outpoint -> result SpendAnswer StoreError;
  spend_info : Outpoint -> result (option TransparentSpend) StoreError }.

(** [transparent_receive.rs] *)
Record TransparentReceive := mkTransparentReceive {
  tr_txid : TransactionId; tr_output_index : Z; tr_script : list Z; tr_value : Z; tr_height : Height;
  tr_block_index : Z }.
Definition into_utxo {TA} (r : TransparentReceive) (address : TA) : Utxo :=
  mkUtxo address (tr_txid r) (tr_output_index r) (tr_script r) (tr_value r) (tr_height r).
Record AddressReceiveRead (TA : Type) := mkReceiveRead {
  receives : TA -> HeightRange -> result (list TransparentReceive) (AddressReadError (TransparentAddress := TA));
  spends : list Outpoint -> HeightRange -> result (list TransparentSpend) (AddressReadError (TransparentAddress := TA)) }.
Arguments receives {TA} a.
Arguments spends {TA} a.

(** A read that charges a budget. *)
Abbreviation charged TA A :=
  (ReadBudget -> result A (AddressReadError (TransparentAddress := TA)) * ReadBudget) (only parsing).
Record AddressRead (TA : Type) := mkAddressRead {
  balance : TA -> HeightRange -> charged TA AddressBalance;
  unspent_outpoints : TA -> charged TA (list (Utxo (TransparentAddress := TA)));
  deltas : TA -> HeightRange -> charged TA (list (AddressDelta (TransparentAddress := TA)));
  tx_ids : TA -> HeightRange -> charged TA (list (option Z * option Z * TransactionId)) }.
Arguments balance {TA} a.
Arguments unspent_outpoints {TA} a.
Arguments deltas {TA} a.
Arguments tx_ids {TA} a.
End Ports.

Module Head.
Import ChainGraph Indexes IndexSet Store Address.

(** ** [serve.rs] *)
Section Serve.
Context `{HashIter}.

Definition to_compact (block : ChainHeadBlock) : CompactBlock :=
  from_pre_index (pre_index_block (chb_block block)) (from_tree_roots (tree_roots block)).

Definition head_pinned_tip (g : MapBackedSnapshot) : option BlockRef := Some (best_tip g).
Definition head_coverage (g : MapBackedSnapshot) : option HeightRange :=
  let end_ := br_height (best_tip g) in
  let start := match head (best_chain g) with Some b => height b | None => end_ end in
  Some (mkHeightRange start end_).
Definition head_compact_block (g : MapBackedSnapshot) (at_ : BlockSelector) : result (option CompactBlock) StoreError :=
  Ok match at_ with
     | AtHeight h => to_compact <$> best_block_by_height g h
     | AtHash hash =>
         let! block := block_by_hash g hash in
         if is_on_best_chain g (reference block) then Some (to_compact block) else None
     end.
Definition head_stream_compact (g : MapBackedSnapshot) (range : HeightRange) : list (result CompactBlock StoreError) :=
  omap (fun h => let! h := ok (Height.try_from h) in
                 let! block := best_block_by_height g h in Some (Ok (to_compact block)))
    (seqZ (range_start range) (range_end range - range_start range + 1)).
Definition head_header (g : MapBackedSnapshot) (h : Height) : result (option HeaderSummary) StoreError :=
  Ok (let! block := best_block_by_height g h in
      Some (mkHeaderSummary (br_hash (reference block)) (h_time (header (chb_block block))))).
Definition head_tier (g : MapBackedSnapshot) : Ports.ChainTier :=
  Ports.mkTier (head_pinned_tip g) (head_coverage g) (head_compact_block g) (head_header g).
End Serve.

(** ** [spend.rs] *)
Definition block_transactions (block : ChainHeadBlock) : list Transaction := transactions (chb_block block).
Definition input_consumes (o : Outpoint) (input : TransparentInput) : bool :=
  bool_decide (prev_txid input = o.1) && (prev_index input =? o.2).
Definition tx_spends (tx : Transaction) (o : Outpoint) : bool := existsb (input_consumes o) (inputs (transparent tx)).
Definition tx_creates (tx : Transaction) (o : Outpoint) : bool :=
  if negb (bool_decide (txid tx = o.1)) then false
  else o.2 <? Z.of_nat (length (outputs (transparent tx))).
(** Positions as [u32]: a transaction past the range is skipped. *)
Definition enumerated (txs : list Transaction) : list (Z * Transaction) :=
  omap (fun '(index, tx) => let! index := try_narrow 32 (Z.of_nat index) in Some (index, tx)) (imap pair txs).
Definition spend_of (tx : Transaction) (o : Outpoint) (height block_index : Z) : option TransparentSpend :=
  let! index := position (input_consumes o) (inputs (transparent tx)) in
  let! input_index := try_narrow 32 (Z.of_nat index) in
  Some (mkTransparentSpend o (txid tx) input_index height block_index).

(** The walk of [spend_status]: the spender, or whether a transaction created it. *)
Fixpoint status_in (o : Outpoint) (txs : list Transaction) (created : bool) : TransactionId + bool :=
  match txs with
  | [] => inr created
  | tx :: txs => if tx_spends tx o then inl (txid tx) else status_in o txs (created || tx_creates tx o)
  end.
Fixpoint status_over (o : Outpoint) (blocks : list ChainHeadBlock) (created : bool) : TransactionId + bool :=
  match blocks with
  | [] => inr created
  | block :: blocks =>
      match status_in o (block_transactions block) created with
      | inl by_ => inl by_
      | inr created => status_over o blocks created
      end
  end.
(** The first [Some] of a walk. *)
Fixpoint find_map {A B} (f : A -> option B) (l : list A) : option B :=
  match l with
  | [] => None
  | a :: l => match f a with Some b => Some b | None => find_map f l end
  end.
Section Spend.
Context `{HashIter}.
Definition head_spend_status (g : MapBackedSnapshot) (o : Outpoint) : result SpendAnswer StoreError :=
  Ok match status_over o (best_chain g) false with
     | inl by_ => Spent by_
     | inr true => Unspent
     | inr false => NoSuchOutput
     end.
Definition head_spend_info (g : MapBackedSnapshot) (o : Outpoint) : result (option TransparentSpend) StoreError :=
  Ok (find_map (fun block =>
        find_map (fun '(block_index, tx) => spend_of tx o (height block) block_index)
          (enumerated (block_transactions block))) (best_chain g)).
Definition head_spends (g : MapBackedSnapshot) : Ports.SpendRead :=
  Ports.mkSpendRead (head_spend_status g) (head_spend_info g).
End Spend.

(** ** [address.rs] *)
Section Address.
Context `{HashIter} {TransparentAddress : Type} (parse : TransparentAddress -> option ParsedAddress).
Notation AddressReadError := (AddressReadError (TransparentAddress := TransparentAddress)).

Definition paid_outputs (tx : Transaction) (addr : TransparentAddress) (height block_index : Z)
    : list Ports.TransparentReceive :=
  omap (fun '(index, output) =>
          let! output_index := try_narrow 32 (Z.of_nat index) in
          Some (Ports.mkTransparentReceive (txid tx) output_index (out_script output) (out_value output) height block_index))
    (List.filter (fun '(_, output) => script_pays parse (out_script output) addr)
       (imap pair (outputs (transparent tx)))).
Definition consumed (tx : Transaction) (outpoints : list Outpoint) (height block_index : Z) : list TransparentSpend :=
  omap (fun '(index, input) =>
          let! outpoint := List.find (fun o => input_consumes o input) outpoints in
          let! input_index := try_narrow 32 (Z.of_nat index) in
          Some (mkTransparentSpend outpoint (txid tx) input_index height block_index))
    (imap pair (inputs (transparent tx))).
(** The shared walk: the blocks of the range, their transactions in order. *)
Definition window_walk {A} (g : MapBackedSnapshot) (range : HeightRange) (f : Transaction -> Z -> Z -> list A) : list A :=
  mjoin ((fun block =>
            if negb (covers range (height block)) then []
            else mjoin ((fun '(block_index, tx) => f tx (height block) block_index)
                          <$> enumerated (block_transactions block))) <$> best_chain g).
Definition head_receives (g : MapBackedSnapshot) (addr : TransparentAddress) (range : HeightRange)
    : result (list Ports.TransparentReceive) AddressReadError :=
  Ok (window_walk g range (fun tx height block_index => paid_outputs tx addr height block_index)).
Definition head_spends_of (g : MapBackedSnapshot) (outpoints : list Outpoint) (range : HeightRange)
    : result (list TransparentSpend) AddressReadError :=
  Ok (window_walk g range (fun tx height block_index => consumed tx outpoints height block_index)).
Definition head_receive_read (g : MapBackedSnapshot) : Ports.AddressReceiveRead TransparentAddress :=
  Ports.mkReceiveRead TransparentAddress (head_receives g) (head_spends_of g).
End Address.

(** ** [transaction_location.rs] *)
Definition head_transaction_location `{HashIter} (g : MapBackedSnapshot) (id : TransactionId)
    : result (option TransactionLocationAnswer) StoreError :=
  let locations := transaction_locations g id in
  Ok match best_chain_position locations with
     | Some position => Some (BestChain (br_height (pos_block position)))
     | None => if bool_decide (non_best_chain locations = []) then None else Some NonBestChain
     end.
End Head.
