(* ===== verification/View.v ===== *)
(** * The composed view and the local reads of the engine
    ([packages/zaino-core/src/{chain_view,chain_view/snapshot,nullifiers}.rs],
    [packages/zaino-core/src/engine/{snapshot,block,block_hash,spend,address}.rs])

    A finalised tier and a volatile tier captured together, each named only by what it
    serves, and the reads the engine answers from the pair. *)

From S2P Require Import Prelude Primitives Types Persistence Codec Indexes IndexSet Store Address Head BlockTime.
From stdpp Require Import base gmap list strings sorting.
From Stdlib Require Import Lia.
Open Scope Z_scope.

Module View.
Import Bytes Kv Ports IndexSet Store Address.

(** ** The finalised store as a tier

    A store snapshot's answers, the backend in the state of the call. *)
Section StoreTier.
Context {BSt : Type} (B : Backend BSt) (s : StoreSnapshot) (b : BSt).
Definition store_tier : ChainTier :=
  mkTier (Store.pinned_tip s) (Store.coverage s) (Store.compact_block B b) (Store.header_at B b).
Definition store_spends : SpendRead := mkSpendRead (Store.spend_status B b) (Store.spend_info B b).
Definition store_addresses {TA} (parse : TA -> option ParsedAddress) : AddressRead TA :=
  mkAddressRead TA (Address.balance parse B b) (Address.unspent_outpoints parse B b) (Address.deltas parse B b)
    (Address.tx_ids parse B b).
End StoreTier.

(** ** [ChainViewSnapshot] *)
Record ChainViewSnapshot := mkView { fs : ChainTier; nfs : ChainTier; view_watermark : option Height }.
(** [ChainViewSnapshot::new] *)
Definition view_new (fs nfs : ChainTier) : ChainViewSnapshot :=
  mkView fs nfs (let! range := Ports.coverage fs in Some (range_end range)).

Inductive Route := Finalised | Volatile | InitialBuildGap | AboveTip.
Definition route (v : ChainViewSnapshot) (h : Height) : Route :=
  if match view_watermark v with Some watermark => h <=? watermark | None => false end then Finalised
  else match Ports.coverage (nfs v) with
       | Some window =>
           if range_end window <? h then AboveTip
           else if range_start window <=? h then Volatile
           else InitialBuildGap
       | None => AboveTip
       end.
Definition read_routed (v : ChainViewSnapshot) (h : Height) : result (option CompactBlock) StoreError :=
  match route v h with
  | Finalised => Ports.compact_block (fs v) (AtHeight h)
  | Volatile => Ports.compact_block (nfs v) (AtHeight h)
  | InitialBuildGap => Err (NotServiceable Blocks)
  | AboveTip => Ok None
  end.
Definition read_routed_header (v : ChainViewSnapshot) (h : Height) : result (option HeaderSummary) StoreError :=
  match route v h with
  | Finalised => Ports.header_at (fs v) h
  | Volatile => Ports.header_at (nfs v) h
  | InitialBuildGap => Err (NotServiceable Blocks)
  | AboveTip => Ok None
  end.

(** [Option::or] and [Option::or_else] *)
Definition option_or {A} (a b : option A) : option A := match a with Some _ => a | None => b end.
Definition view_pinned_tip (v : ChainViewSnapshot) : option BlockRef :=
  option_or (Ports.pinned_tip (nfs v)) (Ports.pinned_tip (fs v)).
Definition view_coverage (v : ChainViewSnapshot) : option HeightRange :=
  let f := Ports.coverage (fs v) in
  let n := Ports.coverage (nfs v) in
  let! low := option_or f n in
  let! high := option_or n f in
  Some (mkHeightRange (range_start low) (range_end high)).
Definition view_serviceable_range (v : ChainViewSnapshot) : option ServiceableRange :=
  let! tip := option_or (let! id := Ports.pinned_tip (nfs v) in Some (br_height id)) (view_watermark v) in
  Some (mkServiceableRange (view_watermark v) tip).
Definition view_compact_block (v : ChainViewSnapshot) (at_ : BlockSelector) : result (option CompactBlock) StoreError :=
  match at_ with
  | AtHeight h => read_routed v h
  | AtHash hash =>
      let? found := Ports.compact_block (fs v) (AtHash hash) in
      match found with
      | Some block => Ok (Some block)
      | None => Ports.compact_block (nfs v) (AtHash hash)
      end
  end.
Definition view_stream_compact (v : ChainViewSnapshot) (range : HeightRange) : list (result CompactBlock StoreError) :=
  omap (fun h =>
          let! h := ok (Height.try_from h) in
          match read_routed v h with
          | Ok (Some block) => Some (Ok block)
          | Ok None => None
          | Err error => Some (Err error)
          end)
    (seqZ (range_start range) (range_end range - range_start range + 1)).
Definition view_header (v : ChainViewSnapshot) (h : Height) : result (option HeaderSummary) StoreError :=
  read_routed_header v h.

(** ** [nullifiers.rs] *)
Definition nullifier_only (action : OrchardAction) : OrchardAction :=
  mkOrchardAction (nullifier action) (replicate 32 0) (replicate 32 0) (replicate 52 0).
Definition strip_tx (tx : PreIndexCompactTx) : PreIndexCompactTx :=
  mkPreIndexCompactTx (pt_txid tx) [] [] (sapling_nullifiers tx) [] (nullifier_only <$> orchard_actions tx)
    (nullifier_only <$> ironwood_actions tx).
Definition strip_to_nullifiers (block : CompactBlock) : CompactBlock :=
  mkCompactBlock (cb_hash block) (cb_prev_hash block) (cb_height block) (cb_time block) (cb_bits block)
    (strip_tx <$> cb_transactions block) (cb_chain_metadata block).
Definition compact_block_nullifiers (v : ChainViewSnapshot) (at_ : BlockSelector)
    : result (option CompactBlock) StoreError :=
  let? block := view_compact_block v at_ in Ok (strip_to_nullifiers <$> block).

(** ** [engine/snapshot.rs]: splitting a range at the seam *)
Definition non_empty (range : HeightRange) : option HeightRange :=
  if range_start range <=? range_end range then Some range else None.
Definition split_at_seam (v : ChainViewSnapshot) (range : HeightRange) : option HeightRange * option HeightRange :=
  match view_watermark v with
  | None => (None, non_empty range)
  | Some watermark =>
      match Height.height_checked_add watermark 1 with
      | None => (non_empty range, None)
      | Some seam =>
          (non_empty (mkHeightRange (range_start range) (Z.min (range_end range) watermark)),
           non_empty (mkHeightRange (Z.max (range_start range) seam) (range_end range)))
      end
  end.

(** ** [engine/block_hash.rs] *)
Record BlockHashAt := mkBlockHashAt { bh_height : Height; bh_hash : BlockHash; bh_time : Z }.
Inductive BlockHashReadError := MissingHeader (h : Height) | TierRead (source : StoreError).
Definition search_error (e : BlockTime.SearchError StoreError) : BlockHashReadError :=
  match e with BlockTime.SearchMissing h => MissingHeader h | BlockTime.SearchRead source => TierRead source end.

Definition heights (start end_ : Height) : list Height :=
  omap (fun h => ok (Height.try_from h)) (seqZ start (end_ - start + 1)).
Definition header_time (v : ChainViewSnapshot) (h : Height) : result (option Z) StoreError :=
  let? summary := view_header v h in Ok (hs_time <$> summary).
(** The blocks of the bracket whose own time is in the range. *)
Definition hit (v : ChainViewSnapshot) (low high : Z) (h : Height) : result (list BlockHashAt) BlockHashReadError :=
  let? summary := map_err TierRead (view_header v h) in
  let? summary := ok_or summary (MissingHeader h) in
  Ok (if (low <=? hs_time summary) && (hs_time summary <? high)
      then [mkBlockHashAt h (hs_hash summary) (hs_time summary)] else []).
Definition hash_at_le (a b : BlockHashAt) : Prop :=
  then_compare (bh_time a ?= bh_time b) (bytes_compare (bh_hash a) (bh_hash b)) <> Gt.
Global Instance hash_at_le_dec : RelDecision hash_at_le.
Proof. intros a b. unfold hash_at_le. apply _. Defined.
(** [None]: the search loop out of fuel. *)
Definition block_hashes (v : ChainViewSnapshot) (low high : Z) : option (result (list BlockHashAt) BlockHashReadError) :=
  match view_pinned_tip v with
  | None => Some (Ok [])
  | Some tip =>
      let! bracket := BlockTime.drive BlockTime.DRIVE_FUEL (header_time v)
                        (BlockTime.new (br_height tip) low high BlockTime.MAINNET) in
      Some (let? bracket := map_err search_error bracket in
            match bracket with
            | None => Ok []
            | Some bracket =>
                let? hits := map_result (hit v low high) (heights (range_start bracket) (range_end bracket)) in
                Ok (merge_sort hash_at_le (mjoin hits))
            end)
  end.
Definition block_hash (v : ChainViewSnapshot) (h : Height) : result (option BlockHash) BlockHashReadError :=
  match view_pinned_tip v with
  | None => Ok None
  | Some tip =>
      if br_height tip <? h then Ok None
      else
        let? summary := map_err TierRead (view_header v h) in
        let? summary := ok_or summary (MissingHeader h) in
        Ok (Some (hs_hash summary))
  end.

(** ** [engine/block.rs]: full blocks, from the validator *)
Section Blocks.
(** The passthrough's answers at the time of each call. *)
Context (block_at : Height -> result (option Block) StoreError) (block_by_hash : BlockHash -> result (option Block) StoreError).

Definition engine_tip (v : ChainViewSnapshot) : result BlockRef StoreError :=
  ok_or (view_pinned_tip v) (NotServiceable Blocks).
Definition engine_block (at_ : BlockSelector) : result (option Block) StoreError :=
  match at_ with AtHeight h => block_at h | AtHash hash => block_by_hash hash end.
Definition engine_block_header (at_ : BlockSelector) : result (option BlockHeader) StoreError :=
  let? block := engine_block at_ in Ok (header <$> block).
Definition engine_block_height (hash : BlockHash) : result (option Height) StoreError :=
  let? block := block_by_hash hash in Ok ((fun b => h_height (header b)) <$> block).
(** The unfolding, the state gone after a hole or an error. *)
Fixpoint unfold_blocks (heights : list Height) : list (result Block StoreError) :=
  match heights with
  | [] => []
  | h :: heights =>
      match block_at h with
      | Ok (Some block) => Ok block :: unfold_blocks heights
      | Ok None => [Err Transient]
      | Err error => [Err error]
      end
  end.
Definition stream_blocks (v : ChainViewSnapshot) (range : HeightRange) : list (result Block StoreError) :=
  match view_pinned_tip v with
  | None => [Err (NotServiceable Blocks)]
  | Some tip => unfold_blocks (heights (range_start range) (Z.min (range_end range) (br_height tip)))
  end.
End Blocks.

(** ** [engine/spend.rs]: [Local] *)
Section Spend.
Context (fs_spends nfs_spends : SpendRead).
Definition local_spend_status (o : Outpoint) : result SpendAnswer StoreError :=
  let? answer := Ports.spend_status nfs_spends o in
  match answer with
  | Spent _ | SpentSpenderUnknown => Ok answer
  | Unspent | NoSuchOutput => Ports.spend_status fs_spends o
  end.
Definition local_spend_info (o : Outpoint) : result (option TransparentSpend) StoreError :=
  let? spend := Ports.spend_info nfs_spends o in
  match spend with
  | Some spend => Ok (Some spend)
  | None => Ports.spend_info fs_spends o
  end.
End Spend.

(** ** [engine/address.rs]: [Local] *)
Section Address.
Context {TransparentAddress : Type}.
Notation AddressReadError := (AddressReadError (TransparentAddress := TransparentAddress)).
Context (v : ChainViewSnapshot) (store : AddressRead TransparentAddress) (window : AddressReceiveRead TransparentAddress).

Definition empty_balance : result AddressBalance AddressReadError :=
  let? balance := ok_or (Zatoshis.sum_balances []) AddressFatal in
  let? received := ok_or (Zatoshis.try_accumulate []) AddressFatal in
  Ok (mkAddressBalance balance received).
Definition in_range (half : option HeightRange) (h : Height) : bool :=
  match half with Some range => (range_start range <=? h) && (h <=? range_end range) | None => false end.
Inductive Sign := Received | SpentSign.
Definition signed (value : Z) (sign : Sign) : result Z AddressReadError :=
  let? magnitude := ok_or (try_narrow 63 value) AddressFatal in
  let? signed := ok_or (match sign with Received => Some magnitude | SpentSign => Some (- magnitude) end) AddressFatal in
  map_err (fun _ => AddressFatal) (Zatoshis.signed_try_new signed).

Record WindowPart := mkWindowPart { wp_receives : list TransparentReceive; wp_spends : list TransparentSpend }.
Definition wp_spent (part : WindowPart) (o : Outpoint) : bool :=
  existsb (fun spend => bool_decide (ts_outpoint spend = o)) (wp_spends part).
Definition utxo_outpoint (u : Utxo (TransparentAddress := TransparentAddress)) : Outpoint := (utxo_txid u, utxo_output_index u).
Definition receive_outpoint (r : TransparentReceive) : Outpoint := (tr_txid r, tr_output_index r).

Definition window_part (addr : TransparentAddress) (receives_in spends_in : option HeightRange)
    (held : list (Utxo (TransparentAddress := TransparentAddress))) : result WindowPart AddressReadError :=
  let? receives := match receives_in with Some range => Ports.receives window addr range | None => Ok [] end in
  match spends_in with
  | None => Ok (mkWindowPart receives [])
  | Some spends_in =>
      let candidates := (utxo_outpoint <$> held) ++ (receive_outpoint <$> receives) in
      let? spends := Ports.spends window candidates spends_in in
      Ok (mkWindowPart receives spends)
  end.
(** Collecting into a [HashMap]: the last value of a key wins. *)
Definition candidate_values (held : list (Utxo (TransparentAddress := TransparentAddress)))
    (receives : list TransparentReceive) : gmap Outpoint Z :=
  fold_left (fun m kv => <[kv.1 := kv.2]> m)
    (((fun u => (utxo_outpoint u, utxo_satoshis u)) <$> held) ++ ((fun r => (receive_outpoint r, tr_value r)) <$> receives)) ∅.

Definition local_balance (addr : TransparentAddress) (range : HeightRange) (budget : ReadBudget)
    : result AddressBalance AddressReadError * ReadBudget :=
  let '(fs, nfs_range) := split_at_seam v range in
  let '(fs_balance, budget) :=
    match fs with Some range => Ports.balance store addr range budget | None => (empty_balance, budget) end in
  match fs_balance with
  | Err x => (Err x, budget)
  | Ok fs_balance =>
      let '(held, budget) := Ports.unspent_outpoints store addr budget in
      (let? held := held in
       let? part := window_part addr nfs_range (Ports.coverage (nfs v)) held in
       let? receipts := ok_or (Zatoshis.try_accumulate (tr_value <$> wp_receives part)) AddressFatal in
       let? received := ok_or (Zatoshis.checked_join (bal_received fs_balance) receipts) AddressFatal in
       let from_store :=
         utxo_satoshis <$> List.filter (fun u => negb (wp_spent part (utxo_outpoint u)))
                             (List.filter (fun u => in_range fs (utxo_height u)) held) in
       let from_window :=
         tr_value <$> List.filter (fun r => negb (wp_spent part (receive_outpoint r))) (wp_receives part) in
       let? balance := ok_or (Zatoshis.sum_balances (from_store ++ from_window)) AddressFatal in
       Ok (mkAddressBalance balance received), budget)
  end.

Definition local_unspent_outpoints (addr : TransparentAddress) (budget : ReadBudget)
    : result (list (Utxo (TransparentAddress := TransparentAddress))) AddressReadError * ReadBudget :=
  let '(held, budget) := Ports.unspent_outpoints store addr budget in
  (let? held := held in
   match Ports.coverage (nfs v) with
   | None => Ok held
   | Some window_range =>
       let? part := window_part addr (Some window_range) (Some window_range) held in
       Ok (List.filter (fun u => negb (wp_spent part (utxo_outpoint u))) held ++
           ((fun r => into_utxo r addr)
              <$> List.filter (fun r => negb (wp_spent part (receive_outpoint r))) (wp_receives part)))
   end, budget).

(** The part both event reads share: the store's half, and the window's over the rest
    of the asked range. *)
Definition local_events {A} (read : TransparentAddress -> HeightRange -> charged TransparentAddress (list A))
    (from_window : list (Utxo (TransparentAddress := TransparentAddress)) -> WindowPart -> result (list A) AddressReadError)
    (addr : TransparentAddress) (range : HeightRange) (budget : ReadBudget)
    : result (list A) AddressReadError * ReadBudget :=
  let '(fs, nfs_range) := split_at_seam v range in
  let '(events, budget) := match fs with Some range => read addr range budget | None => (Ok [], budget) end in
  match events, nfs_range with
  | Err x, _ => (Err x, budget)
  | Ok events, None => (Ok events, budget)
  | Ok events, Some nfs_range =>
      let '(held, budget) := Ports.unspent_outpoints store addr budget in
      (let? held := held in
       let? part := window_part addr (Some nfs_range) (Some nfs_range) held in
       let? more := from_window held part in
       Ok (events ++ more), budget)
  end.
Definition received_delta (addr : TransparentAddress) (r : TransparentReceive) : result AddressDelta AddressReadError :=
  let? satoshis := signed (tr_value r) Received in
  Ok (mkAddressDelta satoshis (tr_txid r) (tr_output_index r) (tr_height r) addr (Some (tr_block_index r))).
Definition spent_delta (addr : TransparentAddress) (values : gmap Outpoint Z) (s : TransparentSpend)
    : result AddressDelta AddressReadError :=
  let? value := ok_or (values !! ts_outpoint s) AddressFatal in
  let? satoshis := signed value SpentSign in
  Ok (mkAddressDelta satoshis (ts_by s) (ts_input_index s) (ts_height s) addr (Some (ts_block_index s))).
Definition window_deltas (addr : TransparentAddress) (held : list (Utxo (TransparentAddress := TransparentAddress)))
    (part : WindowPart) : result (list AddressDelta) AddressReadError :=
  let values := candidate_values held (wp_receives part) in
  let? received := map_result (received_delta addr) (wp_receives part) in
  let? spent := map_result (spent_delta addr values) (wp_spends part) in
  Ok (received ++ spent).
Definition local_deltas (addr : TransparentAddress) : HeightRange -> charged TransparentAddress (list AddressDelta) :=
  local_events (Ports.deltas store) (window_deltas addr) addr.

Definition window_txids (part : WindowPart) : list (option Z * option Z * TransactionId) :=
  (fun '(height, position, txid) => (Some height, position, txid)) <$>
  dedup (merge_sort located_le
    (((fun r => (tr_height r, Some (tr_block_index r), tr_txid r)) <$> wp_receives part) ++
     ((fun s => (ts_height s, Some (ts_block_index s), ts_by s)) <$> wp_spends part))).
Definition local_tx_ids (addr : TransparentAddress)
    : HeightRange -> charged TransparentAddress (list (option Z * option Z * TransactionId)) :=
  local_events (Ports.tx_ids store) (fun _ part => Ok (window_txids part)) addr.
(** The engine's address reads where the routing places them locally. *)
Definition engine_addresses : AddressRead TransparentAddress :=
  mkAddressRead TransparentAddress local_balance local_unspent_outpoints local_deltas local_tx_ids.
End Address.
End View.
