(* ===== verification/HeadCorrect.v ===== *)
(** * The chain head serves its window ([packages/zaino-chain-head-service/src/{serve,spend,
    address}.rs])

    The head's reads against the chain its best branch is the end of, and the interfaces
    both tiers promise to the composer. *)

From S2P Require Import Prelude Primitives Types Persistence Codec ChainGraph Indexes IndexSet Store StoreCorrect Address HistoryCorrect AddressCorrect Head.
From stdpp Require Import base gmap list strings sorting.
From Stdlib Require Import Lia.
Open Scope Z_scope.

(** ** What a tier promises *)
Module Tiers.
Import Indexes Store StoreCorrect Address HistoryCorrect AddressCorrect.

Definition summary (b : Block) : HeaderSummary := mkHeaderSummary (h_hash (header b)) (h_time (header b)).
Definition block_ref (b : Block) : BlockRef := mkBlockRef (h_hash (header b)) (h_height (header b)).

(** The tier serves the blocks of the chain between two heights. *)
Class TierSpec (t : Ports.ChainTier) (chain : list Block) (lo hi : Z) : Prop := {
  tier_range : 0 <= lo <= hi /\ hi < Z.of_nat (length chain);
  tier_coverage : Ports.coverage t = Some (mkHeightRange lo hi);
  tier_tip : Ports.pinned_tip t = block_ref <$> chain !! Z.to_nat hi;
  tier_block : forall h, lo <= h <= hi -> Ports.compact_block t (AtHeight h) = Ok (served chain (Z.to_nat h));
  tier_hash : forall i b, lo <= Z.of_nat i <= hi -> chain !! i = Some b ->
    Ports.compact_block t (AtHash (h_hash (header b))) = Ok (served chain i);
  tier_no_hash : forall hash, hash32 hash ->
    (forall i b, lo <= Z.of_nat i <= hi -> chain !! i = Some b -> h_hash (header b) <> hash) ->
    Ports.compact_block t (AtHash hash) = Ok None;
  tier_header : forall h, lo <= h <= hi -> Ports.header_at t h = Ok (summary <$> chain !! Z.to_nat h) }.

(** What the blocks between two heights say of an outpoint. *)
Definition spent_in (chain : list Block) (lo hi : Z) (o : Outpoint) (h i j : nat) (tx : Transaction) : Prop :=
  lo <= Z.of_nat h <= hi /\ spent_at chain o h i j tx.
Definition created_in (chain : list Block) (lo hi : Z) (o : Outpoint) : Prop :=
  exists h i tx, lo <= Z.of_nat h <= hi /\ tx_at chain h i tx /\ txid tx = o.1 /\
    o.2 < Z.of_nat (length (outputs (transparent tx))).
Inductive outpoint_between (chain : list Block) (lo hi : Z) (o : Outpoint) : SpendAnswer -> option TransparentSpend -> Prop :=
| between_spent h i j tx h' i' j' tx' :
    spent_in chain lo hi o h i j tx -> spent_in chain lo hi o h' i' j' tx' ->
    outpoint_between chain lo hi o (Spent (txid tx))
      (Some (mkTransparentSpend o (txid tx') (Z.of_nat j') (Z.of_nat h') (Z.of_nat i')))
| between_unspent :
    (forall h i j tx, ~ spent_in chain lo hi o h i j tx) -> created_in chain lo hi o ->
    outpoint_between chain lo hi o Unspent None
| between_unknown :
    (forall h i j tx, ~ spent_in chain lo hi o h i j tx) -> ~ created_in chain lo hi o ->
    outpoint_between chain lo hi o NoSuchOutput None.
Class SpendReadSpec (t : Ports.SpendRead) (chain : list Block) (lo hi : Z) : Prop :=
  spend_answers o : hash32 o.1 -> uint 32 o.2 ->
    exists a i, Ports.spend_status t o = Ok a /\ Ports.spend_info t o = Ok i /\ outpoint_between chain lo hi o a i.
End Tiers.

Module HeadCorrect.
Import ChainGraph Indexes IndexSet Store StoreCorrect Address HistoryCorrect AddressCorrect Head Tiers.

(** The window is the end of a chain: its best branch holds the chain's blocks from its
    lowest height to the chain's tip, each under its own hash and with the tree sizes
    the validator reports for it. *)
Record window_of `{HashIter} (tree : BlockHash -> option TreeEntry) (chain : list Block) (g : MapBackedSnapshot) : Prop := {
  wo_graph : graph_ok tree g;
  wo_heights : forall i b, chain !! i = Some b -> h_height (header b) = Z.of_nat i;
  wo_small : Z.of_nat (length chain) <= 2 ^ 31;
  wo_counts : Forall (fun b => Z.of_nat (length (transactions b)) < 2 ^ 32 /\
    Forall (fun tx => Z.of_nat (length (inputs (transparent tx))) < 2 ^ 32 /\
      Z.of_nat (length (outputs (transparent tx))) < 2 ^ 32) (transactions b)) chain;
  wo_tip : height (tip g) = Z.of_nat (length chain) - 1;
  wo_blocks : forall b, b ∈ best_chain g ->
    chain !! Z.to_nat (height b) = Some (chb_block b) /\ hash b = h_hash (header (chb_block b)) /\
    from_tree_roots (tree_roots b) = tree_sizes (take (S (Z.to_nat (height b))) chain) }.

(** ** Walks *)
Lemma narrow_indices {A B} (f : Z -> A -> B) (l : list A) :
  Z.of_nat (length l) < 2 ^ 32 ->
  omap (fun '(i, a) => let! i := try_narrow 32 (Z.of_nat i) in Some (f i a)) (imap pair l) =
  imap (fun i a => f (Z.of_nat i) a) l.
Proof.
  change (imap pair l) with (imap (fun i => pair (0 + i)%nat) l).
  change (imap (fun i a => f (Z.of_nat i) a) l) with (imap (fun i a => f (Z.of_nat (0 + i)) a) l).
  intros Hl. assert (Hn : Z.of_nat (0 + length l) < 2 ^ 32) by done. clear Hl. revert Hn. generalize 0%nat.
  induction l as [|a l IH]; intros n Hn; [done|]. cbn [imap omap list_omap length] in *.
  unfold try_narrow at 1. rewrite Nat.add_0_r. destruct (Z.ltb_spec (Z.of_nat n) (2 ^ 32)); [|lia]. f_equal.
  rewrite (imap_ext _ (fun i => pair (S n + i)%nat)), (imap_ext (_ ∘ S) (fun i a => f (Z.of_nat (S n + i)) a));
    [apply IH; lia|..]; intros; cbn; repeat f_equal; lia.
Qed.
Lemma find_map_Some {A B} (f : A -> option B) l b : find_map f l = Some b -> exists a, a ∈ l /\ f a = Some b.
Proof.
  induction l as [|a l IH]; [done|]. cbn. destruct (f a) eqn:Ha.
  - intros [= <-]. exists a. split; [left|done].
  - intros (a' & Hin & Ha')%IH. exists a'. split; [by right|done].
Qed.
Lemma find_map_None {A B} (f : A -> option B) l a : find_map f l = None -> a ∈ l -> f a = None.
Proof.
  induction l as [|x l IH]; [by intros _ ?%elem_of_nil|]. cbn. destruct (f x) eqn:Hx; [done|].
  intros Hn [->|Hin]%elem_of_cons; [done|by apply IH].
Qed.
Lemma input_consumes_spec o inp : input_consumes o inp = true <-> (prev_txid inp, prev_index inp) = o.
Proof.
  unfold input_consumes. rewrite andb_true_iff, bool_decide_eq_true, Z.eqb_eq. destruct o; cbn. split; [intros [-> ->]|intros [= <- <-]]; done.
Qed.
Lemma tx_spends_spec tx o :
  tx_spends tx o = true <-> exists j inp, inputs (transparent tx) !! j = Some inp /\ (prev_txid inp, prev_index inp) = o.
Proof. unfold tx_spends. rewrite existsb_lookup. by setoid_rewrite input_consumes_spec. Qed.
Lemma tx_creates_spec tx o :
  tx_creates tx o = true <-> txid tx = o.1 /\ o.2 < Z.of_nat (length (outputs (transparent tx))).
Proof. unfold tx_creates. case_bool_decide; cbn [negb]; rewrite ?Z.ltb_lt; naive_solver. Qed.

Lemma status_in_app o txs txs' c :
  status_in o (txs ++ txs') c = match status_in o txs c with inl by_ => inl by_ | inr c => status_in o txs' c end.
Proof. revert c. induction txs as [|tx txs IH]; intros c; [done|]. cbn. destruct (tx_spends tx o); [done|apply IH]. Qed.
Lemma status_over_flat o blocks c :
  status_over o blocks c = status_in o (mjoin (block_transactions <$> blocks)) c.
Proof.
  revert c. induction blocks as [|b blocks IH]; intros c; [done|]. rewrite fmap_cons. cbn [status_over mjoin list_join].
  rewrite status_in_app. destruct (status_in o (block_transactions b) c); [done|apply IH].
Qed.
Lemma status_in_spec o txs c :
  match status_in o txs c with
  | inl by_ => exists tx, tx ∈ txs /\ tx_spends tx o = true /\ txid tx = by_
  | inr c' => (forall tx, tx ∈ txs -> tx_spends tx o = false) /\
      (c' = true <-> c = true \/ exists tx, tx ∈ txs /\ tx_creates tx o = true)
  end.
Proof.
  revert c. induction txs as [|tx txs IH]; intros c; cbn [status_in].
  - split; [by intros tx ?%elem_of_nil|]. split; [by left|]. intros [?|(tx & ?%elem_of_nil & _)]; done.
  - destruct (tx_spends tx o) eqn:Hs; [exists tx; split; [left|done]|]. specialize (IH (c || tx_creates tx o)).
    destruct (status_in o txs _) as [by_|c'].
    + destruct IH as (tx' & Hin & ?). exists tx'. split; [by right|done].
    + destruct IH as [Hn Hc]. split; [intros tx' [->|?]%elem_of_cons; auto|]. rewrite Hc, orb_true_iff.
      setoid_rewrite elem_of_cons. naive_solver.
Qed.

(** A receive as the address index has it. *)
Definition to_receive (addr : AddrId) (r : Ports.TransparentReceive) : AddressReceive :=
  mkAddressReceive addr (Ports.tr_height r) (Ports.tr_txid r) (Ports.tr_output_index r) (Ports.tr_value r).
Lemma script_pays_key {TA} (parse : TA -> option ParsedAddress) addr t hash script :
  transparent_address_key parse addr = Some (t, hash) ->
  script_pays parse script addr = bool_decide (addr_of script = mkAddrId t hash).
Proof.
  intros Hk. unfold script_pays, addr_of. rewrite Hk. destruct (classify_script script) as [h t'].
  apply bool_decide_ext. naive_solver.
Qed.
Lemma paid_outputs_at {TA} (parse : TA -> option ParsedAddress) addr t hash id height bi (l : list TransparentOutput) n :
  transparent_address_key parse addr = Some (t, hash) -> Z.of_nat (n + length l) < 2 ^ 32 ->
  to_receive (mkAddrId t hash) <$>
    omap (fun '(index, output) =>
            let! output_index := try_narrow 32 (Z.of_nat index) in
            Some (Ports.mkTransparentReceive id output_index (out_script output) (out_value output) height bi))
      (List.filter (fun '(_, output) => script_pays parse (out_script output) addr) (imap (fun i => pair (n + i)%nat) l)) =
  filter (fun rc => rc_addr rc = mkAddrId t hash)
    (imap (fun i out => mkAddressReceive (addr_of (out_script out)) height id (Z.of_nat (n + i)) (out_value out)) l).
Proof.
  intros Hk. revert n. induction l as [|o l IH]; intros n Hn; [done|]. cbn [imap List.filter length] in *.
  rewrite (imap_ext (_ ∘ S) (fun i => pair (S n + i)%nat)) by (intros; cbn; f_equal; lia).
  rewrite (imap_ext ((fun i out => mkAddressReceive _ _ _ _ _) ∘ S)
    (fun i out => mkAddressReceive (addr_of (out_script out)) height id (Z.of_nat (S n + i)) (out_value out)))
    by (intros; cbn; f_equal; lia).
  rewrite (script_pays_key parse addr t hash _ Hk), filter_cons. cbn [rc_addr]. specialize (IH (S n) ltac:(lia)).
  case_bool_decide as Hp; [rewrite decide_True by done|by rewrite decide_False]. cbn [omap list_omap].
  unfold try_narrow at 1. rewrite Nat.add_0_r. destruct (Z.ltb_spec (Z.of_nat n) (2 ^ 32)); [|lia].
  rewrite fmap_cons. f_equal; [|exact IH]. unfold to_receive. cbn. by rewrite Hp.
Qed.
Lemma paid_outputs_receives {TA} (parse : TA -> option ParsedAddress) addr t hash tx height bi :
  transparent_address_key parse addr = Some (t, hash) -> Z.of_nat (length (outputs (transparent tx))) < 2 ^ 32 ->
  to_receive (mkAddrId t hash) <$> paid_outputs parse tx addr height bi =
  filter (fun rc => rc_addr rc = mkAddrId t hash) (tx_receives height tx).
Proof. intros Hk Hn. exact (paid_outputs_at parse addr t hash (txid tx) height bi (outputs (transparent tx)) 0 Hk Hn). Qed.
Lemma elem_of_paid_outputs {TA} (parse : TA -> option ParsedAddress) tx addr height bi r :
  r ∈ paid_outputs parse tx addr height bi -> Ports.tr_txid r = txid tx /\ Ports.tr_height r = height /\ Ports.tr_block_index r = bi.
Proof.
  unfold paid_outputs. rewrite list_elem_of_omap. intros ([i o] & _ & Hr). destruct (try_narrow 32 (Z.of_nat i)); [|done].
  by injection Hr as <-.
Qed.
Lemma elem_of_consumed tx outpoints height bi s :
  Z.of_nat (length (inputs (transparent tx))) < 2 ^ 32 ->
  s ∈ consumed tx outpoints height bi <->
  exists j inp, inputs (transparent tx) !! j = Some inp /\ (prev_txid inp, prev_index inp) = ts_outpoint s /\
    ts_outpoint s ∈ outpoints /\ s = mkTransparentSpend (ts_outpoint s) (txid tx) (Z.of_nat j) height bi.
Proof.
  intros Hn. unfold consumed. rewrite list_elem_of_omap. split.
  - intros ([j inp] & (j' & inp' & [= -> ->] & Hj)%elem_of_lookup_imap & Hs).
    destruct (List.find _ outpoints) as [o|] eqn:Hf; [|done]. apply List.find_some in Hf as [Hin Ho].
    destruct (try_narrow 32 (Z.of_nat j')) as [x|] eqn:Hx; [|done]. apply try_narrow_Some in Hx as [-> _]. injection Hs as <-.
    exists j', inp'. cbn. split_and!; [done|by apply input_consumes_spec|by apply list_elem_of_In|done].
  - intros (j & inp & Hj & Ho & Hin & Hs). exists (j, inp). split; [apply elem_of_lookup_imap; by exists j, inp|].
    pose proof (lookup_lt_Some _ _ _ Hj). unfold try_narrow. rewrite (proj2 (Z.ltb_lt _ _)) by lia.
    destruct (List.find (fun o => input_consumes o inp) outpoints) as [o|] eqn:Hf.
    + apply List.find_some in Hf as [_ Hc%input_consumes_spec]. rewrite Hs. cbn. congruence.
    + apply list_elem_of_In in Hin. pose proof (List.find_none _ _ Hf _ Hin) as Hc. cbn beta in Hc.
      rewrite (proj2 (input_consumes_spec (ts_outpoint s) inp)) in Hc by done. done.
Qed.

Lemma filter_on {A} (P Q : A -> Prop) `{!forall a, Decision (P a), !forall a, Decision (Q a)} (l : list A) :
  (forall a, a ∈ l -> P a <-> Q a) -> filter P l = filter Q l.
Proof.
  induction l as [|a l IH]; intros Hpq; [done|]. rewrite !filter_cons, IH by (intros; apply Hpq; by right).
  pose proof (Hpq a ltac:(left)). repeat case_decide; naive_solver.
Qed.
Lemma filter_join {A} (P : A -> Prop) `{!forall a, Decision (P a)} (ls : list (list A)) :
  filter P (mjoin ls) = mjoin (filter P <$> ls).
Proof.
  induction ls as [|l ls IH]; [done|]. change (filter P (l ++ mjoin ls) = filter P l ++ mjoin (filter P <$> ls)).
  by rewrite filter_app, IH.
Qed.
Lemma filter_none {A} (l : list A) : filter (fun _ => False) l = [].
Proof. induction l as [|a l IH]; [done|]. rewrite filter_cons, decide_False by tauto. exact IH. Qed.

Section Window.
Context `{HashIter} (tree : BlockHash -> option TreeEntry) (Htree : tree_ok tree).
Context (chain : list Block) (g : MapBackedSnapshot) (Hw : window_of tree chain g).

(** The blocks of the window, by height. *)
Lemma window_interval :
  exists lo, 0 <= lo <= height (tip g) /\ head_coverage g = Some (mkHeightRange lo (height (tip g))) /\
    length (best_chain g) = Z.to_nat (height (tip g) - lo + 1) /\
    (forall i b, best_chain g !! i = Some b -> height b = lo + Z.of_nat i) /\
    (forall n, lo <= n <= height (tip g) -> exists b, best_block_by_height g n = Some b /\ height b = n /\
       best_chain g !! Z.to_nat (n - lo) = Some b /\ heights_to_hashes g !! n = Some (hash b)) /\
    (forall n, ~ lo <= n <= height (tip g) -> best_block_by_height g n = None).
Proof.
  destruct (best_chain_lookup tree Htree g (wo_graph _ _ _ Hw)) as (lo & Hlo & Hint & Hlen & Hat). exists lo.
  split_and!; [lia|lia| |done|..].
  - destruct (Hat 0%nat ltac:(lia)) as (b & Hb & Hn & _). unfold head_coverage. rewrite head_lookup, Hb, Hn.
    by rewrite Z.add_0_r.
  - intros i b Hb. pose proof (lookup_lt_Some _ _ _ Hb). destruct (Hat i ltac:(lia)) as (b' & Hb' & Hn & _).
    by simplify_eq.
  - intros n Hn. destruct (Hat (Z.to_nat (n - lo)) ltac:(lia)) as (b & Hb & Hh & Hc & Hr). exists b.
    replace (lo + Z.of_nat (Z.to_nat (n - lo))) with n in Hh by lia. rewrite Hh in Hc.
    split_and!; [|done..]. unfold best_block_by_height. by rewrite Hc.
  - intros n Hn. unfold best_block_by_height. destruct (heights_to_hashes g !! n) eqn:Hh; [|done].
    destruct Hn. apply Hint. by exists l.
Qed.

Context (lo hi : Z) (Hcov : head_coverage g = Some (mkHeightRange lo hi)).
Lemma window_range : 0 <= lo <= hi /\ hi = Z.of_nat (length chain) - 1 /\ hi = height (tip g).
Proof.
  destruct window_interval as (lo' & Hlo & Hc & _). rewrite Hcov in Hc. injection Hc as <- Ehi.
  pose proof (wo_tip _ _ _ Hw). lia.
Qed.
Lemma window_lookup i b :
  best_chain g !! i = Some b ->
  height b = lo + Z.of_nat i /\ chain !! (Z.to_nat lo + i)%nat = Some (chb_block b).
Proof.
  destruct window_interval as (lo' & Hlo & Hc & _ & Hh & _). rewrite Hcov in Hc. injection Hc as <- Ehi.
  intros Hb. pose proof (Hh i b Hb) as E. split; [done|].
  destruct (wo_blocks _ _ _ Hw b (list_elem_of_lookup_2 _ _ _ Hb)) as (<- & _). f_equal. lia.
Qed.
Lemma window_chain : chb_block <$> best_chain g = drop (Z.to_nat lo) chain.
Proof.
  destruct window_interval as (lo' & Hlo & Hc & Hl & _). rewrite Hcov in Hc. injection Hc as <- Ehi.
  pose proof (wo_tip _ _ _ Hw) as Ht. apply list_eq. intros i. rewrite list_lookup_fmap, lookup_drop.
  destruct (best_chain g !! i) as [b|] eqn:Hb; cbn.
  - symmetry. by apply window_lookup.
  - symmetry. apply lookup_ge_None_2. apply lookup_ge_None in Hb. lia.
Qed.
Lemma window_at n :
  lo <= n <= hi -> exists b, best_block_by_height g n = Some b /\ height b = n /\ b ∈ best_chain g /\
    chain !! Z.to_nat n = Some (chb_block b) /\ hash b = h_hash (header (chb_block b)) /\
    heights_to_hashes g !! n = Some (hash b) /\ Some (to_compact b) = served chain (Z.to_nat n).
Proof.
  destruct window_interval as (lo' & Hlo & Hc & _ & _ & Hat & _). rewrite Hcov in Hc. injection Hc as <- Ehi.
  intros Hn. destruct (Hat n ltac:(lia)) as (b & Hb & Hh & Hi & Hc). exists b.
  pose proof (list_elem_of_lookup_2 _ _ _ Hi) as Hin. destruct (wo_blocks _ _ _ Hw b Hin) as (H1 & H2 & H3).
  rewrite Hh in H1, H3. split_and!; [done..|]. unfold served. rewrite H1. unfold to_compact. by rewrite H3.
Qed.
Lemma window_outside n : ~ lo <= n <= hi -> best_block_by_height g n = None.
Proof.
  destruct window_interval as (lo' & Hlo & Hc & _ & _ & _ & Hno). rewrite Hcov in Hc. injection Hc as <- Ehi. intros Hn. apply Hno. lia.
Qed.

(** The head keeps the composer's promise. *)
Lemma head_tier_spec : TierSpec (head_tier g) chain lo hi.
Proof.
  pose proof window_range as (Hr & Hhi & Ht).
  pose proof (wo_graph _ _ _ Hw) as Hok.
  assert (Hsel : forall hash b, block_by_hash g hash = Some b -> is_on_best_chain g (reference b) = true ->
            lo <= height b <= hi /\ best_block_by_height g (height b) = Some b).
  { intros h b Hb Hon. apply bool_decide_eq_true in Hon.
    assert (Hbb : best_block_by_height g (height b) = Some b).
    { unfold best_block_by_height. change (height b) with (br_height (reference b)). rewrite Hon.
      change (br_hash (reference b)) with (hash b). by rewrite (block_by_hash_hash _ _ _ _ Hok Hb). }
    split; [|done]. destruct (decide (lo <= height b <= hi)) as [?|Hn]; [done|].
    by rewrite (window_outside _ Hn) in Hbb. }
  split.
  - lia.
  - exact Hcov.
  - cbn. unfold head_pinned_tip, best_tip. destruct (window_at hi ltac:(lia)) as (b & Hb & Hh & Hin & Hc & Hhash & Hcan & _).
    rewrite Hc. cbn. f_equal. rewrite Ht, (ok_tip _ _ Hok) in Hcan. unfold block_ref.
    apply BlockRef_ext; cbn; [unfold hash in *; congruence|]. rewrite (wo_heights _ _ _ Hw _ _ Hc). unfold height in Ht. lia.
  - intros h Hh. change (Ports.compact_block (head_tier g)) with (head_compact_block g). unfold head_compact_block.
    destruct (window_at h Hh) as (b & -> & _ & _ & _ & _ & _ & Hs). cbn. by rewrite Hs.
  - intros i b Hi Hb. change (Ports.compact_block (head_tier g)) with (head_compact_block g). unfold head_compact_block.
    destruct (window_at (Z.of_nat i) Hi) as (b' & Hb' & Hh & Hin & Hc & Hhash & Hcan & Hs).
    rewrite Nat2Z.id in Hc, Hs. simplify_eq. rewrite <- Hhash.
    destruct (ok_retained _ _ Hok _ _ Hcan) as (b'' & Hb'' & Hh'').
    unfold best_block_by_height in Hb'. rewrite Hcan in Hb'. rewrite Hb'.
    unfold is_on_best_chain. rewrite (proj2 (bool_decide_eq_true _)); [by rewrite Hs|].
    change (br_height (reference b')) with (height b'). by rewrite Hh.
  - intros h _ Hne. change (Ports.compact_block (head_tier g)) with (head_compact_block g). unfold head_compact_block.
    destruct (block_by_hash g h) as [b|] eqn:Hb; [|done].
    destruct (is_on_best_chain g (reference b)) eqn:Hon; [|done]. destruct (Hsel h b Hb Hon) as [Hr' Hbb].
    destruct (window_at (height b) Hr') as (b' & Hb' & Hh & _ & Hc & Hhash & _). assert (b' = b) as -> by congruence.
    exfalso. apply (Hne (Z.to_nat (height b)) (chb_block b)); [lia|done|].
    rewrite <- Hhash. by apply (block_by_hash_hash tree g).
  - intros h Hh. change (Ports.header_at (head_tier g) h) with (head_header g h). unfold head_header. destruct (window_at h Hh) as (b & -> & _ & _ & Hc & Hhash & _).
    rewrite Hc. cbn. unfold summary. by rewrite <- Hhash.
Qed.

(** ** Transactions of the window *)
Lemma window_tx h i tx :
  (exists b, b ∈ best_chain g /\ height b = Z.of_nat h /\ block_transactions b !! i = Some tx) <->
  lo <= Z.of_nat h <= hi /\ tx_at chain h i tx.
Proof.
  pose proof window_range as (Hr & Hhi & _). split.
  - intros (b & [k Hk]%list_elem_of_lookup & Hh & Hi). destruct (window_lookup k b Hk) as [E Hc].
    pose proof (lookup_lt_Some _ _ _ Hc). replace (Z.to_nat lo + k)%nat with h in * by lia. split; [lia|]. by exists (chb_block b).
  - intros (Hh & b & Hb & Hi). destruct (window_at (Z.of_nat h) Hh) as (b' & _ & E & Hin & Hc & _).
    rewrite Nat2Z.id in Hc. simplify_eq. by exists b'.
Qed.
Lemma window_flat tx : tx ∈ mjoin (block_transactions <$> best_chain g) <-> exists h i, lo <= Z.of_nat h <= hi /\ tx_at chain h i tx.
Proof.
  rewrite elem_of_join_fmap. setoid_rewrite list_elem_of_lookup. split.
  - intros (b & Hb & i & Hi). pose proof Hb as [k Hk]. destruct (window_lookup k b Hk) as [E _]. pose proof window_range.
    exists (Z.to_nat (height b)), i. apply window_tx. exists b. split_and!; [by apply list_elem_of_lookup|lia|done].
  - intros (h & i & Hw'). apply window_tx in Hw' as (b & Hin & _ & Hi). exists b. split; [by apply list_elem_of_lookup|by exists i].
Qed.
Lemma chain_counts h i tx :
  tx_at chain h i tx -> Z.of_nat (length (inputs (transparent tx))) < 2 ^ 32 /\ Z.of_nat (length (outputs (transparent tx))) < 2 ^ 32.
Proof.
  intros (b & Hb & Hi). pose proof (wo_counts _ _ _ Hw) as Hc. rewrite Forall_lookup in Hc. destruct (Hc h b Hb) as [_ Ht].
  rewrite Forall_lookup in Ht. by apply (Ht i).
Qed.
Lemma enumerated_window b : b ∈ best_chain g -> enumerated (block_transactions b) = imap (fun i tx => (Z.of_nat i, tx)) (block_transactions b).
Proof.
  intros Hb. unfold enumerated. apply (narrow_indices (fun i tx => (i, tx))).
  destruct (wo_blocks _ _ _ Hw b Hb) as (Hc & _). pose proof (wo_counts _ _ _ Hw) as Hn. rewrite Forall_lookup in Hn.
  apply (Hn _ _ Hc).
Qed.
Lemma spend_of_spec h i tx o height block_index :
  tx_at chain h i tx ->
  match spend_of tx o height block_index with
  | Some s => exists j inp, inputs (transparent tx) !! j = Some inp /\ (prev_txid inp, prev_index inp) = o /\
      s = mkTransparentSpend o (txid tx) (Z.of_nat j) height block_index
  | None => tx_spends tx o = false
  end.
Proof.
  intros Ht. destruct (chain_counts h i tx Ht) as [Hn _]. unfold spend_of.
  destruct (tx_spends tx o) eqn:Hs.
  - apply tx_spends_spec in Hs as (j & inp & Hj & Ho).
    destruct (position_found (input_consumes o) (inputs (transparent tx)) inp) as (k & x & -> & Hk & Hx);
      [by apply list_elem_of_lookup_2 in Hj|by apply input_consumes_spec|].
    pose proof (lookup_lt_Some _ _ _ Hk). unfold try_narrow. rewrite (proj2 (Z.ltb_lt _ _)) by lia.
    exists k, x. split_and!; [done|by apply input_consumes_spec|done].
  - destruct (position (input_consumes o) (inputs (transparent tx))) as [k|] eqn:Hp; [|done]. exfalso.
    assert (exists x, inputs (transparent tx) !! k = Some x /\ input_consumes o x = true) as (x & Hk & Hx).
    { clear -Hp. revert k Hp. induction (inputs (transparent tx)) as [|a l IH]; intros k; [done|]. cbn.
      destruct (input_consumes o a) eqn:Ha; [intros [= <-]; by exists a|].
      destruct (position (input_consumes o) l) as [k'|]; [|done]. intros [= <-]. by apply IH. }
    rewrite (proj2 (tx_spends_spec tx o)) in Hs; [done|]. exists k, x. split; [done|by apply input_consumes_spec].
Qed.

Lemma head_spends_spec : SpendReadSpec (head_spends g) chain lo hi.
Proof.
  intros o _ _. cbn. unfold head_spend_status, head_spend_info. rewrite status_over_flat.
  pose proof (status_in_spec o (mjoin (block_transactions <$> best_chain g)) false) as Hst.
  set (info := find_map _ (best_chain g)).
  assert (Hinfo : match info with
    | Some s => exists h i j tx, spent_in chain lo hi o h i j tx /\
        s = mkTransparentSpend o (txid tx) (Z.of_nat j) (Z.of_nat h) (Z.of_nat i)
    | None => forall h i j tx, ~ spent_in chain lo hi o h i j tx end).
  { destruct info as [s|] eqn:Hi.
    - apply find_map_Some in Hi as (b & Hb & ([bi tx] & Hin & Hs)%find_map_Some).
      rewrite enumerated_window in Hin by done. apply elem_of_lookup_imap in Hin as (i & tx' & [= -> ->] & Hi).
      assert (Hh : 0 <= height b) by (apply list_elem_of_lookup in Hb as [k Hk]; pose proof (window_lookup k b Hk); pose proof window_range; lia).
      destruct (proj1 (window_tx (Z.to_nat (height b)) i tx')) as [Hr Ht]; [exists b; split_and!; [done|lia|done]|].
      pose proof (spend_of_spec _ i tx' o (height b) (Z.of_nat i) Ht) as Hsp. rewrite Hs in Hsp.
      destruct Hsp as (j & inp & Hj & Ho & ->). exists (Z.to_nat (height b)), i, j, tx'. split; [|repeat f_equal; lia].
      split; [done|]. split; [done|by exists inp].
    - intros h i j tx [Hr [Ht (inp & Hj & Ho)]]. destruct (proj2 (window_tx h i tx) (conj Hr Ht)) as (b & Hb & Hh & Hi').
      pose proof (find_map_None _ _ b Hi Hb) as Hn. cbn beta in Hn. rewrite enumerated_window in Hn by done.
      pose proof (find_map_None _ _ (Z.of_nat i, tx) Hn) as Hn'. cbn in Hn'.
      pose proof (spend_of_spec h i tx o (height b) (Z.of_nat i) Ht) as Hsp.
      rewrite Hn' in Hsp by (apply elem_of_lookup_imap; by exists i, tx).
      rewrite (proj2 (tx_spends_spec tx o)) in Hsp; [done|]. by exists j, inp. }
  destruct (status_in o _ false) as [by_|c].
  - destruct Hst as (tx & Hin & Hs & <-). apply window_flat in Hin as (h & i & Hr & Ht).
    apply tx_spends_spec in Hs as (j & inp & Hj & Ho).
    assert (Hsp : spent_in chain lo hi o h i j tx) by (split; [done|]; split; [done|by exists inp]).
    destruct info as [s|]; [|by destruct (Hinfo h i j tx)]. destruct Hinfo as (h' & i' & j' & tx' & Hs' & ->).
    eexists _, _. split_and!; [done..|]. by eapply between_spent.
  - destruct Hst as [Hn Hc].
    assert (Hne : forall h i j tx, ~ spent_in chain lo hi o h i j tx).
    { intros h i j tx [Hr [Ht (inp & Hj & Ho)]]. specialize (Hn tx (proj2 (window_flat tx) (ex_intro _ h (ex_intro _ i (conj Hr Ht))))).
      rewrite (proj2 (tx_spends_spec tx o)) in Hn; [done|]. by exists j, inp. }
    destruct info as [s|]; [destruct Hinfo as (h & i & j & tx & Hs & _); by destruct (Hne h i j tx)|].
    assert (Hcr : c = true <-> created_in chain lo hi o).
    { rewrite Hc. split.
      - intros [?|(tx & (h & i & Hr & Ht)%window_flat & ?%tx_creates_spec)]; [done|]. by exists h, i, tx.
      - intros (h & i & tx & Hr & Ht & Hcr). right. exists tx. split; [apply window_flat; by exists h, i|by apply tx_creates_spec]. }
    destruct c; eexists _, _; (split_and!; [done..|]); constructor; try done; [by apply Hcr|by intros ?%Hcr].
Qed.

(** ** What the window says of an address *)
Lemma elem_of_walk {A} range (f : Transaction -> Z -> Z -> list A) x :
  x ∈ window_walk g range f <->
  exists h i tx, lo <= Z.of_nat h <= hi /\ range_start range <= Z.of_nat h <= range_end range /\ tx_at chain h i tx /\
    x ∈ f tx (Z.of_nat h) (Z.of_nat i).
Proof.
  unfold window_walk. rewrite elem_of_join_fmap. pose proof window_range as Hr. split.
  - intros (b & Hb & Hx). destruct (covers range (height b)) eqn:Hc; cbn [negb] in Hx; [|by apply elem_of_nil in Hx].
    rewrite enumerated_window, elem_of_join_fmap in Hx by done.
    destruct Hx as ([bi tx] & (i & tx' & [= -> ->] & Hi)%elem_of_lookup_imap & Hx).
    pose proof Hb as [k Hk]%list_elem_of_lookup. pose proof (window_lookup k b Hk) as [E _].
    destruct (proj1 (window_tx (Z.to_nat (height b)) i tx')) as [Hr' Ht]; [exists b; split_and!; [done|lia|done]|].
    exists (Z.to_nat (height b)), i, tx'. unfold covers in Hc. zbool. split_and!; [lia..|done|]. by rewrite Z2Nat.id by lia.
  - intros (h & i & tx & Hh & Hrange & Ht & Hx). destruct (proj2 (window_tx h i tx) (conj Hh Ht)) as (b & Hb & E & Hi).
    exists b. split; [done|]. unfold covers. rewrite E, !(proj2 (Z.leb_le _ _)) by lia. cbn [andb negb].
    rewrite enumerated_window, elem_of_join_fmap by done. exists (Z.of_nat i, tx). split; [|done].
    apply elem_of_lookup_imap. by exists i, tx.
Qed.
Lemma head_spends_of_spec {TA} outpoints range :
  exists ss, head_spends_of (TransparentAddress := TA) g outpoints range = Ok ss /\
    forall s, s ∈ ss <-> exists h i j tx, range_start range <= Z.of_nat h <= range_end range /\
      spent_in chain lo hi (ts_outpoint s) h i j tx /\ ts_outpoint s ∈ outpoints /\
      s = mkTransparentSpend (ts_outpoint s) (txid tx) (Z.of_nat j) (Z.of_nat h) (Z.of_nat i).
Proof.
  eexists. split; [done|]. intros s. rewrite elem_of_walk. split.
  - intros (h & i & tx & Hh & Hr & Ht & (j & inp & Hj & Ho & Hin & Hs)%elem_of_consumed); [|by eapply chain_counts].
    exists h, i, j, tx. split; [lia|]. split; [|done]. split; [lia|]. split; [done|by exists inp].
  - intros (h & i & j & tx & Hr & [Hh [Ht (inp & Hj & Ho)]] & Hin & Hs). exists h, i, tx. split; [lia|]. split; [lia|]. split; [done|].
    apply elem_of_consumed; [by eapply chain_counts|]. by exists j, inp.
Qed.
Lemma window_block_receives {TA} (parse : TA -> option ParsedAddress) addr t hash b0 bs b :
  transparent_address_key parse addr = Some (t, hash) -> b ∈ best_chain g ->
  to_receive (mkAddrId t hash) <$>
    (if negb (covers (mkHeightRange b0 bs) (height b)) then []
     else mjoin ((fun '(block_index, tx) => paid_outputs parse tx addr (height b) block_index) <$> enumerated (block_transactions b))) =
  filter (pays (mkAddrId t hash) b0 bs) (block_receives (chb_block b)).
Proof.
  intros Hk Hb. destruct (wo_blocks _ _ _ Hw b Hb) as (Hc & _). pose proof (wo_heights _ _ _ Hw _ _ Hc) as Hh.
  assert (Hh' : h_height (header (chb_block b)) = height b).
  { rewrite Hh. apply list_elem_of_lookup in Hb as [k Hb]. pose proof (window_lookup k b Hb). pose proof window_range. lia. }
  unfold block_receives. rewrite Hh'. clear Hh Hh'.
  assert (Hall : Forall (fun rc => rc_height rc = height b) (mjoin (tx_receives (height b) <$> transactions (chb_block b)))).
  { apply Forall_forall. intros rc Hrc. apply elem_of_join_fmap in Hrc as (tx & _ & Hrc).
    by apply elem_of_lookup_imap in Hrc as (i & o & -> & _). }
  rewrite Forall_forall in Hall. unfold covers. cbn [range_start range_end].
  destruct (decide (b0 <= height b <= bs)) as [Hin|Hout].
  - rewrite !(proj2 (Z.leb_le _ _)) by lia. cbn [andb negb].
    rewrite (filter_on (pays (mkAddrId t hash) b0 bs) (fun rc => rc_addr rc = mkAddrId t hash)), filter_join.
    2:{ intros rc Hrc. unfold pays. rewrite (Hall rc Hrc). naive_solver. }
    rewrite enumerated_window, fmap_mjoin, fmap_imap, fmap_imap, <- list_fmap_compose by done. f_equal.
    rewrite <- imap_const. apply imap_ext. intros i tx Hi. apply (paid_outputs_receives parse addr t hash); [done|].
    apply (chain_counts (Z.to_nat (height b)) i tx). by exists (chb_block b).
  - rewrite (filter_on (pays (mkAddrId t hash) b0 bs) (fun _ => False)).
    2:{ intros rc Hrc. unfold pays. rewrite (Hall rc Hrc). naive_solver. }
    assert (((b0 <=? height b) && (height b <=? bs))%bool = false) as -> by (apply not_true_iff_false; intros ?; zbool; lia).
    by rewrite filter_none.
Qed.
(** The receives the window reports are the chain's, in chain order. *)
Lemma head_receives_spec {TA} (parse : TA -> option ParsedAddress) addr t hash b0 bs :
  transparent_address_key parse addr = Some (t, hash) -> lo <= b0 ->
  exists rs, head_receives parse g addr (mkHeightRange b0 bs) = Ok rs /\
    to_receive (mkAddrId t hash) <$> rs = paid chain (mkAddrId t hash) b0 bs /\
    forall r, r ∈ rs -> exists h i tx, tx_at chain h i tx /\ Ports.tr_txid r = txid tx /\
      Ports.tr_height r = Z.of_nat h /\ Ports.tr_block_index r = Z.of_nat i.
Proof.
  intros Hk Hlo. eexists. split; [done|]. split.
  - unfold window_walk. rewrite fmap_mjoin, <- list_fmap_compose. unfold paid, chain_receives.
    rewrite <- (take_drop (Z.to_nat lo) chain), fmap_app, join_app, filter_app, <- window_chain.
    rewrite (filter_on (pays (mkAddrId t hash) b0 bs) (fun _ => False) (mjoin (block_receives <$> take (Z.to_nat lo) chain))).
    2:{ intros rc (b & Hb & (tx & _ & (i & o & -> & _)%elem_of_lookup_imap)%elem_of_join_fmap)%elem_of_join_fmap.
        apply list_elem_of_lookup in Hb as [k [Hb Hk']%lookup_take_Some]. unfold pays. cbn.
        rewrite (wo_heights _ _ _ Hw _ _ Hb). lia. }
    rewrite filter_none, filter_join. cbn [app]. rewrite <- !list_fmap_compose. f_equal. apply list_fmap_ext. intros k b Hb.
    apply list_elem_of_lookup_2 in Hb. by apply (window_block_receives parse addr t hash b0 bs b).
  - intros r (h & i & tx & _ & _ & Ht & (H1 & H2 & H3)%elem_of_paid_outputs)%elem_of_walk. by exists h, i, tx.
Qed.
End Window.
End HeadCorrect.
