(* ===== verification/ViewCorrect.v ===== *)
(** * The composed view serves the chain ([packages/zaino-core/src/chain_view],
    [packages/zaino-core/src/engine])

    The finalised store discharges the tiers' promises, and the engine's local reads are
    proved against them. *)

From S2P Require Import Prelude Primitives Types Persistence Codec ChainGraph Bridge Indexes IndexSet Store StoreCorrect Address HistoryCorrect AddressCorrect BlockTime Head HeadCorrect View.
From stdpp Require Import base gmap list strings sorting.
From Stdlib Require Import Lia.
Open Scope Z_scope.

Module ViewCorrect.
Import Bytes Kv Layout Codec Indexes IndexSet Store StoreCorrect Address HistoryCorrect AddressCorrect Tiers View.

(** The part of a chain at or below the watermark. *)
Definition finalised (chain : list Block) (w : Z) : list Block := take (S (Z.to_nat w)) chain.

(** ** The store keeps the promises *)
Section StoreTier.
Context {BSt : Type} (B : Backend BSt) (abs : BSt -> store) `{!BackendSpec B abs} (b : BSt) (r : BackendReader).
Context (chain : list Block) (w : Z) (cs : list CurrentZainoContext) (Hb : b_reader B b = Ok r).
Context (Hw : 0 <= w < Z.of_nat (length chain)) (Hsmall : Z.of_nat (length chain) <= 2 ^ 31).
Context (Hcs : chain_contexts (finalised chain w) cs).

Lemma finalised_lookup i : (i <= Z.to_nat w)%nat -> finalised chain w !! i = chain !! i.
Proof. intros Hi. unfold finalised. apply lookup_take_lt. lia. Qed.
Lemma finalised_lookup_Some i bl : finalised chain w !! i = Some bl <-> chain !! i = Some bl /\ Z.of_nat i <= w.
Proof. unfold finalised. rewrite lookup_take_Some. intuition lia. Qed.
Lemma finalised_length : Z.of_nat (length (finalised chain w)) = w + 1.
Proof. unfold finalised. rewrite length_take. lia. Qed.
Lemma served_finalised i : (i <= Z.to_nat w)%nat -> served (finalised chain w) i = served chain i.
Proof.
  intros Hi. unfold served. rewrite finalised_lookup by done. unfold finalised. by rewrite take_take, Nat.min_l by lia.
Qed.

(** The store's header of a finalised height is the chain's. *)
Lemma header_held i bl :
  holds HeadersIndex headers_wf headers_ID (abs b) (header_entries cs) -> chain !! i = Some bl -> Z.of_nat i <= w ->
  exists v, read_keyed HeadersIndex r headers_ID (Z.of_nat i) = Ok (Some v) /\
    hv_hash v = h_hash (header bl) /\ hv_time v = h_time (header bl).
Proof.
  intros Hst Hbl Hi. pose proof (spec_reader _ _ Hb) as Hr.
  destruct (context_at _ _ Hcs i bl) as (c & Hc & Hbc & Hh); [by apply finalised_lookup_Some|].
  destruct (context_tx bl c Hbc) as (_ & E1 & _ & E2 & _).
  pose proof (entries_by_height headers_extract header_context headers_schema he_height he_value cs i c (fun _ => eq_refl) Hc) as Hin.
  exists (mkHeaderValue (z_hash c) (z_prev_hash c) (z_time c) (z_bits c)). split; [|by split].
  rewrite <- Hh. apply (read_held _ _ _ r (abs b) Hr _ Hst). exact Hin.
Qed.

Lemma store_tier_spec s :
  compact_indexed (abs b) cs -> r_is_complete r hash_to_height_ID = Ok true ->
  Store.snapshot B b = Ok s -> watermark s = Some w -> TierSpec (store_tier B s b) chain 0 w.
Proof.
  intros Hst Hcomp Hsnap Hwm. pose proof (spec_reader _ _ Hb) as Hr. pose proof finalised_length as Hfl.
  assert (Hhead : forall i bl, chain !! i = Some bl -> Z.of_nat i <= w ->
            exists v, read_keyed HeadersIndex r headers_ID (Z.of_nat i) = Ok (Some v) /\
              hv_hash v = h_hash (header bl) /\ hv_time v = h_time (header bl)).
  { intros i bl Hbl Hi. apply header_held; [apply (ci_headers _ _ Hst)|done|done]. }
  unfold Store.snapshot in Hsnap. rewrite Hb in Hsnap. cbn [map_err] in Hsnap.
  destruct (read_watermark r) as [wm|] eqn:Hrw; [|done]. cbn [map_err] in Hsnap.
  destruct (lookup_lt_is_Some_2 chain (Z.to_nat w)) as [bw Hbw]; [lia|].
  destruct (Hhead _ _ Hbw ltac:(lia)) as (vw & Hvw & Hvh & _). rewrite Z2Nat.id in Hvw by lia.
  assert (wm = Some w) as ->.
  { destruct wm as [h|]; [|injection Hsnap as <-; done]. destruct (read_keyed HeadersIndex r headers_ID h); [|done].
    injection Hsnap as <-. done. }
  rewrite Hvw in Hsnap. injection Hsnap as <-. cbn in Hwm.
  split.
  - lia.
  - done.
  - cbn. rewrite Hbw. cbn. unfold block_ref. rewrite Hvh. f_equal. f_equal.
    destruct Hcs as [_ Hh]. rewrite (Hh (Z.to_nat w) bw); [lia|]. apply finalised_lookup_Some. split; [done|lia].
  - intros h Hh. cbn. unfold Store.compact_block, open. rewrite Hb. cbn [map_err].
    rewrite (read_compact_block_served _ cs Hcs r (abs b) Hr Hst) by (split; lia). by rewrite served_finalised by lia.
  - intros i bl Hi Hbl. cbn. unfold Store.compact_block, open, gated. rewrite Hb. cbn [map_err serviceability_gate].
    rewrite Hcomp. cbn [negb map_err].
    rewrite (resolve_hash_chain _ cs Hcs r (abs b) Hr Hst i bl); [|by apply finalised_lookup_Some; split; [|lia]|lia].
    rewrite (read_compact_block_served _ cs Hcs r (abs b) Hr Hst), Nat2Z.id by (split; lia). by rewrite served_finalised by lia.
  - intros hash Hhash Hne. cbn. unfold Store.compact_block, open, gated. rewrite Hb. cbn [map_err serviceability_gate].
    rewrite Hcomp. cbn [negb map_err]. rewrite (resolve_hash_unknown _ cs Hcs r (abs b) Hr Hst hash Hhash); [done|].
    intros i bl [Hbl Hi]%finalised_lookup_Some. apply (Hne i bl); [lia|done].
  - intros h Hh. cbn. unfold Store.header_at, open. rewrite Hb. cbn [map_err].
    destruct (lookup_lt_is_Some_2 chain (Z.to_nat h)) as [bl Hbl]; [lia|].
    destruct (Hhead _ _ Hbl ltac:(lia)) as (v & Hv & E1 & E2). rewrite Z2Nat.id in Hv by lia. rewrite Hv, Hbl. cbn.
    unfold summary. by rewrite E1, E2.
Qed.

Lemma spent_finalised o h i j tx : spent_at (finalised chain w) o h i j tx <-> spent_in chain 0 w o h i j tx.
Proof.
  unfold spent_in, spent_at, tx_at. setoid_rewrite finalised_lookup_Some. split.
  - intros [(bl & [Hbl Hh] & Hi) Hj]. split; [lia|]. split; [by exists bl|done].
  - intros [Hh [(bl & Hbl & Hi) Hj]]. split; [|done]. exists bl. split; [split; [done|lia]|done].
Qed.
Lemma created_finalised o : created (finalised chain w) o <-> created_in chain 0 w o.
Proof.
  unfold created, created_in, tx_at. setoid_rewrite finalised_lookup_Some. split.
  - intros (h & i & tx & (bl & [Hbl Hh] & Hi) & Hc). exists h, i, tx. split; [lia|]. split; [by exists bl|done].
  - intros (h & i & tx & Hh & (bl & Hbl & Hi) & Hc). exists h, i, tx. split; [|done]. exists bl. split; [split; [done|lia]|done].
Qed.
Lemma store_spends_spec :
  spends_indexed (abs b) cs -> r_is_complete r transparent_spends_ID = Ok true -> r_is_complete r txid_location_ID = Ok true ->
  SpendReadSpec (store_spends B b) chain 0 w.
Proof.
  intros Hst Hc1 Hc2 o Ho Hi. pose proof finalised_length as Hfl.
  destruct (spend_reads_held B abs b r (finalised chain w) cs o) as (a & i & Ha & Hi' & Hs); [done..|lia|done|done|done|done|].
  exists a, i. split_and!; [done..|]. destruct Hs as [h k j tx Hs|Hne Hcr|Hne Hcr].
  - by eapply between_spent; apply spent_finalised.
  - apply between_unspent; [|by apply created_finalised]. intros h k j tx Hs%spent_finalised. by apply (Hne h k j tx).
  - apply between_unknown; [|by intros ?%created_finalised]. intros h k j tx Hs%spent_finalised. by apply (Hne h k j tx).
Qed.
End StoreTier.

(** ** The composed view *)
Section View.
Context (F N : Ports.ChainTier) (chain : list Block) (w lo hi : Z).
Context `{!TierSpec F chain 0 w, !TierSpec N chain lo hi} (Hhi : hi = Z.of_nat (length chain) - 1).
Notation v := (view_new F N).

Lemma view_route h :
  route v h = if h <=? w then Finalised else if hi <? h then AboveTip else if lo <=? h then Volatile else InitialBuildGap.
Proof. unfold route, view_new. cbn [view_watermark nfs]. by rewrite (tier_coverage (t := F)), (tier_coverage (t := N)). Qed.
(** A height neither tier holds yet. *)
Definition in_gap (h : Z) : bool := (w <? h) && (h <? lo).

(** What the view reads at a height, for a read both tiers serve. *)
Lemma routed {A} (f n : result (option A) StoreError) (a : option A) h :
  0 <= h -> (h <= w -> f = Ok a) -> (lo <= h <= hi -> n = Ok a) -> (hi < h -> a = None) ->
  match route v h with
  | Finalised => f | Volatile => n | InitialBuildGap => Err (NotServiceable Blocks) | AboveTip => Ok None
  end = if in_gap h then Err (NotServiceable Blocks) else Ok a.
Proof.
  intros Hh Hf Hn Ha. rewrite view_route. unfold in_gap. pose proof (tier_range (t := F)). pose proof (tier_range (t := N)).
  destruct (Z.leb_spec h w), (Z.ltb_spec w h); try lia; cbn [andb]; [by apply Hf|].
  destruct (Z.ltb_spec hi h); [destruct (Z.ltb_spec h lo); [lia|]; by rewrite Ha|].
  destruct (Z.leb_spec lo h), (Z.ltb_spec h lo); try lia; [apply Hn; lia|done].
Qed.
Lemma view_block_at h :
  0 <= h -> view_compact_block v (AtHeight h) = if in_gap h then Err (NotServiceable Blocks) else Ok (served chain (Z.to_nat h)).
Proof.
  intros Hh. apply routed; [done|..].
  - intros Hw. apply tier_block. lia.
  - intros Hr. by apply tier_block.
  - intros Ha. unfold served. rewrite lookup_ge_None_2; [done|lia].
Qed.
Lemma view_header_at h :
  0 <= h -> view_header v h = if in_gap h then Err (NotServiceable Blocks) else Ok (summary <$> chain !! Z.to_nat h).
Proof.
  intros Hh. apply routed; [done|..].
  - intros Hw. apply tier_header. lia.
  - intros Hr. by apply tier_header.
  - intros Ha. rewrite lookup_ge_None_2; [done|lia].
Qed.
Lemma view_block_by_hash i b :
  NoDup ((fun b => h_hash (header b)) <$> chain) -> chain !! i = Some b -> hash32 (h_hash (header b)) -> in_gap (Z.of_nat i) = false ->
  view_compact_block v (AtHash (h_hash (header b))) = Ok (served chain i).
Proof.
  intros Hnd Hb Hh Hg. cbn [view_compact_block]. pose proof (lookup_lt_Some _ _ _ Hb) as Hlt. unfold view_new. cbn [fs nfs].
  assert (Hser : exists c, served chain i = Some c) by (unfold served; rewrite Hb; by eexists). destruct Hser as [c Hc].
  destruct (Z.le_gt_cases (Z.of_nat i) w) as [Hw|Hw].
  - rewrite (tier_hash (t := F) i b) by (done || lia). by rewrite Hc.
  - rewrite (tier_no_hash (t := F)); [|done|].
    + rewrite (tier_hash (t := N) i b); [done| |done]. unfold in_gap in Hg. rewrite (proj2 (Z.ltb_lt w _)) in Hg by lia.
      cbn in Hg. zbool. lia.
    + intros i' b' Hi' Hb' Heq. enough (i' = i) by lia. apply (NoDup_lookup _ _ _ (h_hash (header b)) Hnd).
      * by rewrite list_lookup_fmap, Hb', <- Heq.
      * by rewrite list_lookup_fmap, Hb.
Qed.
Lemma view_no_block hash :
  hash32 hash -> (forall i b, chain !! i = Some b -> h_hash (header b) <> hash) ->
  view_compact_block v (AtHash hash) = Ok None.
Proof.
  intros Hh Hne. cbn [view_compact_block view_new fs nfs].
  rewrite (tier_no_hash (t := F)) by (done || (intros i b _; apply Hne)). apply tier_no_hash; [done|]. intros i b _. apply Hne.
Qed.
Lemma view_stream a z :
  Height.valid a -> Height.valid z ->
  view_stream_compact v (mkHeightRange a z) =
  omap (fun h => if in_gap h then Some (Err (NotServiceable Blocks)) else Ok <$> served chain (Z.to_nat h)) (seqZ a (z - a + 1)).
Proof.
  intros Ha Hz. unfold view_stream_compact. cbn [range_start range_end].
  assert (Forall Height.valid (seqZ a (z - a + 1))) as Hall.
  { apply Forall_forall. intros h Hin%elem_of_seqZ. unfold Height.valid in *. lia. }
  induction Hall as [|h l Hh _ IH]; [done|]. cbn [omap list_omap]. rewrite IH.
  unfold Height.try_from. destruct (Z.ltb_spec Height.MAX_HEIGHT h) as [Hgt|_]; [unfold Height.valid in Hh; lia|]. cbn [ok].
  change (read_routed v h) with (view_compact_block v (AtHeight h)). rewrite view_block_at by apply Hh.
  destruct (in_gap h); [done|]. by destruct (served chain (Z.to_nat h)).
Qed.
Context (Hheights : forall i b, chain !! i = Some b -> h_height (header b) = Z.of_nat i).
Lemma view_span :
  view_coverage v = Some (mkHeightRange 0 hi) /\ view_pinned_tip v = block_ref <$> last chain /\
  view_serviceable_range v = Some (mkServiceableRange (Some w) hi).
Proof.
  pose proof (tier_range (t := F)). pose proof (tier_range (t := N)).
  destruct (lookup_lt_is_Some_2 chain (Z.to_nat hi)) as [b Hb]; [lia|].
  assert (Hl : last chain = Some b) by (rewrite last_lookup, <- Hb; f_equal; lia).
  unfold view_coverage, view_pinned_tip, view_serviceable_range, view_new. cbn [fs nfs view_watermark].
  rewrite (tier_coverage (t := F)), (tier_coverage (t := N)), (tier_tip (t := N)), Hl, Hb. cbn. split_and!; [done..|].
  do 2 f_equal. rewrite (Hheights _ _ Hb). lia.
Qed.

(** ** Blocks of a timestamp range *)
Definition hash_entry (low high : Z) (b : Block) : list BlockHashAt :=
  if (low <=? h_time (header b)) && (h_time (header b) <? high)
  then [mkBlockHashAt (h_height (header b)) (h_hash (header b)) (h_time (header b))] else [].
Definition hash_entries (low high : Z) : list BlockHashAt := mjoin (hash_entry low high <$> chain).

(** Scanning an interval of the chain. *)
Lemma scan_hits low high (bs : list Block) k :
  (forall i b, bs !! i = Some b -> chain !! (k + i)%nat = Some b) -> lo <= w + 1 ->
  map_result (hit v low high) (seqZ (Z.of_nat k) (Z.of_nat (length bs))) = Ok (hash_entry low high <$> bs).
Proof.
  intros Hbs Hseam. revert k Hbs. induction bs as [|b bs IH]; intros k Hbs; [done|].
  cbn [length]. rewrite seqZ_cons by lia. cbn [map_result]. pose proof (Hbs 0%nat b eq_refl) as Hb. rewrite Nat.add_0_r in Hb.
  assert (Hhit : hit v low high (Z.of_nat k) = Ok (hash_entry low high b)).
  { unfold hit. rewrite view_header_at by lia. unfold in_gap. rewrite Nat2Z.id, Hb.
    assert (((w <? Z.of_nat k) && (Z.of_nat k <? lo))%bool = false) as -> by (apply not_true_iff_false; intros ?; zbool; lia).
    cbn. unfold hash_entry. by rewrite (Hheights _ _ Hb). }
  rewrite Hhit. replace (Z.succ (Z.of_nat k)) with (Z.of_nat (S k)) by lia.
  replace (Z.pred (Z.of_nat (S (length bs)))) with (Z.of_nat (length bs)) by lia.
  rewrite (IH (S k)); [done|]. intros i b' Hi. rewrite <- (Hbs (S i) b' Hi). f_equal. lia.
Qed.
Lemma no_hits low high (bs : list Block) :
  Forall (fun b => ~ low <= h_time (header b) < high) bs -> mjoin (hash_entry low high <$> bs) = [].
Proof.
  induction 1 as [|b bs Hb _ IH]; [done|]. change (hash_entry low high b ++ mjoin (hash_entry low high <$> bs) = []).
  rewrite IH. unfold hash_entry.
  assert (((low <=? h_time (header b)) && (h_time (header b) <? high))%bool = false) as ->; [|done].
  apply not_true_iff_false. intros ?. zbool. lia.
Qed.
Lemma heights_all a z : 0 <= a -> z <= Height.MAX_HEIGHT -> heights a z = seqZ a (z - a + 1).
Proof.
  intros Ha Hz. unfold heights.
  assert (Forall (fun h => h <= Height.MAX_HEIGHT) (seqZ a (z - a + 1))) as Hall.
  { apply Forall_forall. intros h Hin%elem_of_seqZ. lia. }
  induction Hall as [|h l Hh _ IH]; [done|]. cbn [omap list_omap]. rewrite IH. unfold Height.try_from.
  by destruct (Z.ltb_spec Height.MAX_HEIGHT h); [lia|].
Qed.
Lemma block_hashes_scan low high :
  lo <= w + 1 -> Z.of_nat (length chain) <= 2 ^ 31 -> 0 <= low ->
  BlockTime.times_ok BlockTime.MAINNET ((fun b => h_time (header b)) <$> chain) ->
  block_hashes v low high = Some (Ok (merge_sort hash_at_le (hash_entries low high))).
Proof.
  intros Hseam Hsmall Hlow Htimes. pose proof (tier_range (t := F)). pose proof (tier_range (t := N)).
  destruct view_span as (_ & Htip & _). destruct (lookup_lt_is_Some_2 chain (Z.to_nat hi)) as [bt Hbt]; [lia|].
  assert (Hl : last chain = Some bt) by (rewrite last_lookup, <- Hbt; f_equal; lia).
  unfold block_hashes. rewrite Htip, Hl. cbn [fmap option_fmap option_map block_ref br_height]. rewrite (Hheights _ _ Hbt), Z2Nat.id by lia.
  set (times := (fun b => h_time (header b)) <$> chain) in *.
  assert (Hread : forall h, 0 <= h <= hi -> header_time v h = Ok (times !! Z.to_nat h)).
  { intros h Hh. unfold header_time. rewrite view_header_at by lia. unfold in_gap.
    assert (((w <? h) && (h <? lo))%bool = false) as -> by (apply not_true_iff_false; intros ?; zbool; lia).
    unfold times. rewrite list_lookup_fmap. by destruct (chain !! Z.to_nat h). }
  destruct (BlockTime.search_ends (header_time v) times hi low high BlockTime.MAINNET) as (r & -> & Hr); [done..| | | |].
  { unfold Height.valid. change Height.MAX_HEIGHT with (2 ^ 31 - 1). lia. }
  { unfold times. rewrite length_fmap. lia. }
  { intros h t Hh. rewrite Hread by done. by intros [= ->]. }
  assert (Hsome : forall h, 0 <= h <= hi -> exists t, times !! Z.to_nat h = Some t).
  { intros h Hh. apply lookup_lt_is_Some_2. unfold times. rewrite length_fmap. lia. }
  destruct r as [bracket|[h|e]]; cbn [map_err].
  - destruct Hr as [Hin Hrange].
    assert (Hout : forall i b, chain !! i = Some b -> low <= h_time (header b) < high ->
              exists r, bracket = Some r /\ range_start r <= Z.of_nat i <= range_end r).
    { intros i b Hb Ht. pose proof (lookup_lt_Some _ _ _ Hb). apply (Hin (Z.of_nat i) (h_time (header b))); [lia| |done].
      unfold times. by rewrite list_lookup_fmap, Nat2Z.id, Hb. }
    destruct bracket as [[a z]|].
    + destruct (Hrange _ eq_refl) as [Ha Hz]. cbn [range_start range_end] in *.
      rewrite heights_all by (change Height.MAX_HEIGHT with (2 ^ 31 - 1); lia).
      set (bs := take (Z.to_nat (z - a + 1)) (drop (Z.to_nat a) chain)).
      assert (Hbs : length bs = Z.to_nat (z - a + 1)) by (unfold bs; rewrite length_take, length_drop; lia).
      pose proof (scan_hits low high bs (Z.to_nat a)) as Hscan. rewrite Hbs, !Z2Nat.id in Hscan by lia.
      rewrite Hscan; [|intros i b Hi; apply lookup_take_Some in Hi as [Hi _]; by rewrite lookup_drop in Hi|done].
      do 3 f_equal. unfold hash_entries.
      assert (Hsplit : chain = take (Z.to_nat a) chain ++ bs ++ drop (Z.to_nat (z - a + 1)) (drop (Z.to_nat a) chain))
        by (unfold bs; by rewrite !take_drop).
      rewrite Hsplit, !fmap_app, !join_app, (no_hits low high (take _ _)), (no_hits low high (drop _ (drop _ _))); [by rewrite app_nil_r| |].
      * apply Forall_forall. intros b [i Hi]%list_elem_of_lookup Ht. rewrite !lookup_drop in Hi.
        destruct (Hout _ b Hi Ht) as (r & [= <-] & Hr). cbn in Hr. lia.
      * apply Forall_forall. intros b [i [Hi Hlt]%lookup_take_Some]%list_elem_of_lookup Ht.
        destruct (Hout _ b Hi Ht) as (r & [= <-] & Hr). cbn in Hr. lia.
    + do 3 f_equal. unfold hash_entries. rewrite no_hits; [done|].
      apply Forall_forall. intros b [i Hi]%list_elem_of_lookup Ht. by destruct (Hout i b Hi Ht) as (r & ? & _).
  - destruct Hr as [Hh Hn]. rewrite Hread in Hn by done. destruct (Hsome h Hh) as [t Ht]. congruence.
  - destruct Hr as (h & Hh & He). by rewrite Hread in He.
Qed.
End View.

(** ** Spends across the seam *)
Section Spends.
Context (F N : Ports.SpendRead) (chain : list Block) (w lo hi : Z).
Context `{!SpendReadSpec F chain 0 w, !SpendReadSpec N chain lo hi} (Hlo : 0 <= lo <= w + 1) (Hhi : w <= hi).

Lemma spent_seam o h i j tx : spent_in chain 0 hi o h i j tx <-> spent_in chain 0 w o h i j tx \/ spent_in chain lo hi o h i j tx.
Proof. unfold spent_in. destruct (Z.le_gt_cases (Z.of_nat h) w); intuition lia. Qed.
Lemma created_seam o : created_in chain 0 hi o <-> created_in chain 0 w o \/ created_in chain lo hi o.
Proof.
  unfold created_in. split.
  - intros (h & i & tx & Hh & Ht). destruct (Z.le_gt_cases (Z.of_nat h) w); [left|right]; exists h, i, tx; (split; [lia|done]).
  - intros [(h & i & tx & Hh & Ht)|(h & i & tx & Hh & Ht)]; exists h, i, tx; (split; [lia|done]).
Qed.
Lemma local_spends o :
  hash32 o.1 -> uint 32 o.2 ->
  exists a i, outpoint_between chain 0 hi o a i /\ local_spend_info F N o = Ok i /\
    (a <> Unspent \/ created_in chain 0 w o -> local_spend_status F N o = Ok a) /\
    (a = Unspent -> ~ created_in chain 0 w o -> local_spend_status F N o = Ok NoSuchOutput).
Proof.
  intros Ho Hi. unfold local_spend_status, local_spend_info.
  destruct (spend_answers (t := N) o Ho Hi) as (an & im & -> & -> & Hn).
  destruct (spend_answers (t := F) o Ho Hi) as (af & jf & -> & -> & Hf).
  destruct Hn as [h i j tx h' i' j' tx' H1 H2|Hne Hcr|Hne Hcr].
  - eexists _, _. split; [eapply between_spent; apply spent_seam; right; [exact H1|exact H2]|]. split; [done|]. split; done.
  - assert (Hsp : forall h i j tx, ~ spent_in chain 0 w o h i j tx -> ~ spent_in chain 0 hi o h i j tx)
      by (intros h i j tx Hn' [?|?]%spent_seam; [done|by apply (Hne h i j tx)]).
    destruct Hf as [h i j tx h' i' j' tx' H1 H2|Hne' Hcr'|Hne' Hcr'].
    + eexists _, _. split; [eapply between_spent; apply spent_seam; left; [exact H1|exact H2]|]. split; [done|]. split; done.
    + exists Unspent, None. split; [apply between_unspent; [by auto|apply created_seam; by left]|]. split; [done|]. split; [done|tauto].
    + exists Unspent, None. split; [apply between_unspent; [by auto|apply created_seam; by right]|]. split; [done|].
      split; [intros [?|?]; done|done].
  - assert (Hsp : forall h i j tx, ~ spent_in chain 0 w o h i j tx -> ~ spent_in chain 0 hi o h i j tx)
      by (intros h i j tx Hn' [?|?]%spent_seam; [done|by apply (Hne h i j tx)]).
    destruct Hf as [h i j tx h' i' j' tx' H1 H2|Hne' Hcr'|Hne' Hcr'].
    + eexists _, _. split; [eapply between_spent; apply spent_seam; left; [exact H1|exact H2]|]. split; [done|]. split; done.
    + exists Unspent, None. split; [apply between_unspent; [by auto|apply created_seam; by left]|]. split; [done|]. split; [done|tauto].
    + exists NoSuchOutput, None. split; [apply between_unknown; [by auto|by intros [?|?]%created_seam]|]. split; [done|]. split; done.
Qed.
End Spends.
End ViewCorrect.
