(* ===== verification/LocalAddress.v ===== *)
(** * Address history across the seam ([packages/zaino-core/src/engine/address.rs])

    What the store and the window promise the composer about an address, and the
    composed reads proved against those promises. *)

From S2P Require Import Prelude Primitives Types Persistence Codec ChainGraph Bridge Indexes IndexSet Store StoreCorrect Address HistoryCorrect AddressCorrect BlockTime Head HeadCorrect View ViewCorrect.
From stdpp Require Import base gmap list strings sorting.
From Stdlib Require Import Lia.
Open Scope Z_scope.

Module LocalAddress.
Import Bytes Kv Layout Codec Indexes IndexSet Store StoreCorrect Address HistoryCorrect AddressCorrect Tiers HeadCorrect View ViewCorrect.

(** ** Chains *)

(** A chain as consensus leaves it: every block at its height, every transaction once,
    every output consumed at most once and not before it is made. *)
Record chain_valid (chain : list Block) : Prop := {
  cv_heights : forall i b, chain !! i = Some b -> h_height (header b) = Z.of_nat i;
  cv_small : Z.of_nat (length chain) <= 2 ^ 31;
  cv_size : Z.of_nat (length (chain_receives chain)) < 2 ^ 64;
  cv_values : forall rc, rc ∈ chain_receives chain -> Zatoshis.valid (rc_value rc);
  cv_txids : forall h i tx h' i' tx', tx_at chain h i tx -> tx_at chain h' i' tx' -> txid tx = txid tx' -> h = h' /\ i = i';
  cv_once : forall o h i j tx h' i' j' tx', spent_at chain o h i j tx -> spent_at chain o h' i' j' tx' ->
    h = h' /\ i = i' /\ j = j';
  cv_after : forall o h i j tx h' i' tx', spent_at chain o h i j tx -> tx_at chain h' i' tx' -> txid tx' = o.1 -> (h' <= h)%nat }.

(** Every output that pays an address. *)
Definition paid_ever (chain : list Block) (addr : AddrId) : list AddressReceive :=
  filter (fun rc => rc_addr rc = addr) (chain_receives chain).
Definition utxo_receive {TA} (addr : AddrId) (u : Utxo (TransparentAddress := TA)) : AddressReceive :=
  mkAddressReceive addr (utxo_height u) (utxo_txid u) (utxo_output_index u) (utxo_satoshis u).

(** ** The promises *)
Definition charge (bud : ReadBudget) (n : nat) : ReadBudget := mkBudget (limit bud) (remaining bud - Z.of_nat n).

(** The store answers for the finalised part of the chain. *)
Class AddressReadSpec {TA} (ops : Ports.AddressRead TA) (below : list Block) (addr : TA) (A : AddrId) : Prop := {
  ar_balance a z bud :
    Height.valid a -> Height.valid z -> uint 64 (remaining bud) -> Z.of_nat (length (paid below A a z)) <= remaining bud ->
    total (rc_value <$> kept below (paid below A a z)) <= Zatoshis.MAX_ZATOSHIS ->
    Ports.balance ops addr (mkHeightRange a z) bud =
      (Ok (mkAddressBalance (total (rc_value <$> kept below (paid below A a z))) (total (rc_value <$> paid below A a z))),
       charge bud (length (paid below A a z)));
  ar_unspent bud :
    Z.of_nat (length (paid_ever below A)) <= remaining bud ->
    exists us, Ports.unspent_outpoints ops addr bud = (Ok us, charge bud (length (paid_ever below A))) /\
      utxo_receive A <$> us ≡ₚ kept below (paid_ever below A);
  ar_deltas a z bud :
    Height.valid a -> Height.valid z -> Z.of_nat (length (paid below A 0 z)) <= remaining bud ->
    exists ds, Ports.deltas ops addr (mkHeightRange a z) bud = (Ok ds, charge bud (length (paid below A 0 z))) /\
      forall d, d ∈ ds <-> exists rc, rc ∈ paid below A 0 z /\ (receive_delta below addr a z rc d \/ spend_delta below addr a z rc d);
  ar_tx_ids a z bud :
    Height.valid a -> Height.valid z -> Z.of_nat (length (paid below A 0 z)) <= remaining bud ->
    exists xs : list (Z * option Z * TransactionId),
      Ports.tx_ids ops addr (mkHeightRange a z) bud =
        (Ok ((fun x => (Some x.1.1, x.1.2, x.2)) <$> xs), charge bud (length (paid below A 0 z))) /\
      NoDup xs /\ StronglySorted located_le xs /\
      forall x, x ∈ xs <-> exists rc, rc ∈ paid below A 0 z /\ touches below a z rc x }.

(** The window answers for the heights it holds. *)
Class ReceiveReadSpec {TA} (ops : Ports.AddressReceiveRead TA) (chain : list Block) (lo hi : Z) (addr : TA) (A : AddrId) : Prop := {
  rr_receives a z : lo <= a ->
    exists rs, Ports.receives ops addr (mkHeightRange a z) = Ok rs /\ to_receive A <$> rs = paid chain A a z /\
      forall r, r ∈ rs -> exists h i tx, tx_at chain h i tx /\ Ports.tr_txid r = txid tx /\
        Ports.tr_height r = Z.of_nat h /\ Ports.tr_block_index r = Z.of_nat i;
  rr_spends os range :
    exists ss, Ports.spends ops os range = Ok ss /\
      forall s, s ∈ ss <-> exists h i j tx, range_start range <= Z.of_nat h <= range_end range /\
        spent_in chain lo hi (ts_outpoint s) h i j tx /\ ts_outpoint s ∈ os /\
        s = mkTransparentSpend (ts_outpoint s) (txid tx) (Z.of_nat j) (Z.of_nat h) (Z.of_nat i) }.

Lemma head_receive_read_spec `{HashIter} {TA} (parse : TA -> option ParsedAddress) tree chain g lo hi addr t hash :
  ChainGraph.ChainGraph.tree_ok tree -> window_of tree chain g -> Head.Head.head_coverage g = Some (mkHeightRange lo hi) ->
  transparent_address_key parse addr = Some (t, hash) ->
  ReceiveReadSpec (Head.Head.head_receive_read parse g) chain lo hi addr (mkAddrId t hash).
Proof.
  intros Htree Hw Hcov Hk. split.
  - intros a z Ha. by eapply head_receives_spec.
  - intros os range. by eapply head_spends_of_spec.
Qed.

(** A tactic-free filter: Rust's [filter] by a boolean, seen through a projection. *)
Lemma fmap_filter_bool {X Y} (g : X -> Y) (f : Y -> bool) (l : list X) :
  g <$> List.filter (fun x => f (g x)) l = filter (fun y => f y = true) (g <$> l).
Proof.
  induction l as [|x l IH]; [done|]. rewrite fmap_cons, filter_cons. cbn [List.filter].
  destruct (f (g x)) eqn:Hf; [rewrite decide_True by done; rewrite fmap_cons; by f_equal|by rewrite decide_False].
Qed.
Lemma elem_of_paid_ever chain A rc : rc ∈ paid_ever chain A <-> rc_addr rc = A /\ rc ∈ chain_receives chain.
Proof. unfold paid_ever. by rewrite list_elem_of_filter. Qed.

Section StoreAddress.
Context {BSt TA : Type} (B : Backend BSt) (abs : BSt -> store) `{!BackendSpec B abs} (b : BSt) (r : BackendReader).
Context (parse : TA -> option ParsedAddress) (below : list Block) (cs : list CurrentZainoContext) (addr : TA) (t : ScriptType) (hash : list Z).
Context (Hb : b_reader B b = Ok r) (Hcs : chain_contexts below cs) (Hlen : Z.of_nat (length below) <= 2 ^ 31).
Context (Hst : address_indexed (abs b) cs) (Hc1 : r_is_complete r address_history_ID = Ok true).
Context (Hc2 : r_is_complete r transparent_spends_ID = Ok true) (Hc3 : r_is_complete r txid_location_ID = Ok true).
Context (Hk : transparent_address_key parse addr = Some (t, hash)) (Hh : length hash = 20%nat).
Notation A := (mkAddrId t hash).

Lemma receive_height rc : rc ∈ chain_receives below -> 0 <= rc_height rc < 2 ^ 31.
Proof.
  intros (h & i & k & tx & out & (bl & Hbl & _) & _ & ->)%(elem_of_receives below cs Hcs). cbn.
  apply lookup_lt_Some in Hbl. lia.
Qed.
Lemma paid_everything z : (forall rc, rc ∈ chain_receives below -> rc_height rc <= z) -> paid below A 0 z = paid_ever below A.
Proof.
  intros Hz. unfold paid, paid_ever. apply filter_on. intros rc Hrc. unfold pays.
  pose proof (receive_height rc Hrc). pose proof (Hz rc Hrc). naive_solver lia.
Qed.
Lemma script_for_key : exists script, script_for parse addr = Ok script.
Proof.
  unfold script_for, script_paying. rewrite Hk. unfold transparent_address_key in Hk.
  destruct (parse addr) as [[]|]; simplify_eq/=; by eexists.
Qed.
Lemma unspent_entries l es :
  Forall2 (entry_for below) l es -> Forall (fun rc => rc_addr rc = A) l ->
  (fun e => mkAddressReceive A (en_height e) (en_txid e) (en_output_index e) (en_value e)) <$> List.filter is_unspent es = kept below l.
Proof.
  intros Hf Ha. unfold kept. induction Hf as [|rc e l es He _ IH]; [done|]. apply Forall_cons in Ha as [Ha Hl].
  rewrite filter_cons. cbn [List.filter]. rewrite (entry_unspent below rc e He).
  destruct (spentb below (outpoint_of rc)); cbn [negb]; [rewrite decide_False by done; by apply IH|].
  rewrite decide_True, fmap_cons, IH by done. f_equal. destruct He as (E1 & E2 & E3 & E4 & _). destruct rc; cbn in *. by subst.
Qed.

Lemma store_addresses_spec : AddressReadSpec (store_addresses B b parse) below addr A.
Proof.
  split.
  - intros a z bud Ha Hz Hn Hle Hcap. cbn.
    rewrite (balance_held B abs b r parse below cs addr t hash a z bud) by done.
    by rewrite !(proj2 (Z.leb_le _ _)) by done.
  - intros bud Hle. cbn. unfold Address.unspent_outpoints.
    destruct (entries_held below cs Hcs Hlen B abs b r Hb Hst Hc1 Hc2 Hc3 parse addr t hash whole_history_start whole_history_end bud Hk Hh)
      as (l & es & Hp & Hf & ->); [done|done|lia|].
    change (filter (pays A whole_history_start whole_history_end) (chain_receives below))
      with (paid below A 0 whole_history_end) in Hp. rewrite paid_everything in Hp.
    2:{ intros rc Hrc. pose proof (receive_height rc Hrc). change whole_history_end with (2 ^ 32 - 1). lia. }
    assert (Hl : length l = length (paid_ever below A)) by by rewrite Hp. rewrite Hl, (proj2 (Z.leb_le _ _)) by lia.
    assert (Ha : Forall (fun rc => rc_addr rc = A) l).
    { apply Forall_forall. intros rc Hrc. rewrite Hp in Hrc. by apply elem_of_paid_ever in Hrc as [? _]. }
    pose proof (unspent_entries l es Hf Ha) as Hu. destruct script_for_key as [script Hs].
    assert (Hk' : kept below l ≡ₚ kept below (paid_ever below A)) by (unfold kept; by rewrite Hp).
    destruct (List.filter is_unspent es) as [|e us] eqn:Hes.
    + exists []. split; [done|]. rewrite <- Hk', <- Hu. done.
    + rewrite Hs. eexists. split; [done|]. rewrite <- Hk', <- Hu, <- list_fmap_compose. done.
  - intros a z bud Ha Hz Hle. destruct (deltas_held B abs b r parse below cs addr t hash a z bud) as (ds & Hd & _ & Hm & _); [done..|].
    exists ds. split; [exact Hd|done].
  - intros a z bud Ha Hz Hle. destruct (tx_ids_held B abs b r parse below cs addr t hash a z bud) as (xs & Hx & Hnd & Hs & Hm); [done..|].
    by exists xs.
Qed.
End StoreAddress.

(** ** The two halves of a chain *)
Lemma paid_none chain A a z : z < a -> paid chain A a z = [].
Proof.
  intros Hlt. unfold paid. rewrite (filter_on (pays A a z) (fun _ => False)); [apply filter_none|]. intros rc _. unfold pays. naive_solver lia.
Qed.
Section Seam.
Context (chain : list Block) (w : Z) (A : AddrId) (Hv : chain_valid chain) (Hw : 0 <= w < Z.of_nat (length chain)).
Notation below := (finalised chain w).

Lemma below_heights i b : below !! i = Some b -> h_height (header b) = Z.of_nat i.
Proof. intros [Hb _]%(finalised_lookup_Some chain w Hw). by apply (cv_heights _ Hv). Qed.
Lemma elem_of_below rc : rc ∈ chain_receives below <-> rc ∈ chain_receives chain /\ rc_height rc <= w.
Proof.
  rewrite (elem_of_chain_receives below rc below_heights), (elem_of_chain_receives chain rc (cv_heights _ Hv)). split.
  - intros (h & i & k & tx & out & (b & [Hb Hh]%(finalised_lookup_Some chain w Hw) & Hi) & Hk & ->). cbn. split; [|lia].
    exists h, i, k, tx, out. by split_and!; [exists b|..].
  - intros [(h & i & k & tx & out & (b & Hb & Hi) & Hk & ->) Hh]. cbn in Hh. exists h, i, k, tx, out. split; [|done].
    exists b. split; [|done]. by apply finalised_lookup_Some.
Qed.
Lemma paid_seam a z : paid chain A a z = paid below A a (Z.min z w) ++ paid chain A (Z.max a (w + 1)) z.
Proof.
  assert (Hsplit : forall P : AddressReceive -> Prop, forall HP : forall rc, Decision (P rc),
    filter P (chain_receives chain) = filter P (chain_receives below) ++
      filter P (mjoin (block_receives <$> drop (S (Z.to_nat w)) chain))).
  { intros P HP. rewrite <- filter_app. f_equal. unfold chain_receives, finalised.
    by rewrite <- join_app, <- fmap_app, take_drop. }
  assert (Habove : forall rc, rc ∈ mjoin (block_receives <$> drop (S (Z.to_nat w)) chain) -> w < rc_height rc).
  { intros rc (b & [i Hi]%list_elem_of_lookup & (tx & _ & (k & o & -> & _)%elem_of_lookup_imap)%elem_of_join_fmap)%elem_of_join_fmap.
    cbn. rewrite lookup_drop in Hi. rewrite (cv_heights _ Hv _ _ Hi). lia. }
  unfold paid. rewrite !(Hsplit (pays _ _ _)). f_equal.
  - apply filter_on. intros rc [_ Hrc]%elem_of_below. unfold pays. intuition lia.
  - rewrite (filter_on (pays A (Z.max a (w + 1)) z) (fun _ => False) (chain_receives below)), filter_none.
    2:{ intros rc [_ Hrc]%elem_of_below. unfold pays. intuition lia. }
    cbn [app]. apply filter_on. intros rc Hrc%Habove. unfold pays. intuition lia.
Qed.
Lemma paid_ever_below a z : filter (fun rc => a <= rc_height rc <= Z.min z w) (paid_ever below A) = paid below A a (Z.min z w).
Proof.
  unfold paid_ever, paid. rewrite list_filter_filter. apply list_filter_iff. intros rc. unfold pays. tauto.
Qed.

(** ** Spends of what an address received *)
Lemma receive_tx rc : rc ∈ chain_receives chain -> exists h i tx, tx_at chain h i tx /\ txid tx = (outpoint_of rc).1 /\ rc_height rc = Z.of_nat h.
Proof. intros (h & i & k & tx & out & Ht & _ & ->)%(elem_of_chain_receives chain rc (cv_heights _ Hv)). by exists h, i, tx. Qed.
Lemma spent_after rc h i j tx : rc ∈ chain_receives chain -> spent_at chain (outpoint_of rc) h i j tx -> rc_height rc <= Z.of_nat h.
Proof.
  intros (h' & i' & tx' & Ht & Hid & ->)%receive_tx Hs. pose proof (cv_after _ Hv _ _ _ _ _ _ _ _ Hs Ht Hid). lia.
Qed.
Context (lo hi : Z) (Hlo : 0 <= lo <= w + 1) (Hhi : hi = Z.of_nat (length chain) - 1).
Definition window_spent (o : Outpoint) : Prop := exists h i j tx, spent_in chain lo hi o h i j tx.
Lemma spent_at_top o h i j tx : spent_at chain o h i j tx -> Z.of_nat h <= hi.
Proof. intros [(b & Hb & _) _]. apply lookup_lt_Some in Hb. lia. Qed.
Lemma spentb_window rc :
  rc ∈ chain_receives chain -> lo <= rc_height rc -> spentb chain (outpoint_of rc) = true <-> window_spent (outpoint_of rc).
Proof.
  intros Hrc Hh. rewrite spentb_spec. split.
  - intros (h & i & j & tx & Hs). pose proof (spent_after rc h i j tx Hrc Hs). pose proof (spent_at_top _ _ _ _ _ Hs).
    exists h, i, j, tx. split; [lia|done].
  - intros (h & i & j & tx & _ & Hs). by exists h, i, j, tx.
Qed.
Lemma spentb_below o : spentb chain o = true <-> spentb below o = true \/ window_spent o.
Proof.
  rewrite !spentb_spec. split.
  - intros (h & i & j & tx & Hs). pose proof (spent_at_top _ _ _ _ _ Hs).
    destruct (Z.le_gt_cases (Z.of_nat h) w); [left|right]; exists h, i, j, tx; [apply spent_finalised; [done..|]|]; (split; [lia|done]).
  - intros [(h & i & j & tx & Hs)|(h & i & j & tx & _ & Hs)]; [|by exists h, i, j, tx].
    apply spent_finalised in Hs as [_ Hs]; [|done..]. by exists h, i, j, tx.
Qed.
End Seam.

(** ** Collecting *)
Lemma map_result_elem {X Y E} (f : X -> result Y E) l :
  (forall x, x ∈ l -> exists y, f x = Ok y) -> exists ys, map_result f l = Ok ys /\ forall y, y ∈ ys <-> exists x, x ∈ l /\ f x = Ok y.
Proof.
  induction l as [|x l IH]; intros Hf.
  - exists []. split; [done|]. intros y. split; [by intros ?%elem_of_nil|by intros (x & ?%elem_of_nil & _)].
  - destruct (Hf x ltac:(left)) as [y Hy]. destruct IH as (ys & Hys & Hm); [intros; apply Hf; by right|].
    exists (y :: ys). cbn. rewrite Hy, Hys. split; [done|]. intros y'. rewrite elem_of_cons, Hm. split.
    + intros [->|(x' & Hin & Hx')]; [exists x; split; [left|done]|exists x'; split; [by right|done]].
    + intros (x' & [->|Hin]%elem_of_cons & Hx'); [left; congruence|right; by exists x'].
Qed.
Lemma collect_lookup {K V} `{Countable K} (l : list (K * V)) (m : gmap K V) k x :
  (k, x) ∈ l -> (forall y, (k, y) ∈ l -> y = x) -> fold_left (fun m kv => <[kv.1 := kv.2]> m) l m !! k = Some x.
Proof.
  intros Hin Hu. assert (Hgen : forall m : gmap K V, m !! k = Some x \/ (k, x) ∈ l -> fold_left (fun m kv => <[kv.1 := kv.2]> m) l m !! k = Some x).
  { clear Hin m. induction l as [|[k' y] l IH]; intros m [Hm|Hin]; cbn [fold_left]; [done|by apply elem_of_nil in Hin|..].
    - apply IH; [intros y' Hy'; apply Hu; by right|]. left. destruct (decide (k' = k)) as [->|].
      + rewrite (Hu y ltac:(left)). by rewrite lookup_insert_eq.
      + by rewrite lookup_insert_ne.
    - apply IH; [intros y' Hy'; apply Hu; by right|]. apply elem_of_cons in Hin as [[= <- <-]|Hin]; [|by right].
      left. by rewrite lookup_insert_eq. }
  apply Hgen. by right.
Qed.

(** ** The composed reads *)
Section Local.
Context {TA : Type} (F N : Ports.ChainTier) (store : Ports.AddressRead TA) (window : Ports.AddressReceiveRead TA).
Context (chain : list Block) (w lo hi : Z) (addr : TA) (A : AddrId).
Context (Hv : chain_valid chain) (HF : Ports.coverage F = Some (mkHeightRange 0 w)) (HN : Ports.coverage N = Some (mkHeightRange lo hi)).
Context (Hrange : 0 <= w < Z.of_nat (length chain) /\ 0 <= lo <= hi).
Context `{!AddressReadSpec store (finalised chain w) addr A, !ReceiveReadSpec window chain lo hi addr A}.
Context (Hseam : lo <= w + 1) (Htop : hi = Z.of_nat (length chain) - 1).
Notation v := (view_new F N).
Notation below := (finalised chain w).

Lemma seam_ranges : 0 <= w < Z.of_nat (length chain) /\ 0 <= lo <= w + 1 /\ w <= hi < 2 ^ 31.
Proof.
  pose proof (cv_small _ Hv). lia.
Qed.
(** The store's part of a range and the window's: disjoint, and all of it. *)
Lemma seam_split a z :
  Height.valid z ->
  split_at_seam v (mkHeightRange a z) =
  (non_empty (mkHeightRange a (Z.min z w)), non_empty (mkHeightRange (Z.max a (w + 1)) z)).
Proof.
  intros Hz. pose proof seam_ranges as (_ & _ & Hwh). unfold split_at_seam, view_new. cbn [view_watermark].
  rewrite HF. cbn [range_start range_end]. unfold Height.height_checked_add, checked_add.
  rewrite (proj2 (Z.ltb_lt (w + 1) (2 ^ 32))) by lia. destruct (Z.ltb_spec Height.MAX_HEIGHT (w + 1)); [|done].
  unfold Height.valid in Hz. rewrite Z.min_l by lia. f_equal. unfold non_empty. cbn.
  by destruct (Z.leb_spec (Z.max a (w + 1)) z); [lia|].
Qed.

Lemma part_spec a z sr held :
  lo <= a ->
  exists part, window_part window addr (non_empty (mkHeightRange a z)) (Some sr) held = Ok part /\
    to_receive A <$> wp_receives part = paid chain A a z /\
    (forall r, r ∈ wp_receives part -> exists h i tx, tx_at chain h i tx /\ Ports.tr_txid r = txid tx /\
       Ports.tr_height r = Z.of_nat h /\ Ports.tr_block_index r = Z.of_nat i) /\
    forall s, s ∈ wp_spends part <-> exists h i j tx, range_start sr <= Z.of_nat h <= range_end sr /\
      spent_in chain lo hi (ts_outpoint s) h i j tx /\
      ts_outpoint s ∈ outpoint_of <$> (utxo_receive A <$> held) ++ paid chain A a z /\
      s = mkTransparentSpend (ts_outpoint s) (txid tx) (Z.of_nat j) (Z.of_nat h) (Z.of_nat i).
Proof.
  intros Ha. unfold window_part, non_empty. cbn [range_start range_end].
  assert (Hr : exists rs, (match (if a <=? z then Some (mkHeightRange a z) else None) with
      | Some range => Ports.receives window addr range | None => Ok [] end) = Ok rs /\ to_receive A <$> rs = paid chain A a z /\
      forall r, r ∈ rs -> exists h i tx, tx_at chain h i tx /\ Ports.tr_txid r = txid tx /\
        Ports.tr_height r = Z.of_nat h /\ Ports.tr_block_index r = Z.of_nat i).
  { destruct (Z.leb_spec a z); [by apply rr_receives|]. exists []. rewrite paid_none by lia. by split_and!; [..|intros r ?%elem_of_nil]. }
  destruct Hr as (rs & -> & Hrs & Hloc).
  destruct (rr_spends ((utxo_outpoint <$> held) ++ (receive_outpoint <$> rs)) sr) as (ss & -> & Hss).
  eexists. split; [done|]. cbn [wp_receives wp_spends]. split_and!; [done..|].
  rewrite <- Hrs, fmap_app, <- !list_fmap_compose. exact Hss.
Qed.
Lemma wp_spent_spec (part : WindowPart) o : wp_spent part o = true <-> exists s, s ∈ wp_spends part /\ ts_outpoint s = o.
Proof.
  unfold wp_spent. rewrite existsb_exists. setoid_rewrite bool_decide_eq_true. by setoid_rewrite list_elem_of_In.
Qed.
(** What the window consumed of what was asked about. *)
Lemma part_spent (held : list (Utxo (TransparentAddress := TA))) a z part o :
  (forall s, s ∈ wp_spends part <-> exists h i j tx, lo <= Z.of_nat h <= hi /\
     spent_in chain lo hi (ts_outpoint s) h i j tx /\
     ts_outpoint s ∈ outpoint_of <$> (utxo_receive A <$> held) ++ paid chain A a z /\
     s = mkTransparentSpend (ts_outpoint s) (txid tx) (Z.of_nat j) (Z.of_nat h) (Z.of_nat i)) ->
  o ∈ outpoint_of <$> (utxo_receive A <$> held) ++ paid chain A a z ->
  wp_spent part o = true <-> window_spent chain lo hi o.
Proof.
  intros Hs Ho. rewrite wp_spent_spec. split.
  - intros (s & (h & i & j & tx & _ & Hsp & _)%Hs & <-). by exists h, i, j, tx.
  - intros (h & i & j & tx & Hsp). exists (mkTransparentSpend o (txid tx) (Z.of_nat j) (Z.of_nat h) (Z.of_nat i)).
    split; [|done]. apply Hs. exists h, i, j, tx. by split_and!; [apply Hsp|apply Hsp|..].
Qed.

(** The outputs of the store that neither tier consumed, and those of the window. *)
Lemma still_held (held : list (Utxo (TransparentAddress := TA))) part a z :
  utxo_receive A <$> held ≡ₚ kept below (paid_ever below A) -> lo <= a ->
  (forall o, o ∈ outpoint_of <$> (utxo_receive A <$> held) ++ paid chain A a z -> wp_spent part o = true <-> window_spent chain lo hi o) ->
  filter (fun rc => negb (wp_spent part (outpoint_of rc)) = true) (utxo_receive A <$> held) ≡ₚ kept chain (paid_ever below A) /\
  filter (fun rc => negb (wp_spent part (outpoint_of rc)) = true) (paid chain A a z) = kept chain (paid chain A a z).
Proof.
  intros Hp Ha Hs. pose proof seam_ranges as (Hw & Hlo & _). split.
  - rewrite (filter_on _ (fun rc => spentb chain (outpoint_of rc) = false) (utxo_receive A <$> held)).
    + rewrite Hp. unfold kept. rewrite list_filter_filter. erewrite list_filter_iff; [reflexivity|]. intros rc. cbn beta.
      rewrite <- !not_true_iff_false, (spentb_below chain w Hw lo hi Hlo Htop). tauto.
    + intros rc Hrc. rewrite negb_true_iff, <- !not_true_iff_false, (spentb_below chain w Hw lo hi Hlo Htop).
      rewrite Hs by (apply list_elem_of_fmap; exists rc; split; [done|]; apply elem_of_app; by left).
      rewrite Hp in Hrc. apply list_elem_of_filter in Hrc as [Hk _]. rewrite Hk. split; [intros ? [?|?]; [done|tauto]|tauto].
  - unfold kept. apply filter_on. intros rc Hrc.
    assert (Hin : rc ∈ chain_receives chain /\ lo <= rc_height rc).
    { unfold paid in Hrc. apply list_elem_of_filter in Hrc as [[_ ?] ?]. split; [done|lia]. }
    rewrite negb_true_iff, <- !not_true_iff_false, (spentb_window chain Hv lo hi Htop rc) by apply Hin.
    rewrite Hs; [done|]. apply list_elem_of_fmap. exists rc. split; [done|]. apply elem_of_app. by right.
Qed.

Lemma valid_paid a z : Forall Zatoshis.valid (rc_value <$> paid chain A a z).
Proof. apply Forall_fmap, Forall_forall. intros rc [_ Hrc]%list_elem_of_filter. by apply (cv_values _ Hv). Qed.
Lemma paid_count a z : Z.of_nat (length (paid chain A a z)) < 2 ^ 64.
Proof. pose proof (cv_size _ Hv). unfold paid. pose proof (length_filter (pays A a z) (chain_receives chain)). lia. Qed.

Lemma total_paid_bound a z : total (rc_value <$> paid chain A a z) < 2 ^ 128.
Proof.
  pose proof (paid_count a z) as Hn. rewrite <- (length_fmap rc_value) in Hn.
  assert (Hb : forall l, Forall Zatoshis.valid l -> total l <= Z.of_nat (length l) * Zatoshis.MAX_ZATOSHIS).
  { intros l. unfold total, Zatoshis.valid. induction 1; cbn in *; lia. }
  specialize (Hb _ (valid_paid a z)). change Zatoshis.MAX_ZATOSHIS with 2100000000000000 in Hb. lia.
Qed.
Lemma in_non_empty a z h : in_range (non_empty (mkHeightRange a z)) h = true <-> a <= h <= z.
Proof.
  unfold non_empty. cbn. destruct (Z.leb_spec a z); cbn; [rewrite andb_true_iff, !Z.leb_le; lia|]. split; [done|lia].
Qed.
Lemma paid_everything_chain z : hi <= z -> paid chain A 0 z = paid_ever chain A.
Proof.
  intros Hz. apply filter_on. intros rc (h & i & tx & (b & Hb & _) & _ & E)%(receive_tx chain Hv).
  apply lookup_lt_Some in Hb. split; [by intros [? _]|]. intros ?. split; [done|lia].
Qed.
Lemma paid_everything_below : paid_ever below A = paid below A 0 w.
Proof.
  pose proof seam_ranges as (Hw & _). symmetry. apply filter_on. intros rc [Hrc Hle]%(elem_of_below chain w Hv Hw).
  apply (receive_tx chain Hv) in Hrc as (h & i & tx & _ & _ & E). split; [by intros [? _]|]. intros ?. split; [done|lia].
Qed.
Lemma list_filter_comm {X} (P Q : X -> Prop) `{!forall x, Decision (P x), !forall x, Decision (Q x)} (l : list X) :
  filter P (filter Q l) = filter Q (filter P l).
Proof. rewrite !list_filter_filter. apply list_filter_iff. tauto. Qed.

Lemma local_balance_seam a z bud :
  Height.valid a -> Height.valid z -> uint 64 (remaining bud) ->
  let n := (length (paid below A a (Z.min z w)) + length (paid_ever below A))%nat in
  Z.of_nat n <= remaining bud ->
  total (rc_value <$> kept below (paid below A a (Z.min z w))) <= Zatoshis.MAX_ZATOSHIS ->
  let held := total (rc_value <$> kept chain (paid chain A a z)) in
  local_balance v store window addr (mkHeightRange a z) bud =
  (if held <=? Zatoshis.MAX_ZATOSHIS
   then Ok (mkAddressBalance held (total (rc_value <$> paid chain A a z))) else Err AddressFatal, charge bud n).
Proof.
  intros Ha Hz Hbud n Hn Hcap held. pose proof seam_ranges as (Hw & Hlo & Hwh).
  unfold local_balance. rewrite seam_split by done.
  (* the store's half *)
  set (fsb := mkAddressBalance (total (rc_value <$> kept below (paid below A a (Z.min z w)))) (total (rc_value <$> paid below A a (Z.min z w)))).
  assert (Hfs : match non_empty (mkHeightRange a (Z.min z w)) with
    | Some range => Ports.balance store addr range bud | None => (empty_balance, bud) end = (Ok fsb, charge bud (length (paid below A a (Z.min z w))))).
  { unfold non_empty. cbn [range_start range_end]. destruct (Z.leb_spec a (Z.min z w)) as [Hle|Hgt].
    - apply ar_balance; [done| |done|lia|done]. unfold Height.valid in *. lia.
    - unfold fsb, charge. rewrite paid_none by lia. cbn. destruct bud. unfold empty_balance. cbn. do 2 f_equal. lia. }
  rewrite Hfs.
  destruct (ar_unspent (charge bud (length (paid below A a (Z.min z w))))) as (us & -> & Hus); [cbn; lia|].
  assert (charge (charge bud (length (paid below A a (Z.min z w)))) (length (paid_ever below A)) = charge bud n) as ->
    by (unfold charge; cbn; f_equal; lia).
  f_equal. unfold view_new at 1. cbn [nfs]. rewrite HN.
  destruct (part_spec (Z.max a (w + 1)) z (mkHeightRange lo hi) us) as (part & -> & Hrs & _ & Hss); [lia|].
  cbn [range_start range_end] in Hss.
  destruct (still_held us part (Z.max a (w + 1)) z Hus) as [Hst Hwin];
    [lia|intros o Ho; by apply (part_spent us (Z.max a (w + 1)) z part)|].
  assert (Hrv : Ports.tr_value <$> wp_receives part = rc_value <$> paid chain A (Z.max a (w + 1)) z)
    by (by rewrite <- Hrs, <- list_fmap_compose).
  assert (Hall : total (rc_value <$> paid chain A a z) =
    total (rc_value <$> paid below A a (Z.min z w)) + total (rc_value <$> paid chain A (Z.max a (w + 1)) z))
    by (by rewrite (paid_seam chain w A Hv Hw a z), fmap_app, total_app).
  rewrite Hrv, (proj2 (Zatoshis.balances_and_flows _ (valid_paid _ _)))
    by (rewrite length_fmap; pose proof (paid_count (Z.max a (w + 1)) z); lia).
  cbn [ok_or fsb bal_received]. unfold fsb. cbn [bal_received]. unfold Zatoshis.checked_join, checked_add. rewrite <- Hall.
  rewrite (proj2 (Z.ltb_lt _ _)) by apply total_paid_bound. cbn [ok_or].
  set (from_store := utxo_satoshis <$> _). set (from_window := Ports.tr_value <$> List.filter _ _).
  assert (HX : from_store ≡ₚ rc_value <$> kept chain (paid below A a (Z.min z w))).
  { unfold from_store. transitivity (rc_value <$> filter (fun rc => in_range (non_empty (mkHeightRange a (Z.min z w))) (rc_height rc) = true)
      (filter (fun rc => negb (wp_spent part (outpoint_of rc)) = true) (utxo_receive A <$> us))).
    - rewrite (list_filter_comm _ _ (utxo_receive A <$> us)).
      rewrite <- (fmap_filter_bool (utxo_receive A) (fun rc => in_range (non_empty (mkHeightRange a (Z.min z w))) (rc_height rc))).
      rewrite <- (fmap_filter_bool (utxo_receive A) (fun rc => negb (wp_spent part (outpoint_of rc)))), <- list_fmap_compose. done.
    - rewrite Hst. unfold kept. rewrite list_filter_comm. rewrite <- (paid_ever_below chain w A Hw a z).
      erewrite (list_filter_iff _ _ (paid_ever below A)); [reflexivity|]. intros rc. apply in_non_empty. }
  assert (HY : from_window = rc_value <$> kept chain (paid chain A (Z.max a (w + 1)) z)).
  { unfold from_window. rewrite <- Hwin, <- Hrs, <- (fmap_filter_bool (to_receive A) (fun rc => negb (wp_spent part (outpoint_of rc)))).
    by rewrite <- list_fmap_compose. }
  assert (HZ : from_store ++ from_window ≡ₚ rc_value <$> kept chain (paid chain A a z)).
  { rewrite HX, HY, <- fmap_app. unfold kept. by rewrite <- filter_app, <- (paid_seam chain w A Hv Hw a z). }
  assert (Hval : Forall Zatoshis.valid (from_store ++ from_window)).
  { rewrite HZ. apply Forall_fmap, Forall_forall. intros rc [_ [_ Hrc]%list_elem_of_filter]%list_elem_of_filter. by apply (cv_values _ Hv). }
  assert (Ht : total (from_store ++ from_window) = held) by (by rewrite HZ).
  rewrite (proj1 (Zatoshis.balances_and_flows _ Hval)), Ht. by destruct (held <=? Zatoshis.MAX_ZATOSHIS).
Qed.

(** Every unspent output of the chain, and those of the heights both tiers hold again. *)
Lemma local_unspent_seam bud :
  Z.of_nat (length (paid_ever below A)) <= remaining bud ->
  exists us, local_unspent_outpoints v store window addr bud = (Ok us, charge bud (length (paid_ever below A))) /\
    utxo_receive A <$> us ≡ₚ kept chain (paid_ever chain A) ++ kept chain (paid chain A lo w).
Proof.
  intros Hn. pose proof seam_ranges as (Hw & Hlo & Hwh). unfold local_unspent_outpoints.
  destruct (ar_unspent bud Hn) as (us & -> & Hus). unfold view_new at 1. cbn [nfs]. rewrite HN.
  destruct (part_spec lo hi (mkHeightRange lo hi) us) as (part & Hpart & Hrs & _ & Hss); [lia|].
  cbn [range_start range_end] in Hss. unfold non_empty in Hpart. cbn [range_start range_end] in Hpart.
  rewrite (proj2 (Z.leb_le lo hi)) in Hpart by lia. rewrite Hpart.
  destruct (still_held us part lo hi Hus) as [Hst Hwin]; [lia|intros o Ho; by apply (part_spent us lo hi part)|].
  eexists. split; [done|]. rewrite fmap_app.
  assert (H1 : utxo_receive A <$> List.filter (fun u => negb (wp_spent part (utxo_outpoint u))) us ≡ₚ kept chain (paid_ever below A)).
  { rewrite <- Hst, <- (fmap_filter_bool (utxo_receive A) (fun rc => negb (wp_spent part (outpoint_of rc)))). done. }
  assert (H2 : utxo_receive A <$> ((fun r => Ports.into_utxo r addr) <$>
    List.filter (fun r => negb (wp_spent part (receive_outpoint r))) (wp_receives part)) = kept chain (paid chain A lo hi)).
  { rewrite <- Hwin, <- Hrs, <- (fmap_filter_bool (to_receive A) (fun rc => negb (wp_spent part (outpoint_of rc)))).
    by rewrite <- list_fmap_compose. }
  rewrite H1, H2.
  assert (H3 : paid_ever chain A = paid_ever below A ++ paid chain A (w + 1) hi).
  { rewrite <- (paid_everything_chain hi), (paid_seam chain w A Hv Hw 0 hi) by lia. rewrite Z.min_r, Z.max_r by lia.
    f_equal. symmetry. apply paid_everything_below. }
  assert (H4 : paid chain A lo hi = paid chain A lo w ++ paid chain A (w + 1) hi).
  { rewrite (paid_seam chain w A Hv Hw lo hi), Z.min_r, Z.max_r by lia. f_equal.
    rewrite (paid_seam chain w A Hv Hw lo w), Z.min_id, Z.max_r, (paid_none chain A (w + 1) w), app_nil_r by lia. done. }
  rewrite H3, H4. unfold kept. rewrite !filter_app, <- app_assoc. f_equiv. apply Permutation_app_comm.
Qed.

(** ** Events *)
Lemma receive_unique rc rc' :
  rc ∈ chain_receives chain -> rc' ∈ chain_receives chain -> outpoint_of rc = outpoint_of rc' -> rc = rc'.
Proof.
  intros (h & i & k & tx & out & Ht & Hk & ->)%(elem_of_chain_receives chain rc (cv_heights _ Hv))
    (h' & i' & k' & tx' & out' & Ht' & Hk' & ->)%(elem_of_chain_receives chain rc' (cv_heights _ Hv)).
  unfold outpoint_of. cbn. intros [= Hid Hkk]. destruct (cv_txids _ Hv _ _ _ _ _ _ Ht Ht' Hid) as [-> ->].
  destruct Ht as (b & Hb & Hi), Ht' as (b' & Hb' & Hi'). apply Nat2Z.inj in Hkk as ->. by simplify_eq.
Qed.
Lemma receive_place rc h i tx h' i' tx' :
  tx_at chain h i tx -> txid tx = rc_txid rc -> tx_at chain h' i' tx' -> txid tx' = rc_txid rc -> h = h' /\ i = i'.
Proof. intros Ht Hid Ht' Hid'. apply (cv_txids _ Hv _ _ _ _ _ _ Ht Ht'). congruence. Qed.
Lemma tx_at_below h i tx : tx_at below h i tx <-> tx_at chain h i tx /\ Z.of_nat h <= w.
Proof.
  pose proof seam_ranges as (Hw & _). unfold tx_at. setoid_rewrite (finalised_lookup_Some chain w Hw). naive_solver.
Qed.
Lemma spent_at_below o h i j tx : spent_at below o h i j tx <-> spent_at chain o h i j tx /\ Z.of_nat h <= w.
Proof. unfold spent_at. rewrite tx_at_below. tauto. Qed.

(** The store's half: the events at or below the watermark. *)
Lemma store_deltas a z d :
  (exists rc, rc ∈ paid below A 0 (Z.min z w) /\
     (receive_delta below addr a (Z.min z w) rc d \/ spend_delta below addr a (Z.min z w) rc d)) <->
  exists rc, rc ∈ paid chain A 0 z /\ ad_height d <= w /\ (receive_delta chain addr a z rc d \/ spend_delta chain addr a z rc d).
Proof.
  pose proof seam_ranges as (Hw & _). unfold paid. setoid_rewrite list_elem_of_filter.
  setoid_rewrite (elem_of_below chain w Hv Hw). split.
  - intros (rc & [[Ha Hr] [Hrc Hle]] & [[Hb (h & i & tx & [Ht _]%tx_at_below & Hid & ->)]|(h & i & j & tx & [Hs Hh]%spent_at_below & Hb & ->)]);
      exists rc; (split; [split; [split; [done|lia]|done]|]); (split; [cbn; lia|]).
    + left. split; [lia|]. by exists h, i, tx.
    + right. exists h, i, j, tx. split; [done|]. split; [lia|done].
  - intros (rc & [[Ha Hr] Hrc] & Hd & [[Hb (h & i & tx & Ht & Hid & ->)]|(h & i & j & tx & Hs & Hb & ->)]); cbn in Hd; exists rc.
    + split; [split; [split; [done|lia]|by split]|]. left. split; [lia|]. exists h, i, tx. split; [|done]. apply tx_at_below. split; [done|].
      destruct (receive_tx chain Hv rc Hrc) as (h' & i' & tx' & Ht' & Hid' & E).
      destruct (receive_place rc h i tx h' i' tx' Ht Hid Ht' Hid') as [-> _]. lia.
    + pose proof (spent_after chain Hv rc h i j tx Hrc Hs). split; [split; [split; [done|lia]|split; [done|lia]]|].
      right. exists h, i, j, tx. split; [by apply spent_at_below|]. split; [lia|done].
Qed.
Lemma signed_valid v' : Zatoshis.valid v' -> signed (TransparentAddress := TA) v' Received = Ok v' /\ signed (TransparentAddress := TA) v' SpentSign = Ok (- v').
Proof.
  intros Hx. unfold signed, try_narrow, Zatoshis.signed_try_new. unfold Zatoshis.valid in Hx.
  change Zatoshis.MAX_ZATOSHIS with 2100000000000000 in *. rewrite (proj2 (Z.ltb_lt v' (2 ^ 63))) by lia. cbn [ok_or].
  rewrite !(proj2 (Z.leb_le _ 2100000000000000)) by lia. done.
Qed.

(** The window's half.  What it can be asked to look for: the outputs the store still
    holds, and those the window paid in the range. *)
Section WindowHalf.
Context (a z : Z) (us : list (Utxo (TransparentAddress := TA))) (part : WindowPart) (Ha : 0 <= a) (Hwz : w < z).
Context (Hus : utxo_receive A <$> us ≡ₚ kept below (paid_ever below A)).
Context (Hrs : to_receive A <$> wp_receives part = paid chain A (Z.max a (w + 1)) z).
Notation candidates := ((utxo_receive A <$> us) ++ paid chain A (Z.max a (w + 1)) z).

Lemma elem_of_candidates rc :
  rc ∈ candidates <->
  rc ∈ chain_receives chain /\ rc_addr rc = A /\
  (rc_height rc <= w /\ spentb below (outpoint_of rc) = false \/ Z.max a (w + 1) <= rc_height rc <= z).
Proof.
  pose proof seam_ranges as (Hw & _). rewrite elem_of_app, Hus. unfold kept, paid, paid_ever. rewrite !list_elem_of_filter.
  rewrite (elem_of_below chain w Hv Hw). unfold pays. tauto.
Qed.
Lemma candidate_value rc :
  rc ∈ candidates -> candidate_values us (wp_receives part) !! outpoint_of rc = Some (rc_value rc).
Proof.
  intros Hrc. unfold candidate_values. set (f := fun rc => (outpoint_of rc, rc_value rc)).
  assert (((fun u => (utxo_outpoint u, utxo_satoshis u)) <$> us) ++ ((fun r => (receive_outpoint r, Ports.tr_value r)) <$> wp_receives part)
    = f <$> candidates) as -> by (rewrite fmap_app, <- Hrs, <- !list_fmap_compose; done).
  apply collect_lookup; [by apply (list_elem_of_fmap_2 f)|].
  intros y (rc' & Heq & Hrc')%list_elem_of_fmap. unfold f in Heq. injection Heq as H1 H2 ->. f_equal. symmetry.
  apply elem_of_candidates in Hrc as [Hrc _], Hrc' as [Hrc' _]. apply receive_unique; [done..|]. unfold outpoint_of. by rewrite H1, H2.
Qed.

Context (Hloc : forall r, r ∈ wp_receives part -> exists h i tx, tx_at chain h i tx /\ Ports.tr_txid r = txid tx /\
   Ports.tr_height r = Z.of_nat h /\ Ports.tr_block_index r = Z.of_nat i).
Context (Hss : forall s, s ∈ wp_spends part <-> exists h i j tx, Z.max a (w + 1) <= Z.of_nat h <= z /\
   spent_in chain lo hi (ts_outpoint s) h i j tx /\ ts_outpoint s ∈ outpoint_of <$> candidates /\
   s = mkTransparentSpend (ts_outpoint s) (txid tx) (Z.of_nat j) (Z.of_nat h) (Z.of_nat i)).

Lemma window_deltas_seam :
  exists ds, window_deltas addr us part = Ok ds /\
    forall d, d ∈ ds <-> exists rc, rc ∈ paid chain A 0 z /\ w < ad_height d /\
      (receive_delta chain addr a z rc d \/ spend_delta chain addr a z rc d /\ (rc_height rc <= w \/ a <= rc_height rc)).
Proof.
  pose proof seam_ranges as (Hw & Hlo & _). unfold window_deltas.
  assert (Hrc : forall r, r ∈ wp_receives part -> to_receive A r ∈ candidates).
  { intros r Hr. apply elem_of_app. right. rewrite <- Hrs. by apply list_elem_of_fmap_2. }
  assert (Hval : forall rc, rc ∈ candidates -> Zatoshis.valid (rc_value rc))
    by (intros rc [Hin _]%elem_of_candidates; by apply (cv_values _ Hv)).
  destruct (map_result_elem (received_delta addr) (wp_receives part)) as (rds & -> & Hrds).
  { intros r Hr. unfold received_delta. destruct (signed_valid (Ports.tr_value r) (Hval _ (Hrc r Hr))) as [-> _]. by eexists. }
  destruct (map_result_elem (spent_delta addr (candidate_values us (wp_receives part))) (wp_spends part)) as (sds & -> & Hsds).
  { intros s (h & i & j & tx & _ & _ & (rc & Ho & Hc)%list_elem_of_fmap & _)%Hss. unfold spent_delta. rewrite Ho, (candidate_value rc Hc). cbn [ok_or].
    destruct (signed_valid (rc_value rc) (Hval rc Hc)) as [_ ->]. by eexists. }
  exists (rds ++ sds). split; [done|]. intros d. rewrite elem_of_app, Hrds, Hsds. unfold received_delta, spent_delta. split.
  - intros [(r & Hr & Hd)|(s & (h & i & j & tx & Hh & [Hlh Hs] & (rc & Ho & Hc)%list_elem_of_fmap & Es)%Hss & Hd)].
    + destruct (signed_valid (Ports.tr_value r) (Hval _ (Hrc r Hr))) as [E _]. rewrite E in Hd. injection Hd as <-.
      pose proof (proj1 (elem_of_candidates _) (Hrc r Hr)) as (Hin & _ & _). exists (to_receive A r).
      assert (Hp : to_receive A r ∈ paid chain A (Z.max a (w + 1)) z) by (rewrite <- Hrs; by apply list_elem_of_fmap_2).
      apply list_elem_of_filter in Hp as [[_ Hh] _]. cbn in Hh. split; [apply list_elem_of_filter; split; [|done]; split; [done|cbn; lia]|].
      split; [cbn; lia|]. left. split; [cbn; lia|]. destruct (Hloc r Hr) as (h & i & tx & Ht & Hid & E1 & E2).
      exists h, i, tx. split; [done|]. split; [by rewrite <- Hid|]. cbn. by rewrite E2.
    + rewrite Ho, (candidate_value rc Hc) in Hd. cbn [ok_or] in Hd.
      destruct (signed_valid (rc_value rc) (Hval rc Hc)) as [_ E]. rewrite E in Hd. injection Hd as <-.
      apply elem_of_candidates in Hc as (Hin & HA & Hor). rewrite Ho in Hs. pose proof (spent_after chain Hv rc h i j tx Hin Hs).
      destruct (receive_tx chain Hv rc Hin) as (h0 & _ & _ & _ & _ & E0).
      exists rc. split; [apply list_elem_of_filter; split; [|done]; split; [done|lia]|]. rewrite Es. cbn. split; [lia|].
      right. split; [|lia]. exists h, i, j, tx. split; [done|]. split; [lia|done].
  - intros (rc & [[HA Hrng] Hin]%list_elem_of_filter & Hd & [[Hb (h & i & tx & Ht & Hid & ->)]|[(h & i & j & tx & Hs & Hb & ->) Hor]]); cbn in Hd.
    + left. assert (Hp : rc ∈ to_receive A <$> wp_receives part)
        by (rewrite Hrs; apply list_elem_of_filter; split; [|done]; split; [done|lia]).
      apply list_elem_of_fmap in Hp as (r & -> & Hr). exists r. split; [done|].
      destruct (signed_valid (Ports.tr_value r) (Hval _ (Hrc r Hr))) as [-> _].
      destruct (Hloc r Hr) as (h' & i' & tx' & Ht' & Hid' & _ & E2).
      destruct (receive_place (to_receive A r) h i tx h' i' tx' Ht Hid Ht' (eq_sym Hid')) as [_ ->]. cbn. by rewrite E2.
    + right. assert (Hc : rc ∈ candidates).
      { apply elem_of_candidates. split; [done|]. split; [done|]. pose proof (spent_after chain Hv rc h i j tx Hin Hs).
        destruct (Z.le_gt_cases (rc_height rc) w); [left; split; [done|]|right; lia]. apply not_true_iff_false.
        intros (h' & i' & j' & tx' & [Hs' Hh']%spent_at_below)%spentb_spec.
        destruct (cv_once _ Hv _ _ _ _ _ _ _ _ _ Hs Hs') as [-> _]. lia. }
      pose proof (spent_at_top chain hi Htop _ _ _ _ _ Hs).
      exists (mkTransparentSpend (outpoint_of rc) (txid tx) (Z.of_nat j) (Z.of_nat h) (Z.of_nat i)). split.
      * apply Hss. exists h, i, j, tx. cbn. split; [lia|]. split; [split; [lia|done]|]. split; [by apply list_elem_of_fmap_2|done].
      * cbn. rewrite (candidate_value rc Hc). cbn. by destruct (signed_valid (rc_value rc) (Hval rc Hc)) as [_ ->].
Qed.
End WindowHalf.

Lemma delta_height a z rc d : receive_delta chain addr a z rc d \/ spend_delta chain addr a z rc d -> a <= ad_height d <= z.
Proof. intros [[Hb (h & i & tx & _ & _ & ->)]|(h & i & j & tx & _ & Hb & ->)]; cbn; lia. Qed.
Lemma paid_le_ever (below' : list Block) z : (length (paid below' A 0 z) <= length (paid_ever below' A))%nat.
Proof.
  assert (paid below' A 0 z = filter (fun rc => 0 <= rc_height rc <= z) (paid_ever below' A)) as ->; [|apply length_filter].
  unfold paid, paid_ever. rewrite list_filter_filter. apply list_filter_iff. intros rc. unfold pays. tauto.
Qed.
(** The two halves of an event read: what the store answers for its part of the range,
    then what the window's walk adds. *)
Lemma local_events_seam {X} (read : TA -> HeightRange -> Ports.charged TA (list X)) from_window a z bud
    (below_half above_half : list X -> Prop) :
  Height.valid a -> Height.valid z -> 2 * Z.of_nat (length (paid_ever below A)) <= remaining bud ->
  (forall bud, a <= Z.min z w -> Z.of_nat (length (paid below A 0 (Z.min z w))) <= remaining bud ->
     exists es, read addr (mkHeightRange a (Z.min z w)) bud = (Ok es, charge bud (length (paid below A 0 (Z.min z w)))) /\ below_half es) ->
  (Z.min z w < a -> below_half []) ->
  (forall us part, Z.max a (w + 1) <= z -> utxo_receive A <$> us ≡ₚ kept below (paid_ever below A) ->
     to_receive A <$> wp_receives part = paid chain A (Z.max a (w + 1)) z ->
     (forall r, r ∈ wp_receives part -> exists h i tx, tx_at chain h i tx /\ Ports.tr_txid r = txid tx /\
        Ports.tr_height r = Z.of_nat h /\ Ports.tr_block_index r = Z.of_nat i) ->
     (forall s, s ∈ wp_spends part <-> exists h i j tx, Z.max a (w + 1) <= Z.of_nat h <= z /\
        spent_in chain lo hi (ts_outpoint s) h i j tx /\
        ts_outpoint s ∈ outpoint_of <$> (utxo_receive A <$> us) ++ paid chain A (Z.max a (w + 1)) z /\
        s = mkTransparentSpend (ts_outpoint s) (txid tx) (Z.of_nat j) (Z.of_nat h) (Z.of_nat i)) ->
     exists ds, from_window us part = Ok ds /\ above_half ds) ->
  (z < Z.max a (w + 1) -> above_half []) ->
  exists es ds bud', local_events v store window read from_window addr (mkHeightRange a z) bud = (Ok (es ++ ds), bud') /\
    (limit bud' = limit bud /\ remaining bud - 2 * Z.of_nat (length (paid_ever below A)) <= remaining bud' <= remaining bud) /\
    below_half es /\ above_half ds.
Proof.
  intros Ha Hz Hbud Hread Hbelow Hpart Habove. pose proof seam_ranges as (Hw & Hlo & Hwh). unfold local_events. rewrite seam_split by done.
  pose proof (paid_le_ever below (Z.min z w)) as Hle.
  assert (Hfs : exists es bud', match non_empty (mkHeightRange a (Z.min z w)) with
      | Some range => read addr range bud | None => (Ok [], bud) end = (Ok es, bud') /\
      (limit bud' = limit bud /\ remaining bud - Z.of_nat (length (paid_ever below A)) <= remaining bud' <= remaining bud) /\ below_half es).
  { unfold non_empty. cbn [range_start range_end]. destruct (Z.leb_spec a (Z.min z w)).
    - destruct (Hread bud) as (es & -> & Hes); [lia..|]. eexists es, _. split; [done|]. split; [|done]. cbn. lia.
    - exists [], bud. split; [done|]. split; [lia|]. apply Hbelow. lia. }
  destruct Hfs as (es & bud' & -> & Hbud' & Hes). unfold non_empty. cbn [range_start range_end].
  destruct (Z.leb_spec (Z.max a (w + 1)) z) as [Hwin|Hnone].
  - destruct (ar_unspent bud') as (us & -> & Hus); [lia|].
    destruct (part_spec (Z.max a (w + 1)) z (mkHeightRange (Z.max a (w + 1)) z) us) as (part & Hp & Hrs & Hloc & Hss); [lia|].
    unfold non_empty in Hp. cbn [range_start range_end] in Hp. rewrite (proj2 (Z.leb_le _ _)) in Hp by done. rewrite Hp.
    destruct (Hpart us part) as (ds & -> & Hds); [done..|]. eexists es, ds, _. split; [done|]. split; [|done]. cbn. lia.
  - exists es, [], bud'. rewrite app_nil_r. split; [done|]. split; [lia|]. split; [done|]. apply Habove. lia.
Qed.
Lemma local_deltas_seam a z bud :
  Height.valid a -> Height.valid z -> 2 * Z.of_nat (length (paid_ever below A)) <= remaining bud ->
  exists ds bud', local_deltas v store window addr (mkHeightRange a z) bud = (Ok ds, bud') /\
    (limit bud' = limit bud /\ remaining bud - 2 * Z.of_nat (length (paid_ever below A)) <= remaining bud' <= remaining bud) /\
    forall d, d ∈ ds <-> exists rc, rc ∈ paid chain A 0 z /\
      (receive_delta chain addr a z rc d \/ spend_delta chain addr a z rc d /\ (rc_height rc <= w \/ a <= rc_height rc)).
Proof.
  intros Ha Hz Hbud. pose proof seam_ranges as (Hw & Hlo & Hwh).
  destruct (local_events_seam (Ports.deltas store) (window_deltas addr) a z bud
    (fun es => forall d, d ∈ es <-> exists rc, rc ∈ paid chain A 0 z /\ ad_height d <= w /\
       (receive_delta chain addr a z rc d \/ spend_delta chain addr a z rc d))
    (fun ds => forall d, d ∈ ds <-> exists rc, rc ∈ paid chain A 0 z /\ w < ad_height d /\
       (receive_delta chain addr a z rc d \/ spend_delta chain addr a z rc d /\ (rc_height rc <= w \/ a <= rc_height rc))))
    as (es & ds & bud' & He & Hbud' & Hes & Hds); [done..| | | | |].
  - intros bud' Hle Hn. destruct (ar_deltas a (Z.min z w) bud') as (es & He & Hm); [done|unfold Height.valid in *; lia|done|].
    exists es. split; [done|]. intros d. rewrite Hm. apply store_deltas.
  - intros Hlt d. split; [by intros ?%elem_of_nil|]. intros (rc & _ & Hd & Hev%delta_height). lia.
  - intros us part Hle Hus Hrs Hloc Hss. apply (window_deltas_seam a z us part); (lia || done).
  - intros Hlt d. split; [by intros ?%elem_of_nil|]. intros (rc & _ & Hd & [Hr|[Hs _]]);
      [pose proof (delta_height a z rc d (or_introl Hr))|pose proof (delta_height a z rc d (or_intror Hs))]; lia.
  - exists (es ++ ds), bud'. split; [exact He|]. split; [done|]. intros d. rewrite elem_of_app, Hes, Hds. split.
    + intros [(rc & Hrc & Hd & [Hr|Hs])|(rc & Hrc & _ & Hev)]; [..|by exists rc]; exists rc; (split; [done|]); [by left|right; split; [done|]].
      destruct Hs as (h & i & j & tx & Hs & _ & ->). cbn in Hd. apply list_elem_of_filter in Hrc as [_ Hrc].
      pose proof (spent_after chain Hv rc h i j tx Hrc Hs). lia.
    + intros (rc & Hrc & Hev). destruct (Z.le_gt_cases (ad_height d) w); [left|right]; exists rc; (split; [done|]); (split; [lia|]); [tauto|done].
Qed.

(** The transactions an address is in, as the two halves see them. *)
Definition moved (a z : Z) (rc : AddressReceive) (x : Located) : Prop :=
  exists h i tx, tx_at chain h i tx /\ a <= Z.of_nat h <= z /\ x = (Z.of_nat h, Some (Z.of_nat i), txid tx) /\
    (txid tx = rc_txid rc \/
     (exists j, spent_at chain (outpoint_of rc) h i j tx) /\ (rc_height rc <= w \/ a <= rc_height rc)).
Lemma moved_receive rc h i tx : rc ∈ chain_receives chain -> tx_at chain h i tx -> txid tx = rc_txid rc -> rc_height rc = Z.of_nat h.
Proof.
  intros Hrc Ht Hid. destruct (receive_tx chain Hv rc Hrc) as (h' & i' & tx' & Ht' & Hid' & E).
  by destruct (receive_place rc h i tx h' i' tx' Ht Hid Ht' Hid') as [-> _].
Qed.
Lemma store_tx_ids a z x :
  (exists rc, rc ∈ paid below A 0 (Z.min z w) /\ touches below a (Z.min z w) rc x) <->
  exists rc, rc ∈ paid chain A 0 z /\ x.1.1 <= w /\ moved a z rc x.
Proof.
  pose proof seam_ranges as (Hw & _). unfold paid, touches, moved. setoid_rewrite list_elem_of_filter.
  setoid_rewrite (elem_of_below chain w Hv Hw). setoid_rewrite tx_at_below. setoid_rewrite spent_at_below. split.
  - intros (rc & [[Ha Hr] [Hrc Hle]] & h & i & tx & [Ht Hh] & Hb & -> & Hor). exists rc. split; [split; [split; [done|lia]|done]|].
    split; [cbn; lia|]. exists h, i, tx. split; [done|]. split; [lia|]. split; [done|].
    destruct Hor as [?|[j [Hj _]]]; [by left|right]. split; [by exists j|lia].
  - intros (rc & [[Ha Hr] Hrc] & Hx & h & i & tx & Ht & Hb & -> & Hor). cbn in Hx. exists rc.
    assert (Hle : rc_height rc <= Z.of_nat h).
    { destruct Hor as [Hid|[[j Hj] _]]; [rewrite (moved_receive rc h i tx Hrc Ht Hid); lia|by eapply spent_after]. }
    split; [split; [split; [done|lia]|split; [done|lia]]|]. exists h, i, tx. split; [split; [done|lia]|]. split; [lia|]. split; [done|].
    destruct Hor as [?|[[j Hj] _]]; [by left|right; by exists j].
Qed.
Lemma located_app (xs ys : list Located) :
  (forall x, x ∈ xs -> x.1.1 <= w) -> (forall y, y ∈ ys -> w < y.1.1) -> NoDup xs -> NoDup ys ->
  StronglySorted located_le xs -> StronglySorted located_le ys -> NoDup (xs ++ ys) /\ StronglySorted located_le (xs ++ ys).
Proof.
  intros Hxs Hys Nx Ny Sx Sy. split.
  - apply NoDup_app. split; [done|]. split; [|done]. intros x Hx Hy. specialize (Hxs x Hx). specialize (Hys x Hy). lia.
  - induction Sx as [|x xs Sx IH Hx]; [done|]. cbn. apply NoDup_cons in Nx as [_ Nx]. constructor.
    + apply IH; [|done]. intros y Hy. apply Hxs. by apply list_elem_of_further.
    + apply Forall_app. split; [done|]. apply Forall_forall. intros y Hy. apply located_le_spec.
      specialize (Hxs x (list_elem_of_here _ _)). specialize (Hys y Hy). left. lia.
Qed.
(** What the window can find spent: an output made at or below the watermark, or within
    the range. *)
Lemma spent_candidate a z (us : list (Utxo (TransparentAddress := TA))) rc h i j tx :
  utxo_receive A <$> us ≡ₚ kept below (paid_ever below A) ->
  rc ∈ chain_receives chain -> spent_at chain (outpoint_of rc) h i j tx -> w < Z.of_nat h <= z ->
  rc ∈ (utxo_receive A <$> us) ++ paid chain A (Z.max a (w + 1)) z <->
  rc_addr rc = A /\ (rc_height rc <= w \/ a <= rc_height rc).
Proof.
  intros Hus Hrc Hs Hh. rewrite (elem_of_candidates a z us Hus). pose proof (spent_after chain Hv rc h i j tx Hrc Hs). split.
  - intros (_ & ? & [[? _]|?]); (split; [done|lia]).
  - intros [HA Hor]. split; [done|]. split; [done|]. destruct (Z.le_gt_cases (rc_height rc) w); [left; split; [done|]|right; lia].
    apply not_true_iff_false. intros (h' & i' & j' & tx' & [Hs' Hh']%spent_at_below)%spentb_spec.
    destruct (cv_once _ Hv _ _ _ _ _ _ _ _ _ Hs Hs') as [-> _]. lia.
Qed.
Lemma window_txids_seam a z (us : list (Utxo (TransparentAddress := TA))) (part : WindowPart) :
  0 <= a -> w < z ->
  utxo_receive A <$> us ≡ₚ kept below (paid_ever below A) ->
  to_receive A <$> wp_receives part = paid chain A (Z.max a (w + 1)) z ->
  (forall r, r ∈ wp_receives part -> exists h i tx, tx_at chain h i tx /\ Ports.tr_txid r = txid tx /\
     Ports.tr_height r = Z.of_nat h /\ Ports.tr_block_index r = Z.of_nat i) ->
  (forall s, s ∈ wp_spends part <-> exists h i j tx, Z.max a (w + 1) <= Z.of_nat h <= z /\
     spent_in chain lo hi (ts_outpoint s) h i j tx /\
     ts_outpoint s ∈ outpoint_of <$> (utxo_receive A <$> us) ++ paid chain A (Z.max a (w + 1)) z /\
     s = mkTransparentSpend (ts_outpoint s) (txid tx) (Z.of_nat j) (Z.of_nat h) (Z.of_nat i)) ->
  exists ys : list Located, window_txids part = (fun x => (Some x.1.1, x.1.2, x.2)) <$> ys /\
    NoDup ys /\ StronglySorted located_le ys /\
    forall y, y ∈ ys <-> exists rc, rc ∈ paid chain A 0 z /\ w < y.1.1 /\ moved a z rc y.
Proof.
  intros Ha Hwz Hus Hrs Hloc Hss. pose proof seam_ranges as (Hw & Hlo & _). unfold window_txids.
  set (l := _ ++ _). exists (dedup (merge_sort located_le l)). pose proof (StronglySorted_merge_sort located_le l) as Hs.
  destruct (dedup_NoDup located_le _ Hs) as [Hnd Hsd]. split_and!; [by apply list_fmap_ext; intros i [[? ?] ?]|done|done|].
  intros y. rewrite elem_of_dedup, merge_sort_Permutation. unfold l. rewrite elem_of_app, !list_elem_of_fmap. split.
  - intros [(r & -> & Hr)|(s & -> & (h & i & j & tx & Hh & [_ Hsp] & (rc & Ho & Hc)%list_elem_of_fmap & Es)%Hss)].
    + assert (Hp : to_receive A r ∈ paid chain A (Z.max a (w + 1)) z) by (rewrite <- Hrs; by apply list_elem_of_fmap_2).
      apply list_elem_of_filter in Hp as [[_ Hh] Hin]. cbn in Hh. destruct (Hloc r Hr) as (h & i & tx & Ht & Hid & E1 & E2).
      exists (to_receive A r). split; [apply list_elem_of_filter; split; [|done]; split; [done|cbn; lia]|]. split; [cbn; lia|].
      exists h, i, tx. split; [done|]. split; [lia|]. rewrite E1, E2, Hid. split; [done|]. by left.
    + rewrite Ho in Hsp. assert (Hin : rc ∈ chain_receives chain) by by apply (elem_of_candidates a z us Hus) in Hc as [? _].
      apply (spent_candidate a z us rc h i j tx Hus Hin Hsp) in Hc as [HA Hor]; [|lia].
      pose proof (spent_after chain Hv rc h i j tx Hin Hsp). destruct (receive_tx chain Hv rc Hin) as (h0 & _ & _ & _ & _ & E0).
      exists rc. split; [apply list_elem_of_filter; split; [|done]; split; [done|lia]|]. rewrite Es. cbn. split; [lia|].
      exists h, i, tx. split; [apply Hsp|]. split; [lia|]. split; [done|]. right. split; [by exists j|done].
  - intros (rc & [[HA Hrng] Hin]%list_elem_of_filter & Hy & h & i & tx & Ht & Hb & -> & [Hid|[[j Hj] Hor]]); cbn in Hy.
    + left. pose proof (moved_receive rc h i tx Hin Ht Hid) as E. assert (Hp : rc ∈ to_receive A <$> wp_receives part)
        by (rewrite Hrs; apply list_elem_of_filter; split; [|done]; split; [done|lia]).
      apply list_elem_of_fmap in Hp as (r & -> & Hr). exists r. split; [|done].
      destruct (Hloc r Hr) as (h' & i' & tx' & Ht' & Hid' & E1 & E2).
      destruct (receive_place (to_receive A r) h i tx h' i' tx' Ht Hid Ht' (eq_sym Hid')) as [-> ->].
      by rewrite E1, E2, Hid.
    + right. pose proof (spent_at_top chain hi Htop _ _ _ _ _ Hj).
      exists (mkTransparentSpend (outpoint_of rc) (txid tx) (Z.of_nat j) (Z.of_nat h) (Z.of_nat i)). split; [done|].
      apply Hss. exists h, i, j, tx. cbn. split; [lia|]. split; [split; [lia|done]|]. split; [|done]. apply list_elem_of_fmap_2.
      apply (spent_candidate a z us rc h i j tx Hus Hin Hj); [lia|done].
Qed.
Lemma local_tx_ids_seam a z bud :
  Height.valid a -> Height.valid z -> 2 * Z.of_nat (length (paid_ever below A)) <= remaining bud ->
  exists (xs : list Located) bud',
    local_tx_ids v store window addr (mkHeightRange a z) bud = (Ok ((fun x => (Some x.1.1, x.1.2, x.2)) <$> xs), bud') /\
    (limit bud' = limit bud /\ remaining bud - 2 * Z.of_nat (length (paid_ever below A)) <= remaining bud' <= remaining bud) /\
    NoDup xs /\ StronglySorted located_le xs /\
    forall x, x ∈ xs <-> exists rc, rc ∈ paid chain A 0 z /\ moved a z rc x.
Proof.
  intros Ha Hz Hbud. pose proof seam_ranges as (Hw & Hlo & Hwh).
  set (half := fun (side : Z -> Prop) (es : list (option Z * option Z * TransactionId)) =>
    exists xs : list Located, es = (fun x => (Some x.1.1, x.1.2, x.2)) <$> xs /\ NoDup xs /\ StronglySorted located_le xs /\
      forall x, x ∈ xs <-> exists rc, rc ∈ paid chain A 0 z /\ side x.1.1 /\ moved a z rc x).
  assert (Hnone : forall side : Z -> Prop, (forall h, a <= h <= z -> ~ side h) -> half side []).
  { intros side Hno. exists []. split_and!; [done|constructor|constructor|]. intros x. split; [by intros ?%elem_of_nil|].
    intros (rc & _ & Hx & h & i & tx & _ & Hb & -> & _). destruct (Hno _ Hb Hx). }
  destruct (local_events_seam (Ports.tx_ids store) (fun _ part => Ok (window_txids part)) a z bud
    (half (fun h => h <= w)) (half (fun h => w < h))) as (es & ds & bud' & He & Hbud' & (xs & -> & Nx & Sx & Hx) & (ys & -> & Ny & Sy & Hy)); [done..| | | | |].
  - intros bud' Hle Hn. destruct (ar_tx_ids a (Z.min z w) bud') as (xs & He & Hnd & Hs & Hm); [done|unfold Height.valid in *; lia|done|].
    eexists. split; [done|]. exists xs. split_and!; [done..|]. intros x. rewrite Hm. apply store_tx_ids.
  - intros Hlt. apply Hnone. intros h Hh. lia.
  - intros us part Hle Hus Hrs Hloc Hss. eexists. split; [done|]. unfold Height.valid in Ha. eapply window_txids_seam; try done; lia.
  - intros Hlt. apply Hnone. intros h Hh. lia.
  - destruct (located_app xs ys) as [Hnd Hs]; [by intros x (? & _ & ? & _)%Hx|by intros y (? & _ & ? & _)%Hy|done..|].
    exists (xs ++ ys), bud'. rewrite fmap_app. split; [exact He|]. split; [done|]. split_and!; [done..|].
    intros x. rewrite elem_of_app, Hx, Hy. split; [naive_solver|]. intros (rc & Hrc & Hm).
    destruct (Z.le_gt_cases x.1.1 w); [left|right]; exists rc; (split; [done|]); (split; [lia|done]).
Qed.
End Local.
End LocalAddress.
