(* ===== verification/Composed.v ===== *)
(** * The store and the head behind one view ([packages/zaino-core/src/chain_view/snapshot.rs],
    [packages/zaino-core/src/engine/{block_hash,spend,address}.rs])

    The composed reads over the two tiers the daemon runs: the finalised store below the
    watermark and the chain head's window above it. *)

From S2P Require Import Prelude Primitives Types Persistence Codec ChainGraph Bridge Indexes IndexSet Store StoreCorrect Address HistoryCorrect AddressCorrect BlockTime Head HeadCorrect View ViewCorrect LocalAddress.
From stdpp Require Import base gmap list strings sorting.
From Stdlib Require Import Lia.
Open Scope Z_scope.

Module Composed.
Import Bytes Kv ChainGraph Indexes IndexSet Store StoreCorrect Address HistoryCorrect AddressCorrect Tiers HeadCorrect Head View ViewCorrect LocalAddress.

(** The order of the answers of a timestamp range. *)
Lemma hash_at_le_spec a b : hash_at_le a b <-> bh_time a < bh_time b \/ bh_time a = bh_time b /\ bytes_le (bh_hash a) (bh_hash b).
Proof. apply then_compare_not_gt. Qed.
Global Instance hash_at_le_total : Total hash_at_le.
Proof.
  intros a b. rewrite !hash_at_le_spec. pose proof (bytes_le_total (bh_hash a) (bh_hash b)).
  destruct (Z.lt_trichotomy (bh_time a) (bh_time b)) as [?|[?|?]]; intuition lia.
Qed.
Global Instance hash_at_le_trans : Transitive hash_at_le.
Proof.
  intros a b c. rewrite !hash_at_le_spec.
  pose proof (transitivity (R := bytes_le) (x := bh_hash a) (y := bh_hash b) (z := bh_hash c)). intuition lia.
Qed.

(** The store holds the compact indexes of the chain up to its watermark. *)
Record store_of {BSt} (B : Backend BSt) (abs : BSt -> store) (b : BSt) (s : StoreSnapshot) (chain : list Block) (w : Z) : Prop := {
  so_watermark : 0 <= w < Z.of_nat (length chain);
  so_snapshot : Store.snapshot B b = Ok s /\ watermark s = Some w;
  so_indexed : exists r cs, b_reader B b = Ok r /\ chain_contexts (finalised chain w) cs /\ compact_indexed (abs b) cs /\
    r_is_complete r hash_to_height_ID = Ok true }.
(** The store holds the history indexes of the chain up to its watermark. *)
Record history_of {BSt} (B : Backend BSt) (abs : BSt -> store) (b : BSt) (s : StoreSnapshot) (chain : list Block) (w : Z) : Prop := {
  ho_watermark : 0 <= w < Z.of_nat (length chain) /\ watermark s = Some w;
  ho_indexed : exists r cs, b_reader B b = Ok r /\ chain_contexts (finalised chain w) cs /\ address_indexed (abs b) cs /\
    r_is_complete r address_history_ID = Ok true /\ r_is_complete r transparent_spends_ID = Ok true /\
    r_is_complete r txid_location_ID = Ok true }.
(** The head's window is the end of the chain, from [lo] to the tip. *)
Record head_of `{HashIter} (tree : BlockHash -> option TreeEntry) (g : MapBackedSnapshot) (chain : list Block) (lo hi : Z) : Prop := {
  hd_tree : tree_ok tree;
  hd_window : window_of tree chain g;
  hd_coverage : head_coverage g = Some (mkHeightRange lo hi) }.

Lemma head_tip `{HashIter} tree g chain lo hi :
  head_of tree g chain lo hi -> 0 <= lo <= hi /\ hi = Z.of_nat (length chain) - 1.
Proof. intros [? ? ?]. destruct (window_range tree) with (chain := chain) (g := g) (lo := lo) (hi := hi) as (? & ? & _); done. Qed.

Section Views.
Context `{HashIter} {BSt : Type} (B : Backend BSt) (abs : BSt -> store) `{!BackendSpec B abs}.
Context (b : BSt) (s : StoreSnapshot) (tree : BlockHash -> option TreeEntry) (g : MapBackedSnapshot).
Context (chain : list Block) (w lo hi : Z).
Notation v := (view_new (store_tier B s b) (head_tier g)).

Lemma composed_tiers :
  store_of B abs b s chain w -> head_of tree g chain lo hi ->
  TierSpec (store_tier B s b) chain 0 w /\ TierSpec (head_tier g) chain lo hi.
Proof.
  intros [Hw [Hs Hwm] (r & cs & Hr & Hcs & Hst & Hc)] [Ht Hwin Hcov]. split; [|by eapply head_tier_spec].
  eapply store_tier_spec; try done. apply (wo_small _ _ _ Hwin).
Qed.

(** C5: the composed view serves the chain: it covers every height to the tip and reports
    the chain's last block; a block or a header is the chain's at its height, whichever
    side of the seam holds it; a height in the gap between the watermark and the head's
    floor is refused, one above the tip is a miss; a block is found by its hash, a hash
    the chain does not have is a miss; and a stream is the same answers in order. *)
Theorem composed_chain_served :
  store_of B abs b s chain w -> head_of tree g chain lo hi ->
  NoDup ((fun b => h_hash (header b)) <$> chain) ->
  (view_coverage v = Some (mkHeightRange 0 hi) /\ view_pinned_tip v = block_ref <$> last chain /\
   view_serviceable_range v = Some (mkServiceableRange (Some w) hi)) /\
  (forall h, 0 <= h ->
     view_compact_block v (AtHeight h) = (if in_gap w lo h then Err (NotServiceable Blocks) else Ok (served chain (Z.to_nat h))) /\
     view_header v h = (if in_gap w lo h then Err (NotServiceable Blocks) else Ok (summary <$> chain !! Z.to_nat h))) /\
  (forall i bl, chain !! i = Some bl -> hash32 (h_hash (header bl)) -> in_gap w lo (Z.of_nat i) = false ->
     view_compact_block v (AtHash (h_hash (header bl))) = Ok (served chain i)) /\
  (forall hash, hash32 hash -> (forall i bl, chain !! i = Some bl -> h_hash (header bl) <> hash) ->
     view_compact_block v (AtHash hash) = Ok None) /\
  (forall a z, Height.valid a -> Height.valid z ->
     view_stream_compact v (mkHeightRange a z) =
     omap (fun h => if in_gap w lo h then Some (Err (NotServiceable Blocks)) else Ok <$> served chain (Z.to_nat h))
       (seqZ a (z - a + 1))).
Proof.
  intros Hs Hh Hnd. destruct (composed_tiers Hs Hh) as [HF HN]. destruct (head_tip _ _ _ _ _ Hh) as [_ Hhi].
  pose proof (wo_heights _ _ _ (hd_window _ _ _ _ _ Hh)) as Hheights. split; [by eapply (view_span _ _ chain w lo hi)|].
  split; [by intros h Hh0; split; [eapply view_block_at|eapply view_header_at]|].
  split; [intros; by eapply view_block_by_hash|]. split; [intros; by eapply view_no_block|].
  intros; by eapply view_stream.
Qed.

(** C11: [getblockhashes] is exact: over a chain without a gap whose timestamps obey
    consensus, it ends and answers the height, hash and time of exactly the blocks whose
    timestamp is in the range, ordered by time and then by hash. *)
Theorem block_hashes_exact low high :
  store_of B abs b s chain w -> head_of tree g chain lo hi -> lo <= w + 1 -> 0 <= low ->
  BlockTime.times_ok BlockTime.MAINNET ((fun b => h_time (header b)) <$> chain) ->
  exists hs, block_hashes v low high = Some (Ok hs) /\ StronglySorted hash_at_le hs /\ hs ≡ₚ hash_entries chain low high.
Proof.
  intros Hs Hh Hseam Hlow Ht. destruct (composed_tiers Hs Hh) as [HF HN]. destruct (head_tip _ _ _ _ _ Hh) as [_ Hhi].
  pose proof (hd_window _ _ _ _ _ Hh) as Hw. eexists. split.
  - eapply (block_hashes_scan _ _ chain w lo hi); try done; [apply (wo_heights _ _ _ Hw)|apply (wo_small _ _ _ Hw)].
  - split; [apply (StronglySorted_merge_sort _)|apply merge_sort_Permutation].
Qed.


Section Addresses.
Context {TA : Type} (parse : TA -> option ParsedAddress) (addr : TA) (t : ScriptType) (hash : list Z).
Notation A := (mkAddrId t hash).
Notation below := (finalised chain w).
Notation addresses := (store_addresses B b parse).
Notation window := (head_receive_read parse g).

(** The promises of both tiers for one address. *)
Lemma composed_addresses :
  history_of B abs b s chain w -> head_of tree g chain lo hi ->
  transparent_address_key parse addr = Some (t, hash) -> length hash = 20%nat ->
  Ports.coverage (store_tier B s b) = Some (mkHeightRange 0 w) /\ Ports.coverage (head_tier g) = Some (mkHeightRange lo hi) /\
  (0 <= w < Z.of_nat (length chain) /\ 0 <= lo <= hi) /\ AddressReadSpec addresses below addr A /\
  ReceiveReadSpec window chain lo hi addr A /\ hi = Z.of_nat (length chain) - 1.
Proof.
  intros [[Hw Hwm] (r & cs & Hr & Hcs & Hst & Hc1 & Hc2 & Hc3)] Hh Hk Hl. destruct (head_tip _ _ _ _ _ Hh) as [Hlo Hhi].
  destruct Hh as [Ht Hwin Hcov]. pose proof (wo_small _ _ _ Hwin) as Hsmall.
  split_and!; try done; try lia.
  - cbn. unfold Store.coverage. by rewrite Hwm.
  - eapply store_addresses_spec; try done. rewrite finalised_length; lia.
  - by eapply head_receive_read_spec.
Qed.
Ltac with_tiers := intros Hs Hh Hv Hseam Hk Hl; destruct (composed_addresses Hs Hh Hk Hl) as (HF & HN & Hr & Ha & Hw & Hhi).


(** The composed unspent outputs hold every output of the chain that pays the address
    and is unspent, and hold a second time those received at the heights both the store
    and the head's window cover. *)
Theorem local_unspent_doubled bud :
  history_of B abs b s chain w -> head_of tree g chain lo hi -> chain_valid chain -> lo <= w + 1 ->
  transparent_address_key parse addr = Some (t, hash) -> length hash = 20%nat ->
  Z.of_nat (length (paid_ever below A)) <= remaining bud ->
  exists us, local_unspent_outpoints v addresses window addr bud = (Ok us, charge bud (length (paid_ever below A))) /\
    utxo_receive A <$> us ≡ₚ kept chain (paid_ever chain A) ++ kept chain (paid chain A lo w).
Proof. with_tiers. by apply (local_unspent_seam _ _ _ _ chain w lo hi addr A). Qed.

(** The composed deltas of a range are the chain's receives and spends of the address
    in it, on both sides of the seam, but for the spends of outputs received above the
    watermark and below the range, which are missed. *)
Theorem local_deltas_exact a z bud :
  history_of B abs b s chain w -> head_of tree g chain lo hi -> chain_valid chain -> lo <= w + 1 ->
  transparent_address_key parse addr = Some (t, hash) -> length hash = 20%nat ->
  Height.valid a -> Height.valid z -> 2 * Z.of_nat (length (paid_ever below A)) <= remaining bud ->
  exists ds bud', local_deltas v addresses window addr (mkHeightRange a z) bud = (Ok ds, bud') /\
    (limit bud' = limit bud /\ remaining bud - 2 * Z.of_nat (length (paid_ever below A)) <= remaining bud' <= remaining bud) /\
    forall d, d ∈ ds <-> exists rc, rc ∈ paid chain A 0 z /\
      (receive_delta chain addr a z rc d \/
       spend_delta chain addr a z rc d /\ (rc_height rc <= w \/ a <= rc_height rc)).
Proof. with_tiers. by apply (local_deltas_seam _ _ _ _ chain w lo hi addr A). Qed.
End Addresses.
End Views.
(** ** A chain of four blocks

    The store finalised the first two; the head's window holds all four. *)
Module Example.
Import ChainGraph StoreCorrect.Example AddressCorrect.Example.
Local Existing Instance canonical_iter.

Definition pays (id : Z) (ins : list TransparentInput) (value : Z) : Transaction :=
  mkTransaction (h32 id) (mkTransparentData ins [mkTransparentOutput value p2pkh]) (mkSaplingData [] [] 0)
    (mkOrchardData [] 0) (mkOrchardData [] 0).
Definition b2 : Block := block 2 (h32 11) (h32 12) [pays 22 [] 5].
Definition b3 : Block := block 3 (h32 12) (h32 13) [pays 23 [mkTransparentInput (h32 22) 0] 3].
Definition whole : list Block := [b0; b1; b2; b3].
Definition size (n : Z) : option TreeRootInfo := Some (mkTreeRootInfo (h32 1) n).
Definition retained (b : Block) (work orchard : Z) : ChainHeadBlock :=
  mkChainHeadBlock (block_ref b) (h_prev_hash (header b)) work b (mkTreeRoots (size 1) (size orchard) None).
Definition r0 := retained b0 32 0.
Definition r1 := retained b1 64 1.
Definition r2 := retained b2 96 1.
Definition r3 := retained b3 128 1.
Definition entry (b : ChainHeadBlock) : BlockHash * TreeEntry := (hash b, mkTreeEntry (height b) (parent_hash b) (chb_work b)).
Definition known : gmap BlockHash TreeEntry := list_to_map (entry <$> [r0; r1; r2; r3]).
Definition tree (h : BlockHash) : option TreeEntry := known !! h.
Definition extended (g : MapBackedSnapshot) (b : ChainHeadBlock) : MapBackedSnapshot :=
  ChainGraph.Example.unwrap_graph (extend g b) g.
Definition window : MapBackedSnapshot := extended (extended (extended (from_initial_block r0) r1) r2) r3.

Definition entry_okb (e : TreeEntry) : bool :=
  (0 <=? te_height e) && (te_height e <=? Height.MAX_HEIGHT) &&
  match known !! te_parent e with
  | Some e' => (te_height e =? te_height e' + 1) && (te_chainwork e' <? te_chainwork e)
  | None => true
  end.
Lemma tree_is_ok : tree_ok tree.
Proof.
  assert (map_Forall (fun _ e => entry_okb e = true) known) as Hall
    by (refine (bool_decide_unpack _ _); vm_compute; exact I).
  intros h e He. specialize (Hall h e He). unfold entry_okb in Hall.
  apply andb_prop in Hall as [Hv Hl]. zbool. split; [split; lia|].
  intros e' He'. unfold tree in He'. rewrite He' in Hl. zbool. lia.
Qed.
Lemma extended_ok g b : graph_ok tree g -> genuine tree b -> graph_ok tree (extended g b).
Proof.
  intros Hg Hb. unfold extended. destruct (extend g b) as [g'|] eqn:He; [by eapply extend_ok|done].
Qed.
Ltac is_genuine := eexists; split; [vm_compute; reflexivity|split; reflexivity].
Lemma window_graph : graph_ok tree window.
Proof. do 3 (apply extended_ok; [|is_genuine]). apply from_initial_block_ok. is_genuine. Qed.
Lemma window_blocks : best_chain window = [r0; r1; r2; r3].
Proof. vm_compute. reflexivity. Qed.
Lemma whole_heights i bl : whole !! i = Some bl -> h_height (header bl) = Z.of_nat i.
Proof. destruct i as [|[|[|[|i]]]]; [by intros [= <-]..|done]. Qed.
Lemma window_whole : window_of tree whole window.
Proof.
  split.
  - exact window_graph.
  - exact whole_heights.
  - discriminate.
  - repeat constructor.
  - reflexivity.
  - intros b Hb. rewrite window_blocks in Hb. rewrite !elem_of_cons in Hb.
    destruct Hb as [->|[->|[->|[->|[]%not_elem_of_nil]]]]; split_and!; reflexivity.
Qed.
Lemma head_whole : head_of tree window whole 0 3.
Proof. split; [exact tree_is_ok|exact window_whole|vm_compute; reflexivity]. Qed.

Definition pinned : StoreSnapshot := Store.mkSnapshot (Some 1) (Some (mkBlockRef (h32 11) 1)).
Lemma store_whole : store_of in_memory data_abs committed pinned whole 1.
Proof.
  split; [split; [discriminate|reflexivity]|split; [vm_compute; reflexivity|reflexivity]|].
  exists (mem_reader committed), (mjoin css). split_and!; [reflexivity|exact contexts| |reflexivity].
  rewrite (commits_abs in_memory data_abs Kv.new log committed (mem_commits Kv.new log)).
  exact (indexing_holds css log sizes2 (data_abs Kv.new) [b0; b1] (fun ns kb _ => eq_refl) contexts oks
     hashes ltac:(discriminate) indexed_log).
Qed.
Lemma history_whole : history_of in_memory data_abs history pinned whole 1.
Proof.
  split; [split; [split; [discriminate|reflexivity]|reflexivity]|].
  exists (mem_reader history), cs. split_and!; [reflexivity|exact chain_cs|exact indexed|reflexivity..].
Qed.
Lemma times : BlockTime.times_ok BlockTime.MAINNET ((fun b => h_time (header b)) <$> whole).
Proof. exact BlockTime.Example.clock_ok. Qed.
Lemma whole_tx h i tx : tx_at whole h i tx -> i = 0%nat /\ (h < 4)%nat /\ txid tx = h32 (20 + Z.of_nat h).
Proof.
  intros (bl & Hb & Ht). destruct h as [|[|[|[|h]]]]; [injection Hb as <-..|done];
    (destruct i as [|i]; [|done]); injection Ht as <-; (split_and!; [done|lia|reflexivity]).
Qed.
Lemma whole_spent o h i j tx :
  spent_at whole o h i j tx -> i = 0%nat /\ j = 0%nat /\ (h = 1%nat /\ o = (h32 20, 1) \/ h = 3%nat /\ o = (h32 22, 0)).
Proof.
  intros [(bl & Hb & Ht) (inp & Hj & <-)]. destruct h as [|[|[|[|h]]]]; [injection Hb as <-..|done];
    (destruct i as [|i]; [|done]); injection Ht as <-; (destruct j as [|j]; [|done]); try done; injection Hj as <-; auto.
Qed.
Lemma h32_inj a b : h32 a = h32 b -> a = b.
Proof. by intros [= ->]. Qed.
Lemma whole_valid : chain_valid whole.
Proof.
  split.
  - exact whole_heights.
  - discriminate.
  - reflexivity.
  - intros rc Hrc. assert (rc_value rc ∈ [7; 9; 4; 5; 3]) as Hv
      by (change [7; 9; 4; 5; 3] with (rc_value <$> chain_receives whole); by apply list_elem_of_fmap_2).
    rewrite !elem_of_cons in Hv. unfold Zatoshis.valid, Zatoshis.MAX_ZATOSHIS.
    destruct Hv as [->|[->|[->|[->|[->|[]%not_elem_of_nil]]]]]; split; discriminate.
  - intros h i tx h' i' tx' (-> & _ & E)%whole_tx (-> & _ & E')%whole_tx. rewrite E, E'. intros ?%h32_inj. lia.
  - intros o h i j tx h' i' j' tx' (-> & -> & Ho)%whole_spent (-> & -> & Ho')%whole_spent.
    destruct Ho as [[-> ->]|[-> ->]], Ho' as [[-> ?]|[-> ?]]; done.
  - intros o h i j tx h' i' tx' (-> & -> & Ho)%whole_spent (-> & _ & ->)%whole_tx.
    destruct Ho as [[-> ->]|[-> ->]]; cbn [fst]; intros ?%h32_inj; lia.
Qed.
Notation served_view := (view_new (store_tier in_memory pinned committed) (head_tier window)).
Notation kept_view := (view_new (store_tier in_memory pinned history) (head_tier window)).

Lemma whole_hashes : NoDup ((fun b => h_hash (header b)) <$> whole).
Proof. apply (bool_decide_unpack _). vm_compute. exact I. Qed.
Lemma composed_chain_served_witness :
  view_compact_block served_view (AtHeight 3) = Ok (Some (from_pre_index (pre_index_block b3) sizes2)) /\
  view_compact_block served_view (AtHash (h32 10)) = Ok (Some (from_pre_index (pre_index_block b0) sizes1)).
Proof.
  destruct (composed_chain_served in_memory data_abs committed pinned tree window whole 1 0 3 store_whole head_whole whole_hashes)
    as (_ & Hat & Hhash & _).
  split; [exact (proj1 (Hat 3 ltac:(discriminate)))|].
  exact (Hhash 0%nat b0 eq_refl (h32_ok 10 ltac:(small)) eq_refl).
Defined.
Lemma block_hashes_exact_witness :
  exists hs, block_hashes served_view 1001 1003 = Some (Ok hs) /\ StronglySorted hash_at_le hs /\
    hs ≡ₚ [mkBlockHashAt 1 (h32 11) 1001; mkBlockHashAt 2 (h32 12) 1002].
Proof.
  exact (block_hashes_exact in_memory data_abs committed pinned tree window whole 1 0 3 1001 1003 store_whole head_whole
    ltac:(discriminate) ltac:(discriminate) times).
Defined.
(** The first block's output is there twice. *)
Lemma local_unspent_doubled_witness :
  exists us, local_unspent_outpoints kept_view (store_addresses in_memory history parsed) (head_receive_read parsed window) alice
      for_request = (Ok us, mkBudget 5000000 4999998) /\
    utxo_receive payee <$> us ≡ₚ
      [mkAddressReceive payee 0 (h32 20) 0 7; mkAddressReceive payee 3 (h32 23) 0 3; mkAddressReceive payee 0 (h32 20) 0 7].
Proof.
  exact (local_unspent_doubled in_memory data_abs history pinned tree window whole 1 0 3 parsed alice P2PKH (replicate 20 5)
    for_request history_whole head_whole whole_valid ltac:(discriminate) eq_refl eq_refl ltac:(discriminate)).
Defined.
Lemma local_deltas_exact_witness :
  exists ds bud', local_deltas kept_view (store_addresses in_memory history parsed) (head_receive_read parsed window) alice
      (mkHeightRange 3 3) for_request = (Ok ds, bud') /\
    (limit bud' = 5000000 /\ 4999996 <= remaining bud' <= 5000000) /\
    forall d, d ∈ ds <-> exists rc, rc ∈ paid whole payee 0 3 /\
      (receive_delta whole alice 3 3 rc d \/
       spend_delta whole alice 3 3 rc d /\ (rc_height rc <= 1 \/ 3 <= rc_height rc)).
Proof.
  exact (local_deltas_exact in_memory data_abs history pinned tree window whole 1 0 3 parsed alice P2PKH (replicate 20 5) 3 3
    for_request history_whole head_whole whole_valid ltac:(discriminate) eq_refl eq_refl
    ltac:(split; discriminate) ltac:(split; discriminate) ltac:(discriminate)).
Defined.
End Example.
End Composed.
