(* ===== verification/Queries.v ===== *)
(** * Address queries ([packages/zaino-service/src/queries.rs])

    The questions the serving adapters share, composed from the address reads of one
    snapshot: totals, deltas, transaction ids and unspent outputs of several addresses,
    under one budget per request. *)

From S2P Require Import Prelude Primitives Types Persistence Indexes Store Address Head AddressCorrect.
From stdpp Require Import base gmap list sorting.
From Stdlib Require Import Lia.
Open Scope Z_scope.

Module Queries.
Import Bytes Ports Address.

Section Queries.
Context {TransparentAddress : Type}.
Notation AddressReadError := (AddressReadError (TransparentAddress := TransparentAddress)).
Notation AddressDelta := (AddressDelta (TransparentAddress := TransparentAddress)).
Notation Utxo := (Utxo (TransparentAddress := TransparentAddress)).
(** The snapshot: its coverage and its address reads. *)
Context (coverage : option HeightRange) (snapshot : AddressRead TransparentAddress).

Definition serviceable_range : option HeightRange := coverage.

Fixpoint read_balances (addrs : list TransparentAddress) (range : HeightRange) (budget : ReadBudget) (received : Z)
    : result (list Z * Z) AddressReadError :=
  match addrs with
  | [] => Ok ([], received)
  | addr :: addrs =>
      let '(read, budget) := Ports.balance snapshot addr range budget in
      let? read := read in
      let? received := ok_or (Zatoshis.checked_join received (bal_received read)) AddressFatal in
      let? (balances, received) := read_balances addrs range budget received in
      Ok (bal_balance read :: balances, received)
  end.
Definition total_balance (addrs : list TransparentAddress) (range : HeightRange) : result AddressBalance AddressReadError :=
  let? (balances, received) := read_balances addrs range for_request 0 in
  let? balance := ok_or (Zatoshis.sum_balances balances) AddressFatal in
  Ok (mkAddressBalance balance received).
Definition address_balance (addrs : list TransparentAddress) : result AddressBalance AddressReadError :=
  match serviceable_range with
  | None => Ok (mkAddressBalance Zatoshis.ZERO 0)
  | Some range => total_balance addrs range
  end.
Definition wallet_balance (addrs : list TransparentAddress) : result (option AddressBalance) AddressReadError :=
  match serviceable_range with
  | Some range => let? balance := total_balance addrs range in Ok (Some balance)
  | None => Ok None
  end.

(** One read per address, the answers extended and the budget shared. *)
Fixpoint extend_all {A} (read : TransparentAddress -> charged TransparentAddress (list A))
    (addrs : list TransparentAddress) (budget : ReadBudget) : result (list A) AddressReadError :=
  match addrs with
  | [] => Ok []
  | addr :: addrs =>
      let '(answer, budget) := read addr budget in
      let? answer := answer in
      let? rest := extend_all read addrs budget in
      Ok (answer ++ rest)
  end.
(** The asked bounds, defaulting to the coverage's; [None]: no query runs. *)
Definition bounds (start end_ : option Height) : option HeightRange :=
  let! coverage := serviceable_range in
  let start := default (range_start coverage) start in
  let end_ := default (range_end coverage) end_ in
  if end_ <? start then None else Some (mkHeightRange start end_).

Record AddressDeltasAnswer := mkDeltasAnswer { da_deltas : list AddressDelta; da_range : option HeightRange }.
Definition address_deltas (addrs : list TransparentAddress) (start end_ : option Height)
    : result AddressDeltasAnswer AddressReadError :=
  match bounds start end_ with
  | None => Ok (mkDeltasAnswer [] None)
  | Some range =>
      let? deltas := extend_all (fun addr => Ports.deltas snapshot addr range) addrs for_request in
      Ok (mkDeltasAnswer (merge_sort delta_le deltas) (Some range))
  end.

(** The sort key of [address_txids]: absent with the height. *)
Definition txid_le (a b : option Z * option Z * TransactionId) : Prop :=
  match a.1.1, b.1.1 with
  | None, _ => True
  | Some _, None => False
  | Some h, Some h' => located_le (h, a.1.2, a.2) (h', b.1.2, b.2)
  end.
#[export] Instance txid_le_dec : RelDecision txid_le.
Proof. intros [[[h|] p] x] [[[h'|] p'] x']; unfold txid_le; cbn; apply _. Defined.
Fixpoint first_seen (seen : gset TransactionId) (ids : list TransactionId) : list TransactionId :=
  match ids with
  | [] => []
  | id :: ids => if decide (id ∈ seen) then first_seen seen ids else id :: first_seen ({[id]} ∪ seen) ids
  end.
Definition address_txids (addrs : list TransparentAddress) (start end_ : option Height)
    : result (list TransactionId) AddressReadError :=
  match bounds start end_ with
  | None => Ok []
  | Some range =>
      let? located := extend_all (fun addr => Ports.tx_ids snapshot addr range) addrs for_request in
      Ok (first_seen ∅ ((merge_sort txid_le located).*2))
  end.

Definition utxo_le (a b : Utxo) : Prop := utxo_height a <= utxo_height b.
#[export] Instance utxo_le_dec : RelDecision utxo_le.
Proof. intros a b. unfold utxo_le. apply _. Defined.
Definition address_utxos (addrs : list TransparentAddress) : result (list Utxo) AddressReadError :=
  match serviceable_range with
  | None => Ok []
  | Some _ =>
      let? utxos := extend_all (fun addr => Ports.unspent_outpoints snapshot addr) addrs for_request in
      Ok (merge_sort utxo_le utxos)
  end.
End Queries.

(** ** One budget over several addresses *)
Section Loops.
Context {TransparentAddress : Type} (snapshot : AddressRead TransparentAddress).

(** Reads that answer within their cost answer together within the sum of the costs. *)
Lemma extend_all_spec {A} (read : TransparentAddress -> charged TransparentAddress (list A)) (P : TransparentAddress -> list A -> Prop)
    (cost : TransparentAddress -> Z) addrs bud :
  (forall addr bud, addr ∈ addrs -> cost addr <= remaining bud ->
     exists l bud', read addr bud = (Ok l, bud') /\ remaining bud - cost addr <= remaining bud' /\ P addr l) ->
  Forall (fun addr => 0 <= cost addr) addrs -> Zatoshis.total (cost <$> addrs) <= remaining bud ->
  exists ls, extend_all read addrs bud = Ok (mjoin ls) /\ Forall2 P addrs ls.
Proof.
  intros Hread Hcost. revert bud. induction Hcost as [|addr addrs Hc Hcs IH]; intros bud Hb; [by exists []|].
  cbn in Hb. fold (Zatoshis.total (cost <$> addrs)) in Hb.
  assert (0 <= Zatoshis.total (cost <$> addrs)) by (apply Zatoshis.total_nonneg; by apply Forall_fmap).
  destruct (Hread addr bud) as (l & bud' & Hr & Hle & HP); [apply list_elem_of_here|lia|]. cbn [extend_all]. rewrite Hr.
  destruct (IH) with (bud := bud') as (ls & -> & HF); [by intros; apply Hread; [apply list_elem_of_further|]|lia|].
  exists (l :: ls). split; [done|by constructor].
Qed.
Lemma read_balances_spec range (answer : TransparentAddress -> AddressBalance) (cost : TransparentAddress -> Z) addrs bud received :
  (forall addr bud, addr ∈ addrs -> cost addr <= remaining bud <= limit bud -> limit bud = limit for_request ->
     exists bud', Ports.balance snapshot addr range bud = (Ok (answer addr), bud') /\ limit bud' = limit bud /\
       remaining bud - cost addr <= remaining bud' <= remaining bud) ->
  Forall (fun addr => 0 <= cost addr /\ 0 <= bal_received (answer addr)) addrs ->
  Zatoshis.total (cost <$> addrs) <= remaining bud <= limit bud -> limit bud = limit for_request ->
  0 <= received -> received + Zatoshis.total ((fun addr => bal_received (answer addr)) <$> addrs) < 2 ^ 128 ->
  read_balances snapshot addrs range bud received =
  Ok ((fun addr => bal_balance (answer addr)) <$> addrs, received + Zatoshis.total ((fun addr => bal_received (answer addr)) <$> addrs)).
Proof.
  intros Hread Hcost. revert bud received. induction Hcost as [|addr addrs [Hc Hrc] Hcs IH]; intros bud received Hb Hl Hr Hsum.
  { cbn. by rewrite Z.add_0_r. }
  cbn [fmap list_fmap] in *. change (Zatoshis.total (?x :: ?l)) with (x + Zatoshis.total l) in *.
  assert (0 <= Zatoshis.total (cost <$> addrs))
    by (apply Zatoshis.total_nonneg, Forall_fmap; eapply Forall_impl; [exact Hcs|]; cbn; lia).
  assert (0 <= Zatoshis.total ((fun addr => bal_received (answer addr)) <$> addrs)) by (apply Zatoshis.total_nonneg, Forall_fmap; eapply Forall_impl; [exact Hcs|]; cbn; lia).
  destruct (Hread addr bud) as (bud' & Hr' & Hl' & Hle); [apply list_elem_of_here|lia|done|]. cbn [read_balances]. rewrite Hr'.
  unfold Zatoshis.checked_join, checked_add. rewrite (proj2 (Z.ltb_lt _ _)) by lia. cbn [ok_or].
  rewrite IH; [|by intros; apply Hread; [apply list_elem_of_further|..]|lia..]. by rewrite Z.add_assoc.
Qed.
End Loops.

(** Keeping the first of each id. *)
Lemma elem_of_first_seen seen ids x : x ∈ first_seen seen ids <-> x ∈ ids /\ x ∉ seen.
Proof.
  revert seen. induction ids as [|id ids IH]; intros seen; cbn [first_seen]; [set_solver|].
  case_decide; [rewrite IH; set_solver|]. rewrite !elem_of_cons, IH. destruct (decide (x = id)); set_solver.
Qed.
Lemma first_seen_NoDup seen ids : NoDup (first_seen seen ids).
Proof.
  revert seen. induction ids as [|id ids IH]; intros seen; cbn [first_seen]; [constructor|].
  case_decide; [done|]. constructor; [|done]. rewrite elem_of_first_seen. set_solver.
Qed.
(** Of a sorted list whose equal ids are equal entries, it keeps a sorted sublist. *)
Lemma first_seen_located seen (l : list (Z * option Z * TransactionId)) :
  StronglySorted located_le l ->
  exists xs, first_seen seen l.*2 = xs.*2 /\ StronglySorted located_le xs /\ (forall x, x ∈ xs -> x ∈ l).
Proof.
  intros Hs. revert seen. induction Hs as [|x l Hs IH Hx]; intros seen; [exists []; split_and!; [done|constructor|done]|].
  cbn [fmap list_fmap first_seen]. case_decide.
  - destruct (IH seen) as (xs & -> & Hxs & Hin). exists xs. split_and!; [done..|]. intros y Hy. apply list_elem_of_further, Hin, Hy.
  - destruct (IH ({[x.2]} ∪ seen)) as (xs & -> & Hxs & Hin). exists (x :: xs). split_and!; [done| |].
    + constructor; [done|]. rewrite Forall_forall in Hx |- *. intros y Hy. apply Hx, Hin, Hy.
    + intros y [->|Hy]%elem_of_cons; [apply list_elem_of_here|apply list_elem_of_further, Hin, Hy].
Qed.
(** Where every height is known the key is the located one. *)
#[export] Instance txid_le_total : Total txid_le.
Proof.
  intros [[[h|] p] x] [[[h'|] p'] x']; unfold txid_le; cbn; [apply (total located_le)|auto..].
Qed.
#[export] Instance txid_le_trans : Transitive txid_le.
Proof.
  intros [[[h|] p] x] [[[h'|] p'] x'] [[[h''|] p''] x'']; unfold txid_le; cbn; (done || apply (transitivity (R := located_le))).
Qed.
Notation known := (fun x => (Some x.1.1, x.1.2, x.2)).
Lemma txid_sort_located (l : list (Z * option Z * TransactionId)) :
  exists l', merge_sort txid_le (known <$> l) = known <$> l' /\ l' ≡ₚ l /\ StronglySorted located_le l'.
Proof.
  pose proof (merge_sort_Permutation txid_le (known <$> l)) as Hp. pose proof (StronglySorted_merge_sort txid_le (known <$> l)) as Hs.
  apply Permutation_map_inv in Hp as (l' & Hl & Hp). exists l'. change (map known l') with (known <$> l') in Hl.
  split; [done|]. split; [by symmetry|]. rewrite Hl in Hs. clear -Hs. induction l' as [|x l' IH]; [constructor|].
  cbn in Hs. apply StronglySorted_inv in Hs as [Hs Hx]. constructor; [by apply IH|].
  rewrite Forall_fmap in Hx. eapply Forall_impl; [exact Hx|]. destruct x as [[? ?] ?]. by intros [[? ?] ?].
Qed.
#[export] Instance utxo_le_total {TA} : Total (@utxo_le TA).
Proof. intros a b. unfold utxo_le. lia. Qed.
#[export] Instance utxo_le_trans {TA} : Transitive (@utxo_le TA).
Proof. intros a b c. unfold utxo_le. lia. Qed.
End Queries.
