(* ===== verification/QueriesCorrect.v ===== *)
(** * Address queries over the composed engine ([packages/zaino-service/src/queries.rs] over
    [packages/zaino-core/src/engine/address.rs])

    What an explorer or a wallet is answered about several addresses, against the chain. *)

From S2P Require Import Prelude Primitives Types Persistence Codec ChainGraph Bridge Indexes IndexSet Store StoreCorrect Address HistoryCorrect AddressCorrect BlockTime Head HeadCorrect View ViewCorrect LocalAddress Composed Queries.
From stdpp Require Import base gmap list strings sorting.
From Stdlib Require Import Lia.
Open Scope Z_scope.

Module QueriesCorrect.
Import Bytes Kv ChainGraph Indexes IndexSet Store StoreCorrect Address HistoryCorrect AddressCorrect Tiers HeadCorrect Head View ViewCorrect LocalAddress Composed Queries.

Section Explorer.
Context `{HashIter} {BSt : Type} (B : Backend BSt) (abs : BSt -> store) `{!BackendSpec B abs}.
Context (b : BSt) (s : StoreSnapshot) (tree : BlockHash -> option TreeEntry) (g : MapBackedSnapshot).
Context (chain : list Block) (w lo hi : Z) {TA : Type} (parse : TA -> option ParsedAddress).
Notation v := (view_new (store_tier B s b) (head_tier g)).
Notation below := (finalised chain w).
Notation engine := (engine_addresses v (store_addresses B b parse) (head_receive_read parse g)).

(** The identity of an address in the index. *)
Definition addr_id (addr : TA) : AddrId :=
  match transparent_address_key parse addr with Some (t, hash) => mkAddrId t hash | None => mkAddrId NonStandard [] end.
Definition transparent_address (addr : TA) : Prop :=
  exists t hash, transparent_address_key parse addr = Some (t, hash) /\ length hash = 20%nat.
(** What a request on the addresses may charge. *)
Definition cost (addr : TA) : Z := 2 * Z.of_nat (length (paid_ever below (addr_id addr))).

Record explorer (addrs : list TA) : Prop := {
  ex_history : history_of B abs b s chain w;
  ex_head : head_of tree g chain lo hi;
  ex_valid : chain_valid chain;
  ex_seam : lo <= w + 1;
  ex_addrs : Forall transparent_address addrs;
  ex_cost : Zatoshis.total (cost <$> addrs) <= MAX_ADDRESS_ENTRIES }.

Section Answers.
Context (addrs : list TA) (Hex : explorer addrs).

Lemma covered : view_coverage v = Some (mkHeightRange 0 hi) /\ 0 <= hi < 2 ^ 31.
Proof.
  destruct Hex as [[[Hw Hwm] _] Hh Hv _ _ _]. destruct (head_tip _ _ _ _ _ Hh) as [Hlo Hhi]. pose proof (cv_small _ Hv).
  split; [|lia]. unfold view_coverage, view_new. cbn [fs nfs].
  change (Ports.coverage (head_tier g)) with (head_coverage g). rewrite (hd_coverage _ _ _ _ _ Hh). cbn.
  unfold Store.coverage. by rewrite Hwm.
Qed.
Lemma promises addr :
  addr ∈ addrs ->
  Ports.coverage (store_tier B s b) = Some (mkHeightRange 0 w) /\ Ports.coverage (head_tier g) = Some (mkHeightRange lo hi) /\
  (0 <= w < Z.of_nat (length chain) /\ 0 <= lo <= hi) /\ AddressReadSpec (store_addresses B b parse) below addr (addr_id addr) /\
  ReceiveReadSpec (head_receive_read parse g) chain lo hi addr (addr_id addr) /\ hi = Z.of_nat (length chain) - 1.
Proof.
  intros Hin. pose proof (ex_addrs _ Hex) as Ha. rewrite Forall_forall in Ha. destruct (Ha addr Hin) as (t & hash & Hk & Hl).
  unfold addr_id. rewrite Hk. by apply (composed_addresses B abs b s tree g chain w lo hi parse addr t hash (ex_history _ Hex) (ex_head _ Hex)).
Qed.
Lemma request_cost_nonneg : Forall (fun addr => 0 <= cost addr) addrs.
Proof. apply Forall_forall. intros addr _. unfold cost. lia. Qed.
Lemma cost_within : Zatoshis.total (cost <$> addrs) <= remaining for_request.
Proof. apply (ex_cost _ Hex). Qed.
Ltac promised addr Hin :=
  destruct (promises addr Hin) as (HF & HN & Hr & Hst & Hwin & Hhi); pose proof (ex_valid _ Hex) as Hv; pose proof (ex_seam _ Hex) as Hseam.

Lemma explorer_deltas a z :
  Height.valid a -> Height.valid z ->
  exists ls, extend_all (fun addr => Ports.deltas engine addr (mkHeightRange a z)) addrs for_request = Ok (mjoin ls) /\
    Forall2 (fun addr ds => forall d, d ∈ ds <-> exists rc, rc ∈ paid chain (addr_id addr) 0 z /\
      (receive_delta chain addr a z rc d \/ spend_delta chain addr a z rc d /\ (rc_height rc <= w \/ a <= rc_height rc))) addrs ls.
Proof.
  intros Ha Hz. apply (extend_all_spec _ _ cost); [|exact request_cost_nonneg|exact cost_within].
  intros addr bud Hin Hc. promised addr Hin.
  destruct (local_deltas_seam _ _ _ _ chain w lo hi addr (addr_id addr) Hv HF HN Hr Hseam Hhi a z bud Ha Hz Hc) as (ds & bud' & He & Hb & Hd).
  exists ds, bud'. split; [exact He|]. unfold cost. split; [lia|done].
Qed.
Lemma explorer_tx_ids a z :
  Height.valid a -> Height.valid z ->
  exists ls : list (list (Z * option Z * TransactionId)),
    extend_all (fun addr => Ports.tx_ids engine addr (mkHeightRange a z)) addrs for_request = Ok (known <$> mjoin ls) /\
    Forall2 (fun addr xs => forall x, x ∈ xs <-> exists rc, rc ∈ paid chain (addr_id addr) 0 z /\ moved chain w a z rc x) addrs ls.
Proof.
  intros Ha Hz.
  destruct (extend_all_spec (fun addr => Ports.tx_ids engine addr (mkHeightRange a z))
    (fun addr l => exists xs, l = known <$> xs /\ forall x, x ∈ xs <-> exists rc, rc ∈ paid chain (addr_id addr) 0 z /\ moved chain w a z rc x)
    cost addrs for_request) as (ls & He & HF2); [|exact request_cost_nonneg|exact cost_within|].
  - intros addr bud Hin Hc. promised addr Hin.
    destruct (local_tx_ids_seam _ _ _ _ chain w lo hi addr (addr_id addr) Hv HF HN Hr Hseam Hhi a z bud Ha Hz Hc)
      as (xs & bud' & He & Hb & _ & _ & Hx).
    eexists _, bud'. split; [exact He|]. unfold cost. split; [lia|]. by exists xs.
  - rewrite He. clear -HF2. induction HF2 as [|addr l addrs ls (xs & -> & Hx) _ (lss & He & HF)]; [by exists []|].
    exists (xs :: lss). split; [|by constructor]. injection He as He. f_equal. change (mjoin (?x :: ?l)) with (x ++ mjoin l).
    by rewrite fmap_app, He.
Qed.
Lemma elem_of_answers {X} (P : TA -> X -> Prop) ls :
  Forall2 (fun addr xs => forall x, x ∈ xs <-> P addr x) addrs ls ->
  forall x, x ∈ mjoin ls <-> exists addr, addr ∈ addrs /\ P addr x.
Proof.
  clear. induction 1 as [|addr xs addrs ls Hx _ IH]; intros x; [split; [by intros ?%elem_of_nil|by intros (? & ?%elem_of_nil & _)]|].
  change (mjoin (xs :: ls)) with (xs ++ mjoin ls). rewrite elem_of_app, Hx, IH. setoid_rewrite elem_of_cons. naive_solver.
Qed.
Lemma explorer_bounds start end_ a z :
  bounds (view_coverage v) start end_ = Some (mkHeightRange a z) ->
  (forall h, start = Some h -> Height.valid h) -> (forall h, end_ = Some h -> Height.valid h) -> Height.valid a /\ Height.valid z.
Proof.
  destruct covered as [Hc Hhi]. rewrite Hc. unfold bounds, serviceable_range. cbn [range_start range_end].
  assert (Height.valid 0 /\ Height.valid hi) as [H0 Hh] by (unfold Height.valid; change Height.MAX_HEIGHT with (2 ^ 31 - 1); lia).
  destruct (_ <? _); [done|]. intros [= <- <-] Hs He. split; [destruct start|destruct end_]; cbn; auto.
Qed.
(** A transaction has one place. *)
Lemma moved_place a z rc x rc' x' : moved chain w a z rc x -> moved chain w a z rc' x' -> x.2 = x'.2 -> x = x'.
Proof.
  intros (h & i & tx & Ht & _ & -> & _) (h' & i' & tx' & Ht' & _ & -> & _). cbn. intros Hid.
  destruct (cv_txids _ (ex_valid _ Hex) _ _ _ _ _ _ Ht Ht' Hid) as [-> ->]. by rewrite Hid.
Qed.
End Answers.


(** The transaction ids of several addresses over optional bounds are distinct, and in
    chain order exactly the transactions of the range that pay one of the addresses or
    spend an output of theirs, with the exception above. *)
Theorem explorer_txids_exact addrs start end_ a z :
  explorer addrs -> bounds (view_coverage v) start end_ = Some (mkHeightRange a z) ->
  (forall h, start = Some h -> Height.valid h) -> (forall h, end_ = Some h -> Height.valid h) ->
  exists xs : list (Z * option Z * TransactionId),
    address_txids (view_coverage v) engine addrs start end_ = Ok xs.*2 /\ NoDup xs.*2 /\ StronglySorted located_le xs /\
    forall x, x ∈ xs <-> exists addr, addr ∈ addrs /\ exists rc, rc ∈ paid chain (addr_id addr) 0 z /\ moved chain w a z rc x.
Proof.
  intros Hex Hb Hs He. destruct (explorer_bounds addrs Hex start end_ a z Hb Hs He) as [Ha Hz].
  destruct (explorer_tx_ids addrs Hex a z Ha Hz) as (ls & Hl & HF). unfold address_txids. rewrite Hb, Hl.
  destruct (txid_sort_located (mjoin ls)) as (l' & -> & Hp & Hsorted).
  rewrite <- list_fmap_compose. change ((snd ∘ known) <$> l') with l'.*2.
  destruct (first_seen_located ∅ l' Hsorted) as (xs & Hxs & Hsx & Hin). exists xs. rewrite Hxs. split; [done|].
  split; [rewrite <- Hxs; apply first_seen_NoDup|]. split; [done|]. intros x.
  rewrite <- (elem_of_answers addrs _ ls HF x), <- Hp. split; [apply Hin|]. intros Hx.
  assert (Hid : x.2 ∈ xs.*2) by (rewrite <- Hxs, elem_of_first_seen; split; [by apply list_elem_of_fmap_2|set_solver]).
  apply list_elem_of_fmap in Hid as (x' & Hid & Hx'). assert (x = x') as ->; [|done].
  rewrite Hp in Hx. apply (elem_of_answers addrs _ ls HF) in Hx as (addr & _ & rc & _ & Hm).
  specialize (Hin x' Hx'). rewrite Hp in Hin. apply (elem_of_answers addrs _ ls HF) in Hin as (addr' & _ & rc' & _ & Hm').
  by eapply (moved_place addrs Hex).
Qed.

(** What an address holds at the tip, and what it ever received. *)
Definition held (addr : TA) : Z := Zatoshis.total (rc_value <$> kept chain (paid_ever chain (addr_id addr))).
Definition received (addr : TA) : Z := Zatoshis.total (rc_value <$> paid_ever chain (addr_id addr)).
Lemma received_nonneg addr : chain_valid chain -> 0 <= held addr /\ 0 <= received addr.
Proof.
  intros Hv. assert (Hall : Forall (fun rc => 0 <= rc_value rc) (paid_ever chain (addr_id addr))).
  { apply Forall_forall. intros rc [_ Hrc]%elem_of_paid_ever. pose proof (cv_values _ Hv rc Hrc). unfold Zatoshis.valid in *. lia. }
  split; apply Zatoshis.total_nonneg, Forall_fmap; [|done]. unfold kept.
  rewrite Forall_forall in Hall |- *. by intros rc [_ Hrc]%list_elem_of_filter; apply Hall.
Qed.
Lemma explorer_one addrs addr bud :
  explorer addrs -> addr ∈ addrs -> held addr <= Zatoshis.MAX_ZATOSHIS ->
  Zatoshis.total (rc_value <$> kept below (paid_ever below (addr_id addr))) <= Zatoshis.MAX_ZATOSHIS ->
  cost addr <= remaining bud <= limit bud -> limit bud = limit for_request ->
  exists bud', Ports.balance engine addr (mkHeightRange 0 hi) bud = (Ok (mkAddressBalance (held addr) (received addr)), bud') /\
    limit bud' = limit bud /\ remaining bud - cost addr <= remaining bud' <= remaining bud.
Proof.
  intros Hex Hin Hcap Hcap' Hc Hl. destruct (promises addrs Hex addr Hin) as (HF & HN & Hr & Hst & Hwin & Hhi).
  pose proof (ex_valid _ Hex) as Hv. pose proof (ex_seam _ Hex) as Hseam. pose proof (covered addrs Hex) as [_ Hh].
  assert (Height.valid 0 /\ Height.valid hi) as [V0 Vh] by (unfold Height.valid; change Height.MAX_HEIGHT with (2 ^ 31 - 1); lia).
  assert (Hbelow : paid below (addr_id addr) 0 (Z.min hi w) = paid_ever below (addr_id addr)).
  { rewrite Z.min_r by lia. symmetry. eapply paid_everything_below; done. }
  assert (Hall : paid chain (addr_id addr) 0 hi = paid_ever chain (addr_id addr)) by (eapply paid_everything_chain; done || lia).
  pose proof (local_balance_seam _ _ _ _ chain w lo hi addr (addr_id addr) Hv HF HN Hr Hseam Hhi 0 hi bud V0 Vh) as Hlb.
  rewrite Hbelow, Hall in Hlb. fold (held addr) (received addr) in Hlb. unfold cost in Hc |- *. cbn [limit for_request with_limit] in Hl.
  eexists. split; [etrans; [apply Hlb; [split; [lia|]; rewrite Hl in Hc; unfold MAX_ADDRESS_ENTRIES in Hc; lia|lia|done]|]; by rewrite (proj2 (Z.leb_le _ _) Hcap)|].
  cbn. split; [done|lia].
Qed.

(** The balance of several addresses is the sum of what they hold at the tip and of
    what they ever received, for an explorer and for a wallet alike. *)
Theorem explorer_balance_exact addrs :
  explorer addrs ->
  Forall (fun addr => Zatoshis.total (rc_value <$> kept below (paid_ever below (addr_id addr))) <= Zatoshis.MAX_ZATOSHIS) addrs ->
  Zatoshis.total (held <$> addrs) <= Zatoshis.MAX_ZATOSHIS -> Zatoshis.total (received <$> addrs) < 2 ^ 128 ->
  let answer := mkAddressBalance (Zatoshis.total (held <$> addrs)) (Zatoshis.total (received <$> addrs)) in
  address_balance (view_coverage v) engine addrs = Ok answer /\ wallet_balance (view_coverage v) engine addrs = Ok (Some answer).
Proof.
  intros Hex Hcaps Hsum Hflow answer. destruct (covered addrs Hex) as [Hc _]. pose proof (ex_valid _ Hex) as Hv.
  assert (Heach : forall addr, addr ∈ addrs -> held addr <= Zatoshis.MAX_ZATOSHIS).
  { intros addr Hin. enough (held addr <= Zatoshis.total (held <$> addrs)) by lia. clear -Hin Hv. induction addrs as [|x l IH]; [by apply elem_of_nil in Hin|].
    assert (0 <= Zatoshis.total (held <$> l)) by (apply Zatoshis.total_nonneg, Forall_fmap, Forall_forall; intros y _; by apply received_nonneg).
    cbn. fold (Zatoshis.total (held <$> l)). pose proof (received_nonneg x Hv). apply elem_of_cons in Hin as [->|Hin]; [lia|]. specialize (IH Hin). lia. }
  assert (Hval : Forall Zatoshis.valid (held <$> addrs)).
  { apply Forall_fmap, Forall_forall. intros addr Hin. split; [by apply received_nonneg|by apply Heach]. }
  assert (Ht : total_balance engine addrs (mkHeightRange 0 hi) = Ok answer).
  { unfold total_balance.
    rewrite (read_balances_spec engine (mkHeightRange 0 hi) (fun addr => mkAddressBalance (held addr) (received addr)) cost).
    - cbn [bal_balance bal_received]. change ((fun addr => held addr) <$> addrs) with (held <$> addrs).
      rewrite (proj1 (Zatoshis.balances_and_flows _ Hval)), (proj2 (Z.leb_le _ _) Hsum). by rewrite Z.add_0_l.
    - intros addr bud Hin Hb Hl. rewrite Forall_forall in Hcaps. by apply (explorer_one addrs); auto.
    - apply Forall_forall. intros addr _. unfold cost. cbn. pose proof (received_nonneg addr Hv). lia.
    - split; [apply (ex_cost _ Hex)|done].
    - done.
    - done.
    - by rewrite Z.add_0_l. }
  unfold address_balance, wallet_balance, serviceable_range. by rewrite Hc, Ht.
Qed.

End Explorer.
(** ** The example chain, asked about one address and a script address nobody pays *)
Module Example.
Import StoreCorrect.Example AddressCorrect.Example Composed.Example.
Local Existing Instance canonical_iter.

Definition bob : ParsedAddress := ParsedP2sh (replicate 20 6).
Definition asked : list ParsedAddress := [alice; bob].
Lemma explorer_whole : explorer in_memory data_abs history pinned tree window whole 1 0 3 parsed asked.
Proof.
  split; [exact history_whole|exact head_whole|exact whole_valid|discriminate| |vm_compute; discriminate].
  constructor; [exists P2PKH, (replicate 20 5); split; reflexivity|].
  constructor; [exists P2SH, (replicate 20 6); split; reflexivity|constructor].
Qed.
Notation engine := (engine_addresses kept_view (store_addresses in_memory history parsed) (head_receive_read parsed window)).

Lemma explorer_balance_exact_witness :
  address_balance (view_coverage kept_view) engine asked = Ok (mkAddressBalance 10 24) /\
  wallet_balance (view_coverage kept_view) engine asked = Ok (Some (mkAddressBalance 10 24)).
Proof.
  apply (explorer_balance_exact in_memory data_abs history pinned tree window whole 1 0 3 parsed asked explorer_whole).
  - constructor; [vm_compute; discriminate|]. constructor; [vm_compute; discriminate|constructor].
  - vm_compute. discriminate.
  - vm_compute. reflexivity.
Defined.
Lemma explorer_txids_exact_witness :
  exists xs : list (Z * option Z * TransactionId),
    address_txids (view_coverage kept_view) engine asked (Some 1) None = Ok xs.*2 /\ NoDup xs.*2 /\ StronglySorted located_le xs /\
    forall x, x ∈ xs <-> exists addr, addr ∈ asked /\ exists rc, rc ∈ paid whole (addr_id parsed addr) 0 3 /\ moved whole 1 1 3 rc x.
Proof.
  apply (explorer_txids_exact in_memory data_abs history pinned tree window whole 1 0 3 parsed asked (Some 1) None 1 3 explorer_whole).
  - vm_compute. reflexivity.
  - intros h [= <-]. split; discriminate.
  - discriminate.
Defined.
End Example.
End QueriesCorrect.
