(* ===== verification/BlockDeltas.v ===== *)
(** * Resolved transactions and block deltas ([packages/zaino-core/src/prevout.rs],
    [packages/zaino-core/src/engine/{transaction_view,block_verbose,block_deltas}.rs])

    The explorer's reads that combine the validator's answers with the local chain: the
    output each transparent input spends, and a block's value movements with its median
    time. *)

From S2P Require Import Prelude Primitives Types Persistence Indexes IndexSet Store BlockTime Head View.
From stdpp Require Import base gmap list strings sorting.
From Stdlib Require Import Lia.
Open Scope Z_scope.

(** ** [prevout.rs] *)
Module Prevout.

Record ResolvedInput := mkResolvedInput { ri_outpoint : TransparentInput; ri_spent : TransparentOutput }.
Inductive TransactionViewError (E : Type) :=
| Unavailable (cause : E)
| MissingPrevout (outpoint : TransparentInput)
| PrevoutFanoutTooLarge (needed ceiling : Z)
| PrevoutIndexOutOfRange (outpoint : TransparentInput) (index outputs : Z).
Arguments Unavailable {E} cause.
Arguments MissingPrevout {E} outpoint.
Arguments PrevoutFanoutTooLarge {E} needed ceiling.
Arguments PrevoutIndexOutOfRange {E} outpoint index outputs.

Definition MAX_PREVOUT_FETCHES_PER_REQUEST : Z := 8192.

(** Collecting into a [HashMap]: of two transactions with one id, the later. *)
Definition intra (transactions : list Transaction) : gmap TransactionId (list TransparentOutput) :=
  fold_left (fun m tx => <[txid tx := outputs (transparent tx)]> m) transactions ∅.
(** The ids to fetch, in first-seen order. *)
Fixpoint external_loop (known : gmap TransactionId (list TransparentOutput)) (seen : gset TransactionId) (inputs : list TransparentInput)
    : list TransactionId :=
  match inputs with
  | [] => []
  | input :: inputs =>
      if bool_decide (known !! prev_txid input = None) && bool_decide (prev_txid input ∉ seen)
      then prev_txid input :: external_loop known ({[prev_txid input]} ∪ seen) inputs
      else external_loop known seen inputs
  end.
Definition all_inputs (transactions : list Transaction) : list TransparentInput :=
  mjoin ((fun tx => inputs (transparent tx)) <$> transactions).
Definition external (transactions : list Transaction) : list TransactionId :=
  external_loop (intra transactions) ∅ (all_inputs transactions).

Section Resolve.
Context {E : Type}.
(** What the validator answers for an id, and the order in which the concurrent fetches
    complete. *)
Context (fetch : TransactionId -> result (option (list TransparentOutput)) E).
Context (arrival : list TransactionId -> list TransactionId).

(** [try_collect]: the first failure to arrive ends it. *)
Fixpoint try_collect (ids : list TransactionId) (m : gmap TransactionId (option (list TransparentOutput)))
    : result (gmap TransactionId (option (list TransparentOutput))) E :=
  match ids with
  | [] => Ok m
  | id :: ids => let? outputs := fetch id in try_collect ids (<[id := outputs]> m)
  end.
Definition resolve_input (known : gmap TransactionId (list TransparentOutput))
    (fetched : gmap TransactionId (option (list TransparentOutput))) (input : TransparentInput)
    : result ResolvedInput (TransactionViewError E) :=
  let? outputs :=
    match known !! prev_txid input with
    | Some outputs => Ok outputs
    | None =>
        match fetched !! prev_txid input with
        | Some (Some outputs) => Ok outputs
        | Some None | None => Err (MissingPrevout input)
        end
    end in
  match outputs !! Z.to_nat (prev_index input) with
  | Some output => Ok (mkResolvedInput input output)
  | None => Err (PrevoutIndexOutOfRange input (prev_index input) (Z.of_nat (length outputs)))
  end.
Definition resolve_prevouts (transactions : list Transaction) : result (list (list ResolvedInput)) (TransactionViewError E) :=
  let external := external transactions in
  if MAX_PREVOUT_FETCHES_PER_REQUEST <? Z.of_nat (length external)
  then Err (PrevoutFanoutTooLarge (Z.of_nat (length external)) MAX_PREVOUT_FETCHES_PER_REQUEST)
  else
    let? fetched := map_err Unavailable (try_collect (arrival external) ∅) in
    map_result (fun tx => map_result (resolve_input (intra transactions) fetched) (inputs (transparent tx))) transactions.
End Resolve.

(** *** One input at a time *)

(** The transaction of the block with an id: the last of them. *)
Definition made_in (transactions : list Transaction) (id : TransactionId) : option (list TransparentOutput) :=
  (fun tx => outputs (transparent tx)) <$> last (filter (fun tx => txid tx = id) transactions).
Lemma intra_lookup transactions id : intra transactions !! id = made_in transactions id.
Proof.
  unfold intra, made_in. induction transactions as [|tx txs IH] using rev_ind; [done|].
  rewrite fold_left_app, filter_app. cbn [fold_left]. destruct (decide (txid tx = id)) as [<-|Hne].
  - rewrite lookup_insert_eq. cbn. rewrite decide_True by done. by rewrite last_snoc.
  - rewrite lookup_insert_ne by done. rewrite IH. cbn. rewrite decide_False by done. by rewrite app_nil_r.
Qed.
Lemma elem_of_external known seen inputs id :
  id ∈ external_loop known seen inputs <-> (exists input, input ∈ inputs /\ prev_txid input = id) /\ known !! id = None /\ id ∉ seen.
Proof.
  revert seen. induction inputs as [|input inputs IH]; intros seen; cbn [external_loop].
  { split; [by intros ?%elem_of_nil|by intros ((? & ?%elem_of_nil & _) & _)]. }
  destruct (bool_decide_reflect (known !! prev_txid input = None)) as [Hk|Hk];
    destruct (bool_decide_reflect (prev_txid input ∉ seen)) as [Hs|Hs]; cbn [andb]; rewrite ?elem_of_cons, IH; setoid_rewrite elem_of_cons.
  - split.
    + intros [->|((i & Hi & <-) & Hn & Hns)]; [by split; [exists input; auto|]|]. split; [exists i; auto|set_solver].
    + intros ((i & [->|Hi] & <-) & Hn & Hns); [by left|]. destruct (decide (prev_txid i = prev_txid input)); [by left|].
      right. split; [by exists i|set_solver].
  - split; [|intros ((i & [->|Hi] & <-) & Hn & Hns); [done|by split; [exists i|]]].
    intros ((i & Hi & <-) & Hn & Hns). split; [exists i; auto|done].
  - split; [|intros ((i & [->|Hi] & <-) & Hn & Hns); [done|by split; [exists i|]]].
    intros ((i & Hi & <-) & Hn & Hns). split; [exists i; auto|done].
  - split; [|intros ((i & [->|Hi] & <-) & Hn & Hns); [done|by split; [exists i|]]].
    intros ((i & Hi & <-) & Hn & Hns). split; [exists i; auto|done].
Qed.
Lemma external_NoDup known seen inputs : NoDup (external_loop known seen inputs).
Proof.
  revert seen. induction inputs as [|input inputs IH]; intros seen; cbn [external_loop]; [constructor|].
  destruct (_ && _); [|done]. constructor; [|done]. rewrite elem_of_external. set_solver.
Qed.

Section Reference.
Context {E : Type} (fetch : TransactionId -> result (option (list TransparentOutput)) E) (arrival : list TransactionId -> list TransactionId).
Context (Harrival : forall ids, arrival ids ≡ₚ ids).

Lemma try_collect_ok ids m :
  (forall id, id ∈ ids -> exists outs, fetch id = Ok outs) ->
  exists m', try_collect fetch ids m = Ok m' /\
    forall id, m' !! id = if decide (id ∈ ids) then ok (fetch id) else m !! id.
Proof.
  revert m. induction ids as [|id ids IH]; intros m Hall; [by exists m|]. cbn [try_collect].
  destruct (Hall id) as [outs Ho]; [apply list_elem_of_here|]. rewrite Ho.
  destruct (IH (<[id := outs]> m)) as (m' & -> & Hm); [intros; apply Hall; by apply list_elem_of_further|].
  exists m'. split; [done|]. intros id'. rewrite Hm. destruct (decide (id' ∈ ids)) as [Hi|Hi].
  - by rewrite decide_True by by apply list_elem_of_further.
  - destruct (decide (id' = id)) as [->|Hne]; [rewrite lookup_insert_eq, decide_True by apply list_elem_of_here; by rewrite Ho|].
    rewrite lookup_insert_ne by done. rewrite decide_False; [done|]. by intros [?|?]%elem_of_cons.
Qed.
Lemma try_collect_err ids m e :
  try_collect fetch ids m = Err e -> exists id, id ∈ ids /\ fetch id = Err e.
Proof.
  revert m. induction ids as [|id ids IH]; intros m; [done|]. cbn [try_collect].
  destruct (fetch id) as [outs|e'] eqn:Hf; [|intros [= <-]; exists id; split; [apply list_elem_of_here|done]].
  intros (id' & Hin & Hid)%IH. exists id'. split; [by apply list_elem_of_further|done].
Qed.

(** The outputs an input refers to: the block's own, or the validator's. *)
Definition outputs_of (transactions : list Transaction) (id : TransactionId) : option (list TransparentOutput) :=
  match made_in transactions id with
  | Some outs => Some outs
  | None => match fetch id with Ok outs => outs | Err _ => None end
  end.
(** The output an input spends. *)
Definition spend_one (transactions : list Transaction) (input : TransparentInput) : result ResolvedInput (TransactionViewError E) :=
  let? outs := ok_or (outputs_of transactions (prev_txid input)) (MissingPrevout input) in
  let? out := ok_or (outs !! Z.to_nat (prev_index input))
                (PrevoutIndexOutOfRange input (prev_index input) (Z.of_nat (length outs))) in
  Ok (mkResolvedInput input out).

Lemma map_result_on {X Y F} (f f' : X -> result Y F) l : (forall x, x ∈ l -> f x = f' x) -> map_result f l = map_result f' l.
Proof.
  induction l as [|x l IH]; intros Hf; [done|]. cbn [map_result]. rewrite (Hf x) by apply list_elem_of_here.
  rewrite IH; [done|]. intros y Hy. apply Hf. by apply list_elem_of_further.
Qed.

(** C26: resolving the inputs of a block is resolving each of them on its own: the ids to
    fetch are distinct and exactly those the block does not hold itself; more than the
    ceiling of them are refused; a failed fetch, whichever arrives first, is reported as
    such; and otherwise each input gets the output it names, of the block's own
    transaction or of the fetched one, the first input without one being named. *)
Theorem resolve_prevouts_exact transactions :
  exists ids, NoDup ids /\
    (forall id, id ∈ ids <-> (exists input, input ∈ all_inputs transactions /\ prev_txid input = id) /\ made_in transactions id = None) /\
    (MAX_PREVOUT_FETCHES_PER_REQUEST < Z.of_nat (length ids) ->
       resolve_prevouts fetch arrival transactions =
       Err (PrevoutFanoutTooLarge (Z.of_nat (length ids)) MAX_PREVOUT_FETCHES_PER_REQUEST)) /\
    (Z.of_nat (length ids) <= MAX_PREVOUT_FETCHES_PER_REQUEST ->
       (exists id e, id ∈ ids /\ fetch id = Err e /\ resolve_prevouts fetch arrival transactions = Err (Unavailable e)) \/
       (forall id, id ∈ ids -> exists outs, fetch id = Ok outs) /\
       resolve_prevouts fetch arrival transactions =
         map_result (fun tx => map_result (spend_one transactions) (inputs (transparent tx))) transactions).
Proof.
  exists (external transactions). split; [apply external_NoDup|]. split.
  { intros id. unfold external. rewrite elem_of_external, intra_lookup. set_solver. }
  unfold resolve_prevouts. split; intros Hn; [by rewrite (proj2 (Z.ltb_lt _ _) Hn)|].
  rewrite (proj2 (Z.ltb_ge _ _) Hn). destruct (try_collect fetch (arrival (external transactions)) ∅) as [m|e] eqn:Ht.
  - right. assert (Hall : forall id, id ∈ external transactions -> exists outs, fetch id = Ok outs).
    { intros id Hid. destruct (fetch id) as [outs|e] eqn:Hf; [by exists outs|]. exfalso. rewrite <- Harrival in Hid. clear -Ht Hid Hf.
      revert Ht. generalize (∅ : gmap TransactionId (option (list TransparentOutput))). induction (arrival (external transactions)) as [|x l IH]; intros m0.
      - by apply elem_of_nil in Hid.
      - cbn [try_collect]. apply elem_of_cons in Hid as [->|Hid]; [by rewrite Hf|]. destruct (fetch x); [|done]. by apply IH. }
    split; [done|]. cbn [map_err]. destruct (try_collect_ok (arrival (external transactions)) ∅) as (m' & Hm' & Hm).
    { intros id Hid. apply Hall. by rewrite <- Harrival. }
    rewrite Ht in Hm'. injection Hm' as <-. apply map_result_on. intros tx Htx. apply map_result_on. intros input Hi.
    unfold resolve_input, spend_one, outputs_of. rewrite intra_lookup. destruct (made_in transactions (prev_txid input)) as [outs|] eqn:Hk.
    + cbn [ok_or]. by destruct (outs !! Z.to_nat (prev_index input)).
    + assert (Hin : prev_txid input ∈ external transactions).
      { apply elem_of_external. rewrite intra_lookup. split; [|split; [done|set_solver]]. exists input. split; [|done].
        apply list_elem_of_join. exists (inputs (transparent tx)). split; [done|]. by apply (list_elem_of_fmap_2 (fun tx => inputs (transparent tx))). }
      rewrite Hm. destruct (decide (prev_txid input ∈ arrival (external transactions))) as [_|Hno]; [|by rewrite Harrival in Hno].
      destruct (Hall _ Hin) as [outs ->]. cbn [ok]. destruct outs as [outs|]; [|done]. cbn [ok_or].
      by destruct (outs !! Z.to_nat (prev_index input)).
  - left. apply try_collect_err in Ht as (id & Hin & He). rewrite Harrival in Hin. by exists id, e.
Qed.
End Reference.
End Prevout.

Module BlockDeltas.
Import Store View Prevout.

(** ** What the validator serves *)

(** [transaction_detail.rs], [decoded_block.rs] *)
Record TransparentInputDetail := mkInputDetail { script_sig : list Z; td_sequence : Z }.
Record CoinbaseInput := mkCoinbaseInput { cb_script : list Z; cb_sequence : Z }.
Record JoinSplitValues := mkJoinSplitValues { vpub_old : Z; vpub_new : Z }.
Record TransactionDetail := mkTransactionDetail {
  td_version : Z; overwintered : bool; version_group_id : option Z; td_lock_time : Z; td_expiry_height : option Height;
  td_size : Z; coinbase : option CoinbaseInput; td_transparent_inputs : list TransparentInputDetail; joinsplits : list JoinSplitValues }.
Record DetailedTransaction := mkDetailed { dt_transaction : Transaction; dt_detail : TransactionDetail; dt_raw : list Z }.
Record DecodedBlock := mkDecodedBlock { db_size : Z; db_transactions : list DetailedTransaction }.
Record DecodedTransaction := mkDecodedTransaction {
  dc_transaction : Transaction; dc_detail : TransactionDetail; dc_location : TransactionLocationAnswer; dc_raw : list Z }.

(** [blockchain_info.rs], [block_verbose.rs] *)
Record ValuePoolBalance := mkValuePoolBalance { pool_id : string; chain_value : Z; monitored : bool; value_delta : option Z }.
Record BlockTreeSizes := mkBlockTreeSizes { ts_sapling : Z; ts_orchard : Z; ts_ironwood : Z }.

(** [reads.rs] *)
Record TransactionView := mkTransactionView {
  tv_transaction : Transaction; tv_detail : TransactionDetail; tv_inputs : list ResolvedInput; tv_raw : list Z }.
Record LocatedTransactionView := mkLocatedView { lv_view : TransactionView; lv_location : TransactionLocationAnswer }.
Record BlockTransactionViews := mkBlockViews { bv_size : Z; bv_transactions : list TransactionView }.

(** [block_deltas.rs] of the service *)
Record InputDelta := mkInputDelta { id_script : list Z; id_satoshis : Z; id_index : Z; id_prev_txid : TransactionId; id_prevout : Z }.
Record OutputDelta := mkOutputDelta { od_script : list Z; od_satoshis : Z; od_index : Z }.
Record TransactionDeltas := mkTransactionDeltas {
  xd_txid : TransactionId; xd_index : Z; xd_inputs : list InputDelta; xd_outputs : list OutputDelta }.

Section Engine.
(** [Difficulty] is a floating-point number the engine only passes on; [E] is the cause of
    a failed fetch. *)
Context {Difficulty E : Type}.
Notation TransactionViewError := (TransactionViewError E).

(** [block_verbose.rs], [rpc/block_header.rs] *)
Record BlockVerbose := mkBlockVerbose {
  confirmations : Z; vb_difficulty : Difficulty; vb_chainwork : option Z; chain_supply : option ValuePoolBalance;
  value_pools : list ValuePoolBalance; final_sapling_root : option (list Z); final_orchard_root : option (list Z);
  vb_tree_sizes : BlockTreeSizes; vb_next_block_hash : option BlockHash }.
Record BlockHeaderVerbose := mkHeaderVerbose {
  hv_hash : BlockHash; hv_confirmations : Z; hv_height : Height; hv_version : Z; hv_merkle_root : list Z; hv_time : Z;
  hv_nonce : list Z; hv_solution : list Z; hv_bits : Difficulty.CompactDifficulty.CompactDifficulty; hv_difficulty : Difficulty;
  hv_block_commitments : option (list Z); hv_final_sapling_root : option (list Z); hv_chainwork : option Z;
  previous_block_hash : option BlockHash; hv_next_block_hash : option BlockHash }.
Record BlockDeltas := mkBlockDeltas {
  bd_hash : BlockHash; bd_confirmations : Z; bd_size : Z; bd_height : Height; bd_version : Z; bd_merkle_root : list Z;
  bd_deltas : list TransactionDeltas; bd_time : Z; bd_median_time : Z; bd_nonce : list Z;
  bd_bits : Difficulty.CompactDifficulty.CompactDifficulty; bd_difficulty : Difficulty; bd_chainwork : option Z;
  bd_prev_hash : option BlockHash; bd_next_hash : option BlockHash }.

Inductive BlockDeltasError :=
| TransactionViewFailed (source : TransactionViewError)
| BlockFailed (source : StoreError)
| DeltasMissingHeader (height : Height)
| InputValueOutOfRange (value : Z)
| Orphan (hash : BlockHash).

(** The passthrough's answers at the time of each call. *)
Record Passthrough := mkPassthrough {
  p_block : BlockSelector -> result (option Block) StoreError;
  p_block_verbose : BlockSelector -> result (option BlockVerbose) StoreError;
  p_block_header_verbose : BlockHash -> result (option BlockHeaderVerbose) StoreError;
  p_block_decoded : BlockSelector -> result (option DecodedBlock) TransactionViewError;
  p_transaction_decoded : TransactionId -> result (option DecodedTransaction) TransactionViewError;
  p_prevout_outputs : TransactionId -> result (option (list TransparentOutput)) E;
  p_arrival : list TransactionId -> list TransactionId }.
Context (v : ChainViewSnapshot) (p : Passthrough).

(** ** [transaction_view.rs] *)
Definition engine_resolve (transactions : list Transaction) : result (list (list ResolvedInput)) TransactionViewError :=
  resolve_prevouts (p_prevout_outputs p) (p_arrival p) transactions.
Definition transaction_view (id : TransactionId) : result (option LocatedTransactionView) TransactionViewError :=
  let? decoded := p_transaction_decoded p id in
  match decoded with
  | None => Ok None
  | Some decoded =>
      let? resolved := engine_resolve [dc_transaction decoded] in
      let inputs := default [] (head resolved) in
      Ok (Some (mkLocatedView (mkTransactionView (dc_transaction decoded) (dc_detail decoded) inputs (dc_raw decoded))
                  (dc_location decoded)))
  end.
Definition block_transaction_views (at_ : BlockSelector) : result (option BlockTransactionViews) TransactionViewError :=
  let? decoded := p_block_decoded p at_ in
  match decoded with
  | None => Ok None
  | Some block =>
      let? resolved := engine_resolve (dt_transaction <$> db_transactions block) in
      Ok (Some (mkBlockViews (db_size block)
        (zip_with (fun detailed inputs => mkTransactionView (dt_transaction detailed) (dt_detail detailed) inputs (dt_raw detailed))
           (db_transactions block) resolved)))
  end.

(** ** [block_deltas.rs] *)
Definition MEDIAN_TIME_SPAN : Z := 11.
Definition header_is_orphan (confirmations : Z) : bool := confirmations <? 0.
Definition negated (value : Z) : result Z BlockDeltasError :=
  let? magnitude := ok_or (try_narrow 63 value) (InputValueOutOfRange value) in
  map_err (fun _ => InputValueOutOfRange value) (Zatoshis.signed_try_new (- magnitude)).
Definition input_delta (input : ResolvedInput) (index : nat) : result InputDelta BlockDeltasError :=
  let? satoshis := negated (out_value (ri_spent input)) in
  Ok (mkInputDelta (out_script (ri_spent input)) satoshis (Z.of_nat index) (prev_txid (ri_outpoint input))
        (prev_index (ri_outpoint input))).
Definition input_deltas (view : TransactionView) : result (list InputDelta) BlockDeltasError :=
  match coinbase (tv_detail view) with
  | Some _ => Ok []
  | None => map_result (fun '(index, input) => input_delta input index) (imap pair (tv_inputs view))
  end.
Definition output_deltas (view : TransactionView) : list OutputDelta :=
  imap (fun index output => mkOutputDelta (out_script output) (out_value output) (Z.of_nat index))
    (outputs (transparent (tv_transaction view))).
Definition transaction_deltas (views : BlockTransactionViews) : result (list TransactionDeltas) BlockDeltasError :=
  map_result (fun '(index, view) =>
      let? inputs := input_deltas view in
      Ok (mkTransactionDeltas (txid (tv_transaction view)) (Z.of_nat index) inputs (output_deltas view)))
    (imap pair (bv_transactions views)).

Definition ancestor (hash : BlockHash) : result BlockHeaderVerbose BlockDeltasError :=
  let? header := map_err BlockFailed (p_block_header_verbose p hash) in
  ok_or header (BlockFailed Transient).
Definition covered (tip : option Z) (height : Z) : bool :=
  match tip with Some tip => height <=? tip | None => false end.
(** The ancestors above the local tip: the times walked and where local coverage begins.
    [None]: out of fuel. *)
Fixpoint walk_above (fuel : nat) (tip : option Z) (bottom height : Z) (hash : BlockHash) (time : Z) (prev : option BlockHash)
    (times : list Z) : option (result (option (Z * BlockHash) * list Z) BlockDeltasError) :=
  match fuel with
  | O => None
  | S fuel =>
      if covered tip height then Some (Ok (Some (height, hash), times))
      else
        let times := times ++ [time] in
        if height =? bottom then Some (Ok (None, times))
        else match prev with
             | None => Some (Ok (None, times))
             | Some prev_hash =>
                 if covered tip (height - 1) then Some (Ok (Some (height - 1, prev_hash), times))
                 else match ancestor prev_hash with
                      | Err e => Some (Err e)
                      | Ok predecessor =>
                          walk_above fuel tip bottom (height - 1) prev_hash (hv_time predecessor) (previous_block_hash predecessor) times
                      end
             end
  end.
(** The rest of the window from the local chain, downwards. *)
Fixpoint local_times (heights : list Z) : result (list Z) BlockDeltasError :=
  match heights with
  | [] => Ok []
  | raw :: heights =>
      match Height.try_from raw with
      | Err _ => local_times heights
      | Ok window_height =>
          let? summary := map_err BlockFailed (view_header v window_height) in
          let? summary := ok_or summary (DeltasMissingHeader window_height) in
          let? times := local_times heights in
          Ok (hs_time summary :: times)
      end
  end.
(** The rest of the window from the validator, where the local chain diverged. *)
Fixpoint walk_diverged (fuel : nat) (bottom height : Z) (hash : BlockHash) (times : list Z) : option (result (list Z) BlockDeltasError) :=
  match fuel with
  | O => None
  | S fuel =>
      match ancestor hash with
      | Err e => Some (Err e)
      | Ok summary =>
          let times := times ++ [hv_time summary] in
          if height =? bottom then Some (Ok times)
          else match previous_block_hash summary with
               | None => Some (Ok times)
               | Some prev_hash => walk_diverged fuel bottom (height - 1) prev_hash times
               end
      end
  end.
Definition WALK_FUEL : nat := 11.
Definition below_boundary (header : BlockHeader) (bottom : Z) (boundary : option (Z * BlockHash)) (times : list Z)
    : option (result (list Z) BlockDeltasError) :=
  match boundary with
  | None => Some (Ok times)
  | Some (boundary_height, boundary_hash) =>
      match Height.try_from boundary_height with
      | Err _ => Some (Err (DeltasMissingHeader (h_height header)))
      | Ok boundary =>
          match map_err BlockFailed (view_header v boundary) with
          | Err e => Some (Err e)
          | Ok None => Some (Err (DeltasMissingHeader boundary))
          | Ok (Some summary) =>
              if bool_decide (hs_hash summary = boundary_hash)
              then Some (let? local := local_times (reverse (seqZ bottom (boundary_height - bottom + 1))) in Ok (times ++ local))
              else walk_diverged WALK_FUEL bottom boundary_height boundary_hash times
          end
      end
  end.
Definition median_time (header : BlockHeader) : option (result Z BlockDeltasError) :=
  let tip := br_height <$> view_pinned_tip v in
  let top := h_height header in
  let bottom := saturating_sub top (MEDIAN_TIME_SPAN - 1) in
  let prev := if negb (top =? 0) then Some (h_prev_hash header) else None in
  let! walked := walk_above WALK_FUEL tip bottom top (h_hash header) (h_time header) prev [] in
  match walked with
  | Err e => Some (Err e)
  | Ok (boundary, times) =>
      let! times := below_boundary header bottom boundary times in
      Some (let? times := times in
            ok_or (BlockTime.median_time_past times) (DeltasMissingHeader (h_height header)))
  end.

Definition block_deltas (at_ : BlockSelector) : option (result (option BlockDeltas) BlockDeltasError) :=
  match map_err BlockFailed (p_block p at_) with
  | Err e => Some (Err e)
  | Ok block =>
      let contents := match block with Some block => AtHash (h_hash (header block)) | None => at_ end in
      match map_err BlockFailed (p_block_verbose p contents), map_err TransactionViewFailed (block_transaction_views contents) with
      | Err e, _ => Some (Err e)
      | Ok _, Err e => Some (Err e)
      | Ok verbose, Ok views =>
          match block, verbose, views with
          | Some block, Some verbose, Some views =>
              let header := header block in
              if header_is_orphan (confirmations verbose) then Some (Err (Orphan (h_hash header)))
              else
                let! median_time := median_time header in
                Some (let? median_time := median_time in
                      let? deltas := transaction_deltas views in
                      Ok (Some (mkBlockDeltas (h_hash header) (confirmations verbose) (bv_size views) (h_height header)
                        (h_version header) (h_merkle_root header) deltas (h_time header) median_time (h_nonce header)
                        (h_bits header) (vb_difficulty verbose) (vb_chainwork verbose)
                        (if negb (h_height header =? 0) then Some (h_prev_hash header) else None) (vb_next_block_hash verbose))))
          | None, None, None => Some (Ok None)
          | _, _, _ => Some (Err (BlockFailed Transient))
          end
      end
  end.
End Engine.
(** ** The median time is of the block's own ancestry *)
Lemma median_perm l l' : (length l <= 11)%nat -> l ≡ₚ l' -> BlockTime.median_time_past l = BlockTime.median_time_past l'.
Proof.
  intros Hl Hp. assert (Hl' : length l' = length l) by by rewrite Hp. unfold BlockTime.median_time_past, BlockTime.MEDIAN_BLOCK_SPAN.
  rewrite Hl'. replace (length l - 11)%nat with 0%nat by lia. rewrite !drop_0.
  assert (merge_sort Z.le l = merge_sort Z.le l') as ->.
  { apply (StronglySorted_unique Z.le); [apply (StronglySorted_merge_sort _)..|]. by rewrite !(merge_sort_Permutation Z.le). }
  by destruct l, l'.
Qed.

Section Median.
Context {Difficulty E : Type} (v : ChainViewSnapshot) (p : @Passthrough Difficulty E).
(** The block's branch by height, its own hash and time last, and the local chain. *)
Context (branch local : list (BlockHash * Z)) (header : BlockHeader).

(** The validator serves the branch's headers; the local view serves the local chain, which
    below a block the two share is the branch. *)
Record serves_branch : Prop := {
  sb_top : h_height header = Z.of_nat (length branch) - 1 /\ last branch = Some (h_hash header, h_time header);
  sb_prev : 0 < h_height header -> fst <$> branch !! Z.to_nat (h_height header - 1) = Some (h_prev_hash header);
  sb_small : Z.of_nat (length branch) <= 2 ^ 31 /\ Z.of_nat (length local) <= 2 ^ 31;
  sb_headers : forall i x, branch !! i = Some x ->
    exists header, p_block_header_verbose p x.1 = Ok (Some header) /\ hv_time header = x.2 /\
      previous_block_hash header = match i with O => None | S i => fst <$> branch !! i end;
  sb_tip : br_height <$> view_pinned_tip v = match local with [] => None | _ => Some (Z.of_nat (length local) - 1) end;
  sb_view : forall i x, local !! i = Some x -> view_header v (Z.of_nat i) = Ok (Some (mkHeaderSummary x.1 x.2));
  sb_coherent : forall i x y, local !! i = Some x -> branch !! i = Some y -> x.1 = y.1 -> take (S i) local = take (S i) branch }.
Context (Hs : serves_branch).
Notation top := (h_height header).
Notation tip := (br_height <$> view_pinned_tip v).

Definition time_of (h : Z) : Z := default 0 (snd <$> branch !! Z.to_nat h).
(** The times of an interval of heights. *)
Definition span (a z : Z) : list Z := time_of <$> seqZ a (z - a + 1).
Definition at_height (h : Z) (hash : BlockHash) (time : Z) (prev : option BlockHash) : Prop :=
  branch !! Z.to_nat h = Some (hash, time) /\ prev = (if h =? 0 then None else fst <$> branch !! Z.to_nat (h - 1)).

Lemma span_last a z : a <= z -> span a z = span a (z - 1) ++ [time_of z].
Proof.
  intros Ha. unfold span. replace (z - a + 1) with ((z - 1 - a + 1) + 1) by lia. rewrite seqZ_app by lia.
  rewrite fmap_app. f_equal. replace (a + (z - 1 - a + 1)) with z by lia. by rewrite seqZ_cons by lia.
Qed.
Lemma covered_spec h : 0 <= h -> covered tip h = true <-> h < Z.of_nat (length local).
Proof.
  intros Hh. rewrite (sb_tip Hs). unfold covered. destruct local as [|x l]; [split; [done|cbn; lia]|]. rewrite Z.leb_le. lia.
Qed.
Lemma ancestor_at h hash time prev :
  at_height h hash time prev -> 0 <= h ->
  exists header, ancestor p hash = Ok header /\ hv_time header = time /\ previous_block_hash header = prev.
Proof.
  intros [Hb ->] Hh. unfold ancestor. destruct (sb_headers Hs _ _ Hb) as (header' & Hp & Ht & Hprev). cbn [fst snd] in Hp, Ht.
  rewrite Hp. exists header'. split; [done|]. split; [done|]. rewrite Hprev.
  destruct (Z.eqb_spec h 0) as [->|Hne]; [done|]. replace (Z.to_nat h) with (S (Z.to_nat (h - 1))) by lia. done.
Qed.
Lemma at_below h hash time prev : at_height h hash time prev -> 0 < h -> exists hash' time' prev',
  prev = Some hash' /\ at_height (h - 1) hash' time' prev'.
Proof.
  intros [Hb ->] Hh. destruct (Z.eqb_spec h 0); [lia|].
  destruct (lookup_lt_is_Some_2 branch (Z.to_nat (h - 1))) as [[hash' time'] Hb']; [apply lookup_lt_Some in Hb; lia|].
  rewrite Hb'. by eexists hash', time', _.
Qed.
Lemma time_at h hash time prev : at_height h hash time prev -> time_of h = time.
Proof. intros [Hb _]. unfold time_of. by rewrite Hb. Qed.

(** The walk above the local tip stops with the whole window, or at the first covered
    ancestor. *)
Lemma walk_above_spec fuel bottom h hash time prev times :
  0 <= bottom <= h -> h - bottom < Z.of_nat fuel -> at_height h hash time prev ->
  exists boundary ts, walk_above p fuel tip bottom h hash time prev times = Some (Ok (boundary, times ++ ts)) /\
    match boundary with
    | None => ts ≡ₚ span bottom h
    | Some (k, khash) => bottom <= k <= h /\ k < Z.of_nat (length local) /\ ts ≡ₚ span (k + 1) h /\
        exists ktime kprev, at_height k khash ktime kprev
    end.
Proof.
  revert h hash time prev times. induction fuel as [|fuel IH]; intros h hash time prev times Hb Hf Hat; [lia|]. cbn [walk_above].
  destruct (covered tip h) eqn:Hc.
  { apply covered_spec in Hc; [|lia]. exists (Some (h, hash)), []. rewrite app_nil_r. split; [done|]. split_and!; [lia..| |eauto].
    unfold span. by replace (h - (h + 1) + 1) with 0 by lia. }
  rewrite <- (time_at _ _ _ _ Hat). destruct (Z.eqb_spec h bottom) as [->|Hne].
  { exists None, [time_of bottom]. split; [done|]. unfold span. replace (bottom - bottom + 1) with 1 by lia. done. }
  destruct (at_below _ _ _ _ Hat ltac:(lia)) as (hash' & time' & prev' & -> & Hat').
  destruct (covered tip (h - 1)) eqn:Hc'.
  { apply covered_spec in Hc'; [|lia]. exists (Some (h - 1, hash')), [time_of h]. split; [done|]. split_and!; [lia..| |eauto].
    replace (h - 1 + 1) with h by lia. unfold span. replace (h - h + 1) with 1 by lia. done. }
  destruct (ancestor_at _ _ _ _ Hat' ltac:(lia)) as (header' & -> & -> & ->).
  destruct (IH (h - 1) hash' time' prev' (times ++ [time_of h])) as (boundary & ts & -> & Hbd); [lia..|done|].
  exists boundary, (time_of h :: ts). split; [by rewrite <- app_assoc|]. destruct boundary as [[k khash]|].
  - destruct Hbd as (Hk & Hkl & Hts & Hka). split_and!; [lia..| |done]. rewrite (span_last (k + 1) h), Hts by lia.
    by rewrite Permutation_cons_append.
  - rewrite (span_last bottom h), Hbd by lia. by rewrite Permutation_cons_append.
Qed.
Lemma walk_diverged_spec fuel bottom h hash time prev times :
  0 <= bottom <= h -> h - bottom < Z.of_nat fuel -> at_height h hash time prev ->
  exists ts, walk_diverged p fuel bottom h hash times = Some (Ok (times ++ ts)) /\ ts ≡ₚ span bottom h.
Proof.
  revert h hash time prev times. induction fuel as [|fuel IH]; intros h hash time prev times Hb Hf Hat; [lia|]. cbn [walk_diverged].
  destruct (ancestor_at _ _ _ _ Hat ltac:(lia)) as (header' & -> & -> & ->). rewrite <- (time_at _ _ _ _ Hat).
  destruct (Z.eqb_spec h bottom) as [->|Hne].
  { exists [time_of bottom]. split; [done|]. unfold span. replace (bottom - bottom + 1) with 1 by lia. done. }
  destruct (at_below _ _ _ _ Hat ltac:(lia)) as (hash' & time' & prev' & -> & Hat').
  destruct (IH (h - 1) hash' time' prev' (times ++ [time_of h])) as (ts & -> & Hts); [lia..|done|].
  exists (time_of h :: ts). split; [by rewrite <- app_assoc|]. rewrite (span_last bottom h), Hts by lia. by rewrite Permutation_cons_append.
Qed.
(** Reading the shared part of the local chain. *)
Lemma local_times_spec (hs : list Z) :
  (forall h, h ∈ hs -> 0 <= h <= Height.MAX_HEIGHT /\ local !! Z.to_nat h = branch !! Z.to_nat h /\ is_Some (branch !! Z.to_nat h)) ->
  local_times (E := E) v hs = Ok (time_of <$> hs).
Proof.
  induction hs as [|h hs IH]; intros Hall; [done|]. cbn [local_times].
  destruct (Hall h) as (Hh & Heq & [x Hx]); [apply list_elem_of_here|]. unfold Height.try_from.
  rewrite (proj2 (Z.ltb_ge _ _)) by lia. rewrite Hx in Heq. pose proof (sb_view Hs _ _ Heq) as Hv. rewrite Z2Nat.id in Hv by lia.
  rewrite Hv. cbn [map_err ok_or]. rewrite IH; [|intros; apply Hall; by apply list_elem_of_further].
  cbn. unfold time_of. by rewrite Hx.
Qed.
Lemma below_boundary_spec bottom k khash ktime kprev times :
  0 <= bottom <= k -> k - bottom < 11 -> k < Z.of_nat (length local) -> at_height k khash ktime kprev ->
  exists ts, below_boundary v p header bottom (Some (k, khash)) times = Some (Ok (times ++ ts)) /\ ts ≡ₚ span bottom k.
Proof.
  intros Hb Hw Hk Hat. destruct (sb_small Hs) as [_ Hsm]. unfold below_boundary, Height.try_from. change Height.MAX_HEIGHT with (2 ^ 31 - 1).
  rewrite (proj2 (Z.ltb_ge _ _)) by lia. destruct (lookup_lt_is_Some_2 local (Z.to_nat k)) as [x Hx]; [lia|].
  pose proof (sb_view Hs _ _ Hx) as Hv. rewrite Z2Nat.id in Hv by lia. rewrite Hv. cbn [map_err hs_hash].
  destruct (bool_decide_reflect (x.1 = khash)) as [Heq|Hne].
  - destruct Hat as [Hbk _]. pose proof (sb_coherent Hs _ _ _ Hx Hbk Heq) as Hco. rewrite local_times_spec.
    + eexists. split; [done|]. unfold span. apply fmap_Permutation, reverse_Permutation.
    + intros h Hin. rewrite elem_of_reverse in Hin. apply elem_of_seqZ in Hin. change Height.MAX_HEIGHT with (2 ^ 31 - 1). split; [lia|].
      assert (Ht : forall l : list (BlockHash * Z), take (S (Z.to_nat k)) l !! Z.to_nat h = l !! Z.to_nat h) by (intros l; apply lookup_take_lt; lia).
      split; [by rewrite <- Ht, Hco, Ht|]. apply lookup_lt_is_Some_2. apply lookup_lt_Some in Hbk. lia.
  - eapply walk_diverged_spec; [lia|unfold WALK_FUEL; lia|done].
Qed.
Lemma span_window a : 0 <= a <= top -> span a top = drop (Z.to_nat a) branch.*2.
Proof.
  intros Ha. destruct (sb_top Hs) as [Ht _]. apply list_eq. intros i. rewrite lookup_drop, list_lookup_fmap. unfold span. rewrite list_lookup_fmap.
  destruct (decide (i < Z.to_nat (top - a + 1))%nat) as [Hi|Hi].
  - rewrite lookup_seqZ_lt by lia. cbn. unfold time_of. replace (Z.to_nat (a + Z.of_nat i)) with (Z.to_nat a + i)%nat by lia.
    destruct (lookup_lt_is_Some_2 branch (Z.to_nat a + i)) as [x Hx]; [lia|]. by rewrite Hx.
  - rewrite lookup_seqZ_ge by lia. cbn. rewrite lookup_ge_None_2; [done|]. lia.
Qed.
Lemma median_time_branch :
  exists m, BlockTime.mtp_at branch.*2 (top + 1) = Some m /\ median_time v p header = Some (Ok m).
Proof.
  destruct (sb_top Hs) as [Ht Hl]. destruct (sb_small Hs) as [Hsm _].
  assert (Hne : branch <> []) by (by intros ->). assert (0 < Z.of_nat (length branch)) by (destruct branch; [done|cbn; lia]).
  set (bottom := saturating_sub top (MEDIAN_TIME_SPAN - 1)).
  assert (Hbot : 0 <= bottom <= top /\ top - bottom < 11) by (unfold bottom, saturating_sub, MEDIAN_TIME_SPAN; lia).
  assert (Hat : at_height top (h_hash header) (h_time header) (if negb (top =? 0) then Some (h_prev_hash header) else None)).
  { split; [rewrite last_lookup in Hl; rewrite <- Hl; f_equal; lia|]. destruct (Z.eqb_spec top 0); [done|]. cbn. rewrite (sb_prev Hs); [done|lia]. }
  assert (Hwin : exists ts, (let! walked := walk_above p WALK_FUEL tip bottom top (h_hash header) (h_time header)
        (if negb (top =? 0) then Some (h_prev_hash header) else None) [] in
      match walked with Err e => Some (Err e) | Ok (boundary, times) => below_boundary v p header bottom boundary times end) = Some (Ok ts) /\
      ts ≡ₚ span bottom top).
  { destruct (walk_above_spec WALK_FUEL bottom top _ _ _ [] ltac:(lia) ltac:(unfold WALK_FUEL; lia) Hat) as (boundary & ts & -> & Hbd).
    destruct boundary as [[k khash]|]; [|by exists ts]. destruct Hbd as (Hk & Hkl & Hts & ktime & kprev & Hka).
    destruct (below_boundary_spec bottom k khash ktime kprev ([] ++ ts)) as (ts' & -> & Hts'); [lia..|done|].
    eexists. split; [done|]. rewrite app_nil_l, Hts, Hts'. rewrite Permutation_app_comm.
    unfold span. rewrite <- fmap_app. replace (top - bottom + 1) with ((k - bottom + 1) + (top - (k + 1) + 1)) by lia.
    rewrite (seqZ_app bottom (k - bottom + 1)) by lia. by replace (bottom + (k - bottom + 1)) with (k + 1) by lia. }
  destruct Hwin as (ts & Hrun & Hts). destruct (BlockTime.median_exists branch.*2) as (m & Hm & _); [by destruct branch|].
  assert (Hmed : BlockTime.median_time_past ts = Some m).
  { rewrite span_window in Hts by lia. rewrite (median_perm ts (drop (Z.to_nat bottom) branch.*2)); [|rewrite Hts, length_drop, length_fmap; lia|done].
    rewrite <- Hm. unfold BlockTime.median_time_past, BlockTime.MEDIAN_BLOCK_SPAN.
    assert (Hwindow : drop (length (drop (Z.to_nat bottom) branch.*2) - 11) (drop (Z.to_nat bottom) branch.*2) = drop (length branch.*2 - 11) branch.*2).
    { rewrite drop_drop, !length_drop, !length_fmap. f_equal. unfold bottom, saturating_sub, MEDIAN_TIME_SPAN in *. lia. }
    rewrite Hwindow. destruct (drop (Z.to_nat bottom) branch.*2) eqn:Hd; [|by destruct branch].
    apply (f_equal length) in Hd. rewrite length_drop, length_fmap in Hd. cbn in Hd. lia. }
  exists m. split.
  - unfold BlockTime.mtp_at. rewrite take_ge; [done|]. rewrite length_fmap. lia.
  - unfold median_time. fold bottom. destruct (walk_above p WALK_FUEL tip bottom top _ _ _ []) as [[[boundary times]|e]|]; [|done|done].
    rewrite Hrun. by rewrite Hmed.
Qed.
End Median.
(** ** The composed block *)
Lemma map_result_imap {X Y F} (f : nat * X -> result Y F) (g : nat -> X -> Y) (l : list X) :
  (forall i x, l !! i = Some x -> f (i, x) = Ok (g i x)) -> map_result f (imap pair l) = Ok (imap g l).
Proof.
  revert f g. induction l as [|x l IH]; intros f g Hf; [done|]. cbn [imap map_result]. rewrite (Hf 0%nat x eq_refl).
  assert (Hgen : forall (l : list X) n (f : nat * X -> result Y F) g, (forall i x, l !! i = Some x -> f ((n + i)%nat, x) = Ok (g (n + i)%nat x)) ->
    map_result f (imap (fun i => pair (n + i)%nat) l) = Ok (imap (fun i => g (n + i)%nat) l)).
  { clear. induction l as [|x l IH]; intros n f g Hf; [done|]. cbn [imap map_result]. rewrite (Hf 0%nat x eq_refl).
    assert (E : forall Z' (h : nat -> X -> Z'), imap ((fun i => h (n + i)%nat) ∘ S) l = imap (fun i => h (S n + i)%nat) l)
      by (intros Z' h; apply imap_ext; intros i y _; cbn; f_equal; lia).
    rewrite (E _ pair), (E _ g), (IH (S n) f g); [done|]. intros i y Hy. specialize (Hf (S i) y Hy).
    by replace (n + S i)%nat with (S n + i)%nat in Hf by lia. }
  change (imap (pair ∘ S) l) with (imap (fun i => pair (1 + i)%nat) l). rewrite (Hgen l 1%nat f g); [done|].
  intros i y Hy. by apply (Hf (S i)).
Qed.
Lemma negated_valid {E} value : Zatoshis.valid value -> negated (E := E) value = Ok (- value).
Proof.
  intros Hx. unfold negated, try_narrow, Zatoshis.signed_try_new. unfold Zatoshis.valid in Hx.
  change Zatoshis.MAX_ZATOSHIS with 2100000000000000 in *. rewrite (proj2 (Z.ltb_lt value (2 ^ 63))) by lia. cbn [ok_or].
  by rewrite (proj2 (Z.leb_le _ 2100000000000000)) by lia.
Qed.

(** A transaction's movements: what its inputs take away, unless it is a coinbase, and
    what its outputs bring. *)
Definition movements (i : nat) (view : TransactionView) : TransactionDeltas :=
  mkTransactionDeltas (txid (tv_transaction view)) (Z.of_nat i)
    (match coinbase (tv_detail view) with
     | Some _ => []
     | None => imap (fun j ri => mkInputDelta (out_script (ri_spent ri)) (- out_value (ri_spent ri)) (Z.of_nat j)
                                   (prev_txid (ri_outpoint ri)) (prev_index (ri_outpoint ri))) (tv_inputs view)
     end)
    (output_deltas view).
Lemma transaction_deltas_movements {E} views :
  Forall (fun view => Forall (fun ri => Zatoshis.valid (out_value (ri_spent ri))) (tv_inputs view)) (bv_transactions views) ->
  transaction_deltas (E := E) views = Ok (imap movements (bv_transactions views)).
Proof.
  intros Hval. unfold transaction_deltas. apply map_result_imap. intros i view Hi. rewrite Forall_lookup in Hval. specialize (Hval i view Hi).
  unfold input_deltas, movements. destruct (coinbase (tv_detail view)); [done|].
  rewrite (map_result_imap _ (fun j ri => mkInputDelta (out_script (ri_spent ri)) (- out_value (ri_spent ri)) (Z.of_nat j)
    (prev_txid (ri_outpoint ri)) (prev_index (ri_outpoint ri)))); [done|].
  intros j ri Hj. rewrite Forall_lookup in Hval. unfold input_delta. by rewrite negated_valid by by eapply Hval.
Qed.

Section Composed.
Context {Difficulty E : Type} (v : ChainViewSnapshot) (p : @Passthrough Difficulty E).
Context (branch local : list (BlockHash * Z)) (block : Block) (verbose : @BlockVerbose Difficulty) (decoded : DecodedBlock).
Context (ins : list (list ResolvedInput)) (at_ : BlockSelector).

(** The validator serves the block, its position and its decoded transactions by its hash,
    and the outputs they spend. *)
Record serves_block : Prop := {
  sv_block : p_block p at_ = Ok (Some block);
  sv_verbose : p_block_verbose p (AtHash (h_hash (header block))) = Ok (Some verbose);
  sv_decoded : p_block_decoded p (AtHash (h_hash (header block))) = Ok (Some decoded);
  sv_spent : engine_resolve p (dt_transaction <$> db_transactions decoded) = Ok ins;
  sv_values : Forall (Forall (fun ri => Zatoshis.valid (out_value (ri_spent ri)))) ins }.
Definition views : list TransactionView :=
  zip_with (fun d i => mkTransactionView (dt_transaction d) (dt_detail d) i (dt_raw d)) (db_transactions decoded) ins.

(** C24: [getblockdeltas] of a served block: an orphan is declined; a block of the main
    chain is answered whole, its median time that of the block and its ten predecessors
    on its own branch, whether the local chain is ahead of the block, behind it or on
    another branch, and its transactions' movements those of the outputs they spend and
    make. *)
Theorem block_deltas_exact :
  serves_block -> serves_branch v p branch local (header block) ->
  (confirmations verbose < 0 -> block_deltas v p at_ = Some (Err (Orphan (h_hash (header block))))) /\
  (0 <= confirmations verbose ->
     exists d m, block_deltas v p at_ = Some (Ok (Some d)) /\ BlockTime.mtp_at branch.*2 (h_height (header block) + 1) = Some m /\
       bd_median_time d = m /\ bd_hash d = h_hash (header block) /\ bd_height d = h_height (header block) /\
       bd_deltas d = imap movements views /\
       bd_prev_hash d = (if h_height (header block) =? 0 then None else Some (h_prev_hash (header block)))).
Proof.
  intros [Hb Hv Hd Hr Hval] Hbr. unfold block_deltas, block_transaction_views. rewrite Hb. cbn [map_err]. rewrite Hv, Hd, Hr. cbn [map_err].
  unfold header_is_orphan. split; intros Hc; [by rewrite (proj2 (Z.ltb_lt _ _) Hc)|]. rewrite (proj2 (Z.ltb_ge _ _) Hc).
  destruct (median_time_branch v p branch local (header block) Hbr) as (m & Hm & ->).
  rewrite (transaction_deltas_movements (E := E)).
  - eexists _, m. split; [done|]. cbn. split_and!; [done..|]. by destruct (h_height (header block) =? 0).
  - cbn [bv_transactions]. apply Forall_lookup. intros i view (d & x & -> & _ & Hx)%lookup_zip_with_Some. cbn.
    rewrite Forall_lookup in Hval. by apply (Hval i).
Qed.
End Composed.
(** ** A block above the local tip

    The local chain holds the first two blocks; the validator serves a third, whose second
    transaction spends an output of its first and one made elsewhere. *)
Module Example.
Definition h32 (z : Z) : list Z := replicate 32 z.
Definition tx (id : Z) (ins : list TransparentInput) (values : list Z) : Transaction :=
  mkTransaction (h32 id) (mkTransparentData ins ((fun value => mkTransparentOutput value [id]) <$> values)) (mkSaplingData [] [] 0)
    (mkOrchardData [] 0) (mkOrchardData [] 0).
Definition minted : Transaction := tx 1 [] [50; 60].
Definition spender : Transaction := tx 2 [mkTransparentInput (h32 1) 1; mkTransparentInput (h32 9) 0] [70].
Definition third : Block :=
  mkBlock (mkBlockHeader (h32 12) 4 (h32 11) 2 1002 (h32 0) (h32 0) (Difficulty.CompactDifficulty.mkCompactDifficulty 0x2007ffff 32) (h32 0) (Regtest []))
    [minted; spender] (mkChainMetadata 0 0 0).
Definition local : list (BlockHash * Z) := [(h32 10, 1000); (h32 11, 1001)].
Definition branch : list (BlockHash * Z) := local ++ [(h32 12, 1002)].
Definition window : Ports.ChainTier :=
  Ports.mkTier (Some (mkBlockRef (h32 11) 1)) (Some (mkHeightRange 0 1)) (fun _ => Ok None)
    (fun h => Ok ((fun x => mkHeaderSummary x.1 x.2) <$> local !! Z.to_nat h)).
Definition empty : Ports.ChainTier := Ports.mkTier None None (fun _ => Ok None) (fun _ => Ok None).
Definition view : ChainViewSnapshot := view_new empty window.

Definition detail (coinbase : option CoinbaseInput) : TransactionDetail := mkTransactionDetail 4 true None 0 None 100 coinbase [] [].
Definition decoded : DecodedBlock :=
  mkDecodedBlock 200 [mkDetailed minted (detail (Some (mkCoinbaseInput [] 0))) []; mkDetailed spender (detail None) []].
Definition position : @BlockVerbose unit := mkBlockVerbose 1 tt None None [] None None (mkBlockTreeSizes 0 0 0) None.
Definition verbose_header (h : Z) (prev : option BlockHash) : @BlockHeaderVerbose unit :=
  mkHeaderVerbose (h32 (10 + h)) 1 h 4 (h32 0) (1000 + h) (h32 0) [] (Difficulty.CompactDifficulty.mkCompactDifficulty 0x2007ffff 32) tt
    None None None prev None.
Definition header_of (hash : BlockHash) : option BlockHeaderVerbose :=
  if bool_decide (hash = h32 10) then Some (verbose_header 0 None)
  else if bool_decide (hash = h32 11) then Some (verbose_header 1 (Some (h32 10)))
  else if bool_decide (hash = h32 12) then Some (verbose_header 2 (Some (h32 11))) else None.
Definition fetch (id : TransactionId) : result (option (list TransparentOutput)) unit :=
  Ok (if bool_decide (id = h32 9) then Some [mkTransparentOutput 5 [9]] else None).
Definition validator : @Passthrough unit unit :=
  mkPassthrough (fun _ => Ok (Some third)) (fun _ => Ok (Some position)) (fun hash => Ok (header_of hash)) (fun _ => Ok (Some decoded))
    (fun _ => Ok None) fetch (fun ids => reverse ids).
Definition spent : list (list ResolvedInput) :=
  [[]; [mkResolvedInput (mkTransparentInput (h32 1) 1) (mkTransparentOutput 60 [1]); mkResolvedInput (mkTransparentInput (h32 9) 0) (mkTransparentOutput 5 [9])]].

Lemma resolve_prevouts_exact_witness :
  exists ids, NoDup ids /\
    (forall id, id ∈ ids <-> (exists input, input ∈ all_inputs [minted; spender] /\ prev_txid input = id) /\ made_in [minted; spender] id = None) /\
    (MAX_PREVOUT_FETCHES_PER_REQUEST < Z.of_nat (length ids) ->
       resolve_prevouts fetch (fun ids => reverse ids) [minted; spender] =
       Err (PrevoutFanoutTooLarge (Z.of_nat (length ids)) MAX_PREVOUT_FETCHES_PER_REQUEST)) /\
    (Z.of_nat (length ids) <= MAX_PREVOUT_FETCHES_PER_REQUEST ->
       (exists id e, id ∈ ids /\ fetch id = Err e /\ resolve_prevouts fetch (fun ids => reverse ids) [minted; spender] = Err (Unavailable e)) \/
       (forall id, id ∈ ids -> exists outs, fetch id = Ok outs) /\
       resolve_prevouts fetch (fun ids => reverse ids) [minted; spender] =
         map_result (fun tx => map_result (spend_one fetch [minted; spender]) (inputs (transparent tx))) [minted; spender]).
Proof. exact (resolve_prevouts_exact fetch (fun ids => reverse ids) (fun ids => reverse_Permutation ids) [minted; spender]). Defined.

Lemma block_served : serves_block validator third position decoded spent (AtHeight 2).
Proof.
  split; try reflexivity. constructor; [constructor|]. constructor; [|constructor].
  constructor; [split; discriminate|]. constructor; [split; discriminate|constructor].
Qed.
Lemma branch_served : serves_branch view validator branch local (header third).
Proof.
  split.
  - split; reflexivity.
  - reflexivity.
  - split; discriminate.
  - intros [|[|[|i]]] x; [intros [= <-]; eexists; split_and!; [vm_compute; reflexivity|reflexivity|reflexivity]..|discriminate].
  - reflexivity.
  - intros [|[|i]] x; [intros [= <-]; vm_compute; reflexivity..|discriminate].
  - intros [|[|i]] x y; [by intros [= <-] [= <-]..|discriminate].
Qed.
Lemma block_deltas_exact_witness :
  exists d m, block_deltas view validator (AtHeight 2) = Some (Ok (Some d)) /\ BlockTime.mtp_at [1000; 1001; 1002] 3 = Some m /\
    bd_median_time d = m /\ bd_hash d = h32 12 /\ bd_height d = 2 /\
    bd_deltas d = imap movements (views decoded spent) /\ bd_prev_hash d = Some (h32 11).
Proof.
  exact (proj2 (block_deltas_exact view validator branch local third position decoded spent (AtHeight 2) block_served branch_served)
    ltac:(discriminate)).
Defined.
End Example.
End BlockDeltas.
