(* ===== verification/Subtrees.v ===== *)
(** * Subtree roots
    ([packages/zaino-indexes/src/indexes/subtrees.rs], [subtrees/{pool,codec}.rs])

    A completed subtree is the perfect subtree of 2^16 consecutive leaves of a
    pool's commitment tree.  The index reads the frontier before a block from
    [tree_state], re-lifts the block's leaves onto it and reads each completed
    subtree's root off the frontier at its completion size.  It is shown to hold
    exactly the roots of the chain's completed subtrees, numbered from zero, each
    with the block that completed it. *)

From S2P Require Import Prelude Primitives Types Persistence Codec Dag Engine Bridge BridgeCorrect TreeSegment TreeState Indexes.
From stdpp Require Import base gmap list strings sets relations sorting.
From Stdlib Require Import ZArith Lia.
Open Scope Z_scope.

Module Subtrees.
Import Kv.
Import Layout.
Import Codec.
Import Bridge.
Import BridgeCorrect.
Import TreeSegment.
Import TreeState.

(** ** Completed subtrees of one pool *)
Section Completed.
Context {H : Type} (hash : nat -> H -> H -> H) `{!Imt H}.

(** [1u64.checked_shl(level)]; a level is a [u8]. *)
Definition checked_span (level : nat) : option Z := if (level <? 64)%nat then Some (span level) else None.

(** [subtree_root]; [None] is the [expect] on a missing ommer. *)
Fixpoint fold_ommers (todo ommer_level : nat) (ommers : list H) (acc : H) : option H :=
  match todo with
  | O => Some acc
  | S todo =>
      match ommers with
      | [] => None
      | ommer :: ommers => fold_ommers todo (S ommer_level) ommers (hash ommer_level ommer acc)
      end
  end.
Definition subtree_root (frontier : NonEmptyFrontier) (level : nat) : option H :=
  fold_ommers level 0 (ommers frontier) (leaf frontier).

(** [completed_subtrees]; [None] is one of its [expect]s. *)
Fixpoint completions (combined : TreeSegment) (span : Z) (level : nat) (m : Z) (count : nat)
    : option (list (Z * H)) :=
  match count with
  | O => Some []
  | S count =>
      let! completion_size := checked_mul 64 m span in
      let! frontier := frontier_at combined completion_size in
      let! node := subtree_root frontier level in
      let! rest := completions combined span level (m + 1) count in
      Some ((m - 1, node) :: rest)
  end.
Definition completed_subtrees (before : Frontier) (leaves : list H) (level : nat) : option (list (Z * H)) :=
  let size_before := tree_size before in
  let! size_after := checked_add 64 size_before (Z.of_nat (length leaves)) in
  let! span := checked_span level in
  let first := size_before / span + 1 in
  let last := size_after / span in
  if last <? first then Some []
  else
    let! batch := lift hash leaves size_before in
    let combined := combine hash (carry_segment hash before) batch in
    completions combined span level first (Z.to_nat (last - first + 1)).

(** ** The roots of a tree's subtrees, by number *)
Definition tree_roots (level : nat) (leaves : list H) (lo hi : Z) : list (Z * H) :=
  omap (fun k => let! node := tnode hash (leaf_at leaves 0) level k in Some (k, node)) (seqZ lo (hi - lo)).

Context `{!ImtLaws hash}.

Lemma bits_cons p l n : Z.odd (p / span l) = true -> bits p l (S n) = l :: bits p (S l) n.
Proof. intros Ho. unfold bits. cbn [seq]. rewrite filter_cons_True; [done|]. by rewrite testbit_span. Qed.

(** Below a run of set bits the tip folds into the node above it. *)
Lemma fold_ommers_spec f p d l n os acc :
  (d <= n)%nat -> (forall j, (l <= j < l + d)%nat -> Z.odd (p / span j) = true) ->
  peaks_of hash f p (bits p l n) os -> tnode hash f l (p / span l) = Some acc ->
  exists r, fold_ommers d l os acc = Some r /\ tnode hash f (l + d) (p / span (l + d)) = Some r.
Proof.
  revert l n os acc. induction d as [|d IH]; intros l n os acc Hd Hodd Hpk Hacc.
  { exists acc. by rewrite Nat.add_0_r. }
  destruct n as [|n]; [lia|]. pose proof (Hodd l ltac:(lia)) as Ho. rewrite bits_cons in Hpk by done.
  inversion Hpk as [|? o ? os' Hpo Hpos]; subst. cbn [fold_ommers].
  destruct (IH (S l) n os' (hash l o acc)) as (r & Hr & Hn); [lia|intros j Hj; apply Hodd; lia|done|..].
  - assert (p / span l = 2 * (p / span (S l)) + 1) as Hdiv.
    { rewrite span_S. replace (2 * span l) with (span l * 2) by lia.
      rewrite <- Zdiv.Zdiv_Zdiv by (pose proof (span_pos l); lia). apply Z.odd_spec in Ho as [q ->].
      f_equal. f_equal. apply (Z.div_unique_pos _ _ _ 1); lia. }
    apply tnode_S. exists o, acc. unfold peak in Hpo. rewrite Hdiv in Hpo, Hacc.
    split_and!; [|done|done]. by replace (2 * (p / span (S l)) + 1 - 1) with (2 * (p / span (S l))) in Hpo by lia.
  - exists r. split; [done|]. by replace (l + S d)%nat with (S l + d)%nat by lia.
Qed.

(** The last position of a completed subtree. *)
Lemma last_position level k l :
  (l <= level)%nat -> ((k + 1) * span level - 1) / span l = (k + 1) * span (level - l) - 1.
Proof.
  intros Hl. replace (span level) with (span (level - l) * span l) by (rewrite <- span_add; f_equal; lia).
  pose proof (span_pos l). symmetry. apply (Z.div_unique_pos _ _ _ (span l - 1)); lia.
Qed.
Lemma last_position_odd level k l : (l < level)%nat -> Z.odd (((k + 1) * span level - 1) / span l) = true.
Proof.
  intros Hl. rewrite last_position by lia. replace (level - l)%nat with (S (level - l - 1)) by lia.
  rewrite span_S, Z.odd_sub. replace ((k + 1) * (2 * span (level - l - 1))) with (2 * ((k + 1) * span (level - l - 1))) by lia.
  by rewrite Z.odd_mul.
Qed.

Lemma subtree_root_spec n ls level k :
  frontier_of hash n ls -> (level <= 64)%nat -> Z.of_nat (length ls) = (k + 1) * span level ->
  exists r, subtree_root n level = Some r /\ tnode hash (leaf_at ls 0) level k = Some r.
Proof.
  intros (Hne & Hpos & Hleaf & Hom) Hlevel Hlen. rewrite Hlen in *. rewrite set_bits_bits in Hom.
  destruct (fold_ommers_spec (leaf_at ls 0) ((k + 1) * span level - 1) level 0 64 (ommers n) (leaf n)) as (r & Hr & Hn);
    [done|intros j Hj; apply last_position_odd; lia|done|by rewrite span_0, Z.div_1_r|].
  exists r. split; [done|]. rewrite Nat.add_0_l, last_position, Nat.sub_diag, span_0 in Hn by lia.
  by replace ((k + 1) * 1 - 1) with k in Hn by lia.
Qed.

Lemma tree_roots_cons level ls lo hi node :
  lo < hi -> tnode hash (leaf_at ls 0) level lo = Some node ->
  tree_roots level ls lo hi = (lo, node) :: tree_roots level ls (lo + 1) hi.
Proof.
  intros Hlt Hn. unfold tree_roots. rewrite seqZ_cons by lia. cbn. rewrite Hn. f_equal. f_equal. f_equal; lia.
Qed.
Lemma tree_roots_nil level ls lo hi : hi <= lo -> tree_roots level ls lo hi = [].
Proof. intros Hle. unfold tree_roots. by rewrite seqZ_nil by lia. Qed.

Lemma completions_spec fr ls xs batch level m count :
  let c := Z.of_nat (length ls) in
  represents hash fr ls -> c + Z.of_nat (length xs) <= 2 ^ 32 -> lift hash xs c = Some batch -> (level < 64)%nat ->
  0 < m -> c < m * span level -> (m - 1 + Z.of_nat count) * span level <= c + Z.of_nat (length xs) ->
  completions (combine hash (carry_segment hash fr) batch) (span level) level m count =
    Some (tree_roots level (ls ++ xs) (m - 1) (m - 1 + Z.of_nat count)).
Proof.
  cbn zeta. intros Hr Hlim Hb Hlevel. revert m. induction count as [|count IH]; intros m Hm Hlo Hhi.
  { cbn. by rewrite tree_roots_nil by lia. }
  pose proof (span_pos level) as Hsp. assert (Hsz : m * span level <= Z.of_nat (length ls) + Z.of_nat (length xs)) by nia.
  cbn [completions]. unfold checked_mul. rewrite (proj2 (Z.ltb_lt (m * span level) (2 ^ 64))) by lia. cbn beta iota.
  destruct (full_readable hash fr ls xs (m * span level) Hr Hlim) as (batch' & Hb' & Hs & Hleaf & Hom); [lia|lia|].
  rewrite Hb in Hb'. injection Hb' as <-.
  destruct (frontier_at_spec hash (combine hash (carry_segment hash fr) batch) (ls ++ xs) (m * span level))
    as (n & -> & Hn); [rewrite length_app; lia|rewrite length_app; lia|done..|]. cbn beta iota.
  destruct (subtree_root_spec n (take (Z.to_nat (m * span level)) (ls ++ xs)) level (m - 1)) as (r & -> & Hnode);
    [done|lia|rewrite length_take, length_app; lia|]. cbn beta iota.
  rewrite IH by lia || nia. cbn beta iota. rewrite (tree_roots_cons level (ls ++ xs) (m - 1) _ r); [do 3 f_equal; lia|lia|].
  eapply tnode_mono; [|exact Hnode]. intros i x. rewrite <- (take_drop (Z.to_nat (m * span level)) (ls ++ xs)) at 2.
  apply leaf_at_app_l.
Qed.

Lemma completed_subtrees_spec fr ls xs level :
  represents hash fr ls -> Z.of_nat (length ls) + Z.of_nat (length xs) <= 2 ^ 32 -> (level < 64)%nat ->
  completed_subtrees fr xs level =
    Some (tree_roots level (ls ++ xs) (Z.of_nat (length ls) / span level) (Z.of_nat (length (ls ++ xs)) / span level)).
Proof.
  intros Hr Hlim Hlevel. unfold completed_subtrees, checked_add, checked_span.
  rewrite (represents_size hash fr ls Hr), length_app, Nat2Z.inj_add.
  rewrite (proj2 (Z.ltb_lt (Z.of_nat (length ls) + _) (2 ^ 64))) by lia. rewrite (proj2 (Nat.ltb_lt level 64)) by done.
  cbn beta iota. set (c := Z.of_nat (length ls)). set (e := c + Z.of_nat (length xs)).
  pose proof (span_pos level) as Hsp. destruct (Z.ltb_spec (e / span level) (c / span level + 1)) as [Hlt|Hge].
  { by rewrite tree_roots_nil by lia. }
  destruct (lift_spec hash xs c) as (mb & Hb & _). rewrite Hb. cbn beta iota.
  pose proof (Z.mul_div_le e (span level) Hsp). pose proof (Z.mul_succ_div_gt c (span level) Hsp).
  assert (0 <= c / span level) by (apply Z.div_pos; lia).
  rewrite (completions_spec fr ls xs _ level) by (done || unfold c, e in *; nia).
  do 2 f_equal; lia.
Qed.
End Completed.

(** ** On disk ([codec.rs]) *)
Record SubtreeRoot := mkSubtreeRoot {
  sr_root : list Z; completing_block_hash : list Z; completing_height : Z }.

Definition PersistentSubtreeRoot : PersistentRecord SubtreeRoot :=
  Indexes.derived [AArray 32; AArray 32; ABeU64]
    (fun r => [VBytes (sr_root r); VBytes (completing_block_hash r); VInt (completing_height r)])
    (fun vs => match vs with
               | [VBytes root; VBytes completing_block_hash; VInt completing_height] =>
                   Ok (mkSubtreeRoot root completing_block_hash completing_height)
               | _ => Err Invalid
               end).
Definition PersistentSubtreeKey : PersistentRecord Z :=
  mkRecord Z Z (fun k => k) Ok (fun _ => true) (fun k => to_be_bytes 4 k)
    (fun bytes =>
       let? (raw, c) := get_be 4 (cursor bytes) in
       let? _ := finish c in
       Ok raw).
Definition subtree_samples : list (Z * SubtreeRoot) :=
  [(0, mkSubtreeRoot (replicate 32 0) (replicate 32 0) 0);
   (0x01020304, mkSubtreeRoot (replicate 32 0xAB) (replicate 32 0xCD) 558822)].
(** Every pool's codec is the same. *)
Definition SubtreesIndex : EntryCodec :=
  mkCodec Z SubtreeRoot PersistentSubtreeKey PersistentSubtreeRoot WalkOrdered subtree_samples.

Definition subtree_wf (k : Z) (r : SubtreeRoot) : Prop :=
  uint 32 k /\ Indexes.hash32 (sr_root r) /\ Indexes.hash32 (completing_block_hash r) /\ uint 64 (completing_height r).
Lemma subtree_root_inverts k r :
  subtree_wf k r -> record_inverts PersistentSubtreeRoot r /\
    rec_fits PersistentSubtreeRoot (from_domain PersistentSubtreeRoot r) = true.
Proof.
  intros (_ & Hr & Hb & Hh). apply Indexes.derived_inverts; [|done|by destruct r].
  repeat constructor; cbn [atom_ok]; try apply Hr; try apply Hb; apply Hh.
Qed.
Lemma subtree_key_inverts k : uint 32 k -> record_inverts PersistentSubtreeKey k.
Proof.
  intros Hk. unfold record_inverts. cbn [PersistentSubtreeKey rec_decode rec_encode from_domain into_domain].
  pose proof (reads_be 4 k Hk [] []) as Hr. rewrite app_nil_r in Hr. cbn [app] in Hr. change (blen []) with 0 in Hr.
  unfold cursor. rewrite Hr by (rewrite blen_be; done). unfold finish. cbn [c_pos c_bytes]. by rewrite Z.eqb_refl.
Qed.
Global Instance subtrees_codec_laws : CodecLaws SubtreesIndex subtree_wf.
Proof.
  split; intros k r Hw.
  - apply subtree_key_inverts, Hw.
  - apply (subtree_root_inverts k r Hw).
  - unfold entry_fits. cbn [SubtreesIndex PersistentKey PersistentValue fst snd]. apply (subtree_root_inverts k r Hw).
Qed.

(** ** The index of one pool *)
Record SubtreeEntry := mkSubtreeEntry { se_index : Z; se_root : SubtreeRoot }.
Inductive SubtreesError :=
| Deps (e : Engine.DepsReadError)
| MissingTreeState (height : Z)
| NonCanonicalCommitment (pool : string)
| SubtreeIndexOverflow (index : Z).

Definition SUBTREE_LEVEL : nat := 16.

Section Index.
Context {HS HO : Type} (hash_s : nat -> HS -> HS -> HS) (hash_o : nat -> HO -> HO -> HO).
Context `{IS : !Imt HS} `{IO : !Imt HO}.
Context (sapling_leaf : list Z -> option HS) (pallas_leaf : list Z -> option HO).
(** [Node::to_bytes], [MerkleHashOrchard::to_bytes] *)
Context (sapling_bytes : HS -> list Z) (pallas_bytes : HO -> list Z).
Context (write_s : @NonEmptyFrontier HS IS -> list Z) (write_o : @NonEmptyFrontier HO IO -> list Z).
Context (read_s : list Z -> option (@NonEmptyFrontier HS IS * list Z)).
Context (read_o : list Z -> option (@NonEmptyFrontier HO IO * list Z)).
Context (samples : list (Z * @TreeStateValue HS HO IS IO)).
Notation TreeStateValue := (@TreeStateValue HS HO IS IO).
Notation TreeStateEntry := (@TreeStateEntry HS HO IS IO).
Notation TreeStateIndex := (TreeStateIndex write_s write_o read_s read_o samples).
Notation tree_append := (tree_append sapling_leaf pallas_leaf write_s write_o read_s read_o samples).

(** [Pool] ([pool.rs]): a trait, as the record of its items. *)
Record SubtreePool := mkPool {
  Leaf : Type;
  leaf_combine : nat -> Leaf -> Leaf -> Leaf;
  leaf_imt : Imt Leaf;
  pool_NAME : string;
  COMPACT : string;
  POOL : string;
  pool_LEVEL : nat;
  commitments : TreeStateCtx -> list (list Z);
  pool_leaf : list Z -> option Leaf;
  pool_frontier_of : TreeStateValue -> @Frontier Leaf leaf_imt;
  root_bytes : Leaf -> list Z }.
Definition SaplingPool : SubtreePool :=
  mkPool HS hash_s IS "subtrees_sapling" Indexes.sapling_ID "sapling" SUBTREE_LEVEL
    sapling_cmus sapling_leaf v_sapling sapling_bytes.
Definition OrchardPool : SubtreePool :=
  mkPool HO hash_o IO "subtrees_orchard" Indexes.orchard_ID "orchard" SUBTREE_LEVEL
    orchard_cmxs (orchard_leaf pallas_leaf) v_orchard pallas_bytes.
Definition IronwoodPool : SubtreePool :=
  mkPool HO hash_o IO "subtrees_ironwood" Indexes.ironwood_ID "ironwood" SUBTREE_LEVEL
    ironwood_cmxs (ironwood_leaf pallas_leaf) v_ironwood pallas_bytes.

Section Extraction.
Context (P : SubtreePool).
Local Existing Instance leaf_imt.

Definition subtrees_def : IndexDef :=
  mkIndexDef (pool_NAME P) Dag.CrossIndex Dag.Append ["tree_state"; COMPACT P] Dag.NoAccess.

Fixpoint convert_leaves (commitments : list (list Z)) : result (list (Leaf P)) SubtreesError :=
  match commitments with
  | [] => Ok []
  | commitment :: commitments =>
      let? l := ok_or (pool_leaf P commitment) (NonCanonicalCommitment (POOL P)) in
      let? ls := convert_leaves commitments in
      Ok (l :: ls)
  end.

Fixpoint entries_from (completed : list (Z * Leaf P)) (completing_height : Z) (completing_block_hash : list Z)
    : result (list SubtreeEntry) SubtreesError :=
  match completed with
  | [] => Ok []
  | (subtree, node) :: completed =>
      let? index := ok_or (try_narrow 32 subtree) (SubtreeIndexOverflow subtree) in
      let? rest := entries_from completed completing_height completing_block_hash in
      Ok (mkSubtreeEntry index (mkSubtreeRoot (root_bytes P node) completing_block_hash completing_height) :: rest)
  end.
(** [None] is an [expect]. *)
Definition subtree_entries (before : @Frontier _ (leaf_imt P)) (commitments : list (list Z))
    (completing_height : Z) (completing_block_hash : list Z) : option (result (list SubtreeEntry) SubtreesError) :=
  let level := pool_LEVEL P in
  let! span := checked_span level in
  let size_before := tree_size before in
  let! size_after := checked_add 64 size_before (Z.of_nat (length commitments)) in
  if size_after / span <? size_before / span + 1 then Some (Ok [])
  else
    match convert_leaves commitments with
    | Err x => Some (Err x)
    | Ok leaves =>
        let! completed := completed_subtrees (leaf_combine P) before leaves level in
        Some (entries_from completed completing_height completing_block_hash)
    end.

(** [ExtractCross::extract] *)
Definition frontier_before (ctx : TreeStateCtx) (deps : Engine.DepsReader)
    : result (@Frontier _ (leaf_imt P)) SubtreesError :=
  if ctx_height ctx =? 0 then Ok frontier_empty
  else
    let predecessor := ctx_height ctx - 1 in
    let? prior := map_err Deps (Engine.deps_get TreeStateIndex deps "tree_state" predecessor) in
    let? prior := ok_or prior (MissingTreeState predecessor) in
    Ok (pool_frontier_of P prior).
Definition subtrees_extract (ctx : TreeStateCtx) (deps : Engine.DepsReader)
    : option (result (list SubtreeEntry) SubtreesError) :=
  match commitments P ctx with
  | [] => Some (Ok [])
  | _ =>
      match frontier_before ctx deps with
      | Err x => Some (Err x)
      | Ok before => subtree_entries before (commitments P ctx) (ctx_height ctx) (ctx_hash ctx)
      end
  end.

Definition subtrees_schema : Schema SubtreesIndex (list (list SubtreeEntry)) :=
  mkSchema SubtreesIndex (list (list SubtreeEntry))
    (fun merged => (fun entry => (se_index entry, se_root entry)) <$> mjoin merged)
    (fmap (fun kv => [mkSubtreeEntry kv.1 kv.2])).
Definition subtrees_pipeline {Ctx} (context : Ctx -> TreeStateCtx) : @Engine.IndexPipeline Ctx CrossBridge :=
  cross_pipeline context subtrees_def SubtreesIndex subtrees_extract subtrees_schema.
End Extraction.

(** ** What the index holds *)
Context `{!ImtLaws hash_s} `{!ImtLaws hash_o}.
Notation tree_step := (tree_step sapling_leaf pallas_leaf).

(** What the trait promises: the pool's frontier in a tree state is appended the
    pool's commitments, block by block, and its bytes are 32. *)
Class PoolSpec (P : SubtreePool) : Prop := {
  pool_laws : @ImtLaws (Leaf P) (leaf_combine P) (leaf_imt P);
  pool_steps l v v' : tree_step l v v' -> exists pool,
    @pool_step (Leaf P) (leaf_imt P) (pool_leaf P) pool (mjoin (commitments P <$> l))
      (pool_frontier_of P v) (pool_frontier_of P v');
  pool_initial : pool_frontier_of P tree_initial_carry = @frontier_empty _ (leaf_imt P);
  pool_level : (pool_LEVEL P < 64)%nat }.
Global Instance SaplingPool_spec : PoolSpec SaplingPool.
Proof. split; [done| |done|by apply Nat.ltb_lt]. intros l v v' (Hs & _ & _). by exists Sapling. Qed.
Global Instance OrchardPool_spec : PoolSpec OrchardPool.
Proof. split; [done| |done|by apply Nat.ltb_lt]. intros l v v' (_ & Ho & _). by exists Orchard. Qed.
Global Instance IronwoodPool_spec : PoolSpec IronwoodPool.
Proof. split; [done| |done|by apply Nat.ltb_lt]. intros l v v' (_ & _ & Hi). by exists Ironwood. Qed.

Lemma leaves_of_mapM {H} (convert : list Z -> option H) pool cs xs :
  leaves_of convert pool cs = Ok xs <-> mapM convert cs = Some xs.
Proof.
  revert xs. induction cs as [|c cs IH]; intros xs; cbn; [split; by intros [= <-]|].
  destruct (convert c) as [x|]; cbn; [|done].
  destruct (leaves_of convert pool cs) as [ys|] eqn:Hl, (mapM convert cs) as [zs|] eqn:Hm; cbn; [|..|done].
  - pose proof (proj1 (IH ys) eq_refl) as [= ->]. split; by intros [= <-].
  - by pose proof (proj1 (IH ys) eq_refl).
  - by pose proof (proj2 (IH zs) eq_refl).
Qed.

Section Holds.
Context (P : SubtreePool) `{!PoolSpec P}.
Local Existing Instance leaf_imt.
Local Existing Instance pool_laws.
Notation combine_ := (leaf_combine P).
Notation level := (pool_LEVEL P).

(** The commitments of a chain, and how many its first blocks hold. *)
Definition pool_run (blocks : list TreeStateCtx) : list (list Z) := mjoin (commitments P <$> blocks).
Definition size_at (blocks : list TreeStateCtx) (i : nat) : Z := Z.of_nat (length (pool_run (take i blocks))).

(** Row [k]: the root of the tree's [k]-th subtree, with the block whose leaves
    carried the tree to its end. *)
Definition subtree_row (blocks : list TreeStateCtx) (xs : list (Leaf P)) (k : Z) (row : Z * SubtreeRoot) : Prop :=
  exists i ctx node, blocks !! i = Some ctx /\
    size_at blocks i < (k + 1) * span level <= size_at blocks (S i) /\
    tnode combine_ (leaf_at xs 0) level k = Some node /\
    row = (k, mkSubtreeRoot (root_bytes P node) (ctx_hash ctx) (ctx_height ctx)).

Lemma convert_leaves_mapM cs xs : mapM (pool_leaf P) cs = Some xs -> convert_leaves P cs = Ok xs.
Proof.
  revert xs. induction cs as [|c cs IH]; intros xs; cbn; [by intros [= <-]|].
  destruct (pool_leaf P c) as [x|]; cbn; [|done]. destruct (mapM _ cs) as [ys|] eqn:Hm; [|done].
  intros [= <-]. by rewrite (IH ys).
Qed.

Lemma entries_from_ok completed h bh :
  Forall (fun e => e.1 < 2 ^ 32) completed ->
  entries_from P completed h bh =
    Ok ((fun e => mkSubtreeEntry e.1 (mkSubtreeRoot (root_bytes P e.2) bh h)) <$> completed).
Proof.
  induction 1 as [|[k node] completed Hk _ IH]; [done|]. cbn in Hk |- *. unfold try_narrow.
  rewrite (proj2 (Z.ltb_lt k _)) by done. cbn. by rewrite IH.
Qed.

Lemma tree_roots_narrow ls lo hi :
  Z.of_nat (length ls) <= 2 ^ 32 -> Forall (fun e => e.1 < 2 ^ 32) (tree_roots combine_ level ls lo hi).
Proof.
  intros Hlim. apply Forall_forall. intros [k node] Hin. unfold tree_roots in Hin.
  apply list_elem_of_omap in Hin as (k' & Hk & Hn).
  destruct (tnode _ _ _ k') as [node'|] eqn:Ht; [|done]. injection Hn as -> ->. cbn [fst].
  assert (is_Some (tnode combine_ (leaf_at ls 0) level k)) as Hs by by rewrite Ht.
  apply tnode_complete in Hs as [_ Hs]. pose proof (span_pos level). nia.
Qed.

Lemma subtree_entries_spec fr ls cs xs h bh :
  represents combine_ fr ls -> Z.of_nat (length ls) + Z.of_nat (length xs) <= 2 ^ 32 ->
  mapM (pool_leaf P) cs = Some xs ->
  subtree_entries P fr cs h bh = Some (Ok
    ((fun e => mkSubtreeEntry e.1 (mkSubtreeRoot (root_bytes P e.2) bh h)) <$>
     tree_roots combine_ level (ls ++ xs) (Z.of_nat (length ls) / span level) (Z.of_nat (length (ls ++ xs)) / span level))).
Proof.
  intros Hr Hlim Hx. pose proof (length_mapM _ _ _ Hx) as Hlen. pose proof pool_level as Hlevel.
  unfold subtree_entries, checked_span, checked_add. rewrite (proj2 (Nat.ltb_lt level 64)) by done. cbn beta iota.
  rewrite (represents_size combine_ fr ls Hr), Hlen, length_app, Nat2Z.inj_add.
  rewrite (proj2 (Z.ltb_lt (Z.of_nat (length ls) + _) (2 ^ 64))) by lia. cbn beta iota.
  destruct (Z.ltb_spec ((Z.of_nat (length ls) + Z.of_nat (length xs)) / span level)
                       (Z.of_nat (length ls) / span level + 1)) as [Hlt|Hge].
  { by rewrite tree_roots_nil by lia. }
  rewrite (convert_leaves_mapM cs xs Hx), (completed_subtrees_spec combine_ fr ls xs level Hr Hlim Hlevel). cbn beta iota.
  rewrite entries_from_ok, length_app, Nat2Z.inj_add; [done|]. apply tree_roots_narrow. rewrite length_app. lia.
Qed.

Lemma pool_run_app l1 l2 : pool_run (l1 ++ l2) = pool_run l1 ++ pool_run l2.
Proof. apply run_app. Qed.
Lemma size_at_S blocks i ctx :
  blocks !! i = Some ctx -> size_at blocks (S i) = size_at blocks i + Z.of_nat (length (commitments P ctx)).
Proof.
  intros Hi. unfold size_at. rewrite (take_S_r _ _ _ Hi), pool_run_app, length_app. unfold pool_run at 2.
  rewrite run_one. lia.
Qed.
Lemma size_at_all blocks xs : mapM (pool_leaf P) (pool_run blocks) = Some xs -> size_at blocks (length blocks) = Z.of_nat (length xs).
Proof. intros Hx. unfold size_at. by rewrite firstn_all, (length_mapM _ _ _ Hx). Qed.

(** The tree state after the first blocks of a chain. *)
Lemma series_take {v blocks ds v'} i :
  series TreeStateIndex tree_append v blocks = Ok (ds, v') ->
  series TreeStateIndex tree_append v (take i blocks) = Ok (take i ds, default v (last (e_value <$> take i ds))).
Proof.
  intros Hs. rewrite <- (take_drop i blocks), (series_app TreeStateIndex tree_append) in Hs.
  destruct (series _ _ v (take i blocks)) as [[d1 v1]|] eqn:H1; [|done].
  destruct (series _ _ v1 (drop i blocks)) as [[d2 v2]|] eqn:H2; [|done]. injection Hs as <- <-.
  destruct (series_last TreeStateIndex tree_append _ _ _ _ H1) as [Hl1 ->].
  destruct (series_last TreeStateIndex tree_append _ _ _ _ H2) as [Hl2 _].
  rewrite length_take in Hl1. rewrite length_drop in Hl2.
  assert (take i (d1 ++ d2) = d1) as ->; [|done]. destruct (decide (i <= length blocks)%nat).
  - rewrite take_app_le, firstn_all2 by lia. done.
  - assert (d2 = []) as -> by (apply length_zero_iff_nil; lia). rewrite app_nil_r, firstn_all2 by lia. done.
Qed.

Lemma chain_leaves blocks ds v' :
  series TreeStateIndex tree_append tree_initial_carry blocks = Ok (ds, v') ->
  exists xs, mapM (pool_leaf P) (pool_run blocks) = Some xs /\ Z.of_nat (length xs) <= 2 ^ 32 /\
    represents combine_ (pool_frontier_of P v') xs.
Proof.
  intros Hs. apply series_step, pool_steps in Hs as (pool & xs & Hx & Ha). exists xs.
  split; [by apply (leaves_of_mapM (pool_leaf P) pool)|]. rewrite pool_initial in Ha.
  destruct (append_pool_ok combine_ pool frontier_empty [] xs (pool_frontier_of P v')) as (_ & Hr & Hl); [|done|done|].
  - unfold represents. by rewrite (imt_empty combine_).
  - cbn [length app] in *. split; [lia|done].
Qed.

Lemma mapM_prefix cs1 cs2 xs :
  mapM (pool_leaf P) (cs1 ++ cs2) = Some xs ->
  mapM (pool_leaf P) cs1 = Some (take (length cs1) xs) /\ mapM (pool_leaf P) cs2 = Some (drop (length cs1) xs).
Proof.
  rewrite !mapM_Some. intros (ys & zs & Hy & Hz & ->)%Forall2_app_inv_l. pose proof (Forall2_length _ _ _ Hy) as Hl.
  by rewrite Hl, take_app_length, drop_app_length.
Qed.

Lemma chain_frontier blocks ds v' xs i :
  series TreeStateIndex tree_append tree_initial_carry blocks = Ok (ds, v') ->
  mapM (pool_leaf P) (pool_run blocks) = Some xs ->
  represents combine_ (pool_frontier_of P (default tree_initial_carry (last (e_value <$> take i ds))))
    (take (Z.to_nat (size_at blocks i)) xs).
Proof.
  intros Hs Hx. destruct (chain_leaves _ _ _ (series_take i Hs)) as (ys & Hy & _ & Hr).
  rewrite <- (take_drop i blocks), pool_run_app in Hx. apply mapM_prefix in Hx as [Hx _].
  rewrite Hy in Hx. injection Hx as ->. unfold size_at. by rewrite Nat2Z.id.
Qed.

(** The reader answers what [tree_state] persisted below a height. *)
Definition deps_hold (deps : Engine.DepsReader) (ds : list TreeStateEntry) (below : nat) : Prop :=
  forall i d, ds !! i = Some d -> (i < below)%nat ->
    Engine.deps_get TreeStateIndex deps "tree_state" (Z.of_nat i) = Ok (Some (e_value d)).

Lemma frontier_before_spec blocks ds v' xs deps i ctx :
  series TreeStateIndex tree_append tree_initial_carry blocks = Ok (ds, v') ->
  mapM (pool_leaf P) (pool_run blocks) = Some xs -> deps_hold deps ds i ->
  blocks !! i = Some ctx -> ctx_height ctx = Z.of_nat i ->
  exists fr, frontier_before P ctx deps = Ok fr /\ represents combine_ fr (take (Z.to_nat (size_at blocks i)) xs).
Proof.
  intros Hs Hx Hd Hi Hh. pose proof (chain_frontier _ _ _ _ i Hs Hx) as Hr. unfold frontier_before. rewrite Hh.
  destruct (series_last TreeStateIndex tree_append _ _ _ _ Hs) as [Hlen _]. destruct i as [|i].
  - eexists. split; [done|]. by rewrite pool_initial in Hr.
  - pose proof (lookup_lt_Some _ _ _ Hi). destruct (lookup_lt_is_Some_2 ds i) as [d Hdi]; [lia|].
    rewrite (proj2 (Z.eqb_neq (Z.of_nat (S i)) 0)) by lia. cbn zeta.
    replace (Z.of_nat (S i) - 1) with (Z.of_nat i) by lia. rewrite (Hd i d Hdi) by lia. cbn.
    rewrite (take_S_r ds i d Hdi), fmap_app in Hr. cbn [fmap list_fmap] in Hr. rewrite last_snoc in Hr. by eexists.
Qed.

(** Every subtree in the range is complete. *)
Lemma omap_all {A B} (f : A -> option B) l :
  Forall (fun a => is_Some (f a)) l -> Forall2 (fun a b => f a = Some b) l (omap f l).
Proof. induction 1 as [|a l [b Hb] _ IH]; [constructor|]. cbn. rewrite Hb. by constructor. Qed.
Lemma tree_roots_rows ls lo hi :
  0 <= lo -> hi * span level <= Z.of_nat (length ls) ->
  Forall2 (fun k e => exists node, tnode combine_ (leaf_at ls 0) level k = Some node /\ e = (k, node))
    (seqZ lo (hi - lo)) (tree_roots combine_ level ls lo hi).
Proof.
  intros Hlo Hhi. pose proof (span_pos level). eapply Forall2_impl; [apply omap_all|].
  - apply Forall_forall. intros k Hk%elem_of_seqZ.
    destruct (proj2 (tnode_complete combine_ ls 0 level k)) as [node ->]; [nia|by eexists].
  - cbn. intros k e. destruct (tnode _ _ _ k) as [node|]; [|done]. intros [= <-]. by exists node.
Qed.

Lemma size_div_bounds c k : 0 <= c -> c / span level <= k -> c < (k + 1) * span level.
Proof.
  intros Hc Hk. pose proof (span_pos level) as Hs. pose proof (Z.mul_succ_div_gt c (span level) Hs). nia.
Qed.

(** The roots one block completes, and their rows. *)
Definition row_of (ctx : TreeStateCtx) (e : Z * Leaf P) : Z * SubtreeRoot :=
  (e.1, mkSubtreeRoot (root_bytes P e.2) (ctx_hash ctx) (ctx_height ctx)).
Lemma block_roots blocks xs i ctx fr :
  mapM (pool_leaf P) (pool_run blocks) = Some xs -> Z.of_nat (length xs) <= 2 ^ 32 -> blocks !! i = Some ctx ->
  represents combine_ fr (take (Z.to_nat (size_at blocks i)) xs) ->
  exists ys roots, mapM (pool_leaf P) (commitments P ctx) = Some ys /\
    completed_subtrees combine_ fr ys level = Some roots /\
    subtree_entries P fr (commitments P ctx) (ctx_height ctx) (ctx_hash ctx) =
      Some (Ok ((fun e => mkSubtreeEntry (row_of ctx e).1 (row_of ctx e).2) <$> roots)) /\
    Forall (fun e => e.1 < 2 ^ 32) roots /\
    Forall2 (subtree_row blocks xs)
      (seqZ (size_at blocks i / span level) (size_at blocks (S i) / span level - size_at blocks i / span level))
      (row_of ctx <$> roots).
Proof.
  intros Hx Hlim Hi Hr. pose proof (size_at_S blocks i ctx Hi) as Hsize.
  assert (exists ys zs, xs = take (Z.to_nat (size_at blocks i)) xs ++ ys ++ zs /\
    mapM (pool_leaf P) (commitments P ctx) = Some ys) as (ys & zs & Hxs & Hy).
  { assert (blocks = take i blocks ++ ctx :: drop (S i) blocks) as Hb by (symmetry; by apply take_drop_middle).
    pose proof Hx as Hx'. rewrite Hb, pool_run_app in Hx'. apply mapM_prefix in Hx' as [_ Hx'].
    change (ctx :: drop (S i) blocks) with ([ctx] ++ drop (S i) blocks) in Hx'. rewrite pool_run_app in Hx'.
    apply mapM_prefix in Hx' as [Hx' _]. unfold pool_run at 1 in Hx'. rewrite run_one in Hx'.
    eexists _, _. split; [|exact Hx']. unfold size_at. rewrite Nat2Z.id, take_drop. by rewrite take_drop. }
  set (ls := take (Z.to_nat (size_at blocks i)) xs) in *.
  pose proof (length_mapM _ _ _ Hy) as Hylen. assert (length xs = length (ls ++ ys ++ zs)) as Hxl by by rewrite <- Hxs.
  rewrite !length_app in Hxl. assert (0 <= size_at blocks i) as H0 by (unfold size_at; lia).
  assert (Z.of_nat (length ls) = size_at blocks i) as Hls.
  { unfold ls. rewrite length_take. pose proof (length_mapM _ _ _ Hx) as Hl.
    rewrite <- (take_drop i blocks), pool_run_app, length_app in Hl. unfold size_at in *. lia. }
  assert (Z.of_nat (length (ls ++ ys)) = size_at blocks (S i)) as Hlsy by (rewrite length_app; lia).
  eexists ys, _. split; [done|]. split.
  { apply (completed_subtrees_spec combine_ fr ls ys level); [done|lia|apply pool_level]. }
  split; [by rewrite (subtree_entries_spec fr ls _ ys) by (done || lia)|]. rewrite Hls, Hlsy.
  split; [apply tree_roots_narrow; lia|]. apply Forall2_fmap_r.
  pose proof (span_pos level) as Hsp. pose proof (Z.mul_div_le (size_at blocks (S i)) _ Hsp).
  eapply Forall2_impl_elem; [apply tree_roots_rows; [by apply Z.div_pos|lia]|].
  intros k e Hk%elem_of_seqZ (node & Hn & ->). exists i, ctx, node. split_and!; [done|..|done].
  - apply size_div_bounds; lia.
  - nia.
  - eapply tnode_mono; [|exact Hn]. intros j x. rewrite Hxs, (app_assoc ls ys zs). apply leaf_at_app_l.
Qed.

(** One block's rows. *)
Lemma block_rows blocks ds v' xs deps i ctx :
  series TreeStateIndex tree_append tree_initial_carry blocks = Ok (ds, v') ->
  mapM (pool_leaf P) (pool_run blocks) = Some xs -> Z.of_nat (length xs) <= 2 ^ 32 -> deps_hold deps ds i ->
  blocks !! i = Some ctx -> ctx_height ctx = Z.of_nat i ->
  exists es, subtrees_extract P ctx deps = Some (Ok es) /\
    Forall2 (subtree_row blocks xs)
      (seqZ (size_at blocks i / span level) (size_at blocks (S i) / span level - size_at blocks i / span level))
      ((fun e => (se_index e, se_root e)) <$> es).
Proof.
  intros Hs Hx Hlim Hd Hi Hh. pose proof (size_at_S blocks i ctx Hi) as Hsize. unfold subtrees_extract.
  destruct (commitments P ctx) as [|c cs] eqn:Hcs.
  { exists []. split; [done|]. rewrite Hsize, seqZ_nil by (cbn; rewrite Z.add_0_r; lia). constructor. }
  rewrite <- Hcs in *. clear c cs Hcs.
  destruct (frontier_before_spec blocks ds v' xs deps i ctx) as (fr & -> & Hr); [done..|].
  destruct (block_roots blocks xs i ctx fr Hx Hlim Hi Hr) as (ys & roots & _ & _ & -> & _ & Hrows).
  eexists. split; [done|]. rewrite <- list_fmap_compose. exact Hrows.
Qed.

Lemma deps_hold_below deps ds a b : (b <= a)%nat -> deps_hold deps ds a -> deps_hold deps ds b.
Proof. intros Hle Hd i d Hi Hlt. apply Hd; [done|lia]. Qed.

Lemma size_div_mono blocks i ctx :
  blocks !! i = Some ctx -> size_at blocks i / span level <= size_at blocks (S i) / span level.
Proof. intros Hi. apply Z.div_le_mono; [apply span_pos|]. rewrite (size_at_S _ _ _ Hi). lia. Qed.

Lemma range_rows blocks ds v' xs deps n k :
  series TreeStateIndex tree_append tree_initial_carry blocks = Ok (ds, v') ->
  mapM (pool_leaf P) (pool_run blocks) = Some xs -> Z.of_nat (length xs) <= 2 ^ 32 ->
  (forall i ctx, blocks !! i = Some ctx -> ctx_height ctx = Z.of_nat i) ->
  (n + k <= length blocks)%nat -> deps_hold deps ds (n + k - 1) ->
  exists ess, Forall2 (fun c es => subtrees_extract P c deps = Some (Ok es)) (take k (drop n blocks)) ess /\
    Forall2 (subtree_row blocks xs)
      (seqZ (size_at blocks n / span level) (size_at blocks (n + k) / span level - size_at blocks n / span level))
      (into_entries subtrees_schema ess) /\
    size_at blocks n / span level <= size_at blocks (n + k) / span level.
Proof.
  intros Hs Hx Hlim Hh. induction k as [|k IH]; intros Hk Hd.
  { exists []. rewrite Nat.add_0_r, seqZ_nil by lia. split_and!; [constructor|constructor|lia]. }
  destruct IH as (ess & He & Hrows & Hle); [lia|by eapply deps_hold_below; [|exact Hd]; lia|].
  destruct (lookup_lt_is_Some_2 blocks (n + k)) as [ctx Hctx]; [lia|].
  destruct (block_rows blocks ds v' xs deps (n + k) ctx) as (es & Hes & Hrow); try done; [|by apply Hh|].
  { eapply deps_hold_below; [|exact Hd]. lia. }
  pose proof (size_div_mono blocks (n + k) ctx Hctx) as Hmono. exists (ess ++ [es]). rewrite Nat.add_succ_r.
  split_and!; [|..|lia].
  - rewrite (take_S_r _ k ctx) by by rewrite lookup_drop. apply Forall2_app; [done|]. by repeat constructor.
  - cbn [into_entries subtrees_schema] in *. rewrite join_app, fmap_app. cbn [mjoin list_join]. rewrite app_nil_r.
    replace (size_at blocks (S (n + k)) / span level - size_at blocks n / span level) with
      ((size_at blocks (n + k) / span level - size_at blocks n / span level) +
       (size_at blocks (S (n + k)) / span level - size_at blocks (n + k) / span level)) by lia.
    rewrite seqZ_app by lia. apply Forall2_app; [done|].
    by replace (size_at blocks n / span level + (size_at blocks (n + k) / span level - size_at blocks n / span level))
      with (size_at blocks (n + k) / span level) by lia.
Qed.

(** The rows of a range of blocks are written, whatever the order they are
    extracted in. *)
Lemma batch_written blocks ds v' xs deps n k o work :
  series TreeStateIndex tree_append tree_initial_carry blocks = Ok (ds, v') ->
  mapM (pool_leaf P) (pool_run blocks) = Some xs -> Z.of_nat (length xs) <= 2 ^ 32 ->
  (forall i ctx, blocks !! i = Some ctx -> ctx_height ctx = Z.of_nat i) ->
  (n + k <= length blocks)%nat -> deps_hold deps ds (n + k - 1) -> work ≡ₚ tagged o (take k (drop n blocks)) ->
  let p := subtrees_pipeline P (fun c => c) in
  exists b rows, extract_all (fun o c => Engine.extract_one_cross p o c deps) work cross_new = Some (Ok b) /\
    Engine.merge_persist p b = Some (Ok (persisted SubtreesIndex (pool_NAME P) rows, cross_new)) /\
    Forall2 (subtree_row blocks xs)
      (seqZ (size_at blocks n / span level) (size_at blocks (n + k) / span level - size_at blocks n / span level)) rows.
Proof.
  intros Hs Hx Hlim Hh Hk Hd Hw. cbn zeta.
  destruct (range_rows blocks ds v' xs deps n k Hs Hx Hlim Hh Hk Hd) as (ess & He & Hrows & _).
  destruct (cross_chain_order (fun c : TreeStateCtx => c) (subtrees_def P) SubtreesIndex (subtrees_extract P) subtrees_schema
    deps o _ ess work Hw He) as (b & Hb & Hm); [by apply fits_all|].
  exists b, (into_entries subtrees_schema ess). split_and!; [exact Hb|exact Hm|exact Hrows].
Qed.
End Holds.

(** *** What [tree_state] persisted is what the reader answers *)
Definition overlaid (o : Engine.PendingOverlay) (st : store) (k : string * RawKey) : option RawValue :=
  match o !! k with Some slot => slot | None => st !! k end.
Lemma overlay_committed ops o st st' k :
  (forall k, overlaid o st k = st' !! k) -> overlaid (Engine.overlay_apply o ops) st k = store_ops st' ops !! k.
Proof.
  revert o st'. induction ops as [|op ops IH]; intros o st' Ho; [apply Ho|]. cbn. apply IH. intros k'.
  unfold overlaid in *. destruct op as [ns key v|ns key]; cbn; destruct (decide (k' = (ns, key))) as [->|Hne].
  - rewrite (lookup_insert_eq o). rewrite (lookup_insert_eq st'). reflexivity.
  - rewrite (lookup_insert_ne o), (lookup_insert_ne st') by congruence. apply Ho.
  - rewrite (lookup_insert_eq o), (lookup_delete_eq st'). reflexivity.
  - rewrite (lookup_insert_ne o), (lookup_delete_ne st') by congruence. apply Ho.
Qed.

Lemma deps_hold_table r st ops allowed ds j :
  reads_back write_s read_s -> reads_back write_o read_o ->
  reader_ok r st -> "tree_state"%string ∈ allowed -> (forall i d, ds !! i = Some d -> e_height d = Z.of_nat i) ->
  table TreeStateIndex (fun h v => uint 64 h /\ tree_valid hash_s hash_o v) "tree_state" (store_ops st ops)
    ((fun d => (e_height d, e_value d)) <$> take j ds) ->
  deps_hold (Engine.mkDepsReader r (Engine.overlay_apply ∅ ops) allowed) ds j.
Proof.
  intros Rs Ro Hr Hal Hh (Hwf & _ & Ht) i d Hi Hlt. unfold Engine.deps_get.
  cbn [Engine.dr_allowed Engine.dr_overlay Engine.dr_reader]. rewrite bool_decide_true by done. cbn [negb].
  assert (Hin : (Z.of_nat i, e_value d) ∈ (fun d => (e_height d, e_value d)) <$> take j ds).
  { rewrite <- (Hh i d Hi). apply (list_elem_of_fmap_2 (fun d => (e_height d, e_value d))), list_elem_of_lookup. exists i. by rewrite lookup_take_lt. }
  pose proof (proj2 (Ht _ _) (ex_intro _ _ (conj Hin (conj eq_refl eq_refl)))) as Hst. cbn [fst snd] in Hst.
  rewrite <- (overlay_committed ops ∅ st st) in Hst by reflexivity.
  rewrite (ro_get _ _ Hr). unfold overlaid in Hst.
  pose proof (tree_state_codec_laws hash_s hash_o write_s write_o read_s read_o samples Rs Ro) as L.
  pose proof (proj1 (Forall_forall _ _) Hwf _ Hin) as Hw.
  destruct (Engine.overlay_apply ∅ ops !! _) as [slot|]; cbn [map_err]; rewrite Hst; cbn beta iota;
    rewrite (codec_value _ _ Hw); reflexivity.
Qed.

Lemma series_heights v blocks ds v' i d :
  series TreeStateIndex tree_append v blocks = Ok (ds, v') -> ds !! i = Some d ->
  exists ctx, blocks !! i = Some ctx /\ e_height d = ctx_height ctx.
Proof.
  revert v ds i. induction blocks as [|ctx blocks IH]; intros v ds i; cbn [series]; [by intros [= <- <-]|].
  destruct (ca_extract TreeStateIndex tree_append ctx v) as [d0|] eqn:Hd; [|done].
  destruct (series _ _ _ blocks) as [[ds' v1]|] eqn:Hs; [|done]. intros [= <- <-]. destruct i as [|i]; cbn.
  - intros [= <-]. exists ctx. split; [done|]. by apply extract_step in Hd as [_ Hd].
  - by eapply IH.
Qed.

(** Every tree state of a chain is one the codec can hold. *)
Lemma tree_rows_wf v blocks ds v' j :
  series TreeStateIndex tree_append v blocks = Ok (ds, v') -> tree_valid hash_s hash_o v ->
  (forall i ctx, blocks !! i = Some ctx -> uint 64 (ctx_height ctx)) ->
  all_wf TreeStateIndex (fun h v => uint 64 h /\ tree_valid hash_s hash_o v)
    ((fun d => (e_height d, e_value d)) <$> take j ds).
Proof.
  intros Hs Hv Hh. apply Forall_fmap, Forall_take, Forall_forall. intros d [i Hi]%list_elem_of_lookup. cbn. split.
  - destruct (series_heights _ _ _ _ _ _ Hs Hi) as (ctx & Hc & ->). by eapply Hh.
  - pose proof (series_step _ _ _ _ _ _ _ _ _ _ _ (series_take (S i) Hs)) as Hst.
    rewrite (take_S_r ds i d Hi), fmap_app in Hst. cbn [fmap list_fmap] in Hst. rewrite last_snoc in Hst.
    by eapply tree_step_valid.
Qed.

(** C7: the subtree-roots indexes hold exactly the roots of the completed
    subtrees.  Take a chain from genesis whose note commitments [tree_state]
    accepted, and a store whose committed state, with the pending batches applied,
    holds [tree_state] below the last block of a batch.  Whatever order the
    batch's blocks are extracted in, a pool's pipeline writes one row for each
    subtree the batch completes, ascending, with none missing or repeated between
    the leaf counts at the batch's ends: row [k] is the Merkle root of the pool's
    [k]-th run of 2^level leaves, wherever the batches cut it, with the hash and
    the height of the block that completed it.  No [expect] fires, and each of the
    three pools is such a pool. *)
Theorem subtrees_exact P `{!PoolSpec P} blocks ds v' r st ops n k j o work :
  reads_back write_s read_s -> reads_back write_o read_o ->
  series TreeStateIndex tree_append tree_initial_carry blocks = Ok (ds, v') ->
  (forall i ctx, blocks !! i = Some ctx -> ctx_height ctx = Z.of_nat i) ->
  reader_ok r st ->
  table TreeStateIndex (fun h v => uint 64 h /\ tree_valid hash_s hash_o v) "tree_state" (store_ops st ops)
    ((fun d => (e_height d, e_value d)) <$> take j ds) ->
  (n + k <= length blocks)%nat -> (n + k - 1 <= j)%nat -> work ≡ₚ tagged o (take k (drop n blocks)) ->
  let p := subtrees_pipeline P (fun c => c) in
  let deps := Engine.mkDepsReader r (Engine.overlay_apply ∅ ops) (DEPENDENCIES (subtrees_def P)) in
  let completed i := size_at P blocks i / span (pool_LEVEL P) in
  exists xs b rows, mapM (pool_leaf P) (pool_run P blocks) = Some xs /\
    extract_all (fun o c => Engine.extract_one_cross p o c deps) work cross_new = Some (Ok b) /\
    Engine.merge_persist p b = Some (Ok (persisted SubtreesIndex (pool_NAME P) rows, cross_new)) /\
    Forall2 (subtree_row P blocks xs) (seqZ (completed n) (completed (n + k)%nat - completed n)) rows.
Proof.
  intros Rs Ro Hs Hh Hr Ht Hk Hj Hw. cbn zeta. destruct (chain_leaves P blocks ds v' Hs) as (xs & Hx & Hlim & _).
  destruct (batch_written P blocks ds v' xs (Engine.mkDepsReader r (Engine.overlay_apply ∅ ops)
    (DEPENDENCIES (subtrees_def P))) n k o work) as (b & rows & Hb); try done; [|by exists xs, b, rows].
  eapply deps_hold_below; [exact Hj|]. eapply deps_hold_table; try done; [by left|].
  intros i d Hi. destruct (series_heights _ _ _ _ _ _ Hs Hi) as (ctx & Hc & ->). by apply Hh.
Qed.
End Index.

(** ** A pool of subtrees of four leaves *)
Module Example.
Import TreeState.Example.
Local Existing Instance canonical_iter.
Local Existing Instance number_spines.
Local Existing Instance number_laws.

Definition to_number (c : list Z) : option Z := match c with [n] => Some n | _ => None end.
Notation Index := (TreeStateIndex write write read read []).
Notation append := (tree_append to_number to_number write write read read []).
Definition four_pool : SubtreePool :=
  mkPool Z sum number_spines "subtrees_sapling" "sapling" "sapling" 2 sapling_cmus to_number v_sapling (fun z => [z]).
Global Instance four_pool_spec : @PoolSpec Z Z number_spines number_spines to_number to_number four_pool.
Proof. split; [exact number_laws| |done|cbn; lia]. intros l v v' (Hs & _ & _). by exists Sapling. Qed.

(** Three blocks of three notes: subtrees end in the second and in the third. *)
Definition chain : list TreeStateCtx :=
  [mkCtx 0 [100] [[1]; [2]; [3]] [] []; mkCtx 1 [101] [[4]; [5]; [6]] [] []; mkCtx 2 [102] [[7]; [8]; [9]] [] []].
Definition chain_ds : list TreeStateEntry :=
  match series Index append tree_initial_carry chain with Ok (ds, _) => ds | Err _ => [] end.
Definition chain_end : TreeStateValue :=
  match series Index append tree_initial_carry chain with Ok (_, v) => v | Err _ => tree_initial_carry end.
Lemma chain_ok : match series Index append tree_initial_carry chain with Ok _ => true | Err _ => false end = true.
Proof. vm_compute. reflexivity. Qed.
Lemma chain_series : series Index append tree_initial_carry chain = Ok (chain_ds, chain_end).
Proof.
  unfold chain_ds, chain_end. pose proof chain_ok as Hok.
  destruct (series Index append tree_initial_carry chain) as [[]|]; [reflexivity|discriminate].
Qed.

Lemma chain_heights i ctx : chain !! i = Some ctx -> ctx_height ctx = Z.of_nat i.
Proof. do 3 (destruct i as [|i]; [by intros [= <-]|]). done. Qed.

Definition tree_rows : list (Z * TreeStateValue) := (fun d => (e_height d, e_value d)) <$> take 2 chain_ds.
Lemma empty_valid : tree_valid sum sum (@tree_initial_carry Z Z number_spines number_spines).
Proof. split_and!; exists []; (split; [reflexivity|discriminate]). Qed.
Lemma tree_table :
  table Index (fun h v => uint 64 h /\ tree_valid sum sum v) "tree_state"
    (store_ops ∅ (persisted Index "tree_state" tree_rows)) tree_rows.
Proof.
  pose proof (tree_state_codec_laws sum sum write write read read [] reads reads) as L.
  refine (proj1 (table_persisted Index (fun h v => uint 64 h /\ tree_valid sum sum v) "tree_state"
    ltac:(discriminate) ∅ [] tree_rows _ _ _)).
  - split_and!; [constructor|constructor|]. intros kb vb. split; [done|by intros (e & He%elem_of_nil & _)].
  - eapply tree_rows_wf; [exact number_laws..|exact chain_series|exact empty_valid|]. intros i ctx Hc. rewrite (chain_heights i ctx Hc).
    apply lookup_lt_Some in Hc. cbn in Hc. split; lia.
  - apply (bool_decide_unpack _). vm_compute. exact I.
Qed.

Lemma subtrees_exact_witness :
  exists rows, Forall2 (subtree_row four_pool chain [1; 2; 3; 4; 5; 6; 7; 8; 9]) [0; 1] rows.
Proof.
  destruct (subtrees_exact sum sum to_number to_number write write read read [] four_pool chain chain_ds chain_end
    (mem_reader ∅) ∅ (persisted Index "tree_state" tree_rows) 1 2 2 0
    [(1%nat, mkCtx 2 [102] [[7]; [8]; [9]] [] []); (0%nat, mkCtx 1 [101] [[4]; [5]; [6]] [] [])]
    reads reads chain_series chain_heights (mem_reader_ok ∅)) as (xs & b & rows & Hx & _ & _ & Hrows).
  - exact tree_table.
  - cbn. lia.
  - lia.
  - exact (Permutation_rev _).
  - exists rows. vm_compute in Hx. injection Hx as <-. exact Hrows.
Defined.
End Example.
End Subtrees.
