(* ===== verification/TreeServe.v ===== *)
(** * Serving commitment treestates and subtree roots
    ([packages/zaino-indexes/src/indexes/tree_state/serve.rs],
    [packages/zaino-store/src/tree_state.rs],
    [packages/zaino-chain-head-service/src/tree_state.rs],
    [packages/zaino-core/src/engine/treestate.rs],
    [packages/zaino-primitives/src/types/{pool_activations,treestate,subtree_root}.rs])

    At or below the watermark a treestate is the frontier the store holds; above
    it the head folds its blocks onto the store's frontier at the watermark, which
    crosses the seam as zcashd's serialised tree.  Subtree roots are the store's
    page followed by the window's completions.  The serialised tree, a frontier's
    root and a node's bytes belong to other crates and are parameters. *)

From S2P Require Import Prelude Primitives Types Persistence Codec ChainGraph Dag Engine Bridge TreeSegment TreeState Indexes IndexSet Store Head View Subtrees.
From stdpp Require Import base gmap list strings.
From Stdlib Require Import Lia.
Open Scope Z_scope.

(** ** [pool_activations.rs] *)
Inductive ShieldedPool := SaplingShielded | OrchardShielded | IronwoodShielded.
Record PoolActivations := mkActivations {
  act_sapling : option Height; act_orchard : option Height; act_ironwood : option Height }.

Module Activations.
Definition SAPLING_BRANCH_ID : Z := 0x76b809bb.
Definition NU5_BRANCH_ID : Z := 0xc2d6d0b4.
Definition NU6_3_BRANCH_ID : Z := 0x37a5165b.

Definition unknown : PoolActivations := mkActivations None None None.
Definition activate (a : PoolActivations) (entry : Z * Height) : PoolActivations :=
  let (branch_id, height) := entry in
  if branch_id =? SAPLING_BRANCH_ID then mkActivations (Some height) (act_orchard a) (act_ironwood a)
  else if branch_id =? NU5_BRANCH_ID then mkActivations (act_sapling a) (Some height) (act_ironwood a)
  else if branch_id =? NU6_3_BRANCH_ID then mkActivations (act_sapling a) (act_orchard a) (Some height)
  else a.
Definition from_branch_activations (entries : list (Z * Height)) : PoolActivations := fold_left activate entries unknown.
Definition activation (a : PoolActivations) (pool : ShieldedPool) : option Height :=
  match pool with
  | SaplingShielded => act_sapling a
  | OrchardShielded => act_orchard a
  | IronwoodShielded => act_ironwood a
  end.
Definition is_active (a : PoolActivations) (pool : ShieldedPool) (height : Height) : bool :=
  match activation a pool with Some activation => activation <=? height | None => false end.
End Activations.

(** ** The crates' serialised tree *)
Class LegacyTree (H : Type) `{!Imt H} := {
  CommitmentTree : Type;
  from_frontier : Frontier -> CommitmentTree;
  to_frontier : CommitmentTree -> Frontier;
  write_commitment_tree : CommitmentTree -> list Z;
  read_commitment_tree : list Z -> option CommitmentTree;
  (** [Frontier::root], [HashSer::write] *)
  frontier_root : Frontier -> H;
  node_write : H -> list Z }.

Module TreeServe.
Import Kv.
Import Layout.
Import Codec.
Import ChainGraph.
Import Indexes.
Import IndexSet.
Import Store.
Import TreeSegment.
Import TreeState.
Import Subtrees.

(** ** [treestate.rs], [subtree_root.rs] *)
Record PoolTreestate := mkPoolTreestate { final_root : option (list Z); final_state : list Z }.
Record Treestate := mkTreestate {
  t_block_hash : BlockHash; t_height : Height; t_time : Z;
  t_sapling : option PoolTreestate; t_orchard : option PoolTreestate; t_ironwood : option PoolTreestate }.
Record DomainSubtreeRoot := mkDomainSubtreeRoot {
  d_root : list Z; d_completing_block_hash : BlockHash; d_end_height : Height }.

(** A computation that can panic or fail. *)
Definition attempt {A B E} (m : option (result A E)) (k : A -> option (result B E)) : option (result B E) :=
  match m with
  | None => None
  | Some (Err x) => Some (Err x)
  | Some (Ok a) => k a
  end.
Local Notation "'let+' x ':=' m 'in' k" := (attempt m (fun x => k))
  (at level 10, x pattern, m at level 200, k at level 200).

(** ** One pool of [serve.rs] *)
Section Pool.
Context {H : Type} `{!Imt H} `{!LegacyTree H}.

(** [codec.rs] *)
Definition legacy_tree_bytes (frontier : Frontier) : list Z := write_commitment_tree (from_frontier frontier).
Definition legacy_tree_from_bytes (bytes : list Z) : result Frontier DecodeError :=
  let? tree := ok_or (read_commitment_tree bytes) Layout.Invalid in Ok (to_frontier tree).

(** [None] is the [expect] on the width. *)
Definition node_bytes (node : H) : option (list Z) :=
  let buf := node_write node in if (length buf =? 32)%nat then Some buf else None.
Definition pool_treestate (frontier : Frontier) (activation : option Height) (at_ : Height)
    : option (option PoolTreestate) :=
  if match activation with Some activation => at_ <? activation | None => true end then Some None
  else
    let! root := node_bytes (frontier_root frontier) in
    Some (Some (mkPoolTreestate (Some root) (legacy_tree_bytes frontier))).
Definition seed_pool (pool : option PoolTreestate) : result Frontier DecodeError :=
  match pool with
  | Some pool => legacy_tree_from_bytes (final_state pool)
  | None => Ok frontier_empty
  end.
End Pool.

Section Serve.
Context {HS HO : Type} (hash_s : nat -> HS -> HS -> HS) (hash_o : nat -> HO -> HO -> HO).
Context `{IS : !Imt HS} `{IO : !Imt HO} `{LS : !LegacyTree HS} `{LO : !LegacyTree HO}.
Context (sapling_leaf : list Z -> option HS) (pallas_leaf : list Z -> option HO).
Context (sapling_bytes : HS -> list Z) (pallas_bytes : HO -> list Z).
Context (write_s : @NonEmptyFrontier HS IS -> list Z) (write_o : @NonEmptyFrontier HO IO -> list Z).
Context (read_s : list Z -> option (@NonEmptyFrontier HS IS * list Z)).
Context (read_o : list Z -> option (@NonEmptyFrontier HO IO * list Z)).
Context (samples : list (Z * @TreeStateValue HS HO IS IO)).
Notation TreeStateValue := (@TreeStateValue HS HO IS IO).
Notation TreeStateIndex := (TreeStateIndex write_s write_o read_s read_o samples).
Notation extract := (TreeState.extract sapling_leaf pallas_leaf).
Notation SubtreePool := (@SubtreePool HS HO IS IO).
Notation SaplingPool := (@SaplingPool HS HO hash_s IS IO sapling_leaf sapling_bytes).
Notation OrchardPool := (@OrchardPool HS HO hash_o IS IO pallas_leaf pallas_bytes).
Notation IronwoodPool := (@IronwoodPool HS HO hash_o IS IO pallas_leaf pallas_bytes).

(** ** [serve.rs] *)
Definition pool_treestates (v : TreeStateValue) (activations : PoolActivations) (at_ : Height)
    : option (option PoolTreestate * option PoolTreestate * option PoolTreestate) :=
  let! sapling := pool_treestate (v_sapling v) (act_sapling activations) at_ in
  let! orchard := pool_treestate (v_orchard v) (act_orchard activations) at_ in
  let! ironwood := pool_treestate (v_ironwood v) (act_ironwood activations) at_ in
  Some (sapling, orchard, ironwood).
Definition seed_value (seed : option Treestate) : result TreeStateValue DecodeError :=
  let? sapling := seed_pool (let! s := seed in t_sapling s) in
  let? orchard := seed_pool (let! s := seed in t_orchard s) in
  let? ironwood := seed_pool (let! s := seed in t_ironwood s) in
  Ok (mkValue sapling orchard ironwood).
Fixpoint fold_window (carry : TreeStateValue) (blocks : list TreeStateCtx) : result TreeStateValue TreeStateError :=
  match blocks with
  | [] => Ok carry
  | ctx :: blocks => let? entry := extract ctx carry in fold_window (e_value entry) blocks
  end.

Record WindowSubtree := mkWindowSubtree {
  ws_index : Z; ws_root : list Z; ws_completing_height : Z; ws_completing_block_hash : BlockHash }.
Definition pool_marker (P : SubtreePool) : Pool :=
  if String.eqb (pool_NAME P) (pool_NAME SaplingPool) then Sapling
  else if String.eqb (pool_NAME P) (pool_NAME OrchardPool) then Orchard
  else Ironwood.
Fixpoint pool_leaves (P : SubtreePool) (commitments : list (list Z)) : result (list (Leaf P)) TreeStateError :=
  match commitments with
  | [] => Ok []
  | commitment :: commitments =>
      let? l := ok_or (pool_leaf P commitment) (TreeState.NonCanonicalCommitment (pool_marker P)) in
      let? ls := pool_leaves P commitments in
      Ok (l :: ls)
  end.
Fixpoint window_subtrees (P : SubtreePool) (completed : list (Z * Leaf P)) (ctx : TreeStateCtx)
    : option (list WindowSubtree) :=
  match completed with
  | [] => Some []
  | (index, node) :: completed =>
      let! index := try_narrow 32 index in
      let! rest := window_subtrees P completed ctx in
      Some (mkWindowSubtree index (root_bytes P node) (ctx_height ctx) (ctx_hash ctx) :: rest)
  end.
Fixpoint pool_window_roots (P : SubtreePool) (carry : TreeStateValue) (blocks : list TreeStateCtx)
    : option (result (list WindowSubtree) TreeStateError) :=
  match blocks with
  | [] => Some (Ok [])
  | ctx :: blocks =>
      let+ leaves := Some (pool_leaves P (commitments P ctx)) in
      let! completed := @completed_subtrees _ (leaf_combine P) (leaf_imt P) (pool_frontier_of P carry) leaves (pool_LEVEL P) in
      let! out := window_subtrees P completed ctx in
      let+ entry := Some (extract ctx carry) in
      let+ rest := pool_window_roots P (e_value entry) blocks in
      Some (Ok (out ++ rest))
  end.
Definition window_subtree_roots (seed : TreeStateValue) (blocks : list TreeStateCtx) (pool : ShieldedPool)
    : option (result (list WindowSubtree) TreeStateError) :=
  match pool with
  | SaplingShielded => pool_window_roots SaplingPool seed blocks
  | OrchardShielded => pool_window_roots OrchardPool seed blocks
  | IronwoodShielded => pool_window_roots IronwoodPool seed blocks
  end.

(** ** The finalised store *)
Section Store.
Context {BSt : Type} (B : Backend BSt) (b : BSt) (s : StoreSnapshot) (activations : PoolActivations).

Definition missing {A} (v : option A) : result A StoreError := ok_or v Fatal.
Definition store_treestate (at_ : Height) : option (result Treestate StoreError) :=
  let+ _ := Some (match watermark s with
                  | Some watermark => if at_ <=? watermark then Ok tt else Err (NotServiceable IndexSet.Treestate)
                  | None => Err (NotServiceable IndexSet.Treestate)
                  end) in
  let+ reader := Some (Store.open B b) in
  let+ _ := Some (gated reader [tree_state_ID; headers_ID] IndexSet.Treestate) in
  let+ value := Some (let? v := read_keyed TreeStateIndex reader tree_state_ID at_ in missing v) in
  let+ header := Some (let? v := read_keyed HeadersIndex reader headers_ID at_ in missing v) in
  let! (sapling, orchard, ironwood) := pool_treestates value activations at_ in
  Some (Ok (mkTreestate (hv_hash header) at_ (hv_time header) sapling orchard ironwood)).

(** [scan_subtrees]: what its callback captures. *)
Record SubtreeScan := mkSubtreeScan { scan_roots : list DomainSubtreeRoot; scan_error : option StoreError }.
Definition visit_subtree (cap : option Z) : RangeVisitor SubtreeScan := fun st _ value =>
  match decode_value SubtreesIndex value with
  | Ok entry =>
      match indexed_height (completing_height entry) with
      | None => (mkSubtreeScan (scan_roots st) (Some Fatal), Break)
      | Some height =>
          let roots := scan_roots st ++ [mkDomainSubtreeRoot (sr_root entry) (completing_block_hash entry) height] in
          (mkSubtreeScan roots (scan_error st),
           if match cap with Some cap => cap <=? Z.of_nat (length roots) | None => false end then Break else Continue)
      end
  | Err _ => (mkSubtreeScan (scan_roots st) (Some Fatal), Break)
  end.
Definition scan_subtrees (reader : BackendReader) (namespace : string) (start_index : Z) (limit : option Z)
    : result (list DomainSubtreeRoot) StoreError :=
  let start := encode_key SubtreesIndex start_index in
  let end_ := replicate 5 0xFF in
  let? scan := map_err (fun _ => Transient)
                 (r_scan_range reader namespace start end_ (visit_subtree limit) (mkSubtreeScan [] None)) in
  match scan_error scan with
  | Some error => Err error
  | None => Ok (scan_roots scan)
  end.
Definition store_subtree_roots (pool : ShieldedPool) (start_index : Z) (limit : option Z)
    : result (list DomainSubtreeRoot) StoreError :=
  let? reader := Store.open B b in
  let? _ := gated reader [pool_NAME SaplingPool; pool_NAME OrchardPool; pool_NAME IronwoodPool] SubtreeRoots in
  match pool with
  | SaplingShielded => scan_subtrees reader (pool_NAME SaplingPool) start_index limit
  | OrchardShielded => scan_subtrees reader (pool_NAME OrchardPool) start_index limit
  | IronwoodShielded => scan_subtrees reader (pool_NAME IronwoodPool) start_index limit
  end.
End Store.

(** ** The window *)
Section Window.
Context `{HashIter} (g : MapBackedSnapshot).

(** [None] is the [expect] on one past a height. *)
Definition seam_next (seed : option Treestate) : option Z :=
  match seed with Some seed => checked_add 32 (t_height seed) 1 | None => Some 0 end.

(** The loop over the best chain: the contexts from the seam to [at_], the height
    expected next, and the identity of the block at [at_]. *)
Fixpoint gather (blocks : list ChainHeadBlock) (seam at_ : Z) (ctxs : list TreeStateCtx) (expected : Z)
    (at_identity : option (BlockHash * Z))
    : option (result (list TreeStateCtx * Z * option (BlockHash * Z)) StoreError) :=
  match blocks with
  | [] => Some (Ok (ctxs, expected, at_identity))
  | block :: blocks =>
      let height := height block in
      if height <? seam then gather blocks seam at_ ctxs expected at_identity
      else if at_ <? height then Some (Ok (ctxs, expected, at_identity))
      else if negb (height =? expected) then Some (Err (NotServiceable IndexSet.Treestate))
      else
        let! ctx := tree_state_ctx (chb_block block) in
        let at_identity :=
          if height =? at_ then Some (br_hash (reference block), h_time (header (chb_block block))) else at_identity in
        let+ expected := Some (ok_or (checked_add 32 expected 1) Fatal) in
        gather blocks seam at_ (ctxs ++ [ctx]) expected at_identity
  end.
Definition window_treestate (seed : option Treestate) (activations : PoolActivations) (at_ : Height)
    : option (result (option Treestate) StoreError) :=
  if br_height (best_tip g) <? at_ then Some (Ok None)
  else
    let! seam := seam_next seed in
    let+ (ctxs, expected, at_identity) := gather (best_chain g) seam at_ [] seam None in
    let! one_past_at := checked_add 32 at_ 1 in
    if negb (expected =? one_past_at) then Some (Err (NotServiceable IndexSet.Treestate))
    else
      let+ (block_hash, time) := Some (ok_or at_identity Fatal) in
      let+ seed := Some (map_err (fun _ => Fatal) (seed_value seed)) in
      let+ folded := Some (map_err (fun _ => Fatal) (fold_window seed ctxs)) in
      let! (sapling, orchard, ironwood) := pool_treestates folded activations at_ in
      Some (Ok (Some (mkTreestate block_hash at_ time sapling orchard ironwood))).

Definition domain_subtree_root (completion : WindowSubtree) : result DomainSubtreeRoot StoreError :=
  let? end_height := ok_or (indexed_height (ws_completing_height completion)) Fatal in
  Ok (mkDomainSubtreeRoot (ws_root completion) (ws_completing_block_hash completion) end_height).
Definition saturating_add32 (a b : Z) : Z := Z.min (a + b) (2 ^ 32 - 1).
Definition head_window_subtree_roots (seed : option Treestate) (pool : ShieldedPool) (start_index : Z) (limit : option Z)
    : option (result (list DomainSubtreeRoot) StoreError) :=
  let! seam := seam_next seed in
  let! ctxs := mapM (fun block => tree_state_ctx (chb_block block))
                 (List.filter (fun block => seam <=? height block) (best_chain g)) in
  let+ seed := Some (map_err (fun _ => Fatal) (seed_value seed)) in
  let+ completions :=
    (let! r := window_subtree_roots seed ctxs pool in Some (map_err (fun _ => Fatal) r)) in
  let end_ := (fun limit => saturating_add32 start_index limit) <$> limit in
  Some (map_result domain_subtree_root
    (List.filter (fun completion =>
       (start_index <=? ws_index completion) &&
       match end_ with Some end_ => ws_index completion <? end_ | None => true end) completions)).
End Window.

(** ** [engine/treestate.rs]: what the composer asks of each tier *)
Record TreestateRead := mkTreestateRead {
  treestate : Height -> option (result Treestate StoreError);
  subtree_roots : ShieldedPool -> Z -> option Z -> option (result (list DomainSubtreeRoot) StoreError);
  pool_activations : PoolActivations }.
Record TreestateWindowRead := mkTreestateWindowRead {
  tw_treestate : option Treestate -> PoolActivations -> Height -> option (result (option Treestate) StoreError);
  tw_subtree_roots : option Treestate -> ShieldedPool -> Z -> option Z ->
    option (result (list DomainSubtreeRoot) StoreError) }.
Definition store_treestates {BSt} (B : Backend BSt) (b : BSt) (s : StoreSnapshot) (activations : PoolActivations) : TreestateRead :=
  mkTreestateRead (store_treestate B b s activations)
    (fun pool start_index limit => Some (store_subtree_roots B b pool start_index limit)) activations.
Definition head_treestates `{HashIter} (g : MapBackedSnapshot) : TreestateWindowRead :=
  mkTreestateWindowRead (window_treestate g) (head_window_subtree_roots g).

Section Local.
Context (v : View.ChainViewSnapshot) (store : TreestateRead) (window : TreestateWindowRead).

Definition seed : option (result (option Treestate) StoreError) :=
  match View.view_watermark v with
  | Some watermark => let+ t := treestate store watermark in Some (Ok (Some t))
  | None => Some (Ok None)
  end.
Definition local_treestate (at_ : Height) : option (result Treestate StoreError) :=
  if match View.view_watermark v with Some watermark => at_ <=? watermark | None => false end then treestate store at_
  else
    let+ seed := seed in
    let+ t := tw_treestate window seed (pool_activations store) at_ in
    Some (ok_or t (NotServiceable IndexSet.Treestate)).
Definition local_subtree_roots (pool : ShieldedPool) (start_index : Z) (limit : option Z)
    : option (result (list DomainSubtreeRoot) StoreError) :=
  let+ roots := subtree_roots store pool start_index limit in
  let+ seed := seed in
  let+ window := tw_subtree_roots window seed pool start_index limit in
  let roots := roots ++ window in
  Some (Ok (match limit with Some limit => take (Z.to_nat limit) roots | None => roots end)).
End Local.
End Serve.
End TreeServe.
