(* ===== verification/TreeServeCorrect.v ===== *)
(** * Treestates and subtree roots across the seam
    ([packages/zaino-store/src/tree_state.rs],
    [packages/zaino-chain-head-service/src/tree_state.rs],
    [packages/zaino-core/src/engine/treestate.rs])

    The store holds the frontiers of a chain up to its watermark and the window
    holds the chain's end.  The composed reads answer, at every height to the tip,
    what the whole chain's commitments yield. *)

From S2P Require Import Prelude Primitives Types Persistence Codec ChainGraph Dag Engine Bridge BridgeCorrect TreeSegment TreeState Indexes IndexSet Store StoreCorrect Head HeadCorrect View ViewCorrect Composed Subtrees TreeServe.
From stdpp Require Import base gmap list strings.
From Stdlib Require Import Lia.
Open Scope Z_scope.

Module TreeServeCorrect.
Import Kv.
Import Layout.
Import Codec.
Import BridgeCorrect.
Import ChainGraph.
Import Indexes.
Import IndexSet.
Import Store.
Import StoreCorrect.
Import HeadCorrect.
Import ViewCorrect.
Import Composed.
Import TreeSegment.
Import TreeState.
Import Subtrees.
Import TreeServe.

(** What is relied on of the serialised tree: it is read back, and keeps its
    frontier; a node is 32 bytes. *)
Class LegacyLaws (H : Type) `{!Imt H} `{!LegacyTree H} : Prop := {
  legacy_read_write t : read_commitment_tree (write_commitment_tree t) = Some t;
  legacy_frontier f : to_frontier (from_frontier f) = f;
  node_width n : length (node_write n) = 32%nat }.

(** A pool is not active at a height. *)
Definition inactive (activation : option Height) (h : Z) : Prop :=
  match activation with Some activation => h < activation | None => True end.

Section OnePool.
Context {H : Type} `{!Imt H} `{!LegacyTree H} `{!LegacyLaws H}.

Lemma pool_treestate_total (f : Frontier) activation h : exists t, pool_treestate f activation h = Some t.
Proof.
  unfold pool_treestate, node_bytes. rewrite node_width. destruct activation as [a|]; [|by eexists].
  destruct (h <? a); by eexists.
Qed.
(** What a tier reports of a pool seeds the other tier with its frontier. *)
Lemma seed_pool_treestate (f : Frontier) activation h t :
  pool_treestate f activation h = Some t -> (inactive activation h -> f = frontier_empty) -> seed_pool t = Ok f.
Proof.
  unfold pool_treestate, node_bytes. rewrite node_width. intros Ht Hf.
  assert (inactive activation h /\ t = None \/ t = Some (mkPoolTreestate (Some (node_write (frontier_root f))) (legacy_tree_bytes f)))
    as [[Hi ->]| ->].
  { unfold inactive. destruct activation as [a|]; [|injection Ht as <-; by left].
    destruct (Z.ltb_spec h a); injection Ht as <-; [by left|by right]. }
  - cbn. by rewrite Hf.
  - cbn. unfold legacy_tree_from_bytes, legacy_tree_bytes. rewrite legacy_read_write. cbn. by rewrite legacy_frontier.
Qed.
End OnePool.

Section Served.
Context {HS HO : Type} (hash_s : nat -> HS -> HS -> HS) (hash_o : nat -> HO -> HO -> HO).
Context `{IS : !Imt HS} `{IO : !Imt HO} `{LS : !LegacyTree HS} `{LO : !LegacyTree HO}.
Context `{!ImtLaws hash_s} `{!ImtLaws hash_o} `{!LegacyLaws HS} `{!LegacyLaws HO}.
Context (sapling_leaf : list Z -> option HS) (pallas_leaf : list Z -> option HO).
Context (sapling_bytes : HS -> list Z) (pallas_bytes : HO -> list Z).
Context (write_s : @NonEmptyFrontier HS IS -> list Z) (write_o : @NonEmptyFrontier HO IO -> list Z).
Context (read_s : list Z -> option (@NonEmptyFrontier HS IS * list Z)).
Context (read_o : list Z -> option (@NonEmptyFrontier HO IO * list Z)).
Context (samples : list (Z * @TreeStateValue HS HO IS IO)).
Context (Rs : reads_back write_s read_s) (Ro : reads_back write_o read_o).
Notation TreeStateValue := (@TreeStateValue HS HO IS IO).
Notation TreeStateEntry := (@TreeStateEntry HS HO IS IO).
Notation TreeStateIndex := (TreeStateIndex write_s write_o read_s read_o samples).
Notation tree_append := (tree_append sapling_leaf pallas_leaf write_s write_o read_s read_o samples).
Notation fold_window := (fold_window sapling_leaf pallas_leaf).
Notation SubtreePool := (@SubtreePool HS HO IS IO).
Notation SaplingPool := (@SaplingPool HS HO hash_s IS IO sapling_leaf sapling_bytes).
Notation OrchardPool := (@OrchardPool HS HO hash_o IS IO pallas_leaf pallas_bytes).
Notation IronwoodPool := (@IronwoodPool HS HO hash_o IS IO pallas_leaf pallas_bytes).

(** Folding is the index's own series. *)
Lemma fold_window_series v blocks ds v' : series TreeStateIndex tree_append v blocks = Ok (ds, v') -> fold_window v blocks = Ok v'.
Proof.
  revert v ds. induction blocks as [|ctx blocks IH]; intros v ds; cbn [series fold_window]; [by intros [= <- <-]|].
  cbn [Bridge.ca_extract tree_append]. destruct (TreeState.extract _ _ ctx v) as [d|]; [|done].
  destruct (series _ _ _ blocks) as [[ds' v1]|] eqn:Hs; [|done]. intros [= <- <-]. by eapply IH.
Qed.

(** The tree state before the block at a height. *)
Definition value_before (ds : list TreeStateEntry) (i : nat) : TreeStateValue :=
  default tree_initial_carry (last (e_value <$> take i ds)).
Lemma value_after ds i d : ds !! i = Some d -> value_before ds (S i) = e_value d.
Proof.
  intros Hd. unfold value_before. rewrite (take_S_r ds i d Hd), fmap_app. cbn [fmap list_fmap]. by rewrite last_snoc.
Qed.
Lemma fold_between blocks ds v' i j :
  series TreeStateIndex tree_append tree_initial_carry blocks = Ok (ds, v') -> (i <= j)%nat ->
  fold_window (value_before ds i) (take (j - i) (drop i blocks)) = Ok (value_before ds j).
Proof.
  intros Hs Hij. pose proof (series_take sapling_leaf pallas_leaf write_s write_o read_s read_o samples j Hs) as Hj.
  pose proof (series_take sapling_leaf pallas_leaf write_s write_o read_s read_o samples i Hs) as Hi.
  replace (take j blocks) with (take i blocks ++ take (j - i) (drop i blocks)) in Hj.
  2: { rewrite take_take_drop. f_equal. lia. }
  rewrite (series_app TreeStateIndex tree_append), Hi in Hj.
  destruct (series _ _ _ (take (j - i) (drop i blocks))) as [[d2 v2]|] eqn:H2; [|done]. injection Hj as _ ->.
  by eapply fold_window_series.
Qed.

(** ** A chain and its tree states *)
Context (chain : list Block) (cs : list CurrentZainoContext) (ds : list TreeStateEntry) (vend : TreeStateValue).
Context (acts : PoolActivations).
Notation blocks := (tree_state_context <$> cs).

Record trees_of : Prop := {
  to_contexts : chain_contexts chain cs;
  to_series : series TreeStateIndex tree_append tree_initial_carry blocks = Ok (ds, vend);
  (** no commitment of a pool before its activation *)
  to_sapling i ctx : blocks !! i = Some ctx -> inactive (act_sapling acts) (Z.of_nat i) -> sapling_cmus ctx = [];
  to_orchard i ctx : blocks !! i = Some ctx -> inactive (act_orchard acts) (Z.of_nat i) -> orchard_cmxs ctx = [];
  to_ironwood i ctx : blocks !! i = Some ctx -> inactive (act_ironwood acts) (Z.of_nat i) -> ironwood_cmxs ctx = [] }.

(** The treestate after the block at a height. *)
Definition treestate_at (h : nat) : option Treestate :=
  let! bl := chain !! h in
  let! d := ds !! h in
  let! (sapling, orchard, ironwood) := pool_treestates (e_value d) acts (Z.of_nat h) in
  Some (mkTreestate (h_hash (header bl)) (Z.of_nat h) (h_time (header bl)) sapling orchard ironwood).

Context (Ht : trees_of).

Lemma trees_length : length ds = length chain /\ length cs = length chain.
Proof.
  destruct (series_last TreeStateIndex tree_append _ _ _ _ (to_series Ht)) as [Hl _]. rewrite length_fmap in Hl.
  destruct (to_contexts Ht) as [Hf _]. pose proof (Forall2_length _ _ _ Hf). lia.
Qed.
Lemma trees_height i ctx : blocks !! i = Some ctx -> ctx_height ctx = Z.of_nat i.
Proof.
  rewrite list_lookup_fmap. destruct (cs !! i) as [c|] eqn:Hc; [|done]. intros [= <-]. cbn.
  destruct (block_of _ _ (to_contexts Ht) i c Hc) as (bl & Hbl & _).
  destruct (context_at _ _ (to_contexts Ht) i bl Hbl) as (c' & Hc' & _ & Hh). by simplify_eq.
Qed.
Lemma trees_context i bl : chain !! i = Some bl -> exists ctx, blocks !! i = Some ctx /\ tree_state_ctx bl = Some ctx.
Proof.
  intros Hbl. destruct (context_at _ _ (to_contexts Ht) i bl Hbl) as (c & Hc & Hbc & _).
  exists (tree_state_context c). rewrite list_lookup_fmap, Hc. unfold tree_state_ctx. by rewrite Hbc.
Qed.

(** A pool without commitments so far is empty. *)
Lemma pool_empty P `{!@PoolSpec HS HO IS IO sapling_leaf pallas_leaf P} i :
  (forall j ctx, blocks !! j = Some ctx -> (j < i)%nat -> commitments P ctx = []) ->
  pool_frontier_of P (value_before ds i) = @frontier_empty _ (leaf_imt P).
Proof.
  intros Hnone. pose proof (to_series Ht) as Hs.
  destruct (chain_leaves sapling_leaf pallas_leaf write_s write_o read_s read_o samples P _ _ _ Hs) as (xs & Hx & _).
  pose proof (chain_frontier sapling_leaf pallas_leaf write_s write_o read_s read_o samples P _ _ _ _ i Hs Hx) as Hr.
  pose proof (@pool_laws _ _ _ _ _ _ P _) as L.
  assert (size_at P blocks i = 0) as Hz.
  { unfold size_at. enough (pool_run P (take i blocks) = []) as -> by done. unfold pool_run.
    assert (Forall (fun ctx => commitments P ctx = []) (take i blocks)) as Hf.
    { apply Forall_forall. intros ctx [j Hj]%list_elem_of_lookup. apply lookup_take_Some in Hj as [Hj Hlt]. by eapply Hnone. }
    induction Hf as [|ctx l Hc _ IH]; [done|]. cbn. rewrite Hc. exact IH. }
  rewrite Hz in Hr. apply (imt_value_inj (leaf_combine P)). rewrite (imt_empty (leaf_combine P)).
  unfold represents in Hr. cbn in Hr. destruct (frontier_value _) as [n|] eqn:Hv; [by destruct Hr|done].
Qed.

Lemma pool_treestates_total (v : TreeStateValue) h : exists s o i, pool_treestates v acts h = Some (s, o, i).
Proof.
  unfold pool_treestates.
  destruct (pool_treestate_total (v_sapling v) (act_sapling acts) h) as [s ->].
  destruct (pool_treestate_total (v_orchard v) (act_orchard acts) h) as [o ->].
  destruct (pool_treestate_total (v_ironwood v) (act_ironwood acts) h) as [i ->]. by exists s, o, i.
Qed.
Lemma treestate_at_Some h : (h < length chain)%nat -> exists t, treestate_at h = Some t /\ t_height t = Z.of_nat h.
Proof.
  intros Hh. destruct trees_length as [Hl _]. unfold treestate_at.
  destruct (lookup_lt_is_Some_2 chain h Hh) as [bl ->]. destruct (lookup_lt_is_Some_2 ds h) as [d ->]; [lia|].
  destruct (pool_treestates_total (e_value d) (Z.of_nat h)) as (s & o & i & ->). by eexists.
Qed.

(** A treestate that crosses the seam is the tree state it was read from. *)
Lemma seed_treestate_at h t : treestate_at h = Some t -> seed_value (Some t) = Ok (value_before ds (S h)).
Proof.
  unfold treestate_at. destruct (chain !! h) as [bl|]; [|done]. destruct (ds !! h) as [d|] eqn:Hd; [|done].
  unfold pool_treestates. destruct (pool_treestate (v_sapling _) _ _) as [s|] eqn:Hs; [|done].
  destruct (pool_treestate (v_orchard _) _ _) as [o|] eqn:Ho; [|done].
  destruct (pool_treestate (v_ironwood _) _ _) as [i|] eqn:Hi; [|done]. intros [= <-].
  assert (forall act j, inactive act (Z.of_nat h) -> (j < S h)%nat -> inactive act (Z.of_nat j)) as Hin.
  { intros [a|] j; cbn; [lia|done]. }
  unfold seed_value. cbn [t_sapling t_orchard t_ironwood]. rewrite (value_after ds h d Hd).
  rewrite (seed_pool_treestate _ _ _ _ Hs), (seed_pool_treestate _ _ _ _ Ho), (seed_pool_treestate _ _ _ _ Hi); [by destruct (e_value d)|..].
  - intros Ha. rewrite <- (value_after ds h d Hd). apply (pool_empty IronwoodPool). intros j ctx Hj Hlt.
    apply (to_ironwood Ht j); [done|by eapply Hin].
  - intros Ha. rewrite <- (value_after ds h d Hd). apply (pool_empty OrchardPool). intros j ctx Hj Hlt.
    apply (to_orchard Ht j); [done|by eapply Hin].
  - intros Ha. rewrite <- (value_after ds h d Hd). apply (pool_empty SaplingPool). intros j ctx Hj Hlt.
    apply (to_sapling Ht j); [done|by eapply Hin].
Qed.

(** ** The finalised store *)
Section Store.
Context {BSt : Type} (B : Backend BSt) (abs : BSt -> store) `{!BackendSpec B abs} (b : BSt) (s : StoreSnapshot) (w : Z).
Notation tree_wf := (fun h v => uint 64 h /\ tree_valid hash_s hash_o v).

(** The store holds [tree_state] and [headers] of the chain up to its watermark. *)
Record tree_store_of : Prop := {
  tso_watermark : 0 <= w < Z.of_nat (length chain) /\ watermark s = Some w;
  tso_indexed : exists r, b_reader B b = Ok r /\
    r_is_complete r tree_state_ID = Ok true /\ r_is_complete r headers_ID = Ok true /\
    holds TreeStateIndex tree_wf tree_state_ID (abs b) ((fun d => (e_height d, e_value d)) <$> take (S (Z.to_nat w)) ds) /\
    holds HeadersIndex headers_wf headers_ID (abs b) (header_entries (take (S (Z.to_nat w)) cs)) }.

Lemma finalised_contexts : chain_contexts (finalised chain w) (take (S (Z.to_nat w)) cs).
Proof.
  destruct (to_contexts Ht) as [Hf Hh]. split; [by apply Forall2_take|].
  intros i bl Hi. unfold finalised in Hi. apply lookup_take_Some in Hi as [Hi _]. by apply Hh.
Qed.

Lemma store_treestate_at h t :
  tree_store_of -> treestate_at h = Some t -> Z.of_nat h <= w ->
  store_treestate write_s write_o read_s read_o samples B b s acts (Z.of_nat h) = Some (Ok t).
Proof.
  intros [[Hw Hwm] (r & Hb & Hc1 & Hc2 & Htr & Hhd)] Hat Hle. unfold store_treestate. rewrite Hwm.
  rewrite (proj2 (Z.leb_le _ _) Hle). unfold Store.open. rewrite Hb. cbn [attempt map_err].
  unfold gated. cbn [serviceability_gate]. rewrite Hc1, Hc2. cbn [negb map_err attempt].
  unfold treestate_at in Hat. destruct (chain !! h) as [bl|] eqn:Hbl; [|done]. destruct (ds !! h) as [d|] eqn:Hd; [|done].
  pose proof (spec_reader _ _ Hb) as Hr.
  pose proof (tree_state_codec_laws hash_s hash_o write_s write_o read_s read_o samples Rs Ro) as L.
  assert (e_height d = Z.of_nat h) as Hdh.
  { destruct (series_heights _ _ _ _ _ _ _ _ _ _ _ _ _ (to_series Ht) Hd) as (ctx & Hctx & ->). by apply trees_height. }
  rewrite (read_held TreeStateIndex tree_wf tree_state_ID r (abs b) Hr _ Htr (Z.of_nat h) (e_value d)).
  2: { rewrite <- Hdh. apply (list_elem_of_fmap_2 (fun d => (e_height d, e_value d))), list_elem_of_lookup. exists h.
       rewrite lookup_take_lt by lia. done. }
  cbn [missing ok_or attempt].
  destruct (header_held B abs b r chain w _ Hb Hw finalised_contexts h bl Hhd Hbl Hle) as (v & -> & Hv1 & Hv2).
  cbn [missing ok_or attempt]. rewrite Hv1, Hv2. destruct (pool_treestates (e_value d) acts (Z.of_nat h)) as [[[? ?] ?]|]; [|done].
  by injection Hat as <-.
Qed.
Lemma store_treestate_above h :
  tree_store_of -> w < h -> store_treestate write_s write_o read_s read_o samples B b s acts h = Some (Err (NotServiceable IndexSet.Treestate)).
Proof.
  intros [[Hw Hwm] _] Hlt. unfold store_treestate. rewrite Hwm. by rewrite (proj2 (Z.leb_gt _ _) Hlt).
Qed.
End Store.

(** ** The window *)
Section Window.
Context `{HashIter} (tree : BlockHash -> option TreeEntry) (Htree : tree_ok tree) (g : MapBackedSnapshot).
Context (Hwin : window_of tree chain g) (lo hi : Z) (Hcov : Head.head_coverage g = Some (mkHeightRange lo hi)).

(** The loop over the window from its [k]-th block, the blocks before it gathered. *)
Lemma gather_from (k : nat) (bs : list ChainHeadBlock) seam (h : nat) id :
  bs = drop k (best_chain g) -> (Z.to_nat lo + k <= S h)%nat -> (h < length chain)%nat ->
  lo <= seam <= lo + Z.of_nat k -> seam <= Z.of_nat h ->
  (id = None \/ (Z.to_nat lo + k = S h)%nat) ->
  forall bl, chain !! h = Some bl -> ((Z.to_nat lo + k = S h)%nat -> id = Some (h_hash (header bl), h_time (header bl))) ->
  gather bs seam (Z.of_nat h) (take (Z.to_nat lo + k - Z.to_nat seam) (drop (Z.to_nat seam) blocks)) (lo + Z.of_nat k) id =
  Some (Ok (take (S h - Z.to_nat seam) (drop (Z.to_nat seam) blocks), Z.of_nat h + 1, Some (h_hash (header bl), h_time (header bl)))).
Proof.
  destruct (window_range tree Htree chain g Hwin lo hi Hcov) as (Hlo & Hhi & _).
  revert k id. induction bs as [|blk bs IH]; intros k id Hbs Hk Hh Hseam Hs0 Hid bl Hbl Hfin.
  - assert (length (best_chain g) <= k)%nat as Hlen.
    { symmetry in Hbs. apply (f_equal length) in Hbs. rewrite length_drop in Hbs. cbn in Hbs. lia. }
    pose proof (window_chain tree Htree chain g Hwin lo hi Hcov) as Hc. apply (f_equal length) in Hc.
    rewrite length_fmap, length_drop in Hc. assert (Z.to_nat lo + k = S h)%nat as E by lia.
    cbn [gather]. rewrite (Hfin E), E. do 4 f_equal. lia.
  - assert (best_chain g !! k = Some blk) as Hlk.
    { rewrite <- (Nat.add_0_r k), <- lookup_drop, <- Hbs. done. }
    destruct (window_lookup tree Htree chain g Hwin lo hi Hcov k blk Hlk) as [Hhb Hcb].
    cbn [gather]. cbn zeta. rewrite Hhb. rewrite (proj2 (Z.ltb_ge _ _)) by lia.
    destruct (Z.ltb_spec (Z.of_nat h) (lo + Z.of_nat k)) as [Hlt|Hge].
    { assert (Z.to_nat lo + k = S h)%nat as E by lia. rewrite (Hfin E), E. do 4 f_equal. lia. }
    rewrite Z.eqb_refl. cbn [negb].
    destruct (trees_context _ _ Hcb) as (ctx & Hctx & ->).
    pose proof (wo_small _ _ _ Hwin) as Hsm.
    unfold checked_add. rewrite (proj2 (Z.ltb_lt (lo + Z.of_nat k + 1) (2 ^ 32))) by lia. cbn [ok_or attempt].
    replace (lo + Z.of_nat k + 1) with (lo + Z.of_nat (S k)) by lia.
    replace (take (Z.to_nat lo + k - Z.to_nat seam) (drop (Z.to_nat seam) blocks) ++ [ctx])
      with (take (Z.to_nat lo + S k - Z.to_nat seam) (drop (Z.to_nat seam) blocks)).
    2: { replace (Z.to_nat lo + S k - Z.to_nat seam)%nat with (S (Z.to_nat lo + k - Z.to_nat seam)) by lia.
         apply take_S_r. rewrite lookup_drop. rewrite <- Hctx. f_equal. lia. }
    apply IH; [|lia|done|lia|done|..|done|].
    + rewrite <- Nat.add_1_r, <- drop_drop, <- Hbs. done.
    + destruct (Z.eqb_spec (lo + Z.of_nat k) (Z.of_nat h)); [right; lia|left]. destruct Hid as [->|]; [done|lia].
    + intros E. rewrite (proj2 (Z.eqb_eq _ _)) by lia. assert (Z.to_nat lo + k = h)%nat as E' by lia. rewrite E', Hbl in Hcb.
      injection Hcb as Hcb. destruct (wo_blocks _ _ _ Hwin blk (list_elem_of_lookup_2 _ _ _ Hlk)) as (_ & Hhash & _).
      rewrite <- Hcb in *. unfold hash in Hhash. by rewrite Hhash.
Qed.

Lemma gather_skip (n : nat) seam h c e id :
  lo + Z.of_nat n <= seam -> gather (best_chain g) seam h c e id = gather (drop n (best_chain g)) seam h c e id.
Proof.
  induction n as [|n IH]; intros Hn; [done|]. rewrite IH by lia.
  destruct (best_chain g !! n) as [blk|] eqn:Hlk.
  - rewrite (drop_S _ _ _ Hlk). cbn [gather]. cbn zeta.
    destruct (window_lookup tree Htree chain g Hwin lo hi Hcov n blk Hlk) as [-> _].
    by rewrite (proj2 (Z.ltb_lt _ _)) by lia.
  - apply lookup_ge_None in Hlk. by rewrite !drop_ge by lia.
Qed.

(** From the seam up to a height of the window, every block. *)
Lemma gather_window seam (h : nat) bl :
  lo <= seam <= Z.of_nat h -> chain !! h = Some bl ->
  gather (best_chain g) seam (Z.of_nat h) [] seam None =
  Some (Ok (take (S h - Z.to_nat seam) (drop (Z.to_nat seam) blocks), Z.of_nat h + 1, Some (h_hash (header bl), h_time (header bl)))).
Proof.
  intros Hs Hbl. pose proof (lookup_lt_Some _ _ _ Hbl). destruct (window_range tree Htree chain g Hwin lo hi Hcov) as (Hlo & _).
  rewrite (gather_skip (Z.to_nat (seam - lo))) by lia.
  pose proof (gather_from (Z.to_nat (seam - lo)) (drop (Z.to_nat (seam - lo)) (best_chain g)) seam h None eq_refl) as Hg.
  replace (Z.to_nat lo + Z.to_nat (seam - lo) - Z.to_nat seam)%nat with 0%nat in Hg by lia.
  replace (lo + Z.of_nat (Z.to_nat (seam - lo))) with seam in Hg by lia.
  apply (Hg ltac:(lia) ltac:(lia) ltac:(lia) ltac:(lia) ltac:(by left) bl Hbl). lia.
Qed.

(** A window that does not reach the seam gathers nothing a frontier could be. *)
Lemma gather_gap seam h :
  seam < lo -> seam <= h -> h <= hi ->
  gather (best_chain g) seam h [] seam None = Some (Ok ([], seam, None)) \/
  gather (best_chain g) seam h [] seam None = Some (Err (NotServiceable IndexSet.Treestate)).
Proof.
  intros Hg Hs Hh. destruct (window_range tree Htree chain g Hwin lo hi Hcov) as (Hlo & _).
  destruct (window_at tree Htree chain g Hwin lo hi Hcov lo ltac:(lia)) as (blk0 & _ & _ & Hin & _).
  destruct (best_chain g) as [|blk bs] eqn:Hbc; [by apply elem_of_nil in Hin|].
  destruct (window_lookup tree Htree chain g Hwin lo hi Hcov 0 blk) as [Hhb _]; [by rewrite Hbc|].
  cbn [gather]. cbn zeta. rewrite Hhb, Z.add_0_r. rewrite (proj2 (Z.ltb_ge _ _)) by lia.
  destruct (Z.ltb_spec h lo); [by left|right]. by rewrite (proj2 (Z.eqb_neq _ _)) by lia.
Qed.

Lemma window_tip : br_height (best_tip g) = hi.
Proof.
  destruct (window_range tree Htree chain g Hwin lo hi Hcov) as (_ & _ & Hhi). pose proof Hcov as Hc. unfold Head.head_coverage in Hc. by injection Hc.
Qed.

Context (w : nat) (seed : Treestate) (Hseed : treestate_at w = Some seed).
Notation seam := (Z.of_nat w + 1).
Lemma seed_height : t_height seed = Z.of_nat w /\ (w < length chain)%nat.
Proof.
  pose proof Hseed as Hs. unfold treestate_at in Hs. destruct (chain !! w) eqn:Hc; [|done]. destruct (ds !! w); [|done].
  destruct (pool_treestates _ _ _) as [[[] ]|]; [|done]. injection Hs as <-. split; [done|]. by eapply lookup_lt_Some.
Qed.
Lemma seam_of_seed : seam_next (Some seed) = Some seam.
Proof.
  destruct seed_height as [E Hlt]. pose proof (wo_small _ _ _ Hwin). unfold seam_next, checked_add. rewrite E.
  by rewrite (proj2 (Z.ltb_lt _ _)) by lia.
Qed.

Lemma window_treestate_above h :
  hi < h -> window_treestate sapling_leaf pallas_leaf g (Some seed) acts h = Some (Ok None).
Proof. intros Hlt. unfold window_treestate. rewrite window_tip. by rewrite (proj2 (Z.ltb_lt _ _)). Qed.
Lemma window_treestate_gap h :
  seam < lo -> seam <= h <= hi ->
  window_treestate sapling_leaf pallas_leaf g (Some seed) acts h = Some (Err (NotServiceable IndexSet.Treestate)).
Proof.
  intros Hg Hh. destruct (window_range tree Htree chain g Hwin lo hi Hcov) as (_ & Hhi & _). pose proof (wo_small _ _ _ Hwin).
  unfold window_treestate. rewrite window_tip, (proj2 (Z.ltb_ge _ _)), seam_of_seed by lia.
  destruct (gather_gap seam h Hg) as [-> | ->]; [lia|lia| |done]. cbn [attempt].
  unfold checked_add. rewrite (proj2 (Z.ltb_lt (h + 1) _)) by lia. by rewrite (proj2 (Z.eqb_neq _ _)) by lia.
Qed.
Lemma window_treestate_at (h : nat) t :
  lo <= seam <= Z.of_nat h -> treestate_at h = Some t ->
  window_treestate sapling_leaf pallas_leaf g (Some seed) acts (Z.of_nat h) = Some (Ok (Some t)).
Proof.
  intros Hs Hat. pose proof Hat as Hat'. unfold treestate_at in Hat'. destruct (chain !! h) as [bl|] eqn:Hbl; [|done].
  destruct (ds !! h) as [d|] eqn:Hd; [|done]. pose proof (lookup_lt_Some _ _ _ Hbl) as Hlt.
  destruct (window_range tree Htree chain g Hwin lo hi Hcov) as (_ & Hhi & _). pose proof (wo_small _ _ _ Hwin).
  unfold window_treestate. rewrite window_tip, (proj2 (Z.ltb_ge _ _)), seam_of_seed by lia.
  rewrite (gather_window seam h bl Hs Hbl). cbn [attempt]. unfold checked_add.
  rewrite (proj2 (Z.ltb_lt (Z.of_nat h + 1) _)) by lia. rewrite Z.eqb_refl. cbn [negb ok_or attempt].
  rewrite (seed_treestate_at w seed Hseed). cbn [map_err attempt].
  replace (Z.to_nat seam) with (S w) by lia. rewrite (fold_between _ _ _ (S w) (S h) (to_series Ht)) by lia. cbn [map_err attempt].
  rewrite (value_after ds h d Hd). destruct (pool_treestates _ _ _) as [[[? ?] ?]|]; [|done]. by injection Hat' as <-.
Qed.
End Window.

(** ** Across the seam *)
Section Local.
Context `{HashIter} {BSt : Type} (B : Backend BSt) (abs : BSt -> store) `{!BackendSpec B abs} (b : BSt) (s : StoreSnapshot).
Context (tree : BlockHash -> option TreeEntry) (g : MapBackedSnapshot) (w lo hi : Z).
Notation v := (View.view_new (View.store_tier B s b) (Head.head_tier g)).
Notation store := (store_treestates hash_s hash_o sapling_leaf pallas_leaf sapling_bytes pallas_bytes
  write_s write_o read_s read_o samples B b s acts).
Notation window := (head_treestates hash_s hash_o sapling_leaf pallas_leaf sapling_bytes pallas_bytes g).

Lemma view_watermark_of : tree_store_of B abs b s w -> View.view_watermark v = Some w.
Proof. intros [[_ Hw] _]. cbn. unfold Store.coverage. by rewrite Hw. Qed.

Lemma local_seed :
  tree_store_of B abs b s w -> exists t, treestate_at (Z.to_nat w) = Some t /\ seed v store = Some (Ok (Some t)).
Proof.
  intros Hs. destruct (tso_watermark _ _ _ _ _ Hs) as [Hw _]. unfold seed. rewrite view_watermark_of by done.
  destruct (treestate_at_Some (Z.to_nat w)) as (t & Hat & _); [lia|]. exists t. split; [done|].
  cbn [treestate store_treestates]. rewrite <- (Z2Nat.id w) at 1 by lia.
  by rewrite (store_treestate_at B abs b s w (Z.to_nat w) t Hs Hat) by lia.
Qed.

(** C6: a treestate is the chain's at every height, on both sides of the seam.
    Where the store holds the chain's tree states and headers up to its watermark
    and the head's window is the chain's end, reaching down to the watermark, the
    composed read answers at each height to the tip the block's hash and time and,
    for each pool active there, the root and the serialised tree of exactly the
    chain's commitments up to that block, whether the store reads them or the
    window folds its blocks onto the store's frontier.  Above the tip, and above
    the watermark while the window does not reach down to it, it is refused,
    never answered with a wrong tree. *)
Theorem local_treestate_exact h :
  tree_store_of B abs b s w -> head_of tree g chain lo hi -> 0 <= h ->
  (h <= hi -> h <= w \/ lo <= w + 1 ->
   exists t, treestate_at (Z.to_nat h) = Some t /\
     local_treestate v store window h = Some (Ok t)) /\
  (w < h -> hi < h \/ w + 1 < lo ->
   local_treestate v store window h = Some (Err (NotServiceable IndexSet.Treestate))).
Proof.
  intros Hs [Htr Hwin Hcov] Hh. destruct (tso_watermark _ _ _ _ _ Hs) as [Hw _].
  destruct (window_range tree Htr chain g Hwin lo hi Hcov) as (Hlo & Hhi & _).
  destruct (local_seed Hs) as (t & Hat & Hseed). unfold local_treestate. rewrite view_watermark_of, Hseed by done.
  cbn [attempt tw_treestate head_treestates pool_activations store_treestates treestate]. split.
  - intros Hle Hseam. destruct (treestate_at_Some (Z.to_nat h)) as (th & Hth & _); [lia|]. exists th. split; [done|].
    destruct (Z.leb_spec h w) as [Hhw|Hhw].
    + rewrite <- (Z2Nat.id h) at 1 by lia. apply (store_treestate_at B abs b s w); [done|done|lia].
    + rewrite <- (Z2Nat.id h) at 1 by lia. rewrite (window_treestate_at tree Htr g Hwin lo hi Hcov (Z.to_nat w) t Hat (Z.to_nat h) th); [done|lia|done].
  - intros Hlt Hout. rewrite (proj2 (Z.leb_gt _ _) Hlt). destruct (decide (hi < h)).
    + by rewrite (window_treestate_above tree Htr g Hwin lo hi Hcov).
    + by rewrite (window_treestate_gap tree Htr g Hwin lo hi Hcov (Z.to_nat w) t Hat) by lia.
Qed.
End Local.
End Served.
End TreeServeCorrect.
