(* ===== verification/SubtreeServe.v ===== *)
(** * Pages of subtree roots across the seam
    ([packages/zaino-store/src/tree_state.rs], [packages/zaino-indexes/src/indexes/tree_state/serve.rs],
    [packages/zaino-chain-head-service/src/tree_state.rs], [packages/zaino-core/src/engine/treestate.rs])

    The store scans a page of its rows, the window folds its blocks for the
    completions above, and the composer joins and cuts the two. *)

From S2P Require Import Prelude Primitives Types Persistence Codec ChainGraph Dag Engine Bridge BridgeCorrect TreeSegment TreeState Indexes IndexSet Store StoreCorrect Head HeadCorrect View ViewCorrect Composed Subtrees TreeServe TreeServeCorrect.
From stdpp Require Import base gmap list strings sorting.
From Stdlib Require Import Lia.
Open Scope Z_scope.

Module SubtreeServe.
Import Bytes.
Import Kv.
Import Layout.
Import Codec.
Import BridgeCorrect.
Import ChainGraph.
Import Indexes.
Import IndexSet.
Import Store.
Import StoreCorrect.
Import HeadCorrect.
Import ViewCorrect.
Import Composed.
Import TreeSegment.
Import TreeState.
Import Subtrees.
Import TreeServe.
Import TreeServeCorrect.

(** A row as the reads report it. *)
Definition reported (row : Z * SubtreeRoot) : DomainSubtreeRoot :=
  mkDomainSubtreeRoot (sr_root row.2) (completing_block_hash row.2) (completing_height row.2).
(** Rows of consecutive subtrees, completed at heights of the protocol. *)
Definition numbered (lo : Z) (rows : list (Z * SubtreeRoot)) : Prop :=
  Forall2 (fun k row => row.1 = k /\ 0 <= completing_height row.2 <= Height.MAX_HEIGHT)
    (seqZ lo (Z.of_nat (length rows))) rows.

Lemma numbered_cons lo row rows :
  numbered lo (row :: rows) <-> (row.1 = lo /\ 0 <= completing_height row.2 <= Height.MAX_HEIGHT) /\ numbered (lo + 1) rows.
Proof.
  unfold numbered. cbn [length]. rewrite seqZ_cons by lia. rewrite Forall2_cons.
  by replace (Z.pred (Z.of_nat (S (length rows)))) with (Z.of_nat (length rows)) by lia.
Qed.
Lemma numbered_Forall lo rows :
  numbered lo rows -> Forall (fun row => lo <= row.1 /\ 0 <= completing_height row.2 <= Height.MAX_HEIGHT) rows.
Proof.
  revert lo. induction rows as [|row rows IH]; intros lo; [constructor|]. rewrite numbered_cons. intros [[<- Hh] Hn].
  constructor; [split; [lia|done]|]. eapply Forall_impl; [by apply IH|]. cbn. intros r ?. lia.
Qed.
(** The rows from a number on. *)
Lemma numbered_from lo rows start :
  numbered lo rows -> filter (fun row => start <= row.1) rows = drop (Z.to_nat (start - lo)) rows.
Proof.
  revert lo. induction rows as [|row rows IH]; intros lo Hn; [by rewrite drop_nil|].
  apply numbered_cons in Hn as [[Hk _] Hn]. specialize (IH (lo + 1) Hn). destruct (decide (start <= lo)) as [Hle|Hgt].
  - rewrite filter_cons_True by lia. rewrite IH. replace (Z.to_nat (start - (lo + 1))) with 0%nat by lia.
    by replace (Z.to_nat (start - lo)) with 0%nat by lia.
  - rewrite filter_cons_False by lia. replace (Z.to_nat (start - lo)) with (S (Z.to_nat (start - (lo + 1)))) by lia. done.
Qed.
(** The rows below a number. *)
Lemma numbered_below lo rows end_ :
  numbered lo rows -> filter (fun row => row.1 < end_) rows = take (Z.to_nat (end_ - lo)) rows.
Proof.
  revert lo. induction rows as [|row rows IH]; intros lo Hn; [by rewrite take_nil|].
  apply numbered_cons in Hn as [[Hk _] Hn]. specialize (IH (lo + 1) Hn). destruct (decide (lo < end_)) as [Hlt|Hge].
  - rewrite filter_cons_True by lia. rewrite IH. by replace (Z.to_nat (end_ - lo)) with (S (Z.to_nat (end_ - (lo + 1)))) by lia.
  - rewrite filter_cons_False by lia. rewrite IH. replace (Z.to_nat (end_ - (lo + 1))) with 0%nat by lia.
    by replace (Z.to_nat (end_ - lo)) with 0%nat by lia.
Qed.
Lemma numbered_drop lo rows n : numbered lo rows -> numbered (lo + Z.of_nat n) (drop n rows).
Proof.
  revert lo rows. induction n as [|n IH]; intros lo rows Hn; [by rewrite Z.add_0_r|].
  destruct rows as [|row rows]; [by unfold numbered|]. apply numbered_cons in Hn as [_ Hn]. cbn [drop].
  replace (lo + Z.of_nat (S n)) with (lo + 1 + Z.of_nat n) by lia. by apply IH.
Qed.
Lemma numbered_sorted lo rows : numbered lo rows -> StronglySorted (fun e1 e2 => e1.1 < e2.1) rows.
Proof.
  revert lo. induction rows as [|row rows IH]; intros lo; [constructor|]. rewrite numbered_cons. intros [[Hk _] Hn].
  constructor; [by eapply IH|]. eapply Forall_impl; [by eapply numbered_Forall|]. cbn. intros r ?. lia.
Qed.

Lemma indexed_height_ok h : 0 <= h <= Height.MAX_HEIGHT -> indexed_height h = Some h.
Proof.
  intros Hh. unfold indexed_height, try_narrow. assert (Height.MAX_HEIGHT = 2 ^ 31 - 1) as E by done.
  rewrite (proj2 (Z.ltb_lt _ _)) by lia. unfold Height.try_from. by rewrite (proj2 (Z.ltb_ge _ _)) by lia.
Qed.

(** ** The store's scan *)

(** How many rows a capped scan keeps: the callback stops after it has pushed. *)
Definition cap_rows (cap : option Z) (n : nat) : nat :=
  match cap with Some cap => Nat.min n (Nat.max 1 (Z.to_nat cap)) | None => n end.
Definition kept (cap : option Z) (rows : list (Z * SubtreeRoot)) : list (Z * SubtreeRoot) :=
  take (cap_rows cap (length rows)) rows.

Lemma visit_subtrees cap rows acc :
  all_wf SubtreesIndex subtree_wf rows ->
  Forall (fun row => 0 <= completing_height row.2 <= Height.MAX_HEIGHT) rows ->
  visit_all (visit_subtree cap) (encoded SubtreesIndex <$> rows) (mkSubtreeScan acc None) =
  mkSubtreeScan (acc ++ (reported <$> kept ((fun cap => cap - Z.of_nat (length acc)) <$> cap) rows)) None.
Proof.
  intros Hwf. revert acc. induction Hwf as [|[k r] rows Hk _ IH]; intros acc Hh.
  { unfold kept. rewrite take_nil. cbn. by rewrite app_nil_r. }
  apply Forall_cons in Hh as [Hr Hh]. cbn [fst snd] in *. rewrite fmap_cons. cbn [visit_all]. unfold encoded at 1.
  unfold visit_subtree at 1. cbn [fst snd]. rewrite (codec_value k r Hk). rewrite (indexed_height_ok _ Hr).
  cbn [scan_roots scan_error]. rewrite length_app. cbn [length].
  destruct cap as [cap|]; cbn [fmap option_fmap option_map] in *.
  - destruct (Z.leb_spec cap (Z.of_nat (length acc + 1))) as [Hle|Hgt].
    + unfold kept, cap_rows. replace (Nat.min _ _) with 1%nat by (cbn [length]; lia). done.
    + rewrite IH by done. unfold kept, cap_rows. rewrite length_app. cbn [length].
      replace (Nat.min (S (length rows)) _) with
        (S (Nat.min (length rows) (Nat.max 1 (Z.to_nat (cap - Z.of_nat (length acc + 1)))))) by lia.
      rewrite <- app_assoc. done.
  - rewrite IH by done. unfold kept, cap_rows. cbn [length fmap option_fmap option_map take]. by rewrite <- app_assoc.
Qed.

Lemma above_every_key bytes n : Forall byte_ok bytes -> length bytes = n -> bytes_compare bytes (replicate (S n) 0xFF) = Lt.
Proof.
  intros Hok <-. induction Hok as [|x bytes Hx _ IH]; [done|]. cbn [length replicate bytes_compare].
  destruct (Z.compare_spec x 255) as [_|_|Hgt]; [exact IH|done|]. unfold byte_ok in Hx. lia.
Qed.
Lemma in_range_subtree start k value :
  uint 32 start -> uint 32 k ->
  in_range (encode_key SubtreesIndex start) (replicate 5 0xFF) (encode_key SubtreesIndex k, value) = (start <=? k).
Proof.
  intros Hs Hk. unfold in_range, bytes_ltb. cbn [fst].
  change (encode_key SubtreesIndex start) with (to_be_bytes 4 start). change (encode_key SubtreesIndex k) with (to_be_bytes 4 k).
  rewrite (above_every_key (to_be_bytes 4 k) 4); [|apply to_be_bytes_ok|apply length_to_be_bytes].
  rewrite bytes_compare_be by done. destruct (Z.compare_spec k start), (Z.leb_spec start k); (done || lia).
Qed.

(** A scan pages the namespace's rows. *)
Lemma scan_subtrees_page r st ns rows start limit :
  reader_ok r st -> table SubtreesIndex subtree_wf ns st rows -> numbered 0 rows -> uint 32 start ->
  scan_subtrees r ns start limit = Ok (reported <$> kept limit (drop (Z.to_nat start) rows)).
Proof.
  intros Hr Ht Hn Hs. destruct (ro_range _ _ Hr ns (encode_key SubtreesIndex start) (replicate 5 0xFF)) as (raws & Hns & Hscan).
  destruct (namespace_table SubtreesIndex subtree_wf ns st rows raws Ht Hns) as (es & -> & Hp & Hsort).
  pose proof Ht as (Hwf & _ & _). unfold all_wf in Hwf. rewrite Forall_forall in Hwf.
  assert (es = rows) as ->.
  { apply (StronglySorted_unique_strong (fun e1 e2 => e1.1 < e2.1)).
    - intros. lia.
    - assert (forall e, e ∈ es -> uint 32 e.1) as Hu by (intros e He; apply (Hwf e); by rewrite <- Hp).
      clear -Hsort Hu. induction Hsort as [|e es _ IH Hf]; [constructor|].
      constructor; [apply IH; intros; apply Hu; by right|]. apply Forall_forall. intros e' He'.
      rewrite Forall_forall in Hf. specialize (Hf e' He').
      change (bytes_compare (to_be_bytes 4 e.1) (to_be_bytes 4 e'.1) = Lt) in Hf.
      rewrite bytes_compare_be in Hf by (apply Hu; by constructor). by apply Z.compare_lt_iff.
    - by eapply numbered_sorted.
    - done. }
  assert (filter (fun e => in_range (encode_key SubtreesIndex start) (replicate 5 0xFF) e = true) (encoded SubtreesIndex <$> rows) =
          encoded SubtreesIndex <$> drop (Z.to_nat start) rows) as Hf.
  { transitivity (encoded SubtreesIndex <$> filter (fun row : Z * SubtreeRoot => start <= row.1) rows).
    2: { pose proof (numbered_from 0 rows start Hn) as E. rewrite Z.sub_0_r in E. exact (f_equal _ E). }
    clear -Hwf Hs. assert (forall e, e ∈ rows -> uint 32 e.1) as Hu by (intros e He; by apply (Hwf e)). clear Hwf.
    induction rows as [|e rows IH]; [done|]. rewrite fmap_cons, !filter_cons, IH by (intros; apply Hu; by right).
    assert (in_range (encode_key SubtreesIndex start) (replicate 5 0xFF) (encoded SubtreesIndex e) = true <-> start <= e.1) as Hiff.
    { unfold encoded. rewrite in_range_subtree by (done || apply Hu; by left). apply Z.leb_le. }
    destruct (decide (start <= e.1)) as [Hd|Hd].
    - rewrite decide_True by by apply Hiff. by rewrite decide_True by done.
    - rewrite decide_False by by rewrite Hiff. by rewrite decide_False by done. }
  unfold scan_subtrees. rewrite Hscan, Hf. cbn [map_err].
  rewrite visit_subtrees; cbn [scan_error scan_roots app length].
  - destruct limit as [l|]; cbn [fmap option_fmap option_map]; [|done].
    by replace (l - Z.of_nat 0) with l by lia.
  - apply Forall_drop, Forall_forall, Hwf.
  - apply Forall_drop. eapply Forall_impl; [by eapply numbered_Forall|]. cbn. tauto.
Qed.

(** ** Joining the tiers' pages *)
Definition paged {A} (limit : option Z) (l : list A) : list A :=
  match limit with Some limit => take (Z.to_nat limit) l | None => l end.
Definition within (start : Z) (end_ : option Z) (row : Z * SubtreeRoot) : bool :=
  (start <=? row.1) && match end_ with Some end_ => row.1 <? end_ | None => true end.

Lemma within_rows t rows start end_ :
  numbered t rows ->
  List.filter (within start end_) rows =
  match end_ with
  | Some end_ => take (Z.to_nat (end_ - (t + Z.of_nat (Z.to_nat (start - t))))) (drop (Z.to_nat (start - t)) rows)
  | None => drop (Z.to_nat (start - t)) rows
  end.
Proof.
  intros Hn. rewrite <- (numbered_from t rows start Hn).
  assert (List.filter (within start end_) rows =
    match end_ with
    | Some end_ => filter (fun row => row.1 < end_) (filter (fun row => start <= row.1) rows)
    | None => filter (fun row => start <= row.1) rows
    end) as ->.
  { clear Hn. induction rows as [|row rows IH]; [by destruct end_|]. cbn [List.filter]. unfold within at 1.
    rewrite filter_cons. destruct (Z.leb_spec start row.1), end_ as [e|]; cbn [andb];
      repeat (rewrite decide_True by done) || (rewrite decide_False by lia); try by rewrite IH.
    rewrite filter_cons. destruct (Z.ltb_spec row.1 e); [rewrite decide_True by done|rewrite decide_False by lia]; by rewrite IH. }
  destruct end_ as [e|]; [|done]. rewrite (numbered_from t rows start Hn). by apply numbered_below, numbered_drop.
Qed.

Lemma pages_join (F W : list (Z * SubtreeRoot)) start limit :
  numbered (Z.of_nat (length F)) W -> 0 <= start -> match limit with Some limit => 0 <= limit | None => True end ->
  paged limit (kept limit (drop (Z.to_nat start) F) ++ List.filter (within start ((fun l => start + l) <$> limit)) W) =
  paged limit (drop (Z.to_nat start) (F ++ W)).
Proof.
  intros Hn Hs Hl. rewrite (within_rows _ _ _ _ Hn), drop_app.
  replace (Z.to_nat (start - Z.of_nat (length F))) with (Z.to_nat start - length F)%nat by lia.
  set (W' := drop (Z.to_nat start - length F) W). set (A := drop (Z.to_nat start) F).
  assert (length A = (length F - Z.to_nat start)%nat) as HA by apply length_drop.
  destruct limit as [l|]; cbn [paged fmap option_fmap option_map kept cap_rows].
  - unfold kept, cap_rows. rewrite !take_app, take_take, length_take.
    replace (Nat.min (Z.to_nat l) (Nat.min (length A) (Nat.max 1 (Z.to_nat l)))) with (Nat.min (Z.to_nat l) (length A)) by lia.
    f_equal.
    + destruct (decide (Z.to_nat l <= length A)%nat); [by rewrite Nat.min_l by lia|]. rewrite Nat.min_r by lia.
      by rewrite !firstn_all2 by lia.
    + rewrite take_take. f_equal. lia.
  - unfold kept, cap_rows. by rewrite firstn_all.
Qed.

Section Served.
Context {HS HO : Type} (hash_s : nat -> HS -> HS -> HS) (hash_o : nat -> HO -> HO -> HO).
Context `{IS : !Imt HS} `{IO : !Imt HO} `{LS : !LegacyTree HS} `{LO : !LegacyTree HO}.
Context `{!ImtLaws hash_s} `{!ImtLaws hash_o} `{!LegacyLaws HS} `{!LegacyLaws HO}.
Context (sapling_leaf : list Z -> option HS) (pallas_leaf : list Z -> option HO).
Context (sapling_bytes : HS -> list Z) (pallas_bytes : HO -> list Z).
Context (write_s : @NonEmptyFrontier HS IS -> list Z) (write_o : @NonEmptyFrontier HO IO -> list Z).
Context (read_s : list Z -> option (@NonEmptyFrontier HS IS * list Z)).
Context (read_o : list Z -> option (@NonEmptyFrontier HO IO * list Z)).
Context (samples : list (Z * @TreeStateValue HS HO IS IO)).
Context (Rs : reads_back write_s read_s) (Ro : reads_back write_o read_o).
Notation TreeStateValue := (@TreeStateValue HS HO IS IO).
Notation TreeStateEntry := (@TreeStateEntry HS HO IS IO).
Notation trees_of := (trees_of sapling_leaf pallas_leaf write_s write_o read_s read_o samples).
Notation SubtreePool := (@SubtreePool HS HO IS IO).
Notation PoolSpec := (@PoolSpec HS HO IS IO sapling_leaf pallas_leaf).
Notation pool_window_roots := (pool_window_roots hash_s hash_o sapling_leaf pallas_leaf sapling_bytes pallas_bytes).

(** The pool a read names. *)
Definition pool_of (pool : ShieldedPool) : SubtreePool :=
  match pool with
  | SaplingShielded => SaplingPool hash_s sapling_leaf sapling_bytes
  | OrchardShielded => OrchardPool hash_o pallas_leaf pallas_bytes
  | IronwoodShielded => IronwoodPool hash_o pallas_leaf pallas_bytes
  end.
Local Instance pool_of_spec pool : PoolSpec (pool_of pool).
Proof. destruct pool; apply _. Qed.

Definition window_row (s : WindowSubtree) : Z * SubtreeRoot :=
  (ws_index s, mkSubtreeRoot (ws_root s) (ws_completing_block_hash s) (ws_completing_height s)).

(** ** Folding blocks onto their prefix's tree state *)
Section Folded.
Context (blocks : list TreeStateCtx) (ds : list TreeStateEntry) (vend : TreeStateValue).
Context (Hs : series (TreeStateIndex write_s write_o read_s read_o samples)
  (tree_append sapling_leaf pallas_leaf write_s write_o read_s read_o samples) tree_initial_carry blocks = Ok (ds, vend)).
Notation value_before := (value_before ds).

Lemma extract_at i ctx :
  blocks !! i = Some ctx ->
  exists d, TreeState.extract sapling_leaf pallas_leaf ctx (value_before i) = Ok d /\ e_value d = value_before (S i).
Proof.
  intros Hi. pose proof (fold_between _ _ _ _ _ _ _ _ _ _ i (S i) Hs ltac:(lia)) as Hf.
  replace (S i - i)%nat with 1%nat in Hf by lia. rewrite (drop_S _ _ _ Hi) in Hf. cbn [take TreeServe.fold_window] in Hf.
  destruct (TreeState.extract _ _ ctx (value_before i)) as [d|]; [|done]. injection Hf as Hf. by exists d.
Qed.

Section Pool.
Context (P : SubtreePool) `{!PoolSpec P} (xs : list (Leaf P)).
Context (Hx : mapM (pool_leaf P) (pool_run P blocks) = Some xs) (Hlim : Z.of_nat (length xs) <= 2 ^ 32).
Notation completed i := (size_at P blocks i / span (pool_LEVEL P)).

Lemma pool_leaves_mapM cs' ys :
  mapM (pool_leaf P) cs' = Some ys ->
  pool_leaves hash_s hash_o sapling_leaf pallas_leaf sapling_bytes pallas_bytes P cs' = Ok ys.
Proof.
  revert ys. induction cs' as [|c cs' IH]; intros ys; cbn; [by intros [= <-]|].
  destruct (pool_leaf P c) as [x|]; cbn; [|done]. destruct (mapM _ cs') as [zs|] eqn:Hm; [|done].
  intros [= <-]. by rewrite (IH zs).
Qed.
Lemma window_subtrees_rows roots ctx :
  Forall (fun e => e.1 < 2 ^ 32) roots ->
  exists out, window_subtrees P roots ctx = Some out /\ window_row <$> out = row_of P ctx <$> roots.
Proof.
  induction 1 as [|[k node] roots Hk _ (out & Ho & Hr)]; [by exists []|]. cbn in Hk |- *. unfold try_narrow.
  rewrite (proj2 (Z.ltb_lt k _)) by done. rewrite Ho. eexists. split; [done|]. cbn. f_equal. exact Hr.
Qed.

(** The window's rows continue the chain's. *)
Lemma window_rows n i :
  (i + n <= length blocks)%nat ->
  exists out, pool_window_roots P (value_before i) (take n (drop i blocks)) = Some (Ok out) /\
    Forall2 (subtree_row P blocks xs) (seqZ (completed i) (completed (i + n)%nat - completed i)) (window_row <$> out) /\
    completed i <= completed (i + n)%nat.
Proof.
  revert i. induction n as [|n IH]; intros i Hn.
  { exists []. rewrite Nat.add_0_r, Z.sub_diag. cbn. split_and!; [done|constructor|lia]. }
  destruct (lookup_lt_is_Some_2 blocks i) as [ctx Hctx]; [lia|].
  rewrite (drop_S _ _ _ Hctx). cbn [take TreeServe.pool_window_roots].
  pose proof (chain_frontier sapling_leaf pallas_leaf write_s write_o read_s read_o samples P _ _ _ _ i Hs Hx) as Hr.
  destruct (block_roots sapling_leaf pallas_leaf P blocks xs i ctx _ Hx Hlim Hctx Hr) as (ys & roots & Hy & Hc & _ & Hnar & Hrows).
  rewrite (pool_leaves_mapM _ _ Hy). cbn [attempt]. unfold TreeServeCorrect.value_before. rewrite Hc. cbn beta iota.
  destruct (window_subtrees_rows roots ctx Hnar) as (out & -> & Hout). cbn beta iota.
  destruct (extract_at i ctx Hctx) as (d & Hd & Hdv). unfold TreeServeCorrect.value_before in Hd. rewrite Hd. cbn [attempt].
  rewrite Hdv. destruct (IH (S i)) as (rest & -> & Hrest & Hle); [lia|]. cbn [attempt].
  pose proof (size_div_mono P blocks i ctx Hctx) as Hmono.
  exists (out ++ rest). split; [done|]. replace (i + S n)%nat with (S i + n)%nat by lia. split; [|lia].
  rewrite fmap_app, Hout. replace (completed (S i + n)%nat - completed i) with
    ((completed (S i) - completed i) + (completed (S i + n)%nat - completed (S i))) by lia.
  rewrite seqZ_app by lia. apply Forall2_app; [done|].
  by replace (completed i + (completed (S i) - completed i)) with (completed (S i)) by lia.
Qed.

End Pool.
End Folded.

(** ** A chain, its store and its window *)
Context (chain : list Block) (cs : list CurrentZainoContext) (ds : list TreeStateEntry) (vend : TreeStateValue).
Context (acts : PoolActivations) (Ht : trees_of chain cs ds vend acts).
Notation blocks := (tree_state_context <$> cs).
Notation value_before := (value_before ds).

Lemma chain_height i ctx :
  Z.of_nat (length chain) <= 2 ^ 31 -> blocks !! i = Some ctx -> 0 <= ctx_height ctx <= Height.MAX_HEIGHT.
Proof.
  intros Hsm Hi. pose proof (trees_height _ _ _ _ _ _ _ _ _ _ _ _ Ht i ctx Hi) as ->. apply lookup_lt_Some in Hi.
  rewrite length_fmap in Hi. destruct (trees_length _ _ _ _ _ _ _ _ _ _ _ _ Ht) as [_ Hc].
  assert (Height.MAX_HEIGHT = 2 ^ 31 - 1) by done. lia.
Qed.
(** Rows of these blocks are numbered and their heights are the protocol's. *)
Lemma rows_numbered (P : SubtreePool) folded xs lo n rows :
  Z.of_nat (length chain) <= 2 ^ 31 -> (forall ctx, ctx ∈ folded -> ctx ∈ blocks) ->
  Forall2 (subtree_row P folded xs) (seqZ lo n) rows -> numbered lo rows.
Proof.
  intros Hsm Hsub Hrows. unfold numbered. pose proof (Forall2_length _ _ _ Hrows) as Hl. rewrite length_seqZ in Hl.
  assert (seqZ lo (Z.of_nat (length rows)) = seqZ lo n) as ->.
  { destruct (decide (0 <= n)); [f_equal; lia|]. rewrite !seqZ_nil by lia. done. }
  eapply Forall2_impl; [exact Hrows|]. intros k row (i & ctx & node & Hi & _ & _ & ->). cbn. split; [done|].
  apply list_elem_of_lookup_2, Hsub, list_elem_of_lookup in Hi as [j Hj]. by eapply chain_height.
Qed.

(** ** The two tiers *)
Notation completed P i := (size_at P blocks i / span (pool_LEVEL P)).

(** The store holds each pool's rows of the chain up to its watermark. *)
Record subtrees_of {BSt} (B : Backend BSt) (abs : BSt -> store) (b : BSt) (w : Z) : Prop := {
  sub_reader : exists r, b_reader B b = Ok r /\ forall pool, r_is_complete r (pool_NAME (pool_of pool)) = Ok true;
  sub_rows : forall pool, exists xs rows, mapM (pool_leaf (pool_of pool)) (pool_run (pool_of pool) blocks) = Some xs /\
    table SubtreesIndex subtree_wf (pool_NAME (pool_of pool)) (abs b) rows /\
    Forall2 (subtree_row (pool_of pool) blocks xs) (seqZ 0 (completed (pool_of pool) (S (Z.to_nat w)))) rows }.

Lemma store_page {BSt} (B : Backend BSt) (abs : BSt -> store) `{!BackendSpec B abs} b w pool start limit :
  subtrees_of B abs b w -> Z.of_nat (length chain) <= 2 ^ 31 -> uint 32 start ->
  exists xs rows, mapM (pool_leaf (pool_of pool)) (pool_run (pool_of pool) blocks) = Some xs /\
    Forall2 (subtree_row (pool_of pool) blocks xs) (seqZ 0 (completed (pool_of pool) (S (Z.to_nat w)))) rows /\
    store_subtree_roots hash_s hash_o sapling_leaf pallas_leaf sapling_bytes pallas_bytes B b pool start limit =
      Ok (reported <$> kept limit (drop (Z.to_nat start) rows)).
Proof.
  intros [(r & Hb & Hc) Hrows] Hsm Hs. destruct (Hrows pool) as (xs & rows & Hx & Htab & Hf). exists xs, rows.
  split_and!; [done|done|]. unfold store_subtree_roots, Store.open. rewrite Hb. cbn [map_err]. unfold gated.
  cbn [serviceability_gate].
  pose proof (Hc SaplingShielded) as Hc1. pose proof (Hc OrchardShielded) as Hc2. pose proof (Hc IronwoodShielded) as Hc3.
  cbn [pool_of] in Hc1, Hc2, Hc3. rewrite Hc1. cbn [negb serviceability_gate]. rewrite Hc2. cbn [negb]. rewrite Hc3. cbn [negb map_err].
  pose proof (scan_subtrees_page r (abs b) (pool_NAME (pool_of pool)) rows start limit (spec_reader _ _ Hb) Htab
    (rows_numbered (pool_of pool) blocks xs 0 _ rows Hsm (fun _ Hc => Hc) Hf) Hs) as Hp.
  by destruct pool.
Qed.

Section Window.
Context `{HashIter} (tree : BlockHash -> option TreeEntry) (g : MapBackedSnapshot) (lo hi : Z).
Context (Hh : head_of tree g chain lo hi).

(** The contexts the window folds: from the seam, or from its floor above it. *)
Lemma window_contexts seam :
  0 <= seam ->
  mapM (fun block => tree_state_ctx (chb_block block)) (List.filter (fun block => seam <=? height block) (best_chain g)) =
  Some (drop (Z.to_nat (Z.max lo seam)) blocks).
Proof.
  intros Hs. destruct Hh as [Htr Hwin Hcov]. destruct (window_range tree Htr chain g Hwin lo hi Hcov) as (Hlo & Hhi & _).
  assert (List.filter (fun block => seam <=? height block) (best_chain g) = drop (Z.to_nat (Z.max lo seam - lo)) (best_chain g)) as ->.
  { assert (forall n l, l = drop n (best_chain g) -> List.filter (fun block => seam <=? height block) l =
      drop (Z.to_nat (Z.max lo seam - lo) - n) l) as Hgen.
    { intros n l. revert n. induction l as [|blk l IH]; intros n Hl; [by rewrite drop_nil|]. cbn [List.filter].
      assert (best_chain g !! n = Some blk) as Hlk by by rewrite <- (Nat.add_0_r n), <- lookup_drop, <- Hl.
      destruct (window_lookup tree Htr chain g Hwin lo hi Hcov n blk Hlk) as [-> _].
      assert (l = drop (S n) (best_chain g)) as Hl' by (rewrite <- Nat.add_1_r, <- drop_drop, <- Hl; done).
      rewrite (IH (S n) Hl'). destruct (Z.leb_spec seam (lo + Z.of_nat n)).
      - replace (Z.to_nat (Z.max lo seam - lo) - n)%nat with 0%nat by lia.
        by replace (Z.to_nat (Z.max lo seam - lo) - S n)%nat with 0%nat by lia.
      - replace (Z.to_nat (Z.max lo seam - lo) - n)%nat with (S (Z.to_nat (Z.max lo seam - lo) - S n)) by lia. done. }
    rewrite (Hgen 0%nat (best_chain g) eq_refl). by rewrite Nat.sub_0_r. }
  apply mapM_Some, Forall2_same_length_lookup_2.
  - pose proof (window_chain tree Htr chain g Hwin lo hi Hcov) as Hc. apply (f_equal length) in Hc.
    rewrite length_fmap, length_drop in Hc. rewrite !length_drop, length_fmap.
    destruct (trees_length _ _ _ _ _ _ _ _ _ _ _ _ Ht) as [_ Hcs]. lia.
  - intros i blk ctx Hb Hctx. rewrite lookup_drop in Hb. rewrite lookup_drop in Hctx.
    destruct (window_lookup tree Htr chain g Hwin lo hi Hcov _ blk Hb) as [_ Hc].
    destruct (trees_context _ _ _ _ _ _ _ _ _ _ _ _ Ht _ _ Hc) as (ctx' & Hctx' & Htc). rewrite Htc. f_equal.
    replace (Z.to_nat lo + (Z.to_nat (Z.max lo seam - lo) + i))%nat with (Z.to_nat (Z.max lo seam) + i)%nat in Hctx' by lia.
    congruence.
Qed.

Lemma domain_roots out :
  Forall (fun row => 0 <= completing_height row.2 <= Height.MAX_HEIGHT) (window_row <$> out) ->
  map_result domain_subtree_root out = Ok (reported <$> (window_row <$> out)).
Proof.
  intros Hf%Forall_fmap. induction Hf as [|s out Hs _ IH]; [done|]. cbn [map_result]. unfold domain_subtree_root at 1.
  rewrite indexed_height_ok by exact Hs. cbn [ok_or]. by rewrite IH.
Qed.
Lemma filter_window start end_ out :
  window_row <$> List.filter (fun s => (start <=? ws_index s) && match end_ with Some end_ => ws_index s <? end_ | None => true end) out =
  List.filter (within start end_) (window_row <$> out).
Proof.
  induction out as [|s out IH]; [done|]. cbn [List.filter fmap list_fmap]. unfold within at 1. cbn [fst window_row].
  destruct (_ && _); cbn [fmap list_fmap]; [f_equal|]; exact IH.
Qed.

(** The window's completions in the asked range are the rows of the blocks it
    folds: the chain up to the seed, then the window's blocks above it. *)
Lemma window_page w seed pool folded ds' v' xs start limit :
  treestate_at chain ds acts w = Some seed -> 0 <= start < 2 ^ 16 ->
  match limit with Some limit => 0 <= limit < 2 ^ 16 | None => True end ->
  folded = take (S w) blocks ++ drop (Z.to_nat (Z.max lo (Z.of_nat w + 1))) blocks ->
  series (TreeStateIndex write_s write_o read_s read_o samples)
    (tree_append sapling_leaf pallas_leaf write_s write_o read_s read_o samples) tree_initial_carry folded = Ok (ds', v') ->
  mapM (pool_leaf (pool_of pool)) (pool_run (pool_of pool) folded) = Some xs ->
  let completed i := size_at (pool_of pool) folded i / span (pool_LEVEL (pool_of pool)) in
  exists rows, Forall2 (subtree_row (pool_of pool) folded xs)
      (seqZ (completed (S w)) (completed (length folded) - completed (S w))) rows /\
    completed (S w) <= completed (length folded) /\
    head_window_subtree_roots hash_s hash_o sapling_leaf pallas_leaf sapling_bytes pallas_bytes g (Some seed) pool start limit =
      Some (Ok (reported <$> List.filter (within start ((fun l => start + l) <$> limit)) rows)).
Proof.
  cbn zeta. intros Hseed Hs Hl Hfold Hser Hx. pose proof Hh as [Htr Hwin Hcov]. pose proof (wo_small _ _ _ Hwin) as Hsm.
  destruct (trees_length _ _ _ _ _ _ _ _ _ _ _ _ Ht) as [_ Hcs].
  destruct (seed_height _ _ _ _ _ Hseed) as [_ Hw].
  destruct (chain_leaves sapling_leaf pallas_leaf write_s write_o read_s read_o samples (pool_of pool) _ _ _ Hser)
    as (xs' & Hx' & Hlim & _). rewrite Hx in Hx'. injection Hx' as <-.
  assert (length (take (S w) blocks) = S w) as Hlt by (rewrite length_take, length_fmap; lia).
  assert (drop (S w) folded = drop (Z.to_nat (Z.max lo (Z.of_nat w + 1))) blocks) as Hdrop.
  { rewrite Hfold. rewrite <- Hlt at 1. by rewrite drop_app_length. }
  assert (S w <= length folded)%nat as Hlf by (rewrite Hfold, length_app; lia).
  assert (value_before (S w) = TreeServeCorrect.value_before ds' (S w)) as Hval.
  { pose proof (series_take sapling_leaf pallas_leaf write_s write_o read_s read_o samples (S w) Hser) as H1.
    pose proof (series_take sapling_leaf pallas_leaf write_s write_o read_s read_o samples (S w)
      (to_series _ _ _ _ _ _ _ _ _ _ _ _ Ht)) as H2.
    assert (take (S w) folded = take (S w) blocks) as E by (rewrite Hfold; rewrite <- Hlt at 1; by rewrite take_app_length).
    rewrite E in H1. rewrite H1 in H2. by injection H2. }
  destruct (window_rows folded ds' v' Hser (pool_of pool) xs Hx Hlim (length folded - S w) (S w))
    as (out & Hout & Hrows & Hle); [lia|].
  replace (S w + (length folded - S w))%nat with (length folded) in Hrows, Hle by lia.
  rewrite firstn_all2, Hdrop in Hout by (rewrite length_drop; lia).
  exists (window_row <$> out). split_and!; [done|done|]. unfold head_window_subtree_roots.
  rewrite (seam_of_seed _ _ _ _ _ Hwin w seed Hseed). rewrite (window_contexts (Z.of_nat w + 1)) by lia.
  rewrite (seed_treestate_at hash_s hash_o sapling_leaf pallas_leaf sapling_bytes pallas_bytes write_s write_o
    read_s read_o samples chain cs ds vend acts Ht w seed Hseed). cbn [map_err attempt]. rewrite Hval.
  assert (window_subtree_roots hash_s hash_o sapling_leaf pallas_leaf sapling_bytes pallas_bytes
    (TreeServeCorrect.value_before ds' (S w)) (drop (Z.to_nat (Z.max lo (Z.of_nat w + 1))) blocks) pool = Some (Ok out)) as ->.
  { rewrite <- Hout. by destruct pool. }
  cbn [map_err attempt].
  assert ((fun limit => saturating_add32 start limit) <$> limit = (fun l => start + l) <$> limit) as ->.
  { destruct limit as [l|]; [|done]. cbn. f_equal. unfold saturating_add32. lia. }
  rewrite domain_roots, filter_window; [done|]. rewrite filter_window.
  assert (forall ctx, ctx ∈ folded -> ctx ∈ blocks) as Hsub.
  { intros ctx. rewrite Hfold, elem_of_app. intros [[i [Hi _]%lookup_take_Some]%list_elem_of_lookup|[i Hi]%list_elem_of_lookup].
    - by eapply list_elem_of_lookup_2.
    - rewrite lookup_drop in Hi. by eapply list_elem_of_lookup_2. }
  pose proof (numbered_Forall _ _ (rows_numbered (pool_of pool) folded xs _ _ _ Hsm Hsub Hrows)) as Hall.
  apply Forall_forall. intros row [Hin _]%list_elem_of_In%List.filter_In. apply list_elem_of_In in Hin.
  rewrite Forall_forall in Hall. by apply (Hall row).
Qed.
End Window.

(** C8: a page of subtree roots is the chain's.  Where the store holds the chain's
    tree states and subtree rows up to its watermark and the head's window is the
    chain's end, reaching down to the watermark, the composed read of a pool from
    a start index answers the rows of the chain's completed subtrees from that
    index on, in order, as many as the limit allows: none is missing or repeated
    at the seam, and a subtree that straddles it has the root of its own leaves
    and the block that completed it. *)
Theorem local_subtree_roots_exact `{HashIter} {BSt} (B : Backend BSt) (abs : BSt -> store) `{!BackendSpec B abs}
    b s tree g w lo hi pool start limit :
  let P := pool_of pool in
  let v := View.view_new (View.store_tier B s b) (Head.head_tier g) in
  let store := store_treestates hash_s hash_o sapling_leaf pallas_leaf sapling_bytes pallas_bytes
                 write_s write_o read_s read_o samples B b s acts in
  let window := head_treestates hash_s hash_o sapling_leaf pallas_leaf sapling_bytes pallas_bytes g in
  tree_store_of hash_s hash_o write_s write_o read_s read_o samples chain cs ds B abs b s w ->
  subtrees_of B abs b w -> head_of tree g chain lo hi -> lo <= w + 1 ->
  0 <= start < 2 ^ 16 -> match limit with Some limit => 0 <= limit < 2 ^ 16 | None => True end ->
  exists xs rows, mapM (pool_leaf P) (pool_run P blocks) = Some xs /\
    Forall2 (subtree_row P blocks xs) (seqZ 0 (size_at P blocks (length blocks) / span (pool_LEVEL P))) rows /\
    local_subtree_roots v store window pool start limit = Some (Ok (reported <$> paged limit (drop (Z.to_nat start) rows))).
Proof.
  cbn zeta. intros Hst Hsub Hh Hseam Hs Hl. pose proof (wo_small _ _ _ (hd_window _ _ _ _ _ Hh)) as Hsm.
  destruct (tso_watermark _ _ _ _ _ _ _ _ _ _ _ _ _ _ _ Hst) as [Hw _].
  destruct (store_page B abs b w pool start limit Hsub Hsm) as (xs & F & Hx & HF & Hpage); [unfold uint; lia|].
  destruct (local_seed hash_s hash_o sapling_leaf pallas_leaf sapling_bytes pallas_bytes write_s write_o read_s read_o samples
    Rs Ro chain cs ds vend acts Ht B abs b s g w Hst) as (t & Hat & Hseed).
  destruct (window_page tree g lo hi Hh (Z.to_nat w) t pool blocks ds vend xs start limit Hat Hs Hl) as (W & HW & Hle & Hwin);
    [by replace (Z.to_nat (Z.max lo _)) with (S (Z.to_nat w)) by lia; rewrite take_drop|
     exact (to_series _ _ _ _ _ _ _ _ _ _ _ _ Ht)|done|].
  exists xs, (F ++ W). split; [done|]. pose proof (Forall2_length _ _ _ HF) as HlF. rewrite length_seqZ in HlF.
  assert (0 <= completed (pool_of pool) (S (Z.to_nat w))) as H0.
  { apply Z.div_pos; [unfold size_at; lia|apply span_pos]. }
  split.
  - replace (size_at _ _ (length blocks) / _) with (completed (pool_of pool) (S (Z.to_nat w)) +
      (completed (pool_of pool) (length blocks) - completed (pool_of pool) (S (Z.to_nat w)))) by lia.
    rewrite seqZ_app by lia. apply Forall2_app; done.
  - unfold local_subtree_roots. cbn [subtree_roots store_treestates tw_subtree_roots head_treestates].
    rewrite Hpage. cbn [attempt]. rewrite Hseed. cbn [attempt]. rewrite Hwin. cbn [attempt].
    rewrite <- fmap_app. f_equal. f_equal.
    assert (numbered (Z.of_nat (length F)) W) as Hn.
    { replace (Z.of_nat (length F)) with (completed (pool_of pool) (S (Z.to_nat w))) by lia. by eapply (rows_numbered _ blocks). }
    pose proof (pages_join F W start limit Hn ltac:(lia) ltac:(destruct limit; [lia|done])) as Hj.
    apply (f_equal (fmap reported)) in Hj. destruct limit as [l|]; [|exact Hj].
    cbn [paged] in Hj |- *. rewrite <- fmap_take. exact Hj.
Qed.

Lemma cut_size (P : SubtreePool) (l : list TreeStateCtx) i j :
  size_at P (take i l ++ drop j l) (length (take i l ++ drop j l)) =
  size_at P l (length l) - (size_at P l j - size_at P l i).
Proof.
  assert (size_at P l (length l) = size_at P l j + Z.of_nat (length (pool_run P (drop j l)))) as ->.
  { unfold size_at. rewrite firstn_all. rewrite <- (take_drop j l) at 1. rewrite pool_run_app, length_app. lia. }
  unfold size_at at 1. rewrite firstn_all, pool_run_app, length_app. unfold size_at. lia.
Qed.

(** C35: the window's subtree roots do not need the window to reach the seam.  Where
    the head's floor is more than one above the watermark, [window_subtree_roots]
    does not refuse, as the treestate read does: it answers the completions of the
    chain with the blocks between them cut out, so every commitment of the gap is
    missing from the roots and from the indices. *)
Theorem window_roots_over_gap `{HashIter} tree g lo hi w seed pool start limit ds' v' :
  let P := pool_of pool in
  let cut := take (S w) blocks ++ drop (Z.to_nat lo) blocks in
  let completed i := size_at P cut i / span (pool_LEVEL P) in
  head_of tree g chain lo hi -> treestate_at chain ds acts w = Some seed -> Z.of_nat w + 1 < lo ->
  0 <= start < 2 ^ 16 -> match limit with Some limit => 0 <= limit < 2 ^ 16 | None => True end ->
  series (TreeStateIndex write_s write_o read_s read_o samples)
    (tree_append sapling_leaf pallas_leaf write_s write_o read_s read_o samples) tree_initial_carry cut = Ok (ds', v') ->
  exists xs rows, mapM (pool_leaf P) (pool_run P cut) = Some xs /\
    size_at P cut (length cut) =
      size_at P blocks (length blocks) - (size_at P blocks (Z.to_nat lo) - size_at P blocks (S w)) /\
    Forall2 (subtree_row P cut xs) (seqZ (completed (S w)) (completed (length cut) - completed (S w))) rows /\
    head_window_subtree_roots hash_s hash_o sapling_leaf pallas_leaf sapling_bytes pallas_bytes g (Some seed) pool start limit =
      Some (Ok (reported <$> List.filter (within start ((fun l => start + l) <$> limit)) rows)).
Proof.
  cbn zeta. intros Hh Hseed Hgap Hs Hl Hser.
  destruct (chain_leaves sapling_leaf pallas_leaf write_s write_o read_s read_o samples (pool_of pool) _ _ _ Hser)
    as (xs & Hx & _). exists xs.
  destruct (window_page tree g lo hi Hh w seed pool (take (S w) blocks ++ drop (Z.to_nat lo) blocks) ds' v' xs start limit)
    as (rows & Hrows & _ & Hr); try done; [by replace (Z.max lo _) with lo by lia|].
  exists rows. split_and!; [done|apply cut_size|done|done].
Qed.
End Served.

(** ** Four blocks, two of them finalised *)
Module Example.
Import StoreCorrect.Example.
Import Composed.Example.
Import TreeState.Example.
Local Existing Instance canonical_iter.
Local Existing Instance number_spines.
Local Existing Instance number_laws.

(** A commitment's leaf is its first byte; a serialised tree, its spine. *)
Definition first_byte (c : list Z) : option Z := head c.
Definition bytes32_of (z : Z) : list Z := replicate 32 z.
Definition write_tree (f : @Frontier Z number_spines) : list Z := match f with None => [] | Some n => write n end.
Definition read_tree (l : list Z) : option (@Frontier Z number_spines) :=
  match l with
  | [] => Some None
  | _ => match read l with Some (n, []) => Some (Some n) | _ => None end
  end.
Definition spine_root (f : @Frontier Z number_spines) : Z :=
  match f with None => 0 | Some n => foldr Z.add (Counter.s_leaf n) (Counter.s_ommers n) end.
Local Instance spine_tree : LegacyTree Z :=
  {| CommitmentTree := @Frontier Z number_spines; from_frontier f := f; to_frontier f := f;
     write_commitment_tree := write_tree; read_commitment_tree := read_tree; frontier_root := spine_root;
     node_write := bytes32_of |}.
Local Instance spine_tree_laws : LegacyLaws Z.
Proof.
  split; [|done|intros n; apply length_replicate]. intros [n|]; [|done].
  cbn [write_commitment_tree read_commitment_tree spine_tree]. unfold write_tree, read_tree.
  destruct (write n) as [|x l] eqn:Hw; [by destruct n|]. rewrite <- Hw.
  pose proof (reads n []) as Hr. rewrite app_nil_r in Hr. by rewrite Hr.
Qed.

Definition cs : list CurrentZainoContext := context <$> whole.
Notation Index := (TreeStateIndex write write read read []).
Notation append := (tree_append first_byte first_byte write write read read []).
Definition states : list TreeStateEntry * TreeStateValue :=
  match series Index append tree_initial_carry (tree_state_context <$> cs) with Ok r => r | Err _ => ([], tree_initial_carry) end.
Lemma states_ok : match series Index append tree_initial_carry (tree_state_context <$> cs) with Ok _ => true | Err _ => false end = true.
Proof. vm_compute. reflexivity. Qed.
Lemma states_series : series Index append tree_initial_carry (tree_state_context <$> cs) = Ok (states.1, states.2).
Proof.
  unfold states. pose proof states_ok as Hok.
  destruct (series Index append tree_initial_carry (tree_state_context <$> cs)) as [[]|]; [reflexivity|discriminate].
Qed.
Definition schedule : PoolActivations := mkActivations (Some 0) (Some 1) None.
Lemma whole_contexts : chain_contexts whole cs.
Proof. split; [repeat constructor|exact whole_heights]. Qed.
Lemma whole_trees : trees_of first_byte first_byte write write read read [] whole cs states.1 states.2 schedule.
Proof.
  split; [exact whole_contexts|exact states_series|..]; intros i ctx Hi Hin;
    (destruct i as [|[|[|[|i]]]]; [injection Hi as <-..|done]); (reflexivity || (cbn in Hin; lia)).
Qed.

Definition tree_rows : list (Z * TreeStateValue) := (fun d => (e_height d, e_value d)) <$> take 2 states.1.
Definition ops : list WriteOp :=
  persisted HeadersIndex headers_ID (header_entries (take 2 cs)) ++ persisted Index tree_state_ID tree_rows.
Definition held : Data := fold_left mem_op ops Kv.new.
Lemma held_abs : data_abs held = store_ops (data_abs Kv.new) ops.
Proof.
  rewrite (commits_abs in_memory data_abs Kv.new [ops] held); [done|]. rewrite mem_commits. unfold held. change (mjoin [ops]) with (ops ++ []). by rewrite app_nil_r.
Qed.
Lemma new_empty ns kb : data_abs Kv.new !! (ns, kb) = None.
Proof. reflexivity. Qed.

Lemma chain_headers_held : holds HeadersIndex headers_wf headers_ID (data_abs held) (header_entries (take 2 cs)).
Proof.
  rewrite held_abs. apply (table_batch HeadersIndex headers_wf headers_ID ltac:(discriminate) _ [] ops).
  - apply table_empty. apply new_empty.
  - exists [], (persisted Index tree_state_ID tree_rows). split_and!; [reflexivity|constructor|].
    by apply foreign_persisted.
  - apply (entries_wf headers_extract header_context headers_schema he_height he_value headers_wf (take 2 cs) (fun _ => eq_refl)); [|exact oks].
    intros c []. cbn. by split_and!.
  - apply (bool_decide_unpack _). vm_compute. exact I.
Qed.
Lemma trees_held :
  holds Index (fun h v => uint 64 h /\ tree_valid sum sum v) tree_state_ID (data_abs held) tree_rows.
Proof.
  pose proof (tree_state_codec_laws sum sum write write read read [] reads reads) as L.
  rewrite held_abs. apply (table_batch Index (fun h v => uint 64 h /\ tree_valid sum sum v) tree_state_ID ltac:(discriminate) _ [] ops).
  - apply table_empty. apply new_empty.
  - exists (persisted HeadersIndex headers_ID (header_entries (take 2 cs))), []. split_and!; [by rewrite app_nil_r| |constructor].
    by apply foreign_persisted.
  - refine (tree_rows_wf sum sum first_byte first_byte write write read read [] _ _ _ _ 2 states_series
      Subtrees.Example.empty_valid _).
    intros i ctx Hi. destruct i as [|[|[|[|i]]]]; [injection Hi as <-; split; [discriminate|reflexivity]..|done].
  - apply (bool_decide_unpack _). vm_compute. exact I.
Qed.
Lemma whole_store : tree_store_of sum sum write write read read [] whole cs states.1 in_memory data_abs held pinned 1.
Proof.
  split; [split; [split; [discriminate|reflexivity]|reflexivity]|].
  exists (mem_reader held). split_and!; [reflexivity..|exact trees_held|exact chain_headers_held].
Qed.
Notation pool_named := (pool_of sum sum first_byte first_byte bytes32_of bytes32_of).
Lemma no_rows ns : ns ∉ [headers_ID; tree_state_ID; VERSION_META] -> table SubtreesIndex subtree_wf ns (data_abs held) [].
Proof.
  rewrite !not_elem_of_cons. intros (H1 & H2 & H3 & _). rewrite held_abs. apply foreign_ops.
  - apply Forall_app. split; by apply foreign_persisted.
  - apply table_empty, new_empty.
Qed.
Lemma whole_subtrees : subtrees_of sum sum first_byte first_byte bytes32_of bytes32_of cs in_memory data_abs held 1.
Proof.
  split; [exists (mem_reader held); split; [reflexivity|intros []; reflexivity]|]. intros pool.
  destruct pool; [exists [6], []|exists [2], []|exists [], []];
    (split_and!; [reflexivity|apply no_rows; apply (bool_decide_unpack _); vm_compute; exact I|]);
    match goal with |- Forall2 _ (seqZ 0 ?n) _ => replace n with 0 by (vm_compute; reflexivity); constructor end.
Qed.

Notation view := (View.view_new (View.store_tier in_memory pinned held) (Head.head_tier Composed.Example.window)).
Notation store_trees := (store_treestates sum sum first_byte first_byte bytes32_of bytes32_of write write read read []
  in_memory held pinned schedule).
Notation window_trees g := (head_treestates sum sum first_byte first_byte bytes32_of bytes32_of g).

(** The last block, from the window folded onto the store's frontier. *)
Lemma local_treestate_exact_witness :
  exists t, treestate_at whole states.1 schedule 3 = Some t /\
    local_treestate view store_trees (window_trees Composed.Example.window) 3 = Some (Ok t).
Proof.
  destruct (local_treestate_exact sum sum first_byte first_byte bytes32_of bytes32_of write write read read [] reads reads
    whole cs states.1 states.2 schedule whole_trees in_memory data_abs held pinned tree Composed.Example.window 1 0 3 3
    whole_store head_whole ltac:(discriminate)) as [Hat _].
  specialize (Hat (Z.le_refl 3)).
  specialize (Hat (or_intror (Z.le_trans 0 1 2 Z.le_0_1 (Z.le_succ_diag_r 1)))).
  destruct Hat as (t & Ht & Hr).
  exists t. split; [exact Ht|]. exact Hr.
Defined.
Lemma local_subtree_roots_exact_witness :
  local_subtree_roots view store_trees (window_trees Composed.Example.window) SaplingShielded 0 (Some 5) = Some (Ok []).
Proof.
  destruct (local_subtree_roots_exact sum sum first_byte first_byte bytes32_of bytes32_of write write read read [] reads reads
    whole cs states.1 states.2 schedule whole_trees in_memory data_abs held pinned tree Composed.Example.window 1 0 3
    SaplingShielded 0 (Some 5) whole_store whole_subtrees head_whole ltac:(discriminate) ltac:(split; [discriminate|reflexivity])
    ltac:(split; [discriminate|reflexivity])) as (xs & rows & _ & Hrows & Hr).
  match type of Hrows with Forall2 _ (seqZ 0 ?n) _ => replace n with 0 in Hrows by (vm_compute; reflexivity) end.
  apply Forall2_nil_inv_l in Hrows as ->. exact Hr.
Defined.

(** A window that begins at the last block, the store at the second. *)
Definition late : MapBackedSnapshot := from_initial_block r3.
Lemma late_head : head_of tree late whole 3 3.
Proof.
  split; [exact tree_is_ok| |vm_compute; reflexivity]. split.
  - apply from_initial_block_ok. is_genuine.
  - exact whole_heights.
  - discriminate.
  - repeat constructor.
  - reflexivity.
  - intros b Hb. assert (best_chain late = [r3]) as E by (vm_compute; reflexivity). rewrite E in Hb.
    apply list_elem_of_singleton in Hb as ->. split_and!; reflexivity.
Qed.
Definition cut : list TreeStateCtx := take 2 (tree_state_context <$> cs) ++ drop 3 (tree_state_context <$> cs).
Definition cut_states : list TreeStateEntry * TreeStateValue :=
  match series Index append tree_initial_carry cut with Ok r => r | Err _ => ([], tree_initial_carry) end.
Lemma cut_ok : match series Index append tree_initial_carry cut with Ok _ => true | Err _ => false end = true.
Proof. vm_compute. reflexivity. Qed.
Lemma cut_series : series Index append tree_initial_carry cut = Ok (cut_states.1, cut_states.2).
Proof.
  unfold cut_states. pose proof cut_ok as Hok.
  destruct (series Index append tree_initial_carry cut) as [[]|]; [reflexivity|discriminate].
Qed.
Lemma window_roots_over_gap_witness :
  exists seed, treestate_at whole states.1 schedule 1 = Some seed /\
    head_window_subtree_roots sum sum first_byte first_byte bytes32_of bytes32_of late (Some seed) SaplingShielded 0 None = Some (Ok []).
Proof.
  destruct (treestate_at_Some first_byte first_byte write write read read [] whole cs states.1 states.2 schedule whole_trees 1)
    as (seed & Hseed & _); [cbn; lia|]. exists seed. split; [exact Hseed|].
  destruct (window_roots_over_gap sum sum first_byte first_byte bytes32_of bytes32_of write write read read []
    whole cs states.1 states.2 schedule whole_trees tree late 3 3 1 seed SaplingShielded 0 None cut_states.1 cut_states.2
    late_head Hseed ltac:(reflexivity) ltac:(split; [discriminate|reflexivity]) I cut_series) as (xs & rows & _ & _ & Hrows & Hr).
  match type of Hrows with Forall2 _ (seqZ _ ?n) _ => replace n with 0 in Hrows by (vm_compute; reflexivity) end.
  apply Forall2_nil_inv_l in Hrows as ->. exact Hr.
Defined.
End Example.
End SubtreeServe.
