(* ===== verification/RunLog.v ===== *)
(** * Run logs of the LMDB backend
    ([packages/zaino-backend-lmdb/src/deferred/{log,manifest}.rs])

    A deferred namespace's writes are kept in a run log, a file of segments: a
    header with the payload's length and checksum, then length-framed records in
    key order.  A cursor streams a segment through a small buffer with positioned
    reads, which may be short.  The file system's answers are a list of outcomes;
    the theorems quantify over it. *)

From S2P Require Import Prelude Types Persistence Codec.
From stdpp Require Import base gmap list strings.
From Stdlib Require Import ZArith Lia.
Open Scope Z_scope.

(** ** Outcomes of calls into the operating system

    A call takes the next outcome; when none is left it succeeds.  [Short n]: a
    positioned read of [n + 1] bytes at most, or a write that stops after [n]. *)
Inductive Outcome := Fine | Fails | Short (n : nat).
Definition next (os : list Outcome) : Outcome * list Outcome :=
  match os with [] => (Fine, []) | o :: os => (o, os) end.

Module RunLog.
Import Kv.
Import Codec.

(** ** [log.rs] *)
Definition MAGIC : list Z := [0x5A; 0x44; 0x53; 0x47].
Definition VERSION : Z := 1.
Definition HEADER_LEN : nat := 4 + 2 + 8 + 8 + 8.
Definition LEN_PREFIX : nat := 4.
Definition FNV_OFFSET : Z := 0xcbf29ce484222325.
Definition FNV_PRIME : Z := 0x00000100000001b3.

(** [Fnv1a::update] *)
Definition update (hash : Z) (bytes : list Z) : Z :=
  fold_left (fun hash byte => wrapping 64 (Z.lxor hash byte * FNV_PRIME)) bytes hash.
Definition fnv1a_64 (bytes : list Z) : Z := update FNV_OFFSET bytes.

Inductive SegmentError :=
| BadMagic (found : list Z)
| BadVersion (found : Z)
| Truncated (need have : Z)
| ChecksumMismatch (expected computed : Z)
| EntryTooLarge (len : Z).

Definition blen_of {A} (l : list A) : Z := Z.of_nat (length l).

(** One key or value: its length and its bytes. *)
Definition framed (bytes : list Z) : result (list Z) SegmentError :=
  let? len := ok_or (try_narrow 32 (blen_of bytes)) (EntryTooLarge (blen_of bytes)) in
  Ok (to_be_bytes 4 len ++ bytes).
Fixpoint encode_payload (entries : list (RawKey * RawValue)) : result (list Z) SegmentError :=
  match entries with
  | [] => Ok []
  | (key, value) :: entries =>
      let? k := framed key in
      let? v := framed value in
      let? rest := encode_payload entries in
      Ok (k ++ v ++ rest)
  end.
(** The entries of the [BTreeMap], in key order. *)
Definition encode_segment (entries : list (RawKey * RawValue)) : result (list Z) SegmentError :=
  let? payload := encode_payload entries in
  let? entry_count := ok_or (try_narrow 64 (blen_of entries)) (EntryTooLarge (blen_of entries)) in
  let? payload_len := ok_or (try_narrow 64 (blen_of payload)) (EntryTooLarge (blen_of payload)) in
  let checksum := fnv1a_64 payload in
  Ok (MAGIC ++ to_be_bytes 2 VERSION ++ to_be_bytes 8 entry_count ++ to_be_bytes 8 payload_len ++
      to_be_bytes 8 checksum ++ payload).

Record SegmentHeader := mkHeader { entry_count : Z; payload_len : Z; checksum : Z }.
Definition total_len (h : SegmentHeader) : Z := saturating_add 64 (payload_len h) (Z.of_nat HEADER_LEN).

Definition slice (bytes : list Z) (from until : nat) : list Z := take (until - from) (drop from bytes).
Definition parse_header (bytes : list Z) : result SegmentHeader SegmentError :=
  if (length bytes <? HEADER_LEN)%nat then Err (Truncated (Z.of_nat HEADER_LEN) (blen_of bytes))
  else
    let magic := slice bytes 0 4 in
    if negb (bool_decide (magic = MAGIC)) then Err (BadMagic magic)
    else
      let version := from_be_bytes (slice bytes 4 6) in
      if negb (version =? VERSION) then Err (BadVersion version)
      else
        Ok (mkHeader (from_be_bytes (slice bytes 6 14)) (from_be_bytes (slice bytes 14 22))
              (from_be_bytes (slice bytes 22 30))).

(** *** [SegmentCursor] *)
Definition READ_BUF_CAP : nat := 8 * 1024.

Record SegmentCursor := mkCursor {
  c_pos : Z; c_end : Z; c_buf : list Z; c_off : nat; c_hasher : Z; c_expected_checksum : Z;
  c_verified : bool; c_current : option (RawKey * RawValue) }.

Definition cursor_new (header : SegmentHeader) (header_offset : Z) : SegmentCursor :=
  let payload_start := saturating_add 64 header_offset (Z.of_nat HEADER_LEN) in
  mkCursor payload_start (saturating_add 64 payload_start (payload_len header)) [] 0 FNV_OFFSET (checksum header)
    false None.

(** [FileExt::read_at] and [read_exact_at] *)
Definition read_at (file : list Z) (want : nat) (pos : Z) (o : Outcome) : option (list Z) :=
  let there := take want (drop (Z.to_nat pos) file) in
  match o with
  | Fine => Some there
  | Fails => None
  | Short n => Some (take (S n) there)
  end.
Definition read_exact_at (file : list Z) (n : nat) (pos : Z) (o : Outcome) : option (list Z) :=
  let there := take n (drop (Z.to_nat pos) file) in
  match o with
  | Fails => None
  | _ => if (length there =? n)%nat then Some there else None
  end.

Section Cursor.
Context (file : list Z).

(** A read of a cursor takes outcomes and returns those left. *)
Definition refill (c : SegmentCursor) (os : list Outcome) : result SegmentCursor SegmentError * list Outcome :=
  let buf := drop (c_off c) (c_buf c) in
  let want := Nat.min (Z.to_nat (c_end c - c_pos c)) READ_BUF_CAP in
  let (o, os) := next os in
  (match read_at file want (c_pos c) o with
   | None => Err (Truncated (Z.of_nat want) 0)
   | Some [] =>
       Ok (mkCursor (c_end c) (c_end c) buf 0 (c_hasher c) (c_expected_checksum c) (c_verified c) (c_current c))
   | Some tmp =>
       Ok (mkCursor (c_pos c + blen_of tmp) (c_end c) (buf ++ tmp) 0 (update (c_hasher c) tmp)
             (c_expected_checksum c) (c_verified c) (c_current c))
   end, os).

(** The loop of [read_exact]; [None] is a loop that does not end. *)
Fixpoint fill (fuel : nat) (n : nat) (c : SegmentCursor) (os : list Outcome)
    : option (result SegmentCursor SegmentError * list Outcome) :=
  if (length (c_buf c) - c_off c <? n)%nat then
    if c_end c <=? c_pos c then
      Some (Err (Truncated (Z.of_nat n) (Z.of_nat (length (c_buf c) - c_off c))), os)
    else
      match fuel with
      | O => None
      | S fuel =>
          match refill c os with
          | (Err x, os) => Some (Err x, os)
          | (Ok c, os) => fill fuel n c os
          end
      end
  else Some (Ok c, os).
Definition read_exact (n : nat) (c : SegmentCursor) (os : list Outcome)
    : option (result (list Z * SegmentCursor) SegmentError * list Outcome) :=
  let! (r, os) := fill (S (Z.to_nat (c_end c - c_pos c))) n c os in
  Some (let? c := r in
        Ok (slice (c_buf c) (c_off c) (c_off c + n),
            mkCursor (c_pos c) (c_end c) (c_buf c) (c_off c + n) (c_hasher c) (c_expected_checksum c) (c_verified c)
              (c_current c)), os).
Definition read_record (c : SegmentCursor) (os : list Outcome)
    : option (result (list Z * SegmentCursor) SegmentError * list Outcome) :=
  let! (r, os) := read_exact LEN_PREFIX c os in
  match r with
  | Err x => Some (Err x, os)
  | Ok (len_bytes, c) => read_exact (Z.to_nat (from_be_bytes len_bytes)) c os
  end.

Definition load (c : SegmentCursor) (os : list Outcome) : option (result SegmentCursor SegmentError * list Outcome) :=
  match c_current c with
  | Some _ => Some (Ok c, os)
  | None =>
      if (c_off c =? length (c_buf c))%nat && (c_end c <=? c_pos c) then
        if c_verified c then Some (Ok c, os)
        else if c_hasher c =? c_expected_checksum c then
          Some (Ok (mkCursor (c_pos c) (c_end c) (c_buf c) (c_off c) (c_hasher c) (c_expected_checksum c) true None), os)
        else Some (Err (ChecksumMismatch (c_expected_checksum c) (c_hasher c)), os)
      else
        let! (r, os) := read_record c os in
        match r with
        | Err x => Some (Err x, os)
        | Ok (key, c) =>
            let! (r, os) := read_record c os in
            match r with
            | Err x => Some (Err x, os)
            | Ok (value, c) =>
                Some (Ok (mkCursor (c_pos c) (c_end c) (c_buf c) (c_off c) (c_hasher c) (c_expected_checksum c)
                            (c_verified c) (Some (key, value))), os)
            end
        end
  end.
(** [peek] leaves the record in place, [take] removes it. *)
Definition peek (c : SegmentCursor) (os : list Outcome)
    : option (result (option (RawKey * RawValue) * SegmentCursor) SegmentError * list Outcome) :=
  let! (r, os) := load c os in
  Some (let? c := r in Ok (c_current c, c), os).
Definition take_record (c : SegmentCursor) (os : list Outcome)
    : option (result (option (RawKey * RawValue) * SegmentCursor) SegmentError * list Outcome) :=
  let! (r, os) := load c os in
  Some (let? c := r in
        Ok (c_current c, mkCursor (c_pos c) (c_end c) (c_buf c) (c_off c) (c_hasher c) (c_expected_checksum c)
                           (c_verified c) None), os).
End Cursor.

(** ** [manifest.rs] *)
Definition MANIFEST_NAMESPACE : string := "_deferred_manifest".
Definition LOADED_THROUGH_SUFFIX : list Z := string_bytes "/loaded_through".

Record RunEntry := mkRunEntry { re_segment_count : Z; re_log_len : Z }.
Definition encode_run_entry (e : RunEntry) : list Z :=
  to_be_bytes 8 (re_segment_count e) ++ to_be_bytes 8 (re_log_len e).
Definition decode_run_entry (bytes : list Z) : option RunEntry :=
  if (length bytes =? 16)%nat then
    Some (mkRunEntry (from_be_bytes (slice bytes 0 8)) (from_be_bytes (slice bytes 8 16)))
  else None.
Definition run_key (ns : string) : RawKey := string_bytes ns.
Definition loaded_through_key (ns : string) : RawKey := string_bytes ns ++ LOADED_THROUGH_SUFFIX.
(** [slice::ends_with] *)
Definition ends_with (key suffix : list Z) : bool := bool_decide (drop (length key - length suffix) key = suffix).
Definition is_run_key (key : RawKey) : bool := negb (ends_with key LOADED_THROUGH_SUFFIX).

(** ** Streaming a segment *)

(** No call fails; reads may be short. *)
Definition calm (os : list Outcome) : Prop := Forall (fun o => o <> Fails) os.
Lemma calm_next os : calm os -> (next os).1 <> Fails /\ calm (next os).2.
Proof. destruct 1; [by split; [|constructor]|done]. Qed.

Lemma update_app h a b : update h (a ++ b) = update (update h a) b.
Proof. apply fold_left_app. Qed.
Lemma update_uint h bytes : uint 64 h -> uint 64 (update h bytes).
Proof.
  revert h. induction bytes as [|x bytes IH]; intros h Hh; [done|]. apply IH. unfold uint, wrapping.
  apply Z.mod_pos_bound. lia.
Qed.
Lemma fnv_uint bytes : uint 64 (fnv1a_64 bytes).
Proof. by apply update_uint. Qed.
Lemma slice_middle a b c : slice (a ++ b ++ c) (length a) (length a + length b) = b.
Proof.
  unfold slice. replace (length a + length b - length a)%nat with (length b) by lia.
  by rewrite drop_app_length, take_app_length.
Qed.
Lemma slice_cut file p q : (p <= q)%nat -> (q <= length file)%nat -> drop p file = slice file p q ++ drop q file.
Proof.
  intros Hp Hq. unfold slice. replace (drop q file) with (drop (q - p) (drop p file)) by (rewrite drop_drop; f_equal; lia).
  by rewrite take_drop.
Qed.

(** What the cursor has not handed out yet. *)
Definition unread (file : list Z) (c : SegmentCursor) : list Z := slice file (Z.to_nat (c_pos c)) (Z.to_nat (c_end c)).
Definition available (c : SegmentCursor) : nat := length (c_buf c) - c_off c.
Record streams (file : list Z) (c : SegmentCursor) (rest : list Z) : Prop := {
  str_off : (c_off c <= length (c_buf c))%nat;
  str_pos : 0 <= c_pos c <= c_end c;
  str_end : c_end c <= blen_of file;
  str_rest : drop (c_off c) (c_buf c) ++ unread file c = rest;
  str_sum : update (c_hasher c) (unread file c) = c_expected_checksum c }.
(** A read leaves the record that was peeked, and whether the sum was compared. *)
Definition same_record (c c' : SegmentCursor) : Prop :=
  c_current c' = c_current c /\ c_verified c' = c_verified c /\ c_end c' = c_end c.

Section Streaming.
Context (file : list Z).

Lemma length_unread c : c_pos c <= c_end c -> 0 <= c_pos c -> c_end c <= blen_of file ->
  length (unread file c) = Z.to_nat (c_end c - c_pos c).
Proof. unfold unread, slice, blen_of. rewrite length_take, length_drop. lia. Qed.

Lemma read_at_calm c o :
  0 <= c_pos c < c_end c -> c_end c <= blen_of file -> o <> Fails ->
  exists x tmp rest, read_at file (Nat.min (Z.to_nat (c_end c - c_pos c)) READ_BUF_CAP) (c_pos c) o = Some (x :: tmp) /\
    unread file c = (x :: tmp) ++ rest /\
    slice file (Z.to_nat (c_pos c + blen_of (x :: tmp))) (Z.to_nat (c_end c)) = rest.
Proof.
  intros Hp He Ho. pose proof (length_unread c ltac:(lia) ltac:(lia) He) as Hl.
  set (want := Nat.min _ _). assert (0 < want <= length (unread file c))%nat as Hw by (unfold want, READ_BUF_CAP; lia).
  assert (exists m, (0 < m <= want)%nat /\ read_at file want (c_pos c) o = Some (take m (unread file c))) as (m & Hm & ->).
  { assert (take want (drop (Z.to_nat (c_pos c)) file) = take want (unread file c)) as Heq.
    { unfold unread, slice. rewrite take_take. f_equal. lia. }
    unfold read_at. rewrite Heq. destruct o as [| |n]; [exists want; split; [lia|done]|done|].
    exists (Nat.min (S n) want). split; [lia|]. by rewrite take_take. }
  destruct (take m (unread file c)) as [|x tmp] eqn:Ht.
  { apply (f_equal length) in Ht. rewrite length_take in Ht. cbn in Ht. lia. }
  exists x, tmp, (drop m (unread file c)). split; [done|]. split; [by rewrite <- Ht, take_drop|].
  assert (blen_of (x :: tmp) = Z.of_nat m) as -> by (rewrite <- Ht; unfold blen_of; rewrite length_take; lia).
  unfold unread, slice. rewrite skipn_firstn_comm, drop_drop. f_equal; [lia|f_equal; lia].
Qed.

Lemma refill_streams c os rest :
  streams file c rest -> c_pos c < c_end c -> calm os ->
  exists c', refill file c os = (Ok c', (next os).2) /\ calm (next os).2 /\ streams file c' rest /\ same_record c c' /\
    c_pos c < c_pos c'.
Proof.
  intros [Ho Hp He Hr Hs] Hlt Hc. destruct (calm_next os Hc) as [Hn Hc'].
  destruct (read_at_calm c (next os).1 ltac:(lia) He Hn) as (x & tmp & u & Hrd & Hu & Hsl).
  unfold refill. destruct (next os) as [o os'] eqn:E. cbn [fst snd] in *. rewrite Hrd. eexists. split; [done|].
  split; [done|]. assert (Z.of_nat (length (unread file c)) = c_end c - c_pos c) as Hlu.
  { rewrite length_unread by lia. lia. }
  assert (blen_of (x :: tmp) <= c_end c - c_pos c) as Hb.
  { rewrite <- Hlu, Hu. unfold blen_of. rewrite length_app. lia. }
  assert (0 < blen_of (x :: tmp)) by (unfold blen_of; cbn; lia).
  split; [|split; [done|cbn [c_pos]; lia]]. split; cbn [c_off c_buf c_pos c_end c_hasher c_expected_checksum].
  - lia.
  - lia.
  - done.
  - rewrite drop_0. unfold unread. cbn [c_pos c_end]. rewrite Hsl, <- app_assoc, <- Hu. done.
  - unfold unread. cbn [c_pos c_end]. by rewrite Hsl, <- update_app, <- Hu.
Qed.

Lemma fill_streams fuel n c os rest :
  streams file c rest -> (n <= length rest)%nat -> calm os -> (Z.to_nat (c_end c - c_pos c) < fuel)%nat ->
  exists c' os', fill file fuel n c os = Some (Ok c', os') /\ calm os' /\ streams file c' rest /\ same_record c c' /\
    (n <= available c')%nat.
Proof.
  revert c os. induction fuel as [|fuel IH]; intros c os Hst Hn Hc Hf; [lia|]. cbn [fill].
  fold (available c). destruct (Nat.ltb_spec (available c) n) as [Hlt|Hge]; [|by exists c, os].
  pose proof Hst as [Ho Hp He Hr _].
  assert (c_pos c < c_end c) as Hpos.
  { destruct (Z.lt_ge_cases (c_pos c) (c_end c)) as [|Hge]; [done|exfalso].
    pose proof (length_unread c ltac:(lia) ltac:(lia) He) as Hl. apply (f_equal length) in Hr.
    rewrite length_app, length_drop in Hr. unfold available in Hlt. lia. }
  rewrite (proj2 (Z.leb_gt _ _) Hpos).
  destruct (refill_streams c os rest Hst Hpos Hc) as (c' & Hrf & Hc' & Hst' & Hs & Hlt'). rewrite Hrf.
  pose proof Hst' as [_ Hp' _ _ _]. destruct Hs as (Hs1 & Hs2 & Hs3).
  destruct (IH c' (next os).2) as (c'' & os' & Hfl & Hcl & Hst'' & (Hs1' & Hs2' & Hs3') & Hav); [done|done|done|lia|].
  exists c'', os'. split_and!; [done|done|done|split_and!; congruence|done].
Qed.

Lemma read_exact_streams n c os rest :
  streams file c rest -> (n <= length rest)%nat -> calm os ->
  exists c' os', read_exact file n c os = Some (Ok (take n rest, c'), os') /\ calm os' /\
    streams file c' (drop n rest) /\ same_record c c'.
Proof.
  intros Hst Hn Hc.
  destruct (fill_streams (S (Z.to_nat (c_end c - c_pos c))) n c os rest Hst Hn Hc ltac:(lia))
    as (c' & os' & Hf & Hc' & [Ho Hp He Hr Hs] & Hsame & Hav).
  unfold read_exact. rewrite Hf. eexists _, os'. unfold available in Hav.
  assert (slice (c_buf c') (c_off c') (c_off c' + n) = take n rest) as ->.
  { unfold slice. replace (c_off c' + n - c_off c')%nat with n by lia.
    rewrite <- Hr, take_app_le by (rewrite length_drop; lia). done. }
  split; [done|]. split; [done|]. split; [|done]. split; cbn [c_off c_buf c_pos c_end c_hasher c_expected_checksum].
  - lia.
  - done.
  - done.
  - rewrite <- Hr, drop_app_le by (rewrite length_drop; lia). by rewrite drop_drop.
  - exact Hs.
Qed.

Lemma framed_Ok bytes f : framed bytes = Ok f -> blen_of bytes < 2 ^ 32 /\ f = to_be_bytes 4 (blen_of bytes) ++ bytes.
Proof.
  unfold framed. destruct (try_narrow 32 (blen_of bytes)) as [l|] eqn:Hl; cbn; [|done].
  apply try_narrow_Some in Hl as [-> Hl]. by intros [= <-].
Qed.
Lemma read_record_streams bytes f c os rest :
  framed bytes = Ok f -> streams file c (f ++ rest) -> calm os ->
  exists c' os', read_record file c os = Some (Ok (bytes, c'), os') /\ calm os' /\ streams file c' rest /\ same_record c c'.
Proof.
  intros (Hl & ->)%framed_Ok Hst Hc. rewrite <- app_assoc in Hst. unfold read_record, LEN_PREFIX.
  assert (length (to_be_bytes 4 (blen_of bytes)) = 4%nat) as H4 by apply length_to_be_bytes.
  destruct (read_exact_streams 4 c os _ Hst) as (c1 & os1 & Hr1 & Hc1 & Hst1 & Hs1); [rewrite length_app; lia|done|].
  rewrite Hr1. rewrite take_app_le, take_ge by lia. rewrite from_to_be_bytes by (unfold uint, blen_of in *; lia).
  rewrite drop_app_le, drop_ge in Hst1 by lia. cbn [app] in Hst1.
  replace (Z.to_nat (blen_of bytes)) with (length bytes) by (unfold blen_of; lia).
  destruct (read_exact_streams (length bytes) c1 os1 _ Hst1) as (c2 & os2 & Hr2 & Hc2 & Hst2 & Hs2);
    [rewrite length_app; lia|done|].
  rewrite Hr2, take_app_length. rewrite drop_app_length in Hst2. exists c2, os2. split_and!; try done.
  destruct Hs1 as (? & ? & ?), Hs2 as (? & ? & ?). split_and!; congruence.
Qed.

(** The cursor yields these records, then ends. *)
Definition cursor_reads (c : SegmentCursor) (es : list (RawKey * RawValue)) : Prop :=
  match c_current c with
  | Some e => exists es', es = e :: es' /\ exists rest, encode_payload es' = Ok rest /\ streams file c rest
  | None => exists rest, encode_payload es = Ok rest /\ streams file c rest
  end.

Lemma encode_payload_cons key value es p :
  encode_payload ((key, value) :: es) = Ok p ->
  exists k v rest, framed key = Ok k /\ framed value = Ok v /\ encode_payload es = Ok rest /\ p = k ++ v ++ rest.
Proof.
  cbn [encode_payload]. destruct (framed key) as [k|], (framed value) as [v|], (encode_payload es) as [rest|]; try done.
  intros [= <-]. by exists k, v, rest.
Qed.
Lemma streams_set c rest verified current :
  streams file c rest ->
  streams file (mkCursor (c_pos c) (c_end c) (c_buf c) (c_off c) (c_hasher c) (c_expected_checksum c) verified current) rest.
Proof. by intros [????]; split. Qed.

Lemma load_reads c os es :
  cursor_reads c es -> calm os ->
  exists c' os', load file c os = Some (Ok c', os') /\ calm os' /\ cursor_reads c' es /\ c_current c' = head es.
Proof.
  unfold cursor_reads at 1, load. intros Hr Hc. destruct (c_current c) as [e|] eqn:Hcur.
  { destruct Hr as (es' & -> & rest & Hp & Hst). exists c, os. split_and!; try done.
    unfold cursor_reads. rewrite Hcur. eauto. }
  destruct Hr as (rest & Hp & Hst). pose proof Hst as [Ho Hpos He Hrest Hsum].
  pose proof (length_unread c ltac:(lia) ltac:(lia) He) as Hlu.
  pose proof (f_equal length Hrest) as Hlr. rewrite length_app, length_drop in Hlr.
  destruct es as [|[key value] es].
  - cbn in Hp. injection Hp as <-. cbn in Hlr.
    assert ((c_off c =? length (c_buf c))%nat = true) as -> by (apply Nat.eqb_eq; lia).
    assert ((c_end c <=? c_pos c) = true) as -> by (apply Z.leb_le; lia).
    cbn [andb]. assert (cursor_reads (mkCursor (c_pos c) (c_end c) (c_buf c) (c_off c) (c_hasher c) (c_expected_checksum c)
                          true None) []) as Hfin.
    { exists []. split; [done|]. by apply streams_set. }
    destruct (c_verified c) eqn:Hv.
    + exists c, os. split_and!; try done. unfold cursor_reads. rewrite Hcur. by exists [].
    + assert (unread file c = []) as Hnil by (apply nil_length_inv; lia). rewrite Hnil in Hsum. cbn in Hsum.
      rewrite Hsum, Z.eqb_refl. eexists _, os. by rewrite Hsum in Hfin.
  - apply encode_payload_cons in Hp as (k & v & p & Hk & Hv & Hp & ->).
    assert (0 < length (k ++ v ++ p))%nat as Hpl.
    { apply framed_Ok in Hk as [_ ->]. rewrite !length_app, length_to_be_bytes. lia. }
    replace ((c_off c =? length (c_buf c))%nat && (c_end c <=? c_pos c)) with false.
    2: { symmetry. apply andb_false_iff. destruct (Z.leb_spec (c_end c) (c_pos c)); [left|by right].
         apply Nat.eqb_neq. lia. }
    destruct (read_record_streams key k c os _ Hk Hst Hc) as (c1 & os1 & -> & Hc1 & Hst1 & Hs1).
    destruct (read_record_streams value v c1 os1 _ Hv Hst1 Hc1) as (c2 & os2 & -> & Hc2 & Hst2 & Hs2).
    eexists _, os2. split_and!; try done. cbn. exists es. split; [done|]. exists p. split; [done|]. by apply streams_set.
Qed.
Lemma peek_reads c os es :
  cursor_reads c es -> calm os ->
  exists c' os', peek file c os = Some (Ok (head es, c'), os') /\ calm os' /\ cursor_reads c' es.
Proof.
  intros Hr Hc. destruct (load_reads c os es Hr Hc) as (c' & os' & Hl & Hc' & Hr' & Hcur). exists c', os'.
  unfold peek. rewrite Hl, Hcur. done.
Qed.
Lemma take_reads c os es :
  cursor_reads c es -> calm os ->
  exists c' os', take_record file c os = Some (Ok (head es, c'), os') /\ calm os' /\ cursor_reads c' (tail es).
Proof.
  intros Hr Hc. destruct (load_reads c os es Hr Hc) as (c' & os' & Hl & Hc' & Hr' & Hcur). eexists _, os'.
  unfold take_record. rewrite Hl, Hcur. split; [done|]. split; [done|]. unfold cursor_reads in Hr' |- *. cbn [c_current].
  rewrite Hcur in Hr'. destruct es as [|e es]; cbn in *.
  - destruct Hr' as (rest & Hp & Hst). exists rest. split; [done|]. by apply streams_set.
  - destruct Hr' as (es' & [= <-] & rest & Hp & Hst). exists rest. split; [done|]. by apply streams_set.
Qed.
End Streaming.

(** *** A segment in a log *)
Lemma encode_segment_Ok es seg :
  encode_segment es = Ok seg -> exists payload, encode_payload es = Ok payload /\ blen_of es < 2 ^ 64 /\ blen_of payload < 2 ^ 64 /\
    seg = MAGIC ++ to_be_bytes 2 VERSION ++ to_be_bytes 8 (blen_of es) ++ to_be_bytes 8 (blen_of payload) ++
          to_be_bytes 8 (fnv1a_64 payload) ++ payload.
Proof.
  unfold encode_segment. destruct (encode_payload es) as [p|]; [|done].
  destruct (try_narrow 64 (blen_of es)) as [n|] eqn:Hn; [|done]. destruct (try_narrow 64 (blen_of p)) as [m|] eqn:Hm; [|done].
  apply try_narrow_Some in Hn as [-> ?], Hm as [-> ?]. cbn. intros [= <-]. by exists p.
Qed.
Lemma length_segment es seg payload :
  encode_segment es = Ok seg -> encode_payload es = Ok payload -> length seg = (HEADER_LEN + length payload)%nat.
Proof.
  intros (p & Hp & _ & _ & ->)%encode_segment_Ok Hp'. rewrite Hp in Hp'. injection Hp' as <-.
  by rewrite !length_app, !length_to_be_bytes.
Qed.
(** The fields of a header, one after the other. *)
Lemma header_fields n p c rest :
  uint 64 n -> uint 64 p -> uint 64 c ->
  parse_header (take HEADER_LEN (MAGIC ++ to_be_bytes 2 VERSION ++ to_be_bytes 8 n ++ to_be_bytes 8 p ++ to_be_bytes 8 c ++ rest)) =
  Ok (mkHeader n p c).
Proof.
  intros Hn Hp Hc.
  assert (take HEADER_LEN (MAGIC ++ to_be_bytes 2 VERSION ++ to_be_bytes 8 n ++ to_be_bytes 8 p ++ to_be_bytes 8 c ++ rest) =
          MAGIC ++ to_be_bytes 2 VERSION ++ to_be_bytes 8 n ++ to_be_bytes 8 p ++ to_be_bytes 8 c) as ->.
  { rewrite !app_assoc. apply take_app_length'. by rewrite !length_app, !length_to_be_bytes. }
  set (a := to_be_bytes 8 n). set (b := to_be_bytes 8 p). set (d := to_be_bytes 8 c).
  assert (length a = 8 /\ length b = 8 /\ length d = 8)%nat as (La & Lb & Ld) by (unfold a, b, d; rewrite !length_to_be_bytes; done).
  set (l := MAGIC ++ _). assert (length l = 30%nat) as Hl by (unfold l; rewrite !length_app, length_to_be_bytes, La, Lb, Ld; done).
  unfold parse_header. rewrite Hl. cbn [Nat.ltb Nat.leb HEADER_LEN Nat.add].
  assert (forall x y z i j, l = x ++ y ++ z -> length x = i -> j = (i + length y)%nat -> slice l i j = y) as Hs.
  { intros x y z i j -> <- ->. apply slice_middle. }
  rewrite (Hs [] MAGIC (to_be_bytes 2 VERSION ++ a ++ b ++ d) 0%nat 4%nat) by done.
  rewrite (Hs MAGIC (to_be_bytes 2 VERSION) (a ++ b ++ d) 4%nat 6%nat) by done.
  rewrite (Hs (MAGIC ++ to_be_bytes 2 VERSION) a (b ++ d) 6%nat 14%nat) by (rewrite ?La; done).
  rewrite (Hs (MAGIC ++ to_be_bytes 2 VERSION ++ a) b d 14%nat 22%nat)
    by (try (unfold l; rewrite <- ?app_assoc; done); rewrite ?length_app, ?La, ?Lb; done).
  rewrite (Hs (MAGIC ++ to_be_bytes 2 VERSION ++ a ++ b) d [] 22%nat 30%nat)
    by (try (unfold l; rewrite <- ?app_assoc, ?app_nil_r; done); rewrite ?length_app, ?La, ?Lb, ?Ld; done).
  cbn -[a b d]. unfold a, b, d. by rewrite !from_to_be_bytes.
Qed.

Lemma segment_opened file pre es seg post :
  encode_segment es = Ok seg -> file = pre ++ seg ++ post -> blen_of file < 2 ^ 64 ->
  exists h, parse_header (take HEADER_LEN (drop (length pre) file)) = Ok h /\ total_len h = blen_of seg /\
    cursor_reads file (cursor_new h (blen_of pre)) es.
Proof.
  intros Hseg -> Hlen. pose proof (encode_segment_Ok es seg Hseg) as (p & Hp & He & Hpl & Heq).
  pose proof (length_segment es seg p Hseg Hp) as Hls.
  assert (blen_of (pre ++ seg ++ post) = blen_of pre + Z.of_nat HEADER_LEN + blen_of p + blen_of post) as Htot.
  { unfold blen_of. rewrite !length_app, Hls. lia. }
  assert (0 <= blen_of pre /\ 0 <= blen_of p /\ 0 <= blen_of post /\ 0 <= blen_of es) as (? & ? & ? & ?) by (unfold blen_of; lia).
  exists (mkHeader (blen_of es) (blen_of p) (fnv1a_64 p)). rewrite drop_app_length. split_and!.
  - rewrite Heq, <- !app_assoc. apply header_fields; [unfold uint; lia|unfold uint; lia|apply fnv_uint].
  - unfold total_len, saturating_add, umax. cbn [payload_len]. unfold blen_of at 2. rewrite Hls. unfold blen_of in *. lia.
  - unfold cursor_reads, cursor_new, saturating_add, umax. cbn [payload_len checksum c_current]. exists p. split; [done|].
    rewrite !Z.min_r by lia.
    assert (slice (pre ++ seg ++ post) (Z.to_nat (blen_of pre + Z.of_nat HEADER_LEN))
              (Z.to_nat (blen_of pre + Z.of_nat HEADER_LEN + blen_of p)) = p) as Hsl.
    { rewrite Heq. rewrite !app_assoc, <- (app_assoc _ p post). rewrite <- !app_assoc, !(app_assoc pre).
      rewrite !app_assoc. rewrite <- (app_assoc _ p post).
      set (hd := ((((pre ++ MAGIC) ++ _) ++ _) ++ _) ++ _).
      assert (length hd = Z.to_nat (blen_of pre + Z.of_nat HEADER_LEN)) as <-.
      { unfold hd, blen_of. rewrite !length_app, !length_to_be_bytes. unfold HEADER_LEN. cbn [length MAGIC]. lia. }
      replace (Z.to_nat (blen_of pre + Z.of_nat HEADER_LEN + blen_of p)) with (length hd + length p)%nat.
      2: { unfold hd, blen_of. rewrite !length_app, !length_to_be_bytes. unfold HEADER_LEN. cbn [length MAGIC]. lia. }
      apply slice_middle. }
    split; cbn [c_off c_buf c_pos c_end c_hasher c_expected_checksum]; unfold unread; cbn [c_pos c_end].
    + cbn. lia.
    + lia.
    + rewrite Htot. lia.
    + by rewrite Hsl.
    + by rewrite Hsl.
Qed.

(** Taking records until there is none. *)
Fixpoint stream (fuel : nat) (file : list Z) (c : SegmentCursor) (os : list Outcome)
    : option (result (list (RawKey * RawValue)) SegmentError) :=
  match fuel with
  | O => None
  | S fuel =>
      let! (r, os) := take_record file c os in
      match r with
      | Err x => Some (Err x)
      | Ok (None, _) => Some (Ok [])
      | Ok (Some e, c) => let! rest := stream fuel file c os in Some (let? es := rest in Ok (e :: es))
      end
  end.
Lemma stream_reads file es c os fuel :
  cursor_reads file c es -> calm os -> (length es < fuel)%nat -> stream fuel file c os = Some (Ok es).
Proof.
  revert c os fuel. induction es as [|e es IH]; intros c os [|fuel] Hr Hc Hf; try (cbn in Hf; lia); cbn [stream].
  - by destruct (take_reads file c os [] Hr Hc) as (c' & os' & -> & _).
  - destruct (take_reads file c os (e :: es) Hr Hc) as (c' & os' & -> & Hc' & Hr'). cbn [head].
    rewrite (IH c' os' fuel Hr' Hc') by (cbn in Hf; lia). done.
Qed.

(** C30: a segment streams back.  Wherever a segment lies in a run log, its header
    parses and gives its length, and a cursor opened there yields exactly the
    records that were encoded, in their order, and then ends with the checksum
    matched, however short the positioned reads are and however records straddle
    the buffer; the loops that fill the buffer end. *)
Theorem segment_streams es seg pre post os :
  encode_segment es = Ok seg -> blen_of (pre ++ seg ++ post) < 2 ^ 64 -> calm os ->
  exists h, parse_header (take HEADER_LEN (drop (length pre) (pre ++ seg ++ post))) = Ok h /\ total_len h = blen_of seg /\
    stream (S (length es)) (pre ++ seg ++ post) (cursor_new h (blen_of pre)) os = Some (Ok es).
Proof.
  intros Hs Hl Hc. destruct (segment_opened (pre ++ seg ++ post) pre es seg post Hs eq_refl Hl) as (h & Hh & Ht & Hr).
  exists h. split_and!; [done|done|]. by apply stream_reads; [| |lia].
Qed.

Module Example.
Definition entries : list (RawKey * RawValue) := [([1], [10; 11]); ([2; 0], []); ([2; 5], [7])].
Definition segment : list Z := match encode_segment entries with Ok seg => seg | Err _ => [] end.
Lemma segment_streams_witness :
  exists h, parse_header (take HEADER_LEN (drop 3 ([9; 9; 9] ++ segment ++ [8]))) = Ok h /\ total_len h = blen_of segment /\
    stream 4 ([9; 9; 9] ++ segment ++ [8]) (cursor_new h 3) [Short 0; Short 2; Fine; Short 1] = Some (Ok entries).
Proof.
  apply (segment_streams entries segment [9; 9; 9] [8] [Short 0; Short 2; Fine; Short 1]).
  - vm_compute. reflexivity.
  - vm_compute. reflexivity.
  - repeat constructor; discriminate.
Defined.
End Example.
End RunLog.
