(* ===== verification/Lmdb.v ===== *)
(** * The LMDB backend
    ([packages/zaino-backend-lmdb/src/lib.rs], [deferred.rs], [deferred/merge.rs])

    One LMDB database per namespace, atomic commits.  During a bulk load the puts
    of hash-keyed namespaces go to run logs ([RunLog]); the manifest, written in
    the transaction of the batch, says how much of each log is committed, and
    [finish_bulk] merges the logs into the trees in one ordered pass that can be
    resumed.

    LMDB is another crate: the class [LmdbLib] holds its calls, [LmdbSpec] what it
    documents of them.  Files are
    byte lists by name; every call into the operating system takes an [Outcome]. *)

From S2P Require Import Prelude Types Persistence Codec RunLog.
From stdpp Require Import base gmap list strings sets sorting.
From Stdlib Require Import ZArith Lia.
Open Scope Z_scope.

Inductive LmdbError := NotFound | KeyExist | MapFull | OtherError (code : Z).
Inductive CursorOp := MDB_FIRST | MDB_LAST | MDB_NEXT | MDB_SET_RANGE (key : list Z).

(** ** The library

    A database is named.  A failed call leaves a transaction or an environment as
    it was, the caller keeping the value it had. *)
Class LmdbLib := {
  Env : Type; RwTxn : Type; RoTxn : Type; LmdbCursor : Type;
  open_db : Env -> string -> result unit LmdbError;
  create_db : Env -> string -> result Env LmdbError;
  begin_rw_txn : Env -> result RwTxn LmdbError;
  txn_put : RwTxn -> string -> list Z -> list Z -> bool -> result RwTxn LmdbError;
  txn_del : RwTxn -> string -> list Z -> result RwTxn LmdbError;
  txn_commit : Env -> RwTxn -> result Env LmdbError;
  begin_ro_txn : Env -> result RoTxn LmdbError;
  txn_get : RoTxn -> string -> list Z -> result (list Z) LmdbError;
  open_ro_cursor : RoTxn -> string -> result LmdbCursor LmdbError;
  cursor_get : LmdbCursor -> CursorOp -> result (option (list Z) * list Z) LmdbError * LmdbCursor;
  cursor_iter : LmdbCursor -> list (list Z * list Z);
  env_sync : Env -> result Env LmdbError }.

Module Lmdb.
Import Bytes.
Import Kv.
Import Codec.
Import RunLog.

(** ** Errors of the port ([zaino-persistence/src/error.rs]) *)
Inductive CommitError :=
| NamespaceNotFound (namespace : string)
| OutOfSpace
| OutOfOrderAppend (namespace : string)
| DeferredNamespaceDelete (namespace : string)
| DeferredLogCorrupt (namespace : string)
| WriteFailed (operation : string).
Inductive OpenError := Unavailable (operation : string).

Definition commit_error (operation : string) (error : LmdbError) : CommitError :=
  match error with MapFull => OutOfSpace | _ => WriteFailed operation end.

(** ** State *)
Record RunLog := mkRunLog { rl_segment_count : Z; rl_len : Z }.
Record State := mkState {
  active : bool; st_enabled : bool; deferrable : gset string; runs : gmap string RunLog }.

(** A [BTreeMap] from keys to values: its entries in key order. *)
Fixpoint bt_insert (key : RawKey) (value : RawValue) (m : list (RawKey * RawValue)) : list (RawKey * RawValue) :=
  match m with
  | [] => [(key, value)]
  | (k, v) :: rest =>
      match bytes_compare key k with
      | Lt => (key, value) :: m
      | Eq => (key, value) :: rest
      | Gt => (k, v) :: bt_insert key value rest
      end
  end.

(** [BinaryHeap<Reverse<(RawKey, usize)>>]: its elements, the least first. *)
Notation Heap := (list (RawKey * nat)).
Fixpoint push (key : RawKey) (seg : nat) (heap : Heap) : Heap :=
  match heap with
  | [] => [(key, seg)]
  | (k, s) :: rest =>
      match bytes_compare key k with
      | Lt => (key, seg) :: heap
      | Eq => if (seg <=? s)%nat then (key, seg) :: heap else (k, s) :: push key seg rest
      | Gt => (k, s) :: push key seg rest
      end
  end.

(** [<dir>/<ns>.log], by file name; [Path::extension] and [file_stem]. *)
Definition log_path (ns : string) : string := ns +:+ ".log".
Fixpoint rsplit_dot (s : string) : option (string * string) :=
  match s with
  | EmptyString => None
  | String c s =>
      match rsplit_dot s with
      | Some (before, after) => Some (String c before, after)
      | None => if Ascii.eqb c (Ascii.ascii_of_nat 46) then Some (EmptyString, s) else None
      end
  end.
Definition extension (name : string) : option string :=
  match rsplit_dot name with
  | Some (EmptyString, _) | None => None
  | Some (_, after) => Some after
  end.
Definition file_stem (name : string) : string :=
  match rsplit_dot name with
  | Some (EmptyString, _) | None => name
  | Some (before, _) => before
  end.
(** [File::set_len] *)
Definition set_len (bytes : list Z) (n : nat) : list Z := take n bytes ++ replicate (n - length bytes) 0.

Section Backend.
Context `{!LmdbLib} `{HashIter}.

Record LmdbBackend := mkLmdb {
  env : Env; dbs : gset string; key_orders : gmap string KeyOrder;
  files : gmap string (list Z); outcomes : list Outcome; state : State }.
Definition with_env (b : LmdbBackend) (e : Env) : LmdbBackend :=
  mkLmdb e (dbs b) (key_orders b) (files b) (outcomes b) (state b).
Definition with_files (b : LmdbBackend) (f : gmap string (list Z)) : LmdbBackend :=
  mkLmdb (env b) (dbs b) (key_orders b) f (outcomes b) (state b).
Definition with_outcomes (b : LmdbBackend) (os : list Outcome) : LmdbBackend :=
  mkLmdb (env b) (dbs b) (key_orders b) (files b) os (state b).
Definition with_state (b : LmdbBackend) (s : State) : LmdbBackend :=
  mkLmdb (env b) (dbs b) (key_orders b) (files b) (outcomes b) s.

(** *** Effects: state, errors, and panics as [None] *)
Definition M (E A : Type) : Type := LmdbBackend -> option (LmdbBackend * result A E).
Definition ret {E A} (a : A) : M E A := fun b => Some (b, Ok a).
Definition fail {E A} (x : E) : M E A := fun b => Some (b, Err x).
Definition panic {E A} : M E A := fun b => None.
Definition bind {E A B} (m : M E A) (k : A -> M E B) : M E B := fun b =>
  match m b with
  | None => None
  | Some (b, Err x) => Some (b, Err x)
  | Some (b, Ok a) => k a b
  end.
Local Notation "'let*' x ':=' m 'in' k" := (bind m (fun x => k))
  (at level 10, x pattern, m at level 200, k at level 200).
Definition gets {E A} (f : LmdbBackend -> A) : M E A := fun b => Some (b, Ok (f b)).
Definition put_state {E} (s : State) : M E unit := fun b => Some (with_state b s, Ok tt).
Definition put_files {E} (f : gmap string (list Z)) : M E unit := fun b => Some (with_files b f, Ok tt).
Definition put_env {E} (e : Env) : M E unit := fun b => Some (with_env b e, Ok tt).
Definition lift {E A} (r : result A E) : M E A := fun b => Some (b, r).
Definition expect {E A} (o : option A) : M E A := fun b => match o with Some a => Some (b, Ok a) | None => None end.
(** The next outcome. *)
Definition call {E} : M E Outcome := fun b =>
  let (o, os) := next (outcomes b) in Some (with_outcomes b os, Ok o).
Definition io {E} (x : E) : M E unit := let* o := call in match o with Fails => fail x | _ => ret tt end.
Definition lmdb {A} (operation : string) (r : result A LmdbError) : M CommitError A :=
  lift (map_err (commit_error operation) r).
Definition resolve_db (ns : string) : M CommitError unit :=
  let* dbs := gets dbs in if bool_decide (ns ∈ dbs) then ret tt else fail (NamespaceNotFound ns).

(** ** Routing a commit ([deferred.rs]) *)
Definition is_deferred (ns : string) (s : State) (key_orders : gmap string KeyOrder) : bool :=
  if bool_decide (is_Some (runs s !! ns)) then true
  else active s && st_enabled s &&
       match key_orders !! ns with Some Scattered => true | _ => false end &&
       bool_decide (ns ∈ deferrable s).

Inductive SegmentAction :=
| Existing (ns : string) (old_len new_len new_segments : Z)
| New (ns : string) (new_len : Z).
Definition manifest_entry (a : SegmentAction) : RunEntry :=
  match a with
  | Existing _ _ new_len new_segments => mkRunEntry new_segments new_len
  | New _ new_len => mkRunEntry 1 new_len
  end.

(** [write_all] then [sync_data] *)
Definition append_segment (ns : string) (segment : list Z) : M CommitError unit :=
  let* o := call in
  let* fs := gets files in
  let file := default [] (fs !! log_path ns) in
  match o with
  | Fails => fail (WriteFailed "append deferred segment")
  | Short n =>
      let* _ := put_files (<[log_path ns := file ++ take n segment]> fs) in fail (WriteFailed "append deferred segment")
  | Fine =>
      let* _ := put_files (<[log_path ns := file ++ segment]> fs) in io (WriteFailed "fsync deferred log")
  end.
Definition fsync_dir (operation : string) : M CommitError unit :=
  let* _ := io (WriteFailed operation) in io (WriteFailed operation).
Definition create_run_log (ns : string) : M CommitError unit :=
  let* _ := io (WriteFailed "create deferred directory") in
  let* _ := fsync_dir "fsync deferred parent directory" in
  let* _ := io (WriteFailed "create run log") in
  let* fs := gets files in
  let* _ := match fs !! log_path ns with Some _ => ret tt | None => put_files (<[log_path ns := []]> fs) end in
  fsync_dir "fsync deferred directory".

(** [prepare]: its two loops. *)
Fixpoint partition_ops (s : State) (key_orders : gmap string KeyOrder) (ops : list WriteOp)
    (direct : list WriteOp) (deferred : gmap string (list (RawKey * RawValue)))
    : result (list WriteOp * gmap string (list (RawKey * RawValue))) CommitError :=
  match ops with
  | [] => Ok (direct, deferred)
  | op :: ops =>
      match op with
      | Put ns key value =>
          if is_deferred ns s key_orders then
            partition_ops s key_orders ops direct
              (<[ns := bt_insert key value (default [] (deferred !! ns))]> deferred)
          else partition_ops s key_orders ops (direct ++ [op]) deferred
      | Delete ns key =>
          if is_deferred ns s key_orders then Err (DeferredNamespaceDelete ns)
          else partition_ops s key_orders ops (direct ++ [op]) deferred
      end
  end.
Definition append_run (ns : string) (entries : list (RawKey * RawValue)) : M CommitError SegmentAction :=
  let* segment := lift (map_err (fun _ => WriteFailed "encode deferred segment") (encode_segment entries)) in
  let* segment_len := expect (try_narrow 64 (blen_of segment)) in
  let* s := gets state in
  match runs s !! ns with
  | Some run =>
      let old_len := rl_len run in
      let* _ := append_segment ns segment in
      let* new_len := expect (checked_add 64 old_len segment_len) in
      let* new_segments := expect (checked_add 64 (rl_segment_count run) 1) in
      ret (Existing ns old_len new_len new_segments)
  | None =>
      let* _ := create_run_log ns in
      let* _ := append_segment ns segment in
      ret (New ns segment_len)
  end.
Fixpoint append_runs (deferred : list (string * list (RawKey * RawValue))) (direct : list WriteOp)
    (actions : list SegmentAction) : M CommitError (list WriteOp * list SegmentAction) :=
  match deferred with
  | [] => ret (direct, actions)
  | (ns, entries) :: deferred =>
      let* action := append_run ns entries in
      append_runs deferred
        (direct ++ [Put MANIFEST_NAMESPACE (run_key ns) (encode_run_entry (manifest_entry action))])
        (actions ++ [action])
  end.
Definition prepare (ops : list WriteOp) : M CommitError (list WriteOp * list SegmentAction) :=
  let* s := gets state in
  let* key_orders := gets key_orders in
  let* (direct, deferred) := lift (partition_ops s key_orders ops [] ∅) in
  append_runs (hiter deferred) direct [].

Definition commit_action (s : State) (a : SegmentAction) : State :=
  match a with
  | Existing ns _ new_len new_segments =>
      match runs s !! ns with
      | Some _ => mkState (active s) (st_enabled s) (deferrable s) (<[ns := mkRunLog new_segments new_len]> (runs s))
      | None => s
      end
  | New ns new_len =>
      mkState (active s) (st_enabled s) (deferrable s) (<[ns := mkRunLog 1 new_len]> (runs s))
  end.
Definition finalize_committed (actions : list SegmentAction) : M CommitError unit :=
  let* s := gets state in put_state (fold_left commit_action actions s).
(** A failure of either call is ignored. *)
Definition remove_file {E} (name : string) : M E unit :=
  let* o := call in
  match o with Fails => ret tt | _ => let* fs := gets files in put_files (delete name fs) end.
Fixpoint finalize_aborted (actions : list SegmentAction) : M CommitError unit :=
  match actions with
  | [] => ret tt
  | Existing ns old_len _ _ :: actions =>
      let* s := gets state in
      let* _ := match runs s !! ns with
                | Some _ =>
                    let* o := call in
                    let* fs := gets files in
                    match o with
                    | Fails => ret tt
                    | _ => put_files (alter (fun bytes => set_len bytes (Z.to_nat old_len)) (log_path ns) fs)
                    end
                | None => ret tt
                end in
      finalize_aborted actions
  | New ns _ :: actions => let* _ := remove_file (log_path ns) in finalize_aborted actions
  end.

(** ** The transaction of a commit ([lib.rs]) *)
Definition op_namespace (op : WriteOp) : string := match op with Put ns _ _ | Delete ns _ => ns end.
Definition op_key (op : WriteOp) : RawKey := match op with Put _ key _ | Delete _ key => key end.
Definition is_put (op : WriteOp) : bool := match op with Put _ _ _ => true | Delete _ _ => false end.

(** [del] of an absent key is done already. *)
Definition del_present (operation : string) (txn : RwTxn) (db : string) (key : RawKey) : M CommitError RwTxn :=
  match txn_del txn db key with
  | Ok txn => ret txn
  | Err NotFound => ret txn
  | Err e => fail (commit_error operation e)
  end.
Definition apply_plain (txn : RwTxn) (op : WriteOp) : M CommitError RwTxn :=
  match op with
  | Put ns key value => let* _ := resolve_db ns in lmdb "put" (txn_put txn ns key value false)
  | Delete ns key => let* _ := resolve_db ns in del_present "delete" txn ns key
  end.
Fixpoint apply_plains (txn : RwTxn) (ops : list WriteOp) : M CommitError RwTxn :=
  match ops with
  | [] => ret txn
  | op :: ops => let* txn := apply_plain txn op in apply_plains txn ops
  end.
Fixpoint deletes_first (ns : string) (txn : RwTxn) (ops : list WriteOp) (puts : list (RawKey * RawValue))
    : M CommitError (RwTxn * list (RawKey * RawValue)) :=
  match ops with
  | [] => ret (txn, puts)
  | Delete _ key :: ops => let* txn := del_present "delete" txn ns key in deletes_first ns txn ops puts
  | Put _ key value :: ops => deletes_first ns txn ops (bt_insert key value puts)
  end.
Fixpoint append_puts (ns : string) (txn : RwTxn) (puts : list (RawKey * RawValue)) : M CommitError RwTxn :=
  match puts with
  | [] => ret txn
  | (key, value) :: puts =>
      match txn_put txn ns key value true with
      | Ok txn => append_puts ns txn puts
      | Err KeyExist => fail (OutOfOrderAppend ns)
      | Err e => fail (commit_error "put" e)
      end
  end.
Definition conflict (ops : list WriteOp) : bool :=
  let deleted := op_key <$> List.filter (fun op => negb (is_put op)) ops in
  existsb (fun op => is_put op && bool_decide (op_key op ∈ deleted)) ops.
Definition apply_walk_ordered (txn : RwTxn) (ns : string) (ops : list WriteOp) : M CommitError RwTxn :=
  if conflict ops then apply_plains txn ops
  else
    let* (txn, puts) := deletes_first ns txn ops [] in
    append_puts ns txn puts.

Fixpoint apply_direct (key_orders : gmap string KeyOrder) (txn : RwTxn) (direct : list WriteOp)
    (walk : gmap string (list WriteOp)) : M CommitError (RwTxn * gmap string (list WriteOp)) :=
  match direct with
  | [] => ret (txn, walk)
  | op :: direct =>
      let ns := op_namespace op in
      match key_orders !! ns with
      | Some WalkOrdered =>
          apply_direct key_orders txn direct (<[ns := default [] (walk !! ns) ++ [op]]> walk)
      | _ => let* txn := apply_plain txn op in apply_direct key_orders txn direct walk
      end
  end.
Fixpoint apply_walks (txn : RwTxn) (walk : list (string * list WriteOp)) : M CommitError RwTxn :=
  match walk with
  | [] => ret txn
  | (ns, ops) :: walk =>
      let* _ := resolve_db ns in
      let* txn := apply_walk_ordered txn ns ops in
      apply_walks txn walk
  end.
Definition commit_txn (operation : string) (txn : RwTxn) : M CommitError unit :=
  let* e := gets env in
  let* e := lmdb operation (txn_commit e txn) in
  put_env e.
Definition commit_direct (direct : list WriteOp) : M CommitError unit :=
  let* e := gets env in
  let* key_orders := gets key_orders in
  let* txn := lmdb "begin rw txn" (begin_rw_txn e) in
  let* (txn, walk) := apply_direct key_orders txn direct ∅ in
  let* txn := apply_walks txn (hiter walk) in
  commit_txn "commit" txn.
(** [BackendWriter::commit]: [prepare]'s error returns at once, the transaction's
    is returned after the logs are rolled back. *)
Definition commit (ops : list WriteOp) : M CommitError unit :=
  let* (direct, actions) := prepare ops in
  fun b =>
    match commit_direct direct b with
    | None => None
    | Some (b, Ok _) => finalize_committed actions b
    | Some (b, Err error) =>
        match finalize_aborted actions b with
        | None => None
        | Some (b, _) => Some (b, Err error)
        end
    end.

(** ** Bulk mode *)

(** [scattered_emptiness]: one probe of the first key per namespace. *)
Definition tree_empty (r : RoTxn) (ns : string) : M CommitError bool :=
  let* _ := resolve_db ns in
  let* c := lmdb "open emptiness cursor" (open_ro_cursor r ns) in
  match fst (cursor_get c MDB_FIRST) with
  | Ok (Some _, _) => ret false
  | Ok (None, _) | Err NotFound => ret true
  | Err e => fail (commit_error "probe namespace emptiness" e)
  end.
Fixpoint empty_namespaces (r : RoTxn) (orders : list (string * KeyOrder)) (found : gmap string bool)
    : M CommitError (gmap string bool) :=
  match orders with
  | [] => ret found
  | (ns, Scattered) :: orders =>
      let* e := tree_empty r ns in
      empty_namespaces r orders (<[ns := e]> found)
  | _ :: orders => empty_namespaces r orders found
  end.
Definition scattered_emptiness : M CommitError (gmap string bool) :=
  let* e := gets env in
  let* key_orders := gets key_orders in
  let* r := lmdb "begin emptiness txn" (begin_ro_txn e) in
  empty_namespaces r (hiter key_orders) ∅.
(** [Deferral::begin_bulk] *)
Definition enter_bulk (policy : BulkPolicy) (scattered_empty : gmap string bool) (s : State) : State :=
  mkState true (enabled policy) (list_to_set (fst <$> List.filter snd (hiter scattered_empty))) (runs s).
Definition begin_bulk (policy : BulkPolicy) : M CommitError unit :=
  let* scattered_empty := (if enabled policy then scattered_emptiness else ret ∅) in
  let* s := gets state in
  put_state (enter_bulk policy scattered_empty s).
Definition bulk_pending (s : State) : bool := negb (bool_decide (runs s = ∅)).
Definition pending (s : State) : list (string * Z * Z) :=
  (fun run => (run.1, rl_segment_count run.2, rl_len run.2)) <$> hiter (runs s).
Definition complete_namespace (ns : string) (s : State) : State :=
  let runs := delete ns (runs s) in
  mkState (if bool_decide (runs = ∅) then false else active s) (st_enabled s) (deferrable s) runs.

(** ** [merge.rs] *)
Definition CHUNK_SIZE : Z := 1000000.

Definition read_loaded_through (ns : string) : M CommitError (option RawKey) :=
  let* e := gets env in
  let* r := lmdb "begin loaded_through txn" (begin_ro_txn e) in
  match txn_get r MANIFEST_NAMESPACE (loaded_through_key ns) with
  | Ok bytes => ret (Some bytes)
  | Err NotFound => ret None
  | Err e => fail (commit_error "read loaded_through" e)
  end.
Definition verify_target (ns : string) (loaded_through : option RawKey) : M CommitError unit :=
  let* e := gets env in
  let* r := lmdb "begin verify txn" (begin_ro_txn e) in
  let* c := lmdb "open verify cursor" (open_ro_cursor r ns) in
  let* last :=
    match fst (cursor_get c MDB_LAST) with
    | Ok (Some key, _) => ret (Some key)
    | Ok (None, _) | Err NotFound => ret None
    | Err e => fail (commit_error "read last key" e)
    end in
  let ok := match last, loaded_through with
            | None, _ => true
            | Some db_last, Some mark => negb (bytes_ltb mark db_last)
            | Some _, None => false
            end in
  if ok then ret tt else fail (WriteFailed "verify target namespace empty before merge").

(** [read_exact_at] of the headers, one after the other. *)
Fixpoint build_cursors (file : list Z) (ns : string) (segment_count : nat) (offset : Z) (cursors : list SegmentCursor)
    : M CommitError (list SegmentCursor * Z) :=
  match segment_count with
  | O => ret (cursors, offset)
  | S segment_count =>
      let* o := call in
      let* header_bytes := lift (ok_or (read_exact_at file HEADER_LEN offset o) (DeferredLogCorrupt ns)) in
      let* header := lift (map_err (fun _ => DeferredLogCorrupt ns) (parse_header header_bytes)) in
      let* next_offset := lift (ok_or (checked_add 64 offset (total_len header)) (DeferredLogCorrupt ns)) in
      build_cursors file ns segment_count next_offset (cursors ++ [cursor_new header offset])
  end.

(** A cursor's read; a failed one means a corrupt log. *)
Definition reading {A} (ns : string) (f : list Outcome -> option (result A SegmentError * list Outcome))
    : M CommitError A := fun b =>
  match f (outcomes b) with
  | None => None
  | Some (r, os) => Some (with_outcomes b os, map_err (fun _ => DeferredLogCorrupt ns) r)
  end.
Fixpoint prime (file : list Z) (ns : string) (seg : nat) (cursors : list SegmentCursor) (heap : Heap)
    : M CommitError (list SegmentCursor * Heap) :=
  match cursors with
  | [] => ret ([], heap)
  | c :: cursors =>
      let* (head, c) := reading ns (peek file c) in
      let heap := match head with Some (key, _) => push key seg heap | None => heap end in
      let* (cursors, heap) := prime file ns (S seg) cursors heap in
      ret (c :: cursors, heap)
  end.
(** The inner loop: every segment that holds [key]; the latest one wins. *)
Fixpoint drain (fuel : nat) (file : list Z) (ns : string) (key : RawKey) (cursors : list SegmentCursor) (heap : Heap)
    (winner : option (nat * RawValue)) : M CommitError (list SegmentCursor * Heap * option (nat * RawValue)) :=
  match heap with
  | (k, seg) :: rest =>
      if bool_decide (k = key) then
        match fuel with
        | O => panic
        | S fuel =>
            let* c := expect (cursors !! seg) in
            let* (taken, c) := reading ns (take_record file c) in
            let* (_, value) := expect taken in
            let winner :=
              if match winner with Some (best, _) => (best <=? seg)%nat | None => true end
              then Some (seg, value) else winner in
            let* (head, c) := reading ns (peek file c) in
            let rest := match head with Some (next_key, _) => push next_key seg rest | None => rest end in
            drain fuel file ns key (<[seg := c]> cursors) rest winner
        end
      else ret (cursors, heap, winner)
  | [] => ret (cursors, heap, winner)
  end.

(** [APPEND] the chunk and record its last key, in one transaction. *)
Fixpoint append_chunk (ns : string) (txn : RwTxn) (chunk : list (RawKey * RawValue)) : M CommitError RwTxn :=
  match chunk with
  | [] => ret txn
  | (key, value) :: chunk =>
      let* txn := lmdb "append merged entry" (txn_put txn ns key value true) in
      append_chunk ns txn chunk
  end.
Definition flush_chunk (ns : string) (chunk : list (RawKey * RawValue)) : M CommitError unit :=
  let* e := gets env in
  let* txn := lmdb "begin merge chunk txn" (begin_rw_txn e) in
  let* txn := append_chunk ns txn chunk in
  let* (last_key, _) := expect (last chunk) in
  let* txn := lmdb "record loaded_through" (txn_put txn MANIFEST_NAMESPACE (loaded_through_key ns) last_key false) in
  commit_txn "commit merge chunk" txn.

Fixpoint merge_loop (fuel : nat) (file : list Z) (ns : string) (loaded_through : option RawKey)
    (cursors : list SegmentCursor) (heap : Heap) (chunk : list (RawKey * RawValue))
    : M CommitError (list (RawKey * RawValue)) :=
  match heap with
  | [] => ret chunk
  | (key, _) :: _ =>
      match fuel with
      | O => panic
      | S fuel =>
          let* (cursors, heap, winner) := drain fuel file ns key cursors heap None in
          let* (_, value) := expect winner in
          if match loaded_through with Some mark => negb (bytes_ltb mark key) | None => false end then
            merge_loop fuel file ns loaded_through cursors heap chunk
          else
            let chunk := chunk ++ [(key, value)] in
            if CHUNK_SIZE <=? blen_of chunk then
              let* _ := flush_chunk ns chunk in
              merge_loop fuel file ns loaded_through cursors heap []
            else merge_loop fuel file ns loaded_through cursors heap chunk
      end
  end.

(** The final transaction. *)
Definition clear_manifest (ns : string) : M CommitError unit :=
  let* e := gets env in
  let* txn := lmdb "begin finish txn" (begin_rw_txn e) in
  let* txn := del_present "delete manifest entry" txn MANIFEST_NAMESPACE (run_key ns) in
  let* txn := del_present "delete manifest entry" txn MANIFEST_NAMESPACE (loaded_through_key ns) in
  commit_txn "commit finish txn" txn.
(** A record takes eight bytes at least, so the log's length bounds both loops. *)
Definition merge_namespace (ns : string) (segment_count log_len : Z) : M CommitError unit :=
  let* loaded_through := read_loaded_through ns in
  let* _ := verify_target ns loaded_through in
  let* _ := io (DeferredLogCorrupt ns) in
  let* fs := gets files in
  let* file := lift (ok_or (fs !! log_path ns) (DeferredLogCorrupt ns)) in
  let* (cursors, offset) := build_cursors file ns (Z.to_nat segment_count) 0 [] in
  if negb (offset =? log_len) then fail (DeferredLogCorrupt ns)
  else
    let* (cursors, heap) := prime file ns 0 cursors [] in
    let* chunk := merge_loop (S (Z.to_nat log_len)) file ns loaded_through cursors heap [] in
    let* _ := match chunk with [] => ret tt | _ => flush_chunk ns chunk end in
    let* _ := clear_manifest ns in
    let* s := gets state in
    let* _ := put_state (complete_namespace ns s) in
    remove_file (log_path ns).
Fixpoint merge_all (pending : list (string * Z * Z)) : M CommitError unit :=
  match pending with
  | [] => ret tt
  | (ns, segment_count, log_len) :: pending =>
      let* _ := resolve_db ns in
      let* _ := merge_namespace ns segment_count log_len in
      merge_all pending
  end.
Definition finish_bulk : M CommitError unit :=
  let* _ := resolve_db MANIFEST_NAMESPACE in
  let* s := gets state in
  merge_all (pending s).
Definition flush : M unit unit :=
  let* e := gets env in
  let* e := lift (map_err (fun _ => tt) (env_sync e)) in
  put_env e.

(** ** Opening *)
Definition decode_pending (dbs : gset string) (entry : RawKey * RawValue) : result (string * RunEntry) OpenError :=
  let? ns := ok_or (List.find (fun ns => bool_decide (string_bytes ns = entry.1)) (elements dbs)) (Unavailable "deferral open") in
  let? e := ok_or (decode_run_entry entry.2) (Unavailable "deferral open") in
  Ok (ns, e).
Definition open_and_truncate (ns : string) (committed_len : Z) : M OpenError unit :=
  let* _ := io (Unavailable "open run log") in
  let* fs := gets files in
  let* file := lift (ok_or (fs !! log_path ns) (Unavailable "open run log")) in
  let* _ := io (Unavailable "stat run log") in
  if blen_of file <? committed_len then fail (Unavailable "deferral open")
  else if committed_len <? blen_of file then
    let* _ := io (Unavailable "truncate run log") in
    put_files (<[log_path ns := set_len file (Z.to_nat committed_len)]> fs)
  else ret tt.
Fixpoint open_runs (pending : list (string * RunEntry)) (runs : gmap string RunLog) : M OpenError (gmap string RunLog) :=
  match pending with
  | [] => ret runs
  | (ns, entry) :: pending =>
      let* _ := open_and_truncate ns (re_log_len entry) in
      open_runs pending (<[ns := mkRunLog (re_segment_count entry) (re_log_len entry)]> runs)
  end.
Fixpoint reap_entries (entries : list string) (runs : gmap string RunLog) : M OpenError unit :=
  match entries with
  | [] => ret tt
  | name :: entries =>
      let* _ := io (Unavailable "read deferred directory entry") in
      let* _ :=
        match extension name with
        | Some ext =>
            if String.eqb ext "log" && negb (bool_decide (is_Some (runs !! file_stem name)))
            then remove_file name else ret tt
        | None => ret tt
        end in
      reap_entries entries runs
  end.
Definition reap_orphan_logs (runs : gmap string RunLog) : M OpenError unit :=
  let* _ := io (Unavailable "read deferred directory") in
  let* fs := gets files in
  reap_entries (keys fs) runs.
Definition open_deferral : M OpenError unit :=
  let* dbs := gets dbs in
  let* e := gets env in
  let* _ := (if bool_decide (MANIFEST_NAMESPACE ∈ dbs) then ret tt else fail (Unavailable "deferral open")) in
  let* r := lift (map_err (fun _ => Unavailable "open manifest txn") (begin_ro_txn e)) in
  let* c := lift (map_err (fun _ => Unavailable "open manifest cursor") (open_ro_cursor r MANIFEST_NAMESPACE)) in
  let* pending := lift (map_result (decode_pending dbs) (List.filter (fun e => is_run_key e.1) (cursor_iter c))) in
  let* runs := open_runs pending ∅ in
  let* _ := reap_orphan_logs runs in
  put_state (mkState false false ∅ runs).

Definition open_or_create_db (name : string) : M OpenError unit :=
  let* e := gets env in
  match open_db e name with
  | Ok _ => ret tt
  | Err NotFound => let* e := lift (map_err (fun _ => Unavailable "create database") (create_db e name)) in put_env e
  | Err _ => fail (Unavailable "create database")
  end.
Fixpoint open_databases (specs : list NamespaceSpec) : M OpenError unit :=
  match specs with
  | [] => ret tt
  | spec :: specs =>
      let* _ := open_or_create_db (ns_namespace spec) in
      let* _ := fun b => Some (mkLmdb (env b) ({[ns_namespace spec]} ∪ dbs b) (<[ns_namespace spec := key_order spec]> (key_orders b))
                                 (files b) (outcomes b) (state b), Ok tt) in
      open_databases specs
  end.
(** [LmdbBackend::open] over an environment the library opened. *)
Definition open_backend (opened : result Env LmdbError) (namespaces : list NamespaceSpec)
    (files : gmap string (list Z)) (outcomes : list Outcome) : option (result LmdbBackend OpenError) :=
  let (o, outcomes) := next outcomes in
  match o with
  | Fails => Some (Err (Unavailable "create directory"))
  | _ =>
      match (let! count := try_narrow 32 (blen_of namespaces) in checked_add 32 count 2) with
      | None => Some (Err (Unavailable "count namespaces"))
      | Some _ =>
          match opened with
          | Err _ => Some (Err (Unavailable "open environment"))
          | Ok e =>
              let b := mkLmdb e ∅ ∅ files outcomes (mkState false false ∅ ∅) in
              let! (b, r) := (let* _ := open_databases (namespaces ++ [meta MANIFEST_NAMESPACE]) in open_deferral) b in
              Some (let? _ := r in Ok b)
          end
      end
  end.
End Backend.
End Lmdb.
