(* ===== verification/LmdbMerge.v ===== *)
(** * The merge of the run logs
    ([packages/zaino-backend-lmdb/src/deferred/merge.rs])

    What LMDB documents of its calls ([LmdbSpec]), the k-way merge
    as the sorted union of the segments with later segments winning, and
    [finish_bulk]: whatever fails in between, it leaves a state from which another
    call reaches the same trees. *)

From S2P Require Import Prelude Types Persistence Codec RunLog Lmdb.
From stdpp Require Import base gmap list strings sets sorting.
From Stdlib Require Import ZArith Lia.
Open Scope Z_scope.

(** ** What LMDB documents *)

(** A positioned read finds this entry, or fails. *)
Definition finds (r : result (option (list Z) * list Z) LmdbError) (e : option (list Z * list Z)) : Prop :=
  match r with
  | Ok (Some k, v) => e = Some (k, v)
  | Ok (None, _) | Err NotFound => e = None
  | Err _ => True
  end.

(** An environment holds a map and remembers the states committed since it was
    last synced: under [NO_SYNC] a crash of the machine goes back to one of them. *)
Class LmdbSpec `{LmdbLib} := {
  contents : Env -> Kv.store;
  history : Env -> list Kv.store;
  view : RwTxn -> Kv.store;
  snapshot : RoTxn -> Kv.store;
  spec_create e name e' : create_db e name = Ok e' -> contents e' = contents e /\ history e' = history e;
  spec_begin e t : begin_rw_txn e = Ok t -> view t = contents e;
  spec_put t db k v t' : txn_put t db k v false = Ok t' -> view t' = <[(db, k) := v]> (view t);
  spec_append t db k v t' : txn_put t db k v true = Ok t' ->
    view t' = <[(db, k) := v]> (view t) /\
    forall k', is_Some (view t !! (db, k')) -> Bytes.bytes_compare k' k = Lt;
  spec_refused t db k v : txn_put t db k v true = Err KeyExist ->
    exists k', is_Some (view t !! (db, k')) /\ Bytes.bytes_le k k';
  spec_del t db k t' : txn_del t db k = Ok t' -> view t' = delete (db, k) (view t);
  spec_absent t db k : txn_del t db k = Err NotFound -> view t !! (db, k) = None;
  spec_txn_commit e t e' : txn_commit e t = Ok e' -> contents e' = view t /\ history e' = view t :: history e;
  spec_ro e r : begin_ro_txn e = Ok r -> snapshot r = contents e;
  spec_get r db k v : txn_get r db k = Ok v -> snapshot r !! (db, k) = Some v;
  spec_get_absent r db k : txn_get r db k = Err NotFound -> snapshot r !! (db, k) = None;
  spec_cursor r db c : open_ro_cursor r db = Ok c ->
    exists l, Kv.namespace_entries (snapshot r) db l /\ cursor_iter c = l /\
      finds (fst (cursor_get c MDB_FIRST)) (head l) /\ finds (fst (cursor_get c MDB_LAST)) (last l);
  spec_sync e e' : env_sync e = Ok e' -> contents e' = contents e /\ history e' = [contents e];
  (** An environment with room, on which nothing fails but what must. *)
  healthy : Env -> Prop;
  healthy_txn : RwTxn -> Prop;
  healthy_ro : RoTxn -> Prop;
  rel_begin e : healthy e -> exists t, begin_rw_txn e = Ok t /\ healthy_txn t;
  rel_put t db k v : healthy_txn t -> exists t', txn_put t db k v false = Ok t' /\ healthy_txn t';
  rel_append t db k v : healthy_txn t ->
    txn_put t db k v true = Err KeyExist \/ exists t', txn_put t db k v true = Ok t' /\ healthy_txn t';
  rel_del t db k : healthy_txn t ->
    txn_del t db k = Err NotFound \/ exists t', txn_del t db k = Ok t' /\ healthy_txn t';
  rel_commit e t : healthy e -> healthy_txn t -> exists e', txn_commit e t = Ok e' /\ healthy e';
  rel_ro e : healthy e -> exists r, begin_ro_txn e = Ok r /\ healthy_ro r;
  rel_get r db k : healthy_ro r -> txn_get r db k = Err NotFound \/ exists v, txn_get r db k = Ok v;
  rel_cursor r db : healthy_ro r -> exists c, open_ro_cursor r db = Ok c /\
    forall op x, fst (cursor_get c op) = Err x -> x = NotFound }.

Module LmdbMerge.
Import Bytes.
Import Kv.
Import Codec.
Import RunLog.
Import Lmdb.

(** ** Runs and their union *)
Definition before (a b : RawKey * RawValue) : Prop := bytes_compare a.1 b.1 = Lt.
Notation sorted_run := (StronglySorted before).

(** The entries of the segments, later segments winning. *)
Notation tree := (gmap RawKey RawValue).
Definition overlay (segs : list (list (RawKey * RawValue))) : tree :=
  fold_left (fun m es => list_to_map es ∪ m) segs ∅.
(** Sorted without repetition, with exactly the entries of a map. *)
Definition lists (m : tree) (l : list (RawKey * RawValue)) : Prop :=
  sorted_run l /\ forall k v, (k, v) ∈ l <-> m !! k = Some v.

Lemma before_irrefl k : bytes_compare k k <> Lt.
Proof. by rewrite (proj2 (bytes_compare_eq k k) eq_refl). Qed.
Lemma sorted_NoDup l : sorted_run l -> NoDup l.*1.
Proof.
  induction 1 as [|[k v] l Hs IH Hf]; cbn; constructor; [|done]. intros ([k' v'] & -> & Hin)%list_elem_of_fmap.
  rewrite Forall_forall in Hf. by apply (before_irrefl k'), (Hf _ Hin).
Qed.
Lemma run_lookup l k v : sorted_run l -> (k, v) ∈ l <-> (list_to_map l : tree) !! k = Some v.
Proof. intros Hs. by apply elem_of_list_to_map, sorted_NoDup. Qed.

(** *** One step of the union: the least key of the runs and the rest *)
Lemma overlay_fold m0 segs :
  fold_left (fun m es => list_to_map es ∪ m) segs m0 = overlay segs ∪ m0.
Proof.
  unfold overlay. revert m0. induction segs as [|es segs IH]; intros m0; cbn; [by rewrite map_empty_union|].
  rewrite (IH (list_to_map es ∪ m0)), (IH (list_to_map es ∪ ∅)), map_union_empty. by rewrite assoc by apply _.
Qed.
Lemma overlay_cons es segs : overlay (es :: segs) = overlay segs ∪ list_to_map es.
Proof. unfold overlay at 1. cbn. by rewrite overlay_fold, map_union_empty. Qed.
Lemma overlay_app segs es : overlay (segs ++ [es]) = list_to_map es ∪ overlay segs.
Proof. unfold overlay. by rewrite fold_left_app. Qed.
Lemma overlay_Some segs k :
  is_Some (overlay segs !! k) <-> exists i es v, segs !! i = Some es /\ (list_to_map es : tree) !! k = Some v.
Proof.
  induction segs as [|es segs IH].
  - split; [by intros [? ?]|by intros ([|i] & ? & ? & ? & ?)].
  - rewrite overlay_cons. rewrite lookup_union_is_Some, IH. split.
    + intros [(i & es' & v & Hi & Hv)|[v Hv]]; [by exists (S i), es', v|by exists 0%nat, es, v].
    + intros ([|i] & es' & v & Hi & Hv); cbn in Hi; [right; injection Hi as <-; eauto|left; eauto].
Qed.

(** Dropping the head of every run that starts with [key]. *)
Definition pop (key : RawKey) (es : list (RawKey * RawValue)) : list (RawKey * RawValue) :=
  match es with (k, _) :: rest => if bool_decide (k = key) then rest else es | [] => [] end.
Definition least (key : RawKey) (rs : list (list (RawKey * RawValue))) : Prop :=
  forall i k v es, rs !! i = Some ((k, v) :: es) -> bytes_le key k.

Lemma run_above k v es key : sorted_run ((k, v) :: es) -> bytes_le key k -> (list_to_map es : tree) !! key = None.
Proof.
  intros Hs Hle. apply not_elem_of_list_to_map_1. intros ([k' v'] & -> & Hin)%list_elem_of_fmap. cbn [fst] in *.
  inversion Hs as [|? ? _ Hf]; subst. rewrite Forall_forall in Hf. specialize (Hf _ Hin). unfold before in Hf. cbn [fst] in *.
  apply bytes_le_lt in Hle as [->|Hlt].
  - by apply before_irrefl in Hf.
  - by apply (before_irrefl k'), (bytes_compare_trans _ k).
Qed.
Lemma pop_map key es :
  sorted_run es -> (forall k v r, es = (k, v) :: r -> bytes_le key k) ->
  (list_to_map (pop key es) : tree) = delete key (list_to_map es).
Proof.
  intros Hs Hle. destruct es as [|[k v] es]; cbn [pop]; [by rewrite list_to_map_nil, delete_empty|].
  specialize (Hle k v es eq_refl). pose proof (run_above k v es key Hs Hle) as Hn. case_bool_decide as Hk.
  - subst k. by rewrite list_to_map_cons, delete_insert_id.
  - rewrite delete_id; [done|]. rewrite list_to_map_cons, lookup_insert_ne by done. done.
Qed.
Lemma pop_sorted key es : sorted_run es -> sorted_run (pop key es).
Proof. destruct es as [|[k v] es]; [done|]. cbn. case_bool_decide; [|done]. by inversion 1. Qed.
Lemma overlay_pop key rs :
  Forall sorted_run rs -> least key rs -> overlay (pop key <$> rs) = delete key (overlay rs).
Proof.
  intros Hs. induction Hs as [|es rs He Hs IH]; intros Hl; [symmetry; apply delete_empty|].
  rewrite fmap_cons, !overlay_cons, delete_union, IH.
  - f_equal. apply pop_map; [done|]. intros k v r ->. by apply (Hl 0%nat k v r).
  - intros i k v r Hi. by apply (Hl (S i) k v r).
Qed.
Lemma least_all key rs k :
  Forall sorted_run rs -> least key rs -> is_Some (overlay rs !! k) -> bytes_le key k.
Proof.
  intros Hs Hl (i & es & v & Hi & Hv)%overlay_Some. rewrite Forall_forall in Hs.
  pose proof (Hs es ltac:(by eapply list_elem_of_lookup_2)) as He. destruct es as [|[k0 v0] es]; [done|].
  transitivity k0; [by apply (Hl i k0 v0 es)|]. apply run_lookup in Hv as [[= -> ->]|Hin]%elem_of_cons; [done| |done].
  inversion He as [|? ? _ Hf]; subst. rewrite Forall_forall in Hf. apply bytes_le_lt. right. apply (Hf _ Hin).
Qed.
(** The rest of the runs lists what is above the least key. *)
Lemma lists_cons key v rs l :
  Forall sorted_run rs -> least key rs -> overlay rs !! key = Some v ->
  lists (overlay (pop key <$> rs)) l -> lists (overlay rs) ((key, v) :: l).
Proof.
  intros Hs Hl Hv [Hsl Hel]. rewrite overlay_pop in Hel by done. split.
  - constructor; [done|]. apply Forall_forall. intros [k w] Hin. apply Hel, lookup_delete_Some in Hin as [Hne Hk].
    unfold before. cbn. destruct (proj1 (bytes_le_lt key k) (least_all key rs k Hs Hl ltac:(eauto))) as [->|]; done.
  - intros k w. rewrite elem_of_cons, Hel, lookup_delete_Some. split.
    + intros [[= -> ->]|[_ ?]]; done.
    + intros Hk. destruct (decide (key = k)) as [->|]; [left; congruence|by right].
Qed.

(** A run that holds the least key starts with it. *)
Lemma run_starts key es v :
  sorted_run es -> (forall k v r, es = (k, v) :: r -> bytes_le key k) -> (list_to_map es : tree) !! key = Some v ->
  exists r, es = (key, v) :: r.
Proof.
  intros Hs Hle Hv. destruct es as [|[k w] es]; [done|]. specialize (Hle k w es eq_refl).
  pose proof (run_above k w es key Hs Hle) as Hn. rewrite list_to_map_cons in Hv.
  destruct (decide (k = key)) as [->|Hne]; [rewrite lookup_insert_eq in Hv; injection Hv as ->; eauto|].
  rewrite lookup_insert_ne in Hv by done. congruence.
Qed.
Lemma least_starts key rs :
  Forall sorted_run rs -> least key rs -> is_Some (overlay rs !! key) -> exists i v es, rs !! i = Some ((key, v) :: es).
Proof.
  intros Hs Hl (i & es & v & Hi & Hv)%overlay_Some. rewrite Forall_forall in Hs.
  destruct (run_starts key es v) as [r ->]; [by eapply Hs, list_elem_of_lookup_2| |done|by exists i, v, r].
  intros k w r ->. by apply (Hl i k w r).
Qed.
(** Taking the first head that is [key] leaves the later ones to decide. *)
Lemma overlay_take key v es rs seg :
  Forall sorted_run rs -> least key rs -> rs !! seg = Some ((key, v) :: es) ->
  (forall i w r, rs !! i = Some ((key, w) :: r) -> (seg <= i)%nat) ->
  overlay rs !! key = match overlay (<[seg := es]> rs) !! key with Some w => Some w | None => Some v end.
Proof.
  intros Hs. revert seg. induction Hs as [|r rs Hr Hs IH]; intros seg Hl Hseg Hfirst; [done|].
  assert (least key rs) as Hl' by (intros i k w q Hi; by apply (Hl (S i) k w q)).
  rewrite overlay_cons, lookup_union. destruct seg as [|seg]; cbn in Hseg.
  - injection Hseg as ->. cbn [insert list_insert]. rewrite overlay_cons, lookup_union, list_to_map_cons, lookup_insert_eq.
    rewrite (run_above key v es key Hr) by done. by destruct (overlay rs !! key).
  - cbn [insert list_insert]. rewrite overlay_cons, lookup_union, (IH seg Hl' Hseg).
    + destruct ((list_to_map r : tree) !! key) as [w|] eqn:Hw.
      * destruct (run_starts key r w Hr) as [q ->]; [intros k u q ->; by apply (Hl 0%nat k u q)|done|].
        specialize (Hfirst 0%nat w q eq_refl). lia.
      * by destruct (overlay (<[seg:=es]> rs) !! key).
    + intros i w q Hi. specialize (Hfirst (S i) w q Hi). lia.
Qed.

(** *** The heap *)
Definition heap_lt (a b : RawKey * nat) : Prop := bytes_compare a.1 b.1 = Lt \/ (a.1 = b.1 /\ (a.2 < b.2)%nat).
Record heap_ok (heap : Heap) (rs : list (list (RawKey * RawValue))) : Prop := {
  hp_sorted : StronglySorted heap_lt heap;
  hp_heads k i : (k, i) ∈ heap <-> exists v es, rs !! i = Some ((k, v) :: es) }.
Lemma heap_lt_trans a b c : heap_lt a b -> heap_lt b c -> heap_lt a c.
Proof.
  destruct a as [x i], b as [y j], c as [z k]. unfold heap_lt. cbn. intros [H1|[-> H1]] [H2|[-> H2]].
  - left. by eapply bytes_compare_trans.
  - by left.
  - by left.
  - right. split; [done|lia].
Qed.
Lemma push_perm key seg heap : push key seg heap ≡ₚ (key, seg) :: heap.
Proof.
  induction heap as [|[k i] heap IH]; [done|]. cbn [push].
  destruct (bytes_compare key k); [case_match; [done|]|done|]; rewrite IH; apply Permutation_swap.
Qed.
Lemma push_sorted key seg heap :
  StronglySorted heap_lt heap -> (key, seg) ∉ heap -> StronglySorted heap_lt (push key seg heap).
Proof.
  induction 1 as [|[k i] heap Hs IH Hf]; intros Hn; cbn [push]; [by repeat constructor|].
  apply not_elem_of_cons in Hn as [Hne Hn].
  assert (Hfront : heap_lt (key, seg) (k, i) -> StronglySorted heap_lt ((key, seg) :: (k, i) :: heap)).
  { intros Hlt. constructor; [by constructor|]. constructor; [done|]. eapply Forall_impl; [exact Hf|].
    intros x Hx. by eapply heap_lt_trans. }
  assert (Hback : heap_lt (k, i) (key, seg) -> StronglySorted heap_lt ((k, i) :: push key seg heap)).
  { intros Hlt. constructor; [by apply IH|]. apply Forall_forall. intros x Hx. rewrite push_perm in Hx.
    apply elem_of_cons in Hx as [->|Hx]; [done|]. by eapply Forall_forall in Hf. }
  destruct (bytes_compare key k) eqn:Hc.
  - apply bytes_compare_eq in Hc as ->. destruct (Nat.leb_spec seg i).
    + apply Hfront. right. cbn. split; [done|]. assert (seg <> i) by congruence. lia.
    + apply Hback. right. cbn. split; [done|lia].
  - apply Hfront. by left.
  - apply Hback. left. cbn. by rewrite bytes_compare_antisym, Hc.
Qed.
Lemma heap_above key k seg rest rs :
  heap_ok ((k, seg) :: rest) rs -> least key rs -> k <> key -> forall i, (key, i) ∉ (k, seg) :: rest.
Proof.
  intros [Hsrt Hhd] Hl Hne i Hi. apply elem_of_cons in Hi as [[= -> ->]|Hi]; [done|].
  inversion Hsrt as [|? ? _ Hfa]; subst. eapply Forall_forall in Hfa; [|exact Hi].
  destruct (proj1 (Hhd k seg) ltac:(left)) as (v & es & Hseg).
  destruct (proj1 (bytes_le_lt _ _) (Hl seg k v es Hseg)) as [->|Hlt]; [done|]. destruct Hfa as [Hlt'|[? _]]; cbn in *; [|done].
  by apply (before_irrefl key), (bytes_compare_trans _ k).
Qed.
(** Taking a record from a segment and pushing its next key. *)
Definition reheap (seg : nat) (es : list (RawKey * RawValue)) (heap : Heap) : Heap :=
  match head es with Some (k, _) => push k seg heap | None => heap end.
Lemma reheap_ok key seg v es heap rs :
  heap_ok ((key, seg) :: heap) rs -> rs !! seg = Some ((key, v) :: es) -> heap_ok (reheap seg es heap) (<[seg := es]> rs).
Proof.
  intros [Hs Hh] Hseg. inversion Hs as [|? ? Hs' Hf]; subst.
  assert (Hin : forall k i, (k, i) ∈ heap <-> i <> seg /\ exists w r, rs !! i = Some ((k, w) :: r)).
  { intros k i. split.
    - intros Hi. destruct (proj1 (Hh k i)) as (w & r & Hr); [by right|]. split; [|eauto]. intros ->.
      rewrite Hseg in Hr. injection Hr as <- <- <-. eapply Forall_forall in Hf; [|exact Hi].
      destruct Hf as [Hf|[_ Hf]]; cbn in Hf; [by apply before_irrefl in Hf|lia].
    - intros [Hne Hr]. apply Hh in Hr. apply elem_of_cons in Hr as [[= -> ->]|]; done. }
  assert (Hlt : (seg < length rs)%nat) by by eapply lookup_lt_Some.
  unfold reheap. destruct es as [|[k' v'] es]; cbn [head].
  - split; [done|]. intros k i. rewrite Hin. destruct (decide (i = seg)) as [->|Hne].
    + rewrite list_lookup_insert_eq by done. naive_solver.
    + rewrite list_lookup_insert_ne by done. naive_solver.
  - split.
    + apply push_sorted; [done|]. rewrite Hin. naive_solver.
    + intros k i. rewrite push_perm, elem_of_cons, Hin. destruct (decide (i = seg)) as [->|Hne].
      * rewrite list_lookup_insert_eq by done. naive_solver.
      * rewrite list_lookup_insert_ne by done. naive_solver.
Qed.

(** ** The loops of the merge *)
Section Merge.
Context `{LL : !LmdbLib} `{HI : HashIter} (file : list Z) (ns : string).

Lemma reading_ok {A} (f : list Outcome -> option (result A SegmentError * list Outcome)) (b : LmdbBackend) a os :
  f (outcomes b) = Some (Ok a, os) -> reading ns f b = Some (with_outcomes b os, Ok a).
Proof. unfold reading. by intros ->. Qed.
Lemma pop_insert key v es (rs : list (list (RawKey * RawValue))) (seg : nat) :
  rs !! seg = Some ((key, v) :: es) -> sorted_run ((key, v) :: es) -> pop key <$> <[seg := es]> rs = pop key <$> rs.
Proof.
  intros Hseg Hs. rewrite list_fmap_insert. apply list_insert_id. rewrite list_lookup_fmap, Hseg. cbn [fmap option_fmap option_map].
  f_equal. cbn [pop]. rewrite bool_decide_true by done. destruct es as [|[k w] es]; [done|]. cbn [pop].
  rewrite bool_decide_false; [done|]. intros ->. inversion Hs as [|? ? _ Hf]; subst. inversion Hf as [|? ? Hb]; subst.
  by apply before_irrefl in Hb.
Qed.
Lemma total_taken key v es (rs : list (list (RawKey * RawValue))) (seg : nat) :
  rs !! seg = Some ((key, v) :: es) -> S (length (mjoin (<[seg := es]> rs))) = length (mjoin rs).
Proof.
  revert seg. induction rs as [|r rs IH]; intros [|seg] Hseg; try done.
  - by injection Hseg as ->.
  - change (S (length (r ++ mjoin (<[seg := es]> rs))) = length (r ++ mjoin rs)).
    rewrite !length_app, <- (IH seg Hseg). lia.
Qed.

Lemma total_pop_le key (l : list (list (RawKey * RawValue))) : (length (mjoin (pop key <$> l)) <= length (mjoin l))%nat.
Proof.
  induction l as [|r l IH]; [done|]. rewrite fmap_cons.
  change (length (pop key r ++ mjoin (pop key <$> l)) <= length (r ++ mjoin l))%nat. rewrite !length_app.
  destruct r as [|[k u] r]; [exact IH|]. cbn [pop]. case_bool_decide; cbn [length]; lia.
Qed.
Lemma total_pop key v es (rs : list (list (RawKey * RawValue))) (seg : nat) :
  rs !! seg = Some ((key, v) :: es) -> (length (mjoin (pop key <$> rs)) < length (mjoin rs))%nat.
Proof.
  revert seg. induction rs as [|r rs IH]; intros [|seg] Hi; try done; rewrite fmap_cons;
    change (length (pop key r ++ mjoin (pop key <$> rs)) < length (r ++ mjoin rs))%nat; rewrite !length_app.
  - injection Hi as ->. cbn [pop]. rewrite bool_decide_true by done. pose proof (total_pop_le key rs). cbn [length]. lia.
  - specialize (IH seg Hi). pose proof (total_pop_le key [r]) as H1. cbn in H1. rewrite !app_nil_r in H1. lia.
Qed.

Lemma drain_pops key fuel cursors heap winner rs (b : LmdbBackend) :
  Forall2 (cursor_reads file) cursors rs -> Forall sorted_run rs -> heap_ok heap rs -> least key rs ->
  calm (outcomes b) -> (length (mjoin rs) <= fuel)%nat ->
  (forall best v i, winner = Some (best, v) -> (key, i) ∈ heap -> (best <= i)%nat) ->
  exists cursors' heap' winner' os,
    drain fuel file ns key cursors heap winner b = Some (with_outcomes b os, Ok (cursors', heap', winner')) /\ calm os /\
    Forall2 (cursor_reads file) cursors' (pop key <$> rs) /\ heap_ok heap' (pop key <$> rs) /\
    snd <$> winner' = match overlay rs !! key with Some v => Some v | None => snd <$> winner end.
Proof.
  revert cursors heap winner rs b. induction fuel as [|fuel IH]; intros cursors heap winner rs b Hc Hs Hh Hl Hos Hf Hw.
  all: assert (Hdone : (forall i, (key, i) ∉ heap) ->
    exists cursors' heap' winner' os,
      Some (b, Ok (cursors, heap, winner)) = Some (with_outcomes b os, @Ok _ CommitError (cursors', heap', winner')) /\ calm os /\
      Forall2 (cursor_reads file) cursors' (pop key <$> rs) /\ heap_ok heap' (pop key <$> rs) /\
      snd <$> winner' = match overlay rs !! key with Some v => Some v | None => snd <$> winner end).
  1,3: intros Hno; exists cursors, heap, winner, (outcomes b);
    assert (pop key <$> rs = rs) as -> by
      (apply list_eq; intros i; rewrite list_lookup_fmap; destruct (rs !! i) as [[|[k v] es]|] eqn:Hi; [done| |done];
       cbn; case_bool_decide; [subst k; exfalso; apply (Hno i), Hh; eauto|done]);
    destruct (overlay rs !! key) eqn:Hov;
      [exfalso; destruct (least_starts key rs Hs Hl) as (i & w & es & Hi); [by rewrite Hov|]; apply (Hno i), Hh; eauto|];
    by destruct b.
  - destruct heap as [|[k seg] rest]; cbn [drain]; [apply Hdone; intros i; apply not_elem_of_nil|].
    case_bool_decide as Hk; [exfalso|].
    + subst k. destruct (proj1 (hp_heads _ _ Hh key seg) ltac:(left)) as (v & es & Hseg).
      apply (total_taken key v es) in Hseg. lia.
    + apply Hdone. by eapply heap_above.
  - destruct heap as [|[k seg] rest]; cbn [drain]; [apply Hdone; intros i; apply not_elem_of_nil|].
    case_bool_decide as Hk.
    2: { apply Hdone. by eapply heap_above. }
    subst k. destruct (proj1 (hp_heads _ _ Hh key seg) ltac:(left)) as (v & es & Hseg).
    destruct (Forall2_lookup_r _ _ _ _ _ Hc Hseg) as (c & Hcs & Hcr).
    destruct (take_reads file c (outcomes b) _ Hcr Hos) as (c1 & os1 & Ht1 & Ho1 & Hr1).
    destruct (peek_reads file c1 os1 _ Hr1 Ho1) as (c2 & os2 & Ht2 & Ho2 & Hr2). cbn [head tail] in *.
    assert (Hsorted : sorted_run ((key, v) :: es)) by (eapply Forall_lookup_1 in Hs; done).
    assert (Hfirst : forall i w r, rs !! i = Some ((key, w) :: r) -> (seg <= i)%nat).
    { intros i w r Hi. assert ((key, i) ∈ (key, seg) :: rest) as Hin by (apply Hh; eauto).
      apply elem_of_cons in Hin as [[= ->]|Hin]; [done|]. destruct Hh as [Hsrt _]. inversion Hsrt as [|? ? _ Hfa]; subst.
      eapply Forall_forall in Hfa; [|exact Hin]. destruct Hfa as [Hb|[_ Hb]]; cbn in Hb; [by apply before_irrefl in Hb|lia]. }
    assert (Hwin : match winner with Some (best, _) => (best <=? seg)%nat | None => true end = true).
    { destruct winner as [[best w]|]; [|done]. apply Nat.leb_le, (Hw best w); [done|left]. }
    pose proof (reheap_ok key seg v es rest rs Hh Hseg) as Hh'.
    destruct (IH (<[seg := c2]> cursors) (reheap seg es rest) (Some (seg, v)) (<[seg := es]> rs) (with_outcomes b os2))
      as (cs' & heap' & w' & os' & Hd & Hos' & Hcr' & Hhp & Hwv).
    + by apply Forall2_insert.
    + apply Forall_insert; [done|]. by inversion Hsorted.
    + done.
    + intros i k w r Hi. destruct (decide (i = seg)) as [->|Hne].
      * rewrite list_lookup_insert_eq in Hi by by eapply lookup_lt_Some. injection Hi as ->.
        apply bytes_le_lt. right. inversion Hsorted as [|? ? _ Hfa]; subst. by inversion Hfa.
      * rewrite list_lookup_insert_ne in Hi by done. by eapply Hl.
    + done.
    + apply (total_taken key v es) in Hseg. lia.
    + intros best w i [= <- <-] Hin. apply Hh' in Hin as (u & r & Hi). destruct (decide (i = seg)) as [->|Hne]; [done|].
      rewrite list_lookup_insert_ne in Hi by done. by eapply Hfirst.
    + exists cs', heap', w', os'. rewrite (pop_insert key v es rs seg Hseg Hsorted) in Hcr', Hhp. split_and!; try done.
      * unfold bind at 1, expect at 1. rewrite Hcs. unfold bind at 1. rewrite (reading_ok _ b _ _ Ht1).
        unfold bind at 1, expect at 1. rewrite Hwin. unfold bind at 1.
        rewrite (reading_ok _ (with_outcomes b os1) _ os2 Ht2). exact Hd.
      * rewrite Hwv, (overlay_take key v es rs seg Hs Hl Hseg Hfirst). by destruct (overlay (<[seg:=es]> rs) !! key).
Qed.

(** *** What the loop emits *)

(** Skip what was loaded, append the rest, a chunk at a time. *)
Fixpoint emit (mark : option RawKey) (out chunk : list (RawKey * RawValue)) : M CommitError (list (RawKey * RawValue)) :=
  match out with
  | [] => ret chunk
  | (key, value) :: out =>
      if match mark with Some m => negb (bytes_ltb m key) | None => false end then emit mark out chunk
      else
        let chunk := chunk ++ [(key, value)] in
        if CHUNK_SIZE <=? blen_of chunk then bind (flush_chunk ns chunk) (fun _ => emit mark out [])
        else emit mark out chunk
  end.

(** A computation over the environment alone. *)
Definition env_only {E A} (m : M E A) : Prop :=
  exists f : Env -> option (Env * result A E),
    forall b, m b = match f (env b) with Some (e, r) => Some (with_env b e, r) | None => None end.
Lemma env_only_outcomes {E A} (m : M E A) (b : LmdbBackend) os :
  env_only m -> m (with_outcomes b os) = match m b with Some (b', r) => Some (with_outcomes b' os, r) | None => None end.
Proof. intros [f Hf]. rewrite !Hf. cbn. by destruct (f (env b)) as [[e r]|]. Qed.
Lemma env_only_bind {E A B} (m : M E A) (k : A -> M E B) :
  env_only m -> (forall a, env_only (k a)) -> env_only (bind m k).
Proof.
  intros [f Hf] Hk.
  exists (fun e => match f e with
    | None => None
    | Some (e, Err x) => Some (e, Err x)
    | Some (e, Ok a) =>
        match k a (mkLmdb e ∅ ∅ ∅ [] (mkState false false ∅ ∅)) with Some (b, r) => Some (env b, r) | None => None end
    end).
  intros b. unfold bind. rewrite Hf. destruct (f (env b)) as [[e [a|x]]|]; [|done|done].
  destruct (Hk a) as [g Hg]. rewrite !Hg. cbn. by destruct (g e) as [[e' r]|].
Qed.
Lemma env_only_lift {E A} (r : result A E) : env_only (lift r).
Proof. exists (fun e => Some (e, r)). intros b. unfold lift. by destruct b. Qed.
Lemma env_only_ret {E A} (a : A) : env_only (E := E) (ret a).
Proof. apply (env_only_lift (Ok a)). Qed.
Lemma env_only_expect {E A} (o : option A) : env_only (E := E) (expect o).
Proof. exists (fun e => match o with Some a => Some (e, Ok a) | None => None end). intros b. by destruct o, b. Qed.
Lemma env_only_env {E} : env_only (E := E) (gets env).
Proof. exists (fun e => Some (e, Ok e)). by intros []. Qed.
Lemma env_only_put_env {E} e : env_only (E := E) (put_env e).
Proof. by exists (fun _ => Some (e, Ok tt)). Qed.
Lemma env_only_commit operation t : env_only (commit_txn operation t).
Proof. repeat (apply env_only_bind; [first [apply env_only_env|apply env_only_lift]|intros]). apply env_only_put_env. Qed.
Lemma env_only_append t chunk : env_only (append_chunk ns t chunk).
Proof.
  revert t. induction chunk as [|[k v] chunk IH]; intros t; cbn [append_chunk]; [apply env_only_ret|].
  apply env_only_bind; [apply env_only_lift|done].
Qed.
Lemma env_only_flush chunk : env_only (flush_chunk ns chunk).
Proof.
  apply env_only_bind; [apply env_only_env|]. intros e. apply env_only_bind; [apply env_only_lift|]. intros t.
  apply env_only_bind; [apply env_only_append|]. intros t'. apply env_only_bind; [apply env_only_expect|]. intros [k v].
  apply env_only_bind; [apply env_only_lift|]. intros t''. apply env_only_commit.
Qed.

Lemma env_only_emit mark out chunk : env_only (emit mark out chunk).
Proof.
  revert chunk. induction out as [|[k u] out IH]; intros chunk; [apply env_only_ret|]. cbn [emit].
  destruct (match mark with Some m => negb (bytes_ltb m k) | None => false end); [apply IH|].
  destruct (CHUNK_SIZE <=? blen_of (chunk ++ [(k, u)])); [|apply IH]. by apply env_only_bind; [apply env_only_flush|].
Qed.

Lemma lists_head m key v out :
  lists m out -> m !! key = Some v -> (forall k, is_Some (m !! k) -> bytes_le key k) ->
  exists out', out = (key, v) :: out' /\ lists (delete key m) out'.
Proof.
  intros [Hs Hel] Hv Hle. assert ((key, v) ∈ out) as Hin by by apply Hel. destruct out as [|[k0 v0] out]; [by apply elem_of_nil in Hin|].
  inversion Hs as [|? ? Hs' Hf]; subst. rewrite Forall_forall in Hf.
  assert ((k0, v0) = (key, v)) as [= -> ->].
  { apply elem_of_cons in Hin as [<-|Hin]; [done|exfalso]. specialize (Hf _ Hin). unfold before in Hf. cbn in Hf.
    assert (bytes_le key k0) as Hk by (apply Hle; exists v0; apply Hel; left).
    unfold bytes_le in Hk. rewrite bytes_compare_antisym, Hf in Hk. done. }
  exists out. split; [done|]. split; [done|]. intros k w. rewrite lookup_delete_Some, <- Hel, elem_of_cons. split.
  - intros Hk. split; [|by right]. intros <-. by apply (before_irrefl key), (Hf _ Hk).
  - intros [Hne [[= -> ->]|Hk]]; done.
Qed.
Lemma heap_least key seg heap rs : heap_ok ((key, seg) :: heap) rs -> least key rs.
Proof.
  intros [Hs Hh] i k v es Hi. assert ((k, i) ∈ (key, seg) :: heap) as Hin by (apply Hh; eauto).
  inversion Hs as [|? ? _ Hf]; subst. apply bytes_le_lt. apply elem_of_cons in Hin as [[= -> ->]|Hin]; [by left|].
  eapply Forall_forall in Hf; [|exact Hin]. destruct Hf as [Hlt|[Heq _]]; cbn in *; auto.
Qed.

Lemma merge_loop_emits mark out fuel cursors heap chunk rs (b : LmdbBackend) :
  lists (overlay rs) out -> Forall2 (cursor_reads file) cursors rs -> Forall sorted_run rs -> heap_ok heap rs ->
  calm (outcomes b) -> (length (mjoin rs) < fuel)%nat ->
  exists os, calm os /\
    merge_loop fuel file ns mark cursors heap chunk b =
    match emit mark out chunk b with Some (b', r) => Some (with_outcomes b' os, r) | None => None end.
Proof.
  revert out cursors heap chunk rs b. induction fuel as [|fuel IH]; intros out cursors heap chunk rs b Hout Hc Hs Hh Hos Hf; [lia|].
  destruct heap as [|[key seg] heap].
  { exists (outcomes b). split; [done|]. cbn [merge_loop]. destruct out as [|[k v] out]; [by destruct b|exfalso].
    assert (is_Some (overlay rs !! k)) as (i & es & w & Hi & Hw)%overlay_Some by (exists v; apply Hout; left).
    destruct es as [|[k' v'] es]; [done|]. assert ((k', i) ∈ []) as []%elem_of_nil by (apply Hh; eauto). }
  pose proof (heap_least _ _ _ _ Hh) as Hl.
  destruct (proj1 (hp_heads _ _ Hh key seg) ltac:(left)) as (v0 & es0 & Hseg0).
  assert (is_Some (overlay rs !! key)) as [v Hv].
  { apply overlay_Some. exists seg, ((key, v0) :: es0), v0. split; [done|]. by rewrite list_to_map_cons, lookup_insert_eq. }
  destruct (lists_head _ key v out Hout Hv ltac:(intros k; by apply least_all)) as (out' & -> & Hout').
  rewrite <- overlay_pop in Hout' by done.
  destruct (drain_pops key fuel cursors ((key, seg) :: heap) None rs b Hc Hs Hh Hl Hos) as
    (cs' & heap' & w' & os1 & Hd & Hos1 & Hc' & Hh' & Hw'); [lia|done|].
  rewrite Hv in Hw'. destruct w' as [[best w]|]; [|done]. cbn in Hw'. injection Hw' as ->.
  assert (Forall sorted_run (pop key <$> rs)) as Hs'.
  { apply Forall_fmap. eapply Forall_impl; [exact Hs|]. intros es. apply pop_sorted. }
  assert (length (mjoin (pop key <$> rs)) < fuel)%nat as Hf'.
  { pose proof (total_pop key v0 es0 rs seg Hseg0). lia. }
  cbn [merge_loop]. unfold bind at 1. rewrite Hd. unfold bind at 1, expect at 1. cbn [emit].
  destruct (match mark with Some m => negb (bytes_ltb m key) | None => false end).
  { destruct (IH out' cs' heap' chunk _ (with_outcomes b os1) Hout' Hc' Hs' Hh' Hos1 Hf') as (os & Ho & ->).
    exists os. split; [done|]. rewrite env_only_outcomes by apply env_only_emit. by destruct (emit mark out' chunk b) as [[? ?]|]. }
  destruct (CHUNK_SIZE <=? blen_of (chunk ++ [(key, v)])).
  - unfold bind at 1. rewrite (env_only_outcomes _ b os1 (env_only_flush _)). unfold bind at 1.
    destruct (flush_chunk ns (chunk ++ [(key, v)]) b) as [[b1 [u|x]]|] eqn:Hfl.
    + destruct (IH out' cs' heap' [] _ (with_outcomes b1 os1) Hout' Hc' Hs' Hh' Hos1 Hf') as (os & Ho & ->).
      exists os. split; [done|]. rewrite env_only_outcomes by apply env_only_emit. by destruct (emit mark out' [] b1) as [[? ?]|].
    + by exists os1.
    + by exists os1.
  - destruct (IH out' cs' heap' (chunk ++ [(key, v)]) _ (with_outcomes b os1) Hout' Hc' Hs' Hh' Hos1 Hf') as (os & Ho & ->).
    exists os. split; [done|]. rewrite env_only_outcomes by apply env_only_emit. by destruct (emit mark out' _ b) as [[? ?]|].
Qed.
End Merge.
End LmdbMerge.
