(* ===== verification/LmdbFinish.v ===== *)
(** * [finish_bulk]
    ([packages/zaino-backend-lmdb/src/deferred/merge.rs])

    A namespace's run log is loaded into its tree from the resume mark on.  Up to
    the mark a tree keeps what it holds; above it, it gets the union of the log's
    segments. *)

From S2P Require Import Prelude Types Persistence Codec RunLog Lmdb LmdbMerge.
From stdpp Require Import base gmap list strings sets sorting.
From Stdlib Require Import ZArith Lia.
Open Scope Z_scope.

Module LmdbFinish.
Import Bytes.
Import Kv.
Import Codec.
Import RunLog.
Import Lmdb.
Import LmdbMerge.

(** ** Puts of one namespace *)
Definition puts (ns : string) (l : list (RawKey * RawValue)) : list WriteOp := (fun e => Put ns e.1 e.2) <$> l.
(** The state once these entries are loaded and the last one is the mark. *)
Definition marked (ns : string) (st : store) (l : list (RawKey * RawValue)) : store :=
  match last l with
  | None => st
  | Some e => <[(MANIFEST_NAMESPACE, loaded_through_key ns) := e.1]> (store_ops st (puts ns l))
  end.

Lemma puts_other ns st l db k : db <> ns -> store_ops st (puts ns l) !! (db, k) = st !! (db, k).
Proof.
  intros Hne. revert st. induction l as [|[k0 v0] l IH]; intros st; [done|]. cbn. unfold store_ops in IH. rewrite IH.
  apply lookup_insert_ne. congruence.
Qed.
Lemma puts_own ns st l k :
  NoDup l.*1 -> store_ops st (puts ns l) !! (ns, k) = match (list_to_map l : tree) !! k with Some v => Some v | None => st !! (ns, k) end.
Proof.
  revert st. induction l as [|[k0 v0] l IH]; intros st; [done|]. cbn [fmap list_fmap fst]. intros [Hn Hd]%NoDup_cons.
  change (store_ops (<[(ns, k0) := v0]> st) (puts ns l) !! (ns, k) =
          match (<[k0 := v0]> (list_to_map l : tree)) !! k with Some v => Some v | None => st !! (ns, k) end).
  rewrite IH by done. destruct (decide (k0 = k)) as [->|Hk].
  - by rewrite not_elem_of_list_to_map_1, !lookup_insert_eq by done.
  - by rewrite !lookup_insert_ne by congruence.
Qed.
Lemma puts_commute ns st l db k x :
  db <> ns -> store_ops (<[(db, k) := x]> st) (puts ns l) = <[(db, k) := x]> (store_ops st (puts ns l)).
Proof.
  intros Hne. revert st. induction l as [|[k0 v0] l IH]; intros st; [done|].
  change (store_ops (<[(ns, k0) := v0]> (<[(db, k) := x]> st)) (puts ns l) =
          <[(db, k) := x]> (store_ops (<[(ns, k0) := v0]> st) (puts ns l))).
  rewrite <- IH. f_equal. apply insert_insert_ne. congruence.
Qed.
Lemma marked_app ns st l1 l2 :
  ns <> MANIFEST_NAMESPACE -> l2 <> [] -> marked ns (marked ns st l1) l2 = marked ns st (l1 ++ l2).
Proof.
  intros Hns H2. unfold marked at 1 3. rewrite last_app. destruct (last l2) as [e2|] eqn:Hl2; [|by apply last_None in Hl2].
  unfold marked, puts. rewrite fmap_app. fold (puts ns l1) (puts ns l2). rewrite store_ops_app.
  destruct (last l1) as [e1|] eqn:Hl1.
  - by rewrite puts_commute, insert_insert_eq by done.
  - apply last_None in Hl1 as ->. done.
Qed.
Lemma marked_other ns st l db k :
  db <> ns -> (db, k) <> (MANIFEST_NAMESPACE, loaded_through_key ns) -> marked ns st l !! (db, k) = st !! (db, k).
Proof.
  intros H1 H2. unfold marked. destruct (last l); [|done]. by rewrite lookup_insert_ne, puts_other by congruence.
Qed.
Lemma marked_own ns st l k :
  ns <> MANIFEST_NAMESPACE -> NoDup l.*1 ->
  marked ns st l !! (ns, k) = match (list_to_map l : tree) !! k with Some v => Some v | None => st !! (ns, k) end.
Proof.
  intros Hns Hd. unfold marked. destruct (last l) eqn:Hl.
  - by rewrite lookup_insert_ne, puts_own by congruence.
  - apply last_None in Hl as ->. done.
Qed.
Lemma marked_mark ns st l :
  marked ns st l !! (MANIFEST_NAMESPACE, loaded_through_key ns) =
  match last l with Some e => Some e.1 | None => st !! (MANIFEST_NAMESPACE, loaded_through_key ns) end.
Proof. unfold marked. destruct (last l); [by rewrite lookup_insert_eq|done]. Qed.

Section Finish.
Context `{LL : !LmdbLib} `{LS : !LmdbSpec} `{HI : HashIter}.
Implicit Types b : LmdbBackend.

(** ** A chunk *)
Section Namespace.
Context (ns : string) (Hns : ns <> MANIFEST_NAMESPACE).

(** Every key of the namespace is below every key of the list. *)
Definition below (st : store) (l : list (RawKey * RawValue)) : Prop :=
  forall k e, is_Some (st !! (ns, k)) -> e ∈ l -> bytes_compare k e.1 = Lt.

Lemma append_chunk_spec l t b :
  sorted_run l -> below (view t) l ->
  exists r, append_chunk ns t l b = Some (b, r) /\
    match r with
    | Ok t' => view t' = store_ops (view t) (puts ns l) /\ (healthy_txn t -> healthy_txn t')
    | Err _ => ~ healthy_txn t
    end.
Proof.
  revert t. induction l as [|[k v] l IH]; intros t Hs Hb; [by exists (Ok t)|].
  cbn [append_chunk]. unfold bind at 1, lmdb, lift. inversion Hs as [|? ? Hs' Hf]; subst. rewrite Forall_forall in Hf.
  destruct (txn_put t ns k v true) as [t1|x] eqn:Ht; cbn [map_err].
  - destruct (spec_append _ _ _ _ _ Ht) as [Hv _].
    destruct (IH t1 Hs') as (r & Hr & Hok).
    { intros k' e Hk He. rewrite Hv in Hk. destruct (decide (k = k')) as [<-|Hne]; [by apply (Hf e)|].
      rewrite lookup_insert_ne in Hk by congruence. apply (Hb k' e); [done|by right]. }
    exists r. split; [done|].
    assert (healthy_txn t -> healthy_txn t1) as Hh.
    { intros Hh. destruct (rel_append t ns k v Hh) as [?|(t2 & Ht2 & ?)]; congruence. }
    destruct r as [t'|]; [destruct Hok as [Hv' Hh']; rewrite Hv', Hv; split; [done|auto]|auto].
  - eexists. split; [done|]. cbn. intros Hh. destruct (rel_append t ns k v Hh) as [He|(t2 & Ht2 & _)]; [|congruence].
    destruct (spec_refused _ _ _ _ He) as (k' & Hk & Hle). apply (Hb k' (k, v)) in Hk; [|left]. cbn in Hk.
    unfold bytes_le in Hle. rewrite bytes_compare_antisym, Hk in Hle. done.
Qed.

Lemma commit_spec operation t b :
  exists e r, commit_txn operation t b = Some (with_env b e, r) /\
    match r with
    | Ok _ => contents e = view t /\ history e = view t :: history (env b) /\ (healthy (env b) -> healthy_txn t -> healthy e)
    | Err _ => e = env b /\ ~ (healthy (env b) /\ healthy_txn t)
    end.
Proof.
  unfold commit_txn, bind, gets, lmdb, lift. destruct (txn_commit (env b) t) as [e|x] eqn:Ht; cbn [map_err].
  - exists e, (Ok tt). split; [done|]. destruct (spec_txn_commit _ _ _ Ht). split_and!; try done.
    intros H1 H2. destruct (rel_commit _ _ H1 H2) as (e' & He & ?). congruence.
  - exists (env b). eexists. split; [by destruct b|]. split; [done|]. intros [H1 H2].
    destruct (rel_commit _ _ H1 H2) as (e' & He & ?). congruence.
Qed.

Lemma flush_chunk_spec l b :
  l <> [] -> sorted_run l -> below (contents (env b)) l ->
  exists e r, flush_chunk ns l b = Some (with_env b e, r) /\
    match r with
    | Ok _ => contents e = marked ns (contents (env b)) l /\ (healthy (env b) -> healthy e)
    | Err _ => e = env b /\ ~ healthy (env b)
    end.
Proof.
  intros Hl Hs Hb. unfold flush_chunk, bind at 1, gets. unfold bind at 1, lmdb at 1, lift at 1.
  destruct (begin_rw_txn (env b)) as [t|x] eqn:Ht; cbn [map_err].
  2: { exists (env b). eexists. split; [by destruct b|]. split; [done|]. intros Hh.
       destruct (rel_begin _ Hh) as (t & ? & _). congruence. }
  pose proof (spec_begin _ _ Ht) as Hv.
  assert (healthy (env b) -> healthy_txn t) as Hht by (intros Hh; destruct (rel_begin _ Hh) as (t' & ? & ?); congruence).
  destruct (append_chunk_spec l t b Hs ltac:(by rewrite Hv)) as (r & Hr & Hok).
  unfold bind at 1. rewrite Hr. destruct r as [t1|x].
  2: { exists (env b). eexists. split; [by destruct b|]. split; [done|auto]. }
  destruct Hok as [Hv1 Hh1]. unfold bind at 1, expect at 1. destruct (last l) as [[k v]|] eqn:Hlast; [|by apply last_None in Hlast].
  unfold bind at 1, lmdb at 1, lift at 1.
  destruct (txn_put t1 MANIFEST_NAMESPACE (loaded_through_key ns) k false) as [t2|x] eqn:Hp; cbn [map_err].
  2: { exists (env b). eexists. split; [by destruct b|]. split; [done|]. intros Hh.
       destruct (rel_put t1 MANIFEST_NAMESPACE (loaded_through_key ns) k (Hh1 (Hht Hh))) as (t2 & ? & _). congruence. }
  assert (healthy_txn t1 -> healthy_txn t2) as Hh2.
  { intros Hh. destruct (rel_put t1 MANIFEST_NAMESPACE (loaded_through_key ns) k Hh) as (t3 & ? & ?). congruence. }
  destruct (commit_spec "commit merge chunk" t2 b) as (e & r & Hc & Hr').
  exists e, r. split; [done|]. destruct r as [u|x].
  - destruct Hr' as (Hce & _ & Hhe). split; [|auto].
    rewrite Hce, (spec_put _ _ _ _ _ Hp), Hv1, Hv. unfold marked. by rewrite Hlast.
  - destruct Hr' as [-> Hn]. split; [done|]. intros Hh. apply Hn. auto.
Qed.

(** ** The entries above the mark, chunk by chunk *)
Definition above (mark : option RawKey) (out : list (RawKey * RawValue)) : list (RawKey * RawValue) :=
  List.filter (fun e => match mark with Some m => bytes_ltb m e.1 | None => true end) out.

Lemma sorted_app_inv (l1 l2 : list (RawKey * RawValue)) :
  sorted_run (l1 ++ l2) -> sorted_run l1 /\ sorted_run l2 /\ forall x y, x ∈ l1 -> y ∈ l2 -> before x y.
Proof.
  induction l1 as [|x l1 IH]; [intros; split_and!; [constructor|done|by intros ? ? []%elem_of_nil]|].
  cbn. intros Hs. inversion Hs as [|? ? Hs' Hf]; subst. destruct (IH Hs') as (H1 & H2 & H3).
  apply Forall_app in Hf as [Hf1 Hf2]. split_and!; [by constructor|done|].
  intros y z [->|Hy]%elem_of_cons Hz; [by eapply Forall_forall in Hf2|by apply H3].
Qed.
Lemma below_marked st done_ l :
  sorted_run (done_ ++ l) -> below st (done_ ++ l) -> below (marked ns st done_) l.
Proof.
  intros Hs Hb k e Hk He. destruct (sorted_app_inv _ _ Hs) as (Hd & _ & Hx).
  rewrite marked_own in Hk by (done || by apply sorted_NoDup).
  destruct ((list_to_map done_ : tree) !! k) as [v|] eqn:Hv.
  - apply run_lookup in Hv; [|done]. apply (Hx (k, v) e Hv He).
  - apply Hb; [done|]. apply elem_of_app. by right.
Qed.

Lemma emit_spec mark out chunk done_ st b :
  contents (env b) = marked ns st done_ -> sorted_run (done_ ++ chunk ++ above mark out) ->
  below st (done_ ++ chunk ++ above mark out) ->
  exists done' left e r, emit ns mark out chunk b = Some (with_env b e, r) /\
    done_ ++ chunk ++ above mark out = done' ++ left /\ contents e = marked ns st done' /\
    match r with Ok c => c = left /\ (healthy (env b) -> healthy e) | Err _ => ~ healthy (env b) end.
Proof.
  revert chunk done_ b. induction out as [|[key value] out IH]; intros chunk done_ b Hc Hs Hb; cbn [emit].
  { exists done_, chunk, (env b), (Ok chunk). cbn. rewrite app_nil_r. by destruct b. }
  unfold above in *. cbn [List.filter fst] in *. fold (above mark out) in *.
  assert (Hskip : match mark with Some m => negb (bytes_ltb m key) | None => false end =
                  negb (match mark with Some m => bytes_ltb m key | None => true end)) by by destruct mark.
  rewrite Hskip. destruct (match mark with Some m => bytes_ltb m key | None => true end); cbn [negb]; [|by apply IH].
  assert (Heq : done_ ++ chunk ++ (key, value) :: above mark out = done_ ++ (chunk ++ [(key, value)]) ++ above mark out)
    by by rewrite <- (app_assoc chunk).
  rewrite Heq in *. destruct (CHUNK_SIZE <=? blen_of (chunk ++ [(key, value)])); [|by apply IH].
  rewrite app_assoc in Hs, Hb. destruct (sorted_app_inv _ _ Hs) as (Hs1 & _ & _).
  destruct (flush_chunk_spec (chunk ++ [(key, value)]) b) as (e & r & Hf & Hr).
  { by destruct chunk. }
  { by apply sorted_app_inv in Hs1 as (_ & ? & _). }
  { rewrite Hc. apply below_marked; [done|]. intros k x Hk Hx. apply Hb; [done|]. apply elem_of_app. by left. }
  unfold bind. rewrite Hf. destruct r as [u|x].
  - destruct Hr as [Hce Hhe].
    destruct (IH [] (done_ ++ chunk ++ [(key, value)]) (with_env b e)) as (d & left & e' & r & He & Hsplit & Hct & Hr).
    { cbn [env with_env]. rewrite Hce, Hc. apply marked_app; [done|by destruct chunk]. }
    { by cbn [app]. }
    { by cbn [app]. }
    exists d, left, e', r. split; [exact He|]. rewrite app_assoc, <- Hsplit. split; [done|]. split; [done|].
    cbn [env with_env] in Hr. destruct r; [destruct Hr; auto|auto].
  - destruct Hr as [-> Hn]. eexists done_, _, (env b), _. split; [done|]. split; [reflexivity|]. by split.
Qed.

(** ** Reading the log *)
Lemma heap_push heap rs es : heap_ok heap rs -> heap_ok (reheap (length rs) es heap) (rs ++ [es]).
Proof.
  intros [Hs Hh].
  assert (Hfresh : forall k, (k, length rs) ∉ heap).
  { intros k (v & r & Hi%lookup_lt_Some)%Hh. lia. }
  assert (Hkeep : forall k i, (k, i) ∈ heap <-> exists v r, i <> length rs /\ (rs ++ [es]) !! i = Some ((k, v) :: r)).
  { intros k i. rewrite Hh. split.
    - intros (v & r & Hi). exists v, r. pose proof (lookup_lt_Some _ _ _ Hi). split; [lia|by apply lookup_app_l_Some].
    - intros (v & r & Hne & Hi). exists v, r. apply lookup_app_Some in Hi as [Hi|[Hge Hi]]; [done|].
      apply list_lookup_singleton_Some in Hi as [Hz _]. lia. }
  assert (Hlast : (rs ++ [es]) !! length rs = Some es) by by rewrite lookup_app_r, Nat.sub_diag by lia.
  unfold reheap. destruct es as [|[k' v'] es]; cbn [head].
  - split; [done|]. intros k i. rewrite Hkeep. split; [naive_solver|]. intros (v & r & Hi). exists v, r. split; [|done].
    intros ->. congruence.
  - split; [apply push_sorted; [done|apply Hfresh]|]. intros k i. rewrite push_perm, elem_of_cons, Hkeep. split.
    + intros [[= -> ->]|(v & r & _ & Hi)]; eauto.
    + intros (v & r & Hi). destruct (decide (i = length rs)) as [->|Hne]; [left; congruence|right; eauto].
Qed.
Lemma prime_ok file cursors runs heap rs b :
  Forall2 (cursor_reads file) cursors runs -> heap_ok heap rs -> calm (outcomes b) ->
  exists cursors' heap' os, prime file ns (length rs) cursors heap b = Some (with_outcomes b os, Ok (cursors', heap')) /\
    calm os /\ Forall2 (cursor_reads file) cursors' runs /\ heap_ok heap' (rs ++ runs).
Proof.
  intros Hc. revert heap rs b. induction Hc as [|c es cursors runs Hce Hc IH]; intros heap rs b Hh Hos.
  { exists [], heap, (outcomes b). rewrite app_nil_r. by destruct b. }
  destruct (peek_reads file c (outcomes b) es Hce Hos) as (c1 & os1 & Hp & Ho1 & Hr1).
  destruct (IH (reheap (length rs) es heap) (rs ++ [es]) (with_outcomes b os1) (heap_push _ _ _ Hh) Ho1)
    as (cs & heap' & os & Hpr & Ho & Hcs & Hh').
  exists (c1 :: cs), heap', os. rewrite <- app_assoc in Hh'. split_and!; [|done|by constructor|done].
  cbn [prime]. unfold bind at 1. rewrite (reading_ok ns _ b _ _ Hp). unfold bind at 1.
  rewrite length_app, Nat.add_1_r in Hpr. unfold reheap in Hpr. rewrite Hpr. done.
Qed.

Definition log_of (segs : list (list (RawKey * RawValue))) (bytes : list Z) : Prop :=
  exists encs, Forall2 (fun es enc => encode_segment es = Ok enc) segs encs /\ bytes = mjoin encs.
Lemma build_cursors_ok file encs segs pre post cursors b :
  Forall2 (fun es enc => encode_segment es = Ok enc) segs encs -> file = pre ++ mjoin encs ++ post ->
  blen_of file < 2 ^ 64 -> calm (outcomes b) ->
  exists cs os, build_cursors file ns (length segs) (blen_of pre) cursors b =
      Some (with_outcomes b os, Ok (cursors ++ cs, blen_of (pre ++ mjoin encs))) /\ calm os /\
    Forall2 (cursor_reads file) cs segs.
Proof.
  intros He. revert pre cursors b. induction He as [|es enc segs encs He Hes IH]; intros pre cursors b Hfile Hlen Hos.
  { exists [], (outcomes b). cbn. rewrite !app_nil_r. by destruct b. }
  change (mjoin (enc :: encs)) with (enc ++ mjoin encs) in *.
  assert (Hf : file = pre ++ enc ++ (mjoin encs ++ post)) by by rewrite Hfile, <- !app_assoc.
  destruct (segment_opened file pre es enc _ He Hf Hlen) as (h & Hh & Htot & Hcur).
  destruct (encode_segment_Ok _ _ He) as (p & Hp & _). pose proof (length_segment _ _ _ He Hp) as Hle.
  destruct (calm_next _ Hos) as [Hn Ho]. destruct (next (outcomes b)) as [o os1] eqn:Hnext. cbn [fst snd] in *.
  assert (Hrd : read_exact_at file HEADER_LEN (blen_of pre) o = Some (take HEADER_LEN (drop (length pre) file))).
  { unfold read_exact_at. replace (Z.to_nat (blen_of pre)) with (length pre) by (unfold blen_of; lia).
    assert (length (take HEADER_LEN (drop (length pre) file)) = HEADER_LEN) as ->.
    { rewrite Hf, drop_app_length, length_take, length_app, Hle. lia. }
    rewrite Nat.eqb_refl. by destruct o. }
  destruct (IH (pre ++ enc) (cursors ++ [cursor_new h (blen_of pre)]) (with_outcomes b os1)) as (cs & os & Hb & Hc & Hcs).
  { by rewrite Hf, <- !app_assoc. }
  { done. }
  { done. }
  exists (cursor_new h (blen_of pre) :: cs), os. split_and!; [|done|by constructor].
  cbn [length build_cursors]. unfold bind at 1, call. rewrite Hnext. unfold bind at 1, lift at 1. rewrite Hrd. cbn [ok_or].
  unfold bind at 1, lift at 1. rewrite Hh. cbn [map_err]. unfold bind at 1, lift at 1. rewrite Htot.
  assert (blen_of pre + blen_of enc = blen_of (pre ++ enc)) as Hsum by (unfold blen_of; rewrite length_app; lia).
  rewrite (proj2 (checked_add_Some 64 (blen_of pre) (blen_of enc) (blen_of pre + blen_of enc))).
  2: { split; [done|]. rewrite Hf in Hlen. unfold blen_of in *. rewrite !length_app in Hlen. lia. }
  cbn [ok_or]. rewrite Hsum, Hb. by rewrite <- !app_assoc.
Qed.
Lemma log_entries segs bytes : log_of segs bytes -> (length (mjoin segs) <= length bytes)%nat.
Proof.
  intros (encs & He & ->). induction He as [|es enc segs encs He Hes IH]; [done|].
  change (length (es ++ mjoin segs) <= length (enc ++ mjoin encs))%nat. rewrite !length_app.
  destruct (encode_segment_Ok _ _ He) as (p & Hp & _). rewrite (length_segment _ _ _ He Hp).
  enough (length es <= length p)%nat by lia. clear -Hp. revert p Hp. induction es as [|[k v] es IH]; intros p Hp; [cbn; lia|].
  apply encode_payload_cons in Hp as (k' & v' & rest & [_ ->]%framed_Ok & _ & Hr & ->). specialize (IH _ Hr).
  rewrite !length_app, length_to_be_bytes. cbn [length]. lia.
Qed.
Lemma lists_exists (m : tree) : exists out, lists m out.
Proof.
  exists (merge_sort entry_le (map_to_list m)). split.
  - apply sorted_strict; [apply (StronglySorted_merge_sort entry_le _)|].
    rewrite merge_sort_Permutation. apply NoDup_fst_map_to_list.
  - intros k v. rewrite merge_sort_Permutation. apply elem_of_map_to_list.
Qed.
End Namespace.

(** ** One namespace *)

(** Its log holds these segments, its tree only keys up to the mark. *)
Record pending_log (b : LmdbBackend) (ns : string) (segs : list (list (RawKey * RawValue))) (mark : option RawKey) : Prop := {
  pl_name : ns <> MANIFEST_NAMESPACE /\ is_run_key (run_key ns) = true /\ ns ∈ dbs b;
  pl_log : exists bytes, files b !! log_path ns = Some bytes /\ log_of segs bytes /\ blen_of bytes < 2 ^ 64 /\
    runs (state b) !! ns = Some (mkRunLog (blen_of segs) (blen_of bytes));
  pl_sorted : Forall sorted_run segs;
  pl_mark : contents (env b) !! (MANIFEST_NAMESPACE, loaded_through_key ns) = mark;
  pl_tree k : is_Some (contents (env b) !! (ns, k)) -> exists m, mark = Some m /\ bytes_le k m }.
(** The tree the merge ends with: what it holds up to the mark, the log above. *)
Definition loaded (mark : option RawKey) (k : RawKey) : bool :=
  match mark with Some m => negb (bytes_ltb m k) | None => false end.
Definition merged (st : store) (ns : string) (segs : list (list (RawKey * RawValue))) (mark : option RawKey) (k : RawKey)
    : option RawValue :=
  if loaded mark k then st !! (ns, k) else overlay segs !! k.

Lemma loaded_le mark m k : mark = Some m -> loaded mark k = true <-> bytes_le k m.
Proof.
  intros ->. unfold loaded, bytes_ltb, bytes_le. rewrite (bytes_compare_antisym m k).
  destruct (bytes_compare m k); cbn; naive_solver.
Qed.
Lemma above_elem mark out e : e ∈ above mark out <-> e ∈ out /\ loaded mark e.1 = false.
Proof.
  unfold above. rewrite list_elem_of_In, filter_In, <- list_elem_of_In. unfold loaded. destruct mark as [m|]; [|naive_solver].
  destruct (bytes_ltb m e.1); naive_solver.
Qed.
Lemma above_sorted mark out : sorted_run out -> sorted_run (above mark out).
Proof.
  induction 1 as [|e out Hs IH Hf]; [constructor|]. unfold above in *. cbn [List.filter].
  destruct (match mark with Some m => bytes_ltb m e.1 | None => true end); [|done].
  constructor; [done|]. apply Forall_forall. intros x Hx. rewrite list_elem_of_In, filter_In, <- list_elem_of_In in Hx.
  eapply Forall_forall in Hf; [exact Hf|apply Hx].
Qed.
Lemma last_sorted (l : list (RawKey * RawValue)) e x : sorted_run l -> last l = Some e -> x ∈ l -> bytes_le x.1 e.1.
Proof.
  intros Hs [l' ->]%last_Some Hx. apply sorted_app_inv in Hs as (_ & _ & H12).
  apply elem_of_app in Hx as [Hx|Hx]; [|by apply list_elem_of_singleton in Hx as ->].
  apply bytes_le_lt. right. apply (H12 x e Hx). left.
Qed.

Lemma tree_below (ns : string) (mark : option RawKey) (out : list (RawKey * RawValue)) (st : store) :
  (forall k, is_Some (st !! (ns, k)) -> exists m, mark = Some m /\ bytes_le k m) -> below ns st (above mark out).
Proof.
  intros Htree k x Hk [_ Hx]%above_elem. destruct (Htree k Hk) as (m & -> & Hle). cbn in Hx.
  apply negb_false_iff in Hx. unfold bytes_ltb in Hx. destruct (bytes_compare m x.1) eqn:Hc; try done.
  apply bytes_le_lt in Hle as [->|Hlt]; [done|]. by eapply bytes_compare_trans.
Qed.

(** Loading a prefix of what is above the mark moves the mark and keeps the tree
    the merge ends with. *)
Section Loaded.
Context (st : store) (ns : string) (segs : list (list (RawKey * RawValue))) (mark : option RawKey) (out d left : list (RawKey * RawValue)).
Context (Hns : ns <> MANIFEST_NAMESPACE) (Hout : lists (overlay segs) out) (Hsplit : above mark out = d ++ left).
Context (Htree : forall k, is_Some (st !! (ns, k)) -> exists m, mark = Some m /\ bytes_le k m).
Definition next_mark : option RawKey := match last d with Some e => Some e.1 | None => mark end.

Lemma loaded_tree k : is_Some (st !! (ns, k)) -> loaded mark k = true.
Proof. intros (m & Hm & Hle)%Htree. by apply (loaded_le mark m). Qed.
Lemma prefix_sorted : sorted_run (d ++ left).
Proof. rewrite <- Hsplit. apply above_sorted, Hout. Qed.
Lemma prefix_own k :
  marked ns st d !! (ns, k) = match (list_to_map d : tree) !! k with Some v => Some v | None => st !! (ns, k) end.
Proof. apply marked_own; [done|]. apply sorted_NoDup. exact (proj1 (sorted_app_inv _ _ prefix_sorted)). Qed.
Lemma prefix_elem k v : (list_to_map d : tree) !! k = Some v -> overlay segs !! k = Some v /\ loaded mark k = false.
Proof.
  intros Hv. apply run_lookup in Hv; [|exact (proj1 (sorted_app_inv _ _ prefix_sorted))].
  assert ((k, v) ∈ above mark out) as [Hin Hl]%above_elem by (rewrite Hsplit; apply elem_of_app; by left).
  split; [by apply Hout|done].
Qed.
Lemma next_tree k : is_Some (marked ns st d !! (ns, k)) -> exists m, next_mark = Some m /\ bytes_le k m.
Proof.
  rewrite prefix_own. unfold next_mark. destruct (sorted_app_inv _ _ prefix_sorted) as (Hd & _ & _).
  destruct (last d) as [e|] eqn:Hl.
  - intros Hk. exists e.1. split; [done|]. destruct ((list_to_map d : tree) !! k) as [v|] eqn:Hv.
    + apply run_lookup in Hv; [|done]. by apply (last_sorted d e (k, v)).
    + destruct (Htree k Hk) as (m & Hm & Hle). transitivity m; [done|]. apply last_Some in Hl as [d' Hd'].
      assert (e ∈ above mark out) as [_ He]%above_elem by (rewrite Hsplit, Hd'; set_solver). rewrite Hm in He. cbn in He.
      apply negb_false_iff in He. unfold bytes_ltb in He. apply bytes_le_lt. right. by destruct (bytes_compare m e.1).
  - apply last_None in Hl as ->. cbn. apply Htree.
Qed.
Lemma merged_next k : merged (marked ns st d) ns segs next_mark k = merged st ns segs mark k.
Proof.
  unfold merged. destruct (sorted_app_inv _ _ prefix_sorted) as (Hd & _ & Hdl).
  destruct (last d) as [e|] eqn:Hl.
  2: { unfold next_mark. rewrite Hl. apply last_None in Hl. rewrite Hl. by destruct (loaded mark k). }
  assert (Hnm : next_mark = Some e.1) by (unfold next_mark; by rewrite Hl).
  assert (He : e ∈ d) by (apply last_Some in Hl as [d' ->]; set_solver).
  assert (He' : loaded mark e.1 = false).
  { assert (e ∈ above mark out) as [_ H1]%above_elem by (rewrite Hsplit; set_solver). done. }
  destruct (loaded next_mark k) eqn:Hln.
  - apply (loaded_le _ _ k Hnm) in Hln. rewrite prefix_own. destruct ((list_to_map d : tree) !! k) as [v|] eqn:Hv.
    + destruct (prefix_elem k v Hv) as [-> ->]. done.
    + destruct (loaded mark k) eqn:Hlm; [done|].
      destruct (st !! (ns, k)) eqn:Hst; [by rewrite loaded_tree in Hlm by by eexists|].
      destruct (overlay segs !! k) as [v|] eqn:Hov; [exfalso|done].
      assert ((k, v) ∈ d ++ left) as Hin by (rewrite <- Hsplit; apply above_elem; split; [by apply Hout|done]).
      apply elem_of_app in Hin as [Hin|Hin]; [apply run_lookup in Hin; [congruence|done]|].
      specialize (Hdl e (k, v) He Hin). unfold before in Hdl. cbn in Hdl. unfold bytes_le in Hln.
      by rewrite bytes_compare_antisym, Hdl in Hln.
  - assert (loaded mark k = false) as ->; [|done]. destruct mark as [m|] eqn:Hm; [|done].
    destruct (loaded (Some m) k) eqn:Hlm; [|done]. exfalso. apply (loaded_le _ m k eq_refl) in Hlm.
    enough (loaded next_mark k = true) by congruence. apply (loaded_le _ e.1 k Hnm). transitivity m; [done|].
    cbn in He'. apply negb_false_iff in He'. unfold bytes_ltb in He'. apply bytes_le_lt. right. by destruct (bytes_compare m e.1).
Qed.
(** With nothing left, the tree is that one. *)
Lemma merged_all k : left = [] -> marked ns st d !! (ns, k) = merged st ns segs mark k.
Proof.
  intros Hleft. rewrite prefix_own. unfold merged. destruct ((list_to_map d : tree) !! k) as [v|] eqn:Hv.
  - by destruct (prefix_elem k v Hv) as [-> ->].
  - destruct (loaded mark k) eqn:Hl; [done|].
    destruct (st !! (ns, k)) eqn:Hst; [by rewrite loaded_tree in Hl by by eexists|].
    destruct (overlay segs !! k) as [v|] eqn:Hov; [exfalso|done].
    assert ((k, v) ∈ d) as Hin.
    { assert ((k, v) ∈ d ++ left) as Hin by (rewrite <- Hsplit; apply above_elem; split; [by apply Hout|done]).
      by rewrite Hleft, app_nil_r in Hin. }
    apply run_lookup in Hin; [congruence|]. exact (proj1 (sorted_app_inv _ _ prefix_sorted)).
Qed.
End Loaded.

(** *** The calls around the loop *)
Lemma read_loaded_through_spec ns b :
  exists r, read_loaded_through ns b = Some (b, r) /\
    match r with
    | Ok m => m = contents (env b) !! (MANIFEST_NAMESPACE, loaded_through_key ns)
    | Err _ => ~ healthy (env b)
    end.
Proof.
  unfold read_loaded_through, bind, gets, lmdb, lift. destruct (begin_ro_txn (env b)) as [r|x] eqn:Hr; cbn [map_err].
  2: { eexists. split; [done|]. intros Hh. destruct (rel_ro _ Hh) as (r & ? & _). congruence. }
  rewrite <- (spec_ro _ _ Hr).
  destruct (txn_get r MANIFEST_NAMESPACE (loaded_through_key ns)) as [v|x] eqn:Hg.
  { eexists. split; [done|]. symmetry. by apply spec_get. }
  assert (x <> NotFound -> ~ healthy (env b)) as Hx.
  { intros Hne Hh. destruct (rel_ro _ Hh) as (r' & ? & Hhr). assert (r' = r) as -> by congruence.
    destruct (rel_get r MANIFEST_NAMESPACE (loaded_through_key ns) Hhr) as [?|[v ?]]; congruence. }
  destruct x; eexists; (split; [reflexivity|]); [|by apply Hx..]. symmetry. by apply spec_get_absent.
Qed.
Lemma verify_target_spec ns mark b :
  (forall k, is_Some (contents (env b) !! (ns, k)) -> exists m, mark = Some m /\ bytes_le k m) ->
  exists r, verify_target ns mark b = Some (b, r) /\ match r with Ok _ => True | Err _ => ~ healthy (env b) end.
Proof.
  intros Ht. unfold verify_target, bind, gets, lmdb, lift. destruct (begin_ro_txn (env b)) as [r|x] eqn:Hr; cbn [map_err].
  2: { eexists. split; [done|]. intros Hh. destruct (rel_ro _ Hh) as (r & ? & _). congruence. }
  destruct (open_ro_cursor r ns) as [c|x] eqn:Hc; cbn [map_err].
  2: { eexists. split; [done|]. intros Hh. destruct (rel_ro _ Hh) as (r' & ? & Hhr). assert (r' = r) as -> by congruence.
       destruct (rel_cursor r ns Hhr) as (c & ? & _). congruence. }
  destruct (spec_cursor _ _ _ Hc) as (l & [_ Hl] & _ & _ & Hlast). rewrite (spec_ro _ _ Hr) in Hl.
  destruct (fst (cursor_get c MDB_LAST)) as [[[key|] v]|x] eqn:Hg; cbn [finds] in Hlast.
  - assert ((key, v) ∈ l) as Hin by (apply last_Some in Hlast as [l' ->]; set_solver).
    destruct (Ht key) as (m & -> & Hle); [exists v; by apply Hl|].
    apply (loaded_le (Some m) m key eq_refl) in Hle. cbn in Hle. eexists. unfold ret. rewrite Hle. by split.
  - by eexists.
  - assert (x <> NotFound -> ~ healthy (env b)) as Hx.
    { intros Hne Hh. destruct (rel_ro _ Hh) as (r' & ? & Hhr). assert (r' = r) as -> by congruence.
      destruct (rel_cursor r ns Hhr) as (c' & ? & Hm). assert (c' = c) as -> by congruence. by apply Hm in Hg. }
    destruct x; eexists; (split; [reflexivity|]); [done|by apply Hx..].
Qed.
Lemma del_present_spec operation t db k b :
  exists r, del_present operation t db k b = Some (b, r) /\
    match r with Ok t' => view t' = delete (db, k) (view t) /\ (healthy_txn t -> healthy_txn t') | Err _ => ~ healthy_txn t end.
Proof.
  unfold del_present. destruct (txn_del t db k) as [t'|x] eqn:Ht.
  { eexists. split; [done|]. split; [by apply spec_del|]. intros Hh.
    destruct (rel_del t db k Hh) as [?|(t2 & ? & ?)]; congruence. }
  assert (x <> NotFound -> ~ healthy_txn t) as Hx.
  { intros Hne Hh. destruct (rel_del t db k Hh) as [?|(t2 & ? & ?)]; congruence. }
  destruct x; eexists; (split; [reflexivity|]); [|by apply Hx..].
  split; [|done]. symmetry. by apply delete_id, spec_absent.
Qed.
Lemma clear_manifest_spec ns b :
  exists e r, clear_manifest ns b = Some (with_env b e, r) /\
    match r with
    | Ok _ => contents e = delete (MANIFEST_NAMESPACE, loaded_through_key ns)
                             (delete (MANIFEST_NAMESPACE, run_key ns) (contents (env b))) /\ (healthy (env b) -> healthy e)
    | Err _ => e = env b /\ ~ healthy (env b)
    end.
Proof.
  unfold clear_manifest. unfold bind at 1, gets. unfold bind at 1, lmdb, lift.
  destruct (begin_rw_txn (env b)) as [t|x] eqn:Ht; cbn [map_err].
  2: { exists (env b). eexists. split; [by destruct b|]. split; [done|]. intros Hh.
       destruct (rel_begin _ Hh) as (t & ? & _). congruence. }
  assert (healthy (env b) -> healthy_txn t) as Hht by (intros Hh; destruct (rel_begin _ Hh) as (t' & ? & ?); congruence).
  destruct (del_present_spec "delete manifest entry" t MANIFEST_NAMESPACE (run_key ns) b) as (r1 & Hr1 & Hs1).
  unfold bind at 1. rewrite Hr1. destruct r1 as [t1|x].
  2: { exists (env b). eexists. split; [by destruct b|]. split; [done|auto]. }
  destruct Hs1 as [Hv1 Hh1].
  destruct (del_present_spec "delete manifest entry" t1 MANIFEST_NAMESPACE (loaded_through_key ns) b) as (r2 & Hr2 & Hs2).
  unfold bind at 1. rewrite Hr2. destruct r2 as [t2|x].
  2: { exists (env b). eexists. split; [by destruct b|]. split; [done|auto]. }
  destruct Hs2 as [Hv2 Hh2]. destruct (commit_spec "commit finish txn" t2 b) as (e & r & Hc & Hr).
  exists e, r. split; [done|]. destruct r.
  - destruct Hr as (Hce & _ & Hhe). split; [|auto]. by rewrite Hce, Hv2, Hv1, (spec_begin _ _ Ht).
  - destruct Hr as [-> Hn]. split; [done|]. intros Hh. apply Hn. auto.
Qed.

(** What a merge may touch of the store. *)
Definition manifest_key (ns : string) (db : string) (k : RawKey) : Prop :=
  db = MANIFEST_NAMESPACE /\ (k = run_key ns \/ k = loaded_through_key ns).
Definition elsewhere (ns : string) (st st' : store) : Prop :=
  forall db k, db <> ns -> ~ manifest_key ns db k -> st' !! (db, k) = st !! (db, k).

(** Failed: the mark may have moved; a later call ends with the same tree. *)
Record merge_failed (ns : string) (segs : list (list (RawKey * RawValue))) (mark : option RawKey) (b b' : LmdbBackend) : Prop := {
  mf_state : state b' = state b;
  mf_files : files b' = files b;
  mf_pending : exists mark', pending_log b' ns segs mark' /\
    forall k, merged (contents (env b')) ns segs mark' k = merged (contents (env b)) ns segs mark k;
  mf_entry : contents (env b') !! (MANIFEST_NAMESPACE, run_key ns) = contents (env b) !! (MANIFEST_NAMESPACE, run_key ns);
  mf_why : ~ healthy (env b) }.
Record merge_done (ns : string) (segs : list (list (RawKey * RawValue))) (mark : option RawKey) (b b' : LmdbBackend) : Prop := {
  md_state : state b' = complete_namespace ns (state b);
  md_files : files b' = delete (log_path ns) (files b);
  md_tree k : contents (env b') !! (ns, k) = merged (contents (env b)) ns segs mark k;
  md_manifest k : manifest_key ns MANIFEST_NAMESPACE k -> contents (env b') !! (MANIFEST_NAMESPACE, k) = None;
  md_healthy : healthy (env b) -> healthy (env b') }.
Definition merge_result (ns : string) segs mark (b b' : LmdbBackend) (r : result unit CommitError) : Prop :=
  calm (outcomes b') /\ dbs b' = dbs b /\ key_orders b' = key_orders b /\ elsewhere ns (contents (env b)) (contents (env b')) /\
  match r with Ok _ => merge_done ns segs mark b b' | Err _ => merge_failed ns segs mark b b' end.
Definition moved (b : LmdbBackend) (e : Env) (os : list Outcome) : LmdbBackend :=
  mkLmdb e (dbs b) (key_orders b) (files b) os (state b).

Lemma loaded_not_run ns ns' : is_run_key (run_key ns) = true -> run_key ns <> loaded_through_key ns'.
Proof.
  unfold is_run_key, run_key, loaded_through_key. intros Hr Heq. rewrite Heq in Hr. apply negb_true_iff in Hr.
  unfold ends_with in Hr. apply bool_decide_eq_false in Hr. apply Hr. rewrite length_app.
  replace (length (string_bytes ns') + length LOADED_THROUGH_SUFFIX - length LOADED_THROUGH_SUFFIX)%nat
    with (length (string_bytes ns')) by lia. apply drop_app_length.
Qed.
Lemma failed_at ns segs mark b out d left e os x :
  pending_log b ns segs mark -> lists (overlay segs) out -> above mark out = d ++ left ->
  contents e = marked ns (contents (env b)) d -> calm os -> ~ healthy (env b) ->
  merge_result ns segs mark b (moved b e os) (Err x).
Proof.
  intros [(Hns & Hrk & Hdb) Hlog Hsrt Hmark Htree] Hout Hsplit He Hos Hh. unfold merge_result. split_and!; try done; cbn [env moved].
  - intros db k Hdb' Hk. rewrite He. apply marked_other; [done|]. intros [= -> ->]. apply Hk. by split; [|right].
  - split; try done; cbn [env moved].
    + exists (next_mark mark d). rewrite He. split; [|intros k; by apply (merged_next _ _ _ _ out d left)].
      split; try done; cbn [env moved]; rewrite He.
      * rewrite marked_mark, Hmark. done.
      * intros k. by apply (next_tree _ _ segs mark out d left).
    + rewrite He. apply marked_other; [done|]. intros [= Heq]. by apply loaded_not_run in Heq.
Qed.

(** What is left when the loop ends goes into one more chunk. *)
Lemma last_chunk ns segs mark b out d left e os :
  pending_log b ns segs mark -> lists (overlay segs) out -> above mark out = d ++ left ->
  contents e = marked ns (contents (env b)) d -> (healthy (env b) -> healthy e) ->
  exists e2 r, match left with [] => ret tt | _ => flush_chunk ns left end (moved b e os) = Some (moved b e2 os, r) /\
    match r with
    | Ok _ => contents e2 = marked ns (contents (env b)) (d ++ left) /\ (healthy (env b) -> healthy e2)
    | Err _ => e2 = e /\ ~ healthy (env b)
    end.
Proof.
  intros [(Hns & _ & _) _ _ _ Htree] Hout Hsplit Hce Hhe. destruct left as [|x0 left]; [exists e, (Ok tt); by rewrite app_nil_r|].
  assert (Hsl : sorted_run (d ++ x0 :: left)) by (rewrite <- Hsplit; apply above_sorted, Hout).
  destruct (flush_chunk_spec ns (x0 :: left) (moved b e os)) as (e2 & r & Hf & Hr).
  - done.
  - by apply sorted_app_inv in Hsl as (_ & ? & _).
  - cbn [env moved]. rewrite Hce. apply below_marked; [done|done|]. rewrite <- Hsplit. by apply tree_below.
  - exists e2, r. split; [exact Hf|]. cbn [env moved] in Hr. destruct r.
    + destruct Hr as [-> Hh2]. split; [|auto]. rewrite Hce. by apply marked_app.
    + destruct Hr as [-> Hh2]. auto.
Qed.

Lemma merge_namespace_spec ns segs mark b run :
  pending_log b ns segs mark -> runs (state b) !! ns = Some run -> calm (outcomes b) ->
  exists b' r, merge_namespace ns (rl_segment_count run) (rl_len run) b = Some (b', r) /\ merge_result ns segs mark b b' r.
Proof.
  intros Hp Hrun Hos. pose proof Hp as [(Hns & Hrk & Hdb) (bytes & Hfile & Hlog & Hlen & Hrl) Hsrt Hmark Htree].
  rewrite Hrun in Hrl. injection Hrl as ->. cbn [rl_segment_count rl_len].
  destruct (lists_exists (overlay segs)) as [out Hout].
  assert (Hsame : forall os x, calm os -> ~ healthy (env b) -> merge_result ns segs mark b (moved b (env b) os) (Err x)).
  { intros os x Ho Hh. by apply (failed_at ns segs mark b out [] (above mark out)). }
  assert (Hb : b = moved b (env b) (outcomes b)) by by destruct b.
  unfold merge_namespace. unfold bind at 1. destruct (read_loaded_through_spec ns b) as (r1 & -> & Hr1).
  destruct r1 as [mk|x]; [|eexists _, _; split; [done|rewrite Hb at 2; by apply Hsame]]. rewrite Hmark in Hr1. subst mk.
  unfold bind at 1. destruct (verify_target_spec ns mark b Htree) as (r2 & -> & Hr2).
  destruct r2 as [u|x]; [|eexists _, _; split; [done|rewrite Hb at 2; by apply Hsame]].
  unfold bind at 1, io at 1, bind at 1, call at 1. destruct (calm_next _ Hos) as [Hn Ho1].
  destruct (next (outcomes b)) as [o os1]. cbn [fst snd] in Hn, Ho1.
  replace (match o with Fails => fail (DeferredLogCorrupt ns) | _ => ret tt end (with_outcomes b os1))
    with (Some (with_outcomes b os1, @Ok unit CommitError tt)) by by destruct o.
  unfold bind at 1, gets at 1. cbn [files with_outcomes]. unfold bind at 1, lift at 1. rewrite Hfile. cbn [ok_or].
  pose proof Hlog as (encs & Hencs & Hbytes).
  destruct (build_cursors_ok ns bytes encs segs [] [] [] (with_outcomes b os1) Hencs) as (cs & os2 & Hbc & Ho2 & Hcs);
    [by rewrite app_nil_r|done|done|].
  change (blen_of (@nil Z)) with 0 in Hbc. cbn [app] in Hbc. unfold bind at 1.
  replace (Z.to_nat (blen_of segs)) with (length segs) by (unfold blen_of; lia). rewrite Hbc.
  rewrite <- Hbytes, Z.eqb_refl. cbn [negb].
  destruct (prime_ok ns bytes cs segs [] [] (with_outcomes b os2) Hcs) as (cs' & heap & os3 & Hpr & Ho3 & Hcs' & Hheap);
    [by split; [constructor|intros k i; split; [by intros []%elem_of_nil|by intros (? & ? & ?)]]|done|].
  unfold bind at 1. change (length (@nil (list (RawKey * RawValue)))) with 0%nat in Hpr.
  change (with_outcomes (with_outcomes b os1) os2) with (with_outcomes b os2). rewrite Hpr. cbn [app] in Hheap.
  destruct (merge_loop_emits bytes ns mark out (S (Z.to_nat (blen_of bytes))) cs' heap [] segs (with_outcomes b os3)
    Hout Hcs' Hsrt Hheap Ho3) as (os4 & Ho4 & Hml).
  { pose proof (log_entries segs bytes Hlog). unfold blen_of. lia. }
  unfold bind at 1. change (with_outcomes (with_outcomes b os2) os3) with (with_outcomes b os3). rewrite Hml. clear Hml Hbc Hpr.
  destruct (emit_spec ns Hns mark out [] [] (contents (env b)) (with_outcomes b os3)) as (d & left & e & r & Hem & Hsplit & Hce & Hr).
  { done. }
  { apply above_sorted, Hout. }
  { cbn [app]. by apply tree_below. }
  cbn [app] in Hsplit. rewrite Hem. clear Hem. change (with_outcomes (with_env (with_outcomes b os3) e) os4) with (moved b e os4).
  cbn [env with_outcomes] in Hr. destruct r as [c|x]; [|eexists _, _; split; [done|by apply (failed_at ns segs mark b out d left)]].
  destruct Hr as [-> Hhe].
  destruct (last_chunk ns segs mark b out d left e os4 Hp Hout Hsplit Hce Hhe) as (e2 & r2' & Hfl & Hr2').
  unfold bind at 1. rewrite Hfl. clear Hfl. destruct r2' as [u2|x].
  2: { destruct Hr2' as [-> Hh]. eexists _, _. split; [done|]. by apply (failed_at ns segs mark b out d left). }
  destruct Hr2' as [Hce2 Hh2]. unfold bind at 1. destruct (clear_manifest_spec ns (moved b e2 os4)) as (e3 & r3 & -> & Hr3).
  cbn [env moved] in Hr3. destruct r3 as [u3|x].
  2: { destruct Hr3 as [-> Hh3]. eexists _, _. split; [done|].
       apply (failed_at ns segs mark b out (d ++ left) []); try done; [by rewrite app_nil_r|auto]. }
  destruct Hr3 as [Hce3 Hh3]. unfold bind at 1, gets at 1, bind at 1, put_state at 1, remove_file, bind at 1, call at 1.
  cbn [outcomes with_state with_env moved]. destruct (calm_next _ Ho4) as [Hn5 Ho5].
  destruct (next os4) as [o5 os5]. cbn [fst snd] in Hn5, Ho5. rewrite Hce2 in Hce3.
  exists (mkLmdb e3 (dbs b) (key_orders b) (delete (log_path ns) (files b)) os5 (complete_namespace ns (state b))), (Ok tt).
  split; [by destruct o5|]. unfold merge_result. split_and!; try done; cbn [env].
  - intros db k Hdb' Hk. rewrite Hce3, !lookup_delete_ne, marked_other; try done.
    all: intros Heq; apply Hk; injection Heq as Hx Hy; rewrite <- ?Hx, <- ?Hy; rewrite ?Hx, ?Hy; split; auto.
  - split; try done; cbn [env].
    + intros k. rewrite Hce3, !lookup_delete_ne by congruence.
      by rewrite (merged_all _ _ segs mark out (d ++ left) []) by (done || by rewrite app_nil_r).
    + intros k [_ [->| ->]]; rewrite Hce3.
      * rewrite lookup_delete_ne, lookup_delete_eq; [done|]. intros [= Heq]. symmetry in Heq. by apply loaded_not_run in Heq.
      * by rewrite lookup_delete_eq.
    + auto.
Qed.

(** ** Every namespace *)
Lemma rsplit_log ns : rsplit_dot (log_path ns) = Some (ns, "log").
Proof.
  unfold log_path. induction ns as [|c ns IH]; [done|].
  change (match rsplit_dot (ns +:+ ".log") with
          | Some (before, after) => Some (String c before, after)
          | None => if Ascii.eqb c (Ascii.ascii_of_nat 46) then Some (EmptyString, ns +:+ ".log") else None
          end = Some (String c ns, "log")). by rewrite IH.
Qed.
Lemma log_path_inj ns ns' : log_path ns = log_path ns' -> ns = ns'.
Proof. intros Heq. pose proof (rsplit_log ns) as H1. rewrite Heq, rsplit_log in H1. congruence. Qed.
Lemma manifest_keys_apart ns ns' k :
  is_run_key (run_key ns) = true -> is_run_key (run_key ns') = true -> ns <> ns' ->
  manifest_key ns MANIFEST_NAMESPACE k -> ~ manifest_key ns' MANIFEST_NAMESPACE k.
Proof.
  intros Hr Hr' Hne [_ Hk] [_ Hk'].
  destruct Hk as [->| ->], Hk' as [Hk'|Hk'].
  - by apply string_bytes_inj in Hk'.
  - by apply loaded_not_run in Hk'.
  - symmetry in Hk'. by apply loaded_not_run in Hk'.
  - by apply app_inv_tail, string_bytes_inj in Hk'.
Qed.

Section All.
Context (segs : string -> list (list (RawKey * RawValue))) (mark : string -> option RawKey).

(** Merged, with its manifest entries gone; or still pending, a later call ending
    with the same tree. *)
Definition resolved (b b' : LmdbBackend) (ns : string) : Prop :=
  (runs (state b') !! ns = None /\
   (forall k, contents (env b') !! (ns, k) = merged (contents (env b)) ns (segs ns) (mark ns) k) /\
   forall k, manifest_key ns MANIFEST_NAMESPACE k -> contents (env b') !! (MANIFEST_NAMESPACE, k) = None) \/
  (runs (state b') !! ns = runs (state b) !! ns /\
   exists mark', pending_log b' ns (segs ns) mark' /\
     forall k, merged (contents (env b')) ns (segs ns) mark' k = merged (contents (env b)) ns (segs ns) (mark ns) k).
Definition untouched (names : list string) (st st' : store) : Prop :=
  forall db k, db ∉ names -> (forall ns, ns ∈ names -> ~ manifest_key ns db k) -> st' !! (db, k) = st !! (db, k).

(** Another namespace's merge leaves this one as it was. *)
Lemma pending_kept b b' r ns ns2 segs2 mark2 segs1 mark1 :
  pending_log b ns segs1 mark1 -> pending_log b ns2 segs2 mark2 -> ns <> ns2 -> merge_result ns segs1 mark1 b b' r ->
  pending_log b' ns2 segs2 mark2 /\ runs (state b') !! ns2 = runs (state b) !! ns2 /\
  (forall k, contents (env b') !! (ns2, k) = contents (env b) !! (ns2, k)) /\
  (forall k, manifest_key ns2 MANIFEST_NAMESPACE k ->
     contents (env b') !! (MANIFEST_NAMESPACE, k) = contents (env b) !! (MANIFEST_NAMESPACE, k)).
Proof.
  intros [(Hn1 & Hr1 & _) _ _ _ _] [(Hn2 & Hr2 & Hd2) (bytes & Hf & Hl & Hlen & Hrun) Hs Hm Ht] Hne (_ & Hdbs & _ & Hel & Hr).
  assert (Hst : forall k, contents (env b') !! (ns2, k) = contents (env b) !! (ns2, k)).
  { intros k. apply Hel; [done|]. by intros [? _]. }
  assert (Hmf : forall k, manifest_key ns2 MANIFEST_NAMESPACE k ->
     contents (env b') !! (MANIFEST_NAMESPACE, k) = contents (env b) !! (MANIFEST_NAMESPACE, k)).
  { intros k Hk. apply Hel; [done|]. by apply (manifest_keys_apart ns2 ns). }
  assert (runs (state b') !! ns2 = runs (state b) !! ns2 /\ files b' !! log_path ns2 = files b !! log_path ns2) as [Hrn Hfl].
  { destruct r; destruct Hr as [Hst' Hfl]; rewrite Hst', Hfl; [|done]. split; [by apply lookup_delete_ne|].
    apply lookup_delete_ne. intros Heq. by apply log_path_inj in Heq. }
  split_and!; try done. split; try done.
  - by rewrite Hdbs.
  - exists bytes. by rewrite Hfl, Hrn.
  - rewrite Hmf; [done|]. by split; [|right].
  - intros k. rewrite Hst. apply Ht.
Qed.

Definition pending_of (l : list (string * RunLog)) : list (string * Z * Z) :=
  (fun run => (run.1, rl_segment_count run.2, rl_len run.2)) <$> l.
Lemma merge_all_spec l b :
  NoDup l.*1 -> (forall ns run, (ns, run) ∈ l -> runs (state b) !! ns = Some run /\ pending_log b ns (segs ns) (mark ns)) ->
  calm (outcomes b) ->
  exists b' r, merge_all (pending_of l) b = Some (b', r) /\ calm (outcomes b') /\
    untouched l.*1 (contents (env b)) (contents (env b')) /\ (forall ns, ns ∈ l.*1 -> resolved b b' ns) /\
    (forall ns, ns ∉ l.*1 -> runs (state b') !! ns = runs (state b) !! ns) /\
    match r with
    | Ok _ => (forall ns, ns ∈ l.*1 -> runs (state b') !! ns = None) /\ (healthy (env b) -> healthy (env b'))
    | Err _ => ~ healthy (env b)
    end.
Proof.
  revert b. induction l as [|[ns run] l IH]; intros b Hnd Hp Hos.
  { exists b, (Ok tt). split_and!; try done; by intros ns []%elem_of_nil. }
  cbn [fmap list_fmap fst] in *. apply NoDup_cons in Hnd as [Hnotin Hnd].
  destruct (Hp ns run ltac:(left)) as [Hrun Hpl]. pose proof (pl_name _ _ _ _ Hpl) as (Hns & Hrk & Hdb).
  assert (Hother : forall ns2, ns2 ∈ l.*1 -> ns <> ns2 /\ exists run2, (ns2, run2) ∈ l /\ runs (state b) !! ns2 = Some run2 /\
    pending_log b ns2 (segs ns2) (mark ns2)).
  { intros ns2 H2. split; [by intros ->|]. apply list_elem_of_fmap in H2 as ([n2 run2] & -> & Hin). exists run2.
    destruct (Hp n2 run2 ltac:(by right)). done. }
  destruct (merge_namespace_spec ns (segs ns) (mark ns) b run Hpl Hrun Hos) as (b1 & r1 & Hm & Hres).
  pose proof Hres as (Hos1 & Hdbs & _ & Hel & Hcase).
  change (pending_of ((ns, run) :: l)) with ((ns, rl_segment_count run, rl_len run) :: pending_of l). cbn [merge_all].
  unfold bind at 1, resolve_db, bind at 1, gets. rewrite bool_decide_true by done. unfold ret at 1, bind at 1. rewrite Hm.
  destruct r1 as [u|x].
  2: { destruct Hcase as [Hs Hf Hpend He Hh]. exists b1, (Err x). split_and!; try done.
       - intros db k Hd Hk. apply Hel; [set_solver|]. apply Hk. left.
       - intros n [->|Hn]%elem_of_cons; [right; by rewrite Hs|]. destruct (Hother n Hn) as (Hne & run2 & _ & Hr2 & Hp2).
         destruct (pending_kept b b1 _ ns n _ _ _ _ Hpl Hp2 Hne Hres) as (Hp2' & Hr2' & Hst & _). right. split; [done|].
         exists (mark n). split; [done|]. intros k. unfold merged. by rewrite Hst.
       - intros n _. by rewrite Hs. }
  destruct Hcase as [Hs Hf Htree Hmf Hh].
  destruct (IH b1 Hnd) as (b' & r & Hma & Hos' & Hunt & Hall & Hout & Hr).
  { intros n run2 Hin. assert (n ∈ l.*1) as Hn by (apply list_elem_of_fmap; by exists (n, run2)).
    destruct (Hother n Hn) as (Hne & _). destruct (Hp n run2 ltac:(by right)) as [Hr2 Hp2].
    destruct (pending_kept b b1 _ ns n _ _ _ _ Hpl Hp2 Hne Hres) as (Hp2' & Hr2' & _). by rewrite Hr2'. }
  { done. }
  assert (Hapart : forall db k n, n ∈ l.*1 -> db = ns \/ manifest_key ns db k -> ~ manifest_key n db k).
  { intros db k n Hn Hor. destruct (Hother n Hn) as (Hne & run2 & _ & _ & Hp2).
    pose proof (pl_name _ _ _ _ Hp2) as (_ & Hrk2 & _). intros Hk. pose proof Hk as [-> _].
    destruct Hor as [?|Hor]; [congruence|]. by apply (manifest_keys_apart ns n k) in Hor. }
  exists b', r. split_and!; try done.
  - intros db k Hd Hk. rewrite Hunt; [apply Hel; [set_solver|apply Hk; left]|set_solver|].
    intros n Hn. apply Hk. by right.
  - intros n [->|Hn]%elem_of_cons.
    + left. split_and!.
      * rewrite Hout by done. rewrite Hs. apply lookup_delete_eq.
      * intros k. rewrite Hunt; [apply Htree|done|]. intros n Hn. apply (Hapart _ _ _ Hn). by left.
      * intros k Hk. rewrite Hunt; [by apply Hmf| |intros n Hn; apply (Hapart _ _ _ Hn); by right].
        intros Hin. destruct (Hother _ Hin) as (_ & run2 & _ & _ & Hp2). by destruct (pl_name _ _ _ _ Hp2).
    + destruct (Hother n Hn) as (Hne & run2 & _ & Hr2 & Hp2).
      destruct (pending_kept b b1 _ ns n _ _ _ _ Hpl Hp2 Hne Hres) as (_ & Hr2' & Hst & _).
      assert (forall k, merged (contents (env b1)) n (segs n) (mark n) k = merged (contents (env b)) n (segs n) (mark n) k) as Hmm
        by (intros k; unfold merged; by rewrite Hst).
      destruct (Hall n Hn) as [(H1 & H2 & H3)|(H1 & mark' & H2 & H3)].
      * left. split_and!; [done|intros k; by rewrite H2|done].
      * right. split; [by rewrite H1|]. exists mark'. split; [done|]. intros k. by rewrite H3.
  - intros n Hn. rewrite Hout by set_solver. rewrite Hs. cbn. apply lookup_delete_ne. set_solver.
  - destruct r; [|by intros Hh'; apply Hr, Hh]. destruct Hr as [H1 H2]. split; [|auto].
    intros n [->|Hn]%elem_of_cons; [|auto]. rewrite Hout by done. rewrite Hs. apply lookup_delete_eq.
Qed.

End All.
End Finish.
End LmdbFinish.
