(* ===== verification/LmdbExample.v ===== *)
(** * An environment in memory
    A model of [LmdbSpec] to evaluate the LMDB backend on: a map, the states since
    the last sync, and how many write transactions still fit.  The runs below are of
    the backend's own operations. *)

From S2P Require Import Prelude Types Persistence Codec RunLog Lmdb LmdbMerge LmdbFinish.
From stdpp Require Import base gmap list strings sets sorting.
From Stdlib Require Import ZArith Lia.
Open Scope Z_scope.

Module LmdbExample.
Import Bytes.
Import Kv.
Import Codec.
Import RunLog.
Import Lmdb.
Import LmdbMerge.
Import LmdbFinish.

Record MemEnv := mkMem { m_store : store; m_history : list store; m_room : option nat }.
Definition db_entries (st : store) (db : string) : list (RawKey * RawValue) :=
  merge_sort entry_le ((fun p => (p.1.2, p.2)) <$> filter (fun p => p.1.1 = db) (map_to_list st)).
Definition mem_move (es : list (RawKey * RawValue)) (op : CursorOp) : option (RawKey * RawValue) :=
  match op with
  | MDB_FIRST => head es
  | MDB_LAST => last es
  | MDB_NEXT => None
  | MDB_SET_RANGE key => List.find (fun e => negb (bytes_ltb e.1 key)) es
  end.
Definition mem_put (t : store) (db : string) (k : RawKey) (v : RawValue) (append : bool) : result store LmdbError :=
  if append && negb (forallb (fun e => bytes_ltb e.1 k) (db_entries t db)) then Err KeyExist
  else Ok (<[(db, k) := v]> t).

#[export] Instance memory : LmdbLib := {|
  Env := MemEnv; RwTxn := store; RoTxn := store; LmdbCursor := list (RawKey * RawValue);
  open_db e _ := Err NotFound;
  create_db e _ := Ok e;
  begin_rw_txn e := match m_room e with Some O => Err MapFull | _ => Ok (m_store e) end;
  txn_put := mem_put;
  txn_del t db k := match t !! (db, k) with Some _ => Ok (delete (db, k) t) | None => Err NotFound end;
  txn_commit e t := Ok (mkMem t (t :: m_history e) (pred <$> m_room e));
  begin_ro_txn e := Ok (m_store e);
  txn_get r db k := match r !! (db, k) with Some v => Ok v | None => Err NotFound end;
  open_ro_cursor r db := Ok (db_entries r db);
  cursor_get c op := (match mem_move c op with Some (k, v) => Ok (Some k, v) | None => Err NotFound end, c);
  cursor_iter c := c;
  env_sync e := Ok (mkMem (m_store e) [m_store e] (m_room e)) |}.

Lemma elem_of_db st db k v : (k, v) ∈ db_entries st db <-> st !! (db, k) = Some v.
Proof.
  unfold db_entries. rewrite merge_sort_Permutation, list_elem_of_fmap. split.
  - intros ([[d k'] v'] & [= -> ->] & [Hd Hin]%list_elem_of_filter). cbn in Hd. subst. by apply elem_of_map_to_list.
  - intros Hin. exists ((db, k), v). split; [done|]. apply list_elem_of_filter. split; [done|]. by apply elem_of_map_to_list.
Qed.
Lemma db_entries_ok st db : namespace_entries st db (db_entries st db).
Proof.
  split; [|intros k v; apply elem_of_db]. apply sorted_strict; [apply (StronglySorted_merge_sort entry_le _)|].
  unfold db_entries. rewrite merge_sort_Permutation, <- list_fmap_compose.
  rewrite (list_fmap_ext _ ((fun p : string * RawKey => p.2) ∘ fst)) by done. rewrite list_fmap_compose.
  apply NoDup_fmap_2_strong.
  - intros [d1 k1] [d2 k2] ([[a1 b1] v1] & [= -> ->] & [H1 _]%list_elem_of_filter)%list_elem_of_fmap
      ([[a2 b2] v2] & [= -> ->] & [H2 _]%list_elem_of_filter)%list_elem_of_fmap. cbn in *. by intros ->; subst.
  - assert (NoDup (map_to_list st).*1) as Hnd by apply NoDup_fst_map_to_list. revert Hnd. generalize (map_to_list st).
    induction l as [|x l IH]; [done|]. intros [Hn Hd]%NoDup_cons. rewrite filter_cons. case_decide; [|auto]. cbn.
    apply NoDup_cons. split; [|auto]. intros (y & Hy & [_ Hin]%list_elem_of_filter)%list_elem_of_fmap. apply Hn.
    rewrite Hy. by apply list_elem_of_fmap_2.
Qed.
Lemma mem_finds es op : finds (fst (@cursor_get memory es op)) (mem_move es op).
Proof. cbn. by destruct (mem_move es op) as [[k v]|]. Qed.

#[export] Instance memory_spec : LmdbSpec.
Proof.
  refine {| contents := m_store; history := m_history; view := fun t : @RwTxn memory => t; snapshot := fun r : @RoTxn memory => r;
    healthy := fun e : @Env memory => m_room e = None; healthy_txn := fun _ => True; healthy_ro := fun _ => True |}; cbn.
  - by intros e name e' [= <-].
  - intros e t. destruct (m_room e) as [[|n]|]; by intros [= <-].
  - unfold mem_put. cbn. by intros t db k v t' [= <-].
  - unfold mem_put. intros t db k v t'. destruct (forallb _ _) eqn:Hf; cbn; [|done]. intros [= <-]. split; [done|].
    intros k' [w Hk]. apply elem_of_db in Hk. rewrite forallb_forall in Hf. specialize (Hf (k', w)).
    unfold bytes_ltb in Hf. cbn in Hf. destruct (bytes_compare k' k); [|done|]; by discriminate Hf; apply list_elem_of_In.
  - unfold mem_put. intros t db k v. destruct (forallb _ _) eqn:Hf; cbn; [done|]. intros _.
    destruct (decide (Exists (fun e => bytes_ltb e.1 k = false) (db_entries t db))) as [He|Hn].
    + apply Exists_exists in He as ([k' w] & Hin & Hlt). exists k'. split; [exists w; by apply elem_of_db|].
      unfold bytes_ltb in Hlt. cbn in Hlt. unfold bytes_le. rewrite bytes_compare_antisym. by destruct (bytes_compare k' k).
    + exfalso. assert (forallb (fun e => bytes_ltb e.1 k) (db_entries t db) = true); [|congruence].
      apply forallb_forall. intros x Hx. apply list_elem_of_In in Hx. destruct (bytes_ltb x.1 k) eqn:Hb; [done|].
      destruct Hn. apply Exists_exists. eauto.
  - intros t db k t'. destruct (t !! (db, k)); by intros [= <-].
  - intros t db k. destruct (t !! (db, k)) eqn:Hk; [done|]. by intros _.
  - by intros e t e' [= <-].
  - by intros e r [= <-].
  - intros r db k v. destruct (r !! (db, k)); by intros [= <-].
  - intros r db k. destruct (r !! (db, k)) eqn:Hk; [done|]. by intros _.
  - intros r db c [= <-]. exists (db_entries r db). split_and!; [apply db_entries_ok|done|apply (mem_finds _ MDB_FIRST)|apply (mem_finds _ MDB_LAST)].
  - by intros e e' [= <-].
  - intros e ->. by eexists.
  - intros t db k v _. unfold mem_put. cbn. by eexists.
  - intros t db k v _. unfold mem_put. destruct (true && _); [by left|right; by eexists].
  - intros t db k _. destruct (t !! (db, k)); [right; by eexists|by left].
  - intros e t He _. eexists. split; [done|]. by rewrite He.
  - intros e _. by eexists.
  - intros r db k _. destruct (r !! (db, k)); [right; by eexists|by left].
  - intros r db _. eexists. split; [done|]. intros op x. by destruct (mem_move _ op) as [[? ?]|]; intros [= <-].
Defined.

(** ** Runs *)
Local Existing Instance canonical_iter.

Definition TXIDS : string := "txid_location".
Definition specs : list NamespaceSpec := [mkSpec TXIDS Scattered; meta "_watermark"].
Definition room (n : option nat) : MemEnv := mkMem ∅ [∅] n.
(** Opening again: the map the environment holds, with room. *)
Definition reopened (st : store) : MemEnv := mkMem st [st] None.
Definition opened (e : MemEnv) (fs : gmap string (list Z)) (os : list Outcome) : option LmdbBackend :=
  match open_backend (Ok e) specs fs os with Some (Ok b) => Some b | _ => None end.
(** The state after a call, and whether it succeeded. *)
Definition after {E} (m : M E unit) (b : LmdbBackend) : option (LmdbBackend * bool) :=
  match m b with Some (b, Ok _) => Some (b, true) | Some (b, Err _) => Some (b, false) | None => None end.
Definition steps (l : list (M CommitError unit)) (b : LmdbBackend) : option (LmdbBackend * list bool) :=
  fold_left (fun acc m => let! (b, oks) := acc in let! (b, ok) := after m b in Some (b, oks ++ [ok])) l (Some (b, [])).
Definition bulk : M CommitError unit := begin_bulk (mkPolicy true).
Definition put_tx (k v : Z) : M CommitError unit := commit [Put TXIDS [k] [v]; Put "_watermark" [0] [k]].
Definition held (b : LmdbBackend) (k : Z) : option RawValue := contents (env b) !! (TXIDS, [k]).


(** The calls that create a log, then the write of its first segment. *)
Definition torn : list Outcome := replicate 6 Fine ++ [Short 10].


(** ** A state before its merge *)
Definition mid : LmdbBackend :=
  match (let! b := opened (room None) ∅ [] in steps [bulk; put_tx 5 50; put_tx 3 30] b) with
  | Some (b, _) => b
  | None => mkLmdb (room None) ∅ ∅ ∅ [] (mkState false false ∅ ∅)
  end.
Definition mid_segs (ns : string) : list (list (RawKey * RawValue)) := [[([5], [50])]; [([3], [30])]].
Definition mid_log : list Z := default [] (files mid !! log_path TXIDS).
Lemma mid_runs : runs (state mid) = {[TXIDS := mkRunLog 2 (blen_of mid_log)]}.
Proof. vm_compute. reflexivity. Qed.
Lemma mid_contents :
  contents (env mid) = <[(MANIFEST_NAMESPACE, run_key TXIDS) := encode_run_entry (mkRunEntry 2 (blen_of mid_log))]>
                         {[("_watermark", [0]) := [3]]}.
Proof. vm_compute. reflexivity. Qed.
Lemma mid_pending ns : is_Some (runs (state mid) !! ns) -> pending_log mid ns (mid_segs ns) None.
Proof.
  rewrite mid_runs. intros [run [<- <-]%lookup_singleton_Some]. split.
  - split_and!; [discriminate|reflexivity|apply (bool_decide_unpack _); vm_compute; exact I].
  - exists mid_log. split; [vm_compute; reflexivity|]. split.
    + eexists. split; [repeat constructor; vm_compute; reflexivity|vm_compute; reflexivity].
    + split; [vm_compute; reflexivity|]. by rewrite mid_runs, lookup_singleton_eq.
  - repeat constructor.
  - vm_compute. reflexivity.
  - intros k. rewrite mid_contents, lookup_insert_ne, lookup_singleton_ne by (intros [=]). by intros [? ?].
Qed.
End LmdbExample.
